(* ===== verification/_CoqProject ===== *)
-Q . S2P
Prelude.v
Bytes.v
Common.v
StorageUtils.v
Column.v
AtomicBitSet.v
CircularColumn.v
IntervalMap.v
Transaction.v
TxnSystem.v
DeltaPtr.v
ClassicPtr.v
Locks.v
HybridLatch.v
Versions.v
DeltaStore.v
ReaderProtocol.v
CircularDeltaStore.v
ColumnStore.v
OneShotSafety.v
ArtNode.v
Art.v
OptLock.v
Executor.v
HashArray.v
MemoryPool.v
RadixJoin.v
MemoryManager.v
AsyncQueue.v
Text.v
Dictionary.v
LazyColumn.v
ExprTypes.v
LLVM.v
Expressions.v
Caching.v
Extract.v
Hash.v
Generator.v
GenCorrect.v
Reduce.v
HashJoin.v
GroupBy.v
Atoi.v
Csv.v
ExprParser.v
BlockManager.v
Blocks.v
HashRearrange.v
BlockToTuples.v
Router.v
RingSet.v
Jsmn.v
JsonPlugin.v
CsvPm.v
PlanOps.v
PlanParser.v
PlanTyping.v
PlanRoundtrip.v
