(* ===== verification/Prelude.v ===== *)
(** * Proteus: a verification of its engines

    Proteus is an HTAP database engine.  This development models the transactional side
    ("Aeolus", [src/core/oltp]): multi-version records over columns, the delta stores that
    hold old versions, the transaction registry that decides what may be collected, the
    columns that analytical snapshots are taken from, and the radix-tree index; the expression
    compiler of the analytical side ([src/core/olap]) with the filters and reductions built on
    it; and the parts of the platform both use ([src/core/platform]): the memory manager, the
    queues, the radix join.  The definitions are translated from the C++ and executable; the
    theorems are about them.

    ** The program and where it is modelled

    A record of a table is spread over columns.  Its index entry (in the meta column) carries
    the start time of the transaction that wrote it last and a pointer to a chain of older
    versions.  A transaction reads the main copy if it is visible to it and otherwise walks
    the chain.  Old versions live in circular delta stores, reached through tagged pointers;
    a store is emptied at once when no running transaction can need it (one-shot collection),
    or chains are cut one by one (steam collection).

    A query of the analytical engine is compiled: every operator emits LLVM code for one tuple
    inside the code of its child, and the expressions of the query are compiled by visitors
    that emit the code of their value and of their hash.

    - [Prelude]: results with the ways a C++ routine can end, machine integers, bits, counting;
      [Bytes]: memory chunks as lists of bytes.
    - [Common], [StorageUtils]: [common.hpp], [constants.hpp], [storage-utils.hpp]: version
      stamps and the packed identifiers of rows, columns and records.
    - [Column]: the class [ColumnLike], what the column store relies on in a column, and the
      plain column of [column.cpp].  [CircularColumn]: the column with master copies of
      [circular-master-column.cpp], with snapshots, synchronisation and ETL; it is a
      [ColumnLike] through its master 0.
    - [AtomicBitSet]: [platform/util/atomic_bit_set.hpp], the dirty masks of those copies.
    - [IntervalMap]: [interval-map.hpp], a step function over keys.
    - [Transaction]: timestamps, transactions, the per-thread tables and the registry
      ([transaction.hpp], [txn-table.hpp], [txn-table.cpp], [transaction_manager.hpp],
      [concurrency-control.hpp]).  [TxnSystem]: their interleavings, with [beginTxn] as the two
      atomic actions it is.
    - [DeltaPtr], [ClassicPtr]: the two pointer types of [delta-memory-ptr.hpp].
    - [Versions]: chains of full-record versions ([mv-versions.hpp], [mv-record-list.cpp]) over
      the class [DeltaMemory], which both pointer types implement.
    - [DeltaStore], [CircularDeltaStore], [ReaderProtocol]: [delta_storage.hpp] and
      [delta_storage.cpp]: the bump allocator of a partition with its per-thread caches, the
      store with its epochs and collection, and the reader count as an interleaving of atomic
      actions.
    - [ColumnStore]: the record operations of [column_store.cpp], over [ColumnLike] columns and
      the class [DeltaAlloc] of the delta store they allocate from.
    - [Executor]: how a transaction runs against the delta stores ([transaction_manager.cpp] and
      the delta operations of [schema.hpp]).
    - [OneShotSafety]: the argument that crosses the registry, the stores, the pointers and the
      chains.
    - [MemoryPool]: the chunk pools of [memory-pool.hpp] and the malloc-backed delta store.
    - [Locks], [HybridLatch]: [lock.hpp] and [hybrid-lock.hpp].
    - [HashArray]: the array index of [hash-array.hpp] and [hash-array.cpp].
    - [ArtNode], [Art], [OptLock]: the adaptive radix tree ([art_node.hpp], [art_node.cpp],
      [art.hpp]): node layouts, the tree over integral keys, and the version lock of a node.
    - [LazyColumn]: the column of [lazy-column.cpp], whose updates after a snapshot go to layers.
    - [MemoryManager], [AsyncQueue], [RadixJoin]: [memory-manager.cpp], [async_containers.hpp],
      [radix-join.cpp] and [radix-aggr.cpp] of the platform.
    - [Text], [Dictionary]: scanning and conversions of text and the string dictionaries
      ([olap/lib/util/functions.cpp], [storage-manager.cpp], [expression-parser.cpp]).
    - [ExprTypes], [Expressions]: the types and the classes of expressions, and their order.
    - [LLVM]: what the compilers rely on in LLVM, as a class of builder operations and a class
      of the laws of the language reference, with an interpreter that satisfies them.
    - [Caching]: the registry of cached expressions, over [std::map].
    - [Extract], [Hash], [Generator]: the visitors of [expressions-generator.cpp] and
      [expressions-hasher.cpp]; the plug-ins of the data formats are an interface.
      [GenCorrect]: the reference semantics and the correctness of the compiled code.
    - [Reduce]: selections, null filters and the reduction with its accumulators.
    - [HashJoin], [GroupBy]: the chained hash join with its build side as interleaved atomic
      actions ([hash-join-chained.cpp], [hash-join-chained-morsel.cpp]), and hash aggregation
      ([hash-group-by-chained.cpp], [gmonoids.cpp]).
    - [Atoi], [Csv]: the compiled conversion of digits ([atois.cpp]) and the generated scan of
      a CSV file with its conversions ([csv-plugin.cpp]).
    - [CsvPm]: the CSV plug-in with a positional map ([csv-plugin-pm.cpp]): the code generated
      for a line, the scan of the file that fills the map and the scan that jumps through it.
    - [Jsmn], [JsonPlugin]: the tokenizer of JSON lines ([jsmn.c], [functions.cpp]), and the
      plug-in over it ([json-plugin.cpp], [unnest.cpp]): the scan with its map of token rows, the
      navigation of paths, unnesting, and the flushing of text.
    - [ExprParser]: the parser of the expressions of a plan ([expression-parser.cpp]).
    - [PlanOps], [PlanParser]: the operators of a plan with their traits and the builder that
      puts them together ([relbuilder.cpp], [operators.hpp] and the headers of the operators),
      and the parser of plans with the plug-ins, the catalog and the splits it keeps
      ([plan-parser.cpp]).  [PlanTyping], [PlanRoundtrip]: what the plans it reads obey, and the
      plans it reads back.
    - [BlockManager], [Blocks]: the pools of fixed-size buffers with their reference counts
      ([buffer-manager.cu]), and what generated code keeps in them.
    - [HashRearrange], [BlockToTuples]: the operators that pack tuples into blocks by hash
      ([hash-rearrange.cpp]) and take blocks apart ([block-to-tuples.cpp]).
    - [Router], [RingSet]: the exchange between pipelines with its routing policies
      ([router.cpp], [routing-policy.cpp], [affinitizers]) and the pool of its buffers
      ([threadsafe-set.hpp]).

    ** What the theorems show

    - Snapshot isolation: an update is visible to the snapshots from the writer on, and every
      older snapshot keeps reading what it read ([ColumnStore], [Versions]); inserted records
      are read back; what a deletion does to older snapshots.
    - Garbage collection: a one-shot collection never changes what a running transaction reads
      ([OneShotSafety]); the steam collector keeps every snapshot from the global minimum on
      ([Versions], [Transaction]); the collector excludes the readers in every interleaving
      ([ReaderProtocol]); the registry scan is a lower bound of the running start times in
      every interleaving ([TxnSystem]); a transaction is registered with the store it allocates
      from before its body runs ([Executor]).
    - Memory: chunks handed out never overlap, for any interleaving of threads ([DeltaStore] until
      the next reset, [MemoryPool] until they are released); pointers give back what they were made from and go stale when
      the tag moves ([DeltaPtr], [CircularDeltaStore]).
    - Storage: columns are arrays ([Column]); updates and inserts of a circular column, the
      synchronisation of its masters and its ETL copies ([CircularColumn]).
    - Data structures: the bit set, the interval map, the radix tree as a finite map and its
      nodes as maps, the array index; mutual exclusion of the locks and soundness of optimistic reads;
      the queues are first in first out, the lock-free one in every interleaving.
    - Analytics: compiled expressions compute what they mean, undefined operations included, and
      their hashes are equal exactly if their values are ([GenCorrect]); dates are taken apart as
      the calendar does ([Extract]); reductions compute their aggregates over the tuples that
      pass ([Reduce]); hash joins produce the pairs of a nested loop whatever the interleaving of
      their builders ([HashJoin]), and hash aggregation the groups of its input ([GroupBy]);
      the radix join counts what a nested loop counts ([RadixJoin]); comparing
      expressions terminates ([Expressions]) and serves as the key of the cache ([Caching]);
      dictionaries preserve order and survive their file ([Dictionary]).
    - Data formats: a query over a CSV file computes its aggregate over the rows the text
      denotes ([Csv]), and a scan that jumps through a positional map binds what the scan of
      the file binds ([CsvPm]); the tokens of a line of JSON are those of the tree it spells ([Jsmn]), a
      query over such lines reads the values at its paths, and a name that is absent is read
      past the end of the row ([JsonPlugin]); printed plan expressions parse to what they
      were ([ExprParser]).
    - Plans: every plan that is read obeys the typing rules of its operators ([PlanTyping]), and
      a plan that can be written is read back as it was ([PlanRoundtrip]).
    - Exchanges: a buffer of the block manager is never handed out twice while it is referred
      to ([BlockManager]); repartitioning keeps every tuple, once and in its partition
      ([HashRearrange]), and blocks give back the tuples they were packed from
      ([BlockToTuples]); a router delivers every packet to one target ([Router]), and its pool
      every buffer to one taker ([RingSet]), in every interleaving.

    ** Conventions

    - A [w]-bit unsigned integer is a [Z]; arithmetic that can overflow is wrapped with [u8] to
      [u64].  Bytes are [Z] from 0 to 255, addresses are [Z].
    - A routine that can fail returns [res]; [Err] tells a thrown exception, a failed
      assertion, a fatal log, undefined behaviour and blocking apart.  Assertions are modelled
      as checks.
    - Loops over chains and trees take fuel.  The length of a chain bounds the fuel its
      theorems ask for; a radix tree over [W]-byte keys needs at most [W + 1] steps, and the
      theorems use that bound.  A probe of a hash chain takes the capacity of its table as fuel, the
      release of empty units the size of their stack, and the comparison of two expressions the
      sum of their sizes; the theorems show that these are enough.  The scans of text take the
      length of the file, the tokenizer that of the line, the navigation of a path the length
      of its token row, the parser of expressions the size of the document, and the parser of
      plans their depth.
    - Code that emits code is modelled by the value it emits: an IR value is an element of an
      arbitrary type with a denotation, related by the laws of the instructions.  A loop of
      generated code is unrolled over the tuples it runs on.
    - Concurrency is modelled where the code is written for it: each atomic action is one step
      of a relation over explicit thread states, and the theorems hold in every reachable
      state.  Memory orders weaker than sequential consistency are not modelled.  Elsewhere a
      routine is modelled as run under the latch the code takes.

    ** What is not modelled

    Of the analytical engine: the GPU variants of the operators, whose generated code works on
    device memory, and the scale-out exchanges; the layout of materialised tuples; the plug-ins
    of the binary formats, the hashing and cached values of the JSON plug-in, and the
    maps it keeps on disk; the JIT and the GPU back end; the reading of
    catalog files, the estimates of join sizes and the builders for several servers; the planner
    is Scala.  Of the transactional engine: the schema's
    registry of tables, the cuckoo-map indexes (a library), partial (attribute-list) versions
    and chain consolidation, worker threads and their scheduling, and the operating-system side
    of snapshots, memory and topology. *)


From Stdlib Require Import ZArith Lia Bool.
From stdpp Require Import base numbers list gmap sets.

Local Open Scope Z_scope.

(** ** Results

    A C++ routine of the engine ends normally, throws a
    [std::runtime_error], dies in a glog [LOG(FATAL)], trips an [assert], or
    runs into undefined behaviour (null dereference, an iterator past the end,
    an index out of a [std::vector] accessed with [operator[]]).  *)

Inductive error : Type :=
  | Throw          (* throw std::runtime_error *)
  | OutOfRange     (* std::out_of_range, from .at() *)
  | Fatal          (* LOG(FATAL) *)
  | AssertFailed   (* assert(...) *)
  | Undefined      (* undefined behaviour *)
  | Blocked.       (* spins on a condition another thread has to change *)

#[export] Instance error_eq_dec : EqDecision error.
Proof. solve_decision. Defined.

Inductive res (A : Type) : Type :=
  | Ok (a : A)
  | Err (e : error).
Arguments Ok {A} _.
Arguments Err {A} _.

#[export] Instance res_eq_dec {A} `{EqDecision A} : EqDecision (res A).
Proof. solve_decision. Defined.

Definition rbind {A B} (m : res A) (f : A → res B) : res B :=
  match m with
  | Ok a => f a
  | Err e => Err e
  end.

Declare Scope res_scope.
Delimit Scope res_scope with res.
Notation "'do' x <- m ; k" := (rbind m (λ x, k))
  (at level 10, x pattern, m at level 100, k at level 200)
  : res_scope.
Notation "'check' b 'else' e ; k" := (if b then k else Err e)
  (at level 10, b at level 100, e at level 100, k at level 200)
  : res_scope.

(** [vec.at(i)] against [vec[i]]. *)
Definition of_option {A} (e : error) (o : option A) : res A :=
  match o with Some a => Ok a | None => Err e end.

(** [is_ok r]: the routine returned. *)
Definition is_ok {A} (r : res A) : bool :=
  match r with Ok _ => true | Err _ => false end.

Lemma rbind_Ok_inv {A B} (f : A → res B) m b :
  rbind m f = Ok b → ∃ a, m = Ok a ∧ f a = Ok b.
Proof. destruct m; simpl; [eauto | done]. Qed.

Lemma of_option_Ok {A} e (o : option A) a : of_option e o = Ok a ↔ o = Some a.
Proof. destruct o; simpl; split; congruence. Qed.

(** A loop over a container whose body may fail. *)
Fixpoint rmapM {A B} (f : A → res B) (l : list A) : res (list B) :=
  match l with
  | [] => Ok []
  | x :: l => rbind (f x) (λ y, rbind (rmapM f l) (λ k, Ok (y :: k)))
  end.

Fixpoint rfoldM {A S} (f : S → A → res S) (s : S) (l : list A) : res S :=
  match l with
  | [] => Ok s
  | x :: l => rbind (f s x) (λ s', rfoldM f s' l)
  end.

Lemma rmapM_Ok {A B} (f : A → res B) l k :
  rmapM f l = Ok k ↔ Forall2 (λ x y, f x = Ok y) l k.
Proof.
  revert k. induction l as [| x l IH]; intros k; simpl.
  - split; [intros [= <-]; constructor | by intros ->%Forall2_nil_inv_l].
  - split.
    + intros (y & Hy & (k' & Hk & [= <-])%rbind_Ok_inv)%rbind_Ok_inv.
      constructor; [done | by apply IH].
    + intros (y & k' & Hy & Hk & ->)%Forall2_cons_inv_l.
      rewrite Hy. simpl. apply IH in Hk as ->. done.
Qed.

Lemma rmapM_app {A B} (f : A → res B) l k :
  rmapM f (l ++ k) = rbind (rmapM f l) (λ x, rbind (rmapM f k) (λ y, Ok (x ++ y))).
Proof.
  induction l as [| a l IH]; [simpl; by destruct (rmapM f k) |]. simpl. destruct (f a); [| done]. simpl. rewrite IH.
  destruct (rmapM f l); [| done]. simpl. by destruct (rmapM f k).
Qed.

Lemma rmapM_ext {A A' B} (f : A → res B) (g : A' → res B) l k :
  Forall2 (λ x y, f x = g y) l k → rmapM f l = rmapM g k.
Proof. induction 1 as [| x y l k E _ IH]; simpl; [done |]. by rewrite E, IH. Qed.

Lemma rfoldM_app {A S} (f : S → A → res S) s l k :
  rfoldM f s (l ++ k) = rbind (rfoldM f s l) (λ s', rfoldM f s' k).
Proof.
  revert s. induction l as [| x l IH]; intros s; simpl; [done |].
  destruct (f s x); simpl; [apply IH | done].
Qed.

(** The loop [for (k = 0; k < n; k++)] with an invariant. *)
Lemma rfoldM_seq_inv {St} (f : St → nat → res St) (I : nat → St → Prop) n s :
  I 0%nat s → (∀ k s, (k < n)%nat → I k s → ∃ s', f s k = Ok s' ∧ I (k + 1)%nat s') →
  ∃ s', rfoldM f s (seq 0 n) = Ok s' ∧ I n s'.
Proof.
  intros H0 Hstep.
  assert (∀ m, (m <= n)%nat → ∃ s', rfoldM f s (seq 0 m) = Ok s' ∧ I m s') as H; [| by apply H].
  induction m as [| m IH]; intros Hm; [eauto |].
  destruct IH as (s1 & E1 & H1); [lia |]. destruct (Hstep m s1) as (s2 & E2 & H2); [lia | done |].
  exists s2. rewrite seq_S, rfoldM_app, E1. simpl. rewrite E2. simpl.
  split; [done |]. by replace (S m) with (m + 1)%nat by lia.
Qed.

(** Inverts a chain of binds and checks that ended in [Ok]. *)
Ltac res_inv :=
  repeat match goal with
  | H : rbind _ _ = Ok _ |- _ =>
      apply rbind_Ok_inv in H; destruct H as (? & ? & ?)
  | H : of_option _ _ = Ok _ |- _ => apply of_option_Ok in H
  | H : (if ?b then _ else Err _) = Ok _ |- _ =>
      let E := fresh "Hchk" in destruct b eqn:E; [| discriminate H]
  | H : Ok _ = Ok _ |- _ => injection H as H
  | H : Err _ = Ok _ |- _ => discriminate H
  | p : (_ * _)%type |- _ => destruct p
  end; simpl in *; subst.

(** ** Machine integers

    A [w]-bit unsigned integer is a [Z]; [wrap w] is the conversion to it. *)

Definition wrap (w x : Z) : Z := x mod 2 ^ w.
#[global] Arguments wrap : simpl never.
Abbreviation u8 := (wrap 8).
Abbreviation u16 := (wrap 16).
Abbreviation u32 := (wrap 32).
Abbreviation u64 := (wrap 64).

Definition UINT64_MAX : Z := 2 ^ 64 - 1.
Definition INT64_MIN : Z := - 2 ^ 63.

Lemma wrap_range w x : 0 <= w → 0 <= wrap w x < 2 ^ w.
Proof. intros. apply Z.mod_pos_bound. lia. Qed.

Lemma wrap_id w x : 0 <= x < 2 ^ w → wrap w x = x.
Proof. apply Z.mod_small. Qed.

Lemma wrap_wrap w x : wrap w (wrap w x) = wrap w x.
Proof. unfold wrap. apply Z.mod_mod_divide. reflexivity. Qed.

(** ** Bits *)

Lemma testbit_above n p i : 0 <= n < 2 ^ p → p <= i → Z.testbit n i = false.
Proof.
  intros Hn Hi. destruct (decide (p < 0)).
  { rewrite Z.pow_neg_r in Hn; lia. }
  rewrite <- (Z.mod_small n (2 ^ p)) by done.
  apply Z.mod_pow2_bits_high; lia.
Qed.

Lemma testbit_wrap w x i : 0 <= w → 0 <= i →
  Z.testbit (wrap w x) i = (i <? w) && Z.testbit x i.
Proof.
  intros. unfold wrap. destruct (Z.ltb_spec i w).
  - by rewrite Z.mod_pow2_bits_low by lia.
  - by rewrite Z.mod_pow2_bits_high by lia.
Qed.

Lemma testbit_ones n i : 0 <= n → 0 <= i → Z.testbit (Z.ones n) i = (i <? n).
Proof.
  intros. rewrite Z.testbit_ones by lia.
  by rewrite (proj2 (Z.leb_le 0 i)) by lia.
Qed.

Lemma shiftl_testbit a n i : 0 <= i → 0 <= n →
  Z.testbit (Z.shiftl a n) i = (n <=? i) && Z.testbit a (i - n).
Proof.
  intros. destruct (Z.leb_spec n i).
  - by rewrite Z.shiftl_spec by lia.
  - by rewrite Z.shiftl_spec_low by lia.
Qed.

Create Rewrite HintDb bits.
#[export] Hint Rewrite Z.land_spec Z.lor_spec Z.lxor_spec Z.ldiff_spec
  Z.bits_0 : bits.
#[export] Hint Rewrite shiftl_testbit Z.shiftr_spec testbit_ones testbit_wrap
  using lia : bits.

(** Pushes [Z.testbit] to the leaves, splits on every comparison that occurs,
    and discharges the leaves beyond the width of a bounded operand. *)
Ltac bits_split :=
  repeat match goal with
  | |- context [?a <? ?b] => destruct (Z.ltb_spec a b); simpl; try lia
  | |- context [?a <=? ?b] => destruct (Z.leb_spec a b); simpl; try lia
  end.

Ltac bits_leaf :=
  repeat first
    [ rewrite Z.testbit_neg_r by lia
    | match goal with
      | H : 0 <= ?n < 2 ^ ?p |- context [Z.testbit ?n ?i] =>
          rewrite (testbit_above n p i H) by lia
      end ];
  rewrite ?andb_false_r, ?andb_true_r, ?orb_false_r, ?orb_true_r; simpl.

(** [i - n + n] and the like, left by a shift to and fro. *)
Ltac replace_bit_index :=
  repeat match goal with
  | i : Z |- context [Z.testbit _ ?j] =>
      lazymatch j with i => fail | _ => replace j with i by lia end
  end.

Ltac bits_eq :=
  apply Z.bits_inj'; intros ?i ?Hi;
  do 3 (autorewrite with bits; bits_split); bits_leaf;
  replace_bit_index;
  try solve [reflexivity | f_equal; lia | repeat f_equal; lia].

Lemma land_ones_wrap x n : 0 <= n → Z.land x (Z.ones n) = wrap n x.
Proof. intros. unfold wrap. by apply Z.land_ones. Qed.

Lemma land_range a b : 0 <= a → 0 <= Z.land a b <= a.
Proof.
  intros. split; [by apply Z.land_nonneg; left |].
  assert (Z.land a b = a - Z.ldiff a b) as ->.
  { pose proof (Z.sub_nocarry_ldiff a (Z.ldiff a b)) as ->.
    - apply Z.bits_inj'. intros i Hi. rewrite !Z.ldiff_spec, Z.land_spec.
      by destruct (Z.testbit a i), (Z.testbit b i).
    - apply Z.bits_inj'. intros i Hi. rewrite !Z.ldiff_spec, Z.bits_0.
      by destruct (Z.testbit a i), (Z.testbit b i). }
  assert (0 <= Z.ldiff a b) by (apply Z.ldiff_nonneg; by left). lia.
Qed.

Lemma lor_range a b n : 0 <= n → 0 <= a < 2 ^ n → 0 <= b < 2 ^ n →
  0 <= Z.lor a b < 2 ^ n.
Proof.
  intros Hn Ha Hb. assert (Z.lor a b = wrap n (Z.lor a b)) as ->; [bits_eq |].
  by apply wrap_range.
Qed.

(** ** Counting the elements of a list that satisfy a test *)

Definition count_if {A} (f : A → bool) (l : list A) : Z :=
  Z.of_nat (length (List.filter f l)).

Lemma count_if_nil {A} (f : A → bool) : count_if f [] = 0.
Proof. reflexivity. Qed.

Lemma count_if_cons {A} (f : A → bool) x l :
  count_if f (x :: l) = (if f x then 1 else 0) + count_if f l.
Proof. unfold count_if. simpl. destruct (f x); simpl; lia. Qed.

Lemma count_if_app {A} (f : A → bool) l k :
  count_if f (l ++ k) = count_if f l + count_if f k.
Proof. unfold count_if. rewrite List.filter_app, length_app. lia. Qed.

Lemma count_if_ext {A} (f g : A → bool) l :
  (∀ x, x ∈ l → f x = g x) → count_if f l = count_if g l.
Proof.
  induction l as [| x l IH]; intros Hfg; [done |].
  rewrite !count_if_cons, IH, (Hfg x); [done | left |].
  intros y Hy. apply Hfg. by right.
Qed.

Lemma count_if_fmap {A B} (h : A → B) (f : B → bool) l :
  count_if f (h <$> l) = count_if (λ x, f (h x)) l.
Proof.
  induction l as [| x l IH]; [done |].
  rewrite fmap_cons, !count_if_cons. by rewrite IH.
Qed.

Lemma count_if_pos {A} (f : A → bool) l : 0 < count_if f l ↔ ∃ x, x ∈ l ∧ f x = true.
Proof.
  induction l as [| y l IH].
  - rewrite count_if_nil. split; [lia | by intros (x & Hx%not_elem_of_nil & _)].
  - rewrite count_if_cons. destruct (f y) eqn:E.
    + split; [intros _; exists y; split; [left | done] | unfold count_if; lia].
    + rewrite Z.add_0_l, IH. split; intros (x & Hx & Hf); exists x.
      * split; [by right | done].
      * apply elem_of_cons in Hx as [-> | Hx]; [congruence | done].
Qed.

(** Replacing one element. *)
Lemma count_if_insert {A} (f : A → bool) (l : list A) t a b : l !! t = Some a →
  count_if f (<[t := b]> l) =
  count_if f l - (if f a then 1 else 0) + (if f b then 1 else 0).
Proof.
  revert t. induction l as [| x l IH]; intros [| t] Ht; try done; simpl in *.
  - injection Ht as ->. rewrite !count_if_cons. lia.
  - rewrite !count_if_cons, (IH t Ht). lia.
Qed.

Lemma count_if_two {A} (f : A → bool) (l : list A) t u a b : t ≠ u →
  l !! t = Some a → l !! u = Some b → f a = true → f b = true → 2 <= count_if f l.
Proof.
  revert t u. induction l as [| x l IH]; intros [| t] [| u] Hne Ht Hu Ha Hb; try done; simpl in *;
    rewrite count_if_cons.
  - injection Ht as ->. rewrite Ha.
    assert (0 < count_if f l) by (apply count_if_pos; exists b; split; [by eapply list_elem_of_lookup_2 | done]). lia.
  - injection Hu as ->. rewrite Hb.
    assert (0 < count_if f l) by (apply count_if_pos; exists a; split; [by eapply list_elem_of_lookup_2 | done]). lia.
  - assert (2 <= count_if f l) by (apply (IH t u); naive_solver). destruct (f x); lia.
Qed.

Lemma count_if_perm {A} (P : A → bool) (l k : list A) : l ≡ₚ k → count_if P l = count_if P k.
Proof. induction 1; rewrite ?count_if_cons; lia. Qed.
