(* ===== verification/Bytes.v ===== *)
(** * Bytes: flat memory chunks as lists of bytes, and [memcpy] on them.

    A [mem_chunk] ([oltp/common/memory-chunk.hpp]) is the list of its bytes.  A copy that
    leaves the chunk is undefined behaviour. *)

From S2P Require Import Prelude.
From Stdlib Require Import ZArith Lia Bool.
From stdpp Require Import base numbers list.

Local Open Scope Z_scope.
Local Open Scope res_scope.

Abbreviation bytes := (list Z).
Abbreviation chunk := (list Z).

Definition zlen (b : bytes) : Z := Z.of_nat (length b).

(** [memcpy(dst, chunk + off, n)] *)
Definition read_bytes (b : chunk) (off n : Z) : res bytes :=
  check (0 <=? off) && (0 <=? n) && (off + n <=? zlen b) else Undefined;
  Ok (take (Z.to_nat n) (drop (Z.to_nat off) b)).

(** [memcpy(chunk + off, src, n)] with [n] the length of [src] *)
Definition write_bytes (b : chunk) (off : Z) (src : bytes) : res chunk :=
  check (0 <=? off) && (off + zlen src <=? zlen b) else Undefined;
  Ok (take (Z.to_nat off) b ++ src ++ drop (Z.to_nat (off + zlen src)) b).

(** The first [n] bytes a source pointer gives. *)
Definition source (src : bytes) (n : Z) : res bytes := read_bytes src 0 n.

(** A 64-bit integer in memory, little endian. *)
Definition le64 (x : Z) : bytes :=
  (λ i, Z.land (Z.shiftr x (8 * i)) 255) <$> [0; 1; 2; 3; 4; 5; 6; 7].

Lemma zlen_app a b : zlen (a ++ b) = zlen a + zlen b.
Proof. unfold zlen. rewrite length_app. lia. Qed.

Lemma read_bytes_Ok b off n : 0 <= off → 0 <= n → off + n <= zlen b →
  ∃ r, read_bytes b off n = Ok r ∧ zlen r = n.
Proof.
  intros Ho Hn Hl. unfold read_bytes.
  rewrite (proj2 (Z.leb_le 0 off)), (proj2 (Z.leb_le 0 n)), (proj2 (Z.leb_le _ _) Hl) by lia.
  simpl. eexists. split; [done |]. unfold zlen in *. rewrite length_take, length_drop. lia.
Qed.

Lemma read_bytes_all b : read_bytes b 0 (zlen b) = Ok b.
Proof.
  unfold read_bytes, zlen. rewrite !(proj2 (Z.leb_le _ _)) by lia. simpl.
  rewrite drop_0, Nat2Z.id. by rewrite firstn_all.
Qed.

Lemma source_self src n : zlen src = n → source src n = Ok src.
Proof. intros <-. apply read_bytes_all. Qed.

Lemma write_bytes_Ok b off src : 0 <= off → off + zlen src <= zlen b →
  ∃ b', write_bytes b off src = Ok b' ∧ zlen b' = zlen b.
Proof.
  intros Ho Hl. unfold write_bytes.
  rewrite (proj2 (Z.leb_le 0 off)), (proj2 (Z.leb_le _ _) Hl) by lia. simpl. eexists. split; [done |].
  unfold zlen in *. rewrite !length_app, length_take, length_drop. lia.
Qed.

Lemma write_bytes_inv b off src b' : write_bytes b off src = Ok b' →
  0 <= off ∧ off + zlen src <= zlen b ∧ zlen b' = zlen b ∧
  b' = take (Z.to_nat off) b ++ src ++ drop (Z.to_nat (off + zlen src)) b.
Proof.
  unfold write_bytes. destruct ((0 <=? off) && (off + zlen src <=? zlen b)) eqn:E; [| discriminate].
  apply andb_true_iff in E as [E1%Z.leb_le E2%Z.leb_le]. intros [= <-].
  split; [done |]. split; [done |]. split; [| done].
  unfold zlen in *. rewrite !length_app, length_take, length_drop. lia.
Qed.

(** Byte [i] after a write. *)
Lemma write_bytes_lookup b off src b' i : write_bytes b off src = Ok b' → 0 <= i →
  b' !! Z.to_nat i =
    (if (off <=? i) && (i <? off + zlen src) then src !! Z.to_nat (i - off) else b !! Z.to_nat i).
Proof.
  intros (Ho & Hl & _ & ->)%write_bytes_inv Hi. unfold zlen in *.
  destruct (Z.leb_spec off i), (Z.ltb_spec i (off + Z.of_nat (length src))); simpl; try lia.
  - rewrite lookup_app_r; rewrite length_take; [| lia].
    rewrite lookup_app_l; [f_equal; lia | lia].
  - rewrite lookup_app_r; rewrite length_take; [| lia]. rewrite lookup_app_r; [| lia].
    rewrite lookup_drop. f_equal. lia.
  - rewrite lookup_app_l; [| rewrite length_take; lia]. rewrite lookup_take_lt; [done | lia].
Qed.

Lemma read_bytes_lookup b off n r i : read_bytes b off n = Ok r → 0 <= i < n →
  r !! Z.to_nat i = b !! Z.to_nat (off + i).
Proof.
  unfold read_bytes. destruct (_ && _) eqn:E; [| discriminate]. intros [= <-] Hi.
  apply andb_true_iff in E as [[E1%Z.leb_le E2%Z.leb_le]%andb_true_iff E3%Z.leb_le].
  rewrite lookup_take_lt by lia. rewrite lookup_drop. f_equal. lia.
Qed.

(** Reads are determined by the bytes they cover. *)
Lemma read_bytes_ext b b' off n : zlen b = zlen b' →
  (∀ i, off <= i < off + n → b !! Z.to_nat i = b' !! Z.to_nat i) →
  read_bytes b off n = read_bytes b' off n.
Proof.
  intros Hlen Hext. unfold read_bytes. rewrite Hlen. destruct (_ && _) eqn:E; [| done].
  apply andb_true_iff in E as [[E1%Z.leb_le E2%Z.leb_le]%andb_true_iff E3%Z.leb_le].
  apply (f_equal Ok). apply list_eq. intros i.
  destruct (decide (i < Z.to_nat n)%nat) as [Hi | Hi].
  - rewrite !lookup_take_lt, !lookup_drop by done.
    replace (Z.to_nat off + i)%nat with (Z.to_nat (off + Z.of_nat i)) by lia. apply Hext. lia.
  - rewrite !lookup_take_ge by lia. done.
Qed.

Lemma read_write_same b off src b' : write_bytes b off src = Ok b' →
  read_bytes b' off (zlen src) = Ok src.
Proof.
  intros H. pose proof H as (Ho & Hl & Hlen & _)%write_bytes_inv.
  destruct (read_bytes_Ok b' off (zlen src)) as (r & Hr & Hrl); [done | unfold zlen; lia | lia |].
  rewrite Hr. f_equal. apply list_eq. intros i. unfold zlen in *.
  destruct (decide (i < length src)%nat) as [Hi | Hi].
  - pose proof (read_bytes_lookup _ _ _ _ (Z.of_nat i) Hr ltac:(lia)) as E.
    rewrite Nat2Z.id in E. rewrite E, (write_bytes_lookup _ _ _ _ _ H) by lia. unfold zlen.
    rewrite (proj2 (Z.leb_le _ _)), (proj2 (Z.ltb_lt _ _)) by lia. simpl. f_equal. lia.
  - rewrite !lookup_ge_None_2 by lia. done.
Qed.

Lemma read_write_other b off src b' off' n : write_bytes b off src = Ok b' → 0 <= off' →
  off' + n <= off ∨ off + zlen src <= off' → read_bytes b' off' n = read_bytes b off' n.
Proof.
  intros H Ho Hd. pose proof H as (_ & _ & Hlen & _)%write_bytes_inv.
  apply read_bytes_ext; [done |]. intros i Hi.
  rewrite (write_bytes_lookup _ _ _ _ i H) by lia.
  destruct (Z.leb_spec off i), (Z.ltb_spec i (off + zlen src)); simpl; (done || lia).
Qed.

(** A part of what was read. *)
Lemma read_bytes_sub b off n r o k : read_bytes b off n = Ok r → 0 <= o → 0 <= k → o + k <= n →
  read_bytes r o k = read_bytes b (off + o) k.
Proof.
  unfold read_bytes at 1. destruct (_ && _) eqn:E; [| discriminate]. intros [= <-] Ho Hk Hn.
  apply andb_true_iff in E as [[E1%Z.leb_le E2%Z.leb_le]%andb_true_iff E3%Z.leb_le].
  unfold read_bytes, zlen in *. rewrite length_take, length_drop.
  rewrite !(proj2 (Z.leb_le _ _)) by lia. cbn [andb]. apply (f_equal Ok).
  rewrite skipn_firstn_comm, firstn_firstn, drop_drop. f_equal; [lia |]. f_equal. lia.
Qed.

(** A read inside a written range reads the source. *)
Lemma read_inside_write b b' off src off' n o : write_bytes b off src = Ok b' →
  0 <= o → 0 <= n → o + n <= zlen src → off' = off + o →
  read_bytes b' off' n = read_bytes src o n.
Proof.
  intros H Ho Hn Hl ->. pose proof H as (Hoff & Hb & Hlen & _)%write_bytes_inv.
  destruct (read_bytes_Ok b' (off + o) n) as (r & Hr & Hrl); [lia | lia | lia |].
  destruct (read_bytes_Ok src o n) as (r' & Hr' & Hrl'); [lia | lia | lia |].
  rewrite Hr, Hr'. apply (f_equal Ok). apply list_eq. intros i. unfold zlen in *.
  destruct (decide (i < Z.to_nat n)%nat) as [Hi | Hi].
  - pose proof (read_bytes_lookup _ _ _ _ (Z.of_nat i) Hr ltac:(lia)) as E.
    pose proof (read_bytes_lookup _ _ _ _ (Z.of_nat i) Hr' ltac:(lia)) as E'.
    rewrite Nat2Z.id in E, E'. rewrite E, E', (write_bytes_lookup _ _ _ _ _ H) by lia. unfold zlen.
    rewrite (proj2 (Z.leb_le _ _)), (proj2 (Z.ltb_lt _ _)) by lia. simpl. f_equal. lia.
  - rewrite !lookup_ge_None_2 by lia. done.
Qed.

(** Slots of equal width do not overlap. *)
Lemma slots_disjoint i j u : 0 < u → i ≠ j → i * u + u <= j * u ∨ j * u + u <= i * u.
Proof. intros Hu Hne. destruct (Z.lt_total i j) as [| [|]]; [left; nia | done | right; nia]. Qed.
