(* ===== verification/Common.v ===== *)
(** * Common: the engine's typedefs, configuration constants and the packed
    record timestamp ([oltp/common/common.hpp], [oltp/common/constants.hpp]). *)

From S2P Require Import Prelude.
From Stdlib Require Import ZArith Lia.
From stdpp Require Import base numbers.

Local Open Scope Z_scope.

(** ** Typedefs.  Each is a [Z] kept below the width of the C++ type. *)

Abbreviation rowid_t := Z (only parsing).        (* uint64_t *)
Abbreviation delta_id_t := Z (only parsing).     (* uint8_t *)
Abbreviation xid_t := Z (only parsing).          (* uint64_t *)
Abbreviation worker_id_t := Z (only parsing).    (* uint8_t *)
Abbreviation table_id_t := Z (only parsing).     (* uint8_t *)
Abbreviation column_id_t := Z (only parsing).    (* uint8_t *)
Abbreviation partition_id_t := Z (only parsing). (* uint8_t *)
Abbreviation column_uuid_t := Z (only parsing).  (* uint32_t *)
Abbreviation row_uuid_t := Z (only parsing).     (* uint64_t *)
Abbreviation master_version_t := Z (only parsing). (* uint8_t *)
Abbreviation snapshot_version_t := Z (only parsing). (* uint8_t *)

Inductive SnapshotTypes : Type := SnapNone | CircularMaster | LazyMaster | MVCC.
Inductive GcTypes : Type := NoGC | OneShot | SteamGC.

#[export] Instance SnapshotTypes_eq_dec : EqDecision SnapshotTypes.
Proof. solve_decision. Defined.
#[export] Instance GcTypes_eq_dec : EqDecision GcTypes.
Proof. solve_decision. Defined.

(** The build's configuration. *)
Definition GcMechanism : GcTypes := OneShot.
Definition OneShot_CONSOLIDATION : bool := false.
Definition SteamGC_CONSOLIDATION : bool := false.

Definition MAX_PARTITIONS : Z := 8.
Definition num_master_versions : Z := 1.
Definition delta_switch_bit : Z := 5.
Definition num_delta_storages (gc : GcTypes) : Z :=
  if decide (gc = OneShot) then 4 else 1.

(** ** The packed record timestamp: [deleted] takes one bit, [t_min] the other
    63; storing into [t_min] keeps the low 63 bits. *)
Record ts_t : Type := mk_ts { deleted : bool; t_min : Z }.

#[export] Instance ts_t_eq_dec : EqDecision ts_t.
Proof. solve_decision. Defined.

Definition ts_new (_t_min : xid_t) : ts_t := mk_ts false (wrap 63 _t_min).
Definition set_t_min (t : ts_t) (x : xid_t) : ts_t := mk_ts (deleted t) (wrap 63 x).
Definition set_deleted (t : ts_t) (b : bool) : ts_t := mk_ts b (t_min t).

(** The delta partition a transaction writes its versions to, chosen by its
    start time ([TransactionManager::get_delta_ver]). *)
Definition get_delta_ver (gc : GcTypes) (xid : xid_t) : delta_id_t :=
  if decide (gc = OneShot)
  then u8 (Z.shiftr xid delta_switch_bit mod num_delta_storages gc)
  else 0.

Lemma get_delta_ver_range gc xid : 0 <= xid →
  0 <= get_delta_ver gc xid < num_delta_storages gc.
Proof.
  intros Hx. unfold get_delta_ver, num_delta_storages.
  destruct (decide (gc = OneShot)); [| lia].
  assert (0 <= Z.shiftr xid delta_switch_bit mod 4 < 4)
    by (apply Z.mod_pos_bound; lia).
  rewrite wrap_id; lia.
Qed.
