(* ===== verification/StorageUtils.v ===== *)
(** * StorageUtils: the packing of row identifiers
    ([oltp/storage/storage-utils.hpp]).

    A row id is [ empty:8 | master_ver:8 | partition:8 | offset:40 ]; a row uuid
    replaces the master version by the table id; a column uuid is
    [ table:16 | column:16 ]. *)

From S2P Require Import Prelude Common.
From Stdlib Require Import ZArith Lia Bool.
From stdpp Require Import base numbers.

Local Open Scope Z_scope.

Module StorageUtils.

(** The three-argument [create_vid]. *)
Definition create_vid (vid : rowid_t) (partition_id : partition_id_t)
    (master_ver : master_version_t) : rowid_t :=
  Z.lor (Z.lor (Z.land vid 0x000000FFFFFFFFFF) (u64 (Z.shiftl partition_id 40)))
        (u64 (Z.shiftl master_ver 48)).

(** The two-argument [create_vid]. *)
Definition create_vid2 (vid : rowid_t) (partition_id : partition_id_t) : rowid_t :=
  Z.lor (Z.land vid 0x000000FFFFFFFFFF) (u64 (Z.shiftl partition_id 40)).

Definition update_mVer (vid : rowid_t) (master_version : master_version_t) : rowid_t :=
  Z.lor (Z.land vid 0xFF00FFFFFFFFFFFF) (u64 (Z.shiftl master_version 48)).

Definition get_offset (vid : rowid_t) : rowid_t := Z.land vid 0x000000FFFFFFFFFF.

Definition get_pid (vid : rowid_t) : partition_id_t :=
  u8 (Z.shiftr (Z.land vid 0x0000FF0000000000) 40).

Definition get_m_version (vid : rowid_t) : master_version_t :=
  u8 (Z.shiftr (Z.land vid 0x00FF000000000000) 48).

Definition get_column_uuid (tableId : table_id_t) (columnId : column_id_t)
  : column_uuid_t := Z.lor columnId (u32 (Z.shiftl tableId 16)).

Definition get_tableId_from_columnUuid (columnUuid : column_uuid_t) : table_id_t :=
  u8 (Z.shiftr columnUuid 16).

Definition get_columnId_from_columnUuid (columnUuid : column_uuid_t) : column_id_t :=
  u8 (Z.land columnUuid 0x0000FFFF).

Definition get_row_uuid (tableId : table_id_t) (vid : rowid_t) : row_uuid_t :=
  Z.lor (Z.land vid 0x0000FFFFFFFFFFFF) (u64 (Z.shiftl tableId 48)).

Definition get_tableId_from_rowUuid (row_uuid : row_uuid_t) : table_id_t :=
  u8 (Z.shiftr row_uuid 48).

Definition get_rowId_from_rowUuid (row_uuid : row_uuid_t) : rowid_t :=
  Z.land row_uuid 0x0000FFFFFFFFFFFF.

Definition get_pid_from_rowUuid (row_uuid : row_uuid_t) : partition_id_t :=
  get_pid (get_rowId_from_rowUuid row_uuid).

(** Goals keep the accessors folded. *)
#[global] Arguments create_vid : simpl never.
#[global] Arguments create_vid2 : simpl never.
#[global] Arguments update_mVer : simpl never.
#[global] Arguments get_offset : simpl never.
#[global] Arguments get_pid : simpl never.
#[global] Arguments get_m_version : simpl never.
#[global] Arguments get_column_uuid : simpl never.
#[global] Arguments get_tableId_from_columnUuid : simpl never.
#[global] Arguments get_columnId_from_columnUuid : simpl never.
#[global] Arguments get_row_uuid : simpl never.
#[global] Arguments get_tableId_from_rowUuid : simpl never.
#[global] Arguments get_rowId_from_rowUuid : simpl never.
#[global] Arguments get_pid_from_rowUuid : simpl never.

(** ** Masks as runs of ones *)

Lemma mask40 : 0x000000FFFFFFFFFF = Z.ones 40. Proof. reflexivity. Qed.
Lemma mask48 : 0x0000FFFFFFFFFFFF = Z.ones 48. Proof. reflexivity. Qed.
Lemma mask16 : 0x0000FFFF = Z.ones 16. Proof. reflexivity. Qed.
Lemma maskpid : 0x0000FF0000000000 = Z.shiftl (Z.ones 8) 40. Proof. reflexivity. Qed.
Lemma maskmv : 0x00FF000000000000 = Z.shiftl (Z.ones 8) 48. Proof. reflexivity. Qed.
Lemma masknomv : 0xFF00FFFFFFFFFFFF = Z.lor (Z.shiftl (Z.ones 8) 56) (Z.ones 48).
Proof. reflexivity. Qed.

(** Unfolds the accessors and normalises the masks, leaving a bitwise goal. *)
Ltac vid_bits :=
  unfold get_pid_from_rowUuid, get_rowId_from_rowUuid, get_tableId_from_rowUuid,
    get_row_uuid, get_columnId_from_columnUuid, get_tableId_from_columnUuid,
    get_column_uuid, get_m_version, get_pid, get_offset, update_mVer, create_vid2,
    create_vid;
  rewrite ?mask40, ?mask48, ?mask16, ?maskpid, ?maskmv, ?masknomv; bits_eq.

Section roundtrips.
Context (vid pid mver tid cid : Z).
Hypothesis (Hpid : 0 <= pid < 2 ^ 8) (Hm : 0 <= mver < 2 ^ 8).
Hypothesis (Htid : 0 <= tid < 2 ^ 8) (Hcid : 0 <= cid < 2 ^ 8).

Lemma get_offset_create_vid : get_offset (create_vid vid pid mver) = wrap 40 vid.
Proof using Hpid Hm. vid_bits. Qed.

Lemma get_pid_create_vid : get_pid (create_vid vid pid mver) = pid.
Proof using Hpid Hm. vid_bits. Qed.

Lemma get_m_version_create_vid : get_m_version (create_vid vid pid mver) = mver.
Proof using Hpid Hm. vid_bits. Qed.

Lemma create_vid2_0 : create_vid2 vid pid = create_vid vid pid 0.
Proof using Hpid. vid_bits. Qed.

Lemma get_offset_update_mVer : get_offset (update_mVer vid mver) = get_offset vid.
Proof using Hm. vid_bits. Qed.

Lemma get_pid_update_mVer : get_pid (update_mVer vid mver) = get_pid vid.
Proof using Hm. vid_bits. Qed.

Lemma get_m_version_update_mVer : get_m_version (update_mVer vid mver) = mver.
Proof using Hm. vid_bits. Qed.

Lemma get_tableId_column_uuid :
  get_tableId_from_columnUuid (get_column_uuid tid cid) = tid.
Proof using Htid Hcid. vid_bits. Qed.

Lemma get_columnId_column_uuid :
  get_columnId_from_columnUuid (get_column_uuid tid cid) = cid.
Proof using Htid Hcid. vid_bits. Qed.

Lemma get_tableId_row_uuid : get_tableId_from_rowUuid (get_row_uuid tid vid) = tid.
Proof using Htid. vid_bits. Qed.

Lemma get_rowId_row_uuid : get_rowId_from_rowUuid (get_row_uuid tid vid) = wrap 48 vid.
Proof using Htid. vid_bits. Qed.

Lemma get_pid_row_uuid : get_pid_from_rowUuid (get_row_uuid tid vid) = get_pid vid.
Proof using Htid. vid_bits. Qed.
End roundtrips.

Lemma create_vid_accessors vid : 0 <= vid < 2 ^ 56 →
  create_vid (get_offset vid) (get_pid vid) (get_m_version vid) = vid.
Proof. intros Hv. vid_bits. Qed.

Lemma get_offset_range vid : 0 <= get_offset vid < 2 ^ 40.
Proof. unfold get_offset. rewrite mask40, land_ones_wrap by lia. apply wrap_range; lia. Qed.

Lemma get_pid_range vid : 0 <= get_pid vid < 2 ^ 8.
Proof. unfold get_pid. apply wrap_range; lia. Qed.

(** The three packed identifiers round-trip at their field widths: a row id built
    from an offset, a partition and a master version gives the three back and survives
    a change of the master version in its other fields; a row uuid gives back its table,
    its 48-bit row id and the partition of that row; a column uuid gives back its table
    and column. *)
Theorem packed_ids_roundtrip (off pid mver mver' tid cid : Z) :
  0 <= off < 2 ^ 40 → 0 <= pid < 2 ^ 8 → 0 <= mver < 2 ^ 8 → 0 <= mver' < 2 ^ 8 →
  0 <= tid < 2 ^ 8 → 0 <= cid < 2 ^ 8 →
  let v := create_vid off pid mver in
  (get_offset v, get_pid v, get_m_version v) = (off, pid, mver) ∧
  (let w := update_mVer v mver' in
   (get_offset w, get_pid w, get_m_version w) = (off, pid, mver')) ∧
  (let r := get_row_uuid tid v in
   (get_tableId_from_rowUuid r, get_rowId_from_rowUuid r, get_pid_from_rowUuid r)
     = (tid, create_vid2 off pid, pid)) ∧
  (let c := get_column_uuid tid cid in
   (get_tableId_from_columnUuid c, get_columnId_from_columnUuid c) = (tid, cid)).
Proof.
  intros Ho Hp Hm Hm' Ht Hc. cbv zeta.
  assert (wrap 48 (create_vid off pid mver) = create_vid2 off pid) as E by vid_bits.
  rewrite get_offset_update_mVer, get_pid_update_mVer, get_m_version_update_mVer by done.
  rewrite get_tableId_row_uuid, get_rowId_row_uuid, get_pid_row_uuid, E by done.
  rewrite get_tableId_column_uuid, get_columnId_column_uuid by done.
  rewrite get_offset_create_vid, get_pid_create_vid, get_m_version_create_vid by done.
  rewrite wrap_id by done. repeat split.
Qed.

Lemma packed_ids_roundtrip_witness :
  let v := create_vid 77 3 1 in
  (get_offset v, get_pid v, get_m_version v) = (77, 3, 1) ∧
  (let w := update_mVer v 2 in (get_offset w, get_pid w, get_m_version w) = (77, 3, 2)) ∧
  (let r := get_row_uuid 9 v in
   (get_tableId_from_rowUuid r, get_rowId_from_rowUuid r, get_pid_from_rowUuid r)
     = (9, create_vid2 77 3, 3)) ∧
  (let c := get_column_uuid 9 4 in
   (get_tableId_from_columnUuid c, get_columnId_from_columnUuid c) = (9, 4)).
Proof. apply (packed_ids_roundtrip 77 3 1 2 9 4); lia. Defined.

End StorageUtils.
