(* ===== verification/Column.v ===== *)
(** * Column: the partitioned single-version column
    ([Column] in [oltp/storage/layout/column_store.hpp] and
    [lib/storage/layout/column-store/column.cpp]).

    [ColumnLike] is what the column store relies on in any of its columns (the virtual
    methods of [Column]): an element written at a row is read back from that row, and the
    other rows keep theirs.  [Module Column] models the plain column and discharges the
    interface. *)

From S2P Require Import Prelude Bytes Common StorageUtils.
From Stdlib Require Import ZArith Lia Bool.
From stdpp Require Import base numbers list.

Local Open Scope Z_scope.
Local Open Scope res_scope.

(** ** The interface *)

(** Two row ids that name the same slot: same partition, same offset. *)
Definition same_slot (u v : rowid_t) : bool :=
  (StorageUtils.get_pid u =? StorageUtils.get_pid v) &&
  (StorageUtils.get_offset u =? StorageUtils.get_offset v).

Class ColumnLike (C : Type) : Type := {
  unit_of : C → Z;
  offset_of : C → Z;                                   (* byteOffset_record *)
  col_get : C → rowid_t → res bytes;                   (* getElem(vid, dst) *)
  col_update : C → rowid_t → option bytes → res C;     (* updateElem *)
  col_insert : C → rowid_t → option bytes → res C;     (* insertElem *)
  in_range : C → rowid_t → bool;
  col_wf : C → Prop;
  (** [c'] is [c] with the element of row [v] replaced by [d]. *)
  replaced (c c' : C) (v : rowid_t) (d : bytes) : Prop :=
    col_wf c' ∧ unit_of c' = unit_of c ∧ offset_of c' = offset_of c ∧
    (∀ u, in_range c' u = in_range c u) ∧
    (∀ u, in_range c u = true → col_get c' u = if same_slot u v then Ok d else col_get c u);
  col_get_ok : ∀ c v, col_wf c → in_range c v = true →
    ∃ b, col_get c v = Ok b ∧ zlen b = unit_of c;
  col_update_ok : ∀ c v d, col_wf c → in_range c v = true → zlen d = unit_of c →
    ∃ c', col_update c v (Some d) = Ok c' ∧ replaced c c' v d;
  col_insert_ok : ∀ c v d, col_wf c → in_range c v = true → zlen d = unit_of c →
    ∃ c', col_insert c v (Some d) = Ok c' ∧ replaced c c' v d
}.

Lemma same_slot_refl v : same_slot v v = true.
Proof. unfold same_slot. by rewrite !Z.eqb_refl. Qed.

Lemma same_slot_true u v : same_slot u v = true ↔
  StorageUtils.get_pid u = StorageUtils.get_pid v ∧
  StorageUtils.get_offset u = StorageUtils.get_offset v.
Proof. unfold same_slot. by rewrite andb_true_iff, !Z.eqb_eq. Qed.

Module Column.

Inductive data_type : Type :=
  META | MEMREF | INTEGER | STRING | FLOAT | VARCHAR | DATE | DSTRING.

#[global] Instance data_type_eq : EqDecision data_type.
Proof. solve_decision. Defined.

Record Column : Type := mk {
  column_id : column_id_t;
  type : data_type;
  unit_size : Z;
  n_partitions : partition_id_t;
  byteOffset_record : Z;
  single_version_only : bool;
  snapshotType : SnapshotTypes;
  total_size : Z;
  total_size_per_partition : Z;
  capacity : Z;
  capacity_per_partition : Z;
  primaryData : list (list chunk)            (* [MAX_PARTITIONS] *)
}.

Definition with_data (c : Column) (d : list (list chunk)) : Column :=
  mk (column_id c) (type c) (unit_size c) (n_partitions c) (byteOffset_record c)
     (single_version_only c) (snapshotType c) (total_size c) (total_size_per_partition c)
     (capacity c) (capacity_per_partition c) d.

(** The constructor for a stand-alone column: zeroed chunks, one per partition. *)
Definition Column_new (id : column_id_t) (ty : data_type) (unit off : Z) (g_num_partitions : Z)
    (numa_partitioned : bool) (reserved_capacity : Z) (st : SnapshotTypes) : Column :=
  let n := if numa_partitioned then g_num_partitions else 1 in
  let cap := u64 (reserved_capacity / n + reserved_capacity mod n) in
  let total := u64 (cap * unit) in
  mk id ty unit n off true st (u64 (total * n)) total reserved_capacity cap
     ((λ j, if Z.of_nat j <? n then [replicate (Z.to_nat total) 0] else [])
        <$> seq 0 (Z.to_nat MAX_PARTITIONS)).

(** [primaryData[pid]]: an array of [MAX_PARTITIONS] vectors. *)
Definition chunks_at (l : list (list chunk)) (pid : Z) : res (list chunk) :=
  of_option Undefined (l !! Z.to_nat pid).

(** The loop that [getElem] shares over the chunks; [size_t] arithmetic. *)
Fixpoint get_loop (unit data_idx : Z) (chunks : list chunk) : res bytes :=
  match chunks with
  | [] => Err AssertFailed
  | c :: cs =>
      if u64 (data_idx + unit) <=? zlen c then read_bytes c data_idx unit
      else get_loop unit (u64 (data_idx - zlen c)) cs
  end.

Definition getElem (c : Column) (vid : rowid_t) : res bytes :=
  do chunks <- chunks_at (primaryData c) (StorageUtils.get_pid vid);
  get_loop (unit_size c) (u64 (StorageUtils.get_offset vid * unit_size c)) chunks.

(** [getElem(vid)], which returns a pointer into the column: only for the meta-column, and only
    into the first chunk; the bytes behind the pointer. *)
Definition getElemRef (c : Column) (vid : rowid_t) : res bytes :=
  check bool_decide (type c = META) else Fatal;
  check StorageUtils.get_m_version vid =? 0 else Fatal;
  do chunks <- chunks_at (primaryData c) (StorageUtils.get_pid vid);
  match chunks with
  | [] => Err AssertFailed
  | chunk :: _ =>
      let data_idx := u64 (StorageUtils.get_offset vid * unit_size c) in
      if u64 (data_idx + unit_size c) <=? zlen chunk then read_bytes chunk data_idx (unit_size c)
      else Err AssertFailed
  end.

(** What [UpdateInPlace] stores: the element, or the 64-bit 25 of the null-data hack. *)
Definition stored (unit : Z) (data : option bytes) : res bytes :=
  match data with
  | Some d => source d unit
  | None => Ok (le64 25)
  end.

(** The loop of [UpdateInPlace]: the Boolean it returns, and the chunks. *)
Fixpoint update_loop (unit offset : Z) (data : option bytes) (chunks : list chunk)
  : res (bool * list chunk) :=
  match chunks with
  | [] => Ok (false, [])
  | c :: cs =>
      if u64 (offset + unit) <=? zlen c then
        check offset + unit <=? zlen c else AssertFailed;
        do d <- stored unit data;
        do c' <- write_bytes c offset d;
        Ok (true, c' :: cs)
      else
        do (ok, cs') <- update_loop unit (u64 (offset - zlen c)) data cs;
        Ok (ok, c :: cs')
  end.

Definition UpdateInPlace (chunks : list chunk) (offset unit : Z) (data : option bytes)
  : res (bool * list chunk) :=
  update_loop unit (u64 (offset * unit)) data chunks.

(** [updateElem] and [insertElem] with data have the same body. *)
Definition updateElem (c : Column) (vid : rowid_t) (elem : option bytes) : res Column :=
  let pid := StorageUtils.get_pid vid in
  let offset := StorageUtils.get_offset vid in
  check pid <? n_partitions c else AssertFailed;
  check offset <? capacity_per_partition c else AssertFailed;
  do chunks <- chunks_at (primaryData c) pid;
  do (ok, chunks') <- UpdateInPlace chunks offset (unit_size c) elem;
  check (ok : bool) else AssertFailed;
  Ok (with_data c (<[Z.to_nat pid := chunks']> (primaryData c))).

Definition insertElem (c : Column) (vid : rowid_t) (elem : option bytes) : res Column :=
  let pid := StorageUtils.get_pid vid in
  let offset := StorageUtils.get_offset vid in
  check pid <? n_partitions c else AssertFailed;
  check offset <? capacity_per_partition c else AssertFailed;
  do chunks <- chunks_at (primaryData c) pid;
  do (ok, chunks') <- UpdateInPlace chunks offset (unit_size c) elem;
  check (ok : bool) else AssertFailed;
  Ok (with_data c (<[Z.to_nat pid := chunks']> (primaryData c))).

(** The chunk loop of the batch insert: no offset adjustment between chunks. *)
Fixpoint batch_loop (unit st en : Z) (src : bytes) (chunks : list chunk) : res (list chunk) :=
  match chunks with
  | [] => Err AssertFailed
  | c :: cs =>
      if u64 (en + unit) <=? zlen c then
        do c' <- write_bytes c st src; Ok (c' :: cs)
      else do cs' <- batch_loop unit st en src cs; Ok (c :: cs')
  end.

Definition insertElemBatch (g_num_partitions : Z) (c : Column) (vid : rowid_t) (num_elem : Z)
    (source_data : bytes) : res Column :=
  let pid := StorageUtils.get_pid vid in
  let data_idx_st := u64 (StorageUtils.get_offset vid * unit_size c) in
  let copy_size := u64 (num_elem * unit_size c) in
  let data_idx_en := u64 (data_idx_st + copy_size) in
  check pid <? g_num_partitions else AssertFailed;
  check data_idx_en / unit_size c <? capacity_per_partition c else AssertFailed;
  check data_idx_en <? total_size_per_partition c else AssertFailed;
  do src <- source source_data copy_size;
  do chunks <- chunks_at (primaryData c) pid;
  do chunks' <- batch_loop (unit_size c) data_idx_st data_idx_en src chunks;
  Ok (with_data c (<[Z.to_nat pid := chunks']> (primaryData c))).

(** ** Well-formedness: one chunk per partition, of exactly the partition's capacity *)

Definition wf (c : Column) : Prop :=
  0 < unit_size c ∧ 0 <= n_partitions c <= MAX_PARTITIONS ∧
  0 <= capacity_per_partition c ∧
  capacity_per_partition c * unit_size c + unit_size c < 2 ^ 63 ∧
  total_size_per_partition c = capacity_per_partition c * unit_size c ∧
  ∀ pid, 0 <= pid < n_partitions c →
    ∃ b, primaryData c !! Z.to_nat pid = Some [b] ∧
         zlen b = capacity_per_partition c * unit_size c.

Definition row_in_range (c : Column) (vid : rowid_t) : bool :=
  (StorageUtils.get_pid vid <? n_partitions c) &&
  (StorageUtils.get_offset vid <? capacity_per_partition c).

(** The chunk of a row in range, with the arithmetic it supports. *)
Lemma row_chunk c vid : wf c → row_in_range c vid = true →
  let o := StorageUtils.get_offset vid in
  ∃ b, primaryData c !! Z.to_nat (StorageUtils.get_pid vid) = Some [b] ∧
    zlen b = capacity_per_partition c * unit_size c ∧
    0 <= o * unit_size c ∧ o * unit_size c + unit_size c <= zlen b ∧ zlen b < 2 ^ 63 ∧
    u64 (o * unit_size c) = o * unit_size c ∧
    u64 (o * unit_size c + unit_size c) = o * unit_size c + unit_size c.
Proof.
  intros (Hu & Hn & Hc & Hb & _ & Hp) Hr. unfold row_in_range in Hr.
  apply andb_true_iff in Hr as [Hpid%Z.ltb_lt Ho%Z.ltb_lt].
  pose proof (StorageUtils.get_pid_range vid). pose proof (StorageUtils.get_offset_range vid).
  destruct (Hp (StorageUtils.get_pid vid)) as (b & Hbl & Hlen); [lia |]. exists b.
  assert (0 <= StorageUtils.get_offset vid * unit_size c) by nia.
  assert (StorageUtils.get_offset vid * unit_size c + unit_size c <= zlen b) by (rewrite Hlen; nia).
  split; [done |]. split; [done |]. split; [done |]. split; [done |]. split; [lia |].
  split; apply wrap_id; lia.
Qed.

(** [getElem] reads the slot. *)
Lemma getElem_slot c vid : wf c → row_in_range c vid = true →
  ∃ b, primaryData c !! Z.to_nat (StorageUtils.get_pid vid) = Some [b] ∧
    getElem c vid = read_bytes b (StorageUtils.get_offset vid * unit_size c) (unit_size c).
Proof.
  intros Hwf Hr. destruct (row_chunk c vid Hwf Hr) as (b & Hb & Hlen & H0 & Hle & Hlt & E1 & E2).
  exists b. split; [done |]. unfold getElem, chunks_at. rewrite Hb. cbn [of_option rbind get_loop].
  rewrite E1, E2. by rewrite (proj2 (Z.leb_le _ _) Hle).
Qed.

(** On a meta-column the pointer points to what [getElem] copies. *)
Lemma getElemRef_get c vid : wf c → row_in_range c vid = true → StorageUtils.get_m_version vid = 0 →
  getElemRef c vid = if bool_decide (type c = META) then getElem c vid else Err Fatal.
Proof.
  intros Hwf Hr Hm. destruct (row_chunk c vid Hwf Hr) as (b & Hb & _ & _ & Hle & _ & E1 & E2).
  unfold getElemRef, getElem, chunks_at. rewrite Hm, Hb. destruct (bool_decide _); [| done].
  cbn [Z.eqb of_option rbind get_loop]. rewrite E1, E2. by rewrite (proj2 (Z.leb_le _ _) Hle).
Qed.

(** [UpdateInPlace] on a single chunk large enough writes the slot. *)
Lemma UpdateInPlace_slot b o unit d : 0 < unit → zlen d = unit → 0 <= o * unit →
  o * unit + unit <= zlen b → zlen b < 2 ^ 63 →
  ∃ b', write_bytes b (o * unit) d = Ok b' ∧ zlen b' = zlen b ∧
    UpdateInPlace [b] o unit (Some d) = Ok (true, [b']).
Proof.
  intros Hu Hd H0 Hle Hlt. destruct (write_bytes_Ok b (o * unit) d) as (b' & Hw & Hl); [lia | lia |].
  exists b'. split; [done |]. split; [done |]. unfold UpdateInPlace, update_loop.
  rewrite !wrap_id by (rewrite ?wrap_id; lia). rewrite (proj2 (Z.leb_le _ _) Hle).
  cbn [stored]. rewrite (source_self d unit Hd). cbn [rbind]. by rewrite Hw.
Qed.

(** What replacing the chunk of a partition does to a read. *)
Lemma getElem_with c vid u b b' d :
  wf c → row_in_range c vid = true → row_in_range c u = true →
  primaryData c !! Z.to_nat (StorageUtils.get_pid vid) = Some [b] → zlen b' = zlen b →
  zlen d = unit_size c →
  write_bytes b (StorageUtils.get_offset vid * unit_size c) d = Ok b' →
  let c' := with_data c (<[Z.to_nat (StorageUtils.get_pid vid) := [b']]> (primaryData c)) in
  wf c' → getElem c' u = if same_slot u vid then Ok d else getElem c u.
Proof.
  intros Hwf Hv Hu Hb Hlen Hd Hw c' Hwf'.
  pose proof (StorageUtils.get_pid_range vid). pose proof (StorageUtils.get_pid_range u).
  destruct (getElem_slot c u Hwf Hu) as (bu & Hbu & ->).
  destruct (getElem_slot c' u Hwf' Hu) as (bu' & Hbu' & ->). unfold c', with_data in Hbu'. cbn [primaryData] in Hbu'.
  change (unit_size c') with (unit_size c).
  unfold same_slot. destruct (Z.eqb_spec (StorageUtils.get_pid u) (StorageUtils.get_pid vid)) as [E | Hne].
  - rewrite E in *. rewrite list_lookup_insert_eq in Hbu' by (by eapply lookup_lt_Some).
    injection Hbu' as <-. rewrite Hb in Hbu. injection Hbu as <-. cbn [andb].
    destruct (Z.eqb_spec (StorageUtils.get_offset u) (StorageUtils.get_offset vid)) as [-> | Hne].
    + rewrite <- Hd at 2. by apply (read_write_same b).
    + pose proof (StorageUtils.get_offset_range u). destruct Hwf as (Hup & _).
      eapply read_write_other; [done | nia |]. rewrite Hd.
      by apply slots_disjoint.
  - rewrite list_lookup_insert_ne in Hbu' by lia. rewrite Hbu in Hbu'. by injection Hbu' as <-.
Qed.

Lemma with_data_wf c pid b b' : wf c → 0 <= pid →
  primaryData c !! Z.to_nat pid = Some [b] → zlen b' = zlen b →
  wf (with_data c (<[Z.to_nat pid := [b']]> (primaryData c))).
Proof.
  intros (Hu & Hn & Hc & Hb & Ht & Hp) H0 Hlook Hlen.
  split; [done |]. split; [done |]. split; [done |]. split; [done |]. split; [done |].
  simpl. intros q Hq. destruct (decide (q = pid)) as [-> | Hne].
  - exists b'. split; [apply list_lookup_insert_eq; by eapply lookup_lt_Some |].
    destruct (Hp pid Hq) as (b0 & Hb0 & Hl0). rewrite Hlook in Hb0. injection Hb0 as <-. lia.
  - rewrite list_lookup_insert_ne by lia. by apply Hp.
Qed.

Lemma updateElem_replaces c vid d : wf c → row_in_range c vid = true → zlen d = unit_size c →
  ∃ c', updateElem c vid (Some d) = Ok c' ∧ wf c' ∧ unit_size c' = unit_size c ∧
    byteOffset_record c' = byteOffset_record c ∧
    (∀ u, row_in_range c' u = row_in_range c u) ∧
    (∀ u, row_in_range c u = true → getElem c' u = if same_slot u vid then Ok d else getElem c u).
Proof.
  intros Hwf Hr Hd. destruct (row_chunk c vid Hwf Hr) as (b & Hb & Hlen & H0 & Hle & Hlt & _).
  pose proof Hr as [Hpid Ho]%andb_true_iff. pose proof Hwf as (Hu & _).
  destruct (UpdateInPlace_slot b (StorageUtils.get_offset vid) (unit_size c) d)
    as (b' & Hw & Hl' & HU); try done.
  unfold updateElem. rewrite Hpid, Ho. unfold chunks_at. rewrite Hb. cbn [of_option rbind].
  rewrite HU. cbn [rbind]. eexists. split; [done |].
  pose proof (StorageUtils.get_pid_range vid).
  assert (wf (with_data c (<[Z.to_nat (StorageUtils.get_pid vid) := [b']]> (primaryData c)))) as Hwf'
    by (eapply with_data_wf; eauto; lia).
  split; [done |]. split; [done |]. split; [done |]. split; [done |].
  intros u Hur. by eapply getElem_with.
Qed.

#[global] Program Instance Column_like : ColumnLike Column := {|
  unit_of := unit_size;
  offset_of := byteOffset_record;
  col_get := getElem;
  col_update := updateElem;
  col_insert := insertElem;
  in_range := row_in_range;
  col_wf := wf
|}.
Next Obligation.
  intros c v Hwf Hr. destruct (row_chunk c v Hwf Hr) as (b & Hb & Hlen & H0 & Hle & Hlt & _).
  destruct (getElem_slot c v Hwf Hr) as (b' & Hb' & ->). rewrite Hb in Hb'. injection Hb' as <-.
  apply read_bytes_Ok; [done | | done]. destruct Hwf. lia.
Qed.
Next Obligation. exact updateElem_replaces. Qed.
Next Obligation. exact updateElem_replaces. Qed.

(** A well-formed column is an array of elements: an update or an insert of a row in
    range succeeds, keeps the column well formed, and afterwards that row reads back the
    element while every other row of every partition reads what it read before; a row out
    of range is refused by an assertion. *)
Theorem column_is_an_array (c : Column) (vid : rowid_t) (d : bytes) :
  wf c → zlen d = unit_size c →
  updateElem c vid (Some d) = insertElem c vid (Some d) ∧
  if row_in_range c vid then
    ∃ c', updateElem c vid (Some d) = Ok c' ∧ wf c' ∧
      ∀ u, row_in_range c u = true →
        getElem c' u = if same_slot u vid then Ok d else getElem c u
  else updateElem c vid (Some d) = Err AssertFailed.
Proof.
  intros Hwf Hd. split; [done |]. destruct (row_in_range c vid) eqn:Hr.
  - destruct (updateElem_replaces c vid d Hwf Hr Hd) as (c' & E & Hwf' & _ & _ & _ & Hget). eauto.
  - unfold row_in_range in Hr. unfold updateElem.
    destruct (_ <? n_partitions c); [| done].
    by destruct (_ <? capacity_per_partition c).
Qed.

(** ** Construction *)

(** Reading inside a block of zeroes. *)
Lemma read_zeroes n off len : 0 <= off → 0 <= len → off + len <= n →
  read_bytes (replicate (Z.to_nat n) 0) off len = Ok (replicate (Z.to_nat len) 0).
Proof.
  intros Ho Hl Hn. unfold read_bytes, zlen. rewrite length_replicate.
  rewrite !(proj2 (Z.leb_le _ _)) by lia. simpl.
  rewrite drop_replicate, take_replicate. f_equal. f_equal. lia.
Qed.

Section construction.
Context (id : column_id_t) (ty : data_type) (unit off g : Z) (np : bool) (cap : Z)
  (st : SnapshotTypes).
Hypothesis (Hunit : 0 < unit) (Hg : 0 < g <= MAX_PARTITIONS) (Hcap : 0 <= cap)
  (Hsize : (cap + g) * unit + unit < 2 ^ 63).

Let c : Column := Column_new id ty unit off g np cap st.

Lemma column_new_capacity : 0 <= capacity_per_partition c <= cap + g ∧
  cap <= capacity_per_partition c * n_partitions c ∧ 0 < n_partitions c <= g ∧
  total_size_per_partition c = capacity_per_partition c * unit.
Proof using Hunit Hg Hcap Hsize.
  unfold c, Column_new. cbn [capacity_per_partition n_partitions total_size_per_partition].
  set (n := if np then g else 1). assert (0 < n <= g) as Hn by (unfold n; destruct np; lia).
  pose proof (Z.div_mod cap n ltac:(lia)). pose proof (Z.mod_pos_bound cap n ltac:(lia)).
  assert (0 <= cap / n <= cap) by (split; [apply Z.div_pos; lia | apply Z.div_le_upper_bound; nia]).
  set (q := cap / n) in *. set (r := cap mod n) in *. clearbody q r n.
  assert (cap + g < 2 ^ 63) by nia. assert (0 <= q + r <= cap + g) by lia.
  assert ((q + r) * unit <= (cap + g) * unit) by nia.
  rewrite !(wrap_id 64 (q + r)) by lia. rewrite wrap_id by nia. split; [lia |]. split; [nia |]. split; [lia | done].
Qed.

Lemma new_chunk pid : 0 <= pid < n_partitions c →
  primaryData c !! Z.to_nat pid = Some [replicate (Z.to_nat (capacity_per_partition c * unit)) 0].
Proof using Hunit Hg Hcap Hsize.
  intros Hp. destruct column_new_capacity as (_ & _ & Hn & Ht). unfold MAX_PARTITIONS in *.
  rewrite <- Ht. unfold c, Column_new in *. cbn [primaryData n_partitions total_size_per_partition] in *.
  unfold MAX_PARTITIONS in *. rewrite list_lookup_fmap. rewrite lookup_seq_lt by lia. cbn [fmap option_fmap option_map].
  by rewrite (proj2 (Z.ltb_lt _ _)) by lia.
Qed.

Lemma column_new_wf : wf c.
Proof using Hunit Hg Hcap Hsize.
  destruct column_new_capacity as (Hc & _ & Hn & Ht).
  split; [exact Hunit |]. split; [lia |]. split; [lia |].
  change (unit_size c) with unit. split; [nia |]. split; [done |].
  intros pid Hp. eexists. split; [by apply new_chunk |].
  unfold zlen. rewrite length_replicate. nia.
Qed.
End construction.

(** The column constructor gives a well-formed column whose partitions together hold at
    least the reserved capacity, and every row of it reads as zeroes. *)
Theorem column_constructor (id : column_id_t) (ty : data_type) (unit off g : Z) (np : bool)
    (cap : Z) (st : SnapshotTypes) :
  0 < unit → 0 < g <= MAX_PARTITIONS → 0 <= cap → (cap + g) * unit + unit < 2 ^ 63 →
  let c := Column_new id ty unit off g np cap st in
  wf c ∧ cap <= capacity_per_partition c * n_partitions c ∧
  ∀ vid, row_in_range c vid = true → getElem c vid = Ok (replicate (Z.to_nat unit) 0).
Proof.
  intros Hu Hg Hc Hs c. pose proof (column_new_wf id ty unit off g np cap st Hu Hg Hc Hs) as Hwf.
  destruct (column_new_capacity id ty unit off g np cap st Hu Hg Hc Hs) as (Hcp & Hcap & _ & _).
  split; [exact Hwf |]. split; [exact Hcap |]. intros vid Hr.
  destruct (getElem_slot c vid Hwf Hr) as (b & Hb & ->).
  destruct (row_chunk c vid Hwf Hr) as (b' & Hb' & Hlen & H0 & Hle & _).
  rewrite Hb in Hb'. injection Hb' as <-.
  pose proof Hr as [Hp%Z.ltb_lt _]%andb_true_iff. pose proof (StorageUtils.get_pid_range vid).
  pose proof (new_chunk id ty unit off g np cap st Hu Hg Hc Hs (StorageUtils.get_pid vid)
    ltac:(unfold c in *; lia)) as Hnc.
  fold c in Hnc. change (unit_size c) with unit in *.
  assert (b = replicate (Z.to_nat (capacity_per_partition c * unit)) 0) as -> by congruence.
  rewrite Hlen in Hle. apply read_zeroes; lia.
Qed.

(** ** Batches *)

(** Reading a row after a run of [num] rows starting at [vid] was overwritten. *)
Lemma batch_read c vid u b b' num src :
  wf c → row_in_range c vid = true → row_in_range c u = true → 0 <= num →
  primaryData c !! Z.to_nat (StorageUtils.get_pid vid) = Some [b] → zlen b' = zlen b →
  zlen src = num * unit_size c →
  write_bytes b (StorageUtils.get_offset vid * unit_size c) src = Ok b' →
  let c' := with_data c (<[Z.to_nat (StorageUtils.get_pid vid) := [b']]> (primaryData c)) in
  wf c' → let k := StorageUtils.get_offset u - StorageUtils.get_offset vid in
  getElem c' u =
    if (StorageUtils.get_pid u =? StorageUtils.get_pid vid) && (0 <=? k) && (k <? num)
    then read_bytes src (k * unit_size c) (unit_size c) else getElem c u.
Proof.
  intros Hwf Hv Hu Hn Hb Hlen Hs Hw c' Hwf' k.
  pose proof (StorageUtils.get_pid_range vid). pose proof (StorageUtils.get_pid_range u).
  pose proof (StorageUtils.get_offset_range u). pose proof Hwf as (Hup & _).
  destruct (getElem_slot c u Hwf Hu) as (bu & Hbu & ->).
  destruct (getElem_slot c' u Hwf' Hu) as (bu' & Hbu' & ->).
  unfold c', with_data in Hbu'. cbn [primaryData] in Hbu'. change (unit_size c') with (unit_size c).
  destruct (Z.eqb_spec (StorageUtils.get_pid u) (StorageUtils.get_pid vid)) as [E | Hne].
  - rewrite E in *. rewrite list_lookup_insert_eq in Hbu' by (by eapply lookup_lt_Some).
    injection Hbu' as <-. rewrite Hb in Hbu. injection Hbu as <-. cbn [andb].
    destruct (Z.leb_spec 0 k), (Z.ltb_spec k num); cbn [andb];
      [| eapply read_write_other; [done | nia | rewrite Hs; unfold k in *; nia] ..].
    apply (read_inside_write b b' (StorageUtils.get_offset vid * unit_size c)); try done;
      unfold k in *; nia.
  - rewrite list_lookup_insert_ne in Hbu' by lia. rewrite Hbu in Hbu'. by injection Hbu' as <-.
Qed.

(** A batch insert of [num] elements starting at row [vid] succeeds when it leaves at least
    one slot of the partition free; afterwards the [i]-th row reads the [i]-th element of
    the source and every row outside the batch reads what it read before.  A batch that
    would fill the partition exactly is refused, although it fits. *)
Theorem insertElemBatch_rows (g : Z) (c : Column) (vid : rowid_t) (num : Z) (src : bytes) :
  wf c → row_in_range c vid = true → StorageUtils.get_pid vid < g → 0 <= num →
  zlen src = num * unit_size c →
  let o := StorageUtils.get_offset vid in
  (o + num < capacity_per_partition c →
    ∃ c', insertElemBatch g c vid num src = Ok c' ∧ wf c' ∧
      ∀ u, row_in_range c u = true → let k := StorageUtils.get_offset u - o in
        getElem c' u =
          if (StorageUtils.get_pid u =? StorageUtils.get_pid vid) && (0 <=? k) && (k <? num)
          then read_bytes src (k * unit_size c) (unit_size c) else getElem c u) ∧
  (o + num = capacity_per_partition c → insertElemBatch g c vid num src = Err AssertFailed).
Proof.
  intros Hwf Hr Hg Hn Hsrc o.
  destruct (row_chunk c vid Hwf Hr) as (b & Hb & Hlen & H0 & Hle & Hlt & E1 & _). fold o in H0, Hle, E1.
  pose proof Hwf as (Hu & _ & _ & _ & Htot & _).
  pose proof (StorageUtils.get_offset_range vid). fold o in H.
  assert (u64 (num * unit_size c) = num * unit_size c ∨ capacity_per_partition c < o + num) as Ecase.
  { destruct (Z.le_gt_cases (o + num) (capacity_per_partition c)); [left | by right].
    apply wrap_id. nia. }
  split; intros Hfit; (destruct Ecase as [E2 | ?]; [| lia]);
    (assert (u64 (o * unit_size c + num * unit_size c) = (o + num) * unit_size c) as E3
      by (rewrite wrap_id; nia)); unfold insertElemBatch; fold o; rewrite E1, E2, E3;
    rewrite (proj2 (Z.ltb_lt _ _) Hg), Z.div_mul by lia.
  - rewrite (proj2 (Z.ltb_lt _ _)) by lia. rewrite Htot, (proj2 (Z.ltb_lt _ _)) by nia.
    rewrite (source_self src) by done. cbn [rbind]. unfold chunks_at. rewrite Hb.
    cbn [of_option rbind batch_loop].
    rewrite wrap_id by nia. rewrite (proj2 (Z.leb_le _ _)) by nia.
    destruct (write_bytes_Ok b (o * unit_size c) src) as (b' & Hw & Hl'); [lia | nia |].
    rewrite Hw. cbn [rbind]. eexists. split; [done |].
    pose proof (StorageUtils.get_pid_range vid).
    assert (wf (with_data c (<[Z.to_nat (StorageUtils.get_pid vid) := [b']]> (primaryData c)))) as Hwf'
      by (eapply with_data_wf; eauto; lia).
    split; [done |]. intros u Hur.
    by apply (batch_read c vid u b b' num src).
  - by rewrite (proj2 (Z.ltb_ge _ _)) by lia.
Qed.

Definition ex_col : Column := Column_new 0 INTEGER 2 0 2 true 6 SnapNone.

Lemma ex_col_wf : wf ex_col.
Proof. apply column_new_wf; unfold MAX_PARTITIONS; lia. Qed.

Lemma column_is_an_array_witness :
  updateElem ex_col 1 (Some [7; 8]) = insertElem ex_col 1 (Some [7; 8]) ∧
  ∃ c', updateElem ex_col 1 (Some [7; 8]) = Ok c' ∧ wf c' ∧
    ∀ u, row_in_range ex_col u = true →
      getElem c' u = if same_slot u 1 then Ok [7; 8] else getElem ex_col u.
Proof. apply (column_is_an_array ex_col 1 [7; 8]); [exact ex_col_wf | reflexivity]. Defined.

Lemma column_constructor_witness :
  wf ex_col ∧ 6 <= capacity_per_partition ex_col * n_partitions ex_col ∧
  ∀ vid, row_in_range ex_col vid = true → getElem ex_col vid = Ok (replicate (Z.to_nat 2) 0).
Proof.
  apply (column_constructor 0 INTEGER 2 0 2 true 6 SnapNone); unfold MAX_PARTITIONS; lia.
Defined.

Lemma insertElemBatch_rows_witness :
  (0 + 2 < 3 →
    ∃ c', insertElemBatch 2 ex_col 0 2 [1; 2; 3; 4] = Ok c' ∧ wf c' ∧
      ∀ u, row_in_range ex_col u = true → let k := StorageUtils.get_offset u - 0 in
        getElem c' u =
          if (StorageUtils.get_pid u =? 0) && (0 <=? k) && (k <? 2)
          then read_bytes [1; 2; 3; 4] (k * 2) 2 else getElem ex_col u) ∧
  (0 + 2 = 3 → insertElemBatch 2 ex_col 0 2 [1; 2; 3; 4] = Err AssertFailed).
Proof.
  apply (insertElemBatch_rows 2 ex_col 0 2 [1; 2; 3; 4]);
    [exact ex_col_wf | reflexivity | reflexivity | lia | reflexivity].
Defined.

End Column.
