(* ===== verification/AtomicBitSet.v ===== *)
(** * AtomicBitSet: the fixed-size bitset behind the columns' dirty masks
    ([platform/util/atomic_bit_set.hpp]).

    [N] bits live in [N / 64] blocks of [unsigned long long]; every operation is
    one atomic read-modify-write (or load) of a block, so an operation is a step.
    The blocks are a list of 64-bit [Z]s. *)

From S2P Require Import Prelude.
From Stdlib Require Import ZArith Lia Bool.
From stdpp Require Import base numbers list sets.

Local Open Scope Z_scope.
Local Open Scope res_scope.

Module AtomicBitSet.

Definition kBitsPerBlock : Z := 64.
Definition allBitsSet : Z := 2 ^ 64 - 1.
Definition blockIndex (bit : Z) : Z := bit / kBitsPerBlock.
Definition bitOffset (bit : Z) : Z := bit mod kBitsPerBlock.
Definition numberOfBlocks (N : Z) : Z := N / kBitsPerBlock.

(** [data_], an [std::array] of [numberOfBlocks] blocks. *)
Abbreviation t := (list Z).

(** [data_()] value-initialises every block to zero. *)
Definition new (N : Z) : t := replicate (Z.to_nat (numberOfBlocks N)) 0.

(** The block [data_[blockIndex(idx)]], after the [assert] every accessor makes. *)
Definition block (N : Z) (b : t) (idx : Z) : res Z :=
  check idx <? N * kBitsPerBlock else AssertFailed;
  of_option Undefined (b !! Z.to_nat (blockIndex idx)).

Definition mask (idx : Z) : Z := u64 (Z.shiftl 1 (bitOffset idx)).

(** [set(idx)]: fetch_or; returns the previous value of the bit. *)
Definition set (N : Z) (b : t) (idx : Z) : res (bool * t) :=
  do old <- block N b idx;
  Ok (negb (Z.land old (mask idx) =? 0),
      <[Z.to_nat (blockIndex idx) := Z.lor old (mask idx)]> b).

(** [reset(idx)]: fetch_and with the complement. *)
Definition reset (N : Z) (b : t) (idx : Z) : res (bool * t) :=
  do old <- block N b idx;
  Ok (negb (Z.land old (mask idx) =? 0),
      <[Z.to_nat (blockIndex idx) := Z.land old (u64 (Z.lnot (mask idx)))]> b).

(** [set(idx, value)]. *)
Definition set_to (N : Z) (b : t) (idx : Z) (value : bool) : res (bool * t) :=
  if value then set N b idx else reset N b idx.

Definition test (N : Z) (b : t) (idx : Z) : res bool :=
  do v <- block N b idx;
  Ok (negb (Z.land v (mask idx) =? 0)).

Definition popcountl (x : Z) : Z :=
  count_if (Z.testbit x) (seqZ 0 64).

Definition any (b : t) : bool := existsb (λ v, 0 <? popcountl v) b.
Definition all (b : t) : bool := forallb (λ v, v =? allBitsSet) b.
Definition reset_all (b : t) : t := (λ _, 0) <$> b.
Definition count (b : t) : Z := foldl (λ acc v, acc + popcountl v) 0 b.

(** ** Well-formedness: the array has its static length and the blocks fit. *)
Definition wf (N : Z) (b : t) : Prop :=
  N mod kBitsPerBlock = 0 ∧ Z.of_nat (length b) = numberOfBlocks N ∧
  Forall (λ v, 0 <= v < 2 ^ 64) b.

(** The abstract bitset: what bit [i] holds. *)
Definition bit (b : t) (i : Z) : bool :=
  match b !! Z.to_nat (blockIndex i) with
  | Some v => Z.testbit v (bitOffset i)
  | None => false
  end.

(** ** Masks *)

Lemma bitOffset_range i : 0 <= bitOffset i < 64.
Proof. apply Z.mod_pos_bound. unfold kBitsPerBlock. lia. Qed.

Lemma mask_testbit i j : 0 <= j → Z.testbit (mask i) j = (j =? bitOffset i).
Proof.
  intros Hj. pose proof (bitOffset_range i) as Ho. unfold mask.
  rewrite testbit_wrap, Z.shiftl_1_l, Z.pow2_bits_eqb by lia.
  destruct (Z.ltb_spec j 64), (Z.eqb_spec (bitOffset i) j),
    (Z.eqb_spec j (bitOffset i)); simpl; lia.
Qed.

Lemma land_mask v i : negb (Z.land v (mask i) =? 0) = Z.testbit v (bitOffset i).
Proof.
  pose proof (bitOffset_range i) as Ho.
  destruct (Z.testbit v (bitOffset i)) eqn:E.
  - apply negb_true_iff, Z.eqb_neq. intros H0.
    apply (f_equal (λ z, Z.testbit z (bitOffset i))) in H0.
    rewrite Z.land_spec, mask_testbit, Z.bits_0, E, Z.eqb_refl in H0 by lia. done.
  - apply negb_false_iff, Z.eqb_eq. apply Z.bits_inj'. intros j Hj.
    rewrite Z.land_spec, mask_testbit, Z.bits_0 by lia.
    destruct (Z.eqb_spec j (bitOffset i)) as [-> |]; [by rewrite E | apply andb_false_r].
Qed.

Lemma index_eq i j : 0 <= i → 0 <= j →
  Z.to_nat (blockIndex i) = Z.to_nat (blockIndex j) →
  bitOffset i = bitOffset j → i = j.
Proof.
  unfold blockIndex, bitOffset, kBitsPerBlock. intros Hi Hj He Ho.
  assert (i / 64 = j / 64).
  { apply Z2Nat.inj; [apply Z.div_pos; lia .. | done]. }
  rewrite (Z.div_mod i 64), (Z.div_mod j 64) by lia. congruence.
Qed.

Section ops.
Context (N : Z) (b : t).
Hypothesis (Hwf : wf N b).

Lemma block_ok idx : 0 <= idx < N →
  ∃ v, b !! Z.to_nat (blockIndex idx) = Some v ∧ block N b idx = Ok v ∧
       0 <= v < 2 ^ 64.
Proof using Hwf.
  intros Hi. destruct Hwf as (HN & Hl & Hv).
  unfold numberOfBlocks, kBitsPerBlock in *.
  destruct (lookup_lt_is_Some_2 b (Z.to_nat (blockIndex idx))) as [v Eb].
  { unfold blockIndex, kBitsPerBlock.
    assert (idx / 64 < N / 64) by (Z.div_mod_to_equations; lia).
    assert (0 <= idx / 64) by (apply Z.div_pos; lia). lia. }
  exists v. split; [done |]. split.
  - unfold block, kBitsPerBlock. rewrite (proj2 (Z.ltb_lt _ _)) by lia. by rewrite Eb.
  - eapply Forall_lookup_1 in Hv; eauto.
Qed.

Lemma test_bit idx : 0 <= idx < N → test N b idx = Ok (bit b idx).
Proof using Hwf.
  intros Hi. destruct (block_ok idx Hi) as (v & Eb & Ev & _).
  unfold test, bit. rewrite Ev, Eb. simpl. by rewrite land_mask.
Qed.

(** Updating one block by a function that only changes the addressed bit. *)
Lemma update_spec idx f x v : 0 <= idx < N →
  b !! Z.to_nat (blockIndex idx) = Some v →
  (∀ j, 0 <= j < 64 → Z.testbit (f v) j = if j =? bitOffset idx then x else Z.testbit v j) →
  0 <= f v < 2 ^ 64 →
  let b' := <[Z.to_nat (blockIndex idx) := f v]> b in
  wf N b' ∧ ∀ i, 0 <= i → bit b' i = if i =? idx then x else bit b i.
Proof using Hwf.
  intros Hi Ev Hf Hr b'. destruct Hwf as (HN & Hl & Hv). split.
  - split; [done |]. split; [by unfold b'; rewrite length_insert |].
    apply Forall_insert; done.
  - intros i Hi0. unfold bit, b'. rewrite list_lookup_insert.
    pose proof (bitOffset_range i).
    assert ((Z.to_nat (blockIndex idx) < length b)%nat) by (by eapply lookup_lt_Some).
    destruct (decide (Z.to_nat (blockIndex idx) = Z.to_nat (blockIndex i))) as [Ei | Ni].
    + rewrite decide_True by done. rewrite Hf, <- Ei, Ev by done.
      destruct (Z.eqb_spec (bitOffset i) (bitOffset idx)), (Z.eqb_spec i idx);
        subst; try done.
      by exfalso; eapply n, index_eq; [lia .. |].
    + rewrite decide_False by tauto. destruct (Z.eqb_spec i idx); subst; done.
Qed.

Lemma set_spec idx : 0 <= idx < N →
  ∃ b', set N b idx = Ok (bit b idx, b') ∧ wf N b' ∧
        ∀ i, 0 <= i → bit b' i = if i =? idx then true else bit b i.
Proof using Hwf.
  intros Hi. destruct (block_ok idx Hi) as (v & Eb & Ev & Hv).
  eexists. split.
  { unfold set, bit. rewrite Ev, Eb. simpl. by rewrite land_mask. }
  apply (update_spec idx (λ v, Z.lor v (mask idx)) true v Hi Eb).
  - intros j Hj. rewrite Z.lor_spec, mask_testbit by lia.
    destruct (j =? bitOffset idx); [apply orb_true_r | apply orb_false_r].
  - apply lor_range; [lia | done | apply wrap_range; lia].
Qed.

Lemma reset_spec idx : 0 <= idx < N →
  ∃ b', reset N b idx = Ok (bit b idx, b') ∧ wf N b' ∧
        ∀ i, 0 <= i → bit b' i = if i =? idx then false else bit b i.
Proof using Hwf.
  intros Hi. destruct (block_ok idx Hi) as (v & Eb & Ev & Hv).
  eexists. split.
  { unfold reset, bit. rewrite Ev, Eb. simpl. by rewrite land_mask. }
  apply (update_spec idx (λ v, Z.land v (u64 (Z.lnot (mask idx)))) false v Hi Eb).
  - intros j Hj. rewrite Z.land_spec, testbit_wrap, Z.lnot_spec, mask_testbit by lia.
    rewrite (proj2 (Z.ltb_lt j 64)) by lia.
    destruct (j =? bitOffset idx); [apply andb_false_r | apply andb_true_r].
  - pose proof (land_range v (u64 (Z.lnot (mask idx)))). lia.
Qed.
End ops.

Lemma bitset_new_wf N : 0 <= N → N mod kBitsPerBlock = 0 → wf N (new N).
Proof.
  intros HN Hm. split; [done |]. unfold new. split.
  - rewrite length_replicate, Z2Nat.id; [done | apply Z.div_pos; unfold kBitsPerBlock; lia].
  - apply Forall_replicate. lia.
Qed.

(** ** Counting *)

Lemma bit_cons_low v (b : t) i : 0 <= i < 64 → bit (v :: b) i = Z.testbit v i.
Proof.
  intros Hi. unfold bit, blockIndex, bitOffset, kBitsPerBlock.
  by rewrite Z.div_small, Z.mod_small by lia.
Qed.

Lemma bit_cons_high v (b : t) i : 0 <= i → bit (v :: b) (64 + i) = bit b i.
Proof.
  intros Hi. unfold bit, blockIndex, bitOffset, kBitsPerBlock.
  replace (64 + i) with (i + 1 * 64) by lia.
  rewrite Z.div_add, Z.mod_add by lia.
  assert (0 <= i / 64) by (apply Z.div_pos; lia).
  by rewrite Z.add_1_r, Z2Nat.inj_succ by lia.
Qed.

Lemma count_foldl (b : t) acc :
  foldl (λ acc v, acc + popcountl v) acc b = acc + count b.
Proof.
  unfold count. revert acc. induction b as [| v b IH]; intros acc; simpl; [lia |].
  rewrite IH, (IH (0 + popcountl v)). lia.
Qed.

Lemma count_bits (b : t) :
  count b = count_if (bit b) (seqZ 0 (64 * Z.of_nat (length b))).
Proof.
  induction b as [| v b IH]; [done |].
  unfold count. simpl foldl. rewrite count_foldl, IH.
  replace (64 * Z.of_nat (length (v :: b))) with (64 + 64 * Z.of_nat (length b))
    by (simpl length; lia).
  rewrite seqZ_app, count_if_app, !Z.add_0_l by lia. unfold popcountl.
  rewrite (count_if_ext (Z.testbit v) (bit (v :: b)) (seqZ 0 64)).
  2: { intros i Hi%elem_of_seqZ. by rewrite bit_cons_low by lia. }
  rewrite <- (fmap_add_seqZ 64 0), count_if_fmap.
  rewrite (count_if_ext (λ x, bit (v :: b) (64 + x)) (bit b)); [done |].
  intros i Hi%elem_of_seqZ. by rewrite bit_cons_high by lia.
Qed.

Lemma popcountl_pos v : (0 <? popcountl v) = true ↔ ∃ j, 0 <= j < 64 ∧ Z.testbit v j = true.
Proof.
  rewrite Z.ltb_lt. unfold popcountl. rewrite count_if_pos.
  by setoid_rewrite elem_of_seqZ.
Qed.

Lemma any_bits N (b : t) : wf N b →
  any b = true ↔ ∃ i, 0 <= i < N ∧ bit b i = true.
Proof.
  intros (HN & Hl & _). unfold any. rewrite existsb_exists.
  unfold numberOfBlocks, kBitsPerBlock in *.
  assert (N = 64 * Z.of_nat (length b)) as -> by (Z.div_mod_to_equations; lia).
  split.
  - intros (v & [k Hk]%list_elem_of_In%list_elem_of_lookup & Hp).
    cbv beta in Hp. rewrite popcountl_pos in Hp. destruct Hp as (j & Hj & Ht).
    exists (64 * Z.of_nat k + j). pose proof (lookup_lt_Some _ _ _ Hk). split; [lia |].
    unfold bit, blockIndex, bitOffset, kBitsPerBlock.
    replace (64 * Z.of_nat k + j) with (j + Z.of_nat k * 64) by lia.
    rewrite Z.div_add, Z.mod_add, Z.div_small, Z.mod_small, Z.add_0_l, Nat2Z.id by lia.
    by rewrite Hk.
  - intros (i & Hi & Hb). unfold bit in Hb.
    destruct (b !! Z.to_nat (blockIndex i)) as [v |] eqn:Ev; [| done].
    exists v. split; [apply list_elem_of_In, list_elem_of_lookup; eauto |].
    cbv beta. rewrite popcountl_pos. eauto using bitOffset_range.
Qed.

(** Bit [j] of block [k]. *)
Lemma bit_of_block (b : t) k v j : b !! k = Some v → 0 <= j < 64 →
  bit b (64 * Z.of_nat k + j) = Z.testbit v j.
Proof.
  intros Hk Hj. unfold bit, blockIndex, bitOffset, kBitsPerBlock.
  replace (64 * Z.of_nat k + j) with (j + Z.of_nat k * 64) by lia.
  rewrite Z.div_add, Z.mod_add, Z.div_small, Z.mod_small, Z.add_0_l, Nat2Z.id by lia.
  by rewrite Hk.
Qed.

Lemma all_bits N (b : t) : wf N b →
  all b = true ↔ ∀ i, 0 <= i < N → bit b i = true.
Proof.
  intros (HN & Hl & Hv). unfold all. rewrite forallb_forall.
  unfold numberOfBlocks, kBitsPerBlock in *.
  assert (N = 64 * Z.of_nat (length b)) as -> by (Z.div_mod_to_equations; lia).
  assert (allBitsSet = Z.ones 64) as E by reflexivity. split.
  - intros H i Hi. unfold bit.
    destruct (lookup_lt_is_Some_2 b (Z.to_nat (blockIndex i))) as [v Hk].
    { unfold blockIndex, kBitsPerBlock. Z.div_mod_to_equations; lia. }
    rewrite Hk. pose proof (bitOffset_range i).
    apply list_elem_of_lookup_2, list_elem_of_In, H, Z.eqb_eq in Hk. rewrite Hk, E.
    rewrite testbit_ones by lia. apply Z.ltb_lt. lia.
  - intros H v [k Hk]%list_elem_of_In%list_elem_of_lookup_1. apply Z.eqb_eq. rewrite E.
    pose proof (lookup_lt_Some _ _ _ Hk).
    pose proof (proj1 (Forall_lookup _ _) Hv k v Hk) as Hr. cbv beta in Hr.
    apply Z.bits_inj'. intros j Hj. rewrite testbit_ones by lia.
    destruct (Z.ltb_spec j 64); [| by apply (testbit_above v 64)].
    rewrite <- (bit_of_block b k v j) by (done || lia). apply H. lia.
Qed.

Lemma reset_all_bits N (b : t) : wf N b → wf N (reset_all b) ∧ ∀ i, bit (reset_all b) i = false.
Proof.
  intros (HN & Hl & Hv). unfold reset_all. split.
  - split; [done |]. split; [by rewrite length_fmap |].
    apply Forall_fmap, Forall_forall. intros. simpl. lia.
  - intros i. unfold bit. rewrite list_lookup_fmap.
    destruct (b !! Z.to_nat (blockIndex i)); simpl; [apply Z.bits_0 | done].
Qed.

(** On a well-formed bitset of [N] bits, [set] and [reset] of an index below
    [N] return the previous value of that bit, keep the array well formed,
    change that bit only, and [test] reads back the abstract bit. *)
Theorem bitset_refines_bits (N : Z) (b : t) (idx : Z) :
  wf N b → 0 <= idx < N →
  test N b idx = Ok (bit b idx) ∧
  (∃ b', set N b idx = Ok (bit b idx, b') ∧ wf N b' ∧
         ∀ i, 0 <= i → bit b' i = if i =? idx then true else bit b i) ∧
  (∃ b', reset N b idx = Ok (bit b idx, b') ∧ wf N b' ∧
         ∀ i, 0 <= i → bit b' i = if i =? idx then false else bit b i).
Proof.
  intros Hwf Hi. split; [by apply test_bit |]. split; [by apply set_spec | by apply reset_spec].
Qed.

Lemma bitset_refines_bits_witness :
  wf 512 (new 512) ∧ test 512 (new 512) 70 = Ok (bit (new 512) 70).
Proof.
  split; [by apply bitset_new_wf |].
  apply (bitset_refines_bits 512 (new 512) 70); [by apply bitset_new_wf | lia].
Defined.

(** [count], which adds the popcounts of the blocks, is the number of indices
    below [N] whose bit is set; [any] holds exactly when one is set, [all] exactly when
    all are; [reset()] clears every bit and keeps the array well formed. *)
Theorem bitset_count_any (N : Z) (b : t) :
  wf N b →
  count b = count_if (bit b) (seqZ 0 N) ∧
  (any b = true ↔ ∃ i, 0 <= i < N ∧ bit b i = true) ∧
  (all b = true ↔ ∀ i, 0 <= i < N → bit b i = true) ∧
  wf N (reset_all b) ∧ ∀ i, bit (reset_all b) i = false.
Proof.
  intros Hwf. split; [| split; [by apply any_bits | split; [by apply all_bits | by apply reset_all_bits]]].
  rewrite count_bits. do 2 f_equal.
  destruct Hwf as (HN & Hl & _). unfold numberOfBlocks, kBitsPerBlock in *.
  Z.div_mod_to_equations; lia.
Qed.

Lemma bitset_count_any_witness :
  wf 512 [5;1;0;0;0;0;0;0] ∧ count [5;1;0;0;0;0;0;0] = 3 ∧ any [5;1;0;0;0;0;0;0] = true.
Proof.
  assert (wf 512 [5;1;0;0;0;0;0;0]) as Hwf.
  { split; [done |]. split; [done |]. repeat constructor; lia. }
  split; [done |]. destruct (bitset_count_any 512 [5;1;0;0;0;0;0;0] Hwf) as [-> [Ha _]].
  split; [reflexivity |]. apply Ha. exists 64. split; [lia | reflexivity].
Defined.

(** An index between [N] and [64 * N] passes the accessors' [assert] and then
    leaves the array. *)
Lemma assert_is_too_weak (N : Z) (b : t) idx : 0 < N → wf N b →
  N <= idx < N * kBitsPerBlock → test N b idx = Err Undefined.
Proof.
  intros HN (Hm & Hl & _) Hi. unfold test, block.
  rewrite (proj2 (Z.ltb_lt _ _)) by lia.
  rewrite (proj2 (lookup_ge_None b _)); [done |].
  unfold numberOfBlocks, blockIndex, kBitsPerBlock in *.
  assert (N / 64 <= idx / 64) by (apply Z.div_le_mono; lia). lia.
Qed.

End AtomicBitSet.
