(* ===== verification/CircularColumn.v ===== *)
(** * CircularColumn: the column with master copies for HTAP snapshots
    ([CircularMasterColumn] in [lib/storage/layout/column-store/circular-master-column.cpp],
    with the arena metadata of [oltp/snapshot/arena.hpp]).

    Every master copy is a full copy of the column.  Updates go to one master and set the
    row's bit in that master's dirty mask; a snapshot freezes the number of rows and the
    master that holds them; [syncSnapshot] copies the dirty rows of the frozen master into
    the others, except where the other is itself dirty. *)

From S2P Require Import Prelude Bytes Common StorageUtils Column AtomicBitSet.
From Stdlib Require Import ZArith Lia Bool.
From stdpp Require Import base numbers list.

Local Open Scope Z_scope.
Local Open Scope res_scope.

Module CircularColumn.

Definition BIT_PACK_SIZE : Z := 8192.

(** [ArenaV2::metadata] *)
Record metadata : Type := mk_meta {
  numOfRecords : rowid_t;
  epoch_id : xid_t;
  master_ver : master_version_t;
  arena_partition : partition_id_t;
  upd_since_last_snapshot : bool
}.

Definition setUpdated (m : metadata) : metadata :=
  mk_meta (numOfRecords m) (epoch_id m) (master_ver m) (arena_partition m) true.

(** [master_versions] and [upd_bit_masks] are indexed by master version, then partition;
    the arenas by partition. *)
Record column : Type := mk {
  unit_size : Z;
  n_partitions : partition_id_t;
  byteOffset_record : Z;
  capacity_per_partition : Z;
  total_size_per_partition : Z;
  touched : list bool;
  master_versions : list (list (list chunk));
  upd_bit_masks : list (list (list AtomicBitSet.t));
  snapshot_arenas : list metadata;
  etl_arenas : list metadata;
  readonly_etl_snapshot : list chunk
}.

Definition with_masters (c : column) (m : list (list (list chunk))) : column :=
  mk (unit_size c) (n_partitions c) (byteOffset_record c) (capacity_per_partition c)
     (total_size_per_partition c) (touched c) m (upd_bit_masks c) (snapshot_arenas c)
     (etl_arenas c) (readonly_etl_snapshot c).
Definition with_masks (c : column) (m : list (list (list AtomicBitSet.t))) (t : list bool) : column :=
  mk (unit_size c) (n_partitions c) (byteOffset_record c) (capacity_per_partition c)
     (total_size_per_partition c) t (master_versions c) m (snapshot_arenas c)
     (etl_arenas c) (readonly_etl_snapshot c).

(** The constructor; [nm] masters, [g] partitions in the system. *)
Definition new (nm : nat) (unit off g : Z) (numa_partitioned : bool) (reserved_capacity : Z)
  : column :=
  let n := if numa_partitioned then g else 1 in
  let cap := u64 (reserved_capacity / n + reserved_capacity mod n) in
  let total := u64 (cap * unit) in
  let packs := u64 (cap / BIT_PACK_SIZE + cap mod BIT_PACK_SIZE) in
  let parts {A : Type} (x : A) (z : A) :=
    (λ j, if Z.of_nat j <? n then x else z) <$> seq 0 (Z.to_nat MAX_PARTITIONS) in
  mk unit n off cap total (replicate (Z.to_nat MAX_PARTITIONS) false)
     (replicate nm (parts [replicate (Z.to_nat total) 0] []))
     (replicate nm (parts (replicate (Z.to_nat packs) (AtomicBitSet.new BIT_PACK_SIZE)) []))
     ((λ j, mk_meta 0 0 0 (Z.of_nat j) false) <$> seq 0 (Z.to_nat g))
     ((λ j, mk_meta 0 0 0 (Z.of_nat j) true) <$> seq 0 (Z.to_nat g))
     (replicate (Z.to_nat n) (replicate (Z.to_nat total) 0)).

(** [x[mver][pid]] *)
Definition at2 {A} (x : list (list A)) (mver pid : Z) : res A :=
  do p <- of_option Undefined (x !! Z.to_nat mver);
  of_option Undefined (p !! Z.to_nat pid).
Definition set2 {A} (x : list (list A)) (mver pid : Z) (a : A) : list (list A) :=
  alter (λ p, <[Z.to_nat pid := a]> p) (Z.to_nat mver) x.

(** The loop of [getElem]: the index is not adjusted between chunks. *)
Fixpoint get_loop (unit data_idx : Z) (chunks : list chunk) : res bytes :=
  match chunks with
  | [] => Err AssertFailed
  | c :: cs =>
      if u64 (data_idx + unit) <=? zlen c then read_bytes c data_idx unit
      else get_loop unit data_idx cs
  end.

Definition getElem (c : column) (vid : rowid_t) : res bytes :=
  do chunks <- at2 (master_versions c) (StorageUtils.get_m_version vid) (StorageUtils.get_pid vid);
  check negb (Nat.eqb (length chunks) 0) else AssertFailed;
  get_loop (unit_size c) (u64 (StorageUtils.get_offset vid * unit_size c)) chunks.

Definition updateElem (c : column) (vid : rowid_t) (elem : option bytes) : res column :=
  let pid := StorageUtils.get_pid vid in
  let mver := StorageUtils.get_m_version vid in
  let offset := StorageUtils.get_offset vid in
  check pid <? n_partitions c else AssertFailed;
  check offset <? capacity_per_partition c else AssertFailed;
  do chunks <- at2 (master_versions c) mver pid;
  do (ok, chunks') <- Column.UpdateInPlace chunks offset (unit_size c) elem;
  check (ok : bool) else AssertFailed;
  do masks <- at2 (upd_bit_masks c) mver pid;
  do mask <- of_option Undefined (masks !! Z.to_nat (offset / BIT_PACK_SIZE));
  do (_, mask') <- AtomicBitSet.set BIT_PACK_SIZE mask (offset mod BIT_PACK_SIZE);
  Ok (with_masks (with_masters c (set2 (master_versions c) mver pid chunks'))
        (set2 (upd_bit_masks c) mver pid (<[Z.to_nat (offset / BIT_PACK_SIZE) := mask']> masks))
        (<[Z.to_nat pid := true]> (touched c))).

(** An insert goes to every master; [HTAP_UPD_BIT_ON_INSERT] is off. *)
Fixpoint insert_masters (ms : list (list (list chunk))) (pid offset unit : Z) (elem : option bytes)
  : res (list (list (list chunk))) :=
  match ms with
  | [] => Ok []
  | m :: ms =>
      do chunks <- of_option Undefined (m !! Z.to_nat pid);
      do (ok, chunks') <- Column.UpdateInPlace chunks offset unit elem;
      check (ok : bool) else AssertFailed;
      do ms' <- insert_masters ms pid offset unit elem;
      Ok (<[Z.to_nat pid := chunks']> m :: ms')
  end.

Definition insertElem (c : column) (vid : rowid_t) (elem : option bytes) : res column :=
  let pid := StorageUtils.get_pid vid in
  let offset := StorageUtils.get_offset vid in
  check pid <? n_partitions c else AssertFailed;
  check offset <? capacity_per_partition c else AssertFailed;
  do ms <- insert_masters (master_versions c) pid offset (unit_size c) elem;
  Ok (with_masters c ms).

Fixpoint batch_masters (ms : list (list (list chunk))) (pid unit st en : Z) (src : bytes)
  : res (list (list (list chunk))) :=
  match ms with
  | [] => Ok []
  | m :: ms =>
      do chunks <- of_option Undefined (m !! Z.to_nat pid);
      do chunks' <- Column.batch_loop unit st en src chunks;
      do ms' <- batch_masters ms pid unit st en src;
      Ok (<[Z.to_nat pid := chunks']> m :: ms')
  end.

Definition insertElemBatch (g : Z) (c : column) (vid : rowid_t) (num_elem : Z) (data : bytes)
  : res column :=
  let pid := StorageUtils.get_pid vid in
  let data_idx_st := u64 (StorageUtils.get_offset vid * unit_size c) in
  let copy_size := u64 (num_elem * unit_size c) in
  let data_idx_en := u64 (data_idx_st + copy_size) in
  check pid <? g else AssertFailed;
  check data_idx_en / unit_size c <? capacity_per_partition c else AssertFailed;
  check data_idx_en <? total_size_per_partition c else AssertFailed;
  do src <- source data copy_size;
  do ms <- batch_masters (master_versions c) pid (unit_size c) data_idx_st data_idx_en src;
  Ok (with_masters c ms).

(** ** Counting updated rows *)

(** The masks that cover the first [recs] rows. *)
Fixpoint count_masks (masks : list AtomicBitSet.t) (recs scanned : Z) : Z :=
  match masks with
  | [] => 0
  | m :: ms =>
      AtomicBitSet.count m +
      (if recs <=? scanned + BIT_PACK_SIZE then 0 else count_masks ms recs (scanned + BIT_PACK_SIZE))
  end.

Definition num_upd_tuples (g : nat) (c : column) (mver : Z) (num_records : option (list Z)) : res Z :=
  rfoldM (λ counter j,
    do t <- of_option Undefined (touched c !! j);
    if negb t then Ok counter
    else
      do masks <- at2 (upd_bit_masks c) mver (Z.of_nat j);
      match num_records with
      | Some l => do n <- of_option Undefined (l !! j); Ok (counter + count_masks masks n 0)
      | None => Ok (foldl (λ a m, a + AtomicBitSet.count m) counter masks)
      end) 0 (seq 0 g).

(** ** Snapshots *)

(** [etl]: the build's [HTAP_ETL]. *)
Definition snapshot_part (etl : bool) (snapshot_master_ver : Z) (epoch : xid_t) (recs : list Z)
    (c : column) (i : nat) : res column :=
  do n <- of_option Undefined (recs !! i);
  do t <- of_option Undefined (touched c !! i);
  do _ <- of_option AssertFailed (snapshot_arenas c !! i);
  let snaps := <[i := mk_meta n epoch snapshot_master_ver (Z.of_nat i) t]> (snapshot_arenas c) in
  let etls := if etl && t then alter setUpdated i (etl_arenas c) else etl_arenas c in
  Ok (mk (unit_size c) (n_partitions c) (byteOffset_record c) (capacity_per_partition c)
         (total_size_per_partition c) (<[i := false]> (touched c)) (master_versions c)
         (upd_bit_masks c) snaps etls (readonly_etl_snapshot c)).

(** [snapshot_master_ver] comes from [TransactionManager::get_snapshot_masterVersion]. *)
Definition snapshot (g : nat) (etl : bool) (snapshot_master_ver : Z) (epoch : xid_t)
    (num_rec_per_part : list Z) (c : column) : res column :=
  rfoldM (snapshot_part etl snapshot_master_ver epoch num_rec_per_part) c (seq 0 g).

(** One row of [syncSnapshot]: the compare-and-swap stores the source's element. *)
Definition sync_elem (unit data_idx : Z) (src dst : chunk) : res chunk :=
  let mem_idx := u64 (data_idx * unit) in
  check mem_idx <? zlen dst else AssertFailed;
  check mem_idx <? zlen src else AssertFailed;
  check (unit =? 1) || (unit =? 2) || (unit =? 4) || (unit =? 8) else Throw;
  do v <- read_bytes src mem_idx unit;
  write_bytes dst mem_idx v.

(** The loop over the bits of one mask; leaving it early is the [break]. *)
Fixpoint sync_bits (unit recs base : Z) (src_msk actv_msk : AtomicBitSet.t) (src : chunk)
    (bbs : list Z) (dst : chunk) : res chunk :=
  match bbs with
  | [] => Ok dst
  | bb :: bbs =>
      let data_idx := base + bb in
      if recs <? data_idx then Ok dst
      else
        do s <- AtomicBitSet.test BIT_PACK_SIZE src_msk bb;
        do a <- AtomicBitSet.test BIT_PACK_SIZE actv_msk bb;
        do dst' <- (if (s : bool) && negb a then sync_elem unit data_idx src dst else Ok dst);
        sync_bits unit recs base src_msk actv_msk src bbs dst'
  end.

(** The loop over the masks of one partition. *)
Fixpoint sync_masks (unit recs : Z) (msk : Z) (src_masks actv_masks : list AtomicBitSet.t)
    (src : chunk) (dst : chunk) : res chunk :=
  match src_masks with
  | [] => Ok dst
  | src_msk :: src_masks' =>
      match actv_masks with
      | [] => Err Undefined
      | actv_msk :: actv_masks' =>
          if recs <? msk * BIT_PACK_SIZE then Ok dst
          else
            do dst' <- (if negb (AtomicBitSet.any src_msk) || AtomicBitSet.all actv_msk then Ok dst
                        else sync_bits unit recs (msk * BIT_PACK_SIZE) src_msk actv_msk src
                               (seqZ 0 BIT_PACK_SIZE) dst);
            sync_masks unit recs (msk + 1) src_masks' actv_masks' src dst'
      end
  end.

(** One master [i] and one partition [j]. *)
Definition sync_partition (inactive : Z) (i : Z) (c : column) (j : nat) : res column :=
  do srcs <- at2 (master_versions c) inactive (Z.of_nat j);
  do dsts <- at2 (master_versions c) i (Z.of_nat j);
  check Nat.eqb (length srcs) (length dsts) else AssertFailed;
  check Nat.eqb (length dsts) 1 else AssertFailed;
  do src <- of_option Undefined (srcs !! 0%nat);
  do dst <- of_option Undefined (dsts !! 0%nat);
  check zlen dst =? zlen src else AssertFailed;
  do snap <- of_option Undefined (snapshot_arenas c !! j);
  if (numOfRecords snap =? 0) || negb (upd_since_last_snapshot snap) then Ok c
  else
    do src_masks <- at2 (upd_bit_masks c) inactive (Z.of_nat j);
    do actv_masks <- at2 (upd_bit_masks c) i (Z.of_nat j);
    do dst' <- sync_masks (unit_size c) (numOfRecords snap) 0 src_masks actv_masks src dst;
    Ok (with_masters c (set2 (master_versions c) i (Z.of_nat j) [dst'])).

Definition syncSnapshot (inactive : Z) (c : column) : res column :=
  let nm := length (master_versions c) in
  check Nat.ltb 1 nm else AssertFailed;
  rfoldM (λ c i,
    if Z.of_nat i =? inactive then Ok c
    else rfoldM (sync_partition inactive (Z.of_nat i)) c (seq 0 (Z.to_nat (n_partitions c))))
    c (seq 0 nm).

(** ** ETL into the analytical copy *)

(** The blocks of dirty rows. *)
Fixpoint etl_masks (unit olap_recs : Z) (msk : Z) (masks : list AtomicBitSet.t) (src : chunk)
    (dst : chunk) : res (chunk * list AtomicBitSet.t) :=
  match masks with
  | [] => Ok (dst, [])
  | m :: ms =>
      if olap_recs <=? msk * BIT_PACK_SIZE then Ok (dst, m :: ms)
      else
        do (dst', m') <-
          (if AtomicBitSet.any m then
             let to_cpy := BIT_PACK_SIZE * unit in
             let st := msk * to_cpy in
             let n := if st + to_cpy <=? zlen src then to_cpy else zlen src - st in
             do b <- read_bytes src st n;
             do d <- write_bytes dst st b;
             Ok (d, AtomicBitSet.reset_all m)
           else Ok (dst, m));
        do (dst'', ms') <- etl_masks unit olap_recs (msk + 1) ms src dst';
        Ok (dst'', m' :: ms')
  end.

(** The tail of rows inserted since the last ETL. *)
Definition etl_tail (unit olap_recs snap_recs : Z) (src dst : chunk) : res chunk :=
  if olap_recs <? snap_recs then
    let st := olap_recs * unit in
    do b <- read_bytes src st ((snap_recs - olap_recs) * unit);
    write_bytes dst st b
  else Ok dst.

Definition etl_part (c : column) (i : nat) : res column :=
  do snap <- of_option Undefined (snapshot_arenas c !! i);
  do olap <- of_option Undefined (etl_arenas c !! i);
  let etls := <[i := mk_meta (numOfRecords snap) (epoch_id snap) (master_ver snap)
                      (arena_partition snap) false]> (etl_arenas c) in
  do chunks <- at2 (master_versions c) (master_ver snap) (Z.of_nat i);
  do src <- of_option Undefined (chunks !! 0%nat);
  do dst <- of_option Undefined (readonly_etl_snapshot c !! i);
  do (dst1, masks1) <-
    (if upd_since_last_snapshot snap then
       do masks <- at2 (upd_bit_masks c) (master_ver snap) (Z.of_nat i);
       do (d, ms) <- etl_masks (unit_size c) (numOfRecords olap) 0 masks src dst;
       Ok (d, set2 (upd_bit_masks c) (master_ver snap) (Z.of_nat i) ms)
     else Ok (dst, upd_bit_masks c));
  do dst2 <- etl_tail (unit_size c) (numOfRecords olap) (numOfRecords snap) src dst1;
  Ok (mk (unit_size c) (n_partitions c) (byteOffset_record c) (capacity_per_partition c)
         (total_size_per_partition c) (touched c) (master_versions c)
         masks1 (snapshot_arenas c) etls (<[i := dst2]> (readonly_etl_snapshot c))).

Definition ETL (c : column) : res column :=
  rfoldM etl_part c (seq 0 (Z.to_nat (n_partitions c))).

(** [snapshot_get_data]: per partition the chunk to scan and how many rows of it. *)
Definition snapshot_get_data (etl olap_local : bool) (c : column) : res (list (chunk * Z)) :=
  rmapM (λ i,
    do m0 <- at2 (master_versions c) 0 (Z.of_nat i);
    check Nat.eqb (length m0) 1 else AssertFailed;
    if olap_local then
      check etl else AssertFailed;
      do olap <- of_option Undefined (etl_arenas c !! i);
      do b <- of_option Undefined (readonly_etl_snapshot c !! i);
      Ok (take (Z.to_nat (numOfRecords olap * unit_size c)) b, numOfRecords olap)
    else
      do snap <- of_option Undefined (snapshot_arenas c !! i);
      do ms <- at2 (master_versions c) (master_ver snap) (Z.of_nat i);
      check Nat.eqb (length ms) 1 else AssertFailed;
      do b <- of_option Undefined (ms !! 0%nat);
      Ok (b, numOfRecords snap)) (seq 0 (Z.to_nat (n_partitions c))).

(** ** Two-level tables *)

Lemma at2_set2 {A} (x : list (list A)) i j a a' k l : at2 x i j = Ok a → 0 <= i → 0 <= j →
  0 <= k → 0 <= l →
  at2 (set2 x i j a') k l = if (k =? i) && (l =? j) then Ok a' else at2 x k l.
Proof.
  unfold at2, set2. intros (p & Hp%of_option_Ok & Ha%of_option_Ok)%rbind_Ok_inv Hi Hj Hk Hl.
  destruct (Z.eqb_spec k i) as [-> | Hne]; cbn [andb].
  - rewrite list_lookup_alter_eq, Hp. cbn [fmap option_fmap option_map of_option rbind].
    destruct (Z.eqb_spec l j) as [-> | Hne].
    + rewrite list_lookup_insert_eq; [done |]. by eapply lookup_lt_Some.
    + by rewrite list_lookup_insert_ne by lia.
  - by rewrite list_lookup_alter_ne by lia.
Qed.

(** ** Rows and dirty bits *)

(** Row [r] of a chunk of elements. *)
Definition elem (unit : Z) (b : chunk) (r : Z) : res bytes := read_bytes b (r * unit) unit.

(** The dirty bit of row [r]. *)
Definition dirty (masks : list AtomicBitSet.t) (r : Z) : bool :=
  match masks !! Z.to_nat (r / BIT_PACK_SIZE) with
  | Some m => AtomicBitSet.bit m (r mod BIT_PACK_SIZE)
  | None => false
  end.

Definition masks_wf (masks : list AtomicBitSet.t) : Prop :=
  ∀ i m, masks !! i = Some m → AtomicBitSet.wf BIT_PACK_SIZE m.

(** Row numbers of the block of mask [k]. *)
Lemma dirty_block masks k m bb : masks !! k = Some m → 0 <= bb < BIT_PACK_SIZE →
  dirty masks (Z.of_nat k * BIT_PACK_SIZE + bb) = AtomicBitSet.bit m bb.
Proof.
  intros Hk Hb. unfold dirty, BIT_PACK_SIZE in *.
  replace (Z.of_nat k * 8192 + bb) with (bb + Z.of_nat k * 8192) by lia.
  rewrite Z.div_add, Z.mod_add, Z.div_small, Z.mod_small, Z.add_0_l, Nat2Z.id by lia.
  by rewrite Hk.
Qed.

Lemma dirty_cons_low m ms r : 0 <= r < BIT_PACK_SIZE → dirty (m :: ms) r = AtomicBitSet.bit m r.
Proof. intros Hr. by rewrite <- (dirty_block (m :: ms) 0 m r). Qed.

Lemma dirty_cons_high m ms r : 0 <= r → dirty (m :: ms) (BIT_PACK_SIZE + r) = dirty ms r.
Proof.
  intros Hr. unfold dirty, BIT_PACK_SIZE.
  replace (8192 + r) with (r + 1 * 8192) by lia. rewrite Z.div_add, Z.mod_add by lia.
  assert (0 <= r / 8192) by (apply Z.div_pos; lia).
  by rewrite Z.add_1_r, Z2Nat.inj_succ by lia.
Qed.

(** ** [syncSnapshot] *)

Section sync.
Context (unit recs cap : Z) (src : chunk).
Hypothesis (Hunit : unit = 1 ∨ unit = 2 ∨ unit = 4 ∨ unit = 8).
Hypothesis (Hsrc : zlen src = cap * unit) (Hcap : 0 <= cap) (Hbig : cap * unit < 2 ^ 63).

Lemma sync_elem_ok r dst : zlen dst = zlen src → 0 <= r < cap →
  ∃ dst', sync_elem unit r src dst = Ok dst' ∧ zlen dst' = zlen dst ∧
    ∀ q, 0 <= q < cap → elem unit dst' q = if q =? r then elem unit src q else elem unit dst q.
Proof using Hunit Hsrc Hcap Hbig.
  intros Hl Hr. assert (0 < unit <= 8) as Hu by lia. unfold sync_elem.
  rewrite !wrap_id by nia. rewrite !(proj2 (Z.ltb_lt _ _)) by nia.
  assert ((unit =? 1) || (unit =? 2) || (unit =? 4) || (unit =? 8) = true) as ->.
  { destruct Hunit as [-> | [-> | [-> | ->]]]; done. }
  destruct (read_bytes_Ok src (r * unit) unit) as (v & Hv & Hvl); [nia | lia | nia |].
  rewrite Hv. cbn [rbind].
  destruct (write_bytes_Ok dst (r * unit) v) as (dst' & Hw & Hl'); [nia | nia |].
  exists dst'. split; [done |]. split; [done |]. intros q Hq. unfold elem.
  destruct (Z.eqb_spec q r) as [-> | Hne].
  - rewrite Hv. rewrite <- Hvl at 2. by apply (read_write_same dst).
  - eapply read_write_other; [done | nia |]. rewrite Hvl. by apply slots_disjoint; [lia |].
Qed.

(** The inner loop over the bits [k, k + n) of one pair of masks. *)
Lemma sync_bits_ok base sm am : 0 <= base →
  AtomicBitSet.wf BIT_PACK_SIZE sm → AtomicBitSet.wf BIT_PACK_SIZE am →
  (∀ bb, 0 <= bb < BIT_PACK_SIZE → AtomicBitSet.bit sm bb = true → base + bb < cap) →
  ∀ (n : nat) k dst, 0 <= k → k + Z.of_nat n <= BIT_PACK_SIZE → zlen dst = zlen src →
  ∃ dst', sync_bits unit recs base sm am src (seqZ k (Z.of_nat n)) dst = Ok dst' ∧
    zlen dst' = zlen dst ∧
    ∀ q, 0 <= q < cap → elem unit dst' q =
      if (base + k <=? q) && (q <? base + k + Z.of_nat n) && (q <=? recs) &&
         AtomicBitSet.bit sm (q - base) && negb (AtomicBitSet.bit am (q - base))
      then elem unit src q else elem unit dst q.
Proof using Hunit Hsrc Hcap Hbig.
  intros Hb Hs Ha Hin. induction n as [| n IH]; intros k dst Hk Hkn Hl.
  - exists dst. split; [done |]. split; [done |]. intros q Hq.
    destruct (Z.leb_spec (base + k) q), (Z.ltb_spec q (base + k + Z.of_nat 0)); simpl; (done || lia).
  - rewrite seqZ_cons by lia. cbn [sync_bits].
    destruct (Z.ltb_spec recs (base + k)) as [Hbr | Hle].
    { exists dst. split; [done |]. split; [done |]. intros q Hq.
      destruct (Z.leb_spec (base + k) q), (Z.leb_spec q recs); try lia;
        rewrite ?andb_false_r; simpl; done. }
    rewrite (AtomicBitSet.test_bit _ _ Hs), (AtomicBitSet.test_bit _ _ Ha) by lia. cbn [rbind].
    replace (Z.pred (Z.of_nat (S n))) with (Z.of_nat n) by lia.
    assert (∃ d1, (if AtomicBitSet.bit sm k && negb (AtomicBitSet.bit am k)
              then sync_elem unit (base + k) src dst else Ok dst) = Ok d1 ∧ zlen d1 = zlen dst ∧
      ∀ q, 0 <= q < cap → elem unit d1 q =
        if (q =? base + k) && AtomicBitSet.bit sm k && negb (AtomicBitSet.bit am k)
        then elem unit src q else elem unit dst q) as (d1 & -> & Hl1 & Hd1).
    { destruct (AtomicBitSet.bit sm k) eqn:Es, (AtomicBitSet.bit am k); cbn [andb negb];
        try (exists dst; split; [done |]; split; [done |]; intros; by rewrite ?andb_false_r).
      destruct (sync_elem_ok (base + k) dst Hl) as (d1 & E & Hl1 & Hd1).
      { split; [lia | by apply Hin; [lia |]]. }
      exists d1. split; [done |]. split; [done |]. intros q Hq. rewrite !andb_true_r. by apply Hd1. }
    cbn [rbind]. destruct (IH (Z.succ k) d1) as (d2 & -> & Hl2 & Hd2); [lia | lia | congruence |].
    exists d2. split; [done |]. split; [congruence |]. intros q Hq. rewrite Hd2, Hd1 by done.
    clear -Hle. destruct (Z.eqb_spec q (base + k)) as [-> | Hne].
    + replace (base + k - base) with k by lia.
      destruct (Z.leb_spec (base + Z.succ k) (base + k)), (Z.leb_spec (base + k) (base + k)),
        (Z.ltb_spec (base + k) (base + k + Z.of_nat (S n))), (Z.leb_spec (base + k) recs);
        try lia; done.
    + destruct (Z.leb_spec (base + Z.succ k) q), (Z.leb_spec (base + k) q),
        (Z.ltb_spec q (base + Z.succ k + Z.of_nat n)), (Z.ltb_spec q (base + k + Z.of_nat (S n)));
        try lia; done.
Qed.

(** The loop over the masks, from mask [msk] on. *)
Lemma sync_masks_ok sms : ∀ msk ams dst, 0 <= msk → length ams = length sms →
  masks_wf sms → masks_wf ams → zlen dst = zlen src →
  (∀ r, 0 <= r → dirty sms r = true → msk * BIT_PACK_SIZE + r < cap) →
  ∃ dst', sync_masks unit recs msk sms ams src dst = Ok dst' ∧ zlen dst' = zlen dst ∧
    ∀ q, 0 <= q < cap → elem unit dst' q =
      let r := q - msk * BIT_PACK_SIZE in
      if (0 <=? r) && (q <=? recs) && dirty sms r && negb (dirty ams r)
      then elem unit src q else elem unit dst q.
Proof using Hunit Hsrc Hcap Hbig.
  induction sms as [| sm sms IH]; intros msk ams dst Hm Hlen Hws Hwa Hl Hin;
    destruct ams as [| am ams]; try discriminate.
  { exists dst. split; [done |]. split; [done |]. intros q Hq. cbv zeta.
    by rewrite andb_false_r. }
  cbn [sync_masks]. set (B := BIT_PACK_SIZE) in *. assert (B = 8192) as HB by reflexivity.
  destruct (Z.ltb_spec recs (msk * B)) as [Hbr | Hle].
  { exists dst. split; [done |]. split; [done |]. intros q Hq. cbv zeta.
    destruct (Z.leb_spec 0 (q - msk * B)), (Z.leb_spec q recs); (done || lia). }
  pose proof (Hws 0%nat sm eq_refl) as Hs. pose proof (Hwa 0%nat am eq_refl) as Ha.
  assert (∃ d1, (if negb (AtomicBitSet.any sm) || AtomicBitSet.all am then Ok dst
      else sync_bits unit recs (msk * B) sm am src (seqZ 0 B) dst) = Ok d1 ∧ zlen d1 = zlen dst ∧
    ∀ q, 0 <= q < cap → elem unit d1 q =
      let r := q - msk * B in
      if (0 <=? r) && (r <? B) && (q <=? recs) && AtomicBitSet.bit sm r && negb (AtomicBitSet.bit am r)
      then elem unit src q else elem unit dst q) as (d1 & -> & Hl1 & Hd1).
  { destruct (sync_bits_ok (msk * B) sm am ltac:(lia) Hs Ha) with (n := Z.to_nat B) (k := 0) (dst := dst)
      as (d1 & E & Hl1 & Hd1); [| lia | fold B; lia | done |].
    { intros bb Hbb Hbit. apply Hin; [lia |]. by rewrite dirty_cons_low. }
    rewrite Z2Nat.id in E, Hd1 by lia.
    destruct (negb (AtomicBitSet.any sm) || AtomicBitSet.all am) eqn:Eskip.
    - exists dst. split; [done |]. split; [done |]. intros q Hq. cbv zeta.
      apply orb_true_iff in Eskip as [Hany%negb_true_iff | Hall].
      + destruct (AtomicBitSet.bit sm (q - msk * B)) eqn:Eb; [| by rewrite andb_false_r].
        destruct (Z.leb_spec 0 (q - msk * B)), (Z.ltb_spec (q - msk * B) B); try done.
        exfalso. apply not_true_iff_false in Hany. apply Hany.
        apply (AtomicBitSet.any_bits B sm Hs). exists (q - msk * B). done.
      + destruct (Z.leb_spec 0 (q - msk * B)), (Z.ltb_spec (q - msk * B) B); try done.
        rewrite (proj1 (AtomicBitSet.all_bits B am Ha) Hall) by lia. by rewrite andb_false_r.
    - exists d1. split; [exact E |]. split; [done |]. intros q Hq. rewrite Hd1 by done. cbv zeta.
      destruct (Z.leb_spec (msk * B + 0) q), (Z.leb_spec 0 (q - msk * B)),
        (Z.ltb_spec q (msk * B + 0 + B)), (Z.ltb_spec (q - msk * B) B); (done || lia). }
  cbn [rbind]. destruct (IH (msk + 1) ams d1) as (d2 & -> & Hl2 & Hd2).
  { lia. } { by injection Hlen. } { intros i m Hi. by apply (Hws (S i)). }
  { intros i m Hi. by apply (Hwa (S i)). } { congruence. }
  { intros r Hr Hd. replace ((msk + 1) * B + r) with (msk * B + (B + r)) by lia.
    apply Hin; [lia |]. by rewrite dirty_cons_high. }
  exists d2. split; [done |]. split; [congruence |]. intros q Hq. rewrite Hd2, Hd1 by done. cbv zeta.
  destruct (Z.ltb_spec (q - msk * B) 0) as [Hneg | Hnn].
  - by rewrite !(proj2 (Z.leb_gt 0 _)) by lia.
  - destruct (Z.ltb_spec (q - msk * B) B) as [Hlow | Hhigh].
    + rewrite (proj2 (Z.leb_gt 0 (q - (msk + 1) * B))) by lia.
      by rewrite (proj2 (Z.leb_le 0 (q - msk * B))), !dirty_cons_low by (fold B; lia).
    + rewrite !(proj2 (Z.leb_le 0 _)) by lia. rewrite andb_false_r. cbn [andb].
      replace (q - msk * B) with (B + (q - (msk + 1) * B)) by lia.
      by rewrite !dirty_cons_high by lia.
Qed.
End sync.

(** ** The column as an array per master *)

Definition packs (cap : Z) : Z := u64 (cap / BIT_PACK_SIZE + cap mod BIT_PACK_SIZE).

Record wf (nm : nat) (c : column) : Prop := mk_wf {
  wf_unit : 0 < unit_size c;
  wf_cap : 0 <= capacity_per_partition c;
  wf_size : capacity_per_partition c * unit_size c < 2 ^ 63;
  wf_nm : length (master_versions c) = nm;
  wf_master m j : 0 <= m < Z.of_nat nm → 0 <= j < n_partitions c →
    ∃ b, at2 (master_versions c) m j = Ok [b] ∧ zlen b = capacity_per_partition c * unit_size c;
  wf_masks m j : 0 <= m < Z.of_nat nm → 0 <= j < n_partitions c →
    ∃ ms, at2 (upd_bit_masks c) m j = Ok ms ∧ masks_wf ms ∧
      length ms = Z.to_nat (packs (capacity_per_partition c)) ∧
      ∀ r, 0 <= r → dirty ms r = true → r < capacity_per_partition c;
  wf_arena j : 0 <= j < n_partitions c → is_Some (snapshot_arenas c !! Z.to_nat j)
}.

(** Row [r] of partition [j] in master [m], and its dirty bit. *)
Definition row (c : column) (m j r : Z) : res bytes :=
  do chunks <- at2 (master_versions c) m j;
  do b <- of_option Undefined (chunks !! 0%nat);
  elem (unit_size c) b r.

Definition is_dirty (c : column) (m j r : Z) : bool :=
  match at2 (upd_bit_masks c) m j with Ok ms => dirty ms r | Err _ => false end.

Definition in_col (nm : nat) (c : column) (m j r : Z) : Prop :=
  0 <= m < Z.of_nat nm ∧ 0 <= j < n_partitions c ∧ 0 <= r < capacity_per_partition c.

Lemma master_chunk c m j r b : at2 (master_versions c) m j = Ok [b] →
  row c m j r = elem (unit_size c) b r.
Proof. unfold row. by intros ->. Qed.

Lemma is_dirty_masks c m j r ms : at2 (upd_bit_masks c) m j = Ok ms → is_dirty c m j r = dirty ms r.
Proof. unfold is_dirty. by intros ->. Qed.

(** Replacing the chunk of one master and partition. *)
Lemma row_set2 c m j b b' k l r : at2 (master_versions c) m j = Ok [b] → 0 <= m → 0 <= j → 0 <= k → 0 <= l →
  row (with_masters c (set2 (master_versions c) m j [b'])) k l r =
    if (k =? m) && (l =? j) then elem (unit_size c) b' r else row c k l r.
Proof.
  intros Hb Hm Hj Hk Hl. unfold row. cbn [with_masters master_versions unit_size].
  rewrite (at2_set2 _ m j [b] [b'] k l) by done. by destruct ((k =? m) && (l =? j)).
Qed.

Lemma length_set2 {A} (x : list (list A)) i j a : length (set2 x i j a) = length x.
Proof. apply length_alter. Qed.

Lemma set2_wf nm c m j b b' : wf nm c → 0 <= m → 0 <= j →
  at2 (master_versions c) m j = Ok [b] → zlen b' = zlen b →
  wf nm (with_masters c (set2 (master_versions c) m j [b'])).
Proof.
  intros [Hu Hc Hs Hn Hm Hk Ha] H0 H1 Hb Hl.
  split; try done; cbn [with_masters master_versions]; [by rewrite length_set2 |].
  intros k l Hkr Hlr. rewrite (at2_set2 _ m j [b] [b'] k l) by (done || lia).
  destruct (Z.eqb_spec k m) as [-> |], (Z.eqb_spec l j) as [-> |]; cbn [andb]; try by apply Hm.
  exists b'. split; [done |]. destruct (Hm m j Hkr Hlr) as (b0 & Hb0 & Hl0).
  rewrite Hb in Hb0. injection Hb0 as <-. rewrite Hl. exact Hl0.
Qed.

(** What the synchronisation of master [m] with the frozen master makes of a row. *)
Definition synced (c : column) (inactive m j r : Z) : res bytes :=
  match snapshot_arenas c !! Z.to_nat j with
  | Some snap =>
      if negb (m =? inactive) && upd_since_last_snapshot snap && negb (numOfRecords snap =? 0) &&
         (r <=? numOfRecords snap) && is_dirty c inactive j r && negb (is_dirty c m j r)
      then row c inactive j r else row c m j r
  | None => row c m j r
  end.

Definition sync_unit (c : column) : Prop :=
  unit_size c = 1 ∨ unit_size c = 2 ∨ unit_size c = 4 ∨ unit_size c = 8.

Lemma sync_partition_ok nm c inactive i (j : nat) : wf nm c → sync_unit c →
  0 <= inactive < Z.of_nat nm → 0 <= i < Z.of_nat nm → i ≠ inactive →
  Z.of_nat j < n_partitions c →
  ∃ ms, sync_partition inactive i c j = Ok (with_masters c ms) ∧ wf nm (with_masters c ms) ∧
    ∀ m l r, in_col nm c m l r → row (with_masters c ms) m l r =
      if (m =? i) && (l =? Z.of_nat j) then synced c inactive i l r else row c m l r.
Proof.
  intros Hwf Hunit Hin Hi Hne Hj.
  destruct (wf_master _ _ Hwf inactive (Z.of_nat j)) as (src & Hsrc & Hls); [done | lia |].
  destruct (wf_master _ _ Hwf i (Z.of_nat j)) as (dst & Hdst & Hld); [done | lia |].
  destruct (wf_masks _ _ Hwf inactive (Z.of_nat j)) as (sm & Hsm & Hws & Hlsm & Hcs); [done | lia |].
  destruct (wf_masks _ _ Hwf i (Z.of_nat j)) as (am & Ham & Hwa & Hlam & _); [done | lia |].
  destruct (wf_arena _ _ Hwf (Z.of_nat j)) as (snap & Hsnap); [lia |]. rewrite Nat2Z.id in Hsnap.
  unfold sync_partition. rewrite Hsrc, Hdst. cbn [rbind length Nat.eqb lookup list_lookup of_option].
  rewrite (proj2 (Z.eqb_eq (zlen dst) (zlen src))) by lia. rewrite Hsnap. cbn [rbind of_option].
  assert (∀ r, synced c inactive i (Z.of_nat j) r =
    if upd_since_last_snapshot snap && negb (numOfRecords snap =? 0) && (r <=? numOfRecords snap) &&
       dirty sm r && negb (dirty am r) then elem (unit_size c) src r else elem (unit_size c) dst r) as Hsync.
  { intros r. unfold synced. rewrite Nat2Z.id, Hsnap, (proj2 (Z.eqb_neq i inactive)) by done. cbn [negb andb].
    by rewrite (is_dirty_masks _ _ _ _ _ Hsm), (is_dirty_masks _ _ _ _ _ Ham),
      (master_chunk _ _ _ _ _ Hsrc), (master_chunk _ _ _ _ _ Hdst). }
  destruct ((numOfRecords snap =? 0) || negb (upd_since_last_snapshot snap)) eqn:Eskip.
  - exists (master_versions c). assert (with_masters c (master_versions c) = c) as -> by by destruct c.
    split; [done |]. split; [done |]. intros m l r Hr.
    destruct (Z.eqb_spec m i) as [-> |], (Z.eqb_spec l (Z.of_nat j)) as [-> |]; cbn [andb]; try done.
    rewrite Hsync, (master_chunk _ _ _ _ _ Hdst).
    by apply orb_true_iff in Eskip as [-> | ->%negb_true_iff]; rewrite ?andb_false_r.
  - apply orb_false_iff in Eskip as [E1 E2%negb_false_iff]. rewrite E1, E2 in Hsync.
    rewrite Hsm, Ham. cbn [rbind].
    destruct (sync_masks_ok (unit_size c) (numOfRecords snap) (capacity_per_partition c) src Hunit Hls
      (wf_cap _ _ Hwf) (wf_size _ _ Hwf) sm 0 am dst) as (d' & -> & Hld' & Hd'); try done; [lia | lia |].
    cbn [rbind]. eexists. split; [done |]. split; [by eapply set2_wf; eauto; lia |].
    intros m l r (Hmr & Hlr & Hr). rewrite (row_set2 _ i (Z.of_nat j) dst) by (done || lia).
    destruct (Z.eqb_spec m i) as [-> |], (Z.eqb_spec l (Z.of_nat j)) as [-> |]; cbn [andb]; try done.
    rewrite Hd', Hsync by done. cbv zeta. rewrite Z.mul_0_l, Z.sub_0_r.
    by rewrite (proj2 (Z.leb_le 0 r)) by lia.
Qed.

(** [synced] looks only at the two masters it compares. *)
Lemma synced_ext nm c ms inactive i j r : in_col nm c i j r → in_col nm c inactive j r →
  row (with_masters c ms) i j r = row c i j r →
  row (with_masters c ms) inactive j r = row c inactive j r →
  synced (with_masters c ms) inactive i j r = synced c inactive i j r.
Proof.
  intros Hi Hin E1 E2. unfold synced. rewrite E1, E2.
  by unfold is_dirty; cbn [with_masters snapshot_arenas upd_bit_masks].
Qed.

(** The partitions of one master. *)
Lemma sync_master_ok nm c inactive i : wf nm c → sync_unit c →
  0 <= inactive < Z.of_nat nm → 0 <= i < Z.of_nat nm → i ≠ inactive →
  ∃ ms, rfoldM (sync_partition inactive i) c (seq 0 (Z.to_nat (n_partitions c))) =
      Ok (with_masters c ms) ∧ wf nm (with_masters c ms) ∧
    ∀ m l r, in_col nm c m l r → row (with_masters c ms) m l r =
      if m =? i then synced c inactive i l r else row c m l r.
Proof.
  intros Hwf Hunit Hin Hi Hne.
  destruct (rfoldM_seq_inv (sync_partition inactive i)
    (λ k d, ∃ ms, d = with_masters c ms ∧ wf nm d ∧ ∀ m l r, in_col nm c m l r →
       row d m l r = if (m =? i) && (l <? Z.of_nat k) then synced c inactive i l r else row c m l r)
    (Z.to_nat (n_partitions c)) c) as (d & E & ms & -> & Hwf' & Hrow).
  - exists (master_versions c). split; [by destruct c |]. split; [done |]. intros m l r (_ & Hl & _).
    by rewrite (proj2 (Z.ltb_ge l _)), andb_false_r by lia.
  - intros k d Hk (ms & -> & Hwfd & Hd).
    destruct (sync_partition_ok nm (with_masters c ms) inactive i k) as (ms' & E & Hwf' & Hrow);
      try done; [cbn [with_masters n_partitions]; lia |].
    exists (with_masters (with_masters c ms) ms'). split; [done |]. exists ms'.
    split; [done |]. split; [done |]. intros m l r Hr. rewrite Hrow by done.
    pose proof Hr as (Hmr & Hlr & Hrr).
    destruct (Z.eqb_spec m i) as [-> |]; cbn [andb]; [| by rewrite Hd, (proj2 (Z.eqb_neq m i))].
    destruct (Z.eqb_spec l (Z.of_nat k)) as [-> |].
    + rewrite (proj2 (Z.ltb_lt _ _)) by lia. apply (synced_ext nm); [done | by split; [done |] | |].
      * by rewrite Hd, (proj2 (Z.ltb_ge (Z.of_nat k) (Z.of_nat k))), andb_false_r by (done || lia).
      * by rewrite Hd, (proj2 (Z.eqb_neq inactive i)) by (done || by split; [done |]).
    + rewrite Hd by done. rewrite Z.eqb_refl.
      destruct (Z.ltb_spec l (Z.of_nat k)), (Z.ltb_spec l (Z.of_nat (k + 1))); (done || lia).
  - exists ms. split; [done |]. split; [done |]. intros m l r Hr. rewrite Hrow by done.
    destruct Hr as (_ & Hl & _). by rewrite (proj2 (Z.ltb_lt l _)), andb_true_r by lia.
Qed.

Lemma syncSnapshot_ok nm c inactive : wf nm c → sync_unit c → (1 < nm)%nat →
  0 <= inactive < Z.of_nat nm →
  ∃ ms, syncSnapshot inactive c = Ok (with_masters c ms) ∧ wf nm (with_masters c ms) ∧
    ∀ m l r, in_col nm c m l r → row (with_masters c ms) m l r = synced c inactive m l r.
Proof.
  intros Hwf Hunit Hnm Hin. unfold syncSnapshot. rewrite (wf_nm _ _ Hwf).
  rewrite (proj2 (Nat.ltb_lt 1 nm)) by done.
  assert (∀ j r, synced c inactive inactive j r = row c inactive j r) as Hself.
  { intros j r. unfold synced. rewrite Z.eqb_refl. by destruct (snapshot_arenas c !! _). }
  match goal with |- context [rfoldM ?f _ _] => destruct (rfoldM_seq_inv f
    (λ k d, ∃ ms, d = with_masters c ms ∧ wf nm d ∧ ∀ m l r, in_col nm c m l r →
       row d m l r = if m <? Z.of_nat k then synced c inactive m l r else row c m l r)
    nm c) as (d & E & ms & -> & Hwf' & Hrow) end.
  - exists (master_versions c). split; [by destruct c |]. split; [done |]. intros m l r (Hm & _).
    by rewrite (proj2 (Z.ltb_ge m _)) by lia.
  - intros k d Hk (ms & -> & Hwfd & Hd). destruct (Z.eqb_spec (Z.of_nat k) inactive) as [Ek |].
    { eexists. split; [done |]. exists ms. split; [done |]. split; [done |]. intros m l r Hr.
      rewrite Hd by done. destruct (Z.ltb_spec m (Z.of_nat k)), (Z.ltb_spec m (Z.of_nat (k + 1)));
        try done; try lia. replace m with inactive by lia. by rewrite Hself. }
    destruct (sync_master_ok nm (with_masters c ms) inactive (Z.of_nat k)) as (ms' & E & Hwf' & Hrow);
      try done; [lia |].
    exists (with_masters (with_masters c ms) ms'). split; [exact E |]. exists ms'.
    split; [done |]. split; [done |]. intros m l r Hr. rewrite Hrow by done. pose proof Hr as (Hm & Hl & Hrr).
    destruct (Z.eqb_spec m (Z.of_nat k)) as [-> |].
    + rewrite (proj2 (Z.ltb_lt _ _)) by lia. apply (synced_ext nm); [done | by split; [done |] | |].
      * by rewrite Hd, (proj2 (Z.ltb_ge (Z.of_nat k) (Z.of_nat k))) by (done || lia).
      * rewrite Hd by (by split; [done |]). rewrite Hself. by destruct (inactive <? Z.of_nat k).
    + rewrite Hd by done. destruct (Z.ltb_spec m (Z.of_nat k)), (Z.ltb_spec m (Z.of_nat (k + 1))); (done || lia).
  - exists ms. split; [exact E |]. split; [done |]. intros m l r Hr. rewrite Hrow by done.
    destruct Hr as (Hm & _). by rewrite (proj2 (Z.ltb_lt m _)) by lia.
Qed.

(** ** Reads and writes of rows *)

Definition vid_in (nm : nat) (c : column) (vid : rowid_t) : Prop :=
  in_col nm c (StorageUtils.get_m_version vid) (StorageUtils.get_pid vid) (StorageUtils.get_offset vid).

(** Byte offsets of the rows of a partition. *)
Lemma row_bounds nm c r : wf nm c → 0 <= r < capacity_per_partition c →
  0 <= r * unit_size c ∧
  r * unit_size c + unit_size c <= capacity_per_partition c * unit_size c ∧
  u64 (r * unit_size c) = r * unit_size c ∧
  u64 (r * unit_size c + unit_size c) = r * unit_size c + unit_size c.
Proof.
  intros [Hu Hc Hs _ _ _ _] Hr. assert (0 <= r * unit_size c) by nia.
  assert (r * unit_size c + unit_size c <= capacity_per_partition c * unit_size c) by nia.
  split; [done |]. split; [done |]. by rewrite !wrap_id by lia.
Qed.

Lemma getElem_row nm c vid : wf nm c → vid_in nm c vid →
  getElem c vid = row c (StorageUtils.get_m_version vid) (StorageUtils.get_pid vid) (StorageUtils.get_offset vid).
Proof.
  intros Hwf (Hm & Hj & Hr). destruct (wf_master _ _ Hwf _ _ Hm Hj) as (b & Hb & Hl).
  destruct (row_bounds nm c _ Hwf Hr) as (H0 & H1 & E0 & E1).
  unfold getElem. rewrite (master_chunk _ _ _ _ _ Hb), Hb. cbn [rbind length Nat.eqb negb get_loop].
  rewrite E0, E1, Hl. by rewrite (proj2 (Z.leb_le _ _) H1).
Qed.

(** Writing one element of a chunk. *)
Lemma write_elem nm c b b' r d : wf nm c → 0 <= r < capacity_per_partition c →
  write_bytes b (r * unit_size c) d = Ok b' → zlen d = unit_size c →
  ∀ q, 0 <= q → elem (unit_size c) b' q = if q =? r then Ok d else elem (unit_size c) b q.
Proof.
  intros Hwf Hr Hw Hd q Hq. pose proof (wf_unit _ _ Hwf). unfold elem.
  destruct (Z.eqb_spec q r) as [-> | Hne].
  - rewrite <- Hd at 2. by apply (read_write_same b).
  - eapply read_write_other; [done | nia |]. rewrite Hd. by apply slots_disjoint.
Qed.

(** Every row of a partition has its bit. *)
Lemma mask_of_row cap r : 0 <= r < cap → cap < 2 ^ 63 →
  (Z.to_nat (r / BIT_PACK_SIZE) < Z.to_nat (packs cap))%nat.
Proof.
  intros Hr Hc. unfold packs, BIT_PACK_SIZE.
  pose proof (Z.div_mod cap 8192 ltac:(lia)). pose proof (Z.mod_pos_bound cap 8192 ltac:(lia)).
  pose proof (Z.div_mod r 8192 ltac:(lia)). pose proof (Z.mod_pos_bound r 8192 ltac:(lia)).
  assert (0 <= r / 8192) by (apply Z.div_pos; lia).
  assert (0 <= cap / 8192) by (apply Z.div_pos; lia).
  rewrite wrap_id by lia. lia.
Qed.

(** Setting the bit of row [r]. *)
Lemma set_dirty masks r m m' : masks !! Z.to_nat (r / BIT_PACK_SIZE) = Some m → 0 <= r →
  masks_wf masks → AtomicBitSet.wf BIT_PACK_SIZE m' →
  (∀ i, 0 <= i → AtomicBitSet.bit m' i =
     if i =? r mod BIT_PACK_SIZE then true else AtomicBitSet.bit m i) →
  let masks' := <[Z.to_nat (r / BIT_PACK_SIZE) := m']> masks in
  masks_wf masks' ∧ ∀ q, 0 <= q → dirty masks' q = (q =? r) || dirty masks q.
Proof.
  intros Hm Hr Hwf Hwf' Hbit masks'. split.
  - intros i x Hi. unfold masks' in Hi. destruct (decide (i = Z.to_nat (r / BIT_PACK_SIZE))) as [-> | Hne].
    + rewrite list_lookup_insert_eq in Hi by (by eapply lookup_lt_Some). congruence.
    + rewrite list_lookup_insert_ne in Hi by done. by eapply Hwf.
  - intros q Hq. unfold dirty, masks'. set (B := BIT_PACK_SIZE) in *. assert (B = 8192) as HB by reflexivity.
    pose proof (Z.div_mod q B ltac:(lia)). pose proof (Z.mod_pos_bound q B ltac:(lia)).
    pose proof (Z.div_mod r B ltac:(lia)).
    assert (0 <= q / B) by (apply Z.div_pos; lia). assert (0 <= r / B) by (apply Z.div_pos; lia).
    destruct (decide (Z.to_nat (q / B) = Z.to_nat (r / B))) as [E | Hne].
    + rewrite E, list_lookup_insert_eq, Hm by (by eapply lookup_lt_Some). rewrite Hbit by lia.
      destruct (Z.eqb_spec (q mod B) (r mod B)), (Z.eqb_spec q r); try done; exfalso; [nia |].
      congruence.
    + rewrite list_lookup_insert_ne by done. destruct (Z.eqb_spec q r); [congruence | done].
Qed.

(** The element of row [vid] replaced in the masters [sel] accepts. *)
Definition rows_written (nm : nat) (c c' : column) (vid : rowid_t) (d : bytes) (sel : Z → bool) : Prop :=
  ∀ m j r, in_col nm c m j r → row c' m j r =
    if sel m && (j =? StorageUtils.get_pid vid) && (r =? StorageUtils.get_offset vid)
    then Ok d else row c m j r.

Lemma updateElem_ok nm c vid d : wf nm c → vid_in nm c vid → zlen d = unit_size c →
  ∃ c', updateElem c vid (Some d) = Ok c' ∧ wf nm c' ∧ unit_size c' = unit_size c ∧
    n_partitions c' = n_partitions c ∧ byteOffset_record c' = byteOffset_record c ∧
    capacity_per_partition c' = capacity_per_partition c ∧
    touched c' = <[Z.to_nat (StorageUtils.get_pid vid) := true]> (touched c) ∧
    rows_written nm c c' vid d (Z.eqb (StorageUtils.get_m_version vid)) ∧
    ∀ m j r, in_col nm c m j r → is_dirty c' m j r =
      ((m =? StorageUtils.get_m_version vid) && (j =? StorageUtils.get_pid vid) &&
       (r =? StorageUtils.get_offset vid)) || is_dirty c m j r.
Proof.
  intros Hwf (Hm & Hj & Hr) Hd. unfold updateElem.
  set (mv := StorageUtils.get_m_version vid) in *. set (pid := StorageUtils.get_pid vid) in *.
  set (off := StorageUtils.get_offset vid) in *.
  destruct (wf_master _ _ Hwf _ _ Hm Hj) as (b & Hb & Hl).
  destruct (wf_masks _ _ Hwf _ _ Hm Hj) as (ms & Hms & Hmw & Hlm & Hdc).
  destruct (row_bounds nm c _ Hwf Hr) as (H0 & H1 & E0 & E1).
  pose proof (wf_unit _ _ Hwf). pose proof (wf_size _ _ Hwf).
  rewrite !(proj2 (Z.ltb_lt _ _)) by lia. rewrite Hb. cbn [rbind].
  destruct (Column.UpdateInPlace_slot b off (unit_size c) d) as (b' & Hw & Hlb & ->); try done; [lia | lia |].
  cbn [rbind]. rewrite Hms. cbn [rbind].
  destruct (lookup_lt_is_Some_2 ms (Z.to_nat (off / BIT_PACK_SIZE))) as [mk Hmk].
  { rewrite Hlm. apply mask_of_row; nia. }
  rewrite Hmk. cbn [of_option rbind].
  destruct (AtomicBitSet.set_spec BIT_PACK_SIZE mk (Hmw _ _ Hmk) (off mod BIT_PACK_SIZE)) as (mk' & -> & Hwk & Hbk).
  { apply Z.mod_pos_bound. done. }
  cbn [rbind]. destruct (set_dirty ms off mk mk' Hmk ltac:(lia) Hmw Hwk Hbk) as [Hmw' Hdirty].
  set (ms' := <[Z.to_nat (off / BIT_PACK_SIZE) := mk']> ms) in *.
  eexists. split; [done |].
  assert (∀ m j, 0 <= m → 0 <= j → at2 (set2 (upd_bit_masks c) mv pid ms') m j =
    if (m =? mv) && (j =? pid) then Ok ms' else at2 (upd_bit_masks c) m j) as Hat.
  { intros m j Hm0 Hj0. apply (at2_set2 _ mv pid ms); (done || lia). }
  split; [| split; [done |]; split; [done |]; split; [done |]; split; [done |]; split; [done |]; split].
  - destruct (set2_wf nm c mv pid b b' Hwf ltac:(lia) ltac:(lia) Hb Hlb) as [A1 A2 A3 A4 A5 A6 A7].
    split; try done. cbn [with_masks with_masters upd_bit_masks capacity_per_partition n_partitions].
    intros m j Hm' Hj'. rewrite Hat by lia.
    destruct (Z.eqb_spec m mv) as [-> |], (Z.eqb_spec j pid) as [-> |]; cbn [andb]; try by apply A6.
    exists ms'. split; [done |]. split; [done |]. split; [unfold ms'; by rewrite length_insert |].
    intros r Hr0. rewrite Hdirty by done. intros [->%Z.eqb_eq | Hdr]%orb_true_iff; [lia | by apply Hdc].
  - unfold rows_written. fold mv pid off. intros m j r (Hm' & Hj' & Hr').
    transitivity (row (with_masters c (set2 (master_versions c) mv pid [b'])) m j r); [reflexivity |].
    rewrite (row_set2 _ mv pid b) by (done || lia). rewrite (Z.eqb_sym mv m).
    destruct (Z.eqb_spec m mv) as [-> |], (Z.eqb_spec j pid) as [-> |]; cbn [andb]; try done.
    rewrite (write_elem nm c b b' off d) by (done || lia).
    by rewrite (master_chunk _ _ _ _ _ Hb).
  - intros m j r (Hm' & Hj' & Hr'). unfold is_dirty at 1. cbn [with_masks with_masters upd_bit_masks].
    rewrite Hat by lia.
    destruct (Z.eqb_spec m mv) as [-> |], (Z.eqb_spec j pid) as [-> |]; cbn [andb]; try done.
    rewrite Hdirty by lia. by rewrite (is_dirty_masks _ _ _ _ _ Hms).
Qed.

(** The arenas are set by snapshots only. *)
Lemma updateElem_arenas c vid e c' : updateElem c vid e = Ok c' → snapshot_arenas c' = snapshot_arenas c.
Proof.
  unfold updateElem. destruct (_ <? _); [| done]. destruct (_ <? _); [| done].
  intros (? & _ & ([ok ?] & _ & E)%rbind_Ok_inv)%rbind_Ok_inv. destruct ok; [| done].
  apply rbind_Ok_inv in E as (? & _ & (? & _ & ([? ?] & _ & E)%rbind_Ok_inv)%rbind_Ok_inv).
  exact (f_equal (λ x, match x with Ok d => snapshot_arenas d | Err _ => [] end) (eq_sym E)).
Qed.

Lemma at2_lookup {A} (x : list (list A)) i j a : at2 x i j = Ok a ↔
  ∃ p, x !! Z.to_nat i = Some p ∧ p !! Z.to_nat j = Some a.
Proof.
  unfold at2. split.
  - intros (p & Hp%of_option_Ok & Ha%of_option_Ok)%rbind_Ok_inv. eauto.
  - intros (p & -> & Ha). simpl. by rewrite Ha.
Qed.

Lemma insert_masters_ok pid off unit d ms : 0 < unit → zlen d = unit → 0 <= off * unit →
  (∀ k p, ms !! k = Some p → ∃ b, p !! Z.to_nat pid = Some [b] ∧ off * unit + unit <= zlen b < 2 ^ 63) →
  ∃ ms', insert_masters ms pid off unit (Some d) = Ok ms' ∧ length ms' = length ms ∧
    ∀ k p b, ms !! k = Some p → p !! Z.to_nat pid = Some [b] →
      ∃ b', write_bytes b (off * unit) d = Ok b' ∧ zlen b' = zlen b ∧
        ms' !! k = Some (<[Z.to_nat pid := [b']]> p).
Proof.
  intros Hu Hd H0. induction ms as [| p ms IH]; intros Hms.
  { exists []. split; [done |]. split; [done |]. intros k p b Hk. by rewrite lookup_nil in Hk. }
  destruct IH as (ms' & E & Hlen & Hk). { intros k q Hq. by apply (Hms (S k)). }
  destruct (Hms 0%nat p eq_refl) as (b & Hb & Hle & Hlt).
  destruct (Column.UpdateInPlace_slot b off unit d) as (b' & Hw & Hl & HU); try done.
  exists (<[Z.to_nat pid := [b']]> p :: ms'). cbn [insert_masters]. rewrite Hb. cbn [of_option rbind].
  rewrite HU. cbn [rbind]. rewrite E. split; [done |]. split; [simpl; by rewrite Hlen |].
  intros [| k] q b0 Hq Hb0; [| by apply Hk].
  injection Hq as <-. rewrite Hb in Hb0. injection Hb0 as <-. eauto.
Qed.

Lemma insertElem_ok nm c vid d : wf nm c → (0 < nm)%nat →
  0 <= StorageUtils.get_pid vid < n_partitions c →
  0 <= StorageUtils.get_offset vid < capacity_per_partition c → zlen d = unit_size c →
  ∃ ms, insertElem c vid (Some d) = Ok (with_masters c ms) ∧ wf nm (with_masters c ms) ∧
    rows_written nm c (with_masters c ms) vid d (λ _, true).
Proof.
  intros Hwf Hnm Hj Hr Hd. unfold insertElem, rows_written.
  set (pid := StorageUtils.get_pid vid) in *. set (off := StorageUtils.get_offset vid) in *.
  rewrite !(proj2 (Z.ltb_lt _ _)) by lia. pose proof (wf_unit _ _ Hwf). pose proof (wf_size _ _ Hwf).
  destruct (row_bounds nm c _ Hwf Hr) as (Hlo & Hhi & _).
  destruct (insert_masters_ok pid off (unit_size c) d (master_versions c)) as (ms & E & Hlen & Hms); try done.
  { intros k p Hk. pose proof (lookup_lt_Some _ _ _ Hk) as Hlt. rewrite (wf_nm _ _ Hwf) in Hlt.
    destruct (wf_master _ _ Hwf (Z.of_nat k) pid) as (b & (p' & Hp & Hb)%at2_lookup & Hl); [lia | done |].
    rewrite Nat2Z.id, Hk in Hp. injection Hp as <-. exists b. split; [done |]. lia. }
  rewrite E. cbn [rbind]. exists ms. split; [done |].
  assert (∀ m j b, 0 <= m < Z.of_nat nm → 0 <= j < n_partitions c → at2 (master_versions c) m j = Ok [b] →
    ∃ b', at2 ms m j = Ok [b'] ∧ zlen b' = zlen b ∧
      (if j =? pid then write_bytes b (off * unit_size c) d = Ok b' else b' = b)) as Hat.
  { intros m j b Hm Hj' (p & Hp & Hb)%at2_lookup.
    destruct (wf_master _ _ Hwf m pid Hm Hj) as (b0 & (p' & Hp' & Hb0)%at2_lookup & Hl).
    rewrite Hp in Hp'. injection Hp' as <-. destruct (Hms _ p b0 Hp Hb0) as (b' & Hw & Hl' & Hmk).
    destruct (Z.eqb_spec j pid) as [-> | Hne].
    - rewrite Hb in Hb0. injection Hb0 as <-. exists b'. split; [| done]. apply at2_lookup.
      eexists. split; [done |]. apply list_lookup_insert_eq. by eapply lookup_lt_Some.
    - exists b. split; [| done]. apply at2_lookup. eexists. split; [done |].
      by rewrite list_lookup_insert_ne by lia. }
  split.
  - destruct Hwf as [A1 A2 A3 A4 A5 A6 A7]. split; try done; cbn [with_masters master_versions].
    + by rewrite Hlen.
    + intros m j Hm Hj'. destruct (A5 m j Hm Hj') as (b & Hb & Hl).
      destruct (Hat m j b Hm Hj' Hb) as (b' & Hb' & Hl' & _). exists b'. split; [done |].
      by rewrite Hl'.
  - intros m j r (Hm & Hj' & Hr'). destruct (wf_master _ _ Hwf m j Hm Hj') as (b & Hb & Hl).
    destruct (Hat m j b Hm Hj' Hb) as (b' & Hb' & Hl' & Hcase).
    rewrite (master_chunk _ _ _ _ _ Hb), (master_chunk (with_masters c ms) m j r b' Hb').
    cbn [with_masters unit_size andb]. destruct (j =? pid); cbn [andb]; [| by rewrite Hcase].
    by rewrite (write_elem nm c b b' off d) by (done || lia).
Qed.

(** Every write to a well-formed circular column in range succeeds and keeps it well
    formed.  An update replaces the row in the one master its row id names, sets exactly that
    row's dirty bit there and raises the partition's touched flag; an insert replaces the row
    in every master and sets no bit.  A read returns the row of the master the row id names. *)
Theorem circular_column_writes (nm : nat) (c : column) (vid : rowid_t) (d : bytes) :
  wf nm c → vid_in nm c vid → zlen d = unit_size c →
  let m0 := StorageUtils.get_m_version vid in
  let j0 := StorageUtils.get_pid vid in
  let r0 := StorageUtils.get_offset vid in
  getElem c vid = row c m0 j0 r0 ∧
  (∃ c', updateElem c vid (Some d) = Ok c' ∧ wf nm c' ∧
    touched c' = <[Z.to_nat j0 := true]> (touched c) ∧
    (∀ m j r, in_col nm c m j r → row c' m j r =
       if (m0 =? m) && (j =? j0) && (r =? r0) then Ok d else row c m j r) ∧
    (∀ m j r, in_col nm c m j r →
       is_dirty c' m j r = ((m =? m0) && (j =? j0) && (r =? r0)) || is_dirty c m j r)) ∧
  (∃ c', insertElem c vid (Some d) = Ok c' ∧ wf nm c' ∧ touched c' = touched c ∧
    (∀ m j r, in_col nm c m j r → row c' m j r =
       if (j =? j0) && (r =? r0) then Ok d else row c m j r) ∧
    (∀ m j r, is_dirty c' m j r = is_dirty c m j r)).
Proof.
  intros Hwf Hv Hd m0 j0 r0. split; [by apply (getElem_row nm) |]. split.
  - destruct (updateElem_ok nm c vid d Hwf Hv Hd) as (c' & E & Hwf' & _ & _ & _ & _ & Ht & Hrow & Hdirty). eauto 10.
  - pose proof Hv as (Hm & Hj & Hr).
    destruct (insertElem_ok nm c vid d Hwf ltac:(lia) Hj Hr Hd) as (ms & E & Hwf' & Hrow). eauto 10.
Qed.

(** ** [ETL] *)

(** The dirty bit of the block of row [r]: the unit of an ETL copy. *)
Definition block_dirty (masks : list AtomicBitSet.t) (r : Z) : bool :=
  match masks !! Z.to_nat (r / BIT_PACK_SIZE) with
  | Some m => AtomicBitSet.any m
  | None => false
  end.

Lemma block_of_dirty masks r : masks_wf masks → 0 <= r → dirty masks r = true →
  block_dirty masks r = true.
Proof.
  unfold dirty, block_dirty. intros Hwf Hr. destruct (masks !! _) as [m |] eqn:Em; [| done].
  intros Hb. apply (AtomicBitSet.any_bits BIT_PACK_SIZE m (Hwf _ _ Em)). eexists.
  split; [| exact Hb]. apply Z.mod_pos_bound. done.
Qed.

Section etl.
Context (unit olap cap : Z) (src : chunk).
Hypothesis (Hunit : 0 < unit) (Hsrc : zlen src = cap * unit) (Hcap : 0 <= cap).

(** Copying the rows [lo, hi) of the source. *)
Lemma copy_rows lo hi dst : zlen dst = zlen src → 0 <= lo <= hi → hi <= cap →
  ∃ b dst', read_bytes src (lo * unit) ((hi - lo) * unit) = Ok b ∧
    write_bytes dst (lo * unit) b = Ok dst' ∧ zlen dst' = zlen dst ∧
    ∀ q, 0 <= q < cap → elem unit dst' q =
      if (lo <=? q) && (q <? hi) then elem unit src q else elem unit dst q.
Proof using Hunit Hsrc Hcap.
  intros Hl Hlo Hhi.
  destruct (read_bytes_Ok src (lo * unit) ((hi - lo) * unit)) as (b & Hb & Hbl); [nia | nia | nia |].
  destruct (write_bytes_Ok dst (lo * unit) b) as (dst' & Hw & Hl'); [nia | nia |].
  exists b, dst'. split; [done |]. split; [done |]. split; [done |]. intros q Hq. unfold elem.
  destruct (Z.leb_spec lo q), (Z.ltb_spec q hi); cbn [andb];
    try (eapply read_write_other; [done | nia |]; rewrite Hbl; nia).
  rewrite (read_inside_write dst dst' (lo * unit) b (q * unit) unit ((q - lo) * unit)) by (done || nia).
  rewrite (read_bytes_sub src (lo * unit) ((hi - lo) * unit)) by (done || nia). f_equal. nia.
Qed.

Lemma block_dirty_low m ms r : 0 <= r < BIT_PACK_SIZE → block_dirty (m :: ms) r = AtomicBitSet.any m.
Proof. intros Hr. unfold block_dirty. by rewrite Z.div_small. Qed.

Lemma block_dirty_high m ms r : 0 <= r → block_dirty (m :: ms) (BIT_PACK_SIZE + r) = block_dirty ms r.
Proof.
  intros Hr. unfold block_dirty, BIT_PACK_SIZE.
  replace (8192 + r) with (r + 1 * 8192) by lia. rewrite Z.div_add by lia.
  assert (0 <= r / 8192) by (apply Z.div_pos; lia).
  by rewrite Z.add_1_r, Z2Nat.inj_succ by lia.
Qed.

(** One block. *)
Lemma etl_block msk m dst : 0 <= msk → zlen dst = zlen src → AtomicBitSet.wf BIT_PACK_SIZE m →
  (∀ bb, 0 <= bb < BIT_PACK_SIZE → AtomicBitSet.bit m bb = true → msk * BIT_PACK_SIZE + bb < cap) →
  ∃ dst' m',
    (if AtomicBitSet.any m then
       let to_cpy := BIT_PACK_SIZE * unit in
       let st := msk * to_cpy in
       let n := if st + to_cpy <=? zlen src then to_cpy else zlen src - st in
       do b <- read_bytes src st n;
       do d <- write_bytes dst st b;
       Ok (d, AtomicBitSet.reset_all m)
     else Ok (dst, m)) = Ok (dst', m') ∧ zlen dst' = zlen dst ∧
    ∀ q, 0 <= q < cap → elem unit dst' q =
      if (0 <=? q - msk * BIT_PACK_SIZE) && (q - msk * BIT_PACK_SIZE <? BIT_PACK_SIZE) && AtomicBitSet.any m
      then elem unit src q else elem unit dst q.
Proof using Hunit Hsrc Hcap.
  intros Hm Hl Hwf Hin. set (B := BIT_PACK_SIZE) in *. assert (B = 8192) as HB by reflexivity.
  clearbody B. destruct (AtomicBitSet.any m) eqn:Ea.
  2: { exists dst, m. split; [done |]. split; [done |]. intros q Hq. by rewrite andb_false_r. }
  apply (AtomicBitSet.any_bits B m Hwf) in Ea as (bb & Hbb & Hbit). specialize (Hin bb Hbb Hbit).
  set (hi := Z.min ((msk + 1) * B) cap).
  destruct (copy_rows (msk * B) hi dst Hl) as (b & dst' & Hr & Hw & Hl' & Hd'); [lia | lia |].
  exists dst', (AtomicBitSet.reset_all m). cbv zeta.
  replace (msk * (B * unit)) with (msk * B * unit) by lia.
  assert ((if msk * B * unit + B * unit <=? zlen src then B * unit else zlen src - msk * B * unit)
    = (hi - msk * B) * unit) as ->.
  { rewrite Hsrc. unfold hi. destruct (Z.leb_spec (msk * B * unit + B * unit) (cap * unit)); nia. }
  rewrite Hr. cbn [rbind]. rewrite Hw. split; [done |]. split; [done |]. intros q Hq. rewrite Hd' by done.
  unfold hi. destruct (Z.leb_spec (msk * B) q), (Z.leb_spec 0 (q - msk * B)),
    (Z.ltb_spec q (Z.min ((msk + 1) * B) cap)), (Z.ltb_spec (q - msk * B) B); (done || lia).
Qed.

Lemma etl_masks_ok masks : ∀ msk dst, 0 <= msk → masks_wf masks → zlen dst = zlen src →
  (∀ r, 0 <= r → dirty masks r = true → msk * BIT_PACK_SIZE + r < cap) →
  ∃ dst' masks', etl_masks unit olap msk masks src dst = Ok (dst', masks') ∧ zlen dst' = zlen dst ∧
    ∀ q, 0 <= q < cap →
      let r := q - msk * BIT_PACK_SIZE in
      (0 <= r → block_dirty masks r = true → q < olap → elem unit dst' q = elem unit src q) ∧
      (elem unit dst q = elem unit src q → elem unit dst' q = elem unit src q).
Proof using Hunit Hsrc Hcap.
  induction masks as [| m ms IH]; intros msk dst Hm Hwf Hl Hin; cbn [etl_masks].
  { exists dst, []. split; [done |]. split; [done |]. intros q Hq. split; [| done].
    unfold block_dirty. by rewrite lookup_nil. }
  set (B := BIT_PACK_SIZE) in *. assert (B = 8192) as HB by reflexivity.
  destruct (Z.leb_spec olap (msk * B)) as [Hbr | Hlt].
  { exists dst, (m :: ms). split; [done |]. split; [done |]. intros q Hq. split; [lia | done]. }
  destruct (etl_block msk m dst) as (d1 & m1 & E1 & Hl1 & Hd1); [done | done | by apply (Hwf 0%nat) | |].
  { intros bb Hbb Hbit. apply Hin; [lia |]. by rewrite dirty_cons_low. }
  cbv zeta in E1. fold B in E1, Hd1. cbv zeta. rewrite E1. cbn [rbind].
  destruct (IH (msk + 1) d1) as (d2 & ms2 & -> & Hl2 & Hd2); [lia | | congruence | |].
  { intros i x Hx. by apply (Hwf (S i)). }
  { intros r Hr Hdr. replace ((msk + 1) * B + r) with (msk * B + (B + r)) by lia.
    apply Hin; [lia |]. by rewrite dirty_cons_high. }
  exists d2, (m1 :: ms2). split; [done |]. split; [congruence |]. intros q Hq.
  set (r := q - msk * B).
  destruct (Hd2 q Hq) as [Hcopy Hkeep]. cbv zeta in Hcopy, Hkeep. specialize (Hd1 q Hq). fold r in Hd1. split.
  - intros Hr Hbd Hq'. destruct (Z.lt_ge_cases r B) as [Hlow | Hhigh].
    + apply Hkeep. rewrite Hd1. rewrite block_dirty_low in Hbd by (fold B; lia). rewrite Hbd.
      by rewrite (proj2 (Z.leb_le 0 r)), (proj2 (Z.ltb_lt r B)) by done.
    + apply Hcopy; [lia | | done]. rewrite <- Hbd.
      replace r with (B + (q - (msk + 1) * B)) by lia. by rewrite block_dirty_high by lia.
  - intros E. apply Hkeep. rewrite Hd1. by destruct (_ && _).
Qed.

Lemma etl_tail_ok snap dst : zlen dst = zlen src → 0 <= olap → snap <= cap →
  ∃ dst', etl_tail unit olap snap src dst = Ok dst' ∧ zlen dst' = zlen dst ∧
    ∀ q, 0 <= q < cap → elem unit dst' q =
      if (olap <=? q) && (q <? snap) then elem unit src q else elem unit dst q.
Proof using Hunit Hsrc Hcap.
  intros Hl Ho Hs. unfold etl_tail. destruct (Z.ltb_spec olap snap).
  - destruct (copy_rows olap snap dst Hl) as (b & dst' & -> & Hw & Hl' & Hd'); [lia | lia |].
    cbn [rbind]. rewrite Hw. eauto.
  - exists dst. split; [done |]. split; [done |]. intros q Hq.
    destruct (Z.leb_spec olap q), (Z.ltb_spec q snap); (done || lia).
Qed.
End etl.

(** Partition [j] before an ETL: of the rows of the last ETL, those whose analytical copy is
    stale are dirty, and the snapshot knows of updates if there is any. *)
Definition etl_ready (c : column) (j : nat) : Prop :=
  ∃ snap olap src dst ms,
    snapshot_arenas c !! j = Some snap ∧ etl_arenas c !! j = Some olap ∧
    0 <= master_ver snap ∧ at2 (master_versions c) (master_ver snap) (Z.of_nat j) = Ok [src] ∧
    readonly_etl_snapshot c !! j = Some dst ∧
    at2 (upd_bit_masks c) (master_ver snap) (Z.of_nat j) = Ok ms ∧ masks_wf ms ∧
    zlen src = capacity_per_partition c * unit_size c ∧ zlen dst = zlen src ∧
    0 <= numOfRecords olap ∧ numOfRecords snap <= capacity_per_partition c ∧
    (∀ r, 0 <= r → dirty ms r = true → r < capacity_per_partition c) ∧
    (∀ r, 0 <= r < numOfRecords olap →
       elem (unit_size c) dst r = elem (unit_size c) src r ∨
       dirty ms r = true ∧ upd_since_last_snapshot snap = true).

(** Partition [j] of [c'] after the ETL of [c]: the analytical copy is the snapshot. *)
Definition etl_done (c c' : column) (j : nat) : Prop :=
  ∃ snap src dst',
    snapshot_arenas c !! j = Some snap ∧
    at2 (master_versions c) (master_ver snap) (Z.of_nat j) = Ok [src] ∧
    readonly_etl_snapshot c' !! j = Some dst' ∧
    etl_arenas c' !! j = Some (mk_meta (numOfRecords snap) (epoch_id snap) (master_ver snap)
                                 (arena_partition snap) false) ∧
    ∀ r, 0 <= r < numOfRecords snap → elem (unit_size c) dst' r = elem (unit_size c) src r.

(** What an ETL of the partitions below [k] leaves alone. *)
Definition etl_frame (c c' : column) (k : nat) : Prop :=
  unit_size c' = unit_size c ∧ n_partitions c' = n_partitions c ∧
  capacity_per_partition c' = capacity_per_partition c ∧
  master_versions c' = master_versions c ∧ snapshot_arenas c' = snapshot_arenas c ∧
  ∀ j, (k <= j)%nat → etl_arenas c' !! j = etl_arenas c !! j ∧
    readonly_etl_snapshot c' !! j = readonly_etl_snapshot c !! j ∧
    ∀ m, 0 <= m → at2 (upd_bit_masks c') m (Z.of_nat j) = at2 (upd_bit_masks c) m (Z.of_nat j).

Lemma etl_part_ok c j : 0 < unit_size c → 0 <= capacity_per_partition c → etl_ready c j →
  ∃ c', etl_part c j = Ok c' ∧ etl_done c c' j ∧ etl_frame c c' (j + 1) ∧
    ∀ i, i ≠ j → etl_arenas c' !! i = etl_arenas c !! i ∧
      readonly_etl_snapshot c' !! i = readonly_etl_snapshot c !! i.
Proof.
  intros Hu Hc (snap & olap & src & dst & ms & Hs & Ho & Hmv & Hsrc & Hdst & Hms & Hmw & Hl & Hld & H0 & H1 & Hdc & Hst).
  unfold etl_part. rewrite Hs, Ho. cbn [of_option rbind]. rewrite Hsrc. cbn [rbind].
  change ([src] !! 0%nat) with (Some src). rewrite Hdst. cbn [of_option rbind].
  assert (∃ d1 M1, (if upd_since_last_snapshot snap then
       do masks <- at2 (upd_bit_masks c) (master_ver snap) (Z.of_nat j);
       do (d, ms) <- etl_masks (unit_size c) (numOfRecords olap) 0 masks src dst;
       Ok (d, set2 (upd_bit_masks c) (master_ver snap) (Z.of_nat j) ms)
     else Ok (dst, upd_bit_masks c)) = Ok (d1, M1) ∧ zlen d1 = zlen dst ∧
    (∀ r, 0 <= r < numOfRecords olap → r < capacity_per_partition c →
       elem (unit_size c) d1 r = elem (unit_size c) src r) ∧
    ∀ i m, i ≠ j → 0 <= m → at2 M1 m (Z.of_nat i) = at2 (upd_bit_masks c) m (Z.of_nat i))
    as (d1 & M1 & -> & Hl1 & Hd1 & HM1).
  { destruct (upd_since_last_snapshot snap) eqn:Eu.
    - rewrite Hms. cbn [rbind].
      destruct (etl_masks_ok (unit_size c) (numOfRecords olap) _ src Hu Hl Hc ms 0 dst)
        as (d1 & ms1 & -> & Hl1 & Hd1); try done.
      eexists _, _. split; [done |]. split; [done |]. split.
      + intros r Hr Hrc. destruct (Hd1 r) as [Hcopy Hkeep]; [lia |]. cbv zeta in Hcopy.
        rewrite Z.mul_0_l, Z.sub_0_r in Hcopy.
        destruct (Hst r Hr) as [E | [Hdr _]]; [by apply Hkeep |].
        apply Hcopy; [lia | | lia]. apply block_of_dirty; (done || lia).
      + intros i m Hi Hm. rewrite (at2_set2 _ _ _ ms) by (done || lia).
        by rewrite (proj2 (Z.eqb_neq (Z.of_nat i) _)), andb_false_r by lia.
    - eexists _, _. split; [done |]. split; [done |]. split; [| done].
      intros r Hr _. by destruct (Hst r Hr) as [E | [_ ?]]. }
  cbn [rbind].
  destruct (etl_tail_ok (unit_size c) (numOfRecords olap) _ src Hu Hl Hc (numOfRecords snap) d1)
    as (d2 & -> & Hl2 & Hd2); [congruence | done | done |].
  cbn [rbind]. eexists. split; [done |]. split; [| split].
  - exists snap, src, d2. split; [done |]. split; [done |]. cbn [readonly_etl_snapshot etl_arenas].
    split; [apply list_lookup_insert_eq; by eapply lookup_lt_Some |].
    split; [apply list_lookup_insert_eq; by eapply lookup_lt_Some |].
    intros r Hr. rewrite Hd2 by lia. destruct (Z.leb_spec (numOfRecords olap) r).
    + by rewrite (proj2 (Z.ltb_lt r _)) by lia.
    + cbn [andb]. apply Hd1; lia.
  - split; [done |]. split; [done |]. split; [done |]. split; [done |]. split; [done |].
    intros i Hi. cbn [readonly_etl_snapshot etl_arenas upd_bit_masks].
    rewrite !list_lookup_insert_ne by lia. split; [done |]. split; [done |].
    intros m Hm. apply HM1; lia.
  - intros i Hi. cbn [readonly_etl_snapshot etl_arenas]. by rewrite !list_lookup_insert_ne by done.
Qed.

(** An ETL of a column whose partitions are ready (stale rows of the analytical copy are
    dirty and the snapshot is flagged as updated) succeeds, and afterwards the analytical copy
    of every partition equals the snapshot on every row of the snapshot, with the snapshot's
    row count recorded for the next ETL; the masters are not touched. *)
Theorem ETL_copies_snapshot (c : column) :
  0 < unit_size c → 0 <= capacity_per_partition c →
  (∀ j, (j < Z.to_nat (n_partitions c))%nat → etl_ready c j) →
  ∃ c', ETL c = Ok c' ∧ master_versions c' = master_versions c ∧
    snapshot_arenas c' = snapshot_arenas c ∧
    ∀ j, (j < Z.to_nat (n_partitions c))%nat → etl_done c c' j.
Proof.
  intros Hu Hc Hready. unfold ETL.
  destruct (rfoldM_seq_inv etl_part
    (λ k d, etl_frame c d k ∧ ∀ j, (j < k)%nat → etl_done c d j) (Z.to_nat (n_partitions c)) c)
    as (d & E & (_ & _ & _ & Hm & Hs & _) & Hdone); [| | by eauto 10].
  - split; [| lia]. repeat split.
  - intros k d Hk ((F1 & F2 & F3 & F4 & F5 & F6) & Hdone).
    destruct (etl_part_ok d k) as (d' & E & Hd & (G1 & G2 & G3 & G4 & G5 & G6) & Hother).
    + by rewrite F1. + by rewrite F3.
    + destruct (Hready k Hk) as (snap & olap & src & dst & ms & R). destruct (F6 k) as (A1 & A2 & A3); [lia |].
      exists snap, olap, src, dst, ms. rewrite F1, F3, F4, F5, A1, A2.
      destruct R as (R1 & R2 & R3 & R4 & R5 & R6). rewrite A3 by done. done.
    + exists d'. split; [done |]. split.
      * split; [congruence |]. split; [congruence |]. split; [congruence |]. split; [congruence |].
        split; [congruence |]. intros j Hj. destruct (G6 j Hj) as (B1 & B2 & B3).
        destruct (F6 j) as (A1 & A2 & A3); [lia |]. split; [congruence |]. split; [congruence |].
        intros m Hm. by rewrite B3, A3.
      * intros j Hj. destruct (decide (j = k)) as [-> | Hne].
        -- destruct Hd as (snap & src & dst' & Hd). exists snap, src, dst'.
           by rewrite <- F1, <- F4, <- F5.
        -- destruct (Hdone j) as (snap & src & dst' & D1 & D2 & D3 & D4 & D5); [lia |].
           exists snap, src, dst'. destruct (Hother j Hne) as [-> ->]. done.
Qed.

(** ** Construction and snapshots *)

Lemma at2_replicate {A} nm (p : list A) m j : 0 <= m < Z.of_nat nm →
  at2 (replicate nm p) m j = of_option Undefined (p !! Z.to_nat j).
Proof. intros Hm. unfold at2. by rewrite lookup_replicate_2 by lia. Qed.

Lemma dirty_new n r : dirty (replicate n (AtomicBitSet.new BIT_PACK_SIZE)) r = false.
Proof.
  unfold dirty. destruct (_ !! _) as [m |] eqn:Em; [| done].
  apply lookup_replicate in Em as [-> _]. unfold AtomicBitSet.bit, AtomicBitSet.new.
  destruct (_ !! _) as [v |] eqn:Ev; [| done]. apply lookup_replicate in Ev as [-> _]. apply Z.testbit_0_l.
Qed.

Lemma new_masks_wf n : masks_wf (replicate n (AtomicBitSet.new BIT_PACK_SIZE)).
Proof. intros i m Hm. apply lookup_replicate in Hm as [-> _]. by apply AtomicBitSet.bitset_new_wf. Qed.

Section construction.
Context (nm : nat) (unit off g : Z) (np : bool) (cap : Z).
Hypothesis (Hunit : 0 < unit) (Hg : 0 < g <= MAX_PARTITIONS) (Hcap : 0 <= cap)
  (Hsize : (cap + g) * unit + unit < 2 ^ 63).

Let c : column := new nm unit off g np cap.

Lemma circular_new_capacity : 0 <= capacity_per_partition c <= cap + g ∧
  cap <= capacity_per_partition c * n_partitions c ∧ 0 < n_partitions c <= g ∧
  u64 (capacity_per_partition c * unit) = capacity_per_partition c * unit.
Proof using Hunit Hg Hcap Hsize.
  unfold c, new. cbn [capacity_per_partition n_partitions].
  set (n := if np then g else 1). assert (0 < n <= g) as Hn by (unfold n; destruct np; lia).
  pose proof (Z.div_mod cap n ltac:(lia)). pose proof (Z.mod_pos_bound cap n ltac:(lia)).
  assert (0 <= cap / n <= cap) by (split; [apply Z.div_pos; lia | apply Z.div_le_upper_bound; nia]).
  set (q := cap / n) in *. set (r := cap mod n) in *. clearbody q r n.
  assert (cap + g < 2 ^ 63) by nia. assert (0 <= q + r <= cap + g) by lia.
  assert ((q + r) * unit <= (cap + g) * unit) by nia.
  rewrite !(wrap_id 64 (q + r)) by lia. split; [lia |]. split; [nia |]. split; [lia |].
  apply wrap_id. nia.
Qed.

Lemma new_parts {A} (x z : A) j : 0 <= j < n_partitions c →
  ((λ i, if Z.of_nat i <? n_partitions c then x else z) <$> seq 0 (Z.to_nat MAX_PARTITIONS))
    !! Z.to_nat j = Some x.
Proof using Hunit Hg Hcap Hsize.
  intros Hj. destruct circular_new_capacity as (_ & _ & Hn & _). unfold MAX_PARTITIONS in *.
  rewrite list_lookup_fmap, lookup_seq_lt by lia. cbn [fmap option_fmap option_map].
  by rewrite (proj2 (Z.ltb_lt _ _)) by lia.
Qed.

Lemma new_master m j : 0 <= m < Z.of_nat nm → 0 <= j < n_partitions c →
  at2 (master_versions c) m j = Ok [replicate (Z.to_nat (capacity_per_partition c * unit)) 0].
Proof using Hunit Hg Hcap Hsize.
  intros Hm Hj. destruct circular_new_capacity as (_ & _ & _ & Ht). rewrite <- Ht.
  unfold c, new. cbn [master_versions]. rewrite at2_replicate by done.
  by rewrite (new_parts _ [] j Hj).
Qed.

Lemma new_masks m j : 0 <= m < Z.of_nat nm → 0 <= j < n_partitions c →
  at2 (upd_bit_masks c) m j =
    Ok (replicate (Z.to_nat (packs (capacity_per_partition c))) (AtomicBitSet.new BIT_PACK_SIZE)).
Proof using Hunit Hg Hcap Hsize.
  intros Hm Hj. unfold c, new. cbn [upd_bit_masks]. rewrite at2_replicate by done.
  by rewrite (new_parts _ [] j Hj).
Qed.

Lemma circular_new_wf : wf nm c.
Proof using Hunit Hg Hcap Hsize.
  destruct circular_new_capacity as (Hc & _ & Hn & Ht).
  split; [exact Hunit | lia | change (unit_size c) with unit; nia | by apply length_replicate | | |].
  - intros m j Hm Hj. eexists. split; [by apply new_master |].
    unfold zlen. rewrite length_replicate. change (unit_size c) with unit. nia.
  - intros m j Hm Hj. eexists. split; [by apply new_masks |]. split; [apply new_masks_wf |].
    split; [apply length_replicate |]. intros r Hr. by rewrite dirty_new.
  - intros j Hj. unfold c, new. cbn [snapshot_arenas].
    rewrite list_lookup_fmap, lookup_seq_lt by lia. by eexists.
Qed.
End construction.

(** Freezing a snapshot touches nothing but the arenas and the touched flags. *)
Lemma snapshot_ok g etl ver epoch recs c :
  length (snapshot_arenas c) = g → (g <= length recs)%nat → (g <= length (touched c))%nat →
  ∃ c', snapshot g etl ver epoch recs c = Ok c' ∧
    (unit_size c' = unit_size c ∧ n_partitions c' = n_partitions c ∧
     capacity_per_partition c' = capacity_per_partition c ∧
     master_versions c' = master_versions c ∧ upd_bit_masks c' = upd_bit_masks c) ∧
    length (snapshot_arenas c') = g ∧ length (touched c') = length (touched c) ∧
    ∀ i n t, (i < g)%nat → recs !! i = Some n → touched c !! i = Some t →
      snapshot_arenas c' !! i = Some (mk_meta n epoch ver (Z.of_nat i) t) ∧
      touched c' !! i = Some false.
Proof.
  intros Hlen Hrecs Ht. unfold snapshot.
  destruct (rfoldM_seq_inv (snapshot_part etl ver epoch recs)
    (λ k d, (unit_size d = unit_size c ∧ n_partitions d = n_partitions c ∧
       capacity_per_partition d = capacity_per_partition c ∧
       master_versions d = master_versions c ∧ upd_bit_masks d = upd_bit_masks c) ∧
      length (snapshot_arenas d) = g ∧ length (touched d) = length (touched c) ∧
      (∀ i, (k <= i)%nat → touched d !! i = touched c !! i) ∧
      ∀ i n t, (i < k)%nat → recs !! i = Some n → touched c !! i = Some t →
        snapshot_arenas d !! i = Some (mk_meta n epoch ver (Z.of_nat i) t) ∧ touched d !! i = Some false)
    g c) as (d & E & Hsame & Hl & Hlt & _ & Hd); [| | by eauto 10].
  - split; [by repeat split |]. split; [done |]. split; [done |]. split; [done | lia].
  - intros k d Hk (Hsame & Hl & Hlt & Hge & Hd). unfold snapshot_part.
    destruct (lookup_lt_is_Some_2 recs k) as [n Hn]; [lia |].
    destruct (lookup_lt_is_Some_2 (touched d) k) as [t Htk]; [lia |].
    destruct (lookup_lt_is_Some_2 (snapshot_arenas d) k) as [a Ha]; [lia |].
    rewrite Hn, Htk, Ha. cbn [of_option rbind]. eexists. split; [done |].
    split; [done |]. cbn [snapshot_arenas touched].
    split; [by rewrite length_insert |]. split; [by rewrite length_insert |]. split.
    + intros i Hi. rewrite list_lookup_insert_ne by lia. apply Hge. lia.
    + intros i n' t' Hi Hn' Ht'. destruct (decide (i = k)) as [-> | Hne].
      * rewrite Hge in Htk by lia. rewrite !list_lookup_insert_eq by lia. by simplify_eq.
      * rewrite !list_lookup_insert_ne by done. apply Hd; (done || lia).
Qed.

(** ** A history of twin masters

    What a column with two masters goes through: updates write the active master, a snapshot
    freezes it and makes the other one active, and the synchronisation of the frozen master
    comes before the next snapshot.  The row counts of a snapshot cover the rows that were
    updated in the master it freezes. *)

Section twins.
Context (unit off g : Z) (np : bool) (cap : Z).

(** The column, the active master, and whether the other one waits to be synchronised. *)
Inductive twin : column → Z → bool → Prop :=
| twin_new : twin (new 2 unit off g np cap) 0 false
| twin_insert c a p vid d c' : twin c a p →
    0 <= StorageUtils.get_pid vid < n_partitions c →
    0 <= StorageUtils.get_offset vid < capacity_per_partition c → zlen d = unit_size c →
    insertElem c vid (Some d) = Ok c' → twin c' a p
| twin_update c a p vid d c' : twin c a p → vid_in 2 c vid → StorageUtils.get_m_version vid = a →
    zlen d = unit_size c → updateElem c vid (Some d) = Ok c' → twin c' a p
| twin_snapshot c a etl epoch recs c' : twin c a false → length recs = Z.to_nat g →
    (∀ j r n, in_col 2 c a j r → recs !! Z.to_nat j = Some n → is_dirty c a j r = true → r < n) →
    snapshot (Z.to_nat g) etl a epoch recs c = Ok c' → twin c' (1 - a) true
| twin_sync c a c' : twin c a true → syncSnapshot (1 - a) c = Ok c' → twin c' a false.

(** Why the two masters may differ in a row: both have written it, or the active one has and
    the next snapshot will know, or the frozen one has and its snapshot knows. *)
Definition explained (c : column) (a : Z) (p : bool) (j r : Z) : Prop :=
  row c a j r = row c (1 - a) j r ∨
  (is_dirty c a j r = true ∧ is_dirty c (1 - a) j r = true) ∨
  (touched c !! Z.to_nat j = Some true ∧ is_dirty c a j r = true) ∨
  (p = true ∧ is_dirty c (1 - a) j r = true ∧ ∃ snap, snapshot_arenas c !! Z.to_nat j = Some snap ∧
     upd_since_last_snapshot snap = true ∧ r < numOfRecords snap).

Record twin_inv (c : column) (a : Z) (p : bool) : Prop := mk_twin_inv {
  ti_wf : wf 2 c;
  ti_active : a = 0 ∨ a = 1;
  ti_unit : unit_size c = unit;
  ti_parts : n_partitions c <= g <= MAX_PARTITIONS;
  ti_touched : length (touched c) = Z.to_nat MAX_PARTITIONS;
  ti_arenas : length (snapshot_arenas c) = Z.to_nat g;
  ti_rows j r : in_col 2 c a j r → explained c a p j r
}.

Hypothesis (Hunit : 0 < unit) (Hg : 0 < g <= MAX_PARTITIONS) (Hcap : 0 <= cap)
  (Hsize : (cap + g) * unit + unit < 2 ^ 63).

Lemma other_in c a j r : (a = 0 ∨ a = 1) → in_col 2 c a j r → in_col 2 c (1 - a) j r.
Proof. intros Ha (_ & Hj). split; [lia | done]. Qed.

Lemma twin_new_inv : twin_inv (new 2 unit off g np cap) 0 false.
Proof using Hunit Hg Hcap Hsize.
  pose proof (circular_new_wf 2 unit off g np cap Hunit Hg Hcap Hsize) as Hwf.
  split; [done | by left | done | | by apply length_replicate | |].
  - cbn. destruct np; lia.
  - cbn. by rewrite length_fmap, length_seq.
  - intros j r (Hm & Hj & _). left. unfold row.
    by rewrite !(new_master 2 unit off g np cap Hunit Hg Hcap Hsize) by (done || lia).
Qed.

Lemma twin_insert_inv c a p vid d c' : twin_inv c a p → 0 <= StorageUtils.get_pid vid < n_partitions c →
  0 <= StorageUtils.get_offset vid < capacity_per_partition c → zlen d = unit_size c →
  insertElem c vid (Some d) = Ok c' → twin_inv c' a p.
Proof.
  intros [W A U P T N R] Hj Hr Hd E. destruct (insertElem_ok 2 c vid d W ltac:(lia) Hj Hr Hd) as (ms & E' & W' & Hrow).
  rewrite E in E'. injection E' as ->. split; try done. intros j r Hin. unfold explained.
  rewrite !Hrow by (done || by apply other_in). cbn [andb]. destruct (_ && _); [by left | by apply R].
Qed.

Lemma twin_update_inv c a p vid d c' : twin_inv c a p → vid_in 2 c vid → StorageUtils.get_m_version vid = a →
  zlen d = unit_size c → updateElem c vid (Some d) = Ok c' → twin_inv c' a p.
Proof.
  intros [W A U P T N R] Hv Hm Hd E.
  destruct (updateElem_ok 2 c vid d W Hv Hd) as (c1 & E' & W' & Hu & Hn & _ & Hc & Ht & Hrow & Hdirty).
  rewrite E in E'. injection E' as <-. assert (snapshot_arenas c' = snapshot_arenas c) as Hs by (eapply updateElem_arenas; eauto).
  split; rewrite ?Hs, ?Ht, ?length_insert, ?Hu, ?Hn; try done. intros j r (Hin1 & Hin2 & Hin3). rewrite Hn in Hin2. rewrite Hc in Hin3.
  assert (in_col 2 c a j r) as Hin by (by split). pose proof (other_in c a j r A Hin) as Hin'.
  destruct Hv as (_ & Hjv & _). unfold explained. rewrite !Hrow, !Hdirty, Hs, Ht, Hm, Z.eqb_refl by done.
  rewrite (proj2 (Z.eqb_neq a (1 - a))), (proj2 (Z.eqb_neq (1 - a) a)) by lia. cbn [andb orb].
  destruct (Z.eqb_spec j (StorageUtils.get_pid vid)) as [-> | Hne]; cbn [andb orb].
  - rewrite list_lookup_insert_eq by (unfold MAX_PARTITIONS in *; lia).
    destruct (r =? StorageUtils.get_offset vid); cbn [orb]; [by right; right; left |].
    destruct (R _ _ Hin) as [? | [? | [[_ ?] | ?]]]; unfold explained; tauto.
  - rewrite list_lookup_insert_ne by lia. by apply R.
Qed.

Lemma twin_snapshot_inv c a etl epoch recs c' : twin_inv c a false → length recs = Z.to_nat g →
  (∀ j r n, in_col 2 c a j r → recs !! Z.to_nat j = Some n → is_dirty c a j r = true → r < n) →
  snapshot (Z.to_nat g) etl a epoch recs c = Ok c' → twin_inv c' (1 - a) true.
Proof using Hunit Hg.
  intros [W A U P T N R] Hl Hrecs E. unfold MAX_PARTITIONS in *.
  destruct (snapshot_ok (Z.to_nat g) etl a epoch recs c) as (c1 & E' & (Eu & En & Ec & Em & Ek) & Hla & Hlt & Hsn); [done | lia | lia |].
  rewrite E in E'. injection E' as <-.
  assert (wf 2 c') as W'.
  { destruct W as [A1 A2 A3 A4 A5 A6 A7]. split; rewrite ?Eu, ?En, ?Ec, ?Em, ?Ek; try done.
    intros j Hj. apply lookup_lt_is_Some_2. lia. }
  split; try done; [lia | by rewrite Eu | by rewrite En | by rewrite Hlt |].
  intros j r Hin. assert (in_col 2 c a j r) as Hin0.
  { destruct Hin as (_ & Hj & Hr). rewrite En in Hj. rewrite Ec in Hr. split; [lia | done]. }
  unfold explained, row, is_dirty. rewrite Em, Ek, Eu. fold (row c (1 - a) j r) (is_dirty c (1 - a) j r).
  replace (1 - (1 - a)) with a by lia. fold (row c a j r) (is_dirty c a j r).
  destruct (R _ _ Hin0) as [-> | [[-> ->] | [[Ht Hd] | [? _]]]]; [by left | by right; left | | done].
  right. right. right. split; [done |]. split; [done |]. destruct Hin0 as (H0 & Hj & Hr).
  destruct (lookup_lt_is_Some_2 recs (Z.to_nat j)) as [n Hn]; [lia |].
  destruct (Hsn (Z.to_nat j) n true) as [Hs _]; [lia | done | done |].
  eexists. split; [exact Hs |]. split; [done |]. by eapply Hrecs.
Qed.

(** What a synchronisation of a column with an explained difference does. *)
Lemma twin_sync_ok c a : twin_inv c a true → sync_unit c →
  ∃ ms, syncSnapshot (1 - a) c = Ok (with_masters c ms) ∧ wf 2 (with_masters c ms) ∧
    ∀ j r, in_col 2 c a j r →
      row (with_masters c ms) (1 - a) j r = row c (1 - a) j r ∧
      row (with_masters c ms) a j r = (if is_dirty c a j r then row c a j r else row c (1 - a) j r).
Proof.
  intros [W A U P T N R] Hsu. destruct (syncSnapshot_ok 2 c (1 - a) W Hsu ltac:(lia) ltac:(lia)) as (ms & E & W' & Hrow).
  exists ms. split; [done |]. split; [done |]. intros j r Hin. pose proof (other_in c a j r A Hin) as Hin'.
  rewrite !Hrow by done. unfold synced. rewrite Z.eqb_refl, (proj2 (Z.eqb_neq a (1 - a))) by lia. cbn [negb andb].
  destruct (wf_arena _ _ W j) as [snap Hs]; [by destruct Hin as (_ & ? & _) |]. rewrite Hs. split; [done |].
  destruct (is_dirty c a j r) eqn:Ea; [by rewrite andb_false_r |]. rewrite andb_true_r.
  destruct (R _ _ Hin) as [Heq | [[? _] | [[_ ?] | (_ & Ed & snap' & Hs' & Hf & Hlt)]]]; try congruence.
  - rewrite Heq. by destruct (_ && _).
  - rewrite Hs in Hs'. injection Hs' as <-. destruct Hin as (_ & _ & Hr).
    by rewrite Hf, Ed, (proj2 (Z.eqb_neq _ 0)), (proj2 (Z.leb_le _ _)) by lia.
Qed.

Lemma twin_sync_inv c a c' : sync_unit c → twin_inv c a true → syncSnapshot (1 - a) c = Ok c' → twin_inv c' a false.
Proof.
  intros Hsu I E. destruct (twin_sync_ok c a I Hsu) as (ms & E' & W' & Hrow). rewrite E in E'. injection E' as ->.
  destruct I as [W A U P T N R]. split; try done. intros j r Hin. destruct (Hrow j r Hin) as [E1 E2].
  unfold explained. rewrite E1, E2. change (is_dirty (with_masters c ms)) with (is_dirty c).
  destruct (is_dirty c a j r) eqn:Ea; [| by left].
  destruct (R _ _ Hin) as [? | [[_ ?] | [[? _] | (_ & ? & _)]]]; [by left | | by right; right; left |]; by right; left.
Qed.

Hypothesis Hwidth : unit = 1 ∨ unit = 2 ∨ unit = 4 ∨ unit = 8.

Lemma twin_reach c a p : twin c a p → twin_inv c a p.
Proof using Hunit Hg Hcap Hsize Hwidth.
  induction 1 as [| c a p vid d c' _ IH H1 H2 H3 H4 | c a p vid d c' _ IH H1 H2 H3 H4
                 | c a etl epoch recs c' _ IH H1 H2 H3 | c a c' _ IH H1].
  - exact twin_new_inv. - by eapply twin_insert_inv. - by eapply twin_update_inv. - by eapply twin_snapshot_inv.
  - eapply twin_sync_inv; try done. unfold sync_unit. by rewrite (ti_unit _ _ _ IH).
Qed.
End twins.


(** ** The interface of the column store: the rows of master 0 *)

Definition row_in_range (c : column) (vid : rowid_t) : bool :=
  (StorageUtils.get_pid vid <? n_partitions c) &&
  (StorageUtils.get_offset vid <? capacity_per_partition c) &&
  (StorageUtils.get_m_version vid =? 0).

Lemma row_in_range_vid nm c vid : (0 < nm)%nat → row_in_range c vid = true → vid_in nm c vid.
Proof.
  intros Hnm [[Hp%Z.ltb_lt Ho%Z.ltb_lt]%andb_true_iff Hm%Z.eqb_eq]%andb_true_iff.
  pose proof (StorageUtils.get_pid_range vid). pose proof (StorageUtils.get_offset_range vid).
  unfold vid_in, in_col. rewrite Hm. lia.
Qed.

(** A column whose rows are those of [c] with row [vid] replaced in master 0 reads that way. *)
Lemma rows_written_get nm c c' vid d sel u : (0 < nm)%nat → wf nm c → wf nm c' →
  row_in_range c u = true → row_in_range c' u = true → rows_written nm c c' vid d sel → sel 0 = true →
  getElem c' u = if same_slot u vid then Ok d else getElem c u.
Proof.
  intros Hnm Hwf Hwf' Hu Hu' Hrow Hsel.
  pose proof Hu as [_ Hm%Z.eqb_eq]%andb_true_iff.
  rewrite (getElem_row nm c' u), (getElem_row nm c u) by (done || by apply row_in_range_vid).
  rewrite Hrow by (by apply row_in_range_vid). rewrite Hm, Hsel. done.
Qed.

#[global] Program Instance CircularColumn_like : ColumnLike column := {|
  unit_of := unit_size;
  offset_of := byteOffset_record;
  col_get := getElem;
  col_update := updateElem;
  col_insert := insertElem;
  in_range := row_in_range;
  col_wf := λ c, ∃ nm, (0 < nm)%nat ∧ wf nm c
|}.
Next Obligation.
  intros c v (nm & Hnm & Hwf) Hr. pose proof (row_in_range_vid nm c v Hnm Hr) as Hv.
  rewrite (getElem_row nm) by done. destruct Hv as (Hm & Hj & Hro).
  destruct (wf_master _ _ Hwf _ _ Hm Hj) as (b & Hb & Hl). rewrite (master_chunk _ _ _ _ _ Hb).
  destruct (row_bounds nm c _ Hwf Hro) as (H0 & H1 & _). pose proof (wf_unit _ _ Hwf).
  apply read_bytes_Ok; lia.
Qed.
Next Obligation.
  intros c v d (nm & Hnm & Hwf) Hr Hd. pose proof (row_in_range_vid nm c v Hnm Hr) as Hv.
  destruct (updateElem_ok nm c v d Hwf Hv Hd) as (c' & E & Hwf' & Hu & Hn & Ho & Hc & _ & Hrow & _).
  assert (∀ u, row_in_range c' u = row_in_range c u) as Hir by (intros u; unfold row_in_range; by rewrite Hn, Hc).
  exists c'. split; [done |]. split; [by eauto |]. split; [done |]. split; [done |]. split; [done |].
  intros u Hur. apply (rows_written_get nm c c' v d (Z.eqb (StorageUtils.get_m_version v))); try done.
  - by rewrite Hir.
  - by apply andb_true_iff in Hr as [_ Hm].
Qed.
Next Obligation.
  intros c v d (nm & Hnm & Hwf) Hr Hd. pose proof (row_in_range_vid nm c v Hnm Hr) as (Hm & Hj & Hro).
  destruct (insertElem_ok nm c v d Hwf Hnm Hj Hro Hd) as (ms & E & Hwf' & Hrow).
  eexists. split; [done |]. split; [by eauto |]. split; [done |]. split; [done |]. split; [done |].
  intros u Hur. by apply (rows_written_get nm c (with_masters c ms) v d (λ _, true)).
Qed.

(** ** Instances of the theorems *)

(** Two masters, one partition of four 8-byte rows; row 1 updated in master 0 (the row id 1
    names partition 0, offset 1, master 0), then a snapshot of three rows of master 0. *)
Definition ex_new : column := new 2 8 0 1 true 4.
Definition ex_updated : res column := updateElem ex_new 1 (Some (le64 7)).
Definition ex_col : column :=
  match (do c <- ex_updated; snapshot 1 true 0 5 [3] c) with Ok c => c | Err _ => ex_new end.

Lemma ex_new_wf : wf 2 ex_new.
Proof. apply circular_new_wf; [done | by split | done | done]. Qed.

Lemma ex_vid : vid_in 2 ex_new 1.
Proof. unfold vid_in, in_col. vm_compute. repeat split; done. Qed.

Lemma ex_circular_wf : wf 2 ex_col.
Proof.
  destruct (updateElem_ok 2 ex_new 1 (le64 7) ex_new_wf ex_vid eq_refl) as (c1 & E1 & W1 & _).
  assert (length (snapshot_arenas c1) = 1%nat ∧ (1 <= length (touched c1))%nat) as [L1 L2].
  { assert (E2 : ex_updated = Ok c1) by exact E1. vm_compute in E2. injection E2 as <-.
    split; vm_compute; [done | lia]. }
  destruct (snapshot_ok 1 true 0 5 [3] c1 L1) as (c2 & E2 & (S1 & S2 & S3 & S4 & S5) & L3 & _ & _); [done | done |].
  assert (ex_col = c2) as ->. { unfold ex_col, ex_updated. rewrite E1. cbn [rbind]. by rewrite E2. }
  destruct W1 as [A1 A2 A3 A4 A5 A6 A7].
  assert (n_partitions c1 = 1) as Hn.
  { assert (E3 : ex_updated = Ok c1) by exact E1. vm_compute in E3. injection E3 as <-. done. }
  split; rewrite ?S1, ?S2, ?S3, ?S4, ?S5; try done.
  intros j Hj. apply lookup_lt_is_Some_2. lia.
Qed.

Lemma ex_twin : twin 8 0 1 true 4 ex_col 1 true.
Proof.
  destruct (updateElem_ok 2 ex_new 1 (le64 7) ex_new_wf ex_vid eq_refl) as (c1 & E1 & W1 & _ & Hn & _ & Hc & _ & _ & Hd).
  assert (twin 8 0 1 true 4 c1 0 false) as H1
    by exact (twin_update 8 0 1 true 4 ex_new 0 false 1 (le64 7) c1 (twin_new _ _ _ _ _) ex_vid eq_refl eq_refl E1).
  assert (length (snapshot_arenas c1) = 1%nat ∧ (1 <= length (touched c1))%nat) as [L1 L2].
  { assert (E2 : ex_updated = Ok c1) by exact E1. vm_compute in E2. injection E2 as <-.
    split; vm_compute; [done | lia]. }
  destruct (snapshot_ok 1 true 0 5 [3] c1 L1) as (c2 & E2 & _); [done | done |].
  assert (ex_col = c2) as ->. { unfold ex_col, ex_updated. rewrite E1. cbn [rbind]. by rewrite E2. }
  apply (twin_snapshot 8 0 1 true 4 c1 0 true 5 [3]); try done. intros j r n (_ & Hj & Hr) Hrec Hdirty.
  rewrite Hn in Hj. rewrite Hc in Hr. change (n_partitions ex_new) with 1 in Hj. assert (j = 0) as -> by lia.
  injection Hrec as <-. rewrite Hd in Hdirty by (split; [lia | done]).
  apply orb_true_iff in Hdirty as [[_ Ho%Z.eqb_eq]%andb_true_iff | Hf].
  - rewrite Ho. vm_compute. done.
  - unfold ex_new in Hf. rewrite (is_dirty_masks _ _ _ _ _ (new_masks 2 8 0 1 true 4 ltac:(lia) ltac:(by split) ltac:(lia) ltac:(lia) 0 0 ltac:(lia) ltac:(done))) in Hf.
    by rewrite dirty_new in Hf.
Qed.


Lemma circular_column_writes_witness :
  wf 2 ex_new ∧ ∃ c', updateElem ex_new 1 (Some (le64 7)) = Ok c' ∧ wf 2 c'.
Proof.
  split; [exact ex_new_wf |].
  destruct (circular_column_writes 2 ex_new 1 (le64 7) ex_new_wf ex_vid eq_refl) as (_ & (c' & E & W & _) & _).
  exists c'. split; [exact E | exact W].
Defined.

(** The analytical copy lags by row 1 and by the rows of the first snapshot. *)
Lemma ex_etl_ready : etl_ready ex_col 0.
Proof.
  destruct (wf_masks _ _ ex_circular_wf 0 0) as (ms & E & W & _ & D); [lia | done |].
  eexists _, _, _, _, ms. split; [vm_compute; reflexivity |]. split; [vm_compute; reflexivity |].
  split; [done |]. split; [vm_compute; reflexivity |]. split; [vm_compute; reflexivity |].
  split; [exact E |]. split; [exact W |]. split; [done |]. split; [done |]. split; [done |].
  split; [done |]. split; [exact D |]. cbn [numOfRecords]. lia.
Qed.

Lemma ETL_copies_snapshot_witness : ∃ c', ETL ex_col = Ok c' ∧ etl_done ex_col c' 0.
Proof.
  destruct (ETL_copies_snapshot ex_col) as (c' & E & _ & _ & D).
  - reflexivity.
  - vm_compute. discriminate.
  - intros j Hj. change (Z.to_nat (n_partitions ex_col)) with 1%nat in Hj.
    assert (j = 0%nat) as -> by lia. exact ex_etl_ready.
  - exists c'. split; [exact E |]. apply D. change (Z.to_nat (n_partitions ex_col)) with 1%nat. lia.
Defined.

End CircularColumn.
