(* ===== verification/IntervalMap.v ===== *)
(** * IntervalMap: the row-to-snapshot map of the lazy columns
    ([oltp/util/interval-map.hpp]).

    The C++ class keeps an [std::map] from the first key of an interval to the
    interval's value, an [upper_bound] below which lookups consult the map, and a
    [touched] flag.  [std::map] is a list of pairs sorted by key; an iterator is
    an index into it ([length] is [end()]).  The latch makes each call one
    transition, so an operation is a state transformer. *)

From S2P Require Import Prelude.
From Stdlib Require Import ZArith Lia Bool.
From stdpp Require Import base numbers list sets.

Local Open Scope Z_scope.
Local Open Scope res_scope.

Module IntervalMap.

Abbreviation entry := (Z * Z)%type.

(** ** [std::map] *)

(** Index of the first entry whose key is not below [key]. *)
Fixpoint lower_bound (key : Z) (l : list entry) : nat :=
  match l with
  | [] => 0%nat
  | e :: l' => if e.1 <? key then S (lower_bound key l') else 0%nat
  end.

(** [emplace], [try_emplace], [emplace_hint]: no effect on a present key. *)
Fixpoint emplace (k v : Z) (l : list entry) : list entry :=
  match l with
  | [] => [(k, v)]
  | e :: l' =>
      if k <? e.1 then (k, v) :: l
      else if k =? e.1 then l
      else e :: emplace k v l'
  end.

(** [it->second = v] for the iterator at key [k]. *)
Fixpoint assign (k v : Z) (l : list entry) : list entry :=
  match l with
  | [] => []
  | e :: l' => if e.1 =? k then (k, v) :: l' else e :: assign k v l'
  end.

(** ** The class *)

Record IntervalMap : Type := mk {
  map : list entry;
  upper_bound : Z;
  touched : bool
}.

Definition IntervalMap_start (start val : Z) : IntervalMap := mk [(start, val)] start false.
Definition IntervalMap_default : IntervalMap := mk [(0, 0)] 0 false.

Definition getValue (m : IntervalMap) (key : Z) : res Z :=
  if negb (touched m) || (upper_bound m <=? key) then Ok 0
  else
    let bound_iter := lower_bound key (map m) in
    do e <- of_option Undefined (map m !! bound_iter);
    if e.1 =? key then Ok e.2
    else
      check negb (bound_iter =? 0)%nat else Undefined;
      do e' <- of_option Undefined (map m !! pred bound_iter);
      Ok e'.2.

Definition reset (m : IntervalMap) (value : Z) : IntervalMap :=
  mk [(0, value)] (upper_bound m) (touched m).

Definition upsert (m : IntervalMap) (key value : Z) : res IntervalMap :=
  let bound_iter := lower_bound key (map m) in
  match map m !! bound_iter with
  | None =>
      do e <- of_option Undefined (last (map m));
      if e.2 =? value then Ok m
      else Ok (mk (emplace key value (emplace (u64 (key + 1)) e.2 (map m)))
                  (u64 (key + 1)) true)
  | Some e =>
      if e.1 =? key then
        if e.2 =? value then Ok m
        else Ok (mk (assign key value (emplace (u64 (key + 1)) e.2 (map m)))
                    (upper_bound m) true)
      else
        check negb (bound_iter =? 0)%nat else Undefined;
        do e' <- of_option Undefined (map m !! pred bound_iter);
        check e'.1 <? key else AssertFailed;
        if e'.2 =? value then Ok m
        else Ok (mk (emplace key value (emplace (u64 (key + 1)) e'.2 (map m)))
                    (upper_bound m) true)
  end.

Definition relabel (oldval newval : Z) (l : list entry) : list entry :=
  (λ e : entry, if e.2 =? oldval then (e.1, newval) else e) <$> l.

Definition updateByValue (m : IntervalMap) (oldval newval : Z) : IntervalMap :=
  mk (relabel oldval newval (map m)) (upper_bound m) true.

Definition updateByValue_withCount (m : IntervalMap) (oldval newval : Z)
  : Z * IntervalMap :=
  (count_if (λ e : entry, e.2 =? oldval) (map m),
   mk (relabel oldval newval (map m)) (upper_bound m) true).

(** The loop of [consolidate] from the iterators [map_it] (at [cur]) and [nx]
    (at the head of [rest]): equal neighbours are erased. *)
Fixpoint consolidate_loop (cur : entry) (rest : list entry) : list entry :=
  match rest with
  | [] => [cur]
  | nx :: rest' =>
      if cur.2 =? nx.2 then consolidate_loop cur rest'
      else cur :: consolidate_loop nx rest'
  end.

Definition consolidate (m : IntervalMap) : res IntervalMap :=
  if negb (touched m) then Ok m
  else
    match map m with
    | [] => Err Undefined
    | cur :: rest =>
        let l := consolidate_loop cur rest in
        do e <- of_option Undefined (last l);
        Ok (mk l e.1 (touched m))
    end.

Definition updateAndConsolidate (m : IntervalMap) (oldval newval : Z)
  : res (Z * IntervalMap) :=
  let '(ctr, m1) := updateByValue_withCount m oldval newval in
  do m2 <- consolidate m1;
  Ok (ctr, m2).

(** ** Abstract view: the value an interval list gives to a key; [d] is the value
    in force before the first interval. *)
Fixpoint ival (d : Z) (l : list entry) (q : Z) : Z :=
  match l with
  | [] => d
  | e :: l' => if e.1 <=? q then ival e.2 l' q else d
  end.

Fixpoint ssorted (l : list entry) : Prop :=
  match l with
  | [] => True
  | e :: l' => Forall (λ e' : entry, e.1 < e'.1) l' ∧ ssorted l'
  end.

(** The class invariant: keys strictly increase from 0; the last interval starts
    at [upper_bound] and has value 0; an untouched map gives 0 everywhere. *)
Definition inv (m : IntervalMap) : Prop :=
  ssorted (map m) ∧
  (∃ v l, map m = (0, v) :: l) ∧
  (∃ l, map m = l ++ [(upper_bound m, 0)]) ∧
  (touched m = false → ∀ q, ival 0 (map m) q = 0).

Abbreviation value_at m q := (ival 0 (map m) q).

(** ** Interval lists *)

Lemma ival_above d l q : Forall (λ e : entry, q < e.1) l → ival d l q = d.
Proof.
  intros H. destruct H as [| e l He _]; simpl; [done |].
  by rewrite (proj2 (Z.leb_gt _ _)).
Qed.

Lemma Forall_lt_trans k k' (l : list entry) :
  k <= k' → Forall (λ e : entry, k' < e.1) l → Forall (λ e : entry, k < e.1) l.
Proof. intros Hk Hl. eapply Forall_impl; [exact Hl |]. simpl. lia. Qed.

Lemma emplace_Forall (P : entry → Prop) k v l :
  P (k, v) → Forall P l → Forall P (emplace k v l).
Proof.
  intros Hk Hl. induction Hl as [| e l He Hl IH]; simpl; [by repeat constructor |].
  destruct (k <? e.1), (k =? e.1); repeat constructor; auto.
Qed.

Lemma emplace_sorted k v l : ssorted l → ssorted (emplace k v l).
Proof.
  induction l as [| e l IH]; simpl; [by repeat constructor |]. intros [He Hl].
  destruct (Z.ltb_spec k e.1), (Z.eqb_spec k e.1); simpl; try lia; try done.
  - split; [| done]. constructor; [done |]. eapply Forall_lt_trans; [| done]. lia.
  - split; [| auto]. apply emplace_Forall; [simpl; lia | done].
Qed.

(** A new boundary that carries the value already in force changes nothing. *)
Lemma emplace_same d k v l q : ssorted l → ival d l k = v →
  ival d (emplace k v l) q = ival d l q.
Proof.
  revert d. induction l as [| e l IH]; intros d; simpl.
  { intros _ <-. by destruct (k <=? q). }
  intros [He Hl] Hv. destruct (Z.ltb_spec k e.1), (Z.eqb_spec k e.1); simpl; try lia; try done.
  - rewrite (proj2 (Z.leb_gt _ _)) in Hv by lia. subst v.
    destruct (Z.leb_spec k q), (Z.leb_spec e.1 q); try done; lia.
  - rewrite (proj2 (Z.leb_le _ _)) in Hv by lia.
    destruct (e.1 <=? q); [| done]. by apply IH.
Qed.

(** A boundary at [k] below an existing boundary at [k + 1] changes [k] only. *)
Lemma emplace_point d k v l q : ssorted l → k ∉ l.*1 → k + 1 ∈ l.*1 →
  ival d (emplace k v l) q = if q =? k then v else ival d l q.
Proof.
  revert d q. induction l as [| e l IH]; intros d q; simpl; [by intros _ _ ?%not_elem_of_nil |].
  intros [He Hl] [Hne Hn]%not_elem_of_cons [E | Hin]%elem_of_cons.
  - rewrite (proj2 (Z.ltb_lt k e.1)) by lia. simpl.
    destruct (Z.eqb_spec q k) as [-> |].
    + rewrite Z.leb_refl, (proj2 (Z.leb_gt _ _)) by lia. done.
    + destruct (Z.leb_spec k q), (Z.leb_spec e.1 q); try done; lia.
  - assert (e.1 < k + 1).
    { apply list_elem_of_fmap in Hin as ([k' v'] & -> & Hin).
      by rewrite Forall_forall in He; apply He in Hin. }
    rewrite (proj2 (Z.ltb_ge k e.1)), (proj2 (Z.eqb_neq k e.1)) by lia. simpl.
    destruct (Z.leb_spec e.1 q); [by apply IH |].
    by rewrite (proj2 (Z.eqb_neq q k)) by lia.
Qed.

Lemma assign_keys k v l : (assign k v l).*1 = l.*1.
Proof.
  induction l as [| e l IH]; simpl; [done |].
  destruct (Z.eqb_spec e.1 k); simpl; f_equal; auto.
Qed.

Lemma assign_Forall_key (P : Z → Prop) k v l :
  Forall (λ e : entry, P e.1) l → Forall (λ e : entry, P e.1) (assign k v l).
Proof.
  intros Hl. induction Hl as [| e l He Hl IH]; simpl; [done |].
  destruct (Z.eqb_spec e.1 k); subst; by constructor.
Qed.

Lemma assign_sorted k v l : ssorted l → ssorted (assign k v l).
Proof.
  induction l as [| e l IH]; simpl; [done |]. intros [He Hl].
  destruct (Z.eqb_spec e.1 k); subst; simpl; [done |]. split; [| auto].
  by apply (assign_Forall_key (λ x, e.1 < x)).
Qed.

(** Reassigning the interval [k, k + 1) changes [k] only. *)
Lemma assign_point d k v l q : ssorted l → k ∈ l.*1 → k + 1 ∈ l.*1 →
  ival d (assign k v l) q = if q =? k then v else ival d l q.
Proof.
  revert d q. induction l as [| e l IH]; intros d q; simpl; [by intros _ ?%not_elem_of_nil |].
  intros [He Hl] Hk Hk1. rewrite Forall_forall in He.
  destruct (Z.eqb_spec e.1 k) as [<- | Hne].
  - assert (e.1 + 1 ∈ l.*1) as Hin by (apply elem_of_cons in Hk1 as [? | ?]; [lia | done]).
    simpl. destruct (Z.eqb_spec q e.1) as [-> | Hq].
    + rewrite Z.leb_refl. apply ival_above, Forall_forall, He.
    + destruct (Z.leb_spec e.1 q); [| done].
      apply list_elem_of_fmap in Hin as ([k' v'] & E & Hin). simpl in E. subst k'.
      destruct l as [| e2 l]; [by apply not_elem_of_nil in Hin |].
      assert (e2.1 <= e.1 + 1).
      { apply elem_of_cons in Hin as [<- | Hin]; [done |].
        destruct Hl as [Hl _]. rewrite Forall_forall in Hl. apply Hl in Hin. simpl in Hin. lia. }
      simpl. by rewrite (proj2 (Z.leb_le _ _)) by lia.
  - apply elem_of_cons in Hk as [? | Hk]; [congruence |].
    assert (e.1 < k).
    { apply list_elem_of_fmap in Hk as (e' & -> & Hin). by apply He. }
    apply elem_of_cons in Hk1 as [? | Hk1]; [lia |]. simpl.
    destruct (Z.leb_spec e.1 q); [by apply IH |].
    by rewrite (proj2 (Z.eqb_neq q k)) by lia.
Qed.

Lemma relabel_ival old new l d q :
  ival (if d =? old then new else d) (relabel old new l) q =
  (let x := ival d l q in if x =? old then new else x).
Proof.
  revert d. induction l as [| e l IH]; intros d; simpl; [done |].
  destruct (Z.eqb_spec e.2 old) as [E |]; simpl; destruct (e.1 <=? q); try done.
  - specialize (IH e.2). rewrite E, Z.eqb_refl in IH. by rewrite E, IH.
  - specialize (IH e.2). by rewrite (proj2 (Z.eqb_neq _ _)) in IH.
Qed.

Lemma relabel_keys old new l : (relabel old new l).*1 = l.*1.
Proof.
  unfold relabel. rewrite <- list_fmap_compose. apply list_fmap_ext.
  intros i e _. simpl. by destruct (e.2 =? old).
Qed.

Lemma ssorted_keys l l' : l.*1 = l'.*1 → ssorted l → ssorted l'.
Proof.
  revert l'. induction l as [| e l IH]; intros [| e' l'] Heq; try done.
  rewrite !fmap_cons in Heq. injection Heq as E E'. intros [He Hl]. split; [| by eapply IH].
  apply (Forall_fmap fst (λ k, e'.1 < k)). rewrite <- E', <- E. by apply Forall_fmap.
Qed.

Lemma emplace_keys k v l k' : k' ∈ (emplace k v l).*1 ↔ k' = k ∨ k' ∈ l.*1.
Proof.
  induction l as [| e l IH]; [simpl; set_solver |]. simpl emplace.
  destruct (Z.ltb_spec k e.1), (Z.eqb_spec k e.1); rewrite ?fmap_cons, ?elem_of_cons;
    simpl; first [tauto | subst k; tauto | rewrite IH; tauto].
Qed.

Lemma emplace_present k v l : ssorted l → k ∈ l.*1 → emplace k v l = l.
Proof.
  induction l as [| e l IH]; simpl; [by intros _ ?%not_elem_of_nil |].
  intros [He Hl] [-> | Hin]%elem_of_cons.
  - by rewrite Z.ltb_irrefl, Z.eqb_refl.
  - pose proof Hin as ([k' v'] & -> & Hin')%list_elem_of_fmap.
    rewrite Forall_forall in He. apply He in Hin' as Hlt. simpl in *.
    rewrite (proj2 (Z.ltb_ge _ _)), (proj2 (Z.eqb_neq _ _)), IH by lia || done. done.
Qed.

Lemma emplace_above k v l : Forall (λ e : entry, e.1 < k) l → emplace k v l = l ++ [(k, v)].
Proof.
  intros H. induction H as [| e l He Hl IH]; simpl; [done |].
  rewrite (proj2 (Z.ltb_ge _ _)), (proj2 (Z.eqb_neq _ _)), IH by lia. done.
Qed.

Lemma emplace_last k v l e : k <= e.1 → ∃ l', emplace k v (l ++ [e]) = l' ++ [e].
Proof.
  intros Hk. induction l as [| e' l [l' IH]]; simpl.
  - destruct (Z.ltb_spec k e.1), (Z.eqb_spec k e.1); try lia.
    + by exists [(k, v)].
    + by exists [].
  - destruct (k <? e'.1); [by eexists (_ :: _ :: l) |].
    destruct (k =? e'.1); [by eexists (_ :: l) |]. exists (e' :: l'). by rewrite IH.
Qed.

Lemma assign_last k v l e : k ≠ e.1 → ∃ l', assign k v (l ++ [e]) = l' ++ [e].
Proof.
  intros Hk. induction l as [| e' l [l' IH]]; simpl.
  - rewrite (proj2 (Z.eqb_neq _ _)) by done. by exists [].
  - destruct (e'.1 =? k); [by eexists (_ :: l) |]. exists (e' :: l'). by rewrite IH.
Qed.

Lemma ival_step d l k : ssorted l → k + 1 ∉ l.*1 → ival d l (k + 1) = ival d l k.
Proof.
  revert d. induction l as [| e l IH]; intros d; simpl; [done |].
  intros [He Hl] [Hne Hn]%not_elem_of_cons.
  destruct (Z.leb_spec e.1 (k + 1)), (Z.leb_spec e.1 k); try lia; auto.
Qed.

(** The boundary that [upsert] adds at [key + 1] is invisible. *)
Lemma emplace_next d l k q : ssorted l →
  ival d (emplace (k + 1) (ival d l k) l) q = ival d l q.
Proof.
  intros Hl. destruct (decide (k + 1 ∈ l.*1)).
  - by rewrite emplace_present.
  - by rewrite emplace_same by (done || by apply ival_step).
Qed.

Lemma lower_bound_length key l : (lower_bound key l <= length l)%nat.
Proof. induction l as [| e l IH]; simpl; [lia |]. destruct (e.1 <? key); lia. Qed.

(** What the iterators around [lower_bound key] hold. *)
Lemma lower_bound_ival d l key : ssorted l →
  let i := lower_bound key l in
  let prev := match i with O => d | S j => default d (snd <$> l !! j) end in
  ival d l key = match l !! i with
                 | Some e => if e.1 =? key then e.2 else prev
                 | None => prev
                 end.
Proof.
  revert d. induction l as [| e l IH]; intros d; [done |]. intros [He Hl]. simpl.
  destruct (Z.ltb_spec e.1 key) as [Hlt | Hge]; simpl.
  - rewrite (proj2 (Z.leb_le _ _)), (IH e.2 Hl) by lia. simpl.
    pose proof (lower_bound_length key l).
    destruct (lower_bound key l) as [| j]; [done |].
    destruct (lookup_lt_is_Some_2 l j) as [e' He']; [lia |]. simpl. by rewrite He'.
  - destruct (Z.eqb_spec e.1 key) as [E |].
    + rewrite E, Z.leb_refl. apply ival_above. by rewrite <- E.
    + by rewrite (proj2 (Z.leb_gt _ _)) by lia.
Qed.

Lemma lower_bound_before key l j e :
  (j < lower_bound key l)%nat → l !! j = Some e → e.1 < key.
Proof.
  revert j. induction l as [| e' l IH]; intros j; simpl; [lia |].
  destruct (Z.ltb_spec e'.1 key); [| lia].
  destruct j; simpl; [congruence | intros; apply (IH j); [lia | done]].
Qed.

Lemma lower_bound_None key l : l !! lower_bound key l = None →
  Forall (λ e : entry, e.1 < key) l.
Proof.
  induction l as [| e l IH]; simpl; [done |].
  destruct (Z.ltb_spec e.1 key); simpl; [by constructor; auto | done].
Qed.

Lemma lower_bound_Some key l e : l !! lower_bound key l = Some e → key <= e.1.
Proof.
  induction l as [| e' l IH]; simpl; [done |].
  destruct (Z.ltb_spec e'.1 key); simpl; [done | congruence].
Qed.

Lemma lower_bound_absent key l : ssorted l →
  (∀ e, l !! lower_bound key l = Some e → e.1 ≠ key) → key ∉ l.*1.
Proof.
  induction l as [| e l IH]; simpl; intros Hs Hne; [by apply not_elem_of_nil |].
  destruct Hs as [He Hl]. destruct (Z.ltb_spec e.1 key); simpl in *.
  - apply not_elem_of_cons. split; [lia | auto].
  - specialize (Hne e eq_refl). apply not_elem_of_cons. split; [lia |].
    intros ([k' v'] & -> & Hin)%list_elem_of_fmap.
    rewrite Forall_forall in He. apply He in Hin. simpl in *. lia.
Qed.

Lemma lower_bound_zero key v l :
  0 <= key → lower_bound key ((0, v) :: l) = 0%nat → key = 0.
Proof. simpl. intros Hk. destruct (Z.ltb_spec 0 key); [done | lia]. Qed.

(** ** The operations against the abstract view *)

Lemma inv_default : inv IntervalMap_default.
Proof.
  split; [simpl; by repeat constructor |]. split; [by eexists _, _ |].
  split; [by exists [] |]. intros _ q. simpl. by destruct (0 <=? q).
Qed.

Lemma getValue_value_at m key : inv m → 0 <= key → getValue m key = Ok (value_at m key).
Proof.
  intros (Hs & (v & l & Hh) & (l0 & Hlast) & Ht) Hk. unfold getValue.
  destruct (touched m); simpl; [| by rewrite Ht].
  destruct (Z.leb_spec (upper_bound m) key) as [Hub | Hub].
  - rewrite Hlast in Hs |- *. clear -Hs Hub. f_equal.
    assert (∀ d, ival d (l0 ++ [(upper_bound m, 0)]) key = 0) as ->; [| done].
    induction l0 as [| e l0 IH]; intros d; simpl in *.
    + by rewrite (proj2 (Z.leb_le _ _)).
    + destruct Hs as [[_ He]%Forall_app Hs]. apply Forall_cons in He as [He _]. simpl in He.
      rewrite (proj2 (Z.leb_le _ _)) by lia. by apply IH.
  - rewrite (lower_bound_ival 0 (map m) key Hs).
    destruct (map m !! lower_bound key (map m)) as [e |] eqn:Ee.
    + simpl. destruct (e.1 =? key) eqn:Eq; [done |].
      destruct (lower_bound key (map m)) as [| j] eqn:Ej; simpl.
      * rewrite Hh in Ej, Ee. apply lower_bound_zero in Ej; [| done]. subst key.
        injection Ee as <-. by rewrite Z.eqb_refl in Eq.
      * destruct (lookup_lt_is_Some_2 (map m) j) as [e' Ee'].
        { apply lookup_lt_Some in Ee. lia. }
        by rewrite Ee'.
    + apply lower_bound_None in Ee. rewrite Hlast in Ee.
      apply Forall_app in Ee as [_ Ee]. apply Forall_cons in Ee as [Ee _]. simpl in Ee. lia.
Qed.

(** The list [upsert] builds when it does write. *)
Definition place (key value : Z) (l : list entry) : list entry :=
  let l1 := emplace (key + 1) (ival 0 l key) l in
  if decide (key ∈ l.*1) then assign key value l1 else emplace key value l1.

Lemma place_sorted key value l : ssorted l → ssorted (place key value l).
Proof.
  intros Hl. unfold place.
  destruct (decide _); [apply assign_sorted | apply emplace_sorted]; by apply emplace_sorted.
Qed.

Lemma place_ival key value l q : ssorted l →
  ival 0 (place key value l) q = if q =? key then value else ival 0 l q.
Proof.
  intros Hl. unfold place.
  assert (key + 1 ∈ (emplace (key + 1) (ival 0 l key) l).*1) by (apply emplace_keys; by left).
  pose proof (emplace_sorted (key + 1) (ival 0 l key) l Hl).
  destruct (decide _) as [Hin | Hin].
  - rewrite assign_point by (done || (apply emplace_keys; by right)).
    by rewrite emplace_next.
  - rewrite emplace_point by (done || (rewrite emplace_keys; intros [? | ?]; [lia | done])).
    by rewrite emplace_next.
Qed.

Lemma upsert_eq m key value v l :
  ssorted (map m) → map m = (0, v) :: l → 0 <= key < 2 ^ 64 - 1 →
  upsert m key value =
    Ok (if value_at m key =? value then m
        else mk (place key value (map m))
                (if decide (Forall (λ e : entry, e.1 < key) (map m)) then key + 1
                 else upper_bound m) true).
Proof.
  intros Hs Hh Hk. unfold upsert. rewrite wrap_id by lia.
  pose proof (lower_bound_ival 0 (map m) key Hs) as Hv. cbv zeta in Hv.
  destruct (map m !! lower_bound key (map m)) as [e |] eqn:Ee.
  - rewrite decide_False.
    2: { intros Hall. apply lower_bound_Some in Ee as Hge.
         eapply Forall_lookup_1 in Hall; [| done]. simpl in Hall. lia. }
    destruct (Z.eqb_spec e.1 key) as [E | Hne].
    + unfold place. rewrite decide_True.
      2: { apply list_elem_of_fmap. exists e. split; [done |]. by eapply list_elem_of_lookup_2. }
      rewrite Hv. by destruct (e.2 =? value).
    + destruct (lower_bound key (map m)) as [| j] eqn:Ej.
      { rewrite Hh in Ej, Ee. apply lower_bound_zero in Ej; [| lia].
        injection Ee as <-. simpl in Hne. lia. }
      simpl. destruct (lookup_lt_is_Some_2 (map m) j) as [e' Ee'].
      { apply lookup_lt_Some in Ee. lia. }
      rewrite Ee' in Hv |- *. simpl in Hv |- *.
      rewrite (proj2 (Z.ltb_lt e'.1 key)) by (eapply lower_bound_before; [| done]; lia).
      unfold place. rewrite Hv, decide_False; [by destruct (e'.2 =? value) |].
      apply lower_bound_absent; [done |]. rewrite Ej. congruence.
  - apply lower_bound_None in Ee as Hall. rewrite decide_True by done.
    assert (last (map m) = map m !! pred (lower_bound key (map m))) as ->.
    { rewrite last_lookup. f_equal. pose proof (lower_bound_length key (map m)).
      apply lookup_ge_None in Ee. lia. }
    destruct (lower_bound key (map m)) as [| j] eqn:Ej; [by rewrite Hh in Ee |].
    simpl. destruct (lookup_lt_is_Some_2 (map m) j) as [e' Ee'].
    { pose proof (lower_bound_length key (map m)). lia. }
    rewrite Ee' in Hv |- *. simpl in Hv |- *.
    unfold place. rewrite Hv, decide_False; [by destruct (e'.2 =? value) |].
    apply lower_bound_absent; [done |]. rewrite Ej. congruence.
Qed.

Lemma place_head key value v l : 0 <= key → ssorted ((0, v) :: l) →
  ∃ v' l', place key value ((0, v) :: l) = (0, v') :: l'.
Proof.
  intros Hk [Hl _]. unfold place.
  assert (∀ x, ∃ l', emplace (key + 1) x ((0, v) :: l) = (0, v) :: l') as He.
  { intros x. simpl. rewrite (proj2 (Z.ltb_ge _ _)), (proj2 (Z.eqb_neq _ _)) by lia. eauto. }
  destruct (He (ival 0 ((0, v) :: l) key)) as [l' ->]. destruct (decide _) as [Hin | Hn]; simpl.
  - destruct key; by eexists _, _.
  - assert (key ≠ 0) by (intros ->; apply Hn; left).
    rewrite (proj2 (Z.ltb_ge _ _)), (proj2 (Z.eqb_neq _ _)) by lia. by eexists _, _.
Qed.

Lemma place_last_below key value l ub : key < ub → ssorted (l ++ [(ub, 0)]) →
  ∃ l', place key value (l ++ [(ub, 0)]) = l' ++ [(ub, 0)].
Proof.
  intros Hk Hs. unfold place.
  destruct (emplace_last (key + 1) (ival 0 (l ++ [(ub, 0)]) key) l (ub, 0)) as [l1 ->];
    [simpl; lia |].
  destruct (decide _); [apply assign_last | apply emplace_last]; simpl; lia.
Qed.

Lemma place_last_above key value l : Forall (λ e : entry, e.1 < key) l →
  place key value l = l ++ [(key, value); (key + 1, ival 0 l key)].
Proof.
  intros Hall. unfold place. rewrite decide_False.
  2: { intros (e & -> & Hin)%list_elem_of_fmap. rewrite Forall_forall in Hall.
       apply Hall in Hin. lia. }
  rewrite (emplace_above (key + 1)) by (eapply Forall_impl; [exact Hall |]; simpl; lia).
  induction Hall as [| e l He Hl IH]; simpl.
  { by rewrite (proj2 (Z.ltb_lt _ _)) by lia. }
  rewrite (proj2 (Z.ltb_ge _ _)), (proj2 (Z.eqb_neq _ _)) by lia. f_equal.
  clear -Hl. set (x := ival _ _ _). clearbody x.
  induction Hl as [| e' l He' Hl IH]; simpl.
  { by rewrite (proj2 (Z.ltb_lt _ _)) by lia. }
  rewrite (proj2 (Z.ltb_ge _ _)), (proj2 (Z.eqb_neq _ _)) by lia. by rewrite IH.
Qed.

Lemma inv_last_value m q : inv m → upper_bound m <= q → value_at m q = 0.
Proof.
  intros Hinv Hq. assert (0 <= upper_bound m).
  { destruct Hinv as (Hs & (v & l & Hh) & (l0 & Hl) & _). rewrite Hl in Hs, Hh.
    destruct l0 as [| e l0]; simpl in Hh; injection Hh as E _; simpl in *; subst; [lia |].
    destruct Hs as [[_ He]%Forall_app _]. apply Forall_cons in He as [He _]. simpl in He. lia. }
  pose proof (getValue_value_at m q Hinv ltac:(lia)) as Hg. unfold getValue in Hg.
  rewrite (proj2 (Z.leb_le _ _)), orb_true_r in Hg by done. congruence.
Qed.

(** [upsert] of a key other than the current [upper_bound] is an update of the
    abstract map at that one key: it always returns, keeps the class invariant, and
    every later [getValue] sees the new value at the key and the old values
    elsewhere. *)
Theorem upsert_updates_one_key (m : IntervalMap) (key value : Z) :
  inv m → 0 <= key < 2 ^ 64 - 1 → key ≠ upper_bound m →
  ∃ m', upsert m key value = Ok m' ∧ inv m' ∧
        ∀ q, 0 <= q → getValue m' q = Ok (if q =? key then value else value_at m q).
Proof.
  intros Hinv Hk Hne. pose proof Hinv as (Hs & (v & l & Hh) & (l0 & Hl) & Ht).
  rewrite (upsert_eq m key value v l) by done. eexists. split; [done |].
  destruct (Z.eqb_spec (value_at m key) value) as [Ev | Ev].
  { split; [done |]. intros q Hq. rewrite getValue_value_at by done.
    destruct (Z.eqb_spec q key); congruence. }
  assert (inv (mk (place key value (map m))
                (if decide (Forall (λ e : entry, e.1 < key) (map m)) then key + 1
                 else upper_bound m) true)) as Hinv'.
  { split; [by apply place_sorted |]. simpl. split.
    { rewrite Hh in Hs |- *. by apply place_head; [lia |]. }
    split; [| done]. destruct (decide _) as [Hall | Hall].
    - rewrite place_last_above by done. exists (map m ++ [(key, value)]).
      rewrite <- app_assoc. do 4 f_equal. apply inv_last_value; [done |].
      rewrite Hl in Hall. apply Forall_app in Hall as [_ Hall].
      apply Forall_cons in Hall as [Hall _]. simpl in Hall. lia.
    - assert (key < upper_bound m).
      { apply Z.nle_gt. intros Hge. apply Hall. rewrite Hl in Hs |- *. clear -Hs Hge Hne.
        induction l0 as [| e l0 IH]; simpl in *; [constructor; [simpl; lia | done] |].
        destruct Hs as [[He0 He]%Forall_app Hs]. apply Forall_cons in He as [He _].
        simpl in He. constructor; [lia | auto]. }
      rewrite Hl in Hs |- *. by apply place_last_below. }
  split; [done |]. intros q Hq. rewrite getValue_value_at by done. simpl.
  by rewrite place_ival.
Qed.

Lemma upsert_updates_one_key_witness :
  ∃ m', upsert IntervalMap_default 5 1 = Ok m' ∧ inv m' ∧
        ∀ q, 0 <= q → getValue m' q =
             Ok (if q =? 5 then 1 else value_at IntervalMap_default q).
Proof. apply upsert_updates_one_key; [apply inv_default | lia | simpl; lia]. Defined.

(** An [upsert] of a non-zero value at exactly the current [upper_bound] is
    recorded in the map but lost to readers: the bound is not moved, so [getValue]
    of that key still answers 0. *)
Theorem upsert_at_upper_bound_lost (m : IntervalMap) (value : Z) :
  inv m → upper_bound m < 2 ^ 64 - 1 → value ≠ 0 →
  ∃ m', upsert m (upper_bound m) value = Ok m' ∧
        value_at m' (upper_bound m) = value ∧
        getValue m' (upper_bound m) = Ok 0.
Proof.
  intros Hinv Hub Hv. pose proof Hinv as (Hs & (v & l & Hh) & (l0 & Hl) & Ht).
  assert (0 <= upper_bound m).
  { rewrite Hl in Hs, Hh. destruct l0 as [| e l0]; simpl in Hh; injection Hh as E _;
      simpl in *; subst; [lia |].
    destruct Hs as [[_ He]%Forall_app _]. apply Forall_cons in He as [He _]. simpl in He. lia. }
  rewrite (upsert_eq m _ value v l) by (done || lia). eexists. split; [done |].
  rewrite (inv_last_value m (upper_bound m)) by (done || lia). rewrite (proj2 (Z.eqb_neq 0 value)) by lia.
  rewrite decide_False.
  2: { rewrite Hl at 1. intros [_ Hall]%Forall_app. apply Forall_cons in Hall as [Hall _].
       simpl in Hall. lia. }
  simpl. split; [by rewrite place_ival, Z.eqb_refl |].
  unfold getValue. simpl. by rewrite Z.leb_refl.
Qed.

Lemma upsert_at_upper_bound_lost_witness :
  ∃ m', upsert IntervalMap_default (upper_bound IntervalMap_default) 5 = Ok m' ∧
        value_at m' (upper_bound IntervalMap_default) = 5 ∧
        getValue m' (upper_bound IntervalMap_default) = Ok 0.
Proof. apply upsert_at_upper_bound_lost; [apply inv_default | simpl; lia | lia]. Defined.

(** The same loss on a used map: row 6 right after row 5. *)
Example upsert_consecutive_rows :
  (do m <- upsert IntervalMap_default 5 1;
   do m <- upsert m 6 1;
   getValue m 6) = Ok 0.
Proof. reflexivity. Qed.

(** ** Consolidation *)

Lemma consolidate_loop_ival cur rest d q :
  ssorted (cur :: rest) → ival d (consolidate_loop cur rest) q = ival d (cur :: rest) q.
Proof.
  revert d cur. induction rest as [| nx rest IH]; intros d cur Hs; [done | destruct Hs as [Hc [Hn Hr]]].
  simpl. apply Forall_cons in Hc as [Hlt Hc]. destruct (Z.eqb_spec cur.2 nx.2) as [E | E].
  - rewrite IH by (split; done). simpl. rewrite E.
    destruct (Z.leb_spec cur.1 q); [| done]. destruct (Z.leb_spec nx.1 q); [done |].
    apply ival_above. eapply Forall_lt_trans; [| exact Hn]. lia.
  - simpl. rewrite IH by (split; done). done.
Qed.

Lemma consolidate_loop_Forall (P : entry → Prop) cur rest :
  P cur → Forall P rest → Forall P (consolidate_loop cur rest).
Proof.
  revert cur. induction rest as [| nx rest IH]; intros cur Hc; simpl; [by constructor |].
  intros [Hn Hr]%Forall_cons. destruct (cur.2 =? nx.2); [by apply IH |].
  constructor; [done | by apply IH].
Qed.

Lemma consolidate_loop_sorted cur rest :
  ssorted (cur :: rest) → ssorted (consolidate_loop cur rest).
Proof.
  revert cur. induction rest as [| nx rest IH]; intros cur Hs; [done | destruct Hs as [Hc [Hn Hr]]].
  simpl. apply Forall_cons in Hc as [Hlt Hc].
  destruct (cur.2 =? nx.2); [by apply IH |]. split; [| by apply IH].
  by apply consolidate_loop_Forall.
Qed.

Lemma consolidate_loop_head cur rest : ∃ l, consolidate_loop cur rest = cur :: l.
Proof.
  revert cur. induction rest as [| nx rest IH]; intros cur; simpl; [eauto |].
  destruct (cur.2 =? nx.2); [apply IH | eauto].
Qed.

Lemma consolidate_loop_last cur rest e :
  last (cur :: rest) = Some e →
  ∃ e', last (consolidate_loop cur rest) = Some e' ∧ e'.2 = e.2.
Proof.
  revert cur. induction rest as [| nx rest IH]; intros cur Hl.
  { simpl in *. exists e. by injection Hl as ->. }
  rewrite last_cons_cons in Hl. simpl. destruct (Z.eqb_spec cur.2 nx.2) as [E | E].
  - destruct rest as [| nx' rest]; [simpl in *; injection Hl as <-; eauto |].
    apply IH. by rewrite last_cons_cons in Hl |- *.
  - destruct (IH nx Hl) as (e' & He & E'). exists e'. split; [| done].
    destruct (consolidate_loop_head nx rest) as [l Hh]. rewrite Hh in He |- *.
    by rewrite last_cons_cons.
Qed.

(** No two neighbouring intervals carry the same value. *)
Fixpoint canonical (l : list entry) : Prop :=
  match l with
  | e1 :: ((e2 :: _) as l') => e1.2 ≠ e2.2 ∧ canonical l'
  | _ => True
  end.

Lemma consolidate_loop_canonical cur rest : canonical (consolidate_loop cur rest).
Proof.
  revert cur. induction rest as [| nx rest IH]; intros cur; simpl; [done |].
  destruct (Z.eqb_spec cur.2 nx.2) as [E | E]; [apply IH |].
  destruct (consolidate_loop_head nx rest) as [l Hh]. specialize (IH nx).
  rewrite Hh in IH |- *. by split.
Qed.

Lemma consolidate_ok (m : IntervalMap) :
  inv m →
  ∃ m', consolidate m = Ok m' ∧ inv m' ∧
        (∀ q, 0 <= q → getValue m' q = getValue m q) ∧
        (touched m = true → canonical (map m')).
Proof.
  intros Hinv. pose proof Hinv as (Hs & (v & l & Hh) & (l0 & Hl) & Ht).
  unfold consolidate. destruct (touched m) eqn:Et; simpl; [| by exists m].
  rewrite Hh in Hs |- *.
  assert (last ((0, v) :: l) = Some (upper_bound m, 0)) as Hla.
  { rewrite <- Hh, Hl. apply last_snoc. }
  destruct (consolidate_loop_last _ _ _ Hla) as (e & He & E0). simpl in E0.
  rewrite He. simpl. eexists. split; [done |].
  assert (inv (mk (consolidate_loop (0, v) l) e.1 true)) as Hinv'.
  { split; [by apply consolidate_loop_sorted |]. split.
    { destruct (consolidate_loop_head (0, v) l) as [l' ->]. by eexists _, _. }
    split; [| done]. apply last_Some in He as [l' ->]. exists l'.
    simpl. rewrite <- E0. by destruct e. }
  split; [done |]. split; [| intros _; apply consolidate_loop_canonical].
  intros q Hq. rewrite !getValue_value_at by done. simpl map.
  by rewrite consolidate_loop_ival, Hh.
Qed.

(** [consolidate] terminates with a map that answers every lookup as before,
    keeps the class invariant, and, once the map has been touched, is canonical: no
    two adjacent intervals carry the same value. *)
Theorem consolidate_canonical (m : IntervalMap) :
  inv m →
  ∃ m', consolidate m = Ok m' ∧ inv m' ∧
        (∀ q, 0 <= q → getValue m' q = getValue m q) ∧
        (touched m = true → canonical (map m')).
Proof. apply consolidate_ok. Qed.

Lemma consolidate_canonical_witness :
  ∃ m', consolidate IntervalMap_default = Ok m' ∧ inv m' ∧
        (∀ q, 0 <= q → getValue m' q = getValue IntervalMap_default q) ∧
        (touched IntervalMap_default = true → canonical (map m')).
Proof. apply consolidate_canonical, inv_default. Defined.

(** [updateAndConsolidate] of a non-zero value returns the number of intervals
    that carried it and leaves a map in which exactly the keys that read [oldval]
    now read [newval]. *)
Theorem updateAndConsolidate_relabels (m : IntervalMap) (oldval newval : Z) :
  inv m → oldval ≠ 0 →
  ∃ m', updateAndConsolidate m oldval newval =
          Ok (count_if (λ e : entry, e.2 =? oldval) (map m), m') ∧ inv m' ∧
        ∀ q, 0 <= q → getValue m' q =
          Ok (let x := value_at m q in if x =? oldval then newval else x).
Proof.
  intros Hinv Ho. pose proof Hinv as (Hs & (v & l & Hh) & (l0 & Hl) & Ht).
  set (m1 := mk (relabel oldval newval (map m)) (upper_bound m) true).
  assert (inv m1) as Hinv1.
  { split; [by eapply ssorted_keys; [symmetry; apply relabel_keys |] |]. split.
    { simpl. rewrite Hh. unfold relabel. rewrite fmap_cons. simpl.
      destruct (v =? oldval); by eexists _, _. }
    split; [| done]. exists (relabel oldval newval l0). simpl. rewrite Hl at 1.
    unfold relabel. rewrite fmap_app. simpl. by destruct oldval. }
  destruct (consolidate_ok m1 Hinv1) as (m' & Hc & Hinv' & Hg & _).
  exists m'. split.
  { unfold updateAndConsolidate. simpl. fold m1. by rewrite Hc. }
  split; [done |]. intros q Hq. rewrite Hg, getValue_value_at by done. f_equal. simpl map.
  pose proof (relabel_ival oldval newval (map m) 0 q) as Hr.
  by rewrite (proj2 (Z.eqb_neq 0 oldval)) in Hr by lia.
Qed.

Lemma updateAndConsolidate_relabels_witness :
  ∃ m', updateAndConsolidate (mk [(0, 0); (5, 1); (6, 0)] 6 true) 1 2 =
          Ok (1, m') ∧ inv m' ∧
        ∀ q, 0 <= q → getValue m' q =
          Ok (let x := ival 0 [(0, 0); (5, 1); (6, 0)] q in if x =? 1 then 2 else x).
Proof.
  apply (updateAndConsolidate_relabels (mk [(0, 0); (5, 1); (6, 0)] 6 true) 1 2); [| lia].
  split; [simpl; by repeat (constructor; simpl) |]. split; [by eexists _, _ |].
  split; [by exists [(0, 0); (5, 1)] | done].
Defined.

(** [reset] forgets to move [upper_bound]: on a map whose bound passed 1, a lookup
    of key 1 runs the iterator off the end. *)
Lemma reset_breaks_lookup (m : IntervalMap) (value : Z) :
  touched m = true → 1 < upper_bound m → getValue (reset m value) 1 = Err Undefined.
Proof.
  intros Ht Hu. unfold getValue, reset. simpl. rewrite Ht. simpl.
  by rewrite (proj2 (Z.leb_gt _ _)).
Qed.

End IntervalMap.
