(* ===== verification/Transaction.v ===== *)
(** * Transaction: timestamps, transactions, the per-thread transaction tables
    and the registry of the transaction manager
    ([oltp/transaction/transaction.hpp], [lib/transactions/transaction.cpp],
    [txn-table.{hpp,cpp}], [transaction_manager.hpp],
    [concurrency-control/concurrency-control.hpp]).

    [Module Txns] models the data and the operations; their interleavings by the worker
    threads are in [TxnSystem]. *)

From S2P Require Import Prelude Common StorageUtils.
From Stdlib Require Import ZArith Lia Bool.
From stdpp Require Import base numbers list gmap sets sorting.

Local Open Scope Z_scope.
Local Open Scope res_scope.

Module Txns.

Record TxnTs : Type := mk_TxnTs { txn_id : xid_t; txn_start_time : xid_t }.

#[export] Instance TxnTs_eq_dec : EqDecision TxnTs.
Proof. solve_decision. Defined.

Definition TxnTsCmp (a b : TxnTs) : bool := txn_start_time a <? txn_start_time b.

Record Txn : Type := mk_Txn {
  txnTs : TxnTs;
  read_only : bool;
  worker_id : worker_id_t;
  partition_id : partition_id_t;
  master_version : master_version_t;
  delta_version : delta_id_t;
  commit_ts : xid_t;
  undoLogVector : list row_uuid_t
}.

#[export] Instance Txn_eq_dec : EqDecision Txn.
Proof. solve_decision. Defined.

(** The constructor with an explicit master version. *)
Definition Txn_new (gc : GcTypes) (ts : TxnTs) (workerId : worker_id_t)
    (partitionId : partition_id_t) (mv : master_version_t) (ro : bool) : Txn :=
  mk_Txn ts ro workerId partitionId mv (get_delta_ver gc (txn_start_time ts)) 0 [].

(** [txn.undoLogVector.emplace_back(..)] *)
Definition log_row (t : Txn) (row : row_uuid_t) : Txn :=
  mk_Txn (txnTs t) (read_only t) (worker_id t) (partition_id t) (master_version t)
         (delta_version t) (commit_ts t) (undoLogVector t ++ [row]).

(** ** Visibility *)

Definition is_readable (tmin : xid_t) (xact : TxnTs) : bool :=
  if (tmin <=? txn_start_time xact) || (tmin =? txn_id xact) then true else false.

(** ** The timestamp generator *)

Definition baseShift : Z := 27.

Definition txnPairGen_init : Z := 1.

Definition get_txnID_startTime_Pair (gen : Z) : TxnTs * Z :=
  let x := gen in (mk_TxnTs (u64 (Z.shiftl x baseShift)) x, u64 (gen + 1)).

Definition get_commit_ts (gen : Z) : xid_t * Z := (gen, u64 (gen + 1)).

(** ** The per-thread transaction table *)

Record TxnTable : Type := mk_Table {
  workerID : worker_id_t;
  thread_id : nat;
  min_active : xid_t;
  max_last_alive : xid_t;
  committedTxn : list Txn
}.

(** The constructor, before registration. *)
Definition TxnTable_new (w : worker_id_t) (tid : nat) : TxnTable :=
  mk_Table w tid UINT64_MAX 0 [].

Definition get_last_alive_tx (t : TxnTable) : xid_t := max_last_alive t.
Definition get_min_active_tx (t : TxnTable) : xid_t := min_active t.

Definition set_min_active (t : TxnTable) (x : xid_t) : TxnTable :=
  mk_Table (workerID t) (thread_id t) x (max_last_alive t) (committedTxn t).

Definition endTxn (gc : GcTypes) (me : nat) (t : TxnTable) (txn : Txn) : res TxnTable :=
  check Nat.eqb (thread_id t) me else AssertFailed;
  let start := txn_start_time (txnTs txn) in
  let last := if max_last_alive t <? start then start else max_last_alive t in
  let committed := if decide (gc = SteamGC) then committedTxn t ++ [txn] else committedTxn t in
  Ok (mk_Table (workerID t) (thread_id t) UINT64_MAX last committed).

(** The rows of one undo log, inverted into table -> set of row ids. *)
Definition add_cleanable (cl : gmap table_id_t (gset Z)) (row : row_uuid_t)
  : gmap table_id_t (gset Z) :=
  let tbl := StorageUtils.get_tableId_from_rowUuid row in
  <[tbl := {[ StorageUtils.get_rowId_from_rowUuid row ]} ∪ (default ∅ (cl !! tbl))]> cl.

(** The loop of [steamGC]: collect while the queue's head is cleanable. *)
Fixpoint steam_collect (global_min : xid_t) (q : list Txn) (cl : gmap table_id_t (gset Z))
  : gmap table_id_t (gset Z) * list Txn :=
  match q with
  | [] => (cl, [])
  | t :: q' =>
      if commit_ts t <=? global_min
      then steam_collect global_min q' (foldl add_cleanable cl (undoLogVector t))
      else (cl, q)
  end.

(** [steamGC] hands the inverted map to the schema; [schema_steamGC] is
    [Schema::steamGC] on the storage state [S]. *)
Definition steamGC {S : Type} (schema_steamGC : gmap table_id_t (gset Z) → TxnTs → S → res S)
    (me : nat) (t : TxnTable) (global_min : TxnTs) (st : S) : res (TxnTable * S) :=
  check Nat.eqb (thread_id t) me else AssertFailed;
  match committedTxn t with
  | [] => Ok (t, st)
  | _ =>
      let (cl, rest) := steam_collect (txn_start_time global_min) (committedTxn t) ∅ in
      if decide (cl = ∅) then Ok (t, st)
      else
        do st' <- schema_steamGC cl global_min st;
        Ok (mk_Table (workerID t) (thread_id t) (min_active t) (max_last_alive t) rest, st')
  end.

(** ** The transaction manager

    [registry] is the vector of table pointers; [tables] the heap they point into. *)

Record TransactionManager : Type := mk_Mgr {
  current_master : master_version_t;
  epoch_to_master_ver_map : gmap xid_t master_version_t;
  registry : list nat;
  gen : xid_t;
  tables : gmap nat TxnTable
}.

Definition TransactionManager_new : TransactionManager := mk_Mgr 0 ∅ [] txnPairGen_init ∅.

Definition with_gen (m : TransactionManager) (g : Z) : TransactionManager :=
  mk_Mgr (current_master m) (epoch_to_master_ver_map m) (registry m) g (tables m).
Definition with_table (m : TransactionManager) (p : nat) (t : TxnTable) : TransactionManager :=
  mk_Mgr (current_master m) (epoch_to_master_ver_map m) (registry m) (gen m) (<[p := t]> (tables m)).

Definition registerTxnTable (m : TransactionManager) (p : nat) : TransactionManager :=
  mk_Mgr (current_master m) (epoch_to_master_ver_map m) (registry m ++ [p]) (gen m) (tables m).

Definition deregisterTxnTable (m : TransactionManager) (p : nat) : TransactionManager :=
  mk_Mgr (current_master m) (epoch_to_master_ver_map m)
         (List.filter (λ q, negb (Nat.eqb q p)) (registry m)) (gen m) (tables m).

(** [ThreadLocal_TransactionTable] constructor and destructor. *)
Definition construct_table (m : TransactionManager) (p : nat) (w : worker_id_t) (tid : nat)
  : TransactionManager :=
  registerTxnTable (with_table m p (TxnTable_new w tid)) p.

Definition destruct_table (m : TransactionManager) (me p : nat) : res TransactionManager :=
  do t <- of_option Undefined (tables m !! p);
  check Nat.eqb (thread_id t) me else AssertFailed;
  let m1 := deregisterTxnTable m p in
  Ok (mk_Mgr (current_master m1) (epoch_to_master_ver_map m1) (registry m1) (gen m1)
             (delete p (tables m1))).

Definition switch_master (m : TransactionManager) : master_version_t * TransactionManager :=
  let curr_master := current_master m in
  let tmp := u8 ((curr_master + 1) mod num_master_versions) in
  (curr_master, mk_Mgr tmp (epoch_to_master_ver_map m) (registry m) (gen m) (tables m)).

(** [Txn::getTxn], and the first half of [beginTxn]. *)
Definition getTxn (gc : GcTypes) (m : TransactionManager) (workerId : worker_id_t)
    (partitionId : partition_id_t) (ro : bool) : Txn * TransactionManager :=
  let (ts, g) := get_txnID_startTime_Pair (gen m) in
  (Txn_new gc ts workerId partitionId (current_master m) ro, with_gen m g).

(** The second half of [beginTxn]: [min_active = tx.txnTs.txn_start_time]. *)
Definition publish (m : TransactionManager) (me p : nat) (t : Txn) : res TransactionManager :=
  do tbl <- of_option Undefined (tables m !! p);
  check Nat.eqb (thread_id tbl) me else AssertFailed;
  Ok (with_table m p (set_min_active tbl (txn_start_time (txnTs t)))).

Definition beginTxn (gc : GcTypes) (m : TransactionManager) (me p : nat)
    (workerId : worker_id_t) (partitionId : partition_id_t) (ro : bool)
  : res (Txn * TransactionManager) :=
  let (t, m1) := getTxn gc m workerId partitionId ro in
  do m2 <- publish m1 me p t;
  Ok (t, m2).

Definition endTxn_at (gc : GcTypes) (m : TransactionManager) (me p : nat) (t : Txn)
  : res TransactionManager :=
  do tbl <- of_option Undefined (tables m !! p);
  do tbl' <- endTxn gc me tbl t;
  Ok (with_table m p tbl').

(** Dereferences the registered pointers. *)
Definition registered (m : TransactionManager) : res (list TxnTable) :=
  rmapM (λ p, of_option Undefined (tables m !! p)) (registry m).

(** [if (x < min) min = x;] over a container. *)
Definition min_of (init : Z) (l : list Z) : Z :=
  foldl (λ min x, if x <? min then x else min) init l.

Definition get_last_alive (m : TransactionManager) : res xid_t :=
  do ts <- registered m; Ok (min_of UINT64_MAX (get_last_alive_tx <$> ts)).

(** The call when no other thread runs in between; [scan_next] is one turn of its loop. *)
Definition get_min_activeTxn (m : TransactionManager) : res xid_t :=
  do ts <- registered m; Ok (min_of UINT64_MAX (get_min_active_tx <$> ts)).

(** The loop of [get_min_activeTxn] as it runs among other threads, since it takes no lock: the
    tables it has yet to read, the least value so far, and whether its iterators are still
    those of the vector, which a registration or deregistration invalidates. *)
Record scan : Type := mk_scan { sc_todo : list nat; sc_low : xid_t; sc_valid : bool }.

Definition scan_begin (m : TransactionManager) : scan := mk_scan (registry m) UINT64_MAX true.

Definition scan_next (m : TransactionManager) (sc : scan) : res scan :=
  match sc_todo sc with
  | [] => Ok sc
  | p :: rest =>
      check sc_valid sc else Undefined;
      do t <- of_option Undefined (tables m !! p);
      let x := get_min_active_tx t in
      Ok (mk_scan rest (if x <? sc_low sc then x else sc_low sc) (sc_valid sc))
  end.

Definition get_all_CurrentActiveTxn (m : TransactionManager) : res (list xid_t * xid_t) :=
  do ts <- registered m;
  Ok (get_min_active_tx <$> ts, min_of UINT64_MAX (get_min_active_tx <$> ts)).

Definition get_all_activeTxn (m : TransactionManager) : res (list xid_t) :=
  do ts <- registered m;
  Ok (merge_sort Z.le
        (List.filter (λ x, negb (x =? UINT64_MAX)) (get_last_alive_tx <$> ts))).

(** [snapshot()]: runs with the workers paused.  [schema_snapshot] is
    [Schema::snapshot]. *)
Definition snapshot {S : Type} (schema_snapshot : xid_t → S → res S)
    (m : TransactionManager) (st : S) : res (TransactionManager * S) :=
  let (snapshot_master_ver, m1) := switch_master m in
  let (snapshot_epoch, g) := get_commit_ts (gen m1) in
  let map' := match epoch_to_master_ver_map m1 !! snapshot_epoch with
              | Some _ => epoch_to_master_ver_map m1      (* emplace keeps an old entry *)
              | None => <[snapshot_epoch := snapshot_master_ver]> (epoch_to_master_ver_map m1)
              end in
  do st' <- schema_snapshot snapshot_epoch st;
  Ok (mk_Mgr (current_master m1) map' (registry m1) g (tables m1), st').

Definition get_snapshot_masterVersion (m : TransactionManager) (epoch : xid_t)
  : res master_version_t :=
  of_option AssertFailed (epoch_to_master_ver_map m !! epoch).

(** ** Lemmas *)

(** Undisturbed, the loop returns what [get_min_activeTxn] says. *)
Lemma scan_alone m : get_min_activeTxn m =
  do sc <- rfoldM (λ sc _, scan_next m sc) (scan_begin m) (registry m); Ok (sc_low sc).
Proof.
  unfold get_min_activeTxn, registered, scan_begin, min_of. generalize UINT64_MAX as lo.
  induction (registry m) as [| p ps IH]; intros lo; [done |]. simpl. unfold scan_next at 1. simpl.
  destruct (tables m !! p) as [t |]; [| done]. simpl. rewrite <- IH. by destruct (rmapM _ ps).
Qed.

Lemma min_of_spec init l :
  min_of init l <= init ∧ (∀ x, x ∈ l → min_of init l <= x) ∧
  (min_of init l = init ∨ min_of init l ∈ l).
Proof.
  unfold min_of. revert init. induction l as [| y l IH]; intros init; simpl.
  - split; [lia |]. split; [by intros x ?%not_elem_of_nil | by left].
  - destruct (IH (if y <? init then y else init)) as (H1 & H2 & H3).
    set (r := foldl _ _ l) in *. clearbody r.
    destruct (Z.ltb_spec y init); (split; [lia |]); (split;
      [intros x [-> | Hx]%elem_of_cons; [lia | by apply H2] |]);
      destruct H3 as [-> | H3]; try (by left); right; first [left | by right].
Qed.

(** A timestamp drawn from the generator is readable by exactly the transactions that
    start no earlier: the [tmin == txn_id] disjunct never fires below the ids. *)
Lemma is_readable_spec tmin xact :
  txn_id xact = u64 (Z.shiftl (txn_start_time xact) baseShift) →
  0 <= tmin < txn_start_time xact * 2 ^ 27 → 0 < txn_start_time xact < 2 ^ 37 →
  is_readable tmin xact = (tmin <=? txn_start_time xact).
Proof.
  intros Hid Ht Hs. unfold is_readable. rewrite Hid. unfold baseShift.
  rewrite Z.shiftl_mul_pow2 by lia. rewrite wrap_id by lia.
  destruct (Z.eqb_spec tmin (txn_start_time xact * 2 ^ 27)); [lia |].
  by rewrite orb_false_r; destruct (tmin <=? _).
Qed.

(** ** Steam GC of a transaction table *)

(** The queue is in commit order, as the comment in [steamGC] states. *)
Definition commit_sorted (q : list Txn) : Prop :=
  StronglySorted (λ a b, commit_ts a <= commit_ts b) q.

Definition in_cleanables (cl : gmap table_id_t (gset Z)) (tbl r : Z) : Prop :=
  ∃ s, cl !! tbl = Some s ∧ r ∈ s.

Lemma in_add_cleanable cl row tbl r :
  in_cleanables (add_cleanable cl row) tbl r ↔
  in_cleanables cl tbl r ∨
  (tbl = StorageUtils.get_tableId_from_rowUuid row ∧
   r = StorageUtils.get_rowId_from_rowUuid row).
Proof.
  unfold in_cleanables, add_cleanable.
  generalize (StorageUtils.get_tableId_from_rowUuid row) as k.
  generalize (StorageUtils.get_rowId_from_rowUuid row) as x. intros x k.
  destruct (decide (k = tbl)) as [<- | Hne].
  - rewrite lookup_insert_eq. split.
    + intros (s & [= <-] & [->%elem_of_singleton | Hr]%elem_of_union); [by right |].
      left. destruct (cl !! _) as [s |]; simpl in Hr; [eauto | set_solver].
    + intros [(s & -> & Hs) | [_ ->]]; eexists; (split; [done |]); set_solver.
  - rewrite lookup_insert_ne by done. naive_solver.
Qed.

Lemma in_fold_cleanable rows cl tbl r :
  in_cleanables (foldl add_cleanable cl rows) tbl r ↔
  in_cleanables cl tbl r ∨
  ∃ row, row ∈ rows ∧ tbl = StorageUtils.get_tableId_from_rowUuid row ∧
         r = StorageUtils.get_rowId_from_rowUuid row.
Proof.
  revert cl. induction rows as [| row rows IH]; intros cl; simpl.
  - split; [by left | by intros [? | (? & ?%not_elem_of_nil & _)]].
  - rewrite IH, in_add_cleanable. setoid_rewrite elem_of_cons. naive_solver.
Qed.

Lemma steam_collect_spec g q cl :
  commit_sorted q →
  (steam_collect g q cl).2 = List.filter (λ t, negb (commit_ts t <=? g)) q ∧
  ∀ tbl r, in_cleanables (steam_collect g q cl).1 tbl r ↔
    in_cleanables cl tbl r ∨
    ∃ t row, t ∈ q ∧ commit_ts t <= g ∧ row ∈ undoLogVector t ∧
      tbl = StorageUtils.get_tableId_from_rowUuid row ∧
      r = StorageUtils.get_rowId_from_rowUuid row.
Proof.
  revert cl. induction q as [| t q IH]; intros cl Hs; simpl.
  - split; [done |]. intros. split; [by left | by intros [? | (? & ? & ?%not_elem_of_nil & _)]].
  - apply StronglySorted_inv in Hs as [Hs Hall]. destruct (Z.leb_spec (commit_ts t) g) as [Hle | Hgt].
    + destruct (IH (foldl add_cleanable cl (undoLogVector t)) Hs) as [Hq Hcl].
      simpl. split; [exact Hq |]. intros tbl r. rewrite Hcl, in_fold_cleanable. split.
      * intros [[? | (row & ? & ? & ?)] | (u & row & ? & ?)]; [by left | |];
          right; [exists t, row | exists u, row]; rewrite elem_of_cons; tauto.
      * intros [? | (u & row & [-> | ?]%elem_of_cons & ? & ?)];
          [by do 2 left | left; right; exists row; tauto | right; exists u, row; tauto].
    + assert (∀ t', t' ∈ q → g < commit_ts t') as Hgt'.
      { intros t' Hin. rewrite Forall_forall in Hall. specialize (Hall t' Hin). simpl in Hall. lia. }
      simpl. split.
      * f_equal. clear -Hgt'. induction q as [| u q IH]; [done |]. simpl.
        assert (g < commit_ts u) by (apply Hgt'; left).
        rewrite (proj2 (Z.leb_gt _ _)) by lia. simpl. f_equal. apply IH. intros. apply Hgt'. by right.
      * intros tbl r. split; [by left |].
        intros [? | (t' & row & [-> | Hin]%elem_of_cons & ? & _)]; [done | lia |].
        specialize (Hgt' t' Hin). lia.
Qed.

(** On a queue in commit order, [steamGC] asks the schema to clean exactly the rows
    that the undo logs of the committed transactions visible to everybody name, and
    leaves in the queue exactly the transactions that are not yet visible to everybody:
    the early break of its loop misses nothing. *)
Theorem steamGC_cleans_exactly_the_visible {S : Type}
    (schema_steamGC : gmap table_id_t (gset Z) → TxnTs → S → res S)
    (me : nat) (t : TxnTable) (g : TxnTs) (st : S) (r : TxnTable * S) :
  commit_sorted (committedTxn t) →
  steamGC schema_steamGC me t g st = Ok r →
  (r = (t, st) ∧ ∀ u, u ∈ committedTxn t → commit_ts u <= txn_start_time g → undoLogVector u = [])
  ∨ ∃ cl, schema_steamGC cl g st = Ok r.2 ∧
      committedTxn r.1 = List.filter (λ u, negb (commit_ts u <=? txn_start_time g)) (committedTxn t) ∧
      ∀ tbl row, in_cleanables cl tbl row ↔
        ∃ u ruid, u ∈ committedTxn t ∧ commit_ts u <= txn_start_time g ∧
          ruid ∈ undoLogVector u ∧
          tbl = StorageUtils.get_tableId_from_rowUuid ruid ∧
          row = StorageUtils.get_rowId_from_rowUuid ruid.
Proof.
  intros Hs H. unfold steamGC in H.
  destruct (Nat.eqb (thread_id t) me); [| discriminate].
  destruct (committedTxn t) as [| u q] eqn:Eq.
  { injection H as <-. left. split; [done |]. by intros v ?%not_elem_of_nil. }
  rewrite <- Eq in *. clear Eq u q.
  pose proof (steam_collect_spec (txn_start_time g) (committedTxn t) ∅ Hs) as [Hq Hcl].
  destruct (steam_collect _ _ _) as [cl rest]. simpl in *.
  assert (∀ tbl r, ¬ in_cleanables ∅ tbl r) as Hemp.
  { intros ? ? (s & Hl & _). by rewrite lookup_empty in Hl. }
  destruct (decide (cl = ∅)) as [-> | Hne].
  - injection H as <-. left. split; [done |]. intros u Hu Hc.
    destruct (undoLogVector u) as [| row rows] eqn:E; [done |].
    exfalso. eapply (Hemp _ _), Hcl. right. exists u, row. rewrite E. repeat split; [done | done | left].
  - apply rbind_Ok_inv in H as (st' & Hst & [= <-]). right. exists cl. simpl.
    split; [done |]. split; [done |]. intros tbl r. rewrite Hcl.
    specialize (Hemp tbl r). naive_solver.
Qed.

Definition ex_txn (start : Z) (rows : list Z) : Txn :=
  mk_Txn (mk_TxnTs (Z.shiftl start 27) start) false 0 0 0 0 start rows.
Definition ex_table : TxnTable := mk_Table 0 3 UINT64_MAX 9 [ex_txn 2 [5; 6]; ex_txn 9 [7]].

Lemma steamGC_cleans_exactly_the_visible_witness :
  let r := (mk_Table 0 3 UINT64_MAX 9 [ex_txn 9 [7]], 1) in
  (r = (ex_table, 0) ∧
     ∀ u, u ∈ committedTxn ex_table → commit_ts u <= 4 → undoLogVector u = []) ∨
  ∃ cl, Ok 1 = Ok r.2 ∧
      committedTxn r.1 = List.filter (λ u, negb (commit_ts u <=? 4)) (committedTxn ex_table) ∧
      ∀ tbl row, in_cleanables cl tbl row ↔
        ∃ u ruid, u ∈ committedTxn ex_table ∧ commit_ts u <= 4 ∧ ruid ∈ undoLogVector u ∧
          tbl = StorageUtils.get_tableId_from_rowUuid ruid ∧
          row = StorageUtils.get_rowId_from_rowUuid ruid.
Proof.
  simpl. apply (steamGC_cleans_exactly_the_visible (λ _ _ n, Ok (n + 1)) 3 ex_table
           (mk_TxnTs (Z.shiftl 4 27) 4) 0 (mk_Table 0 3 UINT64_MAX 9 [ex_txn 9 [7]], 1)).
  - repeat constructor. simpl. lia.
  - vm_compute. reflexivity.
Defined.

End Txns.
