(* ===== verification/TxnSystem.v ===== *)
(** * TxnSystem: the interleaving model of the transaction registry.

    Every worker owns a transaction table; [beginTxn] is two atomic actions (the
    [fetch_add] on the generator, then the store to [min_active]), so the model steps
    through them separately and lets any other worker, a snapshot or a steam
    collection run in between. *)

From S2P Require Import Prelude Common StorageUtils Transaction.
From Stdlib Require Import ZArith Lia Bool.
From stdpp Require Import base numbers list gmap sets sorting.

Local Open Scope Z_scope.
Local Open Scope res_scope.

Module TxnSystem.
Import Txns.

(** Where the owner of a table is. *)
Inductive phase : Type :=
  | Idle                    (* between transactions *)
  | Drawn (t : Txn)         (* in beginTxn, before the store to min_active *)
  | Running (t : Txn).      (* beginTxn returned, endTxn not called *)

Record sys : Type := mk_sys { mgr : TransactionManager; ph : gmap nat phase }.

Definition init : sys := mk_sys TransactionManager_new ∅.

Section system.
Context (gc : GcTypes).

(** Table [p] is owned by the thread of the same number.  The generator is kept below
    its wrap-around. *)
Inductive step : sys → sys → Prop :=
  | step_register m f p w :
      tables m !! p = None → ph (mk_sys m f) !! p = None →
      step (mk_sys m f) (mk_sys (construct_table m p w p) (<[p := Idle]> f))
  | step_deregister m m' f p :
      f !! p = Some Idle → destruct_table m p p = Ok m' →
      step (mk_sys m f) (mk_sys m' (delete p f))
  | step_draw m m' f p w pid ro t :
      f !! p = Some Idle → gen m < UINT64_MAX - 1 →
      getTxn gc m w pid ro = (t, m') →
      step (mk_sys m f) (mk_sys m' (<[p := Drawn t]> f))
  | step_publish m m' f p t :
      f !! p = Some (Drawn t) → publish m p p t = Ok m' →
      step (mk_sys m f) (mk_sys m' (<[p := Running t]> f))
  | step_end m m' f p t t' :
      f !! p = Some (Running t) → txnTs t' = txnTs t →
      endTxn_at gc m p p t' = Ok m' →
      step (mk_sys m f) (mk_sys m' (<[p := Idle]> f))
  | step_snapshot m m' f :
      gen m < UINT64_MAX - 1 → snapshot (λ _ u, Ok u) m tt = Ok (m', tt) →
      step (mk_sys m f) (mk_sys m' f)
  | step_steam m f p tbl tbl' g :
      tables m !! p = Some tbl → steamGC (λ _ _ u, Ok u) p tbl g tt = Ok (tbl', tt) →
      step (mk_sys m f) (mk_sys (with_table m p tbl') f).

(** The transaction a worker has drawn a timestamp for. *)
Definition txn_of (x : phase) : option Txn :=
  match x with Idle => None | Drawn t | Running t => Some t end.

Definition published (x : phase) : Z :=
  match x with Running t => txn_start_time (txnTs t) | _ => UINT64_MAX end.

Definition start (t : Txn) : Z := txn_start_time (txnTs t).

(** A transaction as [getTxn] builds it from the timestamp [x]. *)
Definition txn_ok (g : Z) (t : Txn) : Prop :=
  1 <= start t < g ∧ txn_id (txnTs t) = u64 (Z.shiftl (start t) baseShift) ∧
  delta_version t = get_delta_ver gc (start t).

Record inv (s : sys) : Prop := {
  inv_gen : 1 <= gen (mgr s) < UINT64_MAX;
  inv_dom : ∀ p, is_Some (ph s !! p) ↔ is_Some (tables (mgr s) !! p);
  inv_registry : ∀ p, p ∈ registry (mgr s) ↔ is_Some (tables (mgr s) !! p);
  inv_min : ∀ p x tbl, ph s !! p = Some x → tables (mgr s) !! p = Some tbl →
    min_active tbl = published x ∧ 0 <= max_last_alive tbl < gen (mgr s) ∧
    (∀ t, txn_of x = Some t → max_last_alive tbl < start t);
  inv_txn : ∀ p x t, ph s !! p = Some x → txn_of x = Some t → txn_ok (gen (mgr s)) t;
  inv_distinct : ∀ p q x y t u, p ≠ q → ph s !! p = Some x → ph s !! q = Some y →
    txn_of x = Some t → txn_of y = Some u → start t ≠ start u
}.

Lemma txn_init_inv : inv init.
Proof using Type.
  split; simpl; unfold txnPairGen_init; try (unfold UINT64_MAX; lia).
  - intros p. by rewrite !lookup_empty.
  - intros p. rewrite lookup_empty. split; [by intros ?%not_elem_of_nil | by intros [? ?]].
  - intros p x tbl H. by rewrite lookup_empty in H.
  - intros p x t H. by rewrite lookup_empty in H.
  - intros p q x y t u _ H. by rewrite lookup_empty in H.
Qed.

(** Table [p] and its phase change, nothing else of the system but the generator,
    which may only grow. *)
Lemma update_inv m m' f p x tbl :
  inv (mk_sys m f) → is_Some (f !! p) →
  gen m <= gen m' < UINT64_MAX →
  registry m' = registry m → tables m' = <[p := tbl]> (tables m) →
  min_active tbl = published x → 0 <= max_last_alive tbl < gen m' →
  (∀ t, txn_of x = Some t → max_last_alive tbl < start t ∧ txn_ok (gen m') t ∧
     ∀ q y u, q ≠ p → f !! q = Some y → txn_of y = Some u → start t ≠ start u) →
  inv (mk_sys m' (<[p := x]> f)).
Proof using Type.
  intros H Hp Hg Hr Ht Hmin Hlast Hx. destruct H as [H1 H2 H3 H4 H5 H6]. simpl in *.
  assert (is_Some (tables m !! p)) as Hp' by (by apply H2).
  assert (∀ q, is_Some (<[p := tbl]> (tables m) !! q) ↔ is_Some (tables m !! q)) as Hdom.
  { intros q. destruct (decide (p = q)) as [<- | Hne]; [| by rewrite lookup_insert_ne].
    rewrite lookup_insert_eq. split; [done | eauto]. }
  split; simpl; rewrite ?Hr, ?Ht.
  - lia.
  - intros q. rewrite Hdom, <- H2. destruct (decide (p = q)) as [<- | Hne];
      [rewrite lookup_insert_eq; split; [done | eauto] | by rewrite lookup_insert_ne].
  - intros q. by rewrite Hdom.
  - intros q y tb [[<- <-] | [Hne Hq]]%lookup_insert_Some.
    + rewrite lookup_insert_eq. intros [= <-]. split; [done |]. split; [done |].
      intros t E. by apply Hx.
    + rewrite lookup_insert_ne by done. intros Hq'.
      destruct (H4 q y tb Hq Hq') as (? & ? & ?). split; [done |]. split; [lia | done].
  - intros q y t [[<- <-] | [Hne Hq]]%lookup_insert_Some E; [by apply Hx |].
    destruct (H5 q y t Hq E) as (? & ? & ?). split; [lia | done].
  - intros q r y z t u Hne [[<- <-] | [N1 Hq]]%lookup_insert_Some
      [[<- <-] | [N2 Hr']]%lookup_insert_Some E1 E2; [done | | |].
    + destruct (Hx t E1) as (_ & _ & Hd). by apply (Hd r z u).
    + destruct (Hx u E2) as (_ & _ & Hd). intros E. symmetry in E. revert E. by apply (Hd q y t).
    + by apply (H6 q r y z).
Qed.

Lemma draw_inv m m' f p w pid ro t :
  inv (mk_sys m f) → f !! p = Some Idle → gen m < UINT64_MAX - 1 →
  getTxn gc m w pid ro = (t, m') → inv (mk_sys m' (<[p := Drawn t]> f)).
Proof using Type.
  intros H Hp Hg Ht. pose proof (inv_gen _ H) as Hgen. simpl in Hgen.
  unfold getTxn, get_txnID_startTime_Pair in Ht. injection Ht as <- <-.
  destruct (proj1 (inv_dom _ H p) ltac:(simpl; rewrite Hp; eauto)) as [tbl Htbl]. simpl in Htbl.
  destruct (inv_min _ H p Idle tbl Hp Htbl) as (Hm & Hl & _). simpl in *.
  unfold UINT64_MAX in *. eapply (update_inv m _ f p _ tbl); simpl; eauto.
  - unfold UINT64_MAX. rewrite wrap_id by lia. lia.
  - by rewrite insert_id.
  - rewrite wrap_id by lia. lia.
  - rewrite (wrap_id 64 (gen m + 1)) by lia. intros ? [= <-]. unfold txn_ok, start. simpl. split; [lia |]. split.
    + split; [lia | done].
    + intros q y u Hne Hq Hu. destruct (inv_txn _ H q y u Hq Hu) as ((? & ?) & _).
      simpl in *. unfold start in *. lia.
Qed.

Lemma publish_inv m m' f p t :
  inv (mk_sys m f) → f !! p = Some (Drawn t) → publish m p p t = Ok m' →
  inv (mk_sys m' (<[p := Running t]> f)).
Proof using Type.
  intros H Hp Hpub. unfold publish in Hpub.
  apply rbind_Ok_inv in Hpub as (tbl & Htbl%of_option_Ok & Hpub).
  destruct (Nat.eqb _ _); [| discriminate]. injection Hpub as <-.
  destruct (inv_min _ H p _ tbl Hp Htbl) as (Hm & Hl & Hs). simpl in *.
  eapply (update_inv m _ f p); simpl; eauto.
  - pose proof (inv_gen _ H). simpl in *. lia.
  - intros ? [= <-]. split; [by apply Hs |]. split; [by apply (inv_txn _ H p (Drawn t)) |].
    intros q y u Hne Hq Hu. by apply (inv_distinct _ H p q (Drawn t) y).
Qed.

Lemma end_inv m m' f p t t' :
  inv (mk_sys m f) → f !! p = Some (Running t) → txnTs t' = txnTs t →
  endTxn_at gc m p p t' = Ok m' → inv (mk_sys m' (<[p := Idle]> f)).
Proof using Type.
  intros H Hp Hts Hend. unfold endTxn_at in Hend.
  apply rbind_Ok_inv in Hend as (tbl & Htbl%of_option_Ok & Hend).
  apply rbind_Ok_inv in Hend as (tbl' & Hend & [= <-]). unfold endTxn in Hend.
  destruct (Nat.eqb _ _); [| discriminate]. injection Hend as <-.
  destruct (inv_min _ H p _ tbl Hp Htbl) as (Hm & Hl & Hs). simpl in *.
  destruct (inv_txn _ H p _ t Hp eq_refl) as ((? & ?) & _). simpl in *.
  eapply (update_inv m _ f p); simpl; eauto; try done.
  - pose proof (inv_gen _ H). simpl in *. lia.
  - pose proof (inv_gen _ H). simpl in *. rewrite Hts. unfold start in *.
    destruct (Z.ltb_spec (max_last_alive tbl) (txn_start_time (txnTs t))); lia.
Qed.

Lemma register_inv m f p w :
  inv (mk_sys m f) → tables m !! p = None → f !! p = None →
  inv (mk_sys (construct_table m p w p) (<[p := Idle]> f)).
Proof using Type.
  intros H Ht Hf. destruct H as [H1 H2 H3 H4 H5 H6]. simpl in *.
  split; simpl.
  - done.
  - intros q. destruct (decide (p = q)) as [<- | Hne].
    + rewrite !lookup_insert_eq. naive_solver.
    + by rewrite !lookup_insert_ne.
  - intros q. rewrite elem_of_app, list_elem_of_singleton, H3.
    destruct (decide (p = q)) as [<- | Hne].
    + rewrite lookup_insert_eq. naive_solver.
    + rewrite lookup_insert_ne by done. naive_solver.
  - intros q y tb [[<- <-] | [Hne Hq]]%lookup_insert_Some.
    + rewrite lookup_insert_eq. intros [= <-]. simpl. split; [done |]. split; [lia | done].
    + rewrite lookup_insert_ne by done. by apply (H4 q y).
  - intros q y t [[<- <-] | [Hne Hq]]%lookup_insert_Some; [done | by apply (H5 q y)].
  - intros q r y z t u Hne [[<- <-] | [N1 Hq]]%lookup_insert_Some
      [[<- <-] | [N2 Hr']]%lookup_insert_Some; [done | done | done | by apply (H6 q r y z)].
Qed.

Lemma deregister_inv m m' f p :
  inv (mk_sys m f) → f !! p = Some Idle → destruct_table m p p = Ok m' →
  inv (mk_sys m' (delete p f)).
Proof using Type.
  intros H Hp Hd. unfold destruct_table in Hd.
  apply rbind_Ok_inv in Hd as (tbl & Htbl%of_option_Ok & Hd).
  destruct (Nat.eqb _ _); [| discriminate]. injection Hd as <-.
  destruct H as [H1 H2 H3 H4 H5 H6]. simpl in *. split; simpl.
  - done.
  - intros q. destruct (decide (p = q)) as [<- | Hne].
    + by rewrite !lookup_delete_eq.
    + by rewrite !lookup_delete_ne.
  - intros q. rewrite list_elem_of_In, filter_In, <- list_elem_of_In, H3, negb_true_iff, Nat.eqb_neq.
    destruct (decide (p = q)) as [<- | Hne].
    + rewrite lookup_delete_eq. split; [by intros [_ ?] | by intros [? ?]].
    + rewrite lookup_delete_ne by done. naive_solver.
  - intros q y tb [_ Hq]%lookup_delete_Some [_ Hq']%lookup_delete_Some. by apply (H4 q y).
  - intros q y t [_ Hq]%lookup_delete_Some. by apply (H5 q y).
  - intros q r y z t u Hne [_ Hq]%lookup_delete_Some [_ Hr]%lookup_delete_Some.
    by apply (H6 q r y z).
Qed.

Lemma steam_table me tbl g tbl' :
  steamGC (λ _ _ u, Ok u) me tbl g tt = Ok (tbl', tt) →
  min_active tbl' = min_active tbl ∧ max_last_alive tbl' = max_last_alive tbl.
Proof using Type.
  unfold steamGC. intros H. destruct (Nat.eqb _ _); [| discriminate].
  destruct (committedTxn tbl); [by injection H as <- |].
  destruct (steam_collect _ _ _) as [cl rest].
  destruct (decide _); [by injection H as <- |]. by injection H as <-.
Qed.

Lemma txn_step_inv s s' : inv s → step s s' → inv s'.
Proof using Type.
  intros H Hs. destruct Hs as [m f p w Ht Hf | m m' f p Hf Hd | m m' f p w pid ro t Hf Hg Ht
    | m m' f p t Hf Hp | m m' f p t t' Hf Ht He | m m' f Hg Hs | m f p tbl tbl' g Ht Hs].
  - by apply register_inv.
  - by eapply deregister_inv.
  - by eapply draw_inv.
  - by eapply publish_inv.
  - by eapply end_inv.
  - pose proof (inv_gen _ H) as Hgen. unfold snapshot in Hs. simpl in *. injection Hs as <-.
    destruct H as [H1 H2 H3 H4 H5 H6]. simpl in *. unfold UINT64_MAX in *.
    split; simpl; rewrite ?(wrap_id 64 (gen m + 1)) by lia; try done; try (unfold UINT64_MAX; lia).
    + intros q y tb Hq Hq'. destruct (H4 q y tb Hq Hq') as (? & ? & ?). split; [done |].
      split; [lia | done].
    + intros q y t Hq E. destruct (H5 q y t Hq E) as (? & ? & ?). split; [lia | done].
  - destruct (steam_table _ _ _ _ Hs) as [Em El].
    destruct (proj2 (inv_dom _ H p) ltac:(simpl; rewrite Ht; eauto)) as [x Hx]. simpl in Hx.
    destruct (inv_min _ H p x tbl Hx Ht) as (Hm & Hl & Hst). simpl in *.
    rewrite <- (insert_id f p x) by done.
    eapply (update_inv m _ f p x tbl'); simpl; eauto.
    + pose proof (inv_gen _ H). simpl in *. lia.
    + congruence.
    + by rewrite El.
    + intros t E. rewrite El. split; [by apply Hst |]. split; [by apply (inv_txn _ H p x) |].
      intros q y u Hne Hq Hu. by apply (inv_distinct _ H p q x y).
Qed.

Lemma txn_reachable_inv s : rtc step init s → inv s.
Proof using Type.
  intros H. apply (rtc_ind_r (λ s, inv s) init txn_init_inv) in H; [done |].
  intros. by eapply txn_step_inv.
Qed.

(** Every registered pointer can be dereferenced. *)
Lemma registered_ok s : inv s → ∃ l, registered (mgr s) = Ok l ∧
  ∀ tbl, tbl ∈ l ↔ ∃ p, tables (mgr s) !! p = Some tbl.
Proof using Type.
  intros H. unfold registered.
  assert (∀ ps, (∀ p, p ∈ ps → is_Some (tables (mgr s) !! p)) →
    ∃ l, rmapM (λ p, of_option Undefined (tables (mgr s) !! p)) ps = Ok l ∧
      ∀ tbl, tbl ∈ l ↔ ∃ p, p ∈ ps ∧ tables (mgr s) !! p = Some tbl) as Hgen.
  { induction ps as [| p ps IH]; intros Hps.
    - exists []. split; [done |]. intros. split; [by intros ?%not_elem_of_nil |].
      by intros (? & ?%not_elem_of_nil & _).
    - destruct (Hps p ltac:(left)) as [tbl Htbl].
      destruct IH as (l & Hl & Hin). { intros. apply Hps. by right. }
      exists (tbl :: l). simpl. rewrite Htbl. simpl. rewrite Hl. split; [done |].
      intros tb. rewrite elem_of_cons, Hin. setoid_rewrite elem_of_cons.
      split; [intros [-> | (q & ? & ?)]; eauto |].
      intros (q & [-> | ?] & ?); [left; congruence | eauto]. }
  destruct (Hgen (registry (mgr s))) as (l & Hl & Hin). { intros p Hp. by apply (inv_registry _ H). }
  exists l. split; [done |]. intros tbl. rewrite Hin. split; [naive_solver |].
  intros (p & Hp). exists p. split; [| done]. apply (inv_registry _ H). eauto.
Qed.

End system.

(** The scan returns; its result bounds every running transaction and is attained. *)
Lemma min_active_ok (gc : GcTypes) (s : sys) :
  rtc (step gc) init s →
  ∃ m, get_min_activeTxn (mgr s) = Ok m ∧
    (∀ p t, ph s !! p = Some (Running t) → m <= start t < UINT64_MAX) ∧
    (m = UINT64_MAX ∨ ∃ p t, ph s !! p = Some (Running t) ∧ start t = m).
Proof.
  intros H%txn_reachable_inv. destruct (registered_ok gc s H) as (l & Hl & Hin).
  pose proof (min_of_spec UINT64_MAX (get_min_active_tx <$> l)) as (_ & Hle & Hone).
  exists (min_of UINT64_MAX (get_min_active_tx <$> l)).
  unfold get_min_activeTxn. rewrite Hl. split; [done |]. split.
  - intros p t Hp. destruct (proj1 (inv_dom _ _ H p) ltac:(rewrite Hp; eauto)) as [tbl Htbl].
    destruct (inv_min _ _ H p _ tbl Hp Htbl) as (Hm & _).
    destruct (inv_txn _ _ H p _ t Hp eq_refl) as ((_ & Hg) & _).
    pose proof (inv_gen _ _ H). split; [| lia]. apply Hle.
    apply list_elem_of_fmap. exists tbl. split; [symmetry; exact Hm | apply Hin; eauto].
  - destruct Hone as [-> | (tbl & E & (p & Hp)%Hin)%list_elem_of_fmap]; [by left |].
    destruct (proj2 (inv_dom _ _ H p) ltac:(rewrite Hp; eauto)) as [x Hx].
    destruct (inv_min _ _ H p x tbl Hx Hp) as (Hm & _).
    unfold get_min_active_tx in E. rewrite Hm in E.
    destruct x as [| t | t]; simpl in E; [by left | by left | right; eauto].
Qed.

Lemma min_active_bounds (gc : GcTypes) (s : sys) (m : Z) :
  rtc (step gc) init s → get_min_activeTxn (mgr s) = Ok m →
  ∀ p t, ph s !! p = Some (Running t) → m <= start t < UINT64_MAX.
Proof.
  intros H Hm. destruct (min_active_ok gc s H) as (m' & Hm' & Hb & _).
  rewrite Hm in Hm'. injection Hm' as <-. exact Hb.
Qed.

(** ** The scan among the other threads *)

Section scanning.
Context (gc : GcTypes).

(** The scanning thread reads one table; or another thread takes a step, which invalidates the
    scan's iterators if it changes the registry. *)
Inductive scan_step : sys * scan → sys * scan → Prop :=
  | scan_other s s' sc : step gc s s' →
      scan_step (s, sc) (s', mk_scan (sc_todo sc) (sc_low sc)
        (sc_valid sc && bool_decide (registry (mgr s') = registry (mgr s))))
  | scan_read s sc sc' : sc_todo sc ≠ [] → scan_next (mgr s) sc = Ok sc' → scan_step (s, sc) (s, sc').

(** A step leaves a transaction running, or every transaction its worker has from then on is
    a later one. *)
Lemma step_running s s' p t : inv gc s → step gc s s' → ph s !! p = Some (Running t) →
  gen (mgr s) <= gen (mgr s') ∧ (ph s' !! p = Some (Running t) ∨ ph s' !! p = Some Idle).
Proof.
  intros H Hs Hp. pose proof (inv_gen _ _ H) as Hgen. unfold UINT64_MAX in *.
  destruct Hs as [m f q w Ht Hf | m m' f q Hf Hd | m m' f q w pid ro u Hf Hg Ht
    | m m' f q u Hf Hq | m m' f q u u' Hf Ht He | m m' f Hg Hs | m f q tbl tbl' g Ht Hs]; simpl in *.
  - split; [lia |]. left. rewrite lookup_insert_ne; [done |]. congruence.
  - split; [unfold destruct_table in Hd; res_inv; simpl; lia |]. left. rewrite lookup_delete_ne; [done |]. congruence.
  - unfold getTxn, get_txnID_startTime_Pair in Ht. injection Ht as <- <-. simpl. rewrite wrap_id by lia.
    split; [lia |]. left. rewrite lookup_insert_ne; [done |]. congruence.
  - split; [unfold publish in Hq; res_inv; simpl; lia |]. left. rewrite lookup_insert_ne; [done |]. congruence.
  - split; [unfold endTxn_at in He; res_inv; simpl; lia |].
    destruct (decide (q = p)) as [-> | Hne]; [right; apply lookup_insert_eq | left; by rewrite lookup_insert_ne].
  - unfold snapshot in Hs. simpl in Hs. injection Hs as <-. simpl. rewrite wrap_id by lia. split; [lia | by left].
  - split; [lia | by left].
Qed.

(** No worker has a transaction that started before [g]. *)
Definition all_later (g : Z) (s : sys) (p : nat) : Prop :=
  ∀ x u, ph s !! p = Some x → txn_of x = Some u → g <= start u.

Lemma step_later g s s' p : inv gc s → g <= gen (mgr s) → step gc s s' → all_later g s p →
  g <= gen (mgr s') ∧ all_later g s' p.
Proof.
  intros H Hg Hs HL. pose proof (inv_gen _ _ H) as Hgen. unfold UINT64_MAX in *.
  assert (∀ m f m' q y, s = mk_sys m f → (∀ u, txn_of y = Some u → q = p → g <= start u) →
    all_later g (mk_sys m' (<[q := y]> f)) p) as Hins.
  { intros m f m' q y -> Hy x u. simpl. destruct (decide (q = p)) as [-> | Hne].
    - rewrite lookup_insert_eq. intros [= <-] Hu. by apply Hy.
    - rewrite lookup_insert_ne by done. apply HL. }
  destruct Hs as [m f q w Ht Hf | m m' f q Hf Hd | m m' f q w pid ro u Hf Hgn Ht
    | m m' f q u Hf Hq | m m' f q u u' Hf Ht He | m m' f Hgn Hs | m f q tbl tbl' g' Ht Hs]; simpl in *.
  - split; [done |]. by eapply Hins.
  - split; [unfold destruct_table in Hd; res_inv; simpl; lia |].
    intros x u. simpl. intros [_ Hx]%lookup_delete_Some. by apply HL.
  - unfold getTxn, get_txnID_startTime_Pair in Ht. injection Ht as <- <-. simpl. rewrite wrap_id by lia.
    split; [lia |]. eapply Hins; [done |]. intros u [= <-] _. done.
  - split; [unfold publish in Hq; res_inv; simpl; lia |]. eapply Hins; [done |]. intros v [= <-] ->. by apply (HL (Drawn u)).
  - split; [unfold endTxn_at in He; res_inv; simpl; lia |]. by eapply Hins.
  - unfold snapshot in Hs. simpl in Hs. injection Hs as <-. simpl. rewrite wrap_id by lia. split; [lia | done].
  - by split.
Qed.

(** What holds of a scan that began in [s0]: what ran then is still to be read, or bounded, or
    over; the least value so far was a running transaction's when it was read. *)
Record scan_inv (s0 s : sys) (sc : scan) : Prop := {
  si_sys : inv gc s;
  si_from : rtc (step gc) s0 s;
  si_gen : gen (mgr s0) <= gen (mgr s);
  si_todo : sc_valid sc = true → ∀ p, p ∈ sc_todo sc → p ∈ registry (mgr s);
  si_running p t : ph s0 !! p = Some (Running t) →
    (ph s !! p = Some (Running t) ∧ (p ∈ sc_todo sc ∨ sc_low sc <= start t)) ∨ all_later (gen (mgr s0)) s p;
  si_low : sc_low sc = UINT64_MAX ∨ ∃ s1 p t, rtc (step gc) s0 s1 ∧ rtc (step gc) s1 s ∧
    ph s1 !! p = Some (Running t) ∧ start t = sc_low sc
}.

Lemma scan_begin_inv s : inv gc s → scan_inv s s (scan_begin (mgr s)).
Proof.
  intros H. split; try done; [| by left]. intros p t Hp. left. split; [done |]. left.
  apply (inv_registry _ _ H), (inv_dom _ _ H). by rewrite Hp.
Qed.

Lemma scan_read_inv s0 s sc sc' : scan_inv s0 s sc → sc_todo sc ≠ [] → scan_next (mgr s) sc = Ok sc' → scan_inv s0 s sc'.
Proof.
  intros [H1 H2 H3 H4 H5 H6] Hne E. unfold scan_next in E. destruct (sc_todo sc) as [| q rest] eqn:Et; [done |].
  destruct (sc_valid sc) eqn:Ev; [| done]. destruct (tables (mgr s) !! q) as [tbl |] eqn:Eq; [| done].
  injection E as <-. destruct (proj2 (inv_dom _ _ H1 q) ltac:(by rewrite Eq)) as [y Hy].
  destruct (inv_min _ _ H1 q y tbl Hy Eq) as (Hm & _). unfold get_min_active_tx. rewrite Hm.
  split; simpl; try done.
  - intros _ p Hp. apply H4; [done |]. by right.
  - intros p t Hp. destruct (H5 p t Hp) as [[Hr Hor] | Hl]; [left | by right]. split; [done |].
    assert (sc_low sc <= start t → (if published y <? sc_low sc then published y else sc_low sc) <= start t) as Hkeep
      by (destruct (Z.ltb_spec (published y) (sc_low sc)); lia).
    destruct Hor as [[-> | Hin]%elem_of_cons | Hle]; [right | by left | by right; apply Hkeep].
    rewrite Hr in Hy. injection Hy as <-. change (published (Running t)) with (start t).
    destruct (Z.ltb_spec (start t) (sc_low sc)); lia.
  - destruct (Z.ltb_spec (published y) (sc_low sc)); [| done]. destruct y as [| u | u]; try by left.
    right. exists s, q, u. done.
Qed.

Lemma scan_other_inv s0 s s' sc : scan_inv s0 s sc → step gc s s' →
  scan_inv s0 s' (mk_scan (sc_todo sc) (sc_low sc) (sc_valid sc && bool_decide (registry (mgr s') = registry (mgr s)))).
Proof.
  intros [H1 H2 H3 H4 H5 H6] Hs.
  assert (gen (mgr s0) <= gen (mgr s')) as Hg.
  { destruct (step_later (gen (mgr s0)) (mk_sys (mgr s) (ph s)) s' (fresh (dom (ph s)))) as [Hg _]; [by destruct s.. | | done].
    intros x u Hx. exfalso. apply (is_fresh (dom (ph s))). by apply (elem_of_dom_2 _ _ _ Hx). }
  split; simpl; [by eapply txn_step_inv | by eapply rtc_r | done | | |].
  - intros [Hv Er%bool_decide_eq_true]%andb_true_iff. rewrite Er. by apply H4.
  - intros p t Hp. destruct (H5 p t Hp) as [[Hr Hor] | Hl]; [| right; by eapply step_later].
    destruct (step_running _ _ _ _ H1 Hs Hr) as [_ [Hr' | Hi]]; [left; by split | right].
    intros x u Hx Hu. rewrite Hi in Hx. by injection Hx as <-.
  - destruct H6 as [? | (s1 & p & t & A & B & C)]; [by left | right]. exists s1, p, t. split; [done |]. split; [by eapply rtc_r | done].
Qed.

Lemma scan_run_inv s0 x : rtc scan_step (s0, scan_begin (mgr s0)) x → inv gc s0 → scan_inv s0 x.1 x.2.
Proof.
  intros Hrun H. apply (rtc_ind_r (λ x, scan_inv s0 x.1 x.2) (s0, scan_begin (mgr s0))) in Hrun; [done | by apply scan_begin_inv |].
  intros y z _ [s s' sc Hs | s sc sc' Hne E]; intros I; [by apply scan_other_inv | by eapply scan_read_inv].
Qed.
End scanning.


(** In every reachable state, the transactions that are open in different workers
    have different start times, all smaller than any timestamp still to be drawn, each
    later than every transaction its worker has ended, and each carries the delta
    partition its start time selects. *)
Theorem open_transactions_are_ordered (gc : GcTypes) (s : sys) (p q : nat) (x y : phase)
    (t u : Txn) :
  rtc (step gc) init s → p ≠ q → ph s !! p = Some x → ph s !! q = Some y →
  txn_of x = Some t → txn_of y = Some u →
  start t ≠ start u ∧ start t < gen (mgr s) ∧
  delta_version t = get_delta_ver gc (start t) ∧
  0 <= delta_version t < num_delta_storages gc ∧
  ∃ tbl, tables (mgr s) !! p = Some tbl ∧ max_last_alive tbl < start t.
Proof.
  intros H%txn_reachable_inv Hne Hp Hq Et Eu.
  destruct (inv_txn _ _ H p x t Hp Et) as ((? & ?) & _ & Hd).
  split; [by apply (inv_distinct _ _ H p q x y) |]. split; [done |]. split; [done |].
  split; [rewrite Hd; apply get_delta_ver_range; lia |].
  destruct (proj1 (inv_dom _ _ H p) ltac:(rewrite Hp; eauto)) as [tbl Htbl].
  exists tbl. split; [done |]. by apply (inv_min _ _ H p x tbl Hp Htbl).
Qed.

(** Two workers register, both draw, one publishes. *)
Definition ex_m1 : TransactionManager := construct_table TransactionManager_new 1 0 1.
Definition ex_m2 : TransactionManager := construct_table ex_m1 2 1 2.
Definition ex_m3 : TransactionManager := (getTxn OneShot ex_m2 0 0 false).2.
Definition ex_m4 : TransactionManager := (getTxn OneShot ex_m3 1 0 false).2.
Definition ex_t1 : Txn := (getTxn OneShot ex_m2 0 0 false).1.
Definition ex_t2 : Txn := (getTxn OneShot ex_m3 1 0 false).1.
Definition ex_m5 : TransactionManager :=
  with_table ex_m4 2 (mk_Table 1 2 2 0 []).
Definition ex_ph : gmap nat phase := <[2%nat := Running ex_t2]> (<[2%nat := Drawn ex_t2]>
  (<[1%nat := Drawn ex_t1]> (<[2%nat := Idle]> (<[1%nat := Idle]> ∅)))).

Lemma ex_txn_reachable : rtc (step OneShot) init (mk_sys ex_m5 ex_ph).
Proof.
  eapply rtc_l; [apply (step_register _ TransactionManager_new ∅ 1 0); reflexivity |].
  eapply rtc_l; [apply (step_register _ _ _ 2 1); reflexivity |].
  eapply rtc_l; [apply (step_draw _ _ ex_m3 _ 1 0 0 false ex_t1); reflexivity |].
  eapply rtc_l; [apply (step_draw _ _ ex_m4 _ 2 1 0 false ex_t2); reflexivity |].
  eapply rtc_l; [apply (step_publish _ _ ex_m5 _ 2 ex_t2); vm_compute; reflexivity |].
  apply rtc_refl.
Qed.

(** A scan that reads the table of worker 1, lets it publish, and reads that of worker 2:
    the bound holds for the transaction of worker 2, which ran throughout. *)
Definition ex_m6 : TransactionManager := with_table ex_m5 1 (mk_Table 0 1 1 0 []).
Definition ex_end : sys := mk_sys ex_m6 (<[1%nat := Running ex_t1]> ex_ph).

Lemma ex_scan_run : rtc (scan_step OneShot) (mk_sys ex_m5 ex_ph, scan_begin ex_m5) (ex_end, mk_scan [] 2 true).
Proof.
  eapply rtc_l; [apply (scan_read _ (mk_sys ex_m5 ex_ph) _ (mk_scan [2%nat] UINT64_MAX true)); [done | vm_compute; reflexivity] |].
  eapply rtc_l; [apply (scan_other _ _ ex_end); apply (step_publish _ _ _ _ 1 ex_t1); vm_compute; reflexivity |].
  eapply rtc_l; [apply (scan_read _ ex_end _ (mk_scan [] 2 true)); [done | vm_compute; reflexivity] |].
  apply rtc_refl.
Qed.


Lemma open_transactions_are_ordered_witness :
  start ex_t1 ≠ start ex_t2 ∧ start ex_t1 < gen ex_m5 ∧
  delta_version ex_t1 = get_delta_ver OneShot (start ex_t1) ∧
  0 <= delta_version ex_t1 < num_delta_storages OneShot ∧
  ∃ tbl, tables ex_m5 !! 1%nat = Some tbl ∧ max_last_alive tbl < start ex_t1.
Proof.
  apply (open_transactions_are_ordered OneShot (mk_sys ex_m5 ex_ph) 1 2
           (Drawn ex_t1) (Running ex_t2)); try reflexivity; [exact ex_txn_reachable | discriminate].
Defined.

(** The window of [beginTxn]: a transaction that drew its timestamp but has not stored it
    is not seen by the scan, which reports the younger transaction as the oldest. *)
Example scan_misses_a_transaction_in_beginTxn :
  get_min_activeTxn ex_m5 = Ok 2 ∧ ex_ph !! 1%nat = Some (Drawn ex_t1) ∧ start ex_t1 = 1.
Proof. repeat split; vm_compute; reflexivity. Qed.

End TxnSystem.
