(* ===== verification/DeltaPtr.v ===== *)
(** * DeltaPtr: tagged pointers into the delta stores
    ([oltp/storage/multi-version/delta-memory-ptr.hpp]).

    A [DeltaDataPtr] is the 64-bit word
    [ delta:4 | partition:4 | tag:20 | offset:36 ].  Dereferencing checks the tag
    against the current tag of the delta store and adds the offset to the base of
    the delta's partition. *)

From S2P Require Import Prelude Common.
From Stdlib Require Import ZArith Lia Bool.
From stdpp Require Import base numbers list gmap.

Local Open Scope Z_scope.
Local Open Scope res_scope.

Module DeltaDataPtr.

Definition get_delta_idx (_val : Z) : Z := u8 (Z.shiftr _val 60).
Definition get_partition_idx (_val : Z) : Z := Z.land (u8 (Z.shiftr _val 56)) 0x0f.
Definition get_tag (_val : Z) : Z := Z.land (u32 (Z.shiftr _val 36)) 0x000fffff.
Definition get_offset (_val : Z) : Z := Z.land _val 0x0000000fffffffff.
Definition get_delta_idx_pid_pair (_val : Z) : Z := u8 (Z.shiftr _val 56).

Definition create_delta_idx_pid_pair (delta_id : delta_id_t) (pid : partition_id_t) : Z :=
  u8 (Z.lor (Z.shiftl (Z.land delta_id 0x0f) 4) (Z.land pid 0x0f)).

(** The class's static maps: the base address of every (delta, partition) and the
    current tag of every delta store. *)
Record statics : Type := mk_statics {
  data_memory_base : gmap Z Z;
  deltaStore_tag : gmap Z Z
}.

(** [data_memory_base[k]]: [std::unordered_map::operator[]] of a missing key is 0. *)
Definition base (s : statics) (k : Z) : Z := default 0 (data_memory_base s !! k).

(** [update(data_ptr, tag, delta_idx, pid)]. *)
Definition update (s : statics) (data_ptr tag : Z) (delta_idx : delta_id_t)
    (pid : partition_id_t) : Z :=
  let offset := u64 (data_ptr - base s (create_delta_idx_pid_pair delta_idx pid)) in
  Z.lor (Z.lor (Z.lor (Z.lor 0 (Z.land offset 0x0000000fffffffff))
                      (u64 (Z.shiftl (Z.land tag 0x000fffff) 36)))
               (u64 (Z.shiftl (Z.land pid 0x0f) 56)))
        (u64 (Z.shiftl (Z.land delta_idx 0x0f) 60)).

(** [deltaStore_map[i]] of a missing delta is a null pointer, dereferenced here. *)
Definition verifyTag (s : statics) (_val : Z) : res bool :=
  do dTag <- of_option Undefined (deltaStore_tag s !! get_delta_idx _val);
  Ok (Z.land dTag 0x000FFFFF =? get_tag _val).

Definition isValid (s : statics) (_val : Z) : res bool :=
  do b <- verifyTag s _val;
  Ok (if b then true else false).

(** [None] is [nullptr]. *)
Definition get_ptr (s : statics) (_val : Z) : res (option Z) :=
  do b <- verifyTag s _val;
  Ok (if b then Some (u64 (base s (get_delta_idx_pid_pair _val) + get_offset _val))
      else None).

(** [release_impl] does nothing: the store reclaims whole partitions. *)
Definition release_impl (_val : Z) : Z := _val.

(** Goals keep the accessors folded. *)
#[global] Arguments get_delta_idx : simpl never.
#[global] Arguments get_partition_idx : simpl never.
#[global] Arguments get_tag : simpl never.
#[global] Arguments get_offset : simpl never.
#[global] Arguments get_delta_idx_pid_pair : simpl never.
#[global] Arguments create_delta_idx_pid_pair : simpl never.
#[global] Arguments update : simpl never.

(** ** Round trips *)

Lemma mask4 : 0x0f = Z.ones 4. Proof. reflexivity. Qed.
Lemma mask20 : 0x000fffff = Z.ones 20. Proof. reflexivity. Qed.
Lemma mask36 : 0x0000000fffffffff = Z.ones 36. Proof. reflexivity. Qed.

Ltac ptr_bits :=
  unfold get_delta_idx, get_partition_idx, get_tag, get_offset, get_delta_idx_pid_pair,
    create_delta_idx_pid_pair, update;
  rewrite ?mask4, ?mask20, ?mask36; bits_eq.

Section fields.
Context (s : statics) (addr tag d p : Z).
Hypothesis (Hd : 0 <= d < 2 ^ 4) (Hp : 0 <= p < 2 ^ 4).

Lemma get_delta_idx_update : get_delta_idx (update s addr tag d p) = d.
Proof using Hd Hp. ptr_bits. Qed.

Lemma get_partition_idx_update : get_partition_idx (update s addr tag d p) = p.
Proof using Hd Hp. ptr_bits. Qed.

Lemma get_tag_update : get_tag (update s addr tag d p) = wrap 20 tag.
Proof using Hd Hp. ptr_bits. Qed.

Lemma get_pair_update :
  get_delta_idx_pid_pair (update s addr tag d p) = create_delta_idx_pid_pair d p.
Proof using Hd Hp. ptr_bits. Qed.

Lemma get_offset_update :
  get_offset (update s addr tag d p) =
    wrap 36 (addr - base s (create_delta_idx_pid_pair d p)).
Proof using Hd Hp.
  unfold update. set (o := addr - _). clearbody o.
  unfold get_offset. rewrite mask4, mask20, mask36. bits_eq.
Qed.
End fields.

(** Distinct (delta, partition) pairs below 16 get distinct keys. *)
Lemma create_pair_inj d p d' p' :
  0 <= d < 2 ^ 4 → 0 <= p < 2 ^ 4 → 0 <= d' < 2 ^ 4 → 0 <= p' < 2 ^ 4 →
  create_delta_idx_pid_pair d p = create_delta_idx_pid_pair d' p' → d = d' ∧ p = p'.
Proof.
  intros Hd Hp Hd' Hp' E.
  assert (∀ a b, 0 <= a < 2 ^ 4 → 0 <= b < 2 ^ 4 →
            Z.shiftr (create_delta_idx_pid_pair a b) 4 = a ∧
            Z.land (create_delta_idx_pid_pair a b) (Z.ones 4) = b) as Hinv.
  { intros a b Ha Hb. split; ptr_bits. }
  destruct (Hinv d p Hd Hp) as [E1 E2], (Hinv d' p' Hd' Hp') as [E3 E4].
  rewrite E in E1, E2. by rewrite E1 in E3; rewrite E2 in E4.
Qed.

(** What [get_ptr] answers for a pointer minted by [update]. *)
Lemma get_ptr_update (s : statics) (addr tag d p b cur : Z) :
  0 <= d < 2 ^ 4 → 0 <= p < 2 ^ 4 →
  data_memory_base s !! create_delta_idx_pid_pair d p = Some b →
  deltaStore_tag s !! d = Some cur →
  0 <= b → b <= addr < b + 2 ^ 36 → addr < 2 ^ 64 →
  get_ptr s (update s addr tag d p) =
    Ok (if wrap 20 cur =? wrap 20 tag then Some addr else None).
Proof.
  intros Hd Hp Hb Hc Hb0 Ha Ha64. unfold get_ptr, verifyTag.
  rewrite get_delta_idx_update by done. rewrite Hc. cbn [of_option rbind].
  rewrite get_tag_update, mask20, land_ones_wrap by lia.
  rewrite get_pair_update, get_offset_update by done.
  assert (base s (create_delta_idx_pid_pair d p) = b) as -> by (unfold base; by rewrite Hb).
  rewrite (wrap_id 36) by lia.
  replace (b + (addr - b)) with addr by lia. by rewrite (wrap_id 64) by lia.
Qed.

(** A pointer minted for an address inside its delta partition dereferences to
    exactly that address while the store's tag agrees with the tag it was minted
    under modulo [2^20], and to a null pointer otherwise. *)
Theorem delta_ptr_roundtrip (s : statics) (addr tag d p b cur : Z) :
  0 <= d < 2 ^ 4 → 0 <= p < 2 ^ 4 →
  data_memory_base s !! create_delta_idx_pid_pair d p = Some b →
  deltaStore_tag s !! d = Some cur →
  0 <= b → b <= addr < b + 2 ^ 36 → addr < 2 ^ 64 →
  get_ptr s (update s addr tag d p) =
    Ok (if wrap 20 cur =? wrap 20 tag then Some addr else None) ∧
  get_delta_idx (update s addr tag d p) = d ∧
  get_partition_idx (update s addr tag d p) = p.
Proof.
  intros. split; [by eapply get_ptr_update |].
  by rewrite get_delta_idx_update, get_partition_idx_update.
Qed.

Definition ex_statics : statics :=
  mk_statics {[ create_delta_idx_pid_pair 2 1 := 4096 ]} {[ 2 := 7 ]}.

Lemma delta_ptr_roundtrip_witness :
  get_ptr ex_statics (update ex_statics 5000 7 2 1) = Ok (Some 5000) ∧
  get_delta_idx (update ex_statics 5000 7 2 1) = 2 ∧
  get_partition_idx (update ex_statics 5000 7 2 1) = 1.
Proof.
  apply (delta_ptr_roundtrip ex_statics 5000 7 2 1 4096 7);
    first [lia | reflexivity].
Defined.

(** The tag is kept modulo [2^20], so a pointer that survives [2^20] resets of its
    store is accepted again, and the null word 0 is accepted once the tag of
    delta 0 is a multiple of [2^20]. *)
Lemma null_word_valid s tag0 : deltaStore_tag s !! 0 = Some tag0 →
  isValid s 0 = Ok (wrap 20 tag0 =? 0).
Proof.
  intros H. unfold isValid, verifyTag. change (get_delta_idx 0) with 0. rewrite H.
  cbn [of_option rbind]. rewrite mask20, land_ones_wrap by lia. change (get_tag 0) with 0.
  by destruct (wrap 20 tag0 =? 0).
Qed.
End DeltaDataPtr.
