(* ===== verification/ClassicPtr.v ===== *)
(** * ClassicPtr: the pointer wrapper of the malloc-based version store
    ([ClassicPtrWrapper] in [oltp/storage/multi-version/delta-memory-ptr.hpp]): a raw
    pointer with the partition in its top four bits. *)

From S2P Require Import Prelude Common.
From Stdlib Require Import ZArith Lia Bool.
From stdpp Require Import base numbers.

Local Open Scope Z_scope.

Module ClassicPtrWrapper.

Definition get_ptrOffset (_val : Z) : Z := Z.land _val 0x00FFFFFFFFFFFFFF.
Definition getPid (_val : Z) : partition_id_t := u8 (Z.shiftr _val 60).
Definition isValid (_val : Z) : bool := negb (get_ptrOffset _val =? 0).

(** The two-argument constructor. *)
Definition make (val : Z) (pid : partition_id_t) : Z :=
  Z.lor (Z.land val 0x00FFFFFFFFFFFFFF) (u64 (Z.shiftl pid 60)).

Definition get_ptr (_val : Z) : option Z :=
  if _val =? 0 then None else Some (get_ptrOffset _val).

Lemma mask56 : 0x00FFFFFFFFFFFFFF = Z.ones 56. Proof. reflexivity. Qed.

Lemma get_ptrOffset_make val pid : 0 <= val < 2 ^ 56 → 0 <= pid →
  get_ptrOffset (make val pid) = val.
Proof. intros Hv Hp. unfold get_ptrOffset, make. rewrite mask56. bits_eq. Qed.

Lemma getPid_make val pid : 0 <= pid < 2 ^ 4 → getPid (make val pid) = pid.
Proof. intros Hp. unfold getPid, make. rewrite mask56. bits_eq. Qed.

Lemma get_ptr_make val pid : 0 < val < 2 ^ 56 → 0 <= pid →
  get_ptr (make val pid) = Some val ∧ isValid (make val pid) = true.
Proof.
  intros Hv Hp. assert (get_ptrOffset (make val pid) = val) as E
    by (apply get_ptrOffset_make; lia).
  unfold get_ptr, isValid. rewrite E. split; [| by rewrite (proj2 (Z.eqb_neq _ _)) by lia].
  destruct (Z.eqb_spec (make val pid) 0) as [H0 |]; [| done].
  rewrite H0 in E. change (get_ptrOffset 0) with 0 in E. lia.
Qed.
End ClassicPtrWrapper.
