(* ===== verification/Locks.v ===== *)
(** * Locks: the spin locks and try-locks of the engine ([oltp/common/lock.hpp],
    [oltp/common/spinlock.h], [oltp/util/hybrid-lock.hpp]).

    All of them are one atomic flag changed by a compare-and-swap from [false] to [true]
    and a store of [false]; they differ in how often they try.  [Module SpinLock] is the
    interleaving model of any number of threads using any mix of the acquiring routines. *)

From S2P Require Import Prelude.
From Stdlib Require Import ZArith Lia Bool.
From stdpp Require Import base numbers list relations.

Local Open Scope Z_scope.

Module SpinLock.

(** ** The atomic actions *)

(** [compare_exchange_strong(e_false, true)]; [spurious] is the failure a weak exchange
    may report on an equal value. *)
Definition cas (spurious lk : bool) : bool * bool :=
  if lk || spurious then (false, lk) else (true, true).

(** [AtomicTryLock::try_lock], [SpinLatch::try_acquire] *)
Definition try_lock (lk : bool) : bool * bool := cas false lk.
Definition unlock (lk : bool) : bool := false.

(** [try_acquire100] when no other thread touches the flag. *)
Fixpoint try_acquire_n (n : nat) (lk : bool) : bool * bool :=
  match n with
  | O => (false, lk)
  | S n => let (ok, lk') := cas false lk in if ok then (true, lk') else try_acquire_n n lk'
  end.
Definition try_acquire100 (lk : bool) : bool * bool := try_acquire_n 100 lk.

(** ** The loop counters

    Which routine a thread is in: [Once] is a single attempt, [Hundred] is
    [try_acquire100], [Forever] is [acquire] (with a weak exchange in [Spinlock_Weak]). *)
Inductive routine : Type := Once | Hundred | Forever (weak : bool).

(** The state of the loop after a failed attempt: [None] when the routine gives up. *)
Definition after_failure (r : routine) (tries : Z) : option Z :=
  match r with
  | Once => None
  | Hundred => if tries + 1 <? 100 then Some (tries + 1) else None
  | Forever _ => Some (if tries =? 100 then 0 + 1 else tries + 1)
  end.

Definition may_fail_spuriously (r : routine) : bool :=
  match r with Forever weak => weak | _ => false end.

(** ** Threads *)

Inductive pc : Type :=
  | Outside
  | Attempt (r : routine) (tries : Z)
  | Inside.

Record state : Type := mk { threads : list pc; lk : bool }.

Definition put (s : state) (t : nat) (c : pc) (b : bool) : state :=
  mk (<[t := c]> (threads s)) b.

(** One attempt of thread [t]. *)
Definition attempt (s : state) (t : nat) (r : routine) (tries : Z) (spurious : bool) : state :=
  match cas spurious (lk s) with
  | (true, b) => put s t Inside b
  | (false, b) =>
      put s t (match after_failure r tries with Some n => Attempt r n | None => Outside end) b
  end.

Inductive step : state → state → Prop :=
  | step_call s t r : threads s !! t = Some Outside → step s (put s t (Attempt r 0) (lk s))
  | step_attempt s t r tries spurious :
      threads s !! t = Some (Attempt r tries) → (spurious = true → may_fail_spuriously r = true) →
      step s (attempt s t r tries spurious)
  | step_release s t : threads s !! t = Some Inside → step s (put s t Outside (unlock (lk s))).

Definition init (n : nat) : state := mk (replicate n Outside) false.

Definition inside (c : pc) : bool := match c with Inside => true | _ => false end.

(** One holder when the flag is set, none when it is clear. *)
Definition inv (s : state) : Prop :=
  count_if inside (threads s) = (if lk s then 1 else 0) ∧
  ∀ t r n, threads s !! t = Some (Attempt r n) → 0 <= n <= 100.

Lemma spin_put_inv s t a c b : inv s → threads s !! t = Some a →
  (if lk s then 1 else 0) - (if inside a then 1 else 0) + (if inside c then 1 else 0)
    = (if b : bool then 1 else 0) →
  (∀ r n, c = Attempt r n → 0 <= n <= 100) → inv (put s t c b).
Proof.
  intros [Hc Ht] Ha Hb Hn. split; simpl.
  - rewrite (count_if_insert inside _ _ _ _ Ha), Hc. exact Hb.
  - intros u r n Hu. destruct (decide (t = u)) as [<- | Hne].
    + rewrite list_lookup_insert_eq in Hu by (by eapply lookup_lt_Some).
      injection Hu as E. by apply (Hn r n).
    + rewrite list_lookup_insert_ne in Hu by done. by apply (Ht u r n).
Qed.

Lemma after_failure_range r n k : 0 <= n <= 100 → after_failure r n = Some k → 0 <= k <= 100.
Proof.
  intros Hn. destruct r as [| | weak]; simpl; [done | |].
  - destruct (Z.ltb_spec (n + 1) 100); [| done]. intros [= <-]. lia.
  - intros [= <-]. destruct (Z.eqb_spec n 100); lia.
Qed.

Lemma spin_step_inv s s' : inv s → step s s' → inv s'.
Proof.
  intros H Hs. destruct Hs as [s t r Ht | s t r tries sp Ht Hsp | s t Ht].
  - eapply spin_put_inv; [done | done | simpl; destruct (lk s); lia |]. intros ? ? [= <- <-]. lia.
  - pose proof (proj2 H t r tries Ht) as Hn. unfold attempt, cas.
    destruct (lk s || sp) eqn:E.
    + eapply spin_put_inv; [done | done | destruct (after_failure r tries); simpl; lia |].
      intros r' n. destruct (after_failure r tries) as [k |] eqn:Ek; [| done].
      intros [= <- <-]. by eapply after_failure_range.
    + apply orb_false_iff in E as [E _].
      eapply spin_put_inv; [done | done | rewrite E; simpl; lia | done].
  - assert (0 < count_if inside (threads s)) as Hpos.
    { apply count_if_pos. exists Inside. split; [by eapply list_elem_of_lookup_2 | done]. }
    destruct H as [Hc Hr]. rewrite Hc in Hpos. destruct (lk s) eqn:E; [| lia].
    eapply spin_put_inv; [split; [by rewrite E | done] | done | rewrite E; simpl; lia | done].
Qed.

Lemma spin_init_inv n : inv (init n).
Proof.
  split; simpl.
  - induction n as [| n IH]; [done |]. simpl. by rewrite count_if_cons.
  - intros t r k H. apply lookup_replicate in H as [H _]. discriminate.
Qed.

Lemma spin_reachable_inv n s : rtc step (init n) s → inv s.
Proof.
  intros H. apply (rtc_ind_r (λ s, inv s) (init n) (spin_init_inv n)) in H; [done |].
  intros. by eapply spin_step_inv.
Qed.

(** C28: In every reachable interleaving of threads that use any mix of [try_lock],
    [try_acquire100] and [acquire], at most one thread is inside the critical section, the
    flag is set exactly while one is, and the retry counter of a thread stays within 100
    (it never overflows). *)
Theorem spinlock_mutual_exclusion (n : nat) (s : state) :
  rtc step (init n) s →
  (∀ t u, threads s !! t = Some Inside → threads s !! u = Some Inside → t = u) ∧
  (lk s = true ↔ ∃ t, threads s !! t = Some Inside) ∧
  (∀ t r k, threads s !! t = Some (Attempt r k) → 0 <= k <= 100).
Proof.
  intros H%spin_reachable_inv. destruct H as [Hc Hr]. split; [| split; [| done]].
  - intros t u Ht Hu. destruct (decide (t = u)) as [| Hne]; [done |].
    pose proof (count_if_two inside _ _ _ _ _ Hne Ht Hu eq_refl eq_refl). destruct (lk s); lia.
  - split.
    + intros E. rewrite E in Hc.
      destruct (proj1 (count_if_pos inside (threads s)) ltac:(lia)) as (c & (t & Ht)%list_elem_of_lookup_1 & Hin).
      destruct c; try discriminate. eauto.
    + intros (t & Ht). assert (0 < count_if inside (threads s)) as Hpos.
      { apply count_if_pos. exists Inside. split; [by eapply list_elem_of_lookup_2 | done]. }
      destruct (lk s); [done | lia].
Qed.

Definition ex_state : state := mk [Inside; Attempt (Forever false) 1] true.

Lemma spinlock_mutual_exclusion_witness :
  (∀ t u, threads ex_state !! t = Some Inside → threads ex_state !! u = Some Inside → t = u) ∧
  (lk ex_state = true ↔ ∃ t, threads ex_state !! t = Some Inside) ∧
  (∀ t r k, threads ex_state !! t = Some (Attempt r k) → 0 <= k <= 100).
Proof.
  apply (spinlock_mutual_exclusion 2 ex_state).
  eapply rtc_l; [by apply (step_call (init 2) 0 Once) |].
  eapply rtc_l; [by apply (step_attempt _ 0 Once 0 false) |].
  eapply rtc_l; [by apply (step_call _ 1 (Forever false)) |].
  eapply rtc_l; [by apply (step_attempt _ 1 (Forever false) 0 false) |].
  apply rtc_refl.
Defined.

(** The bounded try-lock alone: it succeeds exactly when the flag is clear. *)
Lemma try_acquire_n_spec n b : (0 < n)%nat → try_acquire_n n b = (negb b, true).
Proof.
  intros Hn. destruct b.
  - assert (∀ k, try_acquire_n k true = (false, true)) as E by (induction k; [done | exact IHk]).
    by rewrite E.
  - by destruct n; [lia |].
Qed.

End SpinLock.
