(* ===== verification/HybridLatch.v ===== *)
(** * HybridLatch: the optimistic latch [HybridLock<naiveRWLock>]
    ([oltp/util/hybrid-lock.hpp]). *)

From S2P Require Import Prelude.
From Stdlib Require Import ZArith Lia Bool.
From stdpp Require Import base numbers list.

Local Open Scope Z_scope.

Module HybridLatch.

(** [std::shared_mutex], the exclusive flag of [naiveRWLock], the version. *)
Record latch : Type := mk { shared : Z; exclusive : bool; flag : bool; version : Z }.

Definition init : latch := mk 0 false false 0.

Definition lock_shared (l : latch) : res latch :=
  if exclusive l then Err Blocked
  else Ok (mk (shared l + 1) (exclusive l) (flag l) (version l)).
Definition unlock_shared (l : latch) : latch :=
  mk (shared l - 1) (exclusive l) (flag l) (version l).

(** [naiveRWLock::lock] and [unlock] are two actions each: the mutex, then the flag. *)
Definition lock_mutex (l : latch) : res latch :=
  if exclusive l || (0 <? shared l) then Err Blocked
  else Ok (mk (shared l) true (flag l) (version l)).
Definition lock_flag (l : latch) : latch := mk (shared l) (exclusive l) true (version l).
Definition unlock_mutex (l : latch) : latch := mk (shared l) false (flag l) (version l).
Definition unlock_flag (l : latch) : latch := mk (shared l) (exclusive l) false (version l).

Definition isLockedExclusive (l : latch) : bool := flag l.

Definition lock (l : latch) : res latch := rbind (lock_mutex l) (λ l, Ok (lock_flag l)).
Definition unlock (l : latch) : latch := unlock_flag (unlock_mutex l).

(** [unlockExclusive] bumps the version first. *)
Definition unlockExclusive (l : latch) : latch :=
  unlock (mk (shared l) (exclusive l) (flag l) (wrap 64 (version l + 1))).

(** [tryReadOptimistically]: before and after the callback. *)
Definition optimistic_begin (l : latch) : option Z :=
  if isLockedExclusive l then None else Some (version l).
Definition optimistic_end (l : latch) (preVersion : Z) : bool :=
  if isLockedExclusive l then false else preVersion =? version l.

Definition readWithLatch {A} (l : latch) (f : A → A) (a : A) : res (A * latch) :=
  match optimistic_begin l with
  | Some v => Ok (f a, l)    (* nothing happened in between: the version is the same *)
  | None => rbind (lock_shared l) (λ l1, Ok (f a, unlock_shared l1))
  end.

Definition writeWithLatch {A} (l : latch) (f : A → A) (a : A) : res (A * latch) :=
  rbind (lock l) (λ l1, Ok (f a, unlock l1)).

(** Sequentially the latch is transparent and comes back to rest. *)
Lemma writeWithLatch_rest {A} v (f : A → A) a :
  writeWithLatch (mk 0 false false v) f a = Ok (f a, mk 0 false false v).
Proof. reflexivity. Qed.

(** A write through [writeWithLatch] that falls between the two halves of an optimistic
    read goes unnoticed: it leaves the version as it found it. *)
Lemma optimistic_read_misses_writeWithLatch {A} v (f : A → A) a l' :
  writeWithLatch (mk 0 false false v) f a = Ok (f a, l') →
  optimistic_begin (mk 0 false false v) = Some v ∧ optimistic_end l' v = true.
Proof. intros [= <-]. unfold optimistic_end. simpl. by rewrite Z.eqb_refl. Qed.

(** A write that releases through [unlockExclusive] is noticed. *)
Lemma optimistic_read_sees_unlockExclusive v l' : 0 <= v < 2 ^ 64 - 1 →
  lock (mk 0 false false v) = Ok l' → optimistic_end (unlockExclusive l') v = false.
Proof.
  intros Hv [= <-]. unfold optimistic_end, unlockExclusive. simpl.
  rewrite wrap_id by lia. by rewrite (proj2 (Z.eqb_neq _ _)) by lia.
Qed.

(** [naiveRWLock::unlock] clears the flag after it gave the mutex back: a second writer
    can be inside with the flag clear. *)
Example second_writer_with_clear_flag :
  rbind (lock init) (λ l1,
  rbind (lock (unlock_mutex l1)) (λ l2,
  Ok (let l3 := unlock_flag l2 in (exclusive l3, isLockedExclusive l3)))) = Ok (true, false).
Proof. reflexivity. Qed.

End HybridLatch.
