(* ===== verification/Versions.v ===== *)
(** * Versions: record versions, version chains and their garbage collection
    ([oltp/storage/multi-version/mv-versions.hpp] and the full-record list in
    [lib/storage/multi-version/mv-record-list.cpp]).

    A chain is reached from the index entry of a record through pointer words; what a
    word means is the delta memory's business, so the chain code is written against the
    class [DeltaMemory] with one instance for the tagged pointers of the circular
    stores and one for the raw pointers of the malloc store.

    A version's header and its record image are kept together in one heap cell under the
    address of the header; the cell knows which bytes of the delta memory the two occupy, so
    that writing a header or an image over another version's bytes damages that version as it
    does in memory ([store_bytes]). *)

From S2P Require Import Prelude Bytes Common StorageUtils Transaction DeltaPtr ClassicPtr.
From Stdlib Require Import ZArith Lia Bool.
From stdpp Require Import base numbers list gmap sets.

Local Open Scope Z_scope.
Local Open Scope res_scope.

(** ** What a version pointer promises *)

Class DeltaMemory (M : Type) : Type := {
  valid : M → Z → res bool;                 (* isValid() *)
  deref : M → Z → res (option Z);           (* ptr(): an address, or a null pointer *)
  reclaims : bool;                          (* release() frees the chunk *)
  valid_deref : ∀ m w, valid m w = Ok true → ∃ a, deref m w = Ok (Some a);
  invalid_deref : ∀ m w, valid m w = Ok false → deref m w = Ok None
}.

(** The tagged pointers of the circular stores. *)
#[export] Program Instance DeltaMemory_tagged : DeltaMemory DeltaDataPtr.statics := {|
  valid := DeltaDataPtr.isValid;
  deref := DeltaDataPtr.get_ptr;
  reclaims := false
|}.
Next Obligation.
  intros m w. unfold DeltaDataPtr.isValid, DeltaDataPtr.get_ptr.
  destruct (DeltaDataPtr.verifyTag m w) as [[] |]; simpl; [eauto | done | done].
Qed.
Next Obligation.
  intros m w. unfold DeltaDataPtr.isValid, DeltaDataPtr.get_ptr.
  by destruct (DeltaDataPtr.verifyTag m w) as [[] |].
Qed.

(** The raw pointers of the malloc store: there is no state to consult. *)
#[export] Program Instance DeltaMemory_classic : DeltaMemory unit := {|
  valid := λ _ w, Ok (ClassicPtrWrapper.isValid w);
  deref := λ _ w, Ok (match ClassicPtrWrapper.get_ptr w with
                      | Some a => if a =? 0 then None else Some a
                      | None => None
                      end);
  reclaims := true
|}.
Next Obligation.
  intros m w [= H]. unfold ClassicPtrWrapper.isValid, ClassicPtrWrapper.get_ptr in *.
  destruct (w =? 0) eqn:E.
  - apply Z.eqb_eq in E as ->. vm_compute in H. discriminate.
  - destruct (ClassicPtrWrapper.get_ptrOffset w =? 0); [discriminate | eauto].
Qed.
Next Obligation.
  intros m w [= H]. unfold ClassicPtrWrapper.isValid, ClassicPtrWrapper.get_ptr in *.
  destruct (w =? 0); [done |]. by destruct (ClassicPtrWrapper.get_ptrOffset w =? 0).
Qed.

Module Versions.
Import Txns.

(** ** Data *)

(** [VersionSingle]; [image] is the buffer [data] points to. *)
Record Version : Type := mk_ver {
  t_min : xid_t;
  t_max : xid_t;
  image : list Z;
  size : Z;
  next : Z
}.

Definition with_image (v : Version) (img : list Z) : Version :=
  mk_ver (t_min v) (t_max v) img (size v) (next v).

Definition with_next (v : Version) (w : Z) : Version :=
  mk_ver (t_min v) (t_max v) (image v) (size v) w.

(** [CC_MV2PL::PRIMARY_INDEX_VAL]: the index entry of a record. *)
Record IndexVal : Type := mk_idx {
  ts : ts_t;
  VID : rowid_t;
  latch : bool;
  write_lck : bool;
  delta_list : Z
}.

Definition IndexVal_new (tid : xid_t) (vid : rowid_t) : IndexVal :=
  mk_idx (ts_new tid) vid false false 0.

Definition with_delta (i : IndexVal) (w : Z) : IndexVal :=
  mk_idx (ts i) (VID i) (latch i) (write_lck i) w.
Definition with_ts (i : IndexVal) (t : ts_t) : IndexVal :=
  mk_idx t (VID i) (latch i) (write_lck i) (delta_list i).

Abbreviation heap := (gmap Z Version).

(** What the compiler makes of the header: its size and alignment, and the bytes that a
    header constructed at an address has. *)
Class VersionLayout : Type := {
  sizeof_version : Z;
  alignof_version : Z;
  object_bytes : Z → Version → list Z;
  sizeof_pos : 0 < sizeof_version;
  alignof_pos : 0 < alignof_version;
  object_len : ∀ a v, zlen (object_bytes a v) = sizeof_version
}.

(** The head version of the record is in the main columns; its time is in the entry. *)
Definition is_readable_idx (i : IndexVal) (xact : TxnTs) : bool :=
  is_readable (Common.t_min (ts i)) xact.

Section chains.
Context {M : Type} `{DeltaMemory M} `{VL : VersionLayout}.

(** [typePtr()] followed by a member access. *)
Definition load (m : M) (h : heap) (w : Z) : res (Z * Version) :=
  do p <- deref m w;
  do a <- of_option Undefined p;
  do v <- of_option Undefined (h !! a);
  Ok (a, v).

(** The walk of [VersionChain::get_readable_ver]; the result is the pointer word of the
    version. *)
Fixpoint get_readable_ver (fuel : nat) (m : M) (h : heap) (txTs : TxnTs) (w : Z)
  : res (option Z) :=
  match fuel with
  | O => Err Blocked
  | S fuel =>
      do b <- valid m w;
      if (b : bool) then
        do (_, v) <- load m h w;
        if is_readable (t_min v) txTs then Ok (Some w)
        else get_readable_ver fuel m h txTs (next v)
      else Ok None
  end.

(** The loop of [steamGC] that frees the detached part of the chain. *)
Fixpoint free_chain (fuel : nat) (m : M) (h : heap) (cleanable : Z) : res heap :=
  match fuel with
  | O => Err Blocked
  | S fuel =>
      do b <- valid m cleanable;
      if (b : bool) then
        do (a, v) <- load m h cleanable;
        let h1 := if reclaims then delete a h else <[a := with_next v 0]> h in
        free_chain fuel m h1 (next v)
      else Ok h
  end.

Definition steamGC (fuel : nat) (m : M) (h : heap) (idx : IndexVal) (global_min : TxnTs)
  : res (heap * IndexVal) :=
  do b <- valid m (delta_list idx);
  if negb b then Ok (h, idx)
  else if is_readable_idx idx global_min then
    do h' <- free_chain fuel m h (delta_list idx);
    Ok (h', with_delta idx 0)
  else
    do vb <- get_readable_ver fuel m h global_min (delta_list idx);
    match vb with
    | None => Ok (h, idx)
    | Some w =>
        do b <- valid m w;
        if negb b then Ok (h, idx)
        else
          do (a, v) <- load m h w;
          do h' <- free_chain fuel m (<[a := with_next v 0]> h) (next v);
          Ok (h', idx)
    end.

(** *** The bytes of a version

    [MV_RecordList_Full::create_versions] asks the store for [record_size] plus the size of
    the header, and places the buffer at [sizeof] plus [alignof] of the header. *)
Definition version_chunk_size (record_size : Z) : Z := record_size + sizeof_version.
Definition version_data (base : Z) : Z := base + alignof_version + sizeof_version.

(** The byte ranges of [n] bytes at [lo] and of [n'] bytes at [lo'] meet. *)
Definition overlaps (lo n lo' n' : Z) : bool :=
  (0 <? n) && (0 <? n') && (lo <? lo' + n') && (lo' <? lo + n).

(** The buffer [img] at address [start] after the bytes [bs] are stored at [lo]. *)
Definition overwrite (start : Z) (img : list Z) (lo : Z) (bs : list Z) : list Z :=
  imap (λ i b, default b (if lo <=? start + Z.of_nat i
                          then bs !! Z.to_nat (start + Z.of_nat i - lo) else None)) img.

(** The version whose header is at [a] after the bytes [bs] are stored at [lo]: a header that
    is written over is no object any more, so its cell is gone; of the image the bytes in the
    range are replaced. *)
Definition damage (lo : Z) (bs : list Z) (a : Z) (v : Version) : option Version :=
  if overlaps lo (zlen bs) a sizeof_version then None
  else Some (with_image v (overwrite (version_data a) (image v) lo bs)).

Definition store_bytes (lo : Z) (bs : list Z) (h : heap) : heap := map_imap (damage lo bs) h.

(** [MV_RecordList_Full::create_versions]: [w] is what [deltaStore.allocate] returned,
    [junk] the old content of the buffer.  Consolidation is off in this build. *)
Definition create_versions (m : M) (h : heap) (idx : IndexVal) (record_size : Z) (w : Z)
    (junk : list Z) : res (Z * heap * IndexVal) :=
  do p <- deref m w;
  do a <- of_option AssertFailed p;
  do b <- valid m (delta_list idx);
  let ver := mk_ver (Common.t_min (ts idx)) 0 junk record_size
                    (if (b : bool) then delta_list idx else 0) in
  Ok (a, <[a := ver]> (store_bytes a (object_bytes a ver) h), with_delta idx w).

(** [memcpy(write_loc, version_data + offset, size)] *)
Definition slice (img : list Z) (off sz : Z) : res (list Z) :=
  check (0 <=? off) && (off + sz <=? Z.of_nat (length img)) else Undefined;
  Ok (take (Z.to_nat sz) (drop (Z.to_nat off) img)).

(** [MV_RecordList_Full::get_readable_version]: [pairs] is [column_size_offset_pairs],
    [cols] the requested columns, [None] for all of them. *)
Definition get_readable_version (fuel : nat) (m : M) (h : heap) (idx : IndexVal)
    (txTs : TxnTs) (pairs : list (Z * Z)) (cols : option (list Z)) : res (list Z) :=
  do b <- valid m (delta_list idx);
  check (b : bool) else Fatal;
  do vb <- get_readable_ver fuel m h txTs (delta_list idx);
  do w <- of_option AssertFailed vb;
  do (_, v) <- load m h w;
  check negb (deleted (ts idx)) else Throw;
  do sel <- match cols with
            | None | Some [] => Ok pairs
            | Some cs => rmapM (λ c, of_option Undefined (pairs !! Z.to_nat c)) cs
            end;
  do parts <- rmapM (λ p, slice (image v) p.2 p.1) sel;
  Ok (concat parts).

(** ** Chains as lists *)

(** [chain m h w l]: from the word [w] the walk visits the versions [l] and ends at an
    invalid word. *)
Inductive chain (m : M) (h : heap) : Z → list (Z * Z * Version) → Prop :=
  | chain_nil w : valid m w = Ok false → chain m h w []
  | chain_cons w a v l :
      valid m w = Ok true → deref m w = Ok (Some a) → h !! a = Some v →
      chain m h (next v) l → chain m h w ((w, a, v) :: l).

Definition ver (x : Z * Z * Version) : Version := x.2.
Definition addr (x : Z * Z * Version) : Z := x.1.2.
Definition word (x : Z * Z * Version) : Z := x.1.1.

(** The transaction sees exactly the versions stamped no later than its start: its
    identifier is not mistaken for a timestamp ([Txns.is_readable_spec]). *)
Definition orderly (xact : TxnTs) (t : Z) : Prop :=
  is_readable t xact = (t <=? txn_start_time xact).

(** What the walk looks for. *)
Definition first_readable (xact : TxnTs) (l : list (Z * Z * Version)) :=
  List.find (λ x, is_readable (t_min (ver x)) xact) l.

Lemma load_chain m h w a v : deref m w = Ok (Some a) → h !! a = Some v →
  load m h w = Ok (a, v).
Proof using Type. intros Hd Hv. unfold load. rewrite Hd. simpl. by rewrite Hv. Qed.

Lemma get_readable_ver_spec m h w l fuel xact : chain m h w l → (length l < fuel)%nat →
  get_readable_ver fuel m h xact w = Ok (word <$> first_readable xact l).
Proof using Type.
  intros Hc. revert fuel. induction Hc as [w Hv | w a v l Hv Hd Hh Hc IH]; intros fuel Hf;
    (destruct fuel as [| fuel]; [simpl in Hf; lia |]); simpl; rewrite Hv; simpl; [done |].
  rewrite (load_chain _ _ _ _ _ Hd Hh). simpl. unfold ver. simpl.
  destruct (is_readable (t_min v) xact); [done |]. apply IH. simpl in Hf. lia.
Qed.

(** A chain only depends on the cells and words it visits. *)
Lemma chain_agree m m' h h' w l : chain m h w l →
  (∀ x, x ∈ l → h' !! addr x = h !! addr x) →
  (∀ u, valid m' u = valid m u) → (∀ u, deref m' u = deref m u) → chain m' h' w l.
Proof using Type.
  intros Hc Hag Hv' Hd'. induction Hc as [w Hv | w a v l Hv Hd Hh Hc IH].
  - constructor. by rewrite Hv'.
  - econstructor; [by rewrite Hv' | by rewrite Hd' | |].
    + rewrite <- Hh. apply (Hag (w, a, v)). left.
    + apply IH. intros x Hx. apply Hag. by right.
Qed.

Lemma chain_frame m h a v w l : chain m h w l → (∀ x, x ∈ l → addr x ≠ a) →
  chain m (<[a := v]> h) w l.
Proof using Type.
  intros Hc Hne. apply (chain_agree m m h _ w l Hc); [| done | done].
  intros x Hx. rewrite lookup_insert_ne; [done |]. intros E. by apply (Hne x Hx).
Qed.

Lemma chain_lookup m h w l x : chain m h w l → x ∈ l →
  valid m (word x) = Ok true ∧ deref m (word x) = Ok (Some (addr x)) ∧ h !! addr x = Some (ver x).
Proof using Type.
  induction 1 as [w Hv | w a v l Hv Hd Hh Hc IH]; [by intros ?%not_elem_of_nil |].
  intros [-> | Hx]%elem_of_cons; [done | by apply IH].
Qed.

(** [free_chain] only touches cells of the chain it frees, and always finishes. *)
Lemma free_chain_spec m h w l fuel : chain m h w l → NoDup (addr <$> l) →
  (length l < fuel)%nat →
  ∃ h', free_chain fuel m h w = Ok h' ∧
    ∀ a, a ∉ (addr <$> l) → h' !! a = h !! a.
Proof using Type.
  revert w h fuel. induction l as [| [[w0 a] v] l IH]; intros w h fuel Hc Hnd Hf;
    (destruct fuel as [| fuel]; [simpl in Hf; lia |]);
    inversion Hc as [? Hv | ? ? ? ? Hv Hd Hh Hc']; subst; simpl.
  - rewrite Hv. simpl. eauto.
  - rewrite Hv. simpl. rewrite (load_chain _ _ _ _ _ Hd Hh). simpl.
    apply NoDup_cons in Hnd as [Hna Hnd].
    set (h1 := if reclaims then delete a h else <[a := with_next v 0]> h).
    assert (∀ b, b ≠ a → h1 !! b = h !! b) as Hh1.
    { intros b Hb. unfold h1. destruct reclaims; [by rewrite lookup_delete_ne | by rewrite lookup_insert_ne]. }
    destruct (IH (next v) h1 fuel) as (h' & -> & Hag); [| done | simpl in Hf; lia |].
    + apply (chain_agree m m h _ _ _ Hc'); [| done | done]. intros x Hx. apply Hh1. intros E.
      apply Hna. apply list_elem_of_fmap. exists x. done.
    + exists h'. split; [done |]. intros b Hb. rewrite not_elem_of_cons in Hb.
      destruct Hb as [Hb1 Hb2]. rewrite Hag by done. by apply Hh1.
Qed.

(** Splitting a chain at one of its links. *)
Lemma chain_app m h w l1 x l2 : chain m h w (l1 ++ x :: l2) →
  chain m h (next (ver x)) l2.
Proof using Type.
  revert w. induction l1 as [| y l1 IH]; intros w Hc; inversion Hc; subst; eauto.
Qed.

(** Cutting the chain behind [x]. *)
Lemma chain_cut m h w l1 x l2 : chain m h w (l1 ++ x :: l2) → valid m 0 = Ok false →
  NoDup (addr <$> (l1 ++ x :: l2)) →
  chain m (<[addr x := with_next (ver x) 0]> h) w
    (l1 ++ [(word x, addr x, with_next (ver x) 0)]).
Proof using Type.
  intros Hc H0. revert w Hc. induction l1 as [| y l1 IH]; intros w Hc Hnd; simpl in *.
  - inversion Hc; subst. econstructor; [done | done | by rewrite lookup_insert_eq | by constructor].
  - inversion Hc; subst. apply NoDup_cons in Hnd as [Hna Hnd].
    econstructor; [done | done | | by apply IH].
    rewrite lookup_insert_ne; [done |]. intros E. apply Hna.
    rewrite fmap_app, elem_of_app. right. simpl. rewrite elem_of_cons. left. done.
Qed.

Lemma first_readable_split xact l x : first_readable xact l = Some x →
  ∃ l1 l2, l = l1 ++ x :: l2 ∧ is_readable (t_min (ver x)) xact = true ∧
    ∀ y, y ∈ l1 → is_readable (t_min (ver y)) xact = false.
Proof using Type.
  induction l as [| y l IH]; [done |]. simpl.
  destruct (is_readable (t_min (ver y)) xact) eqn:E.
  - intros [= ->]. exists [], l. split; [done |]. split; [done |]. by intros ? ?%not_elem_of_nil.
  - intros (l1 & l2 & -> & Hx & Hl)%IH. exists (y :: l1), l2. split; [done |]. split; [done |].
    intros z [-> | Hz]%elem_of_cons; [done | by apply Hl].
Qed.

Lemma first_readable_app_cut xact l1 x y l2 :
  is_readable (t_min (ver x)) xact = true → t_min (ver y) = t_min (ver x) →
  option_map (λ z, image (ver z)) (first_readable xact (l1 ++ x :: l2)) =
  option_map (λ z, image (ver z)) (first_readable xact (l1 ++ [y])) ∨
  first_readable xact (l1 ++ x :: l2) = Some x ∧ first_readable xact (l1 ++ [y]) = Some y.
Proof using Type.
  intros Hx Hy. induction l1 as [| z l1 IH]; simpl.
  - rewrite Hy, Hx. by right.
  - destruct (is_readable (t_min (ver z)) xact); [by left | done].
Qed.

(** The record image a transaction reads: [None] stands for the main columns. *)
Definition visible_image (fuel : nat) (m : M) (h : heap) (idx : IndexVal) (xact : TxnTs)
  : res (option (list Z)) :=
  if is_readable_idx idx xact then Ok None
  else
    do vb <- get_readable_ver fuel m h xact (delta_list idx);
    do w <- of_option AssertFailed vb;
    do (_, v) <- load m h w;
    Ok (Some (image v)).

Lemma visible_image_spec m h idx l fuel xact :
  chain m h (delta_list idx) l → (length l < fuel)%nat →
  visible_image fuel m h idx xact =
    if is_readable_idx idx xact then Ok None
    else of_option AssertFailed ((λ x, Some (image (ver x))) <$> first_readable xact l).
Proof using Type.
  intros Hc Hf. unfold visible_image. destruct (is_readable_idx idx xact); [done |].
  rewrite (get_readable_ver_spec _ _ _ l) by done. cbn [rbind].
  destruct (first_readable xact l) as [x |] eqn:E; [| done]. simpl.
  apply first_readable_split in E as (l1 & l2 & -> & _).
  destruct (chain_lookup _ _ _ _ x Hc) as (_ & Hd & Hh).
  { rewrite elem_of_app. right. left. }
  by rewrite (load_chain _ _ _ _ _ Hd Hh).
Qed.

(** A read from the chain, with all columns requested. *)
Lemma get_readable_version_spec m h idx l fuel xact pairs :
  chain m h (delta_list idx) l → (length l < fuel)%nat →
  get_readable_version fuel m h idx xact pairs None =
    match l with
    | [] => Err Fatal
    | _ => do x <- of_option AssertFailed (first_readable xact l);
           check negb (deleted (ts idx)) else Throw;
           do parts <- rmapM (λ p, slice (image (ver x)) p.2 p.1) pairs;
           Ok (concat parts)
    end.
Proof using Type.
  intros Hc Hf. unfold get_readable_version.
  assert (valid m (delta_list idx) = Ok (match l with [] => false | _ => true end)) as ->
    by (by inversion Hc).
  cbn [rbind]. destruct l as [| z l0]; [done |]. remember (z :: l0) as l eqn:El. clear z l0 El.
  rewrite (get_readable_ver_spec _ _ _ l) by done. cbn [rbind].
  destruct (first_readable xact l) as [x |] eqn:E; [| done]. cbn [fmap option_fmap option_map of_option rbind].
  apply first_readable_split in E as (l1 & l2 & -> & _).
  destruct (chain_lookup _ _ _ _ x Hc) as (_ & Hd & Hh).
  { rewrite elem_of_app. right. left. }
  by rewrite (load_chain _ _ _ _ _ Hd Hh).
Qed.

Lemma orderly_mono g xact t : orderly g t → orderly xact t →
  txn_start_time g <= txn_start_time xact → is_readable t g = true → is_readable t xact = true.
Proof using Type. unfold orderly. intros -> -> Hle ?%Z.leb_le. apply Z.leb_le. lia. Qed.

(** Detaching and freeing what lies behind [x] leaves the chain up to [x]. *)
Lemma cut_and_free m h w l1 x l2 fuel :
  chain m h w (l1 ++ x :: l2) → NoDup (addr <$> (l1 ++ x :: l2)) →
  (length l2 < fuel)%nat → valid m 0 = Ok false →
  ∃ h', free_chain fuel m (<[addr x := with_next (ver x) 0]> h) (next (ver x)) = Ok h' ∧
    chain m h' w (l1 ++ [(word x, addr x, with_next (ver x) 0)]).
Proof using Type.
  intros Hc Hnd Hf H0. pose proof (chain_cut _ _ _ _ _ _ Hc H0 Hnd) as Hcut.
  rewrite fmap_app, fmap_cons in Hnd. apply NoDup_app in Hnd as (_ & Hdisj & Hnd).
  apply NoDup_cons in Hnd as [Hnx Hnd].
  assert (chain m (<[addr x := with_next (ver x) 0]> h) (next (ver x)) l2) as Hrest.
  { apply chain_frame; [by eapply chain_app |]. intros y Hy Ey.
    apply Hnx. rewrite <- Ey. by apply list_elem_of_fmap_2. }
  destruct (free_chain_spec m _ _ _ fuel Hrest Hnd Hf) as (h' & -> & Hag).
  exists h'. split; [done |].
  apply (chain_agree m m _ h' _ _ Hcut); [| done | done]. intros y Hy. apply Hag.
  rewrite elem_of_app, list_elem_of_singleton in Hy. destruct Hy as [Hy | ->]; [| done].
  intros Hin. apply (Hdisj (addr y)); [by apply list_elem_of_fmap_2 |].
  rewrite elem_of_cons. by right.
Qed.

(** The chain [steamGC] leaves: nothing if the main version is visible at the minimum,
    else everything up to the first visible version. *)
Lemma steamGC_spec m h idx l fuel g :
  chain m h (delta_list idx) l → NoDup (addr <$> l) → (length l < fuel)%nat →
  valid m 0 = Ok false →
  ∃ h' idx' l', steamGC fuel m h idx g = Ok (h', idx') ∧ ts idx' = ts idx ∧
    chain m h' (delta_list idx') l' ∧ (length l' <= length l)%nat ∧
    ((is_readable_idx idx g = true ∧ l' = []) ∨
     (is_readable_idx idx g = false ∧ first_readable g l = None ∧ l' = l) ∨
     (is_readable_idx idx g = false ∧ ∃ l1 x l2, l = l1 ++ x :: l2 ∧
        is_readable (t_min (ver x)) g = true ∧
        (∀ y, y ∈ l1 → is_readable (t_min (ver y)) g = false) ∧
        l' = l1 ++ [(word x, addr x, with_next (ver x) 0)])).
Proof using Type.
  intros Hc Hnd Hf H0. unfold steamGC.
  assert (valid m (delta_list idx) = Ok (match l with [] => false | _ => true end)) as Hv
    by (by inversion Hc).
  rewrite Hv. cbn [rbind]. destruct l as [| z l0]; cbn [negb].
  { exists h, idx, []. repeat split; [done | done |]. destruct (is_readable_idx idx g); tauto. }
  remember (z :: l0) as l eqn:El. clear z l0 El Hv.
  destruct (is_readable_idx idx g) eqn:Er.
  - destruct (free_chain_spec m h _ _ fuel Hc Hnd Hf) as (h' & -> & _).
    exists h', (with_delta idx 0), []. split; [done |]. split; [done |].
    split; [by constructor |]. split; [simpl; lia | by left].
  - rewrite (get_readable_ver_spec _ _ _ _ _ _ Hc Hf). cbn [rbind].
    destruct (first_readable g l) as [x |] eqn:E; cbn [fmap option_fmap option_map].
    + apply first_readable_split in E as (l1 & l2 & -> & Hx & Hl1).
      destruct (chain_lookup _ _ _ _ x Hc) as (Hvx & Hdx & Hhx).
      { rewrite elem_of_app. right. left. }
      rewrite Hvx. cbn [rbind negb]. rewrite (load_chain _ _ _ _ _ Hdx Hhx). cbn [rbind].
      rewrite length_app in Hf. simpl in Hf.
      destruct (cut_and_free _ _ _ _ _ _ fuel Hc Hnd ltac:(lia) H0) as (h' & -> & Hc').
      exists h', idx, (l1 ++ [(word x, addr x, with_next (ver x) 0)]).
      split; [done |]. split; [done |]. split; [done |].
      split; [rewrite !length_app; simpl; lia |]. right. right. split; [done |].
      exists l1, x, l2. done.
    + exists h, idx, l. split; [done |]. split; [done |].
      split; [done |]. split; [done |]. right. left. done.
Qed.

(** *** Writing over versions *)

Lemma overlaps_false lo n lo' n' : 0 < n → 0 < n' → overlaps lo n lo' n' = false →
  lo' + n' <= lo ∨ lo + n <= lo'.
Proof using Type. unfold overlaps. intros Hn Hn'. lia. Qed.

(** A store outside the buffer leaves it alone. *)
Lemma overwrite_apart start img lo bs :
  overlaps lo (zlen bs) start (zlen img) = false → overwrite start img lo bs = img.
Proof using Type.
  intros Ho. unfold overwrite. apply list_eq. intros i. rewrite list_lookup_imap.
  destruct (img !! i) as [b |] eqn:E; [| done]. simpl. f_equal.
  apply lookup_lt_Some in E. destruct (Z.leb_spec lo (start + Z.of_nat i)); [| done].
  rewrite lookup_ge_None_2; [done |]. unfold overlaps, zlen in *. lia.
Qed.

(** What lies in front of the store stays, what it covers is replaced. *)
Lemma overwrite_tail start img lo bs :
  start <= lo <= start + zlen img → start + zlen img <= lo + zlen bs →
  overwrite start img lo bs =
    take (Z.to_nat (lo - start)) img ++ take (Z.to_nat (start + zlen img - lo)) bs.
Proof using Type.
  intros Hlo Hhi. unfold zlen in *. apply list_eq. intros i. unfold overwrite.
  rewrite list_lookup_imap.
  destruct (decide (i < Z.to_nat (lo - start))%nat) as [Hi | Hi].
  - rewrite lookup_app_l by (rewrite length_take; lia). rewrite lookup_take_lt by done.
    destruct (img !! i) as [b |]; [| done]. simpl.
    destruct (Z.leb_spec lo (start + Z.of_nat i)); [lia | done].
  - rewrite lookup_app_r by (rewrite length_take; lia). rewrite length_take.
    destruct (decide (i < length img)%nat) as [Hl | Hl].
    + destruct (lookup_lt_is_Some_2 img i Hl) as [b ->]. simpl.
      rewrite (proj2 (Z.leb_le _ _)) by lia.
      rewrite lookup_take_lt by lia.
      replace (i - Z.to_nat (lo - start) `min` length img)%nat
        with (Z.to_nat (start + Z.of_nat i - lo)) by lia.
      destruct (lookup_lt_is_Some_2 bs (Z.to_nat (start + Z.of_nat i - lo))) as [c ->]; [lia | done].
    + rewrite (lookup_ge_None_2 img) by lia. simpl. rewrite lookup_take_ge by lia. done.
Qed.

Lemma overwrite_len start img lo bs : zlen (overwrite start img lo bs) = zlen img.
Proof using Type. unfold overwrite, zlen. by rewrite length_imap. Qed.

(** Storing [n] bytes at [lo] misses the header, or the whole, of a version of a chain. *)
Definition header_apart (lo n : Z) (x : Z * Z * Version) : Prop :=
  overlaps lo n (addr x) sizeof_version = false.
Definition apart (lo n : Z) (x : Z * Z * Version) : Prop :=
  header_apart lo n x ∧ overlaps lo n (version_data (addr x)) (zlen (image (ver x))) = false.

(** The link after the store. *)
Definition damaged (lo : Z) (bs : list Z) (x : Z * Z * Version) : Z * Z * Version :=
  (word x, addr x, with_image (ver x) (overwrite (version_data (addr x)) (image (ver x)) lo bs)).

Lemma damaged_apart lo bs (l : list (Z * Z * Version)) : (∀ x, x ∈ l → apart lo (zlen bs) x) → damaged lo bs <$> l = l.
Proof using Type.
  induction l as [| [[w a] v] l IH]; intros Ha; [done |]. rewrite fmap_cons, IH.
  - f_equal. unfold damaged. rewrite overwrite_apart; [by destruct v |]. by apply (Ha (w, a, v)); left.
  - intros x Hx. apply Ha. by right.
Qed.

Lemma chain_store m h w l lo bs : chain m h w l →
  (∀ x, x ∈ l → header_apart lo (zlen bs) x) →
  chain m (store_bytes lo bs h) w (damaged lo bs <$> l).
Proof using Type.
  intros Hc Ha. induction Hc as [w Hv | w a v l Hv Hd Hh Hc IH]; [by constructor |].
  rewrite fmap_cons. unfold damaged at 1. cbn [word addr ver fst snd]. constructor; [done | done | |].
  - unfold store_bytes. rewrite map_lookup_imap, Hh. simpl. unfold damage.
    by rewrite (Ha (w, a, v) ltac:(left)).
  - apply IH. intros x Hx. apply Ha. by right.
Qed.

(** A header constructed at a fresh place has an address of its own. *)
Lemma header_apart_ne a x : header_apart a sizeof_version x → addr x ≠ a.
Proof using Type.
  unfold header_apart, overlaps. pose proof sizeof_pos. intros Ho E. rewrite E in Ho. lia.
Qed.

(** Creating a version links the old head behind a copy of the main version's time; the
    versions behind it keep their headers when the new one misses them. *)
Lemma create_versions_spec m h idx l rs w junk :
  chain m h (delta_list idx) l → valid m 0 = Ok false →
  valid m w = Ok true → ∀ a, deref m w = Ok (Some a) →
  (∀ x, x ∈ l → header_apart a sizeof_version x) →
  ∃ nx, let v := mk_ver (Common.t_min (ts idx)) 0 junk rs nx in
    let h' := <[a := v]> (store_bytes a (object_bytes a v) h) in
    create_versions m h idx rs w junk = Ok (a, h', with_delta idx w) ∧
    chain m h' w ((w, a, v) :: (damaged a (object_bytes a v) <$> l)).
Proof using Type.
  intros Hc H0 Hv a Hd Hfresh. unfold create_versions. rewrite Hd. simpl.
  assert (∀ nx, let v := mk_ver (Common.t_min (ts idx)) 0 junk rs nx in chain m h nx l →
    chain m (<[a := v]> (store_bytes a (object_bytes a v) h)) w
      ((w, a, v) :: (damaged a (object_bytes a v) <$> l))) as Hlink.
  { intros nx v Hnx. econstructor; [done | done | by rewrite lookup_insert_eq |]. simpl.
    apply chain_frame.
    - apply chain_store; [done |]. intros x Hx. rewrite object_len. by apply Hfresh.
    - intros x (y & -> & Hy)%list_elem_of_fmap. exact (header_apart_ne a y (Hfresh y Hy)). }
  inversion Hc as [w' Hv' | w' a' v' l' Hv' Hd' Hh' Hc']; subst; rewrite Hv'; simpl.
  - exists 0. split; [done |]. apply Hlink. by constructor.
  - exists (delta_list idx). split; [done |]. by apply Hlink.
Qed.

(** The version a transaction sees does not change when the chain is cut behind a
    version it can read. *)
Lemma first_readable_cut xact l1 x l2 :
  is_readable (t_min (ver x)) xact = true →
  (λ y, image (ver y)) <$> first_readable xact (l1 ++ [(word x, addr x, with_next (ver x) 0)]) =
  (λ y, image (ver y)) <$> first_readable xact (l1 ++ x :: l2).
Proof using Type.
  intros Hx. induction l1 as [| z l1 IH]; simpl.
  - unfold ver in *. simpl. by rewrite Hx.
  - by destruct (is_readable (t_min (ver z)) xact).
Qed.

(** The timestamps a walk from the index entry can meet. *)
Definition stamps (idx : IndexVal) (l : list (Z * Z * Version)) : list Z :=
  Common.t_min (ts idx) :: ((λ x, t_min (ver x)) <$> l).

Lemma visible_same m h h' idx idx' l l' fuel xact :
  chain m h (delta_list idx) l → chain m h' (delta_list idx') l' →
  (length l < fuel)%nat → (length l' < fuel)%nat → ts idx' = ts idx →
  (is_readable_idx idx xact = false →
     (λ y, image (ver y)) <$> first_readable xact l' =
     (λ y, image (ver y)) <$> first_readable xact l) →
  visible_image fuel m h' idx' xact = visible_image fuel m h idx xact.
Proof using Type.
  intros Hc Hc' Hf Hf' Hts Heq.
  rewrite (visible_image_spec m h idx l), (visible_image_spec m h' idx' l') by done.
  assert (is_readable_idx idx' xact = is_readable_idx idx xact) as ->
    by (unfold is_readable_idx; by rewrite Hts).
  destruct (is_readable_idx idx xact); [done |]. specialize (Heq eq_refl).
  destruct (first_readable xact l) as [x |], (first_readable xact l') as [y |];
    simplify_eq/=; [| done]. by rewrite Heq.
Qed.

End chains.

(** C25: Steam garbage collection of one record at a global minimum [g] terminates, leaves
    what every transaction that starts no earlier than [g] reads unchanged, and keeps
    no more than it must: of the versions left in the chain only the last can be
    visible at [g]. *)
Theorem steamGC_preserves_snapshots {M : Type} `{DeltaMemory M} (m : M) (h : heap)
    (idx : IndexVal) (l : list (Z * Z * Version)) (fuel : nat) (g : TxnTs) :
  chain m h (delta_list idx) l → NoDup (addr <$> l) → (length l < fuel)%nat →
  valid m 0 = Ok false → (∀ t, t ∈ stamps idx l → orderly g t) →
  ∃ h' idx' l', steamGC fuel m h idx g = Ok (h', idx') ∧
    chain m h' (delta_list idx') l' ∧ ts idx' = ts idx ∧
    (∀ xact, txn_start_time g <= txn_start_time xact →
       (∀ t, t ∈ stamps idx l → orderly xact t) →
       visible_image fuel m h' idx' xact = visible_image fuel m h idx xact) ∧
    (∀ y, y ∈ removelast l' → is_readable (t_min (ver y)) g = false).
Proof.
  intros Hc Hnd Hf H0 Hg.
  destruct (steamGC_spec m h idx l fuel g Hc Hnd Hf H0)
    as (h' & idx' & l' & E & Hts & Hc' & Hlen & Hcase).
  exists h', idx', l'. split; [done |]. split; [done |]. split; [done |]. split.
  - intros xact Hle Hx. apply (visible_same m h h' idx idx' l l' fuel xact); try done; [lia |].
    assert (∀ t, t ∈ stamps idx l → is_readable t g = true → is_readable t xact = true) as Hmono.
    { intros t Ht. apply orderly_mono; auto. }
    intros Hidx. destruct Hcase as [[Hr ->] | [(Hr & _ & ->) | (Hr & l1 & x & l2 & -> & Hrx & _ & ->)]].
    + unfold is_readable_idx in *. rewrite (Hmono _ ltac:(left) Hr) in Hidx. discriminate.
    + done.
    + apply first_readable_cut. apply Hmono; [| done]. right.
      apply list_elem_of_fmap. exists x. split; [done |]. rewrite elem_of_app. right. left.
  - destruct Hcase as [[Hr ->] | [(Hr & Hn & ->) | (Hr & l1 & x & l2 & -> & Hrx & Hl1 & ->)]].
    + by intros y ?%not_elem_of_nil.
    + intros y Hy. assert (y ∈ l) as Hin.
      { clear -Hy. induction l as [| a [| b l] IH]; [done | by apply not_elem_of_nil in Hy |].
        apply elem_of_cons in Hy as [-> | Hy]; [left | right; by apply IH]. }
      pose proof (List.find_none _ _ Hn y ltac:(by apply list_elem_of_In)) as Hy'. exact Hy'.
    + rewrite removelast_last. exact Hl1.
Qed.

(** Creating a version before a write is what makes the write invisible to older
    snapshots: when the version's buffer holds the main record [main] and the entry is then
    restamped with the writer's start time [X], a transaction that starts before [X] but not
    before the old stamp reads [main] from the chain, an older one reads what it read before,
    and one that starts at [X] or later reads the main columns.  The new header must not lie
    on bytes of the versions of the chain. *)
Theorem create_versions_preserves_snapshots {M : Type} `{DeltaMemory M} `{VL : VersionLayout}
    (m : M) (h : heap)
    (idx : IndexVal) (l : list (Z * Z * Version)) (fuel : nat) (rs w a X : Z) (main : list Z)
    (xact : TxnTs) :
  chain m h (delta_list idx) l → (length l + 1 < fuel)%nat → valid m 0 = Ok false →
  valid m w = Ok true → deref m w = Ok (Some a) →
  (∀ x, x ∈ l → apart a sizeof_version x) →
  0 <= X < 2 ^ 63 → orderly xact X → (∀ t, t ∈ stamps idx l → orderly xact t) →
  Common.t_min (ts idx) <= X →
  ∃ h' idx', create_versions m h idx rs w main = Ok (a, h', idx') ∧
    visible_image fuel m h' (with_ts idx' (set_t_min (ts idx') X)) xact =
      (if X <=? txn_start_time xact then Ok None
       else if Common.t_min (ts idx) <=? txn_start_time xact then Ok (Some main)
       else visible_image fuel m h idx xact).
Proof.
  intros Hc Hf H0 Hv Hd Hfresh HX HoX Ho Hle.
  destruct (create_versions_spec m h idx l rs w main Hc H0 Hv a Hd) as (nx & E & Hc').
  { intros x Hx. by apply Hfresh. }
  set (v := mk_ver _ _ _ _ _) in *. do 2 eexists. split; [exact E |].
  rewrite damaged_apart in Hc' by (intros x Hx; rewrite object_len; by apply Hfresh).
  rewrite (visible_image_spec m _ _ ((w, a, v) :: l)); [| exact Hc' | simpl; lia].
  rewrite (visible_image_spec m h idx l) by (done || lia).
  unfold is_readable_idx. simpl. rewrite (wrap_id 63) by done. rewrite HoX.
  rewrite (Ho (Common.t_min (ts idx)) ltac:(left)).
  destruct (X <=? txn_start_time xact); [done |].
  by destruct (Common.t_min (ts idx) <=? txn_start_time xact).
Qed.

(** *** Witnesses, on the malloc store's raw pointers *)

Definition ex_heap : heap :=
  {[ 64 := mk_ver 6 0 [60] 1 128; 128 := mk_ver 4 0 [40] 1 192; 192 := mk_ver 2 0 [20] 1 0 ]}.
Definition ex_idx : IndexVal := mk_idx (mk_ts false 9) 0 false false 64.
Definition ex_chain : list (Z * Z * Version) :=
  [(64, 64, mk_ver 6 0 [60] 1 128); (128, 128, mk_ver 4 0 [40] 1 192);
   (192, 192, mk_ver 2 0 [20] 1 0)].
(** The layout of the packed class with a virtual table: table pointer, stamps, buffer, size,
    link. *)
#[local] Program Instance ex_layout : VersionLayout := {|
  sizeof_version := 48;
  alignof_version := 1;
  object_bytes := λ a v, le64 4096 ++ le64 (t_min v) ++ le64 (t_max v) ++
    le64 (a + 1 + 48) ++ le64 (size v) ++ le64 (next v)
|}.
Next Obligation. done. Qed.
Next Obligation. done. Qed.
Next Obligation. done. Qed.

Definition ex_ts (n : Z) : TxnTs := mk_TxnTs (Z.shiftl n 27) n.

Lemma ex_chain_ok : chain tt ex_heap (delta_list ex_idx) ex_chain.
Proof. repeat (econstructor; [reflexivity | reflexivity | reflexivity |]). by constructor. Qed.

Lemma steamGC_preserves_snapshots_witness :
  ∃ h' idx' l', steamGC 4 tt ex_heap ex_idx (ex_ts 5) = Ok (h', idx') ∧
    chain tt h' (delta_list idx') l' ∧ ts idx' = ts ex_idx ∧
    (∀ xact, 5 <= txn_start_time xact →
       (∀ t, t ∈ stamps ex_idx ex_chain → orderly xact t) →
       visible_image 4 tt h' idx' xact = visible_image 4 tt ex_heap ex_idx xact) ∧
    (∀ y, y ∈ removelast l' → is_readable (t_min (ver y)) (ex_ts 5) = false).
Proof.
  apply (steamGC_preserves_snapshots tt ex_heap ex_idx ex_chain 4 (ex_ts 5)).
  - exact ex_chain_ok.
  - apply (bool_decide_unpack _). vm_compute. exact I.
  - simpl. lia.
  - reflexivity.
  - intros t Ht. unfold stamps in Ht. simpl in Ht.
    repeat (apply elem_of_cons in Ht as [-> | Ht]; [reflexivity |]). by apply not_elem_of_nil in Ht.
Defined.

Lemma create_versions_preserves_snapshots_witness :
  ∃ h' idx', create_versions tt ex_heap ex_idx 1 256 [90] = Ok (256, h', idx') ∧
    visible_image 5 tt h' (with_ts idx' (set_t_min (ts idx') 12)) (ex_ts 10) = Ok (Some [90]).
Proof.
  apply (create_versions_preserves_snapshots tt ex_heap ex_idx ex_chain 5 1 256 256 12 [90] (ex_ts 10)).
  - exact ex_chain_ok.
  - simpl. lia.
  - reflexivity.
  - reflexivity.
  - reflexivity.
  - intros x Hx. unfold ex_chain in Hx.
    repeat (apply elem_of_cons in Hx as [-> | Hx]; [split; reflexivity |]). by apply not_elem_of_nil in Hx.
  - lia.
  - reflexivity.
  - intros t Ht. unfold stamps in Ht. simpl in Ht.
    repeat (apply elem_of_cons in Ht as [-> | Ht]; [reflexivity |]). by apply not_elem_of_nil in Ht.
  - simpl. lia.
Defined.

(** ** The buffer leaves its chunk *)

(** The buffer ends [alignof_version] bytes behind the chunk that was asked for. *)
Lemma version_buffer_overruns_chunk `{VL : VersionLayout} base rs :
  version_data base + rs = base + version_chunk_size rs + alignof_version.
Proof. unfold version_data, version_chunk_size. lia. Qed.

End Versions.
