(* ===== verification/DeltaStore.v ===== *)
(** * DeltaStore: the circular delta store that holds old record versions
    ([oltp/storage/multi-version/delta_storage.{hpp,cpp}]).

    [Module DeltaPartition] models one partition: a bump allocator over a pinned
    chunk, with a per-thread slack cache in front of the shared cursor.
    The store that owns the partitions is in [CircularDeltaStore], the interleavings of its
    reader count in [ReaderProtocol]. *)

From S2P Require Import Prelude Common DeltaPtr.
From Stdlib Require Import ZArith Lia Bool.
From stdpp Require Import base numbers list gmap sets.

Local Open Scope Z_scope.
Local Open Scope res_scope.

(** Thread identifiers. *)
Abbreviation tid := nat.

Module DeltaPartition.

Definition slack_size : Z := 8192.

(** [ptr] is a [uintptr_t], [remaining_slack] an [int]. *)
Record DeltaSlackCache : Type := mk_cache { ptr : Z; remaining_slack : Z }.

Record DeltaPartition : Type := mk {
  threadLocal_cache : gmap tid DeltaSlackCache;
  ver_data_cursor : Z;
  delta_id : delta_id_t;
  pid : partition_id_t;
  mem_data : Z;                      (* ver_data_mem.data *)
  mem_size : Z;                      (* ver_data_mem.size *)
  touched : bool;
  data_cursor_max : Z;
  consolidateHT : gmap Z (list Z)    (* row_uuid -> DeltaDataPtr words *)
}.

(** Conversion of a [size_t] to [int]. *)
Definition to_int (x : Z) : Z := let y := u32 x in if y <? 2 ^ 31 then y else y - 2 ^ 32.

Definition create_delta_uuid (d_id : delta_id_t) (partitionId : partition_id_t) : Z :=
  Z.lor (u16 (Z.shiftl (Z.lor 0 d_id) 8)) partitionId.
Definition get_delta_id (delta_uuid : Z) : Z := Z.shiftr delta_uuid 8.
Definition get_delta_pid (delta_uuid : Z) : Z := Z.land delta_uuid 0x00FF.

(** The constructor: the cursor starts at the base of the chunk. *)
Definition new (cursor data size : Z) (p : partition_id_t) (d : delta_id_t)
  : DeltaPartition :=
  mk ∅ cursor d p data size false (u64 (cursor + size)) ∅.

(** The shared bump allocator. *)
Definition getVersionDataChunk (p : DeltaPartition) (rec_size : Z)
  : res (Z * DeltaPartition) :=
  let tmp := ver_data_cursor p in
  check negb (data_cursor_max p <? u64 (tmp + rec_size)) else Fatal;
  Ok (tmp, mk (threadLocal_cache p) (u64 (tmp + rec_size)) (delta_id p) (pid p) (mem_data p)
             (mem_size p) true (data_cursor_max p) (consolidateHT p)).

(** The thread-local allocator: refill the slack from the shared cursor when the
    request exceeds it, then bump the slack.  [rec_size > remaining_slack]
    compares as [size_t]. *)
Definition getVersionDataChunk_ThreadLocal2 (t : tid) (p : DeltaPartition)
    (rec_size : Z) : res (Z * DeltaPartition) :=
  do slack_cache <- of_option OutOfRange (threadLocal_cache p !! t);
  do (sc, cursor) <-
    (if u64 (remaining_slack slack_cache) <? rec_size then
       let ptr' := ver_data_cursor p in
       check (mem_data p <=? ptr') && (ptr' <? data_cursor_max p) else AssertFailed;
       Ok (mk_cache ptr' slack_size, u64 (ver_data_cursor p + slack_size))
     else Ok (slack_cache, ver_data_cursor p));
  let tmp := ptr sc in
  let sc' := mk_cache (u64 (ptr sc + rec_size))
                      (to_int (u64 (remaining_slack sc) - rec_size)) in
  Ok (tmp, mk (<[t := sc']> (threadLocal_cache p)) cursor (delta_id p) (pid p) (mem_data p)
             (mem_size p) true (data_cursor_max p) (consolidateHT p)).

(** [_threadLocal_cache[tid]] default-constructs, then a first chunk is taken. *)
Definition initSlackCache (t : tid) (p : DeltaPartition) : res DeltaPartition :=
  let c := default (mk_cache 0 0) (threadLocal_cache p !! t) in
  let p1 := mk (<[t := c]> (threadLocal_cache p)) (ver_data_cursor p) (delta_id p) (pid p)
               (mem_data p) (mem_size p) (touched p) (data_cursor_max p) (consolidateHT p) in
  do (_, p2) <- getVersionDataChunk_ThreadLocal2 t p1 8;
  Ok (mk (threadLocal_cache p2) (ver_data_cursor p2) (delta_id p2) (pid p2) (mem_data p2)
         (mem_size p2) true (data_cursor_max p2) (consolidateHT p2)).

Definition reset (p : DeltaPartition) : DeltaPartition :=
  if touched p then
    mk ((λ c, mk_cache (ptr c) 0) <$> threadLocal_cache p) (mem_data p) (delta_id p) (pid p)
       (mem_data p) (mem_size p) false (data_cursor_max p)
       (if decide (consolidateHT p = ∅) then consolidateHT p else ∅)
  else
    mk (threadLocal_cache p) (ver_data_cursor p) (delta_id p) (pid p) (mem_data p) (mem_size p)
       false (data_cursor_max p) (consolidateHT p).

(** [update_fn], falling back to [insert]. *)
Definition saveInstanceCrossingPtr (p : DeltaPartition) (row_uuid : row_uuid_t) (dptr : Z)
  : DeltaPartition :=
  let ht := match consolidateHT p !! row_uuid with
            | Some v => <[row_uuid := v ++ [dptr]]> (consolidateHT p)
            | None => <[row_uuid := [dptr]]> (consolidateHT p)
            end in
  mk (threadLocal_cache p) (ver_data_cursor p) (delta_id p) (pid p) (mem_data p) (mem_size p)
     (touched p) (data_cursor_max p) ht.

(** ** The allocator as a transition system

    [live] is the ghost list of chunks handed out since the last reset. *)

Definition chunk : Type := (Z * Z)%type.    (* address, length *)

(** Two address ranges share no byte. *)
Definition disj (a n b m : Z) : Prop := n <= 0 ∨ m <= 0 ∨ a + n <= b ∨ b + m <= a.

Inductive step : DeltaPartition * list chunk → DeltaPartition * list chunk → Prop :=
  | step_init t p p' live :
      threadLocal_cache p !! t = None →
      initSlackCache t p = Ok p' →
      step (p, live) (p', live)
  | step_alloc t p p' live rec_size a :
      0 < rec_size <= slack_size →
      getVersionDataChunk_ThreadLocal2 t p rec_size = Ok (a, p') →
      step (p, live) (p', (a, rec_size) :: live)
  | step_reset p live :
      step (p, live) (reset p, []).

(** The chunk is a whole number of slack refills, inside the address space. *)
Definition geometry (base size : Z) : Prop :=
  0 < base ∧ 0 < size ∧ base + size + slack_size < 2 ^ 63 ∧ size mod slack_size = 0.

Record inv (base size : Z) (s : DeltaPartition * list chunk) : Prop := {
  inv_data : mem_data s.1 = base;
  inv_max : data_cursor_max s.1 = base + size;
  inv_cursor : base <= ver_data_cursor s.1 <= base + size;
  inv_align : (ver_data_cursor s.1 - base) mod slack_size = 0;
  inv_cache : ∀ t c, threadLocal_cache s.1 !! t = Some c →
    0 <= remaining_slack c <= slack_size ∧
    (0 < remaining_slack c →
       base <= ptr c ∧ ptr c + remaining_slack c <= ver_data_cursor s.1);
  inv_caches : ∀ t1 t2 c1 c2, t1 ≠ t2 →
    threadLocal_cache s.1 !! t1 = Some c1 → threadLocal_cache s.1 !! t2 = Some c2 →
    disj (ptr c1) (remaining_slack c1) (ptr c2) (remaining_slack c2);
  inv_live : ∀ a n, (a, n) ∈ s.2 → base <= a ∧ a + n <= ver_data_cursor s.1;
  inv_live_cache : ∀ a n t c, (a, n) ∈ s.2 → threadLocal_cache s.1 !! t = Some c →
    disj a n (ptr c) (remaining_slack c);
  inv_live_disj : ∀ i j a n b m, i ≠ j → s.2 !! i = Some (a, n) → s.2 !! j = Some (b, m) →
    disj a n b m;
  inv_touched : touched s.1 = false →
    s.2 = [] ∧ ∀ t c, threadLocal_cache s.1 !! t = Some c → remaining_slack c = 0
}.

Lemma to_int_id x : 0 <= x < 2 ^ 31 → to_int x = x.
Proof. intros Hx. unfold to_int. rewrite wrap_id by lia. by rewrite (proj2 (Z.ltb_lt _ _)) by lia. Qed.

Lemma disj_sym a n b m : disj a n b m → disj b m a n.
Proof. unfold disj. lia. Qed.

Section allocator.
Context (base size : Z).
Hypothesis (Hgeo : geometry base size).

(** What a successful thread-local allocation did, cache hit or refill. *)
Lemma alloc_cases t p live n a p' :
  inv base size (p, live) → 0 < n <= slack_size →
  getVersionDataChunk_ThreadLocal2 t p n = Ok (a, p') →
  ∃ c cur, threadLocal_cache p !! t = Some c ∧
    p' = mk (<[t := mk_cache (a + n) (remaining_slack cur - n)]> (threadLocal_cache p))
            (ver_data_cursor p') (delta_id p) (pid p) (mem_data p) (mem_size p) true
            (data_cursor_max p) (consolidateHT p) ∧
    a = ptr cur ∧ n <= remaining_slack cur <= slack_size ∧
    ((cur = c ∧ ver_data_cursor p' = ver_data_cursor p) ∨
     (cur = mk_cache (ver_data_cursor p) slack_size ∧
      ver_data_cursor p' = ver_data_cursor p + slack_size ∧
      ver_data_cursor p < base + size)).
Proof using Hgeo.
  intros Hinv Hn Ha. destruct Hgeo as (Hb & Hs & Hw & Hm).
  unfold getVersionDataChunk_ThreadLocal2 in Ha.
  apply rbind_Ok_inv in Ha as (c & Hc%of_option_Ok & Ha).
  pose proof (inv_cache _ _ _ Hinv t c Hc) as [Hr Hp].
  pose proof (inv_cursor _ _ _ Hinv) as Hcur.
  pose proof (inv_data _ _ _ Hinv) as Hd. pose proof (inv_max _ _ _ Hinv) as Hmx.
  simpl in *. unfold slack_size in *. rewrite (wrap_id 64 (remaining_slack c)) in Ha by lia.
  exists c. destruct (Z.ltb_spec (remaining_slack c) n) as [Hlt | Hge].
  - destruct ((mem_data p <=? ver_data_cursor p) && (ver_data_cursor p <? data_cursor_max p))
      eqn:Ec; [| discriminate].
    apply andb_true_iff in Ec as [_ Ec%Z.ltb_lt]. cbn [rbind] in Ha. injection Ha as <- <-.
    exists (mk_cache (ver_data_cursor p) 8192). simpl.
    rewrite !wrap_id, to_int_id by (rewrite ?wrap_id; lia).
    split; [done |]. split; [done |]. split; [done |]. split; [lia |]. right.
    split; [done |]. split; [done | lia].
  - cbn [rbind] in Ha. injection Ha as <- <-. exists c. simpl.
    assert (0 < remaining_slack c) as Hpos by lia. specialize (Hp Hpos).
    rewrite !wrap_id, to_int_id by (rewrite ?wrap_id; lia).
    split; [done |]. split; [done |]. split; [done |]. split; [lia |]. by left.
Qed.

(** The slack the allocation was served from is private to the thread. *)
Lemma alloc_region t p live n a p' c cur :
  inv base size (p, live) → threadLocal_cache p !! t = Some c →
  a = ptr cur → 0 < n <= remaining_slack cur → remaining_slack cur <= slack_size →
  ((cur = c ∧ ver_data_cursor p' = ver_data_cursor p) ∨
   (cur = mk_cache (ver_data_cursor p) slack_size ∧
    ver_data_cursor p' = ver_data_cursor p + slack_size ∧
    ver_data_cursor p < base + size)) →
  base <= a ∧ a + remaining_slack cur <= ver_data_cursor p' ∧
  ver_data_cursor p <= ver_data_cursor p' <= base + size ∧
  (ver_data_cursor p' - base) mod slack_size = 0 ∧
  (∀ t2 c2, t2 ≠ t → threadLocal_cache p !! t2 = Some c2 →
     disj a (remaining_slack cur) (ptr c2) (remaining_slack c2)) ∧
  (∀ b m, (b, m) ∈ live → disj b m a (remaining_slack cur)).
Proof using Hgeo.
  intros Hinv Hc -> Hn Hs Hcase. destruct Hgeo as (Hb & Hs0 & Hw & Hm).
  pose proof (inv_cursor _ _ _ Hinv) as Hcu. pose proof (inv_align _ _ _ Hinv) as Hal.
  destruct (inv_cache _ _ _ Hinv t c Hc) as [Hr Hp]. simpl in *.
  destruct Hcase as [[-> ->] | (-> & -> & Hlt)]; simpl in *.
  - specialize (Hp ltac:(lia)). split; [lia |]. split; [lia |]. split; [lia |].
    split; [done |]. split.
    + intros t2 c2 Hne H2. by eapply (inv_caches _ _ _ Hinv t t2); eauto.
    + intros b m Hin. by eapply (inv_live_cache _ _ _ Hinv).
  - unfold slack_size in *. split; [lia |]. split; [lia |].
    assert (ver_data_cursor p + 8192 <= base + size) by (Z.div_mod_to_equations; lia).
    split; [lia |]. split; [Z.div_mod_to_equations; lia |]. split.
    + intros t2 c2 Hne H2. destruct (inv_cache _ _ _ Hinv t2 c2 H2) as [Hr2 Hp2]. simpl in *.
      unfold disj. lia.
    + intros b m Hin. destruct (inv_live _ _ _ Hinv b m Hin). simpl in *. unfold disj. lia.
Qed.

Lemma alloc_inv t p live n a p' :
  inv base size (p, live) → 0 < n <= slack_size →
  getVersionDataChunk_ThreadLocal2 t p n = Ok (a, p') →
  inv base size (p', (a, n) :: live).
Proof using Hgeo.
  intros Hinv Hn Ha. destruct (alloc_cases t p live n a p' Hinv Hn Ha)
    as (c & cur & Hc & Hp' & Hacur & Hr & Hcase).
  destruct (alloc_region t p live n a p' c cur Hinv Hc Hacur ltac:(lia) ltac:(lia) Hcase)
    as (Hlo & Hhi & Hcu & Hal & Hother & Hlive).
  set (nc := mk_cache (a + n) (remaining_slack cur - n)) in *.
  assert (∀ t2 c2, threadLocal_cache p' !! t2 = Some c2 →
            (t2 = t ∧ c2 = nc) ∨ (t2 ≠ t ∧ threadLocal_cache p !! t2 = Some c2)) as Hlook.
  { intros t2 c2 H2. rewrite Hp' in H2. simpl in H2.
    apply lookup_insert_Some in H2 as [[<- <-] | [? ?]]; eauto. }
  split; simpl.
  - rewrite Hp'. apply (inv_data _ _ _ Hinv).
  - rewrite Hp'. apply (inv_max _ _ _ Hinv).
  - pose proof (inv_cursor _ _ _ Hinv). simpl in *. lia.
  - done.
  - intros t2 c2 [[-> ->] | [_ H2]]%Hlook; [simpl; lia |].
    destruct (inv_cache _ _ _ Hinv t2 c2 H2). simpl in *. lia.
  - intros t1 t2 c1 c2 Hne [[-> ->] | [N1 H1]]%Hlook [[-> ->] | [N2 H2]]%Hlook; try done.
    + specialize (Hother t2 c2 N2 H2). unfold disj in *. simpl. lia.
    + specialize (Hother t1 c1 N1 H1). unfold disj in *. simpl. lia.
    + by eapply (inv_caches _ _ _ Hinv t1 t2).
  - intros b m [[= -> ->] | Hin]%elem_of_cons; [lia |].
    destruct (inv_live _ _ _ Hinv b m Hin). simpl in *. lia.
  - intros b m t2 c2 [[= -> ->] | Hin]%elem_of_cons [[-> ->] | [N2 H2]]%Hlook.
    + unfold disj. simpl. lia.
    + specialize (Hother t2 c2 N2 H2). unfold disj in *. simpl. lia.
    + specialize (Hlive b m Hin). unfold disj in *. simpl. lia.
    + by eapply (inv_live_cache _ _ _ Hinv).
  - intros [| i] [| j] b m b' m' Hne H1 H2; simpl in *; try done.
    + injection H1 as <- <-. apply list_elem_of_lookup_2 in H2.
      specialize (Hlive _ _ H2). unfold disj in *. lia.
    + injection H2 as <- <-. apply list_elem_of_lookup_2 in H1.
      specialize (Hlive _ _ H1). unfold disj in *. lia.
    + eapply (inv_live_disj _ _ _ Hinv i j); eauto.
  - by rewrite Hp'.
Qed.

(** Forgetting a chunk keeps the invariant. *)
Lemma inv_drop p x live : inv base size (p, x :: live) → touched p = true →
  inv base size (p, live).
Proof using Type.
  intros H Ht. destruct H. split; simpl in *; try done.
  - intros. apply inv_live0. by right.
  - intros a n t c Hin. apply inv_live_cache0. by right.
  - intros i j a n b m Hne Hi Hj. by apply (inv_live_disj0 (S i) (S j)); [congruence | |].
  - congruence.
Qed.

Lemma alloc_touched t p n a p' :
  getVersionDataChunk_ThreadLocal2 t p n = Ok (a, p') → touched p' = true.
Proof using Type.
  unfold getVersionDataChunk_ThreadLocal2. intros H. res_inv. done.
Qed.

Lemma slack_init_inv t p p' live :
  inv base size (p, live) → threadLocal_cache p !! t = None →
  initSlackCache t p = Ok p' → inv base size (p', live).
Proof using Hgeo.
  intros Hinv Hnone Hi. unfold initSlackCache in Hi. rewrite Hnone in Hi. cbn in Hi.
  apply rbind_Ok_inv in Hi as ([a p2] & Ha & Hp'). injection Hp' as <-.
  assert (p2 = mk (threadLocal_cache p2) (ver_data_cursor p2) (delta_id p2) (pid p2)
    (mem_data p2) (mem_size p2) true (data_cursor_max p2) (consolidateHT p2)) as <-.
  { apply alloc_touched in Ha. destruct p2; simpl in *. by subst. }
  apply (inv_drop p2 (a, 8)); [| by eapply alloc_touched].
  eapply alloc_inv; [| unfold slack_size; lia | exact Ha].
  assert (∀ t2 c2, <[t := mk_cache 0 0]> (threadLocal_cache p) !! t2 = Some c2 →
            (t2 = t ∧ c2 = mk_cache 0 0) ∨ threadLocal_cache p !! t2 = Some c2) as Hlook.
  { intros t2 c2 [[<- <-] | [? ?]]%lookup_insert_Some; eauto. }
  destruct Hinv. split; simpl in *; try done.
  - intros t2 c2 [[-> ->] | H2]%Hlook; [simpl; unfold slack_size; lia | eauto].
  - intros t1 t2 c1 c2 Hne [[-> ->] | H1]%Hlook [[-> ->] | H2]%Hlook;
      eauto; unfold disj; simpl; lia.
  - intros b m t2 c2 Hin [[-> ->] | H2]%Hlook; eauto. unfold disj. simpl. lia.
  - intros Ht. destruct (inv_touched0 Ht) as [-> Hz]. split; [done |].
    intros t2 c2 [[-> ->] | H2]%Hlook; eauto.
Qed.

Lemma reset_inv p live : inv base size (p, live) → inv base size (reset p, []).
Proof using Hgeo.
  intros Hinv. destruct Hgeo as (Hb & Hs & _ & _). destruct Hinv.
  assert (∀ x : chunk, x ∈ [] → False) as Hnil by (intros x; apply not_elem_of_nil).
  unfold reset. destruct (touched p) eqn:Et; simpl in *.
  - assert (∀ t c, ((λ c, mk_cache (ptr c) 0) <$> threadLocal_cache p) !! t = Some c →
              remaining_slack c = 0) as Hz.
    { intros t c. rewrite lookup_fmap. intros (c0 & _ & ->)%fmap_Some. done. }
    split; simpl; try done; try lia.
    + by rewrite inv_data0, Z.sub_diag.
    + intros t c Hc%Hz. unfold slack_size. lia.
    + intros t1 t2 c1 c2 _ H1%Hz _. unfold disj. lia.
    + by intros a n ?%Hnil.
    + by intros a n t c ?%Hnil.
  - destruct (inv_touched0 Et) as [-> Hz]. split; simpl; try done.
Qed.

Lemma new_inv p d : inv base size (new base base size p d, []).
Proof using Hgeo.
  destruct Hgeo as (Hb & Hs & Hw & Hm).
  unfold new. unfold slack_size in *. split; simpl; try done; try lia.
  - rewrite wrap_id by lia. done.
  - by rewrite Z.sub_diag.
  - by intros a n ?%not_elem_of_nil.
Qed.

Lemma partition_step_inv s s' : inv base size s → step s s' → inv base size s'.
Proof using Hgeo.
  intros Hinv Hstep. destruct Hstep.
  - by eapply slack_init_inv.
  - by eapply alloc_inv.
  - by eapply reset_inv.
Qed.
End allocator.


Definition ex_partition : DeltaPartition := new 8192 8192 (8192 * 4) 0 0.

Definition ok_or {A} (r : res A) (a : A) : A := match r with Ok x => x | Err _ => a end.
Definition ex_p1 : DeltaPartition := ok_or (initSlackCache 7%nat ex_partition) ex_partition.
Definition ex_p2 : DeltaPartition :=
  (ok_or (getVersionDataChunk_ThreadLocal2 7%nat ex_p1 100) (0, ex_partition)).2.


(** A request above [slack_size] breaks out of the slack: after it, the slack counter
    is negative, compares as a huge [size_t], and the next request of the thread is
    served from memory that another thread already owns. *)
Example oversized_request_overlaps :
  (do p1 <- initSlackCache 1%nat ex_partition;
   do p2 <- initSlackCache 2%nat p1;
   do (a, p3) <- getVersionDataChunk_ThreadLocal2 1%nat p2 10000;
   do (b, p4) <- getVersionDataChunk_ThreadLocal2 2%nat p3 8190;
   Ok (a, b)) = Ok (24576, 32768) ∧ ~ disj 24576 10000 32768 8190.
Proof. split; [vm_compute; reflexivity | unfold disj; lia]. Qed.

End DeltaPartition.
