(* ===== verification/ReaderProtocol.v ===== *)
(** * ReaderProtocol: the reader count that guards a circular delta store
    ([increment_reader], [decrement_reader] and [GC] in
    [oltp/storage/multi-version/delta_storage.{hpp,cpp}]) as an interleaving of
    atomic actions.

    A thread registers with [readers++]; if the old value is negative a collection is
    running, and the thread spins until the counter is non-negative and tries again.
    It deregisters with [fetch_sub]; the last one out calls [GC], which claims the store
    by a compare-and-swap from 0 to [INT64_MIN] and gives it back by storing 0, wiping
    the failed increments. *)

From S2P Require Import Prelude.
From Stdlib Require Import ZArith Lia Bool.
From stdpp Require Import base numbers list relations.

Local Open Scope Z_scope.

Module ReaderProtocol.

(** The program points between atomic actions. *)
Inductive pc : Type :=
  | Out        (* not registered *)
  | Spin       (* readers++ returned a negative value: while (readers < 0) *)
  | Again      (* the spin loop was left, before x = readers++ *)
  | Reading    (* registered *)
  | TryGC      (* in GC, before the compare_exchange *)
  | InGC.      (* in GC, after the compare_exchange succeeded *)

#[export] Instance pc_eq_dec : EqDecision pc.
Proof. solve_decision. Defined.

(** The threads, the counter, and how often the store was reset. *)
Record state : Type := mk { threads : list pc; readers : Z; resets : nat }.

Definition goto (s : state) (t : nat) (c : pc) (r : Z) : state :=
  mk (<[t := c]> (threads s)) r (resets s).

(** [auto x = readers++;] and the test on [x]. *)
Definition do_increment (s : state) (t : nat) : state :=
  goto s t (if readers s <? 0 then Spin else Reading) (readers s + 1).

(** [readers.fetch_sub(1) == 1] *)
Definition do_decrement (s : state) (t : nat) : state :=
  goto s t (if readers s =? 1 then TryGC else Out) (readers s - 1).

(** [readers.compare_exchange_weak(0, INT64_MIN)]; a weak exchange may also fail when
    the counter is 0.  When it fails the caller of [GC] goes on at [back]. *)
Definition do_cas (s : state) (t : nat) (back : pc) (spurious : bool) : state :=
  if (readers s =? 0) && negb spurious then goto s t InGC INT64_MIN
  else goto s t back (readers s).

(** The end of [GC]: the store was reset or not, then [readers = 0]. *)
Definition do_finish (s : state) (t : nat) (gc_allowed : bool) : state :=
  mk (<[t := Out]> (threads s)) 0 (if gc_allowed then S (resets s) else resets s).

Inductive step : state → state → Prop :=
  | step_enter s t : threads s !! t = Some Out → step s (do_increment s t)
  | step_leave_spin s t : threads s !! t = Some Spin → 0 <= readers s →
      step s (goto s t Again (readers s))
  | step_again s t : threads s !! t = Some Again → step s (do_increment s t)
  | step_decrement s t : threads s !! t = Some Reading → step s (do_decrement s t)
  | step_call_gc s t : threads s !! t = Some Out → step s (goto s t TryGC (readers s))
  | step_cas s t spurious : threads s !! t = Some TryGC → step s (do_cas s t Out spurious)
  (* a collection that a registered reader starts *)
  | step_reader_cas s t spurious : threads s !! t = Some Reading → step s (do_cas s t Reading spurious)
  | step_finish s t gc_allowed : threads s !! t = Some InGC →
      step s (do_finish s t gc_allowed).

Definition init (n : nat) : state := mk (replicate n Out) 0 0.

Definition at_pc (c c' : pc) : bool := bool_decide (c = c').
Definition num (c : pc) (s : state) : Z := count_if (at_pc c) (threads s).

(** Updating one thread moves one unit between two counts. *)
Lemma num_update c (l : list pc) t a b : l !! t = Some a →
  count_if (at_pc c) (<[t := b]> l) =
  count_if (at_pc c) l - (if at_pc c a then 1 else 0) + (if at_pc c b then 1 else 0).
Proof.
  revert t. induction l as [| x l IH]; intros [| t] Ht; try done; simpl in *.
  - injection Ht as ->. rewrite !count_if_cons. lia.
  - rewrite !count_if_cons, (IH t Ht). lia.
Qed.

Lemma num_nonneg c s : 0 <= num c s.
Proof. unfold num, count_if. lia. Qed.

Lemma num_pos c s : 0 < num c s ↔ ∃ t, threads s !! t = Some c.
Proof.
  unfold num. rewrite count_if_pos. unfold at_pc. split.
  - intros (x & (t & Ht)%list_elem_of_lookup_1 & E%bool_decide_eq_true_1). subst. eauto.
  - intros (t & Ht). exists c. split; [by eapply list_elem_of_lookup_2 | by apply bool_decide_eq_true_2].
Qed.

Lemma num_le c s : num c s <= Z.of_nat (length (threads s)).
Proof. unfold num, count_if. pose proof (List.filter_length_le (at_pc c) (threads s)). lia. Qed.

Record inv (n : nat) (s : state) : Prop := {
  inv_length : length (threads s) = n;
  inv_cases :
    (num InGC s = 0 ∧ readers s = num Reading s) ∨
    (num InGC s = 1 ∧ num Reading s = 0 ∧
     INT64_MIN <= readers s <= INT64_MIN + num Spin s)
}.

(** All counts after one thread moved from [a] to [b]. *)
Lemma num_goto c s t a b r : threads s !! t = Some a →
  num c (goto s t b r) = num c s - (if at_pc c a then 1 else 0) + (if at_pc c b then 1 else 0).
Proof. intros H. unfold num. simpl. by apply num_update. Qed.

Lemma num_finish c s t a k : threads s !! t = Some a →
  num c (do_finish s t k) = num c s - (if at_pc c a then 1 else 0) + (if at_pc c Out then 1 else 0).
Proof. intros H. unfold num. simpl. by apply num_update. Qed.

Section protocol.
Context (n : nat).
Hypothesis (Hn : Z.of_nat n < 2 ^ 62).

(** Evaluates every count at the moved thread and closes the arithmetic. *)
Ltac counts Ht :=
  repeat first [rewrite (num_goto _ _ _ _ _ _ Ht) | rewrite (num_finish _ _ _ _ _ Ht)];
  unfold at_pc; repeat (rewrite bool_decide_eq_true_2 by done);
  repeat (rewrite bool_decide_eq_false_2 by done); simpl.

Lemma inv_goto s t a b r : inv n s → threads s !! t = Some a →
  ((num InGC (goto s t b r) = 0 ∧ r = num Reading (goto s t b r)) ∨
   (num InGC (goto s t b r) = 1 ∧ num Reading (goto s t b r) = 0 ∧
    INT64_MIN <= r <= INT64_MIN + num Spin (goto s t b r))) →
  inv n (goto s t b r).
Proof using Type.
  intros H Ht Hc. split; [simpl; rewrite length_insert; apply (inv_length _ _ H) | exact Hc].
Qed.

Lemma increment_inv s t a : inv n s → threads s !! t = Some a → a = Out ∨ a = Again →
  inv n (do_increment s t).
Proof using Hn.
  intros H Ht Ha. unfold do_increment. eapply inv_goto; [done | done |].
  pose proof (inv_length _ _ H) as Hl. pose proof (num_le Spin s) as Hle. rewrite Hl in Hle.
  pose proof (num_nonneg Reading s). unfold INT64_MIN in *.
  destruct (inv_cases _ _ H) as [[Hg Hr] | (Hg & Hr & Hb)]; unfold INT64_MIN in *.
  - left. rewrite (proj2 (Z.ltb_ge _ _)) by lia.
    destruct Ha as [-> | ->]; counts Ht; lia.
  - right. rewrite (proj2 (Z.ltb_lt _ _)) by lia.
    destruct Ha as [-> | ->]; counts Ht; lia.
Qed.

Lemma reader_step_inv s s' : inv n s → step s s' → inv n s'.
Proof using Hn.
  intros H Hs. pose proof (inv_length _ _ H) as Hl. pose proof (num_le Spin s) as Hle.
  rewrite Hl in Hle.
  destruct Hs as [s t Ht | s t Ht Hr0 | s t Ht | s t Ht | s t Ht | s t sp Ht | s t sp Ht | s t k Ht].
  - eapply increment_inv; eauto.
  - eapply inv_goto; [done | done |]. counts Ht.
    destruct (inv_cases _ _ H) as [[? ?] | (? & ? & ?)]; [left; lia | unfold INT64_MIN in *; lia].
  - eapply increment_inv; eauto.
  - assert (0 < num Reading s) by (apply num_pos; eauto).
    eapply inv_goto; [done | done |].
    destruct (inv_cases _ _ H) as [[? ?] | (? & ? & ?)]; [left | lia].
    destruct (readers s =? 1); counts Ht; lia.
  - eapply inv_goto; [done | done |]. counts Ht.
    destruct (inv_cases _ _ H) as [[? ?] | (? & ? & ?)]; [left | right]; lia.
  - unfold do_cas. destruct (Z.eqb_spec (readers s) 0) as [E |]; simpl.
    + destruct (inv_cases _ _ H) as [[? ?] | (? & ? & ?)]; [| unfold INT64_MIN in *; lia].
      pose proof (num_nonneg Spin s).
      destruct sp; simpl; (eapply inv_goto; [done | done |]); counts Ht; [left | right]; lia.
    + eapply inv_goto; [done | done |]. counts Ht.
      destruct (inv_cases _ _ H) as [[? ?] | (? & ? & ?)]; [left | right]; lia.
  - assert (0 < num Reading s) by (apply num_pos; eauto). unfold do_cas.
    destruct (inv_cases _ _ H) as [[Hg Hr] | (? & ? & ?)]; [| lia].
    rewrite (proj2 (Z.eqb_neq _ _)) by lia. simpl. eapply inv_goto; [done | done |]. left. counts Ht. lia.
  - split; [simpl; by rewrite length_insert |]. left. counts Ht. simpl.
    assert (0 < num InGC s) by (apply num_pos; eauto).
    destruct (inv_cases _ _ H) as [[? ?] | (? & ? & ?)]; lia.
Qed.

Lemma reader_init_inv : inv n (init n).
Proof using Type.
  split; [apply length_replicate |]. left. unfold num. simpl.
  assert (∀ c, c ≠ Out → count_if (at_pc c) (replicate n Out) = 0) as Hz.
  { intros c Hc. clear -Hc. induction n as [| k IH]; [done |].
    simpl. rewrite count_if_cons, IH. unfold at_pc. by rewrite bool_decide_eq_false_2. }
  by rewrite !Hz.
Qed.

Lemma reader_reachable_inv s : rtc step (init n) s → inv n s.
Proof using Hn.
  intros H. apply (rtc_ind_r (λ s, inv n s) (init n) reader_init_inv) in H; [done |].
  intros. by eapply reader_step_inv.
Qed.
End protocol.

(** C4: Mutual exclusion of readers and collector: in every reachable interleaving of
    [n] threads, while a thread is inside the collection no thread is registered as a
    reader and no other thread is inside the collection; and whenever none is, the
    counter is exactly the number of registered readers. *)
Theorem collector_excludes_readers (n : nat) (s : state) :
  Z.of_nat n < 2 ^ 62 → rtc step (init n) s →
  (∀ t, threads s !! t = Some InGC →
     ∀ u, u ≠ t → threads s !! u ≠ Some Reading ∧ threads s !! u ≠ Some InGC) ∧
  ((∀ t, threads s !! t ≠ Some InGC) → readers s = num Reading s).
Proof.
  intros Hn H. apply (reader_reachable_inv n Hn) in H. split.
  - intros t Ht u Hu. assert (0 < num InGC s) as Hg by (apply num_pos; eauto).
    destruct (inv_cases _ _ H) as [[? ?] | (Hg1 & Hr & _)]; [lia |]. split; intros Hu'.
    + assert (0 < num Reading s) by (apply num_pos; eauto). lia.
    + assert (0 < num InGC (goto s t Out 0)) as Hpos.
      { apply num_pos. exists u. simpl. by rewrite list_lookup_insert_ne. }
      rewrite (num_goto _ _ _ _ _ _ Ht) in Hpos. unfold at_pc in Hpos. simpl in Hpos. lia.
  - intros Hno. destruct (inv_cases _ _ H) as [[? ?] | (Hg1 & _)]; [done |].
    destruct (proj1 (num_pos InGC s) ltac:(lia)) as [t Ht]. by destruct (Hno t).
Qed.

(** The middle of a two-thread run: thread 0 collects while thread 1 spins. *)
Definition ex_state : state := mk [InGC; Spin] (INT64_MIN + 1) 0.

Lemma ex_reader_reachable : rtc step (init 2) ex_state.
Proof.
  eapply rtc_l; [by apply (step_call_gc (init 2) 0) |].
  eapply rtc_l; [by apply (step_cas _ 0 false) |].
  eapply rtc_l; [by apply (step_enter _ 1) |].
  apply rtc_refl.
Qed.

Lemma collector_excludes_readers_witness :
  (∀ t, threads ex_state !! t = Some InGC →
     ∀ u, u ≠ t → threads ex_state !! u ≠ Some Reading ∧ threads ex_state !! u ≠ Some InGC) ∧
  ((∀ t, threads ex_state !! t ≠ Some InGC) → readers ex_state = num Reading ex_state).
Proof. apply (collector_excludes_readers 2 ex_state); [lia | exact ex_reader_reachable]. Defined.

(** The store is never reset under a registered reader: a step that leaves a thread
    registered before and after it does not reset the store. *)
Theorem no_reset_under_reader (n : nat) (s s' : state) (t : nat) :
  Z.of_nat n < 2 ^ 62 → rtc step (init n) s → step s s' →
  threads s !! t = Some Reading → threads s' !! t = Some Reading → resets s' = resets s.
Proof.
  intros Hn H Hs Ht Ht'. apply (reader_reachable_inv n Hn) in H.
  destruct Hs as [| | | | | ? ? sp | ? ? sp | s u k Hu]; try done.
  - unfold do_cas. by destruct (_ && _).
  - unfold do_cas. by destruct (_ && _).
  - assert (0 < num InGC s) by (apply num_pos; eauto).
    assert (0 < num Reading s) by (apply num_pos; eauto).
    destruct (inv_cases _ _ H) as [[? ?] | (? & ? & _)]; lia.
Qed.

Definition ex_reading : state := mk [Reading; TryGC] 1 0.

Lemma no_reset_under_reader_witness : resets (do_cas ex_reading 1 Out false) = resets ex_reading.
Proof.
  apply (no_reset_under_reader 2 ex_reading _ 0); [lia | | by apply step_cas | done | done].
  eapply rtc_l; [by apply (step_enter (init 2) 0) |].
  eapply rtc_l; [by apply (step_call_gc _ 1) |]. apply rtc_refl.
Defined.

(** The steps of a thread that waits in [increment_reader]. *)
Inductive entering (t : nat) : state → state → Prop :=
  | entering_leave s : threads s !! t = Some Spin → 0 <= readers s → entering t s (goto s t Again (readers s))
  | entering_again s : threads s !! t = Some Again → entering t s (do_increment s t).

Lemma entering_step t s s' : entering t s s' → step s s'.
Proof. destruct 1; by constructor. Qed.

(** C22: A thread that spins in [increment_reader] gets in by its own next two steps, if no
    collection is running, and else by its own next two steps once the one running collection
    has ended, whether that resets the store or not: these steps register it as a reader and
    move no other thread. *)
Theorem spinning_reader_can_enter (n : nat) (s : state) (t : nat) (gc_allowed : bool) :
  Z.of_nat n < 2 ^ 62 → rtc step (init n) s → threads s !! t = Some Spin →
  ∃ s0 s', (s0 = s ∧ (∀ u, threads s !! u ≠ Some InGC) ∨
            ∃ u, threads s !! u = Some InGC ∧ s0 = do_finish s u gc_allowed) ∧
    nsteps (entering t) 2 s0 s' ∧ threads s' !! t = Some Reading ∧
    (∀ u, u ≠ t → threads s' !! u = threads s0 !! u).
Proof.
  intros Hn H Ht. apply (reader_reachable_inv n Hn) in H.
  assert (∀ s, threads s !! t = Some Spin → 0 <= readers s →
    ∃ s', nsteps (entering t) 2 s s' ∧ threads s' !! t = Some Reading ∧
      (∀ u, u ≠ t → threads s' !! u = threads s !! u)) as Hgo.
  { clear s H Ht. intros s Ht Hr. pose proof (lookup_lt_Some _ _ _ Ht) as Hlt.
    exists (do_increment (goto s t Again (readers s)) t). split; [| split].
    - eapply nsteps_l; [by apply entering_leave |]. apply nsteps_once.
      apply entering_again. simpl. by rewrite list_lookup_insert_eq.
    - unfold do_increment. simpl. rewrite (proj2 (Z.ltb_ge _ _)) by lia.
      by rewrite list_lookup_insert_eq by (rewrite length_insert; lia).
    - intros u Hu. unfold do_increment. simpl. by rewrite !list_lookup_insert_ne. }
  destruct (inv_cases _ _ H) as [[Hg ?] | (Hg & Hr & Hb)].
  - destruct (Hgo s Ht) as (s' & Hs'); [pose proof (num_nonneg Reading s); lia |].
    exists s, s'. split; [| done]. left. split; [done |]. intros u Hu.
    assert (0 < num InGC s) by (apply num_pos; eauto). lia.
  - destruct (proj1 (num_pos InGC s) ltac:(lia)) as [u Hu].
    destruct (Hgo (do_finish s u gc_allowed)) as (s' & Hs'); simpl; [| lia |].
    + rewrite list_lookup_insert_ne; [done |]. intros ->. congruence.
    + exists (do_finish s u gc_allowed), s'. split; [| done]. right. by exists u.
Qed.

Lemma spinning_reader_can_enter_witness :
  ∃ s0 s', (s0 = ex_state ∧ (∀ u, threads ex_state !! u ≠ Some InGC) ∨
            ∃ u, threads ex_state !! u = Some InGC ∧ s0 = do_finish ex_state u true) ∧
    nsteps (entering 1) 2 s0 s' ∧ threads s' !! 1%nat = Some Reading ∧
    (∀ u, u ≠ 1%nat → threads s' !! u = threads s0 !! u).
Proof. apply (spinning_reader_can_enter 2 ex_state 1 true); [lia | exact ex_reader_reachable | done]. Defined.

End ReaderProtocol.
