(* ===== verification/CircularDeltaStore.v ===== *)
(** * CircularDeltaStore: one delta store of the one-shot garbage collector
    ([CircularDeltaStore] in [oltp/storage/multi-version/delta_storage.{hpp,cpp}]).

    A store is a tag, a vector of partitions and, per worker thread, the highest epoch
    the thread has registered with.  Collecting the store bumps its tag, which
    invalidates every pointer into it at once, and rewinds its partitions. *)

From S2P Require Import Prelude Common StorageUtils Transaction DeltaPtr DeltaStore.
From Stdlib Require Import ZArith Lia Bool.
From stdpp Require Import base numbers list gmap sets.

Local Open Scope Z_scope.
Local Open Scope res_scope.

Module CircularDeltaStore.

Record meta2 : Type := mk_meta { max_active_epoch : xid_t; min_version_ts : xid_t }.

Definition meta2_new : meta2 := mk_meta 0 UINT64_MAX.

(** A [meta2 *] is an index into [meta_per_thread]. *)
Record store : Type := mk {
  delta_id : delta_id_t;
  tag : Z;                                         (* uint32_t *)
  partitions : list DeltaPartition.DeltaPartition;
  meta_per_thread : list meta2;
  threadlocal_meta : gmap tid nat;
  readers : Z;                                     (* int64_t *)
  gc_reset_success : Z;                            (* uint *)
  gc_consolidate_success : Z;                      (* uint *)
  total_mem_reserved : Z
}.

(** [std::unordered_map::emplace]: an existing entry stays. *)
Definition emplace {V} (k : Z) (v : V) (m : gmap Z V) : gmap Z V :=
  match m !! k with Some _ => m | None => <[k := v]> m end.

(** The partitions the constructor builds on the chunks [mems] that the memory manager
    returned, with their entries in [DeltaDataPtr::data_memory_base]. *)
Fixpoint build_partitions (d : delta_id_t) (capacity : Z) (i : Z) (mems : list Z)
    (bases : gmap Z Z) : list DeltaPartition.DeltaPartition * gmap Z Z :=
  match mems with
  | [] => ([], bases)
  | mem :: mems' =>
      let p := DeltaPartition.new mem mem capacity i d in
      let (ps, b) := build_partitions d capacity (i + 1) mems'
        (emplace (DeltaDataPtr.create_delta_idx_pid_pair d i) mem bases) in
      (p :: ps, b)
  end.

(** The constructor; [capacity] is in bytes. *)
Definition new (d : delta_id_t) (capacity : Z) (mems : list Z) (bases : gmap Z Z)
  : res (store * gmap Z Z) :=
  check capacity <? 2 ^ 36 else AssertFailed;
  check forallb (λ m, negb (m =? 0)) mems else AssertFailed;
  let (ps, b) := build_partitions d capacity 0 mems bases in
  Ok (mk d 1 ps [] ∅ 0 0 0 (u64 (capacity * Z.of_nat (length mems))), b).

(** ** Per-thread metadata *)

(** [_threadlocal_meta[this_thread]], dereferenced: a thread without an entry gets a
    null pointer from [operator[]]. *)
Definition getMeta_threadLocal (t : tid) (s : store) : res (nat * meta2) :=
  do i <- of_option Undefined (threadlocal_meta s !! t);
  do m <- of_option Undefined (meta_per_thread s !! i);
  Ok (i, m).

Definition with_meta (s : store) (l : list meta2) : store :=
  mk (delta_id s) (tag s) (partitions s) l (threadlocal_meta s) (readers s)
     (gc_reset_success s) (gc_consolidate_success s) (total_mem_reserved s).
Definition with_partitions (s : store) (l : list DeltaPartition.DeltaPartition) : store :=
  mk (delta_id s) (tag s) l (meta_per_thread s) (threadlocal_meta s) (readers s)
     (gc_reset_success s) (gc_consolidate_success s) (total_mem_reserved s).
Definition with_readers (s : store) (r : Z) : store :=
  mk (delta_id s) (tag s) (partitions s) (meta_per_thread s) (threadlocal_meta s) r
     (gc_reset_success s) (gc_consolidate_success s) (total_mem_reserved s).

Definition set_epoch (t : tid) (epoch : xid_t) (s : store) : res store :=
  do (i, m) <- getMeta_threadLocal t s;
  Ok (with_meta s (<[i := mk_meta epoch (min_version_ts m)]> (meta_per_thread s))).

Definition update_active_epoch (t : tid) (epoch : xid_t) (s : store) : res store :=
  set_epoch t epoch s.

(** [increment_reader] when it runs alone: it registers at once, or spins on a negative
    counter (the interleaved protocol is in [ReaderProtocol]). *)
Definition increment_reader (t : tid) (epoch : xid_t) (s : store) : res store :=
  check negb (readers s <? 0) else Blocked;
  let s1 := with_readers s (readers s + 1) in
  do (_, m) <- getMeta_threadLocal t s1;
  if max_active_epoch m <? epoch then set_epoch t epoch s1 else Ok s1.

Definition getMaxActiveEpoch (s : store) : xid_t :=
  foldl (λ mx m, if mx <? max_active_epoch m then max_active_epoch m else mx) 0
        (meta_per_thread s).

Definition resetMinVersionTs (s : store) : store :=
  with_meta s ((λ m, mk_meta (max_active_epoch m) UINT64_MAX) <$> meta_per_thread s).

Definition getMinVersionTs (s : store) : xid_t :=
  foldl (λ mn m, if min_version_ts m <? mn then min_version_ts m else mn) UINT64_MAX
        (meta_per_thread s).

Definition initThreadLocalPools (t : tid) (s : store) : res store :=
  let i := length (meta_per_thread s) in
  let tl := match threadlocal_meta s !! t with
            | Some _ => threadlocal_meta s
            | None => <[t := i]> (threadlocal_meta s)
            end in
  do ps <- rmapM (DeltaPartition.initSlackCache t) (partitions s);
  Ok (mk (delta_id s) (tag s) ps (meta_per_thread s ++ [meta2_new]) tl (readers s)
         (gc_reset_success s) (gc_consolidate_success s) (total_mem_reserved s)).

(** ** Allocation *)

(** What [DeltaDataPtr]'s static members hold while [s] is the store of its delta. *)
Definition statics_of (bases : gmap Z Z) (tags : gmap Z Z) (s : store) : DeltaDataPtr.statics :=
  DeltaDataPtr.mk_statics bases (<[delta_id s := tag s]> tags).

Definition allocate (bases tags : gmap Z Z) (t : tid) (sz : Z) (pid : partition_id_t)
    (s : store) : res (Z * store) :=
  do p <- of_option Undefined (partitions s !! Z.to_nat pid);
  do (cnk, p') <- DeltaPartition.getVersionDataChunk_ThreadLocal2 t p sz;
  Ok (DeltaDataPtr.update (statics_of bases tags s) cnk (tag s) (delta_id s) pid,
      with_partitions s (<[Z.to_nat pid := p']> (partitions s))).

(** The overload that notes the timestamp of the version, with consolidation on. *)
Definition allocate_ts (consolidation : bool) (bases tags : gmap Z Z) (t : tid) (sz : Z)
    (pid : partition_id_t) (version_ts : xid_t) (s : store) : res (Z * store) :=
  do s1 <-
    (if consolidation then
       do (i, m) <- getMeta_threadLocal t s;
       if version_ts <? min_version_ts m
       then Ok (with_meta s (<[i := mk_meta (max_active_epoch m) version_ts]> (meta_per_thread s)))
       else Ok s
     else Ok s);
  allocate bases tags t sz pid s1.

Definition release (_ptr : Z) : Z := 0.

Definition saveInstanceCrossingPtr (row_uuid : row_uuid_t) (dptr : Z) (s : store) : res store :=
  let pid := StorageUtils.get_pid_from_rowUuid row_uuid in
  do p <- of_option Undefined (partitions s !! Z.to_nat pid);
  Ok (with_partitions s
        (<[Z.to_nat pid := DeltaPartition.saveInstanceCrossingPtr p row_uuid dptr]> (partitions s))).

(** ** Garbage collection *)

(** [GC_CAPACITY_MIN_PERCENT] is 0 in this build. *)
Definition should_gc (s : store) : bool := true.

Definition impl_gc_simple (tm : Txns.TransactionManager) (s : store) : res bool :=
  if should_gc s then
    do min <- Txns.get_min_activeTxn tm;
    Ok (getMaxActiveEpoch s <? min)
  else Ok false.

(** The Boolean, and whether the consolidation counter is bumped. *)
Definition impl_gc_withConsolidation (tm : Txns.TransactionManager) (s : store)
  : res (bool * store) :=
  do (activeTxns, min) <- Txns.get_all_CurrentActiveTxn tm;
  let mx := getMaxActiveEpoch s in
  if mx <? min then Ok (true, s)
  else
    let mv := getMinVersionTs s in
    let can_consolidate :=
      negb (existsb (λ txTs, (txTs <=? mx) && (mv <=? txTs)) activeTxns) in
    Ok (can_consolidate,
        if can_consolidate
        then mk (delta_id s) (tag s) (partitions s) (meta_per_thread s) (threadlocal_meta s)
                (readers s) (gc_reset_success s) (u32 (gc_consolidate_success s + 1))
                (total_mem_reserved s)
        else s).

(** The reset under the claimed counter. *)
Definition gc_reset (s : store) : store :=
  resetMinVersionTs
    (mk (delta_id s) (u32 (tag s + 1)) (DeltaPartition.reset <$> partitions s)
        (meta_per_thread s) (threadlocal_meta s) (readers s)
        (u32 (gc_reset_success s + 1)) (gc_consolidate_success s) (total_mem_reserved s)).

(** [spurious]: a weak exchange may fail on an equal value. *)
Definition GC (consolidation spurious : bool) (tm : Txns.TransactionManager) (s : store)
  : res store :=
  if (readers s =? 0) && negb spurious then
    let s1 := with_readers s INT64_MIN in
    do (gc_allowed, s2) <-
      (if consolidation then impl_gc_withConsolidation tm s1
       else do b <- impl_gc_simple tm s1; Ok (b, s1));
    let s3 := if (gc_allowed : bool) then gc_reset s2 else s2 in
    Ok (with_readers s3 0)
  else Ok s.

Definition decrement_reader (consolidation spurious : bool) (tm : Txns.TransactionManager)
    (s : store) : res store :=
  let old := readers s in
  let s1 := with_readers s (readers s - 1) in
  if old =? 1 then GC consolidation spurious tm s1 else Ok s1.

(** ** Lemmas *)

Lemma foldl_max_spec (l : list meta2) init :
  let r := foldl (λ mx m, if mx <? max_active_epoch m then max_active_epoch m else mx) init l in
  init <= r ∧ (∀ m, m ∈ l → max_active_epoch m <= r) ∧
  (r = init ∨ ∃ m, m ∈ l ∧ r = max_active_epoch m).
Proof.
  revert init. induction l as [| y l IH]; intros init; simpl.
  - split; [lia |]. split; [by intros x ?%not_elem_of_nil | by left].
  - destruct (IH (if init <? max_active_epoch y then max_active_epoch y else init)) as (H1 & H2 & H3).
    set (r := foldl _ _ l) in *. clearbody r.
    destruct (Z.ltb_spec init (max_active_epoch y)); (split; [lia |]); (split;
      [intros x [-> | Hx]%elem_of_cons; [lia | by apply H2] |]);
      (destruct H3 as [-> | (m & Hm & ->)];
        [first [by left | right; exists y; split; [left | done]]
        | right; exists m; split; [by right | done]]).
Qed.

(** Every thread's registered epoch is at most the maximum. *)
Lemma max_epoch_bound s m : m ∈ meta_per_thread s → max_active_epoch m <= getMaxActiveEpoch s.
Proof. apply (foldl_max_spec (meta_per_thread s) 0). Qed.

Lemma max_epoch_nonneg s : 0 <= getMaxActiveEpoch s.
Proof. apply (foldl_max_spec (meta_per_thread s) 0). Qed.

Lemma max_epoch_attained s : getMaxActiveEpoch s = 0 ∨
  ∃ m, m ∈ meta_per_thread s ∧ getMaxActiveEpoch s = max_active_epoch m.
Proof. apply (foldl_max_spec (meta_per_thread s) 0). Qed.

(** The maximum after one thread's epoch is overwritten by a larger or equal one. *)
Lemma set_epoch_max t e s s' i m :
  set_epoch t e s = Ok s' → getMeta_threadLocal t s = Ok (i, m) →
  max_active_epoch m <= e → 0 <= e →
  getMaxActiveEpoch s' = Z.max e (getMaxActiveEpoch s).
Proof.
  unfold set_epoch. intros H Hm Hle He. rewrite Hm in H. cbn [rbind] in H. injection H as <-.
  unfold getMeta_threadLocal in Hm. res_inv.
  assert (i < length (meta_per_thread s))%nat as Hlt by (by eapply lookup_lt_Some).
  set (l' := <[i := mk_meta e (min_version_ts m)]> (meta_per_thread s)).
  assert (mk_meta e (min_version_ts m) ∈ l') as Hin.
  { apply (list_elem_of_lookup_2 _ i). by apply list_lookup_insert_eq. }
  pose proof (max_epoch_bound (with_meta s l') _ Hin) as Hlow. simpl in Hlow.
  assert (getMaxActiveEpoch s <= getMaxActiveEpoch (with_meta s l')) as Hlow2.
  { destruct (max_epoch_attained s) as [-> | (m' & (j & Hj)%list_elem_of_lookup_1 & ->)];
      [apply max_epoch_nonneg |].
    destruct (decide (i = j)) as [<- | Hne].
    - assert (m' = m) as -> by congruence. lia.
    - apply (max_epoch_bound (with_meta s l')). apply (list_elem_of_lookup_2 _ j). simpl.
      unfold l'. by rewrite list_lookup_insert_ne. }
  destruct (max_epoch_attained (with_meta s l')) as [E | (m' & (j & Hj)%list_elem_of_lookup_1 & E)].
  - lia.
  - simpl in Hj. unfold l' in Hj. destruct (decide (i = j)) as [<- | Hne].
    + rewrite list_lookup_insert_eq in Hj by done. injection Hj as <-. simpl in E. lia.
    + rewrite list_lookup_insert_ne in Hj by done. apply list_elem_of_lookup_2 in Hj.
      pose proof (max_epoch_bound s _ Hj). lia.
Qed.

(** Resetting keeps the epochs. *)
Lemma gc_reset_max s : getMaxActiveEpoch (gc_reset s) = getMaxActiveEpoch s.
Proof.
  unfold getMaxActiveEpoch, gc_reset, resetMinVersionTs. simpl.
  generalize 0. induction (meta_per_thread s) as [| m l IH]; intros z; [done |].
  simpl. apply IH.
Qed.

Lemma wrap20_wrap32 x : wrap 20 (u32 x) = wrap 20 x.
Proof. bits_eq. Qed.

(** The tag changes modulo [2^20] at a reset. *)
Lemma gc_reset_tag s : 0 <= tag s < 2 ^ 32 → wrap 20 (tag (gc_reset s)) ≠ wrap 20 (tag s).
Proof.
  intros Ht. simpl. rewrite wrap20_wrap32. unfold wrap. intros E.
  assert ((tag s + 1 - tag s) mod 2 ^ 20 = 0) as Hz by (rewrite Zminus_mod, E, Z.sub_diag; done).
  replace (tag s + 1 - tag s) with 1 in Hz by lia. by vm_compute in Hz.
Qed.

(** What the collector decided and did. *)
Lemma GC_simple_cases tm s s' :
  GC false false tm s = Ok s' → readers s = 0 →
  readers s' = 0 ∧ ∃ mn, Txns.get_min_activeTxn tm = Ok mn ∧
    ((getMaxActiveEpoch s < mn ∧ s' = gc_reset s) ∨ (mn <= getMaxActiveEpoch s ∧ s' = s)).
Proof.
  intros H Hr. unfold GC in H. rewrite Hr in H. cbn [Z.eqb andb negb] in H.
  unfold impl_gc_simple, should_gc in H.
  apply rbind_Ok_inv in H as ([b s2] & H & [= <-]).
  apply rbind_Ok_inv in H as (b' & H & [= <- <-]).
  apply rbind_Ok_inv in H as (mn & Hmn & [= <-]).
  change (getMaxActiveEpoch (with_readers s INT64_MIN)) with (getMaxActiveEpoch s).
  split; [by destruct (_ <? _) |]. exists mn. split; [done |].
  destruct (Z.ltb_spec (getMaxActiveEpoch s) mn) as [Hlt | Hge].
  - left. split; [done |]. unfold gc_reset, resetMinVersionTs, with_meta, with_readers. simpl.
    by rewrite Hr.
  - right. split; [done |]. destruct s; simpl in *. by subst.
Qed.

(** A collection that finds the reader count at 0 decides on the registry alone:
    when every running transaction started after the highest epoch registered with the
    store it bumps the tag and rewinds the partitions, so that every pointer minted under
    the old tag dereferences to null afterwards, whatever its address and partition;
    otherwise it leaves the store as it was.  Either way the counter is 0 again and the
    registered epochs are kept. *)
Theorem GC_resets_iff_no_active_reader (tm : Txns.TransactionManager) (s s' : store)
    (bases tags : gmap Z Z) (mn : Z) :
  readers s = 0 → 0 <= tag s < 2 ^ 32 → 0 <= delta_id s < 2 ^ 4 →
  Txns.get_min_activeTxn tm = Ok mn → GC false false tm s = Ok s' →
  readers s' = 0 ∧ getMaxActiveEpoch s' = getMaxActiveEpoch s ∧
  (if getMaxActiveEpoch s <? mn then
     s' = gc_reset s ∧
     ∀ addr pid, 0 <= pid < 2 ^ 4 →
       DeltaDataPtr.isValid (statics_of bases tags s')
         (DeltaDataPtr.update (statics_of bases tags s) addr (tag s) (delta_id s) pid) = Ok false
   else s' = s).
Proof.
  intros Hr Ht Hd Hmn H. destruct (GC_simple_cases tm s s' H Hr) as (Hr' & mn' & Hmn' & Hcase).
  rewrite Hmn in Hmn'. injection Hmn' as <-. split; [done |].
  destruct Hcase as [[Hlt ->] | [Hle ->]].
  - split; [apply gc_reset_max |]. rewrite (proj2 (Z.ltb_lt _ _)) by done. split; [done |].
    intros addr pid Hp. unfold DeltaDataPtr.isValid, DeltaDataPtr.verifyTag.
    rewrite DeltaDataPtr.get_delta_idx_update by done.
    change (delta_id (gc_reset s)) with (delta_id s). unfold statics_of at 1. simpl.
    rewrite lookup_insert_eq. cbn [of_option rbind].
    rewrite DeltaDataPtr.get_tag_update, DeltaDataPtr.mask20, land_ones_wrap by (done || lia).
    pose proof (gc_reset_tag s Ht) as Hne. simpl in Hne.
    by rewrite (proj2 (Z.eqb_neq _ _)).
  - split; [done |]. by rewrite (proj2 (Z.ltb_ge _ _)).
Qed.

Definition ex_store : store :=
  mk 2 1 [DeltaPartition.new 8192 8192 32768 0 2] [mk_meta 5 UINT64_MAX] {[ 7%nat := 0%nat ]} 0 0 0 32768.

Lemma GC_resets_iff_no_active_reader_witness :
  readers (gc_reset ex_store) = 0 ∧
  getMaxActiveEpoch (gc_reset ex_store) = getMaxActiveEpoch ex_store ∧
  (if getMaxActiveEpoch ex_store <? UINT64_MAX then
     gc_reset ex_store = gc_reset ex_store ∧
     ∀ addr pid, 0 <= pid < 2 ^ 4 →
       DeltaDataPtr.isValid (statics_of ∅ ∅ (gc_reset ex_store))
         (DeltaDataPtr.update (statics_of ∅ ∅ ex_store) addr (tag ex_store) (delta_id ex_store) pid)
         = Ok false
   else gc_reset ex_store = ex_store).
Proof.
  apply (GC_resets_iff_no_active_reader Txns.TransactionManager_new ex_store (gc_reset ex_store)
           ∅ ∅ UINT64_MAX); try reflexivity; simpl; lia.
Defined.

(** C24: An allocation returns a pointer that dereferences, under the tag the store has,
    to the chunk its partition handed out, and names the store's delta and the requested
    partition. *)
Theorem allocate_then_deref (bases tags : gmap Z Z) (t : tid) (sz pid b w : Z) (s s' : store)
    (p : DeltaPartition.DeltaPartition) (live : list DeltaPartition.chunk) (size : Z) :
  0 <= delta_id s < 2 ^ 4 → 0 <= pid < 2 ^ 4 →
  bases !! DeltaDataPtr.create_delta_idx_pid_pair (delta_id s) pid = Some b →
  partitions s !! Z.to_nat pid = Some p →
  DeltaPartition.geometry b size → size < 2 ^ 36 → 0 < sz <= DeltaPartition.slack_size →
  DeltaPartition.inv b size (p, live) →
  allocate bases tags t sz pid s = Ok (w, s') →
  ∃ a p', partitions s' !! Z.to_nat pid = Some p' ∧
    DeltaPartition.inv b size (p', (a, sz) :: live) ∧
    DeltaDataPtr.get_ptr (statics_of bases tags s') w = Ok (Some a) ∧
    DeltaDataPtr.get_delta_idx w = delta_id s ∧ DeltaDataPtr.get_partition_idx w = pid.
Proof.
  intros Hd Hp Hb Hpart Hgeo Hsz Hn Hinv H. unfold allocate in H. rewrite Hpart in H.
  cbn [of_option rbind] in H. apply rbind_Ok_inv in H as ([a p'] & Ha & H).
  cbv beta iota in H. injection H as <- <-.
  pose proof (DeltaPartition.alloc_inv b size Hgeo t p live sz a p' Hinv Hn Ha) as Hinv'.
  exists a, p'. split; [simpl; apply list_lookup_insert_eq; by eapply lookup_lt_Some |].
  split; [done |].
  destruct (DeltaPartition.inv_live _ _ _ Hinv' a sz ltac:(left)) as [Hlo Hhi].
  pose proof (DeltaPartition.inv_cursor _ _ _ Hinv') as Hc. destruct Hgeo as (? & ? & ? & _).
  simpl in *. unfold DeltaPartition.slack_size in *.
  split; [| by rewrite DeltaDataPtr.get_delta_idx_update, DeltaDataPtr.get_partition_idx_update].
  change (statics_of bases tags (with_partitions s (<[Z.to_nat pid := p']> (partitions s))))
    with (statics_of bases tags s).
  rewrite (DeltaDataPtr.get_ptr_update _ a (tag s) (delta_id s) pid b (tag s));
    [by rewrite Z.eqb_refl | done | done | done | | lia | lia | lia].
  unfold statics_of. simpl. by rewrite lookup_insert_eq.
Qed.

Definition ex_bases : gmap Z Z := {[ DeltaDataPtr.create_delta_idx_pid_pair 2 0 := 8192 ]}.
Definition ex_store1 : store := DeltaPartition.ok_or (initThreadLocalPools 7%nat
  (mk 2 1 [DeltaPartition.ex_partition] [] ∅ 0 0 0 32768)) ex_store.
Definition ex_alloc : Z * store :=
  DeltaPartition.ok_or (allocate ex_bases ∅ 7%nat 100 0 ex_store1) (0, ex_store).

Lemma ex_p1_inv : DeltaPartition.inv 8192 32768 (DeltaPartition.ex_p1, []).
Proof.
  assert (DeltaPartition.geometry 8192 32768) as Hgeo by (by repeat split).
  apply (DeltaPartition.slack_init_inv 8192 32768 Hgeo 7%nat DeltaPartition.ex_partition);
    [apply (DeltaPartition.new_inv 8192 32768 Hgeo) | reflexivity | vm_compute; reflexivity].
Qed.

Lemma allocate_then_deref_witness :
  ∃ a p', partitions ex_alloc.2 !! 0%nat = Some p' ∧
    DeltaPartition.inv 8192 32768 (p', [(a, 100)]) ∧
    DeltaDataPtr.get_ptr (statics_of ex_bases ∅ ex_alloc.2) ex_alloc.1 = Ok (Some a) ∧
    DeltaDataPtr.get_delta_idx ex_alloc.1 = 2 ∧ DeltaDataPtr.get_partition_idx ex_alloc.1 = 0.
Proof.
  apply (allocate_then_deref ex_bases ∅ 7%nat 100 0 8192 ex_alloc.1 ex_store1 ex_alloc.2
           DeltaPartition.ex_p1 [] 32768); try (by repeat split); try (vm_compute; reflexivity).
  exact ex_p1_inv.
Defined.

End CircularDeltaStore.
