(* ===== verification/ColumnStore.v ===== *)
(** * ColumnStore: tables with multi-version records
    ([ColumnStore] in [oltp/storage/layout/column_store.hpp] and
    [lib/storage/layout/column-store/column_store.cpp]).

    The main copy of a record is spread over the columns of the table; the meta column
    holds its index entry; older versions hang off the entry in the delta stores.  The
    table is written against two interfaces: [ColumnLike] for its columns and [DeltaAlloc]
    for the delta store it allocates versions from. *)

From S2P Require Import Prelude Bytes Common StorageUtils Column Transaction DeltaPtr Versions DeltaStore CircularDeltaStore.
From Stdlib Require Import ZArith Lia Bool.
From stdpp Require Import base numbers list gmap sets.

Local Open Scope Z_scope.
Local Open Scope res_scope.

(** ** What the table relies on in its delta store *)

Class DeltaAlloc (M : Type) `{DeltaMemory M} : Type := {
  delta_alloc : tid → M → delta_id_t → Z → partition_id_t → xid_t → res (Z * M);
  (** Allocating does not change what the existing pointers mean. *)
  alloc_frame : ∀ t m d sz p x w m', delta_alloc t m d sz p x = Ok (w, m') →
    ∀ u, valid m' u = valid m u ∧ deref m' u = deref m u
}.

(** The circular stores of all deltas. *)
Record deltas : Type := mk_deltas {
  stores : gmap Z CircularDeltaStore.store;
  bases : gmap Z Z
}.

Definition tags_of (m : deltas) : gmap Z Z := CircularDeltaStore.tag <$> stores m.
Definition deltas_statics (m : deltas) : DeltaDataPtr.statics :=
  DeltaDataPtr.mk_statics (bases m) (tags_of m).

#[export] Program Instance deltas_memory : DeltaMemory deltas := {|
  valid := λ m, DeltaDataPtr.isValid (deltas_statics m);
  deref := λ m, DeltaDataPtr.get_ptr (deltas_statics m);
  reclaims := false
|}.
Next Obligation.
  intros m w. exact (@valid_deref _ DeltaMemory_tagged (deltas_statics m) w).
Qed.
Next Obligation.
  intros m w. exact (@invalid_deref _ DeltaMemory_tagged (deltas_statics m) w).
Qed.

(** [deltaStore[d]->allocate(sz, pid, ts)] *)
Definition deltas_allocate (t : tid) (m : deltas) (d : delta_id_t) (sz : Z)
    (pid : partition_id_t) (version_ts : xid_t) : res (Z * deltas) :=
  do s <- of_option Undefined (stores m !! d);
  do (w, s') <- CircularDeltaStore.allocate_ts OneShot_CONSOLIDATION (bases m) (tags_of m)
                  t sz pid version_ts s;
  Ok (w, mk_deltas (<[d := s']> (stores m)) (bases m)).

Lemma allocate_keeps_tag b tg t sz pid s w s' :
  CircularDeltaStore.allocate b tg t sz pid s = Ok (w, s') →
  CircularDeltaStore.tag s' = CircularDeltaStore.tag s.
Proof.
  unfold CircularDeltaStore.allocate. intros H.
  apply rbind_Ok_inv in H as (p & _ & H). apply rbind_Ok_inv in H as ([a p'] & _ & H).
  cbv beta iota in H. by injection H as _ <-.
Qed.

#[export] Program Instance deltas_alloc : DeltaAlloc deltas := {| delta_alloc := deltas_allocate |}.
Next Obligation.
  intros t m d sz p x w m' H u. unfold deltas_allocate in H.
  apply rbind_Ok_inv in H as (s & Hs%of_option_Ok & H).
  apply rbind_Ok_inv in H as ([w0 s'] & Ha & H). cbv beta iota in H. injection H as <- <-.
  assert (CircularDeltaStore.tag s' = CircularDeltaStore.tag s) as Et.
  { unfold CircularDeltaStore.allocate_ts, OneShot_CONSOLIDATION in Ha. cbn [rbind] in Ha.
    by eapply allocate_keeps_tag. }
  assert (deltas_statics (mk_deltas (<[d := s']> (stores m)) (bases m)) = deltas_statics m) as E.
  { unfold deltas_statics, tags_of. cbn [stores bases]. f_equal. rewrite fmap_insert, Et.
    apply insert_id. by rewrite lookup_fmap, Hs. }
  cbn [valid deref deltas_memory]. by rewrite E.
Qed.

Module ColumnStore.
Import Txns Versions.

Section store.
Context {C : Type} `{HC : ColumnLike C} {M : Type} `{HM : DeltaMemory M} `{HA : !DeltaAlloc M}.

(** [MV_RecordList_Full::version_t] as it is laid out in memory *)
Context {VL : VersionLayout}.

(** [metaColumn] is per partition the vector of its index entries; [vid] the per-partition
    row counters. *)
Record table : Type := mk_table {
  table_id : table_id_t;
  indexed : bool;
  n_partitions : partition_id_t;
  columns : list C;
  metaColumn : list (list IndexVal);
  vid : list Z;
  column_size_offset_pairs : list (Z * Z);
  record_size : Z;
  record_capacity : Z
}.

Definition with_meta (tb : table) (m : list (list IndexVal)) : table :=
  mk_table (table_id tb) (indexed tb) (n_partitions tb) (columns tb) m (vid tb)
           (column_size_offset_pairs tb) (record_size tb) (record_capacity tb).
Definition with_columns (tb : table) (cs : list C) : table :=
  mk_table (table_id tb) (indexed tb) (n_partitions tb) cs (metaColumn tb) (vid tb)
           (column_size_offset_pairs tb) (record_size tb) (record_capacity tb).
Definition with_vid (tb : table) (v : list Z) : table :=
  mk_table (table_id tb) (indexed tb) (n_partitions tb) (columns tb) (metaColumn tb) v
           (column_size_offset_pairs tb) (record_size tb) (record_capacity tb).

(** [metaColumn->getElem(vid)]: the entry a row id points to. *)
Definition meta_get (tb : table) (rid : rowid_t) : res IndexVal :=
  check StorageUtils.get_m_version rid =? 0 else Fatal;
  do part <- of_option Undefined (metaColumn tb !! Z.to_nat (StorageUtils.get_pid rid));
  of_option AssertFailed (part !! Z.to_nat (StorageUtils.get_offset rid)).

(** A store through the [IndexVal] pointer of row [rid]. *)
Definition meta_set (tb : table) (rid : rowid_t) (i : IndexVal) : table :=
  let pid := Z.to_nat (StorageUtils.get_pid rid) in
  with_meta tb
    (alter (λ part, <[Z.to_nat (StorageUtils.get_offset rid) := i]> part) pid (metaColumn tb)).

(** ** Reading *)

(** The columns one after the other. *)
Definition read_columns (cs : list C) (rid : rowid_t) : res bytes :=
  do parts <- rmapM (λ c, col_get c rid) cs; Ok (concat parts).

Definition getIndexedRecord (fuel : nat) (m : M) (h : heap) (tb : table) (txnTs : TxnTs)
    (idx : IndexVal) (col_idx : option (list Z)) : res bytes :=
  if is_readable_idx idx txnTs then
    check negb (deleted (ts idx)) else Throw;
    do sel <- match col_idx with
              | None => Ok (columns tb)
              | Some cs => rmapM (λ c, of_option OutOfRange (columns tb !! Z.to_nat c)) cs
              end;
    read_columns sel (VID idx)
  else get_readable_version fuel m h idx txnTs (column_size_offset_pairs tb) col_idx.

Definition getRecord (fuel : nat) (m : M) (h : heap) (tb : table) (txnTs : TxnTs)
    (rowid : rowid_t) (col_idx : option (list Z)) : res bytes :=
  do idx <- meta_get tb rowid;
  getIndexedRecord fuel m h tb txnTs idx col_idx.

(** ** Inserting *)

Fixpoint insert_columns (cs : list C) (rid : rowid_t) (data : bytes) : res (list C) :=
  match cs with
  | [] => Ok []
  | c :: cs =>
      do d <- read_bytes data (offset_of c) (unit_of c);
      do c' <- col_insert c rid (Some d);
      do cs' <- insert_columns cs rid data;
      Ok (c' :: cs')
  end.

Definition insertRecord (tb : table) (data : bytes) (transaction_id : xid_t)
    (partition_id : partition_id_t) (master_ver : master_version_t)
  : res (rowid_t * table) :=
  let pid := partition_id mod n_partitions tb in
  do idx <- of_option Undefined (vid tb !! Z.to_nat pid);
  let tb1 := with_vid tb (<[Z.to_nat pid := u64 (idx + 1)]> (vid tb)) in
  let curr_vid := StorageUtils.create_vid idx pid master_ver in
  let cc_vid := StorageUtils.create_vid idx pid 0 in
  do tb2 <-
    (if indexed tb1 then
       do i <- meta_get tb1 cc_vid;
       let i' := mk_idx (mk_ts false (wrap 63 transaction_id)) curr_vid (latch i) (write_lck i)
                        (delta_list i) in
       Ok (meta_set tb1 cc_vid i')
     else Ok tb1);
  do cs <- insert_columns (columns tb2) curr_vid data;
  Ok (cc_vid, with_columns tb2 cs).

(** ** Updating and deleting *)

(** Copies the record of row [rid] into a version's buffer; what the buffer lies on besides
    is damaged by [updateRecord] once the copy is known. *)
Fixpoint copy_record (cs : list C) (rid : rowid_t) (img : bytes) : res bytes :=
  match cs with
  | [] => Ok img
  | c :: cs =>
      do d <- col_get c rid;
      do img' <- write_bytes img (offset_of c) d;
      copy_record cs rid img'
  end.

(** The update loop: column [j] of the list gets the next element at the cursor; null data
    goes to every column as a null pointer. *)
Fixpoint update_columns (cs : list C) (rid : rowid_t) (idxs : list nat) (data : option bytes)
    (cursor : Z) : res (list C) :=
  match idxs with
  | [] => Ok cs
  | j :: js =>
      do c <- of_option Undefined (cs !! j);
      do d <- match data with
              | None => Ok None
              | Some b => do e <- read_bytes b cursor (unit_of c); Ok (Some e)
              end;
      do c' <- col_update c rid d;
      update_columns (<[j := c']> cs) rid js data
        (match data with None => cursor | Some _ => cursor + unit_of c end)
  end.

(** The columns the loop visits: the requested ones, or all in order. *)
Definition update_order (tb : table) (col_idx : option (list Z)) : list nat :=
  match col_idx with
  | Some (c :: cs) => Z.to_nat <$> (c :: cs)
  | _ => seq 0 (length (columns tb))
  end.

(** Allocation and creation of the version that keeps the current record. *)
Definition new_version (t : tid) (m : M) (h : heap) (tb : table) (idx : IndexVal) (txn : Txn)
    (junk : bytes) : res (Z * M * heap * IndexVal) :=
  do (w, m1) <- delta_alloc t m (delta_version txn) (version_chunk_size (record_size tb))
                  (partition_id txn) (Common.t_min (ts idx));
  do (a, h1, idx1) <- create_versions m1 h idx (record_size tb) w junk;
  Ok (a, m1, h1, idx1).

Definition updateRecord (t : tid) (m : M) (h : heap) (tb : table) (txn : Txn) (rid : rowid_t)
    (data : option bytes) (col_idx : option (list Z)) (junk : bytes) : res (M * heap * table) :=
  do idx <- meta_get tb rid;
  do (a, m1, h1, idx1) <- new_version t m h tb idx txn junk;
  do b <- valid m1 (delta_list idx1);
  check (b : bool) else AssertFailed;
  do v <- of_option Undefined (h1 !! a);
  check record_size tb <=? size v else Fatal;
  do img <- copy_record (columns tb) (VID idx) (image v);
  let h2 := <[a := with_image v img]> (store_bytes (version_data a) img h1) in
  do cs <- update_columns (columns tb) (VID idx1) (update_order tb col_idx) data 0;
  let idx2 := with_ts idx1 (set_t_min (ts idx1) (txn_start_time (txnTs txn))) in
  Ok (m1, h2, meta_set (with_columns tb cs) rid idx2).

Definition deleteRecord (t : tid) (m : M) (h : heap) (tb : table) (txn : Txn) (rid : rowid_t)
    (junk : bytes) : res (M * heap * table) :=
  do idx <- meta_get tb rid;
  do (_, m1, h1, idx1) <- new_version t m h tb idx txn junk;
  let idx2 := with_ts idx1
    (set_deleted (set_t_min (ts idx1) (txn_start_time (txnTs txn))) true) in
  Ok (m1, h1, meta_set tb rid idx2).

(** [ColumnStore::steamGC] over the rows of an undo log. *)
Fixpoint steamGC_rows (fuel : nat) (m : M) (h : heap) (tb : table) (rows : list rowid_t)
    (globalMin : TxnTs) : res (heap * table) :=
  match rows with
  | [] => Ok (h, tb)
  | r :: rows =>
      do idx <- meta_get tb r;
      do (h', idx') <- steamGC fuel m h idx globalMin;
      steamGC_rows fuel m h' (meta_set tb r idx') rows globalMin
  end.

(** ** Well-formed tables *)

(** Columns lie one behind the other in the record. *)
Fixpoint layout (off : Z) (cs : list C) : Prop :=
  match cs with
  | [] => True
  | c :: cs => offset_of c = off ∧ 0 <= unit_of c ∧ layout (off + unit_of c) cs
  end.

Definition width (cs : list C) : Z := foldr (λ c s, unit_of c + s) 0 cs.

Record wf (tb : table) : Prop := {
  wf_cols : ∀ c, c ∈ columns tb → col_wf c;
  wf_layout : layout 0 (columns tb);
  wf_size : record_size tb = width (columns tb);
  wf_pairs : column_size_offset_pairs tb = (λ c, (unit_of c, offset_of c)) <$> columns tb
}.

(** The row exists in every column. *)
Definition row_ok (tb : table) (rid : rowid_t) : Prop :=
  ∀ c, c ∈ columns tb → in_range c rid = true.

(** ** Copying a record *)

Lemma read_columns_ok cs rid :
  (∀ c, c ∈ cs → col_wf c ∧ in_range c rid = true) →
  ∃ parts, rmapM (λ c, col_get c rid) cs = Ok parts ∧
    Forall2 (λ c p, zlen p = unit_of c) cs parts.
Proof using Type.
  induction cs as [| c cs IH]; intros Hc; simpl.
  - exists []. split; [done | constructor].
  - destruct (Hc c ltac:(left)) as [Hw Hr]. destruct (col_get_ok c rid Hw Hr) as (b & -> & Hb). simpl.
    destruct IH as (parts & -> & HF). { intros c' Hin. apply Hc. by right. }
    simpl. eexists. split; [done |]. by constructor.
Qed.

Lemma concat_width cs parts : Forall2 (λ c p, zlen p = unit_of c) cs parts →
  zlen (concat parts) = width cs.
Proof using Type.
  induction 1 as [| c p cs parts Hp _ IH]; [done |]. simpl. rewrite zlen_app, IH, Hp. done.
Qed.

(** [copy_record] fills a buffer whose prefix is already written. *)
Lemma copy_record_ok cs rid pre img parts :
  layout (zlen pre) cs → zlen img = width cs →
  rmapM (λ c, col_get c rid) cs = Ok parts → Forall2 (λ c p, zlen p = unit_of c) cs parts →
  copy_record cs rid (pre ++ img) = Ok (pre ++ concat parts).
Proof using Type.
  intros Hl Hi Hm HF. revert pre img Hl Hi Hm.
  induction HF as [| c p cs parts Hp HF IH]; intros pre img Hl Hi Hm; simpl in *.
  - assert (img = []) as -> by (destruct img; [done | unfold zlen in Hi; simpl in Hi; lia]). done.
  - destruct Hl as (Hoff & Hu & Hl).
    apply rbind_Ok_inv in Hm as (p' & Hg & Hm). apply rbind_Ok_inv in Hm as (ps & Hm & [= -> ->]).
    rewrite Hg. cbn [rbind]. rewrite Hoff.
    assert (0 <= width cs) as Hw.
    { rewrite <- (concat_width _ _ HF). unfold zlen. lia. }
    unfold write_bytes. rewrite zlen_app.
    rewrite (proj2 (Z.leb_le 0 (zlen pre))) by (unfold zlen; lia).
    rewrite (proj2 (Z.leb_le _ _)) by lia. cbn [andb rbind].
    unfold zlen at 1. rewrite Nat2Z.id, take_app_length.
    rewrite drop_app_ge by (unfold zlen; lia).
    replace (Z.to_nat (zlen pre + zlen p) - length pre)%nat with (length p) by (unfold zlen; lia).
    rewrite app_assoc. rewrite (IH (pre ++ p) (drop (length p) img)).
    + by rewrite <- app_assoc.
    + rewrite zlen_app, Hp. exact Hl.
    + unfold zlen in *. rewrite length_drop. lia.
    + exact Hm.
Qed.

(** ** Updating columns *)

(** The bytes of the data the columns [idxs] take together. *)
Definition taken (cs : list C) (idxs : list nat) : Z :=
  foldr (λ j s, default 0 (unit_of <$> cs !! j) + s) 0 idxs.

Lemma taken_nonneg cs idxs : (∀ j c, cs !! j = Some c → 0 <= unit_of c) → 0 <= taken cs idxs.
Proof using Type.
  intros Hu. induction idxs as [| k ks IH]; simpl; [lia |].
  destruct (cs !! k) as [ck |] eqn:E; simpl; [| lia]. specialize (Hu k ck E). lia.
Qed.

Lemma taken_insert cs j c c' idxs : cs !! j = Some c → unit_of c' = unit_of c →
  taken (<[j := c']> cs) idxs = taken cs idxs.
Proof using Type.
  intros Hc Eu. induction idxs as [| k ks IH]; simpl; [done |]. rewrite IH. f_equal.
  destruct (decide (k = j)) as [-> | Hk]; [| by rewrite list_lookup_insert_ne].
  rewrite list_lookup_insert_eq by (by eapply lookup_lt_Some). rewrite Hc. simpl. by rewrite Eu.
Qed.

(** The update loop succeeds; the [i]-th column it visits has its row replaced by the next
    element of the data, the columns it does not visit are untouched. *)
Lemma update_columns_ok rid b idxs cs cursor :
  NoDup idxs → (∀ j, j ∈ idxs → ∃ c, cs !! j = Some c ∧ col_wf c ∧ in_range c rid = true) →
  0 <= cursor → cursor + taken cs idxs <= zlen b →
  (∀ j c, cs !! j = Some c → 0 <= unit_of c) →
  ∃ cs', update_columns cs rid idxs (Some b) cursor = Ok cs' ∧
    length cs' = length cs ∧
    (∀ j, j ∉ idxs → cs' !! j = cs !! j) ∧
    (∀ i j c, idxs !! i = Some j → cs !! j = Some c →
       ∃ c' d, cs' !! j = Some c' ∧ replaced c c' rid d ∧
         read_bytes b (cursor + taken cs (take i idxs)) (unit_of c) = Ok d).
Proof using Type.
  revert cs cursor. induction idxs as [| j js IH]; intros cs cursor Hnd Hin H0 Hlen Hu; simpl.
  - exists cs. split; [done |]. split; [done |]. split; [done |]. by intros [].
  - apply NoDup_cons in Hnd as [Hj Hnd].
    destruct (Hin j ltac:(left)) as (c & Hc & Hw & Hr). rewrite Hc. cbn [of_option rbind].
    cbn [taken foldr] in Hlen. fold (taken cs js) in Hlen. rewrite Hc in Hlen. simpl in Hlen.
    pose proof (Hu j c Hc) as Huc. pose proof (taken_nonneg cs js Hu) as Hnn.
    destruct (read_bytes_Ok b cursor (unit_of c)) as (d & Hd & Hdl); [lia | lia | lia |].
    rewrite Hd. cbn [rbind].
    destruct (col_update_ok c rid d Hw Hr Hdl) as (c' & Hup & Hrep). rewrite Hup. cbn [rbind].
    assert (unit_of c' = unit_of c) as Eu by (apply Hrep).
    assert (∀ k, k ≠ j → <[j := c']> cs !! k = cs !! k) as Hne
      by (intros k Hk; by rewrite list_lookup_insert_ne).
    pose proof (lookup_lt_Some _ _ _ Hc) as Hlt.
    destruct (IH (<[j := c']> cs) (cursor + unit_of c)) as (cs' & -> & Hl & Hout & Hinn).
    + done.
    + intros k Hk. assert (k ≠ j) by (intros ->; done). rewrite Hne by done. apply Hin. by right.
    + lia.
    + rewrite (taken_insert _ _ _ _ _ Hc Eu). lia.
    + intros k ck Hk. destruct (decide (k = j)) as [-> | Hkj].
      * rewrite list_lookup_insert_eq in Hk by done. injection Hk as <-. lia.
      * rewrite Hne in Hk by done. by apply (Hu k).
    + exists cs'. split; [done |]. split; [rewrite Hl; apply length_insert |]. split.
      * intros k [Hkj Hkjs]%not_elem_of_cons. rewrite Hout by done. by apply Hne.
      * intros [| i] k ck Hk Hck; simpl in Hk.
        -- injection Hk as <-. rewrite Hc in Hck. injection Hck as <-. rewrite (Hout j Hj).
           rewrite list_lookup_insert_eq by done. exists c', d. simpl. by rewrite Z.add_0_r.
        -- pose proof (list_elem_of_lookup_2 _ _ _ Hk) as Hkin.
           assert (k ≠ j) by (intros ->; done).
           destruct (Hinn i k ck Hk) as (c2 & d2 & H1 & H2 & H3); [by rewrite Hne |].
           exists c2, d2. split; [done |]. split; [done |].
           rewrite (taken_insert _ _ _ _ _ Hc Eu) in H3. cbn [take taken foldr].
           fold (taken cs (take i js)). rewrite Hc. simpl. rewrite Z.add_assoc. exact H3.
Qed.

(** ** Records and their slices *)

(** Cutting a record at the column boundaries and gluing the parts gives it back. *)
Lemma record_slices cs off b : layout off cs → 0 <= off → off + width cs = zlen b →
  ∃ parts, rmapM (λ c, read_bytes b (offset_of c) (unit_of c)) cs = Ok parts ∧
    Forall2 (λ c p, zlen p = unit_of c) cs parts ∧ concat parts = drop (Z.to_nat off) b.
Proof using Type.
  revert off. induction cs as [| c cs IH]; intros off Hl H0 Hw; simpl in *.
  - exists []. split; [done |]. split; [constructor |]. rewrite drop_ge; [done | unfold zlen in Hw; lia].
  - destruct Hl as (-> & Hu & Hl).
    destruct (IH (off + unit_of c) Hl) as (parts & Hp & HF & Hc); [lia | lia |].
    pose proof (concat_width _ _ HF) as Hwd. assert (0 <= zlen (concat parts)) by (unfold zlen; lia).
    destruct (read_bytes_Ok b off (unit_of c)) as (r & Hr & Hrl); [lia | lia | lia |].
    rewrite Hr. cbn [rbind]. rewrite Hp. cbn [rbind]. exists (r :: parts). split; [done |].
    split; [by constructor |]. simpl. rewrite Hc. unfold read_bytes in Hr.
    destruct (_ && _); [| discriminate]. injection Hr as <-.
    replace (Z.to_nat (off + unit_of c)) with (Z.to_nat off + Z.to_nat (unit_of c))%nat by lia.
    rewrite <- drop_drop. apply take_drop.
Qed.

Lemma layout_nonneg off cs : layout off cs → ∀ j c, cs !! j = Some c → 0 <= unit_of c.
Proof using Type.
  revert off. induction cs as [| c cs IH]; intros off Hl [| j] c' Hj; simpl in *; try done.
  - injection Hj as <-. by destruct Hl as (_ & ? & _).
  - destruct Hl as (_ & _ & Hl). by eapply IH.
Qed.

(** The slices a version read makes are the record's slices. *)
Lemma version_slices tb img : wf tb → zlen img = record_size tb →
  ∃ parts, rmapM (λ p, slice img p.2 p.1) (column_size_offset_pairs tb) = Ok parts ∧
    concat parts = img.
Proof using Type.
  intros Hwf Hl. destruct (record_slices (columns tb) 0 img (wf_layout _ Hwf)) as (parts & Hp & _ & Hc).
  { lia. } { rewrite Hl. symmetry. apply (wf_size _ Hwf). }
  exists parts. rewrite drop_0 in Hc. split; [| done]. rewrite (wf_pairs _ Hwf).
  rewrite <- Hp. assert (∀ c, c ∈ columns tb → 0 <= unit_of c) as Hu.
  { intros c (j & Hj)%list_elem_of_lookup_1. by eapply layout_nonneg; [apply (wf_layout _ Hwf) |]. }
  clear Hp Hl. induction (columns tb) as [| c cs IH]; [done |]. rewrite fmap_cons. cbn [rmapM fst snd].
  rewrite IH by (intros; apply Hu; by right). unfold slice, read_bytes, zlen.
  rewrite (proj2 (Z.leb_le 0 (unit_of c))) by (apply Hu; left). by rewrite andb_true_r.
Qed.

(** The columns in front of column [j] end where it starts. *)
Lemma layout_offset off cs j c : layout off cs → cs !! j = Some c →
  offset_of c = off + width (take j cs).
Proof using Type.
  revert off j. induction cs as [| c0 cs IH]; intros off [| j] Hl Hj; simpl in *; try done.
  - injection Hj as ->. destruct Hl as (-> & _). lia.
  - destruct Hl as (_ & _ & Hl). rewrite (IH _ j Hl Hj). lia.
Qed.

Lemma taken_seq cs i : (i <= length cs)%nat → taken cs (seq 0 i) = width (take i cs).
Proof using Type.
  intros Hi. assert (∀ k n, (k + n <= length cs)%nat →
    taken cs (seq k n) = width (take n (drop k cs))) as Hgen.
  { intros k n. revert k. induction n as [| n IH]; intros k Hk; [done |].
    destruct (lookup_lt_is_Some_2 cs k) as [c Hc]; [lia |].
    cbn [seq taken foldr]. fold (taken cs (seq (S k) n)). rewrite Hc, (IH (S k)) by lia. simpl.
    rewrite (drop_S cs c k Hc). done. }
  rewrite (Hgen 0%nat i) by lia. done.
Qed.

(** ** The meta column *)

Lemma meta_get_set tb rid i i' : meta_get tb rid = Ok i → meta_get (meta_set tb rid i') rid = Ok i'.
Proof using Type.
  unfold meta_get. destruct (_ =? 0); [| discriminate].
  intros (part & Hp%of_option_Ok & Hi%of_option_Ok)%rbind_Ok_inv.
  cbn [metaColumn meta_set with_meta].
  rewrite list_lookup_alter_eq, Hp. cbn [fmap option_fmap option_map of_option rbind].
  rewrite list_lookup_insert_eq; [done |]. by eapply lookup_lt_Some.
Qed.

Lemma meta_get_set_ne tb rid rid' i : same_slot rid' rid = false →
  meta_get (meta_set tb rid i) rid' = meta_get tb rid'.
Proof using Type.
  intros Hne. unfold meta_get, meta_set. cbn [metaColumn with_meta].
  destruct (_ =? 0); [| done].
  pose proof (StorageUtils.get_pid_range rid). pose proof (StorageUtils.get_pid_range rid').
  pose proof (StorageUtils.get_offset_range rid). pose proof (StorageUtils.get_offset_range rid').
  destruct (decide (StorageUtils.get_pid rid = StorageUtils.get_pid rid')) as [E | Hp].
  - rewrite <- E. rewrite list_lookup_alter_eq.
    destruct (metaColumn tb !! Z.to_nat (StorageUtils.get_pid rid)) as [part |]; [| done].
    cbn [fmap option_fmap option_map of_option rbind].
    rewrite list_lookup_insert_ne; [done |]. intros E2.
    assert (same_slot rid' rid = true); [| congruence]. apply same_slot_true. split; [done | lia].
  - rewrite list_lookup_alter_ne by lia. done.
Qed.

(** ** Writing a record *)

(** The state in which a transaction writes the record of entry [idx], with what the
    allocator answers: the pointer word [w] of a chunk at [a] where a header lies on none of
    the headers of the record's chain [l]. *)
Record write_ready (t : tid) (m : M) (h : heap) (tb : table) (idx : IndexVal) (txn : Txn)
    (l : list (Z * Z * Version)) (w : Z) (m1 : M) (a : Z) (junk : bytes) : Prop := {
  wr_wf : wf tb;
  wr_row : row_ok tb (VID idx);
  wr_chain : chain m h (delta_list idx) l;
  wr_null : valid m 0 = Ok false;
  wr_alloc : delta_alloc t m (delta_version txn)
               (version_chunk_size (record_size tb)) (partition_id txn)
               (Common.t_min (ts idx)) = Ok (w, m1);
  wr_valid : valid m1 w = Ok true;
  wr_deref : deref m1 w = Ok (Some a);
  wr_fresh : ∀ x, x ∈ l → header_apart a sizeof_version x;
  wr_junk : zlen junk = record_size tb;
  wr_live : deleted (ts idx) = false;
  wr_time : 0 <= Common.t_min (ts idx) <= txn_start_time (txnTs txn) ∧
            txn_start_time (txnTs txn) < 2 ^ 63
}.

(** What [new_version] leaves. *)
Lemma new_version_ok t m h tb idx txn l w m1 a junk :
  write_ready t m h tb idx txn l w m1 a junk →
  ∃ nx, let v := mk_ver (Common.t_min (ts idx)) 0 junk (record_size tb) nx in
    let h1 := <[a := v]> (store_bytes a (object_bytes a v) h) in
    new_version t m h tb idx txn junk = Ok (a, m1, h1, with_delta idx w) ∧
    chain m1 h1 w ((w, a, v) :: (damaged a (object_bytes a v) <$> l)).
Proof using Type.
  intros H. pose proof (alloc_frame _ _ _ _ _ _ _ _ (wr_alloc _ _ _ _ _ _ _ _ _ _ _ H)) as Hfr.
  assert (chain m1 h (delta_list idx) l) as Hc1.
  { eapply chain_agree; [apply (wr_chain _ _ _ _ _ _ _ _ _ _ _ H) | done | |];
      intros u; apply (Hfr u). }
  assert (valid m1 0 = Ok false) as H0.
  { rewrite (proj1 (Hfr 0)). apply (wr_null _ _ _ _ _ _ _ _ _ _ _ H). }
  destruct (create_versions_spec m1 h idx l (record_size tb) w junk Hc1 H0
    (wr_valid _ _ _ _ _ _ _ _ _ _ _ H) a (wr_deref _ _ _ _ _ _ _ _ _ _ _ H)
    (wr_fresh _ _ _ _ _ _ _ _ _ _ _ H)) as (nx & E & Hc).
  exists nx. split; [| exact Hc].
  unfold new_version. rewrite (wr_alloc _ _ _ _ _ _ _ _ _ _ _ H). cbn [rbind]. rewrite E. done.
Qed.

(** Writing the image of the version at [a] behind its header. *)
Lemma chain_write_image m1 h1 w a v l img :
  chain m1 h1 w ((w, a, v) :: l) → (∀ x, x ∈ l → addr x ≠ a) →
  (∀ x, x ∈ l → header_apart (version_data a) (zlen img) x) →
  chain m1 (<[a := with_image v img]> (store_bytes (version_data a) img h1)) w
    ((w, a, with_image v img) :: (damaged (version_data a) img <$> l)).
Proof using Type.
  intros Hc Hne Ha. inversion Hc as [| ? ? ? ? Hv Hd Hh Hc']; subst.
  econstructor; [done | done | by rewrite lookup_insert_eq |]. cbn [next with_image].
  apply chain_frame; [by apply chain_store |].
  intros x (y & -> & Hy)%list_elem_of_fmap. exact (Hne y Hy).
Qed.

(** The old record as the columns hold it. *)
Lemma record_parts tb rid : wf tb → row_ok tb rid →
  ∃ parts, rmapM (λ c, col_get c rid) (columns tb) = Ok parts ∧
    Forall2 (λ c p, zlen p = unit_of c) (columns tb) parts ∧
    zlen (concat parts) = record_size tb.
Proof using Type.
  intros Hwf Hr. destruct (read_columns_ok (columns tb) rid) as (parts & Hp & HF).
  { intros c Hc. split; [by apply (wf_cols _ Hwf) | by apply Hr]. }
  exists parts. split; [done |]. split; [done |].
  rewrite (concat_width _ _ HF). symmetry. apply (wf_size _ Hwf).
Qed.

(** [updateRecord] on every list of columns: the entry is restamped, the version holds the
    whole old record, the columns are those of the update loop, and the older versions are
    damaged where the new header and the new image lie on them. *)
Lemma updateRecord_ok t m h tb idx txn l w m1 a junk rid b col_idx :
  write_ready t m h tb idx txn l w m1 a junk → meta_get tb rid = Ok idx →
  (∀ x, x ∈ l → header_apart (version_data a) (record_size tb) x) →
  NoDup (update_order tb col_idx) →
  (∀ j, j ∈ update_order tb col_idx → (j < length (columns tb))%nat) →
  taken (columns tb) (update_order tb col_idx) <= zlen b →
  ∃ cs' parts nx,
    update_columns (columns tb) (VID idx) (update_order tb col_idx) (Some b) 0 = Ok cs' ∧
    rmapM (λ c, col_get c (VID idx)) (columns tb) = Ok parts ∧
    zlen (concat parts) = record_size tb ∧
    let v := mk_ver (Common.t_min (ts idx)) 0 junk (record_size tb) nx in
    let idx' := with_ts (with_delta idx w)
                  (set_t_min (ts idx) (txn_start_time (txnTs txn))) in
    ∃ h', chain m1 h' w ((w, a, with_image v (concat parts)) ::
            (damaged (version_data a) (concat parts) <$> (damaged a (object_bytes a v) <$> l))) ∧
    updateRecord t m h tb txn rid (Some b) col_idx junk =
      Ok (m1, h', meta_set (with_columns tb cs') rid idx').
Proof using Type.
  intros H Hget Himg Hnd Hin Hlen. pose proof (wr_wf _ _ _ _ _ _ _ _ _ _ _ H) as Hwf.
  pose proof (wr_row _ _ _ _ _ _ _ _ _ _ _ H) as Hrow.
  destruct (new_version_ok t m h tb idx txn l w m1 a junk H) as (nx & E & Hc).
  destruct (record_parts tb (VID idx) Hwf Hrow) as (parts & Hp & HF & Hpl).
  destruct (update_columns_ok (VID idx) b (update_order tb col_idx) (columns tb) 0)
    as (cs' & Hup & _); [done | | lia | lia | |].
  { intros j Hj. destruct (lookup_lt_is_Some_2 (columns tb) j (Hin j Hj)) as [c Hcj]. exists c.
    apply list_elem_of_lookup_2 in Hcj as Hel. split; [done |].
    split; [by apply (wf_cols _ Hwf) | by apply Hrow]. }
  { by eapply layout_nonneg, wf_layout. }
  exists cs', parts, nx. split; [done |]. split; [done |]. split; [done |]. cbv zeta.
  eexists. split.
  { apply chain_write_image; [exact Hc | |]; intros x (y & -> & Hy)%list_elem_of_fmap.
    - exact (header_apart_ne a y (wr_fresh _ _ _ _ _ _ _ _ _ _ _ H y Hy)).
    - rewrite Hpl. exact (Himg y Hy). }
  unfold updateRecord. rewrite Hget. cbn [rbind]. rewrite E. cbn [rbind].
  cbn [delta_list with_delta]. rewrite (wr_valid _ _ _ _ _ _ _ _ _ _ _ H). cbn [rbind].
  rewrite lookup_insert_eq. cbn [of_option rbind size image t_min t_max next].
  rewrite Z.leb_refl.
  assert (copy_record (columns tb) (VID idx) junk = Ok (concat parts)) as ->.
  { apply (copy_record_ok (columns tb) (VID idx) [] junk parts (wf_layout _ Hwf)); [| done | done].
    rewrite (wr_junk _ _ _ _ _ _ _ _ _ _ _ H). apply (wf_size _ Hwf). }
  cbn [rbind VID ts with_delta]. rewrite Hup. done.
Qed.

(** Restamping hides the new main record from older snapshots, and the version made for
    them gives back what they read before. *)
Lemma old_snapshot_reads_same m m1 h h' tb tb' idx txn l w a nx img fuel xact r :
  let X := txn_start_time (txnTs txn) in
  let v' := mk_ver (Common.t_min (ts idx)) 0 img (record_size tb) nx in
  let idx' := with_ts (with_delta idx w) (set_t_min (ts idx) X) in
  wf tb → chain m h (delta_list idx) l → chain m1 h' w ((w, a, v') :: l) →
  (length l + 1 < fuel)%nat → deleted (ts idx) = false → 0 <= X < 2 ^ 63 →
  read_columns (columns tb) (VID idx) = Ok img → zlen img = record_size tb →
  column_size_offset_pairs tb' = column_size_offset_pairs tb →
  orderly xact X → (∀ t, t ∈ stamps idx l → orderly xact t) → txn_start_time xact < X →
  getIndexedRecord fuel m h tb xact idx None = Ok r →
  getIndexedRecord fuel m1 h' tb' xact idx' None = Ok r.
Proof using Type.
  intros X v' idx' Hwf Hc Hc' Hf Hdel HX Hread Himg Hpairs HoX Ho Hlt Hold.
  unfold getIndexedRecord in *. unfold is_readable_idx in *.
  assert (is_readable (Common.t_min (ts idx')) xact = false) as ->.
  { cbn [idx' ts with_ts set_t_min Common.t_min]. rewrite (wrap_id 63) by done. rewrite HoX.
    by apply Z.leb_gt. }
  rewrite (get_readable_version_spec m1 _ idx' ((w, a, v') :: l)); [| exact Hc' | simpl; lia].
  cbn [first_readable List.find ver snd v' t_min].
  assert (deleted (ts idx') = false) as -> by done. rewrite Hpairs.
  destruct (is_readable (Common.t_min (ts idx)) xact) eqn:Er.
  - rewrite Hdel in Hold. cbn [negb rbind] in Hold. rewrite Hread in Hold. injection Hold as <-.
    cbn [of_option rbind negb]. destruct (version_slices tb img Hwf Himg) as (ps & Hps & Hcat).
    change (image (ver (w, a, v'))) with img. rewrite Hps. cbn [rbind]. by rewrite Hcat.
  - rewrite (get_readable_version_spec m h idx l) in Hold by (done || lia). rewrite Hdel in Hold.
    destruct l as [| z l0]; [discriminate |]. exact Hold.
Qed.

(** The other rows of the table keep their main records. *)
Lemma update_other_rows rid v b idxs cs cs' :
  update_columns cs rid idxs (Some b) 0 = Ok cs' → NoDup idxs →
  (∀ j, j ∈ idxs → ∃ c, cs !! j = Some c ∧ col_wf c ∧ in_range c rid = true) →
  taken cs idxs <= zlen b → (∀ j c, cs !! j = Some c → 0 <= unit_of c) →
  (∀ c, c ∈ cs → in_range c v = true) → same_slot v rid = false →
  read_columns cs' v = read_columns cs v.
Proof using Type.
  intros Hup Hnd Hin Hlen Hu Hv Hne. unfold read_columns.
  destruct (update_columns_ok rid b idxs cs 0) as (cs0 & E & Hl & Hout & Hinn); try done.
  rewrite Hup in E. injection E as <-.
  rewrite (rmapM_ext (λ c, col_get c v) (λ c, col_get c v) cs' cs); [done |].
  apply Forall2_same_length_lookup_2; [done |]. intros j c' c Hc' Hc.
  destruct (decide (j ∈ idxs)) as [(i & Hi)%list_elem_of_lookup_1 | Hj].
  - destruct (Hinn i j c Hi Hc) as (c2 & d & H2 & (_ & _ & _ & _ & Hget) & _).
    rewrite Hc' in H2. injection H2 as <-. rewrite Hget, Hne; [done |].
    apply Hv. by eapply list_elem_of_lookup_2.
  - rewrite (Hout j Hj) in Hc'. congruence.
Qed.

(** After a full update the columns hold the new record. *)
Lemma update_all_reads tb rid b cs' : wf tb → row_ok tb rid → zlen b = record_size tb →
  update_columns (columns tb) rid (seq 0 (length (columns tb))) (Some b) 0 = Ok cs' →
  read_columns cs' rid = Ok b.
Proof using Type.
  intros Hwf Hrow Hb Hup. unfold read_columns. set (cs := columns tb) in *.
  destruct (update_columns_ok rid b (seq 0 (length cs)) cs 0) as (cs0 & E & Hl & _ & Hinn).
  { apply NoDup_seq. }
  { intros j [_ Hj]%elem_of_seq. destruct (lookup_lt_is_Some_2 cs j ltac:(lia)) as [c Hc].
    apply list_elem_of_lookup_2 in Hc as Hel. exists c. split; [done |].
    split; [by apply (wf_cols _ Hwf) | by apply Hrow]. }
  { lia. }
  { rewrite taken_seq, firstn_all by lia. rewrite Hb, (wf_size _ Hwf). fold cs. lia. }
  { by eapply layout_nonneg, wf_layout. }
  rewrite Hup in E. injection E as <-.
  destruct (record_slices cs 0 b (wf_layout _ Hwf)) as (parts & Hp & _ & Hcat).
  { lia. } { rewrite Hb. symmetry. apply (wf_size _ Hwf). }
  rewrite (rmapM_ext _ (λ c, read_bytes b (offset_of c) (unit_of c)) cs' cs).
  { rewrite Hp. cbn [rbind]. by rewrite Hcat, drop_0. }
  apply Forall2_same_length_lookup_2; [done |]. intros j c' c Hc' Hc.
  pose proof (lookup_lt_Some _ _ _ Hc) as Hlt.
  destruct (Hinn j j c) as (c2 & d & H2 & (_ & _ & _ & _ & Hget) & Hd); [by apply lookup_seq_lt | done |].
  rewrite Hc' in H2. injection H2 as <-.
  rewrite (Hget rid) by (apply Hrow; by eapply list_elem_of_lookup_2). rewrite same_slot_refl, <- Hd.
  rewrite take_seq, Nat.min_l by lia. rewrite taken_seq by lia.
  rewrite (layout_offset 0 cs j c (wf_layout _ Hwf) Hc). done.
Qed.

(** Columns of the same shape keep the table well formed. *)
Definition same_shape (c c' : C) : Prop :=
  col_wf c' ∧ unit_of c' = unit_of c ∧ offset_of c' = offset_of c ∧
  ∀ u, in_range c' u = in_range c u.

Lemma same_shape_wf tb cs' : wf tb → Forall2 same_shape (columns tb) cs' →
  wf (with_columns tb cs').
Proof using Type.
  intros [Hc Hl Hs Hp] HF. split; cbn [columns with_columns record_size column_size_offset_pairs].
  - intros c' (j & Hj)%list_elem_of_lookup_1.
    destruct (Forall2_lookup_r _ _ _ _ _ HF Hj) as (c & _ & Hsh & _). done.
  - clear -Hl HF. revert Hl. generalize 0. induction HF as [| c c' cs cs' Hsh HF IH]; intros o Hl; [done |].
    destruct Hsh as (_ & Eu & Eo & _), Hl as (Ho & Hu & Hl). simpl. rewrite Eu, Eo. auto.
  - rewrite Hs. clear -HF. induction HF as [| c c' cs cs' Hsh HF IH]; [done |].
    destruct Hsh as (_ & Eu & _). simpl. by rewrite Eu, IH.
  - rewrite Hp. clear -HF. induction HF as [| c c' cs cs' Hsh HF IH]; [done |].
    destruct Hsh as (_ & Eu & Eo & _). rewrite !fmap_cons, IH. by rewrite Eu, Eo.
Qed.

Lemma meta_set_wf tb rid i : wf tb → wf (meta_set tb rid i).
Proof using Type. intros [Hc Hl Hs Hp]. by split. Qed.

Lemma update_same_shape rid b idxs cs cs' :
  update_columns cs rid idxs (Some b) 0 = Ok cs' → NoDup idxs →
  (∀ j, j ∈ idxs → ∃ c, cs !! j = Some c ∧ col_wf c ∧ in_range c rid = true) →
  taken cs idxs <= zlen b → (∀ j c, cs !! j = Some c → 0 <= unit_of c) →
  (∀ c, c ∈ cs → col_wf c) → Forall2 same_shape cs cs'.
Proof using Type.
  intros Hup Hnd Hin Hlen Hu Hw.
  destruct (update_columns_ok rid b idxs cs 0) as (cs0 & E & Hl & Hout & Hinn); try done.
  rewrite Hup in E. injection E as <-.
  apply Forall2_same_length_lookup_2; [done |]. intros j c c' Hc Hc'.
  destruct (decide (j ∈ idxs)) as [(i & Hi)%list_elem_of_lookup_1 | Hj].
  - destruct (Hinn i j c Hi Hc) as (c2 & d & H2 & (H3 & H4 & H5 & H6 & _) & _).
    rewrite Hc' in H2. injection H2 as <-. done.
  - rewrite (Hout j Hj), Hc in Hc'. injection Hc' as <-. split; [| done].
    apply Hw. by eapply list_elem_of_lookup_2.
Qed.

(** The columns of a row that exists satisfy what the update loop asks for. *)
Lemma order_in_table tb rid (idxs : list nat) : wf tb → row_ok tb rid →
  (∀ j, j ∈ idxs → (j < length (columns tb))%nat) →
  ∀ j, j ∈ idxs → ∃ c, columns tb !! j = Some c ∧ col_wf c ∧ in_range c rid = true.
Proof using Type.
  intros Hwf Hrow Hin j Hj. destruct (lookup_lt_is_Some_2 (columns tb) j (Hin j Hj)) as [c Hc].
  exists c. apply list_elem_of_lookup_2 in Hc as Hel. split; [done |].
  split; [by apply (wf_cols _ Hwf) | by apply Hrow].
Qed.

(** A range that a version misses as a whole is missed by the header and the image in it. *)
Lemma apart_parts rs a x : 0 <= rs → apart a (sizeof_version + alignof_version + rs) x →
  apart a sizeof_version x ∧ apart (version_data a) rs x.
Proof using Type.
  unfold apart, header_apart, overlaps, version_data.
  pose proof sizeof_pos. pose proof alignof_pos. lia.
Qed.

Lemma updateRecord_isolates (t : tid) (m m1 : M) (h : heap) (tb : table)
    (idx : IndexVal) (txn : Txn) (l : list (Z * Z * Version)) (w a : Z) (junk b : bytes)
    (rid : rowid_t) :
  write_ready t m h tb idx txn l w m1 a junk → meta_get tb rid = Ok idx →
  (∀ x, x ∈ l → apart a (sizeof_version + alignof_version + record_size tb) x) →
  zlen b = record_size tb →
  ∃ h' tb' idx', updateRecord t m h tb txn rid (Some b) None junk = Ok (m1, h', tb') ∧
    wf tb' ∧ meta_get tb' rid = Ok idx' ∧
    (∀ fuel xact, (length l + 1 < fuel)%nat → orderly xact (txn_start_time (txnTs txn)) →
       (∀ n, n ∈ stamps idx l → orderly xact n) →
       if txn_start_time (txnTs txn) <=? txn_start_time xact
       then getIndexedRecord fuel m1 h' tb' xact idx' None = Ok b
       else ∀ r, getIndexedRecord fuel m h tb xact idx None = Ok r →
                 getIndexedRecord fuel m1 h' tb' xact idx' None = Ok r) ∧
    (∀ v, row_ok tb v → same_slot v (VID idx) = false →
       read_columns (columns tb') v = read_columns (columns tb) v).
Proof using Type.
  intros H Hget Hap Hb. pose proof (wr_wf _ _ _ _ _ _ _ _ _ _ _ H) as Hwf.
  pose proof (wr_row _ _ _ _ _ _ _ _ _ _ _ H) as Hrow.
  pose proof (layout_nonneg _ _ (wf_layout _ Hwf)) as Hu.
  assert (∀ j, j ∈ update_order tb None → (j < length (columns tb))%nat) as Hord
    by (intros j [_ Hj]%elem_of_seq; lia).
  assert (taken (columns tb) (update_order tb None) <= zlen b) as Hlen.
  { unfold update_order. rewrite taken_seq, firstn_all by lia. rewrite Hb, (wf_size _ Hwf). lia. }
  assert (0 <= record_size tb) as Hrs by (rewrite <- Hb; unfold zlen; lia).
  destruct (updateRecord_ok t m h tb idx txn l w m1 a junk rid b None H Hget
    ltac:(intros x Hx; by apply apart_parts, Hap) (NoDup_seq _ _) Hord Hlen)
    as (cs' & parts & nx & Hup & Hp & Hpl & h' & Hc & E).
  rewrite (damaged_apart a), damaged_apart in Hc
    by (intros x Hx; rewrite ?object_len, ?Hpl; by apply (apart_parts (record_size tb) a x Hrs), Hap).
  do 3 eexists. split; [exact E |]. split.
  { apply meta_set_wf, same_shape_wf; [done |].
    eapply update_same_shape; [exact Hup | apply NoDup_seq | by apply order_in_table | done | done |].
    apply (wf_cols _ Hwf). }
  split; [by eapply meta_get_set |]. split.
  - intros fuel xact Hf HoX Ho.
    destruct (wr_time _ _ _ _ _ _ _ _ _ _ _ H) as [HX HX2].
    destruct (Z.leb_spec (txn_start_time (txnTs txn)) (txn_start_time xact)) as [Hle | Hlt].
    + unfold getIndexedRecord, is_readable_idx. cbn [ts with_ts set_t_min Common.t_min deleted].
      rewrite (wrap_id 63) by lia. rewrite HoX, (proj2 (Z.leb_le _ _) Hle).
      rewrite (wr_live _ _ _ _ _ _ _ _ _ _ _ H). cbn [negb rbind].
      cbn [columns meta_set with_meta with_columns VID with_ts with_delta].
      by apply (update_all_reads tb).
    + intros r Hr. eapply (old_snapshot_reads_same m m1 h _ tb _ idx txn l w a nx (concat parts));
        try done; [apply (wr_chain _ _ _ _ _ _ _ _ _ _ _ H) | apply (wr_live _ _ _ _ _ _ _ _ _ _ _ H) | lia |].
      unfold read_columns. by rewrite Hp.
  - intros v Hv Hne. cbn [columns meta_set with_meta with_columns].
    eapply update_other_rows; [exact Hup | apply NoDup_seq | by apply order_in_table | done | done | done | done].
Qed.


(** C0: What back-to-back chunks do.  The chunk of a version is [alignof] bytes too short for
    the record image placed in it; when the store hands the next chunk out directly behind the
    newest version [x] of a record, as its bump allocator does, an update of the record succeeds
    and a snapshot that read the image of [x] before now reads it with its last [alignof] bytes
    replaced by the first bytes of the new version's header. *)
Theorem adjacent_version_damages_snapshot (t : tid) (m m1 : M) (h : heap) (tb : table)
    (idx : IndexVal) (txn : Txn) (x : Z * Z * Version) (l : list (Z * Z * Version)) (w a : Z)
    (junk b : bytes) (rid : rowid_t) :
  write_ready t m h tb idx txn (x :: l) w m1 a junk → meta_get tb rid = Ok idx →
  a = addr x + version_chunk_size (record_size tb) → zlen (image (ver x)) = record_size tb →
  alignof_version <= sizeof_version → alignof_version <= record_size tb →
  (∀ y, y ∈ l → header_apart (version_data a) (record_size tb) y) → zlen b = record_size tb →
  ∃ nx h' tb' idx', updateRecord t m h tb txn rid (Some b) None junk = Ok (m1, h', tb') ∧
    meta_get tb' rid = Ok idx' ∧
    ∀ fuel xact, (length l + 2 < fuel)%nat → orderly xact (txn_start_time (txnTs txn)) →
      (∀ n, n ∈ stamps idx (x :: l) → orderly xact n) →
      t_min (ver x) <= txn_start_time xact < Common.t_min (ts idx) →
      getIndexedRecord fuel m h tb xact idx None = Ok (image (ver x)) ∧
      getIndexedRecord fuel m1 h' tb' xact idx' None =
        Ok (take (Z.to_nat (record_size tb - alignof_version)) (image (ver x)) ++
            take (Z.to_nat alignof_version)
              (object_bytes a (mk_ver (Common.t_min (ts idx)) 0 junk (record_size tb) nx))).
Proof using Type.
  intros H Hget Ha Hx Has Har Hl Hb. pose proof (wr_wf _ _ _ _ _ _ _ _ _ _ _ H) as Hwf.
  destruct (updateRecord_ok t m h tb idx txn (x :: l) w m1 a junk rid b None H Hget)
    as (cs' & parts & nx & _ & _ & Hpl & h' & Hc & E).
  { intros y [-> | Hy]%elem_of_cons; [| by apply Hl].
    unfold header_apart, overlaps, version_data, version_chunk_size in *. pose proof sizeof_pos. pose proof alignof_pos. lia. }
  { apply NoDup_seq. } { intros j [_ Hj]%elem_of_seq. lia. }
  { unfold update_order. rewrite taken_seq, firstn_all by lia. rewrite Hb, (wf_size _ Hwf). lia. }
  do 4 eexists. split; [exact E |]. split; [by eapply meta_get_set |].
  intros fuel xact Hf HoX Ho [Hlo Hhi]. destruct (wr_time _ _ _ _ _ _ _ _ _ _ _ H) as [HX HX2].
  pose proof (Ho (Common.t_min (ts idx)) ltac:(left)) as Ho0.
  pose proof (Ho (t_min (ver x)) ltac:(right; left)) as Ho1.
  unfold getIndexedRecord, is_readable_idx.
  cbn [ts with_ts set_t_min Common.t_min deleted column_size_offset_pairs meta_set with_meta with_columns].
  rewrite (wrap_id 63) by lia. rewrite HoX, Ho0, !(proj2 (Z.leb_gt _ _)) by lia. split.
  - rewrite (get_readable_version_spec m h idx (x :: l))
      by ((simpl; lia) || apply (wr_chain _ _ _ _ _ _ _ _ _ _ _ H)).
    cbn [first_readable List.find]. rewrite Ho1, (proj2 (Z.leb_le _ _)) by lia.
    cbn [of_option rbind]. rewrite (wr_live _ _ _ _ _ _ _ _ _ _ _ H). cbn [negb rbind].
    destruct (version_slices tb (image (ver x)) Hwf Hx) as (ps & -> & <-). done.
  - erewrite get_readable_version_spec; [| exact Hc | simpl; rewrite !length_fmap; lia].
    cbn [first_readable List.find fmap list_fmap]. unfold ver at 1. cbn [snd with_image t_min].
    rewrite Ho0, (proj2 (Z.leb_gt _ _)) by lia.
    unfold ver at 1. cbn [damaged snd with_image t_min].
    rewrite Ho1, (proj2 (Z.leb_le _ _)) by lia. cbn [of_option rbind ts with_ts set_t_min deleted].
    rewrite (wr_live _ _ _ _ _ _ _ _ _ _ _ H). cbn [negb rbind].
    set (img := image _). assert (img = take (Z.to_nat (record_size tb - alignof_version)) (image (ver x)) ++
      take (Z.to_nat alignof_version)
        (object_bytes a (mk_ver (Common.t_min (ts idx)) 0 junk (record_size tb) nx))) as Eimg.
    { unfold img. cbn [image ver snd damaged with_image addr fst].
      pose proof sizeof_pos. pose proof alignof_pos.
      rewrite (overwrite_apart _ _ (version_data a)).
      - rewrite overwrite_tail; rewrite ?object_len, Hx;
          unfold version_data, version_chunk_size, addr in *; [| lia | lia].
        f_equal; f_equal; lia.
      - rewrite overwrite_len, Hx, Hpl. unfold overlaps, version_data, version_chunk_size, addr in *. lia. }
    destruct (version_slices tb img Hwf) as (ps & -> & Hps); [| simpl; by rewrite Hps, Eimg].
    unfold img. cbn [image ver snd damaged with_image]. by rewrite !overwrite_len.
Qed.

(** ** Inserting a record *)

Lemma insert_columns_ok rid data cs off :
  (∀ c, c ∈ cs → col_wf c ∧ in_range c rid = true) →
  layout off cs → 0 <= off → off + width cs <= zlen data →
  ∃ cs', insert_columns cs rid data = Ok cs' ∧
    Forall2 (λ c c', ∃ d, read_bytes data (offset_of c) (unit_of c) = Ok d ∧
                          replaced c c' rid d) cs cs'.
Proof using Type.
  revert off. induction cs as [| c cs IH]; intros off Hc Hl H0 Hw; simpl in *.
  - exists []. split; [done | constructor].
  - destruct Hl as (Hoff & Hu & Hl), (Hc c ltac:(left)) as [Hcw Hcr].
    assert (0 <= width cs) as Hwn.
    { clear -Hl. revert Hl. generalize (off + unit_of c). induction cs as [| x cs IH]; intros o Hl; simpl; [lia |].
      destruct Hl as (_ & ? & Hl). specialize (IH _ Hl). lia. }
    destruct (read_bytes_Ok data (offset_of c) (unit_of c)) as (d & Hd & Hdl); [lia | lia | lia |].
    rewrite Hd. cbn [rbind]. destruct (col_insert_ok c rid d Hcw Hcr Hdl) as (c' & -> & Hrep). cbn [rbind].
    destruct (IH (off + unit_of c)) as (cs' & -> & HF); [| done | lia | lia |].
    { intros x Hx. apply Hc. by right. }
    cbn [rbind]. eexists. split; [done |]. constructor; [eauto | done].
Qed.

Lemma inserted_reads rid data cs cs' :
  Forall2 (λ c c', ∃ d, read_bytes data (offset_of c) (unit_of c) = Ok d ∧ replaced c c' rid d) cs cs' →
  (∀ c, c ∈ cs → in_range c rid = true) → layout 0 cs → width cs = zlen data →
  read_columns cs' rid = Ok data ∧
  ∀ v, (∀ c, c ∈ cs → in_range c v = true) → same_slot v rid = false →
    read_columns cs' v = read_columns cs v.
Proof using Type.
  intros HF Hr Hl Hw. unfold read_columns. split.
  - destruct (record_slices cs 0 data Hl) as (parts & Hp & _ & Hcat); [lia | lia |].
    rewrite (rmapM_ext (λ c, col_get c rid) (λ c, read_bytes data (offset_of c) (unit_of c)) cs' cs).
    { rewrite Hp. cbn [rbind]. by rewrite Hcat, drop_0. }
    apply Forall2_flip. eapply Forall2_impl; [| intros c c' Hx; exact Hx].
    apply Forall2_same_length_lookup_2; [by eapply Forall2_length |]. intros j c c' Hc Hc'.
    destruct (Forall2_lookup_lr _ _ _ _ _ _ HF Hc Hc') as (d & Hd & (_ & _ & _ & _ & Hget)).
    unfold flip. rewrite (Hget rid) by (apply Hr; by eapply list_elem_of_lookup_2).
    by rewrite same_slot_refl.
  - intros v Hv Hne. rewrite (rmapM_ext (λ c, col_get c v) (λ c, col_get c v) cs' cs); [done |].
    apply Forall2_flip. eapply Forall2_impl; [| intros c c' Hx; exact Hx].
    apply Forall2_same_length_lookup_2; [by eapply Forall2_length |]. intros j c c' Hc Hc'.
    destruct (Forall2_lookup_lr _ _ _ _ _ _ HF Hc Hc') as (d & Hd & (_ & _ & _ & _ & Hget)).
    unfold flip. rewrite (Hget v) by (apply Hv; by eapply list_elem_of_lookup_2). by rewrite Hne.
Qed.

Lemma insertRecord_ok (tb : table) (d : bytes) (X p k : Z) (i : IndexVal) :
  let pid := p mod n_partitions tb in
  let rid := StorageUtils.create_vid k pid 0 in
  wf tb → indexed tb = true → 0 <= pid < 2 ^ 8 → 0 <= k < 2 ^ 40 →
  vid tb !! Z.to_nat pid = Some k → meta_get tb rid = Ok i → row_ok tb rid →
  zlen d = record_size tb → 0 <= X < 2 ^ 63 →
  ∃ tb', insertRecord tb d X p 0 = Ok (rid, tb') ∧ wf tb' ∧
    vid tb' = <[Z.to_nat pid := k + 1]> (vid tb) ∧
    (∀ fuel m h xact, orderly xact X → X <= txn_start_time xact →
       getRecord fuel m h tb' xact rid None = Ok d) ∧
    (∀ v, same_slot v rid = false →
       meta_get tb' v = meta_get tb v ∧
       (row_ok tb v → read_columns (columns tb') v = read_columns (columns tb) v)).
Proof using Type.
  intros pid rid Hwf Hix Hpid Hk Hvid Hmeta Hrow Hd HX.
  destruct (insert_columns_ok rid d (columns tb) 0) as (cs' & Hins & HF).
  { intros c Hc. split; [by apply (wf_cols _ Hwf) | by apply Hrow]. }
  { apply (wf_layout _ Hwf). } { lia. } { rewrite <- (wf_size _ Hwf). lia. }
  destruct (inserted_reads rid d (columns tb) cs' HF Hrow (wf_layout _ Hwf)) as [Hread Hother].
  { rewrite <- (wf_size _ Hwf). lia. }
  set (i' := mk_idx (mk_ts false (wrap 63 X)) rid (latch i) (write_lck i) (delta_list i)).
  set (tb1 := with_vid tb (<[Z.to_nat pid := u64 (k + 1)]> (vid tb))).
  assert (meta_get tb1 rid = Ok i) as Hm1 by exact Hmeta.
  exists (with_columns (meta_set tb1 rid i') cs'). split.
  { unfold insertRecord. fold pid. rewrite Hvid. cbn [of_option rbind].
    fold rid. fold tb1. change (indexed tb1) with (indexed tb). rewrite Hix, Hm1. cbn [rbind].
    fold i'. change (columns (meta_set tb1 rid i')) with (columns tb). rewrite Hins. done. }
  split.
  { apply (same_shape_wf (meta_set tb1 rid i') cs'); [by destruct Hwf; split |].
    eapply Forall2_impl; [exact HF |]. intros c c' (x & _ & H1 & H2 & H3 & H4 & _). done. }
  split; [cbn [vid with_columns meta_set with_meta tb1 with_vid]; by rewrite wrap_id by lia |].
  split.
  - intros fuel m h xact Ho Hle. unfold getRecord.
    change (meta_get (with_columns (meta_set tb1 rid i') cs') rid) with (meta_get (meta_set tb1 rid i') rid).
    rewrite (meta_get_set tb1 rid i i' Hm1). cbn [rbind]. unfold getIndexedRecord, is_readable_idx.
    cbn [ts i' Common.t_min deleted]. rewrite (wrap_id 63) by done.
    rewrite Ho, (proj2 (Z.leb_le _ _) Hle). cbn [negb rbind]. exact Hread.
  - intros v Hne. split; [exact (meta_get_set_ne tb1 rid v i' Hne) |]. intros Hv. by apply Hother.
Qed.

(** C3: Inserting a record and reading it back.  The record goes to the next free slot of the
    partition it is routed to; the row counter advances by one; every transaction that
    starts no earlier than the inserter reads the whole record back through the row id
    the insert returned; the other rows, and their index entries, are untouched. *)
Theorem insertRecord_then_read (tb : table) (d : bytes) (X p k : Z) (i : IndexVal) :
  let pid := p mod n_partitions tb in
  let rid := StorageUtils.create_vid k pid 0 in
  wf tb → indexed tb = true → 0 <= pid < 2 ^ 8 → 0 <= k < 2 ^ 40 →
  vid tb !! Z.to_nat pid = Some k → meta_get tb rid = Ok i → row_ok tb rid →
  zlen d = record_size tb → 0 <= X < 2 ^ 63 →
  ∃ tb', insertRecord tb d X p 0 = Ok (rid, tb') ∧ wf tb' ∧
    vid tb' = <[Z.to_nat pid := k + 1]> (vid tb) ∧
    (∀ fuel m h xact, orderly xact X → X <= txn_start_time xact →
       getRecord fuel m h tb' xact rid None = Ok d) ∧
    (∀ v, same_slot v rid = false →
       meta_get tb' v = meta_get tb v ∧
       (row_ok tb v → read_columns (columns tb') v = read_columns (columns tb) v)).
Proof using Type. exact (insertRecord_ok tb d X p k i). Qed.

(** ** Deleting a record *)

(** C26: Once a record is deleted by a transaction that starts at [X], every read of it
    whose snapshot is not older than the deleted version fails with "record does not
    exist": the snapshots from [X] on, as intended, but also those between the record's
    last stamp and [X], to which the record was visible before. *)
Theorem deleteRecord_hides_record (t : tid) (m m1 : M) (h : heap) (tb : table)
    (idx : IndexVal) (txn : Txn) (l : list (Z * Z * Version)) (w a : Z) (junk : bytes)
    (rid : rowid_t) :
  write_ready t m h tb idx txn l w m1 a junk → meta_get tb rid = Ok idx →
  ∃ h' tb' idx', deleteRecord t m h tb txn rid junk = Ok (m1, h', tb') ∧
    meta_get tb' rid = Ok idx' ∧
    ∀ fuel xact, (length l + 1 < fuel)%nat → orderly xact (txn_start_time (txnTs txn)) →
      (∀ n, n ∈ stamps idx l → orderly xact n) → Common.t_min (ts idx) <= txn_start_time xact →
      (∃ r, getIndexedRecord fuel m h tb xact idx None = Ok r) ∧
      getIndexedRecord fuel m1 h' tb' xact idx' None = Err Throw.
Proof using Type.
  intros H Hget. destruct (new_version_ok t m h tb idx txn l w m1 a junk H) as (nx & E & Hc).
  unfold deleteRecord. rewrite Hget. cbn [rbind]. rewrite E. cbn [rbind].
  do 3 eexists. split; [done |]. split; [by eapply meta_get_set |].
  intros fuel xact Hf HoX Ho Hle. unfold getIndexedRecord, is_readable_idx.
  rewrite (Ho (Common.t_min (ts idx)) ltac:(left)), (proj2 (Z.leb_le _ _) Hle).
  rewrite (wr_live _ _ _ _ _ _ _ _ _ _ _ H). cbn [negb rbind]. split.
  { destruct (record_parts tb (VID idx) (wr_wf _ _ _ _ _ _ _ _ _ _ _ H) (wr_row _ _ _ _ _ _ _ _ _ _ _ H))
      as (parts & Hp & _). unfold read_columns. rewrite Hp. eauto. }
  destruct (wr_time _ _ _ _ _ _ _ _ _ _ _ H) as [HX HX2].
  cbn [ts with_ts set_deleted set_t_min Common.t_min deleted]. rewrite (wrap_id 63) by lia. rewrite HoX.
  destruct (txn_start_time (txnTs txn) <=? txn_start_time xact); [done |].
  erewrite get_readable_version_spec; [| exact Hc | simpl; rewrite length_fmap; lia].
  cbn [first_readable List.find ver snd t_min].
  by rewrite (Ho (Common.t_min (ts idx)) ltac:(left)), (proj2 (Z.leb_le _ _) Hle).
Qed.

End store.

(** ** Witnesses: a table of two columns over one circular store *)

Definition ex_column (id unit off : Z) : Column.Column :=
  Column.Column_new id Column.INTEGER unit off 1 true 4 SnapNone.

Definition ex_table : table (C := Column.Column) :=
  mk_table 3 true 1 [ex_column 0 2 0; ex_column 1 1 2]
    [(λ i, IndexVal_new 0 (StorageUtils.create_vid (Z.of_nat i) 0 0)) <$> seq 0 4]
    [0] [(2, 0); (1, 2)] 3 4.

Definition ex_store0 : CircularDeltaStore.store :=
  CircularDeltaStore.mk 0 1 [DeltaPartition.new 8192 8192 32768 0 0] [] ∅ 0 0 0 32768.
Definition ex_deltas : deltas :=
  mk_deltas {[ 0 := DeltaPartition.ok_or (CircularDeltaStore.initThreadLocalPools 7%nat ex_store0) ex_store0 ]}
            {[ DeltaDataPtr.create_delta_idx_pid_pair 0 0 := 8192 ]}.

(** The row that transaction 3 inserts, and the state after it. *)
Definition ex_table1 : table (C := Column.Column) :=
  (DeltaPartition.ok_or (insertRecord ex_table [1; 2; 3] 3 0 0) (0, ex_table)).2.
Definition ex_entry : IndexVal := mk_idx (mk_ts false 3) 0 false false 0.
Definition ex_writer : Txn := Txn_new OneShot (mk_TxnTs (Z.shiftl 5 27) 5) 0 0 0 false.
#[local] Existing Instance ex_layout.

Definition ex_pair : Z * deltas :=
  DeltaPartition.ok_or (deltas_allocate 7%nat ex_deltas 0 51 0 3) (0, ex_deltas).

Lemma ex_table_wf : wf ex_table.
Proof.
  split; try done.
  intros c [-> | [-> | []%not_elem_of_nil]%elem_of_cons]%elem_of_cons;
    apply Column.column_new_wf; unfold MAX_PARTITIONS; lia.
Qed.

Lemma insertRecord_then_read_witness :
  ∃ tb', insertRecord ex_table [1; 2; 3] 3 0 0 = Ok (0, tb') ∧ wf tb' ∧
    vid tb' = [1] ∧
    (∀ fuel (m : deltas) h xact, orderly xact 3 → 3 <= txn_start_time xact →
       getRecord fuel m h tb' xact 0 None = Ok [1; 2; 3]) ∧
    (∀ v, same_slot v 0 = false →
       meta_get tb' v = meta_get ex_table v ∧
       (row_ok ex_table v → read_columns (columns tb') v = read_columns (columns ex_table) v)).
Proof.
  apply (insertRecord_then_read (M := deltas) ex_table [1; 2; 3] 3 0 0 (IndexVal_new 0 0));
    [exact ex_table_wf | reflexivity | | lia | reflexivity | reflexivity | | reflexivity | lia].
  - vm_compute. split; [discriminate | reflexivity].
  - intros c [-> | [-> | []%not_elem_of_nil]%elem_of_cons]%elem_of_cons; reflexivity.
Defined.

Lemma ex_table1_wf : wf ex_table1.
Proof.
  destruct (insertRecord_ok (M := deltas) ex_table [1; 2; 3] 3 0 0 (IndexVal_new 0 0))
    as (tb' & E & Hwf & _);
    [exact ex_table_wf | reflexivity | | lia | reflexivity | reflexivity | | reflexivity | lia |].
  - vm_compute. split; [discriminate | reflexivity].
  - intros c [-> | [-> | []%not_elem_of_nil]%elem_of_cons]%elem_of_cons; reflexivity.
  - unfold ex_table1. change (StorageUtils.create_vid 0 (0 mod n_partitions ex_table) 0) with 0 in E.
    by rewrite E.
Qed.

Lemma ex_ready : write_ready 7%nat ex_deltas ∅ ex_table1 ex_entry ex_writer [] ex_pair.1
  ex_pair.2 (8192 + 8) [0; 0; 0].
Proof.
  split.
  - exact ex_table1_wf.
  - intros c Hc. vm_compute in Hc.
    repeat (apply elem_of_cons in Hc as [-> | Hc]; [vm_compute; reflexivity |]).
    by apply not_elem_of_nil in Hc.
  - constructor. vm_compute. reflexivity.
  - vm_compute. reflexivity.
  - vm_compute. reflexivity.
  - vm_compute. reflexivity.
  - vm_compute. reflexivity.
  - by intros x ?%not_elem_of_nil.
  - vm_compute. reflexivity.
  - reflexivity.
  - vm_compute. repeat split; discriminate.
Qed.

(** The state after that update, and the entry and chain it leaves; the next writer starts
    at 8. *)
Definition ex_after : deltas * heap * table :=
  DeltaPartition.ok_or
    (updateRecord 7%nat ex_deltas ∅ ex_table1 ex_writer 0 (Some [7; 8; 9]) None [0; 0; 0])
    (ex_deltas, ∅, ex_table1).
Definition ex_entry2 : IndexVal := mk_idx (mk_ts false 5) 0 false false 68719476744.
Definition ex_link : Z * Z * Version := (68719476744, 8200, mk_ver 3 0 [1; 2; 3] 3 0).
Definition ex_writer2 : Txn := Txn_new OneShot (mk_TxnTs (Z.shiftl 8 27) 8) 0 0 0 false.

(** The store as it is, and after some other chunk of 16 bytes. *)
Definition ex_gap : deltas :=
  (DeltaPartition.ok_or (deltas_allocate 7%nat ex_after.1.1 0 16 0 5) (0, ex_deltas)).2.
Definition ex_next (m : deltas) : Z * deltas :=
  DeltaPartition.ok_or (deltas_allocate 7%nat m 0 51 0 5) (0, m).

Lemma ex_after_wf : wf ex_after.2.
Proof.
  destruct (updateRecord_isolates 7%nat ex_deltas ex_pair.2 ∅ ex_table1 ex_entry ex_writer
              [] ex_pair.1 (8192 + 8) [0; 0; 0] [7; 8; 9] 0 ex_ready)
    as (h' & tb' & idx' & E & Hwf & _).
  { vm_compute. reflexivity. } { by intros x ?%not_elem_of_nil. } { reflexivity. }
  unfold ex_after. rewrite E. exact Hwf.
Qed.

Lemma ex_ready_after (m : deltas) (a : Z) :
  m = ex_after.1.1 ∧ a = 8251 ∨ m = ex_gap ∧ a = 8267 →
  write_ready 7%nat m ex_after.1.2 ex_after.2 ex_entry2 ex_writer2 [ex_link] (ex_next m).1
    (ex_next m).2 a [0; 0; 0].
Proof.
  intros Hm. split.
  - exact ex_after_wf.
  - intros c Hc. vm_compute in Hc.
    repeat (apply elem_of_cons in Hc as [-> | Hc]; [vm_compute; reflexivity |]).
    by apply not_elem_of_nil in Hc.
  - destruct Hm as [[-> _] | [-> _]];
      (econstructor; [vm_compute; reflexivity | vm_compute; reflexivity | vm_compute; reflexivity |];
       constructor; vm_compute; reflexivity).
  - destruct Hm as [[-> _] | [-> _]]; vm_compute; reflexivity.
  - destruct Hm as [[-> _] | [-> _]]; vm_compute; reflexivity.
  - destruct Hm as [[-> _] | [-> _]]; vm_compute; reflexivity.
  - destruct Hm as [[-> ->] | [-> ->]]; vm_compute; reflexivity.
  - intros x ->%list_elem_of_singleton. destruct Hm as [[_ ->] | [_ ->]]; reflexivity.
  - vm_compute. reflexivity.
  - reflexivity.
  - vm_compute. repeat split; discriminate.
Qed.


Lemma adjacent_version_damages_snapshot_witness :
  ∃ h' tb' idx',
    updateRecord 7%nat ex_after.1.1 ex_after.1.2 ex_after.2 ex_writer2 0 (Some [4; 5; 6]) None
      [0; 0; 0] = Ok ((ex_next ex_after.1.1).2, h', tb') ∧
    meta_get tb' 0 = Ok idx' ∧
    ∀ fuel xact, (0 + 2 < fuel)%nat → orderly xact 8 →
      (∀ n, n ∈ stamps ex_entry2 [ex_link] → orderly xact n) → 3 <= txn_start_time xact < 5 →
      getIndexedRecord fuel ex_after.1.1 ex_after.1.2 ex_after.2 xact ex_entry2 None = Ok [1; 2; 3] ∧
      getIndexedRecord fuel (ex_next ex_after.1.1).2 h' tb' xact idx' None =
        Ok [1; 2; 0].
Proof.
  pose proof (adjacent_version_damages_snapshot 7%nat ex_after.1.1 (ex_next ex_after.1.1).2
    ex_after.1.2 ex_after.2 ex_entry2 ex_writer2 ex_link [] (ex_next ex_after.1.1).1 8251 [0; 0; 0]
    [4; 5; 6] 0) as H.
  replace (record_size ex_after.2) with 3 in H by (vm_compute; reflexivity).
  destruct H as (nx & H);
    [apply ex_ready_after; by left | vm_compute; reflexivity | reflexivity | reflexivity
     | vm_compute; discriminate | vm_compute; discriminate
     | by intros y ?%not_elem_of_nil | reflexivity | exact H].
Defined.

Lemma deleteRecord_hides_record_witness :
  ∃ h' tb' idx', deleteRecord 7%nat ex_deltas ∅ ex_table1 ex_writer 0 [0; 0; 0]
      = Ok (ex_pair.2, h', tb') ∧
    meta_get tb' 0 = Ok idx' ∧
    ∀ fuel xact, (0 + 1 < fuel)%nat → orderly xact 5 →
      (∀ n, n ∈ stamps ex_entry [] → orderly xact n) → 3 <= txn_start_time xact →
      (∃ r, getIndexedRecord fuel ex_deltas ∅ ex_table1 xact ex_entry None = Ok r) ∧
      getIndexedRecord fuel ex_pair.2 h' tb' xact idx' None = Err Throw.
Proof.
  apply (deleteRecord_hides_record 7%nat ex_deltas ex_pair.2 ∅ ex_table1 ex_entry ex_writer
           [] ex_pair.1 (8192 + 8) [0; 0; 0] 0);
    [exact ex_ready | vm_compute; reflexivity].
Defined.

End ColumnStore.
