(* ===== verification/OneShotSafety.v ===== *)
(** * OneShotSafety: one-shot garbage collection never takes a version a running
    transaction still needs.

    The argument crosses four components: the registry's scan ([TxnSystem]), the
    collector of a circular store ([CircularDeltaStore]), the pointer tags ([DeltaPtr])
    and the version chains ([Versions]).  A version lives in the store of the
    transaction that superseded it, and that transaction registered its start time with
    the store before it wrote; when every running transaction started after the highest
    registered epoch, it reads a newer version than any the store holds. *)

From S2P Require Import Prelude Common StorageUtils Transaction TxnSystem DeltaPtr Versions DeltaStore CircularDeltaStore.
From Stdlib Require Import ZArith Lia Bool.
From stdpp Require Import base numbers list gmap sets.

Local Open Scope Z_scope.

Module OneShotSafety.
Import Txns Versions CircularDeltaStore.

(** The word does not carry the tag [t'] of store [d]. *)
Definition stale (d t' : Z) (u : Z) : Prop :=
  DeltaDataPtr.get_delta_idx u = d → DeltaDataPtr.get_tag u ≠ wrap 20 t'.

(** Every pointer into store [d] in the chain of [idx] was minted by a transaction whose
    start time, the stamp of the next newer version, is at most [epoch]. *)
Definition registered (d epoch : Z) (idx : IndexVal) (l : list (Z * Z * Version)) : Prop :=
  ∀ n u, (n, u) ∈ zip (stamps idx l) (word <$> l) → DeltaDataPtr.get_delta_idx u = d → n <= epoch.

Definition in_delta (d : Z) (x : Z * Z * Version) : bool :=
  DeltaDataPtr.get_delta_idx (word x) =? d.

(** The part of the chain in front of the first pointer into [d]. *)
Fixpoint before (d : Z) (l : list (Z * Z * Version)) : list (Z * Z * Version) :=
  match l with
  | [] => []
  | x :: l => if in_delta d x then [] else x :: before d l
  end.

Lemma before_length d l : (length (before d l) <= length l)%nat.
Proof.
  induction l as [| x l IH]; cbn [before length]; [lia |].
  destruct (in_delta d x); cbn [length]; lia.
Qed.

(** Two states of the static members that differ in the tag of [d] only. *)
Definition bumped (d t' : Z) (s s' : DeltaDataPtr.statics) : Prop :=
  DeltaDataPtr.data_memory_base s' = DeltaDataPtr.data_memory_base s ∧
  DeltaDataPtr.deltaStore_tag s' = <[d := t']> (DeltaDataPtr.deltaStore_tag s).

Lemma bumped_other d t' s s' u : bumped d t' s s' → DeltaDataPtr.get_delta_idx u ≠ d →
  DeltaDataPtr.isValid s' u = DeltaDataPtr.isValid s u ∧
  DeltaDataPtr.get_ptr s' u = DeltaDataPtr.get_ptr s u.
Proof.
  intros [Hb Ht] Hne.
  assert (DeltaDataPtr.verifyTag s' u = DeltaDataPtr.verifyTag s u) as E.
  { unfold DeltaDataPtr.verifyTag. rewrite Ht. by rewrite lookup_insert_ne. }
  unfold DeltaDataPtr.isValid, DeltaDataPtr.get_ptr. rewrite E. split; [done |].
  unfold DeltaDataPtr.base. by rewrite Hb.
Qed.

Lemma bumped_stale d t' s s' u : bumped d t' s s' → DeltaDataPtr.get_delta_idx u = d →
  DeltaDataPtr.get_tag u ≠ wrap 20 t' → DeltaDataPtr.isValid s' u = Ok false.
Proof.
  intros [_ Ht] Hd Hne. unfold DeltaDataPtr.isValid, DeltaDataPtr.verifyTag.
  rewrite Hd, Ht, lookup_insert_eq. cbn [of_option rbind].
  rewrite DeltaDataPtr.mask20, land_ones_wrap by lia.
  by rewrite (proj2 (Z.eqb_neq _ _)).
Qed.

(** Bumping the tag of [d] cuts a chain at its first pointer into [d]. *)
Lemma chain_bumped d t' s s' h w l :
  bumped d t' s s' → chain s h w l → stale d t' w →
  (∀ a v, h !! a = Some v → stale d t' (next v)) →
  chain s' h w (before d l).
Proof.
  intros Hb Hc. induction Hc as [w Hv | w a v l Hv Hd Hh Hc IH]; intros Hw Hs; cbn [before].
  - destruct (decide (DeltaDataPtr.get_delta_idx w = d)) as [E | Hne].
    + constructor. apply (bumped_stale d t' s s' w Hb E). by apply Hw.
    + constructor. destruct (bumped_other d t' s s' w Hb Hne) as [E _]. rewrite <- Hv. exact E.
  - unfold in_delta, word. cbn [fst snd]. destruct (Z.eqb_spec (DeltaDataPtr.get_delta_idx w) d) as [E | Hne].
    + constructor. apply (bumped_stale d t' s s' w Hb E). by apply Hw.
    + destruct (bumped_other d t' s s' w Hb Hne) as [E1 E2].
      econstructor; [rewrite <- Hv; exact E1 | rewrite <- Hd; exact E2 | exact Hh |].
      apply IH; [by eapply Hs | done].
Qed.

(** A transaction that starts after [epoch] stops its walk before [d]. *)
Lemma first_readable_before d epoch xact p l :
  (∀ n u, (n, u) ∈ zip (p :: ((λ x, t_min (ver x)) <$> l)) (word <$> l) →
     DeltaDataPtr.get_delta_idx u = d → n <= epoch) →
  (∀ t, t ∈ p :: ((λ x, t_min (ver x)) <$> l) → orderly xact t) →
  epoch < txn_start_time xact → is_readable p xact = false →
  first_readable xact (before d l) = first_readable xact l.
Proof.
  revert p. induction l as [| x l IH]; intros p Hreg Ho Hx Hp; [done |].
  cbn [before]. unfold in_delta at 1. destruct (Z.eqb_spec (DeltaDataPtr.get_delta_idx (word x)) d) as [E | Hne].
  - exfalso. assert (p <= epoch) as Hle. { apply (Hreg p (word x)); [left | done]. }
    rewrite (Ho p ltac:(left)) in Hp. apply Z.leb_gt in Hp. lia.
  - cbn [first_readable List.find]. destruct (is_readable (t_min (ver x)) xact) eqn:Er; [done |].
    apply (IH (t_min (ver x))); [| | done | done].
    + intros n u Hin. apply Hreg. right. exact Hin.
    + intros t Ht. apply Ho. by right.
Qed.

Lemma gc_reset_bumped bases tags s :
  bumped (delta_id s) (tag (gc_reset s)) (statics_of bases tags s)
    (statics_of bases tags (gc_reset s)).
Proof.
  unfold bumped, statics_of. simpl. split; [done |]. by rewrite insert_insert_eq.
Qed.

(** C2: Let the workers be in any reachable state and let [t] be a running transaction.
    If the collector of a delta store runs while no reader is registered, then what [t]
    reads of a record is the same before and after, whether or not the store was reset:
    provided that the pointers into the store in the record's chain were minted by
    transactions that registered with it, and that no stale pointer happens to carry the new
    tag. *)
Theorem GC_preserves_running_snapshots (gc : GcTypes) (w : TxnSystem.sys) (p : nat) (t : Txn)
    (s s' : store) (bases tags : gmap Z Z) (h : heap) (idx : IndexVal)
    (l : list (Z * Z * Version)) (fuel : nat) :
  rtc (TxnSystem.step gc) TxnSystem.init w →
  TxnSystem.ph w !! p = Some (TxnSystem.Running t) →
  readers s = 0 → GC false false (TxnSystem.mgr w) s = Ok s' →
  chain (statics_of bases tags s) h (delta_list idx) l → (length l < fuel)%nat →
  (∀ n, n ∈ stamps idx l → orderly (txnTs t) n) →
  registered (delta_id s) (getMaxActiveEpoch s) idx l →
  stale (delta_id s) (tag (gc_reset s)) (delta_list idx) →
  (∀ a v, h !! a = Some v → stale (delta_id s) (tag (gc_reset s)) (next v)) →
  visible_image fuel (statics_of bases tags s') h idx (txnTs t) =
  visible_image fuel (statics_of bases tags s) h idx (txnTs t).
Proof.
  intros Hw Hp Hr HGC Hc Hf Ho Hreg Hs1 Hs2.
  destruct (GC_simple_cases _ _ _ HGC Hr) as (_ & mn & Hmn & [[Hlt ->] | [_ ->]]); [| done].
  pose proof (chain_bumped _ _ _ _ _ _ _ (gc_reset_bumped bases tags s) Hc Hs1 Hs2) as Hc'.
  pose proof (before_length (delta_id s) l) as Hbl.
  rewrite (visible_image_spec _ _ _ _ _ _ Hc Hf).
  rewrite (visible_image_spec _ _ _ _ fuel _ Hc') by lia.
  destruct (is_readable_idx idx (txnTs t)) eqn:Er; [done |].
  rewrite (first_readable_before _ (getMaxActiveEpoch s) _ (Common.t_min (ts idx))); try done.
  destruct (TxnSystem.min_active_bounds gc w mn Hw Hmn p t Hp) as [Hle _].
  unfold TxnSystem.start in Hle. lia.
Qed.

(** A record with one version in store 1 and an older one in store 2; the collector
    resets store 2 while transaction 2 runs. *)
Definition ex_s : store :=
  mk 2 1 [] [mk_meta 1 UINT64_MAX] {[ 7%nat := 0%nat ]} 0 0 0 0.
Definition ex_bases2 : gmap Z Z :=
  {[ DeltaDataPtr.create_delta_idx_pid_pair 1 0 := 1000;
     DeltaDataPtr.create_delta_idx_pid_pair 2 0 := 2000 ]}.
Definition ex_tags : gmap Z Z := {[ 0 := 1; 1 := 1 ]}.
Definition ex_wA : Z := DeltaDataPtr.update (statics_of ex_bases2 ex_tags ex_s) 1000 1 1 0.
Definition ex_wB : Z := DeltaDataPtr.update (statics_of ex_bases2 ex_tags ex_s) 2000 1 2 0.
Definition ex_vA : Version := mk_ver 1 0 [10] 1 ex_wB.
Definition ex_vB : Version := mk_ver 0 0 [0] 1 0.
Definition ex_h : heap := {[ 1000 := ex_vA; 2000 := ex_vB ]}.
Definition ex_rec : IndexVal := mk_idx (mk_ts false 5) 0 false false ex_wA.

Lemma GC_preserves_running_snapshots_witness :
  visible_image 3 (statics_of ex_bases2 ex_tags (gc_reset ex_s)) ex_h ex_rec
    (txnTs TxnSystem.ex_t2) =
  visible_image 3 (statics_of ex_bases2 ex_tags ex_s) ex_h ex_rec (txnTs TxnSystem.ex_t2).
Proof.
  apply (GC_preserves_running_snapshots OneShot (TxnSystem.mk_sys TxnSystem.ex_m5 TxnSystem.ex_ph)
           2 TxnSystem.ex_t2 ex_s (gc_reset ex_s) ex_bases2 ex_tags ex_h ex_rec
           [(ex_wA, 1000, ex_vA); (ex_wB, 2000, ex_vB)] 3);
    [exact TxnSystem.ex_txn_reachable | vm_compute; reflexivity | reflexivity
    | vm_compute; reflexivity | | simpl; lia | | | | ].
  - do 2 (econstructor; [vm_compute; reflexivity | vm_compute; reflexivity
                        | vm_compute; reflexivity |]).
    constructor. vm_compute. reflexivity.
  - intros n Hn. repeat (apply elem_of_cons in Hn as [-> | Hn]; [vm_compute; reflexivity |]).
    by apply not_elem_of_nil in Hn.
  - intros n u Hin.
    apply elem_of_cons in Hin as [[= -> ->] | Hin]; [vm_compute; discriminate |].
    apply elem_of_cons in Hin as [[= -> ->] | Hin]; [vm_compute; discriminate |].
    by apply not_elem_of_nil in Hin.
  - vm_compute. discriminate.
  - intros a v Hv. unfold ex_h in Hv.
    apply lookup_insert_Some in Hv as [[<- <-] | [_ Hv]]; [vm_compute; discriminate |].
    apply lookup_singleton_Some in Hv as [<- <-]. vm_compute. discriminate.
Defined.

(** The same reset takes the version away from a transaction that is not published yet:
    a transaction with start time 0 would have read the version in store 2. *)
Example reset_cuts_the_chain :
  visible_image 3 (statics_of ex_bases2 ex_tags ex_s) ex_h ex_rec (mk_TxnTs 0 0) = Ok (Some [0]) ∧
  visible_image 3 (statics_of ex_bases2 ex_tags (gc_reset ex_s)) ex_h ex_rec (mk_TxnTs 0 0)
    = Err AssertFailed.
Proof. split; vm_compute; reflexivity. Qed.

End OneShotSafety.
