(* ===== verification/ArtNode.v ===== *)
(** * ArtNode: the inner nodes of the adaptive radix tree
    ([ARTNode_4], [ARTNode_16], [ARTNode_48] and [ARTNode_256] in
    [oltp/index/ART/art_node.hpp] and [lib/index/ART/art_node.cpp]).

    Every layout implements the same map from key bytes to children; [getChild],
    [insertChild], [isFull] and [grow] below are the virtual methods of [ARTInnerNode],
    dispatching on the layout.  The children are of an arbitrary type. *)

From S2P Require Import Prelude.
From Stdlib Require Import ZArith Lia Bool.
From stdpp Require Import base numbers list.

Local Open Scope Z_scope.
Local Open Scope res_scope.

Module ArtNode.

Definition EMPTY : Z := 0.
Definition is_byte (k : Z) : Prop := 0 <= k < 256.

(** [n_children], the sorted partial keys and the children of [ARTNode_4] and [ARTNode_16]. *)
Record Keyed (A : Type) : Type := mk_keyed {
  n_children : nat;
  _partial_keys : list Z;
  _children : list (option A)
}.
(** [ARTNode_48]: [_indexes] maps a byte to a slot, 256 to none. *)
Record Indexed (A : Type) : Type := mk_indexed {
  n_children48 : nat;
  _indexes : list Z;
  _children48 : list (option A)
}.
Arguments mk_keyed {A} _ _ _.
Arguments n_children {A} _.
Arguments _partial_keys {A} _.
Arguments _children {A} _.
Arguments mk_indexed {A} _ _ _.
Arguments n_children48 {A} _.
Arguments _indexes {A} _.
Arguments _children48 {A} _.

Inductive ARTInnerNode (A : Type) : Type :=
  | ARTNode_4 (n : Keyed A)
  | ARTNode_16 (n : Keyed A)
  | ARTNode_48 (n : Indexed A)
  | ARTNode_256 (children : list (option A)).
Arguments ARTNode_4 {A} _.
Arguments ARTNode_16 {A} _.
Arguments ARTNode_48 {A} _.
Arguments ARTNode_256 {A} _.

Section nodes.
Context {A : Type}.
Implicit Types (n : Keyed A) (m : Indexed A).

(** ** Constructors *)

Definition ARTNode_4_new : Keyed A := mk_keyed 0 (replicate 4 EMPTY) (replicate 4 None).

(** The constructor of [ARTNode_16] fills the keys with their indices. *)
Definition ARTNode_16_create (n4 : Keyed A) : Keyed A :=
  mk_keyed 4
    (take (n_children n4) (_partial_keys n4) ++ drop (n_children n4) (Z.of_nat <$> seq 0 16))
    (take (n_children n4) (_children n4) ++ drop (n_children n4) (replicate 16 None)).

Definition ARTNode_48_create (n16 : Keyed A) : Indexed A :=
  let k := n_children n16 in
  mk_indexed k
    (foldl (λ ix i, match _partial_keys n16 !! i with
                    | Some b => <[Z.to_nat b := Z.of_nat i]> ix
                    | None => ix
                    end) (replicate 256 256) (seq 0 k))
    (take k (_children n16) ++ drop k (replicate 48 None)).

Definition ARTNode_256_create (n48 : Indexed A) : list (option A) :=
  (λ b, match _indexes n48 !! b with
        | Some ix => if ix =? 256 then None else mjoin (_children48 n48 !! Z.to_nat ix)
        | None => None
        end) <$> seq 0 256.

(** ** [getChild] *)

(** The slot of the first partial key that equals [k]. *)
Definition slot_of (keys : list Z) (k : Z) : option nat := fst <$> list_find (λ x, x = k) keys.

(** All four keys are compared, the unused ones included. *)
Definition getChild_4 n (k : Z) : option A :=
  match slot_of (_partial_keys n) k with
  | Some i => mjoin (_children n !! i)
  | None => None
  end.

(** The comparison mask is cut to [n_children] bits; [ctz] takes the lowest. *)
Definition getChild_16 n (k : Z) : option A :=
  match slot_of (take (n_children n) (_partial_keys n)) k with
  | Some i => mjoin (_children n !! i)
  | None => None
  end.

Definition getChild_48 m (k : Z) : option A :=
  match _indexes m !! Z.to_nat k with
  | Some ix => if ix =? 256 then None else mjoin (_children48 m !! Z.to_nat ix)
  | None => None
  end.

Definition getChild (n : ARTInnerNode A) (k : Z) : option A :=
  match n with
  | ARTNode_4 n => getChild_4 n k
  | ARTNode_16 n => getChild_16 n k
  | ARTNode_48 m => getChild_48 m k
  | ARTNode_256 c => mjoin (c !! Z.to_nat k)
  end.

(** ** [insertChild] *)

(** [while (pos < n_children && partial_key > _partial_keys[pos]) pos++;] *)
Fixpoint lower_pos (cnt : nat) (keys : list Z) (k : Z) : nat :=
  match cnt, keys with
  | S cnt, x :: keys => if x <? k then S (lower_pos cnt keys k) else 0
  | _, _ => 0
  end.

(** [memmove] of [cnt] elements of an array from index [src] to index [dst]. *)
Definition memmove {B} (l : list B) (dst src cnt : nat) : list B :=
  take dst l ++ take cnt (drop src l) ++ drop (dst + cnt) l.

Definition is_full_keyed (cap : nat) n : bool := Nat.eqb (n_children n) cap.

(** [ARTNode_4::insertChild] and [ARTNode_16::insertChild]; [cap] is the array length. *)
Definition insertChild_keyed (cap : nat) n (k : Z) (child : A) : res (Keyed A) :=
  let pos := lower_pos (n_children n) (_partial_keys n) k in
  check Nat.ltb pos cap else AssertFailed;
  do pk <- of_option Undefined (_partial_keys n !! pos);
  do ch <- of_option Undefined (_children n !! pos);
  if (pk =? k) && (match ch with Some _ => true | None => false end) then
    Ok (mk_keyed (n_children n) (_partial_keys n) (<[pos := Some child]> (_children n)))
  else
    do (keys, children) <-
      (if negb (Nat.eqb pos (n_children n)) then
         check negb (is_full_keyed cap n) else AssertFailed;
         Ok (memmove (_partial_keys n) (pos + 1) pos (n_children n - pos),
             memmove (_children n) (pos + 1) pos (n_children n - pos))
       else Ok (_partial_keys n, _children n));
    Ok (mk_keyed (n_children n + 1) (<[pos := k]> keys) (<[pos := Some child]> children)).

Definition insertChild_48 m (k : Z) (child : A) : res (Indexed A) :=
  do ix <- of_option Undefined (_indexes m !! Z.to_nat k);
  if Nat.ltb (n_children48 m) 48 && (ix =? 256) then
    Ok (mk_indexed (n_children48 m + 1)
          (<[Z.to_nat k := Z.of_nat (n_children48 m)]> (_indexes m))
          (<[n_children48 m := Some child]> (_children48 m)))
  else
    check ix <? 48 else Undefined;
    Ok (mk_indexed (n_children48 m) (_indexes m) (<[Z.to_nat ix := Some child]> (_children48 m))).

Definition insertChild (n : ARTInnerNode A) (k : Z) (child : A) : res (ARTInnerNode A) :=
  match n with
  | ARTNode_4 n => do n' <- insertChild_keyed 4 n k child; Ok (ARTNode_4 n')
  | ARTNode_16 n => do n' <- insertChild_keyed 16 n k child; Ok (ARTNode_16 n')
  | ARTNode_48 m => do m' <- insertChild_48 m k child; Ok (ARTNode_48 m')
  | ARTNode_256 c => Ok (ARTNode_256 (<[Z.to_nat k := Some child]> c))
  end.

(** ** [isFull] and [grow] *)

Definition isFull (n : ARTInnerNode A) : bool :=
  match n with
  | ARTNode_4 n => is_full_keyed 4 n
  | ARTNode_16 n => is_full_keyed 16 n
  | ARTNode_48 m => Nat.eqb (n_children48 m) 48
  | ARTNode_256 _ => false
  end.

Definition grow (n : ARTInnerNode A) : res (ARTInnerNode A) :=
  match n with
  | ARTNode_4 n => Ok (ARTNode_16 (ARTNode_16_create n))
  | ARTNode_16 n => Ok (ARTNode_48 (ARTNode_48_create n))
  | ARTNode_48 m => Ok (ARTNode_256 (ARTNode_256_create m))
  | ARTNode_256 _ => Err Throw
  end.

(** ** Sorted arrays of partial keys *)

Record keyed_wf (cap : nat) n : Prop := mk_keyed_wf {
  kw_count : (n_children n <= cap)%nat;
  kw_keys : length (_partial_keys n) = cap;
  kw_children : length (_children n) = cap;
  kw_sorted i j x y : (i < j < n_children n)%nat →
    _partial_keys n !! i = Some x → _partial_keys n !! j = Some y → x < y;
  kw_byte i x : (i < n_children n)%nat → _partial_keys n !! i = Some x → is_byte x;
  kw_child i : (i < n_children n)%nat → ∃ c, _children n !! i = Some (Some c)
}.

(** The unused slots of an [ARTNode_4]. *)
Definition empties n : Prop :=
  ∀ i, (n_children n <= i < 4)%nat → _partial_keys n !! i = Some EMPTY ∧ _children n !! i = Some None.

Definition holds n (k : Z) (c : A) : Prop :=
  ∃ i, (i < n_children n)%nat ∧ _partial_keys n !! i = Some k ∧ _children n !! i = Some (Some c).

Lemma slot_of_Some keys k i : slot_of keys k = Some i ↔
  keys !! i = Some k ∧ ∀ j, (j < i)%nat → keys !! j ≠ Some k.
Proof.
  unfold slot_of. split.
  - intros ([i' x] & Hf & ->)%fmap_Some. cbn [fst]. apply list_find_Some in Hf as (Hi & -> & Hlt).
    split; [done |]. intros j Hj Hk. by apply (Hlt j k Hk Hj).
  - intros [Hi Hlt]. apply fmap_Some. exists (i, k). split; [| done]. apply list_find_Some. simpl.
    split; [done |]. split; [done |]. intros j y Hy Hj ->. by apply (Hlt j Hj).
Qed.

Lemma slot_of_None keys k : slot_of keys k = None → ∀ i, keys !! i ≠ Some k.
Proof.
  unfold slot_of. intros Hn%fmap_None i Hi. apply list_find_None in Hn.
  by apply (Forall_lookup_1 _ _ _ _ Hn Hi).
Qed.

(** Distinct slots hold distinct keys. *)
Lemma keyed_unique cap n i j k : keyed_wf cap n → (i < n_children n)%nat → (j < n_children n)%nat →
  _partial_keys n !! i = Some k → _partial_keys n !! j = Some k → i = j.
Proof.
  intros Hwf Hi Hj Ei Ej. destruct (Nat.lt_total i j) as [H | [H | H]]; [| done |].
  - pose proof (kw_sorted _ _ Hwf i j k k ltac:(lia) Ei Ej). lia.
  - pose proof (kw_sorted _ _ Hwf j i k k ltac:(lia) Ej Ei). lia.
Qed.

Lemma getChild_16_holds n k c : keyed_wf 16 n → getChild_16 n k = Some c ↔ holds n k c.
Proof.
  intros Hwf. unfold getChild_16, holds. split.
  - destruct (slot_of _ k) as [i |] eqn:Es; [| done]. apply slot_of_Some in Es as [Ei _].
    pose proof (lookup_lt_Some _ _ _ Ei) as Hi. rewrite length_take in Hi.
    rewrite lookup_take_lt in Ei by lia. intros Hc. exists i. split; [lia |]. split; [done |].
    destruct (_children n !! i); simpl in Hc; [by subst | done].
  - intros (i & Hi & Ek & Ec). assert (slot_of (take (n_children n) (_partial_keys n)) k = Some i) as ->.
    { apply slot_of_Some. rewrite lookup_take_lt by done. split; [done |]. intros j Hj Ej.
      rewrite lookup_take_lt in Ej by lia. pose proof (keyed_unique 16 n i j k Hwf Hi ltac:(lia) Ek Ej). lia. }
    by rewrite Ec.
Qed.

Lemma getChild_4_holds n k c : keyed_wf 4 n → empties n → is_byte k →
  getChild_4 n k = Some c ↔ holds n k c.
Proof.
  intros Hwf He Hk. unfold getChild_4, holds. split.
  - destruct (slot_of _ k) as [i |] eqn:Es; [| done]. apply slot_of_Some in Es as [Ei _].
    pose proof (lookup_lt_Some _ _ _ Ei) as Hi. rewrite (kw_keys _ _ Hwf) in Hi.
    intros Hc. destruct (decide (i < n_children n)%nat) as [Hlt | Hge].
    + exists i. split; [done |]. split; [done |]. destruct (_children n !! i); simpl in Hc; [by subst | done].
    + destruct (He i) as [_ E]; [lia |]. by rewrite E in Hc.
  - intros (i & Hi & Ek & Ec). assert (slot_of (_partial_keys n) k = Some i) as ->.
    { apply slot_of_Some. split; [done |]. intros j Hj Ej.
      pose proof (keyed_unique 4 n i j k Hwf Hi ltac:(lia) Ek Ej). lia. }
    by rewrite Ec.
Qed.

Lemma lower_pos_spec cnt keys k : (cnt <= length keys)%nat →
  let pos := lower_pos cnt keys k in
  (pos <= cnt)%nat ∧ (∀ i x, (i < pos)%nat → keys !! i = Some x → x < k) ∧
  ((pos < cnt)%nat → ∃ x, keys !! pos = Some x ∧ k <= x).
Proof.
  revert keys. induction cnt as [| cnt IH]; intros [| x keys] Hl; simpl in *; try lia.
  { repeat split; lia. } { repeat split; lia. }
  destruct (Z.ltb_spec x k) as [Hlt | Hge].
  - destruct (IH keys ltac:(lia)) as (H1 & H2 & H3). split; [lia |]. split.
    + intros [| i] y Hi Hy; simpl in Hy; [congruence |]. apply (H2 i); [lia | done].
    + intros Hp. apply H3. lia.
  - split; [lia |]. split; [lia |]. intros _. by exists x.
Qed.

Lemma memmove_lookup {B} (l : list B) pos cnt i : (pos + 1 + cnt <= length l)%nat →
  memmove l (pos + 1) pos cnt !! i =
    if decide (pos < i < pos + 1 + cnt)%nat then l !! (i - 1)%nat else l !! i.
Proof.
  intros Hl. unfold memmove. destruct (decide _) as [[H1 H2] | Hn].
  - rewrite lookup_app_r by (rewrite length_take; lia). rewrite length_take.
    rewrite lookup_app_l by (rewrite length_take, length_drop; lia).
    rewrite lookup_take_lt by lia. rewrite lookup_drop. f_equal. lia.
  - destruct (decide (i <= pos)%nat) as [Hle | Hgt].
    + rewrite lookup_app_l by (rewrite length_take; lia). by rewrite lookup_take_lt by lia.
    + rewrite lookup_app_r by (rewrite length_take; lia). rewrite length_take.
      rewrite lookup_app_r by (rewrite length_take, length_drop; lia). rewrite length_take, length_drop.
      rewrite lookup_drop. f_equal. lia.
Qed.

Lemma length_memmove {B} (l : list B) pos cnt : (pos + 1 + cnt <= length l)%nat →
  length (memmove l (pos + 1) pos cnt) = length l.
Proof. intros Hl. unfold memmove. rewrite !length_app, !length_take, !length_drop. lia. Qed.

(** The slots after an insertion at [pos] into an array with [cnt] used slots. *)
Definition shifted {B} (l l' : list B) (pos cnt : nat) (x : B) : Prop :=
  length l' = length l ∧
  ∀ i, l' !! i = if decide (i < pos)%nat then l !! i else if decide (i = pos) then Some x
                 else if decide (i <= cnt)%nat then l !! (i - 1)%nat else l !! i.

Lemma shifted_memmove {B} (l : list B) pos cnt x : (pos <= cnt)%nat → (cnt < length l)%nat →
  shifted l (<[pos := x]> (memmove l (pos + 1) pos (cnt - pos))) pos cnt x.
Proof.
  intros Hp Hc. split; [by rewrite length_insert, length_memmove by lia |]. intros i.
  destruct (decide (i = pos)) as [-> | Hne].
  - rewrite list_lookup_insert_eq by (rewrite length_memmove; lia). by rewrite decide_False by lia.
  - rewrite list_lookup_insert_ne by done. rewrite memmove_lookup by lia.
    repeat case_decide; (done || lia).
Qed.

Lemma shifted_end {B} (l : list B) cnt x : (cnt < length l)%nat → shifted l (<[cnt := x]> l) cnt cnt x.
Proof.
  intros Hc. split; [by rewrite length_insert |]. intros i. destruct (decide (i = cnt)) as [-> | Hne].
  - rewrite list_lookup_insert_eq by done. by rewrite decide_False by lia.
  - rewrite list_lookup_insert_ne by done. repeat case_decide; (done || lia).
Qed.

(** [n'] maps [k] to [a] and the other keys as [n] does. *)
Definition updates (h h' : Z → A → Prop) (k : Z) (a : A) : Prop :=
  ∀ k' c, h' k' c ↔ (k' = k ∧ c = a) ∨ (k' ≠ k ∧ h k' c).

Section shift.
Context (cap : nat) (n : Keyed A) (pos : nat) (k : Z) (a : A)
  (keys' : list Z) (ch' : list (option A)).
Hypothesis (Hwf : keyed_wf cap n) (Hroom : (n_children n < cap)%nat) (Hk : is_byte k)
  (Hpos : (pos <= n_children n)%nat)
  (Hlow : ∀ i x, (i < pos)%nat → _partial_keys n !! i = Some x → x < k)
  (Hhigh : ∀ i x, (pos <= i < n_children n)%nat → _partial_keys n !! i = Some x → k < x)
  (Hkeys : shifted (_partial_keys n) keys' pos (n_children n) k)
  (Hch : shifted (_children n) ch' pos (n_children n) (Some a)).

Let n' : Keyed A := mk_keyed (n_children n + 1) keys' ch'.

(** A used slot of [n'] is the new one or a used slot of [n]. *)
Lemma shift_slot i : (i < n_children n + 1)%nat →
  (i = pos ∧ keys' !! i = Some k ∧ ch' !! i = Some (Some a)) ∨
  ∃ j, (j < n_children n)%nat ∧ keys' !! i = _partial_keys n !! j ∧ ch' !! i = _children n !! j ∧
    ((i < pos ∧ j = i) ∨ (pos < i ∧ j = i - 1))%nat.
Proof using All.
  intros Hi. destruct Hkeys as [_ Ek], Hch as [_ Ec]. specialize (Ek i). specialize (Ec i).
  destruct (decide (i < pos)%nat).
  { right. exists i. rewrite Ek, Ec. split; [lia |]. split; [done |]. split; [done |]. left. lia. }
  destruct (decide (i = pos)); [left; by rewrite Ek, Ec |].
  rewrite decide_True in Ek by lia. rewrite decide_True in Ec by lia. right. exists (i - 1)%nat. rewrite Ek, Ec.
  split; [lia |]. split; [done |]. split; [done |]. right. lia.
Qed.

Lemma shift_wf : keyed_wf cap n'.
Proof using All.
  split; cbn [n' n_children _partial_keys _children].
  - lia.
  - rewrite (proj1 Hkeys). by destruct Hwf.
  - rewrite (proj1 Hch). by destruct Hwf.
  - intros i j x y Hij Ex Ey.
    destruct (shift_slot i) as [(-> & Ek & _) | (i' & Hi' & Ek & _ & Hii)]; [lia | |];
      (destruct (shift_slot j) as [(-> & Ek' & _) | (j' & Hj' & Ek' & _ & Hjj)]; [lia | |]); try lia;
      rewrite Ek in Ex; rewrite Ek' in Ey.
    + injection Ex as <-. apply (Hhigh j'); [lia | done].
    + injection Ey as <-. apply (Hlow i'); [lia | done].
    + apply (kw_sorted _ _ Hwf i' j'); [lia | done | done].
  - intros i x Hi Ex. destruct (shift_slot i Hi) as [(-> & Ek & _) | (j & Hj & Ek & _)];
      rewrite Ek in Ex; [by injection Ex as <- | by apply (kw_byte _ _ Hwf j)].
  - intros i Hi. destruct (shift_slot i Hi) as [(-> & _ & Ec) | (j & Hj & _ & Ec & _)]; [eauto |].
    rewrite Ec. by apply (kw_child _ _ Hwf).
Qed.

Lemma shift_updates : updates (holds n) (holds n') k a.
Proof using All.
  intros k' c. split.
  - intros (i & Hi & Ek & Ec). cbn [n' n_children _partial_keys _children] in Hi, Ek, Ec.
    destruct (shift_slot i Hi) as [(-> & E1 & E2) | (j & Hj & E1 & E2 & Hij)];
      rewrite E1 in Ek; rewrite E2 in Ec.
    + left. by simplify_eq.
    + right. split; [| by exists j]. intros ->.
      destruct (decide (j < pos)%nat); [pose proof (Hlow j k) | pose proof (Hhigh j k)]; naive_solver lia.
  - intros [[-> ->] | [Hne (j & Hj & Ek & Ec)]]; unfold holds; cbn [n' n_children _partial_keys _children].
    + exists pos. destruct Hkeys as [_ E1], Hch as [_ E2]. rewrite E1, E2.
      repeat (case_decide; try lia). split; [lia | done].
    + destruct Hkeys as [_ E1], Hch as [_ E2]. destruct (decide (j < pos)%nat).
      * exists j. rewrite E1, E2. repeat (case_decide; try lia). split; [lia | done].
      * exists (j + 1)%nat. rewrite E1, E2. repeat (case_decide; try lia).
        replace (j + 1 - 1)%nat with j by lia. split; [lia | done].
Qed.

Lemma shift_empties : empties n → empties n'.
Proof using All.
  intros He i Hi. cbn [n' n_children _partial_keys _children] in *.
  destruct Hkeys as [_ E1], Hch as [_ E2]. rewrite E1, E2. repeat (case_decide; try lia). apply He. lia.
Qed.
End shift.

Lemma insertChild_keyed_ok cap n k a : keyed_wf cap n → is_byte k →
  (∀ i x, (n_children n <= i)%nat → _children n !! i = Some x → x = None) →
  (n_children n < cap)%nat ∨ (∃ c, holds n k c) →
  ∃ n', insertChild_keyed cap n k a = Ok n' ∧ keyed_wf cap n' ∧
    updates (holds n) (holds n') k a ∧ (empties n → empties n') ∧
    (∀ i x, (n_children n' <= i)%nat → _children n' !! i = Some x → x = None).
Proof.
  intros Hwf Hk Hunused Hroom. pose proof (kw_count _ _ Hwf) as Hc. pose proof (kw_keys _ _ Hwf) as Hlk.
  pose proof (kw_children _ _ Hwf) as Hlc.
  destruct (lower_pos_spec (n_children n) (_partial_keys n) k) as (Hp & Hlow & Hat); [lia |].
  unfold insertChild_keyed. set (pos := lower_pos _ _ _) in *.
  assert ((∃ c, holds n k c) → (pos < n_children n)%nat ∧ _partial_keys n !! pos = Some k) as Hfound.
  { intros (c & i & Hi & Ek & _). destruct (decide (i < pos)%nat) as [Hlt | Hge].
    { specialize (Hlow i k Hlt Ek). lia. }
    destruct Hat as (x & Ex & Hx); [lia |]. split; [lia |].
    destruct (decide (i = pos)) as [-> | Hne]; [done |].
    pose proof (kw_sorted _ _ Hwf pos i x k ltac:(lia) Ex Ek). lia. }
  assert (pos < cap)%nat as Hpc by (destruct Hroom as [? | [? _]%Hfound]; lia).
  rewrite (proj2 (Nat.ltb_lt _ _) Hpc).
  destruct (lookup_lt_is_Some_2 (_partial_keys n) pos) as [pk Epk]; [lia |].
  destruct (lookup_lt_is_Some_2 (_children n) pos) as [ch Ech]; [lia |].
  rewrite Epk, Ech. cbn [of_option rbind].
  destruct ((pk =? k) && _) eqn:Erep.
  - apply andb_true_iff in Erep as [->%Z.eqb_eq Hsome]. destruct ch as [c0 |]; [| done].
    assert (pos < n_children n)%nat as Hlt.
    { destruct (decide (pos < n_children n)%nat); [done |]. assert (n_children n <= pos)%nat as Hge by lia.
      by specialize (Hunused pos (Some c0) Hge Ech). }
    eexists. split; [done |]. split; [| split; [| split]].
    + destruct Hwf as [A1 A2 A3 A4 A5 A6]. split; try done; cbn [_children n_children]; [by rewrite length_insert |].
      intros i Hi. destruct (decide (i = pos)) as [-> | Hne].
      * exists a. apply list_lookup_insert_eq. lia.
      * rewrite list_lookup_insert_ne by done. by apply A6.
    + intros k' c. unfold holds. cbn [n_children _partial_keys _children]. split.
      * intros (i & Hi & Ek & Ec). destruct (decide (i = pos)) as [-> | Hne].
        -- left. rewrite list_lookup_insert_eq in Ec by lia. by simplify_eq.
        -- right. rewrite list_lookup_insert_ne in Ec by done. split; [| by exists i].
           intros ->. apply Hne. by apply (keyed_unique cap n i pos k Hwf).
      * intros [[-> ->] | [Hne (i & Hi & Ek & Ec)]].
        -- exists pos. rewrite list_lookup_insert_eq by lia. done.
        -- exists i. rewrite list_lookup_insert_ne by congruence. done.
    + intros He i Hi. cbn [n_children _partial_keys _children] in *. rewrite list_lookup_insert_ne by lia. by apply He.
    + cbn [n_children _children]. intros i x Hi. rewrite list_lookup_insert_ne by lia. by apply Hunused.
  - assert (¬ ∃ c, holds n k c) as Hnew.
    { intros Hex. pose proof (Hfound Hex) as [Hlt E]. rewrite Epk in E. injection E as ->.
      rewrite Z.eqb_refl in Erep. destruct (kw_child _ _ Hwf pos Hlt) as [c Ec]. rewrite Ech in Ec. by simplify_eq. }
    assert (n_children n < cap)%nat as Hlt by (destruct Hroom as [? | Hex]; [done | by destruct Hnew]).
    assert (∀ i x, (pos <= i < n_children n)%nat → _partial_keys n !! i = Some x → k < x) as Hhigh.
    { intros i x Hi Ex. destruct Hat as (y & Ey & Hy); [lia |].
      destruct (decide (i = pos)) as [-> | Hne].
      - destruct (decide (x = k)) as [-> | Hxk]; [| simplify_eq; lia].
        destruct Hnew. destruct (kw_child _ _ Hwf pos ltac:(lia)) as [c Ec]. exists c, pos. split; [lia | done].
      - pose proof (kw_sorted _ _ Hwf pos i y x ltac:(lia) Ey Ex). lia. }
    assert (∃ keys ch', (if negb (Nat.eqb pos (n_children n)) then
         if negb (is_full_keyed cap n)
         then Ok (memmove (_partial_keys n) (pos + 1) pos (n_children n - pos),
             memmove (_children n) (pos + 1) pos (n_children n - pos)) else Err AssertFailed
       else Ok (_partial_keys n, _children n)) = Ok (keys, ch') ∧
       shifted (_partial_keys n) (<[pos := k]> keys) pos (n_children n) k ∧
       shifted (_children n) (<[pos := Some a]> ch') pos (n_children n) (Some a))
      as (keys & ch' & -> & Hks & Hcs).
    { destruct (Nat.eqb_spec pos (n_children n)) as [-> | Hne]; cbn [negb].
      - eexists _, _. split; [done |]. split; apply shifted_end; lia.
      - unfold is_full_keyed. rewrite (proj2 (Nat.eqb_neq _ _)) by lia.
        eexists _, _. split; [done |]. split; apply shifted_memmove; lia. }
    cbn [rbind]. eexists. split; [done |].
    split; [by eapply shift_wf |]. split; [by eapply shift_updates |]. split; [by eapply shift_empties |].
    cbn [n_children _children]. intros i x Hi. rewrite (proj2 Hcs). repeat (case_decide; try lia). apply Hunused. lia.
Qed.

(** ** Indexed and direct nodes *)

Record indexed_wf m : Prop := mk_indexed_wf {
  iw_count : (n_children48 m <= 48)%nat;
  iw_indexes : length (_indexes m) = 256%nat;
  iw_children : length (_children48 m) = 48%nat;
  iw_range b ix : _indexes m !! b = Some ix → ix = 256 ∨ 0 <= ix < Z.of_nat (n_children48 m);
  iw_inj b b' ix : _indexes m !! b = Some ix → _indexes m !! b' = Some ix → ix ≠ 256 → b = b';
  iw_child i : (i < n_children48 m)%nat → ∃ c, _children48 m !! i = Some (Some c)
}.

Lemma insertChild_48_replace m k a ix : indexed_wf m → is_byte k →
  _indexes m !! Z.to_nat k = Some ix → ix ≠ 256 → 0 <= ix < Z.of_nat (n_children48 m) →
  ∃ m', Ok (mk_indexed (n_children48 m) (_indexes m) (<[Z.to_nat ix := Some a]> (_children48 m))) = Ok m' ∧
    indexed_wf m' ∧
    ∀ k', is_byte k' → getChild_48 m' k' = if k' =? k then Some a else getChild_48 m k'.
Proof.
  intros [W1 W2 W3 W4 W5 W6] Hk Eix Hne Hr. unfold is_byte in *. eexists. split; [done |]. split.
  - split; cbn [n_children48 _indexes _children48]; rewrite ?length_insert; try done.
    intros i Hi. destruct (decide (i = Z.to_nat ix)) as [-> | Hn].
    + exists a. apply list_lookup_insert_eq. lia.
    + rewrite list_lookup_insert_ne by done. by apply W6.
  - intros k' Hk'. unfold getChild_48. cbn [_indexes _children48].
    destruct (Z.eqb_spec k' k) as [-> | Hkk].
    + rewrite Eix, (proj2 (Z.eqb_neq ix 256)) by done. by rewrite list_lookup_insert_eq by lia.
    + destruct (_indexes m !! Z.to_nat k') as [ix' |] eqn:E; [| done].
      destruct (Z.eqb_spec ix' 256) as [| Hi]; [done |].
      destruct (decide (ix' = ix)) as [-> | Hx].
      { pose proof (W5 _ _ _ E Eix Hi). lia. }
      destruct (W4 _ _ E); [done |]. by rewrite list_lookup_insert_ne by lia.
Qed.

Lemma insertChild_48_ok m k a : indexed_wf m → is_byte k →
  (n_children48 m < 48)%nat ∨ is_Some (getChild_48 m k) →
  ∃ m', insertChild_48 m k a = Ok m' ∧ indexed_wf m' ∧
    ∀ k', is_byte k' → getChild_48 m' k' = if k' =? k then Some a else getChild_48 m k'.
Proof.
  intros Hwf Hk Hroom. pose proof Hwf as [W1 W2 W3 W4 W5 W6]. unfold is_byte in *.
  unfold insertChild_48. destruct (lookup_lt_is_Some_2 (_indexes m) (Z.to_nat k)) as [ix Eix]; [lia |].
  rewrite Eix. cbn [of_option rbind].
  destruct (Nat.ltb_spec (n_children48 m) 48) as [Hlt | Hge]; cbn [andb].
  - destruct (Z.eqb_spec ix 256) as [-> | Hne].
    + eexists. split; [done |]. split.
      * split; cbn [n_children48 _indexes _children48]; rewrite ?length_insert; try done; try lia.
        -- intros b ix Hb. destruct (decide (b = Z.to_nat k)) as [-> | Hbk].
           ++ rewrite list_lookup_insert_eq in Hb by lia. injection Hb as <-. lia.
           ++ rewrite list_lookup_insert_ne in Hb by done. destruct (W4 b ix Hb); lia.
        -- intros b b' ix Hb Hb' Hix.
           apply list_lookup_insert_Some in Hb as [(<- & <- & _) | [Hbk Hb]];
             apply list_lookup_insert_Some in Hb' as [(<- & E & _) | [Hbk' Hb']]; try done.
           ++ destruct (W4 _ _ Hb'); lia.
           ++ subst ix. destruct (W4 _ _ Hb); lia.
           ++ by apply (W5 b b' ix).
        -- intros i Hi. destruct (decide (i = n_children48 m)) as [-> | Hin].
           ++ exists a. apply list_lookup_insert_eq. lia.
           ++ rewrite list_lookup_insert_ne by done. apply W6. lia.
      * intros k' Hk'. unfold getChild_48. cbn [_indexes _children48].
        destruct (Z.eqb_spec k' k) as [-> | Hkk].
        -- rewrite list_lookup_insert_eq by lia. rewrite (proj2 (Z.eqb_neq _ 256)) by lia.
           rewrite Nat2Z.id, list_lookup_insert_eq by lia. done.
        -- rewrite list_lookup_insert_ne by lia. destruct (_indexes m !! Z.to_nat k') as [ix |] eqn:E; [| done].
           destruct (Z.eqb_spec ix 256) as [| Hi]; [done |]. destruct (W4 _ _ E); [done |].
           by rewrite list_lookup_insert_ne by lia.
    + destruct (W4 _ _ Eix) as [| Hr]; [done |]. rewrite (proj2 (Z.ltb_lt _ _)) by lia. cbn [of_option rbind].
      by apply (insertChild_48_replace m k a ix).
  - destruct Hroom as [| [c Hc]]; [lia |]. unfold getChild_48 in Hc. rewrite Eix in Hc.
    destruct (Z.eqb_spec ix 256) as [| Hne]; [done |]. destruct (W4 _ _ Eix) as [| Hr]; [done |].
    rewrite (proj2 (Z.ltb_lt _ _)) by lia. by apply (insertChild_48_replace m k a ix).
Qed.

(** ** Growing *)

Lemma take_app_pad {B} (l pad : list B) c i : (c <= length l)%nat → (c <= length pad)%nat →
  (take c l ++ drop c pad) !! i = if decide (i < c)%nat then l !! i else pad !! i.
Proof.
  intros Hl Hp. destruct (decide (i < c)%nat).
  - rewrite lookup_app_l by (rewrite length_take; lia). by rewrite lookup_take_lt.
  - rewrite lookup_app_r by (rewrite length_take; lia). rewrite length_take, lookup_drop. f_equal. lia.
Qed.

Definition unused_null n : Prop :=
  ∀ i x, (n_children n <= i)%nat → _children n !! i = Some x → x = None.

Lemma create_16_ok n : keyed_wf 4 n → n_children n = 4%nat →
  let n' := ARTNode_16_create n in
  keyed_wf 16 n' ∧ unused_null n' ∧ n_children n' = 4%nat ∧ ∀ k c, holds n' k c ↔ holds n k c.
Proof.
  intros [W1 W2 W3 W4 W5 W6] Hn n'.
  assert (∀ i, (i < 4)%nat → _partial_keys n' !! i = _partial_keys n !! i ∧ _children n' !! i = _children n !! i) as E.
  { intros i Hi. unfold n', ARTNode_16_create. cbn [_partial_keys _children]. rewrite Hn.
    rewrite !take_app_pad by (rewrite ?length_fmap, ?length_seq, ?length_replicate; lia).
    rewrite !decide_True by done. done. }
  split; [| split; [| split; [done |]]].
  - unfold n'. split; cbn [n' ARTNode_16_create n_children _partial_keys _children];
      rewrite ?length_app, ?length_take, ?length_drop, ?length_fmap, ?length_seq, ?length_replicate; try lia.
    + intros i j x y Hij Ex Ey. destruct (E i) as [Ei _], (E j) as [Ej _]; try lia.
      apply (W4 i j); [lia | by rewrite <- Ei | by rewrite <- Ej].
    + intros i x Hi Ex. destruct (E i) as [Ei _]; [lia |]. apply (W5 i); [lia | by rewrite <- Ei].
    + intros i Hi. destruct (E i) as [_ Ei]; [lia |]. destruct (W6 i) as [c Hc]; [lia |].
      exists c. by rewrite <- Hc.
  - intros i x Hi Hx. unfold n', ARTNode_16_create in Hi, Hx. cbn [n_children _children] in Hi, Hx.
    rewrite Hn, take_app_pad in Hx by (rewrite ?length_replicate; lia).
    rewrite decide_False in Hx by lia. by apply lookup_replicate in Hx as [-> _].
  - intros k c. unfold holds. change (n_children n') with 4%nat. rewrite Hn.
    split; intros (i & Hi & Ek & Ec); exists i; destruct (E i Hi) as [E1 E2]; [rewrite <- E1, <- E2 | rewrite E1, E2]; done.
Qed.

(** The table [_indexes] after the keys of the first [j] slots were entered. *)
Lemma create_48_indexes n j : keyed_wf 16 n → (j <= n_children n)%nat →
  let ix := foldl (λ ix i, match _partial_keys n !! i with
                    | Some b => <[Z.to_nat b := Z.of_nat i]> ix
                    | None => ix
                    end) (replicate 256 256) (seq 0 j) in
  length ix = 256%nat ∧
  ∀ b x, ix !! b = Some x →
    (x = 256 ∧ ∀ i, (i < j)%nat → _partial_keys n !! i ≠ Some (Z.of_nat b)) ∨
    (∃ i, (i < j)%nat ∧ x = Z.of_nat i ∧ _partial_keys n !! i = Some (Z.of_nat b)).
Proof.
  intros Hwf. induction j as [| j IH]; intros Hj ix.
  { split; [done |]. intros b x Hb. left. apply lookup_replicate in Hb as [-> _]. split; [done | lia]. }
  destruct IH as [Hlen Hix]; [lia |]. unfold ix. rewrite seq_S, foldl_app. cbn [foldl]. rewrite Nat.add_0_l.
  set (t := foldl _ _ (seq 0 j)) in *. clearbody t. pose proof (kw_count _ _ Hwf). pose proof (kw_keys _ _ Hwf).
  destruct (lookup_lt_is_Some_2 (_partial_keys n) j) as [kb Ekb]; [lia |]. rewrite Ekb.
  pose proof (kw_byte _ _ Hwf j kb ltac:(lia) Ekb) as Hkb. unfold is_byte in Hkb.
  split; [by rewrite length_insert |]. intros b x Hb.
  apply list_lookup_insert_Some in Hb as [(<- & <- & _) | [Hne Hb]].
  - right. exists j. rewrite Z2Nat.id by lia. split; [lia | done].
  - destruct (Hix b x Hb) as [[-> Hno] | (i & Hi & -> & Ei)].
    + left. split; [done |]. intros i Hi Ei. destruct (decide (i = j)) as [-> | Hij].
      * rewrite Ekb in Ei. injection Ei as ->. lia.
      * apply (Hno i); [lia | done].
    + right. exists i. split; [lia | done].
Qed.

Lemma create_48_ok n : keyed_wf 16 n → n_children n = 16%nat →
  let m := ARTNode_48_create n in
  indexed_wf m ∧ n_children48 m = 16%nat ∧ ∀ k, is_byte k → getChild_48 m k = getChild_16 n k.
Proof.
  intros Hwf Hn m. destruct (create_48_indexes n 16 Hwf) as [Hlen Hix]; [lia |].
  pose proof Hwf as [W1 W2 W3 W4 W5 W6].
  set (ix := foldl _ _ (seq 0 16)) in *.
  assert (m = mk_indexed 16 ix (take 16 (_children n) ++ drop 16 (replicate 48 None))) as ->.
  { unfold m, ARTNode_48_create. by rewrite Hn. }
  clearbody ix. assert (∀ i, (i < 16)%nat →
    (take 16 (_children n) ++ drop 16 (replicate 48 None)) !! i = _children n !! i) as Ech.
  { intros i Hi. rewrite take_app_pad by (rewrite ?length_replicate; lia). by rewrite decide_True. }
  split; [| split; [done |]].
  - split; cbn [n_children48 _indexes _children48]; try done; try lia.
    + rewrite length_app, length_take, length_drop, length_replicate. lia.
    + intros b x Hb. destruct (Hix b x Hb) as [[-> _] | (i & Hi & -> & _)]; lia.
    + intros b b' x Hb Hb' Hx. destruct (Hix b x Hb) as [[-> _] | (i & Hi & -> & Ei)]; [done |].
      destruct (Hix b' _ Hb') as [[? _] | (i' & Hi' & E & Ei')]; [done |].
      assert (i' = i) as -> by lia. rewrite Ei in Ei'. injection Ei' as ?. lia.
    + intros i Hi. rewrite Ech by done. apply W6. lia.
  - intros k Hk. unfold is_byte in Hk. apply option_eq. intros c. rewrite getChild_16_holds by done.
    unfold getChild_48. cbn [_indexes _children48].
    destruct (lookup_lt_is_Some_2 ix (Z.to_nat k)) as [x Ex]; [lia |]. rewrite Ex.
    destruct (Hix _ x Ex) as [[-> Hno] | (i & Hi & -> & Ei)]; rewrite ?Z2Nat.id in * by lia.
    + split; [done |]. intros (i & Hi & Ek & _). by destruct (Hno i ltac:(lia)).
    + rewrite (proj2 (Z.eqb_neq _ 256)), Nat2Z.id, Ech by lia. destruct (W6 i) as [c' Hc']; [lia |].
      rewrite Hc'. simpl. split.
      * intros [= ->]. exists i. split; [lia | done].
      * intros (i' & Hi' & Ek & Ec). pose proof (keyed_unique 16 n i i' k Hwf ltac:(lia) Hi' Ei Ek) as <-. congruence.
Qed.

Lemma create_256_ok m : indexed_wf m →
  length (ARTNode_256_create m) = 256%nat ∧
  ∀ k, is_byte k → mjoin (ARTNode_256_create m !! Z.to_nat k) = getChild_48 m k.
Proof.
  intros Hwf. split; [done |]. intros k Hk. unfold is_byte in Hk. unfold ARTNode_256_create.
  rewrite list_lookup_fmap, lookup_seq_lt by lia. done.
Qed.

(** ** The interface *)

Definition node_wf (n : ARTInnerNode A) : Prop :=
  match n with
  | ARTNode_4 n => keyed_wf 4 n ∧ empties n
  | ARTNode_16 n => keyed_wf 16 n ∧ unused_null n
  | ARTNode_48 m => indexed_wf m
  | ARTNode_256 c => length c = 256%nat
  end.

Lemma empties_unused n : keyed_wf 4 n → empties n → unused_null n.
Proof.
  intros Hwf He i x Hi Hx. pose proof (lookup_lt_Some _ _ _ Hx) as Hlt. rewrite (kw_children _ _ Hwf) in Hlt.
  destruct (He i) as [_ E]; [lia |]. congruence.
Qed.

Lemma updates_get (g g' : Z → option A) k a :
  updates (λ k c, is_byte k ∧ g k = Some c) (λ k c, is_byte k ∧ g' k = Some c) k a →
  ∀ k', is_byte k' → g' k' = if k' =? k then Some a else g k'.
Proof.
  intros Hu k' Hb. apply option_eq. intros c. specialize (Hu k' c). destruct (Z.eqb_spec k' k) as [-> | Hne]; naive_solver.
Qed.

Lemma keyed_get cap n n' g g' k a : updates (holds n) (holds n') k a →
  (∀ k c, is_byte k → g k = Some c ↔ holds n k c) → (∀ k c, is_byte k → g' k = Some c ↔ holds n' k c) →
  keyed_wf cap n → is_byte k →
  ∀ k', is_byte k' → g' k' = if k' =? k then Some a else g k'.
Proof.
  intros Hu Hg Hg' Hwf Hk. apply updates_get. intros k' c. specialize (Hu k' c).
  split; [intros [Hb E] | intros [[-> ->] | [Hne [Hb E]]]].
  - rewrite Hg' in E by done. apply Hu in E as [? | [? E]]; [by left | right]. by rewrite Hg.
  - split; [done |]. rewrite Hg' by done. apply Hu. by left.
  - split; [done |]. rewrite Hg' by done. apply Hu. right. by rewrite <- Hg.
Qed.

Lemma insertChild_ok (n : ARTInnerNode A) k a : node_wf n → is_byte k →
  isFull n = false ∨ is_Some (getChild n k) →
  ∃ n' : ARTInnerNode A, insertChild n k a = Ok n' ∧ node_wf n' ∧
    ∀ k', is_byte k' → getChild n' k' = if k' =? k then Some a else getChild n k'.
Proof.
  intros Hwf Hk Hroom. destruct n as [n | n | m | c]; cbn [node_wf isFull getChild insertChild] in *.
  - destruct Hwf as [Hwf He].
    destruct (insertChild_keyed_ok 4 n k a Hwf Hk (empties_unused n Hwf He)) as (n' & -> & Hwf' & Hu & He' & _).
    { destruct Hroom as [Hf%Nat.eqb_neq | [c Hc]]; [pose proof (kw_count _ _ Hwf); left; lia |].
      right. exists c. by apply getChild_4_holds. }
    cbn [rbind]. eexists. split; [done |]. split; [by split; [| apply He'] |]. cbn [getChild].
    apply (keyed_get 4 n n'); try done; intros; apply getChild_4_holds; (done || by apply He').
  - destruct Hwf as [Hwf He].
    destruct (insertChild_keyed_ok 16 n k a Hwf Hk He) as (n' & -> & Hwf' & Hu & _ & He').
    { destruct Hroom as [Hf%Nat.eqb_neq | [c Hc]]; [pose proof (kw_count _ _ Hwf); left; lia |].
      right. exists c. by apply getChild_16_holds. }
    cbn [rbind]. eexists. split; [done |]. split; [by split |]. cbn [getChild].
    apply (keyed_get 16 n n'); try done; intros; by apply getChild_16_holds.
  - destruct (insertChild_48_ok m k a Hwf Hk) as (m' & -> & Hwf' & Hget).
    { destruct Hroom as [Hf%Nat.eqb_neq | ?]; [pose proof (iw_count _ Hwf); left; lia | by right]. }
    cbn [rbind]. eexists. split; [done |]. by split.
  - unfold is_byte in Hk. eexists. split; [done |]. cbn [node_wf getChild]. split; [by rewrite length_insert |].
    intros k' Hk'. unfold is_byte in Hk'. destruct (Z.eqb_spec k' k) as [-> | Hne].
    + by rewrite list_lookup_insert_eq by lia.
    + by rewrite list_lookup_insert_ne by lia.
Qed.

Lemma grow_ok (n : ARTInnerNode A) : node_wf n → isFull n = true →
  ∃ n' : ARTInnerNode A, grow n = Ok n' ∧ node_wf n' ∧ isFull n' = false ∧ ∀ k, is_byte k → getChild n' k = getChild n k.
Proof.
  intros Hwf Hf. destruct n as [n | n | m | c]; cbn [node_wf isFull getChild grow] in *; [| | | done].
  - destruct Hwf as [Hwf He]. apply Nat.eqb_eq in Hf.
    destruct (create_16_ok n Hwf Hf) as (Hwf' & Hun & Hc & Hh). eexists. split; [done |].
    split; [by split |]. cbn [isFull]. unfold is_full_keyed. rewrite Hc. split; [done |].
    intros k Hk. apply option_eq. intros c. cbn [getChild]. rewrite getChild_16_holds, getChild_4_holds by done. apply Hh.
  - destruct Hwf as [Hwf _]. apply Nat.eqb_eq in Hf. destruct (create_48_ok n Hwf Hf) as (Hwf' & Hc & Hget).
    eexists. split; [done |]. split; [done |]. cbn [isFull]. rewrite Hc. by split.
  - destruct (create_256_ok m Hwf) as [Hl Hget]. eexists. split; [done |]. by split.
Qed.

(** A fresh [ARTNode_4] has no children. *)
Lemma new_4_ok : node_wf (ARTNode_4 ARTNode_4_new) ∧
  ∀ k, is_byte k → getChild (ARTNode_4 ARTNode_4_new) k = None.
Proof.
  assert (keyed_wf 4 ARTNode_4_new) as Hwf.
  { split; cbn [ARTNode_4_new n_children _partial_keys _children]; try done; try lia. }
  assert (empties ARTNode_4_new) as He.
  { intros i Hi. cbn [ARTNode_4_new n_children _partial_keys _children] in *.
    rewrite !lookup_replicate_2 by lia. done. }
  split; [by split |]. intros k Hk. destruct (getChild _ k) as [c |] eqn:E; [| done].
  cbn [getChild] in E. apply getChild_4_holds in E as (i & Hi & _); try done.
  cbn [ARTNode_4_new n_children] in Hi. lia.
Qed.

End nodes.

(** C31: Every layout of an inner node is the same map from key bytes to children: an insert
    into a node that has room, or that has the key already, succeeds, keeps the layout
    invariant and changes the child of exactly that byte; growing a full node gives the next
    larger layout with room and the same children. *)
Theorem inner_node_is_a_map {A} (n : ARTInnerNode A) (k : Z) (a : A) :
  node_wf n → is_byte k →
  (isFull n = false ∨ is_Some (getChild n k) →
   ∃ n', insertChild n k a = Ok n' ∧ node_wf n' ∧
     ∀ k', is_byte k' → getChild n' k' = if k' =? k then Some a else getChild n k') ∧
  (isFull n = true →
   ∃ n', grow n = Ok n' ∧ node_wf n' ∧ isFull n' = false ∧
     ∀ k', is_byte k' → getChild n' k' = getChild n k').
Proof. intros Hwf Hk. split; [by apply insertChild_ok | by apply grow_ok]. Qed.

Definition ex_node : res (ARTInnerNode Z) :=
  rfoldM (λ n k, insertChild n k (k * 10)) (ARTNode_4 ARTNode_4_new) [9; 0; 200; 7].

(** Four inserts fill an [ARTNode_4]; a smaller key is moved in front. *)
Example ex_node_filled :
  ex_node = Ok (ARTNode_4 (mk_keyed 4 [0; 7; 9; 200] [Some 0; Some 70; Some 90; Some 2000])).
Proof. reflexivity. Qed.

Lemma inner_node_is_a_map_witness :
  ∃ n', insertChild (ARTNode_4 (ARTNode_4_new (A := Z))) 7 70 = Ok n' ∧ getChild n' 7 = Some 70.
Proof.
  destruct (inner_node_is_a_map (ARTNode_4 (ARTNode_4_new (A := Z))) 7 70) as [Hins _].
  - exact (proj1 new_4_ok).
  - split; vm_compute; [discriminate | reflexivity].
  - destruct Hins as (n' & E & _ & Hget); [left; reflexivity |].
    exists n'. split; [exact E |]. rewrite Hget; [reflexivity |]. split; vm_compute; [discriminate | reflexivity].
Defined.

End ArtNode.
