(* ===== verification/Art.v ===== *)
(** * Art: the adaptive radix tree index ([ART<K,V>] in [oltp/index/ART/art.hpp])

    The tree for an integral key type of [W] bytes, in a run without concurrent writers:
    a node is owned by its parent, so the tree is a value and the parent's slot carries the
    node its pointer refers to.  No restart happens in such a run; the version locks are the
    subject of [OptLock].

    The theorems show that inserts and lookups implement a finite map in which the first
    value inserted under a key stays. *)

From S2P Require Import Prelude ArtNode.
From Stdlib Require Import ZArith Lia Bool.
From stdpp Require Import base numbers list gmap.

Local Open Scope Z_scope.
Local Open Scope res_scope.

Module Art.
Import ArtNode.

(** [ARTLeafSingleValue] and the inner nodes with their compressed path. *)
Inductive ARTNode (V : Type) : Type :=
  | ARTLeaf (_key : list Z) (_value : V)
  | ARTInner (prefix_len : nat) (prefix : list Z) (inner : ARTInnerNode (ARTNode V)).
Arguments ARTLeaf {V} _ _.
Arguments ARTInner {V} _ _ _.

(** ** Keys *)

(** The bytes of the key in memory: [convertKey] leaves a key that is not a string alone. *)
Definition formattedKey (W : nat) (k : Z) : list Z :=
  (λ i, (k / 256 ^ Z.of_nat i) mod 256) <$> seq 0 W.

Definition key_at (key : list Z) (i : nat) : res Z := of_option Undefined (key !! i).

(** [prefix_match]: [rem] bytes of the prefix are left to compare. *)
Fixpoint prefix_match_from (rem : nat) (key prefix : list Z) : res nat :=
  match rem with
  | O => Ok 0%nat
  | S rem =>
      match key, prefix with
      | k :: key, p :: prefix =>
          if k =? p then do l <- prefix_match_from rem key prefix; Ok (S l) else Ok 0%nat
      | _, _ => Err Undefined
      end
  end.

Definition prefix_match (prefix_len : nat) (prefix key : list Z) (depth : nat) : res nat :=
  prefix_match_from prefix_len (drop depth key) prefix.

(** [copyPrefix] from a key and from a node. *)
Definition copyPrefix_key (W : nat) (k : list Z) (len depth : nat) : res (list Z) :=
  check Nat.leb (depth + len) W else AssertFailed; Ok (take len (drop depth k)).

Definition copyPrefix_node (prefix_len : nat) (prefix : list Z) (len : nat) : res (list Z) :=
  check Nat.leb len prefix_len else AssertFailed; Ok (take len prefix).

(** The loop over the bytes a leaf shares with the new key.  The condition reads one byte
    past the key when the leaf sits at depth [W]; the bound that follows in the same
    condition ends the loop whatever that byte is. *)
Fixpoint common_len (k2 k : list Z) : nat :=
  match k2, k with
  | a :: k2, b :: k => if a =? b then S (common_len k2 k) else 0
  | _, _ => 0
  end.

Section tree.
Context {V : Type} (W : nat).
Implicit Types (n : ARTNode V) (key : list Z).

(** ** [insert] *)

(** A new [ARTNode_4] with two children. *)
Definition node4_of (plen : nat) (prefix : list Z) (b1 : Z) (n1 : ARTNode V) (b2 : Z)
    (n2 : ARTNode V) : res (ARTNode V) :=
  do i1 <- insertChild (ARTNode_4 ARTNode_4_new) b1 n1;
  do i2 <- insertChild i1 b2 n2;
  Ok (ARTInner plen prefix i2).

(** The result is what the slot of the node holds afterwards: the node itself, changed in
    place, or the node that the code stores into the parent with [insertChild]. *)
Fixpoint insert_recursive_opt (fuel : nat) (node : option (ARTNode V)) key (value : V)
    (depth : nat) : res (ARTNode V) :=
  match fuel with
  | O => Err Blocked
  | S fuel =>
      let newLeaf := ARTLeaf key value in
      match node with
      | None => Ok newLeaf
      | Some (ARTLeaf key2 v2) =>
          let newPrefixLength := common_len (drop depth key2) (drop depth key) in
          if Nat.leb W (depth + newPrefixLength) then Ok (ARTLeaf key2 v2)
          else
            do prefix <- copyPrefix_key W key newPrefixLength depth;
            do b2 <- key_at key2 (depth + newPrefixLength);
            do b <- key_at key (depth + newPrefixLength);
            node4_of newPrefixLength prefix b2 (ARTLeaf key2 v2) b newLeaf
      | Some (ARTInner prefix_len prefix inner) =>
          do prefix_mismatch <-
            (if Nat.eqb prefix_len 0 then Ok 0%nat else prefix_match prefix_len prefix key depth);
          if negb (Nat.eqb prefix_mismatch prefix_len) then
            do common <- copyPrefix_node prefix_len prefix prefix_mismatch;
            do b <- key_at key (depth + prefix_mismatch);
            do pb <- of_option Undefined (prefix !! prefix_mismatch);
            node4_of prefix_mismatch common b newLeaf pb
              (ARTInner (prefix_len - (prefix_mismatch + 1)) (drop (prefix_mismatch + 1) prefix) inner)
          else
            let depth := (depth + prefix_len)%nat in
            do b <- key_at key depth;
            match getChild inner b with
            | None =>
                do inner1 <- (if isFull inner then grow inner else Ok inner);
                do inner2 <- insertChild inner1 b newLeaf;
                Ok (ARTInner prefix_len prefix inner2)
            | Some child =>
                do child' <- insert_recursive_opt fuel (Some child) key value (depth + 1);
                do inner' <- insertChild inner b child';
                Ok (ARTInner prefix_len prefix inner')
            end
      end
  end.

(** [insert]: the tree is at most [W] inner nodes deep. *)
Definition insert (read_only : bool) (root : option (ARTNode V)) (k : Z) (value : V)
  : res (bool * option (ARTNode V)) :=
  if read_only then Ok (false, root)
  else
    do n <- insert_recursive_opt (S W) root (formattedKey W k) value 0;
    Ok (true, Some n).

(** ** [find] *)

Fixpoint getByKey_opt (fuel : nat) (node : ARTNode V) key (depth : nat) : res (option V) :=
  match fuel with
  | O => Err Blocked
  | S fuel =>
      match node with
      | ARTLeaf k v => Ok (if decide (key = k) then Some v else None)
      | ARTInner prefix_len prefix inner =>
          do m <- (if Nat.eqb prefix_len 0 then Ok 0%nat else prefix_match prefix_len prefix key depth);
          if negb (Nat.eqb m prefix_len) then Ok None
          else
            do b <- key_at key (depth + prefix_len);
            match getChild inner b with
            | None => Err Undefined          (* [node->readUnlockOrRestart] on a null node *)
            | Some child => getByKey_opt fuel child key (depth + prefix_len + 1)
            end
      end
  end.

Definition find (root : option (ARTNode V)) (k : Z) : res (option V) :=
  match root with
  | None => Ok None
  | Some n => getByKey_opt (S W) n (formattedKey W k) 0
  end.

(** ** The invariant *)

Definition valid key : Prop := length key = W ∧ Forall is_byte key.

(** [n] hangs below [path]: the bytes that lead to it. *)
Inductive inv : list Z → ARTNode V → Prop :=
  | inv_leaf path key v : valid key → path `prefix_of` key → inv path (ARTLeaf key v)
  | inv_inner path plen prefix inner : plen = length prefix → Forall is_byte prefix →
      (length path + plen < W)%nat → node_wf inner →
      (∀ b c, is_byte b → getChild inner b = Some c → inv (path ++ prefix ++ [b]) c) →
      inv path (ARTInner plen prefix inner).

(** The entries of a tree. *)
Inductive mem : ARTNode V → list Z → V → Prop :=
  | mem_leaf key v : mem (ARTLeaf key v) key v
  | mem_inner plen prefix inner b c key v : is_byte b → getChild inner b = Some c →
      mem c key v → mem (ARTInner plen prefix inner) key v.

Lemma mem_leaf_iff key v k w : mem (ARTLeaf key v) k w ↔ k = key ∧ w = v.
Proof. split; [by inversion 1 | intros [-> ->]; constructor]. Qed.

Lemma mem_inner_iff plen prefix inner k w : mem (ARTInner plen prefix inner) k w ↔
  ∃ b c, is_byte b ∧ getChild inner b = Some c ∧ mem c k w.
Proof. split; [inversion 1; subst; by eauto | intros (b & c & Hb & Hc & Hm); by econstructor]. Qed.

Lemma mem_path path n k w : inv path n → mem n k w → valid k ∧ path `prefix_of` k.
Proof.
  intros Hinv. revert k w. induction Hinv as [path key v Hk Hp | path plen prefix inner _ _ _ _ _ IH]; intros k w.
  - intros [-> ->]%mem_leaf_iff. done.
  - intros (b & c & Hb & Hc & Hm)%mem_inner_iff. destruct (IH b c Hb Hc k w Hm) as [Hv Hpre].
    split; [done |]. etrans; [| exact Hpre]. by apply prefix_app_r.
Qed.

(** An entry of an inner node goes through the child of its byte. *)
Lemma mem_child path plen prefix inner key w : inv path (ARTInner plen prefix inner) →
  mem (ARTInner plen prefix inner) key w →
  ∃ b c, is_byte b ∧ getChild inner b = Some c ∧ mem c key w ∧ (path ++ prefix ++ [b]) `prefix_of` key.
Proof.
  intros Hinv (b & c & Hb & Hc & Hm)%mem_inner_iff. inversion Hinv as [| ? ? ? ? _ _ _ _ Hch]; subst.
  exists b, c. destruct (mem_path _ c key w (Hch b c Hb Hc) Hm) as [_ ?]. done.
Qed.

Lemma inv_unique path n k w w' : inv path n → mem n k w → mem n k w' → w = w'.
Proof.
  intros Hinv. revert k w w'. induction Hinv as [path key v Hk Hp | path plen prefix inner H1 H2 H3 H4 H5 IH]; intros k w w'.
  - intros [-> ->]%mem_leaf_iff [_ ->]%mem_leaf_iff. done.
  - assert (inv path (ARTInner plen prefix inner)) as Hinv by by constructor.
    intros (b & c & Hb & Hc & Hm & Hp)%(mem_child path) (b' & c' & Hb' & Hc' & Hm' & Hp')%(mem_child path); try done.
    assert (b' = b) as ->.
    { destruct Hp as [r ->], Hp' as [r' E]. rewrite <- !app_assoc in E.
      apply app_inv_head, app_inv_head in E. by injection E. }
    rewrite Hc in Hc'. injection Hc' as <-. by apply (IH b c Hb Hc k).
Qed.

(** ** Comparing bytes *)

Lemma prefix_match_spec prefix rest : (length prefix < length rest)%nat →
  ∃ l, prefix_match_from (length prefix) rest prefix = Ok l ∧ (l <= length prefix)%nat ∧
    take l prefix = take l rest ∧
    ((l < length prefix)%nat → ∃ a b, prefix !! l = Some a ∧ rest !! l = Some b ∧ b ≠ a).
Proof.
  revert rest. induction prefix as [| p prefix IH]; intros [| r rest] Hl; simpl in *; try lia.
  { exists 0%nat. repeat split; lia. }
  destruct (Z.eqb_spec r p) as [-> | Hne].
  - destruct (IH rest) as (l & -> & Hle & Ht & Hd); [lia |]. exists (S l). cbn [rbind].
    split; [done |]. split; [lia |]. split; [simpl; by rewrite Ht |]. intros Hlt. apply Hd. lia.
  - exists 0%nat. split; [done |]. split; [lia |]. split; [done |]. intros _. by exists p, r.
Qed.

Lemma common_len_spec r2 r : length r2 = length r →
  let l := common_len r2 r in
  (l <= length r)%nat ∧ take l r2 = take l r ∧
  ((l < length r)%nat → ∃ a b, r2 !! l = Some a ∧ r !! l = Some b ∧ a ≠ b).
Proof.
  revert r. induction r2 as [| a r2 IH]; intros [| b r] Hl; simpl in *; try lia.
  { repeat split; lia. }
  destruct (Z.eqb_spec a b) as [-> | Hne].
  - destruct (IH r) as (Hle & Ht & Hd); [lia |]. split; [simpl; lia |]. split; [simpl; by rewrite Ht |].
    simpl. intros Hlt. apply Hd. lia.
  - split; [lia |]. split; [done |]. intros _. by exists a, b.
Qed.

Lemma node4_of_ok plen prefix b1 n1 b2 n2 : is_byte b1 → is_byte b2 → b1 ≠ b2 →
  ∃ i, node4_of plen prefix b1 n1 b2 n2 = Ok (ARTInner plen prefix i) ∧ node_wf i ∧
    ∀ b, is_byte b → getChild i b = if b =? b2 then Some n2 else if b =? b1 then Some n1 else None.
Proof.
  intros H1 H2 Hne. destruct (new_4_ok (A := ARTNode V)) as [Hwf Hnone].
  destruct (insertChild_ok (ARTNode_4 ARTNode_4_new) b1 n1 Hwf H1) as (i1 & E1 & Hwf1 & Hg1); [by left |].
  destruct (insertChild_ok i1 b2 n2 Hwf1 H2) as (i2 & E2 & Hwf2 & Hg2).
  { left. cbn in E1. rewrite andb_false_r in E1. by injection E1 as <-. }
  unfold node4_of. rewrite E1. cbn [rbind]. rewrite E2. cbn [rbind]. exists i2. split; [done |].
  split; [done |]. intros b Hb. by rewrite Hg2, Hg1, Hnone.
Qed.

(** A node with the two children of [node4_of]. *)
Lemma node4_inv path prefix b1 n1 b2 n2 i : Forall is_byte prefix → (length path + length prefix < W)%nat →
  is_byte b1 → is_byte b2 → b1 ≠ b2 → node_wf i →
  (∀ b, is_byte b → getChild i b = if b =? b2 then Some n2 else if b =? b1 then Some n1 else None) →
  inv (path ++ prefix ++ [b1]) n1 → inv (path ++ prefix ++ [b2]) n2 →
  inv path (ARTInner (length prefix) prefix i) ∧
  ∀ k w, mem (ARTInner (length prefix) prefix i) k w ↔ mem n1 k w ∨ mem n2 k w.
Proof.
  intros Hpre Hlen Hb1 Hb2 Hne Hwf Hget Hn1 Hn2. split.
  - constructor; try done. intros b c Hb. rewrite Hget by done.
    destruct (Z.eqb_spec b b2) as [-> |]; [intros [= <-]; done |].
    destruct (Z.eqb_spec b b1) as [-> |]; [intros [= <-]; done | done].
  - intros k w. rewrite mem_inner_iff. split.
    + intros (b & c & Hb & Hc & Hm). rewrite Hget in Hc by done.
      destruct (b =? b2); [right; congruence |]. destruct (b =? b1); [left; congruence | done].
    + intros [Hm | Hm]; [exists b1, n1 | exists b2, n2]; rewrite Hget by done; rewrite Z.eqb_refl.
      * by rewrite (proj2 (Z.eqb_neq b1 b2)).
      * done.
Qed.

Lemma split_key key path : valid key → path `prefix_of` key →
  ∃ rest, key = path ++ rest ∧ (length path + length rest = W)%nat ∧ Forall is_byte rest ∧
    drop (length path) key = rest.
Proof.
  intros [Hl Hb] [rest ->]. exists rest. rewrite length_app in Hl. apply Forall_app in Hb as [_ Hb].
  split; [done |]. split; [done |]. split; [done |]. by rewrite drop_app_length.
Qed.

(** How a key and the prefix of a node compare. *)
Lemma match_prefix path prefix key : valid key → path `prefix_of` key →
  (length path + length prefix < W)%nat →
  ∃ l, (if Nat.eqb (length prefix) 0 then Ok 0%nat
        else prefix_match (length prefix) prefix key (length path)) = Ok l ∧
    ((l = length prefix ∧ ∃ b, is_byte b ∧ key !! (length path + length prefix)%nat = Some b ∧
        (path ++ prefix ++ [b]) `prefix_of` key) ∨
     ((l < length prefix)%nat ∧ ∃ a b, is_byte b ∧ prefix !! l = Some a ∧
        key !! (length path + l)%nat = Some b ∧ b ≠ a ∧
        (path ++ take l prefix ++ [b]) `prefix_of` key)).
Proof.
  intros Hv Hp Hlen. destruct (split_key key path Hv Hp) as (rest & -> & Hl & Hb & Hdrop).
  destruct (prefix_match_spec prefix rest) as (l & E & Hle & Ht & Hd); [lia |].
  exists l. split.
  { unfold prefix_match. rewrite Hdrop, E. destruct (Nat.eqb_spec (length prefix) 0) as [H0 |]; [| done].
    f_equal. lia. }
  destruct (lookup_lt_is_Some_2 rest l) as [b Eb]; [lia |].
  assert (is_byte b) as Hbb by (by eapply Forall_lookup_1).
  assert ((path ++ take l rest ++ [b]) `prefix_of` (path ++ rest)) as Hpre.
  { apply prefix_app. exists (drop (S l) rest). rewrite <- app_assoc. simpl. by rewrite take_drop_middle. }
  destruct (decide (l < length prefix)%nat) as [Hlt | Hge].
  - right. split; [done |]. destruct (Hd Hlt) as (a & b' & Ea & Eb' & Hne). rewrite Eb in Eb'. injection Eb' as <-.
    exists a, b. rewrite lookup_app_r by lia. replace (length path + l - length path)%nat with l by lia.
    rewrite Ht. done.
  - left. assert (l = length prefix) as -> by lia. split; [done |]. exists b.
    rewrite lookup_app_r by lia. replace (length path + length prefix - length path)%nat with (length prefix) by lia.
    rewrite <- Ht, take_ge in Hpre by lia. done.
Qed.

(** A key that takes byte [b] after the prefix [q] is not below another byte. *)
Lemma path_byte path q a b rest key : (path ++ q ++ [b]) `prefix_of` key →
  (path ++ q ++ [a] ++ rest) `prefix_of` key → a = b.
Proof.
  intros [r ->] [r' E]. rewrite <- !app_assoc in E. apply app_inv_head, app_inv_head in E. by injection E.
Qed.

(** ** Lookup *)

Lemma getByKey_ok path n : inv path n → ∀ key fuel, valid key → path `prefix_of` key →
  (W - length path < fuel)%nat →
  (∀ v, getByKey_opt fuel n key (length path) = Ok (Some v) ↔ mem n key v) ∧
  (∀ e, getByKey_opt fuel n key (length path) = Err e → e = Undefined).
Proof.
  induction 1 as [path k v Hk Hp | path plen prefix inner Hl Hb Hlen Hwf Hch IH];
    intros key fuel Hv Hpre Hf; (destruct fuel as [| fuel]; [lia |]); cbn [getByKey_opt].
  - split; [| done]. intros w. rewrite mem_leaf_iff. case_decide; naive_solver.
  - subst plen. assert (inv path (ARTInner (length prefix) prefix inner)) as Hinv by by constructor.
    destruct (match_prefix path prefix key Hv Hpre Hlen)
      as (l & -> & [(-> & b & Hbb & Eb & Hpb) | (Hlt & a & b & Hbb & Ea & Eb & Hne & Hpb)]); cbn [rbind].
    + rewrite Nat.eqb_refl. cbn [negb]. unfold key_at. rewrite Eb. cbn [of_option rbind].
      assert (∀ w, mem (ARTInner (length prefix) prefix inner) key w ↔
        ∃ c, getChild inner b = Some c ∧ mem c key w) as Hmem.
      { intros w. split.
        - intros (b' & c & Hb' & Hc & Hm & Hp')%(mem_child path); [| done].
          assert (b' = b) as -> by (by apply (path_byte path prefix b' b [] key)). eauto.
        - intros (c & Hc & Hm). apply mem_inner_iff. eauto. }
      destruct (getChild inner b) as [c |] eqn:Ec.
      * destruct (IH b c Hbb Ec key fuel Hv Hpb) as [Hg Hnb]; rewrite !length_app in *; simpl in *; [lia |].
        replace (length path + length prefix + 1)%nat with (length path + (length prefix + 1))%nat by lia.
        split; [| done]. intros w. rewrite Hg, Hmem. naive_solver.
      * split; [| by intros e [= <-]]. intros w. rewrite Hmem. naive_solver.
    + rewrite (proj2 (Nat.eqb_neq l (length prefix))) by lia. cbn [negb]. split; [| done].
      intros w. split; [done |]. intros (b' & c & Hb' & Hc & Hm & Hp')%(mem_child path); [| done].
      destruct Hne. symmetry. apply (path_byte path (take l prefix) a b (drop (S l) prefix ++ [b']) key Hpb).
      rewrite <- (take_drop_middle prefix l a Ea) in Hp' at 1. by rewrite <- !app_assoc in Hp'.
Qed.

(** ** Insertion *)

(** The entries of [n'] are those of [n] and the new one, unless the key was there. *)
Definition added n n' key v : Prop :=
  ∀ k w, mem n' k w ↔ mem n k w ∨ (k = key ∧ w = v ∧ ∀ w0, ¬ mem n key w0).

Lemma leaf_insert_ok path key2 v2 key v fuel : valid key2 → path `prefix_of` key2 →
  valid key → path `prefix_of` key →
  ∃ n', insert_recursive_opt (S fuel) (Some (ARTLeaf key2 v2)) key v (length path) = Ok n' ∧
    inv path n' ∧ added (ARTLeaf key2 v2) n' key v.
Proof.
  intros Hv2 Hp2 Hv Hp. cbn [insert_recursive_opt].
  destruct (split_key key2 path Hv2 Hp2) as (r2 & E2 & Hl2 & Hb2 & Hd2).
  destruct (split_key key path Hv Hp) as (r & E & Hl & Hb & Hd). rewrite Hd2, Hd.
  destruct (common_len_spec r2 r) as (Hle & Ht & Hdiff); [lia |]. set (l := common_len r2 r) in *.
  destruct (Nat.leb_spec W (length path + l)) as [Hge | Hlt].
  - assert (r2 = r) as ->.
    { rewrite <- (take_ge r2 l), <- (take_ge r l) by lia. done. }
    assert (key2 = key) as -> by congruence. eexists. split; [done |]. split; [by constructor |].
    intros k w. split; [by left |]. intros [Hm | (_ & _ & Hno)]; [done |]. destruct (Hno v2). constructor.
  - destruct Hdiff as (a & b & Ea & Eb & Hne); [lia |].
    unfold copyPrefix_key. rewrite (proj2 (Nat.leb_le _ _)) by lia. cbn [rbind]. unfold key_at.
    assert (key2 !! (length path + l)%nat = Some a) as ->.
    { rewrite E2, lookup_app_r by lia. by replace (length path + l - length path)%nat with l by lia. }
    assert (key !! (length path + l)%nat = Some b) as ->.
    { rewrite E, lookup_app_r by lia. by replace (length path + l - length path)%nat with l by lia. }
    cbn [of_option rbind]. rewrite Hd.
    assert (is_byte a) as Ha by exact (Forall_lookup_1 _ _ _ _ Hb2 Ea).
    assert (is_byte b) as Hbb by exact (Forall_lookup_1 _ _ _ _ Hb Eb).
    destruct (node4_of_ok l (take l r) a (ARTLeaf key2 v2) b (ARTLeaf key v) Ha Hbb Hne) as (i & -> & Hwf & Hget).
    eexists. split; [done |].
    destruct (node4_inv path (take l r) a (ARTLeaf key2 v2) b (ARTLeaf key v) i) as [Hinv Hmem]; try done.
    { by apply Forall_take. } { rewrite length_take. lia. }
    { constructor; [done |]. rewrite E2, <- Ht. apply prefix_app. exists (drop (S l) r2).
      rewrite <- app_assoc. simpl. by rewrite take_drop_middle. }
    { constructor; [done |]. rewrite E. apply prefix_app. exists (drop (S l) r).
      rewrite <- app_assoc. simpl. by rewrite take_drop_middle. }
    replace (length (take l r)) with l in Hinv, Hmem by (rewrite length_take; lia).
    split; [done |]. intros k w. rewrite Hmem, !mem_leaf_iff.
    split; [| naive_solver]. intros [? | [-> ->]]; [by left | right].
    split; [done |]. split; [done |]. intros w0 [Hk _]%mem_leaf_iff. destruct Hne. congruence.
Qed.

(** Splitting the compressed path of an inner node. *)
Lemma split_inner_ok path prefix inner l a b key v : inv path (ARTInner (length prefix) prefix inner) →
  valid key → path `prefix_of` key → (l < length prefix)%nat → is_byte b → prefix !! l = Some a → b ≠ a →
  (path ++ take l prefix ++ [b]) `prefix_of` key →
  ∃ n', node4_of l (take l prefix) b (ARTLeaf key v) a
      (ARTInner (length prefix - (l + 1)) (drop (l + 1) prefix) inner) = Ok n' ∧
    inv path n' ∧ added (ARTInner (length prefix) prefix inner) n' key v.
Proof.
  intros Hinv Hv Hp Hlt Hb Ea Hne Hpb. pose proof Hinv as Hinv0.
  inversion Hinv as [| ? ? ? ? _ Hbytes Hlen Hwf Hch]; subst.
  assert (is_byte a) as Ha by exact (Forall_lookup_1 _ _ _ _ Hbytes Ea).
  set (low := ARTInner (length prefix - (l + 1)) (drop (l + 1) prefix) inner).
  destruct (node4_of_ok l (take l prefix) b (ARTLeaf key v) a low Hb Ha Hne) as (i & -> & Hwfi & Hget).
  eexists. split; [done |].
  destruct (node4_inv path (take l prefix) b (ARTLeaf key v) a low i) as [Hinv' Hmem]; try done.
  { by apply Forall_take. } { rewrite length_take. lia. } { by constructor. }
  { constructor; [by rewrite length_drop | by apply Forall_drop | | done |].
    - rewrite !length_app, length_take. simpl. lia.
    - intros b' c Hb' Hc. replace (l + 1)%nat with (S l) by lia.
      assert ((path ++ take l prefix ++ [a]) ++ drop (S l) prefix ++ [b'] = path ++ prefix ++ [b']) as ->.
      { rewrite <- (take_drop_middle prefix l a Ea) at 3. by rewrite <- !app_assoc. }
      by apply Hch. }
  replace (length (take l prefix)) with l in Hinv', Hmem by (rewrite length_take; lia).
  split; [done |]. intros k w. rewrite Hmem, mem_leaf_iff.
  assert (∀ k w, mem low k w ↔ mem (ARTInner (length prefix) prefix inner) k w) as Hlow
    by (intros; unfold low; by rewrite !mem_inner_iff).
  rewrite Hlow. split; [| naive_solver]. intros [[-> ->] | ?]; [right | by left].
  split; [done |]. split; [done |]. intros w0 (b' & c & Hb' & Hc & Hm & Hp')%(mem_child path); [| done].
  destruct Hne. symmetry. apply (path_byte path (take l prefix) a b (drop (S l) prefix ++ [b']) key Hpb).
  rewrite <- (take_drop_middle prefix l a Ea) in Hp' at 1. by rewrite <- !app_assoc in Hp'.
Qed.

(** Setting the child of the key's byte. *)
Lemma set_child_ok path prefix inner inner' b c' key v : inv path (ARTInner (length prefix) prefix inner) →
  is_byte b → (path ++ prefix ++ [b]) `prefix_of` key → node_wf inner' →
  (∀ k, is_byte k → getChild inner' k = if k =? b then Some c' else getChild inner k) →
  inv (path ++ prefix ++ [b]) c' →
  (∀ k w, mem c' k w ↔ (∃ c, getChild inner b = Some c ∧ mem c k w) ∨
     (k = key ∧ w = v ∧ ∀ c w0, getChild inner b = Some c → ¬ mem c key w0)) →
  inv path (ARTInner (length prefix) prefix inner') ∧
  added (ARTInner (length prefix) prefix inner) (ARTInner (length prefix) prefix inner') key v.
Proof.
  intros Hinv Hb Hpb Hwf' Hget Hc' Hmem. pose proof Hinv as Hinv0.
  inversion Hinv as [| ? ? ? ? _ Hbytes Hlen Hwf Hch]; subst. split.
  - constructor; try done. intros k c Hk. rewrite Hget by done.
    destruct (Z.eqb_spec k b) as [-> |]; [by intros [= <-] | by apply Hch].
  - assert ((∀ w0, ¬ mem (ARTInner (length prefix) prefix inner) key w0) ↔
      ∀ c w0, getChild inner b = Some c → ¬ mem c key w0) as Hno.
    { split.
      - intros Hn c w0 Hc Hm. apply (Hn w0). apply mem_inner_iff. eauto.
      - intros Hn w0 (b' & c & Hb' & Hc & Hm & Hp')%(mem_child path); [| done].
        assert (b' = b) as -> by (by apply (path_byte path prefix b' b [] key)). by apply (Hn c w0). }
    intros k w. rewrite Hno, !mem_inner_iff. split.
    + intros (b' & c & Hb' & Hc & Hm). rewrite Hget in Hc by done.
      destruct (Z.eqb_spec b' b) as [-> | Hne]; [| by left; eauto].
      injection Hc as <-. apply Hmem in Hm as [(c & Hc & Hm) | ?]; [left; by eauto | by right].
    + intros [(b' & c & Hb' & Hc & Hm) | Hnew].
      * destruct (decide (b' = b)) as [-> | Hne].
        -- exists b, c'. rewrite Hget, Z.eqb_refl by done. split; [done |]. split; [done |]. apply Hmem. left. eauto.
        -- exists b', c. rewrite Hget by done. by rewrite (proj2 (Z.eqb_neq b' b)).
      * exists b, c'. rewrite Hget, Z.eqb_refl by done. split; [done |]. split; [done |]. apply Hmem. by right.
Qed.

Lemma insert_ok path n : inv path n → ∀ key v fuel, valid key → path `prefix_of` key →
  (W - length path < fuel)%nat →
  ∃ n', insert_recursive_opt fuel (Some n) key v (length path) = Ok n' ∧ inv path n' ∧ added n n' key v.
Proof.
  induction 1 as [path k w Hk Hp | path plen prefix inner Hl Hb Hlen Hwf Hch IH];
    intros key v fuel Hv Hpre Hf; (destruct fuel as [| fuel]; [lia |]).
  { by apply leaf_insert_ok. }
  subst plen. assert (inv path (ARTInner (length prefix) prefix inner)) as Hinv by by constructor.
  cbn [insert_recursive_opt].
  destruct (match_prefix path prefix key Hv Hpre Hlen)
    as (l & -> & [(-> & b & Hbb & Eb & Hpb) | (Hlt & a & b & Hbb & Ea & Eb & Hne & Hpb)]); cbn [rbind].
  2: { rewrite (proj2 (Nat.eqb_neq l (length prefix))) by lia. cbn [negb]. unfold copyPrefix_node.
       rewrite (proj2 (Nat.leb_le _ _)) by lia. cbn [rbind]. unfold key_at. rewrite Eb, Ea. cbn [of_option rbind].
       by apply (split_inner_ok path prefix inner l a b). }
  rewrite Nat.eqb_refl. cbn [negb]. unfold key_at. rewrite Eb. cbn [of_option rbind].
  destruct (getChild inner b) as [c |] eqn:Ec.
  - destruct (IH b c Hbb Ec key v fuel Hv Hpb) as (c' & E & Hc' & Hadd).
    { rewrite !length_app. simpl. lia. }
    replace (length path + length prefix + 1)%nat with (length (path ++ prefix ++ [b]))
      by (rewrite !length_app; simpl; lia).
    rewrite E. cbn [rbind].
    destruct (insertChild_ok inner b c' Hwf Hbb) as (inner' & -> & Hwf' & Hget); [right; by rewrite Ec |].
    cbn [rbind]. eexists. split; [done |]. apply (set_child_ok path prefix inner inner' b c'); try done.
    intros k w. rewrite (Hadd k w), Ec. naive_solver.
  - assert (∃ inner1, (if isFull inner then grow inner else Ok inner) = Ok inner1 ∧ node_wf inner1 ∧
      isFull inner1 = false ∧ ∀ k, is_byte k → getChild inner1 k = getChild inner k) as (inner1 & -> & Hwf1 & Hf1 & Hg1).
    { destruct (isFull inner) eqn:Efull; [by apply grow_ok | by eauto]. }
    cbn [rbind]. destruct (insertChild_ok inner1 b (ARTLeaf key v) Hwf1 Hbb) as (inner' & -> & Hwf' & Hget); [by left |].
    cbn [rbind]. eexists. split; [done |].
    apply (set_child_ok path prefix inner inner' b (ARTLeaf key v)); try done.
    + intros k Hk. by rewrite Hget, Hg1.
    + by constructor.
    + intros k w. rewrite mem_leaf_iff, Ec. naive_solver.
Qed.

(** ** Integer keys *)

Definition in_key (k : Z) : Prop := 0 <= k < 256 ^ Z.of_nat W.

Lemma formattedKey_valid k : valid (formattedKey W k).
Proof.
  split; [unfold formattedKey; by rewrite length_fmap, length_seq |].
  apply Forall_forall. intros x (i & -> & _)%list_elem_of_fmap. apply Z.mod_pos_bound. lia.
Qed.

Definition root_inv (root : option (ARTNode V)) : Prop :=
  match root with None => True | Some n => inv [] n end.

(** [find] sees exactly the entries of the tree. *)
Lemma find_mem root k v : root_inv root →
  find root k = Ok (Some v) ↔ ∃ n, root = Some n ∧ mem n (formattedKey W k) v.
Proof.
  intros Hinv. destruct root as [n |]; simpl; [| naive_solver].
  destruct (getByKey_ok [] n Hinv (formattedKey W k) (S W)) as [Hg _];
    [apply formattedKey_valid | apply prefix_nil | simpl; lia |].
  simpl in Hg. rewrite Hg. naive_solver.
Qed.

End tree.

Lemma formattedKey_S W k : formattedKey (S W) k = (k mod 256) :: formattedKey W (k / 256).
Proof.
  unfold formattedKey. cbn [seq fmap list_fmap]. change (Z.of_nat 0) with 0. rewrite Z.pow_0_r, Z.div_1_r. f_equal.
  rewrite <- fmap_S_seq, <- list_fmap_compose. apply list_fmap_ext. intros _ i _. unfold compose.
  rewrite Nat2Z.inj_succ, Z.pow_succ_r by lia. rewrite <- Z.div_div by lia. done.
Qed.

Lemma formattedKey_inj W k k' : in_key W k → in_key W k' → formattedKey W k = formattedKey W k' → k = k'.
Proof.
  unfold in_key. revert k k'. induction W as [| W IH]; intros k k' Hk Hk' E; [simpl in *; lia |].
  rewrite !formattedKey_S in E. injection E as E1 E2. rewrite Nat2Z.inj_succ, Z.pow_succ_r in Hk, Hk' by lia.
  apply IH in E2.
  - rewrite (Z.div_mod k 256), (Z.div_mod k' 256) by lia. congruence.
  - split; [apply Z.div_pos; lia | apply Z.div_lt_upper_bound; lia].
  - split; [apply Z.div_pos; lia | apply Z.div_lt_upper_bound; lia].
Qed.

Section keys.
Context {V : Type} (W : nat).
Implicit Types (root : option (ARTNode V)) (k : Z) (v : V).

Lemma insert_step root k v : root_inv W root → in_key W k →
  ∃ root', insert W false root k v = Ok (true, root') ∧ root_inv W root' ∧
    ∀ k' w, in_key W k' → find W root' k' = Ok (Some w) ↔
      find W root k' = Ok (Some w) ∨ (k' = k ∧ w = v ∧ ∀ w0, find W root k ≠ Ok (Some w0)).
Proof.
  intros Hinv Hk. set (key := formattedKey W k). pose proof (formattedKey_valid W k) as Hv. fold key in Hv.
  assert (∃ n', insert_recursive_opt W (S W) root key v 0 = Ok n' ∧ inv W [] n' ∧
    ∀ q w, mem n' q w ↔ (∃ n, root = Some n ∧ mem n q w) ∨
      (q = key ∧ w = v ∧ ∀ n w0, root = Some n → ¬ mem n key w0)) as (n' & E & Hinv' & Hadd).
  { destruct root as [n |].
    - destruct (insert_ok W [] n Hinv key v (S W) Hv) as (n' & E & Hi & Ha); [apply prefix_nil | simpl; lia |].
      exists n'. split; [done |]. split; [done |]. intros q w. rewrite (Ha q w). naive_solver.
    - exists (ARTLeaf key v). split; [done |]. split; [constructor; [done | apply prefix_nil] |].
      intros q w. rewrite mem_leaf_iff. naive_solver. }
  exists (Some n'). unfold insert. fold key. rewrite E. split; [done |]. split; [done |].
  intros k' w Hk'. rewrite !find_mem by done. fold key.
  assert (formattedKey W k' = key ↔ k' = k) as Hkk.
  { split; [intros Eq; by apply (formattedKey_inj W) | by intros ->]. }
  assert ((∀ w0, find W root k ≠ Ok (Some w0)) ↔ ∀ n w0, root = Some n → ¬ mem n key w0) as Hno.
  { split; intros Hn.
    - intros n w0 Hr Hm. apply (Hn w0). apply find_mem; [done |]. eauto.
    - intros w0 (n & Hr & Hm)%find_mem; [| done]. by apply (Hn n w0). }
  rewrite Hno, <- Hkk. split.
  - intros (n & [= <-] & Hm). by apply Hadd in Hm.
  - intros H. exists n'. split; [done |]. by apply Hadd.
Qed.

(** [find] on a well-formed tree either returns, or dereferences the null child. *)
Lemma find_total root k e : root_inv W root → find W root k = Err e → e = Undefined.
Proof.
  intros Hinv. destruct root as [n |]; [| done]. unfold find.
  destruct (getByKey_ok W [] n Hinv (formattedKey W k) (S W)) as [_ H];
    [apply formattedKey_valid | apply prefix_nil | simpl; lia | apply H].
Qed.

End keys.

(** Inserting a key into a well-formed radix tree over [W]-byte keys always succeeds and
    keeps the tree well formed; afterwards a lookup of the key finds the value it had before
    if it had one and the new value otherwise, and a lookup of any other key finds exactly
    what it found before. *)
Theorem art_insert_find {V} (W : nat) (root : option (ARTNode V)) (k : Z) (v : V) :
  root_inv W root → in_key W k →
  ∃ root', insert W false root k v = Ok (true, root') ∧ root_inv W root' ∧
    (∀ w, find W root k = Ok (Some w) → find W root' k = Ok (Some w)) ∧
    ((∀ w, find W root k ≠ Ok (Some w)) → find W root' k = Ok (Some v)) ∧
    ∀ k' w, in_key W k' → k' ≠ k → find W root' k' = Ok (Some w) ↔ find W root k' = Ok (Some w).
Proof.
  intros Hinv Hk. destruct (insert_step W root k v Hinv Hk) as (root' & E & Hinv' & Hf).
  exists root'. split; [done |]. split; [done |].
  split; [intros w Hw; apply Hf; [done | by left] |].
  split; [intros Hno; apply Hf; [done | by right] |].
  intros k' w Hk' Hne. rewrite Hf by done. naive_solver.
Qed.


(** ** Instances of the theorems *)

(** Two-byte keys; 513 is inserted twice, 258 and 2 share a first byte. *)
Definition ex_kvs : list (Z * Z) := [(513, 1); (258, 2); (513, 3); (2, 4); (770, 5); (1026, 6)].

Lemma ex_kvs_keys : Forall (λ kv, in_key 2 kv.1) ex_kvs.
Proof. repeat constructor; vm_compute; (discriminate || reflexivity). Qed.


Lemma art_insert_find_witness : ∃ root', insert (V := Z) 2 false None 513 1 = Ok (true, root') ∧
  find 2 root' 513 = Ok (Some 1).
Proof.
  destruct (art_insert_find (V := Z) 2 None 513 1) as (root' & E & _ & _ & Hnew & _).
  - exact I.
  - split; vm_compute; (discriminate || reflexivity).
  - exists root'. split; [exact E |]. apply Hnew. intros w. discriminate.
Defined.

(** A lookup whose path ends in a missing child dereferences a null node. *)
Example missing_child_is_dereferenced :
  (do (_, r1) <- insert (V := Z) 2 false None 513 1;
   do (_, r2) <- insert 2 false r1 258 2;
   find 2 r2 3) = Err Undefined.
Proof. reflexivity. Qed.

End Art.
