(* ===== verification/OptLock.v ===== *)
(** * OptLock: the version lock of the radix tree's nodes
    ([typeVersionLockObsolete] of [ARTNode] in [oltp/index/ART/art_node.hpp]).

    Bit 0 of the word marks a node as obsolete, bit 1 as locked; the rest counts write
    sections.  Readers load the word, read the node optimistically and compare the word again;
    a writer turns its read into a write section with a compare-and-swap.  [Module OptLock]
    has the operations of the word, and their interleavings by any number of threads with a
    count of the write sections entered so far. *)

From S2P Require Import Prelude.
From Stdlib Require Import ZArith Lia Bool.
From stdpp Require Import base numbers list relations.

Local Open Scope Z_scope.

Module OptLock.

Definition version_init : Z := 4.

Definition isLocked (version : Z) : bool := Z.land version 2 =? 2.
Definition isObsolete (version : Z) : bool := Z.land version 1 =? 1.

(** The version read and [needRestart]. *)
Definition readLockOrRestart (w : Z) : Z * bool := (w, isLocked w || isObsolete w).

(** The new word, the caller's version and [needRestart]. *)
Definition upgradeToWriteLockOrRestart (w version : Z) : Z * Z * bool :=
  if w =? version then (u64 (version + 2), u64 (version + 2), false) else (w, w, true).

Definition writeLockOrRestart (w : Z) : Z * bool :=
  let '(version, needRestart) := readLockOrRestart w in
  if needRestart then (w, true)
  else let '(w', _, r) := upgradeToWriteLockOrRestart w version in (w', r).

Definition writeUnlock (w : Z) : Z := u64 (w + 2).
Definition writeUnlockObsolete (w : Z) : Z := u64 (w + 3).

(** [needRestart] *)
Definition readUnlockOrRestart (w startRead : Z) : bool := negb (startRead =? w).

(** ** Interleavings *)

(** A reader remembers how many write sections had been entered when it read. *)
Inductive pc : Type :=
  | Idle
  | Reading (version : Z) (sections_seen : Z)
  | Writing.

Record state : Type := mk { threads : list pc; word : Z; sections : Z }.

Definition put (s : state) (t : nat) (c : pc) (w n : Z) : state := mk (<[t := c]> (threads s)) w n.

(** A thread that has to restart starts over. *)
Definition do_read (s : state) (t : nat) : state :=
  let '(v, r) := readLockOrRestart (word s) in
  put s t (if r then Idle else Reading v (sections s)) (word s) (sections s).

Definition do_upgrade (s : state) (t : nat) (v : Z) : state :=
  let '(w, _, r) := upgradeToWriteLockOrRestart (word s) v in
  if r then put s t Idle w (sections s) else put s t Writing w (sections s + 1).

Inductive step : state → state → Prop :=
  | step_read s t : threads s !! t = Some Idle → step s (do_read s t)
  | step_done s t v n : threads s !! t = Some (Reading v n) →
      step s (put s t Idle (word s) (sections s))
  | step_upgrade s t v n : threads s !! t = Some (Reading v n) → step s (do_upgrade s t v)
  | step_unlock s t : threads s !! t = Some Writing →
      step s (put s t Idle (writeUnlock (word s)) (sections s))
  | step_unlock_obsolete s t : threads s !! t = Some Writing →
      step s (put s t Idle (writeUnlockObsolete (word s)) (sections s)).

Definition init (n : nat) : state := mk (replicate n Idle) version_init 0.

Definition writing (c : pc) : bool := match c with Writing => true | _ => false end.

(** ** The word counts *)

(** [w] after [n] sections, [h] of them open, and [o] when obsolete. *)
Definition word_of (n h o : Z) : Z := 4 + 4 * (n - h) + 2 * h + o.

Lemma isLocked_bit v : isLocked v = Z.testbit v 1.
Proof.
  unfold isLocked. assert (Z.land v 2 = if Z.testbit v 1 then 2 else 0) as ->.
  { apply Z.bits_inj'. intros i Hi. rewrite Z.land_spec. change 2 with (2 ^ 1) at 1.
    rewrite Z.pow2_bits_eqb by lia. destruct (Z.eqb_spec 1 i) as [<- | Hne].
    - by destruct (Z.testbit v 1).
    - rewrite andb_false_r. destruct (Z.testbit v 1); [| by rewrite Z.bits_0].
      change 2 with (2 ^ 1). by rewrite Z.pow2_bits_eqb, (proj2 (Z.eqb_neq 1 i)) by lia. }
  by destruct (Z.testbit v 1).
Qed.

Lemma isObsolete_bit v : isObsolete v = Z.testbit v 0.
Proof.
  unfold isObsolete. change 1 with (Z.ones 1) at 1. rewrite Z.land_ones by lia.
  rewrite Z.testbit_eqb by lia. by rewrite Z.pow_0_r, Z.div_1_r, Z.pow_1_r.
Qed.

Lemma word_of_bits n h o : 0 <= h <= 1 → 0 <= o <= 1 →
  isLocked (word_of n h o) = (h =? 1) ∧ isObsolete (word_of n h o) = (o =? 1).
Proof.
  intros Hh Ho. rewrite isLocked_bit, isObsolete_bit, !Z.testbit_eqb by lia.
  unfold word_of. set (m := n - h). rewrite Z.pow_1_r, Z.pow_0_r, Z.div_1_r.
  replace (4 + 4 * m + 2 * h + o) with (o + (h + (1 + m) * 2) * 2) by lia.
  rewrite Z.mod_add, Z.div_add by lia. rewrite (Z.div_small o 2), Z.add_0_l, Z.mod_add by lia.
  by rewrite !Z.mod_small by lia.
Qed.

Record inv (s : state) : Prop := mk_inv {
  inv_word : ∃ h o, 0 <= h <= 1 ∧ 0 <= o <= 1 ∧ h * o = 0 ∧ h <= sections s ∧
    word s = word_of (sections s) h o ∧ count_if writing (threads s) = h;
  inv_read t v n : threads s !! t = Some (Reading v n) → 0 <= n <= sections s ∧ v = word_of n 0 0
}.

(** Replacing the state of one thread. *)
Lemma word_put_inv s t a c h o w n : inv s → threads s !! t = Some a → sections s <= n →
  0 <= h <= 1 → 0 <= o <= 1 → h * o = 0 → h <= n → w = word_of n h o →
  count_if writing (threads s) - (if writing a then 1 else 0) + (if writing c then 1 else 0) = h →
  (∀ v k, c = Reading v k → 0 <= k <= n ∧ v = word_of k 0 0) → inv (put s t c w n).
Proof.
  intros [Hw Hr] Ha Hn Hh Ho Hho Hhn -> Hc Hcr. split; cbn [put threads word sections].
  - exists h, o. by rewrite (count_if_insert writing _ _ _ _ Ha).
  - intros u v k Hu. apply list_lookup_insert_Some in Hu as [(<- & Hv & _) | [_ Hu]]; [by apply Hcr |].
    destruct (Hr u v k Hu) as [Hk ->]. split; [lia | done].
Qed.

Lemma word_init_inv n : inv (init n).
Proof.
  split; cbn [init threads word sections].
  - exists 0, 0. repeat split; try lia. induction n as [| n IH]; [done |]. simpl. by rewrite count_if_cons.
  - intros t v k H. by apply lookup_replicate in H as [H _].
Qed.

(** No overflow of the word while fewer than 2^61 write sections were entered. *)
Lemma word_step_inv s s' : inv s → sections s' < 2 ^ 61 → step s s' → inv s'.
Proof.
  intros Hinv Hsmall Hs. pose proof Hinv as [(h & o & Hh & Ho & Hho & Hhn & Hw & Hc) Hr].
  destruct (word_of_bits (sections s) h o Hh Ho) as [El Eo]. rewrite <- Hw in El, Eo.
  assert (∀ t c, threads s !! t = Some c → writing c = true → h = 1) as Hopen.
  { intros t c Ht Hwc. assert (0 < count_if writing (threads s)); [| lia]. apply count_if_pos.
    exists c. split; [by eapply list_elem_of_lookup_2 | done]. }
  destruct Hs as [s t Ht | s t v n Ht | s t v n Ht | s t Ht | s t Ht].
  - unfold do_read, readLockOrRestart. rewrite El, Eo.
    eapply word_put_inv; [done | done | lia | exact Hh | exact Ho | done | done | done | |].
    + destruct (_ || _); cbn [writing]; lia.
    + intros v k. destruct (Z.eqb_spec h 1), (Z.eqb_spec o 1); try done. intros [= <- <-].
      split; [lia |]. assert (h = 0) as -> by lia. by assert (o = 0) as -> by lia.
  - eapply word_put_inv; [done | done | lia | exact Hh | exact Ho | done | done | done | cbn [writing]; lia | done].
  - destruct (Hr t v n Ht) as [Hn Hv]. unfold do_upgrade, upgradeToWriteLockOrRestart in *.
    destruct (Z.eqb_spec (word s) v) as [E | Hne].
    + rewrite E in Hw. subst v. cbn [put sections] in Hsmall. unfold word_of in *.
      assert (h = 0 ∧ o = 0 ∧ n = sections s) as (-> & -> & ->) by lia.
      eapply (word_put_inv s t _ Writing 1 0); try done; try lia.
      * unfold word_of. rewrite wrap_id; lia.
      * cbn [writing]. lia.
    + eapply word_put_inv; [done | done | lia | exact Hh | exact Ho | done | done | done | cbn [writing]; lia | done].
  - specialize (Hopen t _ Ht eq_refl) as ->. assert (o = 0) as -> by lia.
    eapply (word_put_inv s t _ Idle 0 0); try done; try lia; cbn [writing]; [| lia].
    unfold writeUnlock. rewrite Hw. cbn [put sections] in Hsmall. unfold word_of in *. rewrite wrap_id; lia.
  - specialize (Hopen t _ Ht eq_refl) as ->. assert (o = 0) as -> by lia.
    eapply (word_put_inv s t _ Idle 0 1); try done; try lia; cbn [writing]; [| lia].
    unfold writeUnlockObsolete. rewrite Hw. cbn [put sections] in Hsmall. unfold word_of in *. rewrite wrap_id; lia.
Qed.

(** The count of write sections never decreases. *)
Lemma step_sections s s' : step s s' → sections s <= sections s'.
Proof.
  intros []; cbn [put sections do_read]; try lia.
  - unfold do_read. destruct (readLockOrRestart _). simpl. lia.
  - unfold do_upgrade. destruct (upgradeToWriteLockOrRestart _ _) as [[w v'] []]; simpl; lia.
Qed.

Lemma word_reachable_inv n s : rtc step (init n) s → sections s < 2 ^ 61 → inv s.
Proof.
  intros H. revert H. apply (rtc_ind_r (λ s, sections s < 2 ^ 61 → inv s) (init n)).
  - intros _. apply word_init_inv.
  - intros y z _ Hyz IH Hz. pose proof (step_sections _ _ Hyz). eapply word_step_inv; [apply IH; lia | done | done].
Qed.

(** C32: In every interleaving of readers and writers of a node (with fewer than 2^61 write
    sections, so that the version does not wrap) at most one thread is in a write section and
    the lock bit is set exactly then, and a reader whose version still matches when it
    checks knows that no write section was entered since it read and none is open. *)
Theorem optimistic_reads_validate (n : nat) (s : state) :
  rtc step (init n) s → sections s < 2 ^ 61 →
  (∀ t u, threads s !! t = Some Writing → threads s !! u = Some Writing → t = u) ∧
  (isLocked (word s) = true ↔ ∃ t, threads s !! t = Some Writing) ∧
  (∀ t v k, threads s !! t = Some (Reading v k) → readUnlockOrRestart (word s) v = false →
     sections s = k ∧ ∀ u, threads s !! u ≠ Some Writing).
Proof.
  intros Hreach Hsmall. destruct (word_reachable_inv n s Hreach Hsmall) as [(h & o & Hh & Ho & Hho & Hhn & Hw & Hc) Hr].
  assert ((∃ t, threads s !! t = Some Writing) ↔ h = 1) as Hex.
  { rewrite <- Hc in Hh |- *. split.
    - intros (t & Ht). assert (0 < count_if writing (threads s)); [| lia]. apply count_if_pos.
      exists Writing. split; [by eapply list_elem_of_lookup_2 | done].
    - intros E. destruct (proj1 (count_if_pos writing (threads s)) ltac:(lia)) as (c & (t & Ht)%list_elem_of_lookup_1 & Hin).
      destruct c; try discriminate. eauto. }
  split; [| split].
  - intros t u Ht Hu. destruct (decide (t = u)) as [| Hne]; [done |].
    pose proof (count_if_two writing _ _ _ _ _ Hne Ht Hu eq_refl eq_refl). lia.
  - rewrite Hex, Hw. destruct (word_of_bits (sections s) h o Hh Ho) as [-> _]. apply Z.eqb_eq.
  - intros t v k Ht Hval. destruct (Hr t v k Ht) as [Hk ->].
    unfold readUnlockOrRestart in Hval. apply negb_false_iff, Z.eqb_eq in Hval. rewrite Hw in Hval.
    unfold word_of in Hval. split; [lia |]. intros u Hu. assert (h = 1) by (apply Hex; eauto). lia.
Qed.

(** Two threads read; the second turns its read into a write section. *)
Definition ex_state : state := mk [Reading 4 0; Writing] 6 1.

Lemma ex_word_reachable : rtc step (init 2) ex_state.
Proof.
  eapply rtc_l; [by apply (step_read (init 2) 0) |].
  eapply rtc_l; [by apply (step_read _ 1) |].
  eapply rtc_l; [by apply (step_upgrade _ 1 4 0) |].
  apply rtc_refl.
Qed.

Lemma optimistic_reads_validate_witness :
  isLocked (word ex_state) = true ↔ ∃ t, threads ex_state !! t = Some Writing.
Proof. apply (optimistic_reads_validate 2 ex_state ex_word_reachable). reflexivity. Defined.

End OptLock.
