(* ===== verification/Executor.v ===== *)
(** * Executor: how a transaction runs against the delta stores
    ([TransactionManager::execute] and [executeFullQueue] in
    [lib/transactions/transaction_manager.cpp] and the delta operations of [Schema] in
    [oltp/storage/schema.hpp]), with the one-shot collector.

    Before its body runs, a worker registers with the delta store its transaction will
    allocate versions from; a worker that runs a queue stays registered and moves on when
    its transactions switch to the next store.  The theorems show the registration that the
    collector's safety rests on. *)

From S2P Require Import Prelude Common StorageUtils Transaction DeltaPtr DeltaStore CircularDeltaStore.
From Stdlib Require Import ZArith Lia Bool.
From stdpp Require Import base numbers list gmap sets.

Local Open Scope Z_scope.
Local Open Scope res_scope.

Module Executor.
Import Txns CircularDeltaStore.

(** [Schema::deltaStore] *)
Abbreviation deltas := (list store).

Definition on_store (ds : deltas) (ver : delta_id_t) (f : store → res store) : res deltas :=
  check ver <? num_delta_storages OneShot else AssertFailed;
  do s <- of_option Undefined (ds !! Z.to_nat ver);
  do s' <- f s;
  Ok (<[Z.to_nat ver := s']> ds).

Definition add_active_txn (ver : delta_id_t) (epoch : xid_t) (t : tid) (ds : deltas) : res deltas :=
  on_store ds ver (increment_reader t epoch).

(** [spurious]: whether the weak exchange of the collection this may start fails. *)
Definition remove_active_txn (spurious : bool) (tm : TransactionManager) (ver : delta_id_t)
    (ds : deltas) : res deltas :=
  on_store ds ver (decrement_reader false spurious tm).

Definition update_delta_epoch (ver : delta_id_t) (epoch : xid_t) (t : tid) (ds : deltas) : res deltas :=
  on_store ds ver (update_active_epoch t epoch).

Definition switch_delta (spurious : bool) (tm : TransactionManager) (prev curr : delta_id_t)
    (epoch : xid_t) (t : tid) (ds : deltas) : res deltas :=
  check prev <? num_delta_storages OneShot else AssertFailed;
  check curr <? num_delta_storages OneShot else AssertFailed;
  if prev =? curr then update_delta_epoch prev epoch t ds
  else
    do ds1 <- remove_active_txn spurious tm prev ds;
    add_active_txn curr epoch t ds1.

Definition try_GC_all_partitions (spurious : bool) (tm : TransactionManager) (ds : deltas) : res deltas :=
  rmapM (GC false spurious tm) ds.

(** The registration of [executeFullQueue]; [current_delta_id] is a variable of the thread
    that starts at -1. *)
Definition register (spurious : bool) (tm : TransactionManager) (t : tid) (txn : Txn)
    (current_delta_id : Z) (ds : deltas) : res (Z * deltas) :=
  let txn_st_time := txn_start_time (txnTs txn) in
  if read_only txn && negb (current_delta_id =? -1) then
    do ds' <- remove_active_txn spurious tm current_delta_id ds;
    Ok (-1, ds')
  else if current_delta_id =? -1 then
    do ds' <- add_active_txn (delta_version txn) txn_st_time t ds;
    Ok (delta_version txn, ds')
  else if negb (current_delta_id =? delta_version txn) then
    do ds' <- switch_delta spurious tm current_delta_id (delta_version txn) txn_st_time t ds;
    Ok (delta_version txn, ds')
  else
    do ds' <- update_delta_epoch current_delta_id txn_st_time t ds;
    Ok (current_delta_id, ds').

(** [tx]: the body of the stored procedure, run on the delta stores. *)
Definition executeFullQueue {A : Type} (spurious : bool) (tx : deltas → Txn → res (A * deltas))
    (m : TransactionManager) (me p : nat) (workerId : worker_id_t) (partitionId : partition_id_t)
    (readOnly : bool) (current_delta_id : Z) (ds : deltas)
  : res (A * TransactionManager * Z * deltas) :=
  do (txn, m1) <- beginTxn OneShot m me p workerId partitionId readOnly;
  do (cur, ds1) <- register spurious m1 me txn current_delta_id ds;
  do (success, ds2) <- tx ds1 txn;
  do m2 <- endTxn_at OneShot m1 me p txn;
  do ds3 <- (if read_only txn then try_GC_all_partitions spurious m2 ds2 else Ok ds2);
  Ok (success, m2, cur, ds3).

Definition execute {A : Type} (spurious : bool) (tx : deltas → Txn → res (A * deltas))
    (m : TransactionManager) (me p : nat) (workerId : worker_id_t) (partitionId : partition_id_t)
    (readOnly : bool) (ds : deltas) : res (A * TransactionManager * deltas) :=
  do (txn, m1) <- beginTxn OneShot m me p workerId partitionId readOnly;
  do ds1 <- (if negb readOnly
             then add_active_txn (delta_version txn) (txn_start_time (txnTs txn)) me ds else Ok ds);
  do (success, ds2) <- tx ds1 txn;
  do m2 <- endTxn_at OneShot m1 me p txn;
  do ds3 <- (if negb readOnly then remove_active_txn spurious m2 (delta_version txn) ds2 else Ok ds2);
  Ok (success, m2, ds3).

(** ** What a worker's registration means *)

(** Worker [t] is counted in store [cur] and in no other ([-1]: in none); [others] counts the
    registrations of the other workers; [t] has registered no epoch beyond [e]. *)
Record registered (t : tid) (cur : Z) (others : nat → Z) (e : Z) (ds : deltas) : Prop := mk_registered {
  reg_len : length ds = 4%nat;
  reg_cur : cur = -1 ∨ 0 <= cur < 4;
  reg_count i s : ds !! i = Some s → 0 <= others i ∧
    readers s = others i + (if Z.of_nat i =? cur then 1 else 0);
  reg_meta i s : ds !! i = Some s → ∃ j m, getMeta_threadLocal t s = Ok (j, m) ∧ max_active_epoch m <= e
}.

(** The transaction's store has its start time on record and is held by a reader. *)
Definition covered (ds : deltas) (txn : Txn) : bool :=
  match ds !! Z.to_nat (delta_version txn) with
  | Some s => (txn_start_time (txnTs txn) <=? getMaxActiveEpoch s) && (0 <? readers s)
  | None => false
  end.

(** ** One store *)

(** The thread's epoch in a store. *)
Definition epoch_within (t : tid) (e : Z) (s : store) : Prop :=
  ∃ j m, getMeta_threadLocal t s = Ok (j, m) ∧ max_active_epoch m <= e.

Lemma epoch_within_mono t e e' s : epoch_within t e s → e <= e' → epoch_within t e' s.
Proof. intros (j & m & Hm & Hle) He. exists j, m. split; [done | lia]. Qed.

Lemma update_ok t e st s : epoch_within t e s → e <= st → 0 <= st →
  ∃ s', update_active_epoch t st s = Ok s' ∧ readers s' = readers s ∧
    st <= getMaxActiveEpoch s' ∧ epoch_within t st s'.
Proof.
  intros (j & m & Hm & Hle) He Hst. unfold update_active_epoch.
  destruct (set_epoch t st s) as [s' | er] eqn:E.
  - exists s'. split; [done |]. pose proof (set_epoch_max t st s s' j m E Hm ltac:(lia) Hst) as Hmax.
    unfold set_epoch in E. rewrite Hm in E. cbn [rbind] in E. injection E as <-. split; [done |]. split; [lia |].
    unfold getMeta_threadLocal in Hm. res_inv.
    exists j, (mk_meta st (min_version_ts m)). unfold getMeta_threadLocal, with_meta.
    cbn [threadlocal_meta meta_per_thread].
    match goal with H : threadlocal_meta s !! t = Some _ |- _ => rewrite H end. cbn [of_option rbind].
    rewrite list_lookup_insert_eq by (by eapply lookup_lt_Some). cbn [of_option rbind max_active_epoch].
    split; [done | lia].
  - unfold set_epoch in E. by rewrite Hm in E.
Qed.

Lemma increment_ok t e st s : 0 <= readers s → epoch_within t e s → e <= st → 0 <= st →
  ∃ s', increment_reader t st s = Ok s' ∧ readers s' = readers s + 1 ∧
    st <= getMaxActiveEpoch s' ∧ epoch_within t st s'.
Proof.
  intros Hr (j & m & Hm & Hle) He Hst. unfold increment_reader. rewrite (proj2 (Z.ltb_ge _ 0)) by lia.
  cbn [negb]. set (s1 := with_readers s (readers s + 1)).
  assert (getMeta_threadLocal t s1 = Ok (j, m)) as Hm1 by exact Hm. rewrite Hm1. cbn [rbind].
  destruct (Z.ltb_spec (max_active_epoch m) st) as [Hlt | Hge].
  - destruct (update_ok t e st s1) as (s' & E & Hr' & Hmax & Hw); [by exists j, m | lia | lia |].
    exists s'. unfold update_active_epoch in E. done.
  - exists s1. split; [done |]. split; [done |]. assert (max_active_epoch m = st) as <- by lia. split.
    + apply (max_epoch_bound s1). unfold getMeta_threadLocal in Hm. res_inv. by eapply list_elem_of_lookup_2.
    + by exists j, m.
Qed.

Lemma GC_ok t e spurious tm mn s : get_min_activeTxn tm = Ok mn → epoch_within t e s →
  ∃ s', GC false spurious tm s = Ok s' ∧ readers s' = readers s ∧ epoch_within t e s'.
Proof.
  intros Hmn Hw. unfold GC. destruct (Z.eqb_spec (readers s) 0) as [H0 | Hne]; cbn [andb]; [| by eauto].
  destruct spurious; cbn [negb]; [by eauto |].
  unfold impl_gc_simple, should_gc. rewrite Hmn. cbn [rbind]. eexists. split; [done |].
  split; [by rewrite H0; destruct (_ <? _) |].
  destruct Hw as (j & m & Hm & Hle). unfold getMeta_threadLocal in Hm. res_inv.
  match goal with H : meta_per_thread s !! _ = Some _ |- _ => rename H into Hl end.
  match goal with H : threadlocal_meta s !! t = Some _ |- _ => rename H into Ht end.
  destruct (_ <? _).
  - exists j, (mk_meta (max_active_epoch m) UINT64_MAX). unfold getMeta_threadLocal. simpl.
    rewrite Ht. simpl. rewrite list_lookup_fmap, Hl. simpl. done.
  - exists j, m. unfold getMeta_threadLocal. simpl. rewrite Ht. simpl. rewrite Hl. done.
Qed.

Lemma decrement_ok t e spurious tm mn s : get_min_activeTxn tm = Ok mn → epoch_within t e s →
  ∃ s', decrement_reader false spurious tm s = Ok s' ∧ readers s' = readers s - 1 ∧ epoch_within t e s'.
Proof.
  intros Hmn (j & m & Hm & Hle). unfold decrement_reader. set (s1 := with_readers s (readers s - 1)).
  assert (epoch_within t e s1) as Hw by (by exists j, m).
  destruct (Z.eqb_spec (readers s) 1) as [H1 | Hne]; [| by exists s1].
  destruct (GC_ok t e spurious tm mn s1 Hmn Hw) as (s' & E & Hr & Hw'). exists s'. done.
Qed.

(** ** All stores *)

(** An operation on one store moves the worker from [cur] to [cur'] if the counter of the
    store changes accordingly. *)
Lemma on_store_ok t cur cur' others e e' ds ver f :
  registered t cur others e ds → 0 <= ver < 4 → e <= e' → (cur' = -1 ∨ 0 <= cur' < 4) →
  (∀ i, 0 <= i → i ≠ ver → (i =? cur) = (i =? cur')) →
  (∀ s, ds !! Z.to_nat ver = Some s → epoch_within t e s → 0 <= readers s →
     ∃ s', f s = Ok s' ∧ epoch_within t e' s' ∧
       readers s' = readers s - (if ver =? cur then 1 else 0) + (if ver =? cur' then 1 else 0)) →
  ∃ s s' ds', ds !! Z.to_nat ver = Some s ∧ f s = Ok s' ∧ on_store ds ver f = Ok ds' ∧
    ds' = <[Z.to_nat ver := s']> ds ∧ registered t cur' others e' ds'.
Proof.
  intros [Hl Hc Hn Hm] Hv He Hc' Hsame Hf. unfold on_store.
  rewrite (proj2 (Z.ltb_lt _ _)) by (vm_compute num_delta_storages; lia).
  destruct (lookup_lt_is_Some_2 ds (Z.to_nat ver)) as [s Hs]; [lia |].
  destruct (Hn _ _ Hs) as [Ho Hr]. rewrite Z2Nat.id in Hr by lia.
  destruct (Hf s Hs (Hm _ _ Hs)) as (s' & E & Hw & Hr'); [destruct (ver =? cur); lia |].
  exists s, s', (<[Z.to_nat ver := s']> ds). rewrite Hs. cbn [of_option rbind]. rewrite E.
  split; [done |]. split; [done |]. split; [done |]. split; [done |]. split.
  - by rewrite length_insert.
  - done.
  - intros i x Hi. apply list_lookup_insert_Some in Hi as [(<- & <- & _) | [Hne Hi]].
    + split; [done |]. rewrite Z2Nat.id by lia. destruct (ver =? cur), (ver =? cur'); lia.
    + destruct (Hn i x Hi) as [Hoi Hri]. split; [done |]. rewrite <- Hsame by lia. done.
  - intros i x Hi. apply list_lookup_insert_Some in Hi as [(<- & <- & _) | [Hne Hi]]; [done |].
    eapply epoch_within_mono; [by apply (Hm i) | done].
Qed.

Section registration.
Context (spurious : bool) (tm : TransactionManager) (mn : Z) (t : tid) (txn : Txn)
  (others : nat → Z) (e : Z).
Hypothesis (Hmn : get_min_activeTxn tm = Ok mn) (Hdv : 0 <= delta_version txn < 4)
  (Hst : 0 <= txn_start_time (txnTs txn)) (He : e <= txn_start_time (txnTs txn)).

Lemma remove_ok cur ds : registered t cur others e ds → 0 <= cur < 4 →
  ∃ ds', remove_active_txn spurious tm cur ds = Ok ds' ∧ registered t (-1) others e ds'.
Proof using Hmn.
  intros Hreg Hc. unfold remove_active_txn.
  destruct (on_store_ok t cur (-1) others e e ds cur (decrement_reader false spurious tm) Hreg Hc)
    as (s & s' & ds' & _ & _ & E & _ & Hreg'); try lia.
  - intros s Hs Hw Hr. destruct (decrement_ok t e spurious tm mn s Hmn Hw) as (s' & E & Hr' & Hw').
    exists s'. split; [done |]. split; [done |]. rewrite Z.eqb_refl, (proj2 (Z.eqb_neq cur (-1))) by lia. lia.
  - eauto.
Qed.

Lemma add_ok ds : registered t (-1) others e ds →
  ∃ ds', add_active_txn (delta_version txn) (txn_start_time (txnTs txn)) t ds = Ok ds' ∧
    registered t (delta_version txn) others (txn_start_time (txnTs txn)) ds' ∧ covered ds' txn = true.
Proof using Hdv Hst He.
  intros Hreg. unfold add_active_txn.
  destruct (on_store_ok t (-1) (delta_version txn) others e (txn_start_time (txnTs txn)) ds (delta_version txn)
    (increment_reader t (txn_start_time (txnTs txn))) Hreg Hdv He) as (s & s' & ds' & Hs & Ef & E & -> & Hreg').
  - by right.
  - intros i Hi Hne. by rewrite (proj2 (Z.eqb_neq i (delta_version txn))), (proj2 (Z.eqb_neq i (-1))) by lia.
  - intros s Hs Hw Hr. destruct (increment_ok t e _ s Hr Hw He Hst) as (s' & E & Hr' & Hmax & Hw').
    exists s'. split; [done |]. split; [done |].
    rewrite Z.eqb_refl, (proj2 (Z.eqb_neq (delta_version txn) (-1))) by lia. lia.
  - eexists. split; [done |]. split; [done |]. unfold covered.
    rewrite list_lookup_insert_eq by (by eapply lookup_lt_Some).
    destruct (reg_count _ _ _ _ _ Hreg _ _ Hs) as [Ho Hr].
    destruct (increment_ok t e _ s ltac:(destruct (_ =? _); lia) (reg_meta _ _ _ _ _ Hreg _ _ Hs) He Hst)
      as (s2 & E2 & Hr2 & Hmax & _).
    rewrite Ef in E2. injection E2 as <-.
    rewrite (proj2 (Z.leb_le _ _) Hmax), (proj2 (Z.ltb_lt _ _)); [done |]. destruct (_ =? _); lia.
Qed.

Lemma registered_mono cur e' ds : registered t cur others e ds → e <= e' → registered t cur others e' ds.
Proof using.
  intros [H1 H2 H3 H4] Hle. split; try done. intros i s Hi. eapply epoch_within_mono; [by apply (H4 i) | done].
Qed.

Lemma update_epoch_ok ds : registered t (delta_version txn) others e ds →
  ∃ ds', update_delta_epoch (delta_version txn) (txn_start_time (txnTs txn)) t ds = Ok ds' ∧
    registered t (delta_version txn) others (txn_start_time (txnTs txn)) ds' ∧ covered ds' txn = true.
Proof using Hdv Hst He.
  intros Hreg. unfold update_delta_epoch.
  destruct (on_store_ok t (delta_version txn) (delta_version txn) others e (txn_start_time (txnTs txn)) ds
    (delta_version txn) (update_active_epoch t (txn_start_time (txnTs txn))) Hreg Hdv He)
    as (s & s' & ds' & Hs & Ef & E & -> & Hreg').
  - by right.
  - done.
  - intros s Hs Hw Hr. destruct (update_ok t e _ s Hw He Hst) as (s' & E & Hr' & Hmax & Hw').
    exists s'. split; [done |]. split; [done |]. lia.
  - eexists. split; [done |]. split; [done |]. unfold covered.
    rewrite list_lookup_insert_eq by (by eapply lookup_lt_Some).
    destruct (reg_count _ _ _ _ _ Hreg _ _ Hs) as [Ho Hr]. rewrite Z2Nat.id, Z.eqb_refl in Hr by lia.
    destruct (update_ok t e _ s (reg_meta _ _ _ _ _ Hreg _ _ Hs) He Hst) as (s2 & E2 & Hr2 & Hmax & _).
    rewrite Ef in E2. injection E2 as <-.
    by rewrite (proj2 (Z.leb_le _ _) Hmax), (proj2 (Z.ltb_lt _ _)) by lia.
Qed.

Lemma register_ok cur ds : registered t cur others e ds →
  ∃ cur' ds', register spurious tm t txn cur ds = Ok (cur', ds') ∧
    registered t cur' others (txn_start_time (txnTs txn)) ds' ∧
    (read_only txn = false → cur' = delta_version txn ∧ covered ds' txn = true) ∧
    (read_only txn = true → cur ≠ -1 → cur' = -1).
Proof using Hmn Hdv Hst He.
  intros Hreg. unfold register. destruct (reg_cur _ _ _ _ _ Hreg) as [-> | Hc].
  - rewrite Z.eqb_refl, andb_false_r. destruct (add_ok ds Hreg) as (ds' & -> & Hreg' & Hcov).
    cbn [rbind]. eexists _, _. split; [done |]. split; [done |]. split; [by intros _ | done].
  - rewrite (proj2 (Z.eqb_neq cur (-1))) by lia. cbn [negb]. rewrite andb_true_r.
    destruct (read_only txn) eqn:Ero.
    + destruct (remove_ok cur ds Hreg Hc) as (ds' & -> & Hreg'). cbn [rbind]. eexists _, _. split; [done |].
      split; [by eapply registered_mono |]. by split.
    + destruct (Z.eqb_spec cur (delta_version txn)) as [-> | Hne]; cbn [negb].
      * destruct (update_epoch_ok ds Hreg) as (ds' & -> & Hreg' & Hcov). cbn [rbind]. eexists _, _.
        split; [done |]. split; [done |]. split; [by intros _ | done].
      * unfold switch_delta. rewrite !(proj2 (Z.ltb_lt _ _)) by (vm_compute num_delta_storages; lia).
        rewrite (proj2 (Z.eqb_neq _ _) Hne).
        destruct (remove_ok cur ds Hreg Hc) as (ds1 & -> & Hreg1). cbn [rbind].
        destruct (add_ok ds1 Hreg1) as (ds' & -> & Hreg' & Hcov). cbn [rbind]. eexists _, _.
        split; [done |]. split; [done |]. split; [by intros _ | done].
Qed.

End registration.

(** ** The registry during a transaction *)

Lemma rmapM_registered (tb : gmap nat TxnTable) p tbl l k :
  rmapM (λ q, of_option Undefined (tb !! q)) l = Ok k →
  ∃ k', rmapM (λ q, of_option Undefined (<[p := tbl]> tb !! q)) l = Ok k'.
Proof.
  revert k. induction l as [| q l IH]; intros k Hk; simpl in *; [by eauto |].
  apply rbind_Ok_inv in Hk as (y & Hy & (k0 & Hk0 & _)%rbind_Ok_inv). destruct (IH k0 Hk0) as (k' & ->).
  destruct (decide (q = p)) as [-> | Hne].
  - rewrite lookup_insert_eq. simpl. by eauto.
  - rewrite lookup_insert_ne by done. rewrite Hy. simpl. by eauto.
Qed.

(** Beginning a transaction gives it the next start time and keeps the registry readable. *)
Lemma beginTxn_ok m me p tbl wid pid ro mn : tables m !! p = Some tbl → thread_id tbl = me →
  get_min_activeTxn m = Ok mn → 0 <= gen m →
  ∃ txn m1 mn1, beginTxn OneShot m me p wid pid ro = Ok (txn, m1) ∧
    txn_start_time (txnTs txn) = gen m ∧ read_only txn = ro ∧ 0 <= delta_version txn < 4 ∧
    get_min_activeTxn m1 = Ok mn1.
Proof.
  intros Ht Hme Hmn Hg. unfold beginTxn, getTxn, get_txnID_startTime_Pair, publish.
  cbn [with_gen tables]. rewrite Ht. cbn [of_option rbind]. rewrite Hme, Nat.eqb_refl. cbn [rbind].
  unfold get_min_activeTxn in Hmn. apply rbind_Ok_inv in Hmn as (l & Hl & _).
  destruct (rmapM_registered (tables m) p (set_min_active tbl (gen m)) (registry m) l Hl) as (l' & Hl').
  eexists _, _, _. split; [done |]. split; [done |]. split; [done |].
  split; [exact (get_delta_ver_range OneShot (gen m) Hg) |].
  unfold get_min_activeTxn, Txns.registered. cbn [with_table with_gen registry tables Txn_new txnTs txn_start_time].
  rewrite Hl'. done.
Qed.

(** A worker that runs a queue of transactions keeps exactly one registration: starting a
    transaction succeeds and moves the worker to the store of that transaction, with its start
    time on record there and the store held, before the transaction can allocate a version;
    a read-only transaction gives a registration it finds back.  The registrations of the
    other workers are untouched. *)
Theorem writer_registers_first (spurious : bool) (tm : TransactionManager) (mn : Z) (t : tid)
    (txn : Txn) (others : nat → Z) (e cur : Z) (ds : deltas) :
  get_min_activeTxn tm = Ok mn → 0 <= delta_version txn < 4 → 0 <= txn_start_time (txnTs txn) →
  e <= txn_start_time (txnTs txn) → registered t cur others e ds →
  ∃ cur' ds', register spurious tm t txn cur ds = Ok (cur', ds') ∧
    registered t cur' others (txn_start_time (txnTs txn)) ds' ∧
    (read_only txn = false → cur' = delta_version txn ∧ covered ds' txn = true) ∧
    (read_only txn = true → cur ≠ -1 → cur' = -1).
Proof. intros Hmn Hdv Hst He. by apply (register_ok spurious tm mn t txn others e Hmn Hdv Hst He). Qed.


(** ** Instances of the theorems *)

(** Four stores that thread 7 has initialised; a manager with one registered table. *)
Definition ex_stores : deltas :=
  (λ i, mk (Z.of_nat i) 1 [] [meta2_new] {[ 7%nat := 0%nat ]} 0 0 0 0) <$> seq 0 4.
Definition ex_manager : TransactionManager := mk_Mgr 0 ∅ [3%nat] 9 {[ 3%nat := TxnTable_new 0 7 ]}.
Definition ex_txn : Txn := Txn_new OneShot (mk_TxnTs 9 9) 0 0 0 false.

Lemma ex_registered : registered 7 (-1) (λ _, 0) 0 ex_stores.
Proof.
  split; [done | by left | |].
  - intros i s Hi. split; [done |]. unfold ex_stores in Hi. apply list_lookup_fmap_Some in Hi as (j & -> & _).
    rewrite (proj2 (Z.eqb_neq (Z.of_nat i) (-1))) by lia. done.
  - intros i s Hi. unfold ex_stores in Hi. apply list_lookup_fmap_Some in Hi as (j & -> & _).
    exists 0%nat, meta2_new. split; [| done]. unfold getMeta_threadLocal. cbn [threadlocal_meta].
    by rewrite lookup_singleton_eq.
Qed.

Lemma writer_registers_first_witness :
  ∃ cur' ds', register false ex_manager 7 ex_txn (-1) ex_stores = Ok (cur', ds') ∧ covered ds' ex_txn = true.
Proof.
  destruct (writer_registers_first false ex_manager UINT64_MAX 7 ex_txn (λ _, 0) 0 (-1) ex_stores)
    as (cur' & ds' & E & _ & Hrw & _).
  - vm_compute. reflexivity.
  - vm_compute. split; [discriminate | reflexivity].
  - vm_compute. discriminate.
  - vm_compute. discriminate.
  - exact ex_registered.
  - exists cur', ds'. split; [exact E |]. apply Hrw. reflexivity.
Defined.


End Executor.
