(* ===== verification/HashArray.v ===== *)
(** * HashArray: the array index of the tables ([HashArray<uint64_t, void*>] in
    [oltp/index/hash-array.hpp] and [lib/index/hash-array.cpp]).

    A key is split into a partition and a slot; the slot holds a pointer, 0 when empty.  The
    build has [PARTITIONED_INDEX]. *)

From S2P Require Import Prelude Common.
From Stdlib Require Import ZArith Lia Bool.
From stdpp Require Import base numbers list.

Local Open Scope Z_scope.
Local Open Scope res_scope.

Module HashArray.

(** [arr[pid][idx]] *)
Record HashArray : Type := mk {
  arr : list (list Z);
  capacity : Z;
  capacity_per_partition : Z;
  partitions : Z                              (* uint8_t *)
}.

Definition zeroed (cpp g : Z) : list (list Z) :=
  replicate (Z.to_nat g) (replicate (Z.to_nat cpp) 0).

(** The two constructors; [g] is [g_num_partitions]. *)
Definition HashArray_new (g reserved_capacity : Z) : HashArray :=
  let cpp := u64 (reserved_capacity / g + reserved_capacity mod g) in
  mk (zeroed cpp g) (u64 (cpp * g)) cpp g.

Definition HashArray_new_per_partition (g cpp reserved_capacity : Z) : res HashArray :=
  let cap := u64 (cpp * g) in
  check negb (cap <? reserved_capacity) else Fatal;
  Ok (mk (zeroed cpp g) cap cpp g).

(** [ushort pid = key / capacity_per_partition;] *)
Definition pid_of (h : HashArray) (key : Z) : Z := u16 (key / capacity_per_partition h).
Definition idx_of (h : HashArray) (key : Z) : Z := key mod capacity_per_partition h.

Definition in_bounds (h : HashArray) (key : Z) : bool :=
  (pid_of h key <? partitions h) && (idx_of h key <? capacity_per_partition h).

Definition slot (h : HashArray) (key : Z) : res Z :=
  do p <- of_option Undefined (arr h !! Z.to_nat (pid_of h key));
  of_option Undefined (p !! Z.to_nat (idx_of h key)).

(** Both overloads of [find]; a capacity of 0 divides by zero. *)
Definition find (h : HashArray) (key : Z) : res Z :=
  check negb (capacity_per_partition h =? 0) else Undefined;
  check in_bounds h key else AssertFailed;
  slot h key.

Definition insert (h : HashArray) (key value : Z) : res (bool * HashArray) :=
  check negb (capacity_per_partition h =? 0) else Undefined;
  check in_bounds h key else Fatal;
  do _ <- slot h key;
  Ok (true, mk (alter (λ p, <[Z.to_nat (idx_of h key) := value]> p) (Z.to_nat (pid_of h key)) (arr h))
               (capacity h) (capacity_per_partition h) (partitions h)).

(** ** The index as a map *)

Definition wf (h : HashArray) : Prop :=
  0 < capacity_per_partition h ∧ 0 < partitions h < 2 ^ 8 ∧
  length (arr h) = Z.to_nat (partitions h) ∧
  (∀ i p, arr h !! i = Some p → length p = Z.to_nat (capacity_per_partition h)).

(** The keys the index was built for. *)
Definition in_keys (h : HashArray) (key : Z) : Prop :=
  0 <= key < capacity_per_partition h * partitions h.

Lemma key_parts h key : wf h → in_keys h key →
  pid_of h key = key / capacity_per_partition h ∧ 0 <= pid_of h key < partitions h ∧
  0 <= idx_of h key < capacity_per_partition h ∧ in_bounds h key = true ∧
  ∃ p v, arr h !! Z.to_nat (pid_of h key) = Some p ∧ p !! Z.to_nat (idx_of h key) = Some v.
Proof.
  intros (Hc & Hp & Hl & Hlen) Hk. unfold in_keys in Hk.
  assert (0 <= key / capacity_per_partition h < partitions h) as Hq.
  { split; [apply Z.div_pos; lia | apply Z.div_lt_upper_bound; lia]. }
  assert (pid_of h key = key / capacity_per_partition h) as E by (apply wrap_id; lia).
  pose proof (Z.mod_pos_bound key (capacity_per_partition h) ltac:(lia)) as Hm. fold (idx_of h key) in Hm.
  rewrite E. split; [done |]. split; [done |]. split; [done |]. split.
  - unfold in_bounds. rewrite E. by rewrite !(proj2 (Z.ltb_lt _ _)) by lia.
  - destruct (lookup_lt_is_Some_2 (arr h) (Z.to_nat (key / capacity_per_partition h))) as [p Hpp]; [lia |].
    destruct (lookup_lt_is_Some_2 p (Z.to_nat (idx_of h key))) as [v Hv]; [rewrite (Hlen _ _ Hpp); lia |].
    eauto.
Qed.

(** Two keys of the index share a slot only if they are equal. *)
Lemma slot_inj h k k' : wf h → in_keys h k → in_keys h k' →
  pid_of h k = pid_of h k' → idx_of h k = idx_of h k' → k = k'.
Proof.
  intros Hwf Hk Hk' Ep Ei. destruct (key_parts h k Hwf Hk) as (E1 & _). destruct (key_parts h k' Hwf Hk') as (E2 & _).
  destruct Hwf as (Hc & _). unfold idx_of in Ei.
  rewrite (Z.div_mod k (capacity_per_partition h)), (Z.div_mod k' (capacity_per_partition h)) by lia. congruence.
Qed.

Lemma insert_slot h k v : wf h → in_keys h k →
  ∃ h', insert h k v = Ok (true, h') ∧ wf h' ∧ (∀ q, in_keys h' q ↔ in_keys h q) ∧
    ∀ q, in_keys h q → find h' q = if q =? k then Ok v else find h q.
Proof.
  intros Hwf Hk. destruct (key_parts h k Hwf Hk) as (_ & Hp & Hi & Hb & p & v0 & Epp & Ev).
  pose proof Hwf as (Hc & Hpar & Hl & Hlen).
  unfold insert. rewrite (proj2 (Z.eqb_neq _ 0)), Hb by lia. unfold slot at 1. rewrite Epp. cbn [of_option rbind negb].
  rewrite Ev. cbn [of_option rbind]. eexists. split; [done |]. split; [| split; [done |]].
  - split; [done |]. split; [done |]. cbn [arr]. split; [by rewrite length_alter |].
    intros i x Hx. destruct (decide (i = Z.to_nat (pid_of h k))) as [-> | Hne].
    + rewrite list_lookup_alter_eq, Epp in Hx. injection Hx as <-. rewrite length_insert. by apply (Hlen _ _ Epp).
    + rewrite list_lookup_alter_ne in Hx by done. by apply (Hlen i).
  - intros q Hq. destruct (key_parts h q Hwf Hq) as (_ & Hpq & Hiq & Hbq & pq & vq & Epq & Evq).
    set (h' := mk _ _ _ _). unfold find. change (in_bounds h' q) with (in_bounds h q). rewrite Hbq.
    change (capacity_per_partition h') with (capacity_per_partition h).
    rewrite (proj2 (Z.eqb_neq _ 0)) by lia. cbn [negb].
    unfold slot. change (pid_of h' q) with (pid_of h q). change (idx_of h' q) with (idx_of h q).
    cbn [arr h']. destruct (Z.eqb_spec q k) as [-> | Hne].
    + rewrite list_lookup_alter_eq, Epp. cbn [fmap option_fmap option_map of_option rbind].
      by rewrite list_lookup_insert_eq by (by eapply lookup_lt_Some).
    + destruct (decide (pid_of h q = pid_of h k)) as [E | Hpn].
      * rewrite E, list_lookup_alter_eq, Epp. cbn [fmap option_fmap option_map of_option rbind].
        rewrite list_lookup_insert_ne; [done |]. intros Ei. apply Hne. apply (slot_inj h); try done. lia.
      * by rewrite list_lookup_alter_ne by lia.
Qed.

(** A fresh index is well formed, holds the reserved keys and maps them to null. *)
Lemma new_ok g cap : 0 < g < 2 ^ 8 → 0 < cap < 2 ^ 55 →
  let h := HashArray_new g cap in
  wf h ∧ (∀ k, 0 <= k < cap → in_keys h k) ∧ ∀ k, in_keys h k → find h k = Ok 0.
Proof.
  intros Hg Hcap h. set (cpp := cap / g + cap mod g).
  pose proof (Z.div_mod cap g ltac:(lia)). pose proof (Z.mod_pos_bound cap g ltac:(lia)).
  assert (0 <= cap / g <= cap) by (split; [apply Z.div_pos; lia | apply Z.div_le_upper_bound; nia]).
  assert (0 < cpp <= cap + g ∧ cap <= cpp * g) as [Hcpp Hcg] by (unfold cpp; nia).
  assert (capacity_per_partition h = cpp) as Ec by (apply wrap_id; lia).
  assert (wf h) as Hwf.
  { split; [lia |]. split; [done |]. unfold h, HashArray_new. cbn [arr partitions]. unfold zeroed. split.
    - apply length_replicate.
    - intros i p Hp. apply lookup_replicate in Hp as [-> _]. apply length_replicate. }
  split; [done |]. split.
  - intros k Hk. unfold in_keys. rewrite Ec. change (partitions h) with g. lia.
  - intros k Hk. destruct (key_parts h k Hwf Hk) as (_ & Hp & Hi & Hb & p & v & Epp & Ev).
    unfold find. rewrite Hb, (proj2 (Z.eqb_neq _ 0)) by lia. cbn [negb]. unfold slot. rewrite Epp. cbn [of_option rbind].
    rewrite Ev. simpl. unfold h, HashArray_new in Epp. cbn [arr] in Epp. unfold zeroed in Epp.
    apply lookup_replicate in Epp as [-> _]. apply lookup_replicate in Ev as [-> _]. done.
Qed.

(** The array index is a map over the keys it was built for: the constructor covers the
    reserved capacity with empty slots, an insert of such a key succeeds and changes what a
    lookup of exactly that key returns. *)
Theorem hash_array_is_a_map (h : HashArray) (k v : Z) :
  wf h → in_keys h k →
  ∃ h', insert h k v = Ok (true, h') ∧ wf h' ∧ (∀ q, in_keys h' q ↔ in_keys h q) ∧
    ∀ q, in_keys h q → find h' q = if q =? k then Ok v else find h q.
Proof. apply insert_slot. Qed.

Definition ex_index : HashArray := HashArray_new 2 5.

Lemma hash_array_is_a_map_witness : ∃ h', insert ex_index 4 77 = Ok (true, h') ∧ find h' 4 = Ok 77.
Proof.
  destruct (hash_array_is_a_map ex_index 4 77) as (h' & E & _ & _ & Hf).
  - apply (new_ok 2 5); lia.
  - split; vm_compute; [discriminate | reflexivity].
  - exists h'. split; [exact E |]. rewrite Hf; [reflexivity |]. split; vm_compute; [discriminate | reflexivity].
Defined.

(** The partition number is truncated to 16 bits: a key far out of range is taken for the key
    65536 partitions below it. *)
Lemma far_key_aliases h k : wf h → 0 <= k →
  find h (k + 65536 * capacity_per_partition h) = find h k.
Proof.
  intros (Hc & _) Hk.
  assert (pid_of h (k + 65536 * capacity_per_partition h) = pid_of h k) as E.
  { unfold pid_of. rewrite Z.div_add by lia. unfold wrap.
    change 65536 with (1 * 2 ^ 16). apply Z.mod_add. lia. }
  assert (idx_of h (k + 65536 * capacity_per_partition h) = idx_of h k) as E2 by (unfold idx_of; by apply Z.mod_add; lia).
  unfold find, in_bounds, slot. by rewrite E, E2.
Qed.

End HashArray.
