(* ===== verification/MemoryPool.v ===== *)
(** * MemoryPool: the per-thread chunk pools and the delta store built on them
    ([BucketMemoryPool_threadLocal] in [oltp/storage/memory-pool.hpp] and
    [DeltaStoreMalloc] in [oltp/storage/multi-version/delta_storage.hpp] and
    [lib/storage/multi-version/delta_storage.cpp]).

    This is the store of the builds that do not use the one-shot collector.  Each thread has
    a stack of fixed-size chunks cut from regions that [MemoryManager::mallocPinned] returned;
    a released chunk goes to the stack of the thread that releases it.  The addresses
    [mallocPinned] returns are an argument of the operations, and that its regions do not
    overlap is a premise of the steps. *)

From S2P Require Import Prelude Common ClassicPtr.
From Stdlib Require Import ZArith Lia Bool.
From stdpp Require Import base numbers list relations.

Local Open Scope Z_scope.
Local Open Scope res_scope.

Module MemoryPool.

Definition pool_size_mb : Z := 4096.
Definition pool_size : Z := pool_size_mb * 1024 * 1024.
Definition pool_chunk_sz : Z := 832.

(** [_pool] with its top first. *)
Record pool : Type := mk { _pool : list Z; basePtr : list Z; destructed : bool }.

Definition pool_new : pool := mk [] [] false.

(** The chunks of a region, in the order they are pushed. *)
Definition chunks (psize N x : Z) : list Z :=
  (λ i, x + Z.of_nat i * N) <$> seq 0 (Z.to_nat (psize / N)).

Definition expand (psize N x : Z) (p : pool) : res pool :=
  check negb (x =? 0) else AssertFailed;
  Ok (mk (reverse (chunks psize N x) ++ _pool p) (basePtr p ++ [x]) (destructed p)).

(** [top] and [pop]; an empty stack has no top. *)
Definition get (p : pool) : res (Z * pool) :=
  match _pool p with
  | [] => Err Undefined
  | c :: cs => Ok (c, mk cs (basePtr p) (destructed p))
  end.

(** [x]: what [mallocPinned] returns if the pool has to grow. *)
Definition allocate (psize N x : Z) (p : pool) : res (Z * pool) :=
  check negb (destructed p) else AssertFailed;
  match _pool p with
  | _ :: _ => get p
  | [] => do p1 <- expand psize N x p; get p1
  end.

Definition free (c : Z) (p : pool) : res pool :=
  check negb (destructed p) else AssertFailed;
  Ok (mk (c :: _pool p) (basePtr p) (destructed p)).

Definition init (psize N x : Z) (p : pool) : res pool :=
  do p1 <- expand psize N x p;
  check negb (Nat.eqb (length (_pool p1)) 0) else AssertFailed;
  Ok p1.

(** The bases that are given back, and the pool. *)
Definition destruct (p : pool) : list Z * pool := (basePtr p, mk (_pool p) (basePtr p) true).

(** ** [DeltaStoreMalloc], with a pool per thread *)

(** [_memPools[std::this_thread::get_id()]]: a thread without a pool gets an empty one. *)
Abbreviation pools := (list pool).

Definition store_init (psize x : Z) (t : nat) (ps : pools) : res pools :=
  do p <- of_option Undefined (ps !! t);
  do p1 <- init psize pool_chunk_sz x p;
  do (c, p2) <- allocate psize pool_chunk_sz x p1;
  check negb (c =? 0) else AssertFailed;
  do p3 <- free c p2;
  Ok (<[t := p3]> ps).

Definition store_allocate (psize x : Z) (t : nat) (sz pid : Z) (ps : pools) : res (Z * pools) :=
  check negb (pool_chunk_sz <? sz) else Fatal;
  do p <- of_option Undefined (ps !! t);
  do (cnk, p') <- allocate psize pool_chunk_sz x p;
  check negb (cnk =? 0) else AssertFailed;
  Ok (ClassicPtrWrapper.make cnk pid, <[t := p']> ps).

Definition store_release (t : nat) (ptr : Z) (ps : pools) : res pools :=
  do p <- of_option Undefined (ps !! t);
  do c <- of_option Undefined (ClassicPtrWrapper.get_ptr ptr);
  do p' <- free c p;
  Ok (<[t := p']> ps).

(** ** Histories of a store *)

(** The pools and the pointers handed out and not released. *)
Record state : Type := mk_state { st_pools : pools; live : list Z }.

(** The regions the pools were cut from. *)
Definition regions (ps : pools) : list Z := concat (basePtr <$> ps).

(** What [mallocPinned] guarantees of a new region [x]. *)
Definition fresh (psize x : Z) (rs : list Z) : Prop :=
  0 < x ∧ x + psize < 2 ^ 56 ∧ ∀ r, r ∈ rs → x + psize <= r ∨ r + psize <= x.

Inductive step (psize : Z) : state → state → Prop :=
  | step_init s t x ps : fresh psize x (regions (st_pools s)) →
      store_init psize x t (st_pools s) = Ok ps → step psize s (mk_state ps (live s))
  | step_allocate s t x sz pid ptr ps : fresh psize x (regions (st_pools s)) → 0 <= pid →
      store_allocate psize x t sz pid (st_pools s) = Ok (ptr, ps) →
      step psize s (mk_state ps (ptr :: live s))
  | step_release s t ptr l ps : live s ≡ₚ ptr :: l → store_release t ptr (st_pools s) = Ok ps →
      step psize s (mk_state ps l).

Definition start (threads : nat) : state := mk_state (replicate threads pool_new) [].

(** ** Chunks *)

Definition addr (ptr : Z) : Z := ClassicPtrWrapper.get_ptrOffset ptr.

(** Every chunk of the store: handed out or in a pool. *)
Definition all_chunks (s : state) : list Z := (addr <$> live s) ++ concat (_pool <$> st_pools s).

Definition chunk_of (psize : Z) (rs : list Z) (c : Z) : Prop :=
  ∃ r i, r ∈ rs ∧ 0 <= i < psize / pool_chunk_sz ∧ c = r + i * pool_chunk_sz.

(** The chunks [cs] are distinct chunks of the regions [rs], which are apart. *)
Record cut (psize : Z) (cs rs : list Z) : Prop := mk_cut {
  cut_nodup : NoDup cs;
  cut_chunk c : c ∈ cs → chunk_of psize rs c;
  cut_region r : r ∈ rs → 0 < r ∧ r + psize < 2 ^ 56;
  cut_apart r r' : r ∈ rs → r' ∈ rs → r ≠ r' → r + psize <= r' ∨ r' + psize <= r
}.

#[export] Instance cut_proper psize : Proper ((≡ₚ) ==> (≡ₚ) ==> iff) (cut psize).
Proof.
  assert (∀ cs cs' rs rs', cs ≡ₚ cs' → rs ≡ₚ rs' → cut psize cs rs → cut psize cs' rs') as H.
  { intros cs cs' rs rs' Hc Hr [H1 H2 H3 H4]. split.
    - by rewrite <- Hc.
    - intros c Hin. rewrite <- Hc in Hin. destruct (H2 c Hin) as (r & i & Hri & ?). exists r, i. by rewrite <- Hr.
    - intros r Hin. rewrite <- Hr in Hin. by apply H3.
    - intros r r' Hin Hin'. rewrite <- Hr in Hin, Hin'. by apply H4. }
  intros cs cs' Hc rs rs' Hr. split; apply H; done.
Qed.

Lemma chunk_bounds psize r i : 0 <= i < psize / pool_chunk_sz →
  r <= r + i * pool_chunk_sz ∧ r + i * pool_chunk_sz + pool_chunk_sz <= r + psize.
Proof.
  intros Hi. unfold pool_chunk_sz in *. pose proof (Z.mul_div_le psize 832 ltac:(lia)). lia.
Qed.

Lemma in_chunks psize x c : c ∈ chunks psize pool_chunk_sz x ↔
  ∃ i, 0 <= i < psize / pool_chunk_sz ∧ c = x + i * pool_chunk_sz.
Proof.
  unfold chunks. rewrite list_elem_of_fmap. split.
  - intros (i & -> & Hi%elem_of_seq). exists (Z.of_nat i). split; [lia | done].
  - intros (i & Hi & ->). exists (Z.to_nat i). rewrite Z2Nat.id by lia. split; [done |]. apply elem_of_seq. lia.
Qed.

(** Cutting a fresh region. *)
Lemma cut_grow psize cs rs x : cut psize cs rs → fresh psize x rs →
  cut psize (chunks psize pool_chunk_sz x ++ cs) (x :: rs).
Proof.
  intros [H1 H2 H3 H4] (Hx & Hx' & Hf). split.
  - apply NoDup_app. split; [| split; [| done]].
    + unfold chunks. apply NoDup_fmap_2; [| apply NoDup_seq]. intros i j E. unfold pool_chunk_sz in E. lia.
    + intros c (i & Hi & ->)%in_chunks Hc. destruct (H2 _ Hc) as (r & j & Hr & Hj & E).
      pose proof (chunk_bounds psize x i Hi). pose proof (chunk_bounds psize r j Hj).
      unfold pool_chunk_sz in *. destruct (Hf r Hr); lia.
  - intros c [(i & Hi & ->)%in_chunks | Hc]%elem_of_app.
    + exists x, i. split; [left | done].
    + destruct (H2 c Hc) as (r & i & Hr & ?). exists r, i. split; [by right | done].
  - intros r [-> | Hr]%elem_of_cons; [done | by apply H3].
  - intros r r' [-> | Hr]%elem_of_cons [-> | Hr']%elem_of_cons Hne; [done | | | by apply H4].
    + by apply Hf.
    + destruct (Hf r Hr); [by right | by left].
Qed.

(** ** The operations on chunks *)

Lemma allocate_cases psize N x p c p' : allocate psize N x p = Ok (c, p') →
  (_pool p = c :: _pool p' ∧ basePtr p' = basePtr p) ∨
  (_pool p = [] ∧ reverse (chunks psize N x) = c :: _pool p' ∧ basePtr p' = basePtr p ++ [x]).
Proof.
  unfold allocate, get, expand. destruct (destructed p); [done |]. cbn [negb].
  destruct (_pool p) as [| c0 cs] eqn:Ep.
  - destruct (x =? 0); [done |]. cbn [negb rbind _pool basePtr]. rewrite app_nil_r.
    destruct (reverse (chunks psize N x)) as [| c1 cs1] eqn:Er; [done |].
    intros [= <- <-]. right. done.
  - intros [= <- <-]. left. done.
Qed.

(** Replacing the pool of one thread. *)
Lemma concat_update {A} (f : pool → list A) ps t p p' : ps !! t = Some p →
  ∃ a b, concat (f <$> ps) = a ++ f p ++ b ∧ concat (f <$> <[t := p']> ps) = a ++ f p' ++ b.
Proof.
  intros Ht. exists (concat (f <$> take t ps)), (concat (f <$> drop (S t) ps)). split.
  - rewrite <- (take_drop_middle ps t p Ht) at 1. by rewrite fmap_app, concat_app.
  - rewrite insert_take_drop by (by eapply lookup_lt_Some). by rewrite fmap_app, concat_app.
Qed.

Lemma store_init_chunks psize x t ps ps' : store_init psize x t ps = Ok ps' →
  concat (_pool <$> ps') ≡ₚ chunks psize pool_chunk_sz x ++ concat (_pool <$> ps) ∧
  regions ps' ≡ₚ x :: regions ps.
Proof.
  unfold store_init. intros (p & Hp%of_option_Ok & H)%rbind_Ok_inv.
  apply rbind_Ok_inv in H as (p1 & Hi & H). apply rbind_Ok_inv in H as ([c p2] & Ha & H).
  destruct (c =? 0); [discriminate H |]. cbn [negb] in H. apply rbind_Ok_inv in H as (p3 & Hf & [= <-]).
  assert (_pool p1 = reverse (chunks psize pool_chunk_sz x) ++ _pool p ∧ basePtr p1 = basePtr p ++ [x]) as [E1 E2].
  { unfold init, expand in Hi. destruct (x =? 0); [done |]. cbn [negb rbind] in Hi.
    destruct (Nat.eqb _ 0); [done |]. by injection Hi as <-. }
  assert (_pool p1 ≠ []) as Hne.
  { unfold init, expand in Hi. destruct (x =? 0); [done |]. cbn [negb rbind] in Hi.
    destruct (Nat.eqb _ 0) eqn:E0; [done |]. injection Hi as <-. intros E. by rewrite E in E0. }
  apply allocate_cases in Ha as [[Ea Eb] | [Ea _]]; [| done].
  assert (_pool p3 = _pool p1 ∧ basePtr p3 = basePtr p1) as [E3 E4].
  { unfold free in Hf. destruct (destructed p2); [done |]. injection Hf as <-. cbn [_pool basePtr]. by rewrite Ea, Eb. }
  destruct (concat_update _pool ps t p p3 Hp) as (a & b & -> & ->).
  split.
  - rewrite E3, E1, reverse_Permutation. solve_Permutation.
  - unfold regions. destruct (concat_update basePtr ps t p p3 Hp) as (a' & b' & -> & ->).
    rewrite E4, E2. solve_Permutation.
Qed.

Lemma store_allocate_chunks psize x t sz pid ps ptr ps' :
  store_allocate psize x t sz pid ps = Ok (ptr, ps') →
  sz <= pool_chunk_sz ∧ ∃ cnk, ptr = ClassicPtrWrapper.make cnk pid ∧
  ((cnk :: concat (_pool <$> ps') ≡ₚ concat (_pool <$> ps) ∧ regions ps' ≡ₚ regions ps) ∨
   (cnk :: concat (_pool <$> ps') ≡ₚ chunks psize pool_chunk_sz x ++ concat (_pool <$> ps) ∧
    regions ps' ≡ₚ x :: regions ps)).
Proof.
  unfold store_allocate. destruct (Z.ltb_spec pool_chunk_sz sz); [done |]. cbn [negb].
  intros (p & Hp%of_option_Ok & H')%rbind_Ok_inv. apply rbind_Ok_inv in H' as ([cnk p'] & Ha & H').
  destruct (cnk =? 0); [done |]. injection H' as <- <-. split; [lia |]. exists cnk. split; [done |].
  destruct (concat_update _pool ps t p p' Hp) as (a & b & -> & ->).
  unfold regions. destruct (concat_update basePtr ps t p p' Hp) as (a' & b' & -> & ->).
  apply allocate_cases in Ha as [[Ea ->] | (Ea & Er & ->)].
  - left. rewrite Ea. split; [solve_Permutation | done].
  - right. rewrite Ea. split; [| solve_Permutation].
    rewrite <- (reverse_Permutation (chunks _ _ _)), Er. solve_Permutation.
Qed.

Lemma store_release_chunks t ptr ps ps' : store_release t ptr ps = Ok ps' →
  ∃ c, ClassicPtrWrapper.get_ptr ptr = Some c ∧
    concat (_pool <$> ps') ≡ₚ c :: concat (_pool <$> ps) ∧ regions ps' ≡ₚ regions ps.
Proof.
  unfold store_release. intros (p & Hp%of_option_Ok & H)%rbind_Ok_inv.
  apply rbind_Ok_inv in H as (c & Hc%of_option_Ok & H). apply rbind_Ok_inv in H as (p' & Hf & [= <-]).
  exists c. split; [done |]. unfold free in Hf. destruct (destructed p); [done |]. injection Hf as <-.
  set (p' := mk _ _ _). destruct (concat_update _pool ps t p p' Hp) as (a & b & -> & ->).
  unfold regions. destruct (concat_update basePtr ps t p p' Hp) as (a' & b' & -> & ->).
  split; [cbn [p' _pool]; solve_Permutation | done].
Qed.

(** ** The invariant *)

Record inv (psize : Z) (s : state) : Prop := mk_inv {
  inv_cut : cut psize (all_chunks s) (regions (st_pools s));
  inv_ptr p : p ∈ live s → ClassicPtrWrapper.get_ptr p = Some (addr p)
}.

Lemma pool_start_inv psize n : inv psize (start n).
Proof.
  assert (∀ {A} (f : pool → list A), f pool_new = [] → concat (f <$> replicate n pool_new) = []) as E.
  { intros A f Hf. clear -Hf. induction n as [| n IH]; [done |]. simpl. rewrite Hf. exact IH. }
  split.
  - unfold all_chunks, regions, start. cbn [live st_pools]. rewrite !E by done. simpl.
    split; [apply NoDup_nil_2 | | |]; set_solver.
  - intros p Hp. by apply not_elem_of_nil in Hp.
Qed.

(** The address of a chunk survives the pointer. *)
Lemma addr_make psize rs c pid : 0 <= pid → chunk_of psize rs c →
  (∀ r, r ∈ rs → 0 < r ∧ r + psize < 2 ^ 56) →
  addr (ClassicPtrWrapper.make c pid) = c ∧ ClassicPtrWrapper.get_ptr (ClassicPtrWrapper.make c pid) = Some c.
Proof.
  intros Hp (r & i & Hr & Hi & ->) Hrs. destruct (Hrs r Hr). pose proof (chunk_bounds psize r i Hi).
  assert (0 < r + i * pool_chunk_sz < 2 ^ 56) as Hc by (unfold pool_chunk_sz in *; lia).
  split; [unfold addr; apply ClassicPtrWrapper.get_ptrOffset_make; lia | by apply ClassicPtrWrapper.get_ptr_make].
Qed.

Lemma pool_step_inv psize s s' : inv psize s → step psize s s' → inv psize s'.
Proof.
  intros [Hcut Hptr] Hs. destruct Hs as [s t x ps Hfr H | s t x sz pid ptr ps Hfr Hpid H | s t ptr l ps Hl H].
  - apply store_init_chunks in H as [E1 E2]. split; [| done]. unfold all_chunks. cbn [live st_pools].
    rewrite E1, E2. assert ((addr <$> live s) ++ chunks psize pool_chunk_sz x ++ concat (_pool <$> st_pools s) ≡ₚ
      chunks psize pool_chunk_sz x ++ all_chunks s) as -> by (unfold all_chunks; solve_Permutation).
    by apply cut_grow.
  - apply store_allocate_chunks in H as (_ & c & -> & Hcase).
    assert (∃ rs, regions ps ≡ₚ rs ∧ cut psize ((addr <$> live s) ++ c :: concat (_pool <$> ps)) rs) as (rs & Er & Hc).
    { destruct Hcase as [[E1 E2] | [E1 E2]]; eexists; (split; [exact E2 |]); rewrite E1; [done |].
      assert ((addr <$> live s) ++ chunks psize pool_chunk_sz x ++ concat (_pool <$> st_pools s) ≡ₚ
        chunks psize pool_chunk_sz x ++ all_chunks s) as -> by (unfold all_chunks; solve_Permutation).
      by apply cut_grow. }
    destruct (addr_make psize rs c pid Hpid) as [Ea Eg]; [| apply (cut_region _ _ _ Hc) |].
    { apply (cut_chunk _ _ _ Hc). apply elem_of_app. right. left. }
    split.
    + unfold all_chunks. cbn [live st_pools]. rewrite fmap_cons, Ea, Er. simpl.
      by rewrite Permutation_middle.
    + cbn [live]. intros q [-> | Hq]%elem_of_cons; [by rewrite Ea | by apply Hptr].
  - apply store_release_chunks in H as (c & Hc & E1 & E2).
    assert (ptr ∈ live s) as Hin by (rewrite Hl; left). rewrite (Hptr _ Hin) in Hc. injection Hc as <-.
    split.
    + unfold all_chunks. cbn [live st_pools]. rewrite E1, E2.
      assert ((addr <$> l) ++ addr ptr :: concat (_pool <$> st_pools s) ≡ₚ all_chunks s) as ->; [| done].
      unfold all_chunks. rewrite Hl, fmap_cons. simpl. by rewrite Permutation_middle.
    + cbn [live]. intros q Hq. apply Hptr. rewrite Hl. by right.
Qed.

Lemma pool_reachable_inv psize n s : rtc (step psize) (start n) s → inv psize s.
Proof.
  intros H. apply (rtc_ind_r (λ s, inv psize s) (start n) (pool_start_inv psize n)) in H; [done |].
  intros. by eapply pool_step_inv.
Qed.

(** Distinct chunks do not overlap. *)
Lemma cut_disjoint psize cs rs c d : cut psize cs rs → c ∈ cs → d ∈ cs → c ≠ d →
  c + pool_chunk_sz <= d ∨ d + pool_chunk_sz <= c.
Proof.
  intros Hcut Hc Hd Hne. destruct (cut_chunk _ _ _ Hcut c Hc) as (r & i & Hr & Hi & ->).
  destruct (cut_chunk _ _ _ Hcut d Hd) as (q & j & Hq & Hj & ->).
  pose proof (chunk_bounds psize r i Hi). pose proof (chunk_bounds psize q j Hj).
  destruct (decide (r = q)) as [-> | Hrq].
  - unfold pool_chunk_sz in *. lia.
  - pose proof (cut_apart _ _ _ Hcut r q Hr Hq Hrq). lia.
Qed.

(** C36: In every history of the malloc-backed delta store, whatever threads allocate and
    release, the pointers handed out and not released give back their chunks, no two of them
    share a byte of their chunks, and no pool holds a chunk that is still handed out. *)
Theorem live_chunks_disjoint (psize : Z) (n : nat) (s : state) :
  rtc (step psize) (start n) s →
  (∀ p, p ∈ live s → ClassicPtrWrapper.get_ptr p = Some (addr p)) ∧
  (∀ i j p q, live s !! i = Some p → live s !! j = Some q → i ≠ j →
     addr p + pool_chunk_sz <= addr q ∨ addr q + pool_chunk_sz <= addr p) ∧
  (∀ p t pl, p ∈ live s → st_pools s !! t = Some pl → addr p ∉ _pool pl).
Proof.
  intros [Hcut Hptr]%pool_reachable_inv. split; [done |].
  pose proof (cut_nodup _ _ _ Hcut) as Hnd. unfold all_chunks in Hnd. apply NoDup_app in Hnd as (Hnd & Hdis & _).
  split.
  - intros i j p q Hi Hj Hne.
    apply (cut_disjoint psize (all_chunks s) (regions (st_pools s)) (addr p) (addr q) Hcut).
    + apply elem_of_app. left. apply list_elem_of_fmap_2. by eapply list_elem_of_lookup_2.
    + apply elem_of_app. left. apply list_elem_of_fmap_2. by eapply list_elem_of_lookup_2.
    + intros E. apply Hne. apply (NoDup_lookup (addr <$> live s) i j (addr p) Hnd).
      * by rewrite list_lookup_fmap, Hi.
      * by rewrite list_lookup_fmap, Hj, E.
  - intros p t pl Hp Ht Hin. apply (Hdis (addr p)); [by apply list_elem_of_fmap_2 |].
    apply list_elem_of_In, in_concat. exists (_pool pl). split; [| by apply list_elem_of_In].
    apply list_elem_of_In, list_elem_of_fmap_2. by eapply list_elem_of_lookup_2.
Qed.

(** Regions of two chunks: thread 0 allocates twice, thread 1 once. *)
Definition ex_pool_state : state :=
  mk_state [mk [] [4096] false; mk [8192] [8192] false]
    (ClassicPtrWrapper.make 9024 0 :: ClassicPtrWrapper.make 4096 0 :: [ClassicPtrWrapper.make 4928 0]).

Lemma live_chunks_disjoint_witness :
  addr (ClassicPtrWrapper.make 9024 0) + pool_chunk_sz <= addr (ClassicPtrWrapper.make 4928 0) ∨
  addr (ClassicPtrWrapper.make 4928 0) + pool_chunk_sz <= addr (ClassicPtrWrapper.make 9024 0).
Proof.
  refine (proj1 (proj2 (live_chunks_disjoint 1664 2 ex_pool_state _)) 0%nat 2%nat _ _ eq_refl eq_refl _); [| done].
  eapply rtc_l; [apply (step_allocate 1664 (start 2) 0 4096 800 0); [| lia | reflexivity] |].
  { split; [lia |]. split; [lia |]. intros r Hr. by apply not_elem_of_nil in Hr. }
  eapply rtc_l; [apply (step_allocate 1664 _ 0 100000 800 0); [| lia | reflexivity] |].
  { split; [lia |]. split; [lia |]. intros r Hr. apply list_elem_of_In in Hr. simpl in Hr. lia. }
  eapply rtc_l; [apply (step_allocate 1664 _ 1 8192 800 0); [| lia | reflexivity] |].
  { split; [lia |]. split; [lia |]. intros r Hr. apply list_elem_of_In in Hr. simpl in Hr. lia. }
  apply rtc_refl.
Defined.

End MemoryPool.
