(* ===== verification/RadixJoin.v ===== *)
(** * RadixJoin: the radix-partitioned hash join of the analytical engine's runtime
    ([platform/lib/util/radix/joins/radix-join.cpp] and
    [platform/lib/util/radix/aggregations/radix-aggr.cpp], with their [types.h]).

    Both inputs are clustered by the low bits of their keys in two counting passes; the
    clusters are then joined pairwise through a table of bucket chains.  The join and the
    aggregation files hold the same code over tuples with 32-bit and with 64-bit keys, so the
    routines are defined once over the class [Tuple] and then named for each. *)

From S2P Require Import Prelude.
From Stdlib Require Import ZArith Lia Bool.
From stdpp Require Import base numbers list sets.

Local Open Scope Z_scope.
Local Open Scope res_scope.

(** A tuple has a signed integer key. *)
Class Tuple (T : Type) : Type := tkey : T → Z.

(** ** Parameters of the build *)

Module Radix.

Definition NUM_RADIX_BITS : Z := 14.
Definition NUM_PASSES : Z := 2.

(** [K & MASK >> NBITS]: [MASK] is a [uint32_t], so a signed key is taken modulo 2^32 first;
    [Z.land] reads a negative key in two's complement. *)
Definition HASH_BIT_MODULO (K MASK NBITS : Z) : Z := Z.shiftr (Z.land K MASK) NBITS.

(** The steps of the macro, on a [uint32_t]. *)
Definition NEXT_POW_2 (V : Z) : Z :=
  let V := u32 (V - 1) in
  let V := Z.lor V (Z.shiftr V 1) in
  let V := Z.lor V (Z.shiftr V 2) in
  let V := Z.lor V (Z.shiftr V 4) in
  let V := Z.lor V (Z.shiftr V 8) in
  let V := Z.lor V (Z.shiftr V 16) in
  u32 (V + 1).

(** [HT]: [mask] and the two arrays of positions; [count] is never written here. *)
Record HT : Type := mk_HT { bucket : list Z; next : list Z; mask : Z }.

Record relation_t (T : Type) : Type := mk_rel { tuples : list T; num_tuples : Z }.
Arguments mk_rel {T}.
Arguments tuples {T}.
Arguments num_tuples {T}.

Section routines.
Context {T : Type} `{Tuple T}.

(** The first [n] elements behind a pointer. *)
Definition read_n (l : list T) (n : Z) : res (list T) :=
  check n <=? Z.of_nat (length l) else Undefined;
  Ok (take (Z.to_nat n) l).

(** ++ on a [uint32_t] and on an [int]. *)
Definition inc_u32 (c : Z) : res Z := Ok (u32 (c + 1)).
Definition inc_int (c : Z) : res Z := check c + 1 <? 2 ^ 31 else Undefined; Ok (c + 1).

(** Counting tuples per cluster into a zeroed array of [n]. *)
Definition histogram (inc : Z → res Z) (f : T → Z) (n : Z) (l : list T) : res (list Z) :=
  rfoldM (λ counts t,
      do c <- of_option Undefined (counts !! Z.to_nat (f t));
      do c' <- inc c;
      Ok (<[Z.to_nat (f t) := c']> counts))
    (replicate (Z.to_nat n) 0) l.

(** The start of each cluster. *)
Fixpoint offsets (offset : Z) (counts : list Z) : list Z :=
  match counts with
  | [] => []
  | c :: cs => offset :: offsets (u32 (offset + c)) cs
  end.

(** [*dst[idx] = *input; ++dst[idx]]. *)
Definition scatter_step (f : T → Z) (s : list Z * list T) (t : T) : res (list Z * list T) :=
  let '(dst, out) := s in
  do d <- of_option Undefined (dst !! Z.to_nat (f t));
  check d <? Z.of_nat (length out) else Undefined;
  Ok (<[Z.to_nat (f t) := d + 1]> dst, <[Z.to_nat d := t]> out).

Definition radix_cluster_nopadding (outTuples inTuples : list T) (num_tuples R D : Z)
  : res (list T) :=
  let M := u32 (Z.shiftl (Z.shiftl 1 D - 1) R) in
  let fanOut := u32 (Z.shiftl 1 D) in
  let ntuples := u32 num_tuples in
  let idx t := HASH_BIT_MODULO (tkey t) M R in
  do input <- read_n inTuples ntuples;
  do tuples_per_cluster <- histogram inc_u32 idx fanOut input;
  do (_, out) <- rfoldM (scatter_step idx) (offsets 0 tuples_per_cluster, outTuples) input;
  Ok out.

(** The overload on relations. *)
Definition radix_cluster_relation (outRel inRel : relation_t T) (R D : Z) : res (relation_t T) :=
  do out <- radix_cluster_nopadding (tuples outRel) (tuples inRel) (num_tuples inRel) R D;
  Ok (mk_rel out (num_tuples outRel)).

(** The build loop: [next] is filled in order, positions start from 1. *)
Definition prepare_step (f : T → Z) (ht : list Z * list Z) (t : T) : res (list Z * list Z) :=
  let '(bucket, next) := ht in
  do b <- of_option Undefined (bucket !! Z.to_nat (f t));
  Ok (<[Z.to_nat (f t) := Z.of_nat (length next) + 1]> bucket, next ++ [b]).

Definition bucket_chaining_prepare (tuplesR : list T) (num_tuples : Z) : res HT :=
  let numR := u32 num_tuples in
  let N := NEXT_POW_2 numR in
  let MASK := u32 (Z.shiftl (u32 (N - 1)) NUM_RADIX_BITS) in
  do R <- read_n tuplesR numR;
  do (bucket, next) <- rfoldM
      (prepare_step (λ t, HASH_BIT_MODULO (tkey t) MASK NUM_RADIX_BITS))
      (replicate (Z.to_nat N) 0, []) R;
  Ok (mk_HT bucket next MASK).

(** The overload on relations. *)
Definition bucket_chaining_prepare_relation (R : relation_t T) : res HT :=
  bucket_chaining_prepare (tuples R) (num_tuples R).

(** The chain walk: [hit] is a position plus one, 0 ends the chain. *)
Fixpoint probe_loop (fuel : nat) (R : list T) (nxt : list Z) (key hit matches : Z) : res Z :=
  if 0 <? hit then
    match fuel with
    | O => Err Blocked
    | S fuel =>
        do r <- of_option Undefined (R !! Z.to_nat (hit - 1));
        do hit' <- of_option Undefined (nxt !! Z.to_nat (hit - 1));
        probe_loop fuel R nxt key hit' (if key =? tkey r then matches + 1 else matches)
    end
  else Ok matches.

(** Fuel: a chain visits each position of [R] at most once. *)
Definition bucket_chaining_probe (R : relation_t T) (ht : HT) (s : T) : res Z :=
  let idx := HASH_BIT_MODULO (tkey s) (mask ht) NUM_RADIX_BITS in
  do hit <- of_option Undefined (bucket ht !! Z.to_nat idx);
  probe_loop (length (tuples R)) (tuples R) (next ht) (tkey s) hit 0.

(** The cluster of a key after both passes. *)
Definition cluster_of (t : T) : Z := Z.land (tkey t) (Z.shiftl 1 NUM_RADIX_BITS - 1).

Definition pass1_bits : Z := NUM_RADIX_BITS / NUM_PASSES.
Definition pass2_bits : Z := NUM_RADIX_BITS - NUM_RADIX_BITS / NUM_PASSES.

(** [mem]: the contents of the temporary array that [malloc] returns.  The routine leaves the
    clustered tuples in the input array and returns the size of every cluster. *)
Definition partitionHT (mem : list T) (num_tuples : Z) (inTuples : list T) : res (list T * list Z) :=
  do outTuples <- radix_cluster_nopadding mem inTuples num_tuples 0 pass1_bits;
  do inTuples <- radix_cluster_nopadding inTuples outTuples num_tuples pass1_bits pass2_bits;
  do input <- read_n inTuples num_tuples;
  do count_per_cluster <- histogram inc_int cluster_of (Z.shiftl 1 NUM_RADIX_BITS) input;
  Ok (inTuples, count_per_cluster).

(** [relR->tuples + r], taken as a relation of [n] tuples. *)
Definition subrelation (l : list T) (r n : Z) : res (relation_t T) :=
  do sub <- read_n (drop (Z.to_nat r) l) n;
  Ok (mk_rel sub n).

(** The body of the loop over clusters: [r] and [s] are the starts of the next clusters. *)
Definition join_cluster (R S : list T) (st : Z * Z * Z) (counts : Z * Z) : res (Z * Z * Z) :=
  let '(r, s, result) := st in
  let '(cR, cS) := counts in
  if (0 <? cR) && (0 <? cS) then
    do tmpR <- subrelation R r cR;
    do tmpS <- subrelation S s cS;
    do ht <- bucket_chaining_prepare_relation tmpR;
    do result <- rfoldM (λ acc x, do m <- bucket_chaining_probe tmpR ht x; Ok (acc + m))
                   result (tuples tmpS);
    Ok (r + cR, s + cS, result)
  else Ok (r + cR, s + cS, result).

(** [memR], [memS]: the temporary arrays.  Returns the two relations as the routine leaves them
    and the number of matches. *)
Definition RJStepwise (memR memS : list T) (relR relS : relation_t T)
  : res (relation_t T * relation_t T * Z) :=
  do outRelR <- radix_cluster_relation (mk_rel memR (num_tuples relR)) relR 0 pass1_bits;
  do outRelS <- radix_cluster_relation (mk_rel memS (num_tuples relS)) relS 0 pass1_bits;
  do relR <- radix_cluster_relation relR outRelR pass1_bits pass2_bits;
  do relS <- radix_cluster_relation relS outRelS pass1_bits pass2_bits;
  do inR <- read_n (tuples relR) (num_tuples relR);
  do inS <- read_n (tuples relS) (num_tuples relS);
  do R_count_per_cluster <- histogram inc_int cluster_of (Z.shiftl 1 NUM_RADIX_BITS) inR;
  do S_count_per_cluster <- histogram inc_int cluster_of (Z.shiftl 1 NUM_RADIX_BITS) inS;
  do (_, result) <- rfoldM (join_cluster (tuples relR) (tuples relS)) (0, 0, 0)
      (zip R_count_per_cluster S_count_per_cluster);
  Ok (relR, relS, result).

(** ** References *)

(** A stable bucket sort on a key below [n]. *)
Definition clusters (f : T → Z) (n : nat) (l : list T) : list T :=
  concat ((λ i, List.filter (λ t, f t =? Z.of_nat i) l) <$> seq 0 n).

(** The number of pairs with equal keys. *)
Definition nested_loop_join (R S : list T) : Z :=
  foldr (λ s acc, count_if (λ r, tkey s =? tkey r) R + acc) 0 S.

(** ** Clusters *)

Implicit Types (f g : T → Z) (l out : list T) (t : T).

Abbreviation part f i l := (List.filter (λ t, f t =? Z.of_nat i) l).
Abbreviation start f i l := (length (clusters f i l)).

Lemma clusters_S f n l : clusters f (S n) l = clusters f n l ++ part f n l.
Proof. unfold clusters. rewrite seq_S, fmap_app, concat_app. simpl. by rewrite app_nil_r. Qed.

Lemma start_S f n l : start f (S n) l = (start f n l + length (part f n l))%nat.
Proof. by rewrite clusters_S, length_app. Qed.

Lemma start_mono f n m l : (n <= m)%nat → (start f n l <= start f m l)%nat.
Proof. induction 1; [done |]. rewrite start_S. lia. Qed.

Lemma concat_fmap_app_perm {I A} (a b : I → list A) s :
  concat ((λ i, a i ++ b i) <$> s) ≡ₚ concat (a <$> s) ++ concat (b <$> s).
Proof. induction s as [| i s IH]; simpl; [done |]. rewrite IH. solve_Permutation. Qed.

Lemma concat_single (t : T) (b n : nat) : (b < n)%nat →
  concat ((λ i, if Z.of_nat b =? Z.of_nat i then [t] else []) <$> seq 0 n) = [t].
Proof.
  assert (∀ m, (m <= b)%nat →
    concat ((λ i, if Z.of_nat b =? Z.of_nat i then [t] else []) <$> seq 0 m) = []) as Hlow.
  { induction m as [| m IH]; intros Hm; [done |]. rewrite seq_S, fmap_app, concat_app, IH by lia. simpl.
    by rewrite (proj2 (Z.eqb_neq _ _)) by lia. }
  induction n as [| n IH]; intros Hb; [lia |]. rewrite seq_S, fmap_app, concat_app. simpl.
  destruct (decide (b = n)) as [-> | Hne].
  - rewrite Hlow by lia. by rewrite Z.eqb_refl.
  - rewrite IH by lia. by rewrite (proj2 (Z.eqb_neq _ _)) by lia.
Qed.

Lemma clusters_ext f g n l : (∀ t, f t = g t) → clusters f n l = clusters g n l.
Proof.
  intros Hfg. unfold clusters. f_equal. apply list_fmap_ext. intros _ i _. apply List.filter_ext.
  intros t. by rewrite Hfg.
Qed.

(** Clustering rearranges. *)
Lemma clusters_perm f n l : (∀ t, t ∈ l → 0 <= f t < Z.of_nat n) → clusters f n l ≡ₚ l.
Proof.
  induction l as [| t l IH]; intros Hf; unfold clusters.
  - simpl. induction (seq 0 n) as [| ? ? IHs]; [done | exact IHs].
  - destruct (Hf t ltac:(left)) as [H0 H1].
    assert (((λ i, part f i (t :: l)) <$> seq 0 n) =
      (λ i, (if f t =? Z.of_nat i then [t] else []) ++ part f i l) <$> seq 0 n) as ->.
    { apply list_fmap_ext. intros _ i _. simpl. by destruct (f t =? Z.of_nat i). }
    rewrite concat_fmap_app_perm. fold (clusters f n l). rewrite IH by (intros u Hu; apply Hf; by right).
    assert (f t = Z.of_nat (Z.to_nat (f t))) as -> by lia. by rewrite concat_single by lia.
Qed.

(** Where the elements of a part are. *)
Lemma clusters_lookup f n l i k : (i < n)%nat → (k < length (part f i l))%nat →
  clusters f n l !! (start f i l + k)%nat = part f i l !! k.
Proof.
  intros Hi Hk. induction n as [| n IH]; [lia |]. rewrite clusters_S.
  destruct (decide (i = n)) as [-> | Hne].
  - rewrite lookup_app_r by lia. f_equal. lia.
  - rewrite lookup_app_l; [apply IH; lia |].
    apply Nat.lt_le_trans with (start f (S i) l); [rewrite start_S; lia | apply start_mono; lia].
Qed.

Lemma clusters_position f n l j : (j < start f n l)%nat →
  ∃ i k, (i < n)%nat ∧ (k < length (part f i l))%nat ∧ j = (start f i l + k)%nat.
Proof.
  induction n as [| n IH]; [unfold clusters; simpl; lia |]. rewrite start_S. intros Hj.
  destruct (Nat.lt_ge_cases j (start f n l)) as [Hlt | Hge].
  - destruct (IH Hlt) as (i & k & ? & ? & ?). exists i, k. split; [lia | done].
  - exists n, (j - start f n l)%nat. split; [lia |]. split; lia.
Qed.

Lemma filter_concat {A} (P : A → bool) ls :
  List.filter P (concat ls) = concat (List.filter P <$> ls).
Proof. induction ls as [| x ls IH]; simpl; [done |]. by rewrite List.filter_app, IH. Qed.

(** Two passes from the low digit up are one pass on both digits. *)
Lemma clusters_compose f g n m l : (∀ t, t ∈ l → 0 <= f t < Z.of_nat n) →
  clusters g m (clusters f n l) = clusters (λ t, g t * Z.of_nat n + f t) (m * n) l.
Proof.
  intros Hf. induction m as [| m IH]; [done |]. rewrite clusters_S, IH.
  replace (S m * n)%nat with (m * n + n)%nat by lia. unfold clusters at 3.
  rewrite seq_app, fmap_app, concat_app. f_equal. simpl. unfold clusters.
  rewrite <- (Nat.add_0_r (m * n)), <- fmap_add_seq, <- list_fmap_compose.
  rewrite filter_concat, <- list_fmap_compose. f_equal.
  apply list_fmap_ext. intros _ i Hi%list_elem_of_lookup_2%elem_of_seq. simpl.
  clear IH. induction l as [| t l IHl]; [done |]. simpl.
  rewrite <- IHl by (intros u Hu; apply Hf; by right). specialize (Hf t ltac:(left)).
  assert ((g t * Z.of_nat n + f t =? Z.of_nat (m * n + i)) =
    (f t =? Z.of_nat i) && (g t =? Z.of_nat m)) as ->.
  { destruct (Z.eqb_spec (g t * Z.of_nat n + f t) (Z.of_nat (m * n + i))) as [E | E].
    - destruct (Z.div_mod_unique (Z.of_nat n) (g t) (Z.of_nat m) (f t) (Z.of_nat i)) as [-> ->]; try lia.
    - symmetry. apply andb_false_iff. destruct (Z.eqb_spec (f t) (Z.of_nat i)); [right | by left].
      apply Z.eqb_neq. intros Eg. apply E. rewrite Eg. lia. }
  destruct (f t =? Z.of_nat i); simpl; [| done]. by destruct (g t =? Z.of_nat m).
Qed.

(** ** The counting pass *)

Lemma part_snoc f i l t : part f i (l ++ [t]) = part f i l ++ (if f t =? Z.of_nat i then [t] else []).
Proof. rewrite List.filter_app. simpl. by destruct (f t =? Z.of_nat i). Qed.

Lemma part_length_le f i l : (length (part f i l) <= length l)%nat.
Proof. apply List.filter_length_le. Qed.

Lemma part_length_snoc_le f i l q : (length (part f i l) <= length (part f i (l ++ q)))%nat.
Proof. rewrite List.filter_app, length_app. lia. Qed.

(** The counts of [l], cluster by cluster. *)
Definition counts_of (f : T → Z) (n : nat) (l : list T) : list Z :=
  (λ i, Z.of_nat (length (part f i l))) <$> seq 0 n.

Lemma counts_of_lookup f n l i : (i < n)%nat →
  counts_of f n l !! i = Some (Z.of_nat (length (part f i l))).
Proof. intros Hi. unfold counts_of. by rewrite list_lookup_fmap, lookup_seq_lt. Qed.

Lemma histogram_counts inc f n l :
  (∀ c, 0 <= c < 2 ^ 31 - 1 → inc c = Ok (c + 1)) → 0 <= n → Z.of_nat (length l) < 2 ^ 31 →
  (∀ t, t ∈ l → 0 <= f t < n) → histogram inc f n l = Ok (counts_of f (Z.to_nat n) l).
Proof.
  intros Hinc Hn. unfold histogram. induction l as [| t l IH] using rev_ind; intros Hlen Hf.
  - simpl. f_equal. unfold counts_of. simpl. apply list_eq. intros i.
    destruct (decide (i < Z.to_nat n)%nat) as [Hi | Hi].
    + by rewrite lookup_replicate_2, list_lookup_fmap, lookup_seq_lt by done.
    + rewrite !lookup_ge_None_2; [done | |]; rewrite ?length_fmap, ?length_seq, ?length_replicate; lia.
  - rewrite length_app in Hlen. simpl in Hlen.
    rewrite rfoldM_app, IH by (try lia; intros; apply Hf; set_solver). simpl.
    destruct (Hf t ltac:(set_solver)) as [H0 H1].
    rewrite counts_of_lookup by lia. simpl. pose proof (part_length_le f (Z.to_nat (f t)) l).
    rewrite Hinc by lia. simpl. f_equal. apply list_eq. intros i.
    destruct (decide (i < Z.to_nat n)%nat) as [Hi | Hi].
    2: { rewrite !lookup_ge_None_2; [done | |]; unfold counts_of; rewrite ?length_insert, ?length_fmap, ?length_seq; lia. }
    rewrite counts_of_lookup by done. rewrite part_snoc, length_app.
    destruct (decide (i = Z.to_nat (f t))) as [-> | Hne].
    + rewrite list_lookup_insert_eq by (unfold counts_of; rewrite length_fmap, length_seq; lia).
      rewrite (proj2 (Z.eqb_eq _ _)) by lia. f_equal. simpl. lia.
    + rewrite list_lookup_insert_ne by done. rewrite counts_of_lookup by done.
      rewrite (proj2 (Z.eqb_neq _ _)) by lia. f_equal. simpl. lia.
Qed.

Lemma offsets_starts f n l k m : (k + m <= n)%nat → Z.of_nat (start f n l) < 2 ^ 32 →
  offsets (Z.of_nat (start f k l)) ((λ i, Z.of_nat (length (part f i l))) <$> seq k m) =
  (λ i, Z.of_nat (start f i l)) <$> seq k m.
Proof.
  revert k. induction m as [| m IH]; intros k Hk Hlt; [done |]. simpl. f_equal.
  pose proof (start_mono f (S k) n l ltac:(lia)). rewrite start_S in H0.
  rewrite wrap_id by lia. rewrite <- Nat2Z.inj_add, <- start_S. apply IH; [lia | done].
Qed.

(** ** The copying pass *)

Section scatter.
Context (f : T → Z) (n : nat) (l out : list T).
Hypothesis (Hf : ∀ t, t ∈ l → 0 <= f t < Z.of_nat n) (Hout : (length l <= length out)%nat).

(** After the prefix [p]: each part of it is in place, and nothing behind the clusters changed. *)
Record scattered (p : list T) (s : list Z * list T) : Prop := mk_scattered {
  sc_dst : s.1 = (λ i, Z.of_nat (start f i l + length (part f i p))) <$> seq 0 n;
  sc_len : length s.2 = length out;
  sc_in i k : (i < n)%nat → (k < length (part f i p))%nat →
    s.2 !! (start f i l + k)%nat = part f i p !! k;
  sc_out j : (length l <= j)%nat → s.2 !! j = out !! j
}.

Lemma start_total : start f n l = length l.
Proof using Hf. by rewrite (clusters_perm f n l Hf). Qed.

Lemma slot_below i k : (i < n)%nat → (k < length (part f i l))%nat → (start f i l + k < length l)%nat.
Proof using Hf Hout.
  intros Hi Hk. rewrite <- start_total. apply Nat.lt_le_trans with (start f (S i) l); [rewrite start_S; lia |].
  apply start_mono. lia.
Qed.

(** Slots of different clusters differ. *)
Lemma cluster_slot_inj i k i' k' : (k < length (part f i l))%nat → (k' < length (part f i' l))%nat → i ≠ i' →
  (start f i l + k)%nat ≠ (start f i' l + k')%nat.
Proof using Hf Hout.
  intros Hk Hk' Hne. destruct (Nat.lt_total i i') as [Hlt | [? | Hlt]]; [| done |].
  - pose proof (start_mono f (S i) i' l Hlt). rewrite start_S in H0. lia.
  - pose proof (start_mono f (S i') i l Hlt). rewrite start_S in H0. lia.
Qed.

Lemma scatter_step_ok p t q s : l = p ++ t :: q → scattered p s →
  ∃ s', scatter_step f s t = Ok s' ∧ scattered (p ++ [t]) s'.
Proof using Hf Hout.
  intros Hl [Hd Hlen Hin Hrest]. destruct s as [dst o]. simpl in *.
  destruct (Hf t) as [H0 H1]; [rewrite Hl; set_solver |]. set (b := Z.to_nat (f t)).
  assert (∀ i, length (part f i p) <= length (part f i l))%nat as Hle by (intros; rewrite Hl; apply part_length_snoc_le).
  assert (length (part f b p) < length (part f b l))%nat as Hlt.
  { rewrite Hl, List.filter_app, length_app. simpl. rewrite (proj2 (Z.eqb_eq (f t) _)) by lia. simpl. lia. }
  pose proof (slot_below b _ ltac:(lia) Hlt) as Hslot.
  unfold scatter_step. fold b. rewrite Hd, list_lookup_fmap, lookup_seq_lt by lia. cbn [fmap option_fmap option_map of_option rbind].
  change (0 + b)%nat with b.
  rewrite (proj2 (Z.ltb_lt _ _)) by lia. eexists. split; [done |]. rewrite Nat2Z.id. split; simpl.
  - apply list_eq. intros i. destruct (decide (i < n)%nat) as [Hi | Hi].
    2: { rewrite !lookup_ge_None_2; [done | |]; rewrite ?length_insert, ?length_fmap, ?length_seq; lia. }
    rewrite list_lookup_fmap, lookup_seq_lt by done. simpl. rewrite part_snoc, length_app.
    destruct (decide (i = b)) as [-> | Hne].
    + rewrite list_lookup_insert_eq by (rewrite length_fmap, length_seq; lia).
      rewrite (proj2 (Z.eqb_eq _ _)) by lia. f_equal. simpl. lia.
    + rewrite list_lookup_insert_ne, list_lookup_fmap, lookup_seq_lt by done.
      rewrite (proj2 (Z.eqb_neq _ _)) by lia. simpl. do 2 f_equal. lia.
  - by rewrite length_insert.
  - intros i k Hi Hk. rewrite part_snoc in Hk |- *. rewrite length_app in Hk.
    destruct (decide (k < length (part f i p))%nat) as [Hkp | Hkp].
    + rewrite lookup_app_l, <- (Hin i k Hi Hkp) by done. apply list_lookup_insert_ne.
      destruct (decide (i = b)) as [-> | Hne]; [lia |]. apply not_eq_sym, cluster_slot_inj; [| done | done]. specialize (Hle i). lia.
    + destruct (Z.eqb_spec (f t) (Z.of_nat i)) as [E |]; [| simpl in Hk; lia]. simpl in Hk.
      assert (i = b) as -> by lia. replace k with (length (part f b p)) by lia.
      rewrite list_lookup_insert_eq by lia. by rewrite lookup_app_r, Nat.sub_diag by lia.
  - intros j Hj. rewrite list_lookup_insert_ne by lia. by apply Hrest.
Qed.

Lemma scatter_ok p q : l = p ++ q →
  ∃ s, rfoldM (scatter_step f) ((λ i, Z.of_nat (start f i l)) <$> seq 0 n, out) p = Ok s ∧ scattered p s.
Proof using Hf Hout.
  revert q. induction p as [| t p IH] using rev_ind; intros q Hl.
  - eexists. split; [done |]. split; simpl; try done; [| lia].
    apply list_fmap_ext. intros. by rewrite Nat.add_0_r.
  - rewrite <- app_assoc in Hl. simpl in Hl. destruct (IH _ Hl) as (s & E & Hs).
    destruct (scatter_step_ok p t q s Hl Hs) as (s' & E' & Hs'). exists s'. split; [| done].
    rewrite rfoldM_app, E. simpl. by rewrite E'.
Qed.

Lemma scattered_all s : scattered l s → s.2 = clusters f n l ++ drop (length l) out.
Proof using Hf Hout.
  intros [_ Hlen Hin Hrest]. apply list_eq. intros j.
  destruct (Nat.lt_ge_cases j (length l)) as [Hj | Hj].
  - rewrite lookup_app_l by (by rewrite start_total).
    destruct (clusters_position f n l j) as (i & k & Hi & Hk & ->); [by rewrite start_total |].
    by rewrite Hin, clusters_lookup.
  - rewrite lookup_app_r by (by rewrite start_total). rewrite start_total, lookup_drop, Hrest by done.
    f_equal. lia.
Qed.
End scatter.

(** ** A whole pass *)

(** The digit of a key a pass clusters by. *)
Definition digit (R D : Z) (t : T) : Z := Z.shiftr (tkey t) R mod 2 ^ D.

Lemma digit_range R D t : 0 <= D → 0 <= digit R D t < 2 ^ D.
Proof. intros. apply Z.mod_pos_bound. lia. Qed.

Lemma hash_digit K R D : 0 <= R → 0 <= D → D + R < 32 →
  HASH_BIT_MODULO K (u32 (Z.shiftl (Z.shiftl 1 D - 1) R)) R = Z.shiftr K R mod 2 ^ D.
Proof.
  intros HR HD Hw.
  assert (Z.shiftl 1 D - 1 = Z.ones D) as -> by (unfold Z.ones; lia).
  assert (u32 (Z.shiftl (Z.ones D) R) = Z.shiftl (Z.ones D) R) as ->.
  { apply wrap_id. rewrite Z.shiftl_mul_pow2, Z.ones_equiv by done.
    assert (2 ^ D * 2 ^ R <= 2 ^ 31) by (rewrite <- Z.pow_add_r by lia; apply Z.pow_le_mono_r; lia).
    assert (0 < 2 ^ D) by lia. assert (0 < 2 ^ R) by lia. nia. }
  unfold HASH_BIT_MODULO. rewrite Z.shiftr_land, Z.shiftr_shiftl_l, Z.sub_diag, Z.shiftl_0_r by lia.
  by rewrite land_ones_wrap.
Qed.

Lemma read_n_all l n : n = Z.of_nat (length l) → read_n l n = Ok l.
Proof.
  intros ->. unfold read_n. rewrite (proj2 (Z.leb_le _ _)) by lia. by rewrite Nat2Z.id, take_ge.
Qed.

Lemma read_n_app l extra n : n = Z.of_nat (length l) → read_n (l ++ extra) n = Ok l.
Proof.
  intros ->. unfold read_n. rewrite length_app, (proj2 (Z.leb_le _ _)) by lia. by rewrite Nat2Z.id, take_app_length.
Qed.

Lemma radix_cluster_ok out l extra R D : Z.of_nat (length l) < 2 ^ 31 → (length l <= length out)%nat →
  0 <= R → 0 <= D → D + R < 32 →
  radix_cluster_nopadding out (l ++ extra) (Z.of_nat (length l)) R D =
  Ok (clusters (digit R D) (Z.to_nat (2 ^ D)) l ++ drop (length l) out).
Proof.
  intros Hlen Hout HR HD Hw. unfold radix_cluster_nopadding. rewrite wrap_id by lia.
  rewrite read_n_app by done. cbn [rbind].
  assert (0 < 2 ^ D < 2 ^ 32) as HpD by (split; [lia | apply Z.pow_lt_mono_r; lia]).
  assert (u32 (Z.shiftl 1 D) = 2 ^ D) as -> by (rewrite Z.shiftl_1_l; apply wrap_id; lia).
  set (f := λ t, HASH_BIT_MODULO _ _ _).
  assert (∀ t, f t = digit R D t) as Hfd by (intros t; by apply hash_digit).
  assert (∀ t, t ∈ l → 0 <= f t < Z.of_nat (Z.to_nat (2 ^ D))) as Hf
    by (intros t _; rewrite Hfd; pose proof (digit_range R D t); lia).
  rewrite (histogram_counts inc_u32 f (2 ^ D) l); [| | lia | done | intros; rewrite Hfd; by apply digit_range].
  2: { intros c Hc. unfold inc_u32. by rewrite wrap_id by lia. }
  cbn [rbind]. pose proof (start_total f _ l Hf) as Htot.
  unfold counts_of. rewrite (offsets_starts f (Z.to_nat (2 ^ D)) l 0) by (try lia; rewrite Htot; lia).
  destruct (scatter_ok f _ l out Hf Hout l []) as (s & E & Hs); [by rewrite app_nil_r |].
  rewrite E. cbn [rbind]. destruct s as [dst o]. f_equal.
  pose proof (scattered_all f _ l out Hf Hout (dst, o) Hs) as Ho. simpl in Ho. rewrite Ho. f_equal. by apply clusters_ext.
Qed.

(** Both passes: the tuples, clustered by the low [NUM_RADIX_BITS] of their keys. *)
Definition clustered (l : list T) : list T := clusters cluster_of (Z.to_nat (2 ^ NUM_RADIX_BITS)) l.

Lemma cluster_of_digit t : cluster_of t = digit 0 NUM_RADIX_BITS t.
Proof.
  unfold cluster_of, digit. rewrite Z.shiftr_0_r. by rewrite <- Z.land_ones by done.
Qed.

Lemma cluster_of_range t : 0 <= cluster_of t < 2 ^ NUM_RADIX_BITS.
Proof. rewrite cluster_of_digit. by apply digit_range. Qed.

Lemma clustered_perm l : clustered l ≡ₚ l.
Proof. apply clusters_perm. intros t _. pose proof (cluster_of_range t). lia. Qed.

Lemma two_passes l :
  clusters (digit pass1_bits pass2_bits) (Z.to_nat (2 ^ pass2_bits))
    (clusters (digit 0 pass1_bits) (Z.to_nat (2 ^ pass1_bits)) l) = clustered l.
Proof.
  rewrite clusters_compose.
  2: { intros t _. pose proof (digit_range 0 pass1_bits t ltac:(done)). lia. }
  unfold clustered. rewrite <- Z2Nat.inj_mul, <- Z.pow_add_r by done.
  apply (clusters_ext _ _ (Z.to_nat (2 ^ NUM_RADIX_BITS))). intros t.
  rewrite cluster_of_digit. unfold digit, pass1_bits, pass2_bits, NUM_RADIX_BITS, NUM_PASSES.
  rewrite Z.shiftr_0_r, Z.shiftr_div_pow2 by done.
  change (14 - 14 / 2) with 7. change (14 / 2) with 7. change (2 ^ 14) with (2 ^ 7 * 2 ^ 7).
  change (Z.of_nat (Z.to_nat (2 ^ 7))) with (2 ^ 7).
  rewrite Z.rem_mul_r by lia. lia.
Qed.

(** ** The bucket chains *)

(** The chain that starts at position-plus-one [h] visits the positions [ps]. *)
Inductive chain (nxt : list Z) : Z → list nat → Prop :=
  | chain_nil : chain nxt 0 []
  | chain_cons p h ps : nxt !! p = Some h → chain nxt h ps → chain nxt (Z.of_nat p + 1) (p :: ps).

Lemma chain_snoc nxt b h ps : chain nxt h ps → chain (nxt ++ [b]) h ps.
Proof.
  induction 1 as [| p h ps Hp _ IH]; [constructor |]. apply chain_cons with h; [| done].
  by rewrite lookup_app_l by (by eapply lookup_lt_Some).
Qed.

(** The positions of a bucket, latest first. *)
Definition positions (f : T → Z) (b : nat) (R : list T) : list nat :=
  reverse (List.filter (λ p, match R !! p with Some t => f t =? Z.of_nat b | None => false end)
             (seq 0 (length R))).

Lemma positions_snoc f b (R : list T) t :
  positions f b (R ++ [t]) = (if f t =? Z.of_nat b then [length R] else []) ++ positions f b R.
Proof.
  unfold positions. rewrite length_app, Nat.add_1_r, seq_S, List.filter_app, reverse_app. simpl.
  rewrite lookup_app_r, Nat.sub_diag by lia. simpl. f_equal.
  - by destruct (f t =? Z.of_nat b).
  - f_equal. apply List.filter_ext_in. intros p Hp%List.in_seq. by rewrite lookup_app_l by lia.
Qed.

Lemma positions_length f b (R : list T) : (length (positions f b R) <= length R)%nat.
Proof.
  unfold positions. rewrite length_reverse. etransitivity; [apply List.filter_length_le |]. by rewrite length_seq.
Qed.

(** Counting over the positions of a bucket is counting over its tuples. *)
Lemma positions_count f b R (P : T → bool) :
  count_if (λ p, match R !! p with Some t => P t | None => false end) (positions f b R) =
  count_if (λ t, P t && (f t =? Z.of_nat b)) R.
Proof.
  induction R as [| t R IH] using rev_ind; [done |]. rewrite positions_snoc, !count_if_app, count_if_cons, count_if_nil.
  rewrite <- IH. assert (∀ p, p ∈ positions f b R → (p < length R)%nat) as Hlt.
  { intros p Hp. unfold positions in Hp. rewrite elem_of_reverse in Hp.
    apply list_elem_of_In, List.filter_In in Hp as [Hp%List.in_seq _]. lia. }
  rewrite (count_if_ext _ (λ p, match R !! p with Some t => P t | None => false end) (positions f b R)).
  2: { intros p Hp. by rewrite lookup_app_l by auto. }
  destruct (f t =? Z.of_nat b); rewrite ?andb_true_r, ?andb_false_r, ?count_if_cons, ?count_if_nil; [| lia].
  rewrite lookup_app_r, Nat.sub_diag by lia. simpl. destruct (P t); lia.
Qed.

(** The table after the tuples [R]. *)
Record built (f : T → Z) (n : nat) (R : list T) (ht : list Z * list Z) : Prop := mk_built {
  bt_len : length ht.1 = n;
  bt_next : length ht.2 = length R;
  bt_chain b : (b < n)%nat → ∃ h, ht.1 !! b = Some h ∧ chain ht.2 h (positions f b R)
}.

Lemma prepare_built f n R : (∀ t, t ∈ R → 0 <= f t < Z.of_nat n) →
  ∃ ht, rfoldM (prepare_step f) (replicate n 0, []) R = Ok ht ∧ built f n R ht.
Proof.
  induction R as [| t R IH] using rev_ind; intros Hf.
  - eexists. split; [done |]. split; simpl; [by rewrite length_replicate | done |].
    intros b Hb. exists 0. split; [by apply lookup_replicate_2 | constructor].
  - destruct IH as ([bk nx] & E & [Hl Hn Hc]); [intros; apply Hf; set_solver |]. simpl in *.
    destruct (Hf t ltac:(set_solver)) as [H0 H1].
    rewrite rfoldM_app, E. simpl. destruct (Hc (Z.to_nat (f t)) ltac:(lia)) as (h & Hh & Hch).
    rewrite Hh. simpl. eexists. split; [done |]. split; simpl.
    + by rewrite length_insert.
    + rewrite !length_app. simpl. lia.
    + intros b Hb. rewrite positions_snoc. destruct (Z.eqb_spec (f t) (Z.of_nat b)) as [Eb | Eb]; simpl.
      * assert (b = Z.to_nat (f t)) as -> by lia. exists (Z.of_nat (length nx) + 1).
        split; [apply list_lookup_insert_eq; lia |]. rewrite <- Hn. apply chain_cons with h; [| by apply chain_snoc].
        by rewrite lookup_app_r, Nat.sub_diag by lia.
      * destruct (Hc b Hb) as (h' & Hh' & Hch'). exists h'. rewrite list_lookup_insert_ne by lia.
        split; [done | by apply chain_snoc].
Qed.

Lemma probe_chain R nxt key h ps fuel m : chain nxt h ps → (length ps <= fuel)%nat →
  (∀ p, p ∈ ps → (p < length R)%nat) →
  probe_loop fuel R nxt key h m =
  Ok (m + count_if (λ p, match R !! p with Some t => key =? tkey t | None => false end) ps).
Proof.
  intros Hch. revert fuel m. induction Hch as [| p h ps Hp _ IH]; intros fuel m Hfuel Hlt.
  - destruct fuel; simpl; rewrite count_if_nil; f_equal; lia.
  - destruct fuel as [| fuel]; simpl in Hfuel; [lia |]. simpl.
    rewrite (proj2 (Z.ltb_lt 0 _)) by lia. replace (Z.to_nat (Z.of_nat p + 1 - 1)) with p by lia.
    destruct (lookup_lt_is_Some_2 R p ltac:(set_solver)) as [t Ht]. rewrite Ht, Hp. simpl.
    rewrite IH; [| lia | intros; apply Hlt; set_solver]. rewrite count_if_cons, Ht. f_equal.
    destruct (key =? tkey t); lia.
Qed.

End routines.

(** ** [NEXT_POW_2] *)

(** [W] is [V] smeared over [m] positions to the right. *)
Definition smeared (m : nat) (V W : Z) : Prop :=
  ∀ i, 0 <= i → Z.testbit W i = existsb (λ j, Z.testbit V (i + Z.of_nat j)) (seq 0 m).

Lemma smeared_double m V W : smeared m V W → smeared (m + m) V (Z.lor W (Z.shiftr W (Z.of_nat m))).
Proof.
  intros HW i Hi. rewrite Z.lor_spec, Z.shiftr_spec, !HW by lia. rewrite seq_app, existsb_app. f_equal.
  simpl. rewrite <- (Nat.add_0_r m) at 2. rewrite <- fmap_add_seq. generalize (seq 0 m).
  induction l as [| j l IH]; [done |]. simpl. rewrite IH. do 2 f_equal. lia.
Qed.

Lemma smeared_ones V W : 0 <= V < 2 ^ 32 → smeared 32 V W →
  W = if V =? 0 then 0 else Z.ones (Z.log2 V + 1).
Proof.
  intros HV HW. apply Z.bits_inj'. intros i Hi. rewrite HW by done. destruct (Z.eqb_spec V 0) as [-> | HV0].
  - rewrite Z.bits_0. induction (seq 0 32) as [| j l IH]; [done |]. simpl. by rewrite Z.bits_0.
  - assert (Z.log2 V < 32) by (apply Z.log2_lt_pow2; lia). pose proof (Z.log2_nonneg V).
    rewrite testbit_ones by lia. destruct (Z.ltb_spec i (Z.log2 V + 1)) as [Hle | Hgt].
    + apply existsb_exists. exists (Z.to_nat (Z.log2 V - i)). split; [apply List.in_seq; lia |].
      replace (i + Z.of_nat (Z.to_nat (Z.log2 V - i))) with (Z.log2 V) by lia. apply Z.bit_log2. lia.
    + apply not_true_iff_false. intros (j & _ & Hj)%existsb_exists. rewrite Z.bits_above_log2 in Hj; [done | lia | lia].
Qed.

(** The macro rounds up to a power of two. *)
Lemma NEXT_POW_2_spec V : 1 <= V <= 2 ^ 31 → NEXT_POW_2 V = 2 ^ Z.log2_up V.
Proof.
  intros HV. unfold NEXT_POW_2. rewrite (wrap_id 32 (V - 1)) by lia.
  set (W := Z.lor _ (Z.shiftr _ 16)).
  assert (W = if V - 1 =? 0 then 0 else Z.ones (Z.log2 (V - 1) + 1)) as ->.
  { apply smeared_ones; [lia |]. unfold W. apply (smeared_double 16), (smeared_double 8), (smeared_double 4), (smeared_double 2), (smeared_double 1).
    intros i Hi. simpl. by rewrite Z.add_0_r, orb_false_r. }
  destruct (Z.eqb_spec (V - 1) 0) as [E | E].
  - by replace V with 1 by lia.
  - unfold Z.log2_up. rewrite (proj2 (Z.compare_lt_iff 1 V)) by lia. rewrite <- Z.sub_1_r, Z.ones_equiv.
    rewrite <- Z.add_1_r. rewrite <- Z.sub_1_r, Z.sub_add. apply wrap_id.
    assert (Z.log2 (V - 1) < 31) by (apply Z.log2_lt_pow2; lia). pose proof (Z.log2_nonneg (V - 1)).
    split; [lia | apply Z.pow_lt_mono_r; lia].
Qed.

Lemma NEXT_POW_2_range V : 1 <= V <= 2 ^ 31 → 1 <= NEXT_POW_2 V <= 2 ^ 31.
Proof.
  intros HV. rewrite NEXT_POW_2_spec by done. pose proof (Z.log2_up_nonneg V).
  assert (Z.log2_up V <= 31) by (apply Z.log2_up_le_pow2; lia).
  split; [lia | apply Z.pow_le_mono_r; lia].
Qed.

(** ** The join *)

Section join.
Context {T : Type} `{Tuple T}.
Implicit Types (R S l : list T) (s t : T).

Abbreviation part f i l := (List.filter (λ t, f t =? Z.of_nat i) l).
Abbreviation start f i l := (length (clusters f i l)).

(** The index a table of [n] buckets gives a key. *)
Lemma bucket_index K n : 1 <= n <= 2 ^ 31 →
  0 <= HASH_BIT_MODULO K (u32 (Z.shiftl (u32 (n - 1)) NUM_RADIX_BITS)) NUM_RADIX_BITS < n.
Proof.
  intros Hn. rewrite (wrap_id 32 (n - 1)) by lia. unfold HASH_BIT_MODULO.
  set (M := u32 _). assert (0 <= M) by (apply wrap_range; lia). rewrite Z.land_comm.
  destruct (land_range M K ltac:(done)) as [HL HU]. split; [by apply Z.shiftr_nonneg |].
  rewrite Z.shiftr_div_pow2 by done. apply Z.div_lt_upper_bound; [done |].
  assert (M <= Z.shiftl (n - 1) NUM_RADIX_BITS).
  { unfold M. apply Z.mod_le; [apply Z.shiftl_nonneg; lia | done]. }
  rewrite Z.shiftl_mul_pow2 in H1 by done. unfold NUM_RADIX_BITS in *. lia.
Qed.

(** A probe counts the matching tuples. *)
Lemma prepare_probe R : R ≠ [] → Z.of_nat (length R) < 2 ^ 31 →
  let rel := mk_rel R (Z.of_nat (length R)) in
  ∃ ht, bucket_chaining_prepare_relation rel = Ok ht ∧
    ∀ s, bucket_chaining_probe rel ht s = Ok (count_if (λ r, tkey s =? tkey r) R).
Proof.
  intros Hne Hlen rel. assert (1 <= Z.of_nat (length R)) as H1 by (destruct R; [done | simpl; lia]).
  unfold bucket_chaining_prepare_relation, bucket_chaining_prepare. cbn [rel tuples num_tuples].
  rewrite wrap_id by lia. rewrite read_n_all by done. cbn [rbind].
  pose proof (NEXT_POW_2_range (Z.of_nat (length R)) ltac:(lia)) as HN.
  set (N := NEXT_POW_2 _) in *. set (M := u32 _). set (f := λ t, HASH_BIT_MODULO _ _ _).
  assert (∀ t, 0 <= f t < N) as Hf by (intros t; by apply bucket_index).
  destruct (prepare_built f (Z.to_nat N) R) as ([bk nx] & E & Hb); [intros t _; specialize (Hf t); lia |].
  rewrite E. eexists. split; [done |]. intros s. unfold bucket_chaining_probe. cbn [mask bucket next].
  change (HASH_BIT_MODULO (tkey s) M NUM_RADIX_BITS) with (f s). destruct (Hf s) as [H0 H2].
  destruct Hb as [_ _ Hch]. destruct (Hch (Z.to_nat (f s)) ltac:(lia)) as (h & Hh & Hc). simpl in Hh, Hc.
  rewrite Hh. cbn [of_option rbind]. rewrite (probe_chain R nx (tkey s) h (positions f (Z.to_nat (f s)) R)); [| done | apply positions_length |].
  - rewrite (positions_count f (Z.to_nat (f s)) R (λ t, tkey s =? tkey t)). f_equal.
    apply count_if_ext. intros t _. destruct (Z.eqb_spec (tkey s) (tkey t)) as [E' |]; [| done].
    simpl. apply Z.eqb_eq. unfold f in *. rewrite <- E'. lia.
  - intros p Hp. unfold positions in Hp. rewrite elem_of_reverse in Hp.
    apply list_elem_of_In, List.filter_In in Hp as [Hp%List.in_seq _]. simpl. lia.
Qed.

Lemma nested_loop_app R S S' : nested_loop_join R (S ++ S') = nested_loop_join R S + nested_loop_join R S'.
Proof. induction S as [| s S IH]; [done |]. simpl. rewrite IH. lia. Qed.

#[local] Instance nested_loop_proper : Proper ((≡ₚ) ==> (≡ₚ) ==> (=)) (nested_loop_join (T := T)).
Proof.
  intros R R' HR S S' HS. transitivity (nested_loop_join R S').
  - induction HS; simpl; lia.
  - clear HS. induction S' as [| s S' IH]; [done |]. simpl. by rewrite IH, (count_if_perm _ R R' HR).
Qed.

(** A tuple only matches tuples of its own cluster. *)
Lemma nested_loop_part R S i :
  nested_loop_join (part cluster_of i R) (part cluster_of i S) = nested_loop_join R (part cluster_of i S).
Proof.
  assert (∀ s, s ∈ part cluster_of i S → cluster_of s = Z.of_nat i) as HS.
  { intros s [_ Hs%Z.eqb_eq]%list_elem_of_In%List.filter_In. done. }
  induction (part cluster_of i S) as [| s S' IH]; [done |]. simpl. rewrite IH by (intros; apply HS; by right). f_equal.
  specialize (HS s ltac:(left)). clear -HS. induction R as [| r R IH]; [done |]. simpl. rewrite count_if_cons.
  destruct (Z.eqb_spec (cluster_of r) (Z.of_nat i)) as [E | E]; [rewrite count_if_cons; lia |].
  destruct (Z.eqb_spec (tkey s) (tkey r)) as [E' |]; [| lia]. exfalso. apply E. rewrite <- HS. unfold cluster_of. by rewrite E'.
Qed.

Lemma probe_all rel ht R S acc :
  (∀ s, bucket_chaining_probe rel ht s = Ok (count_if (λ r, tkey s =? tkey r) R)) →
  rfoldM (λ acc x, rbind (bucket_chaining_probe rel ht x) (λ m, Ok (acc + m))) acc S =
  Ok (acc + nested_loop_join R S).
Proof.
  intros Hp. revert acc. induction S as [| s S IH]; intros acc; simpl; [by rewrite Z.add_0_r |].
  rewrite Hp. simpl. rewrite IH. f_equal. lia.
Qed.

Lemma subrelation_part f n l i : (i < n)%nat →
  subrelation (clusters f n l) (Z.of_nat (start f i l)) (Z.of_nat (length (part f i l))) =
  Ok (mk_rel (part f i l) (Z.of_nat (length (part f i l)))).
Proof.
  intros Hi. unfold subrelation, read_n.
  assert (∃ rest, clusters f n l = clusters f i l ++ part f i l ++ rest) as [rest ->].
  { rewrite <- (take_drop (start f (S i) l) (clusters f n l)).
    exists (drop (start f (S i) l) (clusters f n l)). rewrite app_assoc, <- clusters_S. f_equal.
    clear -Hi. induction n as [| n IH]; [lia |]. destruct (decide (i = n)) as [-> | Hne]; [by rewrite take_ge |].
    rewrite (clusters_S f n), take_app_le by (apply start_mono; lia). apply IH. lia. }
  rewrite Nat2Z.id, drop_app_length. rewrite length_app, (proj2 (Z.leb_le _ _)) by lia.
  rewrite Nat2Z.id, take_app_length. done.
Qed.

Lemma rfoldM_fmap {A B St} (f : St → B → res St) (h : A → B) (st : St) (l : list A) :
  rfoldM f st (h <$> l) = rfoldM (λ st x, f st (h x)) st l.
Proof. revert st. induction l as [| x l IH]; intros st; simpl; [done |]. destruct (f st (h x)); [apply IH | done]. Qed.

Lemma zip_fmap {A B C} (f : A → B) (g : A → C) (l : list A) :
  zip (f <$> l) (g <$> l) = (λ x, (f x, g x)) <$> l.
Proof. induction l as [| x l IH]; simpl; [done |]. by f_equal. Qed.

(** The loop over the clusters. *)
Lemma join_clusters n R S : Z.of_nat (length R) < 2 ^ 31 →
  ∃ rs, rfoldM (join_cluster (clusters cluster_of n R) (clusters cluster_of n S)) (0, 0, 0)
    (zip (counts_of cluster_of n R) (counts_of cluster_of n S)) =
  Ok (rs, nested_loop_join R (clusters cluster_of n S)).
Proof.
  intros HR. unfold counts_of. rewrite zip_fmap, rfoldM_fmap.
  destruct (rfoldM_seq_inv
    (λ st i, join_cluster (clusters cluster_of n R) (clusters cluster_of n S) st
       (Z.of_nat (length (part cluster_of i R)), Z.of_nat (length (part cluster_of i S))))
    (λ k st, st = (Z.of_nat (start cluster_of k R), Z.of_nat (start cluster_of k S),
                   nested_loop_join R (clusters cluster_of k S))) n (0, 0, 0))
    as (st & E & ->); [done | | by rewrite E; eauto].
  intros k st Hk ->. eexists. split; [| reflexivity]. rewrite Nat.add_1_r, !start_S, clusters_S, nested_loop_app, !Nat2Z.inj_add.
  unfold join_cluster. pose proof (nested_loop_part R S k) as Hpart.
  destruct (Z.ltb_spec 0 (Z.of_nat (length (part cluster_of k R)))) as [HRk | HRk]; cbn [andb].
  - destruct (Z.ltb_spec 0 (Z.of_nat (length (part cluster_of k S)))) as [HSk | HSk].
    + rewrite !subrelation_part by done. cbn [rbind].
      destruct (prepare_probe (part cluster_of k R)) as (ht & -> & Hp).
      { intros E. rewrite E in HRk. simpl in HRk. lia. }
      { pose proof (part_length_le cluster_of k R). lia. }
      cbn [rbind tuples]. rewrite (probe_all _ ht (part cluster_of k R)) by done. cbn [rbind].
      by rewrite Hpart.
    + destruct (part cluster_of k S) as [| ? ?]; [| simpl in HSk; lia]. simpl. by rewrite !Z.add_0_r.
  - destruct (part cluster_of k R) as [| ? ?]; [| simpl in HRk; lia]. rewrite <- Hpart.
    assert (nested_loop_join [] (part cluster_of k S) = 0) as ->; [| simpl; by rewrite !Z.add_0_r].
    clear. induction (part cluster_of k S) as [| s S' IH]; [done |]. simpl. by rewrite IH.
Qed.

Lemma join_clustered R S : Z.of_nat (length R) < 2 ^ 31 →
  let n := Z.to_nat (2 ^ NUM_RADIX_BITS) in
  ∃ rs, rfoldM (join_cluster (clustered R) (clustered S)) (0, 0, 0)
    (zip (counts_of cluster_of n R) (counts_of cluster_of n S)) = Ok (rs, nested_loop_join R S).
Proof.
  intros HR n. rewrite <- (nested_loop_proper R R ltac:(done) _ _ (clustered_perm S)).
  exact (join_clusters n R S HR).
Qed.

(** Both passes over an array, through a temporary array that may be longer. *)
Lemma cluster_two_passes mem l : Z.of_nat (length l) < 2 ^ 31 → (length l <= length mem)%nat →
  ∃ tmp, radix_cluster_nopadding mem l (Z.of_nat (length l)) 0 pass1_bits = Ok tmp ∧
    radix_cluster_nopadding l tmp (Z.of_nat (length l)) pass1_bits pass2_bits = Ok (clustered l).
Proof.
  intros Hlen Hmem. pose proof (radix_cluster_ok mem l [] 0 pass1_bits Hlen Hmem) as E1.
  rewrite app_nil_r in E1. eexists. split; [by apply E1 |].
  set (l1 := clusters _ _ l). assert (l1 ≡ₚ l) as Hp.
  { apply clusters_perm. intros t _. pose proof (digit_range 0 pass1_bits t ltac:(done)). lia. }
  rewrite <- (Permutation_length Hp). rewrite radix_cluster_ok; rewrite ?(Permutation_length Hp); try done.
  rewrite drop_all, app_nil_r. unfold l1. by rewrite two_passes.
Qed.

Lemma histogram_clusters l : Z.of_nat (length l) < 2 ^ 31 →
  histogram inc_int cluster_of (Z.shiftl 1 NUM_RADIX_BITS) l =
  Ok (counts_of cluster_of (Z.to_nat (2 ^ NUM_RADIX_BITS)) l).
Proof.
  intros Hlen. rewrite Z.shiftl_1_l. apply histogram_counts; [| done | done | intros; apply cluster_of_range].
  intros c Hc. unfold inc_int. by rewrite (proj2 (Z.ltb_lt _ _)) by lia.
Qed.

Lemma counts_of_perm f n l k : l ≡ₚ k → counts_of f n l = counts_of f n k.
Proof.
  intros Hp. apply list_fmap_ext. intros _ i _. f_equal. pose proof (count_if_perm (λ t, f t =? Z.of_nat i) l k Hp) as E.
  unfold count_if in E. lia.
Qed.

(** C5: The radix join counts exactly the pairs of tuples with equal keys, as a nested loop over
    the two relations would: for relations below 2^31 tuples it always returns, whatever the
    temporary arrays held, and it leaves each relation a rearrangement of itself. *)
Theorem RJStepwise_is_nested_loop (memR memS R S : list T) :
  Z.of_nat (length R) < 2 ^ 31 → Z.of_nat (length S) < 2 ^ 31 →
  (length R <= length memR)%nat → (length S <= length memS)%nat →
  ∃ R' S', RJStepwise memR memS (mk_rel R (Z.of_nat (length R))) (mk_rel S (Z.of_nat (length S))) =
    Ok (mk_rel R' (Z.of_nat (length R)), mk_rel S' (Z.of_nat (length S)), nested_loop_join R S) ∧
    R' ≡ₚ R ∧ S' ≡ₚ S.
Proof.
  intros HR HS HmR HmS.
  destruct (cluster_two_passes memR R HR HmR) as (tR & E1 & E2).
  destruct (cluster_two_passes memS S HS HmS) as (tS & E3 & E4).
  exists (clustered R), (clustered S). split; [| split; apply clustered_perm].
  pose proof (clustered_perm R) as PR. pose proof (clustered_perm S) as PS.
  unfold RJStepwise, radix_cluster_relation. cbn [tuples num_tuples].
  rewrite E1. cbn [rbind tuples num_tuples]. rewrite E3. cbn [rbind tuples num_tuples].
  rewrite E2. cbn [rbind tuples num_tuples]. rewrite E4. cbn [rbind tuples num_tuples].
  rewrite !read_n_all by (by rewrite (Permutation_length PR) || by rewrite (Permutation_length PS)).
  cbn [rbind]. rewrite !histogram_clusters by (rewrite ?(Permutation_length PR), ?(Permutation_length PS); done).
  cbn [rbind]. rewrite (counts_of_perm _ _ _ _ PR), (counts_of_perm _ _ _ _ PS).
  destruct (join_clustered R S HR) as (rs & ->). done.
Qed.

(** Partitioning an array of fewer than 2^31 tuples always returns: the array then holds its
    tuples stably ordered by the low 14 bits of their keys, and the counts are the sizes of
    these clusters, in order. *)
Theorem partitionHT_clusters (mem l : list T) :
  Z.of_nat (length l) < 2 ^ 31 → (length l <= length mem)%nat →
  ∃ out counts, partitionHT mem (Z.of_nat (length l)) l = Ok (out, counts) ∧ out ≡ₚ l ∧
    out = clusters (λ t, tkey t mod 2 ^ 14) (Z.to_nat (2 ^ 14)) l ∧
    ∀ i, (i < Z.to_nat (2 ^ 14))%nat →
      counts !! i = Some (count_if (λ t, tkey t mod 2 ^ 14 =? Z.of_nat i) l).
Proof.
  intros Hl Hm. destruct (cluster_two_passes mem l Hl Hm) as (tmp & E1 & E2). pose proof (clustered_perm l) as P.
  assert (∀ t, cluster_of t = tkey t mod 2 ^ 14) as Hc
    by (intros t; rewrite cluster_of_digit; unfold digit; by rewrite Z.shiftr_0_r).
  eexists _, _. unfold partitionHT. rewrite E1. cbn [rbind]. rewrite E2. cbn [rbind].
  rewrite read_n_all by (by rewrite (Permutation_length P)). cbn [rbind].
  rewrite histogram_clusters by (by rewrite (Permutation_length P)). cbn [rbind]. split; [done |].
  split; [done |]. split; [by apply clusters_ext |]. intros i Hi. rewrite (counts_of_perm _ _ _ _ P).
  rewrite counts_of_lookup by done. f_equal. change (count_if (λ t, cluster_of t =? Z.of_nat i) l = count_if (λ t, tkey t mod 2 ^ 14 =? Z.of_nat i) l).
  apply count_if_ext. intros t _. by rewrite Hc.
Qed.

End join.
End Radix.

(** ** The two namespaces *)

Module joins.

(** A 32-bit key. *)
Record join_tuple_t : Type := mk { key : Z; payload : Z }.
#[export] Instance joins_tuple : Tuple join_tuple_t := key.

Definition ex_R : list join_tuple_t := [mk 1 10; mk 16385 20; mk (-1) 30; mk 1 40].
Definition ex_S : list join_tuple_t := [mk (-1) 50; mk 1 60; mk 7 70].

Lemma RJStepwise_is_nested_loop_witness : ∃ R' S',
  Radix.RJStepwise ex_R ex_S (Radix.mk_rel ex_R 4) (Radix.mk_rel ex_S 3) =
    Ok (Radix.mk_rel R' 4, Radix.mk_rel S' 3, 3) ∧ R' ≡ₚ ex_R ∧ S' ≡ₚ ex_S.
Proof.
  change 3 with (Radix.nested_loop_join ex_R ex_S) at 3.
  apply (Radix.RJStepwise_is_nested_loop ex_R ex_S ex_R ex_S); simpl; lia.
Defined.

End joins.

(** [radix-aggr.cpp] repeats the routines of [radix-join.cpp] over tuples with 64-bit keys. *)
Module agg.

(** A 64-bit key. *)
Record agg_tuple_t : Type := mk { key : Z; payload : Z }.
#[export] Instance agg_tuple : Tuple agg_tuple_t := key.

Definition radix_cluster_nopadding_agg := Radix.radix_cluster_nopadding (T := agg_tuple_t).
Definition radix_cluster_relation_agg := Radix.radix_cluster_relation (T := agg_tuple_t).
Definition bucket_chaining_agg_prepare_relation := Radix.bucket_chaining_prepare_relation (T := agg_tuple_t).
Definition bucket_chaining_agg_prepare := Radix.bucket_chaining_prepare (T := agg_tuple_t).
Definition bucket_chaining_agg_probe := Radix.bucket_chaining_probe (T := agg_tuple_t).
Definition partitionHT_agg := Radix.partitionHT (T := agg_tuple_t).
Definition RJStepwise_agg := Radix.RJStepwise (T := agg_tuple_t).

Definition ex_tuples : list agg_tuple_t := [mk (2 ^ 40 + 1) 10; mk 0 20; mk 1 30].

Lemma partitionHT_clusters_witness : ∃ out counts,
  Radix.partitionHT ex_tuples 3 ex_tuples = Ok (out, counts) ∧ out ≡ₚ ex_tuples ∧
    out = Radix.clusters (λ t, tkey t mod 2 ^ 14) (Z.to_nat (2 ^ 14)) ex_tuples ∧
    ∀ i, (i < Z.to_nat (2 ^ 14))%nat →
      counts !! i = Some (count_if (λ t, tkey t mod 2 ^ 14 =? Z.of_nat i) ex_tuples).
Proof. apply (Radix.partitionHT_clusters ex_tuples ex_tuples); simpl; lia. Defined.

End agg.
