(* ===== verification/MemoryManager.v ===== *)
(** * MemoryManager: the platform's per-device memory manager
    ([SingleDeviceMemoryManager], the NUMA allocator under it and the aligned allocations, in
    [platform/memory/memory-manager.hpp] and [platform/lib/memory/memory-manager.cpp]).

    Small requests are cut from large units, bump-pointer fashion, out of the unit on top of a
    stack; a unit only counts the pieces that are still in use and goes back, possibly into a
    cache, when it is on top and the count is zero.  Large requests go to the device.  The
    address the device returns ([cpunumanode::alloc], [cudaMalloc]) is an argument of the
    operations.  Each operation is modelled as run under the locks it takes. *)

From S2P Require Import Prelude.
From Stdlib Require Import ZArith Lia Bool.
From stdpp Require Import base numbers list gmap sets relations.

Local Open Scope Z_scope.
Local Open Scope res_scope.

Module MemoryManager.

Definition freed_cache_cap : nat := 16.
Definition unit_capacity_gpu : Z := 128 * 1024 * 1024.
Definition unit_capacity_cpu : Z := 1024 * 1024 * 1024.

(** Rounds up to 16 bytes; [~0xF] as a [size_t]. *)
Definition fixSize (bytes : Z) : Z := Z.land (u64 (Z.max bytes 1 + 15)) (2 ^ 64 - 16).

(** ** The device: [NUMAMemAllocator] under [NUMAPinnedMemAllocator] *)

Record device : Type := mk_dev { sizes : gmap Z Z; usage : Z }.

(** [emplace] keeps an entry that is already there. *)
Definition emplace {A} (k : Z) (v : A) (m : gmap Z A) : gmap Z A :=
  match m !! k with Some _ => m | None => <[k := v]> m end.

(** [x]: the address [cpunumanode::alloc] returns. *)
Definition numa_malloc (x bytes : Z) (d : device) : res (Z * device) :=
  check negb (x =? 0) else AssertFailed;
  Ok (x, mk_dev (emplace x bytes (sizes d)) (u64 (usage d + bytes))).

(** The iterator is dereferenced before it is compared with the end. *)
Definition numa_free (ptr : Z) (d : device) : res device :=
  do bytes <- of_option Undefined (sizes d !! ptr);
  Ok (mk_dev (delete ptr (sizes d)) (u64 (usage d - bytes))).

(** Registration with the GPU driver has no effect on the state kept here. *)
Definition dev_malloc (x bytes : Z) (d : device) : res (Z * device) :=
  do (ptr, d') <- numa_malloc x bytes d;
  check 4 <? bytes else AssertFailed;
  Ok (ptr, d').

Definition dev_free (ptr : Z) (d : device) : res device := numa_free ptr d.

(** ** The manager *)

Record alloc_unit_info : Type := mk_info { base : Z; fill : Z; sub_units : Z }.

(** [allocations] and [free_cache] with the top first. *)
Record manager : Type := mk {
  big_units : gmap Z Z;
  units : gmap Z alloc_unit_info;
  allocations : list Z;
  free_cache : list Z;
  active_bytes : Z
}.

Definition manager_new : manager := mk ∅ ∅ [] [] 0.

Definition with_unit (m : manager) (b : Z) (i : alloc_unit_info) : manager :=
  mk (big_units m) (<[b := i]> (units m)) (allocations m) (free_cache m) (active_bytes m).

(** Returns the key of the unit it creates. *)
Definition create_allocation (cap x : Z) (d : device) (m : manager) : res (Z * device * manager) :=
  let active := u64 (active_bytes m + cap) in
  do (ptr, d', cache) <-
    match free_cache m with
    | [] => do (p, d') <- dev_malloc x cap d; Ok (p, d', [])
    | p :: cache => Ok (p, d, cache)
    end;
  Ok (ptr, d', mk (big_units m) (emplace ptr (mk_info ptr 0 0) (units m)) (ptr :: allocations m) cache active).

Definition destroy_allocation (cap : Z) (d : device) (m : manager) : res (device * manager) :=
  match allocations m with
  | [] => Err Undefined
  | b :: rest =>
      let active := u64 (active_bytes m - cap) in
      if Nat.ltb (length (free_cache m)) freed_cache_cap then
        Ok (d, mk (big_units m) (delete b (units m)) rest (b :: free_cache m) active)
      else
        do d' <- dev_free b d;
        Ok (d', mk (big_units m) (delete b (units m)) rest (free_cache m) active)
  end.

(** The unit to cut from: the top one, or a new one. *)
Definition pick_unit (cap x bytes : Z) (d : device) (m : manager) : res (Z * device * manager) :=
  match allocations m with
  | [] => create_allocation cap x d m
  | latest :: _ =>
      do info <- of_option AssertFailed (units m !! latest);
      if cap <? fill info + bytes then create_allocation cap x d m else Ok (latest, d, m)
  end.

Definition malloc (cap x bytes : Z) (d : device) (m : manager) : res (Z * device * manager) :=
  let bytes := fixSize bytes in
  if cap <=? bytes then
    do (ptr, d') <- dev_malloc x bytes d;
    Ok (ptr, d', mk (emplace ptr bytes (big_units m)) (units m) (allocations m) (free_cache m)
                    (u64 (active_bytes m + bytes)))
  else
    do (b, d', m') <- pick_unit cap x bytes d m;
    do info <- of_option Undefined (units m' !! b);
    Ok (base info + fill info, d',
        with_unit m' b (mk_info (base info) (fill info + bytes) (sub_units info + 1))).

(** The last key not above [p]: [--units.upper_bound(p)]. *)
Definition floor_key {A} (u : gmap Z A) (p : Z) : option Z :=
  foldr (λ k acc,
      if k <=? p then Some (match acc with Some a => Z.max a k | None => k end) else acc)
    None ((map_to_list u).*1).

(** Units on top of the stack that hold nothing are given back. *)
Fixpoint release_empty (fuel : nat) (cap : Z) (d : device) (m : manager) : res (device * manager) :=
  match fuel, allocations m with
  | _, [] => Ok (d, m)
  | O, _ => Err Blocked
  | S fuel, tmp_base :: _ =>
      do i <- of_option AssertFailed (units m !! tmp_base);
      if sub_units i =? 0 then
        do (d', m') <- destroy_allocation cap d m; release_empty fuel cap d' m'
      else Ok (d, m)
  end.

Definition free (cap ptr : Z) (d : device) (m : manager) : res (device * manager) :=
  if ptr =? 0 then Ok (d, m) else
  match big_units m !! ptr with
  | Some n =>
      do d' <- dev_free ptr d;
      Ok (d', mk (delete ptr (big_units m)) (units m) (allocations m) (free_cache m)
                 (u64 (active_bytes m - n)))
  | None =>
      do b <- of_option AssertFailed (floor_key (units m) ptr);
      do info <- of_option Undefined (units m !! b);
      check ptr <=? base info + cap else AssertFailed;
      check 0 <? sub_units info else AssertFailed;
      let m' := with_unit m b (mk_info (base info) (fill info) (sub_units info - 1)) in
      if sub_units info - 1 =? 0 then release_empty (length (allocations m)) cap d m' else Ok (d, m')
  end.

(** The destructor: the cached units go back, then everything must be gone. *)
Definition destroy (d : device) (m : manager) : res device :=
  do d' <- rfoldM (λ d b, dev_free b d) d (free_cache m);
  check bool_decide (allocations m = []) else AssertFailed;
  check bool_decide (units m = ∅) else AssertFailed;
  check bool_decide (big_units m = ∅) else AssertFailed;
  check active_bytes m =? 0 else AssertFailed;
  Ok d'.

(** ** Aligned allocations *)

(** [ptr]: what [mallocPinned(size + align)] returned.  The result, and the address of the word
    in front of it that keeps [ptr] for [freePinnedAligned]. *)
Definition mallocPinnedAligned_ptr (ptr align : Z) : Z * Z :=
  let res := u64 (Z.land ptr (2 ^ 64 - 1 - u64 (align - 1)) + align) in (res, u64 (res - 8)).

(** ** Blocks of memory *)

Abbreviation block := (Z * Z)%type.

Definition apart (r s : block) : Prop := r.1 + r.2 <= s.1 ∨ s.1 + s.2 <= r.1.
Abbreviation all_apart := (ForallOrdPairs apart).

Definition total (l : list block) : Z := foldr (λ r acc, r.2 + acc) 0 l.

#[export] Instance apart_sym : Symmetric apart.
Proof. intros r s [H | H]; [by right | by left]. Qed.

Lemma all_apart_cons r l : all_apart (r :: l) ↔ (∀ s, s ∈ l → apart r s) ∧ all_apart l.
Proof.
  split.
  - intros H. inversion H as [| ? ? Hr Hl]; subst. split; [| done]. intros s Hs.
    rewrite Forall_forall in Hr. by apply Hr.
  - intros [Hr Hl]. constructor; [by apply Forall_forall | done].
Qed.

#[export] Instance all_apart_proper : Proper ((≡ₚ) ==> iff) all_apart.
Proof.
  assert (∀ l k, l ≡ₚ k → all_apart l → all_apart k) as H; [| by intros l k E; split; apply H].
  induction 1 as [| x l k Hp IH | x y l | l k j _ IH1 _ IH2]; [done | | | auto].
  - rewrite !all_apart_cons. intros [Hx Hl]. split; [intros s Hs; apply Hx; by rewrite Hp | auto].
  - rewrite !all_apart_cons. intros (Hy & Hx & Hl). split; [| split; [| done]].
    + intros s [-> | Hs]%elem_of_cons; [apply apart_sym; apply Hy; left | by apply Hx].
    + intros s Hs. apply Hy. by right.
Qed.

#[export] Instance total_proper : Proper ((≡ₚ) ==> (=)) total.
Proof. unfold total. induction 1; simpl; lia. Qed.

Lemma all_apart_unique l r s p : all_apart l → r ∈ l → s ∈ l →
  r.1 <= p < r.1 + r.2 → s.1 <= p < s.1 + s.2 → r = s.
Proof.
  intros Hl Hr%list_elem_of_In Hs%list_elem_of_In H1 H2.
  destruct (ForallOrdPairs_In Hl r s Hr Hs) as [-> | [[?|?]|[?|?]]]; [done | lia..].
Qed.

Lemma all_apart_app l k : all_apart (l ++ k) → ∀ r s, r ∈ l → s ∈ k → apart r s.
Proof.
  induction l as [| x l IH]; intros H r s Hr Hs; [by apply not_elem_of_nil in Hr |].
  simpl in H. apply all_apart_cons in H as [Hx Hl].
  apply elem_of_cons in Hr as [-> | Hr]; [apply Hx, elem_of_app; by right | by apply IH].
Qed.

(** ** What the device holds *)

(** The device handed out the blocks [hs]. *)
Record dev_inv (d : device) (hs : list block) : Prop := mk_dev_inv {
  d_apart : all_apart hs;
  d_pos r : r ∈ hs → 0 < r.1 ∧ 0 < r.2;
  d_sizes b n : sizes d !! b = Some n ↔ (b, n) ∈ hs;
  d_usage : usage d = u64 (total hs)
}.

#[export] Instance dev_inv_proper d : Proper ((≡ₚ) ==> iff) (dev_inv d).
Proof.
  assert (∀ l k, l ≡ₚ k → dev_inv d l → dev_inv d k) as H; [| by intros l k E; split; apply H].
  intros l k E [H1 H2 H3 H4]. split; [by rewrite <- E | | | by rewrite <- E].
  - intros r Hr. apply H2. by rewrite E.
  - intros b n. by rewrite H3, E.
Qed.

(** What the operating system guarantees of the address of a new block. *)
Definition fresh (hs : list block) (x n : Z) : Prop := 0 < x ∧ ∀ r, r ∈ hs → apart (x, n) r.

Lemma wrap_add_l w a b : wrap w (wrap w a + b) = wrap w (a + b).
Proof. unfold wrap. by rewrite Zplus_mod_idemp_l. Qed.

Lemma wrap_sub_l w a b : wrap w (wrap w a - b) = wrap w (a - b).
Proof. unfold wrap. by rewrite Zminus_mod_idemp_l. Qed.

Lemma dev_malloc_ok d hs x n : dev_inv d hs → fresh hs x n → 4 < n →
  ∃ d', dev_malloc x n d = Ok (x, d') ∧ dev_inv d' ((x, n) :: hs).
Proof.
  intros [H1 H2 H3 H4] [Hx Hf] Hn. unfold dev_malloc, numa_malloc.
  rewrite (proj2 (Z.eqb_neq x 0)) by lia. rewrite (proj2 (Z.ltb_lt _ _)) by done. cbn [negb rbind].
  eexists. split; [done |].
  assert (sizes d !! x = None) as Hnone.
  { apply eq_None_not_Some. intros [k Hk%H3]. destruct (H2 _ Hk), (Hf _ Hk); simpl in *; lia. }
  unfold emplace. rewrite Hnone. split; simpl.
  - by apply all_apart_cons.
  - intros r [-> | Hr]%elem_of_cons; [simpl; lia | by apply H2].
  - intros b k. rewrite elem_of_cons, <- H3, lookup_insert_Some. split.
    + intros [[-> ->] | [_ ?]]; [by left | by right].
    + intros [[= -> ->] | E]; [by left |]. right. split; [| done]. intros <-. congruence.
  - rewrite H4, wrap_add_l. f_equal. lia.
Qed.

Lemma dev_free_ok d hs p n : dev_inv d ((p, n) :: hs) →
  ∃ d', dev_free p d = Ok d' ∧ dev_inv d' hs.
Proof.
  intros [H1 H2 H3 H4]. unfold dev_free, numa_free. rewrite (proj2 (H3 p n)) by left. simpl.
  eexists. split; [done |]. apply all_apart_cons in H1 as [Hp H1].
  destruct (H2 (p, n) ltac:(left)) as [Hp0 Hn0]. simpl in *.
  split; simpl; [done | | |].
  - intros r Hr. apply H2. by right.
  - intros b k. rewrite lookup_delete_Some, H3, elem_of_cons. split.
    + intros [Hne [[= -> ->] | Hb]]; [done | done].
    + intros Hb. split; [| by right]. intros <-. destruct (H2 (p, k) ltac:(by right)), (Hp _ Hb); simpl in *; lia.
  - rewrite H4, wrap_sub_l. f_equal. lia.
Qed.

(** ** The invariant *)

Definition in_unit (cap b : Z) (r : block) : bool := (b <=? r.1) && (r.1 <? b + cap).

Lemma in_unit_true cap b r : in_unit cap b r = true ↔ b <= r.1 < b + cap.
Proof. unfold in_unit. rewrite andb_true_iff, Z.leb_le, Z.ltb_lt. done. Qed.

(** The blocks the manager has from the device that may hold allocations, and all of them. *)
Definition in_use (cap : Z) (m : manager) : list block :=
  ((λ b, (b, cap)) <$> allocations m) ++ map_to_list (big_units m).
Definition held (cap : Z) (m : manager) : list block :=
  ((λ b, (b, cap)) <$> free_cache m) ++ in_use cap m.

(** [live]: the allocations not freed, with their rounded sizes. *)
Record inv0 (cap : Z) (d : device) (m : manager) (live : list block) : Prop := mk_inv0 {
  i_dev : dev_inv d (held cap m);
  i_active : active_bytes m = u64 (total (in_use cap m));
  i_units b : b ∈ allocations m ↔ is_Some (units m !! b);
  i_info b i : units m !! b = Some i →
    base i = b ∧ 0 <= fill i <= cap ∧ sub_units i = count_if (in_unit cap b) live;
  i_live r : r ∈ live → 0 < r.2 ∧
    (big_units m !! r.1 = Some r.2 ∨
     ∃ b i, units m !! b = Some i ∧ b <= r.1 ∧ r.1 + r.2 <= b + fill i);
  i_big p n : big_units m !! p = Some n → (p, n) ∈ live;
  i_disj : all_apart live
}.

(** A unit on top of the stack is in use. *)
Definition top_used (m : manager) : Prop :=
  ∀ b rest i, allocations m = b :: rest → units m !! b = Some i → 0 < sub_units i.

Record inv (cap : Z) (d : device) (m : manager) (live : list block) : Prop := mk_inv {
  inv_base : inv0 cap d m live;
  inv_top : top_used m
}.

#[export] Instance inv0_proper cap d m : Proper ((≡ₚ) ==> iff) (inv0 cap d m).
Proof.
  assert (∀ l k, l ≡ₚ k → inv0 cap d m l → inv0 cap d m k) as H; [| by intros l k E; split; apply H].
  intros l k E [H1 H2 H3 H4 H5 H6 H7]. split; try done.
  - intros b i Hi. destruct (H4 b i Hi) as (? & ? & ->). split; [done |]. split; [done |].
    by apply count_if_perm.
  - intros r Hr. apply H5. by rewrite E.
  - intros p n Hp. rewrite <- E. by apply H6.
  - by rewrite <- E.
Qed.

Section properties.
Context (cap : Z) (Hcap : 4 < cap).
Implicit Types (d : device) (m : manager) (live : list block) (r : block).

(** Every live block is inside a block in use. *)
Lemma live_region d m live r : inv0 cap d m live → r ∈ live →
  ∃ h, h ∈ in_use cap m ∧ h.1 <= r.1 ∧ r.1 + r.2 <= h.1 + h.2 ∧
    (units m !! h.1 = None → h = r) ∧ (∀ i, units m !! h.1 = Some i → r.1 + r.2 <= h.1 + fill i).
Proof using Hcap.
  intros [H1 H2 H3 H4 H5 H6 H7] Hr. destruct (H5 r Hr) as [Hpos [Hb | (b & i & Hi & Hle & Hfit)]].
  - assert (r ∈ in_use cap m) as Hin.
    { apply elem_of_app. right. by apply elem_of_map_to_list'. }
    exists r. split; [done |]. split; [lia |]. split; [lia |]. split; [done |].
    intros i Hi. exfalso. assert ((r.1, cap) ∈ ((λ b, (b, cap)) <$> allocations m)) as Hu.
    { apply list_elem_of_fmap. exists r.1. split; [done |]. apply H3. by rewrite Hi. }
    assert (r ∈ map_to_list (big_units m)) as Hbig by (by apply elem_of_map_to_list').
    pose proof (d_apart _ _ H1) as Ha. unfold held, in_use in Ha. rewrite app_assoc in Ha.
    destruct (all_apart_app _ _ Ha (r.1, cap) r); [apply elem_of_app; by right | done | simpl in *; lia..].
  - destruct (H4 b i Hi) as (Hbase & Hf & _). exists (b, cap). split.
    { apply elem_of_app. left. apply list_elem_of_fmap. exists b. split; [done |]. apply H3. by rewrite Hi. }
    simpl. split; [done |]. split; [lia |]. split; [congruence |]. intros i' Hi'. rewrite Hi in Hi'. by injection Hi' as <-.
Qed.

Lemma as_block (l : list Z) b : b ∈ l → (b, cap) ∈ (λ b, (b, cap)) <$> l.
Proof using Type. intros Hb. apply list_elem_of_fmap. by exists b. Qed.

Lemma in_use_held m r : r ∈ in_use cap m → r ∈ held cap m.
Proof using Type. intros. apply elem_of_app. by right. Qed.

(** A block apart from all blocks in use holds nothing. *)
Lemma count_outside d m live b : inv0 cap d m live → (∀ h, h ∈ in_use cap m → apart (b, cap) h) →
  count_if (in_unit cap b) live = 0.
Proof using Hcap.
  intros Hinv Hap. destruct (Z.le_gt_cases (count_if (in_unit cap b) live) 0) as [Hle | Hgt].
  { unfold count_if in *. lia. }
  apply count_if_pos in Hgt as (r & Hr & Hin%in_unit_true).
  destruct (live_region d m live r Hinv Hr) as (h & Hh & H1 & H2 & _). destruct (i_live _ _ _ _ Hinv r Hr) as [Hpos _].
  destruct (Hap h Hh); simpl in *; lia.
Qed.

Lemma unit_region d m live b i : inv0 cap d m live → units m !! b = Some i → (b, cap) ∈ in_use cap m.
Proof using Type.
  intros Hinv Hi. apply elem_of_app. left. apply list_elem_of_fmap. exists b. split; [done |].
  apply (i_units _ _ _ _ Hinv). by rewrite Hi.
Qed.

(** A unit that holds [p] is the unit [p] is looked up in. *)
Lemma floor_key_spec {A} (u : gmap Z A) p b : is_Some (u !! b) → b <= p →
  (∀ k, is_Some (u !! k) → b < k → p < k) → floor_key u p = Some b.
Proof using Type.
  intros Hb Hle Hmax. unfold floor_key.
  assert (∀ k, k ∈ (map_to_list u).*1 → k <= b ∨ p < k) as Hall.
  { intros k Hk. apply list_elem_of_fmap in Hk as ([k' a] & -> & Hk%elem_of_map_to_list). simpl.
    destruct (Z.le_gt_cases k' b); [by left |]. right. by apply Hmax. }
  assert (b ∈ (map_to_list u).*1) as Hin.
  { destruct Hb as [a Ha]. apply list_elem_of_fmap. exists (b, a). split; [done |]. by apply elem_of_map_to_list. }
  revert Hall Hin. generalize ((map_to_list u).*1). intros ks Hall Hin.
  set (f := foldr _ None).
  assert (∀ l, (∀ k, k ∈ l → k <= b ∨ p < k) →
    (b ∈ l → f l = Some b) ∧ (∀ a, f l = Some a → a <= b)) as Hf; [| by apply (Hf ks Hall)].
  clear ks Hall Hin. induction l as [| k l IH]; intros Hl; [split; [by intros ?%not_elem_of_nil | done] |].
  destruct IH as [IH1 IH2]; [intros; apply Hl; by right |].
  assert (f (k :: l) = if k <=? p then Some (match f l with Some a => Z.max a k | None => k end) else f l) as -> by done.
  destruct (Hl k ltac:(left)) as [Hk | Hk].
  - rewrite (proj2 (Z.leb_le k p)) by lia. split.
    + intros [-> | Hb']%elem_of_cons.
      * destruct (f l) as [a |] eqn:E; [| done]. specialize (IH2 a eq_refl). f_equal. lia.
      * rewrite IH1 by done. f_equal. lia.
    + intros a. destruct (f l) as [a' |]; intros [= <-]; [specialize (IH2 a' eq_refl) |]; lia.
  - rewrite (proj2 (Z.leb_gt k p)) by lia. split; [| done].
    intros [-> | Hb']%elem_of_cons; [lia | by apply IH1].
Qed.
(** Adding an empty unit. *)
Lemma push_unit d d' m live b cache : inv0 cap d m live →
  (∀ h, h ∈ in_use cap m → apart (b, cap) h) →
  let m' := mk (big_units m) (emplace b (mk_info b 0 0) (units m)) (b :: allocations m) cache
               (u64 (active_bytes m + cap)) in
  dev_inv d' (held cap m') → inv0 cap d' m' live ∧ units m' !! b = Some (mk_info b 0 0).
Proof using Hcap.
  intros Hinv Hap m' Hd. assert (units m !! b = None) as Hnone.
  { apply eq_None_not_Some. intros [i Hi]. destruct (Hap _ (unit_region _ _ _ _ _ Hinv Hi)); simpl in *; lia. }
  assert (units m' = <[b := mk_info b 0 0]> (units m)) as Hu by (unfold m', emplace; simpl; by rewrite Hnone).
  pose proof (count_outside d m live b Hinv Hap) as Hc. pose proof Hinv as [H1 H2 H3 H4 H5 H6 H7].
  split; [| by rewrite Hu, lookup_insert_eq]. split; [done | | | | | done | done].
  - unfold m', in_use. simpl. rewrite H2, wrap_add_l. f_equal.
    change (total (in_use cap m) + cap = cap + total (in_use cap m)). lia.
  - intros k. rewrite Hu. unfold m'. simpl. rewrite elem_of_cons, H3, lookup_insert_is_Some. destruct (decide (b = k)); naive_solver.
  - intros k i. rewrite Hu. intros [[<- <-] | [Hne Hi]]%lookup_insert_Some; [| by apply H4]. simpl.
    split; [done |]. split; [lia |]. by rewrite Hc.
  - intros r Hr. destruct (H5 r Hr) as [Hpos [Hb | (k & i & Hi & ?)]]; (split; [done |]); [by left |].
    right. exists k, i. rewrite Hu, lookup_insert_ne; [done | congruence].
Qed.

Lemma create_allocation_ok d m live x : inv0 cap d m live →
  (free_cache m = [] → fresh (held cap m) x cap) →
  ∃ b d' m', create_allocation cap x d m = Ok (b, d', m') ∧ inv0 cap d' m' live ∧
    units m' !! b = Some (mk_info b 0 0) ∧ allocations m' = b :: allocations m.
Proof using Hcap.
  intros Hinv Hfr. pose proof (i_dev _ _ _ _ Hinv) as Hd. unfold create_allocation. unfold held in Hfr, Hd.
  destruct (free_cache m) as [| b cache] eqn:Ec; cbn [rbind].
  - destruct (dev_malloc_ok d _ x cap Hd (Hfr eq_refl) Hcap) as (d' & -> & Hd'). cbn [rbind].
    eexists x, d', _. split; [done |]. apply and_assoc. split; [| done].
    apply (push_unit d); [done | | ].
    + intros h Hh. apply (Hfr eq_refl). by simpl.
    + unfold held, in_use in *. done.
  - eexists b, d, _. split; [done |]. apply and_assoc. split; [| done].
    apply (push_unit d); [done | |].
    + intros h Hh. pose proof (d_apart _ _ Hd) as Ha. apply (all_apart_app _ _ Ha); [left | done].
    + unfold held, in_use in *. simpl in *. by rewrite <- Permutation_middle.
Qed.

(** The block a request needs from the device, if it needs one. *)
Definition request (bytes : Z) : Z := if cap <=? fixSize bytes then fixSize bytes else cap.

Lemma pick_unit_ok d m live x n : inv cap d m live → 0 < n < cap → fresh (held cap m) x cap →
  ∃ b d' m' i, pick_unit cap x n d m = Ok (b, d', m') ∧ inv0 cap d' m' live ∧
    units m' !! b = Some i ∧ fill i + n <= cap ∧ (∃ rest, allocations m' = b :: rest).
Proof using Hcap.
  intros [Hinv Htop] Hn Hfr. pose proof Hinv as [_ _ H3 H4 _ _ _].
  destruct (create_allocation_ok d m live x Hinv (λ _, Hfr)) as (b & d' & m' & E & Hinv' & Hi & Ha).
  unfold pick_unit. destruct (allocations m) as [| latest rest] eqn:El.
  - exists b, d', m', (mk_info b 0 0). split; [done |]. split; [done |]. split; [done |]. simpl. split; [lia | eauto].
  - destruct (proj1 (H3 latest)) as [i Hl]; [left |]. rewrite Hl. cbn [of_option rbind].
    destruct (Z.ltb_spec cap (fill i + n)) as [Hlt | Hge].
    + exists b, d', m', (mk_info b 0 0). split; [done |]. split; [done |]. split; [done |]. simpl. split; [lia | eauto].
    + exists latest, d, m, i. split; [done |]. split; [done |]. split; [done |]. split; [lia | eauto].
Qed.

(** Cutting a piece from a unit. *)
Lemma cut_ok d m live b i n : inv0 cap d m live → units m !! b = Some i → 0 < n → fill i + n <= cap →
  inv0 cap d (with_unit m b (mk_info (base i) (fill i + n) (sub_units i + 1))) ((base i + fill i, n) :: live).
Proof using Hcap.
  intros Hinv Hi Hn Hfit. pose proof Hinv as [H1 H2 H3 H4 H5 H6 H7].
  destruct (H4 b i Hi) as (Hb & Hf & Hs). rewrite Hb. pose proof (unit_region _ _ _ _ _ Hinv Hi) as Hreg.
  pose proof (d_apart _ _ H1) as Hap. split; try done; unfold with_unit; simpl.
  - intros k. rewrite lookup_insert_is_Some, H3. destruct (decide (b = k)) as [<- |]; [| naive_solver].
    rewrite Hi. naive_solver.
  - intros k j [[<- <-] | [Hne Hj]]%lookup_insert_Some; simpl; rewrite count_if_cons.
    + split; [done |]. split; [lia |]. rewrite Hs, (proj2 (in_unit_true _ _ _)) by (simpl; lia). lia.
    + destruct (H4 k j Hj) as (? & ? & ->). split; [done |]. split; [done |].
      destruct (in_unit cap k _) eqn:E; [| lia]. apply in_unit_true in E. simpl in E. exfalso. apply Hne.
      pose proof (all_apart_unique _ (b, cap) (k, cap) (b + fill i) Hap (in_use_held _ _ Hreg)
        (in_use_held _ _ (unit_region _ _ _ _ _ Hinv Hj)) ltac:(simpl; lia) E) as Eq. congruence.
  - intros r [-> | Hr]%elem_of_cons.
    + simpl. split; [done |]. right. exists b, (mk_info b (fill i + n) (sub_units i + 1)).
      rewrite lookup_insert_eq. simpl. split; [done | lia].
    + destruct (H5 r Hr) as [Hpos [Hbig | (k & j & Hj & Hk1 & Hk2)]]; (split; [done |]); [by left | right].
      destruct (decide (b = k)) as [<- | Hne].
      * rewrite Hi in Hj. injection Hj as <-. eexists b, _. rewrite lookup_insert_eq. split; [done |]. simpl. lia.
      * exists k, j. by rewrite lookup_insert_ne.
  - intros p k Hp. right. by apply H6.
  - apply all_apart_cons. split; [| done]. intros r Hr.
    destruct (live_region d m live r Hinv Hr) as (h & Hh & Hh1 & Hh2 & _ & Hh3).
    destruct (decide (h.1 = b)) as [E | Hne].
    + right. simpl. rewrite <- E in Hi. specialize (Hh3 i Hi). lia.
    + assert (apart (b, cap) h) as Ha.
      { destruct (ForallOrdPairs_In Hap (b, cap) h) as [<- | [Ha | Ha%apart_sym]]; try done;
          apply list_elem_of_In; by apply in_use_held. }
      destruct Ha; simpl in *; [left | right]; simpl; lia.
Qed.

Lemma fixSize_spec n : 0 <= n <= 2 ^ 64 - 16 →
  fixSize n mod 16 = 0 ∧ Z.max n 1 <= fixSize n < Z.max n 1 + 16 ∧ 0 < fixSize n.
Proof using Type.
  intros Hn. unfold fixSize. rewrite wrap_id by lia. set (v := Z.max n 1 + 15).
  assert (Z.land v (2 ^ 64 - 16) = v - v mod 16) as ->.
  { assert (0 <= v < 2 ^ 64) as Hv by lia. rewrite (Z.mod_eq v 16) by lia.
    transitivity (Z.shiftl (Z.shiftr v 4) 4); [| rewrite Z.shiftl_mul_pow2, Z.shiftr_div_pow2 by lia; change (2 ^ 4) with 16; clearbody v; lia].
    change (2 ^ 64 - 16) with (Z.shiftl (Z.ones 60) 4). bits_eq. }
  pose proof (Z.mod_pos_bound v 16). pose proof (Z.div_mod v 16).
  split; [| lia]. rewrite Zminus_mod_idemp_r, Z.sub_diag. done.
Qed.

Lemma malloc_ok d m live x bytes : inv cap d m live → 0 <= bytes <= 2 ^ 64 - 16 →
  fresh (held cap m) x (request bytes) →
  ∃ p d' m', malloc cap x bytes d m = Ok (p, d', m') ∧ inv cap d' m' ((p, fixSize bytes) :: live).
Proof using Hcap.
  intros Hinv Hb Hfr. destruct (fixSize_spec bytes Hb) as (_ & _ & Hpos). unfold request in Hfr. unfold malloc.
  destruct (Z.leb_spec cap (fixSize bytes)) as [Hle | Hlt].
  - destruct Hinv as [Hinv Htop]. pose proof Hinv as [H1 H2 H3 H4 H5 H6 H7].
    destruct (dev_malloc_ok d _ x (fixSize bytes) H1 Hfr ltac:(lia)) as (d' & -> & Hd'). cbn [rbind].
    eexists x, d', _. split; [done |].
    assert (big_units m !! x = None) as Hnone.
    { apply eq_None_not_Some. intros [k Hk]. assert ((x, k) ∈ in_use cap m) as Hin
        by (apply elem_of_app; right; by apply elem_of_map_to_list).
      destruct (d_pos _ _ H1 _ (in_use_held _ _ Hin)). destruct (proj2 Hfr _ (in_use_held _ _ Hin)); simpl in *; lia. }
    unfold emplace. rewrite Hnone. set (m' := mk _ _ _ _ _).
    assert (in_use cap m' ≡ₚ (x, fixSize bytes) :: in_use cap m) as Hperm.
    { unfold in_use, m'. simpl. rewrite map_to_list_insert by done. by rewrite <- Permutation_middle. }
    split; [split; simpl | done].
    + unfold held. rewrite Hperm. change (free_cache m') with (free_cache m).
      by rewrite <- Permutation_middle.
    + rewrite Hperm, H2, wrap_add_l. f_equal. simpl. lia.
    + done.
    + intros b i Hi. destruct (H4 b i Hi) as (? & ? & ->). split; [done |]. split; [done |]. rewrite count_if_cons.
      destruct (in_unit cap b _) eqn:E; [| lia]. apply in_unit_true in E. simpl in E.
      destruct (proj2 Hfr _ (in_use_held _ _ (unit_region _ _ _ _ _ Hinv Hi))); simpl in *; lia.
    + intros r [-> | Hr]%elem_of_cons; [split; [done | left; apply lookup_insert_eq] |].
      destruct (H5 r Hr) as [? [Hbig | ?]]; (split; [done |]); [left | by right].
      rewrite lookup_insert_ne; [done | congruence].
    + intros p n [[<- <-] | [_ Hp]]%lookup_insert_Some; [left | right; by apply H6].
    + apply all_apart_cons. split; [| done]. intros r Hr.
      destruct (live_region d m live r Hinv Hr) as (h & Hh & Hh1 & Hh2 & _).
      destruct (proj2 Hfr _ (in_use_held _ _ Hh)); simpl in *; [left | right]; simpl; lia.
  - destruct (pick_unit_ok d m live x (fixSize bytes) Hinv ltac:(lia) Hfr) as (b & d' & m' & i & -> & Hinv' & Hi & Hfit & rest & Ha).
    cbn [rbind]. rewrite Hi. cbn [of_option rbind]. eexists _, d', _. split; [done |].
    split; [by apply cut_ok |]. intros b' rest' i' Hb' Hi'. simpl in *. rewrite Ha in Hb'. injection Hb' as <- <-.
    rewrite lookup_insert_eq in Hi'. injection Hi' as <-. simpl. destruct (i_info _ _ _ _ Hinv' b i Hi) as (_ & _ & ->).
    unfold count_if. lia.
Qed.

(** Giving back an empty unit. *)
Lemma destroy_allocation_ok d m live b rest i : inv0 cap d m live → allocations m = b :: rest →
  units m !! b = Some i → sub_units i = 0 →
  ∃ d' m', destroy_allocation cap d m = Ok (d', m') ∧ inv0 cap d' m' live ∧ allocations m' = rest.
Proof using Hcap.
  intros Hinv Ha Hi Hs. pose proof Hinv as [H1 H2 H3 H4 H5 H6 H7].
  assert (in_use cap m = (b, cap) :: ((λ b, (b, cap)) <$> rest) ++ map_to_list (big_units m)) as Huse
    by (unfold in_use; by rewrite Ha).
  assert (held cap m ≡ₚ (b, cap) :: ((λ b, (b, cap)) <$> free_cache m) ++
    ((λ b, (b, cap)) <$> rest) ++ map_to_list (big_units m)) as Hheld
    by (unfold held; rewrite Huse; by rewrite <- Permutation_middle).
  rewrite Hheld in H1.
  assert (∀ dev cache, dev_inv dev (held cap (mk (big_units m) (delete b (units m)) rest cache (u64 (active_bytes m - cap)))) →
    inv0 cap dev (mk (big_units m) (delete b (units m)) rest cache (u64 (active_bytes m - cap))) live) as Hmk.
  { intros dev cache Hdev. split; simpl; try done.
    - rewrite H2, Huse, wrap_sub_l. f_equal. unfold in_use. simpl. lia.
    - intros k. rewrite lookup_delete_is_Some, <- H3, Ha, elem_of_cons. split; [| naive_solver].
      intros Hk. split; [| by right]. intros <-. pose proof (d_apart _ _ H1) as Hap. apply all_apart_cons in Hap as [Hap _].
      destruct (Hap (b, cap)); [| simpl in *; lia..]. apply elem_of_app. right. apply elem_of_app. left.
      by apply as_block.
    - intros k j [_ Hj]%lookup_delete_Some. by apply H4.
    - intros r Hr. destruct (H5 r Hr) as [Hpos [Hb | (k & j & Hj & Hle & Hfit)]]; (split; [done |]); [by left | right].
      exists k, j. rewrite lookup_delete_ne; [done |]. intros <-. rewrite Hi in Hj. injection Hj as <-.
      destruct (H4 b i Hi) as (_ & Hf & Hc). assert (0 < count_if (in_unit cap b) live); [| lia].
      apply count_if_pos. exists r. split; [done |]. apply in_unit_true. lia. }
  unfold destroy_allocation. rewrite Ha. destruct (Nat.ltb _ _).
  - eexists d, _. split; [done |]. split; [| done]. apply Hmk. unfold held, in_use. simpl. done.
  - destruct (dev_free_ok _ _ _ _ H1) as (d' & -> & Hd'). cbn [rbind]. eexists d', _. split; [done |].
    split; [| done]. apply Hmk. done.
Qed.

Lemma release_empty_ok fuel d m live : inv0 cap d m live → (length (allocations m) <= fuel)%nat →
  ∃ d' m', release_empty fuel cap d m = Ok (d', m') ∧ inv cap d' m' live.
Proof using Hcap.
  revert d m. induction fuel as [| fuel IH]; intros d m Hinv Hfuel; simpl; destruct (allocations m) as [| b rest] eqn:Ha.
  - exists d, m. split; [done |]. split; [done |]. intros ? ? ? E. by rewrite Ha in E.
  - simpl in Hfuel. lia.
  - exists d, m. split; [done |]. split; [done |]. intros ? ? ? E. by rewrite Ha in E.
  - destruct (proj1 (i_units _ _ _ _ Hinv b)) as [i Hi]; [rewrite Ha; left |]. rewrite Hi. cbn [of_option rbind].
    destruct (Z.eqb_spec (sub_units i) 0) as [Hz | Hnz].
    + destruct (destroy_allocation_ok d m live b rest i Hinv Ha Hi Hz) as (d' & m' & -> & Hinv' & Ha'). cbn [rbind].
      apply IH; [done |]. rewrite Ha'. simpl in Hfuel. lia.
    + exists d, m. split; [done |]. split; [done |]. intros b' rest' i' E Hi'. rewrite Ha in E. injection E as <- <-.
      rewrite Hi in Hi'. injection Hi' as <-. destruct (i_info _ _ _ _ Hinv b i Hi) as (_ & _ & Hc). unfold count_if in Hc. lia.
Qed.

(** Freeing a piece of a unit. *)
Lemma uncut_ok d m live p n : inv0 cap d m ((p, n) :: live) → big_units m !! p = None →
  ∃ b i, floor_key (units m) p = Some b ∧ units m !! b = Some i ∧ p <= base i + cap ∧ 0 < sub_units i ∧
    inv0 cap d (with_unit m b (mk_info (base i) (fill i) (sub_units i - 1))) live.
Proof using Hcap.
  intros Hinv Hnb. pose proof Hinv as [H1 H2 H3 H4 H5 H6 H7].
  destruct (H5 (p, n) ltac:(left)) as [Hpos [Hbig | (b & i & Hi & Hle & Hfit)]]; simpl in *; [congruence |].
  destruct (H4 b i Hi) as (Hb & Hf & Hc). exists b, i.
  assert (∀ k j, units m !! k = Some j → k <= p < k + cap → k = b) as Huniq.
  { intros k j Hj Hk. pose proof (all_apart_unique _ (k, cap) (b, cap) p (d_apart _ _ H1)
      (in_use_held _ _ (unit_region _ _ _ _ _ Hinv Hj)) (in_use_held _ _ (unit_region _ _ _ _ _ Hinv Hi)) Hk) as E.
    specialize (E ltac:(simpl; lia)). congruence. }
  split.
  { apply floor_key_spec; [by rewrite Hi | done |]. intros k [j Hj] Hbk. destruct (Z.lt_ge_cases p k) as [| Hge]; [done |].
    exfalso. assert (k = b); [apply (Huniq k j Hj); lia | lia]. }
  split; [done |]. rewrite count_if_cons in Hc. rewrite (proj2 (in_unit_true _ _ _)) in Hc by (simpl; lia).
  rewrite Hb. split; [lia |]. split; [unfold count_if in Hc; lia |]. apply all_apart_cons in H7 as [Hp H7].
  split; try done; unfold with_unit; simpl.
  - intros k. rewrite lookup_insert_is_Some, H3. destruct (decide (b = k)) as [<- |]; [| naive_solver].
    rewrite Hi. naive_solver.
  - intros k j [[<- <-] | [Hne Hj]]%lookup_insert_Some; simpl; [split; [done |]; split; [lia |]; lia |].
    destruct (H4 k j Hj) as (? & ? & Hk). split; [done |]. split; [done |]. rewrite Hk, count_if_cons.
    destruct (in_unit cap k _) eqn:E; [| lia]. apply in_unit_true in E. simpl in E. exfalso. by apply Hne, eq_sym, (Huniq k j Hj).
  - intros r Hr. destruct (H5 r ltac:(by right)) as [? [? | (k & j & Hj & ?)]]; (split; [done |]); [by left | right].
    destruct (decide (b = k)) as [<- | Hne].
    + rewrite Hi in Hj. injection Hj as <-. eexists b, _. rewrite lookup_insert_eq. split; [done |]. done.
    + exists k, j. by rewrite lookup_insert_ne.
  - intros q k Hq. destruct (proj1 (elem_of_cons _ _ _) (H6 q k Hq)) as [[= -> ->] | ?]; [congruence | done].
Qed.

Lemma free_ok d m live p n : inv cap d m ((p, n) :: live) → p ≠ 0 →
  ∃ d' m', free cap p d m = Ok (d', m') ∧ inv cap d' m' live.
Proof using Hcap.
  intros [Hinv Htop] Hp. unfold free. rewrite (proj2 (Z.eqb_neq p 0)) by done.
  destruct (big_units m !! p) as [k |] eqn:Eb.
  - pose proof Hinv as [H1 H2 H3 H4 H5 H6 H7].
    set (m' := mk (delete p (big_units m)) (units m) (allocations m) (free_cache m) (u64 (active_bytes m - k))).
    assert (in_use cap m ≡ₚ (p, k) :: in_use cap m') as Hperm.
    { unfold in_use, m'. simpl. rewrite <- (map_to_list_delete (big_units m) p k Eb). by rewrite <- Permutation_middle. }
    assert (held cap m ≡ₚ (p, k) :: held cap m') as Hperm'.
    { unfold held. rewrite Hperm. change (free_cache m') with (free_cache m). by rewrite <- Permutation_middle. }
    apply all_apart_cons in H7 as [Hap H7].
    assert (∀ r, r ∈ live → r.1 ≠ p) as Hother.
    { intros r Hr E. destruct (H5 r ltac:(by right)) as [? _], (H5 (p, n) ltac:(left)) as [? _].
      destruct (Hap r Hr); simpl in *; lia. }
    assert (k = n) as ->.
    { destruct (proj1 (elem_of_cons _ _ _) (H6 p k Eb)) as [[= ->] | Hin]; [done |]. by destruct (Hother _ Hin). }
    pose proof (d_apart _ _ H1) as HapH. rewrite Hperm' in H1. destruct (dev_free_ok _ _ _ _ H1) as (d' & -> & Hd'). cbn [rbind].
    eexists d', m'. split; [done |]. split; [split; simpl; try done | done].
    + rewrite H2, Hperm, wrap_sub_l. f_equal. simpl. lia.
    + intros b i Hi. destruct (H4 b i Hi) as (? & ? & Hc). split; [done |]. split; [done |]. rewrite count_if_cons in Hc.
      destruct (in_unit cap b (p, n)) eqn:E; [| lia]. apply in_unit_true in E. simpl in E. exfalso.
      destruct (H5 (p, n) ltac:(left)) as [Hpos _]. simpl in Hpos.
      rewrite Hperm' in HapH. apply all_apart_cons in HapH as [HapH _]. destruct (HapH (b, cap)); [| simpl in *; lia..].
      apply in_use_held, elem_of_app. left. apply as_block, H3. by rewrite Hi.
    + intros r Hr. destruct (H5 r ltac:(by right)) as [? [Hbig | ?]]; (split; [done |]); [left | by right].
      rewrite lookup_delete_ne; [done |]. apply not_eq_sym. by apply Hother.
    + intros q j [Hne Hq]%lookup_delete_Some. destruct (proj1 (elem_of_cons _ _ _) (H6 q j Hq)) as [[= -> ->] | ?]; done.
  - destruct (uncut_ok d m live p n Hinv Eb) as (b & i & -> & Hi & Hle & Hs & Hinv'). cbn [of_option rbind].
    rewrite Hi. cbn [of_option rbind]. rewrite (proj2 (Z.leb_le _ _) Hle), (proj2 (Z.ltb_lt _ _) Hs).
    destruct (Z.eqb_spec (sub_units i - 1) 0) as [Hz | Hnz].
    + by apply release_empty_ok.
    + eexists d, _. split; [done |]. split; [done |]. intros b' rest i' Ha Hi'. simpl in *.
      apply lookup_insert_Some in Hi' as [[<- <-] | [_ Hi']]; [simpl; lia | by apply (Htop b' rest)].
Qed.
End properties.


(** ** Histories *)

Abbreviation state := (device * manager * list block)%type.

(** [live] records each address handed out with the size reserved for it. *)
Inductive step (cap : Z) : state → state → Prop :=
  | step_malloc d m live x bytes p d' m' : 0 <= bytes <= 2 ^ 64 - 16 →
      fresh (map_to_list (sizes d)) x (request cap bytes) →
      malloc cap x bytes d m = Ok (p, d', m') →
      step cap (d, m, live) (d', m', (p, fixSize bytes) :: live)
  | step_free d m live p n live' d' m' : live ≡ₚ (p, n) :: live' →
      free cap p d m = Ok (d', m') → step cap (d, m, live) (d', m', live').

Definition start : state := (mk_dev ∅ 0, manager_new, []).

Lemma mm_start_inv cap : inv cap (mk_dev ∅ 0) manager_new [].
Proof.
  split; [| done]. split; simpl; try done.
  - split; simpl; [constructor | by intros ? ?%not_elem_of_nil | | done].
    intros b n. rewrite lookup_empty. split; [done | by intros ?%not_elem_of_nil].
  - intros b. rewrite lookup_empty. split; [by intros ?%not_elem_of_nil | by intros [? ?]].
  - by intros r ?%not_elem_of_nil.
  - constructor.
Qed.

Lemma sizes_held cap d m live r : inv cap d m live → r ∈ map_to_list (sizes d) ↔ r ∈ held cap m.
Proof.
  intros [Hinv _]. destruct r as [b n]. rewrite elem_of_map_to_list. apply (d_sizes _ _ (i_dev _ _ _ _ Hinv)).
Qed.

Lemma fresh_held cap d m live x n : inv cap d m live →
  fresh (map_to_list (sizes d)) x n → fresh (held cap m) x n.
Proof. intros Hinv [Hx Hf]. split; [done |]. intros r Hr. by apply Hf, (sizes_held cap d m live). Qed.

Lemma live_nonzero cap d m live p n : 4 < cap → inv cap d m live → (p, n) ∈ live → p ≠ 0.
Proof.
  intros Hcap [Hinv _] Hp. destruct (live_region cap Hcap d m live (p, n) Hinv Hp) as (h & Hh & H1 & _).
  destruct (d_pos _ _ (i_dev _ _ _ _ Hinv) h (in_use_held _ _ _ Hh)). simpl in *. lia.
Qed.

Lemma mm_step_inv cap d m live d' m' live' : 4 < cap → inv cap d m live →
  step cap (d, m, live) (d', m', live') → inv cap d' m' live'.
Proof.
  intros Hcap Hinv Hs. inversion Hs as [? ? ? x bytes p ? ? Hb Hfr E | ? ? ? p n ? ? ? Hp E]; subst.
  - destruct (malloc_ok cap Hcap d m live x bytes Hinv Hb (fresh_held _ _ _ _ _ _ Hinv Hfr)) as (q & e & k & E' & ?).
    rewrite E in E'. by injection E' as -> -> ->.
  - assert (inv cap d m ((p, n) :: live')) as Hinv' by (split; [rewrite <- Hp; apply Hinv | apply Hinv]).
    assert (p ≠ 0) as Hp0 by (eapply (live_nonzero cap d m _ p n Hcap Hinv'); left).
    destruct (free_ok cap Hcap d m live' p n Hinv' Hp0) as (e & k & E' & ?).
    rewrite E in E'. by injection E' as -> ->.
Qed.

Lemma mm_reachable_inv cap d m live : 4 < cap → rtc (step cap) start (d, m, live) → inv cap d m live.
Proof.
  intros Hcap Hr. apply (rtc_ind_r (λ s : state, inv cap s.1.1 s.1.2 s.2) start) in Hr; [done | apply mm_start_inv |].
  intros [[d1 m1] l1] [[d2 m2] l2] _ Hs Hinv. by apply (mm_step_inv cap d1 m1 l1).
Qed.

(** C37: In every history of allocations and frees no two blocks handed out overlap, each lies
    inside a block the device handed out and has not taken back, and the manager never fails:
    a request succeeds whenever the device returns unused memory, and freeing any block that
    was handed out trips no assertion. *)
Theorem allocations_never_overlap (cap : Z) (d : device) (m : manager) (live : list block) :
  4 < cap → rtc (step cap) start (d, m, live) →
  all_apart live ∧
  (∀ r, r ∈ live → ∃ b n, sizes d !! b = Some n ∧ b <= r.1 ∧ r.1 + r.2 <= b + n) ∧
  (∀ x bytes, 0 <= bytes <= 2 ^ 64 - 16 → fresh (map_to_list (sizes d)) x (request cap bytes) →
    ∃ p d' m', malloc cap x bytes d m = Ok (p, d', m')) ∧
  (∀ p n, (p, n) ∈ live → ∃ d' m', free cap p d m = Ok (d', m')).
Proof.
  intros Hcap Hr%mm_reachable_inv; [| done]. pose proof Hr as [Hinv Htop]. split; [apply Hinv |]. split; [| split].
  - intros r Hin. destruct (live_region cap Hcap d m live r Hinv Hin) as ([b n] & Hh & ? & ? & _).
    exists b, n. split; [| done]. apply (d_sizes _ _ (i_dev _ _ _ _ Hinv)). by apply in_use_held.
  - intros x bytes Hb Hf. destruct (malloc_ok cap Hcap d m live x bytes Hr Hb) as (p & d' & m' & E & _); [by eapply fresh_held | eauto].
  - intros p n Hin. pose proof (live_nonzero _ _ _ _ _ _ Hcap Hr Hin).
    apply elem_of_Permutation in Hin as (live' & Hp).
    destruct (free_ok cap Hcap d m live' p n) as (d' & m' & E & _); [split; [by rewrite <- Hp | done] | done | eauto].
Qed.

Lemma free_cached cap d l : dev_inv d ((λ b, (b, cap)) <$> l) →
  ∃ d', rfoldM (λ d b, dev_free b d) d l = Ok d' ∧ dev_inv d' [].
Proof.
  revert d. induction l as [| b l IH]; intros d Hd; simpl in *; [eauto |].
  destruct (dev_free_ok _ _ _ _ Hd) as (d' & -> & Hd'). simpl. by apply IH.
Qed.

(** When every block has been freed the manager is empty: its destructor trips none of its
    assertions and leaves the device with no memory outstanding. *)
Theorem all_freed_no_leak (cap : Z) (d : device) (m : manager) :
  4 < cap → rtc (step cap) start (d, m, []) →
  ∃ d', destroy d m = Ok d' ∧ sizes d' = ∅ ∧ usage d' = 0.
Proof.
  intros Hcap Hr%mm_reachable_inv; [| done]. destruct Hr as [Hinv Htop]. pose proof Hinv as [H1 H2 H3 H4 H5 H6 H7].
  assert (allocations m = []) as Ha.
  { destruct (allocations m) as [| b rest] eqn:Ha; [done |]. destruct (proj1 (H3 b)) as [i Hi]; [left |].
    specialize (Htop b rest i Ha Hi). destruct (H4 b i Hi) as (_ & _ & Hc). rewrite count_if_nil in Hc. lia. }
  assert (units m = ∅) as Hu.
  { apply map_empty. intros b. apply eq_None_not_Some. intros Hb%H3. rewrite Ha in Hb. by apply not_elem_of_nil in Hb. }
  assert (big_units m = ∅) as Hb.
  { apply map_empty. intros p. apply eq_None_not_Some. intros [n Hn%H6]. by apply not_elem_of_nil in Hn. }
  unfold held, in_use in *. rewrite Ha, Hb, map_to_list_empty in *. simpl in *. rewrite app_nil_r in H1.
  destruct (free_cached cap d (free_cache m) H1) as (d' & E & Hd'). exists d'. unfold destroy.
  rewrite E, Ha, Hu, Hb, H2. cbn [rbind]. rewrite !bool_decide_eq_true_2 by done. simpl. split; [done |].
  destruct Hd' as [_ _ Hs Hus]. split; [| done]. apply map_empty. intros b. apply eq_None_not_Some.
  intros [n Hn%Hs]. by apply not_elem_of_nil in Hn.
Qed.

(** ** Aligned allocations *)

Lemma pow2_div16 k : 4 <= k → (16 | 2 ^ k).
Proof. intros Hk. exists (2 ^ (k - 4)). change 16 with (2 ^ 4). rewrite <- Z.pow_add_r by lia. f_equal. lia. Qed.

(** For an alignment of at least a word the result is aligned, the request fits behind it, and
    the word in front of it is inside the block. *)
Lemma aligned_fits ptr size k : let align := 2 ^ k in 3 <= k → 0 < ptr → ptr mod 16 = 0 →
  0 <= size → ptr + size + align < 2 ^ 64 →
  let '(r, slot) := mallocPinnedAligned_ptr ptr align in
  r mod align = 0 ∧ ptr <= slot ∧ slot + 8 = r ∧ r + size <= ptr + size + align.
Proof.
  intros align Hk Hp H16 Hsz Hlt. unfold mallocPinnedAligned_ptr.
  assert (8 <= align) by (change 8 with (2 ^ 3); apply Z.pow_le_mono_r; lia).
  assert (k < 64) by (apply (Z.pow_lt_mono_r_iff 2); unfold align in *; lia).
  rewrite (wrap_id 64 (align - 1)) by lia.
  assert (Z.land ptr (2 ^ 64 - 1 - (align - 1)) = ptr - ptr mod align) as ->.
  { assert (0 <= ptr < 2 ^ 64) as Hpr by lia. rewrite (Z.mod_eq ptr align) by lia.
    transitivity (Z.shiftl (Z.shiftr ptr k) k).
    - replace (2 ^ 64 - 1 - (align - 1)) with (Z.shiftl (Z.ones (64 - k)) k); [bits_eq |].
      rewrite Z.shiftl_mul_pow2, Z.ones_equiv by lia. unfold align, Z.pred.
      rewrite Z.mul_add_distr_r, <- Z.pow_add_r by lia. replace (64 - k + k) with 64 by lia. lia.
    - rewrite Z.shiftl_mul_pow2, Z.shiftr_div_pow2 by lia. fold align. lia. }
  pose proof (Z.mod_pos_bound ptr align ltac:(lia)). pose proof (Z.mod_le ptr align ltac:(lia) ltac:(lia)).
  rewrite (wrap_id 64 (ptr - ptr mod align + align)) by lia. rewrite wrap_id by lia.
  assert ((ptr - ptr mod align + align) mod align = 0) as E.
  { rewrite <- Z.add_mod_idemp_r, Z.mod_same, Z.add_0_r by lia. by rewrite Zminus_mod_idemp_r, Z.sub_diag. }
  split; [done |]. split; [| split; lia].
  destruct (Z.le_gt_cases align 16) as [Hle | Hgt].
  - assert (k = 3 ∨ k = 4) as [-> | ->].
    { assert (k < 5) by (apply (Z.pow_lt_mono_r_iff 2); unfold align in Hle; lia). lia. }
    + unfold align in *. change (2 ^ 3) with 8 in *. assert (ptr mod 8 = 0); [| lia].
      apply Z.mod_divide; [lia |]. apply Z.mod_divide in H16; [| lia]. transitivity 16; [by exists 2 | done].
    + unfold align in *. change (2 ^ 4) with 16 in *. lia.
  - assert (16 | align) as Hd by (apply pow2_div16, Z.lt_le_incl, (Z.pow_lt_mono_r_iff 2); unfold align in Hgt; lia).
    assert (ptr mod align mod 16 = 0) as Hm by (rewrite <- (Znumtheory.Zmod_div_mod 16 align ptr); done || lia).
    apply Z.mod_divide in Hd; [| lia].
    pose proof (Z.div_mod (ptr mod align) 16 ltac:(lia)). pose proof (Z.div_mod align 16 ltac:(lia)). lia.
Qed.

(** Units of 64 bytes: a small request, a large one, and the small one freed again. *)
Definition ex_of (r : res (Z * device * manager)) : device * manager :=
  match r with Ok (_, d, m) => (d, m) | Err _ => (mk_dev ∅ 0, manager_new) end.
Definition ex_1 : device * manager := Eval vm_compute in ex_of (malloc 64 4096 20 (mk_dev ∅ 0) manager_new).
Definition ex_2 : device * manager := Eval vm_compute in ex_of (malloc 64 8192 100 ex_1.1 ex_1.2).
Definition ex_3 : device * manager :=
  Eval vm_compute in match free 64 4096 ex_1.1 ex_1.2 with Ok r => r | Err _ => ex_1 end.

Lemma allocations_never_overlap_witness :
  all_apart [(8192, 112); (4096, 32)] ∧
  (∃ p d' m', malloc 64 16384 40 ex_2.1 ex_2.2 = Ok (p, d', m')) ∧
  (∃ d' m', free 64 4096 ex_2.1 ex_2.2 = Ok (d', m')).
Proof.
  destruct (allocations_never_overlap 64 ex_2.1 ex_2.2 [(8192, 112); (4096, 32)]) as (H1 & _ & H2 & H3); [lia | |].
  - eapply rtc_l; [apply (step_malloc 64 _ _ _ 4096 20 4096 ex_1.1 ex_1.2); [lia | | reflexivity] |].
    { split; [lia |]. apply Forall_forall. vm_compute. constructor. }
    eapply rtc_l; [apply (step_malloc 64 _ _ _ 8192 100 8192 ex_2.1 ex_2.2); [lia | | reflexivity] |].
    { split; [lia |]. apply Forall_forall. vm_compute. repeat constructor; discriminate || (right; discriminate). }
    apply rtc_refl.
  - split; [done |]. split.
    + apply H2; [lia |]. split; [lia |]. apply Forall_forall.
      assert (map_to_list (sizes ex_2.1) = [(8192, 112); (4096, 64)]) as -> by reflexivity.
      apply Forall_cons. split; [right; vm_compute; discriminate |].
      apply Forall_cons. split; [right; vm_compute; discriminate |]. constructor.
    + apply (H3 4096 32). right. left.
Defined.

Lemma all_freed_no_leak_witness : ∃ d', destroy ex_3.1 ex_3.2 = Ok d' ∧ sizes d' = ∅ ∧ usage d' = 0.
Proof.
  apply (all_freed_no_leak 64); [lia |].
  eapply rtc_l; [apply (step_malloc 64 _ _ _ 4096 20 4096 ex_1.1 ex_1.2); [lia | | reflexivity] |].
  { split; [lia |]. apply Forall_forall. vm_compute. constructor. }
  eapply rtc_l; [apply (step_free 64 _ _ _ 4096 32 [] ex_3.1 ex_3.2); [done | reflexivity] |].
  apply rtc_refl.
Defined.

End MemoryManager.
