(* ===== verification/AsyncQueue.v ===== *)
(** * AsyncQueue: the queues between producer and consumer threads
    ([platform/util/async_containers.hpp]).

    [Module Stack] and [Module Queue] model the two containers guarded by a mutex; an operation
    runs under the mutex, and waiting on the condition variable is [Blocked].  The queue moves
    up to eight elements at a time into an array only its consumer reads.  [Module Ring] models
    the lock-free ring of 32 slots as an interleaving of the loads and stores of its producer
    and its consumer. *)

From S2P Require Import Prelude.
From Stdlib Require Import ZArith Lia Bool.
From stdpp Require Import base numbers list relations.

Local Open Scope Z_scope.
Local Open Scope res_scope.

(** ** [AsyncStackSPSC] *)

Module Stack.
Section stack.
Context {T : Type}.

(** [data] with its back first. *)
Record stack : Type := mk { data : list T; terminating : bool }.

Definition AsyncStackSPSC : stack := mk [] false.

(** What [close] does before it waits, and what it waits for. *)
Definition stack_close_begin (s : stack) : stack := mk (data s) true.
Definition stack_close_done (s : stack) : bool := match data s with [] => true | _ => false end.

Definition stack_push (x : T) (s : stack) : res stack :=
  check negb (terminating s) else AssertFailed;
  Ok (mk (x :: data s) (terminating s)).

(** [None]: the call returned false. *)
Definition stack_pop (s : stack) : res (option T * stack) :=
  match data s with
  | [] => if terminating s then Ok (None, s) else Err Blocked
  | x :: l => Ok (Some x, mk l (terminating s))
  end.

Definition stack_pop_unsafe (s : stack) : res (T * stack) :=
  match data s with
  | [] => Err Undefined
  | x :: l => Ok (x, mk l (terminating s))
  end.

(** Last in, first out; a closed stack keeps what it holds. *)
Lemma stack_is_lifo x s s' : stack_push x s = Ok s' →
  stack_pop s' = Ok (Some x, s) ∧ stack_pop (stack_close_begin s') = Ok (Some x, stack_close_begin s).
Proof.
  unfold stack_push. destruct s as [d t]. simpl. destruct t; [done |]. intros [= <-]. done.
Qed.

End stack.
End Stack.

(** ** [AsyncQueueSPSC] *)

Module Queue.
Section queue.
Context {T : Type}.

(** [data] with its front first; [cache_data] has eight entries, of which the first
    [cache_size] hold elements. *)
Record queue : Type := mk {
  data : list T;
  terminating : bool;
  cache_size : Z;
  cache_data : list (option T)
}.

Definition AsyncQueueSPSC : queue := mk [] false 0 (replicate 8 None).

Definition reset (q : queue) : queue := mk (data q) false 0 (cache_data q).

Definition empty_unsafe (q : queue) : bool :=
  (cache_size q =? 0) && match data q with [] => true | _ => false end.
Definition size_unsafe (q : queue) : Z := cache_size q + Z.of_nat (length (data q)).

Definition close_begin (q : queue) : queue := mk (data q) true (cache_size q) (cache_data q).
Definition close_done (q : queue) : bool := empty_unsafe q.

Definition push (x : T) (q : queue) : res queue :=
  check negb (terminating q) else AssertFailed;
  Ok (mk (data q ++ [x]) (terminating q) (cache_size q) (cache_data q)).

(** [cache_data[--cache_size]]. *)
Definition pop_cache (q : queue) : res (T * queue) :=
  let c := cache_size q - 1 in
  do e <- of_option Undefined (cache_data q !! Z.to_nat c);
  do x <- of_option Undefined e;
  Ok (x, mk (data q) (terminating q) c (cache_data q)).

(** The loop that moves [n] elements into the cache, the first to the top. *)
Fixpoint refill (n : nat) (l : list T) (cache : list (option T)) : res (list T * list (option T)) :=
  match n with
  | O => Ok (l, cache)
  | S n =>
      match l with
      | [] => Err Undefined
      | x :: l => refill n l (<[n := Some x]> cache)
      end
  end.

Definition pop (q : queue) : res (option T * queue) :=
  if 0 <? cache_size q then do (x, q') <- pop_cache q; Ok (Some x, q')
  else
    match data q with
    | [] => if terminating q then Ok (None, q) else Err Blocked
    | x :: l =>
        let to_retrieve := Nat.min (length l) 8 in
        do (l', cache) <- refill to_retrieve l (cache_data q);
        Ok (Some x, mk l' (terminating q) (Z.of_nat to_retrieve) cache)
    end.

Definition pop_unsafe (q : queue) : res (T * queue) :=
  if 0 <? cache_size q then pop_cache q
  else
    match data q with
    | [] => Err Undefined
    | x :: l => Ok (x, mk l (terminating q) (cache_size q) (cache_data q))
    end.

(** *** The abstract queue *)

(** [l] is what the consumer will see: the cache from its top down, then the queue. *)
Record holds (q : queue) (l : list T) : Prop := mk_holds {
  h_size : 0 <= cache_size q <= 8;
  h_len : length (cache_data q) = 8%nat;
  h_contents : ∃ c, take (Z.to_nat (cache_size q)) (cache_data q) = Some <$> c ∧ l = reverse c ++ data q
}.

Lemma holds_new : holds AsyncQueueSPSC [].
Proof. split; simpl; [lia | done |]. by exists []. Qed.

Lemma refill_ok n (a b : list T) cache : length a = n → (n <= length cache)%nat →
  ∃ cache', refill n (a ++ b) cache = Ok (b, cache') ∧ length cache' = length cache ∧
    take n cache' = Some <$> reverse a ∧ drop n cache' = drop n cache.
Proof.
  revert a cache. induction n as [| n IH]; intros a cache Ha Hn.
  - destruct a; [| done]. exists cache. done.
  - destruct a as [| x a]; [done |]. simpl in Ha. injection Ha as Ha. simpl.
    destruct (IH a (<[n := Some x]> cache) Ha) as (cache' & E & Hl & Ht & Hd); [rewrite length_insert; lia |].
    rewrite length_insert in Hl. exists cache'. split; [done |]. split; [done |].
    assert (cache' !! n = Some (Some x)) as Hx.
    { rewrite <- (Nat.add_0_r n), <- lookup_drop, Hd, lookup_drop, Nat.add_0_r. apply list_lookup_insert_eq. lia. }
    split.
    + rewrite (take_S_r _ _ _ Hx), Ht, reverse_cons, fmap_app. done.
    + rewrite <- (Nat.add_1_r n), <- !drop_drop, Hd, !drop_drop, Nat.add_1_r. apply drop_insert_lt. lia.
Qed.

Lemma holds_empty q : holds q [] → cache_size q = 0 ∧ data q = [].
Proof.
  intros [Hs Hl (c & Hc & E)]. symmetry in E. apply app_eq_nil in E as [Er ->]. split; [| done].
  apply (f_equal reverse) in Er. rewrite reverse_involutive in Er. subst c.
  apply (f_equal length) in Hc. rewrite length_take, Hl in Hc. simpl in Hc. lia.
Qed.

Lemma pop_holds q x l : holds q (x :: l) →
  ∃ q', pop q = Ok (Some x, q') ∧ holds q' l ∧ terminating q' = terminating q.
Proof.
  intros [Hs Hl (c & Hc & E)]. unfold pop. destruct (Z.ltb_spec 0 (cache_size q)) as [Hpos | Hz].
  - destruct c as [| y c _] using rev_ind.
    { apply (f_equal length) in Hc. rewrite length_take, Hl in Hc. simpl in Hc. lia. }
    rewrite reverse_app in E. simpl in E. injection E as <- ->. unfold pop_cache.
    assert (length c = Z.to_nat (cache_size q - 1)) as Hlen.
    { apply (f_equal length) in Hc. rewrite length_take, length_fmap, length_app, Hl in Hc. simpl in Hc. lia. }
    assert (cache_data q !! Z.to_nat (cache_size q - 1) = Some (Some x)) as Hx.
    { rewrite <- (lookup_take_lt _ (Z.to_nat (cache_size q))) by lia. rewrite Hc, fmap_app, lookup_app_r by (rewrite length_fmap; lia).
      by rewrite length_fmap, Hlen, Nat.sub_diag. }
    rewrite Hx. simpl. eexists. split; [done |]. split; [| done]. split; simpl; [lia | done |].
    exists c. split; [| done]. apply (f_equal (take (length c))) in Hc. rewrite take_take in Hc.
    rewrite fmap_app, take_app_le in Hc by (rewrite length_fmap; lia).
    rewrite (take_ge (Some <$> c)) in Hc by (rewrite length_fmap; lia).
    rewrite <- Hc. f_equal. lia.
  - replace (cache_size q) with 0 in Hc by lia. simpl in Hc. symmetry in Hc. apply fmap_nil_inv in Hc as ->.
    simpl in E. rewrite <- E. set (n := Nat.min (length l) 8).
    destruct (refill_ok n (take n l) (drop n l) (cache_data q)) as (cache & Er & Hlc & Ht & _); [rewrite length_take; lia | lia |].
    rewrite take_drop in Er. rewrite Er. simpl. eexists. split; [done |]. split; [| done]. split; simpl; [lia | lia |].
    exists (reverse (take n l)). rewrite Nat2Z.id. split; [done |]. by rewrite reverse_involutive, take_drop.
Qed.

Lemma push_holds q l x : holds q l → terminating q = false →
  ∃ q', push x q = Ok q' ∧ holds q' (l ++ [x]) ∧ terminating q' = false.
Proof.
  intros [Hs Hl (c & Hc & E)] Et. unfold push. rewrite Et. eexists. split; [done |]. split; [| done].
  split; simpl; [done | done |]. exists c. split; [done |]. by rewrite E, app_assoc.
Qed.

Lemma pop_empty q : holds q [] → pop q = if terminating q then Ok (None, q) else Err Blocked.
Proof. intros Hq. destruct (holds_empty q Hq) as [Hz Hd]. unfold pop. by rewrite Hz, Hd. Qed.

Lemma close_done_holds q l : holds q l → close_done q = bool_decide (l = []).
Proof.
  intros Hq. pose proof Hq as [Hs Hl (c & Hc & E)]. unfold close_done, empty_unsafe. destruct l as [| x l'].
  - destruct (holds_empty q Hq) as [-> ->]. done.
  - rewrite bool_decide_eq_false_2 by done. destruct (Z.eqb_spec (cache_size q) 0) as [Hz |]; [| done].
    rewrite Hz in Hc. simpl in Hc. symmetry in Hc. apply fmap_nil_inv in Hc as ->. simpl in E. by rewrite <- E.
Qed.

Lemma close_begin_holds q l : holds q l → holds (close_begin q) l.
Proof. intros [Hs Hl (c & Hc & E)]. split; simpl; [done | done | by exists c]. Qed.

(** The queue is a first-in first-out queue, however its contents are split between the
    shared queue and the consumer's cache: a push appends, a pop returns the oldest element
    and waits exactly when there is none and the queue is not closed, a closed and empty
    queue returns false, and the reported size is the number of elements. *)
Theorem queue_is_fifo (q : queue) (l : list T) :
  holds q l →
  (∀ x, if terminating q then push x q = Err AssertFailed
        else ∃ q', push x q = Ok q' ∧ holds q' (l ++ [x]) ∧ terminating q' = false) ∧
  match l with
  | x :: l' => ∃ q', pop q = Ok (Some x, q') ∧ holds q' l' ∧ terminating q' = terminating q
  | [] => pop q = if terminating q then Ok (None, q) else Err Blocked
  end ∧
  size_unsafe q = Z.of_nat (length l) ∧ close_done q = bool_decide (l = []) ∧
  holds (close_begin q) l ∧ holds (reset q) (data q).
Proof.
  intros Hq. pose proof Hq as [Hs Hl (c & Hc & E)]. split; [| split; [| split; [| split; [| split]]]].
  - intros x. destruct (terminating q) eqn:Et; [unfold push; by rewrite Et | by apply push_holds].
  - destruct l as [| x l']; [by apply pop_empty | by apply pop_holds].
  - unfold size_unsafe. apply (f_equal length) in Hc. rewrite length_take, length_fmap, Hl in Hc.
    rewrite E, length_app, length_reverse. lia.
  - by apply close_done_holds.
  - by apply close_begin_holds.
  - split; simpl; [lia | done | by exists []].
Qed.

End queue.

Definition ex_queue : queue := mk [3; 4] false 2 [Some 2; Some 1; None; None; None; None; None; None].

Lemma queue_is_fifo_witness : ∃ q', pop ex_queue = Ok (Some 1, q') ∧ holds q' [2; 3; 4] ∧ terminating q' = false.
Proof.
  apply (queue_is_fifo ex_queue [1; 2; 3; 4]). split; simpl; [lia | done |]. by exists [2; 1].
Defined.

End Queue.

(** ** [AsyncQueueSPSC_lockfree] *)

Module Ring.
Section ring.
Context {T : Type} `{EqDecision T} (eof : T).

Definition size : nat := 32.

(** Where the producer is in [push]: before it, after loading the tail, after seeing a free
    slot, after writing the slot. *)
Inductive producer : Type :=
  | PIdle
  | PLoaded (x : T) (current_tail next_tail : nat)
  | PReady (x : T) (current_tail next_tail : nat)
  | PWritten (x : T) (next_tail : nat).

(** Where the consumer is in [pop]. *)
Inductive consumer : Type :=
  | CIdle
  | CLoaded (current_head : nat)
  | CReady (current_head : nat)
  | CRead (current_head : nat) (item : T).

(** [pushed] and [popped] list what the completed calls pushed and popped. *)
Record ring : Type := mk {
  _tail : nat; _head : nat; _array : list (option T);
  prod : producer; cons : consumer;
  pushed : list T; popped : list T
}.

Definition AsyncQueueSPSC_lockfree : ring := mk 0 0 (replicate size None) PIdle CIdle [] [].

(** What [pop] returns for the item it took. *)
Definition pop_returns (item : T) : bool := negb (bool_decide (item = eof)).

(** [close]: a push of [eof], then waiting until the ring is empty. *)
Definition close_item : T := eof.
Definition ring_close_done (r : ring) : bool := Nat.eqb (_head r) (_tail r).

Inductive step : ring → ring → Prop :=
  | push_load r x : prod r = PIdle →
      step r (mk (_tail r) (_head r) (_array r) (PLoaded x (_tail r) ((_tail r + 1) mod size)) (cons r) (pushed r) (popped r))
  | push_check r x t n : prod r = PLoaded x t n → n ≠ _head r →
      step r (mk (_tail r) (_head r) (_array r) (PReady x t n) (cons r) (pushed r) (popped r))
  | push_write r x t n : prod r = PReady x t n →
      step r (mk (_tail r) (_head r) (<[t := Some x]> (_array r)) (PWritten x n) (cons r) (pushed r) (popped r))
  | push_store r x n : prod r = PWritten x n →
      step r (mk n (_head r) (_array r) PIdle (cons r) (pushed r ++ [x]) (popped r))
  | pop_load r : cons r = CIdle →
      step r (mk (_tail r) (_head r) (_array r) (prod r) (CLoaded (_head r)) (pushed r) (popped r))
  | pop_check r h : cons r = CLoaded h → h ≠ _tail r →
      step r (mk (_tail r) (_head r) (_array r) (prod r) (CReady h) (pushed r) (popped r))
  | pop_read r h item : cons r = CReady h → _array r !! h = Some (Some item) →
      step r (mk (_tail r) (_head r) (_array r) (prod r) (CRead h item) (pushed r) (popped r))
  | pop_store r h item : cons r = CRead h item →
      step r (mk (_tail r) ((h + 1) mod size) (_array r) (prod r) CIdle (pushed r) (popped r ++ [item])).

#[local] Arguments Nat.modulo : simpl never.

(** *** The invariant *)

Record inv (r : ring) : Prop := mk_inv {
  i_order : popped r = take (length (popped r)) (pushed r);
  i_count : (length (popped r) <= length (pushed r) <= length (popped r) + 31)%nat;
  i_head : _head r = (length (popped r) mod size)%nat;
  i_tail : _tail r = (length (pushed r) mod size)%nat;
  i_len : length (_array r) = size;
  i_slots i : (length (popped r) <= i < length (pushed r))%nat →
    _array r !! (i mod size)%nat = Some (pushed r !! i);
  i_prod : match prod r with
    | PIdle => True
    | PLoaded x t n => t = _tail r ∧ n = ((length (pushed r) + 1) mod size)%nat
    | PReady x t n => t = _tail r ∧ n = ((length (pushed r) + 1) mod size)%nat ∧
        (length (pushed r) < length (popped r) + 31)%nat
    | PWritten x n => n = ((length (pushed r) + 1) mod size)%nat ∧
        (length (pushed r) < length (popped r) + 31)%nat ∧ _array r !! _tail r = Some (Some x)
    end;
  i_cons : match cons r with
    | CIdle => True
    | CLoaded h => h = _head r
    | CReady h => h = _head r ∧ (length (popped r) < length (pushed r))%nat
    | CRead h item => h = _head r ∧ pushed r !! length (popped r) = Some item
    end
}.

Lemma mod_inj i j : (i <= j < i + 32)%nat → (i mod size = j mod size)%nat → i = j.
Proof using Type.
  intros Hij E. unfold size in E. pose proof (Nat.div_mod_eq i 32). pose proof (Nat.div_mod_eq j 32). lia.
Qed.

Lemma mod_succ i : ((i mod size + 1) mod size = (i + 1) mod size)%nat.
Proof using Type. by rewrite Nat.Div0.add_mod_idemp_l. Qed.

Lemma ring_init_inv : inv AsyncQueueSPSC_lockfree.
Proof using Type. split; simpl; try done; lia. Qed.

Lemma ring_step_inv r r' : inv r → step r r' → inv r'.
Proof using Type.
  intros [Ho Hn Hh Ht Hl Hs Hp Hc] Hstep.
  destruct Hstep as [r x E | r x t n E Hne | r x t n E | r x n E | r E | r h E Hne | r h item E Ha | r h item E];
    rewrite E in *.
  - split; simpl; try done. rewrite Ht, mod_succ. done.
  - destruct Hp as [-> ->]. split; simpl; try done. split; [done |]. split; [done |].
    destruct (Nat.eq_dec (length (pushed r)) (length (popped r) + 31)%nat) as [Eq |]; [| lia]. exfalso. apply Hne.
    rewrite Hh, Eq. replace (length (popped r) + 31 + 1)%nat with (length (popped r) + 1 * 32)%nat by lia.
    unfold size. by rewrite Nat.Div0.mod_add.
  - destruct Hp as (-> & -> & Hlt). split; simpl; try done.
    + by rewrite length_insert.
    + intros i Hi. rewrite list_lookup_insert_ne; [by apply Hs |]. rewrite Ht. intros Eq%eq_sym.
      apply mod_inj in Eq; lia.
    + split; [done |]. split; [done |]. apply list_lookup_insert_eq. rewrite Hl, Ht. by apply Nat.mod_upper_bound.
  - destruct Hp as (-> & Hlt & Hx). split; simpl; rewrite ?length_app; simpl; try done.
    + rewrite take_app_le by lia. done.
    + lia.
    + intros i Hi. destruct (decide (i = length (pushed r))) as [-> | Hne].
      * rewrite <- Ht, Hx. by rewrite lookup_app_r, Nat.sub_diag by lia.
      * rewrite lookup_app_l by lia. apply Hs. lia.
    + destruct (cons r) as [| h | h | h item]; try done.
      * destruct Hc. split; [done | lia].
      * destruct Hc as [? Hi]. split; [done |]. by rewrite lookup_app_l by (by eapply lookup_lt_Some).
  - split; simpl; done.
  - subst h. split; simpl; try done. split; [done |]. destruct (Nat.eq_dec (length (popped r)) (length (pushed r))) as [Eq |]; [| lia].
    exfalso. apply Hne. by rewrite Hh, Ht, Eq.
  - destruct Hc as [-> Hlt]. split; simpl; try done. split; [done |].
    rewrite Hh in Ha. rewrite Hs in Ha by lia. congruence.
  - destruct Hc as [-> Hi]. pose proof (lookup_lt_Some _ _ _ Hi). split; simpl; rewrite ?length_app; simpl; try done.
    + rewrite Nat.add_1_r, (take_S_r _ _ _ Hi). by rewrite <- Ho.
    + lia.
    + by rewrite Hh, mod_succ.
    + intros i ?. apply Hs. lia.
    + destruct (prod r) as [| x t n | x t n | x n]; try done.
      * destruct Hp as (-> & -> & ?). split; [done |]. split; [done | lia].
      * destruct Hp as (-> & ? & ?). split; [done |]. split; [lia | done].
Qed.

Lemma ring_reachable r : rtc step AsyncQueueSPSC_lockfree r → inv r.
Proof using Type.
  intros H. apply (rtc_ind_r inv AsyncQueueSPSC_lockfree ring_init_inv) in H; [done |].
  intros. by eapply ring_step_inv.
Qed.

(** C29: In every interleaving of the producer and the consumer of the lock-free ring, what was
    popped is a prefix of what was pushed, at most 31 elements are in between, the producer
    never writes the slot the consumer is about to read, that slot holds the oldest element
    not yet popped, a full ring and an empty ring are the only states that make the producer
    and the consumer wait, and [close] stops waiting exactly when everything was popped. *)
Theorem ring_is_fifo (r : ring) :
  rtc step AsyncQueueSPSC_lockfree r →
  popped r `prefix_of` pushed r ∧ (length (pushed r) <= length (popped r) + 31)%nat ∧
  (∀ x t n h, prod r = PReady x t n → cons r = CReady h → t ≠ h) ∧
  (∀ h, cons r = CReady h →
    ∃ item, _array r !! h = Some (Some item) ∧ pushed r !! length (popped r) = Some item) ∧
  (∀ x t n, prod r = PLoaded x t n → n = _head r → length (pushed r) = (length (popped r) + 31)%nat) ∧
  (∀ h, cons r = CLoaded h → h = _tail r → popped r = pushed r) ∧
  ring_close_done r = bool_decide (popped r = pushed r).
Proof.
  intros [Ho Hn Hh Ht Hl Hs Hp Hc]%ring_reachable.
  assert (_head r = _tail r ↔ popped r = pushed r) as Hempty.
  { split; [| intros E; by rewrite Hh, Ht, E]. rewrite Hh, Ht. intros E%mod_inj; [| lia]. by rewrite Ho, E, take_ge. }
  split; [rewrite Ho; apply prefix_take |]. split; [lia |]. split; [| split; [| split; [| split]]].
  - intros x t n h Ep Ec Eq. rewrite Ep in Hp. rewrite Ec in Hc. destruct Hp as (-> & _), Hc as (-> & Hlt).
    rewrite <- Eq, Ht in Hh. symmetry in Hh. apply mod_inj in Hh; lia.
  - intros h Ec. rewrite Ec in Hc. destruct Hc as (-> & Hlt). destruct (lookup_lt_is_Some_2 _ _ Hlt) as [item Hi].
    exists item. split; [| done]. rewrite Hh, Hs by lia. by rewrite Hi.
  - intros x t n Ep E. rewrite Ep in Hp. destruct Hp as (_ & ->). rewrite Hh in E.
    destruct (Nat.eq_dec (length (pushed r)) (length (popped r) + 31)%nat) as [| Hne]; [done |]. symmetry in E. apply mod_inj in E; lia.
  - intros h Ec E. rewrite Ec in Hc. subst h. by apply Hempty.
  - unfold ring_close_done. destruct (Nat.eqb_spec (_head r) (_tail r)) as [E | E].
    + by rewrite bool_decide_eq_true_2 by (by apply Hempty).
    + rewrite bool_decide_eq_false_2; [done |]. by rewrite <- Hempty.
Qed.

End ring.

(** One element pushed and popped. *)
Definition ex_slots : list (option Z) := Some 7 :: replicate 31 None.
Definition ex_ring (p : producer (T := Z)) (c : consumer (T := Z)) : ring (T := Z) := mk 1 0 ex_slots p c [7] [].
Definition ex_popped : ring (T := Z) := mk 1 1 ex_slots PIdle CIdle [7] [7].

Lemma ring_is_fifo_witness : popped ex_popped `prefix_of` pushed ex_popped ∧ ring_close_done ex_popped = true.
Proof.
  destruct (ring_is_fifo ex_popped) as (H & _ & _ & _ & _ & _ & E); [| by rewrite E].
  set (s1 := λ p, mk 0 0 (replicate 32 None) p CIdle [] [] : ring (T := Z)).
  set (s3 := mk 0 0 ex_slots (PWritten 7 1) CIdle [] [] : ring (T := Z)).
  apply (rtc_l _ _ (s1 (PLoaded 7 0 1)) _ (push_load AsyncQueueSPSC_lockfree 7 eq_refl)).
  apply (rtc_l _ _ (s1 (PReady 7 0 1)) _ (push_check (s1 (PLoaded 7 0 1)) 7 0 1 eq_refl ltac:(discriminate))).
  apply (rtc_l _ _ s3 _ (push_write (s1 (PReady 7 0 1)) 7 0 1 eq_refl)).
  apply (rtc_l _ _ (ex_ring PIdle CIdle) _ (push_store s3 7 1 eq_refl)).
  apply (rtc_l _ _ (ex_ring PIdle (CLoaded 0)) _ (pop_load (ex_ring PIdle CIdle) eq_refl)).
  apply (rtc_l _ _ (ex_ring PIdle (CReady 0)) _ (pop_check (ex_ring PIdle (CLoaded 0)) 0 eq_refl ltac:(discriminate))).
  apply (rtc_l _ _ (ex_ring PIdle (CRead 0 7)) _ (pop_read (ex_ring PIdle (CReady 0)) 0 7 eq_refl eq_refl)).
  apply (rtc_l _ _ ex_popped _ (pop_store (ex_ring PIdle (CRead 0 7)) 0 7 eq_refl)).
  apply rtc_refl.
Defined.

End Ring.
