(* ===== verification/Text.v ===== *)
(** * Text: the pieces of C++ string and number handling the runtime uses.

    A string is the list of its bytes.  [stoi], [operator<<] on an [int], [getline],
    [find_last_of] and the order of [std::string] are written out from the standard; the
    digit routines [atois] are those of [olap/lib/util/functions.cpp]. *)

From S2P Require Import Prelude.
From Stdlib Require Import ZArith Lia Bool.
From stdpp Require Import base numbers list sets.

Local Open Scope Z_scope.
Local Open Scope res_scope.

Module Text.

Abbreviation str := (list Z).

Definition NUL : Z := 0.
Definition NL : Z := 10.
Definition COLON : Z := 58.
Definition ZERO : Z := 48.

Definition INT_MAX : Z := 2 ^ 31 - 1.
Definition INT_MIN : Z := - 2 ^ 31.

Definition isdigit (c : Z) : bool := (48 <=? c) && (c <=? 57).
Definition isspace (c : Z) : bool := (c =? 32) || ((9 <=? c) && (c <=? 13)).

(** ** Printing *)

(** The decimal digits of [n]; [fuel] bounds their number. *)
Fixpoint digits (fuel : nat) (n : Z) : str :=
  match fuel with
  | O => []
  | S fuel => if n <? 10 then [ZERO + n] else digits fuel (n / 10) ++ [ZERO + n mod 10]
  end.

(** [out << n] for an [int]. *)
Definition print_int (n : Z) : str :=
  if n <? 0 then 45 :: digits 10 (- n) else digits 10 n.

(** ** [std::stoi] *)

Fixpoint skip_space (s : str) : nat * str :=
  match s with
  | c :: s' => if isspace c then let '(k, r) := skip_space s' in (S k, r) else (O, s)
  | [] => (O, [])
  end.

(** The value of the leading digits, and their number. *)
Fixpoint parse_digits (acc : Z) (s : str) : Z * nat :=
  match s with
  | c :: s' => if isdigit c then let '(v, k) := parse_digits (acc * 10 + (c - ZERO)) s' in (v, S k)
               else (acc, O)
  | [] => (acc, O)
  end.

(** The value and the position behind the number: [Throw] is [invalid_argument]. *)
Definition stoi (s : str) : res (Z * nat) :=
  let '(k, s1) := skip_space s in
  let '(neg, sg, s2) :=
    match s1 with
    | c :: r => if c =? 45 then (true, 1%nat, r) else if c =? 43 then (false, 1%nat, r) else (false, O, s1)
    | [] => (false, O, s1)
    end in
  let '(v, n) := parse_digits 0 s2 in
  check negb (Nat.eqb n 0) else Throw;
  let v := if (neg : bool) then - v else v in
  check (INT_MIN <=? v) && (v <=? INT_MAX) else OutOfRange;
  Ok (v, (k + sg + n)%nat).

(** ** Lines *)

(** The lines [getline] gives, one after the other; [cur] is the line read so far. *)
Fixpoint getlines (cur : str) (s : str) : list str :=
  match s with
  | [] => match cur with [] => [] | _ => [reverse cur] end
  | c :: s => if c =? NL then reverse cur :: getlines [] s else getlines (c :: cur) s
  end.

(** [s.find_last_of(c)]. *)
Fixpoint find_last_of (c : Z) (s : str) : option nat :=
  match s with
  | [] => None
  | x :: s =>
      match find_last_of c s with
      | Some i => Some (S i)
      | None => if x =? c then Some O else None
      end
  end.

(** [a < b] on [std::string]. *)
Fixpoint str_ltb (a b : str) : bool :=
  match a, b with
  | _, [] => false
  | [], _ :: _ => true
  | x :: a, y :: b => (x <? y) || ((x =? y) && str_ltb a b)
  end.

(** [strncmp(a, b, n) == 0] on C strings. *)
Fixpoint strncmp_eq (n : nat) (a b : str) : bool :=
  match n with
  | O => true
  | S n =>
      let ca := match a with [] => NUL | x :: _ => x end in
      let cb := match b with [] => NUL | y :: _ => y end in
      (ca =? cb) && (if ca =? NUL then true else strncmp_eq n (tail a) (tail b))
  end.

(** ** [atois] *)

(** [buf[i] - '0'] times its weight, as [int]: the products and the sums must not overflow. *)
Definition int_ok (v : Z) : res Z := check (INT_MIN <=? v) && (v <=? INT_MAX) else Undefined; Ok v.

Fixpoint atoi_sum (acc : Z) (len : nat) (buf : str) : res Z :=
  match len with
  | O => Ok acc
  | S len =>
      match buf with
      | [] => Err Undefined
      | c :: buf =>
          do term <- int_ok ((c - ZERO) * 10 ^ Z.of_nat len);
          do acc' <- int_ok (acc + term);
          atoi_sum acc' len buf
      end
  end.

(** [atoi1] to [atoi10], by length. *)
Definition atois (buf : str) (len : Z) : res Z :=
  check (1 <=? len) && (len <=? 10) else Throw;
  atoi_sum 0 (Z.to_nat len) buf.

(** ** Tokens *)

(** [strlen] of a C string. *)
Fixpoint strlen (s : str) : nat :=
  match s with
  | [] => O
  | c :: s => if c =? NUL then O else S (strlen s)
  end.

Definition compareTokenString (buf : str) (start fin : nat) (candidate : str) : bool :=
  strncmp_eq (fin - start) (drop start buf) candidate && Nat.eqb (strlen candidate) (fin - start).

Definition s_true : str := [116; 114; 117; 101].
Definition s_TRUE : str := [84; 82; 85; 69].
Definition s_1 : str := [49].
Definition s_false : str := [102; 97; 108; 115; 101].
Definition s_FALSE : str := [70; 65; 76; 83; 69].
Definition s_0 : str := [48].

Definition convertBoolean (buf : str) (start fin : nat) : res bool :=
  if compareTokenString buf start fin s_true || compareTokenString buf start fin s_TRUE
     || compareTokenString buf start fin s_1 then Ok true
  else if compareTokenString buf start fin s_false || compareTokenString buf start fin s_FALSE
     || compareTokenString buf start fin s_0 then Ok false
  else Err Throw.

(** ** [newlineAVX] *)

(** A loop over bytes: the position of the first newline. *)
Fixpoint scan (pos : nat) (s : str) : option nat :=
  match s with
  | [] => None
  | c :: s => if c =? NL then Some pos else scan (S pos) s
  end.

(** A 32-bit word of the comparison mask is non-zero. *)
Definition mask_word (w : str) : bool := existsb (λ c, c =? NL) w.

(** The words of a vector: the bytes are looked at only where the mask is set. *)
Fixpoint vector_scan (words : nat) (pos : nat) (vec : str) : option nat :=
  match words with
  | O => None
  | S words =>
      if mask_word (take 4 vec) then
        match scan pos (take 4 vec) with
        | Some p => Some p
        | None => vector_scan words (pos + 4) (drop 4 vec)
        end
      else vector_scan words (pos + 4) (drop 4 vec)
  end.

(** The last bytes, fewer than a vector, one by one. *)
Fixpoint newline_tail (n : nat) (strIdx : nat) (target : str) : res nat :=
  match n with
  | O => Err Throw
  | S n =>
      match target with
      | [] => Err Undefined
      | c :: target => if c =? NL then Ok strIdx else newline_tail n (S strIdx) target
      end
  end.

(** Vectors of 32 bytes while they fit, then single bytes; loads stay inside [target]. *)
Fixpoint newline_loop (vectors rest : nat) (strIdx : nat) (target : str) : res nat :=
  match vectors with
  | O => newline_tail rest strIdx target
  | S vectors =>
      check Nat.leb 32 (length target) else Undefined;
      match vector_scan 8 strIdx (take 32 target) with
      | Some p => Ok p
      | None => newline_loop vectors rest (strIdx + 32) (drop 32 target)
      end
  end.

Definition newlineAVX (target : str) (targetLength : nat) : res nat :=
  newline_loop (targetLength / 32) (targetLength mod 32) 0 target.

(** ** Facts *)

Lemma scan_app pos a b : scan pos (a ++ b) =
  match scan pos a with Some p => Some p | None => scan (pos + length a) b end.
Proof.
  revert pos. induction a as [| c a IH]; intros pos; simpl; [by rewrite Nat.add_0_r |].
  destruct (c =? NL); [done |]. rewrite IH. by replace (pos + S (length a))%nat with (S pos + length a)%nat by lia.
Qed.

Lemma scan_mask pos w : mask_word w = false → scan pos w = None.
Proof.
  revert pos. induction w as [| c w IH]; intros pos; simpl; [done |]. destruct (c =? NL); simpl; [done | apply IH].
Qed.

Lemma vector_scan_is_scan words pos vec : length vec = (4 * words)%nat → vector_scan words pos vec = scan pos vec.
Proof.
  revert pos vec. induction words as [| words IH]; intros pos vec Hl; [by destruct vec |]. simpl.
  rewrite IH by (rewrite length_drop; lia).
  assert (scan pos vec = scan pos (take 4 vec ++ drop 4 vec)) as -> by (by rewrite take_drop).
  rewrite scan_app, length_take.
  replace (4 `min` length vec)%nat with 4%nat by lia.
  destruct (mask_word (take 4 vec)) eqn:E; [done |]. by rewrite (scan_mask pos _ E).
Qed.

Lemma newline_tail_is_scan n pos target : (n <= length target)%nat →
  newline_tail n pos target = of_option Throw (scan pos (take n target)).
Proof.
  revert pos target. induction n as [| n IH]; intros pos [| c target] Hl; simpl in *; try done; [lia |].
  destruct (c =? NL); [done |]. apply IH. lia.
Qed.

Lemma newline_loop_is_scan vectors rest pos target : (32 * vectors + rest <= length target)%nat →
  newline_loop vectors rest pos target = of_option Throw (scan pos (take (32 * vectors + rest) target)).
Proof.
  revert pos target. induction vectors as [| k IH]; intros pos target Hl; [by apply newline_tail_is_scan |]. cbn [newline_loop].
  rewrite (proj2 (Nat.leb_le 32 (length target))) by lia. rewrite vector_scan_is_scan by (rewrite length_take; lia). rewrite IH by (rewrite length_drop; lia).
  replace (take (32 * S k + rest) target) with (take 32 target ++ take (32 * k + rest) (drop 32 target)).
  - rewrite scan_app, length_take. replace (32 `min` length target)%nat with 32%nat by lia. by destruct (scan pos (take 32 target)).
  - rewrite <- (take_drop 32 (take (32 * S k + rest) target)). rewrite take_take, skipn_firstn_comm. f_equal; f_equal; lia.
Qed.

(** The vectorised newline search returns the position of the first newline among the first
    [targetLength] bytes, as a byte-by-byte search does, and throws when there is none. *)
Theorem newlineAVX_is_scan (target : str) (targetLength : nat) :
  (targetLength <= length target)%nat →
  newlineAVX target targetLength = of_option Throw (scan 0 (take targetLength target)).
Proof.
  intros Hl. unfold newlineAVX. pose proof (Nat.div_mod_eq targetLength 32). rewrite newline_loop_is_scan by lia. by do 3 f_equal.
Qed.

Lemma newline_loop_finds a b vectors rest pos : NL ∉ a → (length a < 32 * vectors + rest)%nat → (31 <= length b)%nat →
  newline_loop vectors rest pos (a ++ NL :: b) = Ok (pos + length a)%nat.
Proof.
  assert (∀ a b pos, NL ∉ a → scan pos (a ++ NL :: b) = Some (pos + length a)%nat) as Hscan.
  { clear. induction a as [| c a IH]; intros b pos Ha; simpl; [f_equal; lia |]. destruct (Z.eqb_spec c NL) as [-> |]; [set_solver |].
    rewrite IH by set_solver. f_equal. lia. }
  revert a pos. induction vectors as [| k IH]; intros a pos Ha Hl Hb.
  - cbn [newline_loop]. destruct (decide (rest <= length (a ++ NL :: b))%nat) as [Hle | Hgt].
    + rewrite newline_tail_is_scan by done. rewrite take_app_ge by lia. destruct (rest - length a)%nat as [| n] eqn:En; [lia |].
      simpl. by rewrite Hscan.
    + clear Hgt Hb. revert a pos Ha Hl. induction rest as [| n IH]; intros a pos Ha Hl; [lia |]. destruct a as [| c a]; simpl; [f_equal; lia |].
      destruct (Z.eqb_spec c NL) as [-> |]; [set_solver |]. rewrite IH; [f_equal; lia | set_solver | simpl in *; lia].
  - cbn [newline_loop]. rewrite (proj2 (Nat.leb_le 32 (length (a ++ NL :: b)))) by (rewrite length_app; simpl; lia).
    rewrite vector_scan_is_scan by (rewrite length_take, length_app; cbn [length]; lia).
    destruct (decide (length a < 32)%nat) as [Hlt | Hge].
    + rewrite take_app_ge by lia. destruct (32 - length a)%nat as [| n] eqn:En; [lia |]. simpl. by rewrite Hscan.
    + rewrite take_app_le, drop_app_le by lia. rewrite <- (take_drop 32 a) in Ha.
      assert (scan pos (take 32 a) = None) as ->.
      { assert (NL ∉ take 32 a) as Hn by set_solver. clear -Hn. revert pos. induction (take 32 a) as [| c l IH]; intros pos; [done |]. simpl.
        destruct (Z.eqb_spec c NL) as [-> |]; [set_solver |]. apply IH. set_solver. }
      rewrite IH by (rewrite ?length_drop; (lia || set_solver)). rewrite length_drop. f_equal. lia.
Qed.

(** A newline within [targetLength] is found when a vector's length can be read behind it, even if the
    string ends before [targetLength]. *)
Lemma newlineAVX_finds a b targetLength : NL ∉ a → (length a < targetLength)%nat → (31 <= length b)%nat →
  newlineAVX (a ++ NL :: b) targetLength = Ok (length a).
Proof.
  intros Ha Hl Hb. unfold newlineAVX. pose proof (Nat.div_mod_eq targetLength 32). rewrite newline_loop_finds by (done || lia). f_equal.
Qed.

Lemma newlineAVX_is_scan_witness :
  newlineAVX (replicate 40 97 ++ [NL]) 41 = of_option Throw (scan 0 (take 41 (replicate 40 97 ++ [NL]))).
Proof. apply (newlineAVX_is_scan (replicate 40 97 ++ [NL]) 41). simpl. lia. Defined.

(** ** Numbers *)

(** The number a string of digits denotes. *)
Definition value (s : str) : Z := foldl (λ a c, a * 10 + (c - ZERO)) 0 s.

Definition all_digits (s : str) : bool := forallb isdigit s.

Lemma foldl_value acc s : foldl (λ a c, a * 10 + (c - ZERO)) acc s = acc * 10 ^ Z.of_nat (length s) + value s.
Proof.
  unfold value. revert acc. induction s as [| c s IH]; intros acc; simpl foldl; [simpl; lia |].
  rewrite IH, (IH (0 * 10 + (c - ZERO))). cbn [length]. rewrite Nat2Z.inj_succ, Z.pow_succ_r by lia. ring.
Qed.

Lemma value_cons c s : value (c :: s) = (c - ZERO) * 10 ^ Z.of_nat (length s) + value s.
Proof. unfold value at 1. simpl foldl. rewrite foldl_value. ring. Qed.

Lemma value_app a b : value (a ++ b) = value a * 10 ^ Z.of_nat (length b) + value b.
Proof. unfold value at 1. rewrite foldl_app, foldl_value. done. Qed.

Lemma isdigit_range c : isdigit c = true → 0 <= c - ZERO <= 9.
Proof. unfold isdigit, ZERO. rewrite andb_true_iff, !Z.leb_le. lia. Qed.

Lemma value_nonneg s : all_digits s = true → 0 <= value s.
Proof.
  induction s as [| c s IH]; [done |]. simpl. intros [Hc%isdigit_range Hs]%andb_true_iff.
  rewrite value_cons. specialize (IH Hs). assert (0 <= 10 ^ Z.of_nat (length s)) by lia. nia.
Qed.

Lemma parse_digits_app acc a b : all_digits a = true →
  match b with c :: _ => isdigit c = false | [] => True end →
  parse_digits acc (a ++ b) = (acc * 10 ^ Z.of_nat (length a) + value a, length a).
Proof.
  intros Ha Hb. rewrite <- foldl_value. revert acc. induction a as [| c a IH]; intros acc; simpl.
  - destruct b as [| c b]; [done |]. simpl. by rewrite Hb.
  - simpl in Ha. apply andb_true_iff in Ha as [-> Ha]. by rewrite IH.
Qed.

Lemma digits_spec fuel n : 0 <= n < 10 ^ Z.of_nat fuel → (fuel ≠ 0)%nat →
  all_digits (digits fuel n) = true ∧ value (digits fuel n) = n ∧ (length (digits fuel n) ≠ 0)%nat ∧
  (length (digits fuel n) <= fuel)%nat.
Proof.
  revert n. induction fuel as [| fuel IH]; intros n Hn Hf; [done |]. simpl.
  destruct (Z.ltb_spec n 10) as [Hlt | Hge].
  - unfold value, all_digits, isdigit, ZERO. simpl.
    rewrite (proj2 (Z.leb_le _ _)), (proj2 (Z.leb_le _ _)) by lia. split; [done |]. split; lia.
  - rewrite Nat2Z.inj_succ, Z.pow_succ_r in Hn by lia. pose proof (Z.mod_pos_bound n 10).
    destruct fuel as [| fuel]; [simpl in Hn; lia |].
    destruct (IH (n / 10)) as (H1 & H2 & H3 & H4); [split; [apply Z.div_pos; lia | apply Z.div_lt_upper_bound; lia] | done |].
    set (ds := digits (S fuel) (n / 10)) in *. clearbody ds.
    unfold all_digits in *. rewrite forallb_app, H1, value_app, H2, length_app. simpl. split.
    + unfold isdigit, ZERO. by rewrite (proj2 (Z.leb_le _ _)), (proj2 (Z.leb_le _ _)) by lia.
    + split; [| lia]. unfold value. simpl. unfold ZERO. pose proof (Z.div_mod n 10 ltac:(done)). lia.
Qed.

(** What is printed is read back. *)
Lemma stoi_print_int n rest : 0 <= n <= INT_MAX →
  match rest with c :: _ => isdigit c = false | [] => True end →
  stoi (print_int n ++ rest) = Ok (n, length (print_int n)).
Proof.
  intros Hn Hr. unfold print_int. rewrite (proj2 (Z.ltb_ge _ _)) by lia. unfold INT_MAX in Hn.
  destruct (digits_spec 10 n) as (H1 & H2 & H3 & _); [simpl; lia | done |].
  destruct (digits 10 n) as [| c ds] eqn:E; [done |]. rewrite <- E in *. unfold stoi.
  assert (isdigit c = true) as Hc by (rewrite E in H1; simpl in H1; by apply andb_true_iff in H1 as [? _]).
  assert (skip_space (digits 10 n ++ rest) = (0%nat, digits 10 n ++ rest)) as ->.
  { rewrite E. simpl. unfold isspace, isdigit in *. rewrite andb_true_iff, !Z.leb_le in Hc.
    rewrite (proj2 (Z.eqb_neq _ _)) by lia. by rewrite (proj2 (Z.leb_gt c 13)), andb_false_r by lia. }
  assert (parse_digits 0 (digits 10 n ++ rest) = (n, length (digits 10 n))) as Hp by (rewrite parse_digits_app by done; by rewrite H2).
  rewrite E in *. simpl app in *. unfold isdigit in Hc. rewrite andb_true_iff, !Z.leb_le in Hc.
  rewrite !(proj2 (Z.eqb_neq _ _)) by lia. rewrite Hp. simpl. unfold INT_MIN, INT_MAX.
  by rewrite !(proj2 (Z.leb_le _ _)) by lia.
Qed.

Lemma atoi_sum_value acc ds rest : all_digits ds = true → 0 <= acc <= INT_MAX →
  atoi_sum acc (length ds) (ds ++ rest) =
  if acc + value ds <=? INT_MAX then Ok (acc + value ds) else Err Undefined.
Proof.
  revert acc. induction ds as [| c ds IH]; intros acc Hd Hacc.
  - simpl. replace (acc + value []) with acc by (unfold value; simpl; lia). by rewrite (proj2 (Z.leb_le _ _)) by lia.
  - simpl in Hd. apply andb_true_iff in Hd as [Hc%isdigit_range Hd]. pose proof (value_nonneg ds Hd) as Hv.
    rewrite value_cons. simpl. set (term := (c - ZERO) * 10 ^ Z.of_nat (length ds)).
    assert (0 <= term) by (unfold term; assert (0 <= 10 ^ Z.of_nat (length ds)) by lia; nia).
    unfold int_ok, INT_MIN. rewrite (proj2 (Z.leb_le _ term)) by lia. cbn [andb].
    destruct (Z.leb_spec term INT_MAX) as [Ht | Ht]; cbn [rbind]; [| by rewrite (proj2 (Z.leb_gt _ _)) by lia].
    rewrite (proj2 (Z.leb_le _ (acc + term))) by lia. cbn [andb].
    destruct (Z.leb_spec (acc + term) INT_MAX) as [Ht' | Ht']; cbn [rbind]; [| by rewrite (proj2 (Z.leb_gt _ _)) by lia].
    rewrite IH by (done || lia). by rewrite Z.add_assoc.
Qed.

(** On a field of one to ten digits [atois] returns the number they denote when it fits an
    [int] and overflows otherwise; every other length is refused; in particular every
    non-negative [int] is read back from its printed form. *)
Theorem atois_reads_digits (ds rest : str) :
  all_digits ds = true →
  atois (ds ++ rest) (Z.of_nat (length ds)) =
    (if (1 <=? Z.of_nat (length ds)) && (Z.of_nat (length ds) <=? 10)
     then if value ds <=? INT_MAX then Ok (value ds) else Err Undefined
     else Err Throw) ∧
  ∀ n, 0 <= n <= INT_MAX → atois (print_int n) (Z.of_nat (length (print_int n))) = Ok n.
Proof.
  intros Hd. split.
  - unfold atois. destruct (_ && _); [| done]. rewrite Nat2Z.id. rewrite atoi_sum_value by (done || unfold INT_MAX; lia).
    by rewrite Z.add_0_l.
  - intros n Hn. unfold print_int. rewrite (proj2 (Z.ltb_ge _ _)) by lia. unfold INT_MAX in Hn.
    destruct (digits_spec 10 n) as (H1 & H2 & H3 & H4); [simpl; lia | done |]. unfold atois.
    rewrite (proj2 (Z.leb_le 1 _)), (proj2 (Z.leb_le _ 10)) by lia. cbn [andb]. rewrite Nat2Z.id.
    rewrite <- (app_nil_r (digits 10 n)) at 2. rewrite atoi_sum_value by (done || unfold INT_MAX; lia).
    rewrite H2, Z.add_0_l. unfold INT_MAX. by rewrite (proj2 (Z.leb_le _ _)) by lia.
Qed.

Lemma atois_reads_digits_witness :
  atois ([50; 49; 52; 55; 52; 56; 51; 54; 52; 56] ++ []) 10 = Err Undefined ∧
  atois (print_int 2147483647) 10 = Ok 2147483647.
Proof.
  destruct (atois_reads_digits [50; 49; 52; 55; 52; 56; 51; 54; 52; 56] [] eq_refl) as [E H].
  split; [exact E | apply (H 2147483647); unfold INT_MAX; lia].
Defined.

End Text.
