(* ===== verification/Dictionary.v ===== *)
(** * Dictionary: the order-preserving string dictionaries of binary outputs
    ([flushBinarystr] and [flushDictIfExists] in [olap/lib/util/functions.cpp],
    [StorageManager::getDictionaryOf] in [storage/lib/storage-manager.cpp] and
    [lookupInDictionary] in [olap/lib/plan/expression-parser.cpp]).

    A writer gives every string a 32-bit code between the codes of its neighbours, so that
    comparing codes compares strings; the dictionary is written to a text file of lines
    [string:code], which readers load either as a map from codes or search for a string.  Files
    are the bytes they hold. *)

From S2P Require Import Prelude Text.
From Stdlib Require Import ZArith Lia Bool.
From stdpp Require Import base numbers list gmap sets sorting.

Local Open Scope Z_scope.
Local Open Scope res_scope.

Module Dictionary.
Import Text.

(** [std::map<std::string, int32_t>], in the order of its keys. *)
Abbreviation dict := (list (str * Z)).

Fixpoint find (key : str) (d : dict) : option Z :=
  match d with
  | [] => None
  | (k, c) :: d => if decide (k = key) then Some c else find key d
  end.

(** The codes around the place of [key]: that of [--upper_bound(key)] (or 0), and that of
    [upper_bound(key)] (or the largest [int] less one). *)
Fixpoint neighbours (key : str) (lower : Z) (d : dict) : Z * Z :=
  match d with
  | [] => (lower, INT_MAX - 1)
  | (k, c) :: d => if str_ltb key k then (lower, c) else neighbours key c d
  end.

(** [emplace] of a key that is not there. *)
Fixpoint emplace_key (key : str) (code : Z) (d : dict) : dict :=
  match d with
  | [] => [(key, code)]
  | (k, c) :: d' => if str_ltb key k then (key, code) :: d else (k, c) :: emplace_key key code d'
  end.

(** The code of a new key. *)
Definition new_code (key : str) (d : dict) : res Z :=
  match d with
  | [] => Ok (Z.quot INT_MAX 2)
  | [(k, _)] => Ok (if str_ltb k key then Z.quot INT_MAX 4 * 3 else Z.quot INT_MAX 4)
  | _ =>
      let '(lower_key, greater_key) := neighbours key 0 d in
      check lower_key <=? greater_key else AssertFailed;
      let dkey := Z.land greater_key lower_key + Z.quot (Z.lxor greater_key lower_key) 2 in
      check lower_key <? dkey else AssertFailed;
      check dkey <? greater_key else AssertFailed;
      Ok dkey
  end.

(** [flushBinary_impl] of an [int32_t]. *)
Definition flushBinaryi32 (x : Z) (out : str) : str :=
  out ++ ((λ i, Z.land (Z.shiftr x (8 * i)) 255) <$> [0; 1; 2; 3]).

Definition flushBinarystr (key : str) (d : dict) (out : str) : res (dict * str) :=
  match find key d with
  | Some dkey => Ok (d, flushBinaryi32 dkey out)
  | None => do dkey <- new_code key d; Ok (emplace_key key dkey d, flushBinaryi32 dkey out)
  end.

(** One line per entry; [prev] is the code of the line before. *)
Fixpoint flush_lines (prev : Z) (d : dict) : res str :=
  match d with
  | [] => Ok []
  | (k, c) :: d =>
      check prev <? c else AssertFailed;
      do rest <- flush_lines c d;
      Ok (k ++ COLON :: print_int c ++ NL :: rest)
  end.

Definition flushDictIfExists (d : dict) : res str := flush_lines INT_MIN d.

(** [map<int, string>::emplace]. *)
Definition load_line (m : gmap Z str) (line : str) : res (gmap Z str) :=
  do index <- of_option AssertFailed (find_last_of COLON line);
  do (encoding, _) <- stoi (take (length line - 1) (drop (index + 1) line));
  Ok (match m !! encoding with Some _ => m | None => <[encoding := take index line]> m end).

Definition getDictionaryOf (file : str) : res (gmap Z str) := rfoldM load_line ∅ (getlines [] file).

(** What a C string holds. *)
Definition c_str (s : str) : str := take (strlen s) s.

(** The first line that starts with the string and a colon; -1 when there is none. *)
Fixpoint lookup_lines (s : str) (lines : list str) : res Z :=
  match lines with
  | [] => Ok (-1)
  | line :: lines =>
      let prefix := s ++ [COLON] in
      if strncmp_eq (length prefix) line prefix then
        match stoi (c_str (drop (length prefix) line)) with
        | Ok (enc, pos) => check Nat.eqb (pos + length prefix) (length line) else Throw; Ok enc
        | Err _ => Err Throw
        end
      else lookup_lines s lines
  end.

Definition lookupInDictionary (s : str) (file : str) : res Z := lookup_lines s (getlines [] file).

(** ** The order of strings *)

Lemma str_ltb_irrefl a : str_ltb a a = false.
Proof. induction a as [| x a IH]; [done |]. simpl. by rewrite Z.ltb_irrefl, Z.eqb_refl, IH. Qed.

Lemma str_ltb_trans a b c : str_ltb a b = true → str_ltb b c = true → str_ltb a c = true.
Proof.
  revert b c. induction a as [| x a IH]; intros [| y b] [| z c]; simpl; try done.
  rewrite !orb_true_iff, !andb_true_iff, !Z.ltb_lt, !Z.eqb_eq. intros [H1 | [-> H1]] [H2 | [-> H2]].
  - left. lia.
  - by left.
  - by left.
  - right. split; [done | by eapply IH].
Qed.

Lemma str_ltb_total a b : a ≠ b → str_ltb a b = false → str_ltb b a = true.
Proof.
  revert b. induction a as [| x a IH]; intros [| y b] Hne; simpl; try done.
  rewrite orb_false_iff, andb_false_iff, Z.ltb_ge, Z.eqb_neq, orb_true_iff, andb_true_iff, Z.ltb_lt, Z.eqb_eq.
  intros [Hle [Hn | Hf]]; [left; lia |]. destruct (Z.eq_dec y x) as [-> |]; [right | left; lia].
  split; [done |]. apply IH; [congruence | done].
Qed.

Lemma str_ltb_asym a b : str_ltb a b = true → str_ltb b a = false.
Proof.
  intros H. destruct (str_ltb b a) eqn:E; [| done]. pose proof (str_ltb_trans _ _ _ H E) as F. by rewrite str_ltb_irrefl in F.
Qed.

(** ** The invariant *)

(** Later entries have greater keys and greater codes. *)
Definition before (e f : str * Z) : Prop := str_ltb e.1 f.1 = true ∧ e.2 < f.2.

Record dict_ok (d : dict) : Prop := mk_ok {
  ok_sorted : StronglySorted before d;
  ok_range e : e ∈ d → 0 < e.2 < INT_MAX - 1;
  ok_single k c : d = [(k, c)] → c = Z.quot INT_MAX 2
}.

Lemma dict_order d e f : StronglySorted before d → e ∈ d → f ∈ d → str_ltb e.1 f.1 = (e.2 <? f.2).
Proof.
  induction d as [| g d IH]; intros Hs He Hf; [by apply not_elem_of_nil in He |].
  apply StronglySorted_cons in Hs as [Hg Hs]. rewrite Forall_forall in Hg.
  apply elem_of_cons in He as [-> | He], Hf as [-> | Hf] || apply elem_of_cons in He as [-> | He].
  all: try (apply elem_of_cons in Hf as [-> | Hf]).
  - by rewrite str_ltb_irrefl, Z.ltb_irrefl.
  - destruct (Hg f Hf) as [-> H]. symmetry. by apply Z.ltb_lt.
  - destruct (Hg e He) as [H1 H2]. rewrite (str_ltb_asym _ _ H1). symmetry. apply Z.ltb_ge. lia.
  - by apply IH.
Qed.

Lemma find_elem d key c : StronglySorted before d → find key d = Some c ↔ (key, c) ∈ d.
Proof.
  induction d as [| [k c'] d IH]; intros Hs; simpl; [split; [done | by intros ?%not_elem_of_nil] |].
  apply StronglySorted_cons in Hs as [Hg Hs]. rewrite Forall_forall in Hg. rewrite elem_of_cons.
  destruct (decide (k = key)) as [-> | Hne].
  - split; [intros [= ->]; by left |]. intros [[= ->] | Hin]; [done |]. destruct (Hg _ Hin) as [H _]. simpl in H.
    by rewrite str_ltb_irrefl in H.
  - rewrite IH by done. split; [by right |]. intros [[= -> ->] | ?]; done.
Qed.

(** The place of a key that is not there. *)
Lemma split_dict key d lo : StronglySorted before d → find key d = None →
  ∃ A B, d = A ++ B ∧ (∀ e, e ∈ A → str_ltb e.1 key = true) ∧ (∀ e, e ∈ B → str_ltb key e.1 = true) ∧
    neighbours key lo d = (default lo (snd <$> last A), default (INT_MAX - 1) (snd <$> head B)) ∧
    ∀ c, emplace_key key c d = A ++ (key, c) :: B.
Proof.
  revert lo. induction d as [| [k c] d IH]; intros lo Hs Hf; simpl.
  { exists [], []. split; [done |]. split; [by intros ? ?%not_elem_of_nil |]. split; [by intros ? ?%not_elem_of_nil | done]. }
  apply StronglySorted_cons in Hs as [Hg Hs]. rewrite Forall_forall in Hg. simpl in Hf.
  destruct (decide (k = key)) as [| Hne]; [done |]. destruct (str_ltb key k) eqn:Ek.
  - exists [], ((k, c) :: d). split; [done |]. split; [by intros ? ?%not_elem_of_nil |]. split; [| done].
    intros e [-> | He]%elem_of_cons; [done |]. destruct (Hg e He) as [H _]. by eapply str_ltb_trans.
  - destruct (IH c Hs Hf) as (A & B & -> & HA & HB & HN & HE). exists ((k, c) :: A), B.
    split; [done |]. split; [| split; [done |]].
    + intros e [-> | He]%elem_of_cons; [| by apply HA]. apply str_ltb_total; simpl; [congruence | done].
    + split; [| intros c'; by rewrite HE]. rewrite HN, last_cons. by destruct (last A).
Qed.

(** Disjoint bits add up. *)
Lemma add_disjoint a b c : Z.land a b = 0 → Z.lxor a b = c → a + b = c.
Proof. intros H <-. by apply Z.add_nocarry_lxor. Qed.

Ltac disjoint_bits a b :=
  apply add_disjoint; apply Z.bits_inj'; intros i Hi;
  rewrite ?Z.lxor_spec, ?Z.land_spec, ?Z.ldiff_spec, ?Z.bits_0;
  by destruct (Z.testbit a i), (Z.testbit b i).

Lemma add_lxor_land a b : a + b = Z.lxor a b + 2 * Z.land a b.
Proof.
  assert (Z.land a b + Z.ldiff a b = a) by disjoint_bits a b.
  assert (Z.land a b + Z.ldiff b a = b) by disjoint_bits a b.
  assert (Z.ldiff a b + Z.ldiff b a = Z.lxor a b) by disjoint_bits a b. lia.
Qed.

Lemma midpoint l g : 0 <= l → 0 <= g → Z.land g l + Z.quot (Z.lxor g l) 2 = (l + g) / 2.
Proof.
  intros Hl Hg. assert (0 <= Z.lxor g l) by (apply Z.lxor_nonneg; tauto). rewrite Z.quot_div_nonneg by lia.
  rewrite (Z.add_comm l g), (add_lxor_land g l), (Z.mul_comm 2), Z.div_add by lia. lia.
Qed.

(** A new code is strictly between its neighbours. *)
Lemma new_code_between key d A B c : dict_ok d → find key d = None → d = A ++ B →
  neighbours key 0 d = (default 0 (snd <$> last A), default (INT_MAX - 1) (snd <$> head B)) →
  (∀ e, e ∈ A → str_ltb e.1 key = true) → (∀ e, e ∈ B → str_ltb key e.1 = true) →
  new_code key d = Ok c →
  default 0 (snd <$> last A) < c < default (INT_MAX - 1) (snd <$> head B).
Proof.
  intros [Hs Hr H1] Hf Hd HN HA HB. unfold new_code. destruct d as [| [k0 c0] [| e1 d]].
  - symmetry in Hd. apply app_eq_nil in Hd as [-> ->]. intros [= <-]. vm_compute. done.
  - rewrite (H1 k0 c0 eq_refl) in *. destruct A as [| a A]; simpl in Hd.
    + subst B. specialize (HB (k0, Z.quot INT_MAX 2) ltac:(left)). simpl in HB. rewrite (str_ltb_asym _ _ HB).
      intros [= <-]. simpl. unfold INT_MAX. vm_compute. done.
    + injection Hd as <- Hd. symmetry in Hd. apply app_eq_nil in Hd as [-> ->].
      specialize (HA (k0, Z.quot INT_MAX 2) ltac:(left)). simpl in HA. rewrite HA. intros [= <-]. vm_compute. done.
  - rewrite HN. intros E. res_inv. lia.
Qed.

Lemma last_before A x : StronglySorted before (A ++ [x]) → ∀ e, e ∈ A → e.2 < x.2.
Proof.
  intros Hs e He. by destruct (StronglySorted_app_1_elem_of _ _ _ e x Hs He ltac:(left)).
Qed.

(** Everything in [A] is below the lower neighbour or equal to it. *)
Lemma below_last A e lo : StronglySorted before A → e ∈ A → e.2 <= default lo (snd <$> last A).
Proof.
  destruct A as [| x A _] using rev_ind; intros Hs He; [by apply not_elem_of_nil in He |]. rewrite last_snoc. simpl.
  apply elem_of_app in He as [He | ->%list_elem_of_singleton]; [| lia]. pose proof (last_before _ _ Hs e He). lia.
Qed.

Lemma above_head B e hi : StronglySorted before B → e ∈ B → default hi (snd <$> head B) <= e.2.
Proof.
  destruct B as [| x B]; intros Hs He; [by apply not_elem_of_nil in He |]. simpl.
  apply StronglySorted_cons in Hs as [Hx _]. rewrite Forall_forall in Hx.
  apply elem_of_cons in He as [-> | He]; [lia |]. destruct (Hx e He). lia.
Qed.

Lemma emplace_ok key d c : dict_ok d → find key d = None → new_code key d = Ok c →
  dict_ok (emplace_key key c d) ∧ ∀ e, e ∈ emplace_key key c d ↔ e = (key, c) ∨ e ∈ d.
Proof.
  intros Hok Hf Hc. pose proof Hok as [Hs Hr H1].
  destruct (split_dict key d 0 Hs Hf) as (A & B & Hd & HA & HB & HN & HE).
  pose proof (new_code_between key d A B c Hok Hf Hd HN HA HB Hc) as Hb. rewrite HE. subst d.
  pose proof Hs as (HAB & HsA & HsB)%StronglySorted_app.
  assert (∀ e, e ∈ A ++ (key, c) :: B ↔ e = (key, c) ∨ e ∈ A ++ B) as Hin
    by (intros e; rewrite !elem_of_app, elem_of_cons; tauto).
  split; [| done]. split.
  - apply StronglySorted_app. split; [| split; [done |]].
    + intros a e Ha [-> | He]%elem_of_cons; [| by apply HAB]. split; [by apply HA |]. simpl.
      pose proof (below_last A a 0 HsA Ha). lia.
    + apply StronglySorted_cons. split; [| done]. apply Forall_forall. intros e He. split; [by apply HB |]. simpl.
      pose proof (above_head B e (INT_MAX - 1) HsB He). lia.
  - intros e [-> | He]%Hin; [| by apply Hr]. simpl.
    assert (0 <= default 0 (snd <$> last A)).
    { destruct (last A) as [a |] eqn:E; [| done]. apply last_Some_elem_of in E. simpl.
      specialize (Hr a ltac:(apply elem_of_app; by left)). lia. }
    assert (default (INT_MAX - 1) (snd <$> head B) <= INT_MAX - 1).
    { destruct B as [| e B]; simpl; [lia |]. specialize (Hr e ltac:(apply elem_of_app; right; left)). lia. }
    lia.
  - intros k k0 E. destruct A as [| a A]; simpl in E; [| by destruct A]. injection E as <- <- E. subst B.
    simpl in Hc. by injection Hc as <-.
Qed.

(** Writing a string never breaks the dictionary: if it returns, every string keeps the code
    it had, the code of the written string is appended to the output, and in the new
    dictionary two strings compare exactly as their codes do.  It fails only by an assertion,
    and only when the two neighbouring codes leave no room. *)
Theorem flushBinarystr_order_preserving (key : str) (d : dict) (out : str) :
  dict_ok d →
  match flushBinarystr key d out with
  | Ok (d', out') => dict_ok d' ∧ (∃ c, find key d' = Some c ∧ out' = flushBinaryi32 c out) ∧
      (∀ k c, find k d = Some c → find k d' = Some c) ∧
      (∀ k1 c1 k2 c2, find k1 d' = Some c1 → find k2 d' = Some c2 → str_ltb k1 k2 = (c1 <? c2))
  | Err e => e = AssertFailed ∧ find key d = None ∧
      let '(lo, hi) := neighbours key 0 d in hi - lo <= 1
  end.
Proof.
  intros Hok. assert (∀ d' k1 c1 k2 c2, dict_ok d' → find k1 d' = Some c1 → find k2 d' = Some c2 →
    str_ltb k1 k2 = (c1 <? c2)) as Hord.
  { intros d' k1 c1 k2 c2 [Hs _ _] E1%find_elem E2%find_elem; [| done..]. exact (dict_order d' _ _ Hs E1 E2). }
  unfold flushBinarystr. destruct (find key d) as [c |] eqn:Ef.
  { split; [done |]. split; [eauto |]. split; [done |]. eauto. }
  destruct (new_code key d) as [c | e] eqn:Ec; cbn [rbind].
  - destruct (emplace_ok key d c Hok Ef Ec) as [Hok' Hin]. split; [done |].
    pose proof Hok as [Hs _ _]. pose proof Hok' as [Hs' _ _]. split; [| split].
    + exists c. split; [| done]. apply find_elem; [done |]. apply Hin. by left.
    + intros k c' Hk%find_elem; [| done]. apply find_elem; [done |]. apply Hin. by right.
    + eauto.
  - pose proof Hok as [Hs Hr _]. destruct (split_dict key d 0 Hs Ef) as (A & B & Hd & _ & _ & HN & _).
    assert (0 <= default 0 (snd <$> last A)).
    { destruct (last A) as [a |] eqn:E; [| done]. apply last_Some_elem_of in E. simpl.
      specialize (Hr a ltac:(subst; apply elem_of_app; by left)). lia. }
    assert (0 <= default (INT_MAX - 1) (snd <$> head B)).
    { destruct B as [| f B]; simpl; [done |]. specialize (Hr f ltac:(subst; apply elem_of_app; right; left)). lia. }
    unfold new_code in Ec. destruct d as [| [k0 c0] [| e1 d]]; [done | done |]. rewrite HN in *.
    rewrite midpoint in Ec by done. set (lo := default 0 _) in *. set (hi := default (INT_MAX - 1) _) in *.
    pose proof (Z.div_mod (lo + hi) 2 ltac:(done)). pose proof (Z.mod_pos_bound (lo + hi) 2 ltac:(done)).
    destruct (Z.leb_spec lo hi); [| injection Ec as <-; split; [done |]; split; [done | lia]].
    destruct (Z.ltb_spec lo ((lo + hi) / 2)); [| injection Ec as <-; split; [done |]; split; [done | lia]].
    destruct (Z.ltb_spec ((lo + hi) / 2) hi); [done |]. injection Ec as <-. split; [done |]. split; [done | lia].
Qed.

(** ** The file *)

(** A string that can be a line of a text file and a C string. *)
Definition printable (k : str) : Prop := ∀ b, b ∈ k → b ≠ NL ∧ b ≠ NUL.

Definition line_of (e : str * Z) : str := e.1 ++ COLON :: print_int e.2.

Lemma print_int_digits c : 0 < c < INT_MAX → all_digits (print_int c) = true.
Proof.
  intros Hc. unfold print_int, INT_MAX in *. rewrite (proj2 (Z.ltb_ge _ _)) by lia.
  by destruct (digits_spec 10 c) as (? & _); [simpl; lia | |].
Qed.

Lemma digits_not ds x : all_digits ds = true → isdigit x = false → x ∉ ds.
Proof.
  intros Hd Hx Hin. unfold all_digits in Hd. rewrite forallb_forall in Hd.
  apply list_elem_of_In in Hin. rewrite (Hd x Hin) in Hx. done.
Qed.

Lemma line_not e x : 0 < e.2 < INT_MAX → isdigit x = false → x ≠ COLON → x ∉ e.1 → x ∉ line_of e.
Proof.
  intros He Hd Hc Hk [Hin | [-> | Hin]%elem_of_cons]%elem_of_app; [done | done |].
  by apply (digits_not (print_int e.2) x (print_int_digits _ He) Hd).
Qed.

Lemma getlines_line cur line rest : NL ∉ line →
  getlines cur (line ++ NL :: rest) = (reverse cur ++ line) :: getlines [] rest.
Proof.
  revert cur. induction line as [| c line IH]; intros cur Hn; simpl; [by rewrite app_nil_r |].
  apply not_elem_of_cons in Hn as [Hc Hn]. rewrite (proj2 (Z.eqb_neq c NL)) by congruence. rewrite IH by done.
  rewrite reverse_cons, <- app_assoc. done.
Qed.

Lemma flush_lines_ok prev d : StronglySorted before d → (∀ e, e ∈ d → 0 < e.2 < INT_MAX - 1) →
  (∀ e, e ∈ d → printable e.1) → (∀ e, e ∈ d → prev < e.2) →
  ∃ file, flush_lines prev d = Ok file ∧ getlines [] file = line_of <$> d.
Proof.
  revert prev. induction d as [| [k c] d IH]; intros prev Hs Hr Hp Hprev; [by exists [] |].
  apply StronglySorted_cons in Hs as [Hg Hs]. rewrite Forall_forall in Hg.
  destruct (IH c) as (file & E & Hl); [done | set_solver | set_solver | intros e He; by apply (Hg e He) |].
  pose proof (Hprev (k, c) ltac:(left)) as Hc. simpl in Hc |- *. rewrite (proj2 (Z.ltb_lt _ _) Hc), E. simpl.
  eexists. split; [done |].
  assert (k ++ COLON :: print_int c ++ NL :: file = line_of (k, c) ++ NL :: file) as -> by (unfold line_of; simpl; by rewrite <- app_assoc).
  rewrite getlines_line, Hl; [done |]. apply line_not; [specialize (Hr (k, c) ltac:(left)); simpl in *; lia | done | done |].
  intros Hin. by destruct (Hp (k, c) ltac:(left) NL Hin).
Qed.

Lemma find_last_of_app c a b : c ∉ b → find_last_of c (a ++ c :: b) = Some (length a).
Proof.
  intros Hb. induction a as [| x a IH]; simpl; [| by rewrite IH].
  assert (find_last_of c b = None) as ->; [| by rewrite Z.eqb_refl].
  induction b as [| y b IHb]; [done |]. apply not_elem_of_cons in Hb as [Hy Hb]. simpl. rewrite IHb by done.
  by rewrite (proj2 (Z.eqb_neq y c)) by congruence.
Qed.

Lemma load_line_ok m e : 0 < e.2 < INT_MAX - 1 → m !! e.2 = None →
  load_line m (line_of e) = Ok (<[e.2 := e.1]> m).
Proof.
  intros Hc Hm. destruct e as [k c]. simpl in *. unfold load_line, line_of. simpl.
  rewrite find_last_of_app by (apply digits_not; [apply print_int_digits; lia | done]). cbn [of_option rbind].
  rewrite (Nat.add_1_r (length k)), drop_app_ge by lia. replace (S (length k) - length k)%nat with 1%nat by lia.
  simpl drop. rewrite drop_0, take_ge by (rewrite length_app; simpl; lia).
  pose proof (stoi_print_int c [] ltac:(unfold INT_MAX in *; lia) I) as Hst. rewrite app_nil_r in Hst. rewrite Hst. cbn [rbind].
  rewrite Hm. by rewrite take_app_length.
Qed.

(** The loaded map holds exactly the entries. *)
Lemma load_lines_ok d m : StronglySorted before d → (∀ e, e ∈ d → 0 < e.2 < INT_MAX - 1) →
  (∀ e, e ∈ d → m !! e.2 = None) →
  ∃ m', rfoldM load_line m (line_of <$> d) = Ok m' ∧
    ∀ c k, m' !! c = Some k ↔ (k, c) ∈ d ∨ m !! c = Some k.
Proof.
  revert m. induction d as [| [k c] d IH]; intros m Hs Hr Hm; simpl.
  { exists m. split; [done |]. intros c k. split; [by right |]. by intros [?%not_elem_of_nil | ?]. }
  apply StronglySorted_cons in Hs as [Hg Hs]. rewrite Forall_forall in Hg.
  rewrite load_line_ok by (try apply (Hr (k, c)); try apply (Hm (k, c)); left). cbn [rbind].
  destruct (IH (<[c := k]> m)) as (m' & E & Hm'); [done | set_solver | |].
  { intros e He. rewrite lookup_insert_ne; [apply Hm; by right |]. destruct (Hg e He). simpl in *. lia. }
  exists m'. split; [done |]. intros c' k'. rewrite Hm', elem_of_cons, lookup_insert_Some.
  specialize (Hm (k, c) ltac:(left)). simpl in Hm. split.
  - intros [? | [[-> ->] | [? ?]]]; [by left; right | by left; left | by right].
  - intros [[[= -> ->] | ?] | ?]; [right; by left | by left | right; right]. split; [congruence | done].
Qed.

Lemma strncmp_prefix a b : NUL ∉ b → strncmp_eq (length b) a b = true ↔ b `prefix_of` a.
Proof.
  revert a. induction b as [| y b IH]; intros a Hn; simpl; [split; [intros _; apply prefix_nil | done] |].
  apply not_elem_of_cons in Hn as [Hy Hn]. rewrite andb_true_iff, Z.eqb_eq. destruct a as [| x a]; simpl.
  - split; [intros [E _]; congruence | by intros ?%prefix_nil_not].
  - split.
    + intros [-> H]. rewrite (proj2 (Z.eqb_neq y NUL)) in H by congruence. apply prefix_cons. by apply IH.
    + intros H. pose proof (prefix_cons_inv_1 _ _ _ _ H) as ->.
      split; [done |]. rewrite (proj2 (Z.eqb_neq x NUL)) by congruence. apply IH; [done |]. by eapply prefix_cons_inv_2.
Qed.

(** The line of a smaller string does not start with a greater string and a colon. *)
Lemma smaller_no_prefix k s ds : COLON ∉ ds → str_ltb k s = true →
  ¬ s ++ [COLON] `prefix_of` k ++ COLON :: ds.
Proof.
  intros Hds. revert s. induction k as [| x k IH]; intros [| y s] Hlt Hp; simpl in *; try done.
  - pose proof (prefix_cons_inv_1 _ _ _ _ Hp) as ->. apply prefix_cons_inv_2 in Hp as [r Hr]. apply Hds.
    rewrite Hr. set_solver.
  - pose proof (prefix_cons_inv_1 _ _ _ _ Hp) as ->. rewrite Z.ltb_irrefl, Z.eqb_refl in Hlt. simpl in Hlt.
    apply prefix_cons_inv_2 in Hp. by apply (IH s).
Qed.

Lemma c_str_id s : NUL ∉ s → c_str s = s.
Proof.
  intros Hn. unfold c_str. apply take_ge. induction s as [| c s IH]; [done |].
  apply not_elem_of_cons in Hn as [Hc Hn]. simpl. rewrite (proj2 (Z.eqb_neq c NUL)) by congruence. simpl. specialize (IH Hn). lia.
Qed.

Lemma lookup_lines_ok d k c : StronglySorted before d → (∀ e, e ∈ d → 0 < e.2 < INT_MAX - 1) →
  printable k → (k, c) ∈ d → lookup_lines k (line_of <$> d) = Ok c.
Proof.
  intros Hs Hr Hp Hin. assert (NUL ∉ k ++ [COLON]) as Hnul.
  { intros [H | H%list_elem_of_singleton]%elem_of_app; [| discriminate H]. by destruct (Hp NUL H). }
  induction d as [| [k' c'] d IH]; [by apply not_elem_of_nil in Hin |]. rewrite fmap_cons. cbn [lookup_lines].
  apply StronglySorted_cons in Hs as [Hg Hs]. rewrite Forall_forall in Hg.
  specialize (Hr (k', c') ltac:(left)) as Hc'. simpl in Hc'.
  assert (all_digits (print_int c') = true) as Hdig by (apply print_int_digits; lia).
  destruct (strncmp_eq _ _ _) eqn:Ep.
  - apply strncmp_prefix in Ep; [| done]. apply elem_of_cons in Hin as [[= <- <-] | Hin].
    2: { exfalso. destruct (Hg _ Hin) as [Hlt _]. revert Ep. by apply smaller_no_prefix; [apply digits_not |]. }
    unfold line_of. simpl fst. simpl snd.
    assert (drop (length (k ++ [COLON])) (k ++ COLON :: print_int c) = print_int c) as ->.
    { change (COLON :: print_int c) with ([COLON] ++ print_int c). rewrite (app_assoc k). apply drop_app_length. }
    rewrite c_str_id by (by apply digits_not).
    pose proof (stoi_print_int c [] ltac:(unfold INT_MAX in *; lia) I) as Hst. rewrite app_nil_r in Hst. rewrite Hst.
    rewrite !length_app. simpl. by rewrite (proj2 (Nat.eqb_eq _ _)) by lia.
  - apply elem_of_cons in Hin as [[= <- <-] | Hin]; [| apply IH; [done | set_solver | done]].
    exfalso. assert (strncmp_eq (length (k ++ [COLON])) (line_of (k, c)) (k ++ [COLON]) = true); [| congruence].
    apply strncmp_prefix; [done |]. unfold line_of. simpl. exists (print_int c). by rewrite <- app_assoc.
Qed.

(** A dictionary survives its file: writing a well-formed dictionary of strings without
    newlines and null bytes succeeds, loading the file gives back exactly its entries as a
    map from codes to strings, and searching the file for any of its strings returns the
    string's code. *)
Theorem dictionary_file_roundtrip (d : dict) :
  dict_ok d → (∀ e, e ∈ d → printable e.1) →
  ∃ file m, flushDictIfExists d = Ok file ∧ getDictionaryOf file = Ok m ∧
    (∀ c k, m !! c = Some k ↔ find k d = Some c) ∧
    (∀ k c, find k d = Some c → lookupInDictionary k file = Ok c).
Proof.
  intros [Hs Hr _] Hp. destruct (flush_lines_ok INT_MIN d Hs Hr Hp) as (file & E & Hl).
  { intros e He. specialize (Hr e He). unfold INT_MIN. lia. }
  destruct (load_lines_ok d ∅ Hs Hr) as (m & Em & Hm); [intros; apply lookup_empty |].
  exists file, m. split; [done |]. unfold getDictionaryOf, lookupInDictionary. rewrite Hl. split; [done |]. split.
  - intros c k. rewrite Hm, (find_elem d k c Hs), lookup_empty. naive_solver.
  - intros k c Hk%find_elem; [| done]. apply lookup_lines_ok; [done | done | by apply (Hp (k, c)) | done].
Qed.

(** ** Limits *)

(** Writing [n] strings in ascending order. *)
Fixpoint write_ascending (n : nat) (b : Z) (d : dict) : res dict :=
  match n with
  | O => Ok d
  | S n => do (d', _) <- flushBinarystr [b] d []; write_ascending n (b + 1) d'
  end.

(** Each string in ascending order halves the room above it: the 33rd finds none. *)
Lemma ascending_codes_run_out :
  is_ok (write_ascending 32 1 []) = true ∧ write_ascending 33 1 [] = Err AssertFailed.
Proof. vm_compute. done. Qed.

(** Searching for a string that is not there throws when a string that extends it by a colon is
    there. *)
Lemma lookup_absent_throws : flushDictIfExists [([97; COLON; 53], 7)] = Ok [97; COLON; 53; COLON; 55; NL] ∧
  lookupInDictionary [97] [97; COLON; 53; COLON; 55; NL] = Err Throw.
Proof. vm_compute. done. Qed.

(** "a", "b:" and "c", as three writes leave them. *)
Definition ex_dict : dict := [([97], 536870911); ([98; COLON], 805306367); ([99], 1073741823)].

Lemma ex_dict_ok : dict_ok ex_dict.
Proof.
  split; [repeat constructor | | done]. intros e He. unfold ex_dict, INT_MAX in *.
  repeat (apply elem_of_cons in He as [-> | He]; [simpl; lia |]). by apply not_elem_of_nil in He.
Qed.

Lemma flushBinarystr_order_preserving_witness : ∃ d' out', flushBinarystr [98] ex_dict [] = Ok (d', out') ∧
  dict_ok d' ∧ find [98] d' = Some 671088639.
Proof.
  pose proof (flushBinarystr_order_preserving [98] ex_dict [] ex_dict_ok) as H.
  destruct (flushBinarystr [98] ex_dict []) as [[d' out'] | e] eqn:E; [| vm_compute in E; discriminate E].
  exists d', out'. split; [done |]. destruct H as [H _]. split; [done |]. vm_compute in E. by injection E as <- <-.
Defined.

Lemma dictionary_file_roundtrip_witness :
  ∃ file m, flushDictIfExists ex_dict = Ok file ∧ getDictionaryOf file = Ok m ∧
    (∀ c k, m !! c = Some k ↔ find k ex_dict = Some c) ∧
    (∀ k c, find k ex_dict = Some c → lookupInDictionary k file = Ok c).
Proof.
  apply (dictionary_file_roundtrip ex_dict ex_dict_ok). intros e He. unfold printable, ex_dict in *.
  repeat (apply elem_of_cons in He as [-> | He];
    [intros b Hb; repeat (apply elem_of_cons in Hb as [-> | Hb]; [done |]); by apply not_elem_of_nil in Hb |]).
  by apply not_elem_of_nil in He.
Defined.

End Dictionary.
