(* ===== verification/LazyColumn.v ===== *)
(** * LazyColumn: the copy-on-snapshot column
    ([LazyColumn] and [LazySecondary] in [oltp/storage/layout/column_store.hpp] and
    [lib/storage/layout/column-store/lazy-column.cpp]).

    A snapshot freezes what is there and opens a new, empty layer per partition; updates
    after it go to the layer, through an index from rows to slots, and reads look through the
    layers from the newest to the primary data.  The index is a [libcuckoo] map: the class
    [CuckooMap] states what the column relies on.  The interval maps the constructor fills are
    only read by code behind a return, and are left out. *)

From S2P Require Import Prelude Bytes Common StorageUtils AtomicBitSet Column.
From Stdlib Require Import ZArith Lia Bool.
From stdpp Require Import base numbers list gmap.

Local Open Scope Z_scope.
Local Open Scope res_scope.

(** A concurrent hash map from rows to slots: [insert] of an absent key adds it. *)
Class CuckooMap (M : Type) : Type := {
  cm_new : M;
  cm_find : M → Z → option Z;
  cm_insert : M → Z → Z → M;
  cm_find_new : ∀ k, cm_find cm_new k = None;
  cm_find_insert : ∀ m k v j, cm_find m k = None →
    cm_find (cm_insert m k v) j = if j =? k then Some v else cm_find m j
}.

#[export] Program Instance gmap_cuckoo : CuckooMap (gmap Z Z) := {|
  cm_new := ∅; cm_find := λ m k, m !! k;
  cm_insert := λ m k v, match m !! k with Some _ => m | None => <[k := v]> m end
|}.
Next Obligation. intros k. apply lookup_empty. Qed.
Next Obligation.
  intros m k v j Hk. simpl. rewrite Hk. destruct (Z.eqb_spec j k) as [-> | Hne]; [apply lookup_insert_eq |].
  by rewrite lookup_insert_ne.
Qed.

Module LazyColumn.

Definition BIT_PACK_SIZE : Z := 8192.

Section column.
Context {M : Type} `{CuckooMap M}.

Record LazySecondary : Type := mk_sec {
  touched : bool;
  capacity : Z;
  initial_capacity : Z;
  secondary_vid : Z;
  sec_idx : M;
  data : list chunk;
  dirty_upd_mask : list AtomicBitSet.t;
  dirty_delete_mask : list AtomicBitSet.t
}.

(** [sz / BIT_PACK_SIZE + sz % BIT_PACK_SIZE] *)
Definition num_bit_packs (sz : Z) : nat := Z.to_nat (u64 (sz / BIT_PACK_SIZE + sz mod BIT_PACK_SIZE)).

Definition fresh_packs (n : nat) : list AtomicBitSet.t := replicate n (AtomicBitSet.new BIT_PACK_SIZE).

(** The memory is not initialised; it is zero here. *)
Definition LazySecondary_new (cap unit : Z) : LazySecondary :=
  let sz := u64 (cap * unit) in
  mk_sec false cap cap 0 cm_new [replicate (Z.to_nat sz) 0]
    (fresh_packs (num_bit_packs sz)) (fresh_packs (num_bit_packs sz)).

(** [increaseCapacity(2)]: a chunk of [capacity * 2] bytes, rounded, is added.  The loop that
    follows the new packs resets by index from 0, which are the old ones. *)
Definition reset_first (n : nat) (masks : list AtomicBitSet.t) : list AtomicBitSet.t :=
  (AtomicBitSet.reset_all <$> take n masks) ++ drop n masks.

Definition increaseCapacity (unit : Z) (s : LazySecondary) : LazySecondary :=
  let inc := u64 (capacity s * 2) in
  let incSize := u64 (inc + inc mod unit) in
  let n := num_bit_packs incSize in
  mk_sec (touched s) (u64 (capacity s + initial_capacity s)) (initial_capacity s) (secondary_vid s) (sec_idx s)
    (data s ++ [replicate (Z.to_nat incSize) 0])
    (reset_first n (dirty_upd_mask s ++ fresh_packs n))
    (reset_first n (dirty_delete_mask s ++ fresh_packs n)).

Record LazyColumn : Type := mk {
  base : Column.Column;
  col_touched : list bool;
  active_snapshot_idx : Z;                         (* uint8_t *)
  col_dirty : list (list AtomicBitSet.t);
  col_deleted : list (list AtomicBitSet.t);
  secondary : list (list LazySecondary)
}.

Definition LazyColumn_new (id : column_id_t) (ty : Column.data_type) (unit off g : Z) (np : bool)
    (reserved_capacity : Z) : LazyColumn :=
  let b := Column.Column_new id ty unit off g np reserved_capacity LazyMaster in
  let packs := fresh_packs (num_bit_packs (Column.capacity_per_partition b)) in
  let parts := (λ j, if Z.of_nat j <? Column.n_partitions b then packs else []) <$> seq 0 (Z.to_nat MAX_PARTITIONS) in
  mk b (replicate (Z.to_nat MAX_PARTITIONS) false) 0 parts parts (replicate (Z.to_nat MAX_PARTITIONS) []).

Definition getElemByOffset (chunks : list chunk) (unit offset : Z) : res bytes :=
  Column.get_loop unit (u64 (offset * unit)) chunks.

(** The loop from layer [i] down to the primary data, which is read through the pointer of the
    meta-column's [getElem]: on a column of another type that ends the process. *)
Fixpoint get_from (c : LazyColumn) (i : nat) (vid : rowid_t) : res bytes :=
  match i with
  | O => Column.getElemRef (base c) vid
  | S i' =>
      do secs <- of_option Undefined (secondary c !! Z.to_nat (StorageUtils.get_pid vid));
      do sec <- of_option Undefined (secs !! i');
      match cm_find (sec_idx sec) vid with
      | Some internal_vid => getElemByOffset (data sec) (Column.unit_size (base c)) internal_vid
      | None => get_from c i' vid
      end
  end.

Definition getElem (c : LazyColumn) (vid : rowid_t) : res bytes :=
  get_from c (Z.to_nat (active_snapshot_idx c)) vid.

Definition set_bit (masks : list AtomicBitSet.t) (i : Z) : res (list AtomicBitSet.t) :=
  do mask <- of_option Undefined (masks !! Z.to_nat (i / BIT_PACK_SIZE));
  do (_, mask') <- AtomicBitSet.set BIT_PACK_SIZE mask (i mod BIT_PACK_SIZE);
  Ok (<[Z.to_nat (i / BIT_PACK_SIZE) := mask']> masks).

(** The slot of a row in a layer, new for a row the layer does not hold. *)
Definition sec_slot (s : LazySecondary) (vid : rowid_t) : res (Z * LazySecondary) :=
  match cm_find (sec_idx s) vid with
  | Some internal_vid => Ok (internal_vid, s)
  | None =>
      let internal_vid := secondary_vid s in
      do masks <- set_bit (dirty_upd_mask s) internal_vid;
      Ok (internal_vid,
          mk_sec true (capacity s) (initial_capacity s) (u64 (internal_vid + 1))
            (cm_insert (sec_idx s) vid internal_vid) (data s) masks (dirty_delete_mask s))
  end.

Definition with_sec_data (s : LazySecondary) (d : list chunk) : LazySecondary :=
  mk_sec (touched s) (capacity s) (initial_capacity s) (secondary_vid s) (sec_idx s) d
    (dirty_upd_mask s) (dirty_delete_mask s).

(** Writing a slot of a layer, growing it once if it is full. *)
Definition sec_write (s : LazySecondary) (unit internal_vid : Z) (elem : option bytes) : res LazySecondary :=
  do (ok, d) <- Column.UpdateInPlace (data s) internal_vid unit elem;
  if (ok : bool) then Ok (with_sec_data s d)
  else
    let s := increaseCapacity unit (with_sec_data s d) in
    do (ok, d) <- Column.UpdateInPlace (data s) internal_vid unit elem;
    check (ok : bool) else AssertFailed;
    Ok (with_sec_data s d).

Definition updateElem (c : LazyColumn) (vid : rowid_t) (elem : option bytes) : res LazyColumn :=
  let pid := StorageUtils.get_pid vid in
  let offset := StorageUtils.get_offset vid in
  let unit := Column.unit_size (base c) in
  let snapIdx := active_snapshot_idx c in
  if snapIdx =? 0 then
    do chunks <- Column.chunks_at (Column.primaryData (base c)) pid;
    do (ok, chunks') <- Column.UpdateInPlace chunks offset unit elem;
    check (ok : bool) else AssertFailed;
    do masks <- of_option Undefined (col_dirty c !! Z.to_nat pid);
    do masks' <- set_bit masks offset;
    Ok (mk (Column.with_data (base c) (<[Z.to_nat pid := chunks']> (Column.primaryData (base c))))
           (<[Z.to_nat pid := true]> (col_touched c)) snapIdx
           (<[Z.to_nat pid := masks']> (col_dirty c)) (col_deleted c) (secondary c))
  else
    do secs <- of_option Undefined (secondary c !! Z.to_nat pid);
    check snapIdx - 1 <? Z.of_nat (length secs) else AssertFailed;
    do sec <- of_option Undefined (secs !! Z.to_nat (snapIdx - 1));
    do (internal_vid, sec1) <- sec_slot sec vid;
    do sec2 <- sec_write sec1 unit internal_vid elem;
    Ok (mk (base c) (col_touched c) snapIdx (col_dirty c) (col_deleted c)
           (<[Z.to_nat pid := <[Z.to_nat (snapIdx - 1) := sec2]> secs]> (secondary c))).

(** A new layer in every partition. *)
Definition snapshot (c : LazyColumn) : LazyColumn :=
  let b := base c in
  mk b (col_touched c) (u8 (active_snapshot_idx c + 1)) (col_dirty c) (col_deleted c)
     (imap (λ i secs, if Z.of_nat i <? Column.n_partitions b
                      then secs ++ [LazySecondary_new (Column.capacity b / 10) (Column.unit_size b)] else secs)
        (secondary c)).

(** ** A list of chunks as one array of slots *)

Lemma read_app_l (a b : bytes) o n : o + n <= zlen a → read_bytes (a ++ b) o n = read_bytes a o n.
Proof.
  intros Hn. unfold read_bytes. rewrite zlen_app. unfold zlen in *.
  destruct (0 <=? o) eqn:E1, (0 <=? n) eqn:E2; try done. apply Z.leb_le in E1, E2.
  rewrite !(proj2 (Z.leb_le (o + n) _)) by lia. simpl. f_equal.
  rewrite drop_app_le, take_app_le by (rewrite ?length_drop; lia). done.
Qed.

Lemma read_app_r (a b : bytes) o n : zlen a <= o → read_bytes (a ++ b) o n = read_bytes b (o - zlen a) n.
Proof.
  intros Ho. unfold read_bytes. rewrite zlen_app. unfold zlen in *.
  rewrite (proj2 (Z.leb_le 0 o)), (proj2 (Z.leb_le 0 (o - Z.of_nat (length a)))) by lia. cbn [andb].
  destruct (0 <=? n); [| done]. cbn [andb].
  replace (o + n <=? Z.of_nat (length a) + Z.of_nat (length b)) with (o - Z.of_nat (length a) + n <=? Z.of_nat (length b))
    by (apply eq_true_iff_eq; rewrite !Z.leb_le; unfold zlen; lia).
  destruct (_ <=? _); [| done]. f_equal. rewrite drop_app_ge by lia. do 2 f_equal. lia.
Qed.

Lemma write_app_l (a a' b d : bytes) o : write_bytes a o d = Ok a' → write_bytes (a ++ b) o d = Ok (a' ++ b).
Proof.
  intros (Ho & Hl & _ & ->)%write_bytes_inv. unfold write_bytes. rewrite zlen_app.
  rewrite (proj2 (Z.leb_le _ _) Ho), (proj2 (Z.leb_le _ _)) by (unfold zlen in *; lia). simpl. f_equal. unfold zlen in *.
  rewrite take_app_le, drop_app_le by lia. by rewrite <- !app_assoc.
Qed.

Lemma write_app_r (a b b' d : bytes) o : zlen a <= o → write_bytes b (o - zlen a) d = Ok b' →
  write_bytes (a ++ b) o d = Ok (a ++ b').
Proof.
  intros Ha (Ho & Hl & _ & ->)%write_bytes_inv. unfold write_bytes. rewrite zlen_app. unfold zlen in *.
  rewrite (proj2 (Z.leb_le _ _)), (proj2 (Z.leb_le _ _)) by lia. simpl. f_equal.
  rewrite take_app_ge, drop_app_ge, <- !app_assoc by lia. f_equal. f_equal; [f_equal; lia |]. f_equal. f_equal. lia.
Qed.

(** All chunks hold whole slots. *)
Abbreviation whole unit chunks := (Forall (λ c : chunk, (unit | zlen c)) chunks).

(** A multiple of [u] that does not leave room for [u] below another multiple is not below it. *)
Lemma no_room u o n : 0 < u → (u | o) → (u | n) → n < o + u → n <= o.
Proof.
  intros Hu [a ->] [b ->] Hlt. assert (b < a + 1) by (apply (Z.mul_lt_mono_pos_r u); lia). nia.
Qed.

Lemma get_loop_flat unit chunks o : 0 < unit → whole unit chunks → 0 <= o → (unit | o) →
  o + unit <= zlen (concat chunks) → zlen (concat chunks) < 2 ^ 63 →
  Column.get_loop unit o chunks = read_bytes (concat chunks) o unit.
Proof.
  intros Hu Hw. revert o. induction Hw as [| c cs Hc _ IH]; intros o Ho Hd Hfit Hlt; simpl in *.
  { unfold zlen in Hfit. simpl in Hfit. lia. }
  rewrite zlen_app in Hfit, Hlt. assert (0 <= zlen c ∧ 0 <= zlen (concat cs)) as [? ?] by (unfold zlen; lia).
  rewrite wrap_id by lia. destruct (Z.leb_spec (o + unit) (zlen c)) as [Hle | Hgt].
  - by rewrite read_app_l.
  - pose proof (no_room unit o (zlen c) Hu Hd Hc Hgt). rewrite wrap_id by lia.
    rewrite read_app_r by done. apply IH; [lia | by apply Z.divide_sub_r | lia | lia].
Qed.

Lemma update_loop_flat unit chunks o d : 0 < unit → whole unit chunks → 0 <= o → (unit | o) → zlen d = unit →
  o + unit <= zlen (concat chunks) → zlen (concat chunks) < 2 ^ 63 →
  ∃ chunks', Column.update_loop unit o (Some d) chunks = Ok (true, chunks') ∧
    write_bytes (concat chunks) o d = Ok (concat chunks') ∧ whole unit chunks' ∧
    zlen (concat chunks') = zlen (concat chunks).
Proof.
  intros Hu Hw. revert o. induction Hw as [| c cs Hc Hcs IH]; intros o Ho Hdv Hd Hfit Hlt; simpl in *.
  { unfold zlen in Hfit. simpl in Hfit. lia. }
  rewrite zlen_app in Hfit, Hlt. assert (0 <= zlen c ∧ 0 <= zlen (concat cs)) as [? ?] by (unfold zlen; lia).
  rewrite wrap_id by lia. destruct (Z.leb_spec (o + unit) (zlen c)) as [Hle | Hgt].
  - rewrite (source_self d unit Hd). cbn [rbind].
    destruct (write_bytes_Ok c o d) as (c' & Hw & Hl); [lia | lia |]. rewrite Hw. cbn [rbind].
    exists (c' :: cs). split; [done |]. simpl. split; [by apply write_app_l |].
    split; [constructor; [by rewrite Hl | done] |]. rewrite !zlen_app. lia.
  - pose proof (no_room unit o (zlen c) Hu Hdv Hc Hgt). rewrite wrap_id by lia.
    destruct (IH (o - zlen c)) as (cs' & E & Hwr & Hwh & Hl); [lia | by apply Z.divide_sub_r | done | lia | lia |].
    rewrite E. cbn [rbind]. exists (c :: cs'). split; [done |]. simpl. split; [by apply write_app_r |].
    split; [by constructor |]. rewrite !zlen_app. lia.
Qed.

Lemma update_loop_full unit chunks o d : 0 < unit → whole unit chunks → (unit | o) → 0 <= o < 2 ^ 63 →
  unit < 2 ^ 63 → zlen (concat chunks) < o + unit →
  Column.update_loop unit o (Some d) chunks = Ok (false, chunks).
Proof.
  intros Hu Hw. revert o. induction Hw as [| c cs Hc Hcs IH]; intros o Hdv Ho Hu' Hfull; simpl in *; [done |].
  rewrite zlen_app in Hfull. assert (0 <= zlen c ∧ 0 <= zlen (concat cs)) as [? ?] by (unfold zlen; lia).
  rewrite wrap_id by lia. rewrite (proj2 (Z.leb_gt _ _)) by lia.
  pose proof (no_room unit o (zlen c) Hu Hdv Hc ltac:(lia)). rewrite wrap_id by lia.
  rewrite IH; [done | by apply Z.divide_sub_r | lia | done | lia].
Qed.

(** ** A layer as a map from rows to elements *)

Definition idx_ok (s : LazySecondary) : Prop :=
  0 <= secondary_vid s ∧
  (∀ v i, cm_find (sec_idx s) v = Some i → 0 <= i < secondary_vid s) ∧
  (∀ u v i, cm_find (sec_idx s) u = Some i → cm_find (sec_idx s) v = Some i → u = v).

Definition masks_ok (n : Z) (masks : list AtomicBitSet.t) : Prop :=
  Forall (AtomicBitSet.wf BIT_PACK_SIZE) masks ∧ n <= Z.of_nat (length masks) * BIT_PACK_SIZE.

Definition mem_ok (unit : Z) (s : LazySecondary) : Prop :=
  let n := zlen (concat (data s)) in
  whole unit (data s) ∧ 0 < n < 2 ^ 62 ∧ 0 < initial_capacity s <= capacity s ∧
  (unit | 2 * capacity s) ∧ (unit | 2 * initial_capacity s) ∧
  masks_ok n (dirty_upd_mask s) ∧ masks_ok n (dirty_delete_mask s).

Definition wf_sec (unit : Z) (s : LazySecondary) : Prop :=
  idx_ok s ∧ mem_ok unit s ∧ secondary_vid s * unit <= zlen (concat (data s)).

(** Growing once stays within the machine's sizes. *)
Definition room (s : LazySecondary) : bool := zlen (concat (data s)) + 2 * capacity s <? 2 ^ 62.

Definition layer_get (unit : Z) (s : LazySecondary) (v : rowid_t) : option (res bytes) :=
  getElemByOffset (data s) unit <$> cm_find (sec_idx s) v.

Lemma num_bit_packs_enough n : 0 <= n < 2 ^ 62 → n <= Z.of_nat (num_bit_packs n) * BIT_PACK_SIZE.
Proof.
  intros Hn. unfold num_bit_packs, BIT_PACK_SIZE. pose proof (Z.div_mod n 8192 ltac:(lia)).
  pose proof (Z.mod_pos_bound n 8192 ltac:(lia)). assert (0 <= n / 8192) by (apply Z.div_pos; lia).
  rewrite wrap_id, Z2Nat.id by lia. lia.
Qed.

Lemma fresh_packs_ok n k : n <= Z.of_nat k * BIT_PACK_SIZE → masks_ok n (fresh_packs k).
Proof.
  intros Hn. split; [| unfold fresh_packs; by rewrite length_replicate].
  apply Forall_replicate, AtomicBitSet.bitset_new_wf; done.
Qed.

Lemma set_bit_ok masks n i : masks_ok n masks → 0 <= i → i < Z.of_nat (length masks) * BIT_PACK_SIZE →
  ∃ masks', set_bit masks i = Ok masks' ∧ masks_ok n masks'.
Proof.
  intros [Hm Hn] Hi Hlt. unfold set_bit, BIT_PACK_SIZE in *.
  assert (0 <= i / 8192) by (apply Z.div_pos; lia). pose proof (Z.div_lt_upper_bound i 8192 (Z.of_nat (length masks)) ltac:(lia) ltac:(lia)).
  pose proof (Z.mod_pos_bound i 8192 ltac:(lia)).
  destruct (lookup_lt_is_Some_2 masks (Z.to_nat (i / 8192))) as [m Em]; [lia |]. rewrite Em. cbn [of_option rbind].
  assert (AtomicBitSet.wf 8192 m) as Hw by exact (Forall_lookup_1 _ _ _ _ Hm Em).
  destruct (AtomicBitSet.set_spec 8192 m Hw (i mod 8192)) as (m' & E & Hw' & _); [lia |]. rewrite E. cbn [rbind].
  eexists. split; [done |]. split; [by apply Forall_insert |]. rewrite length_insert. done.
Qed.

Lemma grown_masks_ok n k inc masks : masks_ok n masks → inc <= Z.of_nat k * BIT_PACK_SIZE →
  masks_ok (n + inc) (reset_first k (masks ++ fresh_packs k)).
Proof.
  intros [Hm Hn] Hk. destruct (fresh_packs_ok inc k Hk) as [Hf _]. split.
  - pose proof (Forall_app_2 _ _ _ Hm Hf) as Ha. unfold reset_first. apply Forall_app; split; [| by apply Forall_drop].
    apply Forall_fmap. eapply Forall_impl; [by apply Forall_take |]. intros b Hb.
    by apply (AtomicBitSet.reset_all_bits BIT_PACK_SIZE).
  - unfold reset_first, fresh_packs in *. rewrite length_app, length_fmap, <- length_app, take_drop, length_app, length_replicate. lia.
Qed.

(** A row gets a slot: its own, or the next one, which no other row has. *)
Lemma sec_slot_ok unit s v : 2 <= unit → wf_sec unit s →
  ∃ i s', sec_slot s v = Ok (i, s') ∧ idx_ok s' ∧ mem_ok unit s' ∧ data s' = data s ∧ capacity s' = capacity s ∧
    cm_find (sec_idx s') v = Some i ∧ (∀ u, u ≠ v → cm_find (sec_idx s') u = cm_find (sec_idx s) u) ∧
    0 <= i ∧ i * unit <= zlen (concat (data s)) ∧
    secondary_vid s' * unit <= zlen (concat (data s)) `max` ((i + 1) * unit).
Proof.
  intros Hu ((H0 & Hb & Hinj) & Hmem & Hle). unfold sec_slot. destruct (cm_find (sec_idx s) v) as [i |] eqn:Ev.
  - exists i, s. specialize (Hb v i Ev) as Hi. repeat (split; [done |]). split; [lia |]. split; [nia | lia].
  - pose proof Hmem as (Hw & Hn & Hc & Hd1 & Hd2 & Hm1 & Hm2).
    destruct (set_bit_ok (dirty_upd_mask s) _ (secondary_vid s) Hm1 H0) as (ms & E & Hms).
    { destruct Hm1 as [_ Hm1]. unfold BIT_PACK_SIZE in *. nia. }
    rewrite E. cbn [rbind]. eexists _, _. split; [done |].
    assert (secondary_vid s < 2 ^ 62) by nia. rewrite wrap_id by lia.
    pose proof (λ j, cm_find_insert (sec_idx s) v (secondary_vid s) j Ev) as Hf.
    split; [| split; [| cbn [data capacity sec_idx secondary_vid]; repeat (split; [done |])]].
    + split; [simpl; lia |]. cbn [sec_idx secondary_vid]. split.
      * intros u i. rewrite Hf. destruct (Z.eqb_spec u v); [intros [= <-]; lia |]. intros Hi%Hb. lia.
      * intros u w i. rewrite !Hf. destruct (Z.eqb_spec u v) as [-> |], (Z.eqb_spec w v) as [-> |]; try done.
        -- intros [= <-] Hw2%Hb. lia.
        -- intros Hw2%Hb [= <-]. lia.
        -- apply Hinj.
    + done.
    + split; [by rewrite Hf, Z.eqb_refl |]. split; [intros u Hne; rewrite Hf; by rewrite (proj2 (Z.eqb_neq _ _) Hne) |].
      split; [done |]. split; [done |]. lia.
Qed.

Lemma increaseCapacity_ok unit s : 0 < unit → mem_ok unit s → room s = true →
  let s' := increaseCapacity unit s in
  mem_ok unit s' ∧ sec_idx s' = sec_idx s ∧ secondary_vid s' = secondary_vid s ∧
  data s' = data s ++ [replicate (Z.to_nat (2 * capacity s)) 0] ∧
  zlen (concat (data s')) = zlen (concat (data s)) + 2 * capacity s ∧ unit <= 2 * capacity s.
Proof.
  intros Hu (Hw & Hn & Hc & Hd1 & Hd2 & Hm1 & Hm2) Hr%Z.ltb_lt s'. unfold s', increaseCapacity.
  rewrite (Z.mul_comm (capacity s) 2). rewrite (wrap_id 64 (2 * capacity s)) by lia.
  rewrite (proj2 (Z.mod_divide _ unit ltac:(lia)) Hd1), Z.add_0_r. rewrite (wrap_id 64 (2 * capacity s)) by lia.
  pose proof (num_bit_packs_enough (2 * capacity s) ltac:(lia)) as Hk.
  assert (zlen (replicate (Z.to_nat (2 * capacity s)) 0) = 2 * capacity s) as Hz
    by (unfold zlen; rewrite length_replicate; lia).
  assert (zlen (concat (data s ++ [replicate (Z.to_nat (2 * capacity s)) 0])) = zlen (concat (data s)) + 2 * capacity s) as Hl.
  { rewrite concat_app, zlen_app. simpl. rewrite app_nil_r. lia. }
  split; [| repeat (split; [done |]); apply Z.divide_pos_le; [lia | done]].
  unfold mem_ok. cbn [data capacity initial_capacity dirty_upd_mask dirty_delete_mask].
  rewrite (wrap_id 64 (capacity s + _)) by lia. rewrite Hl.
  split; [apply Forall_app; split; [done | apply Forall_singleton; by rewrite Hz] |].
  split; [lia |]. split; [lia |]. split; [rewrite Z.mul_add_distr_l; by apply Z.divide_add_r |]. split; [done |].
  split; by apply grown_masks_ok.
Qed.

(** Reading slot [j] of the chunks. *)
Lemma getElemByOffset_flat unit chunks j : 0 < unit → whole unit chunks → 0 <= j →
  (j + 1) * unit <= zlen (concat chunks) → zlen (concat chunks) < 2 ^ 62 →
  getElemByOffset chunks unit j = read_bytes (concat chunks) (j * unit) unit.
Proof.
  intros Hu Hw Hj Hfit Hlt. unfold getElemByOffset. rewrite wrap_id by nia.
  apply get_loop_flat; try done; [nia | by apply Z.divide_factor_r | lia | lia].
Qed.

(** A write into a slot that fits. *)
Lemma write_fits unit chunks i d : 0 < unit → whole unit chunks → 0 <= i → zlen d = unit →
  (i + 1) * unit <= zlen (concat chunks) → zlen (concat chunks) < 2 ^ 62 →
  ∃ chunks', Column.UpdateInPlace chunks i unit (Some d) = Ok (true, chunks') ∧
    whole unit chunks' ∧ zlen (concat chunks') = zlen (concat chunks) ∧
    ∀ j, 0 <= j → (j + 1) * unit <= zlen (concat chunks) →
      getElemByOffset chunks' unit j = if j =? i then Ok d else getElemByOffset chunks unit j.
Proof.
  intros Hu Hw Hi Hd Hfit Hlt. unfold Column.UpdateInPlace. rewrite wrap_id by nia.
  destruct (update_loop_flat unit chunks (i * unit) d) as (cs & E & Hwr & Hw' & Hl); try done;
    [nia | by apply Z.divide_factor_r | lia | lia |].
  exists cs. split; [done |]. split; [done |]. split; [done |]. intros j Hj Hjf.
  rewrite !getElemByOffset_flat by (try done; lia). destruct (Z.eqb_spec j i) as [-> | Hne].
  - rewrite <- Hd. rewrite <- Hd in Hwr. by apply (read_write_same (concat chunks)).
  - eapply read_write_other; [done | nia |]. rewrite Hd. by apply slots_disjoint.
Qed.

Lemma with_data_mem_ok unit s d : mem_ok unit s → whole unit d → zlen (concat d) = zlen (concat (data s)) →
  mem_ok unit (with_sec_data s d).
Proof.
  intros (_ & Hrest) Hw Hl. unfold mem_ok. cbn [with_sec_data data capacity initial_capacity dirty_upd_mask dirty_delete_mask].
  rewrite Hl. done.
Qed.

(** Slot [i] is written, after growing the layer if it is the first one past its end. *)
Lemma sec_write_ok unit s i d : 2 <= unit → mem_ok unit s → room s = true → zlen d = unit → 0 <= i →
  i * unit <= zlen (concat (data s)) →
  ∃ s', sec_write s unit i (Some d) = Ok s' ∧ mem_ok unit s' ∧ sec_idx s' = sec_idx s ∧
    secondary_vid s' = secondary_vid s ∧ zlen (concat (data s)) `max` ((i + 1) * unit) <= zlen (concat (data s')) ∧
    getElemByOffset (data s') unit i = Ok d ∧
    ∀ j, 0 <= j → j ≠ i → (j + 1) * unit <= zlen (concat (data s)) →
      getElemByOffset (data s') unit j = getElemByOffset (data s) unit j.
Proof.
  intros Hu Hmem Hr Hd Hi Hle. pose proof Hmem as (Hw & Hn & Hc & Hd1 & _). assert (0 < unit) as Hu0 by lia. unfold sec_write.
  destruct (Z.leb_spec ((i + 1) * unit) (zlen (concat (data s)))) as [Hfit | Hfull].
  - destruct (write_fits unit (data s) i d) as (cs & E & Hw' & Hl & Hget); try done; [lia |].
    rewrite E. cbn [rbind]. eexists. split; [done |]. split; [by apply with_data_mem_ok |].
    repeat (split; [done |]). cbn [with_sec_data data]. split; [lia |]. split; [by rewrite Hget, Z.eqb_refl by (try done; lia) |].
    intros j Hj Hne Hjf. rewrite Hget by done. by rewrite (proj2 (Z.eqb_neq _ _) Hne).
  - pose proof (Z.divide_pos_le unit (2 * capacity s) ltac:(lia) Hd1). apply Z.ltb_lt in Hr as Hr'.
    unfold Column.UpdateInPlace at 1. rewrite wrap_id by nia.
    rewrite update_loop_full; try done; [| by apply Z.divide_factor_r | nia | lia | lia]. cbn [rbind].
    replace (with_sec_data s (data s)) with s by (by destruct s).
    destruct (increaseCapacity_ok unit s Hu0 Hmem Hr) as (Hm' & Ei & Ev & Ed & El & _).
    set (s' := increaseCapacity unit s) in *. pose proof Hm' as (Hw' & Hn' & _).
    destruct (write_fits unit (data s') i d) as (cs & E & Hwc & Hl & Hget); try done; [lia | lia |].
    rewrite E. cbn [rbind]. eexists. split; [done |]. split; [by apply with_data_mem_ok |].
    repeat (split; [done |]). cbn [with_sec_data data]. split; [lia |]. split; [by rewrite Hget, Z.eqb_refl by lia |].
    intros j Hj Hne Hjf. rewrite Hget by lia. rewrite (proj2 (Z.eqb_neq _ _) Hne).
    rewrite !getElemByOffset_flat by (try done; lia). rewrite Ed, concat_app. apply read_app_l. lia.
Qed.

(** An update of a layer is an update of the map it stands for. *)
Lemma layer_update unit s v d : 2 <= unit → wf_sec unit s → room s = true → zlen d = unit →
  ∃ i s1 s2, sec_slot s v = Ok (i, s1) ∧ sec_write s1 unit i (Some d) = Ok s2 ∧ wf_sec unit s2 ∧
    ∀ u, layer_get unit s2 u = if u =? v then Some (Ok d) else layer_get unit s u.
Proof.
  intros Hu Hwf Hr Hd. pose proof Hwf as ((_ & Hb & _) & _ & Hsv).
  destruct (sec_slot_ok unit s v Hu Hwf) as (i & s1 & E1 & Hidx & Hm & Edat & Ecap & Ev & Eo & Hi & Hle & Hmax).
  assert (room s1 = true) as Hr1 by (unfold room; by rewrite Edat, Ecap).
  destruct (sec_write_ok unit s1 i d Hu Hm Hr1 Hd Hi) as (s2 & E2 & Hm2 & Ei2 & Es2 & Hmax2 & Hsame & Hoth); [by rewrite Edat |].
  exists i, s1, s2. split; [done |]. split; [done |]. rewrite Edat in Hmax2, Hoth. split.
  - split; [| split; [done | rewrite Es2; lia]]. unfold idx_ok. by rewrite Ei2, Es2.
  - intros u. unfold layer_get. rewrite Ei2. destruct (Z.eqb_spec u v) as [-> | Hne].
    + rewrite Ev. simpl. by rewrite Hsame.
    + rewrite (Eo u Hne). destruct (cm_find (sec_idx s) u) as [j |] eqn:Ej; [| done]. simpl. f_equal.
      pose proof (Hb u j Ej). apply Hoth; [lia | | nia]. intros ->. destruct Hidx as (_ & _ & Hinj).
      apply Hne. apply (Hinj u v i); [by rewrite Eo | done].
Qed.

(** ** The column *)

Definition wf (c : LazyColumn) : Prop :=
  let unit := Column.unit_size (base c) in
  2 <= unit ∧ Column.wf (base c) ∧ 0 <= active_snapshot_idx c < 256 ∧
  ∀ pid, 0 <= pid < Column.n_partitions (base c) →
    (∃ secs, secondary c !! Z.to_nat pid = Some secs ∧ Z.of_nat (length secs) = active_snapshot_idx c ∧
       Forall (wf_sec unit) secs) ∧
    (∃ masks, col_dirty c !! Z.to_nat pid = Some masks ∧ masks_ok (Column.capacity_per_partition (base c)) masks).

(** A row of the column: in range, and with no master version in its id. *)
Definition row (c : LazyColumn) (v : rowid_t) : bool :=
  (0 <=? v) && (v <? 2 ^ 56) && (StorageUtils.get_m_version v =? 0) && Column.row_in_range (base c) v.

Definition layer (c : LazyColumn) (i : nat) (v : rowid_t) : option LazySecondary :=
  secondary c !! Z.to_nat (StorageUtils.get_pid v) ≫= (λ secs, secs !! i).

(** The layer that an update of [v] writes can grow. *)
Definition room_at (c : LazyColumn) (v : rowid_t) : bool :=
  (active_snapshot_idx c =? 0) ||
  match layer c (Z.to_nat (active_snapshot_idx c - 1)) v with Some s => room s | None => false end.

Lemma same_slot_row c u v : row c u = true → row c v = true → same_slot u v = (u =? v).
Proof.
  unfold row. rewrite !andb_true_iff, !Z.leb_le, !Z.ltb_lt, !Z.eqb_eq. intros [[[? ?] Hu] _] [[[? ?] Hv] _].
  destruct (Z.eqb_spec u v) as [-> | Hne]; [apply same_slot_refl |].
  apply not_true_is_false. intros [Ep Eo]%same_slot_true. apply Hne.
  rewrite <- (StorageUtils.create_vid_accessors u), <- (StorageUtils.create_vid_accessors v) by lia. congruence.
Qed.

Lemma row_master c v : row c v = true → StorageUtils.get_m_version v = 0.
Proof. unfold row. by intros [[_ Hm%Z.eqb_eq]%andb_true_iff _]%andb_true_iff. Qed.

Lemma row_range c v : row c v = true →
  Column.row_in_range (base c) v = true ∧ 0 <= StorageUtils.get_pid v < Column.n_partitions (base c).
Proof.
  unfold row. intros [_ Hr]%andb_true_iff. split; [done |]. apply andb_true_iff in Hr as [Hp%Z.ltb_lt _].
  pose proof (StorageUtils.get_pid_range v). lia.
Qed.

Lemma get_from_S c i v : get_from c (S i) v =
  match layer c i v with
  | None => Err Undefined
  | Some s => match layer_get (Column.unit_size (base c)) s v with Some r => r | None => get_from c i v end
  end.
Proof.
  cbn [get_from]. unfold layer, layer_get. destruct (secondary c !! _) as [secs |]; [| done].
  cbn [of_option rbind mbind option_bind]. destruct (secs !! i); [| done]. cbn [of_option rbind]. by destruct (cm_find _ v).
Qed.

(** A view depends on the primary data and on the layers it looks through. *)
Lemma get_from_ext c c' k v : Column.unit_size (base c') = Column.unit_size (base c) →
  Column.getElemRef (base c') v = Column.getElemRef (base c) v →
  (∀ i, (i < k)%nat → layer c' i v = layer c i v) → get_from c' k v = get_from c k v.
Proof.
  intros Hu Hb Hl. induction k as [| k IH]; [done |]. rewrite !get_from_S, Hl, Hu by lia.
  destruct (layer c k v); [| done]. destruct (layer_get _ _ _); [done |]. apply IH. intros. apply Hl. lia.
Qed.

Lemma top_layer c v : wf c → row c v = true → active_snapshot_idx c ≠ 0 →
  ∃ secs s, secondary c !! Z.to_nat (StorageUtils.get_pid v) = Some secs ∧
    secs !! Z.to_nat (active_snapshot_idx c - 1) = Some s ∧ wf_sec (Column.unit_size (base c)) s ∧
    Z.of_nat (length secs) = active_snapshot_idx c ∧ Forall (wf_sec (Column.unit_size (base c))) secs.
Proof.
  intros (_ & _ & Ha & Hp) [_ Hpid]%row_range Hne. destruct (Hp _ Hpid) as [(secs & Es & Hlen & Hall) _].
  destruct (lookup_lt_is_Some_2 secs (Z.to_nat (active_snapshot_idx c - 1))) as [s Hs]; [lia |].
  exists secs, s. repeat (split; [done |]). split; [by eapply Forall_lookup_1 | done].
Qed.

(** What an update promises: the row reads the element, the others and the older views stay. *)
Definition updated (c c' : LazyColumn) (v : rowid_t) (d : bytes) : Prop :=
  wf c' ∧ active_snapshot_idx c' = active_snapshot_idx c ∧ Column.type (base c') = Column.type (base c) ∧
  (∀ u, row c' u = row c u) ∧
  (∀ u, row c u = true → getElem c' u = if u =? v then Ok d else getElem c u) ∧
  (∀ u k, row c u = true → Z.of_nat k < active_snapshot_idx c → get_from c' k u = get_from c k u).

Lemma update_primary c v d : wf c → row c v = true → zlen d = Column.unit_size (base c) →
  Column.type (base c) = Column.META → active_snapshot_idx c = 0 → ∃ c', updateElem c v (Some d) = Ok c' ∧ updated c c' v d.
Proof.
  intros Hwf Hr Hd Hty Ha. pose proof Hwf as (Hu & Hb & _ & Hp). destruct (row_range c v Hr) as [Hrr Hpid].
  destruct (Hp _ Hpid) as [_ (ms & Em & Hms)].
  destruct (Column.row_chunk (base c) v Hb Hrr) as (b & Eb & Hlen & H0 & Hle & Hlt & _).
  destruct (Column.UpdateInPlace_slot b (StorageUtils.get_offset v) (Column.unit_size (base c)) d)
    as (b' & Hw & Hl' & EU); try done; [lia |].
  pose proof (StorageUtils.get_offset_range v). pose proof Hrr as [_ Ho%Z.ltb_lt]%andb_true_iff.
  destruct (set_bit_ok ms _ (StorageUtils.get_offset v) Hms ltac:(lia)) as (ms' & Es & Hms'); [destruct Hms; lia |].
  unfold updateElem. rewrite Ha. cbn [Z.eqb]. unfold Column.chunks_at. rewrite Eb. cbn [of_option rbind].
  rewrite EU. cbn [rbind]. rewrite Em. cbn [of_option rbind]. rewrite Es. cbn [rbind]. eexists. split; [done |].
  assert (Column.wf (Column.with_data (base c) (<[Z.to_nat (StorageUtils.get_pid v) := [b']]> (Column.primaryData (base c))))) as Hb'
    by (eapply Column.with_data_wf; eauto; lia).
  split; [| split; [done |]; split; [done |]; split; [done |]; split].
  - split; [done |]. split; [done |]. split; [done |]. intros pid Hpd. cbn [base col_dirty secondary active_snapshot_idx].
    destruct (Hp pid Hpd) as [Hsec (m & Emp & Hm)]. split; [by rewrite Ha in Hsec |].
    destruct (decide (pid = StorageUtils.get_pid v)) as [-> | Hne].
    + exists ms'. split; [| done]. apply list_lookup_insert_eq. by eapply lookup_lt_Some.
    + exists m. split; [| done]. by rewrite list_lookup_insert_ne by lia.
  - intros u Hru. unfold getElem. cbn [active_snapshot_idx]. rewrite Ha. change (Z.to_nat 0) with 0%nat. cbn [get_from base]. rewrite <- (same_slot_row c) by done.
    destruct (row_range c u Hru) as [Hru' _]. pose proof (row_master c u Hru).
    rewrite !Column.getElemRef_get by done. cbn [Column.type Column.with_data]. rewrite Hty, bool_decide_eq_true_2 by done.
    by eapply Column.getElem_with.
  - intros u k _ Hk. lia.
Qed.

Lemma update_layer c v d : wf c → row c v = true → zlen d = Column.unit_size (base c) → room_at c v = true →
  active_snapshot_idx c ≠ 0 → ∃ c', updateElem c v (Some d) = Ok c' ∧ updated c c' v d.
Proof.
  intros Hwf Hr Hd Hroom Ha. destruct (top_layer c v Hwf Hr Ha) as (secs & s & Es & Et & Hs & Hlen & Hall).
  pose proof Hwf as (Hu & Hb & Hrng & Hp). unfold room_at, layer in Hroom.
  rewrite (proj2 (Z.eqb_neq _ _) Ha), Es in Hroom. cbn [orb mbind option_bind] in Hroom. rewrite Et in Hroom.
  destruct (layer_update _ s v d Hu Hs Hroom Hd) as (i & s1 & s2 & E1 & E2 & Hs2 & Hget).
  unfold updateElem. rewrite (proj2 (Z.eqb_neq _ _) Ha), Es. cbn [of_option rbind].
  rewrite (proj2 (Z.ltb_lt _ _)) by lia. rewrite Et. cbn [of_option rbind]. rewrite E1. cbn [rbind]. rewrite E2. cbn [rbind].
  eexists. split; [done |]. set (c' := mk _ _ _ _ _ _).
  assert (∀ k u, layer c' k u = if (StorageUtils.get_pid u =? StorageUtils.get_pid v) && (Z.of_nat k =? active_snapshot_idx c - 1)
                                then Some s2 else layer c k u) as Hlay.
  { intros k u. unfold layer, c'. cbn [secondary]. pose proof (StorageUtils.get_pid_range v). pose proof (StorageUtils.get_pid_range u).
    destruct (Z.eqb_spec (StorageUtils.get_pid u) (StorageUtils.get_pid v)) as [-> | Hne]; cbn [andb].
    - rewrite list_lookup_insert_eq by (by eapply lookup_lt_Some). rewrite Es. cbn [mbind option_bind].
      destruct (Z.eqb_spec (Z.of_nat k) (active_snapshot_idx c - 1)) as [Ek | Hk].
      + replace k with (Z.to_nat (active_snapshot_idx c - 1)) by lia. apply list_lookup_insert_eq. lia.
      + apply list_lookup_insert_ne. lia.
    - by rewrite list_lookup_insert_ne by lia. }
  assert (∀ u k, Z.of_nat k < active_snapshot_idx c → get_from c' k u = get_from c k u) as Hold.
  { intros u k Hk. apply get_from_ext; try done. intros j Hj. rewrite Hlay, (proj2 (Z.eqb_neq (Z.of_nat j) _)) by lia.
    by rewrite andb_false_r. }
  split; [| split; [done |]; split; [done |]; split; [done |]; split; [| by intros; apply Hold]].
  - split; [done |]. split; [done |]. split; [done |]. intros pid Hpd. cbn [base col_dirty secondary active_snapshot_idx c'].
    destruct (Hp pid Hpd) as [(secs' & Es' & Hl' & Hall') Hm]. split; [| done].
    destruct (decide (pid = StorageUtils.get_pid v)) as [-> | Hne].
    + eexists. split; [apply list_lookup_insert_eq; by eapply lookup_lt_Some |]. rewrite length_insert.
      split; [done |]. by apply Forall_insert.
    + exists secs'. rewrite list_lookup_insert_ne by (pose proof (StorageUtils.get_pid_range v); lia). done.
  - intros u Hru. unfold getElem. cbn [active_snapshot_idx c']. destruct (top_layer c u Hwf Hru Ha) as (secu & su & Eu & Etu & _).
    replace (Z.to_nat (active_snapshot_idx c)) with (S (Z.to_nat (active_snapshot_idx c - 1))) by lia.
    rewrite !get_from_S, Hlay, Hold by lia. rewrite (proj2 (Z.eqb_eq (Z.of_nat _) _)), andb_true_r by lia.
    destruct (Z.eqb_spec (StorageUtils.get_pid u) (StorageUtils.get_pid v)) as [Ep | Hne].
    + cbn [base c']. rewrite Hget. replace (layer c _ u) with (Some s) by (unfold layer; rewrite Ep, Es; done).
      by destruct (u =? v).
    + rewrite (proj2 (Z.eqb_neq u v)) by congruence. done.
Qed.

(** The new layers hold at least one slot, whole slots, and fit the machine's sizes; the
    8-bit snapshot counter does not wrap. *)
Definition can_snapshot (c : LazyColumn) : bool :=
  let cap := Column.capacity (base c) / 10 in
  (active_snapshot_idx c <? 255) && (0 <? cap) && (2 * cap mod Column.unit_size (base c) =? 0) &&
  (cap * Column.unit_size (base c) <? 2 ^ 62).

Lemma LazySecondary_new_wf cap unit : 2 <= unit → 0 < cap → (unit | 2 * cap) → cap * unit < 2 ^ 62 →
  wf_sec unit (LazySecondary_new cap unit).
Proof.
  intros Hu Hc Hd Hs. unfold LazySecondary_new. assert (0 < cap * unit) by nia. rewrite wrap_id by lia.
  assert (zlen (concat [replicate (Z.to_nat (cap * unit)) 0]) = cap * unit) as Hz
    by (simpl; rewrite app_nil_r; unfold zlen; rewrite length_replicate; lia).
  split; [| split].
  - split; [done |]. cbn [sec_idx secondary_vid]. split; intros *; rewrite cm_find_new; done.
  - unfold mem_ok. cbn [data capacity initial_capacity dirty_upd_mask dirty_delete_mask]. rewrite Hz.
    split; [apply Forall_singleton; simpl in Hz; rewrite app_nil_r in Hz; rewrite Hz; apply Z.divide_factor_r |].
    split; [lia |]. split; [lia |]. split; [done |]. split; [done |].
    split; apply fresh_packs_ok, num_bit_packs_enough; lia.
  - cbn [secondary_vid data]. lia.
Qed.

Lemma lazy_snapshot_ok c : wf c → can_snapshot c = true →
  wf (snapshot c) ∧ active_snapshot_idx (snapshot c) = active_snapshot_idx c + 1 ∧
  (∀ u, row (snapshot c) u = row c u) ∧
  ∀ u, row c u = true → get_from (snapshot c) (Z.to_nat (active_snapshot_idx c)) u = getElem c u ∧
                        getElem (snapshot c) u = getElem c u.
Proof.
  intros Hwf Hcan. pose proof Hwf as (Hu & Hb & Ha & Hp). unfold can_snapshot in Hcan.
  rewrite !andb_true_iff, !Z.ltb_lt, Z.eqb_eq in Hcan. destruct Hcan as [[[Ha' Hcap] Hdiv] Hfit].
  apply Z.mod_divide in Hdiv; [| lia]. pose proof (LazySecondary_new_wf _ _ Hu Hcap Hdiv Hfit) as Hnew.
  assert (u8 (active_snapshot_idx c + 1) = active_snapshot_idx c + 1) as E8 by (apply wrap_id; lia).
  assert (∀ pid, 0 <= pid < Column.n_partitions (base c) → ∀ secs, secondary c !! Z.to_nat pid = Some secs →
    secondary (snapshot c) !! Z.to_nat pid =
      Some (secs ++ [LazySecondary_new (Column.capacity (base c) / 10) (Column.unit_size (base c))])) as Hsec.
  { intros pid Hpd secs Es. unfold snapshot. cbn [secondary]. rewrite list_lookup_imap, Es. cbn [fmap option_fmap option_map].
    by rewrite (proj2 (Z.ltb_lt _ _)) by lia. }
  assert (wf (snapshot c)) as Hwf'.
  { split; [done |]. split; [done |]. cbn [active_snapshot_idx snapshot]. rewrite E8. split; [lia |]. intros pid Hpd.
    destruct (Hp pid Hpd) as [(secs & Es & Hlen & Hall) Hm]. split; [| done].
    eexists. split; [by apply Hsec |]. rewrite length_app. simpl. split; [lia |].
    apply Forall_app; split; [done | by apply Forall_singleton]. }
  split; [done |]. split; [done |]. split; [done |]. intros u Hr. destruct (row_range c u Hr) as [_ Hpd].
  destruct (Hp _ Hpd) as [(secs & Es & Hlen & _) _].
  assert (get_from (snapshot c) (Z.to_nat (active_snapshot_idx c)) u = getElem c u) as Hold.
  { apply get_from_ext; [done | done |]. intros i Hi. unfold layer. rewrite (Hsec _ Hpd _ Es), Es. cbn [mbind option_bind].
    apply lookup_app_l. lia. }
  split; [done |]. unfold getElem at 1. cbn [active_snapshot_idx snapshot]. rewrite E8.
  replace (Z.to_nat (active_snapshot_idx c + 1)) with (S (Z.to_nat (active_snapshot_idx c))) by lia.
  rewrite get_from_S. unfold layer. rewrite (Hsec _ Hpd _ Es). cbn [mbind option_bind].
  rewrite lookup_app_r by lia. replace (Z.to_nat (active_snapshot_idx c) - length secs)%nat with 0%nat by lia.
  cbn [lookup list_lookup]. unfold layer_get. cbn [LazySecondary_new sec_idx]. by rewrite cm_find_new.
Qed.

(** ** A run of updates *)

Fixpoint updates (c : LazyColumn) (ops : list (rowid_t * bytes)) : res LazyColumn :=
  match ops with
  | [] => Ok c
  | (v, d) :: r => do c' <- updateElem c v (Some d); updates c' r
  end.

(** Rows of the column, elements of its size, and room in the layer each writes. *)
Fixpoint admissible (c : LazyColumn) (ops : list (rowid_t * bytes)) : bool :=
  match ops with
  | [] => true
  | (v, d) :: r => row c v && (zlen d =? Column.unit_size (base c)) && room_at c v &&
      match updateElem c v (Some d) with Ok c' => admissible c' r | Err _ => true end
  end.

(** What a row holds after the writes, given what it held before. *)
Fixpoint after_writes (u : rowid_t) (ops : list (rowid_t * bytes)) (old : res bytes) : res bytes :=
  match ops with
  | [] => old
  | (v, d) :: r => after_writes u r (if u =? v then Ok d else old)
  end.

Lemma updates_ok ops : ∀ c, wf c → Column.type (base c) = Column.META ∨ active_snapshot_idx c ≠ 0 →
  admissible c ops = true →
  ∃ c', updates c ops = Ok c' ∧ wf c' ∧ ∀ u, row c u = true →
    getElem c' u = after_writes u ops (getElem c u) ∧
    ∀ k, Z.of_nat k < active_snapshot_idx c → get_from c' k u = get_from c k u.
Proof.
  induction ops as [| [v d] r IH]; intros c Hwf Hty Hadm; cbn [updates admissible after_writes] in *; [by exists c |].
  rewrite !andb_true_iff, Z.eqb_eq in Hadm. destruct Hadm as [[[Hr Hd] Hroom] Hrest].
  assert (∃ c1, updateElem c v (Some d) = Ok c1 ∧ updated c c1 v d) as (c1 & E & Hwf1 & Ea & Et & Erow & Hget & Hold).
  { destruct (decide (active_snapshot_idx c = 0)); [apply update_primary; tauto | by apply update_layer]. }
  rewrite E in Hrest. rewrite E. cbn [rbind]. destruct (IH c1 Hwf1 ltac:(by rewrite Et, Ea) Hrest) as (c' & E' & Hwf' & Hv).
  exists c'. split; [done |]. split; [done |]. intros u Hu. destruct (Hv u) as [Hg Hk]; [by rewrite Erow |].
  split; [by rewrite Hg, Hget |]. intros k Hlt. rewrite Hk by lia. by apply Hold.
Qed.

(** A layer of the view of [k] layers holds the row. *)
Fixpoint held (c : LazyColumn) (k : nat) (v : rowid_t) : bool :=
  match k with
  | O => false
  | S k => match layer c k v with
           | Some s => bool_decide (is_Some (cm_find (sec_idx s) v)) || held c k v
           | None => false
           end
  end.

Lemma layer_reads unit s v j : 2 <= unit → wf_sec unit s → cm_find (sec_idx s) v = Some j →
  ∃ b, getElemByOffset (data s) unit j = Ok b ∧ zlen b = unit.
Proof.
  intros Hu ((_ & Hi & _) & (Hw & Hn & _) & Hfit) Hj. pose proof (Hi _ _ Hj).
  rewrite getElemByOffset_flat; try done; [apply read_bytes_Ok; nia | lia | lia | nia | lia].
Qed.

(** A view reads an element, except that it ends the process on a row that no layer holds
    when the column is not a meta-column. *)
Lemma view_reads c v k : wf c → row c v = true → Z.of_nat k <= active_snapshot_idx c →
  if bool_decide (Column.type (base c) = Column.META) || held c k v
  then ∃ b, get_from c k v = Ok b ∧ zlen b = Column.unit_size (base c)
  else get_from c k v = Err Fatal.
Proof.
  intros Hwf Hr. pose proof Hwf as (Hu & Hb & Ha & Hp). destruct (row_range c v Hr) as [Hrr Hpid].
  destruct (Hp _ Hpid) as [(secs & Es & Hlen & Hall) _]. induction k as [| k IH]; intros Hk.
  - cbn [held get_from]. rewrite orb_false_r, Column.getElemRef_get by (done || by apply row_master in Hr).
    destruct (bool_decide _); [| done].
    destruct (Column.getElem_slot (base c) v Hb Hrr) as (b & Eb & ->).
    destruct (Column.row_chunk (base c) v Hb Hrr) as (b' & Eb' & _ & H0 & Hle & _). simplify_eq.
    apply read_bytes_Ok; lia.
  - destruct (lookup_lt_is_Some_2 secs k) as [s Hs]; [lia |].
    assert (layer c k v = Some s) as El by (unfold layer; by rewrite Es).
    rewrite get_from_S. cbn [held]. rewrite El. unfold layer_get.
    destruct (cm_find (sec_idx s) v) as [j |] eqn:Ej; cbn [fmap option_fmap option_map].
    + rewrite (bool_decide_eq_true_2 (is_Some (Some j))) by done. cbn [orb]. rewrite orb_true_r.
      eapply layer_reads; try done. by eapply Forall_lookup_1.
    + rewrite (bool_decide_eq_false_2 (is_Some None)) by (by intros []). cbn [orb]. apply IH. lia.
Qed.


Lemma lazy_new_wf id ty unit off g np cap : 2 <= unit → 0 < g <= MAX_PARTITIONS → 0 <= cap →
  (cap + g) * unit + unit < 2 ^ 62 → wf (LazyColumn_new id ty unit off g np cap).
Proof.
  intros Hu Hg Hc Hs. pose proof (Column.column_new_wf id ty unit off g np cap LazyMaster ltac:(lia) Hg Hc ltac:(lia)) as Hb.
  split; [done |]. split; [done |]. split; [cbn; lia |]. intros pid Hp.
  cbn [LazyColumn_new base secondary col_dirty active_snapshot_idx] in *. pose proof Hb as (_ & Hn & H0 & Hcap & _). split.
  - exists []. split; [| done]. apply lookup_replicate. split; [done |]. lia.
  - eexists. split.
    + rewrite list_lookup_fmap, lookup_seq_lt by lia. cbn [fmap option_fmap option_map].
      by rewrite (proj2 (Z.ltb_lt _ _)) by lia.
    + apply fresh_packs_ok, num_bit_packs_enough.
      pose proof (Column.column_new_capacity id ty unit off g np cap LazyMaster ltac:(lia) Hg Hc ltac:(lia)) as [Hcc _]. nia.
Qed.

End column.

(** ** A column of twenty-four two-byte elements, with layers of two slots *)

Definition small (ty : Column.data_type) : LazyColumn (M := gmap Z Z) := LazyColumn_new 0 ty 2 0 1 false 24.

Definition some_writes : list (rowid_t * bytes) := [(3, [1; 2]); (5, [3; 4]); (3, [5; 6]); (7, [7; 8]); (9, [9; 9])].

Lemma small_wf ty : wf (small ty).
Proof. apply lazy_new_wf; [lia | unfold MAX_PARTITIONS; lia | lia | lia]. Qed.


(** Growing a layer resets the dirty bits of the slots it already had: the loop indexes the
    packs from 0 instead of from the first new one. *)
Definition dirty_slots (s : LazySecondary (M := gmap Z Z)) : Z :=
  foldr (λ b acc, AtomicBitSet.count b + acc) 0 (dirty_upd_mask s).

Lemma growth_forgets_dirty_slots :
  ∃ s, sec_slot (LazySecondary_new 2 2) 5 = Ok (0, s) ∧ dirty_slots s = 1 ∧
       dirty_slots (increaseCapacity 2 s) = 0.
Proof. eexists. split; [vm_compute; reflexivity |]. split; vm_compute; reflexivity. Qed.

End LazyColumn.
