(* ===== verification/ExprTypes.v ===== *)
(** * ExprTypes: the types of the analytical engine's expressions
    ([olap/values/expressionTypes.hpp], [expressionTypes.cpp], [indexed-seq.hpp],
    [indexed-seq.cpp], [project-record.cpp]).

    Every value the generated code handles has an expression type, which fixes its LLVM type;
    a record type lists the attributes of a tuple and resolves their names. *)

From S2P Require Import Prelude.
From Stdlib Require Import ZArith Lia Bool.
From stdpp Require Import base numbers list strings.

Local Open Scope Z_scope.
Local Open Scope res_scope.

(** ** The LLVM types the engine maps to *)

Inductive llvm_type : Type :=
  | TInt (w : Z)
  | TDouble
  | TPtr (t : llvm_type)
  | TStruct (ts : list llvm_type).

Section llvm_type_ind.
Context (P : llvm_type → Prop).
Hypothesis (Hint : ∀ w, P (TInt w)) (Hdbl : P TDouble) (Hptr : ∀ t, P t → P (TPtr t))
  (Hstruct : ∀ ts, Forall P ts → P (TStruct ts)).

Fixpoint llvm_type_rect' (t : llvm_type) : P t :=
  match t with
  | TInt w => Hint w
  | TDouble => Hdbl
  | TPtr t' => Hptr t' (llvm_type_rect' t')
  | TStruct ts => Hstruct ts
      ((fix go (l : list llvm_type) : Forall P l :=
          match l with
          | [] => Forall_nil_2 P
          | t' :: l' => Forall_cons_2 P t' l' (llvm_type_rect' t') (go l')
          end) ts)
  end.
End llvm_type_ind.

Fixpoint list_eqb {A} (f : A → A → bool) (l k : list A) : bool :=
  match l, k with
  | [], [] => true
  | a :: l', b :: k' => f a b && list_eqb f l' k'
  | _, _ => false
  end.

Fixpoint llvm_eqb (s t : llvm_type) : bool :=
  match s, t with
  | TInt v, TInt w => v =? w
  | TDouble, TDouble => true
  | TPtr s', TPtr t' => llvm_eqb s' t'
  | TStruct ss, TStruct ts => list_eqb llvm_eqb ss ts
  | _, _ => false
  end.

Lemma llvm_eqb_spec s : ∀ t, llvm_eqb s t = true ↔ s = t.
Proof.
  induction s as [w | | s IH | ss IH] using llvm_type_rect'; intros [v | | t | ts]; simpl; try (split; congruence).
  - rewrite Z.eqb_eq. split; congruence.
  - rewrite IH. split; congruence.
  - revert ts. induction IH as [| s ss Hs _ IHl]; intros [| t ts]; simpl; try (split; congruence).
    rewrite andb_true_iff, Hs, IHl. split; [intros [-> [= ->]]; done | intros [= -> ->]; done].
Qed.

#[export] Instance llvm_type_eq_dec : EqDecision llvm_type.
Proof.
  intros s t. destruct (llvm_eqb s t) eqn:E; [left; by apply llvm_eqb_spec |].
  right. intros Heq%llvm_eqb_spec. congruence.
Defined.

Module ExprTypes.

Inductive typeID : Type :=
  BOOL | DSTRING | STRING | FLOAT | INT | DATE | RECORD | LIST | BAG | SET | INT64 | COMPOSITE | BLOCK | INDEXEDSEQ.

#[export] Instance typeID_eq_dec : EqDecision typeID.
Proof. solve_decision. Defined.

Record Attribute (T : Type) : Type := mk_attr {
  relName : string;
  attrName : string;
  originalRelName : string;
  type : T;
  attrNo : Z;
  projected : bool
}.
#[global] Arguments mk_attr {T}.
#[global] Arguments relName {T}.
#[global] Arguments attrName {T}.
#[global] Arguments originalRelName {T}.
#[global] Arguments type {T}.
#[global] Arguments attrNo {T}.
#[global] Arguments projected {T}.

(** The dictionary of a dictionary-encoded string is a [std::map<int, std::string>] behind an
    untyped pointer that may be null; it is the list of its entries here. *)
Inductive ExpressionType : Type :=
  | BoolType
  | StringType
  | DStringType (dictionary : option (list (Z * string)))
  | FloatType
  | IntType
  | Int64Type
  | DateType
  | BlockType (nested : ExpressionType)
  | ListType (nested : ExpressionType)
  | BagType (nested : ExpressionType)
  | SetType (nested : ExpressionType)
  | IndexedSeq (nested : ExpressionType)
  | RecordType (args : list (Attribute ExpressionType)).

Abbreviation RecordAttribute := (Attribute ExpressionType).

Definition getTypeID (t : ExpressionType) : typeID :=
  match t with
  | BoolType => BOOL | StringType => STRING | DStringType _ => DSTRING | FloatType => FLOAT
  | IntType => INT | Int64Type => INT64 | DateType => DATE
  | BlockType _ => BLOCK | ListType _ => LIST | BagType _ => BAG | SetType _ => SET
  | IndexedSeq _ => INDEXEDSEQ | RecordType _ => RECORD
  end.

Definition isPrimitive (t : ExpressionType) : bool :=
  match t with
  | BoolType | StringType | DStringType _ | FloatType | IntType | Int64Type | DateType => true
  | _ => false
  end.

(** [getType]: the printed type. *)
Fixpoint getType (t : ExpressionType) : string :=
  match t with
  | BoolType => "Bool" | StringType => "String" | DStringType _ => "DString" | FloatType => "Float"
  | IntType => "Int" | Int64Type => "Int64" | DateType => "Date"
  | BlockType t => "Block(" +:+ getType t +:+ ")"
  | ListType t => "List(" +:+ getType t +:+ ")"
  | BagType t => "Bag(" +:+ getType t +:+ ")"
  | SetType t => "Set(" +:+ getType t +:+ ")"
  | IndexedSeq t => "IndexedSeq(" +:+ getType t +:+ ")"
  | RecordType args =>
      "Record(" +:+
      (fix go (l : list RecordAttribute) : string :=
         match l with
         | [] => ""
         | a :: l' => (attrName a +:+ " " +:+ getType (type a)) +:+
                      match l' with [] => "" | _ => ", " end +:+ go l'
         end) args +:+ ")"
  end.

(** [getLLVMType]: the collections other than blocks are not mapped and throw; the element
    type of an indexed sequence is what its nested type points to. *)
Fixpoint getLLVMType (t : ExpressionType) : res llvm_type :=
  match t with
  | BoolType => Ok (TInt 1)
  | StringType => Ok (TStruct [TPtr (TInt 8); TInt 32])
  | DStringType _ => Ok (TInt 32)
  | FloatType => Ok TDouble
  | IntType => Ok (TInt 32)
  | Int64Type => Ok (TInt 64)
  | DateType => Ok (TInt 64)
  | BlockType t => do l <- getLLVMType t; Ok (TPtr l)
  | IndexedSeq t =>
      do l <- getLLVMType t;
      match l with TPtr l' => Ok l' | _ => Err AssertFailed end
  | ListType _ | BagType _ | SetType _ => Err Throw
  | RecordType args =>
      do body <- rmapM (λ a : RecordAttribute, getLLVMType (type a)) args;
      Ok (TStruct body)
  end.

(** ** Attributes *)

(** The constructors refuse an attribute without a relation. *)
Definition RecordAttribute_full (no : Z) (originalRel rel attr : string) (t : ExpressionType) : res RecordAttribute :=
  check negb (String.eqb rel "") else Throw;
  check negb (String.eqb originalRel "") else Throw;
  Ok (mk_attr rel attr originalRel t no false).

Definition RecordAttribute_no (no : Z) (rel attr : string) (t : ExpressionType) (make_block : bool) : res RecordAttribute :=
  check negb (String.eqb rel "") else Throw;
  Ok (mk_attr rel attr rel (if make_block then BlockType t else t) no false).

Definition RecordAttribute_oid (rel attr : string) (t : ExpressionType) : res RecordAttribute :=
  check negb (String.eqb rel "") else Throw;
  Ok (mk_attr rel attr rel t (-1) false).

Definition RecordAttribute_copy (a : RecordAttribute) (make_block : bool) : RecordAttribute :=
  mk_attr (relName a) (attrName a) (originalRelName a)
    (if make_block then BlockType (type a) else type a) (attrNo a) (projected a).

Definition setProjected (a : RecordAttribute) : RecordAttribute :=
  mk_attr (relName a) (attrName a) (originalRelName a) (type a) (attrNo a) true.

Definition attr_type_string (a : RecordAttribute) : string := attrName a +:+ " " +:+ getType (type a).

Definition recordComparator (x y : RecordAttribute) : bool := attrNo x <? attrNo y.

Definition attr_lt (l r : RecordAttribute) : bool :=
  if String.eqb (relName l) (relName r) then String.ltb (attrName l) (attrName r)
  else String.ltb (relName l) (relName r).

Definition attr_eq (l r : RecordAttribute) : bool :=
  String.eqb (relName l) (relName r) && String.eqb (attrName l) (attrName r).

(** The order of strings, and of attributes by relation and name, is a strict total order. *)
Lemma string_lt_compare s t : String.ltb s t = match String.compare s t with Lt => true | _ => false end.
Proof. done. Qed.

Lemma string_compare_refl s : String.compare s s = Eq.
Proof.
  pose proof (String.compare_antisym s s) as E. destruct (String.compare s s); [done | discriminate | discriminate].
Qed.

Lemma string_lt_irrefl s : String.ltb s s = false.
Proof. by rewrite string_lt_compare, string_compare_refl. Qed.

Lemma string_lt_asym s t : String.ltb s t = true → String.ltb t s = false.
Proof. rewrite !string_lt_compare, (String.compare_antisym t s). by destruct (String.compare s t). Qed.

Lemma string_lt_total s t : String.ltb s t = false → String.ltb t s = false → s = t.
Proof.
  rewrite !string_lt_compare, (String.compare_antisym t s). destruct (String.compare s t) eqn:E; simpl; try done.
  intros _ _. by apply String.compare_eq_iff.
Qed.

Lemma string_lt_trans s : ∀ t u, String.ltb s t = true → String.ltb t u = true → String.ltb s u = true.
Proof.
  induction s as [| a s IH]; intros [| b t] [| c u]; rewrite !string_lt_compare; simpl; try done.
  unfold Ascii.compare. intros H1 H2.
  destruct (N.compare_spec (Ascii.N_of_ascii a) (Ascii.N_of_ascii b)) as [E1 | E1 | E1]; try done;
  destruct (N.compare_spec (Ascii.N_of_ascii b) (Ascii.N_of_ascii c)) as [E2 | E2 | E2]; try done;
  destruct (N.compare_spec (Ascii.N_of_ascii a) (Ascii.N_of_ascii c)) as [E3 | E3 | E3]; try done; try lia.
  specialize (IH t u). rewrite !string_lt_compare in IH. by apply IH.
Qed.

(** What an attribute is found by. *)
Definition attr_key (a : RecordAttribute) : string * string := (relName a, attrName a).

Lemma attr_lt_irrefl a b : attr_key a = attr_key b → attr_lt a b = false.
Proof. unfold attr_key, attr_lt. intros [= -> ->]. rewrite String.eqb_refl. apply string_lt_irrefl. Qed.

Lemma attr_lt_trans a b c : attr_lt a b = true → attr_lt b c = true → attr_lt a c = true.
Proof.
  unfold attr_lt. destruct (String.eqb_spec (relName a) (relName b)) as [-> | H1].
  - destruct (String.eqb (relName b) (relName c)); [apply string_lt_trans | done].
  - destruct (String.eqb_spec (relName b) (relName c)) as [<- | H2]; [by rewrite (proj2 (String.eqb_neq _ _) H1) |].
    intros Hab Hbc. destruct (String.eqb_spec (relName a) (relName c)) as [E | H3].
    + rewrite E in Hab. rewrite (string_lt_asym _ _ Hbc) in Hab. done.
    + by eapply string_lt_trans.
Qed.

Lemma attr_lt_total a b : attr_lt a b = false → attr_lt b a = false → attr_key a = attr_key b.
Proof.
  unfold attr_lt, attr_key. rewrite (String.eqb_sym (relName b)).
  destruct (String.eqb_spec (relName a) (relName b)) as [-> | H1]; intros E1 E2.
  - f_equal. by apply string_lt_total.
  - destruct H1. by apply string_lt_total.
Qed.

Lemma attr_lt_asym a b : attr_lt a b = true → attr_lt b a = false.
Proof.
  intros H. destruct (attr_lt b a) eqn:E; [| done]. pose proof (attr_lt_trans _ _ _ H E) as C.
  by rewrite attr_lt_irrefl in C.
Qed.

Lemma attr_eq_key a b : attr_eq a b = true ↔ attr_key a = attr_key b.
Proof.
  unfold attr_eq, attr_key. rewrite andb_true_iff, !String.eqb_eq. split; [intros [-> ->]; done | intros [= -> ->]; done].
Qed.

(** ** Record types

    A record type keeps the attributes in order and a map from names to attributes.  The map
    is determined by the list: the constructors let a later attribute of the same name win,
    and [appendAttribute] does not add a second one. *)

Definition getArg (args : list RecordAttribute) (name : string) : option RecordAttribute :=
  List.find (λ a, String.eqb (attrName a) name) (rev args).

Definition appendAttribute (args : list RecordAttribute) (a : RecordAttribute) : list RecordAttribute :=
  match getArg args (attrName a) with Some _ => args | None => args ++ [a] end.

(** [getIndex]: the loop returns at once on a full match and remembers the last match by name;
    [cnt] counts those. *)
Fixpoint getIndex_loop (x : RecordAttribute) (args : list RecordAttribute) (index maybe cnt : Z) : res Z :=
  match args with
  | [] => check cnt <=? 1 else AssertFailed; Ok maybe
  | a :: args' =>
      if String.eqb (attrName x) (attrName a) then
        if String.eqb (relName x) (relName a) then Ok index
        else getIndex_loop x args' (index + 1) index (cnt + 1)
      else getIndex_loop x args' (index + 1) maybe cnt
  end.

Definition getIndex (args : list RecordAttribute) (x : RecordAttribute) : res Z := getIndex_loop x args 0 (-1) 0.

(** [RelWithAttributes] as a record type: the attributes are numbered from 1. *)
Record DanglingAttr : Type := mk_dangling { d_name : string; d_type : ExpressionType; makeBlock : bool }.

Definition rel_record (r : string) (attrs : list DanglingAttr) : res ExpressionType :=
  do recs <- rmapM (λ '(i, x), RecordAttribute_no (Z.of_nat i + 1) r (d_name x) (d_type x) (makeBlock x)) (imap pair attrs);
  Ok (RecordType recs).

End ExprTypes.
