(* ===== verification/LLVM.v ===== *)
(** * LLVM: what the code generators rely on in LLVM

    LLVM is a library: the class [IRBuilder] is the part of its builder the generators call,
    over an arbitrary type [V] of IR values, and the class [LangRef] states what the language
    reference says of the instructions.  [den v] is the outcome of running the code that
    computes [v]: an undefined operation is an error, and so is a poison value.  Doubles are an
    arbitrary type with their operations ([FloatOps]).  [Interp] is an interpreter that
    satisfies the laws; it evaluates the examples. *)

From S2P Require Import Prelude ExprTypes.
From Stdlib Require Import ZArith Lia Bool.
From stdpp Require Import base numbers list strings.

Local Open Scope Z_scope.
Local Open Scope res_scope.

(** ** Integer instructions *)

(** The signed reading of a [w]-bit integer. *)
Definition signed (w x : Z) : Z := if x <? 2 ^ (w - 1) then x else x - 2 ^ w.

Inductive ibinop : Type := Add | Sub | Mul | SDiv | UDiv | SRem | URem | Shl | LShr | AShr | And | Or | Xor.
Inductive icmp : Type := EQ | NE | SGT | SGE | SLT | SLE.
Inductive fbinop : Type := FAdd | FSub | FMul | FDiv | FRem.
Inductive fcmp : Type := FOEQ | FONE | FOGT | FOGE | FOLT | FOLE.

Definition exec_bin (w : Z) (op : ibinop) (x y : Z) : res Z :=
  match op with
  | Add => Ok (wrap w (x + y))
  | Sub => Ok (wrap w (x - y))
  | Mul => Ok (wrap w (x * y))
  | SDiv =>
      check negb (y =? 0) else Undefined;
      check negb ((signed w x =? - 2 ^ (w - 1)) && (signed w y =? -1)) else Undefined;
      Ok (wrap w (Z.quot (signed w x) (signed w y)))
  | UDiv => check negb (y =? 0) else Undefined; Ok (x / y)
  | SRem =>
      check negb (y =? 0) else Undefined;
      check negb ((signed w x =? - 2 ^ (w - 1)) && (signed w y =? -1)) else Undefined;
      Ok (wrap w (Z.rem (signed w x) (signed w y)))
  | URem => check negb (y =? 0) else Undefined; Ok (x mod y)
  | Shl => check y <? w else Undefined; Ok (wrap w (Z.shiftl x y))
  | LShr => check y <? w else Undefined; Ok (Z.shiftr x y)
  | AShr => check y <? w else Undefined; Ok (wrap w (Z.shiftr (signed w x) y))
  | And => Ok (Z.land x y)
  | Or => Ok (Z.lor x y)
  | Xor => Ok (Z.lxor x y)
  end.

Definition exec_cmp (w : Z) (c : icmp) (x y : Z) : bool :=
  match c with
  | EQ => x =? y
  | NE => negb (x =? y)
  | SGT => signed w y <? signed w x
  | SGE => signed w y <=? signed w x
  | SLT => signed w x <? signed w y
  | SLE => signed w x <=? signed w y
  end.

(** Run-time values; an integer is its unsigned reading. *)
Inductive rt (F : Type) : Type :=
  | RInt (z : Z)
  | RFloat (f : F)
  | RPtr (a : Z)
  | RStruct (l : list (rt F)).
Arguments RInt {F}.
Arguments RFloat {F}.
Arguments RPtr {F}.
Arguments RStruct {F}.

Class FloatOps (F : Type) : Type := {
  fbin : fbinop → F → F → F;
  fcomp : fcmp → F → F → bool;
  fneg : F → F;
  of_int : Z → F;
  to_int : F → option Z;               (* None: poison *)
  finf : bool → F;                     (* infinity; true: negative *)
  f_zero : F;
  f_one : F
}.

Definition as_int {F} (r : rt F) : res Z := match r with RInt z => Ok z | _ => Err Undefined end.
Definition as_float {F} (r : rt F) : res F := match r with RFloat f => Ok f | _ => Err Undefined end.

(** ** The builder *)

Class IRBuilder (F V : Type) : Type := {
  vtype : V → llvm_type;
  den : V → res (rt F);
  call_sem : string → llvm_type → list (rt F) → res (rt F);   (* the runtime functions *)
  ConstInt : Z → Z → V;                                (* width, value *)
  ConstFP : F → V;
  CreateBin : ibinop → V → V → V;
  CreateICmp : icmp → V → V → V;
  CreateFBin : fbinop → V → V → V;
  CreateFCmp : fcmp → V → V → V;
  CreateFNeg : V → V;
  CreateSelect : V → V → V → V;
  CreateIfElse : V → V → V → V;                        (* a slot stored in one of two blocks, loaded after them *)
  CreateSExtOrTrunc : V → Z → V;
  CreateSIToFP : V → V;
  CreateFPToSI : V → Z → V;
  CreateFPCast : V → V;
  CreateExtractValue : V → nat → V;
  CreateStruct : list V → V;                           (* a struct filled field by field *)
  CreateGlobalString : string → V;
  CreateCall : string → llvm_type → list V → V;
  CreateRand : nat → V;                                (* a call of rand, one per place *)
  CreateExpect : V → V;                                (* llvm.expect.with.probability *)
  CreateLoad : V → V;
  CreateSlot : V → V;                                  (* an alloca with a value stored in it *)
  CreateParameter : Z → llvm_type → V;                 (* load of a session parameter *)
  CreateGEP : V → V → V
}.

Section laws.
Context {F V : Type} `{FloatOps F, IRBuilder F V}.

Definition den_int (v : V) : res Z := do r <- den v; as_int r.
Definition den_float (v : V) : res F := do r <- den v; as_float r.

Class LangRef : Prop := {
  den_typed : ∀ v w r, vtype v = TInt w → den v = Ok r → ∃ z, r = RInt z ∧ 0 <= z < 2 ^ w;
  ConstInt_ok : ∀ w z, 0 < w → vtype (ConstInt w z) = TInt w ∧ den (ConstInt w z) = Ok (RInt (wrap w z));
  ConstFP_ok : ∀ f, vtype (ConstFP f) = TDouble ∧ den (ConstFP f) = Ok (RFloat f);
  CreateBin_ok : ∀ op a b w, vtype a = TInt w → vtype b = TInt w →
    vtype (CreateBin op a b) = TInt w ∧
    den_int (CreateBin op a b) = do x <- den_int a; do y <- den_int b; exec_bin w op x y;
  CreateICmp_ok : ∀ c a b w, vtype a = TInt w → vtype b = TInt w →
    vtype (CreateICmp c a b) = TInt 1 ∧
    den_int (CreateICmp c a b) = do x <- den_int a; do y <- den_int b; Ok (Z.b2z (exec_cmp w c x y));
  CreateFBin_ok : ∀ op a b, vtype a = TDouble → vtype b = TDouble →
    vtype (CreateFBin op a b) = TDouble ∧
    den_float (CreateFBin op a b) = do x <- den_float a; do y <- den_float b; Ok (fbin op x y);
  CreateFCmp_ok : ∀ c a b, vtype a = TDouble → vtype b = TDouble →
    vtype (CreateFCmp c a b) = TInt 1 ∧
    den_int (CreateFCmp c a b) = do x <- den_float a; do y <- den_float b; Ok (Z.b2z (fcomp c x y));
  CreateFNeg_ok : ∀ a, vtype a = TDouble →
    vtype (CreateFNeg a) = TDouble ∧ den_float (CreateFNeg a) = do x <- den_float a; Ok (fneg x);
  CreateSelect_ok : ∀ c a b w, vtype c = TInt 1 → vtype a = TInt w → vtype b = TInt w →
    vtype (CreateSelect c a b) = TInt w ∧
    den_int (CreateSelect c a b) =
      do x <- den_int c; do y <- den_int a; do z <- den_int b; Ok (if x =? 0 then z else y);
  CreateIfElse_ok : ∀ c a b, vtype c = TInt 1 → vtype a = vtype b →
    vtype (CreateIfElse c a b) = vtype a ∧
    den (CreateIfElse c a b) = do x <- den_int c; if x =? 0 then den b else den a;
  CreateSExtOrTrunc_ok : ∀ a v w, 0 < w → vtype a = TInt v →
    vtype (CreateSExtOrTrunc a w) = TInt w ∧
    den_int (CreateSExtOrTrunc a w) = do x <- den_int a; Ok (wrap w (signed v x));
  CreateSIToFP_ok : ∀ a v, vtype a = TInt v →
    vtype (CreateSIToFP a) = TDouble ∧ den_float (CreateSIToFP a) = do x <- den_int a; Ok (of_int (signed v x));
  CreateFPToSI_ok : ∀ a w, 0 < w → vtype a = TDouble →
    vtype (CreateFPToSI a w) = TInt w ∧
    den_int (CreateFPToSI a w) =
      do f <- den_float a; do z <- of_option Undefined (to_int f);
      check (- 2 ^ (w - 1) <=? z) && (z <? 2 ^ (w - 1)) else Undefined; Ok (wrap w z);
  CreateFPCast_ok : ∀ a, vtype a = TDouble → vtype (CreateFPCast a) = TDouble ∧ den (CreateFPCast a) = den a;
  CreateExtractValue_ok : ∀ a ts i t, vtype a = TStruct ts → ts !! i = Some t →
    vtype (CreateExtractValue a i) = t ∧
    den (CreateExtractValue a i) =
      do r <- den a; match r with RStruct l => of_option Undefined (l !! i) | _ => Err Undefined end;
  CreateStruct_ok : ∀ vs, vtype (CreateStruct vs) = TStruct (vtype <$> vs) ∧
    den (CreateStruct vs) = do rs <- rmapM den vs; Ok (RStruct rs);
  CreateGlobalString_ok : ∀ s, vtype (CreateGlobalString s) = TPtr (TInt 8);
  CreateCall_ok : ∀ f t vs, vtype (CreateCall f t vs) = t ∧
    den (CreateCall f t vs) = do rs <- rmapM den vs; call_sem f t rs;
  CreateRand_ok : ∀ i, vtype (CreateRand i) = TInt 32;
  CreateExpect_ok : ∀ a, vtype a = TInt 1 → vtype (CreateExpect a) = TInt 1 ∧ den (CreateExpect a) = den a;
  CreateLoad_ok : ∀ a t, vtype a = TPtr t → vtype (CreateLoad a) = t;
  CreateSlot_ok : ∀ v, vtype (CreateSlot v) = TPtr (vtype v) ∧ den (CreateLoad (CreateSlot v)) = den v;
  CreateParameter_ok : ∀ i t, vtype (CreateParameter i t) = t;
  CreateGEP_ok : ∀ a b t, vtype a = TPtr t → vtype (CreateGEP a b) = TPtr t
}.
End laws.
#[global] Arguments LangRef F V {_ _}.

(** ** Signed arithmetic

    The generators build signed computations: [computes w v r] says that [v] is a [w]-bit value
    whose code ends as [r], a signed integer or an error. *)

Definition swrap (w x : Z) : Z := signed w (wrap w x).
Definition in_signed (w x : Z) : Prop := - 2 ^ (w - 1) <= x < 2 ^ (w - 1).

Definition sem_bin (w : Z) (op : ibinop) (x y : Z) : res Z :=
  match op with
  | Add => Ok (swrap w (x + y))
  | Sub => Ok (swrap w (x - y))
  | Mul => Ok (swrap w (x * y))
  | SDiv =>
      check negb (y =? 0) else Undefined;
      check negb ((x =? - 2 ^ (w - 1)) && (y =? -1)) else Undefined; Ok (Z.quot x y)
  | SRem =>
      check negb (y =? 0) else Undefined;
      check negb ((x =? - 2 ^ (w - 1)) && (y =? -1)) else Undefined; Ok (Z.rem x y)
  | UDiv => check negb (y =? 0) else Undefined; Ok (swrap w (wrap w x / wrap w y))
  | URem => check negb (y =? 0) else Undefined; Ok (swrap w (wrap w x mod wrap w y))
  | Shl => check wrap w y <? w else Undefined; Ok (swrap w (Z.shiftl x y))
  | LShr => check wrap w y <? w else Undefined; Ok (swrap w (Z.shiftr (wrap w x) y))
  | AShr => check wrap w y <? w else Undefined; Ok (Z.shiftr x y)
  | And => Ok (swrap w (Z.land x y))
  | Or => Ok (swrap w (Z.lor x y))
  | Xor => Ok (swrap w (Z.lxor x y))
  end.

Definition sem_cmp (c : icmp) (x y : Z) : bool :=
  match c with
  | EQ => x =? y | NE => negb (x =? y) | SGT => y <? x | SGE => y <=? x | SLT => x <? y | SLE => x <=? y
  end.

Lemma pow_half w : 0 < w → 2 ^ w = 2 * 2 ^ (w - 1) ∧ 0 < 2 ^ (w - 1).
Proof.
  intros Hw. split; [| apply Z.pow_pos_nonneg; lia]. rewrite <- Z.pow_succ_r by lia. f_equal. lia.
Qed.

Lemma signed_range w x : 0 < w → 0 <= x < 2 ^ w → in_signed w (signed w x).
Proof. intros Hw Hx. pose proof (pow_half w Hw). unfold signed, in_signed. destruct (Z.ltb_spec x (2 ^ (w - 1))); lia. Qed.

Lemma swrap_range w x : 0 < w → in_signed w (swrap w x).
Proof. intros Hw. apply signed_range; [done | apply wrap_range; lia]. Qed.

Lemma wrap_signed w x : 0 < w → 0 <= x < 2 ^ w → wrap w (signed w x) = x.
Proof.
  intros Hw Hx. unfold signed, wrap. destruct (x <? 2 ^ (w - 1)); [by apply Z.mod_small |].
  rewrite <- (Z.mod_add _ 1) by lia. rewrite <- (Z.mod_small x (2 ^ w)) at 2 by done. f_equal. lia.
Qed.

Lemma signed_wrap w x : 0 < w → in_signed w x → signed w (wrap w x) = x.
Proof.
  intros Hw [H1 H2]. pose proof (pow_half w Hw) as [Hp Hq]. unfold signed, wrap.
  destruct (Z.neg_nonneg_cases x) as [Hneg | Hpos].
  - replace (x mod 2 ^ w) with (x + 2 ^ w) by (apply Z.mod_unique_pos with (q := -1); lia).
    rewrite (proj2 (Z.ltb_ge _ _)) by lia. lia.
  - rewrite Z.mod_small by lia. by rewrite (proj2 (Z.ltb_lt _ _)) by lia.
Qed.

Lemma wrap_swrap w x : 0 < w → wrap w (swrap w x) = wrap w x.
Proof. intros Hw. apply wrap_signed; [done |]. apply wrap_range. lia. Qed.

Lemma swrap_id w x : 0 < w → in_signed w x → swrap w x = x.
Proof. apply signed_wrap. Qed.

Lemma wrap_inj w x y : 0 < w → in_signed w x → in_signed w y → wrap w x = wrap w y → x = y.
Proof. intros Hw Hx Hy E. rewrite <- (signed_wrap w x), <- (signed_wrap w y), E by done. done. Qed.

(** Operations commute with wrapping. *)
Lemma wrap_add w x y : wrap w (wrap w x + wrap w y) = wrap w (x + y).
Proof. unfold wrap. symmetry. apply Zplus_mod. Qed.

Lemma wrap_sub w x y : wrap w (wrap w x - wrap w y) = wrap w (x - y).
Proof. unfold wrap. symmetry. apply Zminus_mod. Qed.

Lemma wrap_mul w x y : wrap w (wrap w x * wrap w y) = wrap w (x * y).
Proof. unfold wrap. symmetry. apply Zmult_mod. Qed.

Lemma wrap_land w x y : 0 <= w → Z.land (wrap w x) (wrap w y) = wrap w (Z.land x y).
Proof.
  intros Hw. apply Z.bits_inj'. intros i Hi. rewrite Z.land_spec, !testbit_wrap, Z.land_spec by done. by destruct (i <? w).
Qed.

Lemma wrap_lor w x y : 0 <= w → Z.lor (wrap w x) (wrap w y) = wrap w (Z.lor x y).
Proof.
  intros Hw. apply Z.bits_inj'. intros i Hi. rewrite Z.lor_spec, !testbit_wrap, Z.lor_spec by done. by destruct (i <? w).
Qed.

Lemma wrap_lxor w x y : 0 <= w → Z.lxor (wrap w x) (wrap w y) = wrap w (Z.lxor x y).
Proof.
  intros Hw. apply Z.bits_inj'. intros i Hi. rewrite Z.lxor_spec, !testbit_wrap, Z.lxor_spec by done. by destruct (i <? w).
Qed.

Lemma wrap_eqb w x y : 0 < w → in_signed w x → in_signed w y → (wrap w x =? wrap w y) = (x =? y).
Proof.
  intros Hw Hx Hy. apply eq_true_iff_eq. rewrite !Z.eqb_eq. split; [by apply wrap_inj | by intros ->].
Qed.

Lemma wrap_eqb_0 w x : 0 < w → in_signed w x → (wrap w x =? 0) = (x =? 0).
Proof.
  intros Hw Hx. pose proof (pow_half w Hw). rewrite <- (wrap_eqb w x 0) by (try done; unfold in_signed; lia). done.
Qed.

Lemma quot_in_signed w x y : in_signed w x → y ≠ 0 → (x = - 2 ^ (w - 1) ∧ y = -1 → False) → in_signed w (Z.quot x y).
Proof.
  unfold in_signed. set (h := 2 ^ (w - 1)). intros Hx Hy Hn.
  assert (Z.abs (Z.quot x y) = Z.abs x / Z.abs y) as Ha by (rewrite <- Z.quot_abs by done; apply Z.quot_div_nonneg; lia).
  assert (Z.abs x / Z.abs y <= Z.abs x) by (apply Z.div_le_upper_bound; nia).
  destruct (decide (y = 1)) as [-> |]; [rewrite Z.quot_1_r; lia |].
  destruct (decide (y = -1)) as [-> |].
  { change (-1) with (- (1)). rewrite Z.quot_opp_r, Z.quot_1_r by lia. lia. }
  assert (Z.abs x / Z.abs y <= Z.abs x / 2) by (apply Z.div_le_compat_l; lia).
  assert (x = - h → Z.abs x / 2 < h) by (intros ->; apply Z.div_lt_upper_bound; lia).
  destruct (decide (x = - h)); [lia |]. lia.
Qed.

Lemma rem_in_signed w x y : in_signed w x → y ≠ 0 → in_signed w (Z.rem x y).
Proof.
  unfold in_signed. intros Hx Hy. destruct (Z.neg_nonneg_cases x) as [Hn | Hp].
  - pose proof (Z.rem_nonpos x y Hy ltac:(lia)). pose proof (Z.rem_le (- x) (Z.abs y) ltac:(lia) ltac:(lia)) as Hle.
    rewrite Z.rem_opp_l, Z.rem_abs_r in Hle by lia. lia.
  - pose proof (Z.rem_nonneg x y Hy ltac:(lia)). pose proof (Z.rem_le x (Z.abs y) ltac:(lia) ltac:(lia)) as Hle.
    rewrite Z.rem_abs_r in Hle by lia. lia.
Qed.

Lemma shiftr_in_signed w x y : 0 < w → in_signed w x → 0 <= y → in_signed w (Z.shiftr x y).
Proof.
  unfold in_signed. intros Hw Hx Hy. rewrite Z.shiftr_div_pow2 by done.
  assert (1 <= 2 ^ y) by (pose proof (Z.pow_pos_nonneg 2 y); lia).
  split; [apply Z.div_le_lower_bound; nia | apply Z.div_lt_upper_bound; nia].
Qed.

Lemma sem_bin_range w op x y z : 0 < w → in_signed w x → in_signed w y → sem_bin w op x y = Ok z → in_signed w z.
Proof.
  intros Hw Hx Hy. destruct op; simpl; intros E; res_inv; try (by apply swrap_range);
    repeat match goal with H : negb _ = true |- _ => apply negb_true_iff in H end.
  - apply Z.eqb_neq in Hchk. apply quot_in_signed; try done. intros [-> ->].
    rewrite !Z.eqb_refl in Hchk0. done.
  - apply Z.eqb_neq in Hchk. by apply rem_in_signed.
  - apply Z.ltb_lt in Hchk. apply shiftr_in_signed; try done.
    destruct (Z.neg_nonneg_cases y); [| done]. exfalso. pose proof (pow_half w Hw) as [Hp Hq]. unfold in_signed in Hy.
    unfold wrap in Hchk. rewrite <- (Z.mod_add _ 1), Z.mod_small in Hchk by lia.
    pose proof (Z.pow_gt_lin_r 2 (w - 1) ltac:(lia) ltac:(lia)). lia.
Qed.

(** Dividing does not leave the range. *)
Lemma udiv_range a b n : 0 <= a < n → 0 < b → 0 <= a / b < n.
Proof.
  intros Ha Hb. split; [apply Z.div_pos; lia |]. eapply Z.le_lt_trans; [apply Z.div_le_upper_bound with (q := a); nia | lia].
Qed.

Lemma wrap_pos w y : 0 < w → in_signed w y → (y =? 0) = false → 0 < wrap w y.
Proof.
  intros Hw Hy E. pose proof (wrap_range w y ltac:(lia)). rewrite <- (wrap_eqb_0 w y Hw Hy) in E. apply Z.eqb_neq in E. lia.
Qed.

Lemma small_shift w y : 0 < w → in_signed w y → wrap w y < w → wrap w y = y.
Proof.
  intros Hw [H1 H2] Hlt. pose proof (pow_half w Hw) as [Hp Hq]. destruct (Z.neg_nonneg_cases y); [| apply wrap_id; lia].
  exfalso. unfold wrap in Hlt. rewrite <- (Z.mod_add _ 1), Z.mod_small in Hlt by lia.
  pose proof (Z.pow_gt_lin_r 2 (w - 1) ltac:(lia) ltac:(lia)). lia.
Qed.

(** An instruction on unsigned readings is the signed operation. *)
Lemma exec_sem_bin w op x y : 0 < w → in_signed w x → in_signed w y →
  exec_bin w op (wrap w x) (wrap w y) = do z <- sem_bin w op x y; Ok (wrap w z).
Proof.
  intros Hw Hx Hy. pose proof (pow_half w Hw) as [Hp Hq].
  destruct op; simpl; rewrite ?wrap_eqb_0, ?signed_wrap by done; simpl;
    repeat match goal with |- context [negb ?b] => destruct b eqn:?; simpl; try done end;
    rewrite ?wrap_swrap by done.
  - by rewrite wrap_add.
  - by rewrite wrap_sub.
  - by rewrite wrap_mul.
  - f_equal. symmetry. apply wrap_id, udiv_range; [apply wrap_range; lia | by apply wrap_pos].
  - f_equal. symmetry. apply wrap_id. pose proof (wrap_pos w y Hw Hy ltac:(done)).
    pose proof (wrap_range w y ltac:(lia)). pose proof (Z.mod_pos_bound (wrap w x) (wrap w y) ltac:(lia)). lia.
  - destruct (Z.ltb_spec (wrap w y) w) as [Hlt |]; [| done]. simpl. rewrite wrap_swrap by done. f_equal.
    pose proof (wrap_range w y ltac:(lia)). rewrite !(small_shift w y Hw Hy Hlt) in *.
    rewrite !Z.shiftl_mul_pow2 by lia. unfold wrap. by rewrite Z.mul_mod_idemp_l by lia.
  - destruct (Z.ltb_spec (wrap w y) w) as [Hlt |]; [| done]. simpl. rewrite wrap_swrap by done. f_equal.
    pose proof (wrap_range w y ltac:(lia)). rewrite !(small_shift w y Hw Hy Hlt) in *.
    symmetry. apply wrap_id. rewrite Z.shiftr_div_pow2 by lia.
    apply udiv_range; [apply wrap_range; lia | apply Z.pow_pos_nonneg; lia].
  - destruct (Z.ltb_spec (wrap w y) w) as [Hlt |]; [| done]. simpl. by rewrite !(small_shift w y Hw Hy Hlt) in *.
  - by rewrite wrap_land by lia.
  - by rewrite wrap_lor by lia.
  - by rewrite wrap_lxor by lia.
Qed.

Section computes.
Context {F V : Type} `{FloatOps F, IRBuilder F V, !LangRef F V}.

Definition computes (w : Z) (v : V) (r : res Z) : Prop :=
  vtype v = TInt w ∧ den_int v = (do s <- r; Ok (wrap w s)) ∧ ∀ s, r = Ok s → in_signed w s.

(** A one-bit value is a truth value. *)
Definition decides (v : V) (r : res bool) : Prop :=
  vtype v = TInt 1 ∧ den_int v = do b <- r; Ok (Z.b2z b).

Lemma computes_const w z : 0 < w → in_signed w z → computes w (ConstInt w z) (Ok z).
Proof.
  intros Hw Hz. destruct (ConstInt_ok w z Hw) as [Ht Hd]. split; [done |]. unfold den_int. rewrite Hd. simpl.
  split; [done |]. by intros s [= <-].
Qed.

Lemma decides_const b : decides (ConstInt 1 (Z.b2z b)) (Ok b).
Proof. destruct (ConstInt_ok 1 (Z.b2z b)) as [Ht Hd]; [lia |]. split; [done |]. unfold den_int. rewrite Hd. by destruct b. Qed.

Lemma computes_bin w op a b ra rb : 0 < w → computes w a ra → computes w b rb →
  computes w (CreateBin op a b) (do x <- ra; do y <- rb; sem_bin w op x y).
Proof.
  intros Hw (Ta & Da & Ra) (Tb & Db & Rb). destruct (CreateBin_ok op a b w Ta Tb) as [Ht Hd].
  split; [done |]. rewrite Hd, Da, Db. destruct ra as [x | ea]; simpl; [| done]. destruct rb as [y | eb]; simpl; [| done].
  rewrite exec_sem_bin by auto. split; [done |]. intros s Es. apply (sem_bin_range w op x y); auto.
Qed.

Lemma decides_cmp w c a b ra rb : 0 < w → computes w a ra → computes w b rb →
  decides (CreateICmp c a b) (do x <- ra; do y <- rb; Ok (sem_cmp c x y)).
Proof.
  intros Hw (Ta & Da & Ra) (Tb & Db & Rb). destruct (CreateICmp_ok c a b w Ta Tb) as [Ht Hd].
  split; [done |]. rewrite Hd, Da, Db. destruct ra as [x | ea]; simpl; [| done]. destruct rb as [y | eb]; simpl; [| done].
  f_equal. unfold exec_cmp, sem_cmp. destruct c; rewrite ?wrap_eqb, ?signed_wrap by auto; done.
Qed.

(** Comparing two truth values for equality. *)
Lemma decides_cmp_bool c a b ra rb : c = EQ ∨ c = NE → decides a ra → decides b rb →
  decides (CreateICmp c a b) (do x <- ra; do y <- rb; Ok (sem_cmp c (Z.b2z x) (Z.b2z y))).
Proof.
  intros Hc (Ta & Da) (Tb & Db). destruct (CreateICmp_ok c a b 1 Ta Tb) as [Ht Hd].
  split; [done |]. rewrite Hd, Da, Db. destruct ra as [x | ea]; simpl; [| done]. destruct rb as [y | eb]; simpl; [| done].
  by destruct Hc as [-> | ->].
Qed.

Definition bool_op (op : ibinop) : option (bool → bool → bool) :=
  match op with And => Some andb | Or => Some orb | Xor => Some xorb | _ => None end.

Lemma decides_bin op f a b ra rb : bool_op op = Some f → decides a ra → decides b rb →
  decides (CreateBin op a b) (do x <- ra; do y <- rb; Ok (f x y)).
Proof.
  intros Hop (Ta & Da) (Tb & Db). destruct (CreateBin_ok op a b 1 Ta Tb) as [Ht Hd].
  split; [done |]. rewrite Hd, Da, Db. destruct ra as [x | ea]; simpl; [| done]. destruct rb as [y | eb]; simpl; [| done].
  destruct op; try done; injection Hop as <-; by destruct x, y.
Qed.

Lemma computes_select w c a b rc x y : decides c (Ok rc) → computes w a (Ok x) → computes w b (Ok y) →
  computes w (CreateSelect c a b) (Ok (if rc then x else y)).
Proof.
  intros (Tc & Dc) (Ta & Da & Ra) (Tb & Db & Rb). destruct (CreateSelect_ok c a b w Tc Ta Tb) as [Ht Hd].
  split; [done |]. rewrite Hd, Dc, Da, Db. simpl. destruct rc; simpl; (split; [done |]); intros s [= <-]; auto.
Qed.

Lemma computes_sext v w a ra : 0 < v → 0 < w → computes v a ra →
  computes w (CreateSExtOrTrunc a w) (do x <- ra; Ok (swrap w x)).
Proof.
  intros Hv Hw (Ta & Da & Ra). destruct (CreateSExtOrTrunc_ok a v w Hw Ta) as [Ht Hd].
  split; [done |]. rewrite Hd, Da. destruct ra as [x | ea]; simpl; [| done]. rewrite signed_wrap, wrap_swrap by auto.
  split; [done |]. intros s [= <-]. by apply swrap_range.
Qed.

Lemma den_of_int w v r : computes w v r → den v = do s <- r; Ok (RInt (wrap w s)).
Proof.
  intros (Ht & Hd & _). unfold den_int in Hd. destruct (den v) as [x | e] eqn:E; simpl in Hd.
  - destruct (den_typed v w x Ht E) as (z & -> & _). simpl in Hd. destruct r; simpl in *; congruence.
  - destruct r; simpl in *; congruence.
Qed.

Lemma den_of_bool v r : decides v r → den v = do b <- r; Ok (RInt (Z.b2z b)).
Proof.
  intros (Ht & Hd). unfold den_int in Hd. destruct (den v) as [x | e] eqn:E; simpl in Hd.
  - destruct (den_typed v 1 x Ht E) as (z & -> & _). simpl in Hd. destruct r; simpl in *; congruence.
  - destruct r; simpl in *; congruence.
Qed.

(** The conditional takes one branch and leaves the other alone. *)
Lemma computes_ifelse w c a b rc ra rb : decides c rc → computes w a ra → computes w b rb →
  computes w (CreateIfElse c a b) (do x <- rc; if x then ra else rb).
Proof.
  intros Hc Ha Hb. pose proof Ha as (Ta & Da & Ra). pose proof Hb as (Tb & Db & Rb). destruct Hc as [Tc Dc].
  destruct (CreateIfElse_ok c a b Tc) as [Ht Hd]; [congruence |]. split; [congruence |].
  unfold den_int. rewrite Hd, Dc. destruct rc as [x | e]; simpl; [| done].
  destruct x; simpl; [rewrite (den_of_int w a ra Ha) | rewrite (den_of_int w b rb Hb)]; (split; [| done]); by destruct ra, rb.
Qed.

Lemma decides_ifelse c a b rc ra rb : decides c rc → decides a ra → decides b rb →
  decides (CreateIfElse c a b) (do x <- rc; if x then ra else rb).
Proof.
  intros Hc Ha Hb. pose proof Ha as (Ta & Da). pose proof Hb as (Tb & Db). destruct Hc as [Tc Dc].
  destruct (CreateIfElse_ok c a b Tc) as [Ht Hd]; [congruence |]. split; [congruence |].
  unfold den_int. rewrite Hd, Dc. destruct rc as [x | e]; simpl; [| done].
  destruct x; simpl; [rewrite (den_of_bool a ra Ha) | rewrite (den_of_bool b rb Hb)]; by destruct ra, rb.
Qed.

End computes.

(** ** An interpreter *)

Module Interp.
Section interp.
Context {F : Type} `{FloatOps F}.

Fixpoint conforms (t : llvm_type) (r : rt F) : bool :=
  match t, r with
  | TInt w, RInt z => (0 <=? z) && (z <? 2 ^ w)
  | TInt _, _ => false
  | TDouble, RFloat _ => true
  | TDouble, _ => false
  | TPtr _, _ => true
  | TStruct ts, RStruct l =>
      (fix go (ts : list llvm_type) (l : list (rt F)) : bool :=
         match ts, l with
         | [], [] => true
         | t :: ts', r :: l' => conforms t r && go ts' l'
         | _, _ => false
         end) ts l
  | TStruct _, _ => false
  end.

Definition V : Type := llvm_type * res (rt F).

Definition run (v : V) : res (rt F) := do r <- v.2; check conforms v.1 r else Undefined; Ok r.
Definition run_int (v : V) : res Z := do r <- run v; as_int r.
Definition run_float (v : V) : res F := do r <- run v; as_float r.
Definition int (t : llvm_type) (r : res Z) : V := (t, do z <- r; Ok (RInt z)).
Definition float (r : res F) : V := (TDouble, do f <- r; Ok (RFloat f)).
Definition width (v : V) : Z := match v.1 with TInt w => w | _ => 0 end.
Definition calls (f : string) (t : llvm_type) (rs : list (rt F)) : res (rt F) :=
  match rs with
  | [r] => check conforms t r else Undefined; Ok r
  | _ => Err Undefined
  end.

#[export] Instance interp : IRBuilder F V := {|
  vtype v := v.1;
  den := run;
  call_sem := calls;
  ConstInt w z := int (TInt w) (Ok (wrap w z));
  ConstFP f := float (Ok f);
  CreateBin op a b := int a.1 (do x <- run_int a; do y <- run_int b; exec_bin (width a) op x y);
  CreateICmp c a b := int (TInt 1) (do x <- run_int a; do y <- run_int b; Ok (Z.b2z (exec_cmp (width a) c x y)));
  CreateFBin op a b := float (do x <- run_float a; do y <- run_float b; Ok (fbin op x y));
  CreateFCmp c a b := int (TInt 1) (do x <- run_float a; do y <- run_float b; Ok (Z.b2z (fcomp c x y)));
  CreateFNeg a := float (do x <- run_float a; Ok (fneg x));
  CreateSelect c a b := int a.1 (do x <- run_int c; do y <- run_int a; do z <- run_int b; Ok (if x =? 0 then z else y));
  CreateIfElse c a b := (a.1, do x <- run_int c; if x =? 0 then run b else run a);
  CreateSExtOrTrunc a w := int (TInt w) (do x <- run_int a; Ok (wrap w (signed (width a) x)));
  CreateSIToFP a := float (do x <- run_int a; Ok (of_int (signed (width a) x)));
  CreateFPToSI a w := int (TInt w)
    (do f <- run_float a; do z <- of_option Undefined (to_int f);
     check (- 2 ^ (w - 1) <=? z) && (z <? 2 ^ (w - 1)) else Undefined; Ok (wrap w z));
  CreateFPCast a := a;
  CreateExtractValue a i :=
    (match a.1 with TStruct ts => default TDouble (ts !! i) | _ => TDouble end,
     do r <- run a; match r with RStruct l => of_option Undefined (l !! i) | _ => Err Undefined end);
  CreateStruct vs := (TStruct (vs.*1), do rs <- rmapM run vs; Ok (RStruct rs));
  CreateGlobalString s := (TPtr (TInt 8), Ok (RPtr 0));
  CreateCall f t vs := (t, do rs <- rmapM run vs; calls f t rs);
  CreateRand i := int (TInt 32) (Ok (wrap 32 (Z.of_nat i)));
  CreateExpect a := a;
  CreateLoad a := (match a.1 with TPtr t => t | _ => TDouble end,
                   do r <- run a; match r with RStruct [x] => Ok x | _ => Err Undefined end);
  CreateSlot v := (TPtr v.1, do r <- run v; Ok (RStruct [r]));
  CreateParameter i t := (t, Err Undefined);
  CreateGEP a b := (a.1, Err Undefined)
|}.

Lemma run_typed (v : V) r : run v = Ok r → conforms v.1 r = true.
Proof. unfold run. intros (x & E & Hx)%rbind_Ok_inv. destruct (conforms v.1 x) eqn:Ec; congruence. Qed.

Lemma run_id t r : (∀ x, r = Ok x → conforms t x = true) → run (t, r) = r.
Proof. intros Hr. unfold run. simpl. destruct r as [x | e]; [| done]. simpl. by rewrite Hr. Qed.

Lemma run_int_range (v : V) w z : v.1 = TInt w → run_int v = Ok z → 0 <= z < 2 ^ w.
Proof.
  unfold run_int. intros Ht (r & Hr%run_typed & Hz)%rbind_Ok_inv. rewrite Ht in Hr.
  destruct r; try done. injection Hz as ->. simpl in Hr. apply andb_true_iff in Hr as [?%Z.leb_le ?%Z.ltb_lt]. lia.
Qed.

(** An integer result in range is what running the instruction gives. *)
Lemma run_int_int w r : (∀ z, r = Ok z → 0 <= z < 2 ^ w) → run_int (int (TInt w) r) = r.
Proof.
  intros Hr. unfold run_int, int. rewrite run_id.
  - by destruct r.
  - intros x (z & -> & [= <-])%rbind_Ok_inv. simpl. specialize (Hr z eq_refl).
    by rewrite (proj2 (Z.leb_le _ _)), (proj2 (Z.ltb_lt _ _)) by lia.
Qed.

Lemma run_float_float r : run_float (float r) = r.
Proof. unfold run_float, float. rewrite run_id; [by destruct r |]. by intros x (z & -> & [= <-])%rbind_Ok_inv. Qed.

Lemma b2z_range b : 0 <= Z.b2z b < 2 ^ 1.
Proof. destruct b; simpl; lia. Qed.

Lemma lxor_range a b n : 0 <= n → 0 <= a < 2 ^ n → 0 <= b < 2 ^ n → 0 <= Z.lxor a b < 2 ^ n.
Proof.
  intros Hn Ha Hb. assert (Z.lxor a b = wrap n (Z.lxor a b)) as ->; [bits_eq | by apply wrap_range].
Qed.

Lemma exec_bin_range w op x y z : 0 <= x < 2 ^ w → 0 <= y < 2 ^ w → exec_bin w op x y = Ok z → 0 <= z < 2 ^ w.
Proof.
  intros Hx Hy. assert (0 <= w) as Hw by (destruct (Z.neg_nonneg_cases w); [rewrite Z.pow_neg_r in Hx by done; lia | done]).
  pose proof (λ z, wrap_range w z Hw) as Hwr.
  destruct op; simpl; intros E; res_inv; try apply Hwr.
  - apply negb_true_iff, Z.eqb_neq in Hchk. apply udiv_range; lia.
  - apply negb_true_iff, Z.eqb_neq in Hchk. pose proof (Z.mod_pos_bound x y ltac:(lia)). lia.
  - rewrite Z.shiftr_div_pow2 by lia. apply udiv_range; [lia | apply Z.pow_pos_nonneg; lia].
  - pose proof (land_range x y ltac:(lia)). lia.
  - by apply lor_range.
  - by apply lxor_range.
Qed.

Lemma conforms_struct ts l : conforms (TStruct ts) (RStruct l) = true ↔ Forall2 (λ t r, conforms t r = true) ts l.
Proof.
  revert l. induction ts as [| t ts IH]; intros [| r l]; simpl; try (split; [done | by inversion 1]).
  rewrite andb_true_iff. simpl in IH. rewrite IH. split; [intros []; by constructor | by inversion 1].
Qed.

Lemma rmapM_run vs rs : rmapM run vs = Ok rs → Forall2 (λ t r, conforms t r = true) (vs.*1) rs.
Proof.
  intros Hm%rmapM_Ok. induction Hm as [| v r vs rs Hv _ IH]; simpl; constructor; [by apply run_typed | done].
Qed.

(** Both integer operands of an instruction of width [w] are in range. *)
Lemma bin_range (a b : V) w op : a.1 = TInt w → b.1 = TInt w →
  ∀ z, (do x <- run_int a; do y <- run_int b; exec_bin w op x y) = Ok z → 0 <= z < 2 ^ w.
Proof.
  intros Ha Hb z (x & Ex & (y & Ey & E)%rbind_Ok_inv)%rbind_Ok_inv.
  apply (exec_bin_range w op x y z); [by apply (run_int_range a) | by apply (run_int_range b) | done].
Qed.

#[export] Instance interp_laws : LangRef F V.
Proof.
  constructor.
  - intros v w r Ht Hr%run_typed. simpl in Ht. rewrite Ht in Hr. destruct r as [z | | |]; try done. simpl in Hr.
    apply andb_true_iff in Hr as [?%Z.leb_le ?%Z.ltb_lt]. eauto.
  - intros w z Hw. split; [done |]. simpl. unfold int. rewrite run_id; [done |]. intros x [= <-]. simpl.
    pose proof (wrap_range w z ltac:(lia)). by rewrite (proj2 (Z.leb_le _ _)), (proj2 (Z.ltb_lt _ _)) by lia.
  - intros f. split; [done |]. simpl. unfold float. rewrite run_id; [done |]. by intros x [= <-].
  - intros op a b w Ha Hb. simpl in *. split; [done |]. unfold width. rewrite Ha. by apply run_int_int, bin_range.
  - intros c a b w Ha Hb. split; [done |]. simpl in *. unfold width. rewrite Ha. apply run_int_int.
    intros z (x & _ & (y & _ & [= <-])%rbind_Ok_inv)%rbind_Ok_inv. apply b2z_range.
  - intros op a b Ha Hb. split; [done |]. apply run_float_float.
  - intros c a b Ha Hb. split; [done |]. simpl in *. apply run_int_int.
    intros z (x & _ & (y & _ & [= <-])%rbind_Ok_inv)%rbind_Ok_inv. apply b2z_range.
  - intros a Ha. split; [done |]. apply run_float_float.
  - intros c a b w Hc Ha Hb. simpl in *. split; [done |]. rewrite Ha. apply run_int_int.
    intros z (x & _ & (y & Ey & (u & Eu & [= <-])%rbind_Ok_inv)%rbind_Ok_inv)%rbind_Ok_inv.
    destruct (x =? 0); [by apply (run_int_range b) | by apply (run_int_range a)].
  - intros c a b Hc Hab. simpl in *. split; [done |]. rewrite run_id; [done |].
    intros r (x & _ & E)%rbind_Ok_inv. destruct (x =? 0); [rewrite Hab |]; by apply run_typed.
  - intros a v w Hw Ha. simpl in *. split; [done |]. unfold width. rewrite Ha. apply run_int_int.
    intros z (x & _ & [= <-])%rbind_Ok_inv. apply wrap_range. lia.
  - intros a v Ha. simpl in *. split; [done |]. unfold width. rewrite Ha. apply run_float_float.
  - intros a w Hw Ha. simpl in *. split; [done |]. apply run_int_int.
    intros z (f & _ & (u & _ & E)%rbind_Ok_inv)%rbind_Ok_inv. res_inv. apply wrap_range. lia.
  - done.
  - intros a ts i t Ha Ht. simpl in *. rewrite Ha, Ht. split; [done |]. simpl. rewrite run_id; [done |].
    intros x (r & Er%run_typed & E)%rbind_Ok_inv. rewrite Ha in Er. destruct r as [| | | l]; try done.
    apply of_option_Ok in E. apply conforms_struct in Er. by eapply Forall2_lookup_lr in Er.
  - intros vs. simpl. split; [done |]. rewrite run_id; [done |].
    intros x (rs & E%rmapM_run & [= <-])%rbind_Ok_inv. by apply conforms_struct.
  - done.
  - intros f t vs. split; [done |]. simpl. rewrite run_id; [done |].
    intros x (rs & _ & E)%rbind_Ok_inv. unfold calls in E. destruct rs as [| r [|]]; try done.
    by destruct (conforms t r) eqn:Ec; [injection E as <- |].
  - done.
  - done.
  - intros a t Ha. simpl in *. by rewrite Ha.
  - intros v. split; [done |]. simpl. rewrite (run_id (TPtr v.1)) by (by destruct (run v)).
    destruct (run v) as [x | e] eqn:Ev; [| done]. simpl. apply run_id. intros y [= <-]. by apply run_typed.
  - done.
  - done.
Qed.

End interp.

(** Doubles restricted to the integers, enough to run the examples. *)
#[export] Instance integral_floats : FloatOps Z := {|
  fbin op := match op with FAdd => Z.add | FSub => Z.sub | FMul => Z.mul | FDiv => Z.quot | FRem => Z.rem end;
  fcomp c x y := match c with FOEQ => x =? y | FONE => negb (x =? y) | FOGT => y <? x | FOGE => y <=? x | FOLT => x <? y | FOLE => x <=? y end;
  fneg := Z.opp; of_int z := z; to_int z := Some z; finf b := if b : bool then - 2 ^ 1024 else 2 ^ 1024; f_zero := 0; f_one := 1
|}.

End Interp.
