(* ===== verification/Expressions.v ===== *)
(** * Expressions: the expression language of the analytical engine
    ([olap/expressions/expressions.hpp], [binary-operators.hpp], [expressions.cpp],
    [ref-expression.cpp], [monoids.hpp]).

    The classes of expressions are the constructors of [expr]; the type a constructor of the
    source passes to its base is [getExpressionType], and its assertions and casts are in the
    [make_] functions.  [expr_lt] is [Expression::operator<], by which the cache of the engine
    finds its keys. *)

From S2P Require Import Prelude ExprTypes LLVM.
From Stdlib Require Import ZArith Lia Bool.
From stdpp Require Import base numbers list strings.

Local Open Scope Z_scope.
Local Open Scope res_scope.

Module Expressions.
Import ExprTypes.

Inductive ExpressionId : Type :=
  CONSTANT | RAWVALUE | ARGUMENT | RECORD_PROJECTION | RECORD_CONSTRUCTION | IF_THEN_ELSE | BINARY | EXPRESSION_RAND
  | EXPRESSION_HINT | EXPRESSION_HASHER | TESTNULL_EXPRESSION | EXTRACT | NEG_EXPRESSION | CAST_EXPRESSION
  | REF_EXPRESSION | ASSIGN_EXPRESSION | PLACEHOLDER.

(** The value of the enumerator. *)
Definition id_number (i : ExpressionId) : Z :=
  match i with
  | CONSTANT => 0 | RAWVALUE => 1 | ARGUMENT => 2 | RECORD_PROJECTION => 3 | RECORD_CONSTRUCTION => 4
  | IF_THEN_ELSE => 5 | BINARY => 6 | EXPRESSION_RAND => 7 | EXPRESSION_HINT => 8 | EXPRESSION_HASHER => 9
  | TESTNULL_EXPRESSION => 10 | EXTRACT => 11 | NEG_EXPRESSION => 12 | CAST_EXPRESSION => 13
  | REF_EXPRESSION => 14 | ASSIGN_EXPRESSION => 15 | PLACEHOLDER => 16
  end.

Inductive opID : Type :=
  OpEQ | OpNEQ | OpGE | OpGT | OpLE | OpLT | OpADD | OpSUB | OpMULT | OpDIV | OpAND | OpOR | OpMAX | OpMIN | OpMOD
  | OpSHL | OpLSHR | OpASHR | OpXOR.

#[export] Instance opID_eq_dec : EqDecision opID.
Proof. solve_decision. Defined.

Inductive extract_unit : Type :=
  MILLISECOND | SECOND | MINUTE | HOUR | DAYOFWEEK | ISO_DAYOFWEEK | DAYOFMONTH | DAYOFYEAR | WEEK | MONTH | QUARTER
  | YEAR | ISO_YEAR | DECADE | CENTURY | MILLENNIUM.

Inductive Monoid : Type := SUM | MULTIPLY | MAX | MIN | OR | AND | UNION | BAGUNION | APPEND.

Record ProteusValue (V : Type) : Type := mk_pv { value : V; isNull : V }.
#[global] Arguments mk_pv {V}.
#[global] Arguments value {V}.
#[global] Arguments isNull {V}.

Section expressions.
Context {F V : Type}.

Inductive expr : Type :=
  | IntConstant (val : Z)
  | Int64Constant (val : Z)
  | DateConstant (val : Z)
  | FloatConstant (val : F)
  | BoolConstant (val : bool)
  | StringConstant (val : string)
  | DStringConstant (val : Z) (dictionary : option (list (Z * string)))
  | InputArgument (args : list RecordAttribute) (argNo : Z)
  | RecordProjection (e : expr) (attribute : RecordAttribute)
  | RecordConstruction (atts : list (string * expr))
  | IfThenElse (c t e : expr)
  | Binary (op : opID) (lhs rhs : expr)
  | PlaceholderExpression (type : ExpressionType) (index : Z)
  | ProteusValueExpression (type : ExpressionType) (v : ProteusValue V)
  | HintExpression (e : expr)
  | HashExpression (e : expr)
  | RandExpression
  | NegExpression (e : expr)
  | TestNullExpression (e : expr) (nullTest : bool)
  | ExtractExpression (e : expr) (unit : extract_unit)
  | CastExpression (cast_to : ExpressionType) (e : expr)
  | RefExpression (ptr : expr)
  | AssignExpression (ptr : expr) (v : expr).

Section expr_ind.
Context (P : expr → Prop).
Hypothesis (HInt : ∀ z, P (IntConstant z)) (HInt64 : ∀ z, P (Int64Constant z)) (HDate : ∀ z, P (DateConstant z))
  (HFloat : ∀ f, P (FloatConstant f)) (HBool : ∀ b, P (BoolConstant b)) (HString : ∀ s, P (StringConstant s))
  (HDString : ∀ z d, P (DStringConstant z d)) (HArg : ∀ a n, P (InputArgument a n))
  (HProj : ∀ e a, P e → P (RecordProjection e a))
  (HRec : ∀ l, Forall (λ x, P x.2) l → P (RecordConstruction l))
  (HIf : ∀ c t e, P c → P t → P e → P (IfThenElse c t e))
  (HBin : ∀ op l r, P l → P r → P (Binary op l r))
  (HPlace : ∀ t i, P (PlaceholderExpression t i)) (HPV : ∀ t v, P (ProteusValueExpression t v))
  (HHint : ∀ e, P e → P (HintExpression e)) (HHash : ∀ e, P e → P (HashExpression e)) (HRand : P RandExpression)
  (HNeg : ∀ e, P e → P (NegExpression e)) (HTest : ∀ e b, P e → P (TestNullExpression e b))
  (HExtract : ∀ e u, P e → P (ExtractExpression e u)) (HCast : ∀ t e, P e → P (CastExpression t e))
  (HRef : ∀ e, P e → P (RefExpression e)) (HAssign : ∀ p v, P p → P v → P (AssignExpression p v)).

Fixpoint expr_ind' (e : expr) : P e :=
  match e with
  | IntConstant z => HInt z | Int64Constant z => HInt64 z | DateConstant z => HDate z | FloatConstant f => HFloat f
  | BoolConstant b => HBool b | StringConstant s => HString s | DStringConstant z d => HDString z d
  | InputArgument a n => HArg a n
  | RecordProjection e a => HProj e a (expr_ind' e)
  | RecordConstruction l => HRec l
      ((fix go (l : list (string * expr)) : Forall (λ x, P x.2) l :=
          match l with
          | [] => Forall_nil_2 _
          | x :: l' => Forall_cons_2 _ x l' (expr_ind' x.2) (go l')
          end) l)
  | IfThenElse c t e => HIf c t e (expr_ind' c) (expr_ind' t) (expr_ind' e)
  | Binary op l r => HBin op l r (expr_ind' l) (expr_ind' r)
  | PlaceholderExpression t i => HPlace t i
  | ProteusValueExpression t v => HPV t v
  | HintExpression e => HHint e (expr_ind' e)
  | HashExpression e => HHash e (expr_ind' e)
  | RandExpression => HRand
  | NegExpression e => HNeg e (expr_ind' e)
  | TestNullExpression e b => HTest e b (expr_ind' e)
  | ExtractExpression e u => HExtract e u (expr_ind' e)
  | CastExpression t e => HCast t e (expr_ind' e)
  | RefExpression e => HRef e (expr_ind' e)
  | AssignExpression p v => HAssign p v (expr_ind' p) (expr_ind' v)
  end.
End expr_ind.

Definition getTypeID (e : expr) : ExpressionId :=
  match e with
  | IntConstant _ | Int64Constant _ | DateConstant _ | FloatConstant _ | BoolConstant _ | StringConstant _
  | DStringConstant _ _ => CONSTANT
  | InputArgument _ _ => ARGUMENT
  | RecordProjection _ _ => RECORD_PROJECTION
  | RecordConstruction _ => RECORD_CONSTRUCTION
  | IfThenElse _ _ _ => IF_THEN_ELSE
  | Binary _ _ _ => BINARY
  | PlaceholderExpression _ _ => PLACEHOLDER
  | ProteusValueExpression _ _ => RAWVALUE
  | HintExpression _ => EXPRESSION_HINT
  | HashExpression _ => EXPRESSION_HASHER
  | RandExpression => EXPRESSION_RAND
  | NegExpression _ => NEG_EXPRESSION
  | TestNullExpression _ _ => TESTNULL_EXPRESSION
  | ExtractExpression _ _ => EXTRACT
  | CastExpression _ _ => CAST_EXPRESSION
  | RefExpression _ => REF_EXPRESSION
  | AssignExpression _ _ => ASSIGN_EXPRESSION
  end.

(** [createReturnType]: [None] where it throws. *)
Definition createReturnType (u : extract_unit) : option ExpressionType :=
  match u with
  | SECOND | MINUTE | HOUR | DAYOFWEEK | DAYOFMONTH | DAYOFYEAR | WEEK | MONTH | QUARTER | YEAR | MILLENNIUM | CENTURY
  | DECADE => Some IntType
  | MILLISECOND | ISO_DAYOFWEEK | ISO_YEAR => None
  end.

(** The type each class passes to its base.  An extraction whose unit has no type and a
    reference to something that is not a sequence are not constructed. *)
Fixpoint getExpressionType (e : expr) : ExpressionType :=
  match e with
  | IntConstant _ => IntType | Int64Constant _ => Int64Type | DateConstant _ => DateType | FloatConstant _ => FloatType
  | BoolConstant _ => BoolType | StringConstant _ => StringType | DStringConstant _ d => DStringType d
  | InputArgument args _ => RecordType args
  | RecordProjection _ a => type a
  | RecordConstruction l => RecordType ((λ x, mk_attr "tmp" x.1 "tmp" (getExpressionType x.2) (-1) false) <$> l)
  | IfThenElse _ t _ => getExpressionType t
  | Binary op l r =>
      match op with
      | OpEQ | OpNEQ | OpGE | OpGT | OpLE | OpLT => BoolType
      | OpMOD => getExpressionType r
      | _ => getExpressionType l
      end
  | PlaceholderExpression t _ => t
  | ProteusValueExpression t _ => t
  | HintExpression e => getExpressionType e
  | HashExpression _ => Int64Type
  | RandExpression => IntType
  | NegExpression e => getExpressionType e
  | TestNullExpression _ _ => BoolType
  | ExtractExpression _ u => default IntType (createReturnType u)
  | CastExpression t _ => t
  | RefExpression p => match getExpressionType p with IndexedSeq t => t | t => t end
  | AssignExpression _ v => getExpressionType v
  end.

Definition is_type (i : typeID) (e : expr) : bool := bool_decide (ExprTypes.getTypeID (getExpressionType e) = i).

(** The checks of the constructors. *)
Definition make_IfThenElse (c t e : expr) : res expr :=
  check is_type (ExprTypes.getTypeID (getExpressionType t)) e else AssertFailed; Ok (IfThenElse c t e).

Definition make_ExtractExpression (e : expr) (u : extract_unit) : res expr :=
  do _ <- of_option Throw (createReturnType u);
  check is_type DATE e else AssertFailed; Ok (ExtractExpression e u).

Definition make_RefExpression (p : expr) : res expr :=
  match getExpressionType p with IndexedSeq _ => Ok (RefExpression p) | _ => Err Throw end.

Definition make_AssignExpression (p v : expr) : res expr :=
  check is_type (ExprTypes.getTypeID (getExpressionType (RefExpression p))) v else AssertFailed;
  Ok (AssignExpression p v).

(** ** Aggregates *)

Definition toExpression (m : Monoid) (lhs rhs : expr) : res expr :=
  match m with
  | SUM => Ok (Binary OpADD lhs rhs)
  | MULTIPLY => Ok (Binary OpMULT lhs rhs)
  | MIN => Ok (Binary OpMIN lhs rhs)
  | MAX => Ok (Binary OpMAX lhs rhs)
  | OR => Ok (Binary OpOR lhs rhs)
  | AND => Ok (Binary OpAND lhs rhs)
  | UNION | BAGUNION | APPEND => Err Throw
  end.

(** [getIdentityElementIfSimple]; [None] is the null pointer of the other monoids. *)
Definition getIdentityElementIfSimple `{FloatOps F, IRBuilder F V} (m : Monoid) (t : ExpressionType) : res (option V) :=
  do llvmType <- getLLVMType t;
  let int (z : Z) : res (option V) := match llvmType with TInt w => Ok (Some (ConstInt w z)) | _ => Err Undefined end in
  match m with
  | SUM =>
      match ExprTypes.getTypeID t with
      | DATE | INT64 | INT => int 0
      | FLOAT => Ok (Some (ConstFP f_zero))
      | _ => Err Throw
      end
  | MULTIPLY =>
      match ExprTypes.getTypeID t with
      | INT64 | INT => int 1
      | FLOAT => Ok (Some (ConstFP f_one))
      | _ => Err Throw
      end
  | MAX =>
      match ExprTypes.getTypeID t with
      | DATE | INT64 => int (- 2 ^ 63)
      | INT => int (- 2 ^ 31)
      | FLOAT => Ok (Some (ConstFP (finf true)))
      | _ => Err Throw
      end
  | MIN =>
      match ExprTypes.getTypeID t with
      | DATE | INT64 => int (2 ^ 63 - 1)
      | INT => int (2 ^ 31 - 1)
      | FLOAT => Ok (Some (ConstFP (finf false)))
      | _ => Err Throw
      end
  | OR => match ExprTypes.getTypeID t with BOOL => Ok (Some (ConstInt 1 0)) | _ => Err Throw end
  | AND => match ExprTypes.getTypeID t with BOOL => Ok (Some (ConstInt 1 1)) | _ => Err Throw end
  | UNION | BAGUNION | APPEND => Ok None
  end.

(** ** String operands *)

Definition probeDictionary (dict : option (list (Z * string))) (v : string) : res Z :=
  do d <- of_option AssertFailed dict;
  do x <- of_option AssertFailed (List.find (λ o, String.eqb v o.2) d);
  Ok x.1.

(** [eq], [ne], [ge], [gt], [le], [lt] of an expression and a string: a dictionary-encoded
    operand is compared with the code of the string. *)
Definition cmp_string (op : opID) (lhs : expr) (rhs : string) : res expr :=
  match getExpressionType lhs with
  | DStringType d => do z <- probeDictionary d rhs; Ok (Binary op lhs (DStringConstant z d))
  | _ => Ok (Binary op lhs (StringConstant rhs))
  end.

(** With the string on the left, the inequality is reversed. *)
Definition reversed (op : opID) : opID :=
  match op with OpGE => OpLE | OpLE => OpGE | OpGT => OpLT | OpLT => OpGT | o => o end.

Definition string_cmp (op : opID) (lhs : string) (rhs : expr) : res expr := cmp_string (reversed op) rhs lhs.

(** ** The order of expressions *)

(** A measure: a minimum or maximum also holds the condition it stands for. *)
Fixpoint size (e : expr) : nat :=
  match e with
  | RecordProjection e _ | HintExpression e | HashExpression e | NegExpression e | TestNullExpression e _
  | ExtractExpression e _ | CastExpression _ e | RefExpression e => S (size e)
  | RecordConstruction l => S (sum_list_with (λ x, size x.2) l)
  | IfThenElse c t e => S (size c + size t + size e)
  | Binary op l r => match op with OpMAX | OpMIN => S (S (size l + size r)) | _ => S (size l + size r) end
  | AssignExpression p v => S (S (size p + size v))
  | _ => 1
  end.

(** [InputArgument::operator<]: the second comparison of the types compares the right one with
    itself. *)
Fixpoint attrs_lt (l r : list RecordAttribute) : bool :=
  match l, r with
  | a :: l', b :: r' => if negb (attr_lt a b) && negb (attr_lt b a) then attrs_lt l' r' else attr_lt a b
  | _, _ => false
  end.

Definition type_lt (s t : ExpressionType) : bool := String.ltb (getType s) (getType t).

Definition arg_lt (l r : list RecordAttribute) : bool :=
  let cmp1 := type_lt (RecordType l) (RecordType r) in
  let cmp2 := type_lt (RecordType r) (RecordType r) in
  if negb cmp1 && negb cmp2 then
    if Nat.eqb (length l) (length r) then attrs_lt l r else Nat.ltb (length l) (length r)
  else cmp1.

(** [RecordProjection::operator<] looks at the attribute only. *)
Definition proj_lt (a b : RecordAttribute) : bool :=
  let cmpRel1 := String.ltb (relName a) (relName b) in
  let cmpRel2 := String.ltb (relName b) (relName a) in
  if negb cmpRel1 && negb cmpRel2 then
    let cmp1 := attr_lt a b in
    let cmp2 := attr_lt b a in
    if negb cmp1 && negb cmp2 then false else cmp1
  else cmpRel1.

Section order.
Context `{FloatOps F} (pv_lt : ProteusValue V → ProteusValue V → bool).

Section step.
Context (cmp : expr → expr → res bool).

Fixpoint atts_lt (l r : list (string * expr)) : res bool :=
  match l, r with
  | a :: l', b :: r' =>
      do lt <- cmp a.2 b.2;
      if lt : bool then Ok true
      else do gt <- cmp b.2 a.2; if gt : bool then Ok false else atts_lt l' r'
  | _, _ => Ok false
  end.

(** [!(a < b) && !(b < a)] *)
Definition same (a b : expr) : res bool :=
  do lt <- cmp a b; if lt : bool then Ok false else do gt <- cmp b a; Ok (negb gt).

Definition if_lt (lc lt le rc rt re : expr) : res bool :=
  do eqCond <- same lc rc;
  do eqIf <- same lt rt;
  do eqElse <- same le re;
  if eqCond : bool then
    if eqIf : bool then
      if eqElse : bool then Ok false else cmp le re
    else cmp lt rt
  else cmp lc rc.

(** [TBinaryExpression::operator<] for two expressions of the same class. *)
Definition binary_lt (l1 l2 r1 r2 : expr) : res bool :=
  do eq1 <- cmp l1 r1;
  do eq2 <- cmp l2 r2;
  if eq1 : bool then
    if eq2 : bool then Ok false else cmp l2 r2
  else cmp l1 r1.

(** [Expression::operator<]: expressions with the same identifier go through the tandem
    visitor, which throws when they are not of the same class. *)
Definition lt_step (l r : expr) : res bool :=
  if id_number (getTypeID l) =? id_number (getTypeID r) then
    match l, r with
    | IntConstant a, IntConstant b => Ok (a <? b)
    | Int64Constant a, Int64Constant b => Ok (a <? b)
    | DateConstant a, DateConstant b => Ok (a <? b)
    | FloatConstant a, FloatConstant b => Ok (fcomp FOLT a b)
    | BoolConstant a, BoolConstant b => Ok (negb a && b)
    | StringConstant a, StringConstant b => Ok (String.ltb a b)
    | DStringConstant a _, DStringConstant b _ => Ok (a <? b)
    | InputArgument a _, InputArgument b _ => Ok (arg_lt a b)
    | RecordProjection _ a, RecordProjection _ b => Ok (proj_lt a b)
    | RecordConstruction a, RecordConstruction b =>
        if Nat.eqb (length a) (length b) then atts_lt a b else Ok (Nat.ltb (length a) (length b))
    | IfThenElse lc lt le, IfThenElse rc rt re => if_lt lc lt le rc rt re
    | Binary op1 l1 l2, Binary op2 r1 r2 =>
        if bool_decide (op1 = op2) then
          match op1 with
          | OpMAX => if_lt (Binary OpGT l1 l2) l1 l2 (Binary OpGT r1 r2) r1 r2
          | OpMIN => if_lt (Binary OpLT l1 l2) l1 l2 (Binary OpLT r1 r2) r1 r2
          | _ => binary_lt l1 l2 r1 r2
          end
        else Err Throw
    | PlaceholderExpression _ a, PlaceholderExpression _ b => Ok (a <? b)
    | ProteusValueExpression _ a, ProteusValueExpression _ b => Ok (pv_lt a b)
    | HintExpression a, HintExpression b | HashExpression a, HashExpression b | NegExpression a, NegExpression b
    | TestNullExpression a _, TestNullExpression b _ | ExtractExpression a _, ExtractExpression b _
    | CastExpression _ a, CastExpression _ b | RefExpression a, RefExpression b => cmp a b
    | RandExpression, RandExpression => Ok false
    | AssignExpression lp lv, AssignExpression rp rv =>
        do rlt <- cmp lp rp;
        do rgt <- cmp rp lp;
        if negb rlt && negb rgt then cmp lv rv else Ok rlt
    | _, _ => Err Throw
    end
  else Ok (id_number (getTypeID l) <? id_number (getTypeID r)).
End step.

Fixpoint lt_fuel (n : nat) (l r : expr) : res bool :=
  match n with
  | O => Err Blocked
  | S n => lt_step (lt_fuel n) l r
  end.

Definition expr_lt (l r : expr) : res bool := lt_fuel (size l + size r) l r.

(** The step only compares smaller pairs. *)
Lemma atts_lt_ext c1 c2 l : ∀ r,
  (∀ a b, a ∈ l → b ∈ r → c1 a.2 b.2 = c2 a.2 b.2 ∧ c1 b.2 a.2 = c2 b.2 a.2) → atts_lt c1 l r = atts_lt c2 l r.
Proof.
  induction l as [| a l IH]; intros [| b r] Hc; simpl; try done.
  destruct (Hc a b) as [-> ->]; [by left | by left |]. rewrite (IH r); [done |]. intros x y Hx Hy. by apply Hc; right.
Qed.

Lemma if_lt_ext c1 c2 lc lt le rc rt re :
  c1 lc rc = c2 lc rc → c1 rc lc = c2 rc lc → c1 lt rt = c2 lt rt → c1 rt lt = c2 rt lt →
  c1 le re = c2 le re → c1 re le = c2 re le → if_lt c1 lc lt le rc rt re = if_lt c2 lc lt le rc rt re.
Proof. intros E1 E2 E3 E4 E5 E6. unfold if_lt, same. by rewrite E1, E2, E3, E4, E5, E6. Qed.

Lemma size_pos e : (0 < size e)%nat.
Proof. destruct e as [| | | | | | | | | | | [] | | | | | | | | | | |]; simpl; lia. Qed.

Lemma size_in (l : list (string * expr)) x : x ∈ l → (size x.2 <= sum_list_with (λ x, size x.2) l)%nat.
Proof. induction 1; simpl; lia. Qed.

Lemma lt_step_ext c1 c2 l r :
  (∀ a b, (size a + size b < size l + size r)%nat → c1 a b = c2 a b) → lt_step c1 l r = lt_step c2 l r.
Proof.
  intros Hc. unfold lt_step. destruct (_ =? _); [| done].
  destruct l as [| | | | | | | | | l | | op1 | | | | | | | | | | |], r as [| | | | | | | | | r | | op2 | | | | | | | | | | |];
    try done; simpl in Hc; try (apply Hc; lia).
  - destruct (Nat.eqb _ _); [| done]. apply atts_lt_ext. intros a b Ha%size_in Hb%size_in. split; apply Hc; lia.
  - apply if_lt_ext; apply Hc; lia.
  - destruct (bool_decide_reflect (op1 = op2)) as [<- |]; [| done].
    destruct op1; try (unfold binary_lt; rewrite !Hc by (simpl; lia); done); apply if_lt_ext; apply Hc; simpl; lia.
  - rewrite !Hc by (simpl; lia). done.
Qed.

Lemma lt_fuel_enough n : ∀ m l r, (size l + size r <= n)%nat → (size l + size r <= m)%nat → lt_fuel n l r = lt_fuel m l r.
Proof.
  induction n as [| n IH]; intros m l r Hn Hm; [pose proof (size_pos l); lia |].
  destruct m as [| m]; [pose proof (size_pos l); lia |]. simpl. apply lt_step_ext. intros a b Hab. apply IH; lia.
Qed.

(** The unfolding of [operator<]. *)
Lemma expr_lt_unfold l r : expr_lt l r = lt_step expr_lt l r.
Proof.
  unfold expr_lt at 1. pose proof (size_pos l). destruct (size l + size r)%nat as [| n] eqn:E; [lia |]. simpl.
  apply lt_step_ext. intros a b Hab. apply lt_fuel_enough; lia.
Qed.

(** A comparison ends: it does not run out of the fuel its operands' sizes give. *)
Definition ends (r : res bool) : Prop := r ≠ Err Blocked.

Lemma ends_bind r f : ends r → (∀ b, ends (f b)) → ends (rbind r f).
Proof. unfold ends. destruct r as [b | e]; simpl; [intros _ Hf; apply Hf | congruence]. Qed.

Lemma ends_if (b : bool) r1 r2 : ends r1 → ends r2 → ends (if b then r1 else r2).
Proof. by destruct b. Qed.

Lemma ends_Ok b : ends (Ok b).
Proof. done. Qed.

Lemma ends_Throw : ends (Err Throw).
Proof. done. Qed.


Ltac ends_tac Hc :=
  repeat first [ apply ends_Ok | apply ends_Throw | apply ends_bind; [| intros ?] | apply ends_if | apply Hc; simpl; lia ].

Lemma atts_lt_ends c l : ∀ r, (∀ a b, a ∈ l → b ∈ r → ends (c a.2 b.2) ∧ ends (c b.2 a.2)) → ends (atts_lt c l r).
Proof.
  induction l as [| a l IH]; intros [| b r] Hc; simpl; try apply ends_Ok.
  destruct (Hc a b) as [H1 H2]; [by left | by left |].
  apply ends_bind; [done | intros lt]. apply ends_if; [apply ends_Ok |].
  apply ends_bind; [done | intros gt]. apply ends_if; [apply ends_Ok |].
  apply IH. intros x y Hx Hy. by apply Hc; right.
Qed.

Lemma lt_step_ends c l r :
  (∀ a b, (size a + size b < size l + size r)%nat → ends (c a b)) → ends (lt_step c l r).
Proof.
  intros Hc. unfold lt_step. destruct (_ =? _); [| apply ends_Ok].
  destruct l as [| | | | | | | | | l | | op1 | | | | | | | | | | |], r as [| | | | | | | | | r | | op2 | | | | | | | | | | |];
    try done; simpl in Hc; try (apply Hc; lia).
  - apply ends_if; [| apply ends_Ok]. apply atts_lt_ends. intros a b Ha%size_in Hb%size_in. split; apply Hc; lia.
  - unfold if_lt, same. ends_tac Hc.
  - destruct (bool_decide_reflect (op1 = op2)) as [<- |]; [| done].
    destruct op1; unfold if_lt, same, binary_lt; ends_tac Hc.
  - ends_tac Hc.
Qed.

Lemma lt_fuel_ends n : ∀ l r, (size l + size r <= n)%nat → ends (lt_fuel n l r).
Proof.
  induction n as [| n IH]; intros l r Hn; [pose proof (size_pos l); lia |]. simpl. apply lt_step_ends.
  intros a b Hab. apply IH. lia.
Qed.


(** ** What the order distinguishes *)

Lemma proj_lt_attr_lt a b : proj_lt a b = attr_lt a b.
Proof.
  unfold proj_lt. destruct (String.ltb (relName a) (relName b)) eqn:E1; simpl.
  - unfold attr_lt. destruct (String.eqb_spec (relName a) (relName b)) as [E | _]; [| done].
    rewrite E, string_lt_irrefl in E1. done.
  - destruct (String.ltb (relName b) (relName a)) eqn:E2; simpl.
    + unfold attr_lt. destruct (String.eqb_spec (relName a) (relName b)) as [E | _]; [| done].
      rewrite E, string_lt_irrefl in E2. done.
    + by destruct (attr_lt a b), (attr_lt b a).
Qed.

(** Projections are ordered by their attribute alone. *)
Lemma projection_order e f a b : expr_lt (RecordProjection e a) (RecordProjection f b) = Ok (attr_lt a b).
Proof. rewrite expr_lt_unfold. unfold lt_step. simpl. by rewrite proj_lt_attr_lt. Qed.

Definition plain_binary (op : opID) : bool := match op with OpMAX | OpMIN => false | _ => true end.

(** The comparison of two binary expressions of the same operator never answers that one
    is less than the other, whatever their operands are, so an ordered map takes them for the
    same key; of two different operators it throws, and so does the comparison of two
    constants of different types. *)
Theorem binary_operands_ignored (op1 op2 : opID) (l1 l2 r1 r2 : expr) :
  plain_binary op1 = true →
  expr_lt (Binary op1 l1 l2) (Binary op2 r1 r2) ≠ Ok true ∧
  (op1 ≠ op2 → expr_lt (Binary op1 l1 l2) (Binary op2 r1 r2) = Err Throw) ∧
  ∀ z b, expr_lt (IntConstant z) (BoolConstant b) = Err Throw.
Proof.
  intros Hop. rewrite expr_lt_unfold. unfold lt_step. simpl.
  split; [| split; [intros Hne; by rewrite bool_decide_eq_false_2 | done]].
  destruct (bool_decide_reflect (op1 = op2)) as [<- |]; [| done].
  assert (binary_lt expr_lt l1 l2 r1 r2 ≠ Ok true) as Hb; [| by destruct op1].
  unfold binary_lt. destruct (expr_lt l1 r1) as [[] | e1]; [| | done]; simpl.
  - destruct (expr_lt l2 r2) as [[] | e2]; done.
  - destruct (expr_lt l2 r2); done.
Qed.

End order.

End expressions.
#[global] Arguments expr : clear implicits.

End Expressions.
