(* ===== verification/Caching.v ===== *)
(** * Caching: the cache registry of the analytical engine
    ([CachingService] in [olap/lib/util/caching.hpp] and [caching.cpp], [cache-info.hpp]).

    [StdMap] is the ordered map of the C++ library with a comparator that may throw;
    [CachingService] keeps two of them, from expressions to caches and to whether the cache
    covers the whole data set, and a map of positional maps by file name. *)

From S2P Require Import Prelude ExprTypes LLVM Expressions.
From Stdlib Require Import ZArith Lia Bool Sorted.
From stdpp Require Import base numbers list strings gmap.

Local Open Scope Z_scope.
Local Open Scope res_scope.

(** ** An ordered map with a comparator *)

Module StdMap.
Section ops.
Context {K A : Type} (less : K → K → res bool).

(** The entries before, and from, the first key that is not less than [k]. *)
Fixpoint lower_bound (k : K) (m : list (K * A)) : res (list (K * A) * list (K * A)) :=
  match m with
  | [] => Ok ([], [])
  | e :: m' =>
      do lt <- less e.1 k;
      if lt : bool then do (a, b) <- lower_bound k m'; Ok (e :: a, b)
      else Ok ([], m)
  end.

(** Whether the entry at the lower bound has an equivalent key. *)
Definition hit (k : K) (b : list (K * A)) : res bool :=
  match b with
  | [] => Ok false
  | e :: _ => do gt <- less k e.1; Ok (negb gt)
  end.

Definition find (m : list (K * A)) (k : K) : res (option A) :=
  do (_, b) <- lower_bound k m;
  do h <- hit k b;
  Ok (if h : bool then snd <$> head b else None).

(** [m[k] = v]: a key that is there stays as it is. *)
Definition assign (m : list (K * A)) (k : K) (v : A) : res (list (K * A)) :=
  do (a, b) <- lower_bound k m;
  do h <- hit k b;
  Ok (if h : bool then a ++ match b with e :: b' => (e.1, v) :: b' | [] => [] end else a ++ (k, v) :: b).

Definition erase (m : list (K * A)) (k : K) : res (list (K * A)) :=
  do (a, b) <- lower_bound k m;
  do h <- hit k b;
  Ok (if h : bool then a ++ tail b else m).
End ops.

(** Keys of a set [dom] that the comparator orders by their image under [key]. *)
Section laws.
Context {K A J : Type} `{EqDecision J} (less : K → K → res bool) (dom : K → bool) (key : K → J) (lt : J → J → bool).
Hypothesis (Hless : ∀ a b, dom a = true → dom b = true → less a b = Ok (lt (key a) (key b))).
Hypothesis (Hirrefl : ∀ x, lt x x = false) (Htrans : ∀ x y z, lt x y = true → lt y z = true → lt x z = true)
  (Htotal : ∀ x y, lt x y = false → lt y x = false → x = y).

(** Sorted, with keys of [dom]. *)
Definition ordered (m : list (K * A)) : Prop :=
  StronglySorted (λ e f, lt (key e.1) (key f.1) = true) m ∧ Forall (λ e, dom e.1 = true) m.

(** The abstract map. *)
Definition lookup (m : list (K * A)) (x : J) : option A := snd <$> List.find (λ e, bool_decide (key e.1 = x)) m.

Lemma ordered_cons e m : ordered (e :: m) ↔
  ordered m ∧ Forall (λ f, lt (key e.1) (key f.1) = true) m ∧ dom e.1 = true.
Proof.
  unfold ordered. rewrite Forall_cons. split.
  - intros [[Hs Hf]%StronglySorted_inv [He Hd]]. done.
  - intros [[Hs Hd] [Hf He]]. split; [by constructor | done].
Qed.

Lemma lookup_nil x : lookup [] x = None.
Proof. done. Qed.

Lemma lookup_cons e m x : lookup (e :: m) x = if bool_decide (key e.1 = x) then Some e.2 else lookup m x.
Proof. unfold lookup. simpl. by destruct (bool_decide _). Qed.

Lemma lookup_above m x : Forall (λ f, lt x (key f.1) = true) m → lookup m x = None.
Proof.
  induction 1 as [| f m Hf _ IH]; [done |]. rewrite lookup_cons, IH.
  rewrite bool_decide_eq_false_2; [done |]. intros E. by rewrite E, Hirrefl in Hf.
Qed.

(** The lower bound splits the map at the key. *)
Lemma lower_bound_ok m k : ordered m → dom k = true →
  ∃ a b, lower_bound less k m = Ok (a, b) ∧ m = a ++ b ∧ Forall (λ e, lt (key e.1) (key k) = true) a ∧
    Forall (λ e, lt (key e.1) (key k) = false) b.
Proof.
  intros Hm Hk. induction m as [| e m IH]; simpl; [by exists [], [] |].
  apply ordered_cons in Hm as (Hm & Hf & He). rewrite Hless by done. simpl. destruct (lt (key e.1) (key k)) eqn:E.
  - destruct (IH Hm) as (a & b & -> & -> & Ha & Hb). simpl. exists (e :: a), b. repeat split; [by constructor | done].
  - exists [], (e :: m). split; [done |]. split; [done |]. split; [constructor |]. constructor; [done |].
    eapply Forall_impl; [exact Hf |]. intros f Hef. cbv beta in Hef.
    destruct (lt (key f.1) (key k)) eqn:Ek; [| done]. by rewrite (Htrans _ _ _ Hef Ek) in E.
Qed.

Lemma lookup_app a b x : lookup (a ++ b) x = match lookup a x with Some v => Some v | None => lookup b x end.
Proof.
  induction a as [| e a IH]; [done |]. simpl. rewrite !lookup_cons, IH. by destruct (bool_decide _).
Qed.

Lemma lookup_below a x : Forall (λ e, lt (key e.1) x = true) a → lookup a x = None.
Proof.
  induction 1 as [| f m Hf _ IH]; [done |]. rewrite lookup_cons, IH.
  rewrite bool_decide_eq_false_2; [done |]. intros E. by rewrite E, Hirrefl in Hf.
Qed.

(** The entry at the lower bound: the key is there, or everything from there on is above it. *)
Lemma hit_ok a b k : ordered (a ++ b) → dom k = true → Forall (λ e, lt (key e.1) (key k) = false) b →
  (∃ e b', b = e :: b' ∧ key e.1 = key k ∧ hit less k b = Ok true ∧ Forall (λ f, lt (key k) (key f.1) = true) b') ∨
  (hit less k b = Ok false ∧ Forall (λ f, lt (key k) (key f.1) = true) b).
Proof.
  intros Hm Hk Hb. destruct b as [| e b']; [by right |].
  assert (ordered (e :: b')) as (_ & Hf & He)%ordered_cons.
  { clear Hb. induction a as [| f a IH]; [done |]. simpl in Hm. apply ordered_cons in Hm as [Hm _]. by apply IH. }
  apply Forall_cons in Hb as [Hek Hb']. simpl. rewrite Hless by done. simpl.
  destruct (lt (key k) (key e.1)) eqn:E; [right | left].
  - split; [done |]. constructor; [done |]. eapply Forall_impl; [exact Hf |]. intros f Hef. by eapply Htrans.
  - exists e, b'. rewrite (Htotal _ _ E Hek). split; [done |]. split; [done |]. split; [done |]. done.
Qed.

Lemma find_ok m k : ordered m → dom k = true → find less m k = Ok (lookup m (key k)).
Proof.
  intros Hm Hk. destruct (lower_bound_ok m k Hm Hk) as (a & b & E & -> & Ha & Hb). unfold find. rewrite E. simpl.
  rewrite lookup_app, (lookup_below a) by done.
  destruct (hit_ok a b k Hm Hk Hb) as [(e & b' & -> & Ek & -> & _) | [-> Hab]]; simpl.
  - by rewrite lookup_cons, bool_decide_eq_true_2.
  - by rewrite lookup_above.
Qed.

Lemma ordered_app a b : ordered (a ++ b) ↔
  ordered a ∧ ordered b ∧ Forall (λ e, Forall (λ f, lt (key e.1) (key f.1) = true) b) a.
Proof.
  induction a as [| e a IH]; simpl.
  - split; [intros H; split; [split; constructor | by split] | by intros (_ & ? & _)].
  - rewrite !ordered_cons, IH, Forall_app, Forall_cons. tauto.
Qed.

Lemma assign_ok m k v : ordered m → dom k = true →
  ∃ m', assign less m k v = Ok m' ∧ ordered m' ∧
    ∀ x, lookup m' x = if bool_decide (key k = x) then Some v else lookup m x.
Proof.
  intros Hm Hk. destruct (lower_bound_ok m k Hm Hk) as (a & b & E & -> & Ha & Hb). unfold assign. rewrite E. simpl.
  destruct (hit_ok a b k Hm Hk Hb) as [(e & b' & -> & Ek & -> & Hb') | [-> Hab]]; simpl; eexists; (split; [done |]).
  - apply ordered_app in Hm as (Hoa & [Hob [Hf He]]%ordered_cons & Hx). split.
    + apply ordered_app. split; [done |]. split; [by apply ordered_cons |].
      eapply Forall_impl; [exact Hx |]. intros g Hg. apply Forall_cons in Hg as [H1 H2]. by constructor.
    + intros x. rewrite !lookup_app, !lookup_cons. simpl. rewrite Ek. case_bool_decide as Ex; [| done].
      by rewrite <- Ex, lookup_below.
  - apply ordered_app in Hm as (Hoa & Hob & Hx). split.
    + apply ordered_app. split; [done |]. split; [apply ordered_cons; done |].
      rewrite Forall_forall in Ha, Hx. apply Forall_forall. intros g Hg. constructor; [by apply Ha | by apply Hx].
    + intros x. rewrite !lookup_app, lookup_cons. simpl. case_bool_decide as Ex; [| done].
      by rewrite <- Ex, lookup_below.
Qed.

Lemma erase_ok m k : ordered m → dom k = true →
  ∃ m', erase less m k = Ok m' ∧ ordered m' ∧ ∀ x, lookup m' x = if bool_decide (key k = x) then None else lookup m x.
Proof.
  intros Hm Hk. destruct (lower_bound_ok m k Hm Hk) as (a & b & E & -> & Ha & Hb). unfold erase. rewrite E. simpl.
  destruct (hit_ok a b k Hm Hk Hb) as [(e & b' & -> & Ek & -> & Hb') | [-> Hab]]; simpl; eexists; (split; [done |]).
  - apply ordered_app in Hm as (Hoa & [Hob _]%ordered_cons & Hx). split.
    + apply ordered_app. split; [done |]. split; [done |]. eapply Forall_impl; [exact Hx |].
      intros g Hg. by apply Forall_cons in Hg as [_ H2].
    + intros x. rewrite !lookup_app, lookup_cons, Ek. case_bool_decide as Ex; [| done].
      by rewrite <- Ex, lookup_below, lookup_above.
  - split; [done |]. intros x. case_bool_decide as Ex; [| done].
    by rewrite <- Ex, lookup_app, lookup_below, lookup_above.
Qed.

End laws.
End StdMap.

(** ** The service *)

Module CachingService.
Import ExprTypes Expressions.

Record CacheInfo : Type := mk_info {
  objectTypes : list typeID;
  structFieldNo : Z;
  payloadPtr : Z;
  itemCount : Z
}.

Section service.
Context {F V : Type} `{FloatOps F} (pv_lt : ProteusValue V → ProteusValue V → bool).

Record service : Type := mk {
  binCaches : list (expr F V * CacheInfo);
  binCacheIsFull : list (expr F V * bool);
  pmCaches : list (string * Z)
}.

Definition less_map : expr F V → expr F V → res bool := expr_lt pv_lt.

Definition str_less (a b : string) : res bool := Ok (String.ltb a b).

Definition registerPM (s : service) (fileName : string) (payload : Z) : res service :=
  do m <- StdMap.assign str_less (pmCaches s) fileName payload;
  Ok (mk (binCaches s) (binCacheIsFull s) m).

(** The null pointer, 0, when there is none. *)
Definition getPM (s : service) (fileName : string) : res Z :=
  do r <- StdMap.find str_less (pmCaches s) fileName; Ok (default 0 r).

Definition registerCache (s : service) (e : expr F V) (payload : CacheInfo) (entireDataset : bool) : res service :=
  do it <- StdMap.find less_map (binCaches s) e;
  match it with
  | Some _ =>
      do _ <- StdMap.find less_map (binCacheIsFull s) e;
      if entireDataset then
        do c1 <- StdMap.erase less_map (binCaches s) e;
        do f1 <- StdMap.erase less_map (binCacheIsFull s) e;
        do c2 <- StdMap.assign less_map c1 e payload;
        do f2 <- StdMap.assign less_map f1 e entireDataset;
        Ok (mk c2 f2 (pmCaches s))
      else Ok s
  | None =>
      do c1 <- StdMap.assign less_map (binCaches s) e payload;
      do f1 <- StdMap.assign less_map (binCacheIsFull s) e entireDataset;
      Ok (mk c1 f1 (pmCaches s))
  end.

(** The other fields of an invalid entry are not initialised. *)
Definition invalid : CacheInfo := mk_info [] (-1) 0 0.

Definition getCache (s : service) (e : expr F V) : res CacheInfo :=
  do it <- StdMap.find less_map (binCaches s) e; Ok (default invalid it).

Definition getCacheIsFull (s : service) (e : expr F V) : res bool :=
  do it <- StdMap.find less_map (binCacheIsFull s) e; of_option Throw it.

Definition clear (s : service) : service := mk [] [] (pmCaches s).
Definition clearPM (s : service) : service := mk (binCaches s) (binCacheIsFull s) [].

(** ** Projections as keys *)

Definition is_projection (e : expr F V) : bool := match e with RecordProjection _ _ => true | _ => false end.

Definition attr_of (e : expr F V) : string * string :=
  match e with RecordProjection _ a => attr_key a | _ => (EmptyString, EmptyString) end.

Definition key_lt (x y : string * string) : bool :=
  if String.eqb x.1 y.1 then String.ltb x.2 y.2 else String.ltb x.1 y.1.

Lemma less_map_projections a b : is_projection a = true → is_projection b = true →
  less_map a b = Ok (key_lt (attr_of a) (attr_of b)).
Proof. destruct a, b; try done. intros _ _. unfold less_map. by rewrite projection_order. Qed.

(** An attribute with a given key. *)
Definition attr_at (x : string * string) : RecordAttribute := mk_attr x.1 x.2 x.1 BoolType 0 false.

Lemma key_lt_attr x y : key_lt x y = attr_lt (attr_at x) (attr_at y).
Proof. done. Qed.

Lemma key_lt_irrefl x : key_lt x x = false.
Proof. rewrite key_lt_attr. by apply attr_lt_irrefl. Qed.

Lemma key_lt_trans x y z : key_lt x y = true → key_lt y z = true → key_lt x z = true.
Proof. rewrite !key_lt_attr. apply attr_lt_trans. Qed.

Lemma key_lt_total x y : key_lt x y = false → key_lt y x = false → x = y.
Proof.
  rewrite !key_lt_attr. intros E1 E2. pose proof (attr_lt_total _ _ E1 E2) as E. destruct x, y. exact E.
Qed.

Abbreviation ordered := (StdMap.ordered is_projection attr_of key_lt).
Abbreviation lookup := (StdMap.lookup attr_of).

(** The keys are projections, in order, and the two maps have the same keys. *)
Definition wf (s : service) : Prop :=
  ordered (binCaches s) ∧ ordered (binCacheIsFull s) ∧
  ∀ x, lookup (binCaches s) x = None ↔ lookup (binCacheIsFull s) x = None.

Lemma find_projection {A} (m : list (expr F V * A)) e : ordered m → is_projection e = true →
  StdMap.find less_map m e = Ok (lookup m (attr_of e)).
Proof.
  apply StdMap.find_ok with (lt := key_lt); [apply less_map_projections | apply key_lt_irrefl | apply key_lt_trans | apply key_lt_total].
Qed.

Lemma assign_projection {A} (m : list (expr F V * A)) e v : ordered m → is_projection e = true →
  ∃ m', StdMap.assign less_map m e v = Ok m' ∧ ordered m' ∧
    ∀ x, lookup m' x = if bool_decide (attr_of e = x) then Some v else lookup m x.
Proof.
  apply StdMap.assign_ok with (lt := key_lt); [apply less_map_projections | apply key_lt_irrefl | apply key_lt_trans | apply key_lt_total].
Qed.

Lemma erase_projection {A} (m : list (expr F V * A)) e : ordered m → is_projection e = true →
  ∃ m', StdMap.erase less_map m e = Ok m' ∧ ordered m' ∧
    ∀ x, lookup m' x = if bool_decide (attr_of e = x) then None else lookup m x.
Proof.
  apply StdMap.erase_ok with (lt := key_lt); [apply less_map_projections | apply key_lt_irrefl | apply key_lt_trans | apply key_lt_total].
Qed.

(** What the service answers for an attribute: the cache, and whether it is full. *)
Definition answer (s : service) (x : string * string) : option (CacheInfo * bool) :=
  match lookup (binCaches s) x, lookup (binCacheIsFull s) x with
  | Some i, Some f => Some (i, f)
  | _, _ => None
  end.

(** With projections as keys, the cache registry is a map from relation and attribute
    names: registering a cache succeeds, replaces what was registered for that attribute if
    there was nothing or the new cache covers the whole data set, keeps it otherwise, and
    leaves every other attribute alone; both queries answer from that map, an attribute
    without a cache giving the invalid entry and an exception. *)
Theorem cache_is_a_map (s : service) (e : expr F V) (payload : CacheInfo) (full : bool) :
  wf s → is_projection e = true →
  getCache s e = Ok (default invalid (fst <$> answer s (attr_of e))) ∧
  getCacheIsFull s e = of_option Throw (snd <$> answer s (attr_of e)) ∧
  ∃ s', registerCache s e payload full = Ok s' ∧ wf s' ∧ ∀ x, answer s' x =
    if bool_decide (attr_of e = x) && (full || negb (bool_decide (is_Some (answer s x)))) then Some (payload, full)
    else answer s x.
Proof.
  intros (Hc & Hf & Hcf) He. unfold getCache, getCacheIsFull, registerCache, answer.
  rewrite !find_projection by done. simpl. pose proof (Hcf (attr_of e)) as He0.
  destruct (lookup (binCaches s) (attr_of e)) as [i |] eqn:Ei, (lookup (binCacheIsFull s) (attr_of e)) as [b |] eqn:Eb;
    simpl; try (exfalso; naive_solver); (split; [done |]); (split; [done |]).
  - destruct full.
    + destruct (erase_projection (binCaches s) e Hc He) as (c1 & -> & Hc1 & Lc1).
      destruct (erase_projection (binCacheIsFull s) e Hf He) as (f1 & -> & Hf1 & Lf1). simpl.
      destruct (assign_projection c1 e payload Hc1 He) as (c2 & -> & Hc2 & Lc2).
      destruct (assign_projection f1 e true Hf1 He) as (f2 & -> & Hf2 & Lf2). simpl.
      eexists. split; [done |]. split.
      * split; [done |]. split; [done |]. intros x. simpl. rewrite Lc2, Lf2, Lc1, Lf1.
        case_bool_decide; [done | apply Hcf].
      * intros x. simpl. rewrite Lc2, Lf2, Lc1, Lf1. by case_bool_decide.
    + eexists. split; [done |]. split; [done |]. intros x. case_bool_decide as Ex; [| done]. simpl.
      rewrite <- Ex, Ei, Eb. rewrite bool_decide_eq_true_2 by eauto. done.
  - destruct (assign_projection (binCaches s) e payload Hc He) as (c1 & -> & Hc1 & Lc1).
    destruct (assign_projection (binCacheIsFull s) e full Hf He) as (f1 & -> & Hf1 & Lf1). simpl.
    eexists. split; [done |]. split.
    + split; [done |]. split; [done |]. intros x. simpl. rewrite Lc1, Lf1. case_bool_decide; [done | apply Hcf].
    + intros x. simpl. rewrite Lc1, Lf1. case_bool_decide as Ex; [| done]. simpl.
      rewrite <- Ex, Ei. rewrite bool_decide_eq_false_2 by (by intros [? ?]). by rewrite orb_true_r.
Qed.

(** The positional maps, a map from file names. *)
Definition pm_wf (s : service) : Prop := StdMap.ordered (λ _, true) id String.ltb (pmCaches s).

Lemma registerPM_getPM (s : service) f p : pm_wf s → ∃ s', registerPM s f p = Ok s' ∧ pm_wf s' ∧
  binCaches s' = binCaches s ∧ binCacheIsFull s' = binCacheIsFull s ∧
  ∀ f', getPM s' f' = if String.eqb f f' then Ok p else getPM s f'.
Proof.
  intros Hs. unfold registerPM, getPM.
  assert (∀ m f', StdMap.ordered (λ _, true) id String.ltb m → StdMap.find str_less m f' = Ok (StdMap.lookup (A := Z) id m f')) as Hfind.
  { intros m f' Hm. apply (StdMap.find_ok str_less (λ _, true) id String.ltb); try done;
      [apply string_lt_irrefl | intros x y z; apply string_lt_trans | apply string_lt_total]. }
  destruct (StdMap.assign_ok (A := Z) str_less (λ _, true) id String.ltb ltac:(done) string_lt_irrefl (λ x y z, string_lt_trans x y z) string_lt_total
    (pmCaches s) f p Hs eq_refl) as (m & -> & Hm & Hl). cbn [rbind].
  eexists. split; [reflexivity |]. split; [exact Hm |]. split; [done |]. split; [done |]. intros f'. cbn [pmCaches].
  rewrite !Hfind by done. cbn [rbind]. rewrite Hl. destruct (String.eqb_spec f f') as [-> | Hne].
  - by rewrite bool_decide_eq_true_2.
  - by rewrite bool_decide_eq_false_2.
Qed.

End service.

Import Interp.

Definition ex_key (rel attr : string) : expr Z Z := RecordProjection (InputArgument [] 0) (mk_attr rel attr rel IntType 1 false).

Definition ex_info (n : Z) : CacheInfo := mk_info [INT] n 64 1.

Lemma empty_wf : wf (F := Z) (V := Z) (mk [] [] []).
Proof. repeat split; constructor. Qed.

Lemma cache_is_a_map_witness :
  ∃ s', registerCache (λ _ _, false) (mk [] [] []) (ex_key "r" "a") (ex_info 1) false = Ok s' ∧
    answer s' ("r", "a") = Some (ex_info 1, false) ∧ answer s' ("r", "b") = None.
Proof.
  destruct (cache_is_a_map (λ _ _, false) (mk [] [] []) (ex_key "r" "a") (ex_info 1) false empty_wf eq_refl)
    as (_ & _ & s' & E & _ & Ha).
  exists s'. split; [exact E |]. rewrite !Ha. split; reflexivity.
Defined.

(** A cache registered for one sum is returned for another. *)
Definition ex_sum (a b : Z) : expr Z Z := Binary OpADD (IntConstant a) (IntConstant b).

Lemma cache_confuses_sums :
  ∃ s', registerCache (λ _ _, false) (mk [] [] []) (ex_sum 1 2) (ex_info 7) true = Ok s' ∧
    getCache (λ _ _, false) s' (ex_sum 3 4) = Ok (ex_info 7).
Proof. eexists. split; vm_compute; reflexivity. Qed.

End CachingService.
