(* ===== verification/Extract.v ===== *)
(** * Extract: the fields of a date
    ([ExpressionGeneratorVisitor::visit(ExtractExpression)] in
    [olap/lib/expressions/expressions-generator.cpp]).

    The generator emits integer code that turns milliseconds since 1970 into a field of the
    Gregorian calendar.  The reference is the calendar itself, counted day by day. *)

From Stdlib Require Import ZArith Lia Bool.
From stdpp Require Import base numbers list.
From S2P Require Import Prelude ExprTypes LLVM Expressions.

Local Open Scope Z_scope.
Local Open Scope res_scope.

Module Extract.
Import Expressions.

(** ** The emitted code *)

Definition getYearDiv (u : extract_unit) : res Z :=
  match u with
  | YEAR => Ok 1 | DECADE => Ok 10 | CENTURY => Ok 100 | MILLENNIUM => Ok 1000
  | _ => Err AssertFailed
  end.

Definition getYearAbsOffset (u : extract_unit) : res Z :=
  match u with
  | YEAR => Ok 0 | DECADE => Ok 0 | CENTURY => Ok 99 | MILLENNIUM => Ok 999
  | _ => Err AssertFailed
  end.

Definition MS_PER_S : Z := 1000.
Definition MS_PER_M : Z := 60 * MS_PER_S.
Definition MS_PER_H : Z := 60 * MS_PER_M.
Definition MS_PER_DAY : Z := 24 * MS_PER_H.
Definition EPOCH_JULIAN : Z := 2440588.

Section code.
Context {F V : Type} `{FloatOps F, IRBuilder F V}.

Abbreviation createInt64 := (ConstInt 64).
Abbreviation createInt32 := (ConstInt 32).

Definition floorDiv (x y : V) : V :=
  let r := CreateBin SDiv x y in
  CreateSelect
    (CreateBin And (CreateICmp SLT (CreateBin Xor x y) (createInt64 0)) (CreateICmp NE (CreateBin Mul r y) x))
    (CreateBin Sub r (createInt64 1)) r.

Definition floorMod (x y : V) : V := CreateBin Sub x (CreateBin Mul (floorDiv x y) y).

Record julian_code : Type := mk_julian { julian : V; year : V; month : V; day : V }.

(** [(x / q + 1) * 3 / 4] *)
Definition emit_quarter (x : V) (q : Z) : V :=
  CreateBin SDiv
    (CreateBin Mul (CreateBin Add (CreateBin SDiv x (createInt64 q)) (createInt64 1)) (createInt64 3)) (createInt64 4).

(** Century, four-year cycle, year and day in a 400-year era: [c], [b], [a] and [da]. *)
Definition emit_era (dg : V) : V * V * V * V :=
  let c := emit_quarter dg 36524 in
  let dc := CreateBin Sub dg (CreateBin Mul c (createInt64 36524)) in
  let b := CreateBin SDiv dc (createInt64 1461) in
  let db := CreateBin SRem dc (createInt64 1461) in
  let a := emit_quarter db 365 in
  (c, b, a, CreateBin Sub db (CreateBin Mul a (createInt64 365))).

(** Months since March, and days since the first of the month: [m] and [d]. *)
Definition emit_month (da : V) : V * V :=
  let m := CreateBin Sub
             (CreateBin SDiv (CreateBin Add (CreateBin Mul da (createInt64 5)) (createInt64 308)) (createInt64 153))
             (createInt64 2) in
  (m, CreateBin Add
        (CreateBin Sub da
           (CreateBin SDiv (CreateBin Mul (CreateBin Add m (createInt64 4)) (createInt64 153)) (createInt64 5)))
        (createInt64 122)).

(** The local values of the visit up to the switch. *)
Definition emit_julian (v : V) : julian_code :=
  let julian := CreateBin Add (CreateBin UDiv v (createInt64 MS_PER_DAY)) (createInt64 EPOCH_JULIAN) in
  let j := CreateBin Add julian (createInt64 32044) in
  let g := CreateBin SDiv j (createInt64 146097) in
  let dg := CreateBin SRem j (createInt64 146097) in
  let '(c, b, a, da) := emit_era dg in
  let y := CreateBin Add
             (CreateBin Add (CreateBin Mul g (createInt64 400)) (CreateBin Mul c (createInt64 100)))
             (CreateBin Add (CreateBin Mul b (createInt64 4)) a) in
  let '(m, d) := emit_month da in
  let year := CreateBin Add (CreateBin Sub y (createInt64 4800))
                (CreateBin SDiv (CreateBin Add m (createInt64 2)) (createInt64 12)) in
  let month := CreateBin Add (CreateBin SRem (CreateBin Add m (createInt64 2)) (createInt64 12)) (createInt64 1) in
  let day := CreateBin Add d (createInt64 1) in
  mk_julian julian year month day.

(** The switch over the unit. *)
Definition emit_unit (u : extract_unit) (v : V) : res V :=
  let jc := emit_julian v in
  let vtime := CreateSExtOrTrunc (floorMod v (createInt64 MS_PER_DAY)) 32 in
  match u with
  | MILLISECOND => Ok (CreateBin URem vtime (createInt32 MS_PER_S))
  | SECOND => Ok (CreateBin URem (CreateBin UDiv vtime (createInt32 MS_PER_S)) (createInt32 60))
  | MINUTE => Ok (CreateBin URem (CreateBin UDiv vtime (createInt32 MS_PER_M)) (createInt32 60))
  | HOUR => Ok (CreateBin UDiv vtime (createInt32 MS_PER_H))
  | DAYOFWEEK =>
      Ok (CreateBin Add (floorMod (CreateBin Add (julian jc) (createInt64 1)) (createInt64 7)) (createInt64 1))
  | ISO_DAYOFWEEK => Ok (CreateBin Add (floorMod (julian jc) (createInt64 7)) (createInt64 1))
  | DAYOFMONTH => Ok (day jc)
  | DAYOFYEAR =>
      let y := CreateBin Add (year jc) (createInt64 4799) in
      Ok (CreateBin Add
            (CreateBin Sub
               (CreateBin Add (CreateBin Mul (createInt64 365) y) (CreateBin SDiv y (createInt64 4)))
               (CreateBin SDiv y (createInt64 100)))
            (CreateBin Sub (CreateBin SDiv y (createInt64 400)) (createInt64 31738)))
  | WEEK => Err Throw
  | MONTH => Ok (month jc)
  | QUARTER => Ok (CreateBin UDiv (CreateBin Add (month jc) (createInt64 2)) (createInt64 3))
  | ISO_YEAR => Err Throw
  | YEAR | DECADE | CENTURY | MILLENNIUM =>
      do aoff <- getYearAbsOffset u;
      let soff := CreateSelect (CreateICmp SGT (year jc) (createInt64 0)) (createInt64 aoff) (createInt64 (- aoff)) in
      let fxty := CreateBin Add (year jc) soff in
      do yd <- getYearDiv u;
      Ok (CreateBin SDiv fxty (createInt64 yd))
  end.

(** The whole visit on the value of the operand; the result has the LLVM type of the
    expression, an [Int]. *)
Definition emit_extract (u : extract_unit) (v : V) : res V :=
  do r <- emit_unit u v;
  Ok (CreateSExtOrTrunc r 32).

End code.
#[global] Arguments julian_code : clear implicits.

(** ** The calendar *)

Definition leap (y : Z) : bool := (y mod 4 =? 0) && (negb (y mod 100 =? 0) || (y mod 400 =? 0)).

Definition days_in_month (y m : Z) : Z :=
  if m =? 2 then if leap y then 29 else 28
  else if (m =? 4) || (m =? 6) || (m =? 9) || (m =? 11) then 30 else 31.

(** Year, month, day of the month. *)
Definition next_day (x : Z * Z * Z) : Z * Z * Z :=
  let '(y, m, d) := x in
  if d <? days_in_month y m then (y, m, d + 1) else if m <? 12 then (y, m + 1, 1) else (y + 1, 1, 1).

(** The date [n] days after January 1st, 1970. *)
Definition date_of (n : Z) : Z * Z * Z := Nat.iter (Z.to_nat n) next_day (1970, 1, 1).

(** ** The computation on integers *)

Definition month_day (da : Z) : Z * Z * Z :=
  let m := (da * 5 + 308) / 153 - 2 in
  let d := da - (m + 4) * 153 / 5 + 122 in
  ((m + 2) / 12, (m + 2) mod 12 + 1, d + 1).

Definition split_era (dg : Z) : Z * Z * Z * Z :=
  let c := (dg / 36524 + 1) * 3 / 4 in
  let dc := dg - c * 36524 in
  let b := dc / 1461 in
  let db := dc mod 1461 in
  let a := (db / 365 + 1) * 3 / 4 in
  (c, b, a, db - a * 365).

Definition civil (n : Z) : Z * Z * Z :=
  let j := n + EPOCH_JULIAN + 32044 in
  let g := j / 146097 in
  let '(c, b, a, da) := split_era (j mod 146097) in
  let '(carry, m, d) := month_day da in
  (g * 400 + c * 100 + (b * 4 + a) - 4800 + carry, m, d).

Example civil_epoch : civil 0 = (1970, 1, 1).
Proof. reflexivity. Qed.

Example civil_leap : (civil 10956, civil 11016, civil 11017) = ((1999, 12, 31), (2000, 2, 29), (2000, 3, 1)).
Proof. reflexivity. Qed.

(** The parts of a day of a 400-year era that starts in March. *)
Definition long_year (c b a : Z) : bool := (a =? 3) && ((b <? 24) || (c =? 3)).

Definition parts (c b a da : Z) : Prop :=
  0 <= c <= 3 ∧ 0 <= b <= 24 ∧ 0 <= a <= 3 ∧ 0 <= da < (if long_year c b a then 366 else 365).

Lemma split_era_parts dg : 0 <= dg < 146097 →
  let '(c, b, a, da) := split_era dg in parts c b a da ∧ dg = c * 36524 + b * 1461 + a * 365 + da.
Proof.
  intros Hg. unfold split_era, parts, long_year.
  set (c := (dg / 36524 + 1) * 3 / 4). set (dc := dg - c * 36524).
  set (a := (dc mod 1461 / 365 + 1) * 3 / 4).
  assert (0 <= c <= 3 ∧ 0 <= dc ∧ (c < 3 → dc < 36524) ∧ dc <= 36524) as (Hc & H0 & H1 & H2)
    by (unfold dc, c; Z.div_mod_to_equations; lia).
  assert (0 <= dc / 1461 <= 24) by (Z.div_mod_to_equations; lia).
  pose proof (Z.mod_pos_bound dc 1461 ltac:(lia)) as Hm. pose proof (Z.div_mod dc 1461 ltac:(lia)) as Hd.
  assert (0 <= a <= 3 ∧ 0 <= dc mod 1461 - a * 365 ∧ (a < 3 → dc mod 1461 - a * 365 < 365) ∧ dc mod 1461 - a * 365 <= 365)
    as (Ha & Hda & Hda1 & Hda2) by (unfold a; Z.div_mod_to_equations; lia).
  clearbody c a. unfold dc in *. split; [| lia]. split; [lia |]. split; [lia |]. split; [lia |]. split; [lia |].
  destruct (Z.eqb_spec a 3); simpl; [| lia]. destruct (Z.ltb_spec ((dg - c * 36524) / 1461) 24); simpl; [lia |].
  destruct (Z.eqb_spec c 3); [lia |]. lia.
Qed.

Lemma split_era_unique c b a da : parts c b a da →
  split_era (c * 36524 + b * 1461 + a * 365 + da) = (c, b, a, da).
Proof.
  intros (Hc & Hb & Ha & Hd). unfold split_era, long_year in *. set (dg := c * 36524 + b * 1461 + a * 365 + da).
  assert (b * 1461 + a * 365 + da <= 36524 ∧ (c < 3 → b * 1461 + a * 365 + da < 36524) ∧ a * 365 + da < 1461) as (H1 & H2 & H3).
  { destruct (Z.eqb_spec a 3); simpl in Hd; [| lia]. destruct (Z.ltb_spec b 24); simpl in Hd; [lia |].
    destruct (Z.eqb_spec c 3); lia. }
  assert ((dg / 36524 + 1) * 3 / 4 = c) as -> by (unfold dg; Z.div_mod_to_equations; lia).
  replace (dg - c * 36524) with (a * 365 + da + b * 1461) by (unfold dg; lia).
  rewrite Z.div_add, Z.mod_add by lia. rewrite (Z.div_small (a * 365 + da)), (Z.mod_small (a * 365 + da)) by lia.
  assert (((a * 365 + da) / 365 + 1) * 3 / 4 = a) as ->.
  { destruct (long_year c b a) eqn:E; unfold long_year in E; [| rewrite E in Hd; Z.div_mod_to_equations; lia].
    rewrite E in Hd. apply andb_true_iff in E as [E%Z.eqb_eq _]. Z.div_mod_to_equations; lia. }
  repeat f_equal; lia.
Qed.

(** The date of a day given by its parts. *)
Definition ymd (g c b a da : Z) : Z * Z * Z :=
  let '(carry, m, d) := month_day da in (g * 400 + c * 100 + (b * 4 + a) - 4800 + carry, m, d).

Lemma civil_parts n g c b a da : parts c b a da →
  n + EPOCH_JULIAN + 32044 = g * 146097 + (c * 36524 + b * 1461 + a * 365 + da) → civil n = ymd g c b a da.
Proof.
  intros Hp E. unfold civil. rewrite E.
  assert (0 <= c * 36524 + b * 1461 + a * 365 + da < 146097) as Hr.
  { destruct Hp as (Hc & Hb & Ha & Hd). unfold long_year in Hd.
    destruct (Z.eqb_spec a 3); simpl in Hd; [| lia]. destruct (Z.ltb_spec b 24); simpl in Hd; [lia |].
    destruct (Z.eqb_spec c 3); lia. }
  rewrite Z.add_comm, Z.div_add, Z.mod_add by lia. rewrite Z.div_small, Z.mod_small by lia.
  by rewrite split_era_unique.
Qed.

Lemma has_parts n : ∃ g c b a da, parts c b a da ∧
  n + EPOCH_JULIAN + 32044 = g * 146097 + (c * 36524 + b * 1461 + a * 365 + da).
Proof.
  set (j := n + EPOCH_JULIAN + 32044). pose proof (Z.mod_pos_bound j 146097 ltac:(lia)) as Hm.
  pose proof (split_era_parts _ Hm) as Hs. destruct (split_era (j mod 146097)) as [[[c b] a] da]. destruct Hs as [Hp E].
  exists (j / 146097), c, b, a, da. split; [done |]. rewrite <- E. pose proof (Z.div_mod j 146097 ltac:(lia)). lia.
Qed.

(** The year that follows the March of [(c, b, a)] is a leap year exactly if the year from
    that March has 366 days. *)
Lemma leap_long g c b a : 0 <= c <= 3 → 0 <= b <= 24 → 0 <= a <= 3 →
  leap (g * 400 + c * 100 + (b * 4 + a) - 4800 + 1) = long_year c b a.
Proof.
  intros Hc Hb Ha. unfold leap, long_year.
  set (x := c * 100 + (b * 4 + a) + 1). replace (g * 400 + c * 100 + (b * 4 + a) - 4800 + 1) with (x + (g - 12) * 400) by lia.
  rewrite (Z.mod_add x (g - 12) 400) by lia.
  replace ((x + (g - 12) * 400) mod 100) with (x mod 100)
    by (replace ((g - 12) * 400) with ((g - 12) * 4 * 100) by lia; symmetry; apply Z.mod_add; lia).
  replace ((x + (g - 12) * 400) mod 4) with (x mod 4)
    by (replace ((g - 12) * 400) with ((g - 12) * 100 * 4) by lia; symmetry; apply Z.mod_add; lia).
  assert (x mod 4 = (a + 1) mod 4) as -> by (unfold x; Z.div_mod_to_equations; lia).
  assert (x mod 100 = (b * 4 + a + 1) mod 100) as -> by (unfold x; Z.div_mod_to_equations; lia).
  replace ((a + 1) mod 4 =? 0) with (a =? 3)
    by (apply eq_true_iff_eq; rewrite !Z.eqb_eq; Z.div_mod_to_equations; lia).
  destruct (Z.eqb_spec a 3) as [-> |]; [| done]. simpl.
  replace ((b * 4 + 3 + 1) mod 100 =? 0) with (b =? 24)
    by (apply eq_true_iff_eq; rewrite !Z.eqb_eq; Z.div_mod_to_equations; lia).
  destruct (Z.eqb_spec b 24) as [-> |]; simpl.
  - unfold x. apply eq_true_iff_eq. rewrite !Z.eqb_eq. Z.div_mod_to_equations; lia.
  - symmetry. rewrite (proj2 (Z.ltb_lt b 24)) by lia. done.
Qed.

(** Within a year from March on, all months but February have fixed lengths. *)
Definition month_step (da : Z) : bool :=
  let '(k, m, d) := month_day da in
  let next := if d <? days_in_month 1 m then (k, m, d + 1) else if m <? 12 then (k, m + 1, 1) else (k + 1, 1, 1) in
  bool_decide (month_day (da + 1) = next) && (negb (m =? 2) || ((d <? 28) && (k =? 1))).

Lemma month_steps da : 0 <= da < 364 → month_step da = true.
Proof.
  intros Hda. assert (forallb (λ i, month_step (Z.of_nat i)) (seq 0 364) = true) as H by (vm_compute; reflexivity).
  rewrite forallb_forall in H. specialize (H (Z.to_nat da)). rewrite Z2Nat.id in H by lia. apply H, in_seq. lia.
Qed.

Lemma days_in_month_other y m : m ≠ 2 → days_in_month y m = days_in_month 1 m.
Proof. intros Hm. unfold days_in_month. by rewrite (proj2 (Z.eqb_neq _ _) Hm). Qed.

Lemma ymd_next g c b a da : 0 <= c <= 3 → 0 <= b <= 24 → 0 <= a <= 3 →
  0 <= da → da + 1 < (if long_year c b a then 366 else 365) → ymd g c b a (da + 1) = next_day (ymd g c b a da).
Proof.
  intros Hc Hb Ha H0 Hlt. destruct (decide (da = 364)) as [-> | Hne].
  - assert (long_year c b a = true) as El by (destruct (long_year c b a); [done | lia]).
    unfold ymd. change (month_day 364) with (1, 2, 28). change (month_day (364 + 1)) with (1, 2, 29). unfold next_day, days_in_month.
    rewrite leap_long by done. by rewrite El.
  - assert (da < 364) as Hd by (destruct (long_year c b a); lia). pose proof (month_steps da ltac:(lia)) as Hs.
    unfold month_step in Hs. unfold ymd. destruct (month_day da) as [[k m] d].
    apply andb_true_iff in Hs as [Hs%bool_decide_eq_true Hf]. rewrite Hs. unfold next_day.
    destruct (Z.eqb_spec m 2) as [-> | Hm2].
    + simpl in Hf. apply andb_true_iff in Hf as [Hd28%Z.ltb_lt Hk%Z.eqb_eq]. subst k.
      assert (∀ y, (d <? days_in_month y 2) = true) as Hall
        by (intros y; apply Z.ltb_lt; unfold days_in_month; simpl; destruct (leap y); lia).
      by rewrite !Hall.
    + rewrite (days_in_month_other (g * 400 + c * 100 + (b * 4 + a) - 4800 + k) m Hm2). destruct (d <? days_in_month 1 m); [done |].
      destruct (m <? 12); [done |]. f_equal. f_equal. lia.
Qed.

(** The last day of the year before a March. *)
Lemma ymd_last g c b a : 0 <= c <= 3 → 0 <= b <= 24 → 0 <= a <= 3 →
  next_day (ymd g c b a (if long_year c b a then 365 else 364)) =
  (g * 400 + c * 100 + (b * 4 + a) - 4800 + 1, 3, 1).
Proof.
  intros Hc Hb Ha. pose proof (leap_long g c b a Hc Hb Ha) as El. unfold ymd. destruct (long_year c b a).
  - change (month_day 365) with (1, 2, 29). unfold next_day, days_in_month. by rewrite El.
  - change (month_day 364) with (1, 2, 28). unfold next_day, days_in_month. by rewrite El.
Qed.

Lemma civil_next n : civil (n + 1) = next_day (civil n).
Proof.
  destruct (has_parts n) as (g & c & b & a & da & Hp & E). rewrite (civil_parts n g c b a da Hp E).
  pose proof Hp as (Hc & Hb & Ha & Hd). set (len := if long_year c b a then 366 else 365) in *.
  destruct (Z_lt_le_dec (da + 1) len) as [Hlt | Hge].
  { rewrite <- ymd_next by (unfold len in *; lia). apply civil_parts; [| lia]. unfold parts. fold len. lia. }
  replace da with (if long_year c b a then 365 else 364) in *
    by (unfold len in *; destruct (long_year c b a); lia).
  rewrite ymd_last by done.
  assert (∀ g' c' b' a', 0 <= c' <= 3 → 0 <= b' <= 24 → 0 <= a' <= 3 →
    g' * 146097 + (c' * 36524 + b' * 1461 + a' * 365) = g * 146097 + (c * 36524 + b * 1461 + a * 365) + len →
    g' * 400 + c' * 100 + (b' * 4 + a') = g * 400 + c * 100 + (b * 4 + a) + 1 →
    civil (n + 1) = (g * 400 + c * 100 + (b * 4 + a) - 4800 + 1, 3, 1)) as Hnext.
  { intros g' c' b' a' H1 H2 H3 E1 E2. rewrite (civil_parts (n + 1) g' c' b' a' 0).
    - unfold ymd. change (month_day 0) with (0, 3, 1). f_equal. f_equal. lia.
    - unfold parts. destruct (long_year c' b' a'); lia.
    - unfold len in *. destruct (long_year c b a); lia. }
  unfold len, long_year in Hnext. destruct (Z.eqb_spec a 3) as [-> | Ha3]; cbn [andb] in Hnext.
  - destruct (Z.ltb_spec b 24) as [Hb24 | Hb24]; cbn [orb] in Hnext; [apply (Hnext g c (b + 1) 0); lia |].
    replace b with 24 in * by lia. destruct (Z.eqb_spec c 3) as [-> | Hc3]; [apply (Hnext (g + 1) 0 0 0); lia |].
    apply (Hnext g (c + 1) 0 0); lia.
  - apply (Hnext g c b (a + 1)); lia.
Qed.

Lemma civil_is_date n : 0 <= n → civil n = date_of n.
Proof.
  revert n. apply natlike_ind; [reflexivity |]. intros n Hn IH. unfold Z.succ. rewrite civil_next, IH.
  unfold date_of. rewrite Z2Nat.inj_add by lia. rewrite Nat.add_comm. done.
Qed.

(** ** The code computes the calendar *)

Section correct.
Context {F V : Type} `{FloatOps F, IRBuilder F V, !LangRef F V}.

Abbreviation is64 v x := (computes 64 v (Ok x)).

Lemma bin_Ok w op (a b : V) x y z : 0 < w → computes w a (Ok x) → computes w b (Ok y) → sem_bin w op x y = Ok z →
  computes w (CreateBin op a b) (Ok z).
Proof. intros Hw Ha Hb E. rewrite <- E. exact (computes_bin w op a b (Ok x) (Ok y) Hw Ha Hb). Qed.

Lemma bin_add w (a b : V) x y : 0 < w → computes w a (Ok x) → computes w b (Ok y) → in_signed w (x + y) →
  computes w (CreateBin Add a b) (Ok (x + y)).
Proof. intros Hw Ha Hb Hr. eapply bin_Ok; eauto. simpl. by rewrite swrap_id. Qed.

Lemma bin_sub w (a b : V) x y : 0 < w → computes w a (Ok x) → computes w b (Ok y) → in_signed w (x - y) →
  computes w (CreateBin Sub a b) (Ok (x - y)).
Proof. intros Hw Ha Hb Hr. eapply bin_Ok; eauto. simpl. by rewrite swrap_id. Qed.

Lemma bin_mul w (a b : V) x y : 0 < w → computes w a (Ok x) → computes w b (Ok y) → in_signed w (x * y) →
  computes w (CreateBin Mul a b) (Ok (x * y)).
Proof. intros Hw Ha Hb Hr. eapply bin_Ok; eauto. simpl. by rewrite swrap_id. Qed.

Lemma computes_range w (a : V) x : computes w a (Ok x) → in_signed w x.
Proof. intros (_ & _ & Hr). by apply Hr. Qed.

(** Divisions of a number that is not negative by a positive one. *)
Lemma bin_div w op (a b : V) x y : 0 < w → computes w a (Ok x) → computes w b (Ok y) → 0 <= x → 0 < y →
  op = SDiv ∨ op = UDiv → computes w (CreateBin op a b) (Ok (x / y)).
Proof.
  intros Hw Ha Hb Hx Hy Hop. pose proof (computes_range w a x Ha) as Rx. pose proof (computes_range w b y Hb) as Ry.
  pose proof (pow_half w Hw) as [Hp Hq]. unfold in_signed in *. eapply bin_Ok; eauto.
  destruct Hop as [-> | ->]; cbn [sem_bin]; rewrite (proj2 (Z.eqb_neq y 0)) by lia; cbn [negb].
  - rewrite (proj2 (Z.eqb_neq y (-1))), andb_false_r by lia. cbn [negb]. by rewrite Z.quot_div_nonneg by lia.
  - rewrite !wrap_id by lia. f_equal. apply swrap_id; [done |]. pose proof (udiv_range x y (2 ^ (w - 1)) ltac:(lia) Hy).
    unfold in_signed. lia.
Qed.

Lemma bin_rem w op (a b : V) x y : 0 < w → computes w a (Ok x) → computes w b (Ok y) → 0 <= x → 0 < y →
  op = SRem ∨ op = URem → computes w (CreateBin op a b) (Ok (x mod y)).
Proof.
  intros Hw Ha Hb Hx Hy Hop. pose proof (computes_range w a x Ha) as Rx. pose proof (computes_range w b y Hb) as Ry.
  pose proof (pow_half w Hw) as [Hp Hq]. unfold in_signed in *. eapply bin_Ok; eauto.
  destruct Hop as [-> | ->]; cbn [sem_bin]; rewrite (proj2 (Z.eqb_neq y 0)) by lia; cbn [negb].
  - rewrite (proj2 (Z.eqb_neq y (-1))), andb_false_r by lia. cbn [negb]. by rewrite Z.rem_mod_nonneg by lia.
  - rewrite !wrap_id by lia. f_equal. apply swrap_id; [done |]. pose proof (Z.mod_pos_bound x y Hy). unfold in_signed. lia.
Qed.

Lemma in64 x : -9223372036854775808 <= x < 9223372036854775808 → in_signed 64 x.
Proof. done. Qed.

Lemma const64 z : -9223372036854775808 <= z < 9223372036854775808 → is64 (ConstInt 64 z) z.
Proof. intros Hz. by apply computes_const. Qed.

(** One step of a computation on 64 bits whose values [lia] can bound. *)
Ltac step64 :=
  first [ assumption
        | apply bin_add; [lia | | | apply in64; lia]
        | apply bin_sub; [lia | | | apply in64; lia]
        | apply bin_mul; [lia | | | apply in64; lia]
        | apply bin_div; [lia | | | lia | lia | by (left + right)]
        | apply bin_rem; [lia | | | lia | lia | by (left + right)]
        | apply const64; lia ].

Lemma emit_quarter_ok (v : V) x q : is64 v x → 0 <= x <= 2 ^ 32 → 0 < q < 2 ^ 32 →
  is64 (emit_quarter v q) ((x / q + 1) * 3 / 4).
Proof.
  intros Hv Hx Hq. assert (0 <= x / q <= 2 ^ 32) by (pose proof (udiv_range x q (2 ^ 32 + 1)); lia).
  unfold emit_quarter. repeat step64.
Qed.

Lemma emit_era_ok (v : V) dg : is64 v dg → 0 <= dg < 146097 →
  let '(C, B, A, DA) := emit_era v in let '(c, b, a, da) := split_era dg in
  is64 C c ∧ is64 B b ∧ is64 A a ∧ is64 DA da ∧ 0 <= c <= 3 ∧ 0 <= b <= 24 ∧ 0 <= a <= 3 ∧ 0 <= da <= 365.
Proof.
  intros Hv Hg. unfold emit_era, split_era.
  pose proof (emit_quarter_ok v dg 36524 Hv ltac:(lia) ltac:(lia)) as HC. set (c := (dg / 36524 + 1) * 3 / 4) in *.
  assert (0 <= c <= 3 ∧ 0 <= dg - c * 36524 <= 36524) as Hc by (unfold c; Z.div_mod_to_equations; lia).
  set (C := emit_quarter v 36524) in *. clearbody c C.
  set (DC := CreateBin Sub v _). assert (is64 DC (dg - c * 36524)) as HDC by (unfold DC; repeat step64).
  set (dc := dg - c * 36524) in *. clearbody dc DC.
  set (DB := CreateBin SRem DC _). assert (is64 DB (dc mod 1461)) as HDB by (unfold DB; repeat step64).
  pose proof (Z.mod_pos_bound dc 1461 ltac:(lia)) as Hdb. assert (0 <= dc / 1461 <= 24) as Hb by (Z.div_mod_to_equations; lia).
  set (db := dc mod 1461) in *. clearbody db DB.
  pose proof (emit_quarter_ok DB db 365 HDB ltac:(lia) ltac:(lia)) as HA. set (a := (db / 365 + 1) * 3 / 4) in *.
  assert (0 <= a <= 3 ∧ 0 <= db - a * 365 <= 365) as Ha by (unfold a; Z.div_mod_to_equations; lia).
  set (A := emit_quarter DB 365) in *. clearbody a A.
  split; [done |]. split; [repeat step64 |]. split; [done |]. split; [repeat step64 | lia].
Qed.

Lemma emit_month_ok (v : V) da : is64 v da → 0 <= da <= 365 →
  let '(M, D) := emit_month v in let m := (da * 5 + 308) / 153 - 2 in let d := da - (m + 4) * 153 / 5 + 122 in
  is64 M m ∧ is64 D d ∧ 0 <= m <= 11 ∧ 0 <= d <= 30.
Proof.
  intros Hv Hd. unfold emit_month.
  set (M := CreateBin Sub _ (ConstInt 64 2)).
  assert (0 <= (da * 5 + 308) / 153 - 2 <= 11) as Hm by (Z.div_mod_to_equations; lia).
  assert (is64 M ((da * 5 + 308) / 153 - 2)) as HM by (unfold M; repeat step64).
  set (m := (da * 5 + 308) / 153 - 2) in *.
  assert (0 <= da - (m + 4) * 153 / 5 + 122 <= 30) as Hdd by (unfold m in *; Z.div_mod_to_equations; lia).
  assert (0 <= (m + 4) * 153 / 5 <= 500) by (Z.div_mod_to_equations; lia). clearbody m M.
  split; [done |]. split; [repeat step64 | lia].
Qed.

Lemma emit_julian_ok (v : V) z : is64 v z → 0 <= z →
  let n := z / MS_PER_DAY in let jc := emit_julian v in let '(y, m, d) := civil n in
  is64 (julian jc) (n + EPOCH_JULIAN) ∧ is64 (year jc) y ∧ is64 (month jc) m ∧ is64 (day jc) d ∧
  0 <= n <= 106751991167 ∧ 0 < y < 2 ^ 30 ∧ 1 <= m <= 12 ∧ 1 <= d <= 31.
Proof.
  intros Hv Hz n jc. pose proof (computes_range _ _ _ Hv) as Hr. unfold in_signed in Hr. simpl in Hr.
  assert (0 <= n <= 106751991167) as Hn by (unfold n; change MS_PER_DAY with 86400000; Z.div_mod_to_equations; lia).
  unfold jc, emit_julian. clear jc. change EPOCH_JULIAN with 2440588. set (JU := CreateBin Add _ (ConstInt 64 2440588)).
  assert (is64 JU (n + 2440588)) as HJU by (unfold JU, n; change MS_PER_DAY with 86400000 in *; repeat step64).
  clearbody JU. unfold civil. change EPOCH_JULIAN with 2440588. set (j := n + 2440588 + 32044).
  set (J := CreateBin Add JU _). assert (is64 J j) as HJ by (unfold J, j; repeat step64).
  assert (2472632 <= j <= 200000000000) as Hj by (unfold j; lia). clearbody j J.
  pose proof (Z.mod_pos_bound j 146097 ltac:(lia)) as Hdg. assert (16 <= j / 146097 <= 1400000) as Hg by (Z.div_mod_to_equations; lia).
  set (G := CreateBin SDiv J _). assert (is64 G (j / 146097)) as HG by (unfold G; repeat step64).
  set (DG := CreateBin SRem J _). assert (is64 DG (j mod 146097)) as HDG by (unfold DG; repeat step64).
  pose proof (emit_era_ok DG _ HDG Hdg) as He. clearbody DG G. set (g := j / 146097) in *. clearbody g.
  destruct (emit_era DG) as [[[C B] A] DA], (split_era (j mod 146097)) as [[[c b] a] da].
  destruct He as (HC & HB & HA & HDA & Hc & Hb & Ha & Hda). unfold month_day.
  pose proof (emit_month_ok DA da HDA Hda) as Hmo. destruct (emit_month DA) as [M D]. cbv zeta in Hmo.
  set (m := (da * 5 + 308) / 153 - 2) in *. clearbody m. set (d := da - (m + 4) * 153 / 5 + 122) in *. clearbody d.
  destruct Hmo as (HM & HD & Hm & Hd). cbn [julian year month day].
  assert (0 <= (m + 2) / 12 <= 1 ∧ 0 <= (m + 2) mod 12 <= 11) as Hmm by (Z.div_mod_to_equations; lia).
  split; [done |]. split; [repeat step64 |]. split; [repeat step64 |]. split; [repeat step64 | lia].
Qed.

Lemma lxor_signed64 x y : 0 <= x < 2 ^ 63 → 0 <= y < 2 ^ 63 → 0 <= Z.lxor x y < 2 ^ 63.
Proof. intros Hx Hy. assert (Z.lxor x y = wrap 63 (Z.lxor x y)) as ->; [bits_eq | by apply wrap_range]. Qed.

Lemma floorMod_ok (a b : V) x y : is64 a x → is64 b y → 0 <= x → 0 < y → is64 (floorMod a b) (x mod y).
Proof.
  intros Ha Hb Hx Hy. pose proof (computes_range _ _ _ Ha) as Rx. pose proof (computes_range _ _ _ Hb) as Ry.
  unfold in_signed in Rx, Ry. simpl in Rx, Ry. unfold floorMod, floorDiv.
  set (R := CreateBin SDiv a b). assert (is64 R (x / y)) as HR by (unfold R; step64; assumption).
  pose proof (udiv_range x y (x + 1) ltac:(lia) Hy) as Hq. assert (0 <= x / y * y <= x) as Hm by (pose proof (Z.div_mod x y); pose proof (Z.mod_pos_bound x y); nia).
  pose proof (lxor_signed64 x y ltac:(lia) ltac:(lia)) as Hxy.
  assert (is64 (CreateBin Xor a b) (Z.lxor x y)) as HX.
  { eapply bin_Ok; eauto; [lia |]. simpl. f_equal. apply swrap_id; [lia |]. apply in64. lia. }
  set (Cond := CreateBin And _ _). assert (decides Cond (Ok false)) as HC.
  { unfold Cond. apply (decides_bin And andb _ _ (Ok false) (Ok (negb (x / y * y =? x)))); [done | |].
    - pose proof (decides_cmp 64 SLT _ _ _ _ ltac:(lia) HX (const64 0 ltac:(lia))) as H2. simpl in H2.
      by rewrite (proj2 (Z.ltb_ge _ _)) in H2 by lia.
    - apply (decides_cmp 64 NE _ _ (Ok (x / y * y)) (Ok x)); [lia | | done]. apply bin_mul; [lia | done | done | apply in64; lia]. }
  replace (x mod y) with (x - x / y * y) by (pose proof (Z.div_mod x y); lia).
  apply bin_sub; [lia | done | | apply in64; lia]. apply bin_mul; [lia | | done | apply in64; lia].
  apply (computes_select 64 Cond _ R false (x / y - 1) (x / y)); [done | | done]. repeat step64.
Qed.

(** ** The fields of a date *)

Definition calendar (u : extract_unit) (z : Z) : option Z :=
  let n := z / MS_PER_DAY in
  let t := z mod MS_PER_DAY in
  let '(y, m, d) := date_of n in
  match u with
  | MILLISECOND => Some (t mod 1000)
  | SECOND => Some (t / MS_PER_S mod 60)
  | MINUTE => Some (t / MS_PER_M mod 60)
  | HOUR => Some (t / MS_PER_H)
  | DAYOFWEEK => Some ((n + 4) mod 7 + 1)            (* January 1st, 1970 was a Thursday *)
  | ISO_DAYOFWEEK => Some ((n + 3) mod 7 + 1)
  | DAYOFMONTH => Some d
  | MONTH => Some m
  | QUARTER => Some ((m + 2) / 3)
  | YEAR => Some y
  | DECADE => Some (y / 10)
  | CENTURY => Some ((y + 99) / 100)
  | MILLENNIUM => Some ((y + 999) / 1000)
  | DAYOFYEAR | WEEK | ISO_YEAR => None
  end.

Lemma year_unit_ok (v : V) y aoff yd : is64 v y → 0 < y < 2 ^ 30 → 0 <= aoff < 1000 → 0 < yd <= 1000 →
  is64 (CreateBin SDiv (CreateBin Add v (CreateSelect (CreateICmp SGT v (ConstInt 64 0)) (ConstInt 64 aoff) (ConstInt 64 (- aoff))))
          (ConstInt 64 yd)) ((y + aoff) / yd) ∧ 0 <= (y + aoff) / yd < 2 ^ 31.
Proof.
  intros Hv Hy Ha Hd. split; [| pose proof (udiv_range (y + aoff) yd (2 ^ 31)); lia].
  apply bin_div; [lia | | apply const64; lia | lia | lia | by left].
  apply bin_add; [lia | done | | apply in64; lia].
  apply (computes_select 64 _ _ _ true aoff (- aoff)); [| apply const64; lia | apply const64; lia].
  pose proof (decides_cmp 64 SGT v (ConstInt 64 0) (Ok y) (Ok 0) ltac:(lia) Hv (const64 0 ltac:(lia))) as Hc. simpl in Hc.
  by rewrite (proj2 (Z.ltb_lt 0 y)) in Hc by lia.
Qed.

(** The time of the day, in 32 bits. *)
Lemma vtime_ok (v : V) z : is64 v z → 0 <= z →
  computes 32 (CreateSExtOrTrunc (floorMod v (ConstInt 64 MS_PER_DAY)) 32) (Ok (z mod MS_PER_DAY)).
Proof.
  intros Hv Hz. change MS_PER_DAY with 86400000.
  pose proof (floorMod_ok v (ConstInt 64 86400000) z 86400000 Hv (const64 86400000 ltac:(lia)) Hz ltac:(lia)) as Hf.
  pose proof (computes_sext 64 32 _ _ ltac:(lia) ltac:(lia) Hf) as Hs. cbn [rbind] in Hs.
  rewrite swrap_id in Hs; [done | lia |]. pose proof (Z.mod_pos_bound z 86400000). unfold in_signed. simpl. lia.
Qed.

(** What the code of a unit has to give before the cast to the type of the expression. *)
Definition emits (u : extract_unit) (v : V) (r : Z) : Prop :=
  ∃ c w, emit_unit u v = Ok c ∧ (w = 32 ∨ w = 64) ∧ computes w c (Ok r) ∧ 0 <= r < 2 ^ 31.

Lemma emits_time (v : V) z t : is64 v z → 0 <= z → t = z mod MS_PER_DAY →
  emits MILLISECOND v (t mod 1000) ∧ emits SECOND v (t / MS_PER_S mod 60) ∧ emits MINUTE v (t / MS_PER_M mod 60) ∧
  emits HOUR v (t / MS_PER_H).
Proof.
  intros Hv Hz Et. pose proof (vtime_ok v z Hv Hz) as Ht. rewrite <- Et in Ht.
  assert (0 <= t < 86400000) as Hm by (rewrite Et; change MS_PER_DAY with 86400000; apply Z.mod_pos_bound; lia).
  assert (∀ k, 0 < k < 2 ^ 31 → computes 32 (ConstInt 32 k) (Ok k)) as K
    by (intros k Hk; apply computes_const; [lia |]; unfold in_signed; simpl; lia).
  change MS_PER_S with 1000. change MS_PER_M with 60000. change MS_PER_H with 3600000.
  assert (∀ k, 0 < k → 0 <= t / k < 86400000) as Hd by (intros k Hk; by apply udiv_range).
  assert (∀ a b, 0 < b → 0 <= a mod b < b) as Mb by (intros; by apply Z.mod_pos_bound).
  assert (∀ k, 0 < k < 2 ^ 31 → computes 32 (CreateBin UDiv (CreateSExtOrTrunc (floorMod v (ConstInt 64 MS_PER_DAY)) 32) (ConstInt 32 k)) (Ok (t / k))) as D.
  { intros k Hk. apply bin_div; [lia | done | by apply K | lia | lia | by right]. }
  split; [| split; [| split]]; eexists _, 32; (split; [reflexivity |]; split; [by left |]).
  - split; [apply bin_rem; [lia | done | apply K; done | lia | lia | by right] | pose proof (Mb t 1000); lia].
  - pose proof (Hd 1000). split; [| pose proof (Mb (t / 1000) 60); lia].
    apply bin_rem; [lia | by apply D | by apply K | lia | lia | by right].
  - pose proof (Hd 60000). split; [| pose proof (Mb (t / 60000) 60); lia].
    apply bin_rem; [lia | by apply D | by apply K | lia | lia | by right].
  - split; [by apply D | pose proof (Hd 3600000); lia].
Qed.

Lemma emits_weekday (v : V) z n : is64 v z → 0 <= z → n = z / MS_PER_DAY →
  emits DAYOFWEEK v ((n + 4) mod 7 + 1) ∧ emits ISO_DAYOFWEEK v ((n + 3) mod 7 + 1).
Proof.
  intros Hv Hz En. pose proof (emit_julian_ok v z Hv Hz) as Hj. cbv zeta in Hj. rewrite <- En in Hj.
  destruct (civil n) as [[y m] d]. destruct Hj as (HJ & _ & _ & _ & Hn & _). change EPOCH_JULIAN with 2440588 in *.
  set (ju := julian (emit_julian v)) in *.
  assert (∀ (a : V) x k, is64 a (x + k * 7) → 0 <= x + k * 7 →
    is64 (CreateBin Add (floorMod a (ConstInt 64 7)) (ConstInt 64 1)) (x mod 7 + 1) ∧ 0 <= x mod 7 + 1 < 2 ^ 31) as Hw.
  { intros a x k Ha Hx0. pose proof (Z.mod_pos_bound x 7 ltac:(lia)). split; [| lia].
    apply bin_add; [lia | | apply const64; lia | apply in64; lia]. rewrite <- (Z.mod_add x k) by lia.
    apply floorMod_ok; [done | apply const64; lia | lia | lia]. }
  split; eexists _, 64; (split; [reflexivity |]; split; [by right |]).
  - apply (Hw _ _ 348655); [| lia]. replace (n + 4 + 348655 * 7) with (n + 2440588 + 1) by lia. repeat step64.
  - apply (Hw _ _ 348655); [| lia]. by replace (n + 3 + 348655 * 7) with (n + 2440588) by lia.
Qed.

Lemma emits_date (v : V) z y m d : is64 v z → 0 <= z → date_of (z / MS_PER_DAY) = (y, m, d) →
  emits DAYOFMONTH v d ∧ emits MONTH v m ∧ emits QUARTER v ((m + 2) / 3) ∧
  emits YEAR v y ∧ emits DECADE v (y / 10) ∧ emits CENTURY v ((y + 99) / 100) ∧ emits MILLENNIUM v ((y + 999) / 1000).
Proof.
  intros Hv Hz Ed. pose proof (emit_julian_ok v z Hv Hz) as Hj. cbv zeta in Hj.
  rewrite civil_is_date, Ed in Hj by (apply Z.div_pos; [lia | done]). destruct Hj as (_ & HY & HM & HD & _ & Hy & Hm & Hd).
  pose proof (λ o k, year_unit_ok _ y o k HY Hy) as U.
  split; [| split; [| split; [| split; [| split; [| split]]]]]; eexists _, 64; (split; [reflexivity |]; split; [by right |]).
  - split; [done | lia].
  - split; [done | lia].
  - split; [| pose proof (udiv_range (m + 2) 3 15); lia].
    apply bin_div; [lia | | apply const64; lia | lia | lia | by right]. apply bin_add; [lia | done | apply const64; lia | apply in64; lia].
  - pose proof (U 0 1 ltac:(lia) ltac:(lia)) as U1. by rewrite Z.div_1_r, Z.add_0_r in U1.
  - pose proof (U 0 10 ltac:(lia) ltac:(lia)) as U1. by rewrite Z.add_0_r in U1.
  - apply U; lia.
  - apply U; lia.
Qed.

Lemma emit_unit_ok u (v : V) z r : is64 v z → 0 <= z → calendar u z = Some r → emits u v r.
Proof.
  intros Hv Hz Hc. unfold calendar in Hc. destruct (date_of (z / MS_PER_DAY)) as [[y m] d] eqn:Ed.
  destruct (emits_time v z _ Hv Hz eq_refl) as (? & ? & ? & ?), (emits_weekday v z _ Hv Hz eq_refl) as (? & ?),
    (emits_date v z y m d Hv Hz Ed) as (? & ? & ? & ? & ? & ? & ?).
  destruct u; try discriminate Hc; injection Hc as <-; done.
Qed.

(** C21: The code emitted for the extraction of a field from a date at or after 1970 computes
    that field of the Gregorian calendar, where the calendar is counted day by day from
    January 1st, 1970: year, month, day and quarter, decade, century and millennium, the day
    of the week, and the time of the day. *)
Theorem extract_is_calendar (u : extract_unit) (v : V) (z r : Z) :
  computes 64 v (Ok z) → 0 <= z → calendar u z = Some r →
  ∃ c, emit_extract u v = Ok c ∧ computes 32 c (Ok r).
Proof.
  intros Hv Hz Hc. destruct (emit_unit_ok u v z r Hv Hz Hc) as (c & w & E & Hw & Hcomp & Hr). unfold emit_extract. rewrite E.
  eexists. split; [done |]. pose proof (computes_sext w 32 c (Ok r) ltac:(lia) ltac:(lia) Hcomp) as Hs. cbn [rbind] in Hs.
  rewrite swrap_id in Hs; [done | lia |]. unfold in_signed. simpl. lia.
Qed.

End correct.

(** ** Examples *)

Import Interp.

Definition ex_date (z : Z) : Interp.V (F := Z) := ConstInt 64 z.

(** 01:02:03.004 on March 1st, 1970. *)
Definition march1 : Z := 59 * MS_PER_DAY + 3723004.

Lemma extract_is_calendar_witness :
  (∃ c, emit_extract MONTH (ex_date march1) = Ok c ∧ computes 32 c (Ok 3)) ∧
  (∃ c, emit_extract SECOND (ex_date march1) = Ok c ∧ computes 32 c (Ok 3)).
Proof.
  assert (computes 64 (ex_date march1) (Ok march1)) as Hd by (apply computes_const; [lia | unfold in_signed; vm_compute; split; congruence]).
  split.
  - apply (extract_is_calendar MONTH (ex_date march1) march1 3 Hd); [vm_compute; congruence | vm_compute; reflexivity].
  - apply (extract_is_calendar SECOND (ex_date march1) march1 3 Hd); [vm_compute; congruence | vm_compute; reflexivity].
Defined.

(** The day of the year is not computed: the code stops at the Julian day of January 1st. *)
Lemma day_of_year_is_julian : (do c <- emit_extract DAYOFYEAR (ex_date march1); run_int c) = Ok 2440588.
Proof. vm_compute. reflexivity. Qed.

(** The days are counted with an unsigned division, so a date before 1970 is taken for one in
    the far future: its year is not 1969. *)
Lemma before_1970 : (do c <- emit_extract YEAR (ex_date (-1)); run_int c) = Ok 584556019.
Proof. vm_compute. reflexivity. Qed.

End Extract.
