(* ===== verification/Hash.v ===== *)
(** * Hash: hashing of values in generated code
    ([hashInt32], [hashInt64], [hashPrimitive] and the record case of
    [olap/lib/expressions/expressions-hasher.cpp]).

    Joins and aggregations compare hashes first.  The mixing functions emitted for integers
    are one to one ([mix_inj]): two different keys of the same width never get the same hash. *)

From Stdlib Require Import ZArith Lia Bool.
From stdpp Require Import base numbers list strings.
From S2P Require Import Prelude ExprTypes LLVM Expressions.

Local Open Scope Z_scope.
Local Open Scope res_scope.

Module Hash.
Import ExprTypes Expressions.

Section code.
Context {F V : Type} `{FloatOps F, IRBuilder F V}.

(** [hash ^ (hash >> k)] *)
Definition emit_xorshift (k : Z) (h : V) : V := CreateBin Xor h (CreateBin LShr h (ConstInt 64 k)).
Definition emit_mul (c : Z) (h : V) : V := CreateBin Mul h (ConstInt 64 c).

Definition hashInt32 (v : ProteusValue V) : res (ProteusValue V) :=
  check bool_decide (vtype (value v) = TInt 32) else AssertFailed;
  let hash := CreateSExtOrTrunc (value v) 64 in
  let hash := emit_xorshift 16 hash in
  let hash := emit_mul 2246822507 hash in         (* 0x85ebca6b *)
  let hash := emit_xorshift 13 hash in
  let hash := emit_mul 3266489909 hash in         (* 0xc2b2ae35 *)
  let hash := emit_xorshift 16 hash in
  Ok (mk_pv hash (isNull v)).

Definition hashInt64 (v : ProteusValue V) : res (ProteusValue V) :=
  check bool_decide (vtype (value v) = TInt 64) else AssertFailed;
  let hash := CreateSExtOrTrunc (value v) 64 in
  let hash := emit_xorshift 33 hash in
  let hash := emit_mul 18397679294719823053 hash in    (* 0xff51afd7ed558ccd *)
  let hash := emit_xorshift 33 hash in
  let hash := emit_mul 14181476777654086739 hash in    (* 0xc4ceb9fe1a85ec53 *)
  let hash := emit_xorshift 33 hash in
  Ok (mk_pv hash (isNull v)).

Definition hashPrimitive (v : ProteusValue V) (t : typeID) : res (ProteusValue V) :=
  match t with
  | INT | DSTRING => hashInt32 v
  | INT64 | DATE => hashInt64 v
  | FLOAT => Ok (mk_pv (CreateCall "hashDouble" (TInt 64) [value v]) (isNull v))
  | BOOL => Ok (mk_pv (CreateCall "hashBoolean" (TInt 64) [value v]) (isNull v))
  | STRING => Ok (mk_pv (CreateCall "hashStringObject" (TInt 64) [value v]) (ConstInt 1 0))
  | BAG | LIST | SET | COMPOSITE | RECORD | BLOCK => Err Throw
  | INDEXEDSEQ => Err Throw
  end.

(** One step of the record case: the hash of an attribute enters the seed. *)
Definition emit_combine (seed hv : V) : V :=
  let hv := CreateBin Add hv (ConstInt 64 2654435769) in   (* 0x9e3779b9 *)
  let hv := CreateBin Add hv (CreateBin Shl seed (ConstInt 64 6)) in
  let hv := CreateBin Add hv (CreateBin LShr seed (ConstInt 64 2)) in
  CreateBin Xor hv seed.

Definition emit_record_hash (hvs : list V) : V := foldl emit_combine (ConstInt 64 0) hvs.

End code.

(** ** The mixing functions are one to one *)

Definition xorshift (k h : Z) : Z := Z.lxor h (Z.shiftr h k).
Definition mulc (c h : Z) : Z := u64 (h * c).

Definition mix32 (x : Z) : Z := xorshift 16 (mulc 3266489909 (xorshift 13 (mulc 2246822507 (xorshift 16 x)))).
Definition mix64 (x : Z) : Z :=
  xorshift 33 (mulc 14181476777654086739 (xorshift 33 (mulc 18397679294719823053 (xorshift 33 x)))).

Lemma xorshift_inj k x y : 0 < k → 0 <= x < 2 ^ 64 → 0 <= y < 2 ^ 64 → xorshift k x = xorshift k y → x = y.
Proof.
  intros Hk Hx Hy E.
  assert (∀ n i, 0 <= i → 64 - Z.of_nat n <= i → Z.testbit x i = Z.testbit y i) as Hb.
  { induction n as [| n IH]; intros i Hi Hn.
    - by rewrite !(testbit_above _ 64) by (done || lia).
    - assert (Z.testbit (xorshift k x) i = Z.testbit (xorshift k y) i) as Ei by (by rewrite E).
      unfold xorshift in Ei. rewrite !Z.lxor_spec, !Z.shiftr_spec in Ei by done. rewrite (IH (i + k)) in Ei by lia.
      by destruct (Z.testbit x i), (Z.testbit y i), (Z.testbit y (i + k)). }
  apply Z.bits_inj'. intros i Hi. apply (Hb 64%nat); lia.
Qed.

(** A multiplication with an inverse modulo 2^64. *)
Lemma mulc_inj c d x y : wrap 64 (c * d) = 1 → 0 <= x < 2 ^ 64 → 0 <= y < 2 ^ 64 → mulc c x = mulc c y → x = y.
Proof.
  intros Hd Hx Hy E. assert (∀ z, 0 <= z < 2 ^ 64 → mulc d (mulc c z) = z) as Hinv.
  { intros z Hz. unfold mulc, wrap in *. rewrite Z.mul_mod_idemp_l by lia. rewrite <- Z.mul_assoc, <- Z.mul_mod_idemp_r, Hd by lia.
    rewrite Z.mul_1_r. by apply Z.mod_small. }
  rewrite <- (Hinv x Hx), <- (Hinv y Hy), E. done.
Qed.

Lemma xorshift_range k x : 0 <= k → 0 <= x < 2 ^ 64 → 0 <= xorshift k x < 2 ^ 64.
Proof.
  intros Hk Hx. unfold xorshift. assert (0 <= Z.shiftr x k < 2 ^ 64).
  { rewrite Z.shiftr_div_pow2 by done. apply udiv_range; [done | apply Z.pow_pos_nonneg; lia]. }
  by apply Interp.lxor_range.
Qed.

Lemma mulc_range c x : 0 <= mulc c x < 2 ^ 64.
Proof. apply wrap_range. lia. Qed.

Lemma mix32_inj x y : 0 <= x < 2 ^ 64 → 0 <= y < 2 ^ 64 → mix32 x = mix32 y → x = y.
Proof.
  intros Hx Hy. unfold mix32. pose proof mulc_range as M. pose proof (λ k z, xorshift_range k z) as X.
  intros E%xorshift_inj; [| lia | apply M | apply M].
  apply (mulc_inj 3266489909 15091052789936272413) in E; [| done | apply X; [lia | apply M] | apply X; [lia | apply M]].
  apply xorshift_inj in E; [| lia | apply M | apply M].
  apply (mulc_inj 2246822507 2941351004705347) in E; [| done | by apply X | by apply X].
  by apply xorshift_inj in E.
Qed.

Lemma mix64_inj x y : 0 <= x < 2 ^ 64 → 0 <= y < 2 ^ 64 → mix64 x = mix64 y → x = y.
Proof.
  intros Hx Hy. unfold mix64. pose proof mulc_range as M. pose proof (λ k z, xorshift_range k z) as X.
  intros E%xorshift_inj; [| lia | apply M | apply M].
  apply (mulc_inj 14181476777654086739 11291846944257947611) in E; [| done | apply X; [lia | apply M] | apply X; [lia | apply M]].
  apply xorshift_inj in E; [| lia | apply M | apply M].
  apply (mulc_inj 18397679294719823053 5725274745694666757) in E; [| done | by apply X | by apply X].
  by apply xorshift_inj in E.
Qed.

(** ** The emitted code *)

Section correct.
Context {F V : Type} `{FloatOps F, IRBuilder F V, !LangRef F V}.

(** [v] is a 64-bit value whose unsigned reading is [x]. *)
Definition reads (v : V) (x : Z) : Prop := vtype v = TInt 64 ∧ den_int v = Ok x ∧ 0 <= x < 2 ^ 64.

Lemma reads_const z : reads (ConstInt 64 z) (wrap 64 z).
Proof.
  destruct (ConstInt_ok 64 z) as [Ht Hd]; [lia |]. split; [done |]. unfold den_int. rewrite Hd. simpl.
  split; [done | by apply wrap_range].
Qed.

Lemma reads_bin op a b x y z : reads a x → reads b y → exec_bin 64 op x y = Ok z → reads (CreateBin op a b) z.
Proof.
  intros (Ta & Da & Ra) (Tb & Db & Rb) E. destruct (CreateBin_ok op a b 64 Ta Tb) as [Ht Hd].
  split; [done |]. rewrite Hd, Da, Db. simpl. split; [done |]. by apply (Interp.exec_bin_range 64 op x y).
Qed.

Lemma reads_xorshift k h x : 0 <= k < 64 → reads h x → reads (emit_xorshift k h) (xorshift k x).
Proof.
  intros Hk Hh. unfold emit_xorshift. eapply reads_bin; [done | | done].
  eapply reads_bin; [done | apply reads_const |]. rewrite wrap_id by lia. simpl. by rewrite (proj2 (Z.ltb_lt _ _)) by lia.
Qed.

Lemma reads_mul c h x : reads h x → reads (emit_mul c h) (mulc c x).
Proof.
  intros Hh. unfold emit_mul. eapply reads_bin; [done | apply reads_const |]. simpl. unfold mulc, wrap.
  by rewrite Z.mul_mod_idemp_r by lia.
Qed.

Lemma reads_sext w a x : 0 < w <= 64 → computes w a (Ok x) → reads (CreateSExtOrTrunc a 64) (wrap 64 x).
Proof.
  intros Hw Ha. pose proof Ha as (_ & _ & Hr). specialize (Hr x eq_refl).
  destruct (computes_sext w 64 a (Ok x) ltac:(lia) ltac:(lia) Ha) as (Ht & Hd & _). simpl in Hd.
  split; [done |]. rewrite Hd, wrap_swrap by lia. split; [done | by apply wrap_range].
Qed.

(** The integer types and the widths of their keys. *)
Definition hash_width (t : typeID) : option Z :=
  match t with INT | DSTRING => Some 32 | INT64 | DATE => Some 64 | _ => None end.

Definition mix (w x : Z) : Z := if w =? 32 then mix32 (wrap 64 x) else mix64 (wrap 64 x).

Lemma hashPrimitive_reads t w (v : ProteusValue V) x : hash_width t = Some w → computes w (value v) (Ok x) →
  ∃ h, hashPrimitive v t = Ok h ∧ reads (value h) (mix w x) ∧ isNull h = isNull v.
Proof.
  intros Hw Hv. pose proof Hv as (Ht & _).
  destruct t; try discriminate Hw; injection Hw as <-; cbn [hashPrimitive]; unfold hashInt32, hashInt64;
    rewrite bool_decide_eq_true_2 by done; eexists; (split; [done |]); (split; [| done]); cbn [value];
    unfold mix; cbn [Z.eqb Pos.eqb]; unfold mix32, mix64;
    repeat first [apply reads_xorshift; [lia |] | apply reads_mul]; (eapply reads_sext; [| exact Hv]; lia).
Qed.

Lemma mix_inj w x y : w = 32 ∨ w = 64 → in_signed w x → in_signed w y → mix w x = mix w y → x = y.
Proof.
  intros Hw Hx Hy. pose proof (wrap_range 64 x ltac:(lia)). pose proof (wrap_range 64 y ltac:(lia)).
  assert (in_signed 64 x ∧ in_signed 64 y) as [? ?] by (unfold in_signed in *; destruct Hw as [-> | ->]; simpl in *; lia).
  unfold mix. destruct (w =? 32); [intros E%mix32_inj | intros E%mix64_inj]; try done; by apply (wrap_inj 64).
Qed.

End correct.

End Hash.
