(* ===== verification/Generator.v ===== *)
(** * Generator: code generation for expressions
    ([ExpressionGeneratorVisitor] in [olap/lib/expressions/expressions-generator.cpp] and
    [ExpressionHasherVisitor] in [expressions-hasher.cpp], with [project-record.cpp] and
    [operator-state.hpp]).

    The two visitors call each other, the generator for a hash expression and the hasher for
    the values it hashes, so they are one function, [visit], which returns both.  A visit
    threads the relation that a projection makes active, the number of calls of [rand] and the
    stores emitted so far.  The plug-ins, the catalog and the cache are an environment. *)

From Stdlib Require Import ZArith Lia Bool.
From stdpp Require Import base numbers list strings.
From S2P Require Import Prelude ExprTypes LLVM Expressions Caching Extract Hash.

Local Open Scope Z_scope.
Local Open Scope res_scope.

Module Generator.
Import ExprTypes Expressions.

Definition activeLoop : string := "activeTuple".

Section generator.
Context {F V : Type} `{FloatOps F, IRBuilder F V}.

Abbreviation PV := (ProteusValue V).
Abbreviation createFalse := (ConstInt 1 0).
Abbreviation createTrue := (ConstInt 1 1).

Record ProteusValueMemory : Type := mk_mem { mem : V; mem_isNull : V }.

(** The virtual methods of [Plugin] that expressions use. *)
Record Plugin : Type := mk_plugin {
  getOIDType : ExpressionType;
  readPath : string → PV → string → RecordAttribute → res ProteusValueMemory;
  readValue : ProteusValueMemory → ExpressionType → res ProteusValueMemory;
  readCachedValue : CachingService.CacheInfo → res PV;
  hashValue : ProteusValueMemory → ExpressionType → res PV;
  hashValueEager : PV → ExpressionType → res PV
}.

(** [getPlugin] throws for an unknown relation; a registered plug-in may be null.  The
    bindings of the operator state are in the order of their map. *)
Record env : Type := mk_env {
  getPlugin : string → res (option Plugin);
  bindings : list (RecordAttribute * ProteusValueMemory);
  getCache : expr F V → res CachingService.CacheInfo;
  getCacheIsFull : expr F V → res bool;
  hashString : string → Z
}.

Record gstate : Type := mk_state {
  activeRelation : string;
  fresh : nat;
  stores : list (V * V)
}.

Definition set_relation (r : string) (s : gstate) : gstate := mk_state r (fresh s) (stores s).

Definition M (A : Type) : Type := gstate → res (A * gstate).
Definition ret {A} (a : A) : M A := λ s, Ok (a, s).
Definition bind {A B} (m : M A) (f : A → M B) : M B := λ s, do (a, s') <- m s; f a s'.
Definition lift {A} (r : res A) : M A := λ s, do a <- r; Ok (a, s).
Definition get_relation : M string := λ s, Ok (activeRelation s, s).
Definition put_relation (r : string) : M unit := λ s, Ok (tt, set_relation r s).

(** A visitor of its own, with no active relation. *)
Definition with_new_visitor {A} (rel : string) (m : M A) : M A :=
  λ s, do (a, s') <- m (set_relation rel s); Ok (a, set_relation (activeRelation s) s').

Notation "'let!' x := m 'in' k" := (bind m (λ x, k))
  (at level 200, x pattern, m at level 100, k at level 200).

Context (E : env).

(** ** Bindings *)

Definition find_binding (a : RecordAttribute) : option ProteusValueMemory :=
  snd <$> List.find (λ b, attr_eq b.1 a) (bindings E).

(** [OperatorState::operator[]]: an attribute of the same name will do. *)
Definition state_at (a : RecordAttribute) : res ProteusValueMemory :=
  match find_binding a with
  | Some m => Ok m
  | None => of_option OutOfRange (snd <$> List.find (λ b, String.eqb (attrName b.1) (attrName a)) (bindings E))
  end.

Definition plugin_of (r : string) : res Plugin := do p <- getPlugin E r; of_option Undefined p.

Definition oid_attr (r : string) : res RecordAttribute :=
  do pg <- plugin_of r; RecordAttribute_oid r activeLoop (getOIDType pg).

(** The bindings of the tuples of the relations an input argument projects from, the last
    one winning. *)
Definition arg_binding (args : list RecordAttribute) : option ProteusValueMemory :=
  foldl (λ acc rec,
    if String.eqb (attrName rec) activeLoop then
      foldl (λ acc b, if String.eqb (relName b.1) (relName rec) && String.eqb (attrName b.1) activeLoop
                      then Some b.2 else acc) acc (bindings E)
    else acc) None args.

Definition gen_argument (args : list RecordAttribute) : M PV :=
  let! r := get_relation in
  let! m := lift (if String.eqb r "" then of_option AssertFailed (arg_binding args)
                  else do a <- oid_attr r; of_option Throw (find_binding a)) in
  ret (mk_pv (CreateLoad (mem m)) (mem_isNull m)).

(** [projectArg]: the attribute of a record held in a struct. *)
Definition projectArg (args : list RecordAttribute) (record : V) (a : RecordAttribute) : res (option V) :=
  match vtype record with
  | TStruct _ =>
      do t <- getLLVMType (RecordType args);
      if bool_decide (vtype record = t) then
        do index <- getIndex args a;
        Ok (if index <? 0 then None else Some (CreateExtractValue record (Z.to_nat index)))
      else Ok None
  | _ => Ok None
  end.

(** The cache of an expression, when there is one, it covers the data set, and nothing is bound
    to the attribute. *)
Definition usable_cache (e : expr F V) (a : RecordAttribute) : res (option CachingService.CacheInfo) :=
  do info <- getCache E e;
  if negb (CachingService.structFieldNo info =? -1) && bool_decide (find_binding a = None) then
    do full <- getCacheIsFull E e;
    Ok (if full : bool then Some info else None)
  else Ok None.

(** The memory a projection reads when the record is not a struct. *)
Definition path_memory (plugin : Plugin) (record : PV) (a : RecordAttribute) : M ProteusValueMemory :=
  let! r := get_relation in
  lift (if String.eqb (attrName a) activeLoop then do t <- oid_attr r; state_at t
        else readPath plugin r record (attrName a) a).

Definition gen_projection (self sub : expr F V) (gen_sub : M PV) (a : RecordAttribute) : M PV :=
  let! _ := put_relation (originalRelName a) in
  let! p := lift (getPlugin E (originalRelName a)) in
  let! cached := lift (match p with Some _ => usable_cache self a | None => Ok None end) in
  match p, cached with
  | Some plugin, Some info => lift (readCachedValue plugin info)
  | _, _ =>
      let! record := gen_sub in
      let! plugin := lift (of_option Throw p) in
      let! direct := lift (match getExpressionType sub with
                           | RecordType args =>
                               if String.eqb (attrName a) activeLoop then Ok None else projectArg args (value record) a
                           | _ => Ok None
                           end) in
      match direct with
      | Some v => ret (mk_pv v (isNull record))
      | None =>
          let! path := path_memory plugin record a in
          let! val := lift (readValue plugin path (type a)) in
          ret (mk_pv (CreateLoad (mem val)) (mem_isNull val))
      end
  end.

(** ** Operators *)

(** Equality, by the type of the left operand; records attribute by attribute. *)
Fixpoint gen_eq (tl tr : ExpressionType) (l r : V) : res V :=
  match tl with
  | DStringType _ | DateType | Int64Type | IntType | BoolType => Ok (CreateICmp EQ l r)
  | FloatType => Ok (CreateFCmp FOEQ l r)
  | StringType => Ok (CreateCall "equalStringObjs" (TInt 1) [l; r])
  | RecordType al =>
      match tr with
      | RecordType ar =>
          check Nat.eqb (length al) (length ar) && negb (Nat.eqb (length al) 0) else AssertFailed;
          (fix go (al ar : list RecordAttribute) (i : nat) (acc : V) : res V :=
             match al, ar with
             | a :: al', b :: ar' =>
                 do v <- gen_eq (type a) (type b) (CreateExtractValue l i) (CreateExtractValue r i);
                 go al' ar' (S i) (CreateBin And acc v)
             | _, _ => Ok acc
             end) al ar 0%nat createTrue
      | _ => Err Undefined
      end
  | ListType _ | BagType _ | SetType _ | BlockType _ | IndexedSeq _ => Err Throw
  end.

(** The other comparisons. *)
Definition gen_cmp (t : typeID) (ic : icmp) (fc : fcmp) (l r : V) : res V :=
  match t with
  | DSTRING | INT64 | DATE | INT | BOOL => Ok (CreateICmp ic l r)
  | FLOAT => Ok (CreateFCmp fc l r)
  | _ => Err Throw
  end.

Definition gen_ne (t : typeID) (l r : V) : res V := gen_cmp t NE FONE l r.
Definition gen_ge (t : typeID) (l r : V) : res V := gen_cmp t SGE FOGE l r.
Definition gen_gt (t : typeID) (l r : V) : res V := gen_cmp t SGT FOGT l r.
Definition gen_le (t : typeID) (l r : V) : res V := gen_cmp t SLE FOLE l r.
Definition gen_lt (t : typeID) (l r : V) : res V := gen_cmp t SLT FOLT l r.

(** Arithmetic, by the type of the left operand. *)
Definition gen_add (t : typeID) (l r : V) : res V :=
  match t with
  | INT64 | DATE | INT | BOOL => Ok (CreateBin Add l r)
  | FLOAT => Ok (CreateFBin FAdd l r)
  | INDEXEDSEQ => Ok (CreateGEP l r)
  | _ => Err Throw
  end.

Definition gen_sub (t : typeID) (l r : V) : res V :=
  match t with
  | INT64 | DATE | INT | BOOL => Ok (CreateBin Sub l r)
  | FLOAT => Ok (CreateFBin FSub l r)
  | _ => Err Throw
  end.

Definition gen_mult (t : typeID) (l r : V) : res V :=
  match t with
  | INT64 | INT | BOOL => Ok (CreateBin Mul l r)
  | FLOAT => Ok (CreateFBin FMul l r)
  | _ => Err Throw
  end.

Definition gen_div (t : typeID) (l r : V) : res V :=
  match t with
  | INT64 | INT | BOOL => Ok (CreateBin SDiv l r)
  | FLOAT => Ok (CreateFBin FDiv l r)
  | _ => Err Throw
  end.

Definition gen_mod (t : typeID) (l r : V) : res V :=
  match t with
  | INT64 | INT | BOOL => Ok (CreateBin URem l r)
  | FLOAT => Ok (CreateFBin FRem l r)
  | _ => Err Throw
  end.

(** Bit operations, whatever the type. *)
Definition gen_bits (op : ibinop) (l r : V) : res V := Ok (CreateBin op l r).

Definition gen_binary (op : opID) (tl tr : ExpressionType) (l r : V) : res V :=
  let t := ExprTypes.getTypeID tl in
  match op with
  | OpEQ => gen_eq tl tr l r
  | OpNEQ => gen_ne t l r
  | OpGE => gen_ge t l r
  | OpGT => gen_gt t l r
  | OpLE => gen_le t l r
  | OpLT => gen_lt t l r
  | OpADD => gen_add t l r
  | OpSUB => gen_sub t l r
  | OpMULT => gen_mult t l r
  | OpDIV => gen_div t l r
  | OpMOD => gen_mod t l r
  | OpAND => gen_bits And l r
  | OpOR => gen_bits Or l r
  | OpSHL => gen_bits Shl l r
  | OpASHR => gen_bits AShr l r
  | OpLSHR => gen_bits LShr l r
  | OpXOR => gen_bits Xor l r
  | OpMAX | OpMIN => Err Undefined      (* these are conditionals *)
  end.

Definition gen_neg (v : V) : V :=
  match vtype v with
  | TInt w => CreateBin Sub (ConstInt w 0) v
  | _ => CreateFNeg v
  end.

(** A cast by the LLVM types; the builder asserts that the other type is a double. *)
Definition gen_cast (from to : ExpressionType) (v : V) : res V :=
  do lt <- getLLVMType to;
  do lf <- getLLVMType from;
  match lf, lt with
  | TInt _, TInt w => Ok (CreateSExtOrTrunc v w)
  | TInt _, TDouble => Ok (CreateSIToFP v)
  | TDouble, TInt w => Ok (CreateFPToSI v w)
  | TDouble, TDouble => Ok (CreateFPCast v)
  | _, _ => Err AssertFailed
  end.

Definition gen_string (s : string) : V :=
  CreateStruct [CreateGlobalString s; ConstInt 32 (Z.of_nat (String.length s))].

(** Both blocks of a conditional, merged through a slot of the first one's type. *)
Definition merge (c : V) (t e : PV) : res PV :=
  check bool_decide (vtype (value t) = vtype (value e)) else AssertFailed;
  check bool_decide (vtype (isNull t) = vtype (isNull e)) else AssertFailed;
  Ok (mk_pv (CreateIfElse c (value t) (value e)) (CreateIfElse c (isNull t) (isNull e))).

Definition gen_if (c t e : M PV) : M PV :=
  let! c := c in let! t := t in let! e := e in lift (merge (value c) t e).

(** A constant of the width of its type. *)
Definition gen_int (w z : Z) : M PV := ret (mk_pv (ConstInt w z) createFalse).

Definition gen_placeholder (t : ExpressionType) (i : Z) : M PV :=
  let! lt := lift (getLLVMType t) in ret (mk_pv (CreateParameter i lt) createFalse).

(** The expected value is the one-bit [true], so the call is only well typed on truth values. *)
Definition gen_hint (gen : M PV) : M PV :=
  let! v := gen in
  lift (check bool_decide (vtype (value v) = TInt 1) else AssertFailed;
        Ok (mk_pv (CreateExpect (value v)) (isNull v))).

Definition gen_rand : M PV :=
  λ s, Ok (mk_pv (CreateRand (fresh s)) createFalse, mk_state (activeRelation s) (S (fresh s)) (stores s)).

Definition gen_test_null (b : bool) (gen : M PV) : M PV :=
  let! v := gen in ret (mk_pv (if b then isNull v else CreateBin Xor (isNull v) createTrue) createFalse).

Definition gen_ref (gen : M PV) : M PV := let! v := gen in ret (mk_pv (CreateLoad (value v)) (isNull v)).

Definition gen_assign (gen_ptr gen_val : M PV) : M PV :=
  let! ptr := gen_ptr in
  let! v := gen_val in
  λ s, Ok (ptr, mk_state (activeRelation s) (fresh s) (stores s ++ [(value ptr, value v)])).

(** The attributes of a record, in order. *)
Definition gen_record (gens : list (M PV)) : M PV :=
  let! (vs, n) :=
    (λ st, rfoldM (λ '(acc, st) gen,
        do (v, st') <- gen st;
        Ok ((acc.1 ++ [value v], CreateBin Or acc.2 (isNull v)), st')) (([], createFalse), st) gens) in
  ret (mk_pv (CreateStruct vs) n).

Definition gen_bin (op : opID) (tl tr : ExpressionType) (l r : M PV) : M PV :=
  let! l := l in
  let! r := r in
  let! v := lift (gen_binary op tl tr (value l) (value r)) in
  ret (mk_pv v createFalse).

(** ** The hasher *)

Definition hash_if (c t e : M PV) : M PV :=
  let! c := c in let! t := t in let! e := e in
  let! _ := lift (check bool_decide (vtype (value t) = TInt 64) && bool_decide (vtype (value e) = TInt 64)
                  else AssertFailed; Ok tt) in
  ret (mk_pv (CreateIfElse (value c) (value t) (value e)) createFalse).

(** The tuples an input argument stands for. *)
Definition hash_argument (args : list RecordAttribute) : M PV :=
  let! h := lift (rfoldM (λ acc rec,
      if String.eqb (attrName rec) activeLoop then
        match List.find (λ b, String.eqb (relName b.1) (relName rec) && String.eqb (attrName b.1) activeLoop) (bindings E) with
        | Some b =>
            do p <- getPlugin E (relName b.1);
            do plugin <- of_option Throw p;
            do partial <- hashValue plugin b.2 (RecordType args);
            Ok (CreateCall "combineHashes" (TInt 64) [acc; value partial])
        | None => Ok acc
        end
      else Ok acc) (ConstInt 64 0) args) in
  ret (mk_pv h createFalse).

Definition hash_projection (self sub : expr F V) (gen_sub : M PV) (a : RecordAttribute) : M PV :=
  let! _ := put_relation (originalRelName a) in
  let! record := with_new_visitor (originalRelName a) gen_sub in
  let! p := lift (getPlugin E (originalRelName a)) in
  let! cached := lift (usable_cache self a) in
  match cached with
  | Some info =>
      lift (do plugin <- of_option Undefined p;
            do v <- readCachedValue plugin info; hashValueEager plugin v (type a))
  | None =>
      let! plugin := lift (of_option Throw p) in
      let! direct := lift (match getExpressionType sub with
                           | RecordType args =>
                               if String.eqb (attrName a) activeLoop then Ok None else projectArg args (value record) a
                           | _ => Ok None
                           end) in
      match direct with
      | Some v => lift (hashValueEager plugin (mk_pv v (isNull record)) (type a))
      | None =>
          let! r := get_relation in
          let! path := lift (if String.eqb (attrName a) activeLoop then
                               do t <- oid_attr r; of_option Throw (find_binding t)
                             else readPath plugin r record (attrName a) a) in
          lift (hashValue plugin path (type a))
      end
  end.

(** [hashPrimitive(e)] of the visitor: evaluate with a visitor of its own, then hash. *)
Definition hash_primitive (t : ExpressionType) (gen : M PV) : M PV :=
  let! _ := lift (check isPrimitive t else AssertFailed; Ok tt) in
  let! v := with_new_visitor "" gen in
  lift (Hash.hashPrimitive v (ExprTypes.getTypeID t)).

Definition hash_if_primitive (t : ExpressionType) (gen : M PV) : M PV :=
  if isPrimitive t then hash_primitive t gen else lift (Err Throw).

Definition hash_record (hashes : list (M PV)) : M PV :=
  let! hvs := (λ st, rfoldM (λ '(acc, st) h, do (v, st') <- h st; Ok (acc ++ [value v], st')) ([], st) hashes) in
  ret (mk_pv (Hash.emit_record_hash hvs) createFalse).

(** The binary operators but the minimum and the maximum. *)
Definition hash_binary (op : opID) (t : ExpressionType) (gen : M PV) : M PV :=
  match op with
  | OpEQ | OpNEQ | OpGE | OpGT | OpLE | OpLT | OpAND | OpOR => hash_primitive t gen
  | _ => hash_if_primitive t gen
  end.

Definition hash_value_expression (t : ExpressionType) (v : PV) (gen : M PV) : M PV :=
  if isPrimitive t then hash_primitive t gen
  else let! r := get_relation in
       lift (do p <- getPlugin E r; do plugin <- of_option Throw p; hashValueEager plugin v t).

Definition hash_constant32 (gen : M PV) : M PV := let! v := with_new_visitor "" gen in lift (Hash.hashInt32 v).

(** ** The visitors *)

Fixpoint visit (e : expr F V) : M PV * M PV :=
  let ty := getExpressionType e in
  let gen : M PV :=
    match e with
    | IntConstant z | DStringConstant z _ => gen_int 32 z
    | Int64Constant z | DateConstant z => gen_int 64 z
    | FloatConstant f => ret (mk_pv (ConstFP f) createFalse)
    | BoolConstant b => gen_int 1 (Z.b2z b)
    | StringConstant s => ret (mk_pv (gen_string s) createFalse)
    | InputArgument args _ => gen_argument args
    | RecordProjection s a => gen_projection e s (visit s).1 a
    | RecordConstruction l => gen_record (map (λ x, (visit x.2).1) l)
    | IfThenElse c t e => gen_if (visit c).1 (visit t).1 (visit e).1
    | Binary op l r =>
        let tl := getExpressionType l in
        let tr := getExpressionType r in
        match op with
        | OpMAX => gen_if (gen_bin OpGT tl tr (visit l).1 (visit r).1) (visit l).1 (visit r).1
        | OpMIN => gen_if (gen_bin OpLT tl tr (visit l).1 (visit r).1) (visit l).1 (visit r).1
        | _ => gen_bin op tl tr (visit l).1 (visit r).1
        end
    | PlaceholderExpression t i => gen_placeholder t i
    | ProteusValueExpression _ v => ret v
    | HintExpression e => gen_hint (visit e).1
    | HashExpression e => with_new_visitor "" (visit e).2
    | RandExpression => gen_rand
    | NegExpression e => let! v := (visit e).1 in ret (mk_pv (gen_neg (value v)) (isNull v))
    | TestNullExpression e b => gen_test_null b (visit e).1
    | ExtractExpression e u =>
        let! v := (visit e).1 in
        let! r := lift (Extract.emit_extract u (value v)) in ret (mk_pv r (isNull v))
    | CastExpression t e =>
        let! v := (visit e).1 in
        let! r := lift (gen_cast (getExpressionType e) t (value v)) in ret (mk_pv r (isNull v))
    | RefExpression p => gen_ref (visit p).1
    | AssignExpression p e => gen_assign (visit p).1 (visit e).1
    end in
  let hash : M PV :=
    match e with
    | IntConstant _ | DStringConstant _ _ => hash_constant32 gen
    | Int64Constant _ | DateConstant _ | FloatConstant _ | BoolConstant _ => hash_primitive ty gen
    | StringConstant s => ret (mk_pv (ConstInt 64 (hashString E s)) createFalse)
    | InputArgument args _ => hash_argument args
    | RecordProjection s a => hash_projection e s (visit s).1 a
    | RecordConstruction l => hash_record (map (λ x, (visit x.2).2) l)
    | IfThenElse c t e => hash_if (with_new_visitor "" (visit c).1) (visit t).2 (visit e).2
    | Binary op l r =>
        let tl := getExpressionType l in
        let tr := getExpressionType r in
        match op with
        | OpMAX => hash_if (with_new_visitor "" (gen_bin OpGT tl tr (visit l).1 (visit r).1)) (visit l).2 (visit r).2
        | OpMIN => hash_if (with_new_visitor "" (gen_bin OpLT tl tr (visit l).1 (visit r).1)) (visit l).2 (visit r).2
        | _ => hash_binary op ty gen
        end
    | PlaceholderExpression _ _ => hash_primitive ty gen
    | ProteusValueExpression t v => hash_value_expression t v gen
    | HintExpression e => (visit e).2
    | HashExpression _ => lift (Err AssertFailed)
    | RandExpression => hash_primitive ty gen
    | NegExpression _ | ExtractExpression _ _ => hash_if_primitive ty gen
    | TestNullExpression _ _ | CastExpression _ _ => hash_primitive ty gen
    | RefExpression p => (visit p).2
    | AssignExpression _ _ => lift (Err Throw)
    end in
  (gen, hash).

Definition generate (e : expr F V) : M PV := (visit e).1.
Definition hash_expr (e : expr F V) : M PV := (visit e).2.

End generator.
End Generator.
