(* ===== verification/GenCorrect.v ===== *)
(** * GenCorrect: the generated code computes what the expression means

    A reference semantics of scalar expressions ([meaning]): signed integers of the width of
    their type, truth values and doubles.  The generator emits the unsigned remainder for the
    modulo of two integers, so what its code computes ([sem]) is the same semantics with that
    one operation replaced; the two agree as long as no remainder is taken of, or by, a
    negative integer.  The code [Generator.generate] emits for a scalar expression runs
    to the value [sem] gives it, undefined operations included.  Aggregates are folds
    of such expressions.  The hash of an expression is the integer mix of its value, or what
    the plug-in computes where a column is hashed. *)

From Stdlib Require Import ZArith Lia Bool.
From stdpp Require Import base numbers list strings.
From S2P Require Import Prelude ExprTypes LLVM Expressions Caching Extract Hash Generator.

Local Open Scope Z_scope.
Local Open Scope res_scope.

Module GenCorrect.
Import ExprTypes Expressions Generator.

(** ** Scalar types and values *)

Inductive kind : Type := Num (w : Z) | Truth | Dbl.

#[export] Instance kind_eq_dec : EqDecision kind.
Proof. solve_decision. Defined.

Definition kind_of (t : ExpressionType) : option kind :=
  match t with
  | BoolType => Some Truth
  | IntType | DStringType _ => Some (Num 32)
  | Int64Type | DateType => Some (Num 64)
  | FloatType => Some Dbl
  | _ => None
  end.

Definition llvm_kind (k : kind) : llvm_type := match k with Num w => TInt w | Truth => TInt 1 | Dbl => TDouble end.

Lemma kind_llvm t k : kind_of t = Some k → getLLVMType t = Ok (llvm_kind k).
Proof. destruct t; simpl; intros [= <-]; done. Qed.

Lemma kind_width t w : kind_of t = Some (Num w) → w = 32 ∨ w = 64.
Proof. destruct t; simpl; intros [= <-]; auto. Qed.

Inductive sval (F : Type) : Type := VNum (z : Z) | VTruth (b : bool) | VFloat (f : F).
#[global] Arguments VNum {F}.
#[global] Arguments VTruth {F}.
#[global] Arguments VFloat {F}.

Section semantics.
Context {F V : Type} `{FloatOps F, IRBuilder F V}.

Abbreviation expr := (expr F V).
Abbreviation sval := (sval F).

Definition num (x : sval) : res Z := match x with VNum z => Ok z | _ => Err Undefined end.
Definition truth (x : sval) : res bool := match x with VTruth b => Ok b | _ => Err Undefined end.
Definition flt (x : sval) : res F := match x with VFloat f => Ok f | _ => Err Undefined end.

Definition has_kind (k : kind) (x : sval) : Prop :=
  match k, x with Num w, VNum z => in_signed w z | Truth, VTruth _ | Dbl, VFloat _ => True | _, _ => False end.

(** ** The reference semantics *)

(** The value an IR value holds when it runs. *)
Definition read_value (k : kind) (v : V) : res sval :=
  match k with
  | Num w => do x <- den_int v; Ok (VNum (signed w x))
  | Truth => do x <- den_int v; Ok (VTruth (negb (x =? 0)))
  | Dbl => do f <- den_float v; Ok (VFloat f)
  end.

Definition cmp_of (op : opID) : option (icmp * fcmp) :=
  match op with
  | OpEQ => Some (EQ, FOEQ) | OpNEQ => Some (NE, FONE) | OpGE => Some (SGE, FOGE) | OpGT => Some (SGT, FOGT)
  | OpLE => Some (SLE, FOLE) | OpLT => Some (SLT, FOLT) | _ => None
  end.

(** The instruction the modulo of two integers stands for. *)
Context (rem : ibinop).

Definition ibin_with (op : opID) : option ibinop :=
  match op with
  | OpADD => Some Add | OpSUB => Some Sub | OpMULT => Some Mul | OpDIV => Some SDiv | OpMOD => Some rem
  | OpAND => Some And | OpOR => Some Or | OpXOR => Some Xor | OpSHL => Some Shl | OpLSHR => Some LShr
  | OpASHR => Some AShr | _ => None
  end.

Definition fbin_of (op : opID) : option fbinop :=
  match op with
  | OpADD => Some FAdd | OpSUB => Some FSub | OpMULT => Some FMul | OpDIV => Some FDiv | OpMOD => Some FRem | _ => None
  end.

Definition greater (x y : sval) : res bool :=
  match x, y with
  | VNum a, VNum b => Ok (b <? a)
  | VFloat a, VFloat b => Ok (fcomp FOGT a b)
  | _, _ => Err Undefined
  end.

Definition less (x y : sval) : res bool :=
  match x, y with
  | VNum a, VNum b => Ok (a <? b)
  | VFloat a, VFloat b => Ok (fcomp FOLT a b)
  | _, _ => Err Undefined
  end.

Definition apply_with (k : kind) (op : opID) (x y : sval) : res sval :=
  match k, x, y with
  | Num w, VNum a, VNum b =>
      match cmp_of op, ibin_with op with
      | Some (c, _), _ => Ok (VTruth (sem_cmp c a b))
      | None, Some o => do z <- sem_bin w o a b; Ok (VNum z)
      | None, None => Err Undefined
      end
  | Dbl, VFloat a, VFloat b =>
      match cmp_of op, fbin_of op with
      | Some (_, c), _ => Ok (VTruth (fcomp c a b))
      | None, Some o => Ok (VFloat (fbin o a b))
      | None, None => Err Undefined
      end
  | Truth, VTruth a, VTruth b =>
      match op with
      | OpEQ => Ok (VTruth (Bool.eqb a b))
      | OpNEQ => Ok (VTruth (xorb a b))
      | OpAND => Ok (VTruth (a && b))
      | OpOR => Ok (VTruth (a || b))
      | OpXOR => Ok (VTruth (xorb a b))
      | _ => Err Undefined
      end
  | _, _, _ => Err Undefined
  end.

Definition negate (k : kind) (x : sval) : res sval :=
  match k, x with
  | Num w, VNum a => Ok (VNum (swrap w (- a)))
  | Dbl, VFloat f => Ok (VFloat (fneg f))
  | _, _ => Err Undefined
  end.

(** Integers are cut to their width; a double out of range has no integer. *)
Definition convert (to : kind) (x : sval) : res sval :=
  match to, x with
  | Num w, VNum a => Ok (VNum (swrap w a))
  | Dbl, VNum a => Ok (VFloat (of_int a))
  | Num w, VFloat f =>
      do z <- of_option Undefined (to_int f);
      check (- 2 ^ (w - 1) <=? z) && (z <? 2 ^ (w - 1)) else Undefined; Ok (VNum z)
  | Dbl, VFloat f => Ok (VFloat f)
  | _, _ => Err Undefined
  end.

(** The columns an expression may project, with the value they have in the current tuple. *)
Context (col : expr → RecordAttribute → option (res sval * res bool)).

Definition scalar (e : expr) : kind := default Truth (kind_of (getExpressionType e)).

(** The value of an expression, and whether it is null.  A binary operation is never null. *)
Fixpoint sem_with (e : expr) : res sval * res bool :=
  match e with
  | IntConstant z | Int64Constant z | DateConstant z | DStringConstant z _ => (Ok (VNum z), Ok false)
  | FloatConstant f => (Ok (VFloat f), Ok false)
  | BoolConstant b => (Ok (VTruth b), Ok false)
  | PlaceholderExpression t i =>
      (let k := default Truth (kind_of t) in read_value k (CreateParameter i (llvm_kind k)), Ok false)
  | ProteusValueExpression t v =>
      (read_value (default Truth (kind_of t)) (value v), do x <- read_value Truth (isNull v); truth x)
  | IfThenElse c t e =>
      let cond := do x <- (sem_with c).1; truth x in
      (do b <- cond; if b : bool then (sem_with t).1 else (sem_with e).1, do b <- cond; if b : bool then (sem_with t).2 else (sem_with e).2)
  | Binary OpMAX l r =>
      let cond := do x <- (sem_with l).1; do y <- (sem_with r).1; greater x y in
      (do b <- cond; if b : bool then (sem_with l).1 else (sem_with r).1, do b <- cond; if b : bool then (sem_with l).2 else (sem_with r).2)
  | Binary OpMIN l r =>
      let cond := do x <- (sem_with l).1; do y <- (sem_with r).1; less x y in
      (do b <- cond; if b : bool then (sem_with l).1 else (sem_with r).1, do b <- cond; if b : bool then (sem_with l).2 else (sem_with r).2)
  | Binary op l r => (do x <- (sem_with l).1; do y <- (sem_with r).1; apply_with (scalar l) op x y, Ok false)
  | HintExpression e => sem_with e
  | NegExpression e => (do x <- (sem_with e).1; negate (scalar e) x, (sem_with e).2)
  | TestNullExpression e b => (do n <- (sem_with e).2; Ok (VTruth (if b : bool then n else negb n)), Ok false)
  | CastExpression t e => (do x <- (sem_with e).1; convert (default Truth (kind_of t)) x, (sem_with e).2)
  | RecordProjection e a => default (Err Undefined, Err Undefined) (col e a)
  | _ => (Err Undefined, Err Undefined)
  end.

(** ** Scalar expressions *)

(** The operators of each type; those on truth values are equality and the connectives. *)
Definition op_ok (t : ExpressionType) (op : opID) : bool :=
  match t with
  | BoolType => match op with OpEQ | OpNEQ | OpAND | OpOR | OpXOR => true | _ => false end
  | IntType | Int64Type => true
  | DateType => match op with OpMULT | OpDIV | OpMOD => false | _ => true end
  | DStringType _ => match op with OpADD | OpSUB | OpMULT | OpDIV | OpMOD => false | _ => true end
  | FloatType => match op with OpAND | OpOR | OpXOR | OpSHL | OpLSHR | OpASHR => false | _ => true end
  | _ => false
  end.

Definition same_kind (l r : expr) : bool :=
  bool_decide (kind_of (getExpressionType l) = kind_of (getExpressionType r)).

Definition numeric (t : ExpressionType) : bool :=
  match kind_of t with Some (Num _) | Some Dbl => true | _ => false end.

Fixpoint wt (e : expr) : bool :=
  match e with
  | IntConstant z | DStringConstant z _ => bool_decide (- 2 ^ 31 <= z < 2 ^ 31)
  | Int64Constant z | DateConstant z => bool_decide (- 2 ^ 63 <= z < 2 ^ 63)
  | FloatConstant _ | BoolConstant _ => true
  | PlaceholderExpression t _ => bool_decide (is_Some (kind_of t))
  | ProteusValueExpression t v =>
      match kind_of t with Some k => bool_decide (vtype (value v) = llvm_kind k) | None => false end
      && bool_decide (vtype (isNull v) = TInt 1)
  | IfThenElse c t e => wt c && wt t && wt e && is_type BOOL c && same_kind t e
  | Binary op l r => wt l && wt r && same_kind l r && op_ok (getExpressionType l) op
  | HintExpression e => wt e && is_type BOOL e
  | NegExpression e => wt e && numeric (getExpressionType e)
  | TestNullExpression e _ => wt e
  | CastExpression t e => wt e && numeric (getExpressionType e) && numeric t
  | RecordProjection e a =>
      match col e a with Some _ => bool_decide (is_Some (kind_of (type a))) | None => false end
  | _ => false
  end.

Lemma wt_kind e : wt e = true → ∃ k, kind_of (getExpressionType e) = Some k.
Proof.
  induction e using expr_ind'; simpl; intros Hw; repeat (apply andb_true_iff in Hw as [Hw ?]); eauto; try done.
  - destruct (col e a); [| done]. by apply bool_decide_eq_true in Hw.
  - destruct op; simpl; eauto.
  - by apply bool_decide_eq_true in Hw.
  - destruct (kind_of t); eauto; done.
  - destruct t; simpl; eauto; done.
Qed.

Lemma wt_scalar e : wt e = true → kind_of (getExpressionType e) = Some (scalar e).
Proof. intros (k & Hk)%wt_kind. unfold scalar. by rewrite Hk. Qed.

(** No remainder of, or by, a negative integer is computed. *)
Definition nonneg (r : res sval) : bool := match r with Ok (VNum z) => 0 <=? z | _ => true end.

Fixpoint mod_nonneg (e : expr) : bool :=
  match e with
  | IfThenElse c t e => mod_nonneg c && mod_nonneg t && mod_nonneg e
  | Binary op l r =>
      mod_nonneg l && mod_nonneg r &&
      match op with OpMOD => nonneg (sem_with l).1 && nonneg (sem_with r).1 | _ => true end
  | HintExpression e | NegExpression e | TestNullExpression e _ | CastExpression _ e => mod_nonneg e
  | _ => true
  end.

End semantics.

(** What the generated code computes, and what the expression means. *)
Abbreviation ibin_of := (ibin_with URem).
Abbreviation apply_op := (apply_with URem).
Abbreviation sem := (sem_with URem).
Abbreviation meaning := (sem_with SRem).

(** ** Correctness *)

Section correct.
Context {F V : Type} `{FloatOps F, IRBuilder F V, !LangRef F V}.

Abbreviation expr := (expr F V).
Abbreviation sval := (sval F).
Abbreviation PV := (ProteusValue V).

(** [v] is an IR value of kind [k] whose code ends as [r]. *)
Definition represents (k : kind) (v : V) (r : res sval) : Prop :=
  (∀ x, r = Ok x → has_kind k x) ∧
  match k with
  | Num w => computes w v (do x <- r; num x)
  | Truth => decides v (do x <- r; truth x)
  | Dbl => vtype v = TDouble ∧ den_float v = do x <- r; flt x
  end.

Definition kind_pos (k : kind) : Prop := match k with Num w => 0 < w | _ => True end.

Lemma kind_of_pos t k : kind_of t = Some k → kind_pos k.
Proof. destruct k as [w | |]; try done. intros [-> | ->]%kind_width; done. Qed.

Lemma represents_type k v r : represents k v r → vtype v = llvm_kind k.
Proof. destruct k; intros [_ Hr]; apply Hr. Qed.

(** The values of a kind. *)
Lemma has_num w (x : sval) : has_kind (Num w) x → ∃ z, x = VNum z ∧ in_signed w z.
Proof. destruct x; try done. simpl. eauto. Qed.

Lemma has_truth (x : sval) : has_kind Truth x → ∃ b, x = VTruth b.
Proof. destruct x; try done. eauto. Qed.

Lemma has_dbl (x : sval) : has_kind Dbl x → ∃ f, x = VFloat f.
Proof. destruct x; try done. eauto. Qed.

Lemma represents_num w v (r : res Z) : computes w v r → represents (Num w) v (do z <- r; Ok (VNum z)).
Proof.
  intros Hv. split.
  - intros x (z & Hz & [= <-])%rbind_Ok_inv. apply Hv, Hz.
  - by destruct r.
Qed.

Lemma represents_truth v (r : res bool) : decides v r → represents Truth v (do b <- r; Ok (VTruth b)).
Proof.
  intros Hv. split.
  - by intros x (z & Hz & [= <-])%rbind_Ok_inv.
  - by destruct r.
Qed.

Lemma represents_dbl v (r : res F) : vtype v = TDouble → den_float v = r → represents Dbl v (do f <- r; Ok (VFloat f)).
Proof.
  intros Ht Hv. split.
  - by intros x (z & Hz & [= <-])%rbind_Ok_inv.
  - split; [done |]. rewrite Hv. by destruct r.
Qed.

(** Equal outcomes represent the same. *)
Lemma represents_eq k v r r' : represents k v r → r = r' → represents k v r'.
Proof. by intros ? <-. Qed.

Lemma den_int_range v w x : vtype v = TInt w → den_int v = Ok x → 0 <= x < 2 ^ w.
Proof.
  unfold den_int. intros Ht (r & Hr & Hx)%rbind_Ok_inv. destruct (den_typed v w r Ht Hr) as (z & -> & Hz). by injection Hx as <-.
Qed.

(** A value that is there already. *)
Lemma represents_read k v : kind_pos k → vtype v = llvm_kind k → represents k v (read_value k v).
Proof.
  destruct k as [w | |]; simpl; intros Hp Ht.
  - eapply represents_eq; [apply (represents_num w v (do x <- den_int v; Ok (signed w x))) | by destruct (den_int v)].
    split; [done |]. destruct (den_int v) as [x | e] eqn:E; simpl; [| done].
    pose proof (den_int_range v w x Ht E). rewrite wrap_signed by done. split; [done |].
    intros s [= <-]. by apply signed_range.
  - eapply represents_eq; [apply (represents_truth v (do x <- den_int v; Ok (negb (x =? 0)))) | by destruct (den_int v)].
    split; [done |]. destruct (den_int v) as [x | e] eqn:E; simpl; [| done].
    pose proof (den_int_range v 1 x Ht E). destruct (Z.eqb_spec x 0); simpl; f_equal; lia.
  - by apply represents_dbl.
Qed.

Lemma represents_ifelse k c a b rc ra rb : decides c rc → represents k a ra → represents k b rb →
  represents k (CreateIfElse c a b) (do x <- rc; if x : bool then ra else rb).
Proof.
  intros Hc [Ka Ha] [Kb Hb]. split; [intros x (y & _ & E)%rbind_Ok_inv; destruct y; auto |].
  destruct k as [w | |].
  - pose proof (computes_ifelse w c a b _ _ _ Hc Ha Hb) as Hi. by destruct rc as [[] |].
  - pose proof (decides_ifelse c a b _ _ _ Hc Ha Hb) as Hi. by destruct rc as [[] |].
  - destruct Hc as [Tc Dc], Ha as [Ta Da], Hb as [Tb Db]. destruct (CreateIfElse_ok c a b Tc) as [Ht Hd]; [congruence |].
    split; [congruence |]. unfold den_float in *. rewrite Hd, Dc. destruct rc as [[] | e]; done.
Qed.

(** ** Operators *)

Lemma gen_binary_num t tr w op (a b : V) : kind_of t = Some (Num w) → op_ok t op = true → plain_binary op = true →
  match cmp_of op, ibin_of op with
  | Some (c, _), _ => gen_binary op t tr a b = Ok (CreateICmp c a b)
  | None, Some o => gen_binary op t tr a b = Ok (CreateBin o a b)
  | None, None => False
  end.
Proof. destruct t; try done; destruct op; done. Qed.

Lemma gen_binary_dbl t tr op (a b : V) : kind_of t = Some Dbl → op_ok t op = true → plain_binary op = true →
  match cmp_of op, fbin_of op with
  | Some (_, c), _ => gen_binary op t tr a b = Ok (CreateFCmp c a b)
  | None, Some o => gen_binary op t tr a b = Ok (CreateFBin o a b)
  | None, None => False
  end.
Proof. destruct t; try done; destruct op; done. Qed.

Definition op_kind (op : opID) (k : kind) : kind := match cmp_of op with Some _ => Truth | None => k end.

(** Two outcomes of the same kind, in order. *)
Lemma num_op w op a b ra rb o : 0 < w → ibin_of op = Some o → cmp_of op = None →
  represents (Num w) a ra → represents (Num w) b rb →
  represents (Num w) (CreateBin o a b) (do x <- ra; do y <- rb; apply_op (Num w) op x y).
Proof.
  intros Hp Ho Hc [Ka Ha] [Kb Hb].
  eapply represents_eq; [apply represents_num, (computes_bin w o a b _ _ Hp Ha Hb) |].
  destruct ra as [x |]; [| done]. destruct (has_num w x) as (p & -> & _); [auto |].
  destruct rb as [y |]; [| done]. destruct (has_num w y) as (q & -> & _); [auto |]. simpl. by rewrite Hc, Ho.
Qed.

Lemma num_cmp w op a b ra rb c fc : 0 < w → cmp_of op = Some (c, fc) →
  represents (Num w) a ra → represents (Num w) b rb →
  represents Truth (CreateICmp c a b) (do x <- ra; do y <- rb; apply_op (Num w) op x y).
Proof.
  intros Hp Hc [Ka Ha] [Kb Hb].
  eapply represents_eq; [apply represents_truth, (decides_cmp w c a b _ _ Hp Ha Hb) |].
  destruct ra as [x |]; [| done]. destruct (has_num w x) as (p & -> & _); [auto |].
  destruct rb as [y |]; [| done]. destruct (has_num w y) as (q & -> & _); [auto |]. simpl. by rewrite Hc.
Qed.

Lemma dbl_op op a b ra rb o : fbin_of op = Some o → cmp_of op = None →
  represents Dbl a ra → represents Dbl b rb →
  represents Dbl (CreateFBin o a b) (do x <- ra; do y <- rb; apply_op Dbl op x y).
Proof.
  intros Ho Hc (Ka & Ta & Da) (Kb & Tb & Db). destruct (CreateFBin_ok o a b Ta Tb) as [Ht Hd].
  eapply represents_eq; [apply (represents_dbl _ _ Ht Hd) |]. rewrite Da, Db.
  destruct ra as [x |]; [| done]. destruct (has_dbl x) as (p & ->); [auto |].
  destruct rb as [y |]; [| done]. destruct (has_dbl y) as (q & ->); [auto |]. simpl. by rewrite Hc, Ho.
Qed.

Lemma dbl_cmp op a b ra rb c fc : cmp_of op = Some (c, fc) →
  represents Dbl a ra → represents Dbl b rb →
  represents Truth (CreateFCmp fc a b) (do x <- ra; do y <- rb; apply_op Dbl op x y).
Proof.
  intros Hc (Ka & Ta & Da) (Kb & Tb & Db). destruct (CreateFCmp_ok fc a b Ta Tb) as [Ht Hd].
  eapply represents_eq; [apply (represents_truth _ (do x <- den_float a; do y <- den_float b; Ok (fcomp fc x y))) |].
  - split; [done |]. rewrite Hd. destruct (den_float a); [| done]. by destruct (den_float b).
  - rewrite Da, Db. destruct ra as [x |]; [| done]. destruct (has_dbl x) as (p & ->); [auto |].
    destruct rb as [y |]; [| done]. destruct (has_dbl y) as (q & ->); [auto |]. simpl. by rewrite Hc.
Qed.

Lemma decides_eq {A B} (v : V) (ra : res A) (rb : res B) (f g : A → B → bool) :
  decides v (do x <- ra; do y <- rb; Ok (f x y)) → (∀ x y, f x y = g x y) → decides v (do x <- ra; do y <- rb; Ok (g x y)).
Proof. intros [Ht Hd] Hfg. split; [done |]. rewrite Hd. destruct ra; [| done]. destruct rb; [| done]. simpl. by rewrite Hfg. Qed.

Lemma truth_op op tr a b ra rb : op_ok BoolType op = true → represents Truth a ra → represents Truth b rb →
  ∃ v, gen_binary op BoolType tr a b = Ok v ∧
    represents Truth v (do x <- ra; do y <- rb; apply_op Truth op x y).
Proof.
  intros Hop [Ka Ha] [Kb Hb].
  assert (∀ (f : bool → bool → bool) v,
    decides v (do x <- (do x <- ra; truth x); do y <- (do y <- rb; truth y); Ok (f x y)) →
    (∀ x y, apply_op Truth op (VTruth x) (VTruth y) = Ok (VTruth (f x y))) →
    represents Truth v (do x <- ra; do y <- rb; apply_op Truth op x y)) as Hv.
  { intros f v Hd Hf. eapply represents_eq; [by apply represents_truth |].
    destruct ra as [x |]; [| done]. destruct (has_truth x) as (p & ->); [auto |].
    destruct rb as [y |]; [| done]. destruct (has_truth y) as (q & ->); [auto |]. simpl. symmetry. apply Hf. }
  destruct op; try discriminate Hop; (eexists; split; [reflexivity |]).
  - apply (Hv Bool.eqb); [| done]. eapply decides_eq; [by apply (decides_cmp_bool EQ); [left |  |] |].
    intros x y. by destruct x, y.
  - apply (Hv xorb); [| done]. eapply decides_eq; [by apply (decides_cmp_bool NE); [right | |] |].
    intros x y. by destruct x, y.
  - apply (Hv andb); [| done]. by apply decides_bin.
  - apply (Hv orb); [| done]. by apply decides_bin.
  - apply (Hv xorb); [| done]. by apply decides_bin.
Qed.

Lemma binary_correct t tr k op a b ra rb :
  kind_of t = Some k → op_ok t op = true → plain_binary op = true → represents k a ra → represents k b rb →
  ∃ v, gen_binary op t tr a b = Ok v ∧
    represents (op_kind op k) v (do x <- ra; do y <- rb; apply_op k op x y).
Proof.
  intros Hk Hop Hpl Ha Hb. pose proof (kind_of_pos t k Hk) as Hp. unfold op_kind. destruct k as [w | |].
  - pose proof (gen_binary_num t tr w op a b Hk Hop Hpl) as Hg.
    destruct (cmp_of op) as [[c fc] |] eqn:Ec; [| destruct (ibin_of op) as [o |] eqn:Eo; [| done]]; (eexists; split; [exact Hg |]).
    + by apply (num_cmp w op a b ra rb c fc).
    + by apply num_op.
  - destruct t; try discriminate Hk. destruct (truth_op op tr a b ra rb Hop Ha Hb) as (v & Hg & Hv).
    exists v. split; [done |]. by destruct (cmp_of op).
  - pose proof (gen_binary_dbl t tr op a b Hk Hop Hpl) as Hg.
    destruct (cmp_of op) as [[c fc] |] eqn:Ec; [| destruct (fbin_of op) as [o |] eqn:Eo; [| done]]; (eexists; split; [exact Hg |]).
    + by apply (dbl_cmp op a b ra rb c fc).
    + by apply dbl_op.
Qed.

Lemma in_signed_0 w : 0 < w → in_signed w 0.
Proof. intros Hw. pose proof (pow_half w Hw). unfold in_signed. lia. Qed.

Lemma neg_correct k v r : k ≠ Truth → kind_pos k → represents k v r →
  represents k (gen_neg v) (do x <- r; negate k x).
Proof.
  intros Hk Hp Hv. pose proof (represents_type k v r Hv) as Ht. unfold gen_neg. rewrite Ht.
  destruct k as [w | |]; simpl in *; [| done |].
  - destruct Hv as [Kv Hv]. eapply represents_eq.
    + apply represents_num, (computes_bin w Sub _ v (Ok 0) (do x <- r; num x) Hp); [| exact Hv]. apply computes_const; [done | by apply in_signed_0].
    + destruct r as [x |]; [| done]. destruct (has_num w x) as (z & -> & _); [auto |]. done.
  - destruct Hv as (Kv & _ & Dv). destruct (CreateFNeg_ok v Ht) as [Htn Hd].
    eapply represents_eq; [apply (represents_dbl _ _ Htn Hd) |]. rewrite Dv.
    destruct r as [x |]; [| done]. destruct (has_dbl x) as (z & ->); [auto |]. done.
Qed.

Lemma float_to_int w v (r : res F) : 0 < w → vtype v = TDouble → den_float v = r →
  computes w (CreateFPToSI v w)
    (do f <- r; do z <- of_option Undefined (to_int f);
     check (- 2 ^ (w - 1) <=? z) && (z <? 2 ^ (w - 1)) else Undefined; Ok z).
Proof.
  intros Hw Ht Hd. destruct (CreateFPToSI_ok v w Hw Ht) as [Htc Hdc]. split; [done |]. rewrite Hdc, Hd.
  destruct r as [f |]; [| done]. simpl. destruct (to_int f) as [z |]; [| done]. simpl.
  destruct ((- 2 ^ (w - 1) <=? z) && (z <? 2 ^ (w - 1))) eqn:E; [| done]. split; [done |].
  intros s [= <-]. apply andb_true_iff in E as [?%Z.leb_le ?%Z.ltb_lt]. split; lia.
Qed.

Lemma cast_correct tf tt kf kt v r : kind_of tf = Some kf → kind_of tt = Some kt → kf ≠ Truth → kt ≠ Truth →
  represents kf v r → ∃ v', gen_cast tf tt v = Ok v' ∧ represents kt v' (do x <- r; convert kt x).
Proof.
  intros Hf Ht Nf Nt Hv. unfold gen_cast. rewrite (kind_llvm _ _ Hf), (kind_llvm _ _ Ht).
  pose proof (kind_of_pos _ _ Hf) as Pf. pose proof (kind_of_pos _ _ Ht) as Pt.
  destruct kf as [w | |], kt as [u | |]; try done; simpl in *; (eexists; split; [reflexivity |]).
  - destruct Hv as [Kv Hv]. eapply represents_eq; [apply represents_num, (computes_sext w u v _ Pf Pt Hv) |].
    destruct r as [x |]; [| done]. destruct (has_num w x) as (z & -> & _); [auto |]. done.
  - destruct Hv as (Kv & Tv & Dv & Rv). destruct (CreateSIToFP_ok v w Tv) as [Htc Hd].
    eapply represents_eq; [apply (represents_dbl _ _ Htc Hd) |]. rewrite Dv.
    destruct r as [x |]; [| done]. destruct (has_num w x) as (z & -> & Hz); [auto |]. simpl. by rewrite signed_wrap.
  - destruct Hv as (Kv & Tv & Dv). eapply represents_eq; [apply represents_num, (float_to_int u v _ Pt Tv Dv) |].
    destruct r as [x |]; [| done]. destruct (has_dbl x) as (f & ->); [auto |]. simpl.
    destruct (to_int f) as [z |]; [| done]. simpl. by destruct (_ && _).
  - destruct Hv as (Kv & Tv & Dv). destruct (CreateFPCast_ok v Tv) as [Htc Hd].
    assert (den_float (CreateFPCast v) = den_float v) as Hd' by (unfold den_float; by rewrite Hd).
    eapply represents_eq; [apply (represents_dbl _ _ Htc Hd') |]. rewrite Dv.
    destruct r as [x |]; [| done]. destruct (has_dbl x) as (f & ->); [auto |]. done.
Qed.

(** ** The visitor *)

(** The visit succeeds in every state and emits nothing but the code of a value and a null
    flag, which run to [r]. *)
Definition quiet (s s' : gstate (V := V)) : Prop := fresh s' = fresh s ∧ stores s' = stores s.

Definition correct (k : kind) (gen : M (V := V) PV) (r : res sval * res bool) : Prop :=
  ∀ s, ∃ v s', gen s = Ok (v, s') ∧ quiet s s' ∧ represents k (value v) r.1 ∧ decides (isNull v) r.2.

(** A condition. *)
Definition yields (c : M (V := V) PV) (rc : res bool) : Prop :=
  ∀ s, ∃ v s', c s = Ok (v, s') ∧ quiet s s' ∧ decides (value v) rc.

Lemma quiet_refl s : quiet s s.
Proof. done. Qed.

Lemma quiet_trans s1 s2 s3 : quiet s1 s2 → quiet s2 s3 → quiet s1 s3.
Proof. unfold quiet. intros [-> ->] [-> ->]. done. Qed.

Lemma correct_eq k gen r r' : correct k gen r → r = r' → correct k gen r'.
Proof. by intros ? <-. Qed.

Lemma correct_ret k v r : represents k (value v) r.1 → decides (isNull v) r.2 → correct k (ret v) r.
Proof. intros Hv Hn s. exists v, s. by repeat (split; [done |]). Qed.

Lemma correct_const w z : 0 < w → in_signed w z →
  correct (Num w) (ret (mk_pv (ConstInt w z) (ConstInt 1 0))) (Ok (VNum z), Ok false).
Proof.
  intros Hw Hz. apply correct_ret; [| apply (decides_const false)]. apply (represents_num w _ (Ok z)). by apply computes_const.
Qed.

(** The merge of two branches of the same kind. *)
Lemma correct_if k c t e rc rt re : yields c rc → correct k t rt → correct k e re →
  correct k (gen_if c t e)
    (do b <- rc; if b : bool then rt.1 else re.1, do b <- rc; if b : bool then rt.2 else re.2).
Proof.
  intros Hc Ht He s. destruct (Hc s) as (vc & s1 & Ec & Q1 & Dc). destruct (Ht s1) as (vt & s2 & Et & Q2 & Rt & Nt).
  destruct (He s2) as (ve & s3 & Ee & Q3 & Re & Ne).
  unfold gen_if, bind, lift. rewrite Ec. simpl. rewrite Et. simpl. rewrite Ee. simpl. unfold merge.
  rewrite (represents_type _ _ _ Rt), (represents_type _ _ _ Re), bool_decide_eq_true_2 by done. simpl.
  rewrite (proj1 Nt), (proj1 Ne), bool_decide_eq_true_2 by done. simpl.
  do 2 eexists. split; [reflexivity |]. split; [eauto using quiet_trans |].
  split; [by apply represents_ifelse | by apply decides_ifelse].
Qed.

Lemma correct_bin k t tr op l r rl rr : kind_of t = Some k → op_ok t op = true → plain_binary op = true →
  correct k l rl → correct k r rr →
  correct (op_kind op k) (gen_bin op t tr l r) (do x <- rl.1; do y <- rr.1; apply_op k op x y, Ok false).
Proof.
  intros Hk Hop Hpl Hl Hr s. destruct (Hl s) as (vl & s1 & El & Q1 & Rl & _).
  destruct (Hr s1) as (vr & s2 & Er & Q2 & Rr & _).
  destruct (binary_correct t tr k op _ _ _ _ Hk Hop Hpl Rl Rr) as (v & Hg & Hv).
  unfold gen_bin, bind, lift, ret. rewrite El. simpl. rewrite Er. simpl. rewrite Hg. simpl.
  do 2 eexists. split; [reflexivity |]. split; [eauto using quiet_trans |]. split; [done | apply (decides_const false)].
Qed.

(** The condition of a conditional is a truth value. *)
Lemma correct_cond c rc : correct Truth c rc → yields c (do x <- rc.1; truth x).
Proof. intros Hc s. destruct (Hc s) as (v & s' & Ev & Q & [_ Hv] & _). eauto 6. Qed.

Lemma correct_map k k' gen r r' (f : PV → PV) :
  correct k gen r → (∀ v, represents k (value v) r.1 → decides (isNull v) r.2 →
    represents k' (value (f v)) r'.1 ∧ decides (isNull (f v)) r'.2) →
  correct k' (bind gen (λ v, ret (f v))) r'.
Proof.
  intros Hg Hf s. destruct (Hg s) as (v & s' & Ev & Q & Rv & Nv). unfold bind, ret. rewrite Ev. simpl.
  do 2 eexists. split; [reflexivity |]. split; [done |]. by apply Hf.
Qed.

Context (E : env (F := F) (V := V)) (col : expr → RecordAttribute → option (res sval * res bool)).

(** What an operator and the plug-in of its input promise to an expression over a tuple: the
    columns of the tuple can be projected. *)
Class Columns : Prop :=
  column_ok : ∀ e a k r, col e a = Some r → kind_of (type a) = Some k → correct k (generate E (RecordProjection e a)) r.
Context `{!Columns}.

(** The arms of the visitor. *)
Lemma generate_if c t e : generate E (IfThenElse c t e) = gen_if (generate E c) (generate E t) (generate E e).
Proof. reflexivity. Qed.

Lemma generate_plain op l r : plain_binary op = true →
  generate E (Binary op l r) = gen_bin op (getExpressionType l) (getExpressionType r) (generate E l) (generate E r).
Proof. by destruct op. Qed.

Lemma generate_max l r : generate E (Binary OpMAX l r) =
  gen_if (gen_bin OpGT (getExpressionType l) (getExpressionType r) (generate E l) (generate E r)) (generate E l) (generate E r).
Proof. reflexivity. Qed.

Lemma generate_min l r : generate E (Binary OpMIN l r) =
  gen_if (gen_bin OpLT (getExpressionType l) (getExpressionType r) (generate E l) (generate E r)) (generate E l) (generate E r).
Proof. reflexivity. Qed.

Lemma sem_plain op (l r : expr) : plain_binary op = true →
  sem col (Binary op l r) = (do x <- (sem col l).1; do y <- (sem col r).1; apply_op (scalar l) op x y, Ok false).
Proof. by destruct op. Qed.

Lemma scalar_plain op (l r : expr) : same_kind l r = true → wt col l = true →
  scalar (Binary op l r) = op_kind op (scalar l).
Proof.
  intros Hs%bool_decide_eq_true Hw. unfold scalar in *. destruct op; simpl; try done. unfold op_kind; simpl. by rewrite Hs.
Qed.

Lemma numeric_kind t k : numeric t = true → kind_of t = Some k → k ≠ Truth.
Proof. unfold numeric. intros Hn Hk ->. by rewrite Hk in Hn. Qed.

Lemma numeric_some t : numeric t = true → ∃ k, kind_of t = Some k.
Proof. unfold numeric. destruct (kind_of t); [eauto | done]. Qed.

(** A condition that compares two operands. *)
Lemma yields_order (op : opID) l r (g : sval → sval → res bool) :
  op = OpGT ∧ g = greater ∨ op = OpLT ∧ g = less →
  wt col l = true → scalar l = scalar r → scalar l ≠ Truth → op_ok (getExpressionType l) op = true →
  correct (scalar l) (generate E l) (sem col l) → correct (scalar r) (generate E r) (sem col r) →
  yields (gen_bin op (getExpressionType l) (getExpressionType r) (generate E l) (generate E r))
    (do x <- (sem col l).1; do y <- (sem col r).1; g x y).
Proof.
  intros Hg Hw Hs Hk Hop Hl Hr s. rewrite <- Hs in Hr.
  assert (plain_binary op = true ∧ op_kind op (scalar l) = Truth) as [Hpl Hok] by (by destruct Hg as [[-> _] | [-> _]]).
  pose proof (correct_bin (scalar l) _ (getExpressionType r) op _ _ _ _ (wt_scalar col l Hw) Hop Hpl Hl Hr) as Hb.
  rewrite Hok in Hb. destruct (correct_cond _ _ Hb s) as (v & s' & Ev & Q & Dv). exists v, s'. split; [done |]. split; [done |].
  simpl in Dv. destruct (Hl s) as (_ & _ & _ & _ & [Kl _] & _), (Hr s) as (_ & _ & _ & _ & [Kr _] & _).
  destruct (sem col l).1 as [x |]; [| done]. destruct (sem col r).1 as [y |]; [| done]. specialize (Kl x eq_refl). specialize (Kr y eq_refl).
  destruct (scalar l) as [w | |]; [| done |].
  - destruct (has_num w x Kl) as (p & -> & _), (has_num w y Kr) as (q & -> & _).
    by destruct Hg as [[-> ->] | [-> ->]].
  - destruct (has_dbl x Kl) as (p & ->), (has_dbl y Kr) as (q & ->). by destruct Hg as [[-> ->] | [-> ->]].
Qed.

(** The order comparison a maximum or a minimum makes is one its type has. *)
Lemma pick_order t op : op_ok t op = true → plain_binary op = false →
  kind_of t ≠ Some Truth ∧ op_ok t OpGT = true ∧ op_ok t OpLT = true.
Proof. destruct t, op; done. Qed.

Lemma is_bool_scalar (c : expr) : is_type BOOL c = true → scalar c = Truth.
Proof. unfold is_type, scalar. intros Hc%bool_decide_eq_true. by destruct (getExpressionType c). Qed.

Lemma same_scalar (l r : expr) : same_kind l r = true → scalar l = scalar r.
Proof. unfold same_kind, scalar. by intros ->%bool_decide_eq_true. Qed.

Lemma represents_expect v r : represents Truth v r → represents Truth (CreateExpect v) r.
Proof.
  intros [Kr [Tv Dv]]. destruct (CreateExpect_ok v Tv) as [Ht Hd]. split; [done |].
  split; [done |]. unfold den_int in *. by rewrite Hd.
Qed.

Lemma represents_not v (b : bool) r : decides v r →
  represents Truth (if b then v else CreateBin Xor v (ConstInt 1 1)) (do n <- r; Ok (VTruth (if b then n else negb n))).
Proof.
  intros Hv. destruct b; [by apply represents_truth |].
  eapply represents_eq; [apply represents_truth, (decides_bin Xor xorb v _ r (Ok true)); [done | done | apply (decides_const true)] |].
  destruct r as [[] |]; done.
Qed.

Lemma scalar_correct e : wt col e = true → correct (scalar e) (generate E e) (sem col e).
Proof.
  induction e using expr_ind'; cbn [wt]; intros Hw; try discriminate Hw;
    repeat match goal with Hx : _ && _ = true |- _ => apply andb_true_iff in Hx as [? ?] end;
    repeat match goal with IH : wt col ?x = true → _, Hx : wt col ?x = true |- _ => specialize (IH Hx) end.
  - apply (correct_const 32); [done |]. by apply bool_decide_eq_true in Hw.
  - apply (correct_const 64); [done |]. by apply bool_decide_eq_true in Hw.
  - apply (correct_const 64); [done |]. by apply bool_decide_eq_true in Hw.
  - apply correct_ret; [| apply (decides_const false)]. destruct (ConstFP_ok f) as [Ht Hd].
    apply (represents_dbl _ (Ok f) Ht). unfold den_float. by rewrite Hd.
  - apply correct_ret; [| apply (decides_const false)]. apply (represents_truth _ (Ok b)), decides_const.
  - apply (correct_const 32); [done |]. by apply bool_decide_eq_true in Hw.
  - destruct (col e a) as [r |] eqn:Ec; [| done]. apply bool_decide_eq_true in Hw as [k Hk]. unfold scalar. simpl.
    rewrite Hk, Ec. by apply (column_ok e a).
  - rewrite generate_if. rewrite (is_bool_scalar e1) in IHe1 by done.
    apply correct_if; [by apply (correct_cond _ (sem col e1)) | done |].
    change (scalar (IfThenElse e1 e2 e3)) with (scalar e2). by rewrite (same_scalar e2 e3).
  - destruct (plain_binary op) eqn:Hpl.
    + rewrite generate_plain, sem_plain, scalar_plain by done. apply correct_bin; try done; [by apply (wt_scalar col) |].
      by rewrite (same_scalar e1 e2).
    + pose proof (same_scalar e1 e2 ltac:(done)) as Hs. destruct (pick_order (getExpressionType e1) op) as (Hk & Hgt & Hlt); [done | done |].
      rewrite (wt_scalar col e1) in Hk by done.
      assert (scalar e1 ≠ Truth) by congruence. pose proof IHe2 as IHe2'. rewrite <- Hs in IHe2'.
      destruct op; try discriminate Hpl;
        [rewrite generate_max; change (scalar (Binary OpMAX e1 e2)) with (scalar e1); apply correct_if
        |rewrite generate_min; change (scalar (Binary OpMIN e1 e2)) with (scalar e1); apply correct_if]; try done;
        apply yields_order; auto.
  - apply bool_decide_eq_true in Hw as [k Hk]. unfold scalar. simpl. rewrite Hk. simpl. intros s.
    unfold generate. cbn [visit fst]. unfold gen_placeholder, bind, lift, ret. rewrite (kind_llvm t k Hk). simpl.
    do 2 eexists. split; [reflexivity |]. split; [done |]. split; [| apply (decides_const false)].
    apply represents_read; [by eapply kind_of_pos | apply CreateParameter_ok].
  - unfold scalar. simpl. destruct (kind_of t) as [k |] eqn:Hk; [| done]. simpl. apply correct_ret.
    + apply represents_read; [by eapply kind_of_pos | by eapply bool_decide_eq_true_1].
    + apply (represents_read Truth (isNull v)); [done | by eapply bool_decide_eq_true_1].
  - pose proof (is_bool_scalar e ltac:(done)) as Hb. change (scalar (HintExpression e)) with (scalar e).
    rewrite Hb in IHe |- *. intros s. destruct (IHe s) as (v & s' & Ev & Q & Rv & Nv).
    unfold generate in *. cbn [visit fst]. unfold gen_hint, bind, lift. rewrite Ev. cbn [rbind].
    rewrite bool_decide_eq_true_2 by apply (represents_type _ _ _ Rv). cbn [rbind].
    do 2 eexists. split; [reflexivity |]. split; [done |]. split; [by apply represents_expect | done].
  - eapply (correct_map _ _ _ _ _ (λ v, mk_pv (gen_neg (value v)) (isNull v))); [exact IHe |].
    intros v Rv Nv. split; [| done]. apply neg_correct; [| by eapply kind_of_pos, (wt_scalar col) | done].
    eapply numeric_kind; [done | by apply (wt_scalar col)].
  - eapply (correct_map _ _ _ _ _ (λ v, mk_pv (if b then isNull v else CreateBin Xor (isNull v) (ConstInt 1 1)) (ConstInt 1 0)));
      [exact IHe |].
    intros v Rv Nv. split; [| apply (decides_const false)]. apply represents_not. done.
  - pose proof (wt_scalar col e ltac:(done)) as Hf. destruct (numeric_some t) as (kt & Ht); [done |].
    unfold scalar at 1. simpl. rewrite Ht. simpl. intros s. destruct (IHe s) as (v & s' & Ev & Q & Rv & Nv).
    destruct (cast_correct _ _ _ kt _ _ Hf Ht ltac:(by eapply numeric_kind; [| exact Hf]) ltac:(by eapply numeric_kind; [| exact Ht]) Rv) as (v' & Eg & Rv').
    unfold generate in *. cbn [visit fst]. unfold bind, lift, ret. rewrite Ev. simpl. rewrite Eg. simpl.
    by do 2 eexists.
Qed.

(** The remainders of two natural numbers are the same. *)
Lemma rem_agree w x y : 0 < w → in_signed w x → in_signed w y → 0 <= x → 0 <= y →
  sem_bin w URem x y = sem_bin w SRem x y.
Proof.
  intros Hw Hx Hy Nx Ny. pose proof (pow_half w Hw) as [Hp Hp2]. unfold in_signed in *. simpl.
  destruct (Z.eqb_spec y 0) as [-> | Hn]; [done |]. cbn [negb].
  rewrite (proj2 (Z.eqb_neq y (-1))) by lia. rewrite andb_false_r. cbn [negb].
  rewrite !(wrap_id w) by lia. unfold swrap.
  pose proof (Z.mod_pos_bound x y ltac:(lia)). rewrite Z.rem_mod_nonneg by lia.
  by rewrite signed_wrap by (unfold in_signed; lia).
Qed.

(** Without negative remainders the code computes the meaning. *)
Lemma sem_is_meaning e : wt col e = true → mod_nonneg URem col e = true → sem col e = meaning col e.
Proof.
  induction e using expr_ind'; cbn [wt mod_nonneg]; intros Hw Hm; try done;
    repeat match goal with Hx : _ && _ = true |- _ => apply andb_true_iff in Hx as [? ?] end;
    repeat match goal with IH : wt col ?x = true → _, Hx : wt col ?x = true |- _ => specialize (IH Hx) end;
    repeat match goal with IH : mod_nonneg _ col ?x = true → _, Hx : mod_nonneg _ col ?x = true |- _ => specialize (IH Hx) end;
    cbn [sem_with]; try congruence.
  - by rewrite IHe1, IHe2, IHe3.
  - destruct op; try (by rewrite IHe1, IHe2);
      rewrite <- IHe1, <- IHe2; try reflexivity. f_equal.
    pose proof (scalar_correct e1 ltac:(done) (mk_state "" 0 [])) as (_ & _ & _ & _ & [K1 _] & _).
    pose proof (scalar_correct e2 ltac:(done) (mk_state "" 0 [])) as (_ & _ & _ & _ & [K2 _] & _).
    destruct (sem col e1).1 as [x |]; [| done]. destruct (sem col e2).1 as [y |]; [| done]. cbn [rbind].
    rewrite <- (same_scalar e1 e2) in K2 by done. specialize (K1 x eq_refl). specialize (K2 y eq_refl).
    destruct (scalar e1) as [w | |] eqn:Es; [| done |].
    + destruct (has_num w x K1) as (p & -> & Hp), (has_num w y K2) as (q & -> & Hq).
      match goal with Hx : _ && _ = true |- _ => apply andb_true_iff in Hx as [?%Z.leb_le ?%Z.leb_le] end.
      cbn [apply_with cmp_of ibin_with]. rewrite rem_agree; try done.
      assert (wt col e1 = true) as Hw1 by done. apply (wt_scalar col) in Hw1. rewrite Es in Hw1.
      by apply (kind_of_pos _ (Num w)) in Hw1.
    + done.
Qed.


(** ** Hashes *)

(** A visit that gives a 64-bit hash, [r] when it ends. *)
Definition hashes (gen : M (V := V) PV) (r : res Z) : Prop :=
  ∀ s, ∃ h s', gen s = Ok (h, s') ∧ quiet s s' ∧ vtype (value h) = TInt 64 ∧
    ∀ k, r = Ok k → den_int (value h) = Ok k.

(** The promise of the plug-ins to the hasher: the hash of a column is a function of its
    value.  Which function is the plug-in's affair: some mix the integer as the generator does,
    others call the hash of the standard library. *)
Context (hc : expr → RecordAttribute → Z → Z).
Class HashColumns : Prop :=
  column_hash : ∀ e a w r, col e a = Some r → kind_of (type a) = Some (Num w) →
    hashes (hash_expr E (RecordProjection e a)) (do x <- r.1; do z <- num x; Ok (hc e a z)).
Context `{!HashColumns}.

(** The hash of a value that is computed. *)
Definition mixed (e : expr) : res Z :=
  do x <- (sem col e).1; do z <- num x; Ok (Hash.mix (match scalar e with Num w => w | _ => 0 end) z).

(** The hash of an expression: a column is hashed by its plug-in, a conditional as the branch
    taken, anything else is evaluated and mixed. *)
Fixpoint sem_hash (e : expr) : res Z :=
  match e with
  | RecordProjection e' a => do x <- (sem col e).1; do z <- num x; Ok (hc e' a z)
  | IfThenElse c t e => do b <- (do x <- (sem col c).1; truth x); if b : bool then sem_hash t else sem_hash e
  | Binary OpMAX l r =>
      do b <- (do x <- (sem col l).1; do y <- (sem col r).1; greater x y); if b : bool then sem_hash l else sem_hash r
  | Binary OpMIN l r =>
      do b <- (do x <- (sem col l).1; do y <- (sem col r).1; less x y); if b : bool then sem_hash l else sem_hash r
  | _ => mixed e
  end.

(** Every value the hash of [e] may be taken of is hashed by [f]. *)
Fixpoint hashed_by (f : Z → Z) (e : expr) : Prop :=
  match e with
  | RecordProjection e a => ∀ z, hc e a z = f z
  | IfThenElse _ t e => hashed_by f t ∧ hashed_by f e
  | Binary OpMAX l r | Binary OpMIN l r => hashed_by f l ∧ hashed_by f r
  | _ => ∀ w z, scalar e = Num w → Hash.mix w z = f z
  end.

Lemma correct_visitor k rel gen r : correct k gen r → correct k (with_new_visitor rel gen) r.
Proof.
  intros Hg s. destruct (Hg (set_relation rel s)) as (v & s' & Ev & [Q1 Q2] & Rv). unfold with_new_visitor. rewrite Ev. simpl.
  exists v, (set_relation (activeRelation s) s'). done.
Qed.

Lemma hash_width_kind t w : kind_of t = Some (Num w) → Hash.hash_width (ExprTypes.getTypeID t) = Some w ∧ isPrimitive t = true.
Proof. destruct t; simpl; intros [= <-]; done. Qed.

Lemma xorshift_type k (h : V) : vtype h = TInt 64 → vtype (Hash.emit_xorshift k h) = TInt 64.
Proof.
  intros Hh. destruct (ConstInt_ok 64 k) as [Hc _]; [lia |]. apply CreateBin_ok; [done |]. by apply CreateBin_ok.
Qed.

Lemma mul_type c (h : V) : vtype h = TInt 64 → vtype (Hash.emit_mul c h) = TInt 64.
Proof. intros Hh. destruct (ConstInt_ok 64 c) as [Hc _]; [lia |]. by apply CreateBin_ok. Qed.

Lemma hash_type t w (v : PV) : Hash.hash_width t = Some w → vtype (value v) = TInt w →
  ∃ h, Hash.hashPrimitive v t = Ok h ∧ vtype (value h) = TInt 64.
Proof.
  intros Hw Hv. assert (vtype (CreateSExtOrTrunc (value v) 64) = TInt 64) as Hs by (by eapply CreateSExtOrTrunc_ok).
  destruct t; try discriminate Hw; injection Hw as <-; cbn [Hash.hashPrimitive]; unfold Hash.hashInt32, Hash.hashInt64;
    rewrite bool_decide_eq_true_2 by done; eexists; (split; [done |]); cbn [value];
    repeat first [apply xorshift_type | apply mul_type | done].
Qed.

(** Evaluate, then hash. *)
Definition mixes (w : Z) (r : res sval) : res Z := do x <- r; do z <- num x; Ok (Hash.mix w z).

Lemma hashes_value t w gen r : kind_of t = Some (Num w) → correct (Num w) gen r →
  hashes (bind (with_new_visitor "" gen) (λ v, lift (Hash.hashPrimitive v (ExprTypes.getTypeID t)))) (mixes w r.1).
Proof.
  intros Hk Hg s. destruct (correct_visitor _ "" _ _ Hg s) as (v & s' & Ev & Q & Rv & Nv).
  destruct (hash_width_kind t w Hk) as [Hw _]. pose proof (represents_type _ _ _ Rv) as Tv.
  destruct (hash_type _ w v Hw Tv) as (h & Eh & Th). unfold bind, lift. rewrite Ev. simpl. rewrite Eh. simpl.
  exists h, s'. repeat (split; [done |]). intros k (x & Hx & (z & Hz & [= <-])%rbind_Ok_inv)%rbind_Ok_inv.
  destruct Rv as [_ Rv]. rewrite Hx in Rv. simpl in Rv. rewrite Hz in Rv.
  destruct (Hash.hashPrimitive_reads _ w v z Hw Rv) as (h' & Eh' & (_ & Dh & _) & _). congruence.
Qed.

Lemma hashes_primitive t w gen r : kind_of t = Some (Num w) → correct (Num w) gen r →
  hashes (hash_primitive t gen) (mixes w r.1) ∧ hashes (hash_if_primitive t gen) (mixes w r.1).
Proof.
  intros Hk Hg. destruct (hash_width_kind t w Hk) as [_ Hp]. pose proof (hashes_value t w gen r Hk Hg) as Hh.
  unfold hash_if_primitive, hash_primitive. rewrite Hp. by split.
Qed.

(** The hash of a conditional is the hash of the branch it takes. *)
Lemma hashes_if c t e rc rt re : yields c rc →
  hashes t rt → hashes e re → hashes (hash_if c t e) (do b <- rc; if b : bool then rt else re).
Proof.
  intros Hc Ht He s. destruct (Hc s) as (vc & s1 & Ec & Q1 & Tc & Dc). destruct (Ht s1) as (vt & s2 & Et & Q2 & Tt & Dt).
  destruct (He s2) as (ve & s3 & Ee & Q3 & Te & De).
  unfold hash_if, bind, lift, ret. rewrite Ec. simpl. rewrite Et. simpl. rewrite Ee. simpl.
  rewrite Tt, Te, bool_decide_eq_true_2 by done. simpl. destruct (CreateIfElse_ok (value vc) (value vt) (value ve) Tc) as [Hti Hdi]; [congruence |].
  do 2 eexists. split; [reflexivity |]. split; [eauto using quiet_trans |]. simpl. split; [congruence |].
  intros z (b & -> & Hb)%rbind_Ok_inv. unfold den_int in *. rewrite Hdi, Dc. destruct b; simpl; [by apply Dt | by apply De].
Qed.

Lemma yields_visitor rel c rc : yields c rc → yields (with_new_visitor rel c) rc.
Proof.
  intros Hc s. destruct (Hc (set_relation rel s)) as (v & s' & Ev & Q & Dv). unfold with_new_visitor. rewrite Ev. simpl.
  by exists v, (set_relation (activeRelation s) s').
Qed.

(** The arms of the hasher. *)
Lemma hash_int_const z : hash_expr E (IntConstant z) =
  bind (with_new_visitor "" (generate E (IntConstant z))) (λ v, lift (Hash.hashPrimitive v INT)).
Proof. reflexivity. Qed.

Lemma hash_plain op l r w : plain_binary op = true → scalar (Binary op l r) = Num w →
  hash_expr E (Binary op l r) = hash_primitive (getExpressionType (Binary op l r)) (generate E (Binary op l r)) ∨
  hash_expr E (Binary op l r) = hash_if_primitive (getExpressionType (Binary op l r)) (generate E (Binary op l r)).
Proof. destruct op; try discriminate 1; auto. Qed.

Lemma mixed_num e w : scalar e = Num w → mixes w (sem col e).1 = mixed e.
Proof. unfold mixes, mixed. by intros ->. Qed.

Lemma sem_hash_plain op (l r : expr) : plain_binary op = true → sem_hash (Binary op l r) = mixed (Binary op l r).
Proof. by destruct op. Qed.

Lemma scalar_hashes e : ∀ w, wt col e = true → scalar e = Num w → hashes (hash_expr E e) (sem_hash e).
Proof.
  induction e using expr_ind'; intros w Hw Hk; try discriminate Hw;
    pose proof (scalar_correct _ Hw) as Hc; pose proof (wt_scalar col _ Hw) as Ht; rewrite Hk in Hc, Ht;
    pose proof (mixed_num _ w Hk) as Hmix;
    try discriminate Hk;
    try (cbn [sem_hash]; rewrite <- Hmix;
         first [by apply (hashes_primitive _ w _ _ Ht Hc) | by apply (hashes_value _ w _ _ Ht Hc)]).
  - simpl in *. destruct (col e a) as [r |] eqn:Ec; [| done]. simpl. by apply (column_hash e a w).
  - cbn [wt] in Hw. repeat match goal with Hx : _ && _ = true |- _ => apply andb_true_iff in Hx as [? ?] end.
    change (scalar (IfThenElse e1 e2 e3)) with (scalar e2) in Hk. pose proof (same_scalar e2 e3 ltac:(done)) as Hs.
    apply hashes_if; [| by apply (IHe2 w) | apply (IHe3 w); congruence]. apply yields_visitor.
    pose proof (scalar_correct e1 ltac:(done)) as Hb. rewrite (is_bool_scalar e1) in Hb by done. exact (correct_cond _ _ Hb).
  - destruct (plain_binary op) eqn:Hpl.
    { rewrite sem_hash_plain, <- Hmix by done.
      destruct (hash_plain op e1 e2 w Hpl Hk) as [-> | ->]; by apply (hashes_primitive _ w _ _ Ht Hc). }
    cbn [wt] in Hw. repeat match goal with Hx : _ && _ = true |- _ => apply andb_true_iff in Hx as [? ?] end.
    destruct (pick_order (getExpressionType e1) op) as (_ & Hgt & Hlt); [done | done |].
    pose proof (same_scalar e1 e2 ltac:(done)) as Hs. assert (scalar e1 = Num w) as K1 by (by destruct op).
    assert (scalar e2 = Num w) as K2 by congruence. assert (scalar e1 ≠ Truth) by congruence.
    pose proof (scalar_correct e1 ltac:(done)). pose proof (scalar_correct e2 ltac:(done)).
    destruct op; try discriminate Hpl; apply hashes_if; eauto; apply yields_visitor, yields_order; auto.
  - pose proof (hashes_primitive _ w _ _ Ht Hc) as [Hp _]. destruct (hash_width_kind _ w Ht) as [_ Hi].
    unfold hash_expr. cbn [visit snd sem_hash]. rewrite <- Hmix. unfold hash_value_expression. simpl in Hi. by rewrite Hi.
  - cbn [wt] in Hw. apply andb_true_iff in Hw as [_ Hb%is_bool_scalar].
    change (scalar (HintExpression e)) with (scalar e) in Hk. congruence.
Qed.

(** The hash of an expression is the hash of its value when one function hashes all it may be. *)
Lemma hash_of_value f e : ∀ w z, wt col e = true → scalar e = Num w → (sem col e).1 = Ok (VNum z) →
  hashed_by f e → sem_hash e = Ok (f z).
Proof.
  induction e using expr_ind'; intros w zv Hw Hk Hz Hf; try discriminate Hw;
    try (cbn [sem_hash]; unfold mixed; rewrite Hz; cbn [rbind num]; rewrite Hk; cbn [hashed_by] in Hf; by rewrite (Hf w zv Hk)).
  - cbn [sem_hash]. rewrite Hz. cbn [rbind num]. f_equal. apply Hf.
  - cbn [wt] in Hw. repeat match goal with Hx : _ && _ = true |- _ => apply andb_true_iff in Hx as [? ?] end.
    change (scalar (IfThenElse e1 e2 e3)) with (scalar e2) in Hk. pose proof (same_scalar e2 e3 ltac:(done)) as Hs.
    destruct Hf as [F2 F3]. cbn [sem_with fst] in Hz. apply rbind_Ok_inv in Hz as (b & Hb & Hz).
    cbn [sem_hash]. rewrite Hb. cbn [rbind]. destruct b; [by apply (IHe2 w) | apply (IHe3 w); congruence].
  - cbn [wt] in Hw. repeat match goal with Hx : _ && _ = true |- _ => apply andb_true_iff in Hx as [? ?] end.
    pose proof (same_scalar e1 e2 ltac:(done)) as Hs.
    destruct (plain_binary op) eqn:Hpl.
    { rewrite sem_hash_plain by done. unfold mixed. rewrite Hz. cbn [rbind num]. rewrite Hk.
      assert (Hash.mix w zv = f zv) as -> by (destruct op; try discriminate Hpl; by apply Hf). done. }
    assert (scalar e1 = Num w) as K1 by (by destruct op). assert (scalar e2 = Num w) as K2 by congruence.
    destruct op; try discriminate Hpl; destruct Hf as [F1 F2]; cbn [sem_with fst] in Hz;
      apply rbind_Ok_inv in Hz as (b & Hb & Hz); cbn [sem_hash]; rewrite Hb; cbn [rbind];
      destruct b; eauto.
Qed.


End correct.

(** ** An example: a relation [t] whose column [x] is cached and holds [z] in the current tuple *)

Import Interp.

Abbreviation IV := (Interp.V (F := Z)).

Definition ex_plugin (z : Z) : Plugin (V := IV) := mk_plugin Int64Type (λ _ _ _ _, Err Throw) (λ _ _, Err Throw)
  (λ _, Ok (mk_pv (ConstInt 32 z) (ConstInt 1 0))) (λ _ _, Err Throw) (λ v t, Hash.hashPrimitive v (ExprTypes.getTypeID t)).

Definition ex_tuple : ProteusValueMemory (V := IV) := mk_mem (TPtr (TInt 64), Ok (RPtr 0)) (ConstInt 1 0).

Definition ex_env (z : Z) : env (F := Z) (V := IV) :=
  mk_env (λ _, Ok (Some (ex_plugin z))) [(mk_attr "t" activeLoop "t" Int64Type 0 false, ex_tuple)]
    (λ _, Ok (CachingService.mk_info [INT] 0 64 1)) (λ _, Ok true) (λ _, 0).

Definition ex_col (z : Z) (e : expr Z IV) (a : RecordAttribute) : option (res (sval Z) * res bool) :=
  match e, type a with
  | InputArgument _ _, IntType =>
      if String.eqb (relName a) "t" && String.eqb (attrName a) "x" && String.eqb (originalRelName a) "t"
      then Some (Ok (VNum z), Ok false) else None
  | _, _ => None
  end.

(** The columns of the example, and what they hold. *)
Lemma ex_col_inv z e a r : ex_col z e a = Some r →
  ∃ args n i p, e = InputArgument args n ∧ a = mk_attr "t" "x" "t" IntType i p ∧ r = (Ok (VNum z), Ok false).
Proof.
  unfold ex_col. destruct e; try done. destruct a as [rel attr orig t i p]. simpl. destruct t; try done.
  destruct (String.eqb_spec rel "t") as [-> |]; [| done]. destruct (String.eqb_spec attr "x") as [-> |]; [| done].
  destruct (String.eqb_spec orig "t") as [-> |]; [| done]. intros [= <-]. eauto 7.
Qed.

Lemma ex_columns z : in_signed 32 z → Columns (ex_env z) (ex_col z).
Proof.
  intros Hz e a k r (args & n & i & p & -> & -> & ->)%ex_col_inv [= <-] s. do 2 eexists. split; [reflexivity |]. split; [done |].
  split; [| apply (decides_const false)]. by apply (represents_num 32 _ (Ok z)), computes_const.
Qed.

#[export] Instance ex_columns_7 : Columns (ex_env 7) (ex_col 7).
Proof. apply ex_columns. by split. Qed.

#[export] Instance ex_hash_columns : HashColumns (ex_env 7) (ex_col 7) (λ _ _, Hash.mix 32).
Proof.
  intros e a w r (args & n & i & p & -> & -> & ->)%ex_col_inv [= <-] s. do 2 eexists. split; [reflexivity |]. split; [done |].
  split; [done |]. intros z [= <-]. vm_compute. reflexivity.
Qed.

(** [max(x + 3, 2) / (x - 7)], which divides by zero, and [if x < 8 then x * -2 else 0]. *)
Definition ex_x : expr Z IV := RecordProjection (InputArgument [] 0) (mk_attr "t" "x" "t" IntType 1 false).
Definition ex_div : expr Z IV :=
  Binary OpDIV (Binary OpMAX (Binary OpADD ex_x (IntConstant 3)) (IntConstant 2)) (Binary OpSUB ex_x (IntConstant 7)).
Definition ex_if : expr Z IV :=
  IfThenElse (Binary OpLT ex_x (IntConstant 8)) (Binary OpMULT ex_x (IntConstant (-2))) (IntConstant 0).
Definition ex_mod : expr Z IV := Binary OpMOD ex_x (IntConstant 5).
Definition ex_state : gstate (V := IV) := mk_state "" 0 [].



(** The signed comparison of one-bit values puts true before false, and a cast makes true
    the integer -1. *)
Lemma booleans_are_signed :
  (∀ v s', generate (ex_env 7) (Binary OpLT (BoolConstant true) (BoolConstant false)) ex_state = Ok (v, s') →
     den_int (value v) = Ok 1) ∧
  (∀ v s', generate (ex_env 7) (CastExpression IntType (BoolConstant true)) ex_state = Ok (v, s') →
     den_int (value v) = Ok (wrap 32 (-1))).
Proof. split; intros v s' [= <- <-]; reflexivity. Qed.

(** The remainder of two negative or mixed operands is the one of their unsigned readings,
    not the signed one. *)
Lemma remainder_is_unsigned :
  let e := Binary OpMOD (IntConstant (-7)) (IntConstant 5) in
  (sem (ex_col 7) e).1 = Ok (VNum ((2 ^ 32 - 7) mod 5)) ∧ (meaning (ex_col 7) e).1 = Ok (VNum (-2)) ∧
  (2 ^ 32 - 7) mod 5 = 4.
Proof. repeat split; reflexivity. Qed.

End GenCorrect.
