(* ===== verification/Reduce.v ===== *)
(** * Reduce: filters and aggregates of a query pipeline
    ([olap/lib/operators/reduce-opt.cpp], [select.cpp], [null-filter.cpp],
    [olap/operators/agg-t.hpp], [agg-t.cpp]).

    The operators of a pipeline generate code for one tuple, each inside the code of its child:
    a filter puts what its parent generates under a condition, and [Reduce] updates its
    accumulators.  The generated loop runs that code once per tuple; [execute] unrolls it, with
    the bindings of every tuple and the accumulators as values. *)

From Stdlib Require Import ZArith Lia Bool.
From stdpp Require Import base numbers list strings.
From S2P Require Import Prelude ExprTypes LLVM Expressions Generator GenCorrect.

Local Open Scope Z_scope.
Local Open Scope res_scope.

Module Reduce.
Import ExprTypes Expressions Generator.

Section operators.
Context {F V : Type} `{FloatOps F, IRBuilder F V}.

Abbreviation expr := (expr F V).
Abbreviation PV := (ProteusValue V).
Abbreviation env := (env (F := F) (V := V)).
Abbreviation M := (M (V := V)).

(** An aggregate; the expression may be registered under an attribute. *)
Record agg_t : Type := mk_agg { agg_e : expr; agg_as : option RecordAttribute; monoid : Monoid }.

Definition agg_type (a : agg_t) : ExpressionType := getExpressionType (agg_e a).

Definition toReduceExpression (a : agg_t) (acc : expr) : res expr := toExpression (monoid a) acc (agg_e a).

Definition sum (e : expr) : agg_t := mk_agg e None SUM.
Definition count : agg_t := sum (Int64Constant 1).
Definition max (e : expr) : agg_t := mk_agg e None MAX.
Definition min (e : expr) : agg_t := mk_agg e None MIN.

Definition simple (m : Monoid) : bool :=
  match m with SUM | MULTIPLY | MAX | MIN | OR | AND => true | _ => false end.

(** [generate_flush] refuses what it cannot hand to the parent operator; the accumulators are
    bound under the names of their expressions.  (The identifier it binds for the one tuple of
    the result is left out.) *)
Definition generate_flush (aggs : list agg_t) : res (list RecordAttribute) :=
  do _ <- rmapM (λ a, if simple (monoid a) then getLLVMType (agg_type a) else Ok TDouble) aggs;
  rmapM (λ a, check simple (monoid a) else Throw; of_option Throw (agg_as a)) aggs.

(** [resetAccumulator] fills the accumulator with the identity of the monoid. *)
Definition resetAccumulator (a : agg_t) : res V :=
  match monoid a with
  | SUM | MULTIPLY | MAX | MIN | OR | AND =>
      do v <- getIdentityElementIfSimple (monoid a) (agg_type a); of_option Undefined v
  | BAGUNION => Ok (ConstInt 64 0)
  | UNION => Err Throw
  | APPEND => Err Undefined       (* no accumulator *)
  end.

(** What one accumulator becomes.  (The bag union is refused before the code is generated.) *)
Definition update (E : env) (a : agg_t) (acc : V) : M V :=
  match monoid a with
  | SUM | MULTIPLY | MAX | MIN | OR | AND =>
      let val := ProteusValueExpression (agg_type a) (mk_pv acc (ConstInt 1 0)) in
      bind (lift (toReduceExpression a val)) (λ upd,
      bind (with_new_visitor "" (generate E upd)) (λ new_val, ret (value new_val)))
  | _ => lift (Err Throw)
  end.

Fixpoint update_all (E : env) (aggs : list agg_t) (accs : list V) : M (list V) :=
  match aggs, accs with
  | a :: aggs', acc :: accs' =>
      bind (update E a acc) (λ v, bind (update_all E aggs' accs') (λ vs, ret (v :: vs)))
  | _, _ => ret []
  end.

(** A block under a condition: afterwards the accumulators are what the block left in them, or
    what they were. *)
Definition under (cond : V) (accs : list V) (block : M (list V)) : M (list V) :=
  bind block (λ accs', ret (zip_with (CreateIfElse cond) accs' accs)).

(** The code an operator generates for a tuple. *)
Definition consumer : Type := env → list V → M (list V).

Definition reduce_consume (pred : expr) (aggs : list agg_t) : consumer := λ E accs,
  bind (with_new_visitor "" (generate E pred)) (λ cond, under (value cond) accs (update_all E aggs accs)).

Definition select_consume (e : expr) (parent : consumer) : consumer := λ E accs,
  bind (with_new_visitor "" (generate E e)) (λ cond, under (value cond) accs (parent E accs)).

Definition nullfilter_consume (e : expr) (parent : consumer) : consumer := λ E accs,
  bind (with_new_visitor "" (generate E e)) (λ cond,
  under (CreateBin Xor (isNull cond) (ConstInt 1 1)) accs (parent E accs)).

(** A chain of filters over a reduction, the one next to the scan first. *)
Inductive filter_op : Type := Select (e : expr) | NullFilter (e : expr).

Definition consume_op (f : filter_op) : consumer → consumer :=
  match f with Select e => select_consume e | NullFilter e => nullfilter_consume e end.

Definition pipeline (fs : list filter_op) (pred : expr) (aggs : list agg_t) : consumer :=
  foldr consume_op (reduce_consume pred aggs) fs.

(** The loop over the tuples. *)
Fixpoint loop (c : consumer) (tuples : list env) (accs : list V) : M (list V) :=
  match tuples with
  | [] => ret accs
  | E :: tuples' => bind (c E accs) (loop c tuples')
  end.

Definition execute (fs : list filter_op) (pred : expr) (aggs : list agg_t) (tuples : list env) : M (list (RecordAttribute * V)) :=
  bind (lift (generate_flush aggs)) (λ names,
  bind (lift (rmapM resetAccumulator aggs)) (λ accs,
  bind (loop (pipeline fs pred aggs) tuples accs) (λ accs', ret (zip names accs')))).

End operators.

(** ** The specification *)

Import GenCorrect.

Section spec.
Context {F V : Type} `{FloatOps F, IRBuilder F V}.

Abbreviation expr := (expr F V).
Abbreviation sval := (sval F).

(** A tuple: the bindings of the generated code and the values of its columns. *)
Record tuple : Type := mk_tuple {
  state : env (F := F) (V := V);
  cols : expr → RecordAttribute → option (res sval * res bool)
}.

Definition holds (t : tuple) (e : expr) : res bool := do x <- (sem (cols t) e).1; truth x.

(** Whether a tuple passes the filters and the predicate. *)
Fixpoint keeps (fs : list filter_op) (pred : expr) (t : tuple) : res bool :=
  match fs with
  | [] => holds t pred
  | Select e :: fs' => do b <- holds t e; if b : bool then keeps fs' pred t else Ok false
  | NullFilter e :: fs' => do n <- (sem (cols t) e).2; if n : bool then Ok false else keeps fs' pred t
  end.

(** What a tuple contributes to an aggregate of [e]. *)
Definition row (fs : list filter_op) (pred e : expr) (t : tuple) : res (option sval) :=
  do b <- keeps fs pred t;
  if b : bool then do x <- (sem (cols t) e).1; Ok (Some x) else Ok None.

(** Only the columns of a tuple matter. *)
Lemma keeps_cols fs pred t t' : cols t = cols t' → keeps fs pred t = keeps fs pred t'.
Proof.
  intros E. induction fs as [| [e | e] fs IH]; simpl; unfold holds; rewrite E; [done | |]; destruct (sem (cols t') e) as [x n]; simpl.
  - destruct x as [x |]; [| done]. simpl. destruct (truth x) as [[] |]; done.
  - destruct n as [[] |]; done.
Qed.

Lemma row_cols fs pred e t t' : cols t = cols t' → row fs pred e t = row fs pred e t'.
Proof. intros E. unfold row. by rewrite (keeps_cols fs pred t t' E), E. Qed.

Definition ints (ys : list sval) : list Z := omap (λ y, match y with VNum z => Some z | _ => None end) ys.
Definition bools (ys : list sval) : list bool := omap (λ y, match y with VTruth b => Some b | _ => None end) ys.
Definition floats (ys : list sval) : list F := omap (λ y, match y with VFloat f => Some f | _ => None end) ys.

(** The aggregate of a list of values. *)
Definition aggregate (m : Monoid) (k : kind) (ys : list sval) : sval :=
  match k, m with
  | Num w, SUM => VNum (swrap w (foldl Z.add 0 (ints ys)))
  | Num w, MULTIPLY => VNum (swrap w (foldl Z.mul 1 (ints ys)))
  | Num w, MAX => VNum (foldl Z.max (- 2 ^ (w - 1)) (ints ys))
  | Num w, MIN => VNum (foldl Z.min (2 ^ (w - 1) - 1) (ints ys))
  | Truth, OR => VTruth (existsb id (bools ys))
  | Truth, AND => VTruth (forallb id (bools ys))
  | Dbl, SUM => VFloat (foldl (fbin FAdd) f_zero (floats ys))
  | Dbl, MULTIPLY => VFloat (foldl (fbin FMul) f_one (floats ys))
  | Dbl, MAX => VFloat (foldl (λ a x, if fcomp FOGT a x then a else x) (finf true) (floats ys))
  | Dbl, MIN => VFloat (foldl (λ a x, if fcomp FOLT a x then a else x) (finf false) (floats ys))
  | _, _ => VTruth false
  end.

(** The aggregates each type has. *)
Definition agg_ok (m : Monoid) (t : ExpressionType) : bool :=
  match m, t with
  | SUM, (IntType | Int64Type | DateType | FloatType) => true
  | MULTIPLY, (IntType | Int64Type | FloatType) => true
  | (MAX | MIN), (IntType | Int64Type | DateType | FloatType) => true
  | (OR | AND), BoolType => true
  | _, _ => false
  end.

Definition filter_ok (t : tuple) (f : filter_op) : bool :=
  match f with Select e => wt (cols t) e && is_type BOOL e | NullFilter e => wt (cols t) e end.

(** One more value. *)
Definition combine (m : Monoid) (k : kind) (x y : sval) : res sval :=
  match m with
  | SUM => apply_op k OpADD x y
  | MULTIPLY => apply_op k OpMULT x y
  | MAX => do b <- greater x y; Ok (if b : bool then x else y)
  | MIN => do b <- less x y; Ok (if b : bool then x else y)
  | OR => apply_op k OpOR x y
  | AND => apply_op k OpAND x y
  | _ => Err Undefined
  end.

Lemma swrap_add w x y : 0 < w → swrap w (swrap w x + y) = swrap w (x + y).
Proof. intros Hw. unfold swrap at 1 3. rewrite <- wrap_add, wrap_swrap, wrap_add by done. done. Qed.

Lemma swrap_mul w x y : 0 < w → swrap w (swrap w x * y) = swrap w (x * y).
Proof. intros Hw. unfold swrap at 1 3. rewrite <- wrap_mul, wrap_swrap, wrap_mul by done. done. Qed.

Lemma combine_aggregate m t k ys y : agg_ok m t = true → kind_of t = Some k → has_kind k y →
  combine m k (aggregate m k ys) y = Ok (aggregate m k (ys ++ [y])).
Proof.
  intros Hok Hk Hy. assert (kind_pos k) as Hp by (by eapply kind_of_pos).
  assert (ints (ys ++ [y]) = ints ys ++ ints [y] ∧ bools (ys ++ [y]) = bools ys ++ bools [y] ∧
          floats (ys ++ [y]) = floats ys ++ floats [y]) as (Ei & Eb & Ef) by (unfold ints, bools, floats; by rewrite !omap_app).
  destruct m, t; try discriminate Hok; injection Hk as <-; destruct y as [z | b | f]; try done; simpl;
    rewrite ?Ei, ?Eb, ?Ef, ?foldl_app, ?existsb_app, ?forallb_app; simpl; rewrite ?swrap_add, ?swrap_mul by done;
    rewrite ?orb_false_r, ?andb_true_r; try done;
    try (destruct (fcomp _ _ _); done);
    match goal with |- context [?a <? ?b] => destruct (Z.ltb_spec a b) end; do 2 f_equal; lia.
Qed.

Lemma represents_const `{!LangRef F V} w z y : 0 < w → in_signed w z → y = z →
  represents (F := F) (Num w) (ConstInt w z) (Ok (VNum y)).
Proof. intros Hw Hz ->. by apply (represents_num w _ (Ok z)), computes_const. Qed.

Lemma identity_correct `{!LangRef F V} (a : agg_t) k : agg_ok (monoid a) (agg_type a) = true → kind_of (agg_type a) = Some k →
  ∃ v, resetAccumulator a = Ok v ∧ represents k v (Ok (aggregate (monoid a) k [])).
Proof.
  intros Hok Hk. unfold resetAccumulator. destruct (monoid a), (agg_type a); try discriminate Hok; injection Hk as <-;
    (eexists; split; [reflexivity |]); simpl;
    try (apply represents_const; [done | unfold in_signed; simpl; lia | reflexivity]);
    try (apply (represents_dbl _ (Ok _)); [apply ConstFP_ok |]; unfold den_float; by rewrite (proj2 (ConstFP_ok _))).
  - apply (represents_truth _ (Ok false)), (decides_const false).
  - apply (represents_truth _ (Ok true)), (decides_const true).
Qed.

End spec.

(** ** Correctness *)

Section correct.
Context {F V : Type} `{FloatOps F, IRBuilder F V, !LangRef F V}.

Abbreviation expr := (expr F V).
Abbreviation sval := (sval F).
Abbreviation agg := (agg_t (F := F) (V := V)).
Abbreviation tup := (tuple (F := F) (V := V)).

(** Reading a value gives what it represents. *)
Lemma read_represents k (v : V) (r : res sval) : kind_pos k → represents k v r → read_value k v = r.
Proof.
  intros Hp [Kr Hr]. destruct k as [w | |]; cbn [read_value kind_pos] in *.
  - destruct Hr as (_ & Hd & _). rewrite Hd. destruct r as [x |]; [| done].
    destruct (has_num w x) as (z & -> & Hz); [auto |]. cbn [rbind num]. by rewrite signed_wrap.
  - destruct Hr as (_ & Hd). rewrite Hd. destruct r as [x |]; [| done].
    destruct (has_truth x) as (b & ->); [auto |]. simpl. by destruct b.
  - destruct Hr as (_ & Hd). rewrite Hd. destruct r as [x |]; [| done].
    destruct (has_dbl x) as (f & ->); [auto |]. done.
Qed.

Definition op_of (m : Monoid) : opID :=
  match m with SUM => OpADD | MULTIPLY => OpMULT | MAX => OpMAX | MIN => OpMIN | OR => OpOR | _ => OpAND end.

Lemma agg_ok_op m t : agg_ok m t = true → op_ok t (op_of m) = true ∧ op_kind (op_of m) = id ∧
  (∀ l r : expr, toExpression m l r = Ok (Binary (op_of m) l r)) ∧ simple m = true.
Proof. destruct m, t; done. Qed.

(** The update expression of an aggregate means the combination of the accumulator and the
    value of the tuple. *)
Lemma sem_update col m t l r : agg_ok m t = true → getExpressionType l = t →
  (sem col (Binary (op_of m) l r)).1 =
  do x <- (sem col l).1; do y <- (sem col r).1; combine m (scalar l) x y.
Proof.
  intros Hok Ht. destruct m, t; try discriminate Hok; try done; simpl;
    (destruct (sem col l).1 as [x |]; [| done]; destruct (sem col r).1 as [y |]; [| done]); simpl;
    first [by destruct (greater x y) as [[] |] | by destruct (less x y) as [[] |]].
Qed.

(** An aggregate over a tuple whose columns can be read. *)
Definition agg_fits (t : tup) (a : agg) : bool := wt (cols t) (agg_e a) && agg_ok (monoid a) (agg_type a).

Definition acc_rep (a : agg) (acc : V) (r : res sval) : Prop := represents (scalar (agg_e a)) acc r.

Definition stepped (t : tup) (a : agg) (r : res sval) : res sval :=
  do x <- r; do y <- (sem (cols t) (agg_e a)).1; combine (monoid a) (scalar (agg_e a)) x y.

Lemma update_simple E (a : agg) acc : simple (monoid a) = true →
  update E a acc =
  bind (lift (toReduceExpression a (ProteusValueExpression (agg_type a) (mk_pv acc (ConstInt 1 0))))) (λ upd,
  bind (with_new_visitor "" (generate E upd)) (λ new_val, ret (value new_val))).
Proof. unfold update. by destruct (monoid a). Qed.

Lemma update_correct t a acc r s : Columns (state t) (cols t) → agg_fits t a = true → acc_rep a acc r →
  ∃ v s', update (state t) a acc s = Ok (v, s') ∧ acc_rep a v (stepped t a r).
Proof.
  intros Ht [Hw Hok]%andb_true_iff Ha. destruct (agg_ok_op _ _ Hok) as (Hop & Hid & Hto & Hsimple).
  pose proof (wt_scalar _ _ Hw) as Hk. set (k := scalar (agg_e a)) in *.
  set (val := ProteusValueExpression (agg_type a) (mk_pv acc (ConstInt 1 0)) : expr).
  assert (scalar val = k) as Hkv by (unfold scalar; simpl; unfold agg_type; by rewrite Hk).
  assert (wt (cols t) (Binary (op_of (monoid a)) val (agg_e a)) = true) as Hwu.
  { cbn [wt getExpressionType val]. unfold same_kind. cbn [getExpressionType val]. rewrite Hw. unfold agg_type in *. rewrite Hk, Hop. simpl.
    rewrite (represents_type _ _ _ Ha), (proj1 (decides_const false)), !bool_decide_eq_true_2 by done. done. }
  pose proof (scalar_correct (state t) (cols t) _ Hwu) as Hc.
  rewrite (scalar_plain (cols t)) in Hc; [| unfold same_kind; cbn [getExpressionType val]; by apply bool_decide_eq_true_2 | by apply andb_true_iff in Hwu as [[[? _]%andb_true_iff _]%andb_true_iff _]].
  rewrite Hid, Hkv in Hc. destruct (correct_visitor _ "" _ _ Hc s) as (v & s' & Ev & _ & Rv & _).
  exists (value v), s'. rewrite (update_simple _ _ _ Hsimple). fold val. unfold toReduceExpression, bind, lift, ret.
  rewrite Hto. simpl. rewrite Ev. simpl. split; [done |]. unfold acc_rep, stepped. fold k.
  rewrite (sem_update _ _ (agg_type a)), Hkv in Rv by done. simpl in Rv. unfold agg_type in Rv. rewrite Hk in Rv. simpl in Rv.
  rewrite (read_represents k acc r) in Rv; [done | by eapply kind_of_pos | done].
Qed.

(** The accumulators of all aggregates. *)
Definition accs_rep (aggs : list agg) (accs : list V) (r : agg → res sval) : Prop :=
  Forall2 (λ a acc, acc_rep a acc (r a)) aggs accs.

Lemma update_all_correct t aggs accs r : Columns (state t) (cols t) → Forall (λ a, agg_fits t a = true) aggs → accs_rep aggs accs r →
  ∀ s, ∃ accs' s', update_all (state t) aggs accs s = Ok (accs', s') ∧ accs_rep aggs accs' (λ a, stepped t a (r a)).
Proof.
  intros Ht Hf Hr. induction Hr as [| a acc aggs accs Ha _ IH]; intros s; simpl; [exists [], s; by split; [| constructor] |].
  apply Forall_cons in Hf as [Hfa Hf]. destruct (update_correct t a acc (r a) s Ht Hfa Ha) as (v & s1 & Ev & Rv).
  destruct (IH Hf s1) as (vs & s2 & Evs & Rvs). unfold bind, ret. rewrite Ev. simpl. rewrite Evs. simpl.
  exists (v :: vs), s2. split; [done |]. by constructor.
Qed.

(** A block under a condition. *)
Lemma under_correct cond rc aggs accs r r' block : decides cond rc → accs_rep aggs accs r →
  (∀ s, ∃ accs' s', block s = Ok (accs', s') ∧ accs_rep aggs accs' r') →
  ∀ s, ∃ accs' s', under cond accs block s = Ok (accs', s') ∧
    accs_rep aggs accs' (λ a, do b <- rc; if b : bool then r' a else r a).
Proof.
  intros Hc Hr Hb s. destruct (Hb s) as (accs' & s' & Eb & Hr'). unfold under, bind, ret. rewrite Eb. simpl.
  do 2 eexists. split; [reflexivity |]. clear Eb Hb. revert accs' Hr'.
  induction Hr as [| a acc aggs accs Ha _ IH]; intros accs' Hr'; inversion_clear Hr'; simpl; constructor; [| by apply IH].
  by apply represents_ifelse.
Qed.

(** A tuple the pipeline can process. *)
Definition fits (fs : list filter_op) (pred : expr) (aggs : list agg) (t : tup) : bool :=
  forallb (filter_ok t) fs && filter_ok t (Select pred) && forallb (agg_fits t) aggs.

(** The condition of a filter. *)
Lemma condition_correct t e : Columns (state t) (cols t) → filter_ok t (Select e) = true →
  yields (with_new_visitor "" (generate (state t) e)) (holds t e).
Proof.
  intros Ht [Hw Hb]%andb_true_iff. pose proof (scalar_correct (state t) (cols t) e Hw) as Hc.
  rewrite (is_bool_scalar e) in Hc by done. exact (correct_cond _ _ (correct_visitor _ "" _ _ Hc)).
Qed.

Lemma not_null_correct t e s : Columns (state t) (cols t) → wt (cols t) e = true →
  ∃ v s', with_new_visitor "" (generate (state t) e) s = Ok (v, s') ∧
    decides (CreateBin Xor (isNull v) (ConstInt 1 1)) (do n <- (sem (cols t) e).2; Ok (negb n)).
Proof.
  intros Ht Hw. destruct (correct_visitor _ "" _ _ (scalar_correct (state t) (cols t) e Hw) s) as (v & s' & Ev & _ & _ & Nv).
  exists v, s'. split; [done |]. destruct (represents_not (isNull v) false _ Nv) as [_ Hn].
  by destruct (sem (cols t) e).2.
Qed.

(** The code of the pipeline for one tuple. *)
Lemma pipeline_correct t fs pred aggs accs r : Columns (state t) (cols t) → fits fs pred aggs t = true → accs_rep aggs accs r →
  ∀ s, ∃ accs' s', pipeline fs pred aggs (state t) accs s = Ok (accs', s') ∧
    accs_rep aggs accs' (λ a, do b <- keeps fs pred t; if b : bool then stepped t a (r a) else r a).
Proof.
  intros Ht [[Hfs Hp]%andb_true_iff Ha]%andb_true_iff Hr. induction fs as [| f fs IH]; intros s.
  - destruct (condition_correct t pred Ht Hp s) as (v & s1 & Ev & _ & Dv). simpl. unfold reduce_consume.
    unfold bind at 1. rewrite Ev. simpl. apply under_correct; [done | done |]. apply update_all_correct; [done | | done].
    apply Forall_forall. intros a Hin%list_elem_of_In. by apply (proj1 (forallb_forall _ _) Ha).
  - simpl in Hfs. apply andb_true_iff in Hfs as [Hf Hfs]. specialize (IH Hfs). destruct f as [e | e]; simpl.
    + destruct (condition_correct t e Ht Hf s) as (v & s1 & Ev & _ & Dv). unfold select_consume, bind at 1. rewrite Ev. simpl.
      destruct (under_correct (value v) _ aggs accs _ _ _ Dv Hr IH s1) as (accs' & s2 & Eu & Ru). exists accs', s2. split; [done |].
      eapply Forall2_impl; [exact Ru |]. simpl. intros a acc Hacc. by destruct (holds t e) as [[] |].
    + destruct (not_null_correct t e s Ht Hf) as (v & s1 & Ev & Dv). unfold nullfilter_consume, bind at 1. rewrite Ev. simpl.
      destruct (under_correct _ _ aggs accs _ _ _ Dv Hr IH s1) as (accs' & s2 & Eu & Ru). exists accs', s2. split; [done |].
      eapply Forall2_impl; [exact Ru |]. simpl. intros a acc Hacc. by destruct (sem (cols t) e).2 as [[] |].
Qed.

(** The outcome of an accumulator over the tuples. *)
Definition folded (fs : list filter_op) (pred : expr) (a : agg) (ts : list tup) (r : res sval) : res sval :=
  foldl (λ r t, do b <- keeps fs pred t; if b : bool then stepped t a r else r) r ts.

Lemma loop_correct fs pred aggs ts : ∀ accs r s,
  Forall (λ t, Columns (state t) (cols t) ∧ fits fs pred aggs t = true) ts → accs_rep aggs accs r →
  ∃ accs' s', loop (pipeline fs pred aggs) (state <$> ts) accs s = Ok (accs', s') ∧
    accs_rep aggs accs' (λ a, folded fs pred a ts (r a)).
Proof.
  induction ts as [| t ts IH]; intros accs r s Hts Hr; simpl; [by exists accs, s |].
  apply Forall_cons in Hts as [[Ht Hf] Hts]. destruct (pipeline_correct t fs pred aggs accs r Ht Hf Hr s) as (accs1 & s1 & E1 & R1).
  unfold bind. rewrite E1. simpl. by apply (IH accs1 (λ a, do b <- keeps fs pred t; if b : bool then stepped t a (r a) else r a) s1).
Qed.

(** If every tuple contributes, the outcome is the aggregate of the contributions. *)
Lemma folded_aggregate fs pred a ts : ∀ ys zs,
  Forall (λ t, Columns (state t) (cols t) ∧ agg_fits t a = true) ts → rmapM (row fs pred (agg_e a)) ts = Ok zs →
  folded fs pred a ts (Ok (aggregate (monoid a) (scalar (agg_e a)) ys)) =
  Ok (aggregate (monoid a) (scalar (agg_e a)) (ys ++ omap id zs)).
Proof.
  induction ts as [| t ts IH]; intros ys zs Hts Hz; simpl in *; [injection Hz as <-; by rewrite app_nil_r |].
  apply Forall_cons in Hts as [[Ht [Hw Hok]%andb_true_iff] Hts]. apply rbind_Ok_inv in Hz as (z & Hz & (zs' & Hzs & [= <-])%rbind_Ok_inv).
  unfold row in Hz. apply rbind_Ok_inv in Hz as (b & -> & Hz). simpl. destruct b.
  - apply rbind_Ok_inv in Hz as (y & Hy & [= <-]). unfold stepped. rewrite Hy. simpl.
    assert (has_kind (scalar (agg_e a)) y) as Hk.
    { destruct (scalar_correct (state t) (cols t) _ Hw (mk_state "" 0 [])) as (_ & _ & _ & _ & [Hx _] & _). auto. }
    rewrite (combine_aggregate _ (agg_type a)); [| done | by apply (wt_scalar (cols t)) | done].
    rewrite (IH _ zs' Hts Hzs). simpl. by rewrite <- app_assoc.
  - injection Hz as <-. by apply IH.
Qed.

Lemma rmapM_total {A B} (f : A → res B) l : Forall (λ x, ∃ y, f x = Ok y) l → ∃ k, rmapM f l = Ok k.
Proof. induction 1 as [| x l (y & Ey) _ (k & Ek)]; [by exists [] |]. exists (y :: k). simpl. rewrite Ey. simpl. by rewrite Ek. Qed.

(** An aggregate [Reduce] accepts. *)
Definition accepted (a : agg) : Prop := is_Some (agg_as a) ∧ agg_ok (monoid a) (agg_type a) = true.

Lemma accepted_kind a : accepted a → kind_of (agg_type a) = Some (scalar (agg_e a)).
Proof. intros [_ Hok]. unfold scalar. unfold agg_type in *. by destruct (monoid a), (getExpressionType (agg_e a)). Qed.

Lemma flush_accepted aggs : Forall accepted aggs →
  ∃ names, generate_flush aggs = Ok names ∧ Forall2 (λ a n, agg_as a = Some n) aggs names.
Proof.
  intros Ha. unfold generate_flush.
  destruct (rmapM_total (λ a : agg, if simple (monoid a) then getLLVMType (agg_type a) else Ok TDouble) aggs) as (ts & ->).
  { eapply Forall_impl; [exact Ha |]. simpl. intros a Hacc. exists (llvm_kind (scalar (agg_e a))).
    rewrite (kind_llvm _ _ (accepted_kind a Hacc)). destruct Hacc as [_ Hok]. by destruct (agg_ok_op _ _ Hok) as (_ & _ & _ & ->). }
  simpl. destruct (rmapM_total (λ a : agg, check simple (monoid a) else Throw; of_option Throw (agg_as a)) aggs) as (names & En).
  { eapply Forall_impl; [exact Ha |]. simpl. intros a [[n ->] Hok]. exists n. by destruct (agg_ok_op _ _ Hok) as (_ & _ & _ & ->). }
  exists names. split; [done |]. apply rmapM_Ok in En. clear ts. induction En as [| a n aggs names E _ IH]; [constructor |].
  apply Forall_cons in Ha as [[[m Em] Hok] Ha]. constructor; [| by apply IH].
  destruct (agg_ok_op _ _ Hok) as (_ & _ & _ & Hs). rewrite Hs, Em in E. simpl in E. congruence.
Qed.

Lemma reset_accepted aggs : Forall accepted aggs →
  ∃ accs, rmapM resetAccumulator aggs = Ok accs ∧
    accs_rep aggs accs (λ a, Ok (aggregate (monoid a) (scalar (agg_e a)) [])).
Proof.
  induction 1 as [| a aggs Ha _ (accs & E & IH)]; [exists []; by split; [| constructor] |].
  destruct (identity_correct a (scalar (agg_e a)) (proj2 Ha) (accepted_kind a Ha)) as (v & Ev & Rv).
  exists (v :: accs). simpl. rewrite Ev. simpl. rewrite E. simpl. split; [done |]. by constructor.
Qed.

Lemma reduce_aggregates fs pred aggs ts s :
  Forall accepted aggs → Forall (λ t, Columns (state t) (cols t) ∧ fits fs pred aggs t = true) ts →
  ∃ out s', execute fs pred aggs (state <$> ts) s = Ok (out, s') ∧
    ∀ i a zs, aggs !! i = Some a → rmapM (row fs pred (agg_e a)) ts = Ok zs →
      ∃ name acc, agg_as a = Some name ∧ out !! i = Some (name, acc) ∧
        represents (scalar (agg_e a)) acc (Ok (aggregate (monoid a) (scalar (agg_e a)) (omap id zs))).
Proof.
  intros Ha Hts. destruct (flush_accepted aggs Ha) as (names & En & Hn), (reset_accepted aggs Ha) as (accs & Ei & Hr).
  destruct (loop_correct fs pred aggs ts accs _ s Hts Hr) as (accs' & s' & El & Rl).
  exists (zip names accs'), s'. unfold execute, bind, lift, ret. rewrite En. simpl. rewrite Ei. simpl. rewrite El. simpl.
  split; [done |]. intros i a zs Hi Hz. destruct (Forall2_lookup_l _ _ _ _ _ Hn Hi) as (name & Hname & Has).
  destruct (Forall2_lookup_l _ _ _ _ _ Rl Hi) as (acc & Hacc & Hrep). exists name, acc. split; [done |].
  split; [by rewrite lookup_zip_with, Hname, Hacc |]. rewrite (folded_aggregate fs pred a ts [] zs) in Hrep; [done | | done].
  eapply Forall_impl; [exact Hts |]. simpl. intros t [Ht [_ Hf]%andb_true_iff]. split; [done |].
  apply (proj1 (forallb_forall _ _) Hf), list_elem_of_In. by eapply list_elem_of_lookup_2.
Qed.

(** C7: The code a chain of filters and a reduction generate computes the aggregates of the
    relation: run over the tuples of the input, each accumulator ends as the sum, product,
    maximum, minimum, disjunction or conjunction of its expression over exactly the tuples
    that pass every selection and null filter and the predicate of the reduction, integer sums
    and products wrapped at the width of the type, and as the identity of the monoid if no
    tuple passes; it is bound to the attribute its expression is registered as. *)
Theorem reduce_computes_aggregates fs pred aggs ts s :
  Forall accepted aggs → Forall (λ t, Columns (state t) (cols t) ∧ fits fs pred aggs t = true) ts →
  ∃ out s', execute fs pred aggs (state <$> ts) s = Ok (out, s') ∧
    ∀ i a zs, aggs !! i = Some a → rmapM (row fs pred (agg_e a)) ts = Ok zs →
      ∃ name acc, agg_as a = Some name ∧ out !! i = Some (name, acc) ∧
        represents (scalar (agg_e a)) acc (Ok (aggregate (monoid a) (scalar (agg_e a)) (omap id zs))).
Proof. apply reduce_aggregates. Qed.

End correct.

(** ** An example: [x] is 3, 5, 8 and 12; the tuples with [x < 10] and [x > 3] *)

Import Interp.

Definition ex_tuples : list (tuple (F := Z) (V := IV)) := (λ z, mk_tuple (ex_env z) (ex_col z)) <$> [3; 5; 8; 12].

Definition ex_name (n : string) (t : ExpressionType) : RecordAttribute := mk_attr "out" n "out" t 0 false.

Definition ex_aggs : list (agg_t (F := Z) (V := IV)) :=
  [mk_agg ex_x (Some (ex_name "s" IntType)) SUM; mk_agg ex_x (Some (ex_name "m" IntType)) MAX;
   mk_agg (agg_e count) (Some (ex_name "n" Int64Type)) (monoid (count (F := Z) (V := IV)))].

Definition ex_filters : list (filter_op (F := Z) (V := IV)) :=
  [NullFilter ex_x; Select (Binary OpLT ex_x (IntConstant 10))].

Lemma reduce_computes_aggregates_witness :
  ∃ out s', execute ex_filters (Binary OpGT ex_x (IntConstant 3)) ex_aggs (state <$> ex_tuples) ex_state = Ok (out, s') ∧
    (∃ acc : IV, out !! 0%nat = Some (ex_name "s" IntType, acc) ∧ represents (F := Z) (Num 32) acc (Ok (VNum 13))) ∧
    (∃ acc : IV, out !! 1%nat = Some (ex_name "m" IntType, acc) ∧ represents (F := Z) (Num 32) acc (Ok (VNum 8))) ∧
    (∃ acc : IV, out !! 2%nat = Some (ex_name "n" Int64Type, acc) ∧ represents (F := Z) (Num 64) acc (Ok (VNum 2))).
Proof.
  destruct (reduce_computes_aggregates ex_filters (Binary OpGT ex_x (IntConstant 3)) ex_aggs ex_tuples ex_state) as (out & s' & E & Hout).
  - repeat constructor; by eexists.
  - repeat constructor; apply ex_columns; by split.
  - exists out, s'. split; [exact E |].
    split; [| split];
      [destruct (Hout 0%nat _ [None; Some (VNum 5); Some (VNum 8); None] eq_refl eq_refl) as (n & acc & [= <-] & Ho & Hr)
      |destruct (Hout 1%nat _ [None; Some (VNum 5); Some (VNum 8); None] eq_refl eq_refl) as (n & acc & [= <-] & Ho & Hr)
      |destruct (Hout 2%nat _ [None; Some (VNum 1); Some (VNum 1); None] eq_refl eq_refl) as (n & acc & [= <-] & Ho & Hr)];
      (exists acc; split; [exact Ho | exact Hr]).
Defined.

End Reduce.
