(* ===== verification/HashJoin.v ===== *)
(** * HashJoin: the chained hash join of generated pipelines
    ([olap/lib/operators/hash-join-chained.cpp], [hash-join-chained-morsel.cpp]).

    The code generated for the build side runs once per build tuple: it draws an index from an
    atomic counter, exchanges the head of the tuple's bucket for that index, and stores the old
    head with the key and the payload at the index.  With the morsel variant many workers run
    it on one table at the same time; every atomic action is a step here.  The probe side runs
    when the build is closed and follows the chain of a key.

    The key and the payload are arbitrary.  The keys of the two sides are hashed by the plug-ins
    of their inputs, which need not use the same function: [hash_build] and [hash_probe] are
    what they compute for a key. *)

From Stdlib Require Import ZArith Lia Bool.
From stdpp Require Import base numbers list relations.
From S2P Require Import Prelude.

Local Open Scope Z_scope.
Local Open Scope res_scope.

Module HashJoin.

(** The end of a chain: all ones, in 32 bits. *)
Definition EOC : Z := 2 ^ 32 - 1.

Section join.
Context {K P Q : Type} `{EqDecision K} (hash_build hash_probe : K → Z) (hash_bits : Z) (maxBuildInputSize : Z).

(** ** The table *)

Record entry : Type := mk_entry { next : Z; build_key : K; payload : P }.

Record table : Type := mk_table { head : list Z; cnt : Z; data : list (option entry) }.

(** [open_build]: the number of heads is [1 << hash_bits] as an [int], undefined when it is no
    positive one; the heads are filled with ones, the buffers are not initialised. *)
Definition open_build : res table :=
  check (0 <=? hash_bits) && (hash_bits <? 31) else Undefined;
  Ok (mk_table (replicate (Z.to_nat (2 ^ hash_bits)) EOC) 0 (replicate (Z.to_nat maxBuildInputSize) None)).

(** The bucket of a hash. *)
Definition bucket (h : Z) : Z := h mod 2 ^ hash_bits.

(** [nextIndex]: an atomic addition to a 32-bit counter. *)
Definition nextIndex (t : table) : Z * table := (cnt t, mk_table (head t) (u32 (cnt t + 1)) (data t)).

(** [replaceHead]: an atomic exchange. *)
Definition replaceHead (t : table) (b i : Z) : res (Z * table) :=
  do old <- of_option Undefined (head t !! Z.to_nat b);
  Ok (old, mk_table (<[Z.to_nat b := i]> (head t)) (cnt t) (data t)).

(** The store at the index; beyond the buffer, or with an index that is negative as a signed
    integer, it is undefined. *)
Definition store (t : table) (i : Z) (e : entry) : res table :=
  check (i <? 2 ^ 31) && (i <? Z.of_nat (length (data t))) else Undefined;
  Ok (mk_table (head t) (cnt t) (<[Z.to_nat i := Some e]> (data t))).

(** ** The build side *)

(** Where a worker is in the code of a tuple. *)
Inductive pc : Type :=
  | Ready
  | Indexed (x : K * P) (i : Z)
  | Linked (x : K * P) (i old : Z).

Record worker : Type := mk_worker { at_ : pc; todo : list (K * P) }.

(** The next atomic action of a worker ([generate_build]). *)
Definition build_step (t : table) (w : worker) : option (res (table * worker)) :=
  match at_ w with
  | Ready =>
      match todo w with
      | [] => None
      | x :: xs => let '(i, t') := nextIndex t in Some (Ok (t', mk_worker (Indexed x i) xs))
      end
  | Indexed x i =>
      Some (do (old, t') <- replaceHead t (bucket (hash_build x.1)) i; Ok (t', mk_worker (Linked x i old) (todo w)))
  | Linked x i old =>
      Some (do t' <- store t i (mk_entry old x.1 x.2); Ok (t', mk_worker Ready (todo w)))
  end.

Definition state : Type := table * list worker.

Inductive step : state → state → Prop :=
  | step_worker t t' w w' ws1 ws2 :
      build_step t w = Some (Ok (t', w')) → step (t, ws1 ++ w :: ws2) (t', ws1 ++ w' :: ws2).

(** Some worker's next action is undefined. *)
Definition faulty (s : state) : Prop := ∃ w e, w ∈ s.2 ∧ build_step s.1 w = Some (Err e).

Definition finished (s : state) : Prop := Forall (λ w, at_ w = Ready ∧ todo w = []) s.2.

Definition initial (work : list (list (K * P))) : res state :=
  do t <- open_build; Ok (t, mk_worker Ready <$> work).

(** [close_build] *)
Definition close_build (t : table) : res unit := check (cnt t <? 2 ^ 31) && (cnt t <=? maxBuildInputSize) else AssertFailed; Ok tt.

(** ** The probe side *)

(** The loop over a chain: the payloads with an equal key, in the order of the chain. *)
Fixpoint chain_follow (fuel : nat) (t : table) (current : Z) (k : K) : res (list P) :=
  if current =? EOC then Ok []
  else
    match fuel with
    | O => Err Blocked
    | S fuel =>
        do slot <- of_option Undefined (data t !! Z.to_nat current);
        do e <- of_option Undefined slot;
        do rest <- chain_follow fuel t (next e) k;
        Ok (if decide (k = build_key e) then payload e :: rest else rest)
    end.

Definition probe (fuel : nat) (t : table) (k : K) : res (list P) :=
  do current <- of_option Undefined (head t !! Z.to_nat (bucket (hash_probe k)));
  chain_follow fuel t current k.

(** The join of the probe tuples, in their order. *)
Fixpoint probe_all (fuel : nat) (t : table) (qs : list (K * Q)) : res (list (Q * P)) :=
  match qs with
  | [] => Ok []
  | (k, q) :: qs' =>
      do ps <- probe fuel t k;
      do rest <- probe_all fuel t qs';
      Ok (map (pair q) ps ++ rest)
  end.

(** The join by definition. *)
Definition nested_loop (build : list (K * P)) (qs : list (K * Q)) : list (Q * P) :=
  qs ≫= λ '(k, q), (λ x : K * P, (q, x.2)) <$> filter (λ x : K * P, k = x.1) build.

(** The pairs a nested loop produces that also fall into the same bucket. *)
Definition same_bucket_loop (build : list (K * P)) (qs : list (K * Q)) : list (Q * P) :=
  qs ≫= λ '(k, q), (λ x : K * P, (q, x.2)) <$>
    filter (λ x : K * P, k = x.1 ∧ bucket (hash_build k) = bucket (hash_probe k)) build.

(** ** A schedule *)

(** Runs the actions of the named workers; the schedule ends at a worker that has nothing to do. *)
Fixpoint run (sched : list nat) (s : state) : res state :=
  match sched with
  | [] => Ok s
  | n :: sched' =>
      match s.2 !! n with
      | Some w =>
          match build_step s.1 w with
          | Some r => do (t', w') <- r; run sched' (t', <[n := w']> s.2)
          | None => Ok s
          end
      | None => Ok s
      end
  end.

(** ** Chains

    The history lists the exchanges, the last one first: the tuple, its index and the head it
    found. *)

Record link : Type := mk_link { tup : K * P; idx : Z; old : Z }.

Abbreviation bucket_of l := (bucket (hash_build (tup l).1)).

(** The head of a bucket after a history. *)
Fixpoint head_of (b : Z) (H : list link) : Z :=
  match H with
  | [] => EOC
  | l :: H' => if decide (bucket_of l = b) then idx l else head_of b H'
  end.

(** Every exchange found the head that the exchanges before it had left. *)
Fixpoint linked (H : list link) : Prop :=
  match H with
  | [] => True
  | l :: H' => old l = head_of (bucket_of l) H' ∧ linked H'
  end.

Definition entry_of (l : link) : entry := mk_entry (old l) (tup l).1 (tup l).2.

Definition stored (t : table) (l : link) : Prop := data t !! Z.to_nat (idx l) = Some (Some (entry_of l)).

(** What a worker still has to link, and the indices it has drawn for that. *)
Definition pending (w : worker) : list (K * P) :=
  match at_ w with Indexed x _ => [x] | _ => [] end ++ todo w.

Definition drawn (w : worker) : list Z := match at_ w with Indexed _ i => [i] | _ => [] end.

Record Inv (work : list (K * P)) (s : state) (H : list link) : Prop := mk_inv {
  inv_linked : linked H;
  inv_heads : ∀ b, 0 <= b < 2 ^ hash_bits → head s.1 !! Z.to_nat b = Some (head_of b H);
  inv_cnt : cnt s.1 = Z.of_nat (length H + length (s.2 ≫= drawn));
  inv_fresh : NoDup ((idx <$> H) ++ (s.2 ≫= drawn));
  inv_range : ∀ i, i ∈ (idx <$> H) ++ (s.2 ≫= drawn) → 0 <= i < cnt s.1;
  inv_stored : ∀ l, l ∈ H → stored s.1 l ∨ ∃ w, w ∈ s.2 ∧ at_ w = Linked (tup l) (idx l) (old l);
  inv_owner : ∀ w x i o, w ∈ s.2 → at_ w = Linked x i o → mk_link x i o ∈ H;
  inv_work : (tup <$> H) ++ (s.2 ≫= pending) ≡ₚ work;
  inv_size : length (data s.1) = Z.to_nat maxBuildInputSize
}.

Context (Hbits : 0 <= hash_bits < 31) (Hmax : maxBuildInputSize < 2 ^ 31).

Lemma bucket_range h : 0 <= bucket h < 2 ^ hash_bits.
Proof. apply Z.mod_pos_bound. apply Z.pow_pos_nonneg; lia. Qed.

Lemma inv_initial work : ∃ s, initial work = Ok s ∧ Inv (concat work) s [].
Proof.
  unfold initial, open_build. rewrite (proj2 (Z.leb_le 0 _)), (proj2 (Z.ltb_lt _ 31)) by lia. cbn [andb rbind].
  eexists. split; [reflexivity |]. split; simpl; try done.
  - intros b Hb. apply lookup_replicate_2. lia.
  - by induction work.
  - replace ((mk_worker Ready <$> work) ≫= drawn) with (@nil Z) by (by induction work). constructor.
  - intros i Hi. exfalso. induction work; simpl in Hi; [by apply elem_of_nil in Hi | auto].
  - by intros l ?%elem_of_nil.
  - intros w x i o (xs & -> & _)%list_elem_of_fmap. done.
  - by induction work as [| xs work IH]; [| simpl; f_equiv].
  - apply length_replicate.
Qed.

Context (work : list (K * P)) (Hwork : Z.of_nat (length work) <= maxBuildInputSize).

Lemma drawn_pending (ws : list worker) : (length (ws ≫= drawn) <= length (ws ≫= pending))%nat.
Proof.
  induction ws as [| w ws IH]; [done |]. rewrite !bind_cons, !length_app.
  assert (length (drawn w) <= length (pending w))%nat by (unfold drawn, pending; destruct (at_ w); simpl; lia). lia.
Qed.

(** The counter never passes the number of tuples. *)
Lemma cnt_bound s H : Inv work s H → 0 <= cnt s.1 <= maxBuildInputSize.
Proof.
  intros I. pose proof (Permutation_length (inv_work _ _ _ I)) as Hl. rewrite length_app, length_fmap in Hl.
  rewrite (inv_cnt _ _ _ I). pose proof (drawn_pending s.2).
  lia.
Qed.

Lemma step_draw H t x xs ws1 ws2 :
  let w := mk_worker Ready (x :: xs) in
  Inv work (t, ws1 ++ w :: ws2) H →
  Inv work (mk_table (head t) (u32 (cnt t + 1)) (data t), ws1 ++ mk_worker (Indexed x (cnt t)) xs :: ws2) H.
Proof.
  intros w I. pose proof (cnt_bound _ _ I) as Hc. simpl in Hc.
  assert (u32 (cnt t + 1) = cnt t + 1) as Hu by (apply wrap_id; lia).
  destruct I as [Hl Hh Hcnt Hf Hr Hs Ho Hp Hz]. simpl in *. rewrite !bind_app, !bind_cons in *. simpl in *.
  assert (cnt t ∉ (idx <$> H) ++ (ws1 ≫= drawn) ++ (ws2 ≫= drawn)) as Hnew by (intros Hi%Hr; lia).
  assert ((idx <$> H) ++ (ws1 ≫= drawn) ++ cnt t :: (ws2 ≫= drawn) ≡ₚ cnt t :: (idx <$> H) ++ (ws1 ≫= drawn) ++ (ws2 ≫= drawn)) as Hperm
    by solve_Permutation.
  split; simpl; rewrite ?bind_app, ?bind_cons, ?Hu; simpl; try done.
  - rewrite !length_app in *. simpl. lia.
  - rewrite Hperm. by constructor.
  - intros i. rewrite Hperm, elem_of_cons. intros [-> | Hi%Hr]; lia.
  - intros l [Hst | (v & Hv & Hat)]%Hs; [by left |]. right. exists v. split; [| done].
    apply elem_of_app in Hv as [Hv | [-> | Hv]%elem_of_cons]; [| done |]; set_solver.
  - intros v y i o Hv Hat. apply (Ho v); [| done]. apply elem_of_app in Hv as [Hv | [-> | Hv]%elem_of_cons]; [| done |]; set_solver.
Qed.

Lemma head_of_range b H s : Inv work s H → head_of b H = EOC ∨ 0 <= head_of b H < 2 ^ 31.
Proof.
  intros I. pose proof (cnt_bound _ _ I) as Hc. pose proof (inv_range _ _ _ I) as Hr.
  assert (∀ i, i ∈ idx <$> H → 0 <= i < cnt s.1) as Hr' by (intros i Hi; apply Hr; set_solver). clear Hr I.
  induction H as [| l H IH]; simpl; [by left |]. case_decide; [right; specialize (Hr' (idx l)); set_solver by lia |].
  apply IH. intros i Hi. apply Hr'. set_solver.
Qed.

Lemma step_link H t x i xs ws1 ws2 o :
  let w := mk_worker (Indexed x i) xs in
  Inv work (t, ws1 ++ w :: ws2) H → head t !! Z.to_nat (bucket (hash_build x.1)) = Some o →
  Inv work (mk_table (<[Z.to_nat (bucket (hash_build x.1)) := i]> (head t)) (cnt t) (data t), ws1 ++ mk_worker (Linked x i o) xs :: ws2)
    (mk_link x i o :: H).
Proof.
  intros w I Hlk. destruct I as [Hl Hh Hcnt Hf Hr Hs Ho Hp Hz]. simpl in *. rewrite !bind_app, !bind_cons in *. simpl in *.
  pose proof (bucket_range (hash_build x.1)) as Hb. rewrite (Hh _ Hb) in Hlk. injection Hlk as <-.
  assert ((idx <$> H) ++ (ws1 ≫= drawn) ++ i :: (ws2 ≫= drawn) ≡ₚ i :: (idx <$> H) ++ (ws1 ≫= drawn) ++ (ws2 ≫= drawn)) as Hperm
    by solve_Permutation.
  split; simpl; rewrite ?bind_app, ?bind_cons; simpl; try done.
  - intros b Hbr. case_decide as Hd.
    + subst b. apply list_lookup_insert_eq. by apply lookup_lt_is_Some; rewrite Hh.
    + rewrite list_lookup_insert_ne by lia. by apply Hh.
  - rewrite !length_app in *. simpl in *. lia.
  - by rewrite <- Hperm.
  - intros j Hj. apply Hr. by rewrite Hperm.
  - intros l [-> | [Hst | (v & Hv & Hat)]%Hs]%elem_of_cons; [right | by left | right].
    + eexists. split; [apply elem_of_app; right; by left | done].
    + exists v. split; [| done]. apply elem_of_app in Hv as [Hv | [-> | Hv]%elem_of_cons]; [| done |]; set_solver.
  - intros v y j o Hv Hat. apply elem_of_app in Hv as [Hv | [-> | Hv]%elem_of_cons].
    + right. apply (Ho v); [set_solver | done].
    + injection Hat as <- <- <-. by left.
    + right. apply (Ho v); [set_solver | done].
  - rewrite <- Hp. unfold pending at 2 5. simpl. solve_Permutation.
Qed.

Lemma idx_inj H l1 l2 : NoDup (idx <$> H) → l1 ∈ H → l2 ∈ H → idx l1 = idx l2 → l1 = l2.
Proof.
  intros Hnd (i & Hi)%list_elem_of_lookup_1 (j & Hj)%list_elem_of_lookup_1 E.
  assert (i = j) as <-; [| congruence]. eapply (NoDup_lookup (idx <$> H)); [done | | ]; rewrite list_lookup_fmap;
    [by rewrite Hi | rewrite Hj; simpl; by f_equal].
Qed.

Lemma step_store H t x i o xs ws1 ws2 :
  let w := mk_worker (Linked x i o) xs in
  Inv work (t, ws1 ++ w :: ws2) H →
  Inv work (mk_table (head t) (cnt t) (<[Z.to_nat i := Some (mk_entry o x.1 x.2)]> (data t)), ws1 ++ mk_worker Ready xs :: ws2) H.
Proof.
  intros w I. pose proof (cnt_bound _ _ I) as Hc. destruct I as [Hl Hh Hcnt Hf Hr Hs Ho Hp Hz]. simpl in *.
  rewrite !bind_app, !bind_cons in *. simpl in *.
  assert (mk_link x i o ∈ H) as Hin by (apply (Ho w); [apply elem_of_app; right; by left | done]).
  assert (0 <= i < cnt t) as Hi by (apply Hr, elem_of_app; left; apply list_elem_of_fmap; by exists (mk_link x i o)).
  split; simpl; rewrite ?bind_app, ?bind_cons; simpl; try done.
  - intros l Hlin. destruct (decide (idx l = i)) as [Heq | Hne].
    + assert (l = mk_link x i o) as -> by (apply (idx_inj H); [by apply NoDup_app in Hf as [? _] | done | done | done]).
      left. unfold stored. simpl. apply list_lookup_insert_eq. lia.
    + destruct (Hs l Hlin) as [Hst | (v & Hv & Hat)].
      * left. unfold stored in *. simpl. rewrite list_lookup_insert_ne; [done |].
        assert (0 <= idx l < cnt t) by (apply Hr, elem_of_app; left; by apply list_elem_of_fmap_2). lia.
      * right. exists v. split; [| done]. apply elem_of_app in Hv as [Hv | [-> | Hv]%elem_of_cons]; [set_solver | | set_solver].
        injection Hat as _ Hii _. congruence.
  - intros v y j o' Hv Hat. apply (Ho v); [| done].
    apply elem_of_app in Hv as [Hv | [-> | Hv]%elem_of_cons]; [| done |]; set_solver.
  - by rewrite length_insert.
Qed.

Lemma step_inv s s' H : step s s' → Inv work s H → ∃ H', Inv work s' H'.
Proof.
  intros Hst I. inversion Hst as [t t' w w' ws1 ws2 Hb]; subst. destruct w as [[| x i | x i o] todo_]; unfold build_step in Hb; simpl in Hb.
  - destruct todo_ as [| x xs]; [done |]. injection Hb as <- <-. exists H. by apply step_draw.
  - unfold replaceHead in Hb. destruct (head t !! Z.to_nat (bucket (hash_build x.1))) as [o |] eqn:Ho; [| done]. simpl in Hb. injection Hb as <- <-.
    exists (mk_link x i o :: H). by apply step_link.
  - unfold store in Hb. destruct (_ && _); [| done]. simpl in Hb. injection Hb as <- <-. exists H. by apply step_store.
Qed.

Lemma inv_not_faulty s H : Inv work s H → ¬ faulty s.
Proof.
  intros I (w & e & Hw & Hb). pose proof (cnt_bound _ _ I) as Hc. destruct w as [[| x i | x i o] todo_]; unfold build_step in Hb; simpl in Hb.
  - by destruct todo_.
  - unfold replaceHead in Hb. rewrite (inv_heads _ _ _ I) in Hb by apply bucket_range. done.
  - unfold store in Hb. pose proof (inv_owner _ _ _ I _ _ _ _ Hw eq_refl) as Hin.
    assert (0 <= i < cnt s.1) as Hi by (apply (inv_range _ _ _ I), elem_of_app; left; apply list_elem_of_fmap; by exists (mk_link x i o)).
    rewrite (inv_size _ _ _ I), (proj2 (Z.ltb_lt i _)), (proj2 (Z.ltb_lt i _)) in Hb by lia. done.
Qed.

(** Following the chain of a bucket. *)
Lemma chain_follow_links t k H : ∀ fuel,
  (length H <= fuel)%nat → linked H → (∀ l, l ∈ H → stored t l ∧ 0 <= idx l < EOC) →
  ∀ b, chain_follow fuel t (head_of b H) k =
    Ok ((λ l, (tup l).2) <$> filter (λ l, bucket_of l = b ∧ k = (tup l).1) H).
Proof.
  induction H as [| l H IH]; intros fuel Hf Hl Hs b; [by destruct fuel |].
  destruct fuel as [| fuel]; simpl in Hf; [lia |]. destruct Hl as [Ho Hl].
  destruct (Hs l) as [Hst Hi]; [by left |]. simpl head_of. rewrite filter_cons.
  assert (∀ m, m ∈ H → stored t m ∧ 0 <= idx m < EOC) as Hs' by (intros m Hm; apply Hs; by right).
  destruct (decide (bucket_of l = b)) as [<- | Hb].
  - simpl. rewrite (proj2 (Z.eqb_neq _ _)) by lia. rewrite Hst. simpl. rewrite Ho, (IH fuel) by (done || lia). simpl.
    case_decide as E; case_decide as E'; try tauto; done.
  - rewrite (IH (S fuel)) by (done || lia). case_decide as E'; [tauto | done].
Qed.

Lemma finished_pending ws : Forall (λ w, at_ w = Ready ∧ todo w = []) ws → ws ≫= pending = [].
Proof.
  induction 1 as [| w ws [Ha Ht] _ IH]; [done |]. rewrite bind_cons, IH. unfold pending. by rewrite Ha, Ht.
Qed.

Lemma probe_inv s H k : Inv work s H → finished s → ∃ l, probe (Z.to_nat maxBuildInputSize) s.1 k = Ok l ∧
  l ≡ₚ snd <$> filter (λ x : K * P, k = x.1 ∧ bucket (hash_build k) = bucket (hash_probe k)) work.
Proof.
  intros I Hfin. pose proof (cnt_bound _ _ I) as Hc. pose proof (inv_cnt _ _ _ I) as Hcnt.
  assert (∀ l, l ∈ H → stored s.1 l ∧ 0 <= idx l < EOC) as Hs.
  { intros l Hl. split.
    - destruct (inv_stored _ _ _ I l Hl) as [| (w & Hw & Hat)]; [done |].
      apply (proj1 (Forall_forall _ _) Hfin) in Hw as [Hr _]. congruence.
    - assert (0 <= idx l < cnt s.1) by (apply (inv_range _ _ _ I), elem_of_app; left; by apply list_elem_of_fmap_2). unfold EOC. lia. }
  unfold probe. rewrite (inv_heads _ _ _ I) by apply bucket_range. simpl.
  rewrite chain_follow_links; [| lia | apply (inv_linked _ _ _ I) | done]. eexists. split; [done |].
  pose proof (inv_work _ _ _ I) as Hp. rewrite (finished_pending s.2 Hfin), app_nil_r in Hp. rewrite <- Hp. clear.
  induction H as [| l H IH]; [done |]. rewrite fmap_cons, !filter_cons.
  destruct (decide (k = (tup l).1 ∧ bucket (hash_build k) = bucket (hash_probe k))) as [[-> E] | Hk].
  - rewrite decide_True by done. simpl. by f_equiv.
  - rewrite decide_False; [done |]. intros [E ->]. by apply Hk.
Qed.

End join.

Lemma same_bucket_loop_cons {K P Q : Type} `{EqDecision K} hb hp bits (build : list (K * P)) k (q : Q) qs :
  same_bucket_loop hb hp bits build ((k, q) :: qs) =
    ((λ x, (q, x.2)) <$> filter (λ x, k = x.1 ∧ bucket bits (hb k) = bucket bits (hp k)) build) ++
    same_bucket_loop hb hp bits build qs.
Proof. reflexivity. Qed.

(** When the sides agree on the hash of a key they share, no pair is lost. *)
Lemma same_bucket_filter {K P : Type} `{EqDecision K} hb hp bits k (build : list (K * P)) :
  (k ∈ build.*1 → hb k = hp k) →
  filter (λ x : K * P, k = x.1 ∧ bucket bits (hb k) = bucket bits (hp k)) build = filter (λ x : K * P, k = x.1) build.
Proof.
  intros Hag. induction build as [| x build IH]; [done |]. rewrite !filter_cons, IH by (intros Hk; apply Hag; by right).
  destruct (decide (k = x.1)) as [-> | Hk]; [| by rewrite decide_False by tauto].
  rewrite decide_True; [done |]. split; [done |]. f_equal. apply Hag. left.
Qed.

Lemma same_bucket_all {K P Q : Type} `{EqDecision K} hb hp bits (build : list (K * P)) (qs : list (K * Q)) :
  (∀ k, k ∈ build.*1 → k ∈ qs.*1 → hb k = hp k) → same_bucket_loop hb hp bits build qs = nested_loop build qs.
Proof.
  induction qs as [| [k q] qs IH]; intros Hag; [done |]. rewrite same_bucket_loop_cons, IH.
  - rewrite same_bucket_filter; [done |]. intros Hk. apply Hag; [done | left].
  - intros k' Hb Hq. apply Hag; [done | by right].
Qed.


(** ** An example: two workers build with interleaved steps *)

Definition ex_work : list (list (Z * Z)) := [[(1, 10); (5, 50)]; [(1, 11)]].
Definition ex_schedule : list nat := [0; 1; 1; 0; 0; 0; 1; 0; 0]%nat.

Lemma run_reaches {K P} (hash : K → Z) hash_bits sched : ∀ (s s' : state (K := K) (P := P)),
  run hash hash_bits sched s = Ok s' → rtc (step hash hash_bits) s s'.
Proof.
  induction sched as [| n sched IH]; simpl; intros [t ws] s' E; [injection E as <-; apply rtc_refl |].
  simpl in E. destruct (ws !! n) as [w |] eqn:Hn; [| injection E as <-; apply rtc_refl]. simpl in E.
  destruct (build_step hash hash_bits t w) as [[[t' w'] |] |] eqn:Hb; [| done | injection E as <-; apply rtc_refl]. simpl in E.
  eapply rtc_l; [| by apply IH]. rewrite <- (take_drop_middle ws n w Hn) at 1.
  rewrite insert_take_drop by (by eapply lookup_lt_Some). by constructor.
Qed.

Definition ex_start : state (K := Z) (P := Z) := match initial 2 4 ex_work with Ok s => s | Err _ => (mk_table [] 0 [], []) end.

Definition ex_final : state (K := Z) (P := Z) :=
  match run (λ k, k) 2 ex_schedule ex_start with Ok s => s | Err _ => ex_start end.

Definition ex_probe : list (Z * Z) := [(1, 7); (5, 8); (9, 9)].

Lemma ex_run : run (λ k, k) 2 ex_schedule ex_start = Ok ex_final.
Proof. vm_compute. reflexivity. Qed.

Lemma ex_finished : finished ex_final.
Proof. vm_compute. repeat constructor. Qed.

Lemma ex_nested : nested_loop (concat ex_work) ex_probe = [(7, 10); (7, 11); (8, 50)].
Proof. vm_compute. reflexivity. Qed.

(** The probe side hashes the keys 1 and 5 as the build side does, others in its own way. *)
Definition ex_hash_probe (k : Z) : Z := if k <=? 5 then k else 0.


(** A probe side that hashes otherwise misses pairs of the join. *)
Lemma other_hash_misses_pairs :
  probe_all (λ k, k + 1) 2 (Z.to_nat 4) ex_final.1 ex_probe = Ok [].
Proof. vm_compute. reflexivity. Qed.

End HashJoin.
