(* ===== verification/GroupBy.v ===== *)
(** * GroupBy: hash aggregation in generated pipelines
    ([olap/lib/operators/hash-group-by-chained.cpp], [gpu/gmonoids.cpp]).

    Every worker of a CPU pipeline has a table of its own.  The code of a tuple follows the
    chain of its bucket and updates the group of its key, or appends a new group at the end of
    the chain; the [written] flag and the self-links of the code belong to the case that
    another thread appends first.  The scan emits the groups.  Keys are arbitrary, values are
    integers of [w] bits. *)

From Stdlib Require Import ZArith Lia Bool.
From stdpp Require Import base numbers list sets.
From S2P Require Import Prelude ExprTypes LLVM Expressions.

Local Open Scope Z_scope.
Local Open Scope res_scope.

Module GroupBy.
Import Expressions.

(** ** Accumulators *)

Section monoids.
Context {F V : Type} `{FloatOps F, IRBuilder F V}.

Definition max_create (acc v : V) : res V :=
  match vtype acc with
  | TInt _ => Ok (CreateSelect (CreateICmp SGT v acc) v acc)
  | TDouble => Ok (CreateSelect (CreateFCmp FOGT v acc) v acc)
  | _ => Err Throw
  end.

Definition min_create (acc v : V) : res V :=
  match vtype acc with
  | TInt _ => Ok (CreateSelect (CreateICmp SLT v acc) v acc)
  | TDouble => Ok (CreateSelect (CreateFCmp FOLT v acc) v acc)
  | _ => Err Throw
  end.

Definition sum_create (acc v : V) : res V :=
  match vtype v with TInt _ => Ok (CreateBin Add v acc) | _ => Ok (CreateFBin FAdd v acc) end.

Definition or_create (acc v : V) : res V := Ok (CreateBin Or v acc).
Definition and_create (acc v : V) : res V := Ok (CreateBin And v acc).

(** The code that combines a value with the accumulator, for the monoids [Monoid::get] knows;
    a bag has no update out of place. *)
Definition create (m : Monoid) : V → V → res V :=
  match m with
  | MAX => max_create
  | MIN => min_create
  | SUM => sum_create
  | OR => or_create
  | AND => and_create
  | BAGUNION => λ _ _, Err Throw
  | MULTIPLY | UNION | APPEND => λ _ _, Err Throw
  end.

End monoids.

(** An accumulator in memory: an integer, or the collection of a bag. *)
Inductive accum : Type := AInt (z : Z) | ABag (l : list Z).

Section table.
Context {K : Type} `{EqDecision K} (hash : K → Z) (hash_bits maxInputSize w : Z) (aggs : list Monoid).

(** A value passed to [create_proteus_int_collection], which takes an [int32_t]: of a wider
    argument it sees the low 32 bits, of a narrower one the caller leaves bits unset. *)
Definition collect_arg (x : Z) : res Z := check 32 <=? w else Undefined; Ok (swrap 32 x).

(** [createUnary]: what a first value makes of an accumulator. *)
Definition createUnary (m : Monoid) (x : Z) : res accum :=
  match m with BAGUNION => do y <- collect_arg x; Ok (ABag [y]) | _ => Ok (AInt x) end.

Fixpoint unary_aggs (ms : list Monoid) (xs : list Z) : res (list accum) :=
  match ms, xs with
  | m :: ms', x :: xs' => do a <- createUnary m x; do rest <- unary_aggs ms' xs'; Ok (a :: rest)
  | _, _ => Ok []
  end.

(** [createUpdateFromBareValue], on the accumulator in memory. *)
Definition createUpdate (m : Monoid) (a : accum) (x : Z) : res accum :=
  match m, a with
  | MAX, AInt a => Ok (AInt (if a <? x then x else a))
  | MIN, AInt a => Ok (AInt (if x <? a then x else a))
  | SUM, AInt a => Ok (AInt (swrap w (x + a)))
  | OR, AInt a => Ok (AInt (swrap w (Z.lor x a)))
  | AND, AInt a => Ok (AInt (swrap w (Z.land x a)))
  | BAGUNION, ABag l => do y <- collect_arg x; Ok (ABag (l ++ [y]))
  | (MULTIPLY | UNION | APPEND), _ => Err Throw
  | _, _ => Err Undefined
  end.

Fixpoint update_aggs (ms : list Monoid) (accs : list accum) (xs : list Z) : res (list accum) :=
  match ms, accs, xs with
  | m :: ms', a :: accs', x :: xs' =>
      do a' <- createUpdate m a x;
      do rest <- update_aggs ms' accs' xs'; Ok (a' :: rest)
  | _, _, _ => Ok []
  end.

(** ** The table *)

Definition EOC : Z := 2 ^ 32 - 1.

(** Packet 0 holds the links, the others the keys and the accumulators. *)
Record table : Type := mk_table {
  head : list Z;
  cnt : Z;
  links : list Z;
  rows : list (option (K * list accum))
}.

Definition set_head (t : table) (b i : Z) : table := mk_table (<[Z.to_nat b := i]> (head t)) (cnt t) (links t) (rows t).
Definition set_link (t : table) (i n : Z) : table := mk_table (head t) (cnt t) (<[Z.to_nat i := n]> (links t)) (rows t).
Definition set_row (t : table) (i : Z) (r : K * list accum) : table :=
  mk_table (head t) (cnt t) (links t) (<[Z.to_nat i := Some r]> (rows t)).

(** [open], with the heads filled with ones; the buffers have room for eight times the given
    number of groups.  The number of heads is a [size_t]. *)
Definition open : res table :=
  check (0 <=? hash_bits) && (hash_bits <? 64) else Undefined;
  Ok (mk_table (replicate (Z.to_nat (2 ^ hash_bits)) EOC) 0
       (replicate (Z.to_nat (maxInputSize * 8)) 0) (replicate (Z.to_nat (maxInputSize * 8)) None)).

Definition bucket (k : K) : Z := hash k mod 2 ^ hash_bits.

(** A new entry at the next index: its link, then its key and its accumulators. *)
Definition prepare_entry (t : table) (k : K) (xs : list Z) : res (Z * table) :=
  let idx := cnt t in
  check (idx <? 2 ^ 31) && (idx <? Z.of_nat (length (links t))) else Undefined;
  let t1 := mk_table (head t) (u32 (cnt t + 1)) (links t) (rows t) in
  do accs <- unary_aggs aggs xs;
  Ok (idx, set_row (set_link t1 idx EOC) idx (k, accs)).

(** The chain: [idx] is the entry this tuple has written, if any. *)
Fixpoint follow (fuel : nat) (t : table) (k : K) (xs : list Z) (idx : option Z) (current : Z) : res table :=
  match fuel with
  | O => Err Blocked
  | S fuel =>
      do slot <- of_option Undefined (rows t !! Z.to_nat current);
      do row <- of_option Undefined slot;
      do next <- of_option Undefined (links t !! Z.to_nat current);
      if decide (row.1 = k) then
        do accs <- update_aggs aggs row.2 xs;
        let t1 := set_row t current (row.1, accs) in
        Ok (match idx with Some i => set_link t1 i i | None => t1 end)
      else if next =? EOC then
        do (i, t1) <- (match idx with Some i => Ok (i, t) | None => prepare_entry t k xs end);
        do new_next <- of_option Undefined (links t1 !! Z.to_nat current);
        if new_next =? EOC then Ok (set_link t1 current i)
        else follow fuel t1 k xs (Some i) new_next
      else follow fuel t k xs idx next
  end.

(** The code of a tuple ([generate_build]). *)
Definition consume (fuel : nat) (t : table) (k : K) (xs : list Z) : res table :=
  do current <- of_option Undefined (head t !! Z.to_nat (bucket k));
  if current =? EOC then
    do (i, t1) <- prepare_entry t k xs;
    do old <- of_option Undefined (head t1 !! Z.to_nat (bucket k));
    if old =? EOC then Ok (set_head t1 (bucket k) i) else follow fuel t1 k xs (Some i) old
  else follow fuel t k xs None current.

(** [close]: the number of entries fits. *)
Definition close (t : table) : res unit := check cnt t <=? maxInputSize else AssertFailed; Ok tt.

(** The scan skips the entries that link to themselves ([generate_scan]). *)
Fixpoint scan (t : table) (n : nat) (i : Z) : res (list (K * list accum)) :=
  match n with
  | O => Ok []
  | S n =>
      do next <- of_option Undefined (links t !! Z.to_nat i);
      do slot <- of_option Undefined (rows t !! Z.to_nat i);
      do row <- of_option Undefined slot;
      do rest <- scan t n (i + 1);
      Ok (if next =? i then rest else row :: rest)
  end.

Definition group_by (fuel : nat) (input : list (K * list Z)) : res (list (K * list accum)) :=
  do t0 <- open;
  do t <- rfoldM (λ t x, consume fuel t x.1 x.2) t0 input;
  do _ <- close t;
  scan t (Z.to_nat (cnt t)) 0.

(** ** The specification *)

(** The keys, each once, in the order of their first tuples. *)
Definition distinct (ks : list K) : list K := foldl (λ acc k, if decide (k ∈ acc) then acc else acc ++ [k]) [] ks.

(** The values of the [j]-th expression over the tuples of a key. *)
Definition values (k : K) (j : nat) (input : list (K * list Z)) : list Z :=
  omap (λ x, if decide (x.1 = k) then x.2 !! j else None) input.

Definition aggregate (m : Monoid) (l : list Z) : accum :=
  match m with
  | MAX => AInt (foldl Z.max (- 2 ^ (w - 1)) l)
  | MIN => AInt (foldl Z.min (2 ^ (w - 1) - 1) l)
  | SUM => AInt (swrap w (foldl Z.add 0 l))
  | OR => AInt (swrap w (foldl Z.lor 0 l))
  | AND => AInt (swrap w (foldl Z.land (-1) l))
  | _ => ABag (swrap 32 <$> l)
  end.

Definition groups (input : list (K * list Z)) : list (K * list accum) :=
  (λ k, (k, imap (λ j m, aggregate m (values k j input)) aggs)) <$> distinct (input.*1).

Definition supported (m : Monoid) : bool :=
  match m with MAX | MIN | SUM | OR | AND | BAGUNION => true | _ => false end.

(** A tuple has a value of the width for every aggregate. *)
Definition fits (x : K * list Z) : Prop := length x.2 = length aggs ∧ Forall (in_signed w) x.2.

(** ** The representation of a list of groups *)

(** The first group of a bucket, from index [i] on. *)
Fixpoint first_at (b i : Z) (g : list (K * list accum)) : Z :=
  match g with
  | [] => EOC
  | r :: g' => if decide (bucket r.1 = b) then i else first_at b (i + 1) g'
  end.

Record Rep (t : table) (g : list (K * list accum)) : Prop := mk_rep {
  rep_heads : ∀ b, 0 <= b < 2 ^ hash_bits → head t !! Z.to_nat b = Some (first_at b 0 g);
  rep_links : ∀ j r, g !! j = Some r → links t !! j = Some (first_at (bucket r.1) (Z.of_nat j + 1) (drop (S j) g));
  rep_rows : ∀ j r, g !! j = Some r → rows t !! j = Some (Some r);
  rep_cnt : cnt t = Z.of_nat (length g);
  rep_llen : length (links t) = Z.to_nat (maxInputSize * 8);
  rep_rlen : length (rows t) = Z.to_nat (maxInputSize * 8)
}.

Context (Hbits : 0 <= hash_bits < 64) (Hmax : 8 * maxInputSize < 2 ^ 31) (Hw : 0 < w).
Context (Hbag : BAGUNION ∈ aggs → 32 <= w).

Lemma bucket_bound k : 0 <= bucket k < 2 ^ hash_bits.
Proof. apply Z.mod_pos_bound, Z.pow_pos_nonneg; lia. Qed.

Lemma rep_open : ∃ t, open = Ok t ∧ Rep t [].
Proof.
  unfold open. rewrite (proj2 (Z.leb_le 0 _)), (proj2 (Z.ltb_lt _ 64)) by lia. eexists. split; [reflexivity |].
  split; simpl; try done; try apply length_replicate.
  intros b Hb. apply lookup_replicate_2. lia.
Qed.

Lemma first_at_EOC b g : ∀ i, 0 <= i → i + Z.of_nat (length g) < EOC →
  first_at b i g = EOC ↔ (∀ r, r ∈ g → bucket r.1 ≠ b).
Proof.
  induction g as [| r g IH]; intros i Hi Hl; simpl in *; [set_solver |].
  case_decide as E; [| rewrite IH by lia; set_solver].
  split; [lia |]. intros Hn. destruct (Hn r); [by left | done].
Qed.

Lemma first_at_app b g r : ∀ i, 0 <= i → i + Z.of_nat (length g) < EOC →
  first_at b i (g ++ [r]) =
  if decide (first_at b i g = EOC) then (if decide (bucket r.1 = b) then i + Z.of_nat (length g) else EOC) else first_at b i g.
Proof.
  induction g as [| r' g IH]; intros i Hi Hl; simpl in *.
  - repeat case_decide; lia || done.
  - destruct (decide (bucket r'.1 = b)); [rewrite decide_False by lia; done |].
    rewrite IH by lia. repeat case_decide; lia.
Qed.

Lemma first_at_insert b g : ∀ i j (r r' : K * list accum), g !! j = Some r → r'.1 = r.1 → first_at b i (<[j := r']> g) = first_at b i g.
Proof.
  induction g as [| r0 g IH]; intros i [| j] r r' Hj Hr; simpl in *; try done.
  - injection Hj as ->. by rewrite Hr.
  - case_decide; [done |]. by eapply IH.
Qed.

(** ** A known key *)

Lemma rep_update t g j k accs accs' : Rep t g → g !! j = Some (k, accs) →
  Rep (set_row t (Z.of_nat j) (k, accs')) (<[j := (k, accs')]> g).
Proof.
  intros R Hj. assert (j < length g)%nat as Hlt by (by eapply lookup_lt_Some).
  destruct R as [Hh Hl Hr Hc Hll Hrl]. unfold set_row. rewrite Nat2Z.id.
  assert (is_Some (rows t !! j)) as Hs%lookup_lt_is_Some by (by rewrite (Hr _ _ Hj)).
  split; simpl; rewrite ?length_insert; try done.
  - intros b Hb. rewrite (first_at_insert _ _ _ _ (k, accs)) by done. by apply Hh.
  - intros i r Hi. assert (∃ r0, g !! i = Some r0 ∧ r0.1 = r.1) as (r0 & Hi0 & <-).
    { destruct (decide (i = j)) as [-> | Hne].
      - rewrite list_lookup_insert_eq in Hi by done. injection Hi as <-. by exists (k, accs).
      - rewrite list_lookup_insert_ne in Hi by done. by exists r. }
    rewrite (Hl _ _ Hi0). f_equal. destruct (decide (S i <= j)%nat).
    + rewrite drop_insert_ge by done. symmetry. apply (first_at_insert _ _ _ _ (k, accs)); [| done].
      rewrite lookup_drop. by replace (S i + (j - S i))%nat with j by lia.
    + by rewrite drop_insert_lt by lia.
  - intros i r Hi. destruct (decide (i = j)) as [-> | Hne].
    + rewrite list_lookup_insert_eq in Hi by done. rewrite list_lookup_insert_eq by done. congruence.
    + rewrite list_lookup_insert_ne in Hi by done. rewrite list_lookup_insert_ne by done. by apply Hr.
Qed.

(** Following the chain to the group of a key. *)
Lemma follow_found t g k xs accs accs' : Rep t g → update_aggs aggs accs xs = Ok accs' →
  Z.of_nat (length g) <= maxInputSize →
  ∀ suf pre fuel j, g = pre ++ suf → (length suf <= fuel)%nat → suf !! j = Some (k, accs) →
  (∀ i r, suf !! i = Some r → r.1 = k → i = j) →
  follow fuel t k xs None (first_at (bucket k) (Z.of_nat (length pre)) suf) =
  Ok (set_row t (Z.of_nat (length pre + j)) (k, accs')).
Proof.
  intros R Hu Hlen. induction suf as [| r suf IH]; intros pre fuel j Hg Hf Hj Hone; [done |].
  assert (g !! length pre = Some r) as Hr by (subst g; by apply list_lookup_middle).
  assert (j ≠ O → suf !! pred j = Some (k, accs)) as Hj'.
  { intros Hj0. destruct j; [done |]. exact Hj. }
  assert (j ≠ O → ∀ i r, suf !! i = Some r → r.1 = k → i = pred j) as Hone'.
  { intros Hj0 i r' Hi Hk. specialize (Hone (S i) r' Hi Hk). lia. }
  assert (g = (pre ++ [r]) ++ suf) as Hg' by (by rewrite <- app_assoc).
  assert (length (pre ++ [r]) = S (length pre)) as Hpl by (rewrite length_app; simpl; lia).
  simpl in Hf. destruct fuel as [| fuel]; [lia |]. cbn [first_at]. destruct (decide (bucket r.1 = bucket k)) as [Eb | Nb].
  - cbn [follow]. rewrite Nat2Z.id, (rep_rows _ _ R _ _ Hr). simpl. rewrite (rep_links _ _ R _ _ Hr). simpl.
    case_decide as Ek.
    + assert (j = O) as -> by (symmetry; by apply (Hone O r)). simpl in Hj. injection Hj as ->. simpl in *. rewrite Hu. simpl.
      by rewrite Nat.add_0_r.
    + assert (j ≠ O) as Hj0 by (intros ->; by simplify_eq/=).
      assert (drop (S (length pre)) g = suf) as -> by (rewrite Hg', <- Hpl; by apply drop_app_length).
      assert (Z.of_nat (length g) = Z.of_nat (length pre) + 1 + Z.of_nat (length suf)) as Hgl
        by (rewrite Hg; rewrite length_app; simpl; lia).
      rewrite Eb, (proj2 (Z.eqb_neq _ _)).
      * replace (Z.of_nat (length pre) + 1) with (Z.of_nat (length (pre ++ [r]))) by lia.
        rewrite (IH _ fuel (pred j) Hg' ltac:(lia) (Hj' Hj0) (Hone' Hj0)). f_equal. f_equal. lia.
      * rewrite first_at_EOC by (unfold EOC; lia). intros Hn. apply (Hn (k, accs)); [| done].
        by eapply list_elem_of_lookup_2, Hj'.
  - assert (j ≠ O) as Hj0 by (intros ->; by simplify_eq/=).
    replace (Z.of_nat (length pre) + 1) with (Z.of_nat (length (pre ++ [r]))) by lia.
    rewrite (IH _ (S fuel) (pred j) Hg' ltac:(lia) (Hj' Hj0) (Hone' Hj0)). f_equal. f_equal. lia.
Qed.

Lemma consume_found t g k xs accs accs' j : Rep t g → NoDup g.*1 → Z.of_nat (length g) <= maxInputSize →
  g !! j = Some (k, accs) → update_aggs aggs accs xs = Ok accs' →
  ∃ t', consume (Z.to_nat maxInputSize) t k xs = Ok t' ∧ Rep t' (<[j := (k, accs')]> g).
Proof.
  intros R Hnd Hlen Hj Hu. exists (set_row t (Z.of_nat j) (k, accs')). split; [| by eapply rep_update].
  unfold consume. rewrite (rep_heads _ _ R) by apply bucket_bound. simpl.
  rewrite (proj2 (Z.eqb_neq _ _)).
  - apply (follow_found t g k xs accs accs' R Hu Hlen g [] _ j); [done | lia | done |].
    intros i r Hi Hk. eapply (NoDup_lookup g.*1); [done | |]; rewrite list_lookup_fmap; [by rewrite Hi |]. rewrite Hj. simpl. by f_equal.
  - rewrite first_at_EOC by (unfold EOC; lia). intros Hn. apply (Hn (k, accs)); [| done]. by eapply list_elem_of_lookup_2.
Qed.

(** ** A new key *)

Definition first_value (m : Monoid) (x : Z) : accum := match m with BAGUNION => ABag [swrap 32 x] | _ => AInt x end.

Lemma collect_arg_ok x : 32 <= w → collect_arg x = Ok (swrap 32 x).
Proof. intros Hc. unfold collect_arg. by rewrite (proj2 (Z.leb_le _ _)) by lia. Qed.

Lemma unary_aggs_ok : ∀ ms xs, (BAGUNION ∈ ms → 32 <= w) → unary_aggs ms xs = Ok (zip_with first_value ms xs).
Proof.
  induction ms as [| m ms IH]; intros xs Hb; [done |]. destruct xs as [| x xs]; [done |]. simpl.
  rewrite IH by (intros ?; apply Hb; by right).
  destruct m; try done. cbn [createUnary]. rewrite collect_arg_ok by (apply Hb; left). done.
Qed.

Definition fresh (k : K) (xs : list Z) : K * list accum := (k, zip_with first_value aggs xs).

(** The table after the entry is written and before it is linked. *)
Definition prepared (t : table) (k : K) (xs : list Z) : table :=
  mk_table (head t) (cnt t + 1) (<[Z.to_nat (cnt t) := EOC]> (links t)) (<[Z.to_nat (cnt t) := Some (fresh k xs)]> (rows t)).

Lemma prepare_ok t g k xs : Rep t g → Z.of_nat (length g) < maxInputSize → prepare_entry t k xs = Ok (cnt t, prepared t k xs).
Proof.
  intros R Hl. unfold prepare_entry, prepared. rewrite (rep_cnt _ _ R), (rep_llen _ _ R).
  rewrite (proj2 (Z.ltb_lt _ _)), (proj2 (Z.ltb_lt _ (Z.of_nat _))) by lia. simpl.
  rewrite wrap_id, unary_aggs_ok by (done || lia). done.
Qed.

(** The new entry is linked from the head of its bucket, or from the last entry of the
    bucket. *)
Lemma rep_append t g k xs h l : Rep t g → Z.of_nat (length g) < maxInputSize →
  let p := prepared t k xs in let new := fresh k xs in
  (∀ b, 0 <= b < 2 ^ hash_bits → h !! Z.to_nat b = Some (first_at b 0 (g ++ [new]))) →
  (∀ j r, g !! j = Some r → l !! j = Some (first_at (bucket r.1) (Z.of_nat j + 1) (drop (S j) g ++ [new]))) →
  l !! length g = Some EOC → length l = length (links t) →
  Rep (mk_table h (cnt p) l (rows p)) (g ++ [new]).
Proof.
  intros R Hlen p new Hh Hl Hlast Hll. pose proof (rep_cnt _ _ R) as Hc. pose proof (rep_rlen _ _ R) as Hrl.
  split; simpl; rewrite ?length_insert; try done.
  - intros j r Hj. apply lookup_app_Some in Hj as [Hj | [Hge Hj]].
    + rewrite (Hl _ _ Hj), drop_app_le; [done |]. by apply lookup_lt_Some in Hj.
    + apply list_lookup_singleton_Some in Hj as [Hj <-]. replace j with (length g) by lia.
      rewrite Hlast, drop_ge by (rewrite length_app; simpl; lia). done.
  - rewrite Hc, Nat2Z.id. intros j r Hj. apply lookup_app_Some in Hj as [Hj | [Hge Hj]].
    + rewrite list_lookup_insert_ne; [by apply (rep_rows _ _ R) |]. apply lookup_lt_Some in Hj. lia.
    + apply list_lookup_singleton_Some in Hj as [Hj <-]. replace j with (length g) by lia. apply list_lookup_insert_eq. lia.
  - rewrite length_app. simpl. lia.
  - by rewrite Hll, (rep_llen _ _ R).
Qed.

(** The first entry of a bucket. *)
Lemma rep_append_head t g k xs : Rep t g → Z.of_nat (length g) < maxInputSize → first_at (bucket k) 0 g = EOC →
  Rep (set_head (prepared t k xs) (bucket k) (cnt t)) (g ++ [fresh k xs]).
Proof.
  intros R Hlen He. pose proof (rep_cnt _ _ R) as Hc. pose proof (rep_llen _ _ R) as Hll.
  rewrite first_at_EOC in He by (unfold EOC; lia). apply rep_append; try done.
  - intros b Hb. rewrite first_at_app by (unfold EOC; lia). simpl. destruct (decide (b = bucket k)) as [-> | Hne].
    + rewrite list_lookup_insert_eq by (apply lookup_lt_is_Some; rewrite (rep_heads _ _ R) by done; done).
      rewrite decide_True by (apply first_at_EOC; [lia | unfold EOC; lia | done]). rewrite decide_True by done. f_equal. lia.
    + pose proof (bucket_bound k). rewrite list_lookup_insert_ne, (rep_heads _ _ R) by lia. f_equal.
      destruct (decide (first_at b 0 g = EOC)) as [E |]; [| done]. by rewrite decide_False.
  - intros j r Hj. pose proof (lookup_lt_Some _ _ _ Hj). simpl. rewrite Hc, Nat2Z.id, list_lookup_insert_ne by lia.
    rewrite (rep_links _ _ R _ _ Hj), first_at_app by (rewrite ?length_drop; unfold EOC; lia). f_equal. simpl.
    repeat case_decide; try done. exfalso. apply (He r); [by eapply list_elem_of_lookup_2 | done].
  - simpl. rewrite Hc, Nat2Z.id. apply list_lookup_insert_eq. lia.
  - simpl. by rewrite length_insert.
Qed.

(** An entry after the last one of its bucket. *)
Lemma rep_append_link t g k xs i r : Rep t g → Z.of_nat (length g) < maxInputSize → g !! i = Some r →
  bucket r.1 = bucket k → first_at (bucket k) (Z.of_nat i + 1) (drop (S i) g) = EOC →
  Rep (set_link (prepared t k xs) (Z.of_nat i) (cnt t)) (g ++ [fresh k xs]).
Proof.
  intros R Hlen Hi Hb He. pose proof (rep_cnt _ _ R) as Hc. pose proof (rep_llen _ _ R) as Hll.
  pose proof (lookup_lt_Some _ _ _ Hi) as Hilt.
  apply rep_append; try done; simpl.
  - intros b Hbr. rewrite (rep_heads _ _ R) by done. rewrite first_at_app by (unfold EOC; lia). f_equal.
    repeat case_decide; try done. exfalso. simpl in *. subst b.
    rewrite first_at_EOC in H by (unfold EOC; lia). apply (H r); [by eapply list_elem_of_lookup_2 | done].
  - intros j rj Hj. pose proof (lookup_lt_Some _ _ _ Hj) as Hjlt. rewrite Nat2Z.id, Hc, Nat2Z.id.
    rewrite first_at_app by (rewrite ?length_drop; unfold EOC; lia). destruct (decide (i = j)) as [<- | Hne].
    + rewrite list_lookup_insert_eq by (rewrite length_insert; lia). assert (rj = r) as -> by congruence.
      rewrite Hb, (decide_True _ _ He), decide_True by done. f_equal. rewrite length_drop. lia.
    + rewrite !list_lookup_insert_ne by lia. rewrite (rep_links _ _ R _ _ Hj). f_equal.
      destruct (decide (first_at _ _ _ = EOC)) as [Ej |]; [| done]. case_decide as Ebj; [| done]. exfalso. simpl in Ebj.
      rewrite first_at_EOC in He, Ej by (rewrite ?length_drop; unfold EOC; lia).
      destruct (decide (i < j)%nat).
      * apply (He rj); [| done]. apply (list_elem_of_lookup_2 _ (j - S i)). rewrite lookup_drop.
        by replace (S i + (j - S i))%nat with j by lia.
      * apply (Ej r); [| congruence]. apply (list_elem_of_lookup_2 _ (i - S j)). rewrite lookup_drop.
        by replace (S j + (i - S j))%nat with i by lia.
  - rewrite Nat2Z.id, Hc, Nat2Z.id, list_lookup_insert_ne by lia. apply list_lookup_insert_eq. lia.
  - by rewrite !length_insert.
Qed.

Lemma follow_new t g k xs : Rep t g → Z.of_nat (length g) < maxInputSize → k ∉ g.*1 →
  ∀ suf pre fuel, g = pre ++ suf → (length suf <= fuel)%nat →
  first_at (bucket k) (Z.of_nat (length pre)) suf ≠ EOC →
  ∃ t', follow fuel t k xs None (first_at (bucket k) (Z.of_nat (length pre)) suf) = Ok t' ∧ Rep t' (g ++ [fresh k xs]).
Proof.
  intros R Hlen Hk. pose proof (rep_cnt _ _ R) as Hc. induction suf as [| r suf IH]; intros pre fuel Hg Hf Hne; [done |].
  assert (g !! length pre = Some r) as Hr by (subst g; by apply list_lookup_middle).
  assert (g = (pre ++ [r]) ++ suf) as Hg' by (by rewrite <- app_assoc).
  assert (length (pre ++ [r]) = S (length pre)) as Hpl by (rewrite length_app; simpl; lia).
  assert (Z.of_nat (length pre) + 1 = Z.of_nat (length (pre ++ [r]))) as Hpz by lia.
  simpl in Hf. destruct fuel as [| fuel]; [lia |]. cbn [first_at] in *. destruct (decide (bucket r.1 = bucket k)) as [Eb | Nb].
  - cbn [follow]. rewrite Nat2Z.id, (rep_rows _ _ R _ _ Hr). simpl. rewrite (rep_links _ _ R _ _ Hr). simpl.
    rewrite decide_False by (intros <-; apply Hk, list_elem_of_fmap_2; by eapply list_elem_of_lookup_2).
    assert (drop (S (length pre)) g = suf) as Hd by (rewrite Hg', <- Hpl; by apply drop_app_length). rewrite Hd, Eb, Hpz.
    destruct (Z.eqb_spec (first_at (bucket k) (Z.of_nat (length (pre ++ [r]))) suf) EOC) as [E | N].
    + rewrite (prepare_ok _ g) by done. simpl.
      pose proof (lookup_lt_Some _ _ _ Hr). rewrite Hc, Nat2Z.id, list_lookup_insert_ne by lia.
      rewrite (rep_links _ _ R _ _ Hr), Hd, Eb, Hpz, E. simpl. eexists. split; [done |]. rewrite <- Hc.
      apply (rep_append_link _ _ _ _ _ r); try done. by rewrite Hd, Hpz.
    + apply (IH (pre ++ [r]) fuel); [done | lia | done].
  - rewrite Hpz in *. apply (IH (pre ++ [r]) (S fuel)); [done | lia | done].
Qed.

Lemma consume_new t g k xs : Rep t g → Z.of_nat (length g) < maxInputSize → k ∉ g.*1 →
  ∃ t', consume (Z.to_nat maxInputSize) t k xs = Ok t' ∧ Rep t' (g ++ [fresh k xs]).
Proof.
  intros R Hlen Hk. unfold consume. rewrite (rep_heads _ _ R) by apply bucket_bound. simpl.
  destruct (Z.eqb_spec (first_at (bucket k) 0 g) EOC) as [E | N].
  - rewrite (prepare_ok _ g) by done. simpl. rewrite (rep_heads _ _ R), E by apply bucket_bound. simpl.
    eexists. split; [done |]. by apply rep_append_head.
  - apply (follow_new t g k xs R Hlen Hk g []); [done | lia | done].
Qed.

(** ** The scan *)

Lemma first_at_ge b g : ∀ i, first_at b i g = EOC ∨ i <= first_at b i g.
Proof.
  induction g as [| r g IH]; intros i; simpl; [by left |]. case_decide; [right; lia |]. destruct (IH (i + 1)); [by left | right; lia].
Qed.

Lemma scan_rep t g : Rep t g → Z.of_nat (length g) <= maxInputSize →
  ∀ suf pre, g = pre ++ suf → scan t (length suf) (Z.of_nat (length pre)) = Ok suf.
Proof.
  intros R Hlen. induction suf as [| r suf IH]; intros pre Hg; [done |].
  assert (g !! length pre = Some r) as Hr by (subst g; by apply list_lookup_middle).
  pose proof (lookup_lt_Some _ _ _ Hr). simpl. rewrite Nat2Z.id, (rep_links _ _ R _ _ Hr), (rep_rows _ _ R _ _ Hr). simpl.
  replace (Z.of_nat (length pre) + 1) with (Z.of_nat (length (pre ++ [r]))) by (rewrite length_app; simpl; lia).
  rewrite (IH (pre ++ [r])) by (by rewrite <- app_assoc). simpl. rewrite (proj2 (Z.eqb_neq _ _)); [done |].
  destruct (first_at_ge (bucket r.1) (drop (S (length pre)) g) (Z.of_nat (length (pre ++ [r])))) as [-> | Hge].
  - unfold EOC. lia.
  - assert (length (pre ++ [r]) = S (length pre)) by (rewrite length_app; simpl; lia). lia.
Qed.

(** ** Aggregates *)

Lemma swrap_bin (f : Z → Z → Z) a x : (∀ a b, wrap w (f a b) = f (wrap w a) (wrap w b)) → swrap w (f x (swrap w a)) = swrap w (f x a).
Proof. intros Hf. unfold swrap at 1 3. by rewrite !Hf, wrap_swrap. Qed.

Lemma createUpdate_aggregate m l x : supported m = true → (m = BAGUNION → 32 <= w) → createUpdate m (aggregate m l) x = Ok (aggregate m (l ++ [x])).
Proof.
  assert (∀ a x, swrap w (x + swrap w a) = swrap w (x + a)) as Hadd.
  { intros a y. unfold swrap at 1 3. by rewrite <- wrap_add, wrap_swrap, wrap_add. }
  destruct m; try done; intros _ Hb; simpl; rewrite ?foldl_app; simpl;
    [.. | by rewrite collect_arg_ok, fmap_app by auto]; do 2 f_equal;
    try (match goal with |- context [?a <? ?b] => destruct (Z.ltb_spec a b) end; lia).
  - by rewrite Hadd, Z.add_comm.
  - rewrite swrap_bin, Z.lor_comm by (intros; symmetry; apply wrap_lor; lia). done.
  - rewrite swrap_bin, Z.land_comm by (intros; symmetry; apply wrap_land; lia). done.
Qed.

Lemma first_value_aggregate m x : supported m = true → in_signed w x → first_value m x = aggregate m [x].
Proof.
  intros Hm Hx. pose proof Hx as Hx'. unfold in_signed in Hx'. destruct m; try done; simpl; f_equal; try lia;
    rewrite ?Z.lor_0_l, ?Z.land_m1_l, ?Z.add_0_l, swrap_id by done; done.
Qed.

Lemma update_aggs_spec : ∀ ms (f g : nat → list Z) xs, Forall (λ m, supported m = true) ms →
  (BAGUNION ∈ ms → 32 <= w) → length xs = length ms →
  (∀ j x, xs !! j = Some x → g j = f j ++ [x]) →
  update_aggs ms (imap (λ j m, aggregate m (f j)) ms) xs = Ok (imap (λ j m, aggregate m (g j)) ms).
Proof.
  induction ms as [| m ms IH]; intros f g xs Hm Hb Hl Hg; [done |]. destruct xs as [| x xs]; [done |].
  apply Forall_cons in Hm as [Hm Hms]. simpl.
  rewrite createUpdate_aggregate by (done || intros ->; apply Hb; left). simpl.
  change (imap ((λ j m, aggregate m (f j)) ∘ S) ms) with (imap (λ j m, aggregate m ((f ∘ S) j)) ms).
  rewrite (IH (f ∘ S) (g ∘ S)); [| done | intros ?; apply Hb; by right | simpl in Hl; lia | intros j y Hj; by apply (Hg (S j))].
  simpl. by rewrite (Hg O x).
Qed.

Lemma fresh_spec : ∀ ms (g : nat → list Z) xs, Forall (λ m, supported m = true) ms → length xs = length ms → Forall (in_signed w) xs →
  (∀ j x, xs !! j = Some x → g j = [x]) →
  zip_with first_value ms xs = imap (λ j m, aggregate m (g j)) ms.
Proof.
  induction ms as [| m ms IH]; intros g xs Hm Hl Hr Hg; [done |]. destruct xs as [| x xs]; [done |].
  apply Forall_cons in Hm as [Hm Hms]. apply Forall_cons in Hr as [Hx Hr]. simpl.
  rewrite first_value_aggregate, (Hg O x) by done. f_equal.
  apply (IH (g ∘ S)); [done | simpl in Hl; lia | done |]. intros j y Hj. by apply (Hg (S j)).
Qed.

Lemma distinct_snoc ks k : distinct (ks ++ [k]) = if decide (k ∈ distinct ks) then distinct ks else distinct ks ++ [k].
Proof. unfold distinct. by rewrite foldl_app. Qed.

Lemma distinct_elem ks k : k ∈ distinct ks ↔ k ∈ ks.
Proof.
  induction ks as [| k' ks IH] using rev_ind; [done |]. rewrite distinct_snoc, elem_of_app, list_elem_of_singleton.
  case_decide; [| rewrite elem_of_app, list_elem_of_singleton]; naive_solver.
Qed.

Lemma distinct_NoDup ks : NoDup (distinct ks).
Proof.
  induction ks as [| k ks IH] using rev_ind; [constructor |]. rewrite distinct_snoc. case_decide; [done |].
  apply NoDup_app. split; [done |]. split; [set_solver | apply NoDup_singleton].
Qed.

Lemma values_snoc k j input x : values k j (input ++ [x]) =
  values k j input ++ (if decide (x.1 = k) then from_option (λ y, [y]) [] (x.2 !! j) else []).
Proof. unfold values. rewrite omap_app. f_equal. simpl. case_decide; [by destruct (x.2 !! j) | done]. Qed.

Lemma values_absent k j input : k ∉ input.*1 → values k j input = [].
Proof.
  induction input as [| x input IH]; [done |]. rewrite fmap_cons, not_elem_of_cons. intros [Hne Hk]. unfold values. simpl.
  rewrite decide_False by done. by apply IH.
Qed.

Lemma distinct_keys (input : list (K * list Z)) x :
  distinct ((input ++ [x]).*1) = if decide (x.1 ∈ distinct (input.*1)) then distinct (input.*1) else distinct (input.*1) ++ [x.1].
Proof. rewrite fmap_app. apply distinct_snoc. Qed.

(** ** Correctness *)

Context (Haggs : Forall (λ m, supported m = true) aggs).

Lemma groups_keys input : (groups input).*1 = distinct (input.*1).
Proof. unfold groups. rewrite <- list_fmap_compose. apply list_fmap_id. Qed.

Lemma groups_length input : length (groups input) = length (distinct (input.*1)).
Proof. unfold groups. apply length_fmap. Qed.

Lemma groups_new input x : fits x → x.1 ∉ input.*1 → groups (input ++ [x]) = groups input ++ [fresh x.1 x.2].
Proof.
  intros [Hl Hr] Hk. unfold groups. rewrite distinct_keys, decide_False by (by rewrite distinct_elem).
  rewrite fmap_app. f_equal.
  - apply list_fmap_ext. intros i k Hi. f_equal. apply imap_ext. intros j m _. rewrite values_snoc, decide_False, app_nil_r; [done |].
    intros <-. apply Hk, distinct_elem. by eapply list_elem_of_lookup_2.
  - simpl. unfold fresh. f_equal. f_equal. symmetry. apply fresh_spec; try done.
    intros j y Hj. rewrite values_snoc, values_absent, decide_True, Hj by done. done.
Qed.

Lemma groups_known input x i : fits x → distinct (input.*1) !! i = Some x.1 →
  ∃ accs accs', groups input !! i = Some (x.1, accs) ∧ update_aggs aggs accs x.2 = Ok accs' ∧
    groups (input ++ [x]) = <[i := (x.1, accs')]> (groups input).
Proof.
  intros [Hl Hr] Hi. unfold groups. rewrite list_lookup_fmap, Hi. simpl. eexists _, _. split; [done |].
  split.
  - apply (update_aggs_spec aggs _ (λ j, values x.1 j (input ++ [x]))); [done | done | done |].
    intros j y Hj. rewrite values_snoc, decide_True, Hj by done. done.
  - assert (x.1 ∈ distinct (input.*1)) as Hin by (by eapply list_elem_of_lookup_2).
    rewrite distinct_keys, decide_True by done. apply list_eq. intros i'. rewrite list_lookup_fmap.
    destruct (decide (i = i')) as [<- | Hne].
    + rewrite list_lookup_insert_eq by (rewrite length_fmap; by eapply lookup_lt_Some). by rewrite Hi.
    + rewrite list_lookup_insert_ne, list_lookup_fmap by done. destruct (distinct (input.*1) !! i') as [k' |] eqn:Hi'; [| done].
      simpl. do 2 f_equal. apply imap_ext. intros j m _. rewrite values_snoc, decide_False, app_nil_r; [done |].
      intros <-. apply Hne. eapply (NoDup_lookup (distinct input.*1)); [apply distinct_NoDup | done | done].
Qed.

(** The table represents the groups of the tuples it has consumed. *)
Lemma build_rep input : Forall fits input → Z.of_nat (length (distinct (input.*1))) <= maxInputSize →
  ∃ t0 t, open = Ok t0 ∧ rfoldM (λ t x, consume (Z.to_nat maxInputSize) t x.1 x.2) t0 input = Ok t ∧ Rep t (groups input).
Proof.
  destruct rep_open as (t0 & E0 & R0). intros Hf Hlen. exists t0.
  enough (∃ t, rfoldM (λ t x, consume (Z.to_nat maxInputSize) t x.1 x.2) t0 input = Ok t ∧ Rep t (groups input)) as (t & ? & ?)
    by (by exists t).
  revert Hf Hlen. induction input as [| x input IH] using rev_ind; intros Hf Hlen; [by exists t0 |].
  apply Forall_app in Hf as [Hf [Hx _]%Forall_cons]. rewrite rfoldM_app.
  rewrite distinct_keys in Hlen.
  destruct (decide (x.1 ∈ distinct input.*1)) as [Hin | Hnin].
  - destruct IH as (t & -> & R); [done | done |].
    pose proof Hin as Hin'. apply list_elem_of_lookup_1 in Hin' as (i & Hi).
    destruct (groups_known input x i Hx Hi) as (accs & accs' & Hg & Hu & ->). simpl.
    destruct (consume_found t (groups input) x.1 x.2 accs accs' i) as (t' & -> & R'); try done.
    + rewrite groups_keys. apply distinct_NoDup.
    + by rewrite groups_length.
    + by exists t'.
  - rewrite length_app in Hlen. simpl in Hlen.
    destruct IH as (t & -> & R); [done | lia |]. simpl. rewrite groups_new by (done || by rewrite <- distinct_elem).
    destruct (consume_new t (groups input) x.1 x.2) as (t' & -> & R'); [done | rewrite groups_length; lia | by rewrite groups_keys |].
    by exists t'.
Qed.

End table.

(** The code of an update computes what [createUpdate] does to the accumulator. *)
Lemma create_computes {F V : Type} `{FloatOps F, IRBuilder F V, !LangRef F V} (w : Z) (m : Monoid) (acc v : V) (a x : Z) :
  0 < w → m ∈ [MAX; MIN; SUM; OR; AND] → computes w acc (Ok a) → computes w v (Ok x) →
  ∃ r z, create m acc v = Ok r ∧ computes w r (Ok z) ∧ createUpdate w m (AInt a) x = Ok (AInt z).
Proof.
  intros Hw Hm Ha Hv. pose proof (proj1 Ha) as Ta. pose proof (proj1 Hv) as Tv.
  repeat (apply elem_of_cons in Hm as [-> | Hm]); [| | | | | by apply elem_of_nil in Hm]; simpl;
    unfold max_create, min_create, sum_create; rewrite ?Ta, ?Tv; eexists _, _;
    (split; [done |]); (split; [| done]).
  - apply computes_select; [| done | done]. exact (decides_cmp w SGT v acc _ _ Hw Hv Ha).
  - apply computes_select; [| done | done]. exact (decides_cmp w SLT v acc _ _ Hw Hv Ha).
  - exact (computes_bin w Add v acc _ _ Hw Hv Ha).
  - exact (computes_bin w Or v acc _ _ Hw Hv Ha).
  - exact (computes_bin w And v acc _ _ Hw Hv Ha).
Qed.

(** C15: Hash aggregation computes the groups.  If the input has at most the given number of
    different keys, the code of every tuple terminates after following at most that many
    links, the table closes, and the scan emits exactly one row for every key, in the order of
    the first tuples of the keys, with the maximum, minimum, sum (wrapped to the width of the
    value), disjunction or conjunction of the values of the tuples that have the key, or their
    list, whatever the hash of the keys and the number of buckets.  A list holds 32-bit integers:
    wider values lose their high bits, and narrower ones cannot be collected. *)
Theorem group_by_computes_groups {K : Type} `{EqDecision K} (hash : K → Z) (hash_bits maxInputSize w : Z) (aggs : list Monoid)
    (input : list (K * list Z)) :
  0 <= hash_bits < 64 → 8 * maxInputSize < 2 ^ 31 → 0 < w → (BAGUNION ∈ aggs → 32 <= w) →
  Forall (λ m, supported m = true) aggs →
  Forall (fits w aggs) input → Z.of_nat (length (distinct (input.*1))) <= maxInputSize →
  group_by hash hash_bits maxInputSize w aggs (Z.to_nat maxInputSize) input = Ok (groups w aggs input).
Proof.
  intros Hb Hm Hw Hbag Ha Hf Hl.
  destruct (build_rep hash hash_bits maxInputSize w aggs Hb Hm Hw Hbag Ha input Hf Hl) as (t0 & t & E0 & E & R).
  unfold group_by. rewrite E0. cbn [rbind]. rewrite E. cbn [rbind]. pose proof (groups_length w aggs input) as Hg.
  unfold close. rewrite (rep_cnt _ _ _ _ _ R), (proj2 (Z.leb_le _ _)) by lia. cbn [rbind]. rewrite Nat2Z.id.
  apply (scan_rep hash hash_bits maxInputSize Hm t (groups w aggs input) R ltac:(lia) _ []). done.
Qed.

(** ** An example with one bucket: the sum, maximum and bag per key *)

Definition ex_input : list (Z * list Z) :=
  [(7, [2 ^ 62; 3; 1]); (2, [5; 5; 2]); (7, [2 ^ 62; 9; 2 ^ 32 + 3]); (4, [1; 1; 4]); (2, [6; -1; 2 ^ 31])].

(** The sum wraps at 64 bits, the bag cuts the values to 32. *)
Lemma group_by_computes_groups_witness :
  group_by (λ k, k) 0 3 64 [SUM; MAX; BAGUNION] 3 ex_input =
  Ok [(7, [AInt (- 2 ^ 63); AInt 9; ABag [1; 3]]); (2, [AInt 11; AInt 5; ABag [2; - 2 ^ 31]]); (4, [AInt 1; AInt 1; ABag [4]])].
Proof.
  rewrite (group_by_computes_groups (λ k, k) 0 3 64 [SUM; MAX; BAGUNION] ex_input);
    [reflexivity | lia | lia | lia | lia | by repeat constructor | | done].
  repeat constructor; simpl; lia.
Defined.

End GroupBy.
