(* ===== verification/Atoi.v ===== *)
(** * Atoi: the integer conversion compiled into scans ([olap/lib/util/atois.cpp]).

    [atois] emits a switch over the length of a field; every case is straight-line code over
    the bytes of the field.  [buf i] is the value of the load of byte [i]. *)

From Stdlib Require Import ZArith Lia Bool.
From stdpp Require Import base numbers list.
From S2P Require Import Prelude ExprTypes LLVM Text.

Local Open Scope Z_scope.
Local Open Scope res_scope.

Module Atoi.
Import ExprTypes Text.

Section emit.
Context {F V : Type} `{FloatOps F, IRBuilder F V}.

(** A character minus ['0'] in 8 bits, sign-extended. *)
Definition digit (c : V) : V := CreateSExtOrTrunc (CreateBin Sub c (ConstInt 8 48)) 32.

Definition atoi1 (buf : Z → V) : V := digit (buf 0).

Definition atoi2 (buf : Z → V) : V :=
  let val_res0 := CreateBin Mul (ConstInt 32 10) (digit (buf 0)) in
  let val_res1 := digit (buf 1) in
  CreateBin Add val_res0 val_res1.

Definition atoi3 (buf : Z → V) : V :=
  let val_res0 := CreateBin Mul (ConstInt 32 100) (digit (buf 0)) in
  let val_res1 := CreateBin Mul (ConstInt 32 10) (digit (buf 1)) in
  let val_res2 := digit (buf 2) in
  let val_res := CreateBin Add val_res0 val_res1 in
  CreateBin Add val_res val_res2.

Definition atoi4 (buf : Z → V) : V :=
  let val_res0 := CreateBin Mul (ConstInt 32 1000) (digit (buf 0)) in
  let val_res1 := CreateBin Mul (ConstInt 32 100) (digit (buf 1)) in
  let val_res2 := CreateBin Mul (ConstInt 32 10) (digit (buf 2)) in
  let val_res3 := digit (buf 3) in
  let val_res := CreateBin Add val_res0 val_res1 in
  let val_res := CreateBin Add val_res val_res2 in
  CreateBin Add val_res val_res3.

Definition atoi5 (buf : Z → V) : V :=
  let val_res0 := CreateBin Mul (ConstInt 32 10000) (digit (buf 0)) in
  let val_res1 := CreateBin Mul (ConstInt 32 1000) (digit (buf 1)) in
  let val_res2 := CreateBin Mul (ConstInt 32 100) (digit (buf 2)) in
  let val_res3 := CreateBin Mul (ConstInt 32 10) (digit (buf 3)) in
  let val_res4 := digit (buf 4) in
  let val_res := CreateBin Add val_res0 val_res1 in
  let val_res := CreateBin Add val_res val_res2 in
  let val_res := CreateBin Add val_res val_res3 in
  CreateBin Add val_res val_res4.

Definition atoi6 (buf : Z → V) : V :=
  let val_res0 := CreateBin Mul (ConstInt 32 100000) (digit (buf 0)) in
  let val_res1 := CreateBin Mul (ConstInt 32 10000) (digit (buf 1)) in
  let val_res2 := CreateBin Mul (ConstInt 32 1000) (digit (buf 2)) in
  let val_res3 := CreateBin Mul (ConstInt 32 100) (digit (buf 3)) in
  let val_res4 := CreateBin Mul (ConstInt 32 10) (digit (buf 4)) in
  let val_res5 := digit (buf 5) in
  let val_res := CreateBin Add val_res0 val_res1 in
  let val_res := CreateBin Add val_res val_res2 in
  let val_res := CreateBin Add val_res val_res3 in
  let val_res := CreateBin Add val_res val_res4 in
  CreateBin Add val_res val_res5.

Definition atoi7 (buf : Z → V) : V :=
  let val_res0 := CreateBin Mul (ConstInt 32 1000000) (digit (buf 0)) in
  let val_res1 := CreateBin Mul (ConstInt 32 100000) (digit (buf 1)) in
  let val_res2 := CreateBin Mul (ConstInt 32 10000) (digit (buf 2)) in
  let val_res3 := CreateBin Mul (ConstInt 32 1000) (digit (buf 3)) in
  let val_res4 := CreateBin Mul (ConstInt 32 100) (digit (buf 4)) in
  let val_res5 := CreateBin Mul (ConstInt 32 10) (digit (buf 5)) in
  let val_res6 := digit (buf 6) in
  let val_res := CreateBin Add val_res0 val_res1 in
  let val_res := CreateBin Add val_res val_res2 in
  let val_res := CreateBin Add val_res val_res3 in
  let val_res := CreateBin Add val_res val_res4 in
  let val_res := CreateBin Add val_res val_res5 in
  CreateBin Add val_res val_res6.

Definition atoi8 (buf : Z → V) : V :=
  let val_res0 := CreateBin Mul (ConstInt 32 10000000) (digit (buf 0)) in
  let val_res1 := CreateBin Mul (ConstInt 32 1000000) (digit (buf 1)) in
  let val_res2 := CreateBin Mul (ConstInt 32 100000) (digit (buf 2)) in
  let val_res3 := CreateBin Mul (ConstInt 32 10000) (digit (buf 3)) in
  let val_res4 := CreateBin Mul (ConstInt 32 1000) (digit (buf 4)) in
  let val_res5 := CreateBin Mul (ConstInt 32 100) (digit (buf 5)) in
  let val_res6 := CreateBin Mul (ConstInt 32 10) (digit (buf 6)) in
  let val_res7 := digit (buf 7) in
  let val_res := CreateBin Add val_res0 val_res1 in
  let val_res := CreateBin Add val_res val_res2 in
  let val_res := CreateBin Add val_res val_res3 in
  let val_res := CreateBin Add val_res val_res4 in
  let val_res := CreateBin Add val_res val_res5 in
  let val_res := CreateBin Add val_res val_res6 in
  CreateBin Add val_res val_res7.

Definition atoi9 (buf : Z → V) : V :=
  let val_res0 := CreateBin Mul (ConstInt 32 100000000) (digit (buf 0)) in
  let val_res1 := CreateBin Mul (ConstInt 32 10000000) (digit (buf 1)) in
  let val_res2 := CreateBin Mul (ConstInt 32 1000000) (digit (buf 2)) in
  let val_res3 := CreateBin Mul (ConstInt 32 100000) (digit (buf 3)) in
  let val_res4 := CreateBin Mul (ConstInt 32 10000) (digit (buf 4)) in
  let val_res5 := CreateBin Mul (ConstInt 32 1000) (digit (buf 5)) in
  let val_res6 := CreateBin Mul (ConstInt 32 100) (digit (buf 6)) in
  let val_res7 := CreateBin Mul (ConstInt 32 10) (digit (buf 7)) in
  let val_res8 := digit (buf 8) in
  let val_res := CreateBin Add val_res0 val_res1 in
  let val_res := CreateBin Add val_res val_res2 in
  let val_res := CreateBin Add val_res val_res3 in
  let val_res := CreateBin Add val_res val_res4 in
  let val_res := CreateBin Add val_res val_res5 in
  let val_res := CreateBin Add val_res val_res6 in
  let val_res := CreateBin Add val_res val_res7 in
  CreateBin Add val_res val_res8.

Definition atoi10 (buf : Z → V) : V :=
  let val_res0 := CreateBin Mul (ConstInt 32 1000000000) (digit (buf 0)) in
  let val_res1 := CreateBin Mul (ConstInt 32 100000000) (digit (buf 1)) in
  let val_res2 := CreateBin Mul (ConstInt 32 10000000) (digit (buf 2)) in
  let val_res3 := CreateBin Mul (ConstInt 32 1000000) (digit (buf 3)) in
  let val_res4 := CreateBin Mul (ConstInt 32 100000) (digit (buf 4)) in
  let val_res5 := CreateBin Mul (ConstInt 32 10000) (digit (buf 5)) in
  let val_res6 := CreateBin Mul (ConstInt 32 1000) (digit (buf 6)) in
  let val_res7 := CreateBin Mul (ConstInt 32 100) (digit (buf 7)) in
  let val_res8 := CreateBin Mul (ConstInt 32 10) (digit (buf 8)) in
  let val_res9 := digit (buf 9) in
  let val_res := CreateBin Add val_res0 val_res1 in
  let val_res := CreateBin Add val_res val_res2 in
  let val_res := CreateBin Add val_res val_res3 in
  let val_res := CreateBin Add val_res val_res4 in
  let val_res := CreateBin Add val_res val_res5 in
  let val_res := CreateBin Add val_res val_res6 in
  let val_res := CreateBin Add val_res val_res7 in
  let val_res := CreateBin Add val_res val_res8 in
  CreateBin Add val_res val_res9.

(** The switch: a case stores its result, the default block ends the program or, outside of a
    parallel pipeline, returns from the query. *)
Inductive outcome : Type := Stored (v : V) | Trapped | Returned (code : Z).

Definition atois (parallel : bool) (buf : Z → V) (len : Z) : outcome :=
  match len with
  | 1 => Stored (atoi1 buf)
  | 2 => Stored (atoi2 buf)
  | 3 => Stored (atoi3 buf)
  | 4 => Stored (atoi4 buf)
  | 5 => Stored (atoi5 buf)
  | 6 => Stored (atoi6 buf)
  | 7 => Stored (atoi7 buf)
  | 8 => Stored (atoi8 buf)
  | 9 => Stored (atoi9 buf)
  | 10 => Stored (atoi10 buf)
  | _ => if parallel then Trapped else Returned (-1)
  end.

(** ** Correctness *)

Context `{!LangRef F V}.

Lemma swrap_swrap_add x y : swrap 32 (swrap 32 x + swrap 32 y) = swrap 32 (x + y).
Proof. unfold swrap at 1 4. by rewrite <- wrap_add, !wrap_swrap, wrap_add. Qed.

Lemma swrap_swrap_mul x y : swrap 32 (x * swrap 32 y) = swrap 32 (x * y).
Proof. unfold swrap at 1 3. by rewrite <- wrap_mul, wrap_swrap, wrap_mul. Qed.

Lemma digit_ok v c : computes 8 v (Ok c) → isdigit c = true → computes 32 (digit v) (Ok (swrap 32 (c - ZERO))).
Proof.
  intros Hv Hc%isdigit_range. unfold digit.
  assert (computes 8 (CreateBin Sub v (ConstInt 8 48)) (Ok (c - ZERO))) as Hs.
  { pose proof (computes_bin 8 Sub v (ConstInt 8 48) _ _ ltac:(lia) Hv (computes_const 8 48 ltac:(lia) ltac:(unfold in_signed; simpl; lia))) as Hb.
    simpl in Hb. rewrite swrap_id in Hb; [exact Hb | lia | unfold in_signed, ZERO in *; simpl; lia]. }
  exact (computes_sext 8 32 _ _ ltac:(lia) ltac:(lia) Hs).
Qed.

Lemma scaled_ok m v x : in_signed 32 m → computes 32 v (Ok (swrap 32 x)) →
  computes 32 (CreateBin Mul (ConstInt 32 m) v) (Ok (swrap 32 (m * x))).
Proof.
  intros Hm Hv. pose proof (computes_bin 32 Mul _ v _ _ ltac:(lia) (computes_const 32 m ltac:(lia) Hm) Hv) as Hb.
  simpl in Hb. by rewrite swrap_swrap_mul in Hb.
Qed.

Lemma added_ok a b x y : computes 32 a (Ok (swrap 32 x)) → computes 32 b (Ok (swrap 32 y)) →
  computes 32 (CreateBin Add a b) (Ok (swrap 32 (x + y))).
Proof.
  intros Ha Hb. pose proof (computes_bin 32 Add a b _ _ ltac:(lia) Ha Hb) as H'. simpl in H'. by rewrite swrap_swrap_add in H'.
Qed.

(** The bytes of a field, loaded. *)
Definition loads (buf : Z → V) (ds : str) : Prop :=
  ∀ i c, ds !! i = Some c → computes 8 (buf (Z.of_nat i)) (Ok c).

Lemma computes_eq v x y : computes 32 v (Ok (swrap 32 x)) → x = y → computes 32 v (Ok (swrap 32 y)).
Proof. by intros H' <-. Qed.

(** Names the loaded bytes, walks through the emitted sum and compares it with the value. *)
Ltac pose_loads Hl :=
  let rec go n := first [let Hn := fresh "Hb" in pose proof (Hl n _ eq_refl) as Hn; simpl in Hn; go (S n) | idtac] in go O.

Ltac emitted :=
  repeat first [apply added_ok | apply scaled_ok; [unfold in_signed; simpl; lia |] | eapply digit_ok; [eassumption | assumption]].

Ltac atoi_case Hl Hd :=
  clear - Hl Hd LangRef0; pose_loads Hl; simpl in Hd; rewrite ?andb_true_iff in Hd; destruct_and? Hd;
  eexists; split; [reflexivity |]; eapply computes_eq; [emitted | unfold value; simpl; lia].

Lemma atois_value parallel buf ds : all_digits ds = true → (1 <= length ds <= 10)%nat → loads buf ds →
  ∃ v, atois parallel buf (Z.of_nat (length ds)) = Stored v ∧ computes 32 v (Ok (swrap 32 (value ds))).
Proof.
  intros Hd Hn Hl. destruct ds as [| d0 ds]; [simpl in Hn; lia |].
  do 10 (destruct ds as [| ? ds]; [atoi_case Hl Hd |]). simpl in Hn. lia.
Qed.

Lemma atois_other parallel buf len : len < 1 ∨ 10 < len → atois parallel buf len = if parallel then Trapped else Returned (-1).
Proof.
  intros Hn. unfold atois. destruct len as [| p | p]; try done.
  do 4 (try (destruct p as [p | p |]; try lia; try done)).
Qed.

(** C39: The conversion compiled into scans reads a field of one to ten digits as the number
    they denote, wrapped to 32 bits, and traps on every other length; where the library
    routine of the same name returns a number, the compiled code computes the same one. *)
Theorem compiled_atois_reads_digits parallel buf ds : all_digits ds = true → loads buf ds →
  let n := Z.of_nat (length ds) in
  (1 <= n <= 10 → ∃ v, atois parallel buf n = Stored v ∧ computes 32 v (Ok (swrap 32 (value ds))) ∧
     ∀ z, Text.atois ds n = Ok z → computes 32 v (Ok z)) ∧
  (n < 1 ∨ 10 < n → atois parallel buf n = if parallel then Trapped else Returned (-1)).
Proof.
  intros Hd Hl n. split; [| apply atois_other]. intros Hn.
  destruct (atois_value parallel buf ds Hd ltac:(lia) Hl) as (v & E & Hv). exists v. split; [exact E |]. split; [exact Hv |].
  intros z Hz. unfold Text.atois in Hz. fold n in Hz. rewrite (proj2 (Z.leb_le 1 n)), (proj2 (Z.leb_le n 10)) in Hz by lia.
  simpl in Hz. unfold n in Hz. rewrite Nat2Z.id in Hz. rewrite <- (app_nil_r ds) in Hz at 2.
  rewrite atoi_sum_value in Hz by (done || unfold INT_MAX; lia). rewrite Z.add_0_l in Hz.
  destruct (Z.leb_spec (value ds) INT_MAX); [| done]. injection Hz as <-.
  pose proof (value_nonneg ds Hd). rewrite swrap_id in Hv; [exact Hv | lia |]. unfold in_signed, INT_MAX in *. simpl. lia.
Qed.

End emit.

(** ** An example *)

Import Interp.

(** Loads from a list of bytes. *)
Definition byte_at (buf : str) (start i : Z) : Interp.V (F := Z) :=
  int (TInt 8) (of_option Undefined (buf !! Z.to_nat (start + i))).

Lemma byte_at_ok buf start i c : buf !! Z.to_nat (start + i) = Some c → 0 <= c < 128 → computes 8 (byte_at buf start i) (Ok c).
Proof.
  intros E Hc. unfold byte_at. rewrite E. split; [done |].
  assert (den_int (F := Z) (int (TInt 8) (Ok c)) = Ok c) as Hd.
  { unfold den_int. simpl. unfold run. simpl.
    rewrite (proj2 (Z.leb_le 0 c)), (proj2 (Z.ltb_lt c _)) by lia. done. }
  simpl. rewrite Hd. rewrite (wrap_id 8 c) by lia. split; [done |]. intros s [= <-]. unfold in_signed. simpl. lia.
Qed.

Lemma compiled_atois_reads_digits_witness :
  ∃ v, atois true (byte_at [52; 50] 0) 2 = Stored v ∧ computes 32 v (Ok 42).
Proof.
  destruct (compiled_atois_reads_digits true (byte_at [52; 50] 0) [52; 50] eq_refl) as [Hv _].
  - intros i c Hi. apply byte_at_ok.
    + rewrite Z.add_0_l, Nat2Z.id. exact Hi.
    + destruct i as [| [| i]]; simplify_eq/=; lia.
  - destruct Hv as (v & E & _ & Hz); [simpl; lia |]. exists v. split; [exact E | apply (Hz 42 eq_refl)].
Defined.

End Atoi.
