(* ===== verification/Csv.v ===== *)
(** * Csv: scans over character-separated files
    ([olap/lib/plugins/csv-plugin.cpp], [csv-plugin.hpp]).

    [scanCSV] generates a loop over a mapped file.  Its position is a variable of the loop; the
    fields the query wants are converted and bound, the others are skipped, and the parent
    operator consumes the bindings of each tuple.  The loop is unrolled here: positions are
    numbers, and the bound values are the values of the emitted code.  A query over a file is
    such a scan under the filters and the reduction of [Reduce]. *)

From Stdlib Require Import ZArith Lia Bool.
From stdpp Require Import base numbers list sets strings.
From S2P Require Import Prelude ExprTypes LLVM Expressions Caching Generator GenCorrect Reduce Text Atoi.

Local Open Scope Z_scope.
Local Open Scope res_scope.

Module Csv.
Import ExprTypes Expressions Generator Text.

Definition SEMICOLON : Z := 59.
Definition PAGE : Z := 4096.

(** A mapped file: the rest of its last page reads as zeros. *)
Definition mapped (file : str) : str :=
  file ++ replicate (Z.to_nat ((- Z.of_nat (length file)) mod PAGE)) 0.

(** [mmap] refuses an empty range, so [init] throws for an empty file. *)
Definition init (file : str) : res str :=
  check negb (Nat.eqb (length file) 0) else Throw;
  Ok (mapped file).

Definition load (buf : str) (pos : Z) : res Z := of_option Undefined (buf !! Z.to_nat pos).

(** ** Moving in the file *)

Section move.
Context (buf : str) (fsize : Z).

(** A loop whose body is its condition and the step. *)
Fixpoint skipDelimLLVM (fuel : nat) (delim pos : Z) : res Z :=
  match fuel with
  | O => Err Blocked
  | S fuel =>
      do c <- load buf pos;
      let pos := pos + 1 in
      if negb (c =? delim) then skipDelimLLVM fuel delim pos else Ok pos
  end.

Definition EndCond (c pos : Z) : bool := negb (c =? SEMICOLON) && negb (c =? NL) && (pos <? fsize).

Fixpoint skipLLVM (fuel : nat) (pos : Z) : res Z :=
  match fuel with
  | O => Err Blocked
  | S fuel =>
      do c <- load buf pos;
      let next := pos + 1 in
      if EndCond c pos then skipLLVM fuel next else Ok next
  end.

Fixpoint getFieldEndLLVM (fuel : nat) (pos : Z) : res Z :=
  match fuel with
  | O => Err Blocked
  | S fuel =>
      do c <- load buf pos;
      if EndCond c pos then getFieldEndLLVM fuel (pos + 1) else Ok pos
  end.

End move.

Section plugin.
Context {F V : Type} `{FloatOps F, IRBuilder F V}.
Context (atof : str → F).

Abbreviation PV := (ProteusValue V).
Abbreviation PVM := (ProteusValueMemory (V := V)).

Record CSVPlugin : Type := mk_csv {
  fname : string;
  rec : list RecordAttribute;
  wantedFields : list RecordAttribute
}.

(** ** Fields *)

(** The bytes of a field, which the search for its end has read. *)
Definition elem (buf : str) (start i : Z) : V := ConstInt 8 (default 0 (buf !! Z.to_nat (start + i))).

Definition readAsIntLLVM (fuel : nat) (buf : str) (fsize pos : Z) : res (V * Z) :=
  do index <- getFieldEndLLVM buf fsize fuel pos;
  match Atoi.atois true (elem buf pos) (swrap 32 (index - pos)) with
  | Atoi.Stored v => Ok (v, index + 1)
  | _ => Err Fatal
  end.

Definition readAsBooleanLLVM (fuel : nat) (buf : str) (fsize pos : Z) : res (V * Z) :=
  do index <- getFieldEndLLVM buf fsize fuel pos;
  do b <- convertBoolean buf (Z.to_nat pos) (Z.to_nat index);
  Ok (ConstInt 1 (Z.b2z b), index + 1).

Definition readAsFloatLLVM (fuel : nat) (buf : str) (fsize pos : Z) : res (V * Z) :=
  do next <- skipLLVM buf fsize fuel pos;
  Ok (ConstFP (atof (drop (Z.to_nat pos) buf)), next).

(** The conversion of a type; the others are refused while the code is generated. *)
Definition reader (t : ExpressionType) : res (nat → str → Z → Z → res (V * Z)) :=
  match ExprTypes.getTypeID t with
  | BOOL => Ok readAsBooleanLLVM
  | FLOAT => Ok readAsFloatLLVM
  | INT => Ok readAsIntLLVM
  | _ => Err Throw
  end.

(** ** The scan *)

Fixpoint skip_columns (fuel : nat) (buf : str) (n : nat) (pos : Z) : res Z :=
  match n with
  | O => Ok pos
  | S n => do pos' <- skipDelimLLVM buf fuel SEMICOLON pos; skip_columns fuel buf n pos'
  end.

(** The wanted fields of a tuple, the position behind the last one, and its number. *)
Fixpoint read_fields (fuel : nat) (buf : str) (fsize : Z) (wanted : list RecordAttribute) (cur_col lastFieldNo pos : Z)
    : res (list (RecordAttribute * V) * Z * Z) :=
  match wanted with
  | [] => Ok ([], pos, lastFieldNo)
  | a :: wanted' =>
      let neededAttr := attrNo a - 1 in
      do pos1 <- skip_columns fuel buf (Z.to_nat (neededAttr - cur_col)) pos;
      do read <- reader (type a);
      do (v, pos2) <- read fuel buf fsize pos1;
      do (vs, pos3, last) <- read_fields fuel buf fsize wanted' (Z.max cur_col neededAttr + 1) (neededAttr + 1) pos2;
      Ok ((a, v) :: vs, pos3, last)
  end.

Definition oid_type : ExpressionType := Int64Type.

(** [variableBindings[a] = m] *)
Definition put (m : list (RecordAttribute * PVM)) (a : RecordAttribute) (v : V) : res (list (RecordAttribute * PVM)) :=
  StdMap.assign (λ x y, Ok (attr_lt x y)) m a (mk_mem (CreateSlot v) (ConstInt 1 0)).

(** The bindings the parent consumes: the tuple is identified by the variable of the position,
    which is behind the tuple by then. *)
Definition bind_fields (g : CSVPlugin) (pos : Z) (vs : list (RecordAttribute * V)) : res (list (RecordAttribute * PVM)) :=
  do tupleIdentifier <- RecordAttribute_oid (fname g) activeLoop oid_type;
  rfoldM (λ m x, put m x.1 x.2) [] ((tupleIdentifier, ConstInt 64 pos) :: vs).

Definition scan_tuple (fuel : nat) (g : CSVPlugin) (buf : str) (fsize pos : Z) : res (list (RecordAttribute * PVM) * Z) :=
  do (vs, pos1, lastFieldNo) <- read_fields fuel buf fsize (wantedFields g) 0 (-1) pos;
  do pos2 <- (if lastFieldNo <? Z.of_nat (length (rec g)) then skipDelimLLVM buf fuel NL pos1 else Ok pos1);
  do m <- bind_fields g pos2 vs;
  Ok (m, pos2).

Fixpoint scan_loop (fuel : nat) (g : CSVPlugin) (buf : str) (fsize pos : Z) (n : nat) : res (list (list (RecordAttribute * PVM))) :=
  if pos <? fsize then
    match n with
    | O => Err Blocked
    | S n =>
        do (m, pos') <- scan_tuple fuel g buf fsize pos;
        do ms <- scan_loop fuel g buf fsize pos' n;
        Ok (m :: ms)
    end
  else Ok [].

(** The bindings of the tuples, in order; [fuel] bounds the length of a field and the number
    of tuples. *)
Definition scanCSV (fuel : nat) (g : CSVPlugin) (file : str) : res (list (list (RecordAttribute * PVM))) :=
  do _ <- rmapM (λ a, reader (type a)) (wantedFields g);
  do buf <- init file;
  scan_loop fuel g buf (Z.of_nat (length file)) 0 fuel.

(** ** What expressions ask the plug-in for *)

(** [state[key]], by the bindings alone. *)
Definition state_of (m : list (RecordAttribute * PVM)) : env (F := F) (V := V) :=
  mk_env (λ _, Err Throw) m (λ _, Err Throw) (λ _, Err Throw) (λ _, 0).

Definition csv_readPath (g : CSVPlugin) (m : list (RecordAttribute * PVM)) (pathVar : string) : res PVM :=
  do tmpKey <- RecordAttribute_oid (fname g) pathVar oid_type;
  state_at (state_of m) tmpKey.

Definition csv_hashValue (mem_value : PVM) (t : ExpressionType) : res PV :=
  let call f := Ok (mk_pv (CreateCall f (TInt 64) [CreateLoad (mem mem_value)]) (ConstInt 1 0)) in
  match ExprTypes.getTypeID t with
  | BOOL => call "hashBoolean"
  | FLOAT => call "hashDouble"
  | INT => call "hashInt"
  | _ => Err Throw
  end.

Definition csv_hashValueEager (v : PV) (t : ExpressionType) : res PV :=
  csv_hashValue (mk_mem (CreateSlot (Expressions.value v)) (isNull v)) t.

(** The runtime function a value is printed by, and the values it is given; the dictionary of a
    string and the file name are constants. *)
Definition flushValue (mem_value : PVM) (t : ExpressionType) : res (string * list V) :=
  let val_attr := CreateLoad (mem mem_value) in
  match ExprTypes.getTypeID t with
  | BOOL => Ok ("flushBoolean", [val_attr])
  | FLOAT => Ok ("flushDouble", [val_attr])
  | INT => Ok ("flushInt", [val_attr])
  | DSTRING => Ok ("flushDString", [val_attr])
  | _ => Err Throw
  end%string.

Definition getValueSize (mem_value : PVM) (t : ExpressionType) : res Z :=
  match ExprTypes.getTypeID t with
  | BOOL | INT | FLOAT =>
      match vtype (mem mem_value) with
      | TPtr (TInt w) => Ok (w / 8)
      | TPtr TDouble => Ok 8
      | _ => Err Undefined
      end
  | _ => Err Throw
  end.

Definition csv_plugin (g : CSVPlugin) (m : list (RecordAttribute * PVM)) : Plugin (V := V) :=
  mk_plugin oid_type (λ _ _ pathVar _, csv_readPath g m pathVar) (λ mem_value _, Ok mem_value) (λ _, Err Throw)
    csv_hashValue csv_hashValueEager.

(** A tuple of the scan as its operators see it, with nothing cached. *)
Definition tuple_env (g : CSVPlugin) (m : list (RecordAttribute * PVM)) : env (F := F) (V := V) :=
  mk_env (λ r, if String.eqb r (fname g) then Ok (Some (csv_plugin g m)) else Err Throw) m
    (λ _, Ok CachingService.invalid) (λ _, Err Throw) (λ _, 0).

(** A query: filters and a reduction over a scan. *)
Definition run_query (fuel : nat) (g : CSVPlugin) (file : str) (fs : list Reduce.filter_op) (pred : expr F V)
    (aggs : list Reduce.agg_t) (s : gstate (V := V)) : res (list (RecordAttribute * V)) :=
  do ms <- scanCSV fuel g file;
  do (out, _) <- Reduce.execute fs pred aggs (tuple_env g <$> ms) s;
  Ok out.

End plugin.

(** ** Files as tables *)

(** The rows of a table, a line each. *)
Fixpoint row_text (fields : list str) : str :=
  match fields with
  | [] => []
  | f :: fields' => f ++ match fields' with [] => NL | _ => SEMICOLON end :: row_text fields'
  end.

Definition file_text (rows : list (list str)) : str := concat (row_text <$> rows).

Definition plain (f : str) : Prop := Forall (λ c, c ≠ SEMICOLON ∧ c ≠ NL) f.

#[export] Instance plain_dec f : Decision (plain f).
Proof. unfold plain. apply _. Defined.

(** ** Moving over text *)

Lemma load_at pre c post : load (pre ++ c :: post) (Z.of_nat (length pre)) = Ok c.
Proof. unfold load. by rewrite Nat2Z.id, list_lookup_middle. Qed.

Lemma skipDelim_ok d f : Forall (λ c, c ≠ d) f → ∀ fuel pre post, (length f < fuel)%nat →
  skipDelimLLVM (pre ++ f ++ d :: post) fuel d (Z.of_nat (length pre)) = Ok (Z.of_nat (length pre + length f) + 1).
Proof.
  induction 1 as [| c f Hc _ IH]; intros [| fuel] pre post Hf; simpl in Hf; try lia; cbn [skipDelimLLVM].
  - simpl app. rewrite load_at. cbn [rbind length]. rewrite Z.eqb_refl. simpl. f_equal. lia.
  - simpl app. rewrite load_at. cbn [rbind]. rewrite (proj2 (Z.eqb_neq _ _) Hc). cbn [negb].
    specialize (IH fuel (pre ++ [c]) post). rewrite <- app_assoc, length_app in IH. simpl in IH.
    replace (Z.of_nat (length pre) + 1) with (Z.of_nat (length pre + 1)) by lia. rewrite IH by lia. f_equal. simpl. lia.
Qed.

Lemma EndCond_in fsize c pos : c ≠ SEMICOLON ∧ c ≠ NL → pos < fsize → EndCond fsize c pos = true.
Proof. intros [H1 H2] H3. unfold EndCond. by rewrite (proj2 (Z.eqb_neq _ _) H1), (proj2 (Z.eqb_neq _ _) H2), (proj2 (Z.ltb_lt _ _) H3). Qed.

Lemma EndCond_out fsize c pos : c = SEMICOLON ∨ c = NL → EndCond fsize c pos = false.
Proof. intros [-> | ->]; done. Qed.

Lemma getFieldEnd_ok f d fsize : plain f → d = SEMICOLON ∨ d = NL → ∀ fuel pre post, (length f < fuel)%nat →
  Z.of_nat (length pre + length f) < fsize →
  getFieldEndLLVM (pre ++ f ++ d :: post) fsize fuel (Z.of_nat (length pre)) = Ok (Z.of_nat (length pre + length f)).
Proof.
  intros Hp Hd. induction Hp as [| c f Hc _ IH]; intros [| fuel] pre post Hf Hs; simpl in Hf; try lia; cbn [getFieldEndLLVM].
  - simpl app. rewrite load_at. cbn [rbind]. rewrite EndCond_out by done. f_equal. simpl. lia.
  - simpl app. rewrite load_at. cbn [rbind]. simpl in Hs. rewrite EndCond_in by (done || lia).
    specialize (IH fuel (pre ++ [c]) post). rewrite <- app_assoc, length_app in IH. simpl in IH.
    replace (Z.of_nat (length pre) + 1) with (Z.of_nat (length pre + 1)) by lia. rewrite IH by lia. f_equal. simpl. lia.
Qed.

Lemma skip_ok f d fsize : plain f → d = SEMICOLON ∨ d = NL → ∀ fuel pre post, (length f < fuel)%nat →
  Z.of_nat (length pre + length f) < fsize →
  skipLLVM (pre ++ f ++ d :: post) fsize fuel (Z.of_nat (length pre)) = Ok (Z.of_nat (length pre + length f) + 1).
Proof.
  intros Hp Hd. induction Hp as [| c f Hc _ IH]; intros [| fuel] pre post Hf Hs; simpl in Hf; try lia; cbn [skipLLVM].
  - simpl app. rewrite load_at. cbn [rbind]. rewrite EndCond_out by done. f_equal. simpl. lia.
  - simpl app. rewrite load_at. cbn [rbind]. simpl in Hs. rewrite EndCond_in by (done || lia).
    specialize (IH fuel (pre ++ [c]) post). rewrite <- app_assoc, length_app in IH. simpl in IH.
    replace (Z.of_nat (length pre) + 1) with (Z.of_nat (length pre + 1)) by lia. rewrite IH by lia. f_equal. simpl. lia.
Qed.

(** ** Fields *)

Lemma strncmp_eq_app n a b c : (n <= length a)%nat → strncmp_eq n (a ++ b) c = strncmp_eq n a c.
Proof.
  revert a c. induction n as [| n IH]; intros a c Hn; [done |]. destruct a as [| x a]; simpl in Hn; [lia |].
  simpl. by rewrite IH by lia.
Qed.

Lemma convertBoolean_field pre f post :
  convertBoolean (pre ++ f ++ post) (length pre) (length pre + length f) = convertBoolean f 0 (length f).
Proof.
  assert (∀ cand, compareTokenString (pre ++ f ++ post) (length pre) (length pre + length f) cand =
                  compareTokenString f 0 (length f) cand) as Hc.
  { intros cand. unfold compareTokenString. rewrite drop_app_length, Nat.sub_0_r.
    replace (length pre + length f - length pre)%nat with (length f) by lia. by rewrite strncmp_eq_app. }
  unfold convertBoolean. by rewrite !Hc.
Qed.

Import GenCorrect.

Section fields.
Context {F V : Type} `{FloatOps F, IRBuilder F V, !LangRef F V}.
Context (atof : str → F).

(** [atof] converts the beginning of a string: a delimiter ends a number. *)
Class AtofStops : Prop :=
  atof_stops : ∀ f c rest, existsb (λ x, negb (isspace x)) f = true → c = SEMICOLON ∨ c = NL → atof (f ++ c :: rest) = atof f.

Context `{!AtofStops}.

(** What a field of a type means. *)
Definition field_value (t : ExpressionType) (f : str) : option (sval F) :=
  match ExprTypes.getTypeID t with
  | INT => if all_digits f && Nat.leb 1 (length f) && Nat.leb (length f) 10 then Some (VNum (swrap 32 (Text.value f))) else None
  | BOOL => match convertBoolean f 0 (length f) with Ok b => Some (VTruth b) | Err _ => None end
  | FLOAT => if existsb (λ x, negb (isspace x)) f then Some (VFloat (atof f)) else None
  | _ => None
  end.

Lemma field_kind t f x : field_value t f = Some x → ∃ k, kind_of t = Some k ∧ k ≠ Num 64.
Proof. unfold field_value. destruct t; try done; eauto. Qed.

Lemma elem_loads pre f post : all_digits f = true → Atoi.loads (elem (F := F) (pre ++ f ++ post) (Z.of_nat (length pre))) f.
Proof.
  intros Hd i c Hi. unfold elem. replace (Z.to_nat (Z.of_nat (length pre) + Z.of_nat i)) with (length pre + i)%nat by lia.
  rewrite lookup_app_r by lia. replace (length pre + i - length pre)%nat with i by lia.
  rewrite lookup_app_l by (by eapply lookup_lt_Some). rewrite Hi. simpl. apply computes_const; [lia |].
  unfold all_digits in Hd. rewrite forallb_forall in Hd. pose proof (isdigit_range c) as Hr.
  assert (isdigit c = true) as Hc by (apply Hd, list_elem_of_In; by eapply list_elem_of_lookup_2).
  specialize (Hr Hc). unfold in_signed, ZERO in *. simpl. lia.
Qed.

(** Reading a field at its place. *)
Lemma reader_ok t f d x k : field_value t f = Some x → kind_of t = Some k → plain f → d = SEMICOLON ∨ d = NL →
  ∃ read : nat → str → Z → Z → res (V * Z), reader atof t = Ok read ∧
    ∀ fuel pre post fsize, (length f < fuel)%nat → Z.of_nat (length pre + length f) < fsize →
      ∃ v, read fuel (pre ++ f ++ d :: post) fsize (Z.of_nat (length pre)) = Ok (v, Z.of_nat (length pre + length f) + 1) ∧
        represents k v (Ok x).
Proof.
  intros Hx Hk Hp Hd. unfold reader, field_value in *. destruct t; try discriminate Hx; injection Hk as <-; cbn [ExprTypes.getTypeID] in *;
    (eexists; split; [reflexivity |]); intros fuel pre post fsize Hf Hs.
  - unfold readAsBooleanLLVM. rewrite getFieldEnd_ok by done. cbn [rbind]. rewrite !Nat2Z.id, convertBoolean_field.
    destruct (convertBoolean f 0 (length f)) as [b | e]; [| done]. injection Hx as <-. cbn [rbind].
    eexists. split; [reflexivity |]. apply (represents_truth _ (Ok b)), decides_const.
  - unfold readAsFloatLLVM. rewrite skip_ok by done. cbn [rbind]. rewrite Nat2Z.id, drop_app_length.
    destruct (existsb _ f) eqn:Ef; [| done]. injection Hx as <-. rewrite atof_stops by done.
    eexists. split; [reflexivity |]. destruct (ConstFP_ok (V := V) (atof f)) as [Ht Hden].
    apply (represents_dbl _ (Ok (atof f))); [done |]. unfold den_float. by rewrite Hden.
  - unfold readAsIntLLVM. rewrite getFieldEnd_ok by done. cbn [rbind].
    destruct (all_digits f && Nat.leb 1 (length f) && Nat.leb (length f) 10) eqn:Ef; [| done]. injection Hx as <-.
    apply andb_true_iff in Ef as [[Hall Hge%Nat.leb_le]%andb_true_iff Hle%Nat.leb_le].
    replace (Z.of_nat (length pre + length f) - Z.of_nat (length pre)) with (Z.of_nat (length f)) by lia.
    rewrite swrap_id by (unfold in_signed; simpl; lia).
    destruct (Atoi.atois_value true (elem (F := F) (pre ++ f ++ d :: post) (Z.of_nat (length pre))) f Hall ltac:(lia)
      (elem_loads pre f (d :: post) Hall)) as (v & -> & Hv).
    eexists. split; [reflexivity |]. by apply (represents_num 32 _ (Ok _)).
Qed.

(** ** Rows *)

(** The wanted columns come in the order of the file, from column [cur] on. *)
Fixpoint ascending (cur n : Z) (ws : list RecordAttribute) : Prop :=
  match ws with
  | [] => True
  | a :: ws' => cur < attrNo a <= n ∧ ascending (attrNo a) n ws'
  end.

Definition field_of (fields : list str) (a : RecordAttribute) : option str := fields !! Z.to_nat (attrNo a - 1).

(** The value of a column in a row. *)
Definition column_value (fields : list str) (a : RecordAttribute) : option (sval F) := f ← field_of fields a; field_value (type a) f.

(** A value that was read, for a wanted column. *)
Definition read_ok (fields : list str) (a : RecordAttribute) (av : RecordAttribute * V) : Prop :=
  av.1 = a ∧ ∃ x k, column_value fields a = Some x ∧ kind_of (type a) = Some k ∧ represents k av.2 (Ok x).

Lemma row_text_end l : l ≠ [] → Forall plain l → ∃ body, row_text l = body ++ [NL] ∧ Forall (λ c, c ≠ NL) body.
Proof.
  intros Hne Hp. induction Hp as [| f l Hf Hl IH]; [done |]. assert (Forall (λ c, c ≠ NL) f) as Hf' by (eapply Forall_impl; [exact Hf | by intros c [_ ?]]).
  destruct l as [| g l]; [by exists f |].
  destruct IH as (body & E & Hb); [done |]. exists (f ++ SEMICOLON :: body). split.
  - change (row_text (f :: g :: l)) with (f ++ SEMICOLON :: row_text (g :: l)). rewrite E, <- app_assoc. done.
  - apply Forall_app. split; [done |]. by constructor.
Qed.

Context (fields : list str) (post : str) (fuel : nat) (fsize : Z).
Hypothesis (Hplain : Forall plain fields) (Hfuel : (length (row_text fields) < fuel)%nat).

Lemma row_length cur : (length (row_text (drop cur fields)) <= length (row_text fields))%nat.
Proof.
  clear Hplain Hfuel. revert cur. induction fields as [| f l IH]; intros [| cur]; try done. change (drop (S cur) (f :: l)) with (drop cur l).
  specialize (IH cur). simpl. rewrite length_app. simpl. lia.
Qed.

(** The text from a column on. *)
Lemma row_text_drop cur f : fields !! cur = Some f →
  row_text (drop cur fields) = f ++ (if decide (S cur < length fields)%nat then SEMICOLON else NL) :: row_text (drop (S cur) fields).
Proof.
  intros Hc. rewrite (drop_S _ _ _ Hc). cbn [row_text]. f_equal. f_equal.
  destruct (drop (S cur) fields) as [| g l] eqn:E.
  - apply (f_equal length) in E. rewrite length_drop in E. simpl in E. by rewrite decide_False by lia.
  - apply (f_equal length) in E. rewrite length_drop in E. simpl in E. by rewrite decide_True by lia.
Qed.

Lemma field_plain cur f : fields !! cur = Some f → plain f.
Proof. intros Hc. eapply Forall_lookup_1; [exact Hplain | exact Hc]. Qed.

Lemma skip_columns_ok m : ∀ cur pre, (cur + m < length fields)%nat →
  ∃ pre', pre ++ row_text (drop cur fields) ++ post = pre' ++ row_text (drop (cur + m) fields) ++ post ∧
    skip_columns fuel (pre ++ row_text (drop cur fields) ++ post) m (Z.of_nat (length pre)) = Ok (Z.of_nat (length pre')) ∧
    pre ++ row_text (drop cur fields) = pre' ++ row_text (drop (cur + m) fields).
Proof.
  induction m as [| m IH]; intros cur pre Hc; [exists pre; by rewrite Nat.add_0_r |].
  destruct (lookup_lt_is_Some_2 fields cur ltac:(lia)) as [f Hf]. pose proof (row_length cur) as Hlen.
  rewrite (row_text_drop _ _ Hf) in Hlen |- *. rewrite decide_True in Hlen |- * by lia. rewrite length_app in Hlen. simpl in Hlen.
  destruct (IH (S cur) (pre ++ f ++ [SEMICOLON])) as (pre' & E & Hs & E'); [lia |].
  rewrite <- !app_assoc in E, Hs, E'. simpl in E, Hs, E'. replace (S (cur + m))%nat with (cur + S m)%nat in E, E' by lia.
  exists pre'. split; [by rewrite <- app_assoc |]. split; [| done].
  cbn [skip_columns]. rewrite <- app_assoc. simpl app.
  rewrite skipDelim_ok; [| eapply Forall_impl; [exact (field_plain _ _ Hf) | by intros c [? _]] | lia]. cbn [rbind].
  rewrite !length_app in Hs. simpl in Hs. replace (Z.of_nat (length pre + length f) + 1) with (Z.of_nat (length pre + (length f + 1))) by lia.
  exact Hs.
Qed.

Lemma read_fields_ok ws : ∀ cur pre last, ascending (Z.of_nat cur) (Z.of_nat (length fields)) ws →
  (cur <= length fields)%nat → Forall (λ a, is_Some (column_value fields a)) ws →
  Z.of_nat (length (pre ++ row_text (drop cur fields))) <= fsize →
  ∃ vs cur' pre',
    read_fields atof fuel (pre ++ row_text (drop cur fields) ++ post) fsize ws (Z.of_nat cur) last (Z.of_nat (length pre)) =
      Ok (vs, Z.of_nat (length pre'), match ws with [] => last | _ => Z.of_nat cur' end) ∧
    pre ++ row_text (drop cur fields) = pre' ++ row_text (drop cur' fields) ∧
    (cur' <= length fields)%nat ∧ Forall2 (read_ok fields) ws vs ∧ (ws = [] → cur' = cur).
Proof.
  induction ws as [| a ws IH]; intros cur pre last Hasc Hcur Hval Hsize.
  - exists [], cur, pre. repeat split; done || constructor.
  - destruct Hasc as [Ha Hasc]. apply Forall_cons in Hval as [[x Hx] Hval]. cbn [read_fields].
    unfold column_value in Hx. apply bind_Some in Hx as (f & Hf & Hx). unfold field_of in Hf.
    set (need := Z.to_nat (attrNo a - 1)) in *. assert (attrNo a - 1 = Z.of_nat need) as En by lia. rewrite En.
    pose proof (lookup_lt_Some _ _ _ Hf) as Hn.
    destruct (skip_columns_ok (need - cur) cur pre ltac:(lia)) as (pre1 & E1 & S1 & E1').
    replace (cur + (need - cur))%nat with need in E1, E1' by lia.
    replace (Z.to_nat (Z.of_nat need - Z.of_nat cur)) with (need - cur)%nat by lia. rewrite S1. cbn [rbind]. rewrite E1, E1' in *.
    rewrite (row_text_drop _ _ Hf), <- app_assoc in *. simpl app.
    set (d := if decide (S need < length fields)%nat then SEMICOLON else NL) in *.
    assert (d = SEMICOLON ∨ d = NL) as Hd by (unfold d; case_decide; auto).
    destruct (field_kind _ _ _ Hx) as (k & Hk & _).
    destruct (reader_ok _ _ d _ _ Hx Hk (field_plain _ _ Hf) Hd) as (read & -> & Hread). cbn [rbind].
    pose proof (row_length need) as Hlen. rewrite (row_text_drop _ _ Hf), length_app in Hlen. fold d in Hlen. simpl in Hlen.
    rewrite !length_app in Hsize. simpl in Hsize.
    destruct (Hread fuel pre1 (row_text (drop (S need) fields) ++ post) fsize) as (v & -> & Hv); [lia | lia |]. cbn [rbind].
    replace (Z.max (Z.of_nat cur) (Z.of_nat need) + 1) with (Z.of_nat (S need)) by lia.
    destruct (IH (S need) (pre1 ++ f ++ [d]) (Z.of_nat need + 1)) as (vs & cur' & pre' & Er & E2 & Hc' & Hvs & Hnil).
    { by replace (Z.of_nat (S need)) with (attrNo a) by lia. }
    { lia. }
    { done. }
    { rewrite !length_app. simpl. lia. }
    rewrite <- !app_assoc in Er, E2. simpl in Er, E2. rewrite !length_app in Er. simpl in Er.
    replace (Z.of_nat (length pre1 + (length f + 1))) with (Z.of_nat (length pre1 + length f) + 1) in Er by lia.
    rewrite Er. cbn [rbind]. exists ((a, v) :: vs), cur', pre'.
    split; [repeat f_equal; destruct ws; [rewrite Hnil by done; lia | done] |]. split; [done |]. split; [done |]. split; [| done].
    constructor; [| done]. split; [done |]. exists x, k. split; [| done]. unfold column_value, field_of. fold need. by rewrite Hf.
Qed.

(** A tuple: the bindings hold the columns, and the scan is at the next line. *)
Lemma tuple_read (g : CSVPlugin) pre : length fields = length (rec g) → fields ≠ [] →
  ascending 0 (Z.of_nat (length (rec g))) (wantedFields g) →
  Forall (λ a, is_Some (column_value fields a)) (wantedFields g) →
  Z.of_nat (length (pre ++ row_text fields)) <= fsize →
  ∃ vs, scan_tuple atof fuel g (pre ++ row_text fields ++ post) fsize (Z.of_nat (length pre)) =
      (do m <- bind_fields g (Z.of_nat (length (pre ++ row_text fields))) vs; Ok (m, Z.of_nat (length (pre ++ row_text fields)))) ∧
    Forall2 (read_ok fields) (wantedFields g) vs.
Proof.
  intros Hlen Hne Hasc Hval Hsize. rewrite <- Hlen in Hasc.
  destruct (read_fields_ok (wantedFields g) 0 pre (-1) Hasc ltac:(lia) Hval) as (vs & cur & pre1 & E & E1 & Hc & Hvs & Hnil); [by rewrite drop_0 |].
  rewrite drop_0 in E, E1. change (Z.of_nat 0) with 0 in E. exists vs. split; [| done]. unfold scan_tuple. rewrite E. cbn [rbind].
  rewrite app_assoc, E1, <- app_assoc, <- Hlen. set (last := match wantedFields g with [] => -1 | _ => Z.of_nat cur end).
  assert (last <? Z.of_nat (length fields) = Nat.ltb cur (length fields)) as ->.
  { unfold last. destruct (wantedFields g).
    - rewrite Hnil by done. destruct fields; done.
    - apply eq_true_iff_eq. rewrite Z.ltb_lt, Nat.ltb_lt. lia. }
  destruct (Nat.ltb_spec cur (length fields)) as [Hlt | Hge].
  - destruct (row_text_end (drop cur fields)) as (body & Eb & Hb).
    { intros C. apply (f_equal length) in C. rewrite length_drop in C. simpl in C. lia. }
    { by apply Forall_drop. }
    pose proof (row_length cur) as Hrl. rewrite Eb, length_app in Hrl. simpl in Hrl.
    rewrite Eb, <- app_assoc. simpl app. rewrite skipDelim_ok by (done || lia). cbn [rbind].
    replace (Z.of_nat (length pre1 + length body) + 1) with (Z.of_nat (length (pre1 ++ body ++ [NL]))) by (rewrite !length_app; simpl; lia).
    done.
  - rewrite (drop_ge fields) by lia. cbn [row_text rbind]. by rewrite app_nil_r.
Qed.

End fields.

(** ** The bindings of a tuple *)

Section bindings.
Context {F V : Type} `{FloatOps F, IRBuilder F V, !LangRef F V}.

Abbreviation PVM := (ProteusValueMemory (V := V)).
Abbreviation ordered := (StdMap.ordered (λ _ : RecordAttribute, true) attr_key CachingService.key_lt).
Abbreviation lookup := (StdMap.lookup (K := RecordAttribute) (A := PVM) attr_key).

Definition slot (v : V) : PVM := mk_mem (CreateSlot v) (ConstInt 1 0).

Lemma find_binding_lookup (E : env (F := F) (V := V)) a : find_binding E a = lookup (bindings E) (attr_key a).
Proof.
  unfold find_binding, StdMap.lookup. f_equal. induction (bindings E) as [| b l IH]; [done |]. simpl. rewrite IH.
  destruct (attr_eq b.1 a) eqn:Eb.
  - by rewrite bool_decide_eq_true_2 by (by apply attr_eq_key).
  - rewrite bool_decide_eq_false_2; [done |]. intros C%attr_eq_key. congruence.
Qed.

Lemma put_ok m a v : ordered m → ∃ m', put m a v = Ok m' ∧ ordered m' ∧
  ∀ x, lookup m' x = if bool_decide (attr_key a = x) then Some (slot v) else lookup m x.
Proof.
  intros Hm. apply (StdMap.assign_ok (λ x y, Ok (attr_lt x y)) (λ _, true) attr_key CachingService.key_lt); try done;
    [apply CachingService.key_lt_irrefl | apply CachingService.key_lt_trans | apply CachingService.key_lt_total].
Qed.

Lemma puts_ok vs : ∀ m, ordered m → NoDup (attr_key <$> vs.*1) →
  ∃ m', rfoldM (λ m x, put m x.1 x.2) m vs = Ok m' ∧
    (∀ a v, (a, v) ∈ vs → lookup m' (attr_key a) = Some (slot v)) ∧ (∀ x, x ∉ attr_key <$> vs.*1 → lookup m' x = lookup m x).
Proof.
  induction vs as [| [a v] vs IH]; intros m Hm Hnd; simpl.
  - exists m. split; [done |]. split; [by intros a v ?%elem_of_nil | done].
  - apply NoDup_cons in Hnd as [Hna Hnd]. destruct (put_ok m a v Hm) as (m1 & -> & Hm1 & L1). simpl.
    destruct (IH m1 Hm1 Hnd) as (m' & -> & Lin & Lout). exists m'. split; [done |]. split.
    + intros b u [[= -> ->] | Hin]%elem_of_cons; [| by apply Lin]. rewrite Lout, L1 by done. by rewrite bool_decide_eq_true_2.
    + intros x [Hx Hxs]%not_elem_of_cons. rewrite Lout, L1 by done. by rewrite bool_decide_eq_false_2.
Qed.

End bindings.

(** ** Queries *)

Section queries.
Context {F V : Type} `{FloatOps F, IRBuilder F V, !LangRef F V}.
Context (atof : str → F) `{!AtofStops atof}.

Abbreviation expr := (expr F V).

(** A schema the plug-in can scan. *)
Record scannable (g : CSVPlugin) : Prop := mk_scannable {
  sc_name : fname g ≠ EmptyString;
  sc_rec : rec g ≠ [];
  sc_order : ascending 0 (Z.of_nat (length (rec g))) (wantedFields g);
  sc_rel : Forall (λ a, relName a = fname g ∧ attrName a ≠ activeLoop) (wantedFields g);
  sc_keys : NoDup (attrName <$> wantedFields g)
}.

(** A row of the schema. *)
Definition row_ok (g : CSVPlugin) (fields : list str) : Prop :=
  length fields = length (rec g) ∧ Forall plain fields ∧ Forall (λ a, is_Some (column_value atof fields a)) (wantedFields g).

(** The columns of a row, as an expression projects them. *)
Definition row_columns (g : CSVPlugin) (fields : list str) (e : expr) (a : RecordAttribute) : option (res (sval F) * res bool) :=
  match e with
  | InputArgument _ _ =>
      w ← List.find (λ w, String.eqb (attrName w) (attrName a)) (wantedFields g);
      if String.eqb (originalRelName a) (fname g) && bool_decide (ExprTypes.getTypeID (type a) = ExprTypes.getTypeID (type w))
      then x ← column_value atof fields w; Some (Ok x, Ok false) else None
  | _ => None
  end.

Lemma row_columns_inv g fields e a r : row_columns g fields e a = Some r →
  ∃ args n w x, e = InputArgument args n ∧ w ∈ wantedFields g ∧ attrName w = attrName a ∧ originalRelName a = fname g ∧
    ExprTypes.getTypeID (type a) = ExprTypes.getTypeID (type w) ∧ column_value atof fields w = Some x ∧ r = (Ok x, Ok false).
Proof.
  unfold row_columns. destruct e as [| | | | | | | args n | | | | | | | | | | | | | | |]; try done.
  intros (w & Hw & Hr)%bind_Some. destruct (String.eqb_spec (originalRelName a) (fname g)); [| done].
  case_bool_decide as Ht; [| done]. simpl in Hr. apply bind_Some in Hr as (x & Hx & [= <-]).
  apply List.find_some in Hw as [Hin%list_elem_of_In Hn%String.eqb_eq]. by exists args, n, w, x.
Qed.

Lemma represents_slot k (v : V) r : represents k v r → represents k (CreateLoad (CreateSlot v)) r.
Proof.
  destruct (CreateSlot_ok v) as [Ht Hd]. pose proof (CreateLoad_ok _ _ Ht) as Htl. intros [Kr Hr]. split; [done |].
  destruct k; unfold computes, decides, den_int, den_float in *; by rewrite Htl, Hd.
Qed.

Lemma kind_of_id t t' k : ExprTypes.getTypeID t = ExprTypes.getTypeID t' → kind_of t = Some k → kind_of t' = Some k.
Proof. destruct t, t'; done. Qed.

Lemma wanted_keys g : scannable g → attr_key <$> wantedFields g = pair (fname g) <$> (attrName <$> wantedFields g).
Proof.
  intros Hg. rewrite <- list_fmap_compose. apply list_fmap_ext. intros i a Hi.
  pose proof (Forall_lookup_1 _ _ _ _ (sc_rel g Hg) Hi) as [Hr _]. unfold attr_key. by rewrite Hr.
Qed.

(** The bindings of a tuple, by name. *)
Lemma bind_ok g fields vs pos : scannable g → Forall2 (read_ok atof fields) (wantedFields g) vs →
  ∃ m, bind_fields g pos vs = Ok m ∧
    (∀ t i p o, find_binding (tuple_env (F := F) g m) (mk_attr (fname g) activeLoop o t i p) = Some (slot (ConstInt 64 pos))) ∧
    ∀ w x k, w ∈ wantedFields g → column_value atof fields w = Some x → kind_of (type w) = Some k →
      ∃ v, (∀ t i p o, find_binding (state_of (F := F) m) (mk_attr (fname g) (attrName w) o t i p) = Some (slot v)) ∧ represents k v (Ok x).
Proof.
  intros Hg Hvs. unfold bind_fields, RecordAttribute_oid. rewrite (proj2 (String.eqb_neq _ _) (sc_name g Hg)). cbn [negb rbind].
  set (tid := mk_attr (fname g) activeLoop (fname g) oid_type (-1) false).
  assert (vs.*1 = wantedFields g) as Hk.
  { clear - Hvs. induction Hvs as [| a av ws vs [Hab _] _ IH]; [done |]. rewrite fmap_cons. by f_equal. }
  destruct (puts_ok ((tid, ConstInt 64 pos) :: vs) []) as (m & -> & Lin & _).
  - split; constructor.
  - rewrite !fmap_cons, Hk, wanted_keys by done. apply NoDup_cons. split.
    + intros (n & E & (a & -> & Ha)%list_elem_of_fmap)%list_elem_of_fmap. injection E as E.
      pose proof (proj1 (Forall_forall _ _) (sc_rel g Hg) _ Ha) as [_ Hn]. by destruct Hn.
    + apply NoDup_fmap_2; [by intros ?? [= ->] | apply (sc_keys g Hg)].
  - exists m. split; [done |]. split.
    + intros t i p o. rewrite find_binding_lookup. apply (Lin tid). by left.
    + intros w x k Hw Hx Hkind. apply list_elem_of_lookup_1 in Hw as (i & Hi).
      destruct (Forall2_lookup_l _ _ _ _ _ Hvs Hi) as ([b v] & Hv & Hb & y & k' & Hy & Hk' & Hr). simpl in *. subst b.
      exists v. split; [| congruence]. intros t j p o. rewrite find_binding_lookup.
      pose proof (Forall_lookup_1 _ _ _ _ (sc_rel g Hg) Hi) as [Hrel _].
      specialize (Lin w v). unfold attr_key in *. rewrite Hrel in Lin. apply Lin. right. by eapply list_elem_of_lookup_2.
Qed.

(** The bindings promise the columns of the row to the expressions of the query. *)
Lemma row_Columns g fields vs pos m : scannable g → Forall2 (read_ok atof fields) (wantedFields g) vs → bind_fields g pos vs = Ok m →
  Columns (tuple_env g m) (row_columns g fields).
Proof.
  intros Hg Hvs Hm. destruct (bind_ok g fields vs pos Hg Hvs) as (m' & Em & Htid & Hcols).
  assert (m' = m) as -> by congruence. clear Em.
  intros e a k r (args & n & w & x & -> & Hw & Hname & Hrel & Htype & Hx & ->)%row_columns_inv Hk s.
  destruct (Hcols w x k Hw Hx (kind_of_id _ _ _ Htype Hk)) as (v & Hfind & Hv).
  pose proof (proj1 (Forall_forall _ _) (sc_rel g Hg) _ Hw) as [_ Hloop]. rewrite Hname in Hloop, Hfind.
  pose proof (sc_name g Hg) as Hne.
  eexists (mk_pv (CreateLoad (CreateSlot v)) (ConstInt 1 0)), _. split; [| split; [| split; [by apply represents_slot | apply (decides_const false)]]].
  - change (generate (tuple_env g m) (RecordProjection (InputArgument args n) a)) with
      (gen_projection (tuple_env g m) (RecordProjection (InputArgument args n) a) (InputArgument args n) (gen_argument (tuple_env g m) args) a).
    unfold gen_projection, gen_argument, bind, lift, ret, put_relation, get_relation. simpl. rewrite Hrel, String.eqb_refl. simpl.
    rewrite (proj2 (String.eqb_neq _ _) Hne). unfold oid_attr, plugin_of. simpl. rewrite String.eqb_refl. simpl.
    unfold RecordAttribute_oid. rewrite (proj2 (String.eqb_neq _ _) Hne). simpl. rewrite Htid. simpl.
    rewrite (proj2 (String.eqb_neq _ _) Hloop). unfold projectArg. simpl.
    destruct (CreateSlot_ok (ConstInt 64 pos)) as [Ht _]. rewrite (CreateLoad_ok _ _ Ht).
    rewrite (proj1 (ConstInt_ok 64 pos ltac:(lia))). simpl.
    unfold path_memory, bind, get_relation, lift. simpl. rewrite (proj2 (String.eqb_neq _ _) Hloop).
    unfold csv_readPath, RecordAttribute_oid. rewrite (proj2 (String.eqb_neq _ _) Hne). simpl. unfold state_at.
    rewrite Hfind. simpl. reflexivity.
  - done.
Qed.

Lemma row_text_nonempty (l : list str) : l ≠ [] → (1 <= length (row_text l))%nat.
Proof. destruct l; [done |]. simpl. rewrite length_app. simpl. lia. Qed.

(** What the scan gives for a row. *)
Definition scanned (g : CSVPlugin) (fields : list str) (m : list (RecordAttribute * ProteusValueMemory (V := V))) : Prop :=
  ∃ pos vs, Forall2 (read_ok atof fields) (wantedFields g) vs ∧ bind_fields g pos vs = Ok m.

Lemma scan_loop_ok g fuel pad : scannable g → ∀ rows pre n, Forall (row_ok g) rows → (length rows <= n)%nat →
  (length (file_text rows) < fuel)%nat →
  ∃ ms, scan_loop atof fuel g (pre ++ file_text rows ++ pad) (Z.of_nat (length (pre ++ file_text rows))) (Z.of_nat (length pre)) n = Ok ms ∧
    Forall2 (scanned g) rows ms.
Proof.
  intros Hg. induction rows as [| fields rows IH]; intros pre n Hrows Hn Hfuel.
  - exists []. split; [| constructor]. unfold file_text. simpl. rewrite app_nil_r. destruct n; simpl; by rewrite Z.ltb_irrefl.
  - apply Forall_cons in Hrows as [(Hlen & Hp & Hval) Hrows]. destruct n as [| n]; [simpl in Hn; lia |]. cbn [scan_loop].
    assert (fields ≠ []) as Hne by (pose proof (sc_rec g Hg); destruct fields, (rec g); done).
    pose proof (row_text_nonempty fields Hne). change (file_text (fields :: rows)) with (row_text fields ++ file_text rows) in *. rewrite length_app in Hfuel.
    rewrite (proj2 (Z.ltb_lt _ _)) by (rewrite !length_app; lia). rewrite <- (app_assoc (row_text fields)).
    destruct (tuple_read atof fields (file_text rows ++ pad) fuel
      (Z.of_nat (length (pre ++ row_text fields ++ file_text rows))) Hp ltac:(lia) g pre) as (vs & -> & Hvs);
      [done | done | apply (sc_order g Hg) | done | rewrite !length_app; lia |].
    destruct (bind_ok g fields vs (Z.of_nat (length (pre ++ row_text fields))) Hg Hvs) as (m & Em & _). rewrite Em. cbn [rbind].
    destruct (IH (pre ++ row_text fields) n Hrows ltac:(simpl in Hn; lia) ltac:(lia)) as (ms & E & Hms).
    rewrite <- !app_assoc in E. rewrite app_assoc, (app_assoc pre) in E. rewrite <- !app_assoc in E. rewrite E. cbn [rbind].
    exists (m :: ms). split; [done |]. constructor; [| done]. by exists (Z.of_nat (length (pre ++ row_text fields))), vs.
Qed.

Lemma rows_length rows g : scannable g → Forall (row_ok g) rows → (length rows <= length (file_text rows))%nat.
Proof.
  intros Hg. induction 1 as [| fields rows (Hlen & _) _ IH]; [done |].
  change (file_text (fields :: rows)) with (row_text fields ++ file_text rows). rewrite length_app. simpl.
  assert (fields ≠ []) as Hne by (pose proof (sc_rec g Hg); destruct fields, (rec g); done).
  pose proof (row_text_nonempty fields Hne). lia.
Qed.

(** The tuple a row means. *)
Definition row_tuple (g : CSVPlugin) (fields : list str) : Reduce.tuple (F := F) (V := V) :=
  Reduce.mk_tuple (tuple_env g []) (row_columns g fields).

Lemma scan_ok g rows fuel : scannable g → rows ≠ [] → Forall (row_ok g) rows → (length (file_text rows) < fuel)%nat →
  Forall (λ a, is_ok (reader (V := V) atof (type a)) = true) (wantedFields g) →
  ∃ ms, scanCSV atof fuel g (file_text rows) = Ok ms ∧ Forall2 (scanned g) rows ms.
Proof.
  intros Hg Hne Hrows Hfuel Hr. unfold scanCSV.
  destruct (Reduce.rmapM_total (λ a, reader (V := V) atof (type a)) (wantedFields g)) as (rs & ->).
  { eapply Forall_impl; [exact Hr |]. intros a Ha. cbv beta in *. destruct (reader atof (type a)) as [r | e]; [by exists r | done]. }
  cbn [rbind]. pose proof (rows_length rows g Hg Hrows). unfold init.
  destruct (Nat.eqb_spec (length (file_text rows)) 0) as [E | _]; [destruct rows; [done | simpl in *; lia] |]. cbn [negb rbind].
  apply (scan_loop_ok g fuel _ Hg rows [] fuel Hrows); lia.
Qed.

(** C8: A query over a character-separated file computes its aggregates over the table the
    file holds.  If there is a line, every line has the fields of the schema and the wanted ones are integers of
    up to ten digits, truth values or floating-point numbers, the scan terminates, reads
    nothing outside of the file, and the filters and aggregates the query compiles to give
    the values they have over the rows: each accumulator represents the aggregate of its
    expression over the rows that pass. *)
Theorem csv_query_correct g rows fuel fs pred aggs s :
  scannable g → rows ≠ [] → Forall (row_ok g) rows → (length (file_text rows) < fuel)%nat →
  Forall (λ a, is_ok (reader (V := V) atof (type a)) = true) (wantedFields g) →
  Forall Reduce.accepted aggs → Forall (λ r, Reduce.fits fs pred aggs (row_tuple g r) = true) rows →
  ∃ out, run_query atof fuel g (file_text rows) fs pred aggs s = Ok out ∧
    ∀ i a zs, aggs !! i = Some a → rmapM (λ r, Reduce.row fs pred (Reduce.agg_e a) (row_tuple g r)) rows = Ok zs →
      ∃ name acc, Reduce.agg_as a = Some name ∧ out !! i = Some (name, acc) ∧
        represents (scalar (Reduce.agg_e a)) acc
          (Ok (Reduce.aggregate (Reduce.monoid a) (scalar (Reduce.agg_e a)) (omap id zs))).
Proof.
  intros Hg Hne Hrows Hfuel Hr Ha Hfits. destruct (scan_ok g rows fuel Hg Hne Hrows Hfuel Hr) as (ms & E & Hms).
  set (ts := zip_with (λ m r, Reduce.mk_tuple (tuple_env g m) (row_columns g r)) ms rows).
  assert (Forall2 (λ r t, ∃ m, t = Reduce.mk_tuple (tuple_env g m) (row_columns g r) ∧ scanned g r m) rows ts) as Hts.
  { unfold ts. clear - Hms. induction Hms as [| r m rows ms Hm _ IH]; simpl; constructor; [by exists m | exact IH]. }
  assert (Reduce.state <$> ts = tuple_env g <$> ms) as Est.
  { unfold ts. clear - Hms. induction Hms as [| r m rows ms Hm _ IH]; [done |]. simpl. by f_equal. }
  destruct (Reduce.reduce_aggregates fs pred aggs ts s Ha) as (out & s' & Eo & Hout).
  { clear - Hts Hfits Hg LangRef0 AtofStops0. induction Hts as [| r t rows ts (m & -> & pos & vs & Hvs & Hm) _ IH]; [constructor |].
    apply Forall_cons in Hfits as [Hf Hfits]. constructor; [| by apply IH]. split; [by eapply row_Columns | exact Hf]. }
  exists out. unfold run_query. rewrite E. cbn [rbind]. rewrite <- Est, Eo. split; [done |].
  intros i a zs Hi Hz. apply (Hout i a zs Hi). rewrite <- Hz. apply rmapM_ext. clear - Hts.
  induction Hts as [| r t rows ts (m & -> & _) _ IH]; [constructor |]. constructor; [by apply Reduce.row_cols | exact IH].
Qed.

End queries.

(** ** An example: [SELECT SUM(x), MAX(x), COUNT( * ) FROM t WHERE b AND x < 10] *)

Import Interp.

Definition ex_atof (f : str) : Z := (parse_digits 0 f).1.

#[export] Instance ex_atof_stops : AtofStops ex_atof.
Proof.
  intros f c rest _ Hc. unfold ex_atof. generalize 0. induction f as [| x f IH]; intros acc; simpl.
  - by destruct Hc as [-> | ->].
  - destruct (isdigit x); [| done]. specialize (IH (acc * 10 + (x - ZERO))).
    destruct (parse_digits _ (f ++ c :: rest)), (parse_digits _ f). exact IH.
Qed.

Definition ex_attr (n : string) (t : ExpressionType) (i : Z) : RecordAttribute := mk_attr "t" n "t" t i false.

Definition ex_csv : CSVPlugin :=
  mk_csv "t" [ex_attr "x" IntType 1; ex_attr "y" FloatType 2; ex_attr "b" BoolType 3; ex_attr "z" StringType 4]
    [ex_attr "x" IntType 1; ex_attr "b" BoolType 3].

(** [3;1;true;u], [5;;false;], [8;2;1;v] and [12;7;TRUE;] *)
Definition ex_rows : list (list str) :=
  [[[51]; [49]; s_true; [117]]; [[53]; []; s_false; []]; [[56]; [50]; s_1; [118]]; [[49; 50]; [55]; s_TRUE; []]].

Definition ex_b : expr Z IV := RecordProjection (InputArgument [] 0) (ex_attr "b" BoolType 3).

Lemma csv_query_correct_witness :
  ∃ out, run_query ex_atof 100 ex_csv (file_text ex_rows) [Reduce.Select ex_b] (Binary OpLT ex_x (IntConstant 10)) Reduce.ex_aggs ex_state = Ok out ∧
    (∃ acc : IV, out !! 0%nat = Some (Reduce.ex_name "s" IntType, acc) ∧ represents (F := Z) (Num 32) acc (Ok (VNum 11))) ∧
    (∃ acc : IV, out !! 1%nat = Some (Reduce.ex_name "m" IntType, acc) ∧ represents (F := Z) (Num 32) acc (Ok (VNum 8))) ∧
    (∃ acc : IV, out !! 2%nat = Some (Reduce.ex_name "n" Int64Type, acc) ∧ represents (F := Z) (Num 64) acc (Ok (VNum 2))).
Proof.
  destruct (csv_query_correct ex_atof ex_csv ex_rows 100 [Reduce.Select ex_b] (Binary OpLT ex_x (IntConstant 10)) Reduce.ex_aggs ex_state) as (out & E & Hout).
  - split; [done | done | cbn; lia | by repeat (apply Forall_cons_2; [done |]) | by apply (bool_decide_unpack _)].
  - done.
  - repeat (apply Forall_cons_2; [split; [done |]; split; [apply (bool_decide_unpack _); vm_compute; done | repeat (apply Forall_cons_2; [by eexists |]); done] |]); done.
  - vm_compute. lia.
  - repeat constructor.
  - repeat constructor; by eexists.
  - repeat constructor.
  - exists out. split; [exact E |]. split; [| split].
    + destruct (Hout 0%nat _ [Some (VNum 3); None; Some (VNum 8); None] eq_refl eq_refl) as (n & acc & [= <-] & Ho & Hr).
      exists acc. split; [exact Ho | exact Hr].
    + destruct (Hout 1%nat _ [Some (VNum 3); None; Some (VNum 8); None] eq_refl eq_refl) as (n & acc & [= <-] & Ho & Hr).
      exists acc. split; [exact Ho | exact Hr].
    + destruct (Hout 2%nat _ [Some (VNum 1); None; Some (VNum 1); None] eq_refl eq_refl) as (n & acc & [= <-] & Ho & Hr).
      exists acc. split; [exact Ho | exact Hr].
Defined.

End Csv.
