(* ===== verification/ExprParser.v ===== *)
(** * ExprParser: plans' expressions, read from JSON
    ([ExpressionParser] in [olap/lib/plan/expression-parser.cpp], [CatalogParser] in
    [olap/plan/catalog-parser.hpp] and [plan-parser.cpp], [expression_t::operator[]] in
    [expressions.hpp]).

    The planner hands a physical plan over as JSON; [parseExpression] builds the expressions of
    its operators.  An expression can be registered as an attribute of a relation, which is
    added to the catalog.  RapidJSON's values are the type [json]; its accessors assert what
    the values are. *)

From Stdlib Require Import ZArith Lia Bool.
From stdpp Require Import base numbers list strings gmap.
From S2P Require Import Prelude ExprTypes LLVM Expressions Text Dictionary.

Local Open Scope Z_scope.
Local Open Scope res_scope.

Module ExprParser.
Import ExprTypes Expressions.

(** ** JSON values *)

Section json.
Context {F : Type}.

(** A number without a fraction is an integer. *)
Inductive json : Type :=
  | JNull
  | JBool (b : bool)
  | JInt (z : Z)
  | JDouble (f : F)
  | JString (s : string)
  | JArray (l : list json)
  | JObject (l : list (string * json)).

Definition member (k : string) (l : list (string * json)) : option json :=
  snd <$> List.find (λ x, String.eqb x.1 k) l.

Definition IsObject (v : json) : bool := match v with JObject _ => true | _ => false end.
Definition IsString (v : json) : bool := match v with JString _ => true | _ => false end.
Definition IsInt (v : json) : bool := match v with JInt z => (- 2 ^ 31 <=? z) && (z <? 2 ^ 31) | _ => false end.
Definition IsInt64 (v : json) : bool := match v with JInt z => (- 2 ^ 63 <=? z) && (z <? 2 ^ 63) | _ => false end.

Definition HasMember (v : json) (k : string) : res bool :=
  match v with JObject l => Ok (bool_decide (is_Some (member k l))) | _ => Err AssertFailed end.

(** [val[k]] *)
Definition at_key (v : json) (k : string) : res json :=
  match v with JObject l => of_option AssertFailed (member k l) | _ => Err AssertFailed end.

Definition GetString (v : json) : res string := match v with JString s => Ok s | _ => Err AssertFailed end.
Definition GetBool (v : json) : res bool := match v with JBool b => Ok b | _ => Err AssertFailed end.
Definition GetInt (v : json) : res Z := match v with JInt z => if IsInt v then Ok z else Err AssertFailed | _ => Err AssertFailed end.
Definition GetInt64 (v : json) : res Z := match v with JInt z => if IsInt64 v then Ok z else Err AssertFailed | _ => Err AssertFailed end.
Definition GetUint64 (v : json) : res Z :=
  match v with JInt z => if (0 <=? z) && (z <? 2 ^ 64) then Ok z else Err AssertFailed | _ => Err AssertFailed end.
Definition GetDouble (v : json) : res F := match v with JDouble f => Ok f | _ => Err AssertFailed end.
Definition GetArray (v : json) : res (list json) := match v with JArray l => Ok l | _ => Err AssertFailed end.

End json.
#[global] Arguments json : clear implicits.

(** The bytes of a string. *)
Definition bytes (s : string) : Text.str := (λ c, Z.of_N (Ascii.N_of_ascii c)) <$> String.list_ascii_of_string s.

(** ** The catalog of inputs *)

(** The type of each known input.  (The path and the type of identifiers are not used here.) *)
Abbreviation catalog := (gmap string ExpressionType).

(** What a parser does to the catalog. *)
Definition P (A : Type) : Type := catalog → res (A * catalog).
Definition ret {A} (a : A) : P A := λ c, Ok (a, c).
Definition bind {A B} (m : P A) (f : A → P B) : P B := λ c, do (a, c') <- m c; f a c'.
Definition lift {A} (r : res A) : P A := λ c, do a <- r; Ok (a, c).
Definition assert (b : bool) : P unit := lift (check b else AssertFailed; Ok tt).
Definition fail {A} (e : error) : P A := λ _, Err e.

Notation "'let!' x := m 'in' k" := (bind m (λ x, k))
  (at level 200, x pattern, m at level 100, k at level 200).

Fixpoint pmapM {A B} (f : A → P B) (l : list A) : P (list B) :=
  match l with
  | [] => ret []
  | x :: l' => let! y := f x in let! ys := pmapM f l' in ret (y :: ys)
  end.

Definition getInputInfoIfKnown (r : string) : P (option ExpressionType) := λ c, Ok (c !! r, c).

Definition setInputInfo (r : string) (t : ExpressionType) : P unit := λ c, Ok (tt, <[r := t]> c).

(** [ctx]: whether the catalog has a context to register new relations with. *)
Definition getOrCreateInputInfo (ctx : bool) (r : string) : P ExpressionType :=
  let! known := getInputInfoIfKnown r in
  match known with
  | Some t => ret t
  | None =>
      let! _ := assert ctx in
      let t := BagType (RecordType []) in
      let! _ := setInputInfo r t in ret t
  end.

(** The collections. *)
Definition nested (t : ExpressionType) : option ExpressionType :=
  match t with BlockType t | ListType t | BagType t | SetType t | IndexedSeq t => Some t | _ => None end.

Definition getRecordType (ctx : bool) (relName : string) (createIfNeeded : bool) : P (option (list RecordAttribute)) :=
  let! info := (if createIfNeeded then let! t := getOrCreateInputInfo ctx relName in ret (Some t) else getInputInfoIfKnown relName) in
  match info with
  | None => ret None
  | Some t =>
      match nested t with
      | None => fail Throw
      | Some (RecordType args) => ret (Some args)
      | Some _ => fail Throw
      end
  end.

Definition getAttribute (ctx : bool) (relName attrName : string) (createIfNeeded : bool) : P (option RecordAttribute) :=
  let! r := getRecordType ctx relName createIfNeeded in
  ret (args ← r; getArg args attrName).

(** ** Types *)

Section parser.
Context {F V : Type} `{FloatOps F, IRBuilder F V}.
Context (ctx : bool) (arg : list RecordAttribute) (argNo : Z).
Context (UndefValue : llvm_type → V) (dateToTimestamp : string → Z).
Context (read_file : string → Text.str) (parse_file : string → res (json F)).

Abbreviation expr := (expr F V).
Abbreviation json := (json F).

(** The first attribute of the input argument. *)
Definition front_relation : res string := match arg with a :: _ => Ok (relName a) | [] => Err Undefined end.

Section record_attr.
Context (parse_type : json → P ExpressionType).

Definition parseRecordAttr_in (val : json) (relName : string) (defaultType : option ExpressionType) (defaultAttrNo : Z) : P RecordAttribute :=
  let! _ := assert (IsObject val) in
  let! hasRel := lift (HasMember val "relName") in
  let! relName := lift (if hasRel : bool then do v <- at_key val "relName"; GetString v else Ok relName) in
  let! attrName := lift (do v <- at_key val "attrName"; GetString v) in
  let! attr := getAttribute ctx relName attrName false in
  let! hasNo := lift (HasMember val "attrNo") in
  let! no := lift (if hasNo : bool then do v <- at_key val "attrNo"; GetInt v
                   else Ok (match attr with Some a => attrNo a | None => defaultAttrNo end)) in
  let! hasType := lift (HasMember val "type") in
  let! recArgType :=
    (if hasType : bool then
       let! v := lift (at_key val "type") in let! _ := assert (IsObject v) in let! t := parse_type v in ret (inl t)
     else
       match attr, defaultType with
       | Some a, _ => ret (inl (type a))
       | None, Some t => ret (inl t)
       | None, None => let! a := lift (of_option AssertFailed (getArg arg attrName)) in ret (inr a)
       end) in
  match recArgType with
  | inr a => ret a
  | inl t =>
      let! hasBlock := lift (HasMember val "isBlock") in
      let! is_block := lift (if hasBlock : bool then do v <- at_key val "isBlock"; GetBool v else Ok false) in
      lift (RecordAttribute_no no relName attrName t is_block)
  end.

Definition parseRecordAttr (val : json) (defaultType : option ExpressionType) (defaultAttrNo : Z) : P RecordAttribute :=
  let! hasRel := lift (HasMember val "relName") in
  let! relName := lift (if hasRel : bool then do v <- at_key val "relName"; GetString v else front_relation) in
  parseRecordAttr_in val relName defaultType defaultAttrNo.

End record_attr.

Fixpoint parseExpressionType (fuel : nat) (val : json) : P ExpressionType :=
  match fuel with
  | O => fail Blocked
  | S fuel =>
      let! valExprType := lift (do v <- at_key val "type"; GetString v) in
      let inner := let! v := lift (at_key val "inner") in let! _ := assert (IsObject v) in parseExpressionType fuel v in
      if String.eqb valExprType "bool" then ret BoolType
      else if String.eqb valExprType "int" then ret IntType
      else if String.eqb valExprType "int64" then ret Int64Type
      else if String.eqb valExprType "float" then ret FloatType
      else if String.eqb valExprType "date" then ret DateType
      else if String.eqb valExprType "datetime" then ret DateType
      else if String.eqb valExprType "string" then ret StringType
      else if String.eqb valExprType "dstring" then ret (DStringType None)
      else if String.eqb valExprType "set" then let! t := inner in ret (SetType t)
      else if String.eqb valExprType "bag" then let! t := inner in ret (BagType t)
      else if String.eqb valExprType "list" then let! t := inner in ret (ListType t)
      else if String.eqb valExprType "record" then
        let! hasAttrs := lift (HasMember val "attributes") in
        if hasAttrs : bool then
          let! l := lift (do v <- at_key val "attributes"; GetArray v) in
          let! atts := pmapM (λ a, parseRecordAttr (parseExpressionType fuel) a None (-1)) l in
          ret (RecordType atts)
        else
          let! hasRel := lift (HasMember val "relName") in
          if hasRel : bool then
            let! r := lift (do v <- at_key val "relName"; GetString v) in
            let! t := getRecordType ctx r true in
            let! args := lift (of_option Undefined t) in
            ret (RecordType args)
          else ret (RecordType [])
      else fail Throw
  end.

(** ** Names of the plan *)

Definition parseUnitRange (range : string) : res extract_unit :=
  if String.eqb range "YEAR" then Ok YEAR
  else if String.eqb range "MONTH" then Ok MONTH
  else if String.eqb range "DAY" then Ok DAYOFMONTH
  else if String.eqb range "HOUR" then Ok HOUR
  else if String.eqb range "MINUTE" then Ok MINUTE
  else if String.eqb range "SECOND" then Ok SECOND
  else if String.eqb range "QUARTER" then Ok QUARTER
  else if String.eqb range "WEEK" then Ok WEEK
  else if String.eqb range "MILLISECOND" then Ok MILLISECOND
  else if String.eqb range "DOW" then Ok DAYOFWEEK
  else if String.eqb range "DOY" then Ok DAYOFYEAR
  else if String.eqb range "DECADE" then Ok DECADE
  else if String.eqb range "CENTURY" then Ok CENTURY
  else if String.eqb range "MILLENNIUM" then Ok MILLENNIUM
  else Err Throw.

Definition parseAccumulator (acc : string) : res Monoid :=
  if String.eqb acc "sum" then Ok SUM
  else if String.eqb acc "max" then Ok MAX
  else if String.eqb acc "min" then Ok MIN
  else if String.eqb acc "multiply" then Ok MULTIPLY
  else if String.eqb acc "or" then Ok OR
  else if String.eqb acc "and" then Ok AND
  else if String.eqb acc "union" then Ok UNION
  else if String.eqb acc "bagunion" then Ok BAGUNION
  else if String.eqb acc "append" then Ok APPEND
  else Err Throw.

(** The binary expressions. *)
Definition binary_of (s : string) : option opID :=
  if String.eqb s "eq" then Some OpEQ
  else if String.eqb s "neq" then Some OpNEQ
  else if String.eqb s "lt" then Some OpLT
  else if String.eqb s "le" then Some OpLE
  else if String.eqb s "gt" then Some OpGT
  else if String.eqb s "ge" then Some OpGE
  else if String.eqb s "and" then Some OpAND
  else if String.eqb s "or" then Some OpOR
  else if String.eqb s "add" then Some OpADD
  else if String.eqb s "sub" then Some OpSUB
  else if String.eqb s "mod" then Some OpMOD
  else if String.eqb s "multiply" then Some OpMULT
  else if String.eqb s "div" then Some OpDIV
  else None.

(** ** Projections *)

(** [expr[proj]]: the attribute of that name, one of the same name and relation if there are
    several, [$i], or an attribute of a nested record. *)
Fixpoint project_in (t : ExpressionType) (e : expr) (proj : RecordAttribute) : res expr :=
  match t with
  | RecordType args =>
      match getArg args (attrName proj) with
      | Some p =>
          if String.eqb (relName p) (relName proj) then Ok (RecordProjection e p)
          else
            match List.find (λ p2, attr_eq p2 proj) args with
            | Some p2 => Ok (RecordProjection e p2)
            | None =>
                check Nat.eqb (length (filter (λ p2, attrName p2 = attrName proj) args)) 1 else AssertFailed;
                Ok (RecordProjection e p)
            end
      | None =>
          do dollar <-
            match attrName proj with
            | String c n =>
                if Ascii.eqb c (Ascii.ascii_of_nat 36) then
                  match Text.stoi (bytes n) with
                  | Ok (i, _) => Ok (if (0 <=? i) && (i <? Z.of_nat (length args)) then args !! Z.to_nat i else None)
                  | Err Throw => Ok None
                  | Err e => Err e
                  end
                else Ok None
            | EmptyString => Ok None
            end;
          match dollar with
          | Some p => Ok (RecordProjection e p)
          | None =>
              (fix go (l : list RecordAttribute) : res expr :=
                 match l with
                 | [] => if String.eqb (attrName proj) "activeTuple" then Ok (RecordProjection e proj) else Err Throw
                 | a :: l' =>
                     match type a with
                     | RecordType _ =>
                         match project_in (type a) (RecordProjection e a) proj with
                         | Err Throw => go l'
                         | r => r
                         end
                     | _ => go l'
                     end
                 end) args
          end
      end
  | _ => Err AssertFailed
  end.

Definition project (e : expr) (proj : RecordAttribute) : res expr := project_in (getExpressionType e) e proj.

(** ** Expressions *)

Definition ends_with (s suffix : string) : bool :=
  let n := String.length s in let m := String.length suffix in
  (m <=? n)%nat && String.eqb (String.substring (n - m) m s) suffix.

(** The code of a string, from a dictionary file of lines or of JSON; -1 if it has none. *)
Definition lookupInDictionary (s : string) (val : json) : res Z :=
  check IsObject val else AssertFailed;
  do path <- (do v <- at_key val "path"; GetString v);
  if ends_with path ".dict" then Dictionary.lookupInDictionary (bytes s) (read_file path)
  else
    do document <- parse_file path;
    do known <- HasMember document s;
    if known : bool then do v <- at_key document s; GetInt v else Ok (-1).

Definition createNull (t : ExpressionType) : res expr :=
  do l <- getLLVMType t;
  Ok (ProteusValueExpression t (mk_pv (UndefValue l) (ConstInt 1 1))).

(** A constant: the null of its type, or the value. *)
Definition constant (isNull : bool) (t : ExpressionType) (val : json) (k : json → res expr) : res expr :=
  if isNull then createNull t else do v <- at_key val "v"; k v.

Definition date_constant (v : json) : res expr :=
  if IsInt64 v then do z <- GetInt64 v; Ok (DateConstant z)
  else do s <- GetString v; Ok (DateConstant (dateToTimestamp s)).

(** The constants by name; a dictionary-encoded string becomes its code. *)
Definition parse_constant (kind : string) (isNull : bool) (val : json) : option (res expr) :=
  if String.eqb kind "bool" then Some (constant isNull BoolType val (λ v, do b <- GetBool v; Ok (BoolConstant b)))
  else if String.eqb kind "int" then Some (constant isNull IntType val (λ v, do z <- GetInt v; Ok (IntConstant z)))
  else if String.eqb kind "int64" then Some (constant isNull Int64Type val (λ v, do z <- GetInt64 v; Ok (Int64Constant z)))
  else if String.eqb kind "float" then Some (constant isNull FloatType val (λ v, do f <- GetDouble v; Ok (FloatConstant f)))
  else if String.eqb kind "date" then Some (constant isNull DateType val date_constant)
  else if String.eqb kind "datetime" then Some (constant isNull DateType val date_constant)
  else if String.eqb kind "string" then Some (constant isNull StringType val (λ v, do s <- GetString v; Ok (StringConstant s)))
  else if String.eqb kind "dstring" then
    Some (constant isNull (DStringType None) val (λ v,
      if IsInt v then do z <- GetInt v; Ok (IntConstant z)
      else do s <- GetString v; do d <- at_key val "dict"; do z <- lookupInDictionary s d; Ok (IntConstant z)))
  else None.

(** [parseExpressionWithoutRegistering], with the parsers of parts. *)
Definition parse_body (parse : json → P (expr * option RecordAttribute)) (parse_type : json → P ExpressionType) (val : json) : P expr :=
  let sub k := let! v := lift (at_key val k) in let! (e, _) := parse v in ret e in
  let! kind := lift (do v <- at_key val "expression"; GetString v) in
  let! hasNull := lift (HasMember val "isNull") in
  let! isNull := lift (if hasNull : bool then do v <- at_key val "isNull"; GetBool v else Ok false) in
  match parse_constant kind isNull val with
  | Some r => lift r
  | None =>
      if String.eqb kind "argument" then ret (InputArgument arg argNo)
      else if String.eqb kind "recordProjection" then
        let! _ := assert (negb isNull) in
        let! e := sub "e" in
        let! a := lift (at_key val "attribute") in
        if IsObject a then let! p := parseRecordAttr parse_type a None (-1) in lift (project e p)
        else
          let! attrName := lift (GetString a) in
          let! p := lift (match getExpressionType e with
                          | RecordType args => of_option AssertFailed (getArg args attrName)
                          | _ => Err Throw
                          end) in
          lift (project e p)
      else if String.eqb kind "recordConstruction" then
        let! _ := assert (negb isNull) in
        let! l := lift (do v <- at_key val "attributes"; GetArray v) in
        let! atts := pmapM (λ a, let! n := lift (do v <- at_key a "name"; GetString v) in
                                 let! v := lift (at_key a "e") in
                                 let! (e, _) := parse v in ret (n, e)) l in
        ret (RecordConstruction atts)
      else if String.eqb kind "extract" then
        let! range := lift (do v <- at_key val "unitrange"; GetString v) in
        let! e := sub "e" in
        let! u := lift (parseUnitRange range) in
        lift (make_ExtractExpression e u)
      else if String.eqb kind "if" then
        let! _ := assert (negb isNull) in
        let! c := sub "cond" in let! t := sub "then" in let! f := sub "else" in
        lift (make_IfThenElse c t f)
      else
        match binary_of kind with
        | Some op =>
            let! _ := assert (negb isNull) in
            let! l := sub "left" in let! r := sub "right" in ret (Binary op l r)
        | None =>
            if String.eqb kind "neg" then let! _ := assert (negb isNull) in let! e := sub "e" in ret (NegExpression e)
            else if String.eqb kind "is_not_null" then
              let! _ := assert (negb isNull) in let! e := sub "e" in ret (TestNullExpression e false)
            else if String.eqb kind "is_null" then
              let! _ := assert (negb isNull) in let! e := sub "e" in ret (TestNullExpression e true)
            else if String.eqb kind "cast" then
              let! _ := assert (negb isNull) in
              let! e := sub "e" in
              let! v := lift (at_key val "type") in
              let! t := parse_type v in ret (CastExpression t e)
            else if String.eqb kind "placeholder" then
              let! index := lift (do v <- at_key val "index"; GetUint64 v) in
              let! v := lift (at_key val "type") in
              let! t := parse_type v in ret (PlaceholderExpression t index)
            else if String.eqb kind "merge" then let! _ := assert (negb isNull) in fail Throw
            else fail Throw
        end
  end.

(** The registration of an expression: its attribute joins its relation. *)
Definition register (parse_type : json → P ExpressionType) (val : json) (e : expr) : P (expr * option RecordAttribute) :=
  let! reg := lift (HasMember val "register_as") in
  if reg : bool then
    let! v := lift (at_key val "register_as") in
    let! _ := assert (IsObject v) in
    let! reg_as := parseRecordAttr parse_type v (Some (getExpressionType e)) (-1) in
    let! info := getOrCreateInputInfo ctx (relName reg_as) in
    let! args := lift (match nested info with
                       | None => Err Undefined
                       | Some (RecordType args) => Ok args
                       | Some _ => Err Throw
                       end) in
    let! _ := setInputInfo (relName reg_as) (BagType (RecordType (appendAttribute args reg_as))) in
    ret (e, Some reg_as)
  else ret (e, None).

(** The expression and the attribute it is registered as. *)
Fixpoint parseExpression (fuel : nat) (val : json) : P (expr * option RecordAttribute) :=
  match fuel with
  | O => fail Blocked
  | S fuel =>
      let! _ := assert (IsObject val) in
      let! e := parse_body (parseExpression fuel) (parseExpressionType fuel) val in
      register (parseExpressionType fuel) val e
  end.

(** ** Plans, written *)

Definition unblock (t : ExpressionType) : ExpressionType := match t with BlockType t => t | t => t end.
Definition is_block (t : ExpressionType) : bool := match t with BlockType _ => true | _ => false end.

Fixpoint type_json (t : ExpressionType) : json :=
  let named (n : string) (l : list (string * json)) := JObject (("type", JString n) :: l)%string in
  match t with
  | BoolType => named "bool" [] | IntType => named "int" [] | Int64Type => named "int64" [] | FloatType => named "float" []
  | DateType => named "date" [] | StringType => named "string" [] | DStringType _ => named "dstring" []
  | SetType t => named "set" [("inner", type_json t)]
  | BagType t => named "bag" [("inner", type_json t)]
  | ListType t => named "list" [("inner", type_json t)]
  | RecordType args =>
      named "record" [("attributes", JArray (map (λ a : RecordAttribute,
        JObject [("relName", JString (relName a)); ("attrName", JString (attrName a)); ("attrNo", JInt (attrNo a));
                 ("type", match type a with BlockType t => type_json t | _ => type_json (type a) end);
                 ("isBlock", JBool (is_block (type a)))]) args))]
  | BlockType _ | IndexedSeq _ => JNull
  end%string.

Definition attr_json (a : RecordAttribute) : json :=
  JObject [("relName", JString (relName a)); ("attrName", JString (attrName a)); ("attrNo", JInt (attrNo a));
           ("type", type_json (unblock (type a))); ("isBlock", JBool (is_block (type a)))]%string.

(** The types and attributes that can be written. *)
Fixpoint typable (t : ExpressionType) : Prop :=
  match t with
  | BoolType | IntType | Int64Type | FloatType | DateType | StringType => True
  | DStringType d => d = None
  | SetType t | BagType t | ListType t => typable t
  | RecordType args =>
      (fix go (l : list RecordAttribute) : Prop :=
         match l with
         | [] => True
         | a :: l' =>
             (relName a ≠ "" ∧ originalRelName a = relName a ∧ projected a = false ∧ in_signed 32 (attrNo a) ∧
              match type a with BlockType t => typable t | _ => typable (type a) end) ∧ go l'
         end) args
  | BlockType _ | IndexedSeq _ => False
  end.

Definition attr_ok (a : RecordAttribute) : Prop :=
  relName a ≠ "" ∧ originalRelName a = relName a ∧ projected a = false ∧ in_signed 32 (attrNo a) ∧ typable (unblock (type a)).

Lemma typable_record args : typable (RecordType args) ↔ Forall attr_ok args.
Proof.
  cbn [typable]. induction args as [| a l IH]; [by split; [constructor |] |].
  rewrite Forall_cons, <- IH. unfold attr_ok. destruct (type a); done.
Qed.

Lemma type_json_record args : type_json (RecordType args) = JObject [("type", JString "record"); ("attributes", JArray (map attr_json args))]%string.
Proof.
  cbn [type_json]. do 5 f_equal. apply map_ext. intros a. unfold attr_json. by destruct (type a).
Qed.

(** The size of a type. *)
Fixpoint tsize (t : ExpressionType) : nat :=
  match t with
  | BlockType t | ListType t | BagType t | SetType t | IndexedSeq t => S (tsize t)
  | RecordType args => S (sum_list_with (λ a, tsize (type a)) args)
  | _ => 1
  end.

(** Every relation of the catalog is a collection of records. *)
Definition wf_catalog (c : catalog) : Prop := ∀ r t, c !! r = Some t → ∃ args, nested t = Some (RecordType args).

Lemma getAttribute_ok c r n : wf_catalog c → ∃ o, getAttribute ctx r n false c = Ok (o, c).
Proof.
  intros Hc. unfold getAttribute, getRecordType, getInputInfoIfKnown, bind, ret. simpl.
  destruct (c !! r) as [t |] eqn:E; simpl; [| by eexists]. destruct (Hc r t E) as (args & ->). simpl. by eexists.
Qed.

Lemma GetInt_ok z : in_signed 32 z → GetInt (F := F) (JInt z) = Ok z.
Proof. unfold in_signed, GetInt, IsInt. simpl. intros Hz. by rewrite (proj2 (Z.leb_le _ _)), (proj2 (Z.ltb_lt _ _)) by lia. Qed.

Lemma parseRecordAttr_ok pt a dt dn c : wf_catalog c → attr_ok a → pt (type_json (unblock (type a))) c = Ok (unblock (type a), c) →
  parseRecordAttr pt (attr_json a) dt dn c = Ok (a, c).
Proof.
  intros Hc (Hr & Ho & Hp & Hn & Ht) Hpt. unfold parseRecordAttr, parseRecordAttr_in, attr_json, bind, lift, ret, assert.
  cbn -[GetInt getAttribute]. destruct (getAttribute_ok c (relName a) (attrName a) Hc) as (o & ->). cbn -[GetInt].
  rewrite GetInt_ok by done. cbn.
  assert (IsObject (type_json (unblock (type a))) = true) as -> by (destruct (unblock (type a)); done).
  cbn. rewrite Hpt. cbn. unfold RecordAttribute_no. rewrite (proj2 (String.eqb_neq _ _) Hr). cbn.
  destruct a as [rel attr orig t no pr]. simpl in *. subst. by destruct t.
Qed.

Lemma pmapM_ok {A B} (f : B → P A) (g : A → B) l c : Forall (λ x, f (g x) c = Ok (x, c)) l → pmapM f (map g l) c = Ok (l, c).
Proof. induction 1 as [| x l Hx _ IH]; [done |]. simpl. unfold bind. rewrite Hx. simpl. by rewrite IH. Qed.

Lemma tsize_unblock t : (tsize (unblock t) <= tsize t)%nat.
Proof. destruct t; simpl; lia. Qed.

Lemma sum_list_bound {A} (f : A → nat) l n : (sum_list_with f l <= n)%nat → Forall (λ x, (f x <= n)%nat) l.
Proof. induction l as [| x l IH]; simpl; [constructor |]. intros Hn. constructor; [lia | apply IH; lia]. Qed.

Lemma parse_type_ok fuel : ∀ t c, wf_catalog c → typable t → (tsize t <= fuel)%nat →
  parseExpressionType fuel (type_json t) c = Ok (t, c).
Proof.
  induction fuel as [| fuel IH]; intros t c Hc Ht Hs; [destruct t; simpl in Hs; lia |].
  assert (∀ t, IsObject (type_json t) = true ∨ ¬ typable t) as Hobj by (intros []; auto).
  destruct t as [| | d | | | | | t | t | t | t | t | args]; try done.
  1: { simpl in Ht. by subst d. }
  1-3: cbn; unfold bind, lift, assert; cbn; destruct (Hobj t) as [-> | Hn]; [| done]; cbn; by rewrite IH by (done || simpl in Hs; lia).
  rewrite type_json_record. apply typable_record in Ht. cbn -[attr_json]. unfold bind, lift. cbn -[attr_json].
  rewrite (pmapM_ok _ attr_json); [done |]. simpl in Hs.
  assert (Forall (λ a, (tsize (type a) <= fuel)%nat) args) as Hb by (apply sum_list_bound; lia).
  rewrite Forall_forall in Ht, Hb. apply Forall_forall. intros a Ha. apply parseRecordAttr_ok; [done | by apply Ht |].
  apply IH; [done | apply (Ht a Ha) |]. pose proof (tsize_unblock (type a)). specialize (Hb a Ha). lia.
Qed.

Definition op_name (op : opID) : option string :=
  match op with
  | OpEQ => Some "eq" | OpNEQ => Some "neq" | OpLT => Some "lt" | OpLE => Some "le" | OpGT => Some "gt" | OpGE => Some "ge"
  | OpAND => Some "and" | OpOR => Some "or" | OpADD => Some "add" | OpSUB => Some "sub" | OpMOD => Some "mod"
  | OpMULT => Some "multiply" | OpDIV => Some "div"
  | _ => None
  end%string.

Definition unit_name (u : extract_unit) : string :=
  match u with
  | YEAR => "YEAR" | MONTH => "MONTH" | DAYOFMONTH => "DAY" | HOUR => "HOUR" | MINUTE => "MINUTE" | SECOND => "SECOND"
  | QUARTER => "QUARTER" | WEEK => "WEEK" | MILLISECOND => "MILLISECOND" | DAYOFWEEK => "DOW" | DAYOFYEAR => "DOY"
  | DECADE => "DECADE" | CENTURY => "CENTURY" | MILLENNIUM => "MILLENNIUM" | _ => ""
  end%string.

(** The name of the constants of a type. *)
Definition const_name (t : ExpressionType) : string :=
  match t with
  | BoolType => "bool" | IntType => "int" | Int64Type => "int64" | FloatType => "float" | DateType => "date"
  | StringType => "string" | _ => "dstring"
  end%string.

Definition null_type (t : ExpressionType) : Prop :=
  match t with BoolType | IntType | Int64Type | FloatType | DateType | StringType => True | DStringType d => d = None | _ => False end.

(** The members of the object of an expression, with what follows them. *)
Fixpoint members (e : expr) : list (string * json) :=
  let obj e := JObject (members e) in
  let named (n : string) (l : list (string * json)) := (("expression", JString n) :: l)%string in
  match e with
  | IntConstant z => named "int" [("v", JInt z)]
  | Int64Constant z => named "int64" [("v", JInt z)]
  | DateConstant z => named "date" [("v", JInt z)]
  | FloatConstant f => named "float" [("v", JDouble f)]
  | BoolConstant b => named "bool" [("v", JBool b)]
  | StringConstant s => named "string" [("v", JString s)]
  | InputArgument _ _ => named "argument" []
  | RecordProjection e a => named "recordProjection" [("e", obj e); ("attribute", attr_json a)]
  | RecordConstruction l =>
      named "recordConstruction" [("attributes", JArray (map (λ x : string * expr, JObject [("name", JString x.1); ("e", JObject (members x.2))]) l))]
  | IfThenElse c t e => named "if" [("cond", obj c); ("then", obj t); ("else", obj e)]
  | Binary op l r => named (default "" (op_name op)) [("left", obj l); ("right", obj r)]
  | PlaceholderExpression t i => named "placeholder" [("index", JInt i); ("type", type_json t)]
  | ProteusValueExpression t _ => named (const_name t) [("isNull", JBool true)]
  | NegExpression e => named "neg" [("e", obj e)]
  | TestNullExpression e b => named (if b then "is_null" else "is_not_null") [("e", obj e)]
  | ExtractExpression e u => named "extract" [("e", obj e); ("unitrange", JString (unit_name u))]
  | CastExpression t e => named "cast" [("e", obj e); ("type", type_json t)]
  | _ => []
  end%string.

(** The object of a plan: an expression and the attribute it is registered as. *)
Definition plan_json (e : expr) (reg : option RecordAttribute) : json :=
  JObject (members e ++ match reg with Some a => [("register_as"%string, attr_json a)] | None => [] end).

(** The expressions that can be written. *)
Fixpoint encodable (e : expr) : Prop :=
  match e with
  | IntConstant z => in_signed 32 z
  | Int64Constant z | DateConstant z => in_signed 64 z
  | FloatConstant _ | BoolConstant _ | StringConstant _ => True
  | InputArgument args n => args = arg ∧ n = argNo
  | RecordProjection e a => encodable e ∧ attr_ok a ∧ ∃ args, getExpressionType e = RecordType args ∧ getArg args (attrName a) = Some a
  | RecordConstruction l =>
      (fix go (l : list (string * expr)) : Prop := match l with [] => True | x :: l' => encodable x.2 ∧ go l' end) l
  | IfThenElse c t e => encodable c ∧ encodable t ∧ encodable e ∧ is_type (ExprTypes.getTypeID (getExpressionType t)) e = true
  | Binary op l r => is_Some (op_name op) ∧ encodable l ∧ encodable r
  | PlaceholderExpression t i => typable t ∧ 0 <= i < 2 ^ 64
  | ProteusValueExpression t v => null_type t ∧ createNull t = Ok (ProteusValueExpression t v)
  | NegExpression e | TestNullExpression e _ => encodable e
  | ExtractExpression e u => encodable e ∧ is_Some (createReturnType u) ∧ is_type DATE e = true
  | CastExpression t e => encodable e ∧ typable t
  | _ => False
  end.

(** The fuel a plan takes. *)
Fixpoint esize (e : expr) : nat :=
  match e with
  | RecordProjection e a => S (esize e + tsize (type a))
  | RecordConstruction l => S (sum_list_with (λ x, esize x.2) l)
  | IfThenElse c t e => S (esize c + esize t + esize e)
  | Binary _ l r => S (esize l + esize r)
  | PlaceholderExpression t _ => S (tsize t)
  | NegExpression e | TestNullExpression e _ | ExtractExpression e _ => S (esize e)
  | CastExpression t e => S (esize e + tsize t)
  | _ => 1
  end.

Lemma encodable_record l : encodable (RecordConstruction l) ↔ Forall (λ x, encodable x.2) l.
Proof. cbn [encodable]. induction l as [| x l IH]; [by split; [constructor |] |]. by rewrite Forall_cons, <- IH. Qed.

Lemma GetInt64_ok z : in_signed 64 z → IsInt64 (F := F) (JInt z) = true ∧ GetInt64 (F := F) (JInt z) = Ok z.
Proof.
  unfold in_signed, GetInt64, IsInt64. intros Hz. change (64 - 1) with 63 in Hz.
  by rewrite (proj2 (Z.leb_le _ _)), (proj2 (Z.ltb_lt _ _)) by lia.
Qed.

Lemma GetUint64_ok z : 0 <= z < 2 ^ 64 → GetUint64 (F := F) (JInt z) = Ok z.
Proof. unfold GetUint64. intros Hz. by rewrite (proj2 (Z.leb_le _ _)), (proj2 (Z.ltb_lt _ _)) by lia. Qed.

Lemma project_ok e a args : getExpressionType e = RecordType args → getArg args (attrName a) = Some a →
  project e a = Ok (RecordProjection e a).
Proof. intros Ht Ha. unfold project. rewrite Ht. cbn [project_in]. by rewrite Ha, String.eqb_refl. Qed.

Lemma unit_name_ok u : is_Some (createReturnType u) → parseUnitRange (unit_name u) = Ok u.
Proof. destruct u; try done; by intros [? ?]. Qed.

(** An expression, when its parts are read. *)
Lemma body_ok parse pt e reg c : wf_catalog c → encodable e →
  (∀ e', (esize e' < esize e)%nat → encodable e' → parse (JObject (members e')) c = Ok ((e', None), c)) →
  (∀ t, (tsize t < esize e)%nat → typable t → pt (type_json t) c = Ok (t, c)) →
  parse_body parse pt (plan_json e reg) c = Ok (e, c).
Proof.
  intros Hc He Hsub Hpt. unfold parse_body, plan_json, bind, lift, ret, assert.
  destruct e as [z | z | z | f | b | str | z d | args n | e a | l | ce te fe | op el er | t i | t v | e | e | | e | e b | e u | t e | e | e1 e2];
    try done; destruct reg as [ra |]; simpl in Hsub, Hpt.
  all: cbn [members app op_name];
    try (cbn -[GetInt GetInt64 IsInt64 members]; cbn [encodable] in He;
    first [done
      | (rewrite GetInt_ok by done); done
      | (destruct (GetInt64_ok z He) as [Hi Hg]; unfold date_constant; rewrite ?Hi, ?Hg); done
      | (destruct He as [-> ->]); done]).
  all: try (destruct op; try (by destruct He as [[? ?] ?]); cbn [op_name default from_option id]).
  all: try (destruct b).
  all: try match goal with |- _ = Ok (ProteusValueExpression ?t _, _) => destruct t; try (by destruct He as [? _]); cbn [const_name] end.
  all: cbn -[GetInt GetInt64 IsInt64 GetUint64 members attr_json type_json parseRecordAttr project pmapM createNull parseUnitRange
             make_IfThenElse make_ExtractExpression encodable esize getExpressionType].
  all: cbn [encodable] in He; repeat (rewrite Hsub by (done || lia || naive_solver); cbn -[attr_json parseRecordAttr project members getExpressionType]).
  all: rewrite ?Hpt by (done || lia || naive_solver); try done.
  all: try (destruct He as [Hn Hv]; simpl in Hn; subst; rewrite Hv; done).
  all: try (destruct He as (He & ? & Ht)); unfold make_IfThenElse, make_ExtractExpression.
  all: try (rewrite unit_name_ok by done; simpl; destruct (createReturnType u) as [?|]; [| by destruct H1 as [? ?]]; simpl; by rewrite Ht).
  all: try (by rewrite (proj2 Ht)).
  all: try ((rewrite GetUint64_ok by done); simpl; by rewrite Hpt by (done || lia)).
  1-2: destruct Ht as (args & Hargs & Ha); change (IsObject (attr_json a)) with true; cbv beta iota.
  1-2: (rewrite parseRecordAttr_ok; [simpl; by rewrite (project_ok _ _ args) | done | done |]).
  1-2: apply Hpt; [pose proof (tsize_unblock (type a)); lia | apply H1].
  all: rewrite (pmapM_ok _ (λ x : string * expr, JObject [("name", JString x.1); ("e", JObject (members x.2))])); [done |].
  all: apply encodable_record in He; assert (Forall (λ x : string * expr, (esize x.2 <= sum_list_with (λ x, esize x.2) l)%nat) l)
    as Hb by (by apply sum_list_bound).
  all: rewrite Forall_forall in He, Hb; apply Forall_forall; intros [n x] Hx; simpl.
  all: specialize (He _ Hx); specialize (Hb _ Hx); simpl in He, Hb; by rewrite Hsub by (done || lia).
Qed.

(** ** Plans, read back *)

(** The attributes of a relation, and the catalog once an attribute is registered. *)
Definition known_args (c : catalog) (r : string) : list RecordAttribute :=
  match (c !! r) ≫= nested with Some (RecordType args) => args | _ => [] end.

Definition registered (c : catalog) (reg : option RecordAttribute) : catalog :=
  match reg with
  | Some a => <[relName a := BagType (RecordType (appendAttribute (known_args c (relName a)) a))]> c
  | None => c
  end.

Definition registrable (fuel : nat) (c : catalog) (reg : option RecordAttribute) : Prop :=
  match reg with
  | Some a => attr_ok a ∧ (ctx = true ∨ is_Some (c !! relName a)) ∧ (tsize (type a) < fuel)%nat
  | None => True
  end.

Lemma registered_wf c reg : wf_catalog c → wf_catalog (registered c reg).
Proof.
  intros Hc. destruct reg as [a |]; [| done]. intros r t. simpl.
  destruct (decide (relName a = r)) as [-> | Hr]; [rewrite lookup_insert_eq | rewrite lookup_insert_ne by done; apply Hc].
  intros [= <-]. by eexists.
Qed.

Lemma getArg_append args (a : RecordAttribute) : getArg (appendAttribute args a) (attrName a) = Some (default a (getArg args (attrName a))).
Proof.
  unfold appendAttribute. destruct (getArg args (attrName a)) as [b |] eqn:E; [by rewrite E |].
  unfold getArg. rewrite rev_app_distr. simpl. by rewrite String.eqb_refl.
Qed.

Lemma registered_attribute c (a : RecordAttribute) :
  getAttribute ctx (relName a) (attrName a) false (registered c (Some a)) =
  Ok (Some (default a (getArg (known_args c (relName a)) (attrName a))), registered c (Some a)).
Proof.
  unfold getAttribute, getRecordType, getInputInfoIfKnown, bind, ret. simpl. rewrite lookup_insert_eq. simpl.
  by rewrite getArg_append.
Qed.

Lemma info_ok c (a : RecordAttribute) : wf_catalog c → ctx = true ∨ is_Some (c !! relName a) →
  ∃ t c', getOrCreateInputInfo ctx (relName a) c = Ok (t, c') ∧ nested t = Some (RecordType (known_args c (relName a))) ∧
  (∀ t', <[relName a := t']> c' = <[relName a := t']> c).
Proof.
  intros Hc Hctx. unfold getOrCreateInputInfo, getInputInfoIfKnown, known_args, bind, ret. simpl.
  destruct (c !! relName a) as [t |] eqn:E; simpl.
  - destruct (Hc _ _ E) as (args & Ht). exists t, c. rewrite Ht. done.
  - destruct Hctx as [-> | [? ?]]; [| done]. simpl. do 2 eexists. split; [done |]. split; [done |].
    intros t'. apply insert_insert_eq.
Qed.

Lemma member_register e l : member "register_as" (members e ++ l) = member "register_as" l.
Proof. by destruct e. Qed.

Lemma register_attribute_ok pt e reg fuel c : wf_catalog c → registrable fuel c reg →
  (∀ t, (tsize t < fuel)%nat → typable t → pt (type_json t) c = Ok (t, c)) →
  register pt (plan_json e reg) e c = Ok ((e, reg), registered c reg).
Proof.
  intros Hc Hreg Hpt. unfold register, plan_json, bind, lift, ret, assert. cbn [HasMember at_key].
  rewrite member_register. destruct reg as [a |]; [| done]. destruct Hreg as (Ha & Hctx & Hs).
  cbn -[attr_json parseRecordAttr getOrCreateInputInfo]. change (IsObject (attr_json a)) with true.
  cbn -[attr_json parseRecordAttr getOrCreateInputInfo]. rewrite parseRecordAttr_ok; [| done | done |].
  - destruct (info_ok c a Hc Hctx) as (t & c' & Hi & Ht & Hins). cbn -[getOrCreateInputInfo].
    rewrite Hi. cbn. rewrite Ht. cbn. by rewrite Hins.
  - apply Hpt; [pose proof (tsize_unblock (type a)); lia | apply Ha].
Qed.

Lemma parse_plan fuel : ∀ e reg c, wf_catalog c → encodable e → registrable fuel c reg → (esize e <= fuel)%nat →
  parseExpression fuel (plan_json e reg) c = Ok ((e, reg), registered c reg).
Proof.
  induction fuel as [| fuel IH]; intros e reg c Hc He Hreg Hs; [destruct e; simpl in Hs; lia |].
  assert (∀ t, (tsize t < S fuel)%nat → typable t → parseExpressionType fuel (type_json t) c = Ok (t, c)) as Hpt
    by (intros t Ht Hty; apply parse_type_ok; [done | done | lia]).
  cbn [parseExpression]. unfold bind, assert, lift. change (IsObject (plan_json e reg)) with true.
  cbn -[parse_body register parseExpression parseExpressionType plan_json]. rewrite body_ok; [| done | done | |].
  - by apply (register_attribute_ok _ _ _ (S fuel)).
  - intros e' He' Henc. replace (JObject (members e')) with (plan_json e' None) by (unfold plan_json; by rewrite app_nil_r).
    apply IH; [done | done | done | lia].
  - intros t Ht. apply Hpt. lia.
Qed.

(** C11: An expression of a plan is read back as it was written - operators, operands and their order, types, constants,
    nulls, projections - with the attribute it is registered as; the catalog then knows that attribute and stays a
    catalog of record collections. *)
Theorem plan_expression_roundtrip fuel e reg c :
  wf_catalog c → encodable e → registrable fuel c reg → (esize e <= fuel)%nat →
  parseExpression fuel (plan_json e reg) c = Ok ((e, reg), registered c reg) ∧
  wf_catalog (registered c reg) ∧
  ∀ a, reg = Some a → getAttribute ctx (relName a) (attrName a) false (registered c reg) =
    Ok (Some (default a (getArg (known_args c (relName a)) (attrName a))), registered c reg).
Proof.
  intros Hc He Hreg Hs. split; [by apply parse_plan | split; [by apply registered_wf |]].
  intros a ->. apply registered_attribute.
Qed.

End parser.

(** ** An example: [CASE WHEN x < 10 THEN x + 1 END], registered as [out.y] *)

Import Interp.
Abbreviation IV := (Interp.V (F := Z)).

Definition ex_arg : list RecordAttribute := [mk_attr "t" "w" "t" (DStringType None) 1 false; mk_attr "t" "x" "t" IntType 2 false].
Definition ex_undef (t : llvm_type) : IV := (t, Err Undefined).
Definition ex_x : expr Z IV := RecordProjection (InputArgument ex_arg 0) (mk_attr "t" "x" "t" IntType 2 false).
Definition ex_null : expr Z IV := ProteusValueExpression IntType (mk_pv (ex_undef (TInt 32)) (ConstInt (F := Z) 1 1)).
Definition ex_case : expr Z IV :=
  IfThenElse (Binary OpLT ex_x (IntConstant 10)) (Binary OpADD ex_x (IntConstant 1)) ex_null.
Definition ex_reg : RecordAttribute := mk_attr "out" "y" "out" IntType (-1) false.

Lemma plan_expression_roundtrip_witness :
  parseExpression true ex_arg 0 ex_undef (λ _, 0) (λ _, []) (λ _, Err Throw) 12 (plan_json ex_case (Some ex_reg)) ∅ =
  Ok ((ex_case, Some ex_reg), <["out"%string := BagType (RecordType [ex_reg])]> ∅).
Proof.
  destruct (plan_expression_roundtrip true ex_arg 0 ex_undef (λ _, 0) (λ _, []) (λ _, Err Throw) 12 ex_case (Some ex_reg) ∅) as [E _].
  - intros r t. by rewrite lookup_empty.
  - assert (encodable ex_arg 0 ex_undef ex_x) as Hx.
    { split; [done | split; [by vm_compute |]]. exists ex_arg. by vm_compute. }
    repeat split; try done; by eexists.
  - split; [by vm_compute |]. split; [by left | cbn; lia].
  - cbn. lia.
  - exact E.
Defined.

End ExprParser.
