(* ===== verification/BlockManager.v ===== *)
(** * BlockManager: the pool of block buffers
    ([platform/memory/buffer-manager.cuh], [buffer-manager.cu], [threadsafe_stack.cuh],
    [block-manager.hpp]; host buffers).

    Blocks travel between operators and threads by reference.  The manager keeps, per NUMA
    node, a stack of free buffers, and for each buffer the number of references to it.  Taking
    a buffer pops it and then raises its count; releasing it lowers its count and, when that was
    the last reference, pushes it.  Each of these four atomic actions is a step here, in
    any interleaving of the threads; the assertions on the counts are checked.

    [refs] lists the references the operators hold: it is what the discipline of "release what
    you hold" refers to, and nothing reads it.  [node_of] is the node the system reports for an
    address. *)

From Stdlib Require Import ZArith Lia Bool.
From stdpp Require Import base numbers list gmap relations.
From S2P Require Import Prelude.

Local Open Scope Z_scope.
Local Open Scope res_scope.

Module BlockManager.

(** [DEFAULT_BUFF_CAP] elements of four bytes. *)
Definition h_vector_size : Z := 1024 * 1024 * 2 / 4.
Definition buffer_size : Z := h_vector_size * 4.

(** ** The manager *)

Record manager : Type := mk_manager {
  h_pool_numa : list (list Z);        (* the back of each vector is the head of its list *)
  buffer_cache : gmap Z Z;
}.

(** [threadsafe_stack]: [push] and [pop]; [pop] waits for an element. *)
Definition push (node : nat) (b : Z) (m : manager) : res manager :=
  do data <- of_option Undefined (h_pool_numa m !! node);
  Ok (mk_manager (<[node := b :: data]> (h_pool_numa m)) (buffer_cache m)).

Definition pop (node : nat) (m : manager) : res (Z * manager) :=
  do data <- of_option Undefined (h_pool_numa m !! node);
  match data with
  | [] => Err Blocked
  | b :: data' => Ok (b, mk_manager (<[node := data']> (h_pool_numa m)) (buffer_cache m))
  end.

(** The second half of [get_buffer_numa]: [buffer_cache[b]++]. *)
Definition acquire (b : Z) (m : manager) : res manager :=
  let old := default 0 (buffer_cache m !! b) in
  check old <=? 0 else AssertFailed;
  check 0 <=? old else AssertFailed;
  Ok (mk_manager (h_pool_numa m) (<[b := old + 1]> (buffer_cache m))).

Definition get_buffer_numa (node : nat) (m : manager) : res (Z * manager) :=
  do (b, m) <- pop node m; do m <- acquire b m; Ok (b, m).

(** The first half of [__release_buffer_host]; the buffer has to be pushed when it was the last
    reference.  Addresses that are no buffers of the pool, and the null pointer, are ignored. *)
Definition drop (b : Z) (m : manager) : res (option Z * manager) :=
  if b =? 0 then Ok (None, m)
  else
    match buffer_cache m !! b with
    | None => Ok (None, m)
    | Some occ =>
        check 1 <=? occ else AssertFailed;
        Ok (if occ =? 1 then Some b else None, mk_manager (h_pool_numa m) (<[b := occ - 1]> (buffer_cache m)))
    end.

(** ** The counts and the free buffers agree *)

Definition remove1 (b : Z) (l : list Z) : list Z :=
  match list_find (λ x, x = b) l with Some (i, _) => list_delete i l | None => l end.

(** The free buffers, the counts and the references. *)
Definition count (b : Z) (l : list Z) : Z := count_if (λ x, x =? b) l.

Record agree (all f : list Z) (c : gmap Z Z) (r : list Z) : Prop := {
  a_nodup : NoDup f;
  a_known b : is_Some (c !! b) ↔ b ∈ all;
  a_free b : b ∈ f → b ∈ all;
  a_refs b : b ∈ r → b ∈ all;
  a_count b n : c !! b = Some n → n = count b r ∧ (b ∈ f ↔ n = 0);
}.

#[export] Instance agree_perm all : Proper ((≡ₚ) ==> (=) ==> (≡ₚ) ==> iff) (agree all).
Proof.
  assert (∀ f f' c r r', f ≡ₚ f' → r ≡ₚ r' → agree all f c r → agree all f' c r') as H.
  { intros f f' c r r' Hf Hr [H1 H2 H3 H4 H5]. split; [by rewrite <- Hf | done | intros b; rewrite <- Hf; auto | intros b; rewrite <- Hr; auto |].
    intros b n Hn. unfold count. rewrite <- (count_if_perm _ _ _ Hr), <- Hf. by apply H5. }
  intros f f' Hf c ? <- r r' Hr. split; apply H; done.
Qed.

Lemma count_cons b x l : count b (x :: l) = (if x =? b then 1 else 0) + count b l.
Proof. unfold count. by rewrite count_if_cons. Qed.

Lemma count_zero b l : count b l = 0 ↔ b ∉ l.
Proof.
  pose proof (count_if_pos (λ x, x =? b) l) as Hp. assert (0 <= count b l) by (unfold count, count_if; lia). split.
  - intros Hz Hb. assert (0 < count b l) by (apply Hp; exists b; split; [done | apply Z.eqb_refl]). lia.
  - intros Hb. destruct (decide (0 < count b l)) as [Hc |]; [| lia]. apply Hp in Hc as (x & Hx & <-%Z.eqb_eq). done.
Qed.

Lemma remove1_perm b l : b ∈ l → l ≡ₚ b :: remove1 b l.
Proof.
  intros Hb. unfold remove1. destruct (list_find_elem_of (λ x, x = b) l b Hb eq_refl) as ([i x] & E). rewrite E.
  apply list_find_Some in E as (Hi & -> & _). by apply delete_Permutation.
Qed.

Lemma agree_acquire all f c r b : agree all (b :: f) c r → c !! b = Some 0 ∧ b ∉ r ∧ agree all f (<[b := 1]> c) (b :: r).
Proof.
  intros [Hd Hk Hf Hr Hc]. apply NoDup_cons in Hd as [Hb Hd].
  assert (c !! b = Some 0) as E.
  { destruct (proj2 (Hk b)) as [n Hn]; [apply Hf; left |]. destruct (Hc b n Hn) as [_ Hz]. rewrite Hn. f_equal. apply Hz. left. }
  destruct (Hc b 0 E) as [Hz _]. assert (b ∉ r) as Hbr by (by apply count_zero). split; [done |]. split; [done |].
  assert (b ∈ all) as Hall by (apply Hk; by rewrite E). split; [done | | set_solver | set_solver |].
  - intros x. rewrite <- Hk. destruct (decide (b = x)) as [<- |]; [rewrite lookup_insert_eq, E | by rewrite lookup_insert_ne]. done.
  - intros x n. rewrite count_cons. destruct (decide (b = x)) as [<- | Hx].
    + rewrite lookup_insert_eq, Z.eqb_refl. intros [= <-]. split; [lia | split; [done | lia]].
    + rewrite lookup_insert_ne, (proj2 (Z.eqb_neq b x)) by done. intros Hn. destruct (Hc x n Hn) as [-> Hx']. set_solver.
Qed.

Lemma agree_share all f c r b : agree all f c r → b ∈ r →
  ∃ n, c !! b = Some n ∧ n <> 0 ∧ agree all f (<[b := n + 1]> c) (b :: r).
Proof.
  intros [Hd Hk Hf Hr Hc] Hb. destruct (proj2 (Hk b) (Hr b Hb)) as [n E]. exists n. destruct (Hc b n E) as [Hn Hz].
  assert (n <> 0) as Hn0 by (rewrite Hn, count_zero; auto). split; [done |]. split; [done |].
  assert (0 <= n) by (subst n; unfold count, count_if; lia). split; [done | | done | set_solver |].
  - intros x. rewrite <- Hk. destruct (decide (b = x)) as [<- |]; [rewrite lookup_insert_eq, E | by rewrite lookup_insert_ne]. done.
  - intros x k. rewrite count_cons. destruct (decide (b = x)) as [<- | Hx].
    + rewrite lookup_insert_eq, Z.eqb_refl. intros [= <-]. split; [lia |]. split; [| lia]. intros Hbf%Hz. lia.
    + rewrite lookup_insert_ne, (proj2 (Z.eqb_neq b x)) by done. intros Hk'. apply Hc in Hk' as [-> ?]. done.
Qed.

Lemma agree_drop all f c r b : agree all f c (b :: r) →
  ∃ n, c !! b = Some n ∧ 1 <= n ∧ agree all (if n =? 1 then b :: f else f) (<[b := n - 1]> c) r.
Proof.
  intros [Hd Hk Hf Hr Hc]. destruct (proj2 (Hk b) (Hr b (list_elem_of_here _ _))) as [n E]. exists n.
  destruct (Hc b n E) as [Hn Hz]. rewrite count_cons, Z.eqb_refl in Hn.
  assert (0 <= count b r) by (unfold count, count_if; lia). split; [done |]. split; [lia |].
  assert (b ∉ f) as Hbf by (intros Hbf%Hz; lia).
  split; [case_match; [by constructor | done] | | case_match; set_solver | set_solver |].
  - intros x. rewrite <- Hk. destruct (decide (b = x)) as [<- |]; [rewrite lookup_insert_eq, E | by rewrite lookup_insert_ne]. done.
  - intros x k. destruct (decide (b = x)) as [<- | Hx].
    + rewrite lookup_insert_eq. intros [= <-]. split; [lia |]. destruct (Z.eqb_spec n 1); [split; [lia | left] |]. split; [done | lia].
    + rewrite lookup_insert_ne by done. intros Hk'. apply Hc in Hk' as [-> Hx']. rewrite count_cons, (proj2 (Z.eqb_neq b x)) in * by done.
      split; [lia |]. rewrite <- Hx'. case_match; set_solver.
Qed.

Lemma concat_insert {A} (l : list (list A)) i x y : l !! i = Some x → x ++ concat (<[i := y]> l) ≡ₚ y ++ concat l.
Proof.
  revert i. induction l as [| z l IH]; intros [| i] Hi; simplify_eq/=.
  - by rewrite !app_assoc, (Permutation_app_comm x y).
  - rewrite !(Permutation_app_swap_app _ z). f_equiv. by apply IH.
Qed.

Lemma pop_ok node m b l : h_pool_numa m !! node = Some (b :: l) → ∃ m', pop node m = Ok (b, m') ∧
  buffer_cache m' = buffer_cache m ∧ length (h_pool_numa m') = length (h_pool_numa m) ∧
  concat (h_pool_numa m) ≡ₚ b :: concat (h_pool_numa m').
Proof.
  intros Hn. unfold pop. rewrite Hn. eexists. split; [done |]. simpl. rewrite length_insert. do 2 (split; [done |]).
  pose proof (concat_insert _ _ _ l Hn) as Hp. apply (Permutation_app_inv_l l). rewrite <- Hp. simpl. by rewrite Permutation_middle.
Qed.

Section manager.
Context (node_of : Z → option nat).

Definition give_back (b : Z) (m : manager) : res manager :=
  do node <- of_option Undefined (node_of b); push node b m.

Definition release_buffer (b : Z) (m : manager) : res manager :=
  do (last, m) <- drop b m;
  match last with Some b => give_back b m | None => Ok m end.

Definition share_host_buffer (b : Z) (m : manager) : res manager :=
  match buffer_cache m !! b with
  | None => Ok m
  | Some old => check negb (old =? 0) else AssertFailed; Ok (mk_manager (h_pool_numa m) (<[b := old + 1]> (buffer_cache m)))
  end.

(** [get_buffer(bytes)], called on a core of [node]. *)
Definition get_buffer (node : nat) (bytes : Z) (m : manager) : res (Z * manager) :=
  check bytes <=? buffer_size else AssertFailed; get_buffer_numa node m.

(** [init]: a node's memory is cut into buffers. *)
Definition buffers (mem : Z) (size : nat) : list Z := (λ j, mem + Z.of_nat j * buffer_size) <$> seq 0 size.

Definition init (nodes : list (Z * nat)) : manager :=
  mk_manager ((λ x, rev (buffers x.1 x.2)) <$> nodes)
             (list_to_map ((λ b, (b, 0)) <$> concat ((λ x, buffers x.1 x.2) <$> nodes))).

(** ** Threads *)

(** Where a thread is: between the two actions of a request, or of a release. *)
Inductive pc : Type := Idle | Popped (b : Z) | Dropped (b : Z).

Record state : Type := mk_state { mgr : manager; pcs : list pc; refs : list Z }.

Inductive action : Type := Pop (node : nat) | Acquire | Drop (b : Z) | GiveBack | Share (b : Z).

(** The action of thread [t]. *)
Definition exec (t : nat) (a : action) (s : state) : res state :=
  do p <- of_option Undefined (pcs s !! t);
  let goto p m r := Ok (mk_state m (<[t := p]> (pcs s)) r) in
  match a, p with
  | Pop node, Idle => do (b, m) <- pop node (mgr s); goto (Popped b) m (refs s)
  | Acquire, Popped b => do m <- acquire b (mgr s); goto Idle m (b :: refs s)
  | Drop b, Idle =>
      do (last, m) <- drop b (mgr s);
      goto (match last with Some b => Dropped b | None => Idle end) m (remove1 b (refs s))
  | GiveBack, Dropped b => do m <- give_back b (mgr s); goto Idle m (refs s)
  | Share b, Idle => do m <- share_host_buffer b (mgr s); goto Idle m (b :: refs s)
  | _, _ => Err Undefined
  end.

(** What a thread may do next: wait for a buffer, go on, or use a reference that is held. *)
Definition enabled (t : nat) (a : action) (s : state) : Prop :=
  match a, pcs s !! t with
  | Pop node, Some Idle => ∃ b l, h_pool_numa (mgr s) !! node = Some (b :: l)
  | Acquire, Some (Popped _) => True
  | Drop b, Some Idle => b ∈ refs s ∨ b = 0 ∨ buffer_cache (mgr s) !! b = None
  | GiveBack, Some (Dropped _) => True
  | Share b, Some Idle => b ∈ refs s
  | _, _ => False
  end.

Definition step (s s' : state) : Prop := ∃ t a, enabled t a s ∧ exec t a s = Ok s'.

(** ** Every action keeps the agreement *)

Definition inflight (p : pc) : list Z := match p with Idle => [] | Popped b | Dropped b => [b] end.

(** The buffers in the pools and on their way from or to them. *)
Definition free (s : state) : list Z := concat (h_pool_numa (mgr s)) ++ concat (inflight <$> pcs s).

Lemma give_back_ok m b k : node_of b = Some k → (k < length (h_pool_numa m))%nat → ∃ m', give_back b m = Ok m' ∧
  buffer_cache m' = buffer_cache m ∧ length (h_pool_numa m') = length (h_pool_numa m) ∧
  concat (h_pool_numa m') ≡ₚ b :: concat (h_pool_numa m).
Proof.
  intros Hk Hl. unfold give_back, push. rewrite Hk. destruct (lookup_lt_is_Some_2 _ _ Hl) as [data Hd]. simpl. rewrite Hd.
  eexists. split; [done |]. simpl. rewrite length_insert. do 2 (split; [done |]).
  pose proof (concat_insert _ _ _ (b :: data) Hd) as Hp. apply (Permutation_app_inv_l data). rewrite Hp. simpl. by rewrite Permutation_middle.
Qed.

Record inv (all : list Z) (s : state) : Prop := {
  i_agree : agree all (free s) (buffer_cache (mgr s)) (refs s);
  i_null : 0 ∉ all;
  i_nodes b : b ∈ all → ∃ k, node_of b = Some k ∧ (k < length (h_pool_numa (mgr s)))%nat;
}.

(** The free buffers, when a thread and the pools change. *)
Lemma free_goto s t p p' m r : pcs s !! t = Some p →
  concat (h_pool_numa (mgr s)) ++ inflight p ≡ₚ concat (h_pool_numa m) ++ inflight p' →
  free (mk_state m (<[t := p']> (pcs s)) r) ≡ₚ free s.
Proof.
  intros Hp Hperm. unfold free. simpl. rewrite list_fmap_insert.
  assert ((inflight <$> pcs s) !! t = Some (inflight p)) as Hi by (by rewrite list_lookup_fmap, Hp).
  apply (Permutation_app_inv_l (inflight p)). rewrite (Permutation_app_swap_app (inflight p)).
  rewrite (concat_insert _ _ _ (inflight p') Hi), !app_assoc. f_equiv. rewrite <- Hperm. apply Permutation_app_comm.
Qed.

(** The same, when the thread takes a buffer along. *)
Lemma free_take s t p b m r : pcs s !! t = Some Idle → inflight p = [b] → h_pool_numa m = h_pool_numa (mgr s) →
  free (mk_state m (<[t := p]> (pcs s)) r) ≡ₚ b :: free s.
Proof.
  intros Hp Hb Hm. unfold free. simpl. rewrite list_fmap_insert, Hb, Hm, Permutation_middle. f_equiv.
  assert ((inflight <$> pcs s) !! t = Some []) as Hi by (by rewrite list_lookup_fmap, Hp).
  apply (concat_insert _ _ _ [b] Hi).
Qed.

Lemma free_leave s t p b m r : pcs s !! t = Some p → inflight p = [b] → h_pool_numa m = h_pool_numa (mgr s) →
  free s ≡ₚ b :: free (mk_state m (<[t := Idle]> (pcs s)) r).
Proof.
  intros Hp Hb Hm. unfold free. simpl. rewrite list_fmap_insert, Hm, Permutation_middle. f_equiv.
  assert ((inflight <$> pcs s) !! t = Some [b]) as Hi by (by rewrite list_lookup_fmap, Hp; simpl; rewrite Hb).
  by rewrite <- (concat_insert _ _ _ [] Hi).
Qed.

Section actions.
Context (all : list Z) (s : state) (t : nat) (Hs : inv all s).

Lemma exec_pop node : enabled t (Pop node) s → ∃ s', exec t (Pop node) s = Ok s' ∧ inv all s'.
Proof.
  destruct Hs as [Ha H0 Hn]. unfold enabled, exec. destruct (pcs s !! t) as [[| |] |] eqn:Hp; try done. intros (b & l & Hb).
  destruct (pop_ok _ _ _ _ Hb) as (m' & E & Hc & Hl & Hperm). simpl. rewrite E. eexists. split; [done |].
  split; simpl; [| done | by rewrite Hl]. rewrite Hc, (free_goto s t Idle (Popped b)); [done | done |].
  simpl. rewrite Hperm, app_nil_r. by rewrite Permutation_app_comm.
Qed.

Lemma exec_acquire : enabled t Acquire s → ∃ s', exec t Acquire s = Ok s' ∧ inv all s'.
Proof.
  destruct Hs as [Ha H0 Hn]. unfold enabled, exec. destruct (pcs s !! t) as [[| b |] |] eqn:Hp; try done. intros _.
  rewrite (free_leave s t (Popped b) b (mgr s) (refs s)) in Ha by done.
  apply agree_acquire in Ha as (Hc & Hr & Ha). simpl. unfold acquire. rewrite Hc. simpl. eexists. split; [done |].
  split; simpl; done.
Qed.

Lemma exec_drop_held b : pcs s !! t = Some Idle → b ∈ refs s → ∃ s', exec t (Drop b) s = Ok s' ∧ inv all s'.
Proof.
  destruct Hs as [Ha H0 Hn]. intros Hp Hb. unfold exec. rewrite Hp. simpl.
  rewrite (remove1_perm b (refs s) Hb) in Ha. apply agree_drop in Ha as (n & Hc & Hn1 & Ha).
  assert (b ∈ all) as Hall by (apply (a_known _ _ _ _ Ha); by rewrite lookup_insert_eq).
  unfold drop. rewrite (proj2 (Z.eqb_neq b 0)), Hc, (proj2 (Z.leb_le _ _)) by (done || by intros ->). simpl.
  eexists. split; [done |]. split; simpl; [| done | done].
  destruct (n =? 1); [by rewrite (free_take s t (Dropped b) b) | by rewrite (free_goto s t Idle)].
Qed.

Lemma exec_drop_other b : pcs s !! t = Some Idle → b = 0 ∨ buffer_cache (mgr s) !! b = None →
  ∃ s', exec t (Drop b) s = Ok s' ∧ inv all s'.
Proof.
  destruct Hs as [Ha H0 Hn]. intros Hp He. unfold exec. rewrite Hp. simpl.
  assert (drop b (mgr s) = Ok (None, mgr s)) as ->.
  { unfold drop. destruct He as [-> | ->]; [done |]. by case_match. }
  simpl. eexists. split; [done |]. assert (b ∉ refs s) as Hb.
  { intros Hb. apply (a_refs _ _ _ _ Ha) in Hb as Hall. destruct He as [-> | He]; [done |].
    apply (a_known _ _ _ _ Ha) in Hall as [? Hx]. congruence. }
  split; simpl; [| done | done]. rewrite (free_goto s t Idle) by done. unfold remove1.
  destruct (list_find (λ x, x = b) (refs s)) as [[i x] |] eqn:E; [| done].
  apply list_find_Some in E as (Hi & -> & _). by apply list_elem_of_lookup_2 in Hi.
Qed.

Lemma exec_give_back : enabled t GiveBack s → ∃ s', exec t GiveBack s = Ok s' ∧ inv all s'.
Proof.
  destruct Hs as [Ha H0 Hn]. unfold enabled, exec. destruct (pcs s !! t) as [[| | b] |] eqn:Hp; try done. intros _.
  assert (b ∈ all) as Hall.
  { apply (a_free _ _ _ _ Ha). rewrite (free_leave s t (Dropped b) b (mgr s) (refs s)) by done. left. }
  destruct (Hn b Hall) as (k & Hk & Hl). destruct (give_back_ok (mgr s) b k Hk Hl) as (m' & E & Hc & Hlen & Hperm).
  simpl. rewrite E. eexists. split; [done |]. split; simpl; [| done | by rewrite Hlen].
  rewrite Hc, (free_goto s t (Dropped b)); [done | done |]. simpl. rewrite Hperm, app_nil_r. by rewrite Permutation_app_comm.
Qed.

Lemma exec_share b : enabled t (Share b) s → ∃ s', exec t (Share b) s = Ok s' ∧ inv all s'.
Proof.
  destruct Hs as [Ha H0 Hn]. unfold enabled, exec. destruct (pcs s !! t) as [[| |] |] eqn:Hp; try done. intros Hb.
  apply (agree_share _ _ _ _ b) in Ha as (n & Hc & Hz & Ha); [| done]. simpl. unfold share_host_buffer. rewrite Hc.
  rewrite (proj2 (Z.eqb_neq n 0)) by done. simpl. eexists. split; [done |]. split; simpl; [| done | done].
  by rewrite (free_goto s t Idle).
Qed.

Lemma exec_ok a : enabled t a s → ∃ s', exec t a s = Ok s' ∧ inv all s'.
Proof.
  destruct a as [node | | b | | b]; [apply exec_pop | apply exec_acquire | | apply exec_give_back | apply exec_share].
  intros He. unfold enabled in He. destruct (pcs s !! t) as [[| |] |] eqn:Hp; try done.
  destruct He as [? | ?]; [by apply exec_drop_held | by apply exec_drop_other].
Qed.

End actions.

(** ** From the start *)

Definition all_buffers (nodes : list (Z * nat)) : list Z := concat ((λ x, buffers x.1 x.2) <$> nodes).

Definition start (nodes : list (Z * nat)) (threads : nat) : state := mk_state (init nodes) (replicate threads Idle) [].

Lemma free_idle s : Forall (λ p, p = Idle) (pcs s) → free s = concat (h_pool_numa (mgr s)).
Proof.
  intros Hi. unfold free. assert (concat (inflight <$> pcs s) = []) as ->; [| apply app_nil_r].
  induction Hi as [| p l -> _ IH]; done.
Qed.

Lemma rev_buffers nodes : concat ((λ x : Z * nat, rev (buffers x.1 x.2)) <$> nodes) ≡ₚ all_buffers nodes.
Proof. unfold all_buffers. induction nodes as [| x l IH]; [done |]. simpl. by rewrite IH, <- Permutation_rev. Qed.

(** The memory of the nodes: apart, not at the null address, and reported on a node that has a pool. *)
Record placed (nodes : list (Z * nat)) : Prop := {
  p_apart : NoDup (all_buffers nodes);
  p_null : 0 ∉ all_buffers nodes;
  p_node b : b ∈ all_buffers nodes → ∃ k, node_of b = Some k ∧ (k < length nodes)%nat;
}.

Lemma start_inv nodes threads : placed nodes → inv (all_buffers nodes) (start nodes threads).
Proof.
  intros [Hd H0 Hn]. split; [| done | simpl; by rewrite length_fmap].
  rewrite free_idle by (apply Forall_replicate; done). simpl. rewrite rev_buffers.
  assert (∀ b, list_to_map (M := gmap Z Z) ((λ b, (b, 0)) <$> all_buffers nodes) !! b = (if decide (b ∈ all_buffers nodes) then Some 0 else None)) as Hc.
  { intros b. case_decide as Hb.
    - apply elem_of_list_to_map_1; [by rewrite <- list_fmap_compose, list_fmap_id | by apply list_elem_of_fmap; exists b].
    - apply not_elem_of_list_to_map_1. by rewrite <- list_fmap_compose, list_fmap_id. }
  split; [done | | done | set_solver |].
  - intros b. unfold all_buffers in *. rewrite Hc. case_decide; [split; [done | by eexists] | split; [by intros [? ?] | done]].
  - intros b n. unfold all_buffers in *. rewrite Hc. case_decide; [| done]. intros [= <-]. done.
Qed.

Lemma reachable_inv nodes threads s : placed nodes → rtc step (start nodes threads) s → inv (all_buffers nodes) s.
Proof.
  intros Hp. apply (rtc_ind_r (inv (all_buffers nodes))); [by apply start_inv |].
  intros s1 s2 _ (t & a & He & E) Hs. destruct (exec_ok _ _ t Hs a He) as (s' & E' & Hs'). congruence.
Qed.

(** C18: In every interleaving of threads that release only references they hold, no assertion of the block manager fails;
    the buffer a request is about to return is held by no one; the count of a buffer is the number of references to it,
    and it is free exactly when there are none; when all references are released and no thread is inside the manager,
    every buffer is back in the pools, once. *)
Theorem block_manager_safe nodes threads s : placed nodes → rtc step (start nodes threads) s →
  (∀ t a, enabled t a s → ∃ s', exec t a s = Ok s') ∧
  (∀ t b, pcs s !! t = Some (Popped b) → b ∉ refs s) ∧
  (∀ b, b ∈ all_buffers nodes → buffer_cache (mgr s) !! b = Some (count b (refs s)) ∧ (b ∈ free s ↔ b ∉ refs s)) ∧
  NoDup (free s) ∧
  (Forall (λ p, p = Idle) (pcs s) → refs s = [] → concat (h_pool_numa (mgr s)) ≡ₚ all_buffers nodes).
Proof.
  intros Hp Hr. pose proof (reachable_inv _ _ _ Hp Hr) as Hs. destruct Hp as [Hd H0 _]. destruct (i_agree _ _ Hs) as [Hf Hk Hfa Hra Hc].
  assert (∀ b, b ∈ all_buffers nodes → buffer_cache (mgr s) !! b = Some (count b (refs s)) ∧ (b ∈ free s ↔ b ∉ refs s)) as Hall.
  { intros b Hb. apply Hk in Hb as [n Hn]. destruct (Hc b n Hn) as [-> Hz]. split; [done |]. by rewrite Hz, count_zero. }
  split; [intros t a He; destruct (exec_ok _ _ t Hs a He) as (s' & E & _); by exists s' |].
  split; [| split; [done | split; [done |]]].
  - intros t b Ht. assert (b ∈ free s) as Hb by (rewrite (free_leave s t (Popped b) b (mgr s) (refs s)) by done; left).
    by apply (Hall b (Hfa b Hb)).
  - intros Hi Hn. rewrite <- (free_idle s Hi). apply NoDup_Permutation; [done | done |]. intros b. split; [apply Hfa |].
    intros Hb. apply (Hall b Hb). rewrite Hn. set_solver.
Qed.

End manager.

(** ** What operators rely on *)

(** The requests and releases of one thread, on a state the other users keep.  A buffer that is
    requested was free, has one reference, and is available again when that is released. *)
Class Buffers (M : Type) := {
  get : Z → M → res (Z * M);
  release : Z → M → res M;
  refcount : M → Z → Z;
  available : M → nat;
  capacity : Z;
}.

Class BuffersLaws (M : Type) `{Buffers M} := {
  sane : M → Prop;
  capacity_bounds : 0 < capacity < 2 ^ 63;
  get_ok m bytes : sane m → bytes <= capacity → (0 < available m)%nat → ∃ b m', get bytes m = Ok (b, m') ∧ sane m' ∧
    b ≠ 0 ∧ refcount m b = 0 ∧ refcount m' b = 1 ∧ (∀ b', b' ≠ b → refcount m' b' = refcount m b') ∧ available m = S (available m');
  release_ok m b : sane m → b ≠ 0 → refcount m b = 1 → ∃ m', release b m = Ok m' ∧ sane m' ∧
    refcount m' b = 0 ∧ (∀ b', b' ≠ b → refcount m' b' = refcount m b') ∧ available m' = S (available m);
  release_null m : release 0 m = Ok m;
}.

Section sequential.
Context (node_of : Z → option nat) (here : nat).

Definition manager_buffers : Buffers manager := {|
  get := get_buffer here;
  release := release_buffer node_of;
  refcount m b := default 0 (buffer_cache m !! b);
  available m := length (default [] (h_pool_numa m !! here));
  capacity := buffer_size;
|}.
#[local] Existing Instance manager_buffers.

(** Between requests, and with every buffer on the node of the thread. *)
Definition local_manager (m : manager) : Prop :=
  ∃ all r, agree all (concat (h_pool_numa m)) (buffer_cache m) r ∧ 0 ∉ all ∧
    (∀ b, b ∈ all → node_of b = Some here) ∧ (here < length (h_pool_numa m))%nat.

Lemma get_buffer_ok m bytes : local_manager m → bytes <= buffer_size → (0 < available m)%nat →
  ∃ b m', get_buffer here bytes m = Ok (b, m') ∧ local_manager m' ∧ b ≠ 0 ∧ refcount m b = 0 ∧ refcount m' b = 1 ∧
    (∀ b', b' ≠ b → refcount m' b' = refcount m b') ∧ available m = S (available m').
Proof.
  intros (all & r & Ha & H0 & Hn & Hh) Hb Hav. simpl in *. unfold get_buffer, get_buffer_numa. rewrite (proj2 (Z.leb_le _ _)) by done.
  destruct (h_pool_numa m !! here) as [[| b data] |] eqn:Hd; simpl in Hav; [lia | | lia].
  destruct (pop_ok _ _ _ _ Hd) as (m1 & E & Hc & Hl & Hperm). rewrite E. simpl.
  rewrite Hperm in Ha. pose proof Ha as [_ Hk Hf _ _]. specialize (Hf b (list_elem_of_here _ _)).
  apply agree_acquire in Ha as (Hc0 & Hr & Ha). unfold acquire. rewrite Hc, Hc0. simpl. do 2 eexists. split; [done |]. simpl. rewrite Hc0.
  split; [exists all, (b :: r); simpl; by rewrite Hl |]. split; [by intros -> |]. rewrite lookup_insert_eq. do 2 (split; [done |]).
  split; [intros b' Hb'; by rewrite lookup_insert_ne |]. unfold pop in E. rewrite Hd in E. simplify_eq/=.
  by rewrite list_lookup_insert_eq by (by eapply lookup_lt_Some).
Qed.

Lemma release_buffer_ok m b : local_manager m → b ≠ 0 → refcount m b = 1 →
  ∃ m', release_buffer node_of b m = Ok m' ∧ local_manager m' ∧ refcount m' b = 0 ∧
    (∀ b', b' ≠ b → refcount m' b' = refcount m b') ∧ available m' = S (available m).
Proof.
  intros (all & r & Ha & H0 & Hn & Hh) Hb Hr. simpl in *. destruct (buffer_cache m !! b) as [n |] eqn:Hc; simpl in Hr; [| done]. subst n.
  assert (b ∈ r) as Hbr. { destruct (a_count _ _ _ _ Ha b 1 Hc) as [Hn1 _]. destruct (decide (b ∈ r)) as [| Hx]; [done |]. apply count_zero in Hx. lia. }
  assert (b ∈ all) as Hall by (by apply (a_refs _ _ _ _ Ha)).
  rewrite (remove1_perm b r Hbr) in Ha. apply agree_drop in Ha as (n & Hc' & _ & Ha). rewrite Hc in Hc'. injection Hc' as <-. simpl in Ha.
  unfold release_buffer, drop. rewrite (proj2 (Z.eqb_neq b 0)), Hc by done. simpl.
  destruct (give_back_ok node_of (mk_manager (h_pool_numa m) (<[b := 0]> (buffer_cache m))) b here (Hn b Hall) Hh) as (m' & E & Hcm & Hl & Hperm).
  exists m'. split; [exact E |]. simpl in *. split.
  { exists all, (remove1 b r). rewrite Hcm, Hperm, Hl. done. }
  rewrite Hcm. rewrite lookup_insert_eq. split; [done |]. split; [intros b' Hb'; by rewrite lookup_insert_ne |].
  unfold give_back, push in E. rewrite (Hn b Hall) in E. simpl in E. destruct (h_pool_numa m !! here) as [data |] eqn:Hd; simplify_eq/=.
  by rewrite list_lookup_insert_eq by (by eapply lookup_lt_Some).
Qed.

Definition manager_laws : BuffersLaws manager.
Proof. refine {| sane := local_manager |}; [done | apply get_buffer_ok | apply release_buffer_ok | done]. Defined.

Lemma init_local x size : NoDup (buffers x size) → 0 ∉ buffers x size → (∀ b, b ∈ buffers x size → node_of b = Some here) → here = 0%nat →
  local_manager (init [(x, size)]).
Proof.
  intros Hd H0 Hn Hh. assert (placed node_of [(x, size)]) as Hp.
  { split; unfold all_buffers; simpl; rewrite app_nil_r; [done | done |]. intros b Hb. exists here. subst here. split; [by apply Hn | lia]. }
  destruct (start_inv node_of [(x, size)] 0 Hp) as [Ha _ _]. unfold free in Ha. simpl in Ha. rewrite !app_nil_r in Ha.
  exists (all_buffers [(x, size)]), []. split; [simpl; by rewrite !app_nil_r |]. unfold all_buffers. simpl. rewrite app_nil_r.
  split; [done |]. split; [done |]. subst here. lia.
Qed.

End sequential.

(** ** An example: two threads, two buffers *)

Definition ex_nodes : list (Z * nat) := [(2 ^ 22, 2%nat)].
Definition ex_node (b : Z) : option nat := Some 0%nat.

Definition ex_state : state :=
  mk_state (mk_manager [[2 ^ 22]] (<[2 ^ 22 := 0]> (<[2 ^ 22 + 2 ^ 21 := 1]> ∅))) [Idle; Idle] [2 ^ 22 + 2 ^ 21].

Lemma ex_placed : placed ex_node ex_nodes.
Proof.
  split; [by apply (bool_decide_unpack _) | by apply (bool_decide_unpack _) |]. intros b _. exists 0%nat. simpl. split; [done | lia].
Qed.

Lemma ex_reachable : rtc (step ex_node) (start ex_nodes 2) ex_state.
Proof.
  eapply rtc_l. { exists 0%nat, (Pop 0). split; [do 2 eexists; done | done]. }
  eapply rtc_l. { exists 1%nat, (Pop 0). split; [do 2 eexists; done | done]. }
  eapply rtc_l. { exists 1%nat, Acquire. split; [done | done]. }
  eapply rtc_l. { exists 0%nat, Acquire. split; [done | done]. }
  eapply rtc_l. { exists 0%nat, (Drop (2 ^ 22)). split; [left; right; left | done]. }
  eapply rtc_once. exists 0%nat, GiveBack. split; [done |]. vm_compute. reflexivity.
Qed.

Lemma block_manager_safe_witness : ∃ s', exec ex_node 1 (Pop 0) ex_state = Ok s' ∧ NoDup (free s').
Proof.
  destruct (block_manager_safe ex_node ex_nodes 2 ex_state ex_placed ex_reachable) as (He & _).
  destruct (He 1%nat (Pop 0)) as (s' & E); [do 2 eexists; done |]. exists s'. split; [exact E |].
  eapply (block_manager_safe ex_node ex_nodes 2 s' ex_placed). eapply rtc_r; [apply ex_reachable |].
  exists 1%nat, (Pop 0). split; [do 2 eexists; done | exact E].
Defined.

End BlockManager.
