(* ===== verification/Blocks.v ===== *)
(** * Blocks: block buffers and what they hold
    (the accesses that generated code makes to block buffers; [CreateInBoundsGEP] with a load or a store in
    [hash-rearrange.cpp] and [block-to-tuples.cpp], the calls of [get_buffer] and [release_buffer] registered in
    [cpu-pipeline.cpp]).

    An access to a buffer that is not held, or outside of it, is undefined, and so is
    a read of an element that was not written since the buffer was requested. *)

From Stdlib Require Import ZArith Lia Bool.
From stdpp Require Import base numbers list gmap.
From S2P Require Import Prelude BlockManager.

Local Open Scope Z_scope.
Local Open Scope res_scope.

Module Blocks.
Import BlockManager.

Section blocks.
Context {M W : Type} `{Buffers M}.

Record world : Type := mk_world { alloc : M; mem : gmap Z (gmap Z W) }.

(** The element of index [i], of [width] bytes, of a buffer. *)
Definition in_buffer (width b i : Z) (w : world) : bool :=
  (1 <=? refcount (alloc w) b) && (0 <=? i) && ((i + 1) * width <=? capacity).

Definition store (width b i : Z) (v : W) (w : world) : res world :=
  check in_buffer width b i w else Undefined;
  Ok (mk_world (alloc w) (<[b := <[i := v]> (default ∅ (mem w !! b))]> (mem w))).

Definition load (width b i : Z) (w : world) : res W :=
  check in_buffer width b i w else Undefined;
  of_option Undefined (mem w !! b ≫= λ c, c !! i).

Definition get_buffer (bytes : Z) (w : world) : res (Z * world) :=
  do (b, m) <- get bytes (alloc w); Ok (b, mk_world m (<[b := ∅]> (mem w))).

Definition release_buffer (b : Z) (w : world) : res world :=
  do m <- release b (alloc w); Ok (mk_world m (mem w)).

(** ** What a thread holds *)

Context `{!BuffersLaws M}.

(** From [m0] to [m] the thread has taken the buffers [l]. *)
Record frame (m0 m : M) (l : list Z) : Prop := {
  f_sane : sane m;
  f_nodup : NoDup l;
  f_null : 0 ∉ l;
  f_held b : b ∈ l → refcount m0 b = 0 ∧ refcount m b = 1;
  f_rest b : b ∉ l → refcount m b = refcount m0 b;
  f_left : (available m + length l = available m0)%nat;
}.

#[export] Instance frame_perm : Proper ((=) ==> (=) ==> (≡ₚ) ==> iff) frame.
Proof.
  assert (∀ m0 m l k, l ≡ₚ k → frame m0 m l → frame m0 m k) as Himp.
  { intros m0 m l k Hl [Hs Hd H0 Hh Hr Ha]. split; [done | by rewrite <- Hl | by rewrite <- Hl | | | by rewrite <- Hl];
      intros b; rewrite <- Hl; auto. }
  intros m0 ? <- m ? <- l k Hl. split; by apply Himp.
Qed.

Lemma frame_start m : sane m → frame m m [].
Proof. intros Hs. split; [done | constructor | set_solver | set_solver | done | simpl; lia]. Qed.

Lemma frame_get m0 w l bytes : frame m0 (alloc w) l → bytes <= capacity → (length l < available m0)%nat →
  ∃ b w', get_buffer bytes w = Ok (b, w') ∧ frame m0 (alloc w') (b :: l) ∧ mem w' = <[b := ∅]> (mem w).
Proof.
  intros [Hs Hd H0 Hh Hr Ha] Hb Hl. destruct (get_ok (alloc w) bytes Hs Hb) as (b & m' & E & Hs' & Hb0 & Hz & Ho & Hrest & Hav); [lia |].
  assert (b ∉ l) as Hbl by (intros Hx; apply Hh in Hx; lia). exists b. unfold get_buffer. rewrite E. eexists. split; [done |].
  split; [| done]; simpl. split; [done | by constructor | set_solver | | | simpl; lia].
  - intros x [-> | Hx]%elem_of_cons; [by rewrite <- Hr |]. assert (x ≠ b) by (by intros ->). rewrite Hrest by done. by apply Hh.
  - intros x Hx. apply not_elem_of_cons in Hx as [Hxb Hx]. rewrite Hrest by done. by apply Hr.
Qed.

Lemma frame_release m0 w l b : frame m0 (alloc w) (b :: l) →
  ∃ w', release_buffer b w = Ok w' ∧ frame m0 (alloc w') l ∧ mem w' = mem w.
Proof.
  intros [Hs Hd H0 Hh Hr Ha]. apply NoDup_cons in Hd as [Hb Hd]. apply not_elem_of_cons in H0 as [H0b H0].
  destruct (Hh b (list_elem_of_here _ _)) as [Hz Ho]. destruct (release_ok (alloc w) b Hs (not_eq_sym H0b) Ho) as (m' & E & Hs' & Hz' & Hrest & Hav).
  unfold release_buffer. rewrite E. eexists. split; [done |]. split; [| done]. simpl. split; [done | done | done | | | simpl in Ha; lia].
  - intros x Hx. rewrite Hrest by (by intros ->). apply Hh. by right.
  - intros x Hx. destruct (decide (x = b)) as [-> | Hxb]; [congruence |]. rewrite Hrest by done. apply Hr. set_solver.
Qed.

Lemma frame_in m0 w l b : frame m0 (alloc w) l → b ∈ l → ∀ width i, 0 <= i → (i + 1) * width <= capacity → in_buffer width b i w = true.
Proof.
  intros Hf Hb width i Hi Hc. unfold in_buffer. destruct (f_held _ _ _ Hf b Hb) as [_ ->].
  by rewrite (proj2 (Z.leb_le 0 _)), (proj2 (Z.leb_le ((i + 1) * width) _)) by done.
Qed.

(** ** Columns *)

(** The buffer holds the values from its start. *)
Definition column (w : world) (b : Z) (vs : list W) : Prop :=
  ∃ c, mem w !! b = Some c ∧ ∀ k v, vs !! k = Some v → c !! Z.of_nat k = Some v.

Lemma column_store m0 w l b width vs v : frame m0 (alloc w) l → b ∈ l → column w b vs → (Z.of_nat (length vs) + 1) * width <= capacity →
  ∃ w', store width b (Z.of_nat (length vs)) v w = Ok w' ∧ alloc w' = alloc w ∧ column w' b (vs ++ [v]) ∧ ∀ b', b' ≠ b → mem w' !! b' = mem w !! b'.
Proof.
  intros Hf Hb (c & Hc & Hv) Hcap. unfold store. rewrite (frame_in m0 w l b Hf Hb) by lia. eexists. split; [done |]. split; [done |]. simpl. split.
  - exists (<[Z.of_nat (length vs) := v]> c). simpl. rewrite lookup_insert_eq, Hc. split; [done |]. intros k x [Hk | [Hk Hx]]%lookup_app_Some.
    + rewrite lookup_insert_ne; [by apply Hv |]. apply lookup_lt_Some in Hk. lia.
    + apply list_lookup_singleton_Some in Hx as [Hz <-]. replace k with (length vs) by lia. by rewrite lookup_insert_eq.
  - intros b' Hb'. by rewrite lookup_insert_ne.
Qed.

Lemma column_load m0 w l b width vs k v : frame m0 (alloc w) l → b ∈ l → column w b vs → vs !! k = Some v →
  (Z.of_nat k + 1) * width <= capacity → load width b (Z.of_nat k) w = Ok v.
Proof.
  intros Hf Hb (c & Hc & Hv) Hk Hcap. unfold load. rewrite (frame_in m0 w l b Hf Hb) by lia. rewrite Hc. simpl. by rewrite (Hv k v Hk).
Qed.

Lemma column_same w w' b vs : mem w' !! b = mem w !! b → column w b vs → column w' b vs.
Proof. intros Hm (c & Hc & Hv). exists c. by rewrite Hm. Qed.

Lemma column_nil w b : is_Some (mem w !! b) → column w b [].
Proof. intros [c Hc]. exists c. split; [done |]. intros k v. by rewrite lookup_nil. Qed.

End blocks.
#[global] Arguments world : clear implicits.

End Blocks.
