(* ===== verification/HashRearrange.v ===== *)
(** * HashRearrange: tuples into blocks by hash
    ([olap/lib/operators/hash-rearrange.cpp], [hash-rearrange.hpp]).

    The generated code keeps, for each bucket, one buffer per field and the number of tuples in
    them.  A tuple is stored behind those of its bucket; a bucket that is full goes to the
    parent as a block, and gets new buffers.  At the close of the pipeline the buckets go
    to the parent as they are.

    A field is what its expression computes for a tuple and the width of its values; the parent
    is a parameter, and what it has to do with a block is stated as the class [Absorbs]. *)

From Stdlib Require Import ZArith Lia Bool.
From stdpp Require Import base numbers list gmap.
From S2P Require Import Prelude BlockManager Blocks.

Local Open Scope Z_scope.
Local Open Scope res_scope.

Module HashRearrange.
Import BlockManager Blocks.

(** The bindings of a block: the hash, if it is asked for, the number of tuples, the identifier
    of the first, and the buffers of the fields. *)
Record block : Type := mk_block { b_hash : option Z; activeCnt : Z; activeTuple : Z; b_cols : list Z }.

Section rearrange.
Context {M W T P : Type} `{Buffers M}.

Record field : Type := mk_field { eval : T → W; width : Z }.

Context (numOfBuckets : Z) (wantedFields : list field) (hashExpr : T → Z) (hashProject : bool).
Context (parent : block → world M W * P → res (world M W * P)).

Definition max_width : Z := foldr (λ f acc, Z.max (width f) acc) 0 wantedFields.
Definition cap : Z := capacity / max_width.

(** The variables of the pipeline: a counter and the buffers per bucket, and the next
    identifier. *)
Record vars : Type := mk_vars { cnts : list Z; oid : Z; blocks : list (list Z) }.

Abbreviation run_state := (vars * (world M W * P))%type.

(** ** Opening *)

Fixpoint get_buffers (fs : list field) (w : world M W) : res (list Z * world M W) :=
  match fs with
  | [] => Ok ([], w)
  | f :: fs' =>
      do (b, w) <- get_buffer (cap * width f) w;
      do (bs, w) <- get_buffers fs' w; Ok (b :: bs, w)
  end.

Fixpoint open_blocks (n : nat) (w : world M W) : res (list (list Z) * world M W) :=
  match n with
  | O => Ok ([], w)
  | S n' => do (bs, w) <- get_buffers wantedFields w; do (bss, w) <- open_blocks n' w; Ok (bs :: bss, w)
  end.

Definition open (w : world M W) : res (vars * world M W) :=
  do (bss, w) <- open_blocks (Z.to_nat numOfBuckets) w;
  Ok (mk_vars (replicate (Z.to_nat numOfBuckets) 0) 0 bss, w).

(** ** A tuple *)

(** The hash modulo the number of buckets, an unsigned remainder. *)
Definition hash_of (t : T) : res Z :=
  check negb (numOfBuckets =? 0) else Undefined; Ok (hashExpr t mod numOfBuckets).

Fixpoint store_fields (t : T) (indx : Z) (fs : list field) (cols : list Z) (w : world M W) : res (world M W) :=
  match fs, cols with
  | [], _ => Ok w
  | f :: fs', b :: cols' => do w <- store (width f) b indx (eval f t) w; store_fields t indx fs' cols' w
  | _ :: _, [] => Err Undefined
  end.

Definition consume (s : run_state) (t : T) : res run_state :=
  let '(v, (w, p)) := s in
  do h <- hash_of t;
  let target := Z.to_nat (u32 h) in
  do indx <- of_option Undefined (cnts v !! target);
  do curblk <- of_option Undefined (blocks v !! target);
  do w <- store_fields t indx wantedFields curblk w;
  if u64 (cap - 1) <=? indx then
    let new_oid := oid v in
    do (w, p) <- parent (mk_block (if hashProject then Some h else None) cap new_oid curblk) (w, p);
    do (bs, w) <- get_buffers wantedFields w;
    Ok (mk_vars (<[target := 0]> (cnts v)) (u64 (new_oid + cap)) (<[target := bs]> (blocks v)), (w, p))
  else
    Ok (mk_vars (<[target := u64 (indx + 1)]> (cnts v)) (oid v) (<[target := curblk]> (blocks v)), (w, p)).

(** ** Closing *)

Definition flush_bucket (s : run_state) (target : nat) : res run_state :=
  let '(v, (w, p)) := s in
  do indx <- of_option Undefined (cnts v !! target);
  do cols <- of_option Undefined (blocks v !! target);
  let new_oid := oid v in
  do (w, p) <- parent (mk_block (if hashProject then Some (Z.of_nat target) else None) indx new_oid cols) (w, p);
  Ok (mk_vars (cnts v) (u64 (new_oid + indx)) (blocks v), (w, p)).

Definition consume_flush (s : run_state) : res run_state := rfoldM flush_bucket s (seq 0 (Z.to_nat numOfBuckets)).

(** The pipeline, over the tuples of its child. *)
Definition run (ts : list T) (w : world M W) (p : P) : res (world M W * P) :=
  do (v, w) <- open w;
  do s <- rfoldM consume (v, (w, p)) ts;
  do (_, r) <- consume_flush s; Ok r.

(** ** What it means *)

Definition bucket (t : T) : nat := Z.to_nat (hashExpr t mod numOfBuckets).

(** The tuples in the buckets, and the blocks so far. *)
Definition push_tuple (s : list (list T) * list (nat * list T)) (t : T) : list (list T) * list (nat * list T) :=
  let '(bufs, out) := s in
  let b := default [] (bufs !! bucket t) ++ [t] in
  if Z.of_nat (length b) =? cap then (<[bucket t := []]> bufs, out ++ [(bucket t, b)]) else (<[bucket t := b]> bufs, out).

Definition blocks_of (ts : list T) : list (nat * list T) :=
  let '(bufs, out) := fold_left push_tuple ts (replicate (Z.to_nat numOfBuckets) [], []) in out ++ zip (seq 0 (length bufs)) bufs.

(** The tuples of the blocks of a bucket. *)
Definition tuples_of (i : nat) (bs : list (nat * list T)) : list T := concat (snd <$> filter (λ x, x.1 = i) bs).

Lemma tuples_of_app i bs bs' : tuples_of i (bs ++ bs') = tuples_of i bs ++ tuples_of i bs'.
Proof. unfold tuples_of. by rewrite filter_app, fmap_app, concat_app. Qed.

Lemma tuples_of_singleton i j ts : tuples_of i [(j, ts)] = if decide (j = i) then ts else [].
Proof. unfold tuples_of. rewrite filter_cons. simpl. case_decide; simpl; [apply app_nil_r | done]. Qed.

Lemma tuples_of_zip i k (bufs : list (list T)) :
  tuples_of i (zip (seq k (length bufs)) bufs) = if decide (k <= i)%nat then default [] (bufs !! (i - k)%nat) else [].
Proof.
  revert k. induction bufs as [| b bufs IH]; intros k; simpl; [by case_decide |].
  change ((?x, b) :: ?l) with ([(x, b)] ++ l). rewrite tuples_of_app, tuples_of_singleton, IH.
  destruct (decide (k = i)) as [-> | Hk].
  - rewrite decide_False, decide_True by lia. rewrite Nat.sub_diag. simpl. apply app_nil_r.
  - case_decide; case_decide; try lia; [| done]. replace (i - k)%nat with (S (i - S k)) by lia. done.
Qed.

(** ** The parent *)

(** The buffers [cols] hold the fields of the tuples [ts]. *)
Definition holds (w : world M W) (fs : list field) (cols : list Z) (ts : list T) : Prop :=
  Forall2 (λ f b, column w b (eval f <$> ts)) fs cols.

Lemma holds_same w w' fs cols ts : (∀ b, b ∈ cols → mem w' !! b = mem w !! b) → holds w fs cols ts → holds w' fs cols ts.
Proof.
  intros Hm Hh. induction Hh as [| f b fs cols Hb _ IH]; constructor.
  - eapply column_same; [apply Hm; left | done].
  - apply IH. intros x Hx. apply Hm. by right.
Qed.

(** A parent that is [ready] takes the buffers of a block over, and hands the rows of the block on; afterwards
    it holds no more buffers than a block has. *)
Class Absorbs `{!BuffersLaws M} {R : Type} (ready : P → Prop) (held : P → list Z) (out : P → list R) (row : option Z → T → R) : Prop :=
  absorbs m0 blk ts w p l : ready p → frame m0 (alloc w) (b_cols blk ++ held p ++ l) →
    holds w wantedFields (b_cols blk) ts → activeCnt blk = Z.of_nat (length ts) → Z.of_nat (length ts) <= cap →
    (hashProject = true → is_Some (b_hash blk)) →
    ∃ w' p', parent blk (w, p) = Ok (w', p') ∧ ready p' ∧ frame m0 (alloc w') (held p' ++ l) ∧ mem w' = mem w ∧
      (length (held p') <= length wantedFields)%nat ∧ out p' = out p ++ (row (b_hash blk) <$> ts).

(** ** Buffers *)

Context `{!BuffersLaws M}.

(** The widths: positive, and no value is wider than a buffer. *)
Definition fits : Prop := wantedFields ≠ [] ∧ Forall (λ f, 0 < width f <= capacity) wantedFields.

Lemma max_width_in f : f ∈ wantedFields → width f <= max_width.
Proof. unfold max_width. induction wantedFields as [| g l IH]; [by intros ?%elem_of_nil |]. simpl. intros [-> | Hf]%elem_of_cons; [lia |]. specialize (IH Hf). lia. Qed.

Lemma max_width_bounds : fits → 0 < max_width <= capacity.
Proof.
  intros [Hn Hf]. unfold max_width. destruct wantedFields as [| f l]; [done |]. clear Hn. apply Forall_cons in Hf as [Hf Hl].
  simpl. enough (0 <= foldr (λ f acc, Z.max (width f) acc) 0 l <= capacity) by lia.
  pose proof capacity_bounds. induction Hl as [| g l Hg _ IH]; simpl; lia.
Qed.

Lemma cap_pos : fits → 1 <= cap.
Proof. intros Hf. pose proof (max_width_bounds Hf). unfold cap. apply Z.div_le_lower_bound; lia. Qed.

Lemma cap_le : fits → cap <= capacity.
Proof. intros Hf. pose proof (max_width_bounds Hf). unfold cap. apply Z.div_le_upper_bound; [lia | nia]. Qed.

Lemma cap_width f k : fits → f ∈ wantedFields → k <= cap → 0 <= k → k * width f <= capacity.
Proof.
  intros Hf Hin Hk H0. pose proof (max_width_bounds Hf). pose proof (max_width_in f Hin).
  assert (cap * max_width <= capacity) by (unfold cap; rewrite Z.mul_comm; apply Z.mul_div_le; lia).
  assert (k * width f <= k * max_width) by (apply Z.mul_le_mono_nonneg_l; lia).
  assert (k * max_width <= cap * max_width) by (apply Z.mul_le_mono_nonneg_r; lia). lia.
Qed.

Lemma get_buffers_ok m0 fs : fits → fs ⊆ wantedFields → ∀ w l, frame m0 (alloc w) l → (length l + length fs <= available m0)%nat →
  ∃ bs w', get_buffers fs w = Ok (bs, w') ∧ frame m0 (alloc w') (bs ++ l) ∧ holds w' fs bs [] ∧
    ∀ b, b ∈ l → mem w' !! b = mem w !! b.
Proof.
  intros Hfit. induction fs as [| f fs IH]; intros Hsub w l Hfr Hl; simpl in *.
  { exists [], w. split; [done |]. split; [done |]. split; [constructor | done]. }
  destruct (frame_get m0 w l (cap * width f) Hfr) as (b & w1 & E & Hfr1 & Hm1); [| lia |].
  { apply cap_width; [done | set_solver | lia | pose proof (cap_pos Hfit); lia]. }
  destruct (IH ltac:(set_solver) w1 (b :: l) Hfr1) as (bs & w2 & E2 & Hfr2 & Hcols & Hm2); [simpl; lia |].
  exists (b :: bs), w2. rewrite E. simpl. rewrite E2. split; [done |].
  pose proof (f_nodup _ _ _ Hfr1) as [Hb _]%NoDup_cons.
  split; [by rewrite <- Permutation_middle in Hfr2 |]. split.
  - constructor; [| done]. apply column_nil. rewrite (Hm2 b (list_elem_of_here _ _)), Hm1, lookup_insert_eq. by eexists.
  - intros x Hx. rewrite Hm2 by (by right). rewrite Hm1, lookup_insert_ne; [done |]. by intros ->.
Qed.

Lemma store_fields_ok m0 l t buf fs cols w : fits → fs ⊆ wantedFields → frame m0 (alloc w) l → cols ⊆ l → NoDup cols →
  Z.of_nat (length buf) < cap → holds w fs cols buf →
  ∃ w', store_fields t (Z.of_nat (length buf)) fs cols w = Ok w' ∧ alloc w' = alloc w ∧
    holds w' fs cols (buf ++ [t]) ∧ ∀ b, b ∉ cols → mem w' !! b = mem w !! b.
Proof.
  intros Hfit Hsub Hfr Hcols Hd Hlen Hc. revert w Hfr Hd Hcols Hc Hsub.
  revert cols. induction fs as [| f fs IH]; intros cols w Hfr Hd Hcols Hc Hsub; inversion Hc as [| ? b ? bs Hb Hbs]; subst.
  { exists w. split; [done |]. split; [done |]. split; [constructor | done]. }
  apply NoDup_cons in Hd as [Hnb Hd]. destruct (column_store m0 w l b (width f) (eval f <$> buf) (eval f t) Hfr ltac:(set_solver) Hb) as (w1 & E1 & Ha1 & Hc1 & Hm1).
  { rewrite length_fmap. apply cap_width; [done | set_solver | lia | lia]. }
  rewrite length_fmap in E1. destruct (IH bs w1) as (w2 & E2 & Ha2 & Hc2 & Hm2); [by rewrite Ha1 | done | set_solver | | set_solver |].
  { eapply holds_same; [| done]. intros x Hx. apply Hm1. by intros ->. }
  exists w2. simpl. rewrite E1. simpl. split; [done |]. split; [congruence |]. split.
  - constructor; [| done]. eapply column_same; [apply Hm2; done |]. by rewrite fmap_app.
  - intros x Hx. apply not_elem_of_cons in Hx as [Hxb Hx]. rewrite Hm2, Hm1; done.
Qed.

(** ** The run *)

Context {R : Type} (ready : P → Prop) (held : P → list Z) (out : P → list R) (row : option Z → T → R) `{!Absorbs ready held out row}.

(** The rows of blocks. *)
Definition rows (bs : list (nat * list T)) : list R :=
  concat ((λ x : nat * list T, row (if hashProject then Some (Z.of_nat x.1) else None) <$> x.2) <$> bs).

Lemma rows_app bs bs' : rows (bs ++ bs') = rows bs ++ rows bs'.
Proof. unfold rows. by rewrite fmap_app, concat_app. Qed.

Context (m0 : M) (p0 : P).

(** The state, when the tuples of the buckets are [bufs] and the blocks so far are [bs]. *)
Record state_ok (s : run_state) (bufs : list (list T)) (bs : list (nat * list T)) : Prop := {
  s_cnts : cnts s.1 = (λ b, Z.of_nat (length b)) <$> bufs;
  s_blocks : Forall2 (λ b cols, holds s.2.1 wantedFields cols b) bufs (blocks s.1);
  s_small : Forall (λ b, Z.of_nat (length b) < cap) bufs;
  s_frame : frame m0 (alloc s.2.1) (concat (blocks s.1) ++ held s.2.2);
  s_ready : ready s.2.2;
  s_out : out s.2.2 = out p0 ++ rows bs;
}.

(** The buffers of the other buckets. *)
Definition others (i : nat) (bss : list (list Z)) : list Z := concat (<[i := []]> bss).

Lemma insert_blocks i bss cols : (i < length bss)%nat → concat (<[i := cols]> bss) ≡ₚ cols ++ others i bss.
Proof.
  intros Hi. unfold others. assert ((<[i := []]> bss) !! i = Some []) as Hl by (by apply list_lookup_insert_eq).
  pose proof (concat_insert _ _ _ cols Hl) as Hp. rewrite list_insert_insert_eq in Hp. exact Hp.
Qed.

Lemma split_blocks i bss cols : bss !! i = Some cols → concat bss ≡ₚ cols ++ others i bss.
Proof. intros Hi. rewrite <- insert_blocks by (by eapply lookup_lt_Some). by rewrite list_insert_id. Qed.

Lemma in_others i j bss cols b : bss !! j = Some cols → i ≠ j → b ∈ cols → b ∈ others i bss.
Proof.
  intros Hj Hij Hb. apply list_elem_of_In, in_concat. exists cols. split; [| by apply list_elem_of_In].
  apply list_elem_of_In, (list_elem_of_lookup_2 _ j). by rewrite list_lookup_insert_ne.
Qed.

Lemma length_others i bss n : (i < length bss)%nat → Forall (λ cols, length cols = n) bss → (length (others i bss) + n = length bss * n)%nat.
Proof.
  intros Hi Hn. unfold others. revert i Hi. induction Hn as [| cols bss Hc Hn IH]; intros i Hi; simpl in *; [lia |].
  destruct i as [| i]; simpl.
  - clear IH. induction Hn as [| c l Hl _ IH]; simpl; [lia |]. rewrite length_app. simpl in *. lia.
  - rewrite length_app. specialize (IH i). lia.
Qed.

Lemma holds_insert w w' i b cols bufs bss : Forall2 (λ b cols, holds w wantedFields cols b) bufs bss →
  (∀ x, x ∈ others i bss → mem w' !! x = mem w !! x) → holds w' wantedFields cols b →
  Forall2 (λ b cols, holds w' wantedFields cols b) (<[i := b]> bufs) (<[i := cols]> bss).
Proof.
  intros Hh Hm Hb. pose proof (Forall2_length _ _ _ Hh) as Hl. apply Forall2_same_length_lookup. rewrite !length_insert. split; [done |].
  intros j x y Hx Hy. destruct (decide (i = j)) as [<- | Hij].
  - apply list_lookup_insert_Some in Hx as [(_ & <- & _) | [? _]]; [| done]. apply list_lookup_insert_Some in Hy as [(_ & <- & _) | [? _]]; done.
  - rewrite list_lookup_insert_ne in Hx by done. rewrite list_lookup_insert_ne in Hy by done. eapply holds_same; [| by eapply (Forall2_lookup_lr _ _ _ _ _ _ Hh)].
    intros z Hz. apply Hm. by eapply in_others.
Qed.

Lemma fields_per_block w bufs bss : Forall2 (λ b cols, holds w wantedFields cols b) bufs bss → Forall (λ cols, length cols = length wantedFields) bss.
Proof. induction 1 as [| b cols bufs bss Hb _ IH]; constructor; [| done]. by apply Forall2_length in Hb. Qed.

(** The assumptions of the operator. *)
Record configured : Prop := {
  c_fits : fits;
  c_buckets : 0 < numOfBuckets < 2 ^ 31;
  c_enough : ((Z.to_nat numOfBuckets + 1) * length wantedFields <= available m0)%nat;
}.

Context (Hcfg : configured).

Lemma hash_of_ok t : hash_of t = Ok (Z.of_nat (bucket t)) ∧ u32 (Z.of_nat (bucket t)) = Z.of_nat (bucket t) ∧ (bucket t < Z.to_nat numOfBuckets)%nat.
Proof.
  destruct Hcfg as [_ Hn _]. unfold hash_of, bucket. rewrite (proj2 (Z.eqb_neq _ _)) by lia. simpl.
  pose proof (Z.mod_pos_bound (hashExpr t) numOfBuckets). rewrite Z2Nat.id by lia. split; [done |]. split; [apply wrap_id; lia | lia].
Qed.

Lemma bucket_full (b : list T) t : Z.of_nat (length b) < cap → (u64 (cap - 1) <=? Z.of_nat (length b)) = (Z.of_nat (length (b ++ [t])) =? cap).
Proof.
  intros Hb. destruct Hcfg as [Hf _ _]. pose proof (cap_pos Hf). pose proof (max_width_bounds Hf). pose proof capacity_bounds.
  pose proof (cap_le Hf). rewrite (wrap_id 64 (cap - 1)) by lia. rewrite length_app. simpl. destruct (Z.leb_spec (cap - 1) (Z.of_nat (length b))); [symmetry; apply Z.eqb_eq; lia |].
  symmetry. apply Z.eqb_neq. lia.
Qed.

Lemma consume_ok s bufs bs t : length bufs = Z.to_nat numOfBuckets → state_ok s bufs bs →
  ∃ s', consume s t = Ok s' ∧ state_ok s' (push_tuple (bufs, bs) t).1 (push_tuple (bufs, bs) t).2.
Proof.
  destruct s as [v [w p]]. intros Hn [Hcnt Hblk Hsmall Hfr Hrd Hout]. remember (push_tuple (bufs, bs) t) as pt eqn:Hpt.
  simpl in Hcnt, Hblk, Hsmall, Hfr, Hrd, Hout |- *. destruct (hash_of_ok t) as (Hh & Hu & Hi). rewrite Hh. simpl.
  rewrite Hu, Nat2Z.id. set (i := bucket t) in *. destruct (lookup_lt_is_Some_2 bufs i ltac:(lia)) as [buf Hbuf].
  destruct (Forall2_lookup_l _ _ _ _ _ Hblk Hbuf) as (cols & Hcols & Hholds). pose proof (Forall_lookup_1 _ _ _ _ Hsmall Hbuf) as Hlt. simpl in Hlt.
  rewrite Hcnt, list_lookup_fmap, Hbuf, Hcols. simpl. pose proof (split_blocks _ _ _ Hcols) as Hsplit.
  assert (Hfr1 := Hfr). rewrite Hsplit, <- app_assoc in Hfr1. pose proof (f_nodup _ _ _ Hfr1) as (Hnd & Hdis & _)%NoDup_app.
  destruct (store_fields_ok m0 _ t buf wantedFields cols w (c_fits Hcfg) ltac:(done) Hfr1 ltac:(set_solver) Hnd Hlt Hholds) as (w1 & E1 & Ha1 & Hh1 & Hm1).
  assert (pt = if Z.of_nat (length (buf ++ [t])) =? cap then (<[i := []]> bufs, bs ++ [(i, buf ++ [t])]) else (<[i := buf ++ [t]]> bufs, bs))
    as -> by (subst pt; unfold push_tuple; fold i; by rewrite Hbuf).
  assert (∀ x, x ∈ others i (blocks v) ++ held p → mem w1 !! x = mem w !! x) as Hm by (intros x Hx; apply Hm1; intros Hc; by apply (Hdis x Hc)).
  rewrite E1. simpl. rewrite (bucket_full buf t) by done. destruct (Z.eqb_spec (Z.of_nat (length (buf ++ [t]))) cap) as [Hfull | Hnot].
  - destruct (absorbs m0 (mk_block (if hashProject then Some (Z.of_nat i) else None) cap (oid v) cols) (buf ++ [t]) w1 p (others i (blocks v)))
      as (w2 & p2 & E2 & Hrd2 & Hfr2 & Hm2 & Hb2 & Ho2); [done | simpl; by rewrite Ha1, (Permutation_app_comm (held p)) | done | done | lia | intros ->; by eexists |].
    rewrite E2. simpl. pose proof (length_others i (blocks v) (length wantedFields) ltac:(by eapply lookup_lt_Some) (fields_per_block _ _ _ Hblk)) as Hlo.
    pose proof (Forall2_length _ _ _ Hblk) as Hlen. pose proof (c_enough Hcfg) as Henough.
    destruct (get_buffers_ok m0 wantedFields (c_fits Hcfg) ltac:(done) w2 _ Hfr2) as (cols' & w3 & E3 & Hfr3 & Hh3 & Hm3).
    { rewrite length_app. nia. }
    rewrite E3. simpl. eexists. split; [done |]. split; simpl.
    + by rewrite list_fmap_insert.
    + eapply holds_insert; [exact Hblk | | done]. intros x Hx. rewrite Hm3, Hm2, Hm by set_solver. done.
    + apply Forall_insert; [done | simpl; pose proof (cap_pos (c_fits Hcfg)); lia].
    + rewrite insert_blocks by (by eapply lookup_lt_Some). by rewrite <- app_assoc, (Permutation_app_comm (others _ _)).
    + done.
    + by rewrite Ho2, Hout, rows_app, <- app_assoc; unfold rows; simpl; rewrite app_nil_r.
  - eexists. split; [done |]. rewrite (list_insert_id (blocks v) _ _ Hcols). split; simpl.
    + rewrite list_fmap_insert. f_equal. rewrite length_app in *. simpl in *. pose proof capacity_bounds. pose proof (cap_le (c_fits Hcfg)).
      rewrite wrap_id by lia. lia.
    + rewrite <- (list_insert_id _ _ _ Hcols). eapply holds_insert; [exact Hblk | | done]. intros x Hx. apply Hm. set_solver.
    + apply Forall_insert; [done |]. rewrite length_app in *. simpl in *. lia.
    + by rewrite Ha1.
    + done.
    + done.
Qed.

Lemma open_blocks_ok n : ∀ w l, frame m0 (alloc w) l → (length l + n * length wantedFields <= available m0)%nat →
  ∃ bss w', open_blocks n w = Ok (bss, w') ∧ frame m0 (alloc w') (concat bss ++ l) ∧
    Forall2 (λ b cols, holds w' wantedFields cols b) (replicate n []) bss ∧ ∀ b, b ∈ l → mem w' !! b = mem w !! b.
Proof.
  induction n as [| n IH]; intros w l Hfr Hl; simpl in *.
  { exists [], w. split; [done |]. split; [done |]. split; [constructor | done]. }
  destruct (get_buffers_ok m0 wantedFields (c_fits Hcfg) ltac:(done) w l Hfr) as (bs & w1 & E1 & Hfr1 & Hh1 & Hm1); [lia |].
  destruct (IH w1 (bs ++ l) Hfr1) as (bss & w2 & E2 & Hfr2 & Hh2 & Hm2); [rewrite length_app; apply Forall2_length in Hh1; lia |].
  exists (bs :: bss), w2. rewrite E1. simpl. rewrite E2. split; [done |]. simpl.
  split; [by rewrite <- app_assoc, Permutation_app_swap_app |]. split.
  - constructor; [| done]. eapply holds_same; [| exact Hh1]. intros b Hb. apply Hm2. set_solver.
  - intros b Hb. rewrite Hm2, Hm1 by set_solver. done.
Qed.

Lemma open_ok w : alloc w = m0 → sane m0 → ready p0 → held p0 = [] →
  ∃ v w', open w = Ok (v, w') ∧ state_ok (v, (w', p0)) (replicate (Z.to_nat numOfBuckets) []) [].
Proof.
  intros Hw Hs Hrd Hp. destruct (open_blocks_ok (Z.to_nat numOfBuckets) w []) as (bss & w' & E & Hfr & Hh & _).
  { rewrite Hw. by apply frame_start. }
  { pose proof (c_enough Hcfg). simpl. lia. }
  unfold open. rewrite E. simpl. do 2 eexists. split; [done |]. split; simpl.
  - by rewrite fmap_replicate.
  - done.
  - apply Forall_replicate. simpl. pose proof (cap_pos (c_fits Hcfg)). lia.
  - by rewrite Hp, app_nil_r in *.
  - done.
  - unfold rows. simpl. by rewrite app_nil_r.
Qed.

Lemma consume_all_ok ts : ∀ s bufs bs, length bufs = Z.to_nat numOfBuckets → state_ok s bufs bs →
  ∃ s', rfoldM consume s ts = Ok s' ∧ state_ok s' (fold_left push_tuple ts (bufs, bs)).1 (fold_left push_tuple ts (bufs, bs)).2.
Proof.
  induction ts as [| t ts IH]; intros s bufs bs Hn Hs; [by exists s |]. cbn [rfoldM fold_left].
  destruct (consume_ok s bufs bs t Hn Hs) as (s1 & E & Hs1). rewrite E. simpl rbind.
  destruct (push_tuple (bufs, bs) t) as [bufs1 bs1] eqn:Ep. apply IH; [| done].
  unfold push_tuple in Ep. case_match; simplify_eq; by rewrite length_insert.
Qed.

Lemma length_fold ts bufs bs : length (fold_left push_tuple ts (bufs, bs)).1 = length bufs.
Proof.
  revert bufs bs. induction ts as [| t ts IH]; intros bufs bs; [done |]. cbn [fold_left].
  destruct (push_tuple (bufs, bs) t) as [bufs1 bs1] eqn:Ep. rewrite IH. unfold push_tuple in Ep. case_match; simplify_eq; by rewrite length_insert.
Qed.

(** The buckets from [k] on are still to be flushed. *)
Record flushing (v : vars) (bufs : list (list T)) (bs : list (nat * list T)) (k : nat) (s : run_state) : Prop := {
  fl_cnts : cnts s.1 = cnts v;
  fl_blocks : blocks s.1 = blocks v;
  fl_holds : Forall2 (λ b cols, holds s.2.1 wantedFields cols b) (skipn k bufs) (skipn k (blocks v));
  fl_frame : frame m0 (alloc s.2.1) (concat (skipn k (blocks v)) ++ held s.2.2);
  fl_ready : ready s.2.2;
  fl_out : out s.2.2 = out p0 ++ rows (bs ++ zip (seq 0 k) (take k bufs));
}.

Lemma flush_ok s bufs bs : length bufs = Z.to_nat numOfBuckets → state_ok s bufs bs →
  ∃ s', consume_flush s = Ok s' ∧ frame m0 (alloc s'.2.1) (held s'.2.2) ∧ out s'.2.2 = out p0 ++ rows (bs ++ zip (seq 0 (length bufs)) bufs).
Proof.
  intros Hn [Hcnt Hblk Hsmall Hfr Hrd Hout]. pose proof (Forall2_length _ _ _ Hblk) as Hlen.
  destruct (rfoldM_seq_inv flush_bucket (flushing s.1 bufs bs) (Z.to_nat numOfBuckets) s) as (s' & E & [_ _ _ Hfr' _ Hout']).
  - split; [done | done | by rewrite !drop_0 | by rewrite drop_0 | done | simpl; by rewrite app_nil_r].
  - intros k [v [w p]] Hk [Hc Hb Hh Hf Hr Ho]. simpl in *. destruct (lookup_lt_is_Some_2 bufs k ltac:(lia)) as [b Hbk].
    destruct (Forall2_lookup_l _ _ _ _ _ Hblk Hbk) as (cols & Hcols & _).
    rewrite (drop_S _ _ _ Hbk), (drop_S _ _ _ Hcols) in Hh. inversion Hh as [| ? ? ? ? Hb1 Hrest]; subst.
    rewrite (drop_S _ _ _ Hcols) in Hf. simpl in Hf. rewrite <- app_assoc, (Permutation_app_comm (concat _)) in Hf.
    rewrite Hc, Hb, Hcnt, list_lookup_fmap, Hbk, Hcols. simpl.
    destruct (absorbs m0 (mk_block (if hashProject then Some (Z.of_nat k) else None) (Z.of_nat (length b)) (oid v) cols) b w p _ Hr Hf)
      as (w' & p' & E & Hr' & Hf' & Hm' & _ & Ho'); [done | done | pose proof (Forall_lookup_1 _ _ _ _ Hsmall Hbk); simpl in *; lia | intros ->; by eexists |].
    rewrite E. simpl. eexists. split; [done |]. split; simpl; [done | done | | | done |].
    + rewrite Nat.add_1_r. eapply Forall2_impl; [exact Hrest |]. intros b' c'. apply holds_same. intros. by rewrite Hm'.
    + rewrite Nat.add_1_r. by rewrite (Permutation_app_comm (concat _)).
    + rewrite Ho', Ho, <- app_assoc. f_equal. rewrite Nat.add_1_r, seq_S, (take_S_r _ _ _ Hbk), zip_with_app by (rewrite length_seq, length_take; lia).
      rewrite app_assoc, (rows_app (bs ++ _)). f_equal. unfold rows. simpl. by rewrite app_nil_r.
  - exists s'. split; [exact E |]. rewrite (drop_ge (blocks s.1)) in Hfr' by lia. split; [done |]. by rewrite Hout', Hn, take_ge by lia.
Qed.

Lemma run_ok ts w : alloc w = m0 → sane m0 → ready p0 → held p0 = [] →
  ∃ w' p', run ts w p0 = Ok (w', p') ∧ frame m0 (alloc w') (held p') ∧ out p' = out p0 ++ rows (blocks_of ts).
Proof.
  intros Hw Hs Hrd Hp. destruct (open_ok w Hw Hs Hrd Hp) as (v & w1 & E1 & H1). unfold run. rewrite E1. simpl rbind.
  destruct (consume_all_ok ts _ _ _ (length_replicate _ _) H1) as (s2 & E2 & H2). rewrite E2. simpl rbind.
  destruct (flush_ok _ _ _ (eq_trans (length_fold _ _ _) (length_replicate _ _)) H2) as ([v3 [w3 p3]] & E3 & Hfr & Hout). rewrite E3. simpl in *.
  do 2 eexists. split; [done |]. split; [done |]. rewrite Hout. unfold blocks_of. by destruct (fold_left push_tuple ts _) as [bufs bs].
Qed.

(** ** The blocks *)

Lemma fold_tuples ts i : (i < Z.to_nat numOfBuckets)%nat →
  let s := fold_left push_tuple ts (replicate (Z.to_nat numOfBuckets) [], []) in
  tuples_of i s.2 ++ default [] (s.1 !! i) = filter (λ t, bucket t = i) ts.
Proof.
  intros Hi. induction ts as [| t ts IH] using rev_ind; cbn zeta in *.
  { simpl. by rewrite lookup_replicate_2. }
  rewrite fold_left_app. cbn [fold_left]. pose proof (length_fold ts (replicate (Z.to_nat numOfBuckets) []) []) as Hl.
  destruct (fold_left push_tuple ts _) as [bufs bs]. simpl in IH, Hl. rewrite length_replicate in Hl. rewrite filter_app, <- IH.
  destruct (hash_of_ok t) as (_ & _ & Hb). unfold push_tuple. rewrite filter_cons.
  destruct (decide (bucket t = i)) as [Ht | Ht]; [subst i | rewrite filter_nil, app_nil_r]; case_match; simpl.
  - rewrite list_lookup_insert_eq by lia. simpl. rewrite tuples_of_app, tuples_of_singleton, decide_True by done. by rewrite app_nil_r, app_assoc.
  - rewrite list_lookup_insert_eq by lia. simpl. by rewrite app_assoc.
  - by rewrite list_lookup_insert_ne, tuples_of_app, tuples_of_singleton, decide_False, app_nil_r.
  - by rewrite list_lookup_insert_ne.
Qed.

(** The blocks of a bucket hold its tuples, in their order. *)
Lemma blocks_of_bucket ts i : (i < Z.to_nat numOfBuckets)%nat → tuples_of i (blocks_of ts) = filter (λ t, bucket t = i) ts.
Proof.
  intros Hi. pose proof (fold_tuples ts i Hi) as Hf. unfold blocks_of. destruct (fold_left push_tuple ts _) as [bufs bs]. simpl in Hf.
  rewrite tuples_of_app, tuples_of_zip, decide_True by lia. by rewrite Nat.sub_0_r.
Qed.

Lemma blocks_of_size ts : Forall (λ x, (x.1 < Z.to_nat numOfBuckets)%nat ∧ Z.of_nat (length x.2) <= cap) (blocks_of ts).
Proof.
  pose proof (cap_pos (c_fits Hcfg)) as Hcap. pose proof (length_fold ts (replicate (Z.to_nat numOfBuckets) []) []) as Hl.
  assert (let s := fold_left push_tuple ts (replicate (Z.to_nat numOfBuckets) [], []) in
    Forall (λ b, Z.of_nat (length b) < cap) s.1 ∧ Forall (λ x, (x.1 < Z.to_nat numOfBuckets)%nat ∧ Z.of_nat (length x.2) <= cap) s.2) as [Hb Ho].
  { clear Hl. induction ts as [| t ts IH] using rev_ind; cbn zeta in *; simpl; [split; [apply Forall_replicate; simpl; lia | done] |].
    rewrite fold_left_app. cbn [fold_left]. destruct (fold_left push_tuple ts _) as [bufs bs]. simpl in IH. destruct IH as [Hb Ho].
    destruct (hash_of_ok t) as (_ & _ & Ht). assert (Z.of_nat (length (default [] (bufs !! bucket t))) < cap) as Hd.
    { destruct (bufs !! bucket t) as [b |] eqn:E; simpl; [| lia]. apply (Forall_lookup_1 _ _ _ _ Hb E). }
    unfold push_tuple. rewrite length_app. destruct (Z.eqb_spec (Z.of_nat (length (default [] (bufs !! bucket t)) + length [t])) cap) as [Hc | Hc]; simpl in *.
    - split; [apply Forall_insert; [done | simpl; lia] |]. apply Forall_app. split; [done |]. constructor; [| done]. simpl. rewrite length_app. simpl. lia.
    - split; [| done]. apply Forall_insert; [done |]. rewrite length_app. simpl. lia. }
  unfold blocks_of. destruct (fold_left push_tuple ts _) as [bufs bs]. simpl in *. rewrite length_replicate in Hl. apply Forall_app. split; [done |].
  apply Forall_lookup_2. intros k [j b] Hk. apply lookup_zip_Some in Hk as [Hj Hbk]. apply lookup_seq in Hj as [-> Hj]. simpl.
  pose proof (Forall_lookup_1 _ _ _ _ Hb Hbk). simpl in *. lia.
Qed.

Lemma blocks_of_members ts i b t : (i, b) ∈ blocks_of ts → t ∈ b → bucket t = i.
Proof.
  intros Hb Ht. destruct (proj1 (Forall_forall _ _) (blocks_of_size ts) _ Hb) as [Hi _]. simpl in Hi.
  assert (t ∈ tuples_of i (blocks_of ts)) as Hin.
  { unfold tuples_of. apply list_elem_of_In, in_concat. exists b. split; [| by apply list_elem_of_In].
    apply list_elem_of_In, list_elem_of_fmap. exists (i, b). split; [done |]. by apply list_elem_of_filter. }
  rewrite blocks_of_bucket in Hin by done. by apply list_elem_of_filter in Hin as [? _].
Qed.

Lemma blocks_of_perm ts : concat (snd <$> blocks_of ts) ≡ₚ ts.
Proof.
  assert (let s := fold_left push_tuple ts (replicate (Z.to_nat numOfBuckets) [], []) in concat (snd <$> s.2) ++ concat s.1 ≡ₚ ts) as Hf.
  { induction ts as [| t ts IH] using rev_ind; cbn zeta in *; simpl.
    { induction (Z.to_nat numOfBuckets) as [| n IH]; simpl; [done | exact IH]. }
    rewrite fold_left_app. cbn [fold_left]. pose proof (length_fold ts (replicate (Z.to_nat numOfBuckets) []) []) as Hl.
    destruct (fold_left push_tuple ts _) as [bufs bs]. simpl in IH, Hl. rewrite length_replicate in Hl.
    destruct (hash_of_ok t) as (_ & _ & Hb). destruct (lookup_lt_is_Some_2 bufs (bucket t) ltac:(lia)) as [b Hbk].
    unfold push_tuple. rewrite Hbk. simpl. rewrite <- IH. case_match; simpl.
    - rewrite fmap_app, concat_app. simpl. rewrite app_nil_r, <- !app_assoc. f_equiv. simpl.
      pose proof (concat_insert _ _ _ [] Hbk) as Hp. simpl in Hp. rewrite <- Hp. rewrite <- !app_assoc. f_equiv. by rewrite Permutation_app_comm.
    - rewrite <- app_assoc. f_equiv. pose proof (concat_insert _ _ _ (b ++ [t]) Hbk) as Hp. apply (Permutation_app_inv_l b).
      rewrite Hp, <- app_assoc. f_equiv. by rewrite Permutation_app_comm. }
  unfold blocks_of. destruct (fold_left push_tuple ts _) as [bufs bs]. simpl in Hf. rewrite fmap_app, concat_app, <- Hf. f_equiv.
  rewrite snd_zip by (by rewrite length_seq). done.
Qed.

(** The rows of the blocks are those of the tuples. *)
Lemma rows_perm ts : rows (blocks_of ts) ≡ₚ (λ t, row (if hashProject then Some (Z.of_nat (bucket t)) else None) t) <$> ts.
Proof.
  etrans; [| by apply fmap_Permutation, blocks_of_perm]. unfold rows. pose proof (blocks_of_members ts) as Hm.
  induction (blocks_of ts) as [| [i b] bs IH]; simpl; [done |]. rewrite fmap_app. f_equiv.
  - erewrite list_fmap_ext; [done |]. intros k t Ht. simpl. by rewrite (Hm i b t) by (left || by eapply list_elem_of_lookup_2).
  - apply IH. intros j c t Hj. apply Hm. by right.
Qed.

End rearrange.
End HashRearrange.
