(* ===== verification/BlockToTuples.v ===== *)
(** * BlockToTuples: blocks into tuples
    ([olap/lib/operators/block-to-tuples.cpp]; the loop of [BinaryBlockPlugin::forEachInCollection]).

    The code generated for a block releases the buffers of the block before it, keeps
    those of the new one, and runs its parent once per tuple.  The plug-in of blocks is lazy: a field is bound
    to the address of its element, and what the parent reads there is the field of the row here.
    The rows the parent is run on are recorded in their order.

    The second part composes this operator with [HashRearrange] through the interface of that. *)

From Stdlib Require Import ZArith Lia Bool.
From stdpp Require Import base numbers list gmap.
From S2P Require Import Prelude BlockManager Blocks HashRearrange.

Local Open Scope Z_scope.
Local Open Scope res_scope.

Module BlockToTuples.
Import BlockManager Blocks HashRearrange.

(** A wanted field: a column of the block, with the width of its elements, or the hash, which is
    a value for the whole block. *)
Inductive wanted : Type := WBlock (j : nat) (width : Z) | WValue.

Section block_to_tuples.
Context {M W : Type} `{Buffers M} (wantedFields : list wanted).

Record row : Type := mk_row { r_oid : Z; r_fields : list (W + Z) }.

Record state : Type := mk_state { old_buffs : list Z; out : list row }.

Definition columns : list nat := omap (λ f, match f with WBlock j _ => Some j | WValue => None end) wantedFields.

(** [open]: no buffers are held.  An operator without columns is refused. *)
Definition open : res state :=
  check negb (Nat.eqb (length columns) 0) else AssertFailed;
  Ok (mk_state (replicate (length columns) 0) []).

(** The buffers of the block take the place of those before. *)
Fixpoint swap_buffers (fs : list wanted) (olds : list Z) (blk : block) (w : world M W) : res (list Z * world M W) :=
  match fs, olds with
  | [], [] => Ok ([], w)
  | [], _ :: _ => Err AssertFailed
  | WValue :: fs', _ => swap_buffers fs' olds blk w
  | WBlock j _ :: _, [] => Err OutOfRange
  | WBlock j _ :: fs', old :: olds' =>
      do arg <- of_option Throw (b_cols blk !! j);
      do w <- release_buffer old w;
      do (args, w) <- swap_buffers fs' olds' blk w;
      Ok (arg :: args, w)
  end.

(** A field of the tuple of index [i]. *)
Definition read_field (blk : block) (w : world M W) (i : nat) (f : wanted) : res (W + Z) :=
  match f with
  | WBlock j width =>
      do arg <- of_option Throw (b_cols blk !! j);
      do v <- load width arg (Z.of_nat i) w; Ok (inl v)
  | WValue => do h <- of_option Throw (b_hash blk); Ok (inr h)
  end.

(** The identifier is the variable that was set before the loop, and the loop counts in another. *)
Definition read_row (blk : block) (w : world M W) (i : nat) : res row :=
  do fs <- rmapM (read_field blk w i) wantedFields; Ok (mk_row 0 fs).

Definition consume (blk : block) (s : world M W * state) : res (world M W * state) :=
  let '(w, p) := s in
  do (args, w) <- swap_buffers wantedFields (old_buffs p) blk w;
  do rows <- rmapM (read_row blk w) (seq 0 (Z.to_nat (activeCnt blk)));
  Ok (w, mk_state args (out p ++ rows)).

Fixpoint release_all (l : list Z) (w : world M W) : res (world M W) :=
  match l with [] => Ok w | b :: l' => do w <- release_buffer b w; release_all l' w end.

Definition close (w : world M W) (p : state) : res (world M W) := release_all (old_buffs p) w.

(** ** Blocks of fields *)

Context {T : Type} `{!BuffersLaws M} (fields : list (field (W := W) (T := T))) (hashProject : bool).

(** The wanted fields are the columns of the blocks, each once, with their widths; and the
    hash only if it is there. *)
Record matches : Prop := {
  m_columns : columns ≡ₚ seq 0 (length fields);
  m_fields : Forall (λ f, match f with WBlock j wd => ∃ g, fields !! j = Some g ∧ width g = wd | WValue => hashProject = true end) wantedFields;
}.

(** What the parent gets for a tuple. *)
Definition row_of (h : option Z) (t : T) : row :=
  mk_row 0 (omap (λ f, match f with WBlock j _ => (λ g, inl (eval g t)) <$> fields !! j | WValue => inr <$> h end) wantedFields).

Definition held (p : state) : list Z := filter (λ b, b ≠ 0) (old_buffs p).

Definition ready (p : state) : Prop := length (old_buffs p) = length columns.

(** The buffers of the wanted columns. *)
Definition args_of (blk : block) (fs : list wanted) : list Z :=
  omap (λ f, match f with WBlock j _ => b_cols blk !! j | WValue => None end) fs.

Lemma held_all l o : 0 ∉ l → held (mk_state l o) = l.
Proof.
  intros H0. unfold held. simpl. induction l as [| b l IH]; [done |]. apply not_elem_of_cons in H0 as [Hb H0].
  rewrite filter_cons_True by done. f_equal. by apply IH.
Qed.

Lemma held_none n o : held (mk_state (replicate n 0) o) = [].
Proof. unfold held. simpl. induction n as [| n IH]; [done |]. simpl. rewrite filter_cons_False by auto. exact IH. Qed.

Lemma omap_lookup_perm {A} (l : list A) js : js ≡ₚ seq 0 (length l) → omap (λ j, l !! j) js ≡ₚ l.
Proof.
  intros ->. assert (∀ k, omap (λ j, l !! (j - k)%nat) (seq k (length l)) = l) as Hk; [| specialize (Hk 0%nat)].
  - induction l as [| x l IH]; intros k; simpl; [done |]. rewrite Nat.sub_diag. simpl. f_equal. rewrite <- (IH (S k)) at 2.
    apply list_omap_ext, Forall2_same_length_lookup. split; [done |]. intros i j1 j2 H1 H2. rewrite H1 in H2. injection H2 as <-.
    apply lookup_seq in H1 as [-> _]. by replace (S k + i - k)%nat with (S i) by lia; replace (S k + i - S k)%nat with i by lia.
  - erewrite list_omap_ext; [by rewrite Hk |]. apply Forall_Forall2_diag, Forall_true. intros j. by rewrite Nat.sub_0_r.
Qed.

Lemma args_of_perm blk : matches → length (b_cols blk) = length fields → args_of blk wantedFields ≡ₚ b_cols blk.
Proof.
  intros [Hc _] Hl. rewrite <- (omap_lookup_perm (b_cols blk) columns) by (by rewrite Hl).
  assert (args_of blk wantedFields = omap (λ j, b_cols blk !! j) columns) as ->; [| done]. unfold args_of, columns.
  clear. induction wantedFields as [| [j wd |] l IH]; simpl; [done | | exact IH]. destruct (b_cols blk !! j); [f_equal; exact IH | exact IH].
Qed.

Lemma swap_buffers_ok m0 blk fs : ∀ olds w l, length olds = length (omap (λ f, match f with WBlock j _ => Some j | WValue => None end) fs) →
  frame m0 (alloc w) (filter (λ b, b ≠ 0) olds ++ l) →
  Forall (λ f, match f with WBlock j _ => (j < length (b_cols blk))%nat | WValue => True end) fs →
  ∃ w', swap_buffers fs olds blk w = Ok (args_of blk fs, w') ∧ frame m0 (alloc w') l ∧ mem w' = mem w.
Proof.
  induction fs as [| [j wd |] fs IH]; intros [| old olds] w l Hl Hfr Hin; simpl in *; try done; try (by apply (IH (old :: olds)) || by apply (IH [])).
  - by exists w.
  - apply Forall_cons in Hin as [Hj Hin]. destruct (lookup_lt_is_Some_2 _ _ Hj) as [arg Harg]. rewrite Harg. simpl.
    assert (∃ w1, release_buffer old w = Ok w1 ∧ frame m0 (alloc w1) (filter (λ b, b ≠ 0) olds ++ l) ∧ mem w1 = mem w) as (w1 & E1 & Hf1 & Hm1).
    { rewrite filter_cons in Hfr. destruct (decide (old ≠ 0)) as [Ho | Ho%dec_stable]; [by apply frame_release |].
      subst old. exists w. unfold release_buffer. rewrite release_null. by destruct w. }
    rewrite E1. simpl. destruct (IH olds w1 l) as (w2 & E2 & Hf2 & Hm2); [by injection Hl | done | done |]. rewrite E2. simpl.
    exists w2. split; [done |]. split; [done | congruence].
  - apply Forall_cons in Hin as [_ Hin]. by apply (IH []).
  - apply Forall_cons in Hin as [_ Hin]. by apply (IH (old :: olds)).
Qed.

Lemma read_field_ok m0 w l blk ts i t f : matches → fits fields → frame m0 (alloc w) l → b_cols blk ⊆ l →
  holds w fields (b_cols blk) ts → Z.of_nat (length ts) <= cap fields → (hashProject = true → is_Some (b_hash blk)) →
  ts !! i = Some t → f ∈ wantedFields →
  ∃ v, read_field blk w i f = Ok v ∧ match f with WBlock j _ => (λ g, inl (eval g t)) <$> fields !! j | WValue => inr <$> b_hash blk end = Some v.
Proof.
  intros [_ Hm] Hfit Hfr Hsub Hh Hlen Hhash Ht Hf. apply (proj1 (Forall_forall _ _) Hm) in Hf. destruct f as [j wd |]; simpl.
  - destruct Hf as (g & Hg & <-). destruct (Forall2_lookup_l _ _ _ _ _ Hh Hg) as (b & Hb & Hcol). rewrite Hb, Hg. simpl.
    rewrite (column_load m0 w l b (width g) (eval g <$> ts) i (eval g t)); [by eexists | done | | done | by rewrite list_lookup_fmap, Ht |].
    + apply Hsub. by eapply list_elem_of_lookup_2.
    + apply (cap_width fields); [done | by eapply list_elem_of_lookup_2 | | lia]. apply lookup_lt_Some in Ht. lia.
  - destruct (Hhash Hf) as [h ->]. by eexists.
Qed.

Lemma read_row_ok m0 w l blk ts i t : matches → fits fields → frame m0 (alloc w) l → b_cols blk ⊆ l →
  holds w fields (b_cols blk) ts → Z.of_nat (length ts) <= cap fields → (hashProject = true → is_Some (b_hash blk)) →
  ts !! i = Some t → read_row blk w i = Ok (row_of (b_hash blk) t).
Proof.
  intros Hm Hfit Hfr Hsub Hh Hlen Hhash Ht. pose proof (λ f, read_field_ok m0 w l blk ts i t f Hm Hfit Hfr Hsub Hh Hlen Hhash Ht) as Hrf.
  unfold read_row, row_of. clear Hm.
  assert (rmapM (read_field blk w i) wantedFields = Ok (omap (λ f, match f with WBlock j _ => (λ g, inl (eval g t)) <$> fields !! j | WValue => inr <$> b_hash blk end) wantedFields)) as ->; [| done].
  induction wantedFields as [| f fs IH]; [done |]. simpl. destruct (Hrf f (list_elem_of_here _ _)) as (v & -> & Hv). simpl.
  rewrite IH by (intros g Hg; apply Hrf; by right). simpl. by rewrite Hv.
Qed.

Lemma rmapM_seq {A B} (f : nat → res B) (g : A → B) (l : list A) :
  (∀ i x, l !! i = Some x → f i = Ok (g x)) → rmapM f (seq 0 (length l)) = Ok (g <$> l).
Proof.
  intros Hf. apply rmapM_Ok, Forall2_same_length_lookup. rewrite length_seq, length_fmap. split; [done |].
  intros i n y Hn Hy. apply lookup_seq in Hn as [-> _]. simpl. rewrite list_lookup_fmap in Hy. destruct (l !! i) as [x |] eqn:E; [| done].
  injection Hy as <-. by apply Hf.
Qed.

(** This operator is a parent that [HashRearrange] can feed. *)
Lemma block_to_tuples_absorbs : matches → fits fields → Absorbs fields hashProject consume ready held out row_of.
Proof.
  intros Hm Hfit m0 blk ts w p l Hr Hfr Hh Hcnt Hlen Hhash. pose proof (Forall2_length _ _ _ Hh) as Hl.
  assert (Forall (λ f, match f with WBlock j _ => (j < length (b_cols blk))%nat | WValue => True end) wantedFields) as Hin.
  { destruct Hm as [_ Hm]. eapply Forall_impl; [exact Hm |]. intros [j wd |]; [| done]. intros (g & Hg & _). rewrite <- Hl. by eapply lookup_lt_Some. }
  assert (Hfr' := Hfr). rewrite (Permutation_app_swap_app (b_cols blk)) in Hfr'.
  destruct (swap_buffers_ok m0 blk wantedFields (old_buffs p) w (b_cols blk ++ l) Hr Hfr' Hin) as (w' & E & Hfr1 & Hmem).
  unfold consume. rewrite E. simpl. rewrite Hcnt, Nat2Z.id.
  rewrite (rmapM_seq (read_row blk w') (row_of (b_hash blk)) ts); simpl.
  2:{ intros i t Ht. apply (read_row_ok m0 w' (b_cols blk ++ l) blk ts); try done; [set_solver |]. eapply holds_same; [| exact Hh]. intros. by rewrite Hmem. }
  pose proof (args_of_perm blk Hm (eq_sym Hl)) as Hargs. assert (held (mk_state (args_of blk wantedFields) (out p ++ (row_of (b_hash blk) <$> ts))) = args_of blk wantedFields) as Hheld.
  { apply held_all. rewrite Hargs. pose proof (f_null _ _ _ Hfr1). set_solver. }
  do 2 eexists. split; [done |]. split; [| split; [| split; [done | split; [| done]]]].
  - unfold ready. simpl. destruct Hm as [Hc _]. by rewrite Hargs, Hc, length_seq.
  - by rewrite Hheld, Hargs.
  - by rewrite Hheld, Hargs, Hl.
Qed.

Lemma release_all_ok m0 olds : ∀ w, frame m0 (alloc w) (filter (λ b, b ≠ 0) olds) →
  ∃ w', release_all olds w = Ok w' ∧ frame m0 (alloc w') [].
Proof.
  induction olds as [| b olds IH]; intros w Hfr; simpl; [by exists w |]. rewrite filter_cons in Hfr.
  destruct (decide (b ≠ 0)) as [Hb | Hb%dec_stable].
  - destruct (frame_release _ _ _ _ Hfr) as (w1 & E & Hfr1 & _). rewrite E. simpl. by apply IH.
  - subst b. unfold release_buffer. rewrite release_null. simpl. destruct w. by apply IH.
Qed.

End block_to_tuples.

(** ** Tuples into blocks and back *)

Section repartition.
Context {M W T : Type} `{BuffersLaws M} (numOfBuckets : Z) (fields : list (field (W := W) (T := T))) (hashExpr : T → Z) (hashProject : bool).
Context (wantedFields : list wanted).

(** The pipeline of both operators: the one that is opened first is closed last. *)
Definition repartition (ts : list T) (w : world M W) : res (list (row (W := W)) * world M W) :=
  do p <- open wantedFields;
  do (w, p) <- run numOfBuckets fields hashExpr hashProject (consume wantedFields) ts w p;
  do w <- close w p; Ok (out p, w).

(** C16: With a buffer per field for every bucket and as many again, hash partitioning followed by the unpacking of the
    blocks finishes for any number of tuples without an access outside of a buffer or to one that is not held.
    Every tuple comes out exactly once, with its fields and the number of its bucket; the tuples of a bucket
    come in blocks of at most the capacity, in the order they went in; and all buffers are given back. *)
Theorem repartition_correct ts w :
  configured numOfBuckets fields (alloc w) → matches wantedFields fields hashProject → sane (alloc w) →
  ∃ rs w' bs, repartition ts w = Ok (rs, w') ∧
    rs = rows hashProject (row_of wantedFields fields) bs ∧
    Forall (λ x : nat * list T, Z.of_nat (length x.2) <= cap fields) bs ∧
    (∀ i, (i < Z.to_nat numOfBuckets)%nat → tuples_of i bs = filter (λ t, bucket numOfBuckets hashExpr t = i) ts) ∧
    rs ≡ₚ (λ t, row_of wantedFields fields (if hashProject then Some (Z.of_nat (bucket numOfBuckets hashExpr t)) else None) t) <$> ts ∧
    (∀ b, refcount (alloc w') b = refcount (alloc w) b) ∧ available (alloc w') = available (alloc w).
Proof.
  intros Hcfg Hm Hs. pose proof (c_fits _ _ _ Hcfg) as Hfit. pose proof (block_to_tuples_absorbs wantedFields fields hashProject Hm Hfit) as Habs.
  assert (length (columns wantedFields) = length fields) as Hcols by (destruct Hm as [Hc _]; by rewrite Hc, length_seq).
  set (p0 := mk_state (W := W) (replicate (length (columns wantedFields)) 0) []).
  assert (held p0 = []) as Hheld by apply held_none.
  destruct (run_ok numOfBuckets fields hashExpr hashProject (consume wantedFields) (ready wantedFields) held out (row_of wantedFields fields) (alloc w) p0 Hcfg ts w)
    as (w1 & p1 & E1 & Hfr1 & Ho1); [done | done | by unfold ready; simpl; rewrite length_replicate | done |].
  destruct (release_all_ok _ _ _ Hfr1) as (w2 & E2 & Hfr2).
  exists (out p1), w2, (blocks_of numOfBuckets fields hashExpr ts). unfold repartition, open.
  assert (Nat.eqb (length (columns wantedFields)) 0 = false) as -> by (rewrite Hcols; apply Nat.eqb_neq; destruct Hfit as [Hn _]; by destruct fields).
  simpl. fold p0. rewrite E1. simpl. unfold close. rewrite E2. simpl. split; [done |].
  split; [exact Ho1 |]. split; [eapply Forall_impl; [apply (blocks_of_size numOfBuckets fields hashExpr _ Hcfg) |]; simpl; tauto |].
  split; [intros i Hi; by apply (blocks_of_bucket _ _ _ (alloc w)) |].
  split; [rewrite Ho1; by apply (rows_perm _ _ _ _ _ (alloc w)) |].
  split; [intros b; apply (f_rest _ _ _ Hfr2); set_solver |]. pose proof (f_left _ _ _ Hfr2) as Hl. simpl in Hl. lia.
Qed.

End repartition.
(** ** An example: pairs into two buckets, blocks of two tuples, on a pool of six buffers *)

Definition ex_node (b : Z) : option nat := Some 0%nat.

Definition ex_buffers : Buffers manager := manager_buffers ex_node 0.
Definition ex_laws : @BuffersLaws manager ex_buffers := manager_laws ex_node 0.

Definition ex_fields : list (field (W := Z) (T := Z * Z)) := [mk_field fst (2 ^ 20); mk_field snd (2 ^ 19)].
Definition ex_wanted : list wanted := [WBlock 1 (2 ^ 19); WValue; WBlock 0 (2 ^ 20)].
Definition ex_world : world manager Z := mk_world (init [(2 ^ 22, 6%nat)]) ∅.
Definition ex_tuples : list (Z * Z) := [(7, 70); (4, 40); (1, 10); (9, 90); (2, 20)].

Lemma repartition_correct_witness : ∃ rs w',
  @repartition manager Z (Z * Z) ex_buffers 2 ex_fields fst true ex_wanted ex_tuples ex_world = Ok (rs, w') ∧
  rs ≡ₚ [mk_row 0 [inl 70; inr 1; inl 7]; mk_row 0 [inl 40; inr 0; inl 4]; mk_row 0 [inl 10; inr 1; inl 1];
        mk_row 0 [inl 90; inr 1; inl 9]; mk_row 0 [inl 20; inr 0; inl 2]] ∧
  @available manager ex_buffers (alloc w') = 6%nat.
Proof.
  destruct (@repartition_correct manager Z (Z * Z) ex_buffers ex_laws 2 ex_fields fst true ex_wanted ex_tuples ex_world) as (rs & w' & bs & E & _ & _ & _ & Hp & _ & Ha).
  - split; [split; [done | by repeat (apply Forall_cons_2; [vm_compute; split; (done || by intros ?) |])] | done | vm_compute; lia].
  - split; [by apply (bool_decide_unpack _) |]. repeat (apply Forall_cons_2; [by eexists || done |]). done.
  - apply init_local; [by apply (bool_decide_unpack _) | by apply (bool_decide_unpack _) | done | done].
  - exists rs, w'. split; [exact E |]. split; [exact Hp | exact Ha].
Defined.

End BlockToTuples.
