(* ===== verification/Router.v ===== *)
(** * Router: tuples and blocks across threads
    ([olap/lib/operators/router/router.cpp], [router.hpp], [olap/lib/routing/routing-policy.cpp],
    [affinitizers.cpp]).

    The instances of the child's pipeline are the producers; each target has a consumer thread of its
    own, a pool of [slack] parameter buffers, and a queue of filled ones.  For each packet a producer
    asks the policy for a target, takes a buffer of its pool, fills it and queues it; the consumer
    runs the parent's pipeline on the buffer and returns it to the pool.  The last producer to finish closes
    the queues and waits for the consumers.

    Each access to shared state is a step of its thread.  The queues are those of [AsyncQueue]; a pool
    ([threadsafe_set]) is the ring of [RingSet], here by its tickets: both sides of it may wait.  A packet is what the child
    binds; buffers are numbered within their target. *)

From Stdlib Require Import ZArith Lia Bool.
From stdpp Require Import base numbers list relations.
From S2P Require Import Prelude AsyncQueue.

Local Open Scope Z_scope.
Local Open Scope res_scope.

Module Routing.

(** ** Policies *)

Inductive policy : Type := Random | HashBased | Local | PreferLocal | LocalServer | PreferLocalServer.

(** [AffinityPolicy]: the targets on each unit; a unit without targets gets all of them. *)
Definition AffinityPolicy (fanout : nat) (size : nat) (getAvailableCUIndex : nat → nat) : res (list (list nat)) :=
  do indexes <- rfoldM (λ (ind : list (list nat)) i,
                  do l <- of_option Undefined (ind !! getAvailableCUIndex i);
                  Ok (<[getAvailableCUIndex i := l ++ [i]]> ind)) (replicate size []) (seq 0 fanout);
  Ok ((λ l, match l with [] => seq 0 fanout | _ => l end) <$> indexes).

(** [getIndexOfRandLocalCU], with the random number and the unit of the packet's memory. *)
Definition getIndexOfRandLocalCU (indexes : list (list nat)) (r : Z) (unit_of : nat) : res Z :=
  do ind <- of_option Undefined (indexes !! unit_of);
  check negb (Nat.eqb (length ind) 0) else Undefined;
  do t <- of_option Undefined (ind !! Z.to_nat (r mod Z.of_nat (length ind)));
  Ok (Z.of_nat t).

(** What a policy looks at: the state of its generator of random numbers, the random number
    drawn for a local target, the unit of the packet, and the number of this server. *)
Record choice : Type := mk_choice { state : Z; draw : Z; local_unit : nat; server_id : Z }.

(** The target, and whether the producer may try another one. *)
Definition random_target (fanout : nat) (o : choice) : Z * bool :=
  if Nat.eqb fanout 1 then (0, false) else (u32 (state o) mod Z.of_nat fanout, true).

Definition local_target (indexes : list (list nat)) (fanout : nat) (o : choice) : res (Z * bool) :=
  if Nat.eqb fanout 1 then Ok (0, false)
  else do t <- getIndexOfRandLocalCU indexes (draw o) (local_unit o); Ok (t, true).

Definition hash_target (fanout : nat) (h : Z) : res (Z * bool) :=
  check negb (Nat.eqb fanout 0) else Undefined; Ok (h mod Z.of_nat fanout, false).

(** [h] is the value of the expression of the packet that the policy routes by. *)
Definition evaluate (p : policy) (indexes : list (list nat)) (fanout : nat) (o : choice) (h retrycnt : Z) : res (Z * bool) :=
  match p with
  | Random => Ok (random_target fanout o)
  | HashBased => hash_target fanout h
  | Local => local_target indexes fanout o
  | PreferLocal =>
      if retrycnt <? 1 then do (t, _) <- local_target indexes fanout o; Ok (t, true)
      else Ok ((random_target fanout o).1, true)
  | LocalServer => hash_target fanout (server_id o)
  | PreferLocalServer =>
      if retrycnt <? 1 then do (t, _) <- hash_target fanout (server_id o); Ok (t, true)
      else Ok ((random_target fanout o).1, true)
  end.

(** *** A target always exists *)

Definition targets_ok (indexes : list (list nat)) (fanout : nat) : Prop :=
  Forall (λ l, l ≠ [] ∧ Forall (λ i, (i < fanout)%nat) l) indexes.

Lemma AffinityPolicy_ok fanout size idx : (0 < fanout)%nat → (∀ i, (i < fanout)%nat → (idx i < size)%nat) →
  ∃ indexes, AffinityPolicy fanout size idx = Ok indexes ∧ length indexes = size ∧ targets_ok indexes fanout ∧
    ∀ i, (i < fanout)%nat → ∃ l, indexes !! idx i = Some l ∧ i ∈ l.
Proof.
  intros Hf Hidx. unfold AffinityPolicy.
  destruct (rfoldM_seq_inv (λ (ind : list (list nat)) i, do l <- of_option Undefined (ind !! idx i); Ok (<[idx i := l ++ [i]]> ind))
    (λ k ind, length ind = size ∧ Forall (Forall (λ i, (i < fanout)%nat)) ind ∧ ∀ i, (i < k)%nat → ∃ l, ind !! idx i = Some l ∧ i ∈ l)
    fanout (replicate size [])) as (ind & E & Hl & Hb & Hin).
  - rewrite length_replicate. split; [done |]. split; [apply Forall_replicate; constructor | lia].
  - intros k ind Hk (Hl & Hb & Hin). destruct (lookup_lt_is_Some_2 ind (idx k)) as [l Hlk]; [rewrite Hl; by apply Hidx |].
    rewrite Hlk. simpl. eexists. split; [done |]. rewrite length_insert. split; [done |]. split.
    + apply Forall_insert; [done |]. apply Forall_app. split; [by apply (Forall_lookup_1 _ _ _ _ Hb Hlk) | by constructor].
    + intros i Hi. destruct (decide (idx k = idx i)) as [Hki | Hki].
      * rewrite <- Hki, list_lookup_insert_eq by (by eapply lookup_lt_Some). eexists. split; [done |]. destruct (decide (i = k)) as [-> |]; [set_solver |].
        destruct (Hin i) as (l' & Hl' & Hil); [lia |]. rewrite <- Hki, Hlk in Hl'. injection Hl' as <-. set_solver.
      * rewrite list_lookup_insert_ne by done. assert (i ≠ k) by congruence. apply Hin. lia.
  - rewrite E. simpl. eexists. split; [done |]. rewrite length_fmap. split; [done |]. split.
    + apply Forall_fmap. eapply Forall_impl; [exact Hb |]. simpl. intros [| x l] Hx; [| done]. split; [by destruct fanout; [lia |] |].
      apply Forall_seq. lia.
    + intros i Hi. destruct (Hin i Hi) as (l & Hl' & Hil). rewrite list_lookup_fmap, Hl'. simpl. destruct l as [| x l]; [set_solver |]. by eexists.
Qed.

Lemma evaluate_ok p indexes fanout o h retry : (0 < fanout)%nat → targets_ok indexes fanout → (local_unit o < length indexes)%nat →
  ∃ t may, evaluate p indexes fanout o h retry = Ok (t, may) ∧ 0 <= t < Z.of_nat fanout ∧
    (p = HashBased → t = h mod Z.of_nat fanout).
Proof.
  intros Hf Ht Hu.
  assert (0 <= (random_target fanout o).1 < Z.of_nat fanout) as Hr.
  { unfold random_target. destruct (Nat.eqb_spec fanout 1); simpl; [lia |]. apply Z.mod_pos_bound. lia. }
  assert (∃ t may, local_target indexes fanout o = Ok (t, may) ∧ 0 <= t < Z.of_nat fanout) as (lt & lm & El & Hl).
  { unfold local_target, getIndexOfRandLocalCU. destruct (Nat.eqb_spec fanout 1); [do 2 eexists; split; [done |]; lia |].
    destruct (lookup_lt_is_Some_2 _ _ Hu) as [l Hl]. rewrite Hl. simpl. destruct (Forall_lookup_1 _ _ _ _ Ht Hl) as [Hn Hb].
    destruct l as [| x l]; [done |]. cbn [length Nat.eqb negb].
    destruct (lookup_lt_is_Some_2 (x :: l) (Z.to_nat (draw o mod Z.of_nat (length (x :: l))))) as [t Et].
    { pose proof (Z.mod_pos_bound (draw o) (Z.of_nat (length (x :: l)))). simpl in *. lia. }
    simpl length in Et. rewrite Et. simpl. do 2 eexists. split; [done |]. apply (Forall_lookup_1 _ _ _ _ Hb) in Et. lia. }
  assert (∀ h', hash_target fanout h' = Ok (h' mod Z.of_nat fanout, false) ∧ 0 <= h' mod Z.of_nat fanout < Z.of_nat fanout) as Hh.
  { intros h'. unfold hash_target. destruct (Nat.eqb_spec fanout 0); [lia |]. split; [done | apply Z.mod_pos_bound; lia]. }
  destruct p; cbn [evaluate].
  - destruct (random_target fanout o) as [t m]. by exists t, m.
  - destruct (Hh h) as [-> Hb]. by do 2 eexists.
  - rewrite El. by exists lt, lm.
  - case_match; [rewrite El; by exists lt, true |]. by exists (random_target fanout o).1, true.
  - destruct (Hh (server_id o)) as [-> Hb]. by do 2 eexists.
  - case_match; [| by exists (random_target fanout o).1, true]. destruct (Hh (server_id o)) as [-> Hb]. by do 2 eexists.
Qed.

End Routing.

Module Pool.

(** ** The pool of buffers

    [threadsafe_set]: a ring of 64K slots.  Putting a buffer in draws the next ticket of the
    store side, waits until the slot of the ticket is free and fills it; taking one out draws
    the next ticket of the other side and waits until the slot of that ticket is filled.
    Tickets are counted here without the wrap around, which [RingSet] keeps; [items] are the
    buffers stored so far, by their tickets - only the consumer of a target puts buffers in -
    and [popped] the tickets whose buffers were taken out. *)

Definition SLOTS : Z := 64 * 1024.

Record pool : Type := mk_pool { head : nat; items : list nat; tail : nat; popped : list nat }.

Definition new_pool : pool := mk_pool 0 [] 0 [].

(** [empty_unsafe] compares the two counters, which have 32 bits and count two per ticket. *)
Definition same_counter (a b : nat) : bool := u32 (2 * Z.of_nat a) =? u32 (2 * Z.of_nat b).

Definition draw_store (s : pool) : pool := mk_pool (S (head s)) (items s) (tail s) (popped s).

Definition slot_free (s : pool) : bool :=
  let h := Z.of_nat (length (items s)) in
  (h <? SLOTS) || bool_decide (Z.to_nat (h - SLOTS) ∈ popped s).

Definition emplace (s : pool) (b : nat) : res pool :=
  check slot_free s else Blocked; Ok (mk_pool (head s) (items s ++ [b]) (tail s) (popped s)).

Definition draw_load (s : pool) : nat * pool := (tail s, mk_pool (head s) (items s) (S (tail s)) (popped s)).

Definition pop (s : pool) (k : nat) : res (nat * pool) :=
  do b <- of_option Blocked (items s !! k);
  Ok (b, mk_pool (head s) (items s) (tail s) (k :: popped s)).

(** *** What is in the pool *)

Definition unpopped (s : pool) : list nat := (filter (λ x : nat * nat, x.1 ∉ popped s) (imap pair (items s))).*2.

Lemma unpopped_emplace s b h : (∀ k, k ∈ popped s → (k < length (items s))%nat) →
  unpopped (mk_pool h (items s ++ [b]) (tail s) (popped s)) = unpopped s ++ [b].
Proof.
  intros Hk. unfold unpopped. cbn [items popped]. rewrite imap_app, filter_app, fmap_app. f_equal. simpl.
  rewrite filter_cons, decide_True; [done |]. simpl. intros Hin. apply Hk in Hin. lia.
Qed.

Lemma filter_absent (k : nat) (ps : list nat) (l : list (nat * nat)) : k ∉ l.*1 →
  filter (λ x : nat * nat, x.1 ∉ k :: ps) l = filter (λ x : nat * nat, x.1 ∉ ps) l.
Proof.
  induction l as [| [j c] l IH]; [done |]. rewrite fmap_cons, not_elem_of_cons. intros [Hj Hk]. rewrite !filter_cons, IH by done.
  simpl in Hj. simpl. destruct (decide (j ∈ ps)); [rewrite !decide_False by set_solver; done | rewrite !decide_True by set_solver; done].
Qed.

Lemma filter_take_out (k b : nat) (ps : list nat) (l : list (nat * nat)) : NoDup l.*1 → (k, b) ∈ l → k ∉ ps →
  filter (λ x : nat * nat, x.1 ∉ ps) l ≡ₚ (k, b) :: filter (λ x : nat * nat, x.1 ∉ k :: ps) l.
Proof.
  induction l as [| [j c] l IH]; intros Hnd Hin Hk; [by apply not_elem_of_nil in Hin |].
  rewrite fmap_cons in Hnd. apply NoDup_cons in Hnd as [Hj Hnd]. simpl in Hj. rewrite !filter_cons. simpl.
  apply elem_of_cons in Hin as [[= -> ->] | Hin].
  - rewrite decide_True by done. rewrite decide_False by set_solver. by rewrite filter_absent.
  - assert (j ≠ k) as Hjk by (intros ->; apply Hj, list_elem_of_fmap; by exists (k, b)).
    destruct (decide (j ∈ ps)) as [Hjp | Hjp]; [rewrite !decide_False by set_solver; by apply IH |].
    rewrite !decide_True by set_solver. rewrite (IH Hnd Hin Hk). by rewrite Permutation_swap.
Qed.

Lemma imap_pair_fst (l : list nat) : (imap pair l).*1 = seq 0 (length l).
Proof.
  apply list_eq. intros i. rewrite list_lookup_fmap, list_lookup_imap. destruct (decide (i < length l)%nat) as [Hi | Hi].
  - destruct (lookup_lt_is_Some_2 l i Hi) as [x ->]. simpl. by rewrite lookup_seq_lt.
  - rewrite lookup_ge_None_2 by lia. simpl. rewrite lookup_seq_ge by lia. done.
Qed.

Lemma unpopped_pop s k b h tl : items s !! k = Some b → k ∉ popped s →
  unpopped s ≡ₚ b :: unpopped (mk_pool h (items s) tl (k :: popped s)).
Proof.
  intros Hb Hk. unfold unpopped. cbn [items popped]. rewrite (filter_take_out k b); [done | | | done].
  - rewrite imap_pair_fst. apply NoDup_seq.
  - apply (list_elem_of_lookup_2 _ k). by rewrite list_lookup_imap, Hb.
Qed.

Lemma unpopped_elem s b : b ∈ unpopped s → ∃ k, items s !! k = Some b ∧ k ∉ popped s.
Proof.
  unfold unpopped. intros ([k b'] & -> & [Hk Hin]%list_elem_of_filter)%list_elem_of_fmap. apply list_elem_of_lookup in Hin as [i Hi].
  rewrite list_lookup_imap in Hi. destruct (items s !! i) eqn:E; simplify_eq/=. by exists k.
Qed.

(** When exactly the tickets below [n] were served, the rest of the buffers is there. *)
Lemma unpopped_rest s n : (∀ k, (k < length (items s))%nat → k ∈ popped s ↔ (k < n)%nat) → (n <= length (items s))%nat →
  length (unpopped s) = (length (items s) - n)%nat.
Proof.
  intros Hp Hn. unfold unpopped. rewrite length_fmap.
  assert (∀ (l : list nat) o, (∀ k, (o <= k < o + length l)%nat → k ∈ popped s ↔ (k < n)%nat) →
    length (filter (λ x : nat * nat, x.1 ∉ popped s) (imap (λ i x, ((o + i)%nat, x)) l)) = (length l - (n - o))%nat) as Hgen.
  { induction l as [| x l IH]; intros o Ho; [done |]. cbn [imap]. rewrite Nat.add_0_r, filter_cons.
    specialize (IH (S o) ltac:(intros k Hk; apply Ho; simpl; lia)).
    rewrite (imap_ext _ (λ i x, ((S o + i)%nat, x)) l) by (intros; simpl; f_equal; lia).
    pose proof (Ho o ltac:(simpl; lia)) as Hoo.
    destruct (decide _) as [Hd | Hd]; cbn [fst] in Hd; cbn [length]; rewrite IH.
    - assert (¬ (o < n)%nat) by tauto. lia.
    - assert (o < n)%nat by (destruct (decide (o < n)%nat); tauto). lia. }
  etransitivity; [apply (Hgen (items s) 0%nat); intros k Hk; apply Hp; lia | lia].
Qed.

End Pool.

Module Router.
Import Routing.

Section router.
Context {X : Type}.

(** The configuration: targets, buffers per target, the policy with what it knows of the
    units, and the expression packets are routed by. *)
Context (fanout slack : nat) (p : policy) (indexes : list (list nat)) (hashExpr : X → Z).

(** ** Targets *)

(** Where the consumer of a target is: filling its pool with the buffers from [j] on, storing one,
    waiting for a packet, about to run the parent on a buffer, about to free it, storing it,
    taking [slack] buffers back, waiting for one with a ticket, done. *)
Inductive consumer : Type :=
  | CInit (j : nat)
  | CFill (j : nat)
  | CWait
  | CGot (b : nat)
  | CRan (b : nat)
  | CFree (b : nat)
  | CDrain (j : nat)
  | CTake (j k : nat)
  | CDone.

(** [params] are the contents of the buffers, with the producer that wrote them; [pushed] and [delivered] list what
    was queued and what the parent was run on. *)
Record chan : Type := mk_chan {
  free_pool : Pool.pool;
  ready_fifo : Queue.queue (T := nat);
  params : list (option (nat * X));
  cpc : consumer;
  pushed : list (nat * X);
  delivered : list (nat * X);
}.

Definition open_chan : chan := mk_chan Pool.new_pool (Queue.reset Queue.AsyncQueueSPSC) (replicate slack None) (CInit 0) [] [].

Definition set_pool (f : Pool.pool) (k : consumer) (c : chan) : chan := mk_chan f (ready_fifo c) (params c) k (pushed c) (delivered c).

(** A step of the consumer: [fire], with [freeBuffer], [get_ready] and [acquireBuffer]. *)
Definition fire (c : chan) : res chan :=
  match cpc c with
  | CInit j =>
      if (j <? slack)%nat then Ok (set_pool (Pool.draw_store (free_pool c)) (CFill j) c)
      else Ok (set_pool (free_pool c) CWait c)
  | CFill j => do f <- Pool.emplace (free_pool c) j; Ok (set_pool f (CInit (S j)) c)
  | CWait =>
      do (o, q) <- Queue.pop (ready_fifo c);
      Ok (mk_chan (free_pool c) q (params c) (match o with Some b => CGot b | None => CDrain 0 end) (pushed c) (delivered c))
  | CGot b =>
      do slot <- of_option Undefined (params c !! b);
      do x <- of_option Undefined slot;
      Ok (mk_chan (free_pool c) (ready_fifo c) (params c) (CRan b) (pushed c) (delivered c ++ [x]))
  | CRan b => Ok (set_pool (Pool.draw_store (free_pool c)) (CFree b) c)
  | CFree b => do f <- Pool.emplace (free_pool c) b; Ok (set_pool f CWait c)
  | CDrain j =>
      if (j <? slack)%nat then let '(k, f) := Pool.draw_load (free_pool c) in Ok (set_pool f (CTake j k) c)
      else Ok (set_pool (free_pool c) CDone c)
  | CTake j k => do (_, f) <- Pool.pop (free_pool c) k; Ok (set_pool f (CDrain (S j)) c)
  | CDone => Err Blocked
  end.

(** ** Producers *)

(** Where a producer is: between packets, asking the policy, polling the pool, with the first of the two counters read,
    about to take a buffer, waiting for it with a ticket, filling it, queueing it; closing queue [k], waiting until it is
    empty, joining the consumers, done. *)
Inductive ppc : Type :=
  | PIdle
  | PRoute (retry : Z)
  | PPoll (t : nat) (retry : Z)
  | PPolled (t : nat) (retry : Z) (h : nat)
  | PWait (t : nat)
  | PTake (t k : nat)
  | PHave (t b : nat)
  | PFilled (t b : nat)
  | PClose (k : nat)
  | PEmpty (k : nat)
  | PJoin
  | PDone.

(** [todo] starts with the packet in hand; [pid] numbers the producers, and [sent] lists the queued packets
    with their targets. *)
Record producer : Type := mk_producer { pid : nat; todo : list X; pc : ppc; sent : list (nat * X) }.

Record state : Type := mk_state { chans : list chan; producers : list producer; remaining_producers : Z }.

Definition start (inputs : list (list X)) : state :=
  mk_state (replicate fanout open_chan) (imap (λ i l, mk_producer i l PIdle []) inputs) (Z.of_nat (length inputs)).

Definition set_chan (t : nat) (c : chan) (s : state) : state :=
  mk_state (<[t := c]> (chans s)) (producers s) (remaining_producers s).

Definition set_producer (i : nat) (q : producer) (s : state) : state :=
  mk_state (chans s) (<[i := q]> (producers s)) (remaining_producers s).

Definition goto (i : nat) (q : producer) (c : ppc) (s : state) : state := set_producer i (mk_producer (pid q) (todo q) c (sent q)) s.

Definition consumer_done (c : chan) : bool := match cpc c with CDone => true | _ => false end.

(** The counter of the tries is a 32-bit integer. *)
Definition next_retry (r : Z) : Z := if r =? 2 ^ 31 - 1 then - 2 ^ 31 else r + 1.

(** A step of producer [i]: the generated code of [consume], and [close]. *)
Definition produce (i : nat) (o : choice) (s : state) : res state :=
  do q <- of_option Undefined (producers s !! i);
  let get t := of_option Undefined (chans s !! t) in
  match pc q with
  | PIdle =>
      match todo q with
      | _ :: _ => Ok (goto i q (PRoute 0) s)
      | [] =>
          let rem := remaining_producers s - 1 in
          check 0 <=? rem else AssertFailed;
          Ok (goto i q (if rem =? 0 then PClose 0 else PDone) (mk_state (chans s) (producers s) rem))
      end
  | PRoute retry =>
      do x <- of_option Undefined (head (todo q));
      do (t, may_retry) <- evaluate p indexes fanout o (hashExpr x) retry;
      Ok (goto i q (if may_retry : bool then PPoll (Z.to_nat (u32 t)) retry else PWait (Z.to_nat (u32 t))) s)
  | PPoll t retry => do c <- get t; Ok (goto i q (PPolled t retry (Pool.head (free_pool c))) s)
  | PPolled t retry h =>
      do c <- get t;
      Ok (goto i q (if Pool.same_counter h (Pool.tail (free_pool c)) then PRoute (next_retry retry) else PWait t) s)
  | PWait t =>
      do c <- get t;
      let '(k, f) := Pool.draw_load (free_pool c) in
      Ok (goto i q (PTake t k) (set_chan t (set_pool f (cpc c) c) s))
  | PTake t k =>
      do c <- get t;
      do (b, f) <- Pool.pop (free_pool c) k;
      Ok (goto i q (PHave t b) (set_chan t (set_pool f (cpc c) c) s))
  | PHave t b =>
      do c <- get t;
      do x <- of_option Undefined (head (todo q));
      check (b <? length (params c))%nat else Undefined;
      Ok (goto i q (PFilled t b)
        (set_chan t (mk_chan (free_pool c) (ready_fifo c) (<[b := Some (pid q, x)]> (params c)) (cpc c) (pushed c) (delivered c)) s))
  | PFilled t b =>
      do c <- get t;
      do x <- of_option Undefined (head (todo q));
      do f <- Queue.push b (ready_fifo c);
      Ok (set_producer i (mk_producer (pid q) (tail (todo q)) PIdle (sent q ++ [(t, x)]))
        (set_chan t (mk_chan (free_pool c) f (params c) (cpc c) (pushed c ++ [(pid q, x)]) (delivered c)) s))
  | PClose k =>
      if (k <? fanout)%nat then
        do c <- get k;
        Ok (goto i q (PEmpty k)
          (set_chan k (mk_chan (free_pool c) (Queue.close_begin (ready_fifo c)) (params c) (cpc c) (pushed c) (delivered c)) s))
      else Ok (goto i q PJoin s)
  | PEmpty k =>
      do c <- get k;
      check Queue.close_done (ready_fifo c) else Blocked; Ok (goto i q (PClose (S k)) s)
  | PJoin => check forallb consumer_done (chans s) else Blocked; Ok (goto i q PDone s)
  | PDone => Err Blocked
  end.

(** A step of the consumer of target [t]. *)
Definition consume (t : nat) (s : state) : res state :=
  do c <- of_option Undefined (chans s !! t); do c' <- fire c; Ok (set_chan t c' s).

Definition choice_ok (o : choice) : Prop := (local_unit o < length indexes)%nat.

Inductive step : state → state → Prop :=
  | step_producer i o s s' : choice_ok o → produce i o s = Ok s' → step s s'
  | step_consumer t s s' : consume t s = Ok s' → step s s'.

Definition finished (s : state) : Prop :=
  Forall (λ q, pc q = PDone) (producers s) ∧ Forall (λ c, cpc c = CDone) (chans s).

(** ** One target *)

(** What producers hold of target [t]: tickets, and buffers with what they have written to them. *)
Inductive hold : Type := Ticket (k : nat) | Buffer (b : nat) (o : option (nat * X)).

Definition pheld (t : nat) (q : producer) : list hold :=
  match pc q with
  | PTake t' k => if decide (t' = t) then [Ticket k] else []
  | PHave t' b => if decide (t' = t) then [Buffer b None] else []
  | PFilled t' b => if decide (t' = t) then [Buffer b (pair (pid q) <$> head (todo q))] else []
  | _ => []
  end.

Definition tickets (ph : list hold) : list nat := omap (λ h, match h with Ticket k => Some k | _ => None end) ph.
Definition buffers (ph : list hold) : list (nat * option (nat * X)) :=
  omap (λ h, match h with Buffer b o => Some (b, o) | _ => None end) ph.

(** What the consumer holds. *)
Definition cheld (c : chan) : list nat := match cpc c with CFill b | CGot b | CRan b | CFree b => [b] | _ => [] end.
Definition ctake (c : chan) : list nat := match cpc c with CTake _ k => [k] | _ => [] end.
Definition storing (c : chan) : nat := match cpc c with CFill _ | CFree _ => 1 | _ => 0 end.

(** The buffers that are to be found, and the bound on their numbers. *)
Definition expected (c : chan) : nat :=
  match cpc c with CInit j => j | CFill j => S j | CDrain j | CTake j _ => slack - j | CDone => 0 | _ => slack end.
Definition limit (c : chan) : nat := match cpc c with CInit j => j | CFill j => S j | _ => slack end.

Definition in_hand (c : chan) : list nat := match cpc c with CGot b => [b] | _ => [] end.

Definition places (ph : list hold) (c : chan) (l : list nat) : list nat :=
  Pool.unpopped (free_pool c) ++ l ++ cheld c ++ (fst <$> buffers ph).

(** A target whose queue holds [l] and of which producers hold [ph]. *)
Record chan_ok (ph : list hold) (c : chan) (l : list nat) : Prop := {
  k_queue : Queue.holds (ready_fifo c) l;
  k_nodup : NoDup (places ph c l);
  k_limit b : b ∈ places ph c l → (b < limit c)%nat;
  k_count : length (places ph c l) = expected c;
  k_params : length (params c) = slack;
  k_written : Forall (λ h, ∀ y, h.2 = Some y → params c !! h.1 = Some (Some y)) (buffers ph);
  k_order : ∃ rest, pushed c = delivered c ++ rest ∧ (λ b, params c !! b) <$> (in_hand c ++ l) = (λ y, Some (Some y)) <$> rest;
  k_pc : match cpc c with
         | CInit j => (j <= slack)%nat
         | CFill j => (j < slack)%nat
         | CDrain j => (j <= slack)%nat ∧ l = [] ∧ Queue.terminating (ready_fifo c) = true
         | CTake j _ => (j < slack)%nat ∧ l = [] ∧ Queue.terminating (ready_fifo c) = true
         | CDone => l = [] ∧ Queue.terminating (ready_fifo c) = true
         | _ => True
         end;
  k_head : Pool.head (free_pool c) = (length (Pool.items (free_pool c)) + storing c)%nat;
  k_popped k : k ∈ Pool.popped (free_pool c) → (k < length (Pool.items (free_pool c)))%nat;
  k_tickets : Pool.popped (free_pool c) ++ tickets ph ++ ctake c ≡ₚ seq 0 (Pool.tail (free_pool c));
}.

Lemma chan_ok_perm ph ph' c l : ph ≡ₚ ph' → chan_ok ph c l → chan_ok ph' c l.
Proof.
  intros Hp [H1 H2 H3 H4 H5 H6 H7 H8 H9 H10 H11].
  assert (buffers ph ≡ₚ buffers ph') as Hb by (unfold buffers; by rewrite Hp).
  assert (tickets ph ≡ₚ tickets ph') as Ht by (unfold tickets; by rewrite Hp).
  assert (places ph c l ≡ₚ places ph' c l) as Hpl by (unfold places; by rewrite Hb).
  split; try done; [by rewrite <- Hpl | intros b; rewrite <- Hpl; apply H3 | by rewrite <- Hpl | by rewrite <- Hb | by rewrite <- Ht].
Qed.

Lemma open_chan_ok : chan_ok [] (open_chan) [].
Proof.
  split; simpl; try done; [ split; [simpl; lia | done | by exists []] | constructor | set_solver | apply length_replicate | by exists [] | lia | set_solver].
Qed.

(** Drawing a ticket. *)
Lemma chan_draw ph c l : chan_ok ph c l →
  chan_ok (Ticket (Pool.tail (free_pool c)) :: ph) (set_pool (Pool.draw_load (free_pool c)).2 (cpc c) c) l.
Proof.
  intros [H1 H2 H3 H4 H5 H6 H7 H8 H9 H10 H11]. split; try done. cbn [free_pool set_pool Pool.draw_load snd Pool.popped Pool.tail].
  rewrite seq_S. simpl. change (ctake (set_pool _ (cpc c) c)) with (ctake c). rewrite <- H11. solve_Permutation.
Qed.

(** Taking the buffer of a ticket out of the pool. *)
Lemma ticket_unserved ph c l k : chan_ok ph c l → k ∈ tickets ph ++ ctake c → k ∉ Pool.popped (free_pool c).
Proof.
  intros Hc Hk Hp. pose proof (k_tickets _ _ _ Hc) as Ht.
  assert (NoDup (Pool.popped (free_pool c) ++ tickets ph ++ ctake c)) as Hnd by (rewrite Ht; apply NoDup_seq).
  apply NoDup_app in Hnd as (_ & Hd & _). by apply (Hd k).
Qed.

Lemma chan_take ph c l k b f : chan_ok (Ticket k :: ph) c l → Pool.pop (free_pool c) k = Ok (b, f) →
  chan_ok (Buffer b None :: ph) (set_pool f (cpc c) c) l.
Proof.
  intros Hc Hp. pose proof (ticket_unserved _ _ _ k Hc ltac:(simpl; left)) as Hun. destruct Hc as [H1 H2 H3 H4 H5 H6 H7 H8 H9 H10 H11].
  unfold Pool.pop in Hp. apply rbind_Ok_inv in Hp as (b' & Hb & [= <- <-]). apply of_option_Ok in Hb.
  set (f := Pool.mk_pool _ _ _ _).
  assert (places (Buffer b' None :: ph) (set_pool f (cpc c) c) l ≡ₚ places (Ticket k :: ph) c l) as Hpl.
  { unfold places. cbn [free_pool set_pool]. rewrite (Pool.unpopped_pop (free_pool c) k b' (Pool.head (free_pool c)) (Pool.tail (free_pool c)) Hb Hun).
    fold f. simpl. change (cheld (set_pool f (cpc c) c)) with (cheld c). solve_Permutation. }
  split; try done; [by rewrite Hpl | intros x; rewrite Hpl; apply H3 | by rewrite Hpl | by constructor | |].
  - intros j [-> | Hj]%elem_of_cons; [by eapply lookup_lt_Some | by apply H10].
  - change (ctake (set_pool f (cpc c) c)) with (ctake c). cbn [free_pool set_pool f Pool.popped Pool.tail]. rewrite <- H11. simpl. solve_Permutation.
Qed.

(** Filling it. *)
Lemma chan_fill ph c l b o y : chan_ok (Buffer b o :: ph) c l → (b < length (params c))%nat ∧
  chan_ok (Buffer b (Some y) :: ph) (mk_chan (free_pool c) (ready_fifo c) (<[b := Some y]> (params c)) (cpc c) (pushed c) (delivered c)) l.
Proof.
  intros [H1 H2 H3 H4 H5 H6 H7 H8 H9 H10 H11]. assert (b ∈ places (Buffer b o :: ph) c l) as Hb by (unfold places; simpl; set_solver).
  assert ((limit c <= slack)%nat) as Hl by (unfold limit; destruct (cpc c); simpl in *; lia). apply H3 in Hb as Hlim. split; [lia |].
  assert (NoDup (b :: Pool.unpopped (free_pool c) ++ l ++ cheld c ++ (fst <$> buffers ph))) as Hnd.
  { unfold places in H2. simpl in H2. rewrite !app_assoc, <- Permutation_middle in H2. by rewrite <- !app_assoc in H2. }
  apply NoDup_cons in Hnd as [Hnin _]. split; try done.
  - simpl. by rewrite length_insert.
  - simpl in H6 |- *. apply Forall_cons in H6 as [_ H6]. constructor; [intros y' [= <-]; simpl; by rewrite list_lookup_insert_eq by lia |].
    apply Forall_forall. intros [b' o'] Hin y' Hy. simpl in *. rewrite list_lookup_insert_ne; [by apply (proj1 (Forall_forall _ _) H6 (b', o') Hin) |].
    intros <-. apply Hnin. rewrite !elem_of_app. do 3 right. apply list_elem_of_fmap. by exists (b, o').
  - destruct H7 as (rest & E & Hr). exists rest. split; [done |]. rewrite <- Hr. apply list_fmap_ext. intros k x Hx. simpl.
    rewrite list_lookup_insert_ne; [done |]. intros <-. apply Hnin. apply list_elem_of_lookup_2 in Hx. unfold in_hand, cheld in *. simpl in Hx. destruct (cpc c); set_solver.
Qed.

(** Queueing it. *)
Lemma chan_push ph c l b y : chan_ok (Buffer b (Some y) :: ph) c l → Queue.terminating (ready_fifo c) = false →
  ∃ f, Queue.push b (ready_fifo c) = Ok f ∧ Queue.terminating f = false ∧
    chan_ok ph (mk_chan (free_pool c) f (params c) (cpc c) (pushed c ++ [y]) (delivered c)) (l ++ [b]).
Proof.
  intros [H1 H2 H3 H4 H5 H6 H7 H8 H9 H10 H11] Ht. destruct (Queue.push_holds _ _ b H1 Ht) as (f & E & Hf & Htf). exists f. split; [done |]. split; [done |].
  assert (places ph (mk_chan (free_pool c) f (params c) (cpc c) (pushed c ++ [y]) (delivered c)) (l ++ [b]) ≡ₚ places (Buffer b (Some y) :: ph) c l) as Hpl.
  { unfold places. simpl. rewrite <- !app_assoc. simpl. do 2 f_equiv. by rewrite Permutation_middle. }
  simpl in H6. apply Forall_cons in H6 as [Hw H6]. split; try done; [by rewrite Hpl | intros x; rewrite Hpl; apply H3 | by rewrite Hpl | |].
  - destruct H7 as (rest & E' & Hr). exists (rest ++ [y]). simpl. rewrite E', app_assoc. split; [done |].
    unfold in_hand in *. simpl. rewrite app_assoc, fmap_app, Hr, fmap_app. f_equal. simpl. specialize (Hw y eq_refl). simpl in Hw. by rewrite Hw.
  - simpl. destruct (cpc c); try done; destruct H8 as (_ & _ & ?) || destruct H8 as [_ ?]; congruence.
Qed.

(** Closing the queue. *)
Lemma chan_close ph c l : chan_ok ph c l →
  chan_ok ph (mk_chan (free_pool c) (Queue.close_begin (ready_fifo c)) (params c) (cpc c) (pushed c) (delivered c)) l.
Proof. intros [H1 H2 H3 H4 H5 H6 H7 H8 H9 H10 H11]. split; try done; [by apply Queue.close_begin_holds |]. simpl. destruct (cpc c); naive_solver. Qed.

(** The consumer: it goes on, or waits for a packet, for a slot, for the buffer of a ticket, or it is done. *)
Definition waits (c : chan) (l : list nat) : Prop :=
  (cpc c = CWait ∧ l = [] ∧ Queue.terminating (ready_fifo c) = false) ∨
  (storing c = 1%nat ∧ Pool.slot_free (free_pool c) = false) ∨
  (∃ j k, cpc c = CTake j k ∧ Pool.items (free_pool c) !! k = None) ∨ cpc c = CDone.

(** What is left to do for a consumer, with the packets that are queued for it. *)
Definition crank (c : chan) : nat :=
  match cpc c with
  | CInit j => 2 * slack + 6 + 2 * (slack - j)
  | CFill j => 2 * slack + 5 + 2 * (slack - j)
  | CWait => 2 * slack + 5
  | CGot _ => 2 * slack + 4
  | CRan _ => 2 * slack + 7
  | CFree _ => 2 * slack + 6
  | CDrain j => 2 * (slack - j) + 1
  | CTake j _ => 2 * (slack - j)
  | CDone => 0
  end.
Definition cost (c : chan) : nat := (6 * (length (pushed c) - length (delivered c)) + crank c)%nat.

(** The consumer with its buffer in the pool. *)
Lemma chan_store ph c l b k : chan_ok ph c l → storing c = 1%nat → cheld c = [b] → Pool.slot_free (free_pool c) = true →
  match k with CInit j => cpc c = CFill (pred j) ∧ (0 < j)%nat | CWait => cpc c = CFree b | _ => False end →
  chan_ok ph (set_pool (Pool.mk_pool (Pool.head (free_pool c)) (Pool.items (free_pool c) ++ [b]) (Pool.tail (free_pool c)) (Pool.popped (free_pool c))) k c) l.
Proof.
  intros [H1 H2 H3 H4 H5 H6 H7 H8 H9 H10 H11] Hst Hch Hfree Hk. set (c' := set_pool _ k c).
  assert (places ph c' l ≡ₚ places ph c l) as Hpl.
  { unfold places, c'. cbn [free_pool set_pool]. rewrite Pool.unpopped_emplace by done. rewrite Hch.
    assert (cheld (set_pool (Pool.mk_pool (Pool.head (free_pool c)) (Pool.items (free_pool c) ++ [b]) (Pool.tail (free_pool c)) (Pool.popped (free_pool c))) k c) = []) as ->
      by (unfold cheld; simpl; by destruct k). solve_Permutation. }
  assert (limit c' = limit c ∧ expected c' = expected c ∧ in_hand c' = in_hand c ∧ ctake c' = ctake c ∧ storing c' = 0%nat) as (Hl & He & Hi & Hct & Hs).
  { unfold limit, expected, in_hand, ctake, storing, c'. simpl. destruct k as [[| j] | | | | | | | |]; try done; [by destruct Hk; lia | |].
    - simpl in Hk. by destruct Hk as [-> _].
    - by rewrite Hk. }
  split; try done.
  - by rewrite Hpl.
  - intros x. rewrite Hpl, Hl. apply H3.
  - by rewrite Hpl, He.
  - unfold c' at 3. rewrite Hi. done.
  - unfold c'. simpl. destruct k as [[| j] | | | | | | | |]; try done; [lia |]. simpl in Hk. destruct Hk as [Hk _]. rewrite Hk in H8. lia.
  - rewrite Hs. unfold c'. simpl. rewrite length_app. simpl. lia.
  - intros x Hx. unfold c' in *. simpl in *. rewrite length_app. apply H10 in Hx. lia.
  - rewrite Hct. done.
Qed.

(** A consumer whose ranks do not look at its pool. *)
Lemma chan_move ph c l c' : chan_ok ph c l → ready_fifo c' = ready_fifo c → params c' = params c → pushed c' = pushed c → delivered c' = delivered c →
  Pool.items (free_pool c') = Pool.items (free_pool c) → Pool.popped (free_pool c') = Pool.popped (free_pool c) →
  Pool.head (free_pool c') = (length (Pool.items (free_pool c)) + storing c')%nat →
  Pool.popped (free_pool c) ++ tickets ph ++ ctake c' ≡ₚ seq 0 (Pool.tail (free_pool c')) →
  cheld c' = cheld c → expected c' = expected c → limit c' = limit c → in_hand c' = in_hand c →
  match cpc c' with
  | CInit j => (j <= slack)%nat | CFill j => (j < slack)%nat
  | CDrain j => (j <= slack)%nat ∧ l = [] ∧ Queue.terminating (ready_fifo c') = true
  | CTake j _ => (j < slack)%nat ∧ l = [] ∧ Queue.terminating (ready_fifo c') = true
  | CDone => l = [] ∧ Queue.terminating (ready_fifo c') = true
  | _ => True
  end → chan_ok ph c' l.
Proof.
  intros [H1 H2 H3 H4 H5 H6 H7 H8 H9 H10 H11] Hq Hps Hpu Hde Hit Hpo Hhe Hti Hch Hex Hli Hih Hpc.
  assert (places ph c' l = places ph c l) as Hpl by (unfold places, Pool.unpopped; by rewrite Hit, Hpo, Hch).
  split; rewrite ?Hpl, ?Hq, ?Hps, ?Hpu, ?Hde, ?Hit, ?Hpo, ?Hex, ?Hli, ?Hih; try done. by rewrite Hq in Hpc.
Qed.
Lemma chan_init ph c l j : chan_ok ph c l → cpc c = CInit j → (j < slack)%nat →
  chan_ok ph (set_pool (Pool.draw_store (free_pool c)) (CFill j) c) l.
Proof.
  intros [H1 H2 H3 H4 H5 H6 H7 H8 H9 H10 H11] Hc Hj. set (c' := set_pool _ _ c).
  assert (places ph c' l ≡ₚ j :: places ph c l) as Hpl.
  { unfold places, cheld, c'. cbn [free_pool cpc set_pool]. rewrite Hc. change (Pool.unpopped (Pool.draw_store (free_pool c))) with (Pool.unpopped (free_pool c)).
    simpl. solve_Permutation. }
  unfold limit, expected, in_hand, ctake, storing in *. rewrite Hc in *.
  assert (j ∉ places ph c l) as Hnj by (intros Hx; apply H3 in Hx; lia).
  split; try done.
  - rewrite Hpl. by constructor.
  - intros b. rewrite Hpl. unfold limit. cbn [cpc set_pool c']. intros [-> | Hx]%elem_of_cons; [lia |]. apply H3 in Hx. lia.
  - rewrite Hpl. unfold expected. cbn [cpc set_pool c' length]. by rewrite H4.
  - unfold c', storing. simpl. rewrite H9. lia.
Qed.

Lemma chan_drained ph c l j k b f : chan_ok ph c l → cpc c = CTake j k → Pool.pop (free_pool c) k = Ok (b, f) →
  chan_ok ph (set_pool f (CDrain (S j)) c) l.
Proof.
  intros Hok Hc Hp. assert (k ∉ Pool.popped (free_pool c)) as Hun.
  { eapply ticket_unserved; [exact Hok |]. unfold ctake. rewrite Hc. set_solver. }
  destruct Hok as [H1 H2 H3 H4 H5 H6 H7 H8 H9 H10 H11].
  unfold Pool.pop in Hp. apply rbind_Ok_inv in Hp as (b' & Hb & [= <- <-]). apply of_option_Ok in Hb.
  set (f := Pool.mk_pool _ _ _ _). set (c' := set_pool f _ c).
  assert (places ph c l ≡ₚ b' :: places ph c' l) as Hpl.
  { unfold places, cheld, c'. cbn [free_pool cpc set_pool]. rewrite Hc.
    rewrite (Pool.unpopped_pop (free_pool c) k b' (Pool.head (free_pool c)) (Pool.tail (free_pool c)) Hb Hun). done. }
  unfold limit, expected, in_hand, ctake, storing in *. rewrite Hc in *. destruct H8 as (Hj & Hl & Ht).
  split; try done.
  - rewrite Hpl in H2. by apply NoDup_cons in H2 as [_ ?].
  - intros x Hx. unfold limit. cbn [cpc set_pool c']. apply H3. rewrite Hpl. by right.
  - unfold expected. cbn [cpc set_pool c']. pose proof (Permutation_length Hpl) as Hlen. simpl in Hlen. lia.
  - intros x [-> | Hx]%elem_of_cons; [by eapply lookup_lt_Some | by apply H10].
  - unfold c', ctake. cbn [free_pool cpc set_pool f Pool.popped Pool.tail]. rewrite <- H11. solve_Permutation.
Qed.

(** A consumer that does not wait goes on, and has less to do. *)
Lemma fire_ok ph c l : chan_ok ph c l →
  (fire c = Err Blocked ∧ waits c l) ∨
  ∃ c' l', fire c = Ok c' ∧ chan_ok ph c' l' ∧ Queue.terminating (ready_fifo c') = Queue.terminating (ready_fifo c) ∧ pushed c' = pushed c ∧
    (cost c' < cost c)%nat.
Proof.
  intros Hok. pose proof (k_pc _ _ _ Hok) as Hpc. unfold fire, waits, cost, crank. destruct (cpc c) as [j | j | | b | b | b | j | j k |] eqn:Hc.
  - right. destruct (Nat.ltb_spec j slack) as [Hj | Hj]; do 2 eexists; (split; [done |]).
    + split; [by apply chan_init |]. do 2 (split; [done |]). simpl. lia.
    + assert (j = slack) as -> by lia. split; [| do 2 (split; [done |]); simpl; lia].
      pose proof (k_head _ _ _ Hok). pose proof (k_tickets _ _ _ Hok). unfold storing, ctake in *. rewrite Hc in *.
      apply (chan_move ph c); try done; unfold cheld, expected, limit, in_hand; simpl; by rewrite ?Hc.
  - unfold Pool.emplace. destruct (Pool.slot_free (free_pool c)) eqn:Hf; [right | left; split; [done |]; right; left; unfold storing; by rewrite Hc].
    do 2 eexists. split; [done |]. split; [| do 2 (split; [done |]); simpl; lia].
    apply (chan_store ph c); try done; [unfold storing; by rewrite Hc | unfold cheld; by rewrite Hc | simpl; split; [done | lia]].
  - destruct l as [| b l].
    + rewrite (Queue.pop_empty _ (k_queue _ _ _ Hok)). destruct (Queue.terminating (ready_fifo c)) eqn:Et; simpl; [right | left; auto].
      do 2 eexists. split; [done |]. split; [| do 2 (split; [done |]); simpl; lia].
      pose proof (k_head _ _ _ Hok). pose proof (k_tickets _ _ _ Hok). unfold storing, ctake in *. rewrite Hc in *.
      apply (chan_move ph c); try done; unfold cheld, expected, limit, in_hand; simpl; rewrite ?Hc; try done; [lia |]. split; [lia | done].
    + right. destruct (Queue.pop_holds _ b l (k_queue _ _ _ Hok)) as (q' & E & Hq' & Et). rewrite E. simpl. do 2 eexists. split; [done |].
      split; [| split; [done |]; split; [done |]; simpl; lia].
      destruct Hok as [H1 H2 H3 H4 H5 H6 H7 H8 H9 H10 H11]. unfold places, cheld, limit, expected, in_hand, storing, ctake in *. rewrite Hc in *. simpl in *.
      assert (Pool.unpopped (free_pool c) ++ l ++ b :: (fst <$> buffers ph) ≡ₚ Pool.unpopped (free_pool c) ++ b :: l ++ (fst <$> buffers ph)) as Hp by (by rewrite Permutation_middle).
      split; unfold expected, limit, in_hand, places, cheld, storing, ctake; simpl; try done; [by rewrite Hp | intros x; rewrite Hp; apply H3 | by rewrite Hp].
  - right. destruct Hok as [H1 H2 H3 H4 H5 H6 H7 H8 H9 H10 H11]. unfold places, cheld, limit, expected, in_hand, storing, ctake in *. rewrite Hc in *.
    destruct H7 as (rest & E & Hr). destruct rest as [| y rest]; simpl in Hr; [done |]. injection Hr as Hb Hr. rewrite Hb. simpl.
    do 2 eexists. split; [done |]. split; [| do 2 (split; [done |]); simpl; rewrite E, !length_app; simpl; lia].
    split; unfold expected, limit, in_hand, places, cheld, storing, ctake; simpl; try done. exists rest. by rewrite E, <- app_assoc.
  - right. do 2 eexists. split; [done |]. split; [| do 2 (split; [done |]); simpl; lia].
    pose proof (k_head _ _ _ Hok). pose proof (k_tickets _ _ _ Hok). unfold storing, ctake in *. rewrite Hc in *.
    apply (chan_move ph c); try done; unfold cheld, expected, limit, in_hand, storing; simpl; rewrite ?Hc; try done. lia.
  - unfold Pool.emplace. destruct (Pool.slot_free (free_pool c)) eqn:Hf; [right | left; split; [done |]; right; left; unfold storing; by rewrite Hc].
    do 2 eexists. split; [done |]. split; [| do 2 (split; [done |]); simpl; lia].
    apply (chan_store ph c); try done; [unfold storing; by rewrite Hc | unfold cheld; by rewrite Hc].
  - right. destruct Hpc as (Hj & Hl & Ht). pose proof (k_head _ _ _ Hok). pose proof (k_tickets _ _ _ Hok) as Htk. unfold storing, ctake in *. rewrite Hc in *.
    destruct (Nat.ltb_spec j slack) as [Hlt | Hge]; do 2 eexists; (split; [done |]); (split; [| do 2 (split; [done |]); simpl; lia]).
    + apply (chan_move ph c); try done; unfold cheld, expected, limit, in_hand, ctake; simpl; rewrite ?Hc; try done.
      rewrite app_nil_r in Htk. by rewrite app_assoc, Htk, <- seq_S.
    + apply (chan_move ph c); try done; unfold cheld, expected, limit, in_hand, ctake; simpl; rewrite ?Hc; try done. lia.
  - destruct (Pool.pop (free_pool c) k) as [[b f] | e] eqn:Hp.
    + right. simpl. do 2 eexists. split; [done |]. split; [by eapply chan_drained |]. do 2 (split; [done |]). simpl. lia.
    + left. unfold Pool.pop in Hp. destruct (Pool.items (free_pool c) !! k) as [b |] eqn:Hi; [done |]. injection Hp as <-. simpl.
      split; [done |]. right. right. left. by exists j, k.
  - left. split; [done |]. by do 3 right.
Qed.

(** ** All targets *)

Definition all_held (t : nat) (l : list producer) : list hold := concat (pheld t <$> l).

Definition others (t i : nat) (l : list producer) : list hold := all_held t (delete i l).

Lemma held_split t i l q : l !! i = Some q → all_held t l ≡ₚ pheld t q ++ others t i l.
Proof.
  intros Hi. unfold others, all_held. revert i Hi. induction l as [| r l IH]; intros [| i] Hi; simplify_eq/=; [done |].
  rewrite (Permutation_app_swap_app (pheld t q)). f_equiv. by apply IH.
Qed.

Lemma held_insert t i l q q' : l !! i = Some q → all_held t (<[i := q']> l) ≡ₚ pheld t q' ++ others t i l.
Proof.
  intros Hi. rewrite (held_split t i (<[i := q']> l) q') by (apply list_lookup_insert_eq; by eapply lookup_lt_Some).
  unfold others. assert (delete i (<[i := q']> l) = delete i l) as ->; [| done].
  clear. revert i. induction l as [| r l IH]; intros [| i]; simpl; [done | done | done |]. f_equal. apply IH.
Qed.

Definition inv_chans (s : state) : Prop :=
  length (chans s) = fanout ∧ ∀ t c, chans s !! t = Some c → ∃ l, chan_ok (all_held t (producers s)) c l.

Lemma inv_chans_goto s i q q' : inv_chans s → producers s !! i = Some q → (∀ t, pheld t q' = pheld t q) → inv_chans (set_producer i q' s).
Proof.
  intros [Hl Hc] Hi Hq. split; [done |]. intros t c Ht. destruct (Hc t c Ht) as [l Hok]. exists l. simpl.
  eapply chan_ok_perm; [| exact Hok]. by rewrite (held_insert t i _ q), Hq, <- held_split.
Qed.

Lemma inv_chans_step s i q q' t c c' : inv_chans s → producers s !! i = Some q → chans s !! t = Some c →
  (∀ t', t' ≠ t → pheld t' q' = pheld t' q) →
  (∀ l R, chan_ok (pheld t q ++ R) c l → ∃ l', chan_ok (pheld t q' ++ R) c' l') → inv_chans (set_producer i q' (set_chan t c' s)).
Proof.
  intros [Hl Hc] Hi Ht Hq Hstep. split; [simpl; by rewrite length_insert |]. intros u d Hu. simpl in *.
  destruct (decide (t = u)) as [<- | Hne].
  - rewrite list_lookup_insert_eq in Hu by (by eapply lookup_lt_Some). injection Hu as <-. destruct (Hc t c Ht) as [l Hok].
    destruct (Hstep l (others t i (producers s))) as [l' Hok']; [by eapply chan_ok_perm; [by apply held_split | exact Hok] |].
    exists l'. eapply chan_ok_perm; [| exact Hok']. by rewrite (held_insert t i _ q).
  - rewrite list_lookup_insert_ne in Hu by done. destruct (Hc u d Hu) as [l Hok]. exists l.
    eapply chan_ok_perm; [| exact Hok]. rewrite (held_insert u i _ q), (Hq u) by done. by rewrite <- held_split.
Qed.

(** ** What was sent *)

Definition routed (x : X) (t : nat) : Prop := (t < fanout)%nat ∧ (p = HashBased → Z.of_nat t = hashExpr x mod Z.of_nat fanout).

Definition producer_ok (q : producer) : Prop :=
  match pc q with
  | PIdle => True
  | PRoute _ => todo q ≠ []
  | PPoll t _ | PPolled t _ _ | PWait t | PTake t _ | PHave t _ | PFilled t _ => ∃ x l, todo q = x :: l ∧ routed x t
  | PClose _ | PEmpty _ | PJoin | PDone => todo q = []
  end.

Definition from (i : nat) (c : chan) : list X := (filter (λ y, y.1 = i) (pushed c)).*2.
Definition sent_to (t : nat) (q : producer) : list X := (filter (λ y, y.1 = t) (sent q)).*2.

Record inv_sent (inputs : list (list X)) (s : state) : Prop := {
  v_len : length (producers s) = length inputs;
  v_producer i q : producers s !! i = Some q → pid q = i ∧ producer_ok q ∧ inputs !! i = Some ((sent q).*2 ++ todo q) ∧
    Forall (λ y, routed y.2 y.1) (sent q);
  v_pushed i q t c : producers s !! i = Some q → chans s !! t = Some c → from i c = sent_to t q;
}.

Lemma inv_sent_producer inputs s i q q' : inv_sent inputs s → producers s !! i = Some q →
  pid q' = pid q → todo q' = todo q → sent q' = sent q → producer_ok q' → inv_sent inputs (set_producer i q' s).
Proof.
  intros [Hl Hp Hc] Hi Hid Ht Hs Hok. destruct (Hp i q Hi) as (H1 & H2 & H3 & H4). split; simpl; [by rewrite length_insert | |].
  - intros j r Hj. destruct (decide (i = j)) as [<- | Hne]; [| rewrite list_lookup_insert_ne in Hj by done; by apply Hp].
    rewrite list_lookup_insert_eq in Hj by (by eapply lookup_lt_Some). injection Hj as <-. by rewrite Hid, Ht, Hs.
  - intros j r t c Hj Htc. destruct (decide (i = j)) as [<- | Hne]; [| rewrite list_lookup_insert_ne in Hj by done; by eapply Hc].
    rewrite list_lookup_insert_eq in Hj by (by eapply lookup_lt_Some). injection Hj as <-. unfold sent_to. rewrite Hs. by apply Hc.
Qed.

Lemma inv_sent_chan inputs s t c c' : inv_sent inputs s → chans s !! t = Some c → pushed c' = pushed c → inv_sent inputs (set_chan t c' s).
Proof.
  intros [Hl Hp Hc] Ht Hpu. split; simpl; [done | done |]. intros j r u d Hj Hu.
  destruct (decide (t = u)) as [<- | Hne]; [| rewrite list_lookup_insert_ne in Hu by done; by eapply Hc].
  rewrite list_lookup_insert_eq in Hu by (by eapply lookup_lt_Some). injection Hu as <-. unfold from. rewrite Hpu. by apply Hc.
Qed.

Lemma inv_sent_push inputs s i q t c c' x l : inv_sent inputs s → producers s !! i = Some q → chans s !! t = Some c →
  todo q = x :: l → routed x t → pushed c' = pushed c ++ [(pid q, x)] →
  inv_sent inputs (set_producer i (mk_producer (pid q) l PIdle (sent q ++ [(t, x)])) (set_chan t c' s)).
Proof.
  intros [Hl Hp Hc] Hi Ht Htodo Hr Hpu. destruct (Hp i q Hi) as (Hid & _ & Hin & Hs). split; simpl; [by rewrite length_insert | |].
  - intros j r Hj. destruct (decide (i = j)) as [<- | Hne]; [| rewrite list_lookup_insert_ne in Hj by done; by apply Hp].
    rewrite list_lookup_insert_eq in Hj by (by eapply lookup_lt_Some). injection Hj as <-. simpl. split; [done |]. split; [done |].
    split; [| apply Forall_app; by split; [| constructor]]. rewrite Hin, Htodo, fmap_app. simpl. by rewrite <- app_assoc.
  - intros j r u d Hj Hu. assert (from j d = (if decide (t = u ∧ i = j) then from j c ++ [x] else default [] (from j <$> chans s !! u))) as Hfrom.
    { destruct (decide (t = u)) as [<- | Hne].
      - rewrite list_lookup_insert_eq in Hu by (by eapply lookup_lt_Some). injection Hu as <-. unfold from. rewrite Hpu, filter_app, fmap_app, Ht, Hid. simpl.
        rewrite filter_cons. simpl. destruct (decide (i = j)); [by rewrite decide_True by done |]. rewrite decide_False by naive_solver. apply app_nil_r.
      - rewrite list_lookup_insert_ne in Hu by done. rewrite decide_False by naive_solver. by rewrite Hu. }
    rewrite Hfrom. destruct (decide (i = j)) as [<- | Hne].
    + rewrite list_lookup_insert_eq in Hj by (by eapply lookup_lt_Some). injection Hj as <-. unfold sent_to. simpl. rewrite filter_app, fmap_app, filter_cons. simpl.
      destruct (decide (t = u)) as [<- | Hu'].
      * rewrite decide_True by done. rewrite (Hc i q t c Hi Ht). done.
      * rewrite decide_False by naive_solver. rewrite list_lookup_insert_ne in Hu by done. rewrite Hu. simpl. rewrite app_nil_r. by apply Hc.
    + rewrite list_lookup_insert_ne in Hj by done. rewrite decide_False by naive_solver. destruct (decide (t = u)) as [<- | Hu'].
      * rewrite Ht. simpl. by apply Hc.
      * rewrite list_lookup_insert_ne in Hu by done. rewrite Hu. simpl. by apply Hc.
Qed.

(** ** Closing *)

Definition active (q : producer) : bool := match pc q with PClose _ | PEmpty _ | PJoin | PDone => false | _ => true end.

(** The queues below [k] are closed. *)
Definition closed_upto (k : nat) (s : state) : Prop :=
  ∀ t c, chans s !! t = Some c → Queue.terminating (ready_fifo c) = (t <? k)%nat.

(** Where the one producer is that closes the queues. *)
Definition closing (s : state) (q : producer) : Prop :=
  match pc q with
  | PClose k => closed_upto k s ∧ (k <= fanout)%nat
  | PEmpty k => closed_upto (S k) s ∧ (k < fanout)%nat
  | PJoin => closed_upto fanout s
  | PDone => closed_upto fanout s ∧ Forall (λ c, cpc c = CDone) (chans s)
  | _ => False
  end.

Inductive phase (s : state) : Prop :=
  | open_phase : remaining_producers s = count_if active (producers s) → 0 < remaining_producers s →
      (∀ i q, producers s !! i = Some q → active q = true ∨ pc q = PDone) → closed_upto 0 s → phase s
  | closing_phase i q : remaining_producers s = 0 → producers s !! i = Some q → closing s q →
      (∀ j r, producers s !! j = Some r → j ≠ i → pc r = PDone) → phase s.

Record inv (inputs : list (list X)) (s : state) : Prop := {
  n_chans : inv_chans s;
  n_sent : inv_sent inputs s;
  n_phase : phase s;
}.

Lemma closed_upto_chan k s t c c' : closed_upto k s → chans s !! t = Some c →
  Queue.terminating (ready_fifo c') = Queue.terminating (ready_fifo c) → closed_upto k (set_chan t c' s).
Proof.
  intros Hk Ht Hc u d Hu. simpl in Hu. destruct (decide (t = u)) as [<- | Hne].
  - rewrite list_lookup_insert_eq in Hu by (by eapply lookup_lt_Some). injection Hu as <-. rewrite Hc. by apply Hk.
  - rewrite list_lookup_insert_ne in Hu by done. by apply Hk.
Qed.

(** An active producer stays active. *)
Lemma phase_active s s' i q q' : phase s → producers s !! i = Some q → active q = true → active q' = true →
  producers s' = <[i := q']> (producers s) → remaining_producers s' = remaining_producers s →
  (closed_upto 0 s → closed_upto 0 s') → phase s'.
Proof.
  intros [Hr H0 Ha Hk | j r Hr Hj Hc Ho] Hi Hq Hq' Hp Hrem Hcl.
  - apply open_phase; [| by rewrite Hrem | | by apply Hcl].
    + rewrite Hrem, Hr, Hp. pose proof (count_if_insert active (producers s) i q q' Hi) as Hc. rewrite Hq, Hq' in Hc. lia.
    + intros k r Hk'. rewrite Hp in Hk'. apply list_lookup_insert_Some in Hk' as [(_ & <- & _) | [_ Hk']]; [by left | by apply (Ha k)].
  - exfalso. destruct (decide (i = j)) as [<- | Hne]; [| unfold active in Hq; by rewrite (Ho i q Hi Hne) in Hq].
    assert (r = q) as -> by congruence. unfold closing, active in *. by destruct (pc q).
Qed.

(** A consumer step keeps the phase. *)
Lemma phase_chan s t c c' : phase s → chans s !! t = Some c → Queue.terminating (ready_fifo c') = Queue.terminating (ready_fifo c) →
  cpc c ≠ CDone → phase (set_chan t c' s).
Proof.
  intros [Hr H0 Ha Hk | j r Hr Hj Hc Ho] Ht Htm Hd.
  - apply open_phase; [done | done | done |]. by eapply closed_upto_chan.
  - eapply closing_phase; [done | exact Hj | | done]. unfold closing in *.
    destruct (pc r); try done; try (destruct Hc as [? ?]; split; [by eapply closed_upto_chan | done]); try (by eapply closed_upto_chan).
    destruct Hc as [_ Hall]. by apply (Forall_lookup_1 _ _ _ _ Hall) in Ht.
Qed.

Lemma active_open s i q : phase s → producers s !! i = Some q → active q = true → closed_upto 0 s.
Proof.
  intros [Hr H0 Ha Hk | j r Hr Hj Hc Ho] Hi Hq; [done |]. exfalso. destruct (decide (i = j)) as [<- | Hne].
  - assert (r = q) as -> by congruence. unfold closing, active in *. by destruct (pc q).
  - unfold active in Hq. by rewrite (Ho i q Hi Hne) in Hq.
Qed.

(** The one that is closing. *)
Lemma closing_only s i q : phase s → producers s !! i = Some q → active q = false → pc q ≠ PDone →
  remaining_producers s = 0 ∧ closing s q ∧ ∀ j r, producers s !! j = Some r → j ≠ i → pc r = PDone.
Proof.
  intros [Hr H0 Ha Hk | j r Hr Hj Hc Ho] Hi Hq Hn.
  - destruct (Ha i q Hi); congruence.
  - destruct (decide (i = j)) as [<- | Hne]; [| by destruct Hn; eapply Ho]. assert (r = q) as -> by congruence. done.
Qed.

(** ** Steps of producers *)

Context (Hfanout : (0 < fanout)%nat ∧ Z.of_nat fanout < 2 ^ 31) (Hslack : (0 < slack)%nat) (Htargets : targets_ok indexes fanout).
Context (inputs : list (list X)).

(** What a producer waits for. *)
Definition producer_waits (s : state) (q : producer) : Prop :=
  (∃ t k c, pc q = PTake t k ∧ chans s !! t = Some c ∧ Pool.items (free_pool c) !! k = None) ∨
  (∃ k c, pc q = PEmpty k ∧ chans s !! k = Some c ∧ Queue.close_done (ready_fifo c) = false) ∨
  (pc q = PJoin ∧ forallb consumer_done (chans s) = false) ∨ pc q = PDone.

Section producer_step.
Context (s : state) (i : nat) (q : producer) (o : choice) (Hs : inv inputs s) (Hi : producers s !! i = Some q).

Lemma chan_of t : (t < fanout)%nat → ∃ c, chans s !! t = Some c.
Proof. intros Ht. apply lookup_lt_is_Some_2. by rewrite (proj1 (n_chans _ _ Hs)). Qed.

Lemma router_inv_goto c : active q = true → active (mk_producer (pid q) (todo q) c (sent q)) = true →
  (∀ t, pheld t (mk_producer (pid q) (todo q) c (sent q)) = pheld t q) →
  producer_ok (mk_producer (pid q) (todo q) c (sent q)) → inv inputs (goto i q c s).
Proof.
  intros Ha Ha' Hh Hok. destruct Hs as [Hc Hv Hp]. split; [by eapply inv_chans_goto | by eapply inv_sent_producer |].
  by eapply (phase_active s _ i q).
Qed.

(** The end of a producer. *)
Lemma inv_end : todo q = [] → pc q = PIdle →
  let rem := remaining_producers s - 1 in
  0 <= rem ∧ inv inputs (goto i q (if rem =? 0 then PClose 0 else PDone) (mk_state (chans s) (producers s) rem)).
Proof.
  intros Ht Hq rem. destruct Hs as [Hc Hv Hp]. assert (active q = true) as Ha by (unfold active; by rewrite Hq).
  pose proof (active_open s i q Hp Hi Ha) as Hopen. destruct Hp as [Hr H0 Hall _ | j r Hr Hj Hcl Ho].
  2:{ exfalso. destruct (decide (i = j)) as [<- | Hne]; [| specialize (Ho i q Hi Hne); congruence].
      assert (r = q) as -> by congruence. unfold closing in Hcl. by rewrite Hq in Hcl. }
  split; [lia |]. assert (rem = remaining_producers s - 1) as Hrem by done. clearbody rem. set (q' := mk_producer (pid q) (todo q) (if rem =? 0 then PClose 0 else PDone) (sent q)).
  assert (active q' = false) as Ha' by (unfold active; simpl; by destruct (rem =? 0)).
  assert (count_if active (<[i := q']> (producers s)) = rem) as Hcnt.
  { pose proof (count_if_insert active (producers s) i q q' Hi) as E. rewrite Ha, Ha' in E. lia. }
  split.
  - apply (inv_chans_goto (mk_state (chans s) (producers s) rem) i q); [done | done |]. intros t. unfold pheld. simpl. rewrite Hq. by destruct (rem =? 0).
  - apply (inv_sent_producer _ (mk_state (chans s) (producers s) rem) i q); try done; [| unfold producer_ok; simpl; by destruct (rem =? 0)].
    by destruct Hv as [V1 V2 V3].
  - destruct (Z.eqb_spec rem 0) as [Hz | Hz].
    + eapply (closing_phase _ i q'); [done | simpl; apply list_lookup_insert_eq; by eapply lookup_lt_Some | |].
      * unfold closing. simpl. rewrite Hz. simpl. split; [done | lia].
      * intros j r Hj Hne. simpl in Hj. rewrite list_lookup_insert_ne in Hj by done. destruct (Hall j r Hj) as [Har |]; [| done].
        assert (0 < count_if active (<[i := q']> (producers s))); [| lia]. apply count_if_pos. exists r. split; [| done].
        apply (list_elem_of_lookup_2 _ j). by rewrite list_lookup_insert_ne.
    + apply open_phase; simpl; [done | lia | | done]. intros j r Hj.
      apply list_lookup_insert_Some in Hj as [(_ & <- & _) | [_ Hj]]; [| by apply (Hall j)]. right. done.
Qed.

(** Choosing a target. *)
Lemma inv_route retry : choice_ok o → pc q = PRoute retry → ∃ s', produce i o s = Ok s' ∧ inv inputs s'.
Proof.
  intros Ho Hq. destruct (v_producer _ _ (n_sent _ _ Hs) i q Hi) as (_ & Hok & _). unfold producer_ok in Hok. rewrite Hq in Hok.
  unfold produce. rewrite Hi. simpl. rewrite Hq. destruct (todo q) as [| x l] eqn:Ht; [done |]. simpl.
  destruct (evaluate_ok p indexes fanout o (hashExpr x) retry (proj1 Hfanout) Htargets Ho) as (t & may & E & Hb & Hh). rewrite E. simpl.
  rewrite wrap_id by lia. assert (routed x (Z.to_nat t)) as Hr by (split; [lia | intros Hp; rewrite Z2Nat.id by lia; by apply Hh]).
  eexists. split; [done |]. apply router_inv_goto; [unfold active; by rewrite Hq | by destruct may | | ].
  - intros u. unfold pheld. simpl. rewrite Hq. by destruct may.
  - unfold producer_ok. simpl. rewrite Ht. destruct may; by exists x, l.
Qed.

Lemma inv_poll t retry : pc q = PPoll t retry → ∃ s', produce i o s = Ok s' ∧ inv inputs s'.
Proof.
  intros Hq. destruct (v_producer _ _ (n_sent _ _ Hs) i q Hi) as (_ & Hok & _). unfold producer_ok in Hok. rewrite Hq in Hok.
  destruct Hok as (x & l & Ht & Hr). destruct (chan_of t (proj1 Hr)) as [c Hc]. unfold produce. rewrite Hi. simpl. rewrite Hq, Hc. simpl.
  eexists. split; [done |]. apply router_inv_goto; [unfold active; by rewrite Hq | done | |].
  - intros u. unfold pheld. simpl. by rewrite Hq.
  - unfold producer_ok. simpl. by exists x, l.
Qed.

Lemma inv_polled t retry h : pc q = PPolled t retry h → ∃ s', produce i o s = Ok s' ∧ inv inputs s'.
Proof.
  intros Hq. destruct (v_producer _ _ (n_sent _ _ Hs) i q Hi) as (_ & Hok & _). unfold producer_ok in Hok. rewrite Hq in Hok.
  destruct Hok as (x & l & Ht & Hr). destruct (chan_of t (proj1 Hr)) as [c Hc]. unfold produce. rewrite Hi. simpl. rewrite Hq, Hc. simpl.
  set (b := Pool.same_counter _ _). eexists. split; [done |]. apply router_inv_goto; [unfold active; by rewrite Hq | by destruct b | |].
  - intros u. unfold pheld. simpl. rewrite Hq. by destruct b.
  - unfold producer_ok. simpl. destruct b; [by rewrite Ht | by exists x, l].
Qed.

(** Drawing a ticket for a buffer. *)
Lemma inv_draw t : pc q = PWait t → ∃ s', produce i o s = Ok s' ∧ inv inputs s'.
Proof.
  intros Hq. destruct Hs as [Hc Hv Hp]. destruct (v_producer _ _ Hv i q Hi) as (Hid & Hok & _). unfold producer_ok in Hok. rewrite Hq in Hok.
  destruct Hok as (x & l & Ht & Hr). destruct (chan_of t (proj1 Hr)) as [c Htc]. unfold produce. rewrite Hi. simpl. rewrite Hq, Htc. simpl.
  eexists. split; [done |]. assert (active q = true) as Ha by (unfold active; by rewrite Hq). split.
  - eapply (inv_chans_step s i q _ t c); [done | done | done | |].
    + intros u Hu. unfold pheld. simpl. rewrite Hq. by rewrite decide_False.
    + intros l0 R Hl0. exists l0. unfold pheld in *. rewrite Hq in Hl0. simpl in *. rewrite decide_True by done. by apply chan_draw.
  - eapply (inv_sent_producer _ _ i q); simpl; try done; [by eapply inv_sent_chan |]. unfold producer_ok. simpl. by exists x, l.
  - eapply (phase_active s _ i q); [done | done | done | | done | done |]; [done |]. intros Hk. by apply (closed_upto_chan 0 s t c).
Qed.

(** With a buffer: taking, filling and queueing it. *)
Lemma inv_take t k : pc q = PTake t k →
  (∃ s', produce i o s = Ok s' ∧ inv inputs s') ∨ (produce i o s = Err Blocked ∧ producer_waits s q).
Proof.
  intros Hq. destruct Hs as [Hc Hv Hp]. destruct (v_producer _ _ Hv i q Hi) as (Hid & Hok & _). unfold producer_ok in Hok. rewrite Hq in Hok.
  destruct Hok as (x & l & Ht & Hr). destruct (chan_of t (proj1 Hr)) as [c Htc]. unfold produce. rewrite Hi. simpl. rewrite Hq, Htc. simpl.
  destruct (Pool.pop (free_pool c) k) as [[b f] | e] eqn:Hf.
  2:{ right. unfold Pool.pop in Hf. destruct (Pool.items (free_pool c) !! k) eqn:Hk; [done |]. injection Hf as <-. split; [done |]. left. by exists t, k, c. }
  left. simpl. eexists. split; [done |].
  assert (active q = true) as Ha by (unfold active; by rewrite Hq). split.
  - eapply (inv_chans_step s i q _ t c); [done | done | done | |].
    + intros u Hu. unfold pheld. simpl. rewrite Hq. by rewrite !decide_False.
    + intros l0 R Hl0. exists l0. unfold pheld in *. rewrite Hq in Hl0. simpl in *. rewrite decide_True in Hl0 |- * by done. by eapply chan_take.
  - eapply (inv_sent_producer _ _ i q); simpl; try done; [by eapply inv_sent_chan |]. unfold producer_ok. simpl. by exists x, l.
  - eapply (phase_active s _ i q); [done | done | done | | done | done |]; [done |]. intros Hk. by apply (closed_upto_chan 0 s t c).
Qed.

Lemma inv_fill t b : pc q = PHave t b → ∃ s', produce i o s = Ok s' ∧ inv inputs s'.
Proof.
  intros Hq. destruct Hs as [Hc Hv Hp]. destruct (v_producer _ _ Hv i q Hi) as (Hid & Hok & _). unfold producer_ok in Hok. rewrite Hq in Hok.
  destruct Hok as (x & l & Ht & Hr). destruct (chan_of t (proj1 Hr)) as [c Htc]. unfold produce. rewrite Hi. simpl. rewrite Hq, Htc. simpl. rewrite Ht. simpl.
  assert (active q = true) as Ha by (unfold active; by rewrite Hq).
  assert (∀ l0 R, chan_ok (pheld t q ++ R) c l0 → chan_ok (Buffer b None :: R) c l0) as Hh by (unfold pheld; rewrite Hq, decide_True by done; done).
  destruct (proj2 Hc t c Htc) as [l0 Hok0]. apply (chan_ok_perm _ (pheld t q ++ others t i (producers s))) in Hok0; [| by apply held_split].
  destruct (chan_fill _ _ _ _ _ (pid q, x) (Hh _ _ Hok0)) as [Hb _]. rewrite (proj2 (Nat.ltb_lt _ _) Hb). eexists. split; [done |]. split.
  - eapply (inv_chans_step s i q _ t c); [done | done | done | |].
    + intros u Hu. unfold pheld. simpl. rewrite Hq. by rewrite !decide_False.
    + intros l1 R Hl1. exists l1. unfold pheld. simpl. rewrite decide_True, Ht by done. simpl. by eapply chan_fill, Hh.
  - eapply (inv_sent_producer _ _ i q); simpl; try done; [by eapply inv_sent_chan |]. unfold producer_ok. simpl. by exists x, l.
  - eapply (phase_active s _ i q); [done | done | done | | done | done |]; [done |]. intros Hk. by apply (closed_upto_chan 0 s t c).
Qed.

Lemma inv_push t b : pc q = PFilled t b → ∃ s', produce i o s = Ok s' ∧ inv inputs s'.
Proof.
  intros Hq. destruct Hs as [Hc Hv Hp]. destruct (v_producer _ _ Hv i q Hi) as (Hid & Hok & _). unfold producer_ok in Hok. rewrite Hq in Hok.
  destruct Hok as (x & l & Ht & Hr). destruct (chan_of t (proj1 Hr)) as [c Htc]. unfold produce. rewrite Hi. simpl. rewrite Hq, Htc. simpl. rewrite Ht. simpl.
  assert (active q = true) as Ha by (unfold active; by rewrite Hq). pose proof (active_open s i q Hp Hi Ha t c Htc) as Hopen. simpl in Hopen.
  assert (∀ l0 R, chan_ok (pheld t q ++ R) c l0 → chan_ok (Buffer b (Some (pid q, x)) :: R) c l0) as Hh
    by (unfold pheld; rewrite Hq, decide_True, Ht by done; done).
  destruct (proj2 Hc t c Htc) as [l0 Hok0]. apply (chan_ok_perm _ (pheld t q ++ others t i (producers s))) in Hok0; [| by apply held_split].
  destruct (chan_push _ _ _ _ _ (Hh _ _ Hok0) Hopen) as (f & E & Hf & _). rewrite E. simpl. eexists. split; [done |]. split.
  - eapply (inv_chans_step s i q _ t c); [done | done | done | |].
    + intros u Hu. unfold pheld. simpl. rewrite Hq. by rewrite decide_False.
    + intros l1 R Hl1. destruct (chan_push _ _ _ _ _ (Hh _ _ Hl1) Hopen) as (f' & E' & _ & Hok'). rewrite E in E'. injection E' as <-. by eexists.
  - by eapply inv_sent_push.
  - eapply (phase_active s _ i q); [done | done | done | | done | done |]; [done |]. intros Hk. apply (closed_upto_chan 0 s t c); [done | done |]. simpl. rewrite Hf. symmetry. exact Hopen.
Qed.

(** The last producer closes the queues. *)
Lemma inv_closing c : active q = false → pc q ≠ PDone → active (mk_producer (pid q) (todo q) c (sent q)) = false →
  closing s (mk_producer (pid q) (todo q) c (sent q)) → inv inputs (goto i q c s).
Proof.
  intros Ha Hn Ha' Hcl. destruct Hs as [Hc Hv Hp]. destruct (closing_only s i q Hp Hi Ha Hn) as (Hr & _ & Ho).
  destruct (v_producer _ _ Hv i q Hi) as (Hid & Hok & _). split.
  - apply (inv_chans_goto s i q); [done | done |]. intros t. unfold pheld, active in *. simpl in *. by destruct (pc q), c.
  - apply (inv_sent_producer _ s i q); try done. unfold producer_ok, active in *. simpl in *. by destruct (pc q), c.
  - eapply (closing_phase _ i _); [done | simpl; apply list_lookup_insert_eq; by eapply lookup_lt_Some | |].
    + unfold closing in *. simpl in *. by destruct c.
    + intros j r' Hj Hne. simpl in Hj. rewrite list_lookup_insert_ne in Hj by done. by apply (Ho j).
Qed.

Lemma inv_close k : pc q = PClose k → ∃ s', produce i o s = Ok s' ∧ inv inputs s'.
Proof.
  intros Hq. destruct (closing_only s i q (n_phase _ _ Hs) Hi) as (Hr & Hcl & Ho); [unfold active; by rewrite Hq | by rewrite Hq |].
  unfold closing in Hcl. rewrite Hq in Hcl. destruct Hcl as [Hk Hle]. unfold produce. rewrite Hi. simpl. rewrite Hq.
  destruct (Nat.ltb_spec k fanout) as [Hlt | Hge].
  2:{ eexists. split; [done |]. apply inv_closing; [unfold active; by rewrite Hq | by rewrite Hq | done |].
      unfold closing. simpl. by assert (k = fanout) as -> by lia. }
  destruct (chan_of k Hlt) as [c Hc]. rewrite Hc. simpl. eexists. split; [done |]. destruct Hs as [Hcs Hv Hp].
  destruct (v_producer _ _ Hv i q Hi) as (Hid & Hok & _). unfold producer_ok in Hok. rewrite Hq in Hok. split.
  - eapply (inv_chans_step s i q _ k c); [done | done | done | intros u Hu; unfold pheld; simpl; by rewrite Hq |].
    intros l R Hl. exists l. unfold pheld in *. rewrite Hq in Hl. simpl in *. by apply chan_close.
  - eapply (inv_sent_producer _ _ i q); simpl; try done. by eapply inv_sent_chan.
  - eapply (closing_phase _ i _); [done | simpl; apply list_lookup_insert_eq; by eapply lookup_lt_Some | |].
    + unfold closing. simpl. split; [| done]. intros t d Ht. simpl in Ht. destruct (decide (k = t)) as [<- | Hne].
      * rewrite list_lookup_insert_eq in Ht by (by eapply lookup_lt_Some). injection Ht as <-. simpl. symmetry. apply Nat.ltb_lt. lia.
      * rewrite list_lookup_insert_ne in Ht by done. rewrite (Hk t d Ht). destruct (Nat.ltb_spec t k), (Nat.ltb_spec t (S k)); lia || done.
    + intros j r' Hj Hne. simpl in Hj. rewrite list_lookup_insert_ne in Hj by done. by apply (Ho j).
Qed.

Lemma inv_emptied k : pc q = PEmpty k →
  (∃ s', produce i o s = Ok s' ∧ inv inputs s') ∨ (produce i o s = Err Blocked ∧ producer_waits s q).
Proof.
  intros Hq. destruct (closing_only s i q (n_phase _ _ Hs) Hi) as (Hr & Hcl & Ho); [unfold active; by rewrite Hq | by rewrite Hq |].
  unfold closing in Hcl. rewrite Hq in Hcl. destruct Hcl as [Hk Hle]. destruct (chan_of k Hle) as [c Hc]. unfold produce. rewrite Hi. simpl. rewrite Hq, Hc. simpl.
  destruct (Queue.close_done (ready_fifo c)) eqn:Hd; [left | right; split; [done |]; right; left; by exists k, c].
  eexists. split; [done |]. apply inv_closing; [unfold active; by rewrite Hq | by rewrite Hq | done |]. unfold closing. simpl. split; [done | lia].
Qed.

Lemma inv_join : pc q = PJoin →
  (∃ s', produce i o s = Ok s' ∧ inv inputs s') ∨ (produce i o s = Err Blocked ∧ producer_waits s q).
Proof.
  intros Hq. destruct (closing_only s i q (n_phase _ _ Hs) Hi) as (Hr & Hcl & Ho); [unfold active; by rewrite Hq | by rewrite Hq |].
  unfold closing in Hcl. rewrite Hq in Hcl. unfold produce. rewrite Hi. simpl. rewrite Hq.
  destruct (forallb consumer_done (chans s)) eqn:Hd; [left | right; split; [done |]; right; right; by left].
  eexists. split; [done |]. apply inv_closing; [unfold active; by rewrite Hq | by rewrite Hq | done |]. unfold closing. simpl. split; [done |].
  apply Forall_forall. intros c Hin. rewrite forallb_forall in Hd. specialize (Hd c). unfold consumer_done in Hd.
  apply list_elem_of_In in Hin. specialize (Hd Hin). by destruct (cpc c).
Qed.

Lemma produce_ok : choice_ok o →
  (∃ s', produce i o s = Ok s' ∧ inv inputs s') ∨ (produce i o s = Err Blocked ∧ producer_waits s q).
Proof.
  intros Ho. destruct (pc q) as [| retry | t retry | t retry h | t | t k | t b | t b | k | k | |] eqn:Hq.
  - left. unfold produce. rewrite Hi. simpl. rewrite Hq. destruct (todo q) as [| x l] eqn:Ht.
    + destruct (inv_end Ht Hq) as [Hrem Hinv]. rewrite (proj2 (Z.leb_le 0 _) Hrem). by eexists.
    + eexists. split; [done |]. apply router_inv_goto; [unfold active; by rewrite Hq | done | intros u; unfold pheld; by rewrite Hq |].
      unfold producer_ok. simpl. by rewrite Ht.
  - left. by eapply inv_route.
  - left. by eapply inv_poll.
  - left. by eapply inv_polled.
  - left. by eapply inv_draw.
  - by eapply inv_take.
  - left. by eapply inv_fill.
  - left. by eapply inv_push.
  - left. by eapply inv_close.
  - by eapply inv_emptied.
  - by apply inv_join.
  - right. unfold produce. rewrite Hi. simpl. rewrite Hq. split; [done |]. by right; right; right.
Qed.

End producer_step.

(** ** What is left to do

    Every step leaves less to do, except a poll that finds no buffer. *)

Definition prank (q : producer) : nat :=
  let n := (2 * fanout + 3 + 14 * length (todo q))%nat in
  match pc q with
  | PIdle => n
  | PRoute _ => n - 1
  | PPoll _ _ => n - 2
  | PPolled _ _ _ => n - 3
  | PWait _ => n - 4
  | PTake _ _ => n - 5
  | PHave _ _ => n - 6
  | PFilled _ _ => n - 7
  | PClose k => 2 * (fanout - k) + 2
  | PEmpty k => 2 * (fanout - k) + 1
  | PJoin => 1
  | PDone => 0
  end.

Definition left_to_do (s : state) : nat := (sum_list_with prank (producers s) + sum_list_with cost (chans s))%nat.

Lemma sum_insert {A} (f : A → nat) (l : list A) i x y : l !! i = Some x →
  (sum_list_with f (<[i := y]> l) + f x = sum_list_with f l + f y)%nat.
Proof.
  revert i. induction l as [| z l IH]; intros [| i] Hi; simplify_eq/=; [lia |]. specialize (IH i Hi). lia.
Qed.

(** The poll that finds no buffer. *)
Definition empty_poll (s : state) (q : producer) : Prop :=
  ∃ t retry h c, pc q = PPolled t retry h ∧ chans s !! t = Some c ∧ Pool.same_counter h (Pool.tail (free_pool c)) = true.

Lemma left_producer s i q q' c : producers s !! i = Some q → (prank q' < prank q)%nat → chans c = chans s → producers c = <[i := q']> (producers s) →
  (left_to_do c < left_to_do s)%nat.
Proof.
  intros Hi Hlt Hc Hp. unfold left_to_do. rewrite Hc, Hp. pose proof (sum_insert prank _ _ _ q' Hi). lia.
Qed.

Lemma left_both s i q q' t c c' : producers s !! i = Some q → chans s !! t = Some c →
  (prank q' + cost c' < prank q + cost c)%nat → (left_to_do (set_producer i q' (set_chan t c' s)) < left_to_do s)%nat.
Proof.
  intros Hi Ht Hlt. unfold left_to_do. simpl. pose proof (sum_insert prank _ _ _ q' Hi). pose proof (sum_insert cost _ _ _ c' Ht). lia.
Qed.

Lemma produce_less s i q o s' : inv inputs s → producers s !! i = Some q → produce i o s = Ok s' → ¬ empty_poll s q →
  (left_to_do s' < left_to_do s)%nat.
Proof.
  intros Hs Hi E Hne. destruct (v_producer _ _ (n_sent _ _ Hs) i q Hi) as (_ & Hok & _). unfold producer_ok in Hok.
  unfold produce in E. rewrite Hi in E. simpl in E.
  destruct (pc q) as [| retry | t retry | t retry h | t | t k | t b | t b | k | k | |] eqn:Hq; try done.
  - destruct (todo q) as [| x l] eqn:Ht.
    + destruct (0 <=? remaining_producers s - 1); [| done]. injection E as <-.
      apply (left_producer s i q (mk_producer (pid q) (todo q) (if remaining_producers s - 1 =? 0 then PClose 0 else PDone) (sent q))); try done.
      unfold prank. simpl. rewrite Hq. destruct (remaining_producers s - 1 =? 0); lia.
    + injection E as <-. eapply (left_producer s i q); [done | | done | done]. unfold prank. simpl. rewrite Hq, Ht. simpl. lia.
  - destruct (todo q) as [| x l] eqn:Ht; [done |]. simpl in E. apply rbind_Ok_inv in E as ([t may] & _ & [= <-]).
    eapply (left_producer s i q); [done | | done | done]. unfold prank. simpl. rewrite Hq, Ht. simpl. destruct may; lia.
  - destruct Hok as (x & l & Ht & _). apply rbind_Ok_inv in E as (c & _ & [= <-]).
    eapply (left_producer s i q); [done | | done | done]. unfold prank. simpl. rewrite Hq, Ht. simpl. lia.
  - destruct Hok as (x & l & Ht & _). apply rbind_Ok_inv in E as (c & Hc%of_option_Ok & [= <-]).
    assert (Pool.same_counter h (Pool.tail (free_pool c)) = false) as Hb.
    { apply not_true_is_false. intros Hb. apply Hne. by exists t, retry, h, c. }
    rewrite Hb. eapply (left_producer s i q); [done | | done | done]. unfold prank. simpl. rewrite Hq, Ht. simpl. lia.
  - destruct Hok as (x & l & Ht & _). apply rbind_Ok_inv in E as (c & Hc%of_option_Ok & [= <-]).
    eapply left_both; [done | done |]. unfold prank, cost, crank. simpl. rewrite Hq, Ht. simpl. lia.
  - destruct Hok as (x & l & Ht & _). apply rbind_Ok_inv in E as (c & Hc%of_option_Ok & E). apply rbind_Ok_inv in E as ([b f] & _ & [= <-]).
    eapply left_both; [done | done |]. unfold prank, cost, crank. simpl. rewrite Hq, Ht. simpl. lia.
  - destruct Hok as (x & l & Ht & _). apply rbind_Ok_inv in E as (c & Hc%of_option_Ok & E). rewrite Ht in E. simpl in E.
    destruct (_ <? _)%nat; [| done]. injection E as <-. eapply left_both; [done | done |]. unfold prank, cost, crank. simpl. rewrite Hq, Ht. simpl. lia.
  - destruct Hok as (x & l & Ht & _). apply rbind_Ok_inv in E as (c & Hc%of_option_Ok & E). rewrite Ht in E. simpl in E.
    apply rbind_Ok_inv in E as (f & _ & [= <-]). eapply left_both; [done | done |].
    destruct (proj2 (n_chans _ _ Hs) t c Hc) as [l0 Hok0]. destruct (k_order _ _ _ Hok0) as (rest & Er & _).
    unfold prank, cost, crank. simpl. rewrite Hq, Ht, Er, !length_app. simpl. lia.
  - destruct (k <? fanout)%nat eqn:Hk; [| injection E as <-; eapply (left_producer s i q); [done | | done | done]; unfold prank; simpl; rewrite Hq; lia].
    apply Nat.ltb_lt in Hk. apply rbind_Ok_inv in E as (c & Hc%of_option_Ok & [= <-]). eapply left_both; [done | done |].
    unfold prank, cost, crank. simpl. rewrite Hq. lia.
  - apply rbind_Ok_inv in E as (c & Hc%of_option_Ok & E). destruct (Queue.close_done (ready_fifo c)); [| done]. injection E as <-.
    destruct (closing_only s i q (n_phase _ _ Hs) Hi) as (_ & Hcl & _); [unfold active; by rewrite Hq | by rewrite Hq |].
    unfold closing in Hcl. rewrite Hq in Hcl. destruct Hcl as [_ Hlt].
    eapply (left_producer s i q); [done | | done | done]. unfold prank. simpl. rewrite Hq. lia.
  - destruct (forallb consumer_done (chans s)); [| done]. injection E as <-.
    eapply (left_producer s i q); [done | | done | done]. unfold prank. simpl. rewrite Hq. lia.
Qed.

(** ** Steps of consumers *)

Lemma consumer_ok s t c : inv inputs s → chans s !! t = Some c →
  (∃ s', consume t s = Ok s' ∧ inv inputs s' ∧ (left_to_do s' < left_to_do s)%nat) ∨
  (consume t s = Err Blocked ∧ ∃ l, chan_ok (all_held t (producers s)) c l ∧ waits c l).
Proof.
  intros [Hc Hv Hp] Ht. destruct (proj2 Hc t c Ht) as [l Hok]. unfold consume. rewrite Ht. simpl.
  destruct (fire_ok _ _ _ Hok) as [[-> Hw] | (c' & l' & E & Hok' & Htm & Hpu & Hless)]; [right; split; [done |]; by exists l |].
  left. rewrite E. simpl. eexists. split; [done |]. split; [split |].
  - split; [simpl; by rewrite length_insert; apply Hc |]. intros u d Hu. simpl in Hu. destruct (decide (t = u)) as [<- | Hne].
    + rewrite list_lookup_insert_eq in Hu by (by eapply lookup_lt_Some). injection Hu as <-. by exists l'.
    + rewrite list_lookup_insert_ne in Hu by done. by apply Hc.
  - by eapply inv_sent_chan.
  - eapply phase_chan; [done | done | done |]. intros Hd. unfold fire in E. by rewrite Hd in E.
  - unfold left_to_do. simpl. pose proof (sum_insert cost _ _ _ c' Ht). lia.
Qed.

(** ** Runs *)

Lemma count_if_all {A} (f : A → bool) l : Forall (λ x, f x = true) l → count_if f l = Z.of_nat (length l).
Proof. induction 1 as [| x l Hx _ IH]; [done |]. rewrite count_if_cons, Hx, IH. simpl. lia. Qed.

Lemma all_held_idle t l : (∀ i q, l !! i = Some q → pheld t q = []) → all_held t l = [].
Proof.
  intros Hq. unfold all_held. induction l as [| q l IH]; [done |]. simpl. rewrite (Hq 0%nat q eq_refl). apply IH. intros i r. apply (Hq (S i)).
Qed.

Lemma router_start_inv : inputs ≠ [] → inv inputs (start inputs).
Proof.
  intros Hne. assert (∀ i q, producers (start inputs) !! i = Some q → ∃ l, inputs !! i = Some l ∧ q = mk_producer i l PIdle []) as Hp.
  { intros i q Hi. simpl in Hi. rewrite list_lookup_imap in Hi. destruct (inputs !! i) as [l |] eqn:E; simplify_eq/=. by exists l. }
  assert (∀ t c, chans (start inputs) !! t = Some c → c = open_chan) as Hc by (intros t c Ht; simpl in Ht; by apply lookup_replicate in Ht as [-> _]).
  split.
  - split; [simpl; apply length_replicate |]. intros t c ->%Hc. exists []. rewrite all_held_idle; [apply open_chan_ok |].
    intros i q (l & _ & ->)%Hp. done.
  - split; [simpl; apply length_imap | |].
    + intros i q (l & Hl & ->)%Hp. done.
    + intros i q t c (l & Hl & ->)%Hp ->%Hc. done.
  - assert (count_if active (producers (start inputs)) = Z.of_nat (length inputs)) as Hcnt.
    { rewrite count_if_all; [simpl; by rewrite length_imap |]. apply Forall_lookup_2. intros i q (l & _ & ->)%Hp. done. }
    apply open_phase; [by rewrite Hcnt | simpl; destruct inputs; [done | simpl; lia] | |].
    + intros i q (l & _ & ->)%Hp. by left.
    + intros t c ->%Hc. done.
Qed.

Lemma router_reachable_inv s : inputs ≠ [] → rtc step (start inputs) s → inv inputs s.
Proof.
  intros Hne. apply (rtc_ind_r (inv inputs)); [by apply router_start_inv |]. intros s1 s2 _ Hstep Hs. destruct Hstep as [i o s1 s2 Ho E | t s1 s2 E].
  - destruct (producers s1 !! i) as [q |] eqn:Hi; [| unfold produce in E; by rewrite Hi in E].
    destruct (produce_ok s1 i q o Hs Hi Ho) as [(s' & E' & Hs') | [E' _]]; congruence.
  - destruct (chans s1 !! t) as [c |] eqn:Ht; [| unfold consume in E; by rewrite Ht in E].
    destruct (consumer_ok s1 t c Hs Ht) as [(s' & E' & Hs' & _) | [E' _]]; congruence.
Qed.

(** ** Completion *)

(** When no ticket that is out can be served, the tickets served are the ones drawn. *)
Lemma served ph c l : chan_ok ph c l → (∀ k, k ∈ tickets ph ++ ctake c → Pool.items (free_pool c) !! k = None) →
  ∀ k, (k < length (Pool.items (free_pool c)))%nat → k ∈ Pool.popped (free_pool c) ↔ (k < Pool.tail (free_pool c))%nat.
Proof.
  intros Hok Hu k Hk. pose proof (k_tickets _ _ _ Hok) as Ht. split.
  - intros Hp. assert (k ∈ seq 0 (Pool.tail (free_pool c))) as Hin by (rewrite <- Ht; set_solver). apply elem_of_seq in Hin. lia.
  - intros Hlt. assert (k ∈ Pool.popped (free_pool c) ++ tickets ph ++ ctake c) as Hin by (rewrite Ht; apply elem_of_seq; lia).
    apply elem_of_app in Hin as [Hin | Hin]; [done |]. apply Hu in Hin. apply lookup_ge_None_1 in Hin. lia.
Qed.

(** A target whose consumer waits and of which producers only hold tickets that cannot be served: the consumer waits for packets and
    all buffers are in the pool, or it is done. *)
Lemma idle_chan ph c l : Z.of_nat slack <= Pool.SLOTS → chan_ok ph c l → waits c l → buffers ph = [] →
  (∀ k, k ∈ tickets ph → Pool.items (free_pool c) !! k = None) →
  (cpc c = CWait ∧ l = [] ∧ Queue.terminating (ready_fifo c) = false ∧
     Pool.head (free_pool c) = length (Pool.items (free_pool c)) ∧ length (Pool.items (free_pool c)) = (Pool.tail (free_pool c) + slack)%nat) ∨
  (cpc c = CDone ∧ l = [] ∧ Queue.terminating (ready_fifo c) = true).
Proof.
  intros Hsl Hok Hw Hb Hu. pose proof (k_count _ _ _ Hok) as Hcnt. unfold places in Hcnt. rewrite Hb, !length_app in Hcnt. simpl in Hcnt.
  assert (∀ n, length (Pool.unpopped (free_pool c)) = n → (0 < n)%nat → (∀ k, k ∈ tickets ph ++ ctake c → Pool.items (free_pool c) !! k = None) →
    length (Pool.items (free_pool c)) = (Pool.tail (free_pool c) + n)%nat) as Hrest.
  { intros n Hn Hpos Hall. pose proof (served ph c l Hok Hall) as Hserved.
    assert (Pool.tail (free_pool c) <= length (Pool.items (free_pool c)))%nat as Hle.
    { destruct (Pool.unpopped (free_pool c)) as [| b bs] eqn:E; [simpl in Hn; lia |].
      destruct (Pool.unpopped_elem (free_pool c) b) as (k & Hk & Hnp); [rewrite E; left |].
      pose proof (lookup_lt_Some _ _ _ Hk) as Hlt. apply Hserved in Hlt as Hiff. assert (¬ (k < Pool.tail (free_pool c))%nat) by tauto. lia. }
    pose proof (Pool.unpopped_rest (free_pool c) _ Hserved Hle). lia. }
  destruct Hw as [(Hc & -> & Ht) | [(Hst & Hf) | [(j & k & Hc & Hk) | Hc]]].
  - left. unfold cheld, expected, ctake in *. rewrite Hc in *. simpl in Hcnt. repeat (split; [done |]).
    pose proof (k_head _ _ _ Hok) as Hh. unfold storing in Hh. rewrite Hc in Hh. split; [lia |].
    apply Hrest; [lia | done |]. intros k. rewrite app_nil_r. apply Hu.
  - exfalso. assert (ctake c = [] ∧ length (cheld c) = 1%nat ∧ (expected c <= slack)%nat) as (Hct & Hch & Hex).
    { pose proof (k_pc _ _ _ Hok). unfold storing, ctake, cheld, expected in *. destruct (cpc c); try done; simpl; lia. }
    assert (∀ k, k ∈ tickets ph ++ ctake c → Pool.items (free_pool c) !! k = None) as Hall by (rewrite Hct, app_nil_r; exact Hu).
    pose proof (served ph c l Hok Hall) as Hserved. unfold Pool.slot_free in Hf. apply orb_false_iff in Hf as [Hf1%Z.ltb_ge Hf2%bool_decide_eq_false].
    assert (Pool.tail (free_pool c) <= Z.to_nat (Z.of_nat (length (Pool.items (free_pool c))) - Pool.SLOTS))%nat as Hle.
    { apply Nat.nlt_ge. intros Hlt. apply Hf2, Hserved; [unfold Pool.SLOTS in *; lia | done]. }
    pose proof (Pool.unpopped_rest (free_pool c) _ Hserved ltac:(unfold Pool.SLOTS in *; lia)). unfold Pool.SLOTS in *. lia.
  - exfalso. pose proof (k_pc _ _ _ Hok) as Hpc. pose proof (k_tickets _ _ _ Hok) as Htk. unfold cheld, expected in *.
    assert (ctake c = [k]) as Hct by (unfold ctake; by rewrite Hc). rewrite Hc in *. destruct Hpc as (Hj & -> & Ht). simpl in Hcnt.
    assert (length (Pool.items (free_pool c)) = (Pool.tail (free_pool c) + (slack - j))%nat) as Hlen.
    { apply Hrest; [lia | lia |]. intros k'. rewrite Hct, elem_of_app, list_elem_of_singleton. intros [? | ->]; [by apply Hu | done]. }
    assert (k ∈ seq 0 (Pool.tail (free_pool c))) as Hin by (rewrite <- Htk, Hct; set_solver). apply elem_of_seq in Hin.
    apply lookup_ge_None_1 in Hk. lia.
  - right. pose proof (k_pc _ _ _ Hok) as Hpc. rewrite Hc in Hpc. tauto.
Qed.

Lemma held_cases s t h : (∀ i q, producers s !! i = Some q → producer_waits s q ∨ empty_poll s q) → h ∈ all_held t (producers s) →
  ∃ i q k c, producers s !! i = Some q ∧ pc q = PTake t k ∧ h = Ticket k ∧ chans s !! t = Some c ∧ Pool.items (free_pool c) !! k = None.
Proof.
  intros Hw Hin. unfold all_held in Hin. apply list_elem_of_In, in_concat in Hin as (hs & Hhs & Hh).
  apply list_elem_of_In, list_elem_of_fmap in Hhs as (q & -> & Hq). apply list_elem_of_lookup in Hq as [i Hi]. apply list_elem_of_In in Hh.
  unfold pheld in Hh.
  destruct (Hw i q Hi) as [[(t' & k & c & Hp & Hc & Hk) | [(? & ? & Hp & _) | [[Hp _] | Hp]]] | (? & ? & ? & ? & Hp & _)]; rewrite Hp in Hh;
    try (by apply not_elem_of_nil in Hh).
  destruct (decide (t' = t)) as [-> |]; [| by apply not_elem_of_nil in Hh]. apply list_elem_of_singleton in Hh as ->. by exists i, q, k, c.
Qed.

(** When every thread waits or polls in vain, the run is over, or a poll would find a buffer in any pool. *)
Lemma stuck_finished s : Z.of_nat slack <= Pool.SLOTS → inv inputs s →
  (∀ i q, producers s !! i = Some q → producer_waits s q ∨ empty_poll s q) →
  (∀ t c, chans s !! t = Some c → ∃ l, chan_ok (all_held t (producers s)) c l ∧ waits c l) →
  finished s ∨ ∃ i q, producers s !! i = Some q ∧ empty_poll s q ∧
    ∀ t c, chans s !! t = Some c → Pool.same_counter (Pool.head (free_pool c)) (Pool.tail (free_pool c)) = false.
Proof.
  intros Hsl Hs Hpw Hcw.
  assert (∀ t c, chans s !! t = Some c → ∃ l, chan_ok (all_held t (producers s)) c l ∧
    ((cpc c = CWait ∧ l = [] ∧ Queue.terminating (ready_fifo c) = false ∧
      Pool.head (free_pool c) = length (Pool.items (free_pool c)) ∧ length (Pool.items (free_pool c)) = (Pool.tail (free_pool c) + slack)%nat) ∨
     (cpc c = CDone ∧ l = [] ∧ Queue.terminating (ready_fifo c) = true))) as Hidle.
  { intros t c Ht. destruct (Hcw t c Ht) as (l & Hok & Hw). exists l. split; [done |]. apply (idle_chan (all_held t (producers s))); try done.
    - unfold buffers. assert (∀ h, h ∈ all_held t (producers s) → ∃ k, h = Ticket k) as Hall.
      { intros h Hh. destruct (held_cases s t h Hpw Hh) as (i & q & k & d & _ & _ & -> & _). by exists k. }
      clear -Hall. induction (all_held t (producers s)) as [| h hs IH]; [done |]. destruct (Hall h ltac:(left)) as [k ->]. simpl. apply IH. intros h' Hh'. apply Hall. by right.
    - intros k Hk. unfold tickets in Hk. apply list_elem_of_omap in Hk as (h & Hh & Hk).
      destruct (held_cases s t h Hpw Hh) as (i & q & k' & d & _ & _ & -> & Hd & Hn). injection Hk as ->. congruence. }
  assert (∀ k, closed_upto k s → ∀ t c, chans s !! t = Some c → (t < k)%nat → cpc c = CDone) as Hdone.
  { intros k Hk t c Ht Hlt. destruct (Hidle t c Ht) as (l & _ & [(_ & _ & Hf & _) | [? _]]); [| done]. rewrite (Hk t c Ht) in Hf. by apply Nat.ltb_ge in Hf; lia. }
  destruct (n_phase _ _ Hs) as [Hr H0 Ha Hk | i q Hr Hi Hcl Ho].
  - right. assert (∀ t c, chans s !! t = Some c → Pool.head (free_pool c) = length (Pool.items (free_pool c)) ∧
      length (Pool.items (free_pool c)) = (Pool.tail (free_pool c) + slack)%nat ∧ ∃ l, chan_ok (all_held t (producers s)) c l) as Hopen.
    { intros t c Ht. destruct (Hidle t c Ht) as (l & Hok & [(_ & _ & _ & Hh & Hl) | (_ & _ & Hf)]); [by split_and!; eauto |].
      rewrite (Hk t c Ht) in Hf. done. }
    rewrite Hr in H0. apply count_if_pos in H0 as (q & Hin & Hact). apply list_elem_of_lookup in Hin as [i Hi]. exists i, q. split; [done |].
    destruct (Hpw i q Hi) as [[(t & k & c & Hq & Ht & Hn) | [(? & ? & Hq & _) | [[Hq _] | Hq]]] | Hpoll]; try (unfold active in Hact; rewrite Hq in Hact; done).
    + exfalso. destruct (Hopen t c Ht) as (_ & Hl & l & Hok). apply lookup_ge_None_1 in Hn. pose proof (k_tickets _ _ _ Hok) as Htk.
      assert (k ∈ seq 0 (Pool.tail (free_pool c))) as Hin%elem_of_seq; [| lia]. rewrite <- Htk, !elem_of_app. right. left. unfold tickets.
      apply list_elem_of_omap. exists (Ticket k). split; [| done]. rewrite (held_split t i _ q Hi). unfold pheld. rewrite Hq, decide_True by done. left.
    + split; [done |]. intros t c Ht. destruct (Hopen t c Ht) as (Hh & Hl & _). unfold Pool.same_counter. rewrite Hh, Hl. apply Z.eqb_neq.
      unfold Pool.SLOTS in Hsl. set (a := Z.of_nat (Pool.tail (free_pool c))). replace (2 * Z.of_nat (Pool.tail (free_pool c) + slack)) with (2 * a + 2 * Z.of_nat slack) by lia.
      intros E. unfold wrap in E. change (2 ^ 32) with 4294967296 in E. clearbody a. clear -E Hsl Hslack. Z.div_mod_to_equations. lia.
  - left. assert (closed_upto fanout s → Forall (λ c, cpc c = CDone) (chans s)) as Hall.
    { intros Hk. apply Forall_lookup_2. intros t c Ht. apply (Hdone fanout Hk t c Ht). apply lookup_lt_Some in Ht. pose proof (proj1 (n_chans _ _ Hs)). lia. }
    unfold closing in Hcl. destruct (Hpw i q Hi) as [[(t & k & c & Hq & _) | [(k & c & Hq & Ht & Hf) | [[Hq Hf] | Hq]]] | (t & r & h & c & Hq & _)]; rewrite Hq in Hcl; [done | | | | done].
    + exfalso. destruct Hcl as [Hk Hlt]. destruct (Hidle k c Ht) as (l & Hok & Hl). assert (l = []) as -> by tauto.
      rewrite (Queue.close_done_holds _ [] (k_queue _ _ _ Hok)) in Hf. done.
    + exfalso. apply not_true_iff_false in Hf. apply Hf. apply forallb_forall. intros c Hin. apply list_elem_of_In in Hin.
      unfold consumer_done. by rewrite (proj1 (Forall_forall _ _) (Hall Hcl) c Hin).
    + destruct Hcl as [Hk Hd]. split; [| done]. apply Forall_lookup_2. intros j r Hj. destruct (decide (j = i)) as [-> | Hne]; [congruence | by apply (Ho j)].
Qed.

Definition at_pc (q : producer) (c : ppc) : producer := mk_producer (pid q) (todo q) c (sent q).

Lemma goto_lookup s i q c : producers s !! i = Some q → producers (goto i q c s) !! i = Some (at_pc q c).
Proof. intros Hi. simpl. apply list_lookup_insert_eq. by eapply lookup_lt_Some. Qed.

Lemma goto_twice s i q c c' : goto i (at_pc q c) c' (goto i q c s) = goto i q c' s.
Proof. unfold goto, set_producer. simpl. by rewrite list_insert_insert_eq. Qed.

Lemma produce_inv s i q o s' : inv inputs s → producers s !! i = Some q → choice_ok o → produce i o s = Ok s' → step s s' ∧ inv inputs s'.
Proof.
  intros Hs Hi Ho E. split; [by eapply step_producer |]. destruct (produce_ok s i q o Hs Hi Ho) as [(s2 & E2 & Hs2) | [E2 _]]; congruence.
Qed.

(** A producer that polled in vain asks again; with a buffer in every pool it gets as far as drawing a ticket. *)
Lemma try_again s i q : inv inputs s → (0 < length indexes)%nat → producers s !! i = Some q → empty_poll s q →
  (∀ t c, chans s !! t = Some c → Pool.same_counter (Pool.head (free_pool c)) (Pool.tail (free_pool c)) = false) →
  ∃ s', rtc step s s' ∧ inv inputs s' ∧ (left_to_do s' < left_to_do s)%nat.
Proof.
  intros Hs Hx Hi (t & retry & h & c & Hq & Hc & Hsame) Hall. set (o := mk_choice 0 0 0 0). assert (choice_ok o) as Ho by done.
  destruct (v_producer _ _ (n_sent _ _ Hs) i q Hi) as (_ & Hok & _). unfold producer_ok in Hok. rewrite Hq in Hok. destruct Hok as (x & l & Ht & _).
  destruct (evaluate_ok p indexes fanout o (hashExpr x) (next_retry retry) (proj1 Hfanout) Htargets Ho) as (t' & may & Ee & Hb & _).
  set (t1 := Z.to_nat (u32 t')). assert (t1 < fanout)%nat as Ht1 by (unfold t1; rewrite wrap_id by lia; lia).
  assert (left_to_do (goto i q (PWait t1) s) < left_to_do s)%nat as Hless.
  { eapply (left_producer s i q); [done | | done | done]. unfold prank. simpl. rewrite Hq, Ht. simpl. lia. }
  destruct (produce_inv s i q o (goto i q (PRoute (next_retry retry)) s) Hs Hi Ho) as [Hst1 Hs1].
  { unfold produce. rewrite Hi. simpl. rewrite Hq, Hc. simpl. by rewrite Hsame. }
  pose proof (goto_lookup s i q (PRoute (next_retry retry)) Hi) as Hi1.
  destruct (produce_inv _ i _ o (goto i q (if may : bool then PPoll t1 (next_retry retry) else PWait t1) s) Hs1 Hi1 Ho) as [Hst2 Hs2].
  { unfold produce. rewrite Hi1. simpl. rewrite Ht. simpl. rewrite Ee. simpl. fold t1. by rewrite goto_twice. }
  destruct may; [| exists (goto i q (PWait t1) s); split; [| done]; eapply rtc_l; [exact Hst1 |]; by apply rtc_once].
  pose proof (goto_lookup s i q (PPoll t1 (next_retry retry)) Hi) as Hi2.
  destruct (lookup_lt_is_Some_2 (chans s) t1) as [c1 Hc1]; [by rewrite (proj1 (n_chans _ _ Hs)) |].
  destruct (produce_inv _ i _ o (goto i q (PPolled t1 (next_retry retry) (Pool.head (free_pool c1))) s) Hs2 Hi2 Ho) as [Hst3 Hs3].
  { unfold produce. rewrite Hi2. simpl. rewrite Hc1. simpl. by rewrite goto_twice. }
  pose proof (goto_lookup s i q (PPolled t1 (next_retry retry) (Pool.head (free_pool c1))) Hi) as Hi3.
  destruct (produce_inv _ i _ o (goto i q (PWait t1) s) Hs3 Hi3 Ho) as [Hst4 Hs4].
  { unfold produce. rewrite Hi3. simpl. rewrite Hc1. simpl. rewrite (Hall t1 c1 Hc1).
    by rewrite goto_twice. }
  exists (goto i q (PWait t1) s). split; [| done]. eapply rtc_l; [exact Hst1 |]. eapply rtc_l; [exact Hst2 |]. eapply rtc_l; [exact Hst3 |]. by apply rtc_once.
Qed.

#[local] Instance empty_poll_dec s q : Decision (empty_poll s q).
Proof.
  destruct (pc q) as [| | | t retry h | | | | | | | |] eqn:Hq; try (right; by intros (? & ? & ? & ? & ? & _); congruence).
  destruct (chans s !! t) as [c |] eqn:Hc; [| right; intros (? & ? & ? & ? & ? & ? & _); congruence].
  destruct (Pool.same_counter h (Pool.tail (free_pool c))) eqn:Hs; [left; by exists t, retry, h, c |].
  right. intros (? & ? & ? & ? & ? & ? & ?). congruence.
Defined.

Lemma advance s : Z.of_nat slack <= Pool.SLOTS → inv inputs s → (0 < length indexes)%nat → ¬ finished s →
  ∃ s', rtc step s s' ∧ inv inputs s' ∧ (left_to_do s' < left_to_do s)%nat.
Proof.
  intros Hsl Hs Hu Hnf. set (o := mk_choice 0 0 0 0). assert (choice_ok o) as Ho by done.
  set (useful i := match producers s !! i with Some q => is_ok (produce i o s) && negb (bool_decide (empty_poll s q)) | None => false end).
  destruct (decide (Exists (λ i, useful i = true) (seq 0 (length (producers s))))) as [Hp | Hp].
  { apply Exists_exists in Hp as (i & _ & Hus). unfold useful in Hus. destruct (producers s !! i) as [q |] eqn:Hi; [| done].
    apply andb_true_iff in Hus as [Hok Hne%negb_true_iff%bool_decide_eq_false]. destruct (produce i o s) as [s' |] eqn:E; [| done].
    destruct (produce_inv s i q o s' Hs Hi Ho E) as [Hst Hs']. exists s'. split; [by apply rtc_once |]. split; [done | by eapply produce_less]. }
  destruct (decide (Exists (λ t, is_ok (consume t s) = true) (seq 0 (length (chans s))))) as [Hc | Hc].
  { apply Exists_exists in Hc as (t & Htl%elem_of_seq & Ht). destruct (lookup_lt_is_Some_2 (chans s) t) as [c Htc]; [lia |].
    destruct (consumer_ok s t c Hs Htc) as [(s' & E & Hs' & Hless) | [E _]]; [| by rewrite E in Ht].
    exists s'. split; [apply rtc_once; by eapply step_consumer | done]. }
  destruct (stuck_finished s Hsl Hs) as [Hf | (i & q & Hi & Hpoll & Hall)]; [| | done | by eapply try_again].
  - intros i q Hi. destruct (decide (empty_poll s q)) as [| Hne]; [by right |]. left.
    destruct (produce_ok s i q o Hs Hi Ho) as [(s' & E & _) | [_ Hw]]; [| done]. exfalso. apply Hp, Exists_exists. exists i.
    unfold useful. rewrite Hi, E, bool_decide_eq_false_2 by done. split; [| done]. apply lookup_lt_Some in Hi. apply elem_of_seq. lia.
  - intros t c Ht. destruct (consumer_ok s t c Hs Ht) as [(s' & E & _) | [_ Hw]]; [| done]. exfalso. apply Hc, Exists_exists. exists t.
    rewrite E. split; [| done]. apply lookup_lt_Some in Ht. apply elem_of_seq. lia.
Qed.

#[local] Instance finished_dec s : Decision (finished s).
Proof.
  unfold finished. apply and_dec; apply Forall_dec; intros x.
  - destruct (pc x); (by left) || (by right).
  - destruct (cpc x); (by left) || (by right).
Defined.

(** From every reachable state the run can be completed. *)
Lemma completes s : Z.of_nat slack <= Pool.SLOTS → inv inputs s → (0 < length indexes)%nat → ∃ s', rtc step s s' ∧ finished s'.
Proof.
  intros Hsl Hs Hu. remember (left_to_do s) as n eqn:Hn. revert s Hn Hs. induction n as [n IH] using lt_wf_ind. intros s -> Hs.
  destruct (decide (finished s)) as [Hf | Hf]; [by exists s; split; [apply rtc_refl |] |].
  destruct (advance s Hsl Hs Hu Hf) as (s1 & Hst & Hs1 & Hless). destruct (IH _ Hless s1 eq_refl Hs1) as (s' & Hr & Hfin).
  exists s'. split; [by etransitivity |]. done.
Qed.

Lemma delivered_prefix s t c : inv inputs s → chans s !! t = Some c →
  delivered c `prefix_of` pushed c ∧ (length (pushed c) <= length (delivered c) + slack)%nat ∧ (cpc c = CDone → delivered c = pushed c).
Proof.
  intros [[_ Hc] _ _] Ht. destruct (Hc t c Ht) as [l [H1 H2 H3 H4 H5 H6 (rest & E & Hr) H8 _ _ _]]. split; [by exists rest |].
  apply (f_equal length) in Hr as Hlen. rewrite !length_fmap, length_app in Hlen. rewrite E, length_app. split.
  - unfold places in H4. rewrite !length_app in H4. unfold in_hand, expected, cheld in *. destruct (cpc c); simpl in *; lia.
  - intros Hd. unfold in_hand in Hr. rewrite Hd in Hr, H8. destruct H8 as [-> _]. destruct rest; [by rewrite app_nil_r | done].
Qed.

(** C17: In every interleaving of the producers and the consumers, no access is out of bounds, no assertion fails and
    no queue is used after it was closed.  Each target's parent runs on the packets
    queued for it, in their order and each once, with at most [slack] packets under way; when the run is over, every packet of every producer
    was delivered to exactly one target, the one of its hash if packets are routed by hash, and packets from one producer to one target
    kept their order.  If a target has no more buffers than its pool has slots, then from every state that is reached the run can be completed: no thread waits for
    something that no other thread can still do.  (A producer whose policy lets it try again may also poll for ever while
    the scheduler starves the others.) *)
Theorem router_delivers s : inputs ≠ [] → (0 < length indexes)%nat → rtc step (start inputs) s →
  (∀ i o e, (i < length inputs)%nat → choice_ok o → produce i o s = Err e → e = Blocked) ∧
  (∀ t e, (t < fanout)%nat → consume t s = Err e → e = Blocked) ∧
  (Z.of_nat slack <= Pool.SLOTS → ∃ s', rtc step s s' ∧ finished s') ∧
  (∀ t c, chans s !! t = Some c → delivered c `prefix_of` pushed c ∧ (length (pushed c) <= length (delivered c) + slack)%nat) ∧
  (finished s → ∀ i input, inputs !! i = Some input → ∃ sent, sent.*2 = input ∧ Forall (λ y, routed y.2 y.1) sent ∧
    ∀ t c, chans s !! t = Some c → (filter (λ y, y.1 = i) (delivered c)).*2 = (filter (λ y, y.1 = t) sent).*2).
Proof.
  intros Hne Hu Hr. pose proof (router_reachable_inv s Hne Hr) as Hs. pose proof (n_sent _ _ Hs) as Hv. pose proof (v_len _ _ Hv) as Hlen.
  split; [| split; [| split; [intros Hsl; by apply completes | split]]].
  - intros i o e Hi Ho E. destruct (lookup_lt_is_Some_2 (producers s) i) as [q Hq]; [lia |].
    destruct (produce_ok s i q o Hs Hq Ho) as [(s' & E' & _) | [E' _]]; congruence.
  - intros t e Ht E. destruct (lookup_lt_is_Some_2 (chans s) t) as [c Hc]; [by rewrite (proj1 (n_chans _ _ Hs)) |].
    destruct (consumer_ok s t c Hs Hc) as [(s' & E' & _) | [E' _]]; congruence.
  - intros t c Ht. destruct (delivered_prefix s t c Hs Ht) as (? & ? & _). done.
  - intros [Hpd Hcd] i input Hi. destruct (lookup_lt_is_Some_2 (producers s) i) as [q Hq]; [apply lookup_lt_Some in Hi; lia |].
    destruct (v_producer _ _ Hv i q Hq) as (_ & Hok & Hin & Hrt). unfold producer_ok in Hok. rewrite (Forall_lookup_1 _ _ _ _ Hpd Hq) in Hok.
    exists (sent q). rewrite Hok, app_nil_r, Hi in Hin. injection Hin as ->. split; [done |]. split; [done |]. intros t c Ht.
    destruct (delivered_prefix s t c Hs Ht) as (_ & _ & Hd). rewrite (Hd (Forall_lookup_1 _ _ _ _ Hcd Ht)). apply (v_pushed _ _ Hv i q t c Hq Ht).
Qed.

End router.

(** ** An example: two producers, three targets, one buffer each, numbers routed by their value *)

Definition ex_choice : choice := mk_choice 0 0 0 0.

(** The threads take turns; one that waits is passed over. *)
Definition turn (s : state (X := Z)) (th : nat + nat) : state (X := Z) :=
  match (match th with inl i => produce 3 HashBased [[0; 1; 2]%nat] id i ex_choice s | inr t => consume 1 t s end) with Ok s' => s' | Err _ => s end.

Definition ex_inputs : list (list Z) := [[5; 3; 8]; [4; 2]].
Definition ex_round : list (nat + nat) := [inl 0; inr 2; inl 1; inr 0; inr 1; inr 2]%nat.
Definition ex_end : state (X := Z) := fold_left turn (concat (replicate 40 ex_round)) (start 3 1 ex_inputs).

Lemma turns_reach sch : ∀ s, rtc (step 3 1 HashBased [[0; 1; 2]%nat] id) s (fold_left turn sch s).
Proof.
  induction sch as [| th sch IH]; intros s; [apply rtc_refl |]. simpl. etransitivity; [| apply IH]. unfold turn at 1.
  destruct th as [i | t].
  - destruct (produce 3 HashBased [[0; 1; 2]%nat] id i ex_choice s) eqn:E; [| apply rtc_refl]. apply rtc_once. eapply step_producer; [| exact E]. unfold choice_ok. simpl. lia.
  - destruct (consume 1 t s) eqn:E; [| apply rtc_refl]. apply rtc_once. by eapply step_consumer.
Qed.

Lemma router_delivers_witness : ∃ sent, sent.*2 = [5; 3; 8] ∧ Forall (λ y, routed 3 HashBased id y.2 y.1) sent ∧
  ∀ t c, chans ex_end !! t = Some c → (filter (λ y, y.1 = 0%nat) (delivered c)).*2 = (filter (λ y, y.1 = t) sent).*2.
Proof.
  destruct (router_delivers 3 1 HashBased [[0; 1; 2]%nat] id) with (inputs := ex_inputs) (s := ex_end) as (_ & _ & _ & _ & Hfin).
  - split; [lia | done].
  - lia.
  - constructor; [| done]. split; [done | repeat constructor].
  - done.
  - simpl. lia.
  - apply turns_reach.
  - apply (Hfin ltac:(vm_compute; split; repeat constructor) 0%nat [5; 3; 8] eq_refl).
Defined.

End Router.
