(* ===== verification/RingSet.v ===== *)
(** * RingSet: the lock-free pool of a router
    ([UnsafeRingBuffer] and [threadsafe_set] in [olap/lib/util/datastructures/threadsafe-set.hpp]).

    One thread puts elements in, any number of threads take them out.  Each operation first draws a
    ticket from a 32-bit counter that advances by two; the ticket selects a slot, whose marker
    says whether it is filled, and for which ticket.  Every atomic access is a step.

    The numbers of tickets that are not wrapped, [pushed] and [popped] only record the run: they are not read by
    the code. *)

From Stdlib Require Import ZArith Lia Bool.
From stdpp Require Import base numbers list relations.
From S2P Require Import Prelude.

Local Open Scope Z_scope.

Module RingSet.
Section ring.
Context {T : Type}.

(** The number of slots, a template argument; [threadsafe_set] has [64 * 1024] of them.  A power of two: it divides the
    number of tickets. *)
Context (N : nat).

Record entry : Type := mk_entry { marker : Z; data : option T }.

(** Where the producer is in [emplace], and a consumer in [pop], with the ticket; a consumer's ticket
    comes with its number. *)
Inductive producer : Type := EIdle | ETicket (x : T) (h : Z) | EFree (x : T) (h : Z) | EWritten (x : T) (h : Z).
Inductive consumer : Type := QIdle | QTicket (t : Z) (k : nat) | QReady (t : Z) (k : nat) | QRead (t : Z) (k : nat) (x : T).

Record ring : Type := mk {
  head : Z; tail : Z; slots : list entry;
  prod : producer; cons : list consumer;
  pushed : list T; popped : list (nat * T); tickets : nat;
}.

(** [UnsafeRingBuffer()]: the markers are -2. *)
Definition UnsafeRingBuffer (consumers : nat) : ring :=
  mk 0 0 (replicate N (mk_entry (u32 (-2)) None)) EIdle (replicate consumers QIdle) [] [] 0.

Definition slot_of (h : Z) : nat := Z.to_nat ((h / 2) mod Z.of_nat N).

Definition empty_unsafe (r : ring) : bool := head r =? tail r.
Definition size_unsafe (r : ring) : Z := u32 (head r - tail r) / 2.

Definition set_cons (r : ring) (i : nat) (q : consumer) : list consumer := <[i := q]> (cons r).

Inductive step : ring → ring → Prop :=
  | emplace_ticket r x : prod r = EIdle →
      step r (mk (u32 (head r + 2)) (tail r) (slots r) (ETicket x (u32 (u32 (head r + 2) - 2))) (cons r) (pushed r) (popped r) (tickets r))
  | emplace_check r x h e : prod r = ETicket x h → slots r !! slot_of h = Some e → Z.odd (marker e) = false →
      step r (mk (head r) (tail r) (slots r) (EFree x h) (cons r) (pushed r) (popped r) (tickets r))
  | emplace_write r x h e : prod r = EFree x h → slots r !! slot_of h = Some e →
      step r (mk (head r) (tail r) (<[slot_of h := mk_entry (marker e) (Some x)]> (slots r)) (EWritten x h) (cons r) (pushed r) (popped r) (tickets r))
  | emplace_mark r x h e : prod r = EWritten x h → slots r !! slot_of h = Some e →
      step r (mk (head r) (tail r) (<[slot_of h := mk_entry (u32 (h + 1)) (data e)]> (slots r)) EIdle (cons r) (pushed r ++ [x]) (popped r) (tickets r))
  | pop_ticket r i : cons r !! i = Some QIdle →
      step r (mk (head r) (u32 (tail r + 2)) (slots r) (prod r) (set_cons r i (QTicket (u32 (u32 (tail r + 2) - 2)) (tickets r)))
                 (pushed r) (popped r) (S (tickets r)))
  | pop_check r i t k e : cons r !! i = Some (QTicket t k) → slots r !! slot_of t = Some e → marker e = u32 (t + 1) →
      step r (mk (head r) (tail r) (slots r) (prod r) (set_cons r i (QReady t k)) (pushed r) (popped r) (tickets r))
  | pop_read r i t k e x : cons r !! i = Some (QReady t k) → slots r !! slot_of t = Some e → data e = Some x →
      step r (mk (head r) (tail r) (slots r) (prod r) (set_cons r i (QRead t k x)) (pushed r) (popped r) (tickets r))
  | pop_mark r i t k e x : cons r !! i = Some (QRead t k x) → slots r !! slot_of t = Some e →
      step r (mk (head r) (tail r) (<[slot_of t := mk_entry t (data e)]> (slots r)) (prod r) (set_cons r i QIdle)
                 (pushed r) (popped r ++ [(k, x)]) (tickets r)).

(** ** The invariant *)

Definition done (r : ring) (k : nat) : Prop := k ∈ (popped r).*1.

(** The tickets of consumers under way. *)
Definition ticket_of (q : consumer) : list nat := match q with QIdle => [] | QTicket _ k | QReady _ k | QRead _ k _ => [k] end.
Definition under_way (r : ring) : list nat := concat (ticket_of <$> cons r).

Definition ticket (k : nat) : Z := u32 (2 * Z.of_nat k).

Definition drawn (q : producer) : nat := match q with EIdle => 0 | _ => 1 end.

Record inv (consumers : nat) (r : ring) : Prop := {
  i_head : head r = ticket (length (pushed r) + drawn (prod r));
  i_tail : tail r = ticket (tickets r);
  i_slots : length (slots r) = N;
  i_threads : length (cons r) = consumers;
  i_unused k : (length (pushed r) <= k < N)%nat → ∃ e, slots r !! k = Some e ∧ marker e = u32 (-2);
  i_filled k : (k < length (pushed r) <= k + N)%nat → ∃ e, slots r !! (k mod N)%nat = Some e ∧
    (done r k → marker e = ticket k) ∧ (¬ done r k → marker e = u32 (ticket k + 1) ∧ data e = pushed r !! k);
  i_lag k : (k + N < length (pushed r))%nat → done r k;
  i_prod : match prod r with
    | EIdle => True
    | ETicket x h => h = ticket (length (pushed r))
    | EFree x h => h = ticket (length (pushed r)) ∧ ∀ k, (k + N = length (pushed r))%nat → done r k
    | EWritten x h => h = ticket (length (pushed r)) ∧ (∀ k, (k + N = length (pushed r))%nat → done r k) ∧
        ∃ e, slots r !! slot_of h = Some e ∧ data e = Some x
    end;
  i_tickets : (popped r).*1 ++ under_way r ≡ₚ seq 0 (tickets r);
  i_popped : Forall (λ y, pushed r !! y.1 = Some y.2) (popped r);
  i_cons i q : cons r !! i = Some q → match q with
    | QIdle => True
    | QTicket t k => t = ticket k
    | QReady t k => t = ticket k ∧ (k < length (pushed r))%nat
    | QRead t k x => t = ticket k ∧ pushed r !! k = Some x
    end;
}.

Context (HN : (Z.of_nat N | 2 ^ 31)).

Lemma N_pos : (0 < N)%nat.
Proof using HN. destruct HN as [d Hd]. destruct N; lia. Qed.

Lemma slot_ticket k : slot_of (ticket k) = (k mod N)%nat.
Proof using HN.
  pose proof N_pos. unfold slot_of, ticket. assert (u32 (2 * Z.of_nat k) / 2 = Z.of_nat k mod 2 ^ 31) as ->.
  { unfold wrap. replace (2 ^ 32) with (2 * 2 ^ 31) by lia. rewrite Z.mul_mod_distr_l by lia. rewrite Z.mul_comm, Z.div_mul by lia. done. }
  rewrite Z.mod_mod_divide by done. rewrite <- Nat2Z.inj_mod, Nat2Z.id. done.
Qed.

Lemma ticket_next k : u32 (ticket k + 2) = ticket (k + 1).
Proof. unfold ticket, wrap. rewrite Zplus_mod_idemp_l. f_equal. lia. Qed.

Lemma ticket_drawn k : u32 (ticket (k + 1) - 2) = ticket k.
Proof. unfold ticket, wrap. rewrite Zminus_mod_idemp_l. f_equal. lia. Qed.

Lemma odd_wrap x : Z.odd (u32 x) = Z.odd x.
Proof. unfold wrap. rewrite (Z.div_mod x (2 ^ 32)) at 2 by lia. rewrite Z.odd_add, Z.odd_mul. simpl. done. Qed.

Lemma odd_marker k : Z.odd (ticket k) = false ∧ Z.odd (u32 (ticket k + 1)) = true ∧ Z.odd (u32 (-2)) = false.
Proof.
  unfold ticket. rewrite !odd_wrap, Z.odd_add, !odd_wrap, Z.odd_mul. done.
Qed.

(** Tickets that are less than [2 ^ 31] apart are told apart by their markers. *)
Lemma marker_inj j k : u32 (ticket j + 1) = u32 (ticket k + 1) → Z.abs (Z.of_nat j - Z.of_nat k) < 2 ^ 31 → j = k.
Proof.
  unfold ticket, wrap. rewrite !Zplus_mod_idemp_l. intros E Hd.
  assert ((2 * Z.of_nat j - 2 * Z.of_nat k) mod 2 ^ 32 = 0) as Hz.
  { replace (2 * Z.of_nat j - 2 * Z.of_nat k) with ((2 * Z.of_nat j + 1) - (2 * Z.of_nat k + 1)) by lia.
    rewrite Zminus_mod, E, Z.sub_diag. done. }
  apply Z.mod_divide in Hz as [d Hd']; [| lia]. assert (d = 0) by nia. lia.
Qed.

Lemma same_slot a b : (a mod N = b mod N)%nat → (a < b + N)%nat → (b < a + N)%nat → a = b.
Proof using HN.
  intros E H1 H2. pose proof N_pos. clear HN.
  pose proof (Nat.div_mod_eq a N). pose proof (Nat.div_mod_eq b N). destruct (Nat.lt_trichotomy (a / N) (b / N)) as [Hl | [Hq | Hl]]; nia.
Qed.

(** The last element pushed to a slot. *)
Lemma last_in_slot P m : (m < N)%nat → (m < P)%nat → ∃ j, (j mod N = m)%nat ∧ (j < P <= j + N)%nat.
Proof using HN.
  intros Hm Hp. pose proof N_pos. exists (P - 1 - (P - 1 - m) mod N)%nat. clear HN.
  pose proof (Nat.mod_upper_bound (P - 1 - m) N). pose proof (Nat.div_mod_eq (P - 1 - m) N) as E.
  assert (P - 1 - (P - 1 - m) mod N = m + (P - 1 - m) / N * N)%nat as -> by lia. split; [| lia].
  rewrite Nat.Div0.mod_add. by apply Nat.mod_small.
Qed.

Context (consumers : nat).

Section facts.
Context (r : ring) (Hr : inv consumers r).

Lemma done_lt k : done r k → (k < length (pushed r))%nat.
Proof using Hr HN.
  intros (y & -> & Hy)%list_elem_of_fmap. apply (proj1 (Forall_forall _ _) (i_popped _ _ Hr)) in Hy. by apply lookup_lt_Some in Hy.
Qed.

Lemma tickets_nodup : NoDup ((popped r).*1 ++ under_way r).
Proof using Hr HN. rewrite (i_tickets _ _ Hr). apply NoDup_seq. Qed.

Lemma in_under_way i q k : cons r !! i = Some q → ticket_of q = [k] → k ∈ under_way r.
Proof using Type.
  intros Hi Hk. unfold under_way. apply list_elem_of_In, in_concat. exists [k]. split; [| by left]. apply list_elem_of_In, list_elem_of_fmap.
  exists q. split; [done |]. by eapply list_elem_of_lookup_2.
Qed.

(** A ticket that is under way is not done, and its slot was not passed over. *)
Lemma under_way_fresh k : k ∈ under_way r → ¬ done r k ∧ (length (pushed r) <= k + N)%nat ∧ (k < tickets r)%nat.
Proof using Hr HN.
  intros Hk. assert (¬ done r k) as Hd by (pose proof tickets_nodup as (_ & Hx & _)%NoDup_app; intros Hd; by apply (Hx k)).
  split; [done |]. split.
  - destruct (decide (k + N < length (pushed r))%nat) as [Hlt |]; [| lia]. by apply (i_lag _ _ Hr) in Hlt.
  - assert (k ∈ seq 0 (tickets r)) as Hs by (rewrite <- (i_tickets _ _ Hr); set_solver). apply elem_of_seq in Hs. lia.
Qed.

Lemma length_under_way (l : list consumer) : (length (concat (ticket_of <$> l)) <= length l)%nat.
Proof using Type.
  induction l as [| q l IH]; [done |]. rewrite fmap_cons. simpl. rewrite length_app.
  assert (length (ticket_of q) <= 1)%nat by (destruct q; simpl; lia). lia.
Qed.

(** There are at most as many tickets as elements and consumers. *)
Lemma tickets_bound : (tickets r <= length (pushed r) + consumers)%nat.
Proof using Hr HN.
  pose proof (Permutation_length (i_tickets _ _ Hr)) as Hl. rewrite length_app, length_seq, length_fmap in Hl.
  assert (length (under_way r) <= consumers)%nat.
  { rewrite <- (i_threads _ _ Hr). apply length_under_way. }
  assert (length (popped r).*1 <= length (seq 0 (length (pushed r))))%nat as Hp.
  { apply submseteq_length, NoDup_submseteq; [by pose proof tickets_nodup as [? _]%NoDup_app |]. intros k Hk. apply elem_of_seq. apply done_lt in Hk. lia. }
  rewrite length_fmap, length_seq in Hp. lia.
Qed.

End facts.

(** ** Every step keeps the invariant *)

Lemma under_way_set (l : list consumer) i q q' : l !! i = Some q →
  concat (ticket_of <$> <[i := q']> l) ++ ticket_of q ≡ₚ concat (ticket_of <$> l) ++ ticket_of q'.
Proof using Type.
  revert i. induction l as [| p l IH]; intros [| i] Hi; simplify_eq/=.
  - solve_Permutation.
  - rewrite <- !app_assoc, IH by done. done.
Qed.

(** A consumer's step that draws no ticket and gives none back keeps what is said of tickets and of the other consumers. *)
Lemma under_way_same (l : list consumer) i q q' : l !! i = Some q → ticket_of q = ticket_of q' →
  concat (ticket_of <$> <[i := q']> l) ≡ₚ concat (ticket_of <$> l).
Proof using Type. intros Hi E. pose proof (under_way_set l i q q' Hi) as H. rewrite <- E in H. by apply Permutation_app_inv_r in H. Qed.

(** The slot the producer writes holds no element that is still wanted. *)
Lemma producer_slot r k : inv consumers r → (∀ k, (k + N = length (pushed r))%nat → done r k) →
  (k < length (pushed r) <= k + N)%nat → (k mod N = length (pushed r) mod N)%nat → done r k.
Proof using HN.
  intros Hr Hd Hk E. destruct (decide (k + N = length (pushed r))%nat) as [? |]; [by apply Hd |].
  apply same_slot in E; lia.
Qed.

Lemma step_producer_ticket r x : inv consumers r → prod r = EIdle →
  inv consumers (mk (u32 (head r + 2)) (tail r) (slots r) (ETicket x (u32 (u32 (head r + 2) - 2))) (cons r) (pushed r) (popped r) (tickets r)).
Proof using HN.
  intros Hr E. destruct Hr. rewrite E, Nat.add_0_r in i_head0. constructor; simpl; try done.
  - by rewrite i_head0, ticket_next.
  - by rewrite i_head0, ticket_next, ticket_drawn.
Qed.

Lemma step_producer_check r x h e : inv consumers r → prod r = ETicket x h → slots r !! slot_of h = Some e → Z.odd (marker e) = false →
  inv consumers (mk (head r) (tail r) (slots r) (EFree x h) (cons r) (pushed r) (popped r) (tickets r)).
Proof using HN.
  intros Hr E He Ho. pose proof (i_filled _ _ Hr) as Hf. destruct Hr. rewrite E in *. subst h. constructor; simpl; try done.
  split; [done |]. intros k Hk. destruct (decide (k ∈ (popped r).*1)) as [? | Hn]; [done |]. pose proof N_pos.
  destruct (Hf k) as (e' & He' & _ & Hm); [lia |]. destruct (Hm Hn) as [Hm' _].
  rewrite slot_ticket, <- Hk in He. replace ((k + N) mod N)%nat with (k mod N)%nat in He.
  - assert (e' = e) as -> by congruence. destruct (odd_marker k) as (_ & Ho' & _). rewrite <- Hm' in Ho'. congruence.
  - symmetry. rewrite <- (Nat.mul_1_l N) at 1. apply Nat.Div0.mod_add.
Qed.

Lemma step_producer_write r x h e : inv consumers r → prod r = EFree x h → slots r !! slot_of h = Some e →
  inv consumers (mk (head r) (tail r) (<[slot_of h := mk_entry (marker e) (Some x)]> (slots r)) (EWritten x h) (cons r) (pushed r) (popped r) (tickets r)).
Proof using HN.
  intros Hr E He. pose proof (λ k, producer_slot r k Hr) as Hps. destruct Hr. rewrite E in *. destruct i_prod0 as [-> Hd].
  pose proof (lookup_lt_Some _ _ _ He) as Hlt. rewrite slot_ticket in *. constructor; simpl; try done.
  - by rewrite length_insert.
  - intros k Hk. destruct (decide (length (pushed r) mod N = k)%nat) as [<- | Hne].
    + destruct (i_unused0 _ Hk) as (e' & He' & Hm). assert (e' = e) as -> by congruence. eexists. by rewrite list_lookup_insert_eq.
    + rewrite list_lookup_insert_ne by done. by apply i_unused0.
  - intros k Hk. destruct (i_filled0 k Hk) as (e' & He' & Hm). destruct (decide (k mod N = length (pushed r) mod N)%nat) as [Hs | Hne].
    + pose proof (Hps k Hd Hk Hs) as Hdk. rewrite Hs in *. assert (e' = e) as -> by congruence.
      eexists. rewrite list_lookup_insert_eq by done. split; [done |]. simpl. split; [intros _; by apply Hm | done].
    + exists e'. by rewrite list_lookup_insert_ne.
  - split; [done |]. split; [done |]. eexists. rewrite slot_ticket, list_lookup_insert_eq by done. done.
Qed.

Lemma step_producer_mark r x h e : inv consumers r → prod r = EWritten x h → slots r !! slot_of h = Some e →
  inv consumers (mk (head r) (tail r) (<[slot_of h := mk_entry (u32 (h + 1)) (data e)]> (slots r)) EIdle (cons r) (pushed r ++ [x]) (popped r) (tickets r)).
Proof using HN.
  intros Hr E He. pose proof (done_lt r Hr) as Hdl. pose proof N_pos as Hpos. destruct Hr. rewrite E in *. destruct i_prod0 as (-> & Hd & e' & He' & Hx).
  assert (e' = e) as -> by congruence. pose proof (lookup_lt_Some _ _ _ He) as Hlt. rewrite slot_ticket in *.
  constructor; simpl; rewrite ?length_app; simpl; try done.
  - rewrite i_head0. simpl. f_equal. lia.
  - by rewrite length_insert.
  - intros k Hk. rewrite list_lookup_insert_ne; [apply i_unused0; lia |]. rewrite Nat.mod_small; lia.
  - intros k Hk. destruct (decide (k = length (pushed r))) as [-> | Hne].
    + eexists. rewrite list_lookup_insert_eq by done. split; [done |]. simpl. split; [intros ?%Hdl; lia |].
      intros _. rewrite list_lookup_middle by done. done.
    + destruct (i_filled0 k) as (e' & He2 & Hm); [lia |]. exists e'. rewrite list_lookup_insert_ne; [| intros Hs; apply same_slot in Hs; lia].
      split; [done |]. rewrite lookup_app_l by lia. done.
  - intros k Hk. destruct (decide (k + N = length (pushed r))%nat); [by apply Hd | apply i_lag0; lia].
  - eapply Forall_impl; [exact i_popped0 |]. intros y Hy. by apply lookup_app_l_Some.
  - intros i q Hq. specialize (i_cons0 i q Hq). destruct q; try done; destruct i_cons0; split; try done; [lia | by apply lookup_app_l_Some].
Qed.

Lemma step_consumer_ticket r i : inv consumers r → cons r !! i = Some QIdle →
  inv consumers (mk (head r) (u32 (tail r + 2)) (slots r) (prod r) (set_cons r i (QTicket (u32 (u32 (tail r + 2) - 2)) (tickets r)))
    (pushed r) (popped r) (S (tickets r))).
Proof using HN.
  intros Hr Hi. destruct Hr. unfold set_cons. constructor; simpl; try done.
  - rewrite i_tail0, ticket_next. f_equal. lia.
  - by rewrite length_insert.
  - change (0%nat :: seq 1 (tickets r)) with (seq 0 (S (tickets r))). rewrite seq_S, <- i_tickets0. unfold under_way. simpl.
    rewrite <- app_assoc. f_equiv. pose proof (under_way_set (cons r) i QIdle (QTicket (u32 (u32 (tail r + 2) - 2)) (tickets r)) Hi) as Hp.
    simpl in Hp. by rewrite app_nil_r in Hp.
  - intros j q [(-> & <- & _) | [_ Hq]]%list_lookup_insert_Some; [| by apply i_cons0 in Hq].
    by rewrite i_tail0, ticket_next, ticket_drawn.
Qed.

(** A consumer that goes on with its ticket. *)
Lemma step_consumer_on r i q q' : inv consumers r → cons r !! i = Some q → ticket_of q = ticket_of q' →
  match q' with
  | QIdle => True
  | QTicket t k => t = ticket k
  | QReady t k => t = ticket k ∧ (k < length (pushed r))%nat
  | QRead t k x => t = ticket k ∧ pushed r !! k = Some x
  end →
  inv consumers (mk (head r) (tail r) (slots r) (prod r) (set_cons r i q') (pushed r) (popped r) (tickets r)).
Proof using HN.
  intros Hr Hi Ht Hq. destruct Hr. unfold set_cons. constructor; simpl; try done.
  - by rewrite length_insert.
  - rewrite <- i_tickets0. f_equiv. unfold under_way. simpl. by eapply under_way_same.
  - intros j p [(-> & <- & _) | [_ Hp]]%list_lookup_insert_Some; [done | by apply i_cons0 in Hp].
Qed.

Lemma step_consumer_mark r i t k e x : inv consumers r → cons r !! i = Some (QRead t k x) → slots r !! slot_of t = Some e →
  inv consumers (mk (head r) (tail r) (<[slot_of t := mk_entry t (data e)]> (slots r)) (prod r) (set_cons r i QIdle)
    (pushed r) (popped r ++ [(k, x)]) (tickets r)).
Proof using HN.
  intros Hr Hi He. destruct (under_way_fresh r Hr k (in_under_way r i _ k Hi eq_refl)) as (Hnd & Hlag & _).
  destruct (i_cons _ _ Hr i _ Hi) as [-> Hx]. pose proof (lookup_lt_Some _ _ _ Hx) as Hk. pose proof N_pos as Hpos.
  pose proof (lookup_lt_Some _ _ _ He) as Hlt. rewrite slot_ticket in *. destruct Hr. unfold set_cons.
  set (r' := mk _ _ _ _ _ _ _ _). assert (∀ j, done r' j ↔ done r j ∨ j = k) as Hdone.
  { intros j. unfold done, r'. simpl. rewrite fmap_app. set_solver. }
  constructor; simpl; try done.
  - by rewrite length_insert.
  - by rewrite length_insert.
  - intros m Hm. rewrite list_lookup_insert_ne; [by apply i_unused0 |]. intros <-. pose proof (Nat.Div0.mod_le k N). lia.
  - intros j Hj. setoid_rewrite Hdone. destruct (decide (j = k)) as [-> | Hne].
    + eexists. rewrite list_lookup_insert_eq by done. split; [done |]. simpl. split; [done |]. intros []. by right.
    + destruct (i_filled0 j Hj) as (e' & He' & Hd & Hn). exists e'. rewrite list_lookup_insert_ne; [| intros Hs; apply Hne; symmetry; apply same_slot; lia].
      split; [done |]. split; [intros [? | ->]; [by apply Hd | done] |]. intros Hnn. apply Hn. intros ?. apply Hnn. by left.
  - intros j Hj. apply Hdone. left. by apply i_lag0.
  - destruct (prod r); try done; [destruct i_prod0 as [? Hp] | destruct i_prod0 as (? & Hp & e' & He' & Hdt)].
    + split; [done |]. intros j Hj. apply Hdone. left. by apply Hp.
    + split; [done |]. split; [intros j Hj; apply Hdone; left; by apply Hp |].
      destruct (decide (k mod N = slot_of h)%nat) as [Hs | Hne]; [| exists e'; by rewrite list_lookup_insert_ne].
      rewrite <- Hs in *. rewrite list_lookup_insert_eq by done. eexists. split; [done |]. simpl. congruence.
  - rewrite fmap_app. rewrite <- i_tickets0, <- app_assoc. f_equiv. unfold under_way. simpl.
    pose proof (under_way_set (cons r) i (QRead (ticket k) k x) QIdle Hi) as Hp. simpl in Hp. rewrite app_nil_r in Hp. rewrite <- Hp. solve_Permutation.
  - apply Forall_app. split; [done |]. by constructor.
  - intros j p [(-> & <- & _) | [_ Hp]]%list_lookup_insert_Some; [done | by apply i_cons0 in Hp].
Qed.

(** Fewer than [2 ^ 31] tickets are wanted at once. *)
Context (Hfew : Z.of_nat N + Z.of_nat consumers < 2 ^ 31).

(** The marker of a consumer's ticket is there only when its element is. *)
Lemma marker_found r i k e : inv consumers r → cons r !! i = Some (QTicket (ticket k) k) → slots r !! (k mod N)%nat = Some e → marker e = u32 (ticket k + 1) →
  (k < length (pushed r))%nat.
Proof using Hfew HN.
  intros Hr Hi He Hm. pose proof (in_under_way r i _ k Hi eq_refl) as Hu. destruct (under_way_fresh r Hr k Hu) as (Hd & Hlag & Htk).
  pose proof N_pos as Hpos. assert (k mod N < N)%nat as Hmod by (apply Nat.mod_upper_bound; lia).
  destruct (decide (length (pushed r) <= k mod N)%nat) as [Hun | Hus].
  { destruct (i_unused _ _ Hr (k mod N)%nat) as (e' & He' & Hm'); [lia |]. assert (e' = e) as -> by congruence.
    destruct (odd_marker k) as (_ & Ho & Ho'). rewrite <- Hm, Hm' in Ho. congruence. }
  destruct (last_in_slot (length (pushed r)) (k mod N)%nat Hmod) as (j & Hj & Hw); [lia |].
  destruct (i_filled _ _ Hr j Hw) as (e' & He' & Hdone & Hnot). rewrite Hj in He'. assert (e' = e) as -> by congruence.
  destruct (decide (j ∈ (popped r).*1)) as [Hin | Hin].
  - specialize (Hdone Hin). destruct (odd_marker k) as (_ & Ho & _). destruct (odd_marker j) as (Ho' & _). rewrite <- Hm, Hdone in Ho. congruence.
  - destruct (Hnot Hin) as [Hm' _]. rewrite Hm in Hm'. pose proof (tickets_bound r Hr). assert (k = j) as -> by (apply marker_inj; [done | lia]). lia.
Qed.

Lemma ring_set_step r r' : step r r' → inv consumers r → inv consumers r'.
Proof using Hfew HN.
  intros [] Hr.
  - by apply step_producer_ticket.
  - by eapply step_producer_check.
  - by eapply step_producer_write.
  - by eapply step_producer_mark.
  - by apply step_consumer_ticket.
  - pose proof (i_cons _ _ Hr i _ H) as Ht. simpl in Ht. subst t. eapply step_consumer_on; [done | done | done |]. simpl. split; [done |].
    rewrite slot_ticket in H0. by eapply marker_found.
  - destruct (i_cons _ _ Hr i _ H) as [Ht Hk]. subst t. eapply step_consumer_on; [done | done | done |]. simpl. split; [done |].
    destruct (under_way_fresh _ Hr k (in_under_way _ i _ k H eq_refl)) as (Hnd & Hlag & _).
    destruct (i_filled _ _ Hr k) as (e' & He' & _ & Hn); [lia |]. rewrite slot_ticket in H0. assert (e' = e) as -> by congruence.
    destruct (Hn Hnd) as [_ <-]. done.
  - by eapply step_consumer_mark.
Qed.

Lemma ring_set_start : inv consumers (UnsafeRingBuffer consumers).
Proof using HN.
  constructor; simpl; try done; try lia.
  - by rewrite length_replicate.
  - by rewrite length_replicate.
  - intros k Hk. eexists. split; [apply lookup_replicate_2; lia | done].
  - unfold under_way. simpl. assert (∀ n, concat (ticket_of <$> replicate n QIdle) = []) as -> by (by induction n). done.
  - intros i q [-> _]%lookup_replicate. done.
Qed.

(** Each element pushed is either popped or still in its slot, with its marker. *)
Lemma pushed_kept r k x : inv consumers r → pushed r !! k = Some x →
  (k, x) ∈ popped r ∨ ∃ e, slots r !! (k mod N)%nat = Some e ∧ marker e = u32 (ticket k + 1) ∧ data e = Some x.
Proof using HN.
  intros Hr Hk. destruct (decide (k ∈ (popped r).*1)) as [Hd | Hd].
  - left. apply list_elem_of_fmap in Hd as ([k' y] & -> & Hy). simpl in *.
    pose proof (proj1 (Forall_forall _ _) (i_popped _ _ Hr) _ Hy) as E. simpl in E. by simplify_eq.
  - right. destruct (i_filled _ _ Hr k) as (e & He & _ & Hn).
    + pose proof (lookup_lt_Some _ _ _ Hk). destruct (decide (k + N < length (pushed r))%nat) as [Hl |]; [by apply (i_lag _ _ Hr) in Hl | lia].
    + destruct (Hn Hd) as [Hm Hdt]. exists e. rewrite Hdt. done.
Qed.

End ring.

(** C19: a router's pool hands each element out once.  Whatever the interleaving of the producer's and the consumers'
    accesses, and however often the 32-bit tickets wrap, the consumer that drew the k-th ticket pops the k-th element pushed;
    no ticket is served twice; and an element that is not popped yet is in its slot, under its marker: the
    producer never overwrites it.  The number of slots has to divide the number of tickets (the comment in the code only prefers a
    power of two), and the slots and the consumers are fewer than the tickets. *)
Theorem ring_set_delivers {T : Type} (N consumers : nat) (r : @ring T) :
  (Z.of_nat N | 2 ^ 31) → Z.of_nat N + Z.of_nat consumers < 2 ^ 31 → rtc (step N) (UnsafeRingBuffer N consumers) r →
  Forall (λ y, pushed r !! y.1 = Some y.2) (popped r) ∧ NoDup (popped r).*1 ∧
  ∀ k x, pushed r !! k = Some x → (k, x) ∈ popped r ∨
    ∃ e, slots r !! (k mod N)%nat = Some e ∧ marker e = u32 (ticket k + 1) ∧ data e = Some x.
Proof.
  intros HN Hfew Hs. assert (inv N consumers r) as Hr.
  { pose proof (ring_set_start (T := T) N HN consumers) as H0. induction Hs as [| a b c Hab _ IH]; [done |]. apply IH. by eapply ring_set_step. }
  split; [by apply (i_popped _ _ _ Hr) |]. split; [by pose proof (tickets_nodup N HN consumers r Hr) as [? _]%NoDup_app |].
  intros k x Hk. by eapply pushed_kept.
Qed.

(** One step of a concrete run; the state is evaluated. *)
Ltac go rule :=
  eapply rtc_l; [eapply rule; reflexivity |];
  match goal with |- rtc _ ?s _ => let s' := eval vm_compute in s in change s with s' end.
Ltac emplaced := go (@emplace_check Z); go (@emplace_write Z); go (@emplace_mark Z).

Lemma ring_set_delivers_witness : ∃ r : @ring Z, rtc (step 2) (UnsafeRingBuffer 2 1) r ∧
  pushed r = [7; 8; 9] ∧ popped r = [(0%nat, 7)] ∧ NoDup (popped r).*1.
Proof.
  assert (∃ r : @ring Z, rtc (step 2) (UnsafeRingBuffer 2 1) r ∧ pushed r = [7; 8; 9] ∧ popped r = [(0%nat, 7)]) as (r & Hs & Hp & Hq).
  - eexists. split.
    + go (λ r, @emplace_ticket Z 2 r 7). emplaced. go (λ r, @emplace_ticket Z 2 r 8). emplaced.
      go (λ r, @emplace_ticket Z 2 r 9). go (λ r, @pop_ticket Z 2 r 0%nat). go (λ r, @pop_check Z 2 r 0%nat). go (λ r, @pop_read Z 2 r 0%nat). go (λ r, @pop_mark Z 2 r 0%nat).
      emplaced. apply rtc_refl.
    + split; reflexivity.
  - exists r. split; [done |]. split; [done |]. split; [done |].
    apply (ring_set_delivers 2 1 r); [by exists (2 ^ 30) | lia | exact Hs].
Defined.

End RingSet.
