(* ===== verification/Jsmn.v ===== *)
(** * Jsmn: the JSON tokenizer
    ([external/jsmn/jsmn.c] and [jsmn.h], with the repository's changes; [parseLineJSON] in
    [olap/lib/util/functions.cpp]).

    A line of JSON becomes an array of tokens in the order of their first characters.  The array is the one
    the build has ([JSON_SYMANTEC_WIDE]): zeroed, and doubled when it is full.  The trees of [item] are the specification:
    [text] is what is written in the file, [tokens_of] the tokens it has to become. *)

From Stdlib Require Import ZArith Lia Bool.
From stdpp Require Import base numbers list sets.
From S2P Require Import Prelude Text.

Local Open Scope Z_scope.
Local Open Scope res_scope.

Module Jsmn.
Import Text.

(** ** Tokens *)

Inductive jsmntype : Type := JSMN_PRIMITIVE | JSMN_OBJECT | JSMN_ARRAY | JSMN_STRING.

#[export] Instance jsmntype_eq_dec : EqDecision jsmntype.
Proof. solve_decision. Defined.

Inductive jsmnerr : Type := JSMN_ERROR_NOMEM | JSMN_ERROR_INVAL | JSMN_ERROR_PART.

(** [end] is called [fin]. *)
Record token : Type := mk_token { type : jsmntype; start : Z; fin : Z; size : Z }.

Definition zero_token : token := mk_token JSMN_PRIMITIVE 0 0 0.

Definition MAXTOKENS : nat := 600.

(** The parser, with the array of tokens and its length; [toksuper] is -1 when there is none. *)
Record parser : Type := mk { pos : nat; toknext : nat; toksuper : option nat; tokens : list token; num_tokens : nat }.

Definition jsmn_init (row : list token) (num : nat) : parser := mk 0 0 None row num.

Definition at_pos (p : parser) (k : nat) : parser := mk k (toknext p) (toksuper p) (tokens p) (num_tokens p).
Definition with_tokens (p : parser) (l : list token) : parser := mk (pos p) (toknext p) (toksuper p) l (num_tokens p).
Definition with_super (p : parser) (k : option nat) : parser := mk (pos p) (toknext p) k (tokens p) (num_tokens p).

(** A token that is not closed yet. *)
Definition is_open (t : token) : bool := negb (start t =? -1) && (fin t =? -1).

Definition inc_size (t : token) : token := mk_token (type t) (start t) (fin t) (size t + 1).

(** [tokens[toksuper].size++]. *)
Definition bump (k : option nat) (l : list token) : list token :=
  match k with None => l | Some k => alter inc_size k l end.

Definition jsmn_alloc_token (p : parser) : res (nat * parser) :=
  let (l, num) :=
    if Nat.leb (num_tokens p) (toknext p)
    then (take (num_tokens p) (tokens p) ++ replicate (num_tokens p) zero_token, num_tokens p * 2)%nat
    else (tokens p, num_tokens p) in
  do old <- of_option Undefined (l !! toknext p);
  Ok (toknext p, mk (pos p) (S (toknext p)) (toksuper p) (<[toknext p := mk_token (type old) (-1) (-1) 0]> l) num).

Definition jsmn_fill_token (k : nat) (ty : jsmntype) (s e : nat) (p : parser) : parser :=
  with_tokens p (<[k := mk_token ty (Z.of_nat s) (Z.of_nat e) 0]> (tokens p)).

(** ** Characters *)

Definition QUOTE : Z := 34.
Definition BACKSLASH : Z := 92.

(** Between tokens. *)
Definition is_gap (c : Z) : bool := (c =? 9) || (c =? 13) || (c =? 10) || (c =? 58) || (c =? 44) || (c =? 32).

(** The end of a primitive. *)
Definition is_delim (c : Z) : bool := is_gap c || (c =? 93) || (c =? 125).

Definition is_escaped (c : Z) : bool :=
  (c =? 34) || (c =? 47) || (c =? 92) || (c =? 98) || (c =? 102) || (c =? 114) || (c =? 110) || (c =? 116).

Definition is_hex (c : Z) : bool :=
  ((48 <=? c) && (c <=? 57)) || ((65 <=? c) && (c <=? 70)) || ((97 <=? c) && (c <=? 102)).

Definition opening (o : bool) : Z := if o then 123 else 91.
Definition closing (o : bool) : Z := if o then 125 else 93.
Definition node_type (o : bool) : jsmntype := if o then JSMN_OBJECT else JSMN_ARRAY.

Section line.
(** The line; behind it is the zero [parseLineJSON] writes. *)
Context (js : str).

Definition char (k : nat) : Z := default 0 (js !! k).

Definition more (k : nat) : bool := Nat.ltb k (length js) && negb (char k =? 0).

(** The loop of [jsmn_parse_primitive]. *)
Fixpoint primitive_end (fuel : nat) (k : nat) : jsmnerr + nat :=
  match fuel with
  | O => inr k
  | S fuel =>
      if more k then
        if is_delim (char k) then inr k
        else if (char k <? 32) || (127 <=? char k) then inl JSMN_ERROR_INVAL
        else primitive_end fuel (S k)
      else inr k
  end.

Definition jsmn_parse_primitive (p : parser) : res (jsmnerr + parser) :=
  match primitive_end (length js - pos p) (pos p) with
  | inl e => Ok (inl e)
  | inr e => do (k, p') <- jsmn_alloc_token p; Ok (inr (at_pos (jsmn_fill_token k JSMN_PRIMITIVE (pos p) e p') (e - 1)))
  end.

(** The four digits of [\uXXXX]. *)
Fixpoint hex_end (n : nat) (k : nat) : option nat :=
  match n with
  | O => Some k
  | S n => if char k =? 0 then Some k else if is_hex (char k) then hex_end n (S k) else None
  end.

(** The loop of [jsmn_parse_string]. *)
Fixpoint string_end (fuel : nat) (k : nat) : jsmnerr + nat :=
  match fuel with
  | O => inl JSMN_ERROR_PART
  | S fuel =>
      if more k then
        if char k =? QUOTE then inr k
        else if char k =? BACKSLASH then
          if is_escaped (char (S k)) then string_end fuel (S (S k))
          else if char (S k) =? 117 then
            match hex_end 4 (S (S k)) with
            | None => inl JSMN_ERROR_INVAL
            | Some k' => string_end fuel k'
            end
          else inl JSMN_ERROR_INVAL
        else string_end fuel (S k)
      else inl JSMN_ERROR_PART
  end.

Definition jsmn_parse_string (p : parser) : res (jsmnerr + parser) :=
  match string_end (length js - pos p) (S (pos p)) with
  | inl e => Ok (inl e)
  | inr e => do (k, p') <- jsmn_alloc_token p; Ok (inr (at_pos (jsmn_fill_token k JSMN_STRING (S (pos p)) e p') e))
  end.

(** The last open token below [n]. *)
Fixpoint last_open (n : nat) (l : list token) : option nat :=
  match n with
  | O => None
  | S n =>
      match l !! n with
      | Some t => if is_open t then Some n else last_open n l
      | None => last_open n l
      end
  end.

Definition open_node (o : bool) (p : parser) : res (jsmnerr + parser) :=
  do (k, p') <- jsmn_alloc_token p;
  let l := bump (toksuper p') (tokens p') in
  do t <- of_option Undefined (l !! k);
  Ok (inr (with_super (with_tokens p' (<[k := mk_token (node_type o) (Z.of_nat (pos p)) (fin t) (size t)]> l)) (Some (toknext p' - 1)%nat))).

Definition close_node (o : bool) (p : parser) : res (jsmnerr + parser) :=
  match last_open (toknext p) (tokens p) with
  | None => Ok (inl JSMN_ERROR_INVAL)
  | Some i =>
      do t <- of_option Undefined (tokens p !! i);
      if negb (bool_decide (type t = node_type o)) then Ok (inl JSMN_ERROR_INVAL)
      else
        let l := <[i := mk_token (type t) (start t) (Z.of_nat (pos p + 1)) (size t)]> (tokens p) in
        Ok (inr (with_super (with_tokens p l) (last_open (S i) l)))
  end.

(** A leaf is counted by the token around it. *)
Definition counted (r : jsmnerr + parser) : jsmnerr + parser :=
  match r with inl e => inl e | inr p => inr (with_tokens p (bump (toksuper p) (tokens p))) end.

(** The body of the loop of [jsmn_parse], and the tokens it counts. *)
Definition parse_char (p : parser) : res ((jsmnerr + parser) * nat) :=
  let c := char (pos p) in
  if (c =? 123) || (c =? 91) then do r <- open_node (c =? 123) p; Ok (r, 1%nat)
  else if (c =? 125) || (c =? 93) then do r <- close_node (c =? 125) p; Ok (r, 0%nat)
  else if c =? QUOTE then do r <- jsmn_parse_string p; Ok (counted r, 1%nat)
  else if is_gap c then Ok (inr p, 0%nat)
  else do r <- jsmn_parse_primitive p; Ok (counted r, 1%nat).

Fixpoint parse_loop (fuel : nat) (p : parser) (count : nat) : res (jsmnerr + parser * nat) :=
  match fuel with
  | O => Ok (inr (p, count))
  | S fuel =>
      if more (pos p) then
        do (r, n) <- parse_char p;
        match r with
        | inl e => Ok (inl e)
        | inr p' => parse_loop fuel (at_pos p' (S (pos p'))) (count + n)
        end
      else Ok (inr (p, count))
  end.

(** The tokens and their number.  Positions are [int]s. *)
Definition jsmn_parse (row : list token) (num : nat) : res (jsmnerr + list token * nat) :=
  check Z.of_nat (length js) <? 2 ^ 31 else Undefined;
  do r <- parse_loop (length js) (jsmn_init row num) 0;
  match r with
  | inl e => Ok (inl e)
  | inr (p, count) =>
      match last_open (toknext p) (tokens p) with
      | Some _ => Ok (inl JSMN_ERROR_PART)
      | None => Ok (inr (tokens p, count))
      end
  end.

End line.

(** A line of the file, from [s] to the newline at [e], which is overwritten while it is parsed. *)
Definition parseLineJSON (buf : str) (s e : nat) (rows : list (list token)) (line : nat) : res (list (list token)) :=
  check Nat.leb s e && Nat.ltb e (length buf) else Undefined;
  do row <- of_option Undefined (rows !! line);
  do r <- jsmn_parse (take (e - s) (drop s buf)) row MAXTOKENS;
  match r with
  | inl _ => Err Throw
  | inr (row', _) => Ok (<[line := row']> rows)
  end.

(** ** The specification: trees *)

(** A primitive, the inside of a string, or an object or array whose items come after gaps; members of
    objects are two items, the name and the value. *)
Inductive item : Type :=
  | Prim (s : str)
  | Str (s : str)
  | Node (obj : bool) (items : list (str * item)) (close : str).

Fixpoint text (t : item) : str :=
  match t with
  | Prim s => s
  | Str s => QUOTE :: s ++ [QUOTE]
  | Node o items close => opening o :: concat (map (λ '(g, u), g ++ text u) items) ++ close ++ [closing o]
  end.

Definition items_text (items : list (str * item)) : str := concat (map (λ '(g, u), g ++ text u) items).

(** The tokens of an item that starts at [k]. *)
Fixpoint tokens_of (k : nat) (t : item) : list token :=
  match t with
  | Prim s => [mk_token JSMN_PRIMITIVE (Z.of_nat k) (Z.of_nat (k + length s)) 0]
  | Str s => [mk_token JSMN_STRING (Z.of_nat (S k)) (Z.of_nat (S k + length s)) 0]
  | Node o items close =>
      mk_token (node_type o) (Z.of_nat k) (Z.of_nat (k + length (text t))) (Z.of_nat (length items)) ::
      (fix go (k : nat) (items : list (str * item)) : list token :=
         match items with
         | [] => []
         | (g, u) :: items => tokens_of (k + length g) u ++ go (k + length g + length (text u))%nat items
         end) (S k) items
  end.

Definition items_tokens : nat → list (str * item) → list token :=
  fix go (k : nat) (items : list (str * item)) : list token :=
    match items with
    | [] => []
    | (g, u) :: items => tokens_of (k + length g) u ++ go (k + length g + length (text u))%nat items
    end.

(** What may be written: primitives without delimiters, strings with proper escapes, and a gap before every item but the first. *)
Definition plain (c : Z) : bool := (32 <? c) && (c <? 127) && negb (is_delim c).
Definition special (c : Z) : bool := (c =? 123) || (c =? 91) || (c =? QUOTE).

Fixpoint string_ok (s : str) : bool :=
  match s with
  | [] => true
  | c :: s =>
      if c =? BACKSLASH then
        match s with
        | e :: s =>
            if is_escaped e then string_ok s
            else if e =? 117 then
              match s with
              | a :: b :: c :: d :: s => is_hex a && is_hex b && is_hex c && is_hex d && string_ok s
              | _ => false
              end
            else false
        | [] => false
        end
      else negb (c =? QUOTE) && negb (c =? 0) && string_ok s
  end.

Fixpoint item_ok (t : item) : Prop :=
  match t with
  | Prim s => forallb plain s = true ∧ ∃ c s', s = c :: s' ∧ special c = false
  | Str s => string_ok s = true
  | Node o items close =>
      forallb is_gap close = true ∧ Forall (λ g, g ≠ []) (tail items).*1 ∧
      (fix go (items : list (str * item)) : Prop :=
         match items with [] => True | (g, u) :: items => forallb is_gap g = true ∧ item_ok u ∧ go items end) items
  end.

Definition items_ok : list (str * item) → Prop :=
  fix go (items : list (str * item)) : Prop :=
    match items with [] => True | (g, u) :: items => forallb is_gap g = true ∧ item_ok u ∧ go items end.

(** Induction over trees. *)
Lemma item_tree_ind (P : item → Prop) :
  (∀ s, P (Prim s)) → (∀ s, P (Str s)) → (∀ o items close, Forall (λ '(_, u), P u) items → P (Node o items close)) → ∀ t, P t.
Proof.
  intros Hp Hs Hn. fix IH 1. intros [s | s | o items close]; [apply Hp | apply Hs |]. apply Hn.
  induction items as [| [g u] items IHl]; constructor; [apply IH | exact IHl].
Qed.

Lemma tokens_of_node k o items close : tokens_of k (Node o items close) =
  mk_token (node_type o) (Z.of_nat k) (Z.of_nat (k + length (text (Node o items close)))) (Z.of_nat (length items)) :: items_tokens (S k) items.
Proof. done. Qed.

Lemma text_node o items close : text (Node o items close) = opening o :: items_text items ++ close ++ [closing o].
Proof. done. Qed.

Lemma items_tokens_cons k g u items : items_tokens k ((g, u) :: items) = tokens_of (k + length g) u ++ items_tokens (k + length g + length (text u)) items.
Proof. done. Qed.

Lemma items_text_cons g u items : items_text ((g, u) :: items) = g ++ text u ++ items_text items.
Proof. unfold items_text. simpl. by rewrite app_assoc. Qed.

Lemma item_ok_node o items close : item_ok (Node o items close) ↔ forallb is_gap close = true ∧ Forall (λ g, g ≠ []) (tail items).*1 ∧ items_ok items.
Proof. done. Qed.

Lemma not_open t : fin t ≠ -1 → is_open t = false.
Proof. intros H. unfold is_open. rewrite (proj2 (Z.eqb_neq _ _) H). apply andb_false_r. Qed.

(** The tokens of a tree are closed. *)
Lemma tokens_closed t : ∀ k, Forall (λ u, is_open u = false) (tokens_of k t).
Proof.
  induction t as [s | s | o items close IH] using item_tree_ind; intros k.
  - repeat constructor. apply not_open. simpl. lia.
  - by repeat constructor.
  - rewrite tokens_of_node. constructor; [apply not_open; simpl; lia |].
    generalize (S k). clear k. induction IH as [| [g u] items Hu _ IH]; intros k; [constructor |]. rewrite items_tokens_cons. apply Forall_app. by split.
Qed.

Lemma items_closed items k : Forall (λ u, is_open u = false) (items_tokens k items).
Proof.
  revert k. induction items as [| [g u] items IH]; intros k; [constructor |]. rewrite items_tokens_cons. apply Forall_app. split; [apply tokens_closed | apply IH].
Qed.

(** ** The last open token *)

Lemma last_open_app n l r : (n <= length l)%nat → last_open n (l ++ r) = last_open n l.
Proof. induction n as [| n IH]; intros Hn; simpl; [done |]. rewrite lookup_app_l by lia. rewrite IH by lia. done. Qed.

Lemma last_open_closed l r : Forall (λ u, is_open u = false) r → last_open (length (l ++ r)) (l ++ r) = last_open (length l) l.
Proof.
  induction r as [| u r IH] using rev_ind; intros Hr; [by rewrite app_nil_r |].
  apply Forall_app in Hr as [Hr [Hu _]%Forall_cons]. rewrite app_assoc, length_app, Nat.add_1_r. simpl.
  rewrite list_lookup_middle by done. rewrite Hu. rewrite last_open_app by done. by apply IH.
Qed.

Lemma last_open_here l t : is_open t = true → last_open (length (l ++ [t])) (l ++ [t]) = Some (length l).
Proof. intros Ht. rewrite length_app, Nat.add_1_r. simpl. rewrite list_lookup_middle by done. by rewrite Ht. Qed.

Lemma last_open_lt n l k : last_open n l = Some k → (k < n)%nat.
Proof. induction n as [| n IH]; simpl; [done |]. destruct (l !! n) as [t |]; [destruct (is_open t) |]; intros H; [injection H; lia | apply IH in H; lia ..]. Qed.

Lemma length_bump k l : length (bump k l) = length l.
Proof. destruct k; simpl; [apply length_alter | done]. Qed.

Lemma last_open_bump n k l : last_open n (bump k l) = last_open n l.
Proof.
  destruct k as [k |]; [| done]. simpl. induction n as [| n IH]; simpl; [done |]. rewrite IH.
  destruct (decide (k = n)) as [-> | Hne]; [rewrite list_lookup_alter_eq; by destruct (l !! n) | by rewrite list_lookup_alter_ne].
Qed.

Lemma bump_app k l r : (∀ i, k = Some i → (i < length l)%nat) → bump k (l ++ r) = bump k l ++ r.
Proof. intros H. destruct k as [i |]; [| done]. simpl. apply alter_app_l. by apply H. Qed.

(** ** Characters of the line *)

Lemma char_here pre c post : char (pre ++ c :: post) (length pre) = c.
Proof. unfold char. by rewrite list_lookup_middle. Qed.

Lemma char_next pre a c post : char (pre ++ a :: c :: post) (S (length pre)) = c.
Proof. unfold char. rewrite cons_middle, app_assoc. rewrite list_lookup_middle; [done |]. rewrite length_app. simpl. lia. Qed.

Lemma more_here pre c post : c ≠ 0 → more (pre ++ c :: post) (length pre) = true.
Proof.
  intros Hc. unfold more. rewrite char_here, (proj2 (Z.eqb_neq _ _) Hc), length_app. simpl.
  rewrite (proj2 (Nat.ltb_lt _ _)) by lia. done.
Qed.

Lemma more_end pre : more pre (length pre) = false.
Proof. unfold more. by rewrite Nat.ltb_irrefl. Qed.

(** Moving the cursor over a prefix. *)
Lemma cursor (pre : str) (c : Z) (post : str) : pre ++ c :: post = (pre ++ [c]) ++ post ∧ S (length pre) = length (pre ++ [c]).
Proof. rewrite <- app_assoc, length_app. simpl. split; [done | lia]. Qed.

Lemma plain_facts c : plain c = true → c ≠ 0 ∧ is_delim c = false ∧ (c <? 32) || (127 <=? c) = false.
Proof. unfold plain. intros [[H1 H2]%andb_true_iff H3]%andb_true_iff. apply negb_true_iff in H3. split; [lia |]. split; [done |]. apply orb_false_iff. lia. Qed.

Lemma primitive_end_ok s : ∀ pre post fuel, forallb plain s = true → (post = [] ∨ ∃ c post', post = c :: post' ∧ is_delim c = true) → (length s <= fuel)%nat →
  primitive_end (pre ++ s ++ post) fuel (length pre) = inr (length pre + length s)%nat.
Proof.
  induction s as [| c s IH]; intros pre post fuel Hs Hpost Hf; simpl in *.
  - rewrite Nat.add_0_r. destruct fuel as [| fuel]; [done |]. simpl. destruct Hpost as [-> | (c & post' & -> & Hc)].
    + by rewrite app_nil_r, more_end.
    + rewrite char_here, Hc. destruct (more _ _); done.
  - apply andb_true_iff in Hs as [Hc Hs]. destruct fuel as [| fuel]; [lia |]. simpl. destruct (plain_facts c Hc) as (H0 & Hd & Hr).
    rewrite more_here, char_here, Hd, Hr by done. destruct (cursor pre c (s ++ post)) as [-> ->]. rewrite IH by (done || lia).
    rewrite length_app. simpl. f_equal. lia.
Qed.

Lemma hex_facts c : is_hex c = true → c ≠ 0.
Proof. intros H ->. done. Qed.

Lemma escaped_facts c : is_escaped c = true → c ≠ 0.
Proof. intros H ->. done. Qed.

Lemma hex_end_ok w : ∀ pre post, forallb is_hex w = true → hex_end (pre ++ w ++ post) (length w) (length pre) = Some (length pre + length w)%nat.
Proof.
  induction w as [| c w IH]; intros pre post Hw; simpl in *; [f_equal; lia |]. apply andb_true_iff in Hw as [Hc Hw].
  rewrite char_here, Hc, (proj2 (Z.eqb_neq _ _) (hex_facts c Hc)). destruct (cursor pre c (w ++ post)) as [-> ->]. rewrite IH by done.
  rewrite length_app. simpl. f_equal. lia.
Qed.

#[local] Arguments hex_end : simpl never.

Lemma string_end_ok n : ∀ s pre post fuel, (length s <= n)%nat → string_ok s = true → (length s < fuel)%nat →
  string_end (pre ++ s ++ QUOTE :: post) fuel (length pre) = inr (length pre + length s)%nat.
Proof.
  induction n as [| n IH]; intros s pre post [| fuel] Hn Hs Hf; try lia.
  { destruct s; [| simpl in *; lia]. simpl. rewrite more_here, char_here by done. simpl. f_equal. lia. }
  destruct s as [| c s]; simpl in *.
  { rewrite more_here, char_here by done. simpl. f_equal. lia. }
  destruct (Z.eqb_spec c BACKSLASH) as [-> | Hb].
  - rewrite more_here, char_here by done. simpl (BACKSLASH =? QUOTE). cbv iota. destruct s as [| e s]; [done |]. rewrite Z.eqb_refl.
    simpl app. rewrite char_next. destruct (is_escaped e) eqn:He.
    + destruct (cursor pre BACKSLASH (e :: s ++ QUOTE :: post)) as [-> ->]. destruct (cursor (pre ++ [BACKSLASH]) e (s ++ QUOTE :: post)) as [-> ->].
      rewrite IH by (done || (simpl in *; lia)). rewrite !length_app. simpl. f_equal. lia.
    + destruct (Z.eqb_spec e 117) as [-> |]; [| done]. destruct s as [| a [| b [| d [| f s]]]]; try done.
      repeat apply andb_true_iff in Hs as [Hs ?].
      destruct (cursor pre BACKSLASH (117 :: a :: b :: d :: f :: s ++ QUOTE :: post)) as [E E']. simpl app in *. rewrite E, E'.
      destruct (cursor (pre ++ [BACKSLASH]) 117 (a :: b :: d :: f :: s ++ QUOTE :: post)) as [-> ->].
      pose proof (hex_end_ok [a; b; d; f] ((pre ++ [BACKSLASH]) ++ [117]) (s ++ QUOTE :: post)) as Hh. cbn [length app forallb] in Hh. rewrite Hh by (by repeat (apply andb_true_iff; split)).
      replace (((pre ++ [BACKSLASH]) ++ [117]) ++ a :: b :: d :: f :: s ++ QUOTE :: post)
        with (((pre ++ [BACKSLASH]) ++ [117; a; b; d; f]) ++ s ++ QUOTE :: post) by (by rewrite <- !app_assoc).
      replace (length ((pre ++ [BACKSLASH]) ++ [117%Z]) + 4)%nat with (length ((pre ++ [BACKSLASH]) ++ [117; a; b; d; f])) by (rewrite !length_app; simpl; lia).
      rewrite IH by (done || (simpl in *; lia)). rewrite !length_app. simpl. f_equal. lia.
  - apply andb_true_iff in Hs as [[Hq%negb_true_iff H0%negb_true_iff]%andb_true_iff Hs]. rewrite more_here, char_here by lia.
    rewrite Hq, (proj2 (Z.eqb_neq _ _) Hb). destruct (cursor pre c (s ++ QUOTE :: post)) as [-> ->]. rewrite IH by (done || lia).
    rewrite length_app. simpl. f_equal. lia.
Qed.

(** ** The loop *)

Lemma primitive_end_ge js fuel : ∀ k e, primitive_end js fuel k = inr e → (k <= e)%nat.
Proof.
  induction fuel as [| fuel IH]; intros k e; simpl; [intros [= <-]; lia |].
  destruct (more js k); [| intros [= <-]; lia]. destruct (is_delim (char js k)); [intros [= <-]; lia |].
  destruct (_ || _); [done |]. intros H%IH. lia.
Qed.

Lemma hex_end_ge js n : ∀ k e, hex_end js n k = Some e → (k <= e)%nat.
Proof.
  induction n as [| n IH]; intros k e; unfold hex_end; fold hex_end; [intros [= <-]; lia |].
  destruct (_ =? 0); [intros [= <-]; lia |]. destruct (is_hex _); [| done]. intros H%IH. lia.
Qed.

Lemma string_end_ge js fuel : ∀ k e, string_end js fuel k = inr e → (k <= e)%nat.
Proof.
  induction fuel as [| fuel IH]; intros k e; simpl; [done |]. destruct (more js k); [| done].
  destruct (_ =? QUOTE); [intros [= <-]; lia |]. destruct (_ =? BACKSLASH); [| intros H%IH; lia].
  destruct (is_escaped _); [intros H%IH; lia |]. destruct (_ =? 117); [| done].
  destruct (hex_end js 4 (S (S k))) as [k' |] eqn:E; [| done]. apply hex_end_ge in E. intros H%IH. lia.
Qed.

Lemma alloc_pos p k p' : jsmn_alloc_token p = Ok (k, p') → pos p' = pos p.
Proof. unfold jsmn_alloc_token. case_match. intros (t & _ & E)%rbind_Ok_inv. by injection E as _ <-. Qed.

Lemma parse_char_pos js p p' n : more js (pos p) = true → parse_char js p = Ok (inr p', n) → (pos p <= pos p')%nat.
Proof.
  intros Hm. unfold parse_char. destruct (_ || _).
  { intros (r & Hr & E)%rbind_Ok_inv. injection E as -> _. unfold open_node in Hr. apply rbind_Ok_inv in Hr as ([k q] & Ha & Hr).
    apply alloc_pos in Ha. apply rbind_Ok_inv in Hr as (t & _ & E). injection E as <-. simpl. lia. }
  destruct ((_ =? 125) || _) eqn:E2.
  { intros (r & Hr & E)%rbind_Ok_inv. injection E as -> _. unfold close_node in Hr. destruct (last_open _ _); [| done].
    apply rbind_Ok_inv in Hr as (t & _ & Hr). destruct (negb _); [done |]. by injection Hr as <-. }
  destruct (_ =? QUOTE).
  { intros (r & Hr & E)%rbind_Ok_inv. unfold jsmn_parse_string in Hr. destruct (string_end _ _ _) as [e | e] eqn:Es; [injection Hr as <-; done |].
    apply rbind_Ok_inv in Hr as ([k q] & Ha & Hr). injection Hr as <-. injection E as <- _. simpl. apply string_end_ge in Es. lia. }
  destruct (is_gap _) eqn:Eg; [intros E; injection E as <- _; done |].
  intros (r & Hr & E)%rbind_Ok_inv. unfold jsmn_parse_primitive in Hr. destruct (primitive_end _ _ _) as [e | e] eqn:Es; [injection Hr as <-; done |].
  apply rbind_Ok_inv in Hr as ([k q] & Ha & Hr). injection Hr as <-. injection E as <- _. simpl.
  assert (pos p < length js)%nat as Hlt by (unfold more in Hm; apply andb_true_iff in Hm as [?%Nat.ltb_lt _]; done).
  destruct (length js - pos p)%nat as [| m] eqn:El; [lia |]. simpl in Es. rewrite Hm in Es. unfold is_delim in Es. apply orb_false_iff in E2 as [E2 E3]. rewrite Eg, E2, E3 in Es.
  simpl in Es. destruct (_ || _); [done |]. apply primitive_end_ge in Es. lia.
Qed.

(** Any fuel that covers the rest of the line is enough. *)
Lemma loop_fuel js n : ∀ fuel p c, (fuel <= n)%nat → (length js - pos p <= fuel)%nat → parse_loop js fuel p c = parse_loop js (length js - pos p) p c.
Proof.
  induction n as [| n IH]; intros [| fuel] p c Hn Hf; try lia; [by replace (length js - pos p)%nat with 0%nat by lia .. |].
  destruct (length js - pos p)%nat as [| m] eqn:Em.
  - simpl. assert (more js (pos p) = false) as ->; [| done]. unfold more. by rewrite (proj2 (Nat.ltb_ge _ _)) by lia.
  - simpl. destruct (more js (pos p)) eqn:Hm; [| done]. destruct (parse_char js p) as [[[e | p'] k] |] eqn:Ec; simpl; try done.
    apply parse_char_pos in Ec; [| done]. rewrite IH by (simpl; lia). symmetry. apply IH; simpl; lia.
Qed.

Definition parse_from (js : str) (p : parser) (count : nat) : res (jsmnerr + parser * nat) := parse_loop js (length js - pos p) p count.

Lemma parse_from_step js p p' n c : more js (pos p) = true → parse_char js p = Ok (inr p', n) →
  parse_from js p c = parse_from js (at_pos p' (S (pos p'))) (c + n).
Proof.
  intros Hm Hc. pose proof (parse_char_pos js p p' n Hm Hc). unfold parse_from.
  assert (pos p < length js)%nat as Hlt by (unfold more in Hm; apply andb_true_iff in Hm as [?%Nat.ltb_lt _]; done).
  destruct (length js - pos p)%nat as [| m] eqn:El; [lia |]. simpl. rewrite Hm, Hc. simpl. eapply loop_fuel; [done |]. simpl. lia.
Qed.

(** ** The array *)

Section parse.
(** The length of the array at the start. *)
Context (M : nat).

(** The parser has filled the tokens [T]; behind them the array is zero. *)
Record holds (p : parser) (T : list token) (k : option nat) : Prop := {
  h_tokens : ∃ m, tokens p = T ++ replicate m zero_token;
  h_num : num_tokens p = length (tokens p);
  h_pos : (0 < num_tokens p)%nat;
  h_cap : (length T <= M)%nat → num_tokens p = M;
  h_next : toknext p = length T;
  h_super : toksuper p = k;
}.

Definition fresh_token : token := mk_token JSMN_PRIMITIVE (-1) (-1) 0.

Lemma alloc_holds p T k : holds p T k → ∃ p', jsmn_alloc_token p = Ok (length T, p') ∧ pos p' = pos p ∧ holds p' (T ++ [fresh_token]) k.
Proof.
  intros [(m & Ht) Hn Hp Hc Hx Hs]. unfold jsmn_alloc_token. rewrite Hx.
  rewrite Ht, length_app, length_replicate in Hn. destruct (Nat.leb_spec (num_tokens p) (length T)) as [Hfull | Hroom].
  - assert (m = 0)%nat as -> by lia. simpl in Ht. rewrite app_nil_r in Ht. rewrite Ht, firstn_all2 by lia.
    destruct (num_tokens p) as [| n] eqn:En; [lia |]. simpl replicate. rewrite list_lookup_middle by done. simpl.
    eexists. split; [done |]. split; [done |]. rewrite insert_app_r_alt, Nat.sub_diag by done. simpl.
    split; simpl; try done; [exists n; by rewrite <- app_assoc | rewrite !length_app; simpl; rewrite length_replicate; lia | lia | | by rewrite length_app, Nat.add_1_r].
    rewrite length_app. simpl. intros Hle. specialize (Hc ltac:(lia)). lia.
  - destruct m as [| m]; [lia |]. rewrite Ht. simpl replicate. rewrite list_lookup_middle by done. simpl.
    eexists. split; [done |]. split; [done |]. rewrite insert_app_r_alt, Nat.sub_diag by done. simpl.
    split; simpl; try done; [exists m; by rewrite <- app_assoc | rewrite !length_app; simpl; rewrite length_replicate; lia | | by rewrite length_app, Nat.add_1_r].
    rewrite length_app. simpl. intros Hle. apply Hc. lia.
Qed.

(** Changing the filled tokens. *)
Lemma holds_update p T k T' l k' q : holds p T k → length T' = length T → (∀ R, tokens p = T ++ R → l = T' ++ R) →
  holds (mk q (toknext p) k' l (num_tokens p)) T' k'.
Proof.
  intros [(m & Ht) Hn Hp Hc Hx Hs] Hl Hf. specialize (Hf _ Ht). subst l.
  split; simpl; try done; [by exists m | by rewrite Hn, Ht, !length_app, Hl | by rewrite Hl | by rewrite Hl].
Qed.

Lemma holds_at p T k q : holds p T k → holds (at_pos p q) T k.
Proof. by intros [H1 H2 H3 H4 H5 H6]. Qed.

(** A leaf: a token is filled and counted. *)
Lemma leaf_holds p T k ty s e q : holds p T k → last_open (length T) T = k →
  ∃ p', jsmn_alloc_token p = Ok (length T, p') ∧
    holds (with_tokens (at_pos (jsmn_fill_token (length T) ty s e p') q) (bump (toksuper p') (<[length T := mk_token ty (Z.of_nat s) (Z.of_nat e) 0]> (tokens p'))))
      (bump k T ++ [mk_token ty (Z.of_nat s) (Z.of_nat e) 0]) k.
Proof.
  intros Hh Hk. destruct (alloc_holds p T k Hh) as (p' & E & Hpos & Hh'). exists p'. split; [done |].
  pose proof (h_super _ _ _ Hh') as Hs. unfold with_tokens, at_pos, jsmn_fill_token. simpl. rewrite Hs.
  eapply holds_update; [exact Hh' | by rewrite !length_app, length_bump |]. intros R ->.
  rewrite <- app_assoc. rewrite insert_app_r_alt, Nat.sub_diag by done. simpl.
  rewrite bump_app; [by rewrite <- app_assoc |]. intros i ->. by apply last_open_lt in Hk.
Qed.

Lemma node_open s ty n : is_open (mk_token ty (Z.of_nat s) (-1) n) = true.
Proof. unfold is_open. simpl. rewrite (proj2 (Z.eqb_neq _ _)) by lia. done. Qed.

Lemma open_node_holds p T k o : holds p T k → last_open (length T) T = k →
  ∃ p', open_node o p = Ok (inr p') ∧ pos p' = pos p ∧
    holds p' (bump k T ++ [mk_token (node_type o) (Z.of_nat (pos p)) (-1) 0]) (Some (length T)).
Proof.
  intros Hh Hk. destruct (alloc_holds p T k Hh) as (p' & E & Hpos & Hh'). unfold open_node. rewrite E. simpl.
  pose proof (h_super _ _ _ Hh') as ->. destruct (h_tokens _ _ _ Hh') as (m & Ht). rewrite Ht, <- app_assoc.
  rewrite bump_app by (intros i ->; by apply last_open_lt in Hk). cbn [app]. rewrite <- (length_bump k T), list_lookup_middle by done. simpl.
  eexists. split; [done |]. split; [done |]. unfold with_super, with_tokens. simpl.
  replace (toknext p' - 1)%nat with (length (bump k T)) by (rewrite (h_next _ _ _ Hh'), length_app, length_bump; simpl; lia).
  eapply holds_update; [exact Hh' | by rewrite !length_app, length_bump |]. intros R HR. rewrite Ht in HR. apply app_inv_head in HR as <-.
  rewrite insert_app_r_alt, Nat.sub_diag by done. simpl. by rewrite <- app_assoc.
Qed.

Lemma close_node_holds p T0 o s n R : holds p (T0 ++ mk_token (node_type o) (Z.of_nat s) (-1) n :: R) (Some (length T0)) →
  Forall (λ u, is_open u = false) R →
  ∃ p', close_node o p = Ok (inr p') ∧ pos p' = pos p ∧
    holds p' (T0 ++ mk_token (node_type o) (Z.of_nat s) (Z.of_nat (pos p + 1)) n :: R) (last_open (length T0) T0).
Proof.
  intros Hh HR. unfold close_node. destruct (h_tokens _ _ _ Hh) as (m & Ht). rewrite (h_next _ _ _ Hh), Ht.
  rewrite last_open_app by done. rewrite (cons_middle _ T0 R), app_assoc, last_open_closed by done. rewrite last_open_here by apply node_open.
  rewrite <- !app_assoc. simpl. rewrite list_lookup_middle by done. simpl. rewrite bool_decide_true by done. simpl.
  eexists. split; [done |]. split; [done |]. unfold with_super, with_tokens. simpl.
  rewrite insert_app_r_alt, Nat.sub_diag by done. simpl. rewrite list_lookup_middle by done. rewrite not_open by (simpl; lia). rewrite last_open_app by done.
  eapply holds_update; [exact Hh | by rewrite !length_app |]. intros R' HR'. rewrite Ht in HR'. apply app_inv_head in HR' as <-. by rewrite <- app_assoc.
Qed.

(** ** Trees *)

Lemma at_pos_id p k : pos p = k → at_pos p k = p.
Proof. intros <-. by destruct p. Qed.

Lemma gap_facts c : is_gap c = true → (c =? 123) = false ∧ (c =? 91) = false ∧ (c =? 125) = false ∧ (c =? 93) = false ∧ (c =? QUOTE) = false.
Proof. unfold is_gap, QUOTE. lia. Qed.

Lemma parse_char_gap js p : is_gap (char js (pos p)) = true → parse_char js p = Ok (inr p, 0%nat).
Proof. intros Hg. unfold parse_char. destruct (gap_facts _ Hg) as (-> & -> & -> & -> & ->). simpl. by rewrite Hg. Qed.

Lemma parse_gap g : ∀ pre post p c, forallb is_gap g = true → pos p = length pre →
  parse_from (pre ++ g ++ post) p c = parse_from (pre ++ g ++ post) (at_pos p (length pre + length g)) c.
Proof.
  induction g as [| d g IH]; intros pre post p c Hg Hp; simpl in *; [by rewrite Nat.add_0_r, at_pos_id |].
  apply andb_true_iff in Hg as [Hd Hg].
  erewrite parse_from_step; [| rewrite Hp; apply more_here; by intros -> | apply parse_char_gap; by rewrite Hp, char_here].
  rewrite Nat.add_0_r, Hp. destruct (cursor pre d (g ++ post)) as [-> ->]. rewrite IH by done.
  unfold at_pos. simpl. do 2 f_equal. rewrite length_app. simpl. lia.
Qed.

Definition delim_next (post : str) : Prop := post = [] ∨ ∃ d post', post = d :: post' ∧ is_delim d = true.

(** The parser reads [t] wherever it is. *)
Definition item_parses (t : item) : Prop :=
  ∀ pre post p T k c, pos p = length pre → holds p T k → last_open (length T) T = k → delim_next post →
  let js := pre ++ text t ++ post in
  ∃ p', parse_from js p c = parse_from js p' (c + length (tokens_of (length pre) t)) ∧
    pos p' = (length pre + length (text t))%nat ∧ holds p' (bump k T ++ tokens_of (length pre) t) k.

Lemma prim_parses s : item_ok (Prim s) → item_parses (Prim s).
Proof.
  intros (Hs & d & s' & -> & Hd) pre post p T k c Hp Hh Hk Hn js. simpl in js. pose proof Hs as Hs'. simpl in Hs. apply andb_true_iff in Hs as [Hpd _].
  destruct (plain_facts d Hpd) as (H0 & Hdel & _). destruct (leaf_holds p T k JSMN_PRIMITIVE (length pre) (length pre + length (d :: s')) (length pre + length (d :: s') - 1) Hh Hk) as (q & Ea & Hq).
  eexists. split; [| split; [| eapply holds_at; exact Hq]].
  - erewrite parse_from_step; [reflexivity | rewrite Hp; by apply more_here |]. unfold parse_char. rewrite Hp. unfold js. rewrite char_here.
    unfold special in Hd. unfold is_delim in Hdel. apply orb_false_iff in Hd as [Hd ->]. rewrite Hd. apply orb_false_iff in Hdel as [[-> ->]%orb_false_iff ->].
    simpl. unfold jsmn_parse_primitive. rewrite Hp.
    change (pre ++ d :: s' ++ post) with (pre ++ (d :: s') ++ post). rewrite primitive_end_ok; [| done | done | rewrite !length_app; lia].
    rewrite Ea. simpl. reflexivity.
  - simpl. lia.
Qed.

Lemma str_parses s : item_ok (Str s) → item_parses (Str s).
Proof.
  intros Hs pre post p T k c Hp Hh Hk Hn js. simpl in Hs.
  destruct (leaf_holds p T k JSMN_STRING (S (length pre)) (S (length pre) + length s) (S (length pre) + length s) Hh Hk) as (q & Ea & Hq).
  eexists. split; [| split; [| eapply holds_at; exact Hq]].
  - erewrite parse_from_step; [reflexivity | rewrite Hp; by apply more_here |]. unfold parse_char. rewrite Hp. unfold js. cbn [text app]. rewrite char_here. simpl.
    unfold jsmn_parse_string. rewrite Hp. rewrite <- app_assoc. simpl. destruct (cursor pre QUOTE (s ++ QUOTE :: post)) as [E E']. rewrite E, E'.
    rewrite (string_end_ok (length s)); [| done | done | rewrite !length_app; simpl; lia].
    rewrite Ea. simpl. rewrite <- E'. reflexivity.
  - simpl. rewrite length_app. simpl. lia.
Qed.

(** The gap before an item, or the bracket, ends the item before. *)
Lemma delim_rest items close o post : Forall (λ g, g ≠ []) items.*1 → items_ok items → forallb is_gap close = true →
  delim_next (items_text items ++ close ++ closing o :: post).
Proof.
  intros Hne Hok Hc. right. destruct items as [| [g u] items]; simpl in *.
  - destruct close as [| d close]; simpl in *; [exists (closing o), post; by destruct o |].
    apply andb_true_iff in Hc as [Hd _]. do 2 eexists. split; [done |]. unfold is_delim. by rewrite Hd.
  - apply Forall_cons in Hne as [Hg _]. destruct Hok as (Hgap & _ & _). destruct g as [| d g]; [done |]. simpl in Hgap. apply andb_true_iff in Hgap as [Hd _].
    do 2 eexists. split; [done |]. unfold is_delim. by rewrite Hd.
Qed.

Lemma items_parse items : Forall (λ '(_, u), item_ok u → item_parses u) items → items_ok items → Forall (λ g, g ≠ []) (tail items).*1 →
  ∀ pre close o post p T0 ty s n R c, pos p = length pre → forallb is_gap close = true →
  holds p (T0 ++ mk_token ty (Z.of_nat s) (-1) n :: R) (Some (length T0)) → Forall (λ u, is_open u = false) R →
  let js := pre ++ items_text items ++ close ++ closing o :: post in
  ∃ p', parse_from js p c = parse_from js p' (c + length (items_tokens (length pre) items)) ∧
    pos p' = (length pre + length (items_text items))%nat ∧
    holds p' (T0 ++ mk_token ty (Z.of_nat s) (-1) (n + Z.of_nat (length items)) :: R ++ items_tokens (length pre) items) (Some (length T0)).
Proof.
  intros Hall. induction Hall as [| [g u] items Hu Hall IH]; intros Hok Hne pre close o post p T0 ty s n R c Hp Hclose Hh HR js.
  { exists p. simpl. rewrite app_nil_r, Nat.add_0_r, Z.add_0_r. rewrite !Nat.add_0_r. done. }
  destruct Hok as (Hg & Hou & Hok). simpl in Hne. unfold js. rewrite items_text_cons, <- !app_assoc.
  rewrite (parse_gap g) by done.
  assert (Some (length T0) = last_open (length (T0 ++ mk_token ty (Z.of_nat s) (-1) n :: R)) (T0 ++ mk_token ty (Z.of_nat s) (-1) n :: R)) as Hlast.
  { rewrite (cons_middle _ T0 R), app_assoc, last_open_closed by done. by rewrite last_open_here by apply node_open. }
  destruct (Hu Hou (pre ++ g) (items_text items ++ close ++ closing o :: post) (at_pos p (length pre + length g))
      (T0 ++ mk_token ty (Z.of_nat s) (-1) n :: R) (Some (length T0)) c) as (p1 & E1 & Hp1 & Hh1);
    [by rewrite length_app | apply holds_at; exact Hh | done | by apply delim_rest |].
  cbv zeta in E1. rewrite <- app_assoc in E1. rewrite E1. clear E1. rewrite length_app in *.
  set (tu := tokens_of (length pre + length g) u) in *.
  assert (bump (Some (length T0)) (T0 ++ mk_token ty (Z.of_nat s) (-1) n :: R) ++ tu = T0 ++ mk_token ty (Z.of_nat s) (-1) (n + 1) :: (R ++ tu)) as Hb.
  { simpl. rewrite alter_app_r_alt, Nat.sub_diag by done. simpl. by rewrite <- app_assoc. }
  rewrite Hb in Hh1. assert (Forall (λ g, g ≠ []) (tail items).*1) as Hne' by (destruct items; [done | by apply Forall_cons in Hne as [_ ?]]).
  destruct (IH Hok Hne' (pre ++ g ++ text u) close o post p1 T0 ty s (n + 1) (R ++ tu) (c + length tu)%nat) as (p2 & E2 & Hp2 & Hh2);
    [rewrite !length_app; lia | done | done | apply Forall_app; split; [done | apply tokens_closed] |].
  cbv zeta in E2. rewrite <- !app_assoc in E2. rewrite E2. exists p2. rewrite !length_app in *.
  replace (length pre + (length g + length (text u)))%nat with (length pre + length g + length (text u))%nat in * by lia.
  rewrite items_tokens_cons, length_app. fold tu. split; [f_equal; lia |]. split; [lia |].
  rewrite <- app_assoc in Hh2. replace (n + 1 + Z.of_nat (length items)) with (n + Z.of_nat (length ((g, u) :: items))) in Hh2 by (simpl; lia). done.
Qed.

Lemma node_parses o items close : Forall (λ '(_, u), item_ok u → item_parses u) items → item_ok (Node o items close) → item_parses (Node o items close).
Proof.
  intros Hall (Hclose & Hne & Hok)%item_ok_node pre post p T k c Hp Hh Hk Hn js. unfold js. rewrite text_node. cbn [app]. rewrite <- !app_assoc. cbn [app].
  destruct (open_node_holds p T k o Hh Hk) as (p1 & E1 & Hp1 & Hh1).
  erewrite parse_from_step; [| rewrite Hp; apply more_here; by destruct o |
    unfold parse_char; rewrite Hp, char_here; replace (_ || _) with true by (by destruct o); replace (opening o =? 123) with o by (by destruct o); rewrite E1; reflexivity].
  rewrite Hp1, Hp. destruct (cursor pre (opening o) (items_text items ++ close ++ closing o :: post)) as [-> ->].
  rewrite <- (length_bump k T) in Hh1.
  destruct (items_parse items Hall Hok Hne (pre ++ [opening o]) close o post (at_pos p1 (length (pre ++ [opening o])))
    (bump k T) (node_type o) (pos p) 0 [] (c + 1)) as (p2 & E2 & Hp2 & Hh2); [done | done | by apply holds_at | done |].
  cbv zeta in E2. rewrite E2. clear E2. rewrite (app_assoc (pre ++ [opening o])).
  rewrite (parse_gap close) by (done || by rewrite length_app).
  destruct (close_node_holds (at_pos p2 (length ((pre ++ [opening o]) ++ items_text items) + length close)) (bump k T) o (pos p) (0 + Z.of_nat (length items)) (items_tokens (length (pre ++ [opening o])) items))
    as (p3 & E3 & Hp3 & Hh3); [by apply holds_at | apply items_closed |].
  set (pre' := (pre ++ [opening o]) ++ items_text items) in *. rewrite (app_assoc pre' close).
  erewrite parse_from_step; [| cbn [pos at_pos]; rewrite <- length_app; apply more_here; by destruct o |
    unfold parse_char; cbn [pos at_pos]; rewrite <- length_app, char_here; rewrite length_app;
    replace (_ || _) with false by (by destruct o); replace ((closing o =? 125) || _) with true by (by destruct o); replace (closing o =? 125) with o by (by destruct o); rewrite E3; reflexivity].
  rewrite last_open_bump, length_bump, Hk in Hh3. simpl in Hp3. exists (at_pos p3 (S (pos p3))).
  assert (length (pre ++ [opening o]) = S (length pre)) as Hl by (rewrite length_app; simpl; lia). rewrite Hl in *.
  rewrite tokens_of_node, text_node. split; [f_equal; simpl; lia |].
  split; [simpl; rewrite Hp3; unfold pre'; rewrite !length_app; simpl; lia |]. apply holds_at.
  replace (Z.of_nat (pos (at_pos p2 (length pre' + length close)) + 1)) with (Z.of_nat (length pre + length (opening o :: items_text items ++ close ++ [closing o]))) in Hh3
    by (unfold pre'; simpl; rewrite !length_app; simpl; lia).
  rewrite Hp in Hh3. done.
Qed.

Lemma item_parses_all t : item_ok t → item_parses t.
Proof.
  induction t as [s | s | o items close IH] using item_tree_ind; [apply prim_parses | apply str_parses | by apply node_parses].
Qed.

Lemma gap_delim g : forallb is_gap g = true → delim_next g.
Proof.
  intros Hg. destruct g as [| d g]; [by left |]. right. simpl in Hg. apply andb_true_iff in Hg as [Hd _]. do 2 eexists. split; [done |].
  unfold is_delim. by rewrite Hd.
Qed.

Lemma parse_tree t g0 g1 : (0 < M)%nat → item_ok t → forallb is_gap g0 = true → forallb is_gap g1 = true →
  Z.of_nat (length (g0 ++ text t ++ g1)) < 2 ^ 31 →
  ∃ m, jsmn_parse (g0 ++ text t ++ g1) (replicate M zero_token) M =
      Ok (inr (tokens_of (length g0) t ++ replicate m zero_token, length (tokens_of (length g0) t))) ∧
    ((length (tokens_of (length g0) t) <= M)%nat → (length (tokens_of (length g0) t) + m = M)%nat).
Proof.
  intros HM Ht Hg0 Hg1 Hl. unfold jsmn_parse. rewrite (proj2 (Z.ltb_lt _ _) Hl).
  assert (parse_loop (g0 ++ text t ++ g1) (length (g0 ++ text t ++ g1)) (jsmn_init (replicate M zero_token) M) 0 =
    parse_from (g0 ++ text t ++ g1) (jsmn_init (replicate M zero_token) M) 0) as -> by (unfold parse_from; simpl; by rewrite Nat.sub_0_r).
  pose proof (parse_gap g0 [] (text t ++ g1) (jsmn_init (replicate M zero_token) M) 0 Hg0 eq_refl) as E0. cbn [app length Nat.add] in E0. rewrite E0. clear E0.
  assert (holds (jsmn_init (replicate M zero_token) M) [] None) as H0 by (split; simpl; try done; [by exists M | by rewrite length_replicate]).
  destruct (item_parses_all t Ht g0 g1 (at_pos (jsmn_init (replicate M zero_token) M) (length g0)) [] None 0%nat) as (p & E & Hp & Hh);
    [done | by apply holds_at | done | by apply gap_delim |].
  cbv zeta in E. cbn [length Nat.add] in *. rewrite E.
  assert (g0 ++ text t ++ g1 = (g0 ++ text t) ++ g1 ++ []) as -> by (by rewrite app_nil_r, app_assoc). rewrite (parse_gap g1) by (done || by rewrite length_app).
  unfold parse_from. cbn [pos at_pos]. rewrite app_nil_r, length_app, Nat.sub_diag. simpl.
  destruct (h_tokens _ _ _ Hh) as (m & Htok). rewrite (h_next _ _ _ Hh), Htok. simpl bump in *. cbn [app] in *. rewrite last_open_app by done.
  pose proof (last_open_closed [] _ (tokens_closed t (length g0))) as Hlo. simpl in Hlo. rewrite Hlo. exists m. split; [done |].
  intros Hle. pose proof (h_num _ _ _ Hh) as Hn. pose proof (h_cap _ _ _ Hh Hle) as Hc. rewrite Htok, length_app, length_replicate in Hn. lia.
Qed.

End parse.

(** A line of the file: the tree between gaps. *)
Lemma parse_line t g0 g1 pre post rows line : item_ok t → forallb is_gap g0 = true → forallb is_gap g1 = true →
  Z.of_nat (length (g0 ++ text t ++ g1)) < 2 ^ 31 → rows !! line = Some (replicate MAXTOKENS zero_token) → post ≠ [] →
  ∃ m, parseLineJSON (pre ++ (g0 ++ text t ++ g1) ++ post) (length pre) (length pre + length (g0 ++ text t ++ g1)) rows line =
      Ok (<[line := tokens_of (length g0) t ++ replicate m zero_token]> rows) ∧
    ((length (tokens_of (length g0) t) <= MAXTOKENS)%nat → (length (tokens_of (length g0) t) + m = MAXTOKENS)%nat).
Proof.
  intros Ht Hg0 Hg1 Hl Hrow Hpost. destruct (parse_tree MAXTOKENS t g0 g1) as (m & E & Hm); [unfold MAXTOKENS; lia | done .. |]. exists m. split; [| done].
  unfold parseLineJSON. set (line_text := g0 ++ text t ++ g1) in *.
  rewrite (proj2 (Nat.leb_le _ _)) by lia. rewrite (proj2 (Nat.ltb_lt _ _)) by (destruct post; [done |]; rewrite !length_app; simpl; lia).
  rewrite Hrow. cbn [rbind of_option andb]. rewrite drop_app_length.
  replace (length pre + length line_text - length pre)%nat with (length line_text) by lia. rewrite take_app_length, E. done.
Qed.

End Jsmn.
