(* ===== verification/JsonPlugin.v ===== *)
(** * JsonPlugin: scans over files of JSON objects
    ([olap/lib/plugins/json-plugin.cpp], [json-plugin.hpp], and [Unnest] in [olap/lib/operators/unnest.cpp]).

    A line is an object.  The scan finds its end, has it tokenized and hands the parent the identifier of the object: where
    the line starts, its number, and the number of a token.  Projections and the unnesting of arrays move from token to token;
    text is converted only when a value is read.  Line ends and tokens are kept as a positional map that later
    scans use.  The functions are those the generated code computes; the code of a conversion is emitted through [IRBuilder]. *)

From Stdlib Require Import ZArith Lia Bool.
From stdpp Require Import base numbers list sets strings.
From S2P Require Import Prelude ExprTypes LLVM Expressions Generator GenCorrect Text Atoi Csv Jsmn.

Local Open Scope Z_scope.
Local Open Scope res_scope.

Module Json.
Import ExprTypes Text Jsmn.

(** [(offset, rowId, tokenNo)]; a token number of -1 is a path that was not found. *)
Record oid : Type := mk_oid { offset : nat; rowId : nat; tokenNo : Z }.

Definition set_token (o : oid) (i : Z) : oid := mk_oid (offset o) (rowId o) i.

(** A projected attribute: its name, and its number under a static schema. *)
Record attribute : Type := mk_attribute { name : str; attrNo : Z }.

(** The plug-in: the mapped file, whether the schema is static, and the positional map with what of it is filled. *)
Record JSONPlugin : Type := mk_json {
  buf : str; fsize : nat; staticSchema : bool;
  cache : bool; cacheNewlines : bool;
  rows : list (list token); newLines : list (option nat);
}.

(** What [CachingService] keeps of a file. *)
Record pmJSON : Type := mk_pm { pm_newlines : list (option nat); pm_tokens : list (list token) }.

Definition createPM (lines : nat) : pmJSON := mk_pm (replicate lines None) (replicate lines (replicate MAXTOKENS zero_token)).

(** For a file that is not empty: the mapping of an empty one throws. *)
Definition init (file : str) (linehint : nat) (static : bool) (pmCast : option pmJSON) : JSONPlugin :=
  match pmCast with
  | None => let pm := createPM linehint in mk_json (Csv.mapped file) (length file) static false false (pm_tokens pm) (pm_newlines pm)
  | Some pm => mk_json (Csv.mapped file) (length file) static true true (pm_tokens pm) (pm_newlines pm)
  end.

Definition pm_of (g : JSONPlugin) : pmJSON := mk_pm (newLines g) (rows g).

(** ** Moving over tokens *)

Section move.
Context (g : JSONPlugin).

Definition mem_tokens (o : oid) : res (list token) := of_option Undefined (rows g !! rowId o).

Definition getArrayElem (row : list token) (i : Z) : res token :=
  check 0 <=? i else Undefined; of_option Undefined (row !! Z.to_nat i).

(** The text of a token in the file. *)
Definition token_start (o : oid) (t : token) : Z := start t + Z.of_nat (offset o).
Definition token_end (o : oid) (t : token) : Z := fin t + Z.of_nat (offset o).

Fixpoint path_loop (fuel : nat) (o : oid) (row : list token) (path : str) (parent_end : Z) (i : Z) : res Z :=
  match fuel with
  | O => Err Blocked
  | S fuel =>
      do token_i <- getArrayElem row i;
      if fin token_i <=? parent_end then
        if compareTokenString (buf g) (Z.to_nat (token_start o token_i)) (Z.to_nat (token_end o token_i)) path then
          do _ <- getArrayElem row (i + 1); Ok (i + 1)
        else
          do token_i_1 <- getArrayElem row (i + 1);
          let i_inc := i + 2 + size token_i_1 in
          do _ <- getArrayElem row i_inc;
          path_loop fuel o row path parent_end i_inc
      else Ok (-1)
  end.

Fixpoint predefined_loop (n : nat) (row : list token) (i : Z) : res Z :=
  match n with
  | O => Ok (i + 1)
  | S n =>
      do token_i_1 <- getArrayElem row (i + 1);
      let i_inc := i + 2 + size token_i_1 in
      do _ <- getArrayElem row i_inc;
      predefined_loop n row i_inc
  end.

(** The attribute by its number, from the tuple that is bound, not from the record. *)
Definition readPredefinedPath (tuple : oid) (attr : attribute) : res oid :=
  do row <- mem_tokens tuple;
  do _ <- getArrayElem row (tokenNo tuple);
  do i <- predefined_loop (Z.to_nat (attrNo attr - 1)) row (tokenNo tuple + 1);
  Ok (set_token tuple i).

Definition readPath (tuple record : oid) (attr : attribute) : res oid :=
  if staticSchema g then readPredefinedPath tuple attr
  else
    do row <- mem_tokens record;
    do token_parent <- getArrayElem row (tokenNo record);
    do i <- path_loop (S (length row)) record row (name attr) (fin token_parent) (tokenNo record + 1);
    Ok (set_token record i).

(** *** Unnesting *)

Definition initCollectionUnnest (parent : oid) : oid := set_token parent (tokenNo parent + 1).

Definition collectionHasNext (parent current : oid) : res bool :=
  do row <- mem_tokens parent;
  do parentToken <- getArrayElem row (tokenNo parent);
  do currentToken <- getArrayElem row (tokenNo current);
  Ok ((fin currentToken <=? fin parentToken) && negb (fin currentToken =? 0)).

Fixpoint skipContents (fuel : nat) (row : list token) (e : Z) (i : Z) : res Z :=
  match fuel with
  | O => Err Blocked
  | S fuel =>
      do token_i <- getArrayElem row i;
      if (start token_i <=? e) && negb (start token_i =? 0) then skipContents fuel row e (i + 1) else Ok i
  end.

(** The element, and the identifier of the next one. *)
Definition collectionGetNext (current : oid) : res (oid * oid) :=
  do row <- mem_tokens current;
  do token_i <- getArrayElem row (tokenNo current);
  do i <- skipContents (S (length row)) row (fin token_i) (tokenNo current + 1);
  Ok (current, set_token current i).

(** [Unnest::generate]: the parent consumes the elements that satisfy the predicate. *)
Fixpoint unnest_loop {S : Type} (fuel : nat) (parent current : oid) (pred : oid → res bool) (consume : oid → S → res S) (s : S) : res S :=
  match fuel with
  | O => Err Blocked
  | Datatypes.S fuel =>
      do hasNext <- collectionHasNext parent current;
      if hasNext : bool then
        do (item, next) <- collectionGetNext current;
        do p <- pred item;
        do s' <- (if p : bool then consume item s else Ok s);
        unnest_loop fuel parent next pred consume s'
      else Ok s
  end.

Definition unnest {S : Type} (parent : oid) (pred : oid → res bool) (consume : oid → S → res S) (s : S) : res S :=
  do row <- mem_tokens parent;
  unnest_loop (Datatypes.S (length row)) parent (initCollectionUnnest parent) pred consume s.

(** [flushChunk]: the text of a token, as it is in the file. *)
Definition flushChunk (o : oid) (out : str) : res str :=
  do row <- mem_tokens o;
  do t <- getArrayElem row (tokenNo o);
  check token_start o t <=? token_end o t else AssertFailed;
  Ok (out ++ take (Z.to_nat (token_end o t - token_start o t)) (drop (Z.to_nat (token_start o t)) (buf g))).

End move.

(** ** The scan *)

Section scan.
Context {S : Type} (consume : JSONPlugin → oid → S → res S).

Definition set_pm (g : JSONPlugin) (rs : list (list token)) (nls : list (option nat)) : JSONPlugin :=
  mk_json (buf g) (fsize g) (staticSchema g) (cache g) (cacheNewlines g) rs nls.

(** The end of the line, searched or remembered; the length of the search is that of the file. *)
Definition find_newline (g : JSONPlugin) (offset line : nat) : res (nat * list (option nat)) :=
  if cacheNewlines g then do nl <- of_option Undefined (mjoin (newLines g !! line)); Ok (nl, newLines g)
  else
    do nl <- newlineAVX (drop offset (buf g)) (fsize g);
    check Nat.ltb line (length (newLines g)) else Undefined;
    Ok (nl, <[line := Some nl]> (newLines g)).

Definition scan_line (g : JSONPlugin) (offset line : nat) (s : S) : res (JSONPlugin * nat * S) :=
  do (nl, nls) <- find_newline g offset line;
  let idx_newlineAbsolute := (nl + offset)%nat in
  do rs <- (if cache g then Ok (rows g) else parseLineJSON (buf g) offset idx_newlineAbsolute (rows g) line);
  let g' := set_pm g rs nls in
  do s' <- consume g' (mk_oid offset line 0) s;
  Ok (g', Datatypes.S idx_newlineAbsolute, s').

Fixpoint scan_loop (fuel : nat) (g : JSONPlugin) (offset line : nat) (s : S) : res (JSONPlugin * S) :=
  if Nat.ltb offset (fsize g) then
    match fuel with
    | O => Err Blocked
    | Datatypes.S fuel => do (g', offset', s') <- scan_line g offset line s; scan_loop fuel g' offset' (Datatypes.S line) s'
    end
  else Ok (g, s).

Definition scanObjects (g : JSONPlugin) (s : S) : res (JSONPlugin * S) := scan_loop (fsize g) g 0 0 s.

End scan.

(** ** Values *)

Section values.
Context {F V : Type} `{FloatOps F, IRBuilder F V}.
Context (atof : str → F).

(** A value in a register, a string in the file, or an identifier. *)
Inductive rvalue : Type :=
  | RScalar (v : V)
  | RString (ptr len : Z)
  | ROid (o : oid).

Definition readable (t : ExpressionType) : bool :=
  match ExprTypes.getTypeID t with RECORD | LIST | BOOL | FLOAT | INT | STRING => true | _ => false end.

(** The conversion routine of truth values is declared for 32-bit positions and called with
    64-bit ones, so the call for them cannot be generated. *)
Definition calls_ok (t : ExpressionType) : bool :=
  match ExprTypes.getTypeID t with BOOL => false | _ => true end.

(** The conversion of the text from [s] to [e]. *)
Definition convertToken (bf : str) (o : oid) (s e : Z) (t : ExpressionType) : res rvalue :=
  match ExprTypes.getTypeID t with
  | BOOL => Err AssertFailed
  | FLOAT => Ok (RScalar (ConstFP (atof (drop (Z.to_nat s) bf))))
  | INT =>
      match Atoi.atois true (Csv.elem bf s) (swrap 32 (e - s)) with
      | Atoi.Stored v => Ok (RScalar v)
      | _ => Err Fatal
      end
  | STRING => Ok (RString s (e - s))
  | _ => Ok (ROid o)
  end.

(** Other types are refused while the code is generated.  The token is loaded before it is tested whether there is one. *)
Definition readValue (g : JSONPlugin) (o : oid) (t : ExpressionType) : res (option rvalue) :=
  check readable t else Throw;
  check calls_ok t else AssertFailed;
  do row <- mem_tokens g o;
  do token <- getArrayElem row (tokenNo o);
  if tokenNo o =? -1 then Ok None
  else do v <- convertToken (buf g) o (token_start o token) (token_end o token) t; Ok (Some v).

(** A path of attributes from a record: every step projects a record and loads it. *)
Fixpoint read_record (g : JSONPlugin) (tuple record : oid) (path : list attribute) : res oid :=
  match path with
  | [] => Ok record
  | a :: path =>
      do o <- readPath g tuple record a;
      do v <- readValue g o (RecordType []);
      match v with
      | Some (ROid o) => read_record g tuple o path
      | _ => Err Undefined
      end
  end.

(** A query: the values at [inner], of type [t], of the elements of the array at [outer]. *)
Definition query_line (outer inner : list attribute) (t : ExpressionType) (g : JSONPlugin) (tuple : oid) (out : list rvalue) : res (list rvalue) :=
  do collection <- read_record g tuple tuple outer;
  unnest g collection (λ _, Ok true) (λ item out,
    do o <- read_record g tuple item inner;
    do v <- readValue g o t;
    match v with Some v => Ok (out ++ [v]) | None => Ok out end) out.

Definition run_query (outer inner : list attribute) (t : ExpressionType) (g : JSONPlugin) : res (JSONPlugin * list rvalue) :=
  scanObjects (query_line outer inner t) g [].

End values.

(** ** Lines as trees *)

Definition leaf (u : item) : bool := match u with Node _ _ _ => false | _ => true end.

(** A value that the step over a member skips: a leaf, or a node of leaves. *)
Definition flat (u : item) : bool := match u with Node _ items _ => forallb (λ x, leaf x.2) items | _ => true end.

(** The position, among the items of an object, of the value of a name. *)
Fixpoint member (key : str) (items : list (str * item)) : option nat :=
  match items with
  | (_, Str k) :: (_, v) :: items => if bool_decide (k = key) then Some 1%nat else (λ i, i + 2)%nat <$> member key items
  | _ => None
  end.

(** The values before it are flat. *)
Fixpoint reaches (key : str) (items : list (str * item)) : bool :=
  match items with
  | (_, Str k) :: (_, v) :: items => bool_decide (k = key) || (flat v && reaches key items)
  | _ => false
  end.

(** The position of the value of a member by its number, when the values before it are flat. *)
Fixpoint nth_member (m : nat) (items : list (str * item)) : option nat :=
  match items with
  | (_, Str _) :: (_, v) :: items =>
      match m with
      | O => Some 1%nat
      | S m => if flat v then (λ i, i + 2)%nat <$> nth_member m items else None
      end
  | _ => None
  end.

(** Where the token of an item starts and ends. *)
Definition tok_start (k : nat) (u : item) : nat := match u with Str _ => S k | _ => k end.
Definition tok_fin (k : nat) (u : item) : nat :=
  match u with Prim s => (k + length s)%nat | Str s => (S k + length s)%nat | Node _ _ _ => (k + length (text u))%nat end.

Lemma tok_range k u : (k <= tok_start k u <= tok_fin k u)%nat ∧ (tok_fin k u <= k + length (text u))%nat.
Proof. destruct u; unfold tok_start, tok_fin; [simpl; lia | simpl; rewrite length_app; simpl; lia | lia]. Qed.

Lemma tokens_head k u : ∃ ts, tokens_of k u = mk_token (type (hd zero_token (tokens_of k u))) (Z.of_nat (tok_start k u)) (Z.of_nat (tok_fin k u)) (size (hd zero_token (tokens_of k u))) :: ts.
Proof. destruct u; [by exists [] | by exists [] | rewrite tokens_of_node; by eexists]. Qed.

(** The tokens inside a text. *)
Definition within (a b : nat) (t : token) : Prop := Z.of_nat a <= start t ∧ start t <= fin t ∧ fin t <= Z.of_nat b.

Lemma within_mono a b a' b' t : (a' <= a)%nat → (b <= b')%nat → within a b t → within a' b' t.
Proof. unfold within. lia. Qed.

Lemma items_within_of items : Forall (λ '(_, u), ∀ k, Forall (within k (k + length (text u))) (tokens_of k u)) items →
  ∀ k, Forall (within k (k + length (items_text items))) (items_tokens k items).
Proof.
  induction 1 as [| [g u] items Hu _ IH]; intros k; [constructor |]. rewrite items_tokens_cons, items_text_cons, !length_app. apply Forall_app. split.
  - eapply Forall_impl; [apply Hu |]. intros t. apply within_mono; lia.
  - eapply Forall_impl; [apply IH |]. intros t. apply within_mono; lia.
Qed.

Lemma tokens_within u : ∀ k, Forall (within k (k + length (text u))) (tokens_of k u).
Proof.
  induction u as [s | s | o items close IH] using item_tree_ind; intros k.
  - constructor; [| constructor]. unfold within. simpl. lia.
  - constructor; [| constructor]. unfold within. simpl. rewrite length_app. simpl. lia.
  - rewrite tokens_of_node. constructor; [unfold within; cbn [start fin]; lia |].
    eapply Forall_impl; [apply (items_within_of items IH) |]. intros t. apply within_mono; [lia |]. rewrite text_node. simpl. rewrite !length_app. simpl. lia.
Qed.

Lemma items_within items k : Forall (within k (k + length (items_text items))) (items_tokens k items).
Proof. apply items_within_of. apply Forall_forall. intros [g u] _. apply tokens_within. Qed.

(** The tokens of an item start before it ends, and those behind the first are not at the start of the line. *)
Lemma tail_tokens k u : Forall (λ t, start t <= Z.of_nat (tok_fin k u) ∧ start t ≠ 0) (tail (tokens_of k u)).
Proof.
  destruct u as [s | s | o items close]; [constructor | constructor |]. rewrite tokens_of_node. simpl tail.
  eapply Forall_impl; [apply items_within |]. intros t. unfold within, tok_fin. rewrite text_node. simpl. rewrite !length_app. simpl. lia.
Qed.

Lemma flat_tokens k u : flat u = true → Z.of_nat (length (tokens_of k u)) = 1 + size (hd zero_token (tokens_of k u)).
Proof.
  destruct u as [s | s | o items close]; try done. intros Hf. rewrite tokens_of_node. simpl length. simpl hd. cbn [size].
  assert (∀ k, length (items_tokens k items) = length items) as ->; [| lia]. simpl in Hf. clear k.
  induction items as [| [g u] items IH]; intros k; [done |]. simpl in Hf. apply andb_true_iff in Hf as [Hl Hf].
  rewrite items_tokens_cons, length_app, IH by done. destruct u; done.
Qed.

Lemma items_tokens_app a b : ∀ k, items_tokens k (a ++ b) = items_tokens k a ++ items_tokens (k + length (items_text a)) b.
Proof.
  induction a as [| [g u] a IH]; intros k; [simpl; by rewrite Nat.add_0_r |]. cbn [app]. rewrite !items_tokens_cons, items_text_cons, IH, <- app_assoc, !length_app.
  do 3 f_equal. lia.
Qed.

Lemma items_text_app a b : items_text (a ++ b) = items_text a ++ items_text b.
Proof. unfold items_text. by rewrite map_app, concat_app. Qed.

(** ** Tokens of a line *)

(** The tokens behind an item that ends at [e]: the zeros of the array, or tokens that start later. *)
Definition stops (e : nat) (R : list token) : Prop :=
  match R with [] => False | r :: _ => r = zero_token ∨ (Z.of_nat e < start r ∧ Z.of_nat e < fin r) end.

Lemma stops_mono e e' R : (e' <= e)%nat → stops e R → stops e' R.
Proof. destruct R; [done |]. intros He [-> | ?]; [by left | right; lia]. Qed.

(** Token [n] of the row is that of item [u], whose text is at [k] of the line at [off]. *)
Definition denotes (row : list token) (bf : str) (off n k : nat) (u : item) : Prop :=
  ∃ L R B d C, row = L ++ tokens_of k u ++ R ∧ length L = n ∧ stops (tok_fin k u) R ∧
    bf = B ++ text u ++ d :: C ∧ length B = (off + k)%nat ∧ is_delim d = true ∧ item_ok u.

(** The places of the items of a node. *)
Definition item_token (n k : nat) (items : list (str * item)) (i : nat) : nat := (n + 1 + length (items_tokens (S k) (take i items)))%nat.
Definition item_start (k : nat) (items : list (str * item)) (i : nat) (g : str) : nat := (S k + length (items_text (take i items)) + length g)%nat.

Lemma items_ok_lookup items i g u : items_ok items → items !! i = Some (g, u) → forallb is_gap g = true ∧ item_ok u.
Proof. revert i. induction items as [| [g' u'] items IH]; intros [| i]; simpl; try done; [intros (? & ? & _) [= <- <-]; done | intros (_ & _ & ?); by apply IH]. Qed.

Lemma items_ok_drop items i : items_ok items → items_ok (drop i items).
Proof. revert i. induction items as [| [g u] items IH]; intros [| i]; simpl; try done. intros (_ & _ & ?). by apply IH. Qed.

Lemma gaps_tail (items : list (str * item)) i g u : Forall (λ g, g ≠ []) (tail items).*1 → items !! i = Some (g, u) → Forall (λ g, g ≠ []) (drop (S i) items).*1.
Proof.
  intros Hne Hi. destruct items as [| x items]; [done |]. simpl in *. clear Hi. revert i. induction items as [| y items IH]; intros [| i]; simpl in *; try done; [].
  apply Forall_cons in Hne as [_ Hne]. by apply IH.
Qed.

(** What comes behind an item of a node. *)
Lemma stops_rest e k items R : (e <= k)%nat → Forall (λ g, g ≠ []) items.*1 → stops e R → stops e (items_tokens k items ++ R).
Proof.
  intros He Hne HR. destruct items as [| [g u] items]; [done |]. simpl in Hne. apply Forall_cons in Hne as [Hg _]. rewrite items_tokens_cons.
  destruct (tokens_head (k + length g) u) as (ts & ->). simpl. right. pose proof (tok_range (k + length g) u). destruct g; [done |]. simpl in *. lia.
Qed.

Lemma denotes_item row bf off n k o items close i g u : denotes row bf off n k (Node o items close) → items !! i = Some (g, u) →
  denotes row bf off (item_token n k items i) (item_start k items i g) u ∧
  (tok_fin (item_start k items i g) u <= tok_fin k (Node o items close))%nat ∧
  item_token n k items (S i) = (item_token n k items i + length (tokens_of (item_start k items i g) u))%nat.
Proof.
  intros (L & R & B & d & C & -> & Hn & HR & -> & HB & Hd & Hok) Hi. apply item_ok_node in Hok as (Hclose & Hne & Hok).
  pose proof (take_drop_middle _ _ _ Hi) as Hsplit. set (a := take i items) in *. set (b := drop (S i) items) in *.
  unfold item_token, item_start. rewrite (take_S_r _ _ _ Hi). fold a. rewrite items_tokens_app, items_tokens_cons. simpl items_tokens. rewrite app_nil_r.
  set (k' := (S k + length (items_text a) + length g)%nat) in *.
  assert (length (text (Node o items close)) = 2 + length (items_text a) + length g + length (text u) + length (items_text b) + length close)%nat as Hlen.
  { rewrite text_node, <- Hsplit, items_text_app, items_text_cons. simpl. rewrite !length_app. simpl. lia. }
  pose proof (tok_range k' u) as Hr. assert (Forall (λ g, g ≠ []) b.*1) as Hgaps by (by eapply gaps_tail).
  assert (tok_fin k (Node o items close) = k + length (text (Node o items close)))%nat as Hfin by done.
  split; [| split; [lia | rewrite length_app; lia]].
  assert (delim_next (items_text b ++ close ++ closing o :: d :: C)) as [Hnil | (d' & C' & HC & Hd')].
  { apply delim_rest; [done | by apply items_ok_drop | done]. }
  { by destruct (items_text b), close. }
  exists (L ++ mk_token (node_type o) (Z.of_nat k) (Z.of_nat (k + length (text (Node o items close)))) (Z.of_nat (length items)) :: items_tokens (S k) a),
    (items_tokens (k' + length (text u)) b ++ R), (B ++ opening o :: items_text a ++ g), d', C'.
  split. { rewrite tokens_of_node. rewrite <- Hsplit at 3. rewrite items_tokens_app, items_tokens_cons, <- !app_assoc. cbn [app]. by rewrite <- !app_assoc. }
  split. { rewrite length_app. simpl. lia. }
  split. { apply stops_rest; [lia | done |]. eapply stops_mono; [| exact HR]. lia. }
  split. { rewrite <- HC. rewrite text_node, <- Hsplit, items_text_app, items_text_cons, <- !app_assoc. cbn [app]. by rewrite <- !app_assoc. }
  split. { rewrite length_app. simpl. rewrite length_app. unfold k'. lia. }
  split; [done |]. by eapply items_ok_lookup in Hi as [_ ?].
Qed.

Lemma denotes_head row bf off n k u : denotes row bf off n k u →
  ∃ t, row !! n = Some t ∧ start t = Z.of_nat (tok_start k u) ∧ fin t = Z.of_nat (tok_fin k u) ∧ (flat u = true → Z.of_nat (length (tokens_of k u)) = 1 + size t).
Proof.
  intros (L & R & B & d & C & -> & <- & _). destruct (tokens_head k u) as (ts & E). pose proof (flat_tokens k u) as Hf. rewrite E in Hf |- *.
  eexists. rewrite <- app_comm_cons, list_lookup_middle by done. done.
Qed.

(** Behind a node. *)
Lemma denotes_behind row bf off n k o items close : denotes row bf off n k (Node o items close) →
  ∃ r, row !! item_token n k items (length items) = Some r ∧ stops (tok_fin k (Node o items close)) [r].
Proof.
  intros (L & R & B & d & C & -> & <- & HR & _). destruct R as [| r R]; [done |]. exists r. split; [| done].
  unfold item_token. rewrite firstn_all, tokens_of_node. replace (length L + 1 + length (items_tokens (S k) items))%nat with
    (length (L ++ mk_token (node_type o) (Z.of_nat k) (Z.of_nat (k + length (text (Node o items close)))) (Z.of_nat (length items)) :: items_tokens (S k) items)) by (rewrite length_app; simpl; lia).
  rewrite app_assoc. by apply list_lookup_middle.
Qed.

Lemma elem_at row n t : row !! n = Some t → getArrayElem row (Z.of_nat n) = Ok t.
Proof. intros E. unfold getArrayElem. rewrite (proj2 (Z.leb_le _ _)) by lia. by rewrite Nat2Z.id, E. Qed.

Lemma strlen_no_nul key : NUL ∉ key → strlen key = length key.
Proof. induction key as [| c key IH]; [done |]. intros Hc. simpl. destruct (Z.eqb_spec c NUL) as [-> |]; [set_solver |]. rewrite IH by set_solver. done. Qed.

Lemma strncmp_same s : ∀ key C, NUL ∉ key → length s = length key → strncmp_eq (length s) (s ++ C) key = bool_decide (s = key).
Proof.
  induction s as [| c s IH]; intros [| x key] C Hk Hl; simpl in *; try done. destruct (Z.eqb_spec c x) as [-> | Hne]; simpl.
  - destruct (Z.eqb_spec x NUL) as [-> |]; [set_solver |]. rewrite IH by (lia || set_solver). apply bool_decide_ext. split; [by intros -> | by intros [= ->]].
  - rewrite bool_decide_false; [done |]. by intros [= ?].
Qed.

Lemma compare_text B s C key : NUL ∉ key → compareTokenString (B ++ s ++ C) (length B) (length B + length s) key = bool_decide (s = key).
Proof.
  intros Hk. unfold compareTokenString. rewrite drop_app_length, strlen_no_nul by done. replace (length B + length s - length B)%nat with (length s) by lia.
  destruct (Nat.eqb_spec (length key) (length s)) as [Hl | Hl].
  - rewrite strncmp_same by done. by rewrite andb_true_r.
  - rewrite andb_false_r. symmetry. apply bool_decide_false. by intros ->.
Qed.

(** ** Projections *)

Section navigation.
Context (g : JSONPlugin) (o : oid) (row : list token).
Context (Hrow : rows g !! rowId o = Some row).

Abbreviation at_item := (denotes row (buf g) (offset o)).

Lemma compare_key n k s key t : at_item n k (Str s) → NUL ∉ key → row !! n = Some t →
  compareTokenString (buf g) (Z.to_nat (token_start o t)) (Z.to_nat (token_end o t)) key = bool_decide (s = key).
Proof using Type.
  intros Hu Hk Ht. destruct (denotes_head _ _ _ _ _ _ Hu) as (t' & Ht' & Hs & He & _). assert (t' = t) as -> by congruence.
  destruct Hu as (L & R & B & d & C & _ & _ & _ & -> & HB & _). unfold token_start, token_end. rewrite Hs, He. simpl tok_start. simpl tok_fin.
  rewrite <- (compare_text (B ++ [QUOTE]) s (QUOTE :: d :: C) key Hk). f_equal.
  - simpl. rewrite <- !app_assoc. done.
  - rewrite length_app. simpl. lia.
  - rewrite length_app. simpl. lia.
Qed.

Section node.
Context (n k : nat) (items : list (str * item)) (close : str) (b : bool).
Context (Hnode : at_item n k (Node b items close)).

Abbreviation idx := (item_token n k items).

Lemma item_here i gu : items !! i = Some gu → ∃ t, row !! idx i = Some t ∧ at_item (idx i) (item_start k items i gu.1) gu.2 ∧
  start t = Z.of_nat (tok_start (item_start k items i gu.1) gu.2) ∧ fin t = Z.of_nat (tok_fin (item_start k items i gu.1) gu.2) ∧
  fin t <= Z.of_nat (tok_fin k (Node b items close)) ∧ 0 < fin t ∧
  idx (S i) = (idx i + length (tokens_of (item_start k items i gu.1) gu.2))%nat ∧
  (flat gu.2 = true → Z.of_nat (idx (S i)) = Z.of_nat (idx i) + 1 + size t).
Proof using Hnode.
  destruct gu as [g' u]. intros Hi. destruct (denotes_item _ _ _ _ _ _ _ _ _ _ _ Hnode Hi) as (Hu & Hle & Hidx).
  destruct (denotes_head _ _ _ _ _ _ Hu) as (t & Ht & Hs & He & Hf). pose proof (tok_range (item_start k items i g') u).
  exists t. cbn [fst snd]. rewrite He. split_and!; try done; [lia | unfold item_start in *; lia |]. intros Hfl. specialize (Hf Hfl). lia.
Qed.

(** The search for a name reaches its value. *)
Lemma path_found key : NUL ∉ key → ∀ m i j fuel, member key (drop i items) = Some j → reaches key (drop i items) = true →
  (length items - i < m)%nat → (m <= fuel)%nat →
  path_loop g fuel o row key (Z.of_nat (tok_fin k (Node b items close))) (Z.of_nat (idx i)) = Ok (Z.of_nat (idx (i + j))).
Proof using Hnode.
  intros Hk. induction m as [| m IH]; intros i j fuel Hm Hr Hl Hfuel; [lia |]. destruct fuel as [| fuel]; [lia |].
  destruct (drop i items) as [| [g0 u0] [| [g1 v] rest]] eqn:Ed; [done | by destruct u0 |]. destruct u0 as [| key' |]; try done.
  assert (items !! i = Some (g0, Str key')) as Hi0 by (rewrite <- (Nat.add_0_r i), <- lookup_drop, Ed; done).
  assert (items !! S i = Some (g1, v)) as Hi1 by (rewrite <- Nat.add_1_r, <- lookup_drop, Ed; done).
  assert (drop (S (S i)) items = rest) as Hrest by (replace (S (S i)) with (i + 2)%nat by lia; rewrite <- drop_drop, Ed; done).
  destruct (item_here i _ Hi0) as (t0 & Ht0 & Hd0 & _ & _ & Hle0 & _ & _ & Hsz0). destruct (item_here (S i) _ Hi1) as (t1 & Ht1 & _ & _ & _ & _ & _ & _ & Hsz1).
  simpl in Hsz0, Hsz1. specialize (Hsz0 eq_refl). assert (size t0 = 0) as Hz.
  { destruct (denotes_head _ _ _ _ _ _ Hd0) as (t' & Ht' & _ & _ & Hf). assert (t' = t0) as -> by congruence. specialize (Hf eq_refl). simpl in Hf. lia. }
  cbn [path_loop]. rewrite (elem_at _ _ _ Ht0). cbn [rbind]. rewrite (proj2 (Z.leb_le _ _) Hle0).
  rewrite (compare_key _ _ _ _ _ Hd0 Hk Ht0). replace (Z.of_nat (idx i) + 1) with (Z.of_nat (idx (S i))) by lia. rewrite (elem_at _ _ _ Ht1). cbn [rbind].
  simpl in Hm, Hr. case_bool_decide as Hkey.
  - injection Hm as <-. by rewrite Nat.add_1_r.
  - simpl in Hr. apply andb_true_iff in Hr as [Hfl Hr]. specialize (Hsz1 Hfl). apply fmap_Some in Hm as (j' & Hm & ->).
    replace (Z.of_nat (idx i) + 2 + size t1) with (Z.of_nat (idx (S (S i)))) by lia.
    assert (∃ gu, items !! S (S i) = Some gu) as [gu Hgu].
    { destruct rest as [| gu rest]; [done |]. exists gu. rewrite <- (Nat.add_0_r (S (S i))), <- lookup_drop, Hrest. done. }
    destruct (item_here _ _ Hgu) as (t2 & Ht2 & _). rewrite (elem_at _ _ _ Ht2). cbn [rbind]. rewrite <- Hrest in Hm, Hr.
    rewrite (IH (S (S i)) j' fuel) by (done || (apply lookup_lt_Some in Hi0; lia)). do 3 f_equal. lia.
Qed.

(** Counting members reaches the value of a number. *)
Lemma predefined_found : ∀ m i j, nth_member m (drop i items) = Some j → predefined_loop m row (Z.of_nat (idx i)) = Ok (Z.of_nat (idx (i + j))).
Proof using Hnode.
  induction m as [| m IH]; intros i j Hm; destruct (drop i items) as [| [g0 u0] [| [g1 v] rest]] eqn:Ed; try done; try (by destruct u0); destruct u0 as [| key' |]; try done.
  all: assert (items !! i = Some (g0, Str key')) as Hi0 by (rewrite <- (Nat.add_0_r i), <- lookup_drop, Ed; done).
  all: assert (items !! S i = Some (g1, v)) as Hi1 by (rewrite <- Nat.add_1_r, <- lookup_drop, Ed; done).
  all: destruct (item_here i _ Hi0) as (t0 & Ht0 & Hd0 & _ & _ & _ & _ & Hsz0 & _); simpl in Hsz0.
  { simpl in *. injection Hm as <-. f_equal. rewrite Nat.add_1_r. lia. }
  destruct (item_here (S i) _ Hi1) as (t1 & Ht1 & _ & _ & _ & _ & _ & _ & Hsz1). simpl in Hsz1, Hm.
  destruct (flat v) eqn:Hfl; [| done]. specialize (Hsz1 eq_refl). apply fmap_Some in Hm as (j' & Hm & ->).
  assert (drop (S (S i)) items = rest) as Hrest by (replace (S (S i)) with (i + 2)%nat by lia; rewrite <- drop_drop, Ed; done).
  assert (∃ gu, items !! S (S i) = Some gu) as [gu Hgu].
  { destruct rest as [| gu rest]; [by destruct m |]. exists gu. rewrite <- (Nat.add_0_r (S (S i))), <- lookup_drop, Hrest. done. }
  destruct (item_here _ _ Hgu) as (t2 & Ht2 & _). cbn [predefined_loop]. replace (Z.of_nat (idx i) + 1) with (Z.of_nat (idx (S i))) by lia.
  rewrite (elem_at _ _ _ Ht1). cbn [rbind]. replace (Z.of_nat (idx i) + 2 + size t1) with (Z.of_nat (idx (S (S i)))) by lia.
  rewrite (elem_at _ _ _ Ht2). cbn [rbind]. rewrite <- Hrest in Hm. rewrite (IH _ _ Hm). do 3 f_equal. lia.
Qed.

(** ** Elements *)

Lemma contents_skipped ts : ∀ L r R e fuel, row = L ++ ts ++ r :: R → Forall (λ t, start t <= e ∧ start t ≠ 0) ts → start r = 0 ∨ e < start r → (length ts < fuel)%nat →
  skipContents fuel row e (Z.of_nat (length L)) = Ok (Z.of_nat (length L + length ts)).
Proof using Type.
  induction ts as [| t ts IH]; intros L r R e fuel E Hts Hr Hf; destruct fuel as [| fuel]; try (simpl in Hf; lia); cbn [skipContents].
  - erewrite elem_at by (rewrite E; by apply list_lookup_middle). cbn [rbind]. replace (_ && _) with false by lia. simpl. f_equal. lia.
  - apply Forall_cons in Hts as [Ht Hts]. erewrite elem_at by (rewrite E; by apply list_lookup_middle). cbn [rbind]. replace (_ && _) with true by lia.
    replace (Z.of_nat (length L) + 1) with (Z.of_nat (length (L ++ [t]))) by (rewrite length_app; simpl; lia).
    rewrite (IH (L ++ [t]) r R) by (done || (simpl in Hf; lia) || by rewrite E, <- app_assoc). rewrite length_app. simpl. f_equal. lia.
Qed.

Lemma get_next i gu : items !! i = Some gu →
  collectionGetNext g (set_token o (Z.of_nat (idx i))) = Ok (set_token o (Z.of_nat (idx i)), set_token o (Z.of_nat (idx (S i)))).
Proof using Hnode Hrow.
  intros Hi. destruct (item_here i gu Hi) as (t & Ht & Hd & _ & He & _ & _ & Hidx & _). destruct gu as [g' u]. cbn [fst snd] in *.
  unfold collectionGetNext, mem_tokens. cbn [rowId tokenNo set_token offset]. rewrite Hrow. cbn [rbind of_option]. rewrite (elem_at _ _ _ Ht). cbn [rbind].
  destruct Hd as (L & R & B & d & C & E & HL & HR & _). destruct R as [| r R]; [done |].
  destruct (tokens_head (item_start k items i g') u) as (ts & Eu). pose proof (tail_tokens (item_start k items i g') u) as Htl. rewrite Eu in E, Htl, Hidx. simpl in Htl.
  pose proof Ht as Ht2. rewrite E, <- HL in Ht2. rewrite <- app_comm_cons, list_lookup_middle in Ht2 by done. injection Ht2 as Ht2.
  rewrite Ht2 in E. replace (Z.of_nat (idx i) + 1) with (Z.of_nat (length (L ++ [t]))) by (rewrite length_app; simpl; lia).
  rewrite (contents_skipped ts (L ++ [t]) r R); [| by rewrite E, <- app_assoc | by rewrite He | | rewrite E, length_app; simpl; rewrite length_app; simpl; lia].
  - cbn [rbind]. do 3 f_equal. rewrite length_app, Hidx. simpl. lia.
  - simpl in HR. destruct HR as [-> | [? _]]; [by left | right; lia].
Qed.

Lemma has_next i : (i <= length items)%nat →
  collectionHasNext g (set_token o (Z.of_nat n)) (set_token o (Z.of_nat (idx i))) = Ok (Nat.ltb i (length items)).
Proof using Hnode Hrow.
  intros Hi. unfold collectionHasNext, mem_tokens. simpl. rewrite Hrow. cbn [rbind of_option].
  destruct (denotes_head _ _ _ _ _ _ Hnode) as (t & Ht & _ & He & _). rewrite (elem_at _ _ _ Ht). cbn [rbind].
  destruct (decide (i < length items)%nat) as [Hlt | Hge].
  - destruct (lookup_lt_is_Some_2 _ _ Hlt) as [gu Hgu]. destruct (item_here i gu Hgu) as (t' & Ht' & _ & _ & _ & Hle & Hpos & _).
    rewrite (elem_at _ _ _ Ht'). cbn [rbind]. rewrite He. f_equal. rewrite (proj2 (Nat.ltb_lt _ _) Hlt). lia.
  - assert (i = length items) as -> by lia. destruct (denotes_behind _ _ _ _ _ _ _ _ Hnode) as (r & Hr & Hs).
    rewrite (elem_at _ _ _ Hr). cbn [rbind]. rewrite He, Nat.ltb_irrefl. f_equal. cbn [stops] in Hs. destruct Hs as [-> | [_ ?]]; [apply andb_false_r | lia].
Qed.

Lemma unnest_elements {S : Type} (pred : oid → res bool) (consume : oid → S → res S) : ∀ m i fuel s, (length items - i <= m)%nat → (i <= length items)%nat → (m < fuel)%nat →
  unnest_loop g fuel (set_token o (Z.of_nat n)) (set_token o (Z.of_nat (idx i))) pred consume s =
  rfoldM (λ s j, do p <- pred (set_token o (Z.of_nat (idx j))); if p : bool then consume (set_token o (Z.of_nat (idx j))) s else Ok s) s (seq i (length items - i)).
Proof using Hnode Hrow.
  induction m as [| m IH]; intros i fuel s Hm Hi Hf; destruct fuel as [| fuel]; try lia; cbn [unnest_loop]; rewrite has_next by done; cbn [rbind].
  - rewrite (proj2 (Nat.ltb_ge _ _)) by lia. by replace (length items - i)%nat with 0%nat by lia.
  - destruct (Nat.ltb_spec i (length items)) as [Hlt | Hge]; [| by replace (length items - i)%nat with 0%nat by lia].
    destruct (lookup_lt_is_Some_2 _ _ Hlt) as [gu Hgu]. rewrite (get_next i gu Hgu). cbn [rbind].
    replace (length items - i)%nat with (Datatypes.S (length items - Datatypes.S i)) by lia. cbn [seq rfoldM].
    destruct (pred _) as [p |]; cbn [rbind]; [| done]. destruct (if p then _ else _) as [s' |]; cbn [rbind]; [| done]. apply IH; lia.
Qed.

End node.
End navigation.

Lemma items_count items : ∀ k, (length items <= length (items_tokens k items))%nat.
Proof.
  induction items as [| [g u] items IH]; intros k; [done |]. rewrite items_tokens_cons, length_app. destruct (tokens_head (k + length g) u) as (ts & ->).
  simpl. specialize (IH (k + length g + length (text u))%nat). lia.
Qed.

(** A choice for each place of a list. *)
Lemma list_choice {A B : Type} (P : nat → B → A → Prop) (l : list A) : (∀ j x, l !! j = Some x → ∃ r, P j r x) →
  ∃ rs, length rs = length l ∧ ∀ j r x, rs !! j = Some r → l !! j = Some x → P j r x.
Proof.
  induction l as [| y l IH] using rev_ind; intros H; [by exists [] |].
  destruct IH as (rs & Hl & Hrs); [intros j x Hj; apply H; by apply lookup_app_l_Some |].
  destruct (H (length l) y) as (r & Hr); [by apply list_lookup_middle |]. exists (rs ++ [r]). split; [by rewrite !length_app, Hl |].
  intros j r' x [Hr' | [Hge Hr']]%lookup_app_Some [Hx | [Hge' Hx]]%lookup_app_Some.
  - by apply (Hrs j).
  - apply lookup_lt_Some in Hr'. lia.
  - apply lookup_lt_Some in Hx. lia.
  - apply list_lookup_singleton_Some in Hr' as [? <-], Hx as [? <-]. by replace j with (length l) by lia.
Qed.

Lemma Forall2_concat {A B : Type} (R : A → B → Prop) l k : Forall2 (Forall2 R) l k → Forall2 R (concat l) (concat k).
Proof. induction 1; simpl; [constructor | by apply Forall2_app]. Qed.

(** A loop that appends. *)
Lemma fold_append {A : Type} (f : list A → nat → res (list A)) (rs : list A) : (∀ j r s, rs !! j = Some r → f s j = Ok (s ++ [r])) →
  ∀ s, rfoldM f s (seq 0 (length rs)) = Ok (s ++ rs).
Proof.
  induction rs as [| r rs IH] using rev_ind; intros Hf s; [by rewrite app_nil_r |].
  rewrite length_app, Nat.add_1_r, seq_S, rfoldM_app, IH by (intros j r' s' Hj; apply Hf; by apply lookup_app_l_Some).
  simpl. rewrite (Hf _ r) by (by apply list_lookup_middle). simpl. by rewrite app_assoc.
Qed.

(** The plug-in holds the row and the file. *)
Definition agrees (row : list token) (bf : str) (off : nat) (g : JSONPlugin) (o : oid) : Prop :=
  buf g = bf ∧ rows g !! rowId o = Some row ∧ offset o = off.

(** What a path leads to, when the values it steps over are flat. *)
Fixpoint follow (path : list attribute) (t : item) : option item :=
  match path with
  | [] => Some t
  | a :: path =>
      match t with
      | Node true items _ => i ← member (name a) items; gv ← items !! i; follow path gv.2
      | _ => None
      end
  end.

Fixpoint direct (path : list attribute) (t : item) : bool :=
  match path with
  | [] => true
  | a :: path =>
      match t with
      | Node true items _ => reaches (name a) items && match gv ← (i ← member (name a) items; items !! i); Some (direct path gv.2) with Some b => b | None => false end
      | _ => false
      end
  end.

Definition names_ok (path : list attribute) : Prop := Forall (λ a, NUL ∉ name a) path.

Lemma readPath_member g o row n k items close a i gv : rows g !! rowId o = Some row → staticSchema g = false →
  denotes row (buf g) (offset o) n k (Node true items close) → NUL ∉ name a → member (name a) items = Some i → reaches (name a) items = true → items !! i = Some gv →
  ∀ tuple, readPath g tuple (set_token o (Z.of_nat n)) a = Ok (set_token o (Z.of_nat (item_token n k items i))).
Proof.
  intros Hrow Hst Hnode Hk Hm Hr Hi tuple. unfold readPath. rewrite Hst. unfold mem_tokens. cbn [rowId tokenNo set_token offset]. rewrite Hrow. cbn [rbind of_option].
  destruct (denotes_head _ _ _ _ _ _ Hnode) as (t & Ht & _ & He & _). rewrite (elem_at _ _ _ Ht). cbn [rbind]. rewrite He.
  replace (Z.of_nat n + 1) with (Z.of_nat (item_token n k items 0)) by (unfold item_token; simpl; lia).
  assert (length items <= length row)%nat as Hl.
  { destruct (denotes_behind _ _ _ _ _ _ _ _ Hnode) as (r & Hrr%lookup_lt_Some & _). unfold item_token in Hrr. rewrite firstn_all in Hrr. pose proof (items_count items (S k)). lia. }
  rewrite (path_found g (set_token o (Z.of_nat n)) row n k items close true Hnode (name a) Hk (S (length row)) 0 i (S (length row))) by (rewrite ?drop_0; done || lia). done.
Qed.

(** ** Files *)

(** A line: an object between gaps. *)
Record line : Type := mk_line { before : str; tree : item; after : str }.

Definition line_text (l : line) : str := before l ++ text (tree l) ++ after l.
Definition file_text (lines : list line) : str := concat ((λ l, line_text l ++ [NL]) <$> lines).
Definition line_tokens (l : line) : list token := tokens_of (length (before l)) (tree l).
Definition row_of (l : line) : list token := line_tokens l ++ replicate (MAXTOKENS - length (line_tokens l)) zero_token.
Definition line_off (lines : list line) (i : nat) : nat := length (file_text (take i lines)).

(** The array of tokens has room for one more. *)
Record line_ok (l : line) : Prop := {
  l_before : forallb is_gap (before l) = true;
  l_after : forallb is_gap (after l) = true;
  l_tree : item_ok (tree l);
  l_line : NL ∉ line_text l;
  l_short : Z.of_nat (length (line_text l)) < 2 ^ 31;
  l_tokens : (length (line_tokens l) < MAXTOKENS)%nat;
}.

(** The positional map when [i] lines are scanned. *)
Definition pm_at (lines : list line) (hint i : nat) : pmJSON :=
  mk_pm (((λ l, Some (length (line_text l))) <$> take i lines) ++ replicate (hint - i) None)
        ((row_of <$> take i lines) ++ replicate (hint - i) (replicate MAXTOKENS zero_token)).

Lemma file_text_app a b : file_text (a ++ b) = file_text a ++ file_text b.
Proof. unfold file_text. by rewrite fmap_app, concat_app. Qed.

Lemma root_denotes lines i l pad : Forall line_ok lines → lines !! i = Some l →
  denotes (row_of l) (file_text lines ++ pad) (line_off lines i) 0 (length (before l)) (tree l).
Proof.
  intros Hall Hi. destruct (Forall_lookup_1 _ _ _ _ Hall Hi) as [Hb Ha Ht _ _ Hn].
  assert (file_text lines ++ pad = (file_text (take i lines) ++ before l) ++ text (tree l) ++ after l ++ NL :: file_text (drop (S i) lines) ++ pad) as E.
  { rewrite <- (take_drop_middle _ _ _ Hi) at 1. rewrite file_text_app. unfold file_text at 2. rewrite fmap_cons. cbn [concat]. unfold line_text. rewrite <- !app_assoc. done. }
  destruct (after l ++ NL :: file_text (drop (S i) lines) ++ pad) as [| d C] eqn:Ea; [by destruct (after l) |].
  exists [], (replicate (MAXTOKENS - length (line_tokens l)) zero_token), (file_text (take i lines) ++ before l), d, C.
  split; [done |]. split; [done |]. split.
  { destruct (MAXTOKENS - length (line_tokens l))%nat eqn:Em; [lia |]. by left. }
  split; [by rewrite E |]. split; [by rewrite length_app |]. split; [| done].
  destruct (after l) as [| a al]; simpl in Ea; [by injection Ea as <- _ |]. injection Ea as <- _. simpl in Ha. apply andb_true_iff in Ha as [Ha _]. unfold is_delim. by rewrite Ha.
Qed.

Section scan_correct.
Context {S : Type} (consume : JSONPlugin → oid → S → res S) (lines : list line) (hint : nat) (pad : str) (static : bool).
Context (effect : nat → S → S).

Abbreviation off := (line_off lines).

(** The plug-in before line [i]: the first scan fills the map, later ones find it filled. *)
Record scanning (i : nat) (g : JSONPlugin) : Prop := {
  c_buf : buf g = file_text lines ++ pad;
  c_size : fsize g = length (file_text lines);
  c_static : staticSchema g = static;
  c_pm : cache g = cacheNewlines g ∧ pm_of g = pm_at lines hint (if cache g then length lines else i);
}.

Lemma off_next i l : lines !! i = Some l → off (Datatypes.S i) = Datatypes.S (length (line_text l) + off i).
Proof using Type.
  intros Hi. unfold line_off. rewrite (take_S_r _ _ _ Hi), file_text_app, length_app. unfold file_text at 2. simpl. rewrite app_nil_r, length_app. simpl. lia.
Qed.

Lemma off_bound i l : lines !! i = Some l → (off i + length (line_text l) < length (file_text lines))%nat.
Proof using Type.
  intros Hi. pose proof (off_next i l Hi) as Ho. assert (off (Datatypes.S i) <= length (file_text lines))%nat; [| lia].
  unfold line_off. rewrite <- (take_drop (Datatypes.S i) lines) at 2. rewrite file_text_app, length_app. lia.
Qed.

Lemma file_split i l : lines !! i = Some l → file_text lines ++ pad = file_text (take i lines) ++ line_text l ++ NL :: file_text (drop (Datatypes.S i) lines) ++ pad.
Proof using Type.
  intros Hi. rewrite <- (take_drop_middle _ _ _ Hi) at 1. rewrite file_text_app. unfold file_text at 2. rewrite fmap_cons. cbn [concat]. by rewrite <- !app_assoc.
Qed.

Lemma map_next {A B : Type} (f : A → B) (l : list A) (i : nat) (a : A) (z : B) : l !! i = Some a → (i < hint)%nat →
  <[i := f a]> ((f <$> take i l) ++ replicate (hint - i) z) = (f <$> take (Datatypes.S i) l) ++ replicate (hint - Datatypes.S i) z.
Proof using Type.
  intros Hi Hh. assert (length (f <$> take i l) = i) as Hl by (rewrite length_fmap, length_take; apply lookup_lt_Some in Hi; lia).
  rewrite insert_app_r_alt by lia. rewrite Hl, Nat.sub_diag. replace (hint - i)%nat with (Datatypes.S (hint - Datatypes.S i)) by lia. simpl.
  rewrite (take_S_r _ _ _ Hi), fmap_app, <- app_assoc. done.
Qed.

Context (Hok : Forall line_ok lines) (Hhint : (length lines <= hint)%nat) (Hpad : (31 <= length pad)%nat).

(** The consumer, on a line whose tokens are there. *)
Context (Hconsume : ∀ i l g s, lines !! i = Some l → buf g = file_text lines ++ pad → staticSchema g = static → rows g !! i = Some (row_of l) →
  consume g (mk_oid (off i) i 0) s = Ok (effect i s)).

Lemma scan_line_ok i l g s : lines !! i = Some l → scanning i g →
  ∃ g', scan_line consume g (off i) i s = Ok (g', off (Datatypes.S i), effect i s) ∧ scanning (Datatypes.S i) g' ∧ cache g' = cache g.
Proof using All.
  intros Hi [Hb Hsz Hst [Hcc Hpm]]. pose proof (lookup_lt_Some _ _ _ Hi) as Hlt. pose proof (off_bound i l Hi) as Hbound. pose proof (off_next i l Hi) as Hnext.
  pose proof (file_split i l Hi) as Hsplit. destruct (Forall_lookup_1 _ _ _ _ Hok Hi) as [Hbe Haf Htr Hnl Hsh Htk].
  injection Hpm as Hnls Hrows. unfold scan_line, find_newline. destruct (cache g) eqn:Ec; rewrite <- Hcc.
  - rewrite firstn_all in Hnls, Hrows. rewrite Hnls.
    rewrite lookup_app_l, list_lookup_fmap, Hi by (rewrite length_fmap; lia). cbn [fmap option_fmap option_map mjoin option_join of_option rbind].
    rewrite (Hconsume i l) by (done || (simpl; rewrite Hrows, lookup_app_l, list_lookup_fmap, Hi by (rewrite length_fmap; lia); done)).
    cbn [rbind]. rewrite Hnext. eexists. split; [reflexivity |]. split; [| simpl; done]. split; simpl; try done. rewrite Ec. split; [done |]. unfold pm_of, pm_at. simpl.
    rewrite firstn_all. by f_equal.
  - assert (drop (off i) (buf g) = line_text l ++ NL :: file_text (drop (Datatypes.S i) lines) ++ pad) as ->.
    { rewrite Hb, Hsplit. unfold line_off. apply drop_app_length. }
    rewrite newlineAVX_finds by (done || (rewrite ?length_app; lia)). cbn [rbind].
    rewrite (proj2 (Nat.ltb_lt _ _)) by (rewrite Hnls, length_app, length_fmap, length_take, length_replicate; lia).
    cbn [rbind].
    destruct (parse_line (tree l) (before l) (after l) (file_text (take i lines)) (NL :: file_text (drop (Datatypes.S i) lines) ++ pad) (rows g) i) as (m & Ep & Hm); [done .. | | done |].
    { rewrite Hrows, lookup_app_r by (rewrite length_fmap, length_take; lia). rewrite length_fmap, length_take. apply lookup_replicate_2. lia. }
    fold (line_text l) in Ep. rewrite Hb, Hsplit. unfold line_off at 1 2. rewrite (Nat.add_comm (length (line_text l))), Ep. cbn [rbind].
    fold (line_tokens l) in Ep, Hm |- *. assert (m = MAXTOKENS - length (line_tokens l))%nat as -> by (specialize (Hm ltac:(lia)); lia). fold (row_of l).
    fold (off i). rewrite (Hconsume i l).
    + cbn [rbind]. rewrite Hnext. replace (length (line_text l) + off i)%nat with (length (file_text (take i lines)) + length (line_text l))%nat by (unfold line_off; lia).
      eexists. split; [reflexivity |]. split; [| simpl; done]. split; simpl; try done. rewrite Ec. split; [done |].
      unfold pm_of, pm_at. simpl. rewrite Hnls, Hrows. rewrite (map_next (λ l, Some (length (line_text l))) lines i l None), (map_next row_of lines i l) by (done || lia). done.
    + done.
    + simpl. by rewrite Hb.
    + done.
    + simpl. rewrite list_lookup_insert_eq; [done |]. rewrite Hrows, length_app, length_fmap, length_take, length_replicate. lia.
Qed.

Lemma off_end : off (length lines) = length (file_text lines).
Proof using Type. unfold line_off. by rewrite firstn_all. Qed.

Lemma json_scan_loop_ok : ∀ m i g s fuel, (length lines - i <= m)%nat → (i <= length lines)%nat → (m <= fuel)%nat → scanning i g →
  ∃ g', scan_loop consume fuel g (off i) i s = Ok (g', foldl (λ s j, effect j s) s (seq i (length lines - i))) ∧ pm_of g' = pm_at lines hint (length lines).
Proof using All.
  induction m as [| m IH]; intros i g s fuel Hm Hi Hf Hg.
  - assert (i = length lines) as -> by lia. exists g. rewrite Nat.sub_diag. assert (scan_loop consume fuel g (off (length lines)) (length lines) s = Ok (g, s)) as ->.
    { destruct fuel; simpl; by rewrite (c_size _ _ Hg), off_end, Nat.ltb_irrefl. }
    split; [done |]. destruct (c_pm _ _ Hg) as [_ ->]. by destruct (cache g).
  - destruct (decide (i = length lines)) as [-> | Hne].
    + exists g. rewrite Nat.sub_diag. assert (scan_loop consume fuel g (off (length lines)) (length lines) s = Ok (g, s)) as ->.
      { destruct fuel; simpl; by rewrite (c_size _ _ Hg), off_end, Nat.ltb_irrefl. }
      split; [done |]. destruct (c_pm _ _ Hg) as [_ ->]. by destruct (cache g).
    + destruct (lookup_lt_is_Some_2 lines i ltac:(lia)) as [l Hl]. destruct fuel as [| fuel]; [lia |]. cbn [scan_loop].
      pose proof (off_bound i l Hl). rewrite (c_size _ _ Hg), (proj2 (Nat.ltb_lt _ _)) by lia.
      destruct (scan_line_ok i l g s Hl Hg) as (g1 & -> & Hg1 & _). cbn [rbind].
      destruct (IH (Datatypes.S i) g1 (effect i s) fuel) as (g' & -> & Hpm); [lia | lia | lia | done |]. exists g'. split; [| done].
      replace (length lines - i)%nat with (Datatypes.S (length lines - Datatypes.S i)) by lia. done.
Qed.

Lemma lines_short : (length lines <= length (file_text lines))%nat.
Proof using Type.
  clear. induction lines as [| l ls IH]; [done |]. change (file_text (l :: ls)) with ((line_text l ++ [NL]) ++ file_text ls). rewrite !length_app. simpl. lia.
Qed.

Lemma scanObjects_ok g s : scanning 0 g →
  ∃ g', scanObjects consume g s = Ok (g', foldl (λ s j, effect j s) s (seq 0 (length lines))) ∧ pm_of g' = pm_at lines hint (length lines).
Proof using All.
  intros Hg. unfold scanObjects. pose proof lines_short. rewrite (c_size _ _ Hg).
  destruct (json_scan_loop_ok (length lines) 0 g s (length (file_text lines))) as (g' & E & Hpm); [lia | lia | lia | done |].
  exists g'. rewrite Nat.sub_0_r in E. done.
Qed.

End scan_correct.

(** ** Names that are not there *)

(** No member has the name, and all of them can be stepped over. *)
Fixpoint absent (key : str) (items : list (str * item)) : bool :=
  match items with
  | [] => true
  | (_, Str k) :: (_, v) :: items => negb (bool_decide (k = key)) && flat v && absent key items
  | _ => false
  end.

Lemma compare_empty bf s key : key ≠ [] → NUL ∉ key → compareTokenString bf s s key = false.
Proof. intros Hne Hk. unfold compareTokenString. rewrite Nat.sub_diag, strlen_no_nul by done. by destruct key. Qed.

(** The zeros behind the tokens of a line do not end the search. *)
Lemma zeros_walk g o L m key e : key ≠ [] → NUL ∉ key → 0 <= e →
  ∀ fuel i, (length L <= i <= length L + m + 1)%nat → (length L + m + 2 <= i + fuel)%nat → path_loop g fuel o (L ++ replicate m zero_token) key e (Z.of_nat i) = Err Undefined.
Proof.
  intros Hne Hk He. induction fuel as [| fuel IH]; intros i Hi Hf; cbn [path_loop].
  - lia.
  - destruct (decide (i < length L + m)%nat) as [Hlt | Hge].
    + erewrite elem_at by (rewrite lookup_app_r by lia; apply lookup_replicate_2; lia). cbn [rbind fin zero_token]. rewrite (proj2 (Z.leb_le _ _) He).
      unfold token_start, token_end. cbn [start fin zero_token]. rewrite compare_empty by done.
      replace (Z.of_nat i + 1) with (Z.of_nat (i + 1)) by lia. destruct (decide (i + 1 < length L + m)%nat) as [Hlt' | Hge'].
      * erewrite elem_at by (rewrite lookup_app_r by lia; apply lookup_replicate_2; lia). cbn [rbind size zero_token]. replace (Z.of_nat i + 2 + 0) with (Z.of_nat (i + 2)) by lia.
        rewrite IH by lia. unfold getArrayElem. destruct (0 <=? _); [by destruct (_ !! _) | done].
      * unfold getArrayElem at 1. rewrite (proj2 (Z.leb_le _ _)), Nat2Z.id by lia. rewrite lookup_ge_None_2; [done |]. rewrite length_app, length_replicate. lia.
    + unfold getArrayElem at 1. rewrite (proj2 (Z.leb_le _ _)), Nat2Z.id by lia. rewrite lookup_ge_None_2; [done |]. rewrite length_app, length_replicate. lia.
Qed.

Section absent.
Context (g : JSONPlugin) (o : oid) (row : list token) (n k : nat) (items : list (str * item)) (close : str) (b : bool).
Context (Hnode : denotes row (buf g) (offset o) n k (Node b items close)).

(** The search steps over all members to what is behind the object. *)
Lemma path_absent key e : NUL ∉ key → e = Z.of_nat (tok_fin k (Node b items close)) → ∀ m i fuel, absent key (drop i items) = true → (i <= length items)%nat → (length items - i <= m)%nat →
  ∃ d, (2 * d <= length items - i)%nat ∧ ∀ fuel', fuel = (d + fuel')%nat →
    path_loop g fuel o row key e (Z.of_nat (item_token n k items i)) = path_loop g fuel' o row key e (Z.of_nat (item_token n k items (length items))).
Proof using Hnode.
  intros Hk ->. induction m as [| m IH]; intros i fuel Ha Hi Hm.
  { assert (i = length items) as -> by lia. exists 0%nat. split; [lia |]. by intros fuel' ->. }
  destruct (drop i items) as [| [g0 u0] [| [g1 v] rest]] eqn:Ed; [| by destruct u0 |].
  { apply (f_equal length) in Ed. rewrite length_drop in Ed. simpl in Ed. assert (i = length items) as -> by lia. exists 0%nat. split; [lia |]. by intros fuel' ->. }
  destruct u0 as [| key' |]; try done. simpl in Ha. apply andb_true_iff in Ha as [[Hne%negb_true_iff Hfl]%andb_true_iff Ha].
  assert (items !! i = Some (g0, Str key')) as Hi0 by (rewrite <- (Nat.add_0_r i), <- lookup_drop, Ed; done).
  assert (items !! S i = Some (g1, v)) as Hi1 by (rewrite <- Nat.add_1_r, <- lookup_drop, Ed; done).
  assert (drop (S (S i)) items = rest) as Hrest by (replace (S (S i)) with (i + 2)%nat by lia; rewrite <- drop_drop, Ed; done).
  destruct (item_here g o row n k items close b Hnode i _ Hi0) as (t0 & Ht0 & Hd0 & _ & _ & Hle0 & _ & Hsz0 & _).
  destruct (item_here g o row n k items close b Hnode (S i) _ Hi1) as (t1 & Ht1 & _ & _ & _ & _ & _ & _ & Hsz1). simpl in Hsz0, Hsz1. specialize (Hsz1 Hfl).
  apply lookup_lt_Some in Hi1 as Hlt. rewrite <- Hrest in Ha.
  assert (∃ t2, row !! item_token n k items (S (S i)) = Some t2) as [t2 Ht2].
  { destruct (decide (S (S i) = length items)) as [-> | Hne2]; [destruct (denotes_behind _ _ _ _ _ _ _ _ Hnode) as (r & Hr & _); by exists r |].
    destruct (lookup_lt_is_Some_2 items (S (S i)) ltac:(lia)) as [gu Hgu]. destruct (item_here g o row n k items close b Hnode _ _ Hgu) as (t2 & Ht2 & _). by exists t2. }
  destruct (IH (S (S i)) (pred fuel) Ha ltac:(lia) ltac:(lia)) as (d & Hd & Hgo). exists (S d). split; [lia |]. intros fuel' ->.
  rewrite <- (Hgo fuel') by lia. cbn [pred Nat.add path_loop]. rewrite (elem_at _ _ _ Ht0). cbn [rbind]. rewrite (proj2 (Z.leb_le _ _) Hle0).
  rewrite (compare_key g o row _ _ _ _ _ Hd0 Hk Ht0), Hne. replace (Z.of_nat (item_token n k items i) + 1) with (Z.of_nat (item_token n k items (S i))) by lia.
  rewrite (elem_at _ _ _ Ht1). cbn [rbind]. replace (Z.of_nat (item_token n k items i) + 2 + size t1) with (Z.of_nat (item_token n k items (S (S i)))) by lia.
  rewrite (elem_at _ _ _ Ht2). done.
Qed.

End absent.


Import GenCorrect.

(** Under a static schema, an attribute is the member of its number, counted from the tuple. *)
Lemma readPath_static g o row n k items close a i record : rows g !! rowId o = Some row → staticSchema g = true →
  denotes row (buf g) (offset o) n k (Node true items close) → nth_member (Z.to_nat (attrNo a - 1)) items = Some i →
  readPath g (set_token o (Z.of_nat n)) record a = Ok (set_token o (Z.of_nat (item_token n k items i))).
Proof.
  intros Hrow Hst Hnode Hm. unfold readPath, readPredefinedPath. rewrite Hst. unfold mem_tokens. cbn [rowId tokenNo set_token offset]. rewrite Hrow. cbn [rbind of_option].
  destruct (denotes_head _ _ _ _ _ _ Hnode) as (t & Ht & _). rewrite (elem_at _ _ _ Ht). cbn [rbind].
  replace (Z.of_nat n + 1) with (Z.of_nat (item_token n k items 0)) by (unfold item_token; simpl; lia).
  by rewrite (predefined_found g o row n k items close true Hnode _ 0 i) by (by rewrite drop_0).
Qed.

(** A value is flushed as it is written in the file; strings lose their quotes. *)
Lemma flushChunk_ok g o row n k u out : rows g !! rowId o = Some row → denotes row (buf g) (offset o) n k u →
  flushChunk g (set_token o (Z.of_nat n)) out = Ok (out ++ match u with Prim s | Str s => s | Node _ _ _ => text u end).
Proof.
  intros Hrow Hu. destruct (denotes_head _ _ _ _ _ _ Hu) as (t & Ht & Hs & He & _). unfold flushChunk, mem_tokens. cbn [rowId tokenNo set_token offset]. rewrite Hrow. cbn [rbind of_option].
  rewrite (elem_at _ _ _ Ht). cbn [rbind]. unfold token_start, token_end. cbn [offset set_token]. rewrite Hs, He. pose proof (tok_range k u) as Hr. rewrite (proj2 (Z.leb_le _ _)) by lia.
  do 2 f_equal. destruct Hu as (L & R & B & d & C & _ & _ & _ & -> & HB & _).
  replace (Z.to_nat (Z.of_nat (tok_fin k u) + Z.of_nat (offset o) - (Z.of_nat (tok_start k u) + Z.of_nat (offset o)))) with (tok_fin k u - tok_start k u)%nat by lia.
  replace (Z.to_nat (Z.of_nat (tok_start k u) + Z.of_nat (offset o))) with (length B + (tok_start k u - k))%nat by lia. rewrite <- drop_drop, drop_app_length.
  destruct u as [s | s | b items close]; cbn [tok_start tok_fin].
  - replace (k - k)%nat with 0%nat by lia. replace (k + length s - k)%nat with (length s) by lia. by rewrite drop_0, take_app_length.
  - replace (S k - k)%nat with 1%nat by lia. replace (S k + length s - S k)%nat with (length s) by lia. cbn [text app skipn]. by rewrite drop_0, <- app_assoc, take_app_length.
  - replace (k - k)%nat with 0%nat by lia. rewrite drop_0. replace (k + length (text (Node b items close)) - k)%nat with (length (text (Node b items close))) by lia. by rewrite take_app_length.
Qed.

Section correct.
Context {F V : Type} `{FloatOps F, IRBuilder F V, !LangRef F V}.
Context (atof : str → F).

(** [atof] converts the beginning of a string: a delimiter ends a number. *)
Class AtofDelim : Prop :=
  atof_delim : ∀ f c rest, f ≠ [] → forallb plain f = true → is_delim c = true → atof (f ++ c :: rest) = atof f.

Context `{!AtofDelim}.

Lemma read_record_ok row bf off : ∀ path n k t v, denotes row bf off n k t → names_ok path → follow path t = Some v → direct path t = true →
  ∃ n' k', denotes row bf off n' k' v ∧
    ∀ g o tuple, agrees row bf off g o → staticSchema g = false → read_record (V := V) atof g tuple (set_token o (Z.of_nat n)) path = Ok (set_token o (Z.of_nat n')).
Proof using Type.
  induction path as [| a path IH]; intros n k t v Ht Hnames Hf Hd; [injection Hf as <-; by exists n, k |].
  apply Forall_cons in Hnames as [Ha Hnames]. simpl in Hf, Hd. destruct t as [| | [] items close]; try done.
  apply bind_Some in Hf as (i & Hi & Hf). apply bind_Some in Hf as (gv & Hgv & Hf). rewrite Hi in Hd. simpl in Hd. rewrite Hgv in Hd. simpl in Hd.
  apply andb_true_iff in Hd as [Hr Hd]. destruct gv as [g' u]. simpl in Hf, Hd.
  destruct (denotes_item _ _ _ _ _ _ _ _ _ _ _ Ht Hgv) as (Hu & _). destruct (IH _ _ _ _ Hu Hnames Hf Hd) as (n' & k' & Hv & Hread).
  exists n', k'. split; [done |]. intros g o tuple (Hb & Hrow & Ho) Hst. cbn [read_record].
  erewrite readPath_member; [| exact Hrow | done | rewrite Hb, Ho; exact Ht | done | done | done | exact Hgv].
  cbn [rbind]. unfold readValue. cbn [readable ExprTypes.getTypeID]. unfold mem_tokens. cbn [rowId tokenNo set_token offset]. rewrite Hrow. cbn [rbind of_option].
  destruct (denotes_head _ _ _ _ _ _ Hu) as (t & Ht' & _). rewrite (elem_at _ _ _ Ht'). cbn [rbind]. rewrite (proj2 (Z.eqb_neq _ _)) by lia. cbn [convertToken ExprTypes.getTypeID rbind].
  by apply Hread.
Qed.

(** ** Values *)

Inductive jvalue : Type := JScalar (x : sval F) | JString (s : str).

(** What an item means as a value of a type. *)
Definition value_of (t : ExpressionType) (u : item) : option jvalue :=
  match ExprTypes.getTypeID t, u with
  | INT, (Prim s | Str s) => JScalar <$> Csv.field_value atof t s
  | FLOAT, Prim s => JScalar <$> Csv.field_value atof t s
  | STRING, (Prim s | Str s) => Some (JString s)
  | _, _ => None
  end.

Definition shows (bf : str) (t : ExpressionType) (r : rvalue (V := V)) (x : jvalue) : Prop :=
  match r, x with
  | RScalar v, JScalar x => ∃ k, kind_of t = Some k ∧ represents k v (Ok x)
  | RString p l, JString s => take (Z.to_nat l) (drop (Z.to_nat p) bf) = s
  | _, _ => False
  end.

(** The text of a leaf, between its delimiters. *)
Lemma leaf_text row bf off n k u s : denotes row bf off n k u → u = Prim s ∨ u = Str s →
  ∃ B C, bf = B ++ s ++ C ∧ (off + tok_start k u = length B)%nat ∧ (off + tok_fin k u = length B + length s)%nat ∧
    (u = Prim s → s ≠ [] ∧ forallb plain s = true ∧ ∃ d C', C = d :: C' ∧ is_delim d = true).
Proof using Type.
  intros (L & R & B & d & C & _ & _ & _ & -> & HB & Hd & Hok) [-> | ->].
  - exists B, (d :: C). simpl. split; [done |]. split; [lia |]. split; [lia |]. intros _. destruct Hok as (Hp & c & s' & -> & _). split; [done |]. split; [done |]. by exists d, C.
  - exists (B ++ [QUOTE]), (QUOTE :: d :: C). simpl. rewrite length_app. simpl. split; [by rewrite <- !app_assoc |]. split; [lia |]. split; [lia |]. done.
Qed.

Lemma scalar_converts B s C o t x : calls_ok t = true → Csv.field_value atof t s = Some x → (ExprTypes.getTypeID t = FLOAT → s ≠ [] ∧ forallb plain s = true ∧ ∃ d C', C = d :: C' ∧ is_delim d = true) →
  ∃ v, convertToken atof (B ++ s ++ C) o (Z.of_nat (length B)) (Z.of_nat (length B + length s)) t = Ok (RScalar v) ∧
    ∃ k, kind_of t = Some k ∧ represents k v (Ok x).
Proof using All.
  intros Hcall Hx Hfl. unfold convertToken, Csv.field_value in *. destruct t; try discriminate Hx; try discriminate Hcall; cbn [ExprTypes.getTypeID kind_of] in *.
  - destruct (existsb _ s) eqn:Ef; [| done]. injection Hx as <-. destruct (Hfl eq_refl) as (Hne & Hp & d & C' & -> & Hd).
    rewrite Nat2Z.id, drop_app_length, atof_delim by done. eexists. split; [reflexivity |]. eexists. split; [done |].
    destruct (ConstFP_ok (V := V) (atof s)) as [Ht Hden]. apply (represents_dbl _ (Ok (atof s))); [done |]. unfold den_float. by rewrite Hden.
  - destruct (all_digits s && Nat.leb 1 (length s) && Nat.leb (length s) 10) eqn:Ef; [| done]. injection Hx as <-.
    apply andb_true_iff in Ef as [[Hall Hge%Nat.leb_le]%andb_true_iff Hle%Nat.leb_le].
    replace (Z.of_nat (length B + length s) - Z.of_nat (length B)) with (Z.of_nat (length s)) by lia.
    rewrite swrap_id by (unfold in_signed; simpl; lia).
    destruct (Atoi.atois_value true (Csv.elem (F := F) (B ++ s ++ C) (Z.of_nat (length B))) s Hall ltac:(lia) (Csv.elem_loads B s C Hall)) as (v & -> & Hv).
    eexists. split; [reflexivity |]. eexists. split; [done |]. by apply (represents_num 32 _ (Ok _)).
Qed.

Lemma readValue_ok row bf off n k u t x : denotes row bf off n k u → value_of t u = Some x →
  ∃ r, shows bf t r x ∧ ∀ g o, agrees row bf off g o → readValue atof g (set_token o (Z.of_nat n)) t = Ok (Some r).
Proof using All.
  intros Hu Hx. destruct (denotes_head _ _ _ _ _ _ Hu) as (tk & Htk & Hs & He & _).
  assert (∃ s, (u = Prim s ∨ u = Str s) ∧ readable t = true ∧ calls_ok t = true) as (s & Hleaf & Hread & Hcall).
  { unfold value_of, readable, calls_ok in *. destruct (ExprTypes.getTypeID t), u; try done; eauto. }
  destruct (leaf_text _ _ _ _ _ _ _ Hu Hleaf) as (B & C & -> & HB & HE & Hprim).
  assert (∃ r, shows (B ++ s ++ C) t r x ∧ ∀ o, convertToken atof (B ++ s ++ C) o (Z.of_nat (length B)) (Z.of_nat (length B + length s)) t = Ok r) as (r & Hr & Hc).
  { unfold value_of in Hx. destruct (decide (ExprTypes.getTypeID t = STRING)) as [Ht | Ht].
    - rewrite Ht in Hx. exists (RString (Z.of_nat (length B)) (Z.of_nat (length s))). split.
      + destruct Hleaf as [-> | ->]; injection Hx as <-; simpl; by rewrite !Nat2Z.id, drop_app_length, take_app_length.
      + intros o. unfold convertToken. rewrite Ht. do 2 f_equal. lia.
    - assert (∃ y, x = JScalar y ∧ Csv.field_value atof t s = Some y ∧ (ExprTypes.getTypeID t = FLOAT → u = Prim s)) as (y & -> & Hy & Hfl).
      { destruct Hleaf as [-> | ->], (ExprTypes.getTypeID t); try done; apply fmap_Some in Hx as (y & Hy & ->); by exists y. }
      destruct (scalar_converts B s C (mk_oid 0 0 0) t y Hcall Hy) as (v & Hv & k' & Hk & Hrep); [intros Hf; by apply Hprim, Hfl |].
      exists (RScalar v). split; [by exists k' |]. intros o. rewrite <- Hv. unfold convertToken. unfold Csv.field_value in Hy. by destruct (ExprTypes.getTypeID t). }
  exists r. split; [done |]. intros g o (Hb & Hrow & Ho). unfold readValue. rewrite Hread, Hcall. cbn [rbind]. unfold mem_tokens. cbn [rowId tokenNo set_token offset]. rewrite Hrow. cbn [rbind of_option].
  rewrite (elem_at _ _ _ Htk). cbn [rbind]. rewrite (proj2 (Z.eqb_neq _ _)) by lia. unfold token_start, token_end. cbn [offset set_token]. rewrite Hs, He, Hb, Ho.
  replace (Z.of_nat (tok_start k u) + Z.of_nat off) with (Z.of_nat (length B)) by lia.
  replace (Z.of_nat (tok_fin k u) + Z.of_nat off) with (Z.of_nat (length B + length s)) by lia. by rewrite Hc.
Qed.

(** ** A query over a line *)

Definition query_of (outer inner : list attribute) (t : ExpressionType) (tree : item) : option (list jvalue) :=
  c ← follow outer tree;
  match c with
  | Node _ items _ => mapM (λ gu, v ← follow inner gu.2; value_of t v) items
  | _ => None
  end.

Definition query_direct (outer inner : list attribute) (tree : item) : bool :=
  direct outer tree && match follow outer tree with Some (Node _ items _) => forallb (λ gu, direct inner gu.2) items | _ => false end.

(** Under a static schema: the array is the member of the number of its attribute. *)
Definition query_static (outer inner : list attribute) (t : ExpressionType) (tree : item) : option (list jvalue) :=
  match outer, inner, tree with
  | [a], [], Node true items _ =>
      i ← nth_member (Z.to_nat (attrNo a - 1)) items; gv ← items !! i;
      match gv.2 with Node _ elems _ => mapM (λ gu, value_of t gu.2) elems | _ => None end
  | _, _, _ => None
  end.

(** What a query over a line returns, where the plug-in can follow its paths. *)
Definition query_means (static : bool) (outer inner : list attribute) (t : ExpressionType) (tree : item) : option (list jvalue) :=
  if static then query_static outer inner t tree
  else if query_direct outer inner tree then query_of outer inner t tree else None.

(** The array is found, and the value of each of its elements. *)
Lemma collection_ok static outer inner t row bf off n k items close b vs : denotes row bf off n k (Node b items close) → length items = length vs →
  (∀ g o, agrees row bf off g o → staticSchema g = static → tokenNo o = 0 → read_record (V := V) atof g o o outer = Ok (set_token o (Z.of_nat n))) →
  (∀ j x, vs !! j = Some x → ∃ r, shows bf t r x ∧ ∀ g o tuple, agrees row bf off g o → staticSchema g = static →
    (do o' <- read_record atof g tuple (set_token o (Z.of_nat (item_token n k items j))) inner; readValue atof g o' t) = Ok (Some r)) →
  ∃ rs, Forall2 (shows bf t) rs vs ∧
    ∀ g o out, agrees row bf off g o → staticSchema g = static → tokenNo o = 0 → query_line atof outer inner t g o out = Ok (out ++ rs).
Proof using All.
  intros Hn Hlv Hread Helem.
  destruct (list_choice (λ j r x, shows bf t r x ∧ ∀ g o tuple, agrees row bf off g o → staticSchema g = static →
    (do o' <- read_record atof g tuple (set_token o (Z.of_nat (item_token n k items j))) inner; readValue atof g o' t) = Ok (Some r)) vs Helem) as (rs & Hl & Hrs).
  exists rs. split. { apply Forall2_same_length_lookup. split; [done |]. intros j r x Hr Hx. by apply (Hrs j r x). }
  intros g o out Ha Hst Hz. unfold query_line. destruct o as [of_ rid tk]. simpl in Hz. subst tk.
  rewrite (Hread g (mk_oid of_ rid 0) Ha Hst eq_refl). cbn [rbind].
  unfold unnest. destruct Ha as (Hb & Hrow & Hoff). simpl in Hrow, Hoff. unfold mem_tokens. cbn [rowId set_token]. rewrite Hrow. cbn [rbind of_option].
  replace (initCollectionUnnest _) with (set_token (mk_oid of_ rid 0) (Z.of_nat (item_token n k items 0))) by (unfold initCollectionUnnest, set_token, item_token; simpl; f_equal; lia).
  assert (length items <= length row)%nat as Hlr.
  { destruct (denotes_behind _ _ _ _ _ _ _ _ Hn) as (r & Hrr%lookup_lt_Some & _). unfold item_token in Hrr. rewrite firstn_all in Hrr. pose proof (items_count items (S k)). lia. }
  rewrite (unnest_elements g (mk_oid of_ rid 0) row Hrow n k items close b) with (m := length items); [| by subst bf off | lia | lia | lia].
  rewrite Nat.sub_0_r. replace (length items) with (length rs) by lia. apply fold_append. intros j r s' Hr. cbn [rbind].
  destruct (lookup_lt_is_Some_2 vs j) as [x Hx]; [rewrite <- Hl; by eapply lookup_lt_Some |].
  destruct (Hrs j r x Hr Hx) as [_ Hrd]. specialize (Hrd g (mk_oid of_ rid 0) (mk_oid of_ rid 0)). unfold agrees in Hrd. specialize (Hrd ltac:(done) Hst).
  apply rbind_Ok_inv in Hrd as (o' & E1 & E2). rewrite E1. cbn [rbind]. by rewrite E2.
Qed.

Lemma query_line_ok outer inner t row bf off k tree vs : denotes row bf off 0 k tree → names_ok outer → names_ok inner →
  query_of outer inner t tree = Some vs → query_direct outer inner tree = true →
  ∃ rs, Forall2 (shows bf t) rs vs ∧
    ∀ g o out, agrees row bf off g o → staticSchema g = false → tokenNo o = 0 → query_line atof outer inner t g o out = Ok (out ++ rs).
Proof using All.
  intros Ht Ho Hi Hq Hd. unfold query_of in Hq. apply bind_Some in Hq as (c & Hc & Hq). unfold query_direct in Hd. rewrite Hc in Hd.
  destruct c as [| | b items close]; try done. apply andb_true_iff in Hd as [Hd Hdi]. apply mapM_Some in Hq.
  destruct (read_record_ok row bf off outer 0 k tree _ Ht Ho Hc Hd) as (n & k' & Hn & Hread).
  apply (collection_ok false outer inner t row bf off n k' items close b vs Hn); [by apply Forall2_length in Hq | |].
  - intros g [of_ rid tk] Ha Hst Hz. simpl in Hz. subst tk. exact (Hread g (mk_oid of_ rid 0) (mk_oid of_ rid 0) Ha Hst).
  - intros j x Hx. destruct (Forall2_lookup_r _ _ _ _ _ Hq Hx) as ([g' u] & Hgu & Hv). simpl in Hv. apply bind_Some in Hv as (v & Hv & Hx').
    destruct (denotes_item _ _ _ _ _ _ _ _ _ _ _ Hn Hgu) as (Hu & _).
    assert (direct inner u = true) as Hdu by (rewrite forallb_forall in Hdi; apply (Hdi (g', u)), list_elem_of_In; by eapply list_elem_of_lookup_2).
    destruct (read_record_ok row bf off inner _ _ _ _ Hu Hi Hv Hdu) as (n1 & k1 & Hn1 & Hr1).
    destruct (readValue_ok row bf off n1 k1 v t x Hn1 Hx') as (r & Hr & Hr2). exists r. split; [done |].
    intros g o tuple Ha Hst. rewrite Hr1 by done. cbn [rbind]. by apply Hr2.
Qed.

(** A record that is there is loaded as its identifier. *)
Lemma readValue_record g o row n u bf off k : agrees row bf off g o → denotes row bf off n k u →
  readValue (V := V) atof g (set_token o (Z.of_nat n)) (RecordType []) = Ok (Some (ROid (set_token o (Z.of_nat n)))).
Proof using Type.
  intros (Hb & Hrow & Ho) Hu. unfold readValue. cbn [readable calls_ok ExprTypes.getTypeID rbind]. unfold mem_tokens. cbn [rowId tokenNo set_token offset]. rewrite Hrow. cbn [rbind of_option].
  destruct (denotes_head _ _ _ _ _ _ Hu) as (t & Ht' & _). rewrite (elem_at _ _ _ Ht'). cbn [rbind]. by rewrite (proj2 (Z.eqb_neq _ _)) by lia.
Qed.

Lemma query_static_ok outer inner t row bf off k tree vs : denotes row bf off 0 k tree → query_static outer inner t tree = Some vs →
  ∃ rs, Forall2 (shows bf t) rs vs ∧
    ∀ g o out, agrees row bf off g o → staticSchema g = true → tokenNo o = 0 → query_line atof outer inner t g o out = Ok (out ++ rs).
Proof using All.
  intros Ht Hq. unfold query_static in Hq. destruct outer as [| a [|]]; try done. destruct inner; try done. destruct tree as [| | [] items close]; try done.
  apply bind_Some in Hq as (i & Hi & Hq). apply bind_Some in Hq as ([g0 u] & Hgu & Hq). destruct u as [| | b elems cl]; try done. cbn [snd] in Hq. apply mapM_Some in Hq.
  destruct (denotes_item _ _ _ _ _ _ _ _ _ _ _ Ht Hgu) as (Hu & _).
  apply (collection_ok true [a] [] t row bf off _ _ elems cl b vs Hu); [by apply Forall2_length in Hq | |].
  - intros g [of_ rid tk] Ha Hst Hz. simpl in Hz. subst tk. cbn [read_record].
    pose proof Ha as (Hb & Hrow & Ho). change (mk_oid of_ rid 0) with (set_token (mk_oid of_ rid 0) (Z.of_nat 0)) at 1.
    erewrite readPath_static; [| exact Hrow | done | rewrite Hb, Ho; exact Ht | exact Hi]. cbn [rbind].
    by erewrite readValue_record.
  - intros j x Hx. destruct (Forall2_lookup_r _ _ _ _ _ Hq Hx) as ([g' u] & Hgu' & Hv). simpl in Hv.
    destruct (denotes_item _ _ _ _ _ _ _ _ _ _ _ Hu Hgu') as (Hu' & _).
    destruct (readValue_ok row bf off _ _ u t x Hu' Hv) as (r & Hr & Hr2). exists r. split; [done |].
    intros g o tuple Ha _. cbn [read_record rbind]. by apply Hr2.
Qed.

Lemma query_means_ok static outer inner t row bf off k tree vs : denotes row bf off 0 k tree → names_ok outer → names_ok inner →
  query_means static outer inner t tree = Some vs →
  ∃ rs, Forall2 (shows bf t) rs vs ∧
    ∀ g o out, agrees row bf off g o → staticSchema g = static → tokenNo o = 0 → query_line atof outer inner t g o out = Ok (out ++ rs).
Proof using All.
  unfold query_means. intros Ht Ho Hi Hq. destruct static; [by eapply query_static_ok |].
  destruct (query_direct outer inner tree) eqn:Hd; [| done]. by eapply query_line_ok.
Qed.

Lemma foldl_concat (rss : list (list (rvalue (V := V)))) : ∀ pre out,
  foldl (λ out j, out ++ default [] ((pre ++ rss) !! j)) out (seq (length pre) (length rss)) = out ++ concat rss.
Proof using Type.
  induction rss as [| rs rss IH]; intros pre out; [simpl; by rewrite app_nil_r |]. simpl. rewrite list_lookup_middle by done. simpl.
  specialize (IH (pre ++ [rs]) (out ++ rs)). rewrite <- app_assoc, length_app, Nat.add_1_r in IH. simpl in IH. by rewrite IH, <- app_assoc.
Qed.


End correct.

(** ** An example: [SELECT e.c FROM f, UNNEST(f.b) e] *)

Import Interp.

Definition s_a : str := [97].
Definition s_b : str := [98].
Definition s_c : str := [99].

Definition field (k : str) (v : item) : list (str * item) := [([44; 32], Str k); ([58], v)].

(** [ {"a":1, "b":[{"c":7}, {"x":[5,6], "c":"42"}]} ] and [ {"b":[]} ] *)
Definition ex_lines : list line :=
  [mk_line [] (Node true ([([], Str s_a); ([58], Prim [49])] ++
     field s_b (Node false [([], Node true [([], Str s_c); ([58], Prim [55])] []);
                            ([44], Node true ([([32], Str [120]); ([58], Node false [([], Prim [53]); ([44], Prim [54])] [])] ++ field s_c (Str [52; 50])) [])] [])) []) [32];
   mk_line [32] (Node true [([], Str s_b); ([58], Node false [] [])] [32]) []].

Lemma ex_lines_ok : Forall line_ok ex_lines.
Proof.
  repeat constructor; try reflexivity; try (by do 2 eexists); try (apply (bool_decide_eq_true_1 _); vm_compute; reflexivity); try (vm_compute; lia); try discriminate.
Qed.

Definition ex_path (k : str) : list attribute := [mk_attribute k 1].

#[export] Instance ex_atof_delim : AtofDelim Csv.ex_atof.
Proof.
  intros f c rest _ _ Hc. assert (isdigit c = false) as Hnd by (unfold is_delim, is_gap, isdigit in *; lia). unfold Csv.ex_atof. generalize 0.
  induction f as [| x f IH]; intros acc; simpl; [by rewrite Hnd |].
  destruct (isdigit x); [| done]. specialize (IH (acc * 10 + (x - ZERO))). destruct (parse_digits _ (f ++ c :: rest)), (parse_digits _ f). exact IH.
Qed.

(** [ {"a":[5,6]} ], whose array is the first attribute *)
Definition ex_static_lines : list line :=
  [mk_line [] (Node true [([], Str s_a); ([58], Node false [([], Prim [53]); ([44], Prim [54])] [])] []) []].

Lemma ex_static_lines_ok : Forall line_ok ex_static_lines.
Proof.
  repeat constructor; try reflexivity; try (by do 2 eexists); try (apply (bool_decide_eq_true_1 _); vm_compute; reflexivity); try (vm_compute; lia); try discriminate.
Qed.



End Json.
