(* ===== verification/CsvPm.v ===== *)
(** * CsvPm: scans over character-separated files with a positional map
    ([olap/lib/plugins/csv-plugin-pm.cpp], [csv-plugin-pm.hpp]).

    The first scan of a file remembers where its lines start, and in each line where every
    [policy]-th field starts, as a 16-bit offset.  A later scan goes from line to line by that map, and
    to a field from the nearest of: the field read last, the mapped field before it, the mapped field behind it.

    The plug-in generates the code of one line by loops over the fields and the schema; the code is a list of [instr] here, and
    the loops [gen_fields] and [gen_pm] emit it.  The maps live in memory that is allocated when the plug-in is
    constructed, is shared through [CachingService], and is not initialised: an entry is [None]
    until it is written, and reading it before is undefined. *)

From Stdlib Require Import ZArith Lia Bool Sorted.
From stdpp Require Import base numbers list sorting sets strings.
From S2P Require Import Prelude ExprTypes LLVM Expressions Caching Hash Generator GenCorrect Reduce Text Atoi Csv.

Local Open Scope Z_scope.
Local Open Scope res_scope.

Module CsvPm.
Import ExprTypes Expressions Generator Text.

Definition CR : Z := 13.
Definition PIPE : Z := 124.

(** ** Moving in the file *)

Section move.
Context (buf : str) (fsize delimInner : Z).

Definition load (pos : Z) : res Z := check 0 <=? pos else Undefined; of_option Undefined (buf !! Z.to_nat pos).

Fixpoint skipDelimLLVM (fuel : nat) (delim pos : Z) : res Z :=
  match fuel with
  | O => Err Blocked
  | S fuel =>
      do c <- load pos;
      let pos := pos + 1 in
      if negb (c =? delim) then skipDelimLLVM fuel delim pos else Ok pos
  end.

Fixpoint skipBwd (fuel : nat) (delim pos : Z) : res Z :=
  match fuel with
  | O => Err Blocked
  | S fuel =>
      do c <- load pos;
      if negb (c =? delim) then skipBwd fuel delim (pos - 1) else Ok (pos + 1)
  end.

(** From the start of a field, over the delimiter before it, to the start of the field before. *)
Definition skipDelimBackwardsLLVM (fuel : nat) (delim pos : Z) : res Z := skipBwd fuel delim (pos - 2).

Definition EndCond (c pos : Z) : bool := negb (c =? delimInner) && negb (c =? NL) && (pos <? fsize).

Fixpoint skipLLVM (fuel : nat) (pos : Z) : res Z :=
  match fuel with
  | O => Err Blocked
  | S fuel =>
      do c <- load pos;
      let next := pos + 1 in
      if EndCond c pos then skipLLVM fuel next else Ok next
  end.

Fixpoint getFieldEndLLVM (fuel : nat) (pos : Z) : res Z :=
  match fuel with
  | O => Err Blocked
  | S fuel =>
      do c <- load pos;
      if EndCond c pos then getFieldEndLLVM fuel (pos + 1) else Ok pos
  end.

End move.

(** ** The map and the plug-in *)

(** [pm[i]] points [i * pmFields] entries into one array. *)
Record pmCSV : Type := mk_pm { pmFields : Z; newlines : list (option Z); offsets : list (option Z) }.

(** [file] is [None] if it could not be opened; [pm] is the address of the map. *)
Record CSVPlugin : Type := mk_csv {
  fname : string;
  file : option str;
  rec : list RecordAttribute;
  wantedFields : list RecordAttribute;
  stringBrackets : bool;
  delimInner : Z;
  lines : Z;
  policy : Z;
  hasPM : bool;
  pm : Z;
  hasHeader : bool
}.

Definition getArgsNo (g : CSVPlugin) : Z := Z.of_nat (length (rec g)).

(** [delimEnd] *)
Definition delimEnd : Z := NL.

Section world.
Context {F V : Type}.

(** The registry of maps, and the maps; the address of a map is one more than its index. *)
Record world : Type := mk_world { cache : CachingService.service (F := F) (V := V); pms : list pmCSV }.

Definition get_pm (w : world) (p : Z) : option pmCSV := if 1 <=? p then pms w !! Z.to_nat (p - 1) else None.
Definition set_pm (w : world) (p : Z) (m : pmCSV) : world := mk_world (cache w) (<[Z.to_nat (p - 1) := m]> (pms w)).

(** [malloc] of the arrays; a request for more than the address space fails. *)
Definition new_pm (lineHint fields : Z) : res pmCSV :=
  check 0 <=? lineHint else Throw;
  Ok (mk_pm fields (replicate (Z.to_nat lineHint) None) (replicate (Z.to_nat (lineHint * fields)) None)).

(** A map enters the registry when the plug-in is constructed. *)
Definition register_pm (w : world) (fname : string) (m : pmCSV) : res (Z * world) :=
  let p := Z.of_nat (length (pms w)) + 1 in
  do c <- CachingService.registerPM (cache w) fname p;
  Ok (p, mk_world c (pms w ++ [m])).

Definition by_number (a b : RecordAttribute) : Prop := attrNo a <= attrNo b.

#[export] Instance by_number_dec : RelDecision by_number := λ a b, _ : Decision (attrNo a <= attrNo b).

(** The constructor with a delimiter. *)
Definition construct (w : world) (fname : string) (file : option str) (rec whichFields : list RecordAttribute)
    (delimInner lineHint policy : Z) (stringBrackets hasHeader : bool) : res (CSVPlugin * world) :=
  let wanted := merge_sort by_number whichFields in
  check bool_decide (is_Some file) || bool_decide (whichFields = []) else Throw;
  let plugin := mk_csv fname file rec wanted stringBrackets delimInner lineHint policy in
  do pmCast <- CachingService.getPM (cache w) fname;
  if pmCast =? 0 then
    check negb (policy =? 0) else Undefined;
    let fields := Z.quot (Z.of_nat (length rec)) policy in
    do m <- new_pm lineHint fields;
    check 0 <=? fields else Throw;
    do (p, w') <- register_pm w fname m;
    Ok (plugin false p hasHeader, w')
  else Ok (plugin true pmCast hasHeader, w).

(** The constructor for semicolons: the fields are sorted by the addresses of their
    attributes, and the map is one field smaller. *)
Definition construct_default (by_address : list RecordAttribute → list RecordAttribute) (w : world) (fname : string) (file : option str)
    (rec whichFields : list RecordAttribute) (lineHint policy : Z) (stringBrackets : bool) : res (CSVPlugin * world) :=
  let wanted := by_address whichFields in
  check bool_decide (is_Some file) || bool_decide (whichFields = []) else Throw;
  let plugin := mk_csv fname file rec wanted stringBrackets Csv.SEMICOLON lineHint policy in
  do pmCast <- CachingService.getPM (cache w) fname;
  if pmCast =? 0 then
    if bool_decide (is_Some file) then
      check negb (policy =? 0) else Undefined;
      let fields := Z.quot (Z.of_nat (length rec)) policy - 1 in
      do m <- new_pm lineHint fields;
      check 0 <=? fields else Throw;
      do (p, w') <- register_pm w fname m;
      Ok (plugin false p false, w')
    else Ok (plugin false 0 false, w)
  else Ok (plugin true pmCast false, w).

(** The constructor that is given a map. *)
Definition construct_ready (by_address : list RecordAttribute → list RecordAttribute) (fname : string) (file : option str)
    (rec whichFields : list RecordAttribute) (delimInner lineHint policy p : Z) (stringBrackets hasHeader : bool) : res CSVPlugin :=
  check bool_decide (is_Some file) || bool_decide (whichFields = []) else Throw;
  Ok (mk_csv fname file rec (by_address whichFields) stringBrackets delimInner lineHint policy true p hasHeader).

Definition createPmCsvPlugin (w : world) (fname : string) (file : option str) (rec projs : list RecordAttribute) : res (CSVPlugin * world) :=
  construct w fname file rec projs Csv.SEMICOLON 10 2 false false.

Definition createPmTsvPlugin (w : world) (fname : string) (file : option str) (rec projs : list RecordAttribute) : res (CSVPlugin * world) :=
  construct w fname file rec projs PIPE 10 2 false false.

End world.

(** ** The code of a line *)

Section plugin.
Context {F V : Type} `{FloatOps F, IRBuilder F V}.
(** [atof]; [get_time] with [mktime], in milliseconds; the address of the file in memory; the element [structFieldNo] of a cache for a tuple. *)
Context (atof : str → F) (parse_time : str → option Z) (bufPtr : V) (cacheElem : CachingService.CacheInfo → V → V).

Abbreviation PV := (ProteusValue V).
Abbreviation PVM := (ProteusValueMemory (V := V)).

Inductive instr : Type :=
  | SkipDelim (delim : Z)                                       (* [skipDelimLLVM] *)
  | SkipBackwards (delim : Z)                                   (* [skipDelimBackwardsLLVM] *)
  | StorePM (col : Z)                                           (* [pm[lineCtr][col] = pos - newline] *)
  | LoadPM (col : Z)                                            (* [pos = newline + pm[lineCtr][col]] *)
  | ReadField (a : RecordAttribute)
  | ReadCache (a : RecordAttribute) (info : CachingService.CacheInfo).

(** ** Fields *)

(** The conversion of the bytes [start], ..., [index - 1]: a value and whether it is null. *)
Definition notNull (v : V) : V * V := (v, ConstInt 1 0).

Definition convertInt (buf : str) (start index : Z) : res (V * V) :=
  match Atoi.atois true (Csv.elem buf start) (swrap 32 (index - start)) with
  | Atoi.Stored v => Ok (notNull v)
  | _ => Err Fatal
  end.

Definition convertString (brackets : bool) (start index : Z) : V * V :=
  let start := if brackets then start + 1 else start in
  let len := index - start in
  let len := if brackets then len - 1 else len in
  notNull (CreateStruct [CreateGEP bufPtr (ConstInt 64 start); ConstInt 32 len]).

(** A string that is not a time ends the program. *)
Definition parseDate (s : str) : res Z := match parse_time s with Some t => Ok (u64 t) | None => Err Fatal end.

Definition convertDate (buf : str) (start index : Z) : res (V * V) :=
  let len := u32 (index - start) in
  do dt <- parseDate (take (Z.to_nat len) (drop (Z.to_nat start) buf));
  Ok (ConstInt 64 dt, CreateICmp EQ (ConstInt 32 (index - start)) (ConstInt 32 0)).

Definition convertBool (buf : str) (start index : Z) : res (V * V) :=
  do b <- convertBoolean buf (Z.to_nat start) (Z.to_nat index);
  Ok (notNull (ConstInt 1 (Z.b2z b))).

Definition convertFloat (buf : str) (start : Z) : V * V := notNull (ConstFP (atof (drop (Z.to_nat start) buf))).

(** What is read, and the position behind the delimiter. *)
Definition readAsIntLLVM (g : CSVPlugin) (fuel : nat) (buf : str) (fsize pos : Z) : res (V * V * Z) :=
  do index <- getFieldEndLLVM buf fsize (delimInner g) fuel pos;
  do v <- convertInt buf pos index;
  Ok (v, index + 1).

Definition readAsStringLLVM (g : CSVPlugin) (fuel : nat) (buf : str) (fsize pos : Z) : res (V * V * Z) :=
  do index <- getFieldEndLLVM buf fsize (delimInner g) fuel pos;
  Ok (convertString (stringBrackets g) pos index, index + 1).

Definition readAsDateLLVM (g : CSVPlugin) (fuel : nat) (buf : str) (fsize pos : Z) : res (V * V * Z) :=
  do index <- getFieldEndLLVM buf fsize (delimInner g) fuel pos;
  do v <- convertDate buf pos index;
  Ok (v, index + 1).

Definition readAsBooleanLLVM (g : CSVPlugin) (fuel : nat) (buf : str) (fsize pos : Z) : res (V * V * Z) :=
  do index <- getFieldEndLLVM buf fsize (delimInner g) fuel pos;
  do v <- convertBool buf pos index;
  Ok (v, index + 1).

Definition readAsFloatLLVM (g : CSVPlugin) (fuel : nat) (buf : str) (fsize pos : Z) : res (V * V * Z) :=
  do index <- skipLLVM buf fsize (delimInner g) fuel pos;
  Ok (convertFloat buf pos, index).

(** The conversion of a type; the others are refused while the code is generated. *)
Definition readField (g : CSVPlugin) (t : ExpressionType) : res (nat → str → Z → Z → res (V * V * Z)) :=
  match ExprTypes.getTypeID t with
  | BOOL => Ok (readAsBooleanLLVM g)
  | STRING => Ok (readAsStringLLVM g)
  | FLOAT => Ok (readAsFloatLLVM g)
  | INT => Ok (readAsIntLLVM g)
  | DATE => Ok (readAsDateLLVM g)
  | _ => Err Throw
  end.

(** ** The code of the first scan *)

(** [wantedFields.erase] of the first one with the number; [lastFieldNo] is read through the
    iterator after the erasure: the next one's number.  At the end of the vector the slot
    behind it is read, which still holds the erased pointer. *)
Fixpoint take_wanted (i : Z) (ws : list RecordAttribute) : option (RecordAttribute * list RecordAttribute * Z) :=
  match ws with
  | [] => None
  | a :: ws' =>
      if i =? attrNo a then Some (a, ws', match ws' with b :: _ => attrNo b | [] => attrNo a end)
      else match take_wanted i ws' with Some (b, rest, last) => Some (b, a :: rest, last) | None => None end
  end.

(** [pmFieldsNo.erase(pmIt)] *)
Fixpoint erase_first (i : Z) (l : list Z) : list Z :=
  match l with [] => [] | x :: l' => if x =? i then l' else x :: erase_first i l' end.

(** The loop over the fields [i], ..., [argsNo], [n] of them: the code, and what is left of [wantedFields]. *)
Fixpoint gen_fields (g : CSVPlugin) (n : nat) (i : Z) (pmFieldsNo : list Z) (wanted : list RecordAttribute) (lastFieldNo pmCtr : Z)
    : res (list instr * list RecordAttribute) :=
  match n with
  | O => Ok ([], wanted)
  | S n =>
      if bool_decide (pmFieldsNo = []) && bool_decide (wanted = []) && (lastFieldNo <? getArgsNo g) then Ok ([SkipDelim delimEnd], wanted)
      else
        let '(store, pmFieldsNo, pmCtr) :=
          if bool_decide (i - 1 ∈ pmFieldsNo) then ([StorePM pmCtr], erase_first (i - 1) pmFieldsNo, pmCtr + 1) else ([], pmFieldsNo, pmCtr) in
        match take_wanted i wanted with
        | Some (a, wanted, lastFieldNo) =>
            do _ <- readField g (type a);
            do (code, rest) <- gen_fields g n (i + 1) pmFieldsNo wanted lastFieldNo pmCtr;
            Ok (store ++ ReadField a :: code, rest)
        | None =>
            do (code, rest) <- gen_fields g n (i + 1) pmFieldsNo wanted lastFieldNo pmCtr;
            Ok (store ++ SkipDelim (if negb (i =? getArgsNo g) then delimInner g else delimEnd) :: code, rest)
        end
  end.

Definition pm_numbers (g : CSVPlugin) : list Z :=
  (λ i, Z.of_nat i * policy g) <$> seq 1 (Z.to_nat (Z.quot (getArgsNo g) (policy g))).

Definition gen_populate (g : CSVPlugin) : res (list instr * list RecordAttribute) :=
  gen_fields g (length (rec g)) 1 (pm_numbers g) (wantedFields g) 0 0.

(** ** The code of a scan through the map *)

(** What a field is looked up in the caches by: [arg[*wantedField]]. *)
Definition oid_attr (g : CSVPlugin) : res RecordAttribute := RecordAttribute_oid (fname g) activeLoop IntType.

Definition cache_key (g : CSVPlugin) (tid a : RecordAttribute) : expr F V :=
  RecordProjection (InputArgument (tid :: wantedFields g) 0) a.

(** The cache that has a field, if there is a full one.  The identifier of the tuple is not
    taken from a cache. *)
Definition cached (E : env (F := F) (V := V)) (g : CSVPlugin) (tid a : RecordAttribute) : res (option CachingService.CacheInfo) :=
  do info <- getCache E (cache_key g tid a);
  if CachingService.structFieldNo info =? -1 then Ok None
  else
    do full <- getCacheIsFull E (cache_key g tid a);
    Ok (if full && negb (CachingService.structFieldNo info =? 0) then Some info else None).

(** How the code gets from the field [currAttr] to the field [neededAttr]. *)
Definition gen_move (g : CSVPlugin) (currAttr neededAttr : Z) : list instr :=
  let pmDistanceBefore := Z.rem neededAttr (policy g) in
  let pmDistanceAfter := policy g - Z.rem neededAttr (policy g) in
  let distanceFromCurr := neededAttr - currAttr in
  if (distanceFromCurr <=? pmDistanceBefore) && (distanceFromCurr <=? pmDistanceAfter) then
    replicate (Z.to_nat distanceFromCurr) (SkipDelim (delimInner g))
  else if pmDistanceBefore <=? pmDistanceAfter then
    let nearbyPM := Z.quot neededAttr (policy g) in
    LoadPM (nearbyPM - 1) :: replicate (Z.to_nat pmDistanceBefore) (SkipDelim (delimInner g))
  else
    let nearbyPM := Z.quot neededAttr (policy g) + 1 in
    LoadPM (nearbyPM - 1) :: replicate (Z.to_nat pmDistanceAfter) (SkipBackwards (delimInner g)).

Fixpoint gen_pm (E : env (F := F) (V := V)) (g : CSVPlugin) (tid : RecordAttribute) (ws : list RecordAttribute) (currAttr : Z) : res (list instr) :=
  match ws with
  | [] => Ok []
  | a :: ws' =>
      do found <- cached E g tid a;
      match found with
      | Some info => do code <- gen_pm E g tid ws' currAttr; Ok (ReadCache a info :: code)
      | None =>
          check negb (policy g =? 0) else Undefined;
          let neededAttr := attrNo a - 1 in
          do _ <- readField g (type a);
          do code <- gen_pm E g tid ws' (neededAttr + 1);
          Ok (gen_move g currAttr neededAttr ++ ReadField a :: code)
      end
  end.

(** ** Running the code *)

(** The position, the entries of the map, and the fields read so far, the last first. *)
Record line : Type := mk_line { cur_pos : Z; entries : list (option Z); fields_read : list (RecordAttribute * (V * V)) }.

(** The entry [pm[lineCtr][col]]. *)
Definition entry_index (stride lineCtr col : Z) : Z := lineCtr * stride + col.

Definition exec (g : CSVPlugin) (fuel : nat) (buf : str) (fsize stride lineCtr newline : Z) (i : instr) (s : line) : res line :=
  match i with
  | SkipDelim d => do p <- skipDelimLLVM buf fuel d (cur_pos s); Ok (mk_line p (entries s) (fields_read s))
  | SkipBackwards d => do p <- skipDelimBackwardsLLVM buf fuel d (cur_pos s); Ok (mk_line p (entries s) (fields_read s))
  | StorePM col =>
      let k := entry_index stride lineCtr col in
      check (0 <=? k) && (k <? Z.of_nat (length (entries s))) else Undefined;
      Ok (mk_line (cur_pos s) (<[Z.to_nat k := Some (swrap 16 (cur_pos s - newline))]> (entries s)) (fields_read s))
  | LoadPM col =>
      let k := entry_index stride lineCtr col in
      check 0 <=? k else Undefined;
      do offset <- of_option Undefined (mjoin (entries s !! Z.to_nat k));
      Ok (mk_line (newline + offset) (entries s) (fields_read s))
  | ReadField a =>
      do read <- readField g (type a);
      do (v, p) <- read fuel buf fsize (cur_pos s);
      Ok (mk_line p (entries s) ((a, v) :: fields_read s))
  | ReadCache a info =>
      Ok (mk_line (cur_pos s) (entries s) ((a, notNull (cacheElem info (ConstInt 32 lineCtr))) :: fields_read s))
  end.

Definition run (g : CSVPlugin) (fuel : nat) (buf : str) (fsize stride lineCtr newline : Z) (code : list instr) (s : line) : res line :=
  rfoldM (λ s i, exec g fuel buf fsize stride lineCtr newline i s) s code.

(** The bindings the parent consumes; a tuple is identified by the number of its line. *)
Definition bind_fields (g : CSVPlugin) (lineCtr : Z) (vs : list (RecordAttribute * (V * V))) : res (list (RecordAttribute * PVM)) :=
  do tupleIdentifier <- oid_attr g;
  rfoldM (λ m x, StdMap.assign (λ x y, Ok (attr_lt x y)) m x.1 (mk_mem (CreateSlot x.2.1) x.2.2)) []
    ((tupleIdentifier, notNull (ConstInt 32 lineCtr)) :: vs).

(** ** The scans *)

Abbreviation tuples := (list (list (RecordAttribute * PVM))).

(** The loop over a file: empty lines are skipped; a line starts with a newline or a carriage
    return to be empty. *)
Fixpoint populate_loop (g : CSVPlugin) (fuel : nat) (buf : str) (fsize : Z) (code : list instr) (n : nat) (pos lineCtr : Z) (m : pmCSV)
    : res (tuples * pmCSV) :=
  if pos <? fsize then
    match n with
    | O => Err Blocked
    | S n =>
        do c <- load buf pos;
        if (c =? delimEnd) || (c =? CR) then
          do pos' <- skipDelimLLVM buf fuel delimEnd pos;
          populate_loop g fuel buf fsize code n pos' lineCtr m
        else
          check (0 <=? lineCtr) && (lineCtr <? Z.of_nat (length (newlines m))) else Undefined;
          let nls := <[Z.to_nat lineCtr := Some pos]> (newlines m) in
          do s <- run g fuel buf fsize (pmFields m) lineCtr pos code (mk_line pos (offsets m) []);
          do t <- bind_fields g lineCtr (reverse (fields_read s));
          do (ts, m') <- populate_loop g fuel buf fsize code n (cur_pos s) (swrap 32 (lineCtr + 1)) (mk_pm (pmFields m) nls (entries s));
          Ok (t :: ts, m')
    end
  else Ok ([], m).

(** The loop over the map. *)
Fixpoint pm_loop (g : CSVPlugin) (fuel : nat) (buf : str) (fsize : Z) (code : list instr) (n : nat) (lineCtr : Z) (m : pmCSV) : res tuples :=
  if lineCtr <? swrap 32 (lines g) then
    match n with
    | O => Err Blocked
    | S n =>
        check 0 <=? lineCtr else Undefined;
        do newline <- of_option Undefined (mjoin (newlines m !! Z.to_nat lineCtr));
        do s <- run g fuel buf fsize (pmFields m) lineCtr newline code (mk_line newline (offsets m) []);
        do t <- bind_fields g lineCtr (reverse (fields_read s));
        do ts <- pm_loop g fuel buf fsize code n (swrap 32 (lineCtr + 1)) m;
        Ok (t :: ts)
    end
  else Ok [].

(** [init]: the file is mapped and the header skipped. *)
Definition init (g : CSVPlugin) (fuel : nat) : res (str * Z * Z) :=
  do buf <- match file g with Some f => Csv.init f | None => Ok [] end;
  let fsize := Z.of_nat (length (default [] (file g))) in
  do pos <- (if hasHeader g then skipDelimLLVM buf fuel delimEnd 0 else Ok 0);
  Ok (buf, fsize, pos).

(** [wantedFields] is emptied as the code is generated. *)
Definition set_wanted (g : CSVPlugin) (ws : list RecordAttribute) : CSVPlugin :=
  mk_csv (fname g) (file g) (rec g) ws (stringBrackets g) (delimInner g) (lines g) (policy g) (hasPM g) (pm g) (hasHeader g).

Definition scanAndPopulatePM (g : CSVPlugin) (fuel : nat) (w : world (F := F) (V := V)) : res (tuples * CSVPlugin * world (F := F) (V := V)) :=
  do (buf, fsize, start) <- init g fuel;
  check negb (policy g =? 0) else Undefined;
  do (code, rest) <- gen_populate g;
  do m <- of_option Undefined (get_pm w (pm g));
  do (ts, m') <- populate_loop g fuel buf fsize code fuel start 0 m;
  Ok (ts, set_wanted g rest, set_pm w (pm g) m').

Definition scanPM (E : env (F := F) (V := V)) (g : CSVPlugin) (fuel : nat) (w : world (F := F) (V := V)) : res tuples :=
  do (buf, fsize, _) <- init g fuel;
  do tid <- oid_attr g;
  do code <- gen_pm E g tid (wantedFields g) 0;
  do m <- of_option Undefined (get_pm w (pm g));
  pm_loop g fuel buf fsize code (Z.to_nat (swrap 32 (lines g))) 0 m.

Definition generate (E : env (F := F) (V := V)) (g : CSVPlugin) (fuel : nat) (w : world (F := F) (V := V))
    : res (tuples * CSVPlugin * world (F := F) (V := V)) :=
  if hasPM g then do ts <- scanPM E g fuel w; Ok (ts, g, w) else scanAndPopulatePM g fuel w.

(** ** What expressions ask the plug-in for *)

Definition pm_readPath (g : CSVPlugin) (m : list (RecordAttribute * PVM)) (pathVar : string) : res PVM :=
  do tmpKey <- RecordAttribute_oid (fname g) pathVar IntType;
  of_option Throw (find_binding (Csv.state_of (F := F) m) tmpKey).

Definition pm_readCachedValue (g : CSVPlugin) (m : list (RecordAttribute * PVM)) (info : CachingService.CacheInfo) : res PV :=
  do tupleIdentifier <- oid_attr g;
  do mem_oid <- of_option Throw (find_binding (Csv.state_of (F := F) m) tupleIdentifier);
  let val_oid := CreateLoad (mem mem_oid) in
  Ok (mk_pv (CreateLoad (CreateSlot (cacheElem info val_oid))) (ConstInt 1 0)).

Definition pm_hashValue (mem_value : PVM) (t : ExpressionType) : res PV :=
  Hash.hashPrimitive (mk_pv (CreateLoad (mem mem_value)) (mem_isNull mem_value)) (ExprTypes.getTypeID t).

Definition pm_hashValueEager (v : PV) (t : ExpressionType) : res PV :=
  pm_hashValue (mk_mem (CreateSlot (Expressions.value v)) (isNull v)) t.

Definition pm_plugin (g : CSVPlugin) (m : list (RecordAttribute * PVM)) : Plugin (V := V) :=
  mk_plugin IntType (λ _ _ pathVar _, pm_readPath g m pathVar) (λ mem_value _, Ok mem_value) (pm_readCachedValue g m)
    pm_hashValue pm_hashValueEager.

(** ** Output *)

(** The calls of runtime functions that print a value, with the values they are given; the file name and
    the dictionary of a string are constants. *)
Definition COMMA : Z := 44.

Fixpoint flushPrimitive (t : ExpressionType) (val_attr : V) : res (list (string * list V)) :=
  match t with
  | BoolType => Ok [("flushBoolean", [val_attr])]
  | StringType => Ok [("flushStringObj", [val_attr])]
  | FloatType => Ok [("flushDouble", [val_attr])]
  | IntType => Ok [("flushInt", [val_attr])]
  | Int64Type => Ok [("flushInt64", [val_attr])]
  | DateType => Ok [("flushDate", [val_attr])]
  | DStringType _ => Ok [("flushDString", [val_attr])]
  | BagType _ => Ok [("flushIntDequeAsBag", [val_attr])]
  | BlockType _ => Ok [("flushPtr", [val_attr])]
  | RecordType attrs =>
      (fix go (i : nat) (l : list (Attribute ExpressionType)) : res (list (string * list V)) :=
        match l with
        | [] => Ok []
        | a :: l' =>
            do c <- flushPrimitive (type a) (CreateLoad (CreateSlot (CreateExtractValue val_attr i)));
            do r <- go (S i) l';
            Ok (c ++ match l' with [] => [] | _ => [("flushChar"%string, [ConstInt 8 COMMA])] end ++ r)%list
        end) 0%nat attrs
  | _ => Err Throw
  end%string.

Definition flushValue (mem_value : PVM) (t : ExpressionType) : res (list (string * list V)) := flushPrimitive t (CreateLoad (mem mem_value)).

Definition flushValueEager (v : PV) (t : ExpressionType) : res (list (string * list V)) :=
  flushValue (mk_mem (CreateSlot (Expressions.value v)) (isNull v)) t.

Definition getValueSize (mem_value : PVM) (t : ExpressionType) : res Z :=
  match ExprTypes.getTypeID t with
  | BOOL | INT | FLOAT | STRING =>
      match vtype (mem mem_value) with
      | TPtr (TInt w) => Ok ((w + 7) / 8)
      | TPtr TDouble => Ok 8
      | TPtr (TStruct _) => Ok 16
      | _ => Err Undefined
      end
  | _ => Err Throw
  end.

(** Tuples end with a newline, the fields of a nested one with a comma. *)
Definition flushDelim (depth : Z) : list (string * list V) :=
  [("flushChar"%string, [ConstInt 8 (if depth =? 0 then NL else COMMA)])].

End plugin.

(** ** Lines of text *)

(** The fields of a line. *)
Fixpoint line_text (d : Z) (fields : list str) : str :=
  match fields with
  | [] => []
  | f :: fields' => f ++ match fields' with [] => NL | _ => d end :: line_text d fields'
  end.

Definition plain (d : Z) (f : str) : Prop := Forall (λ c, c ≠ d ∧ c ≠ NL) f.

#[export] Instance plain_dec d f : Decision (plain d f).
Proof. unfold plain. apply _. Defined.

(** Where a field starts in its line. *)
Fixpoint col_start (fields : list str) (k : nat) : nat :=
  match k, fields with
  | S k, f :: fields' => S (length f + col_start fields' k)
  | _, _ => 0
  end.

Lemma line_text_length d fields : length (line_text d fields) = col_start fields (length fields).
Proof. induction fields as [| f fields IH]; [done |]. simpl. rewrite length_app. simpl. rewrite IH. lia. Qed.

Lemma col_start_S fields k f : fields !! k = Some f → col_start fields (S k) = S (col_start fields k + length f).
Proof.
  revert k. induction fields as [| g fields IH]; intros [| k] Hk; try done.
  - injection Hk as ->. destruct fields; simpl; lia.
  - change (col_start (g :: fields) (S (S k))) with (S (length g + col_start fields (S k))). rewrite (IH k Hk). simpl. lia.
Qed.

Lemma col_start_mono fields j k : (j <= k)%nat → (col_start fields j <= col_start fields k)%nat.
Proof. revert j k. induction fields as [| f fields IH]; intros [| j] [| k] Hjk; simpl; try lia. specialize (IH j k). lia. Qed.

Lemma col_start_end fields k : (col_start fields k <= col_start fields (length fields))%nat.
Proof. revert k. induction fields as [| f fields IH]; intros [| k]; simpl; try lia. specialize (IH k). lia. Qed.

Lemma pm_load_at pre c post : load (pre ++ c :: post) (Z.of_nat (length pre)) = Ok c.
Proof. unfold load. rewrite (proj2 (Z.leb_le _ _)) by lia. by rewrite Nat2Z.id, list_lookup_middle. Qed.

Lemma pm_skipDelim_ok d f : Forall (λ c, c ≠ d) f → ∀ fuel pre post, (length f < fuel)%nat →
  skipDelimLLVM (pre ++ f ++ d :: post) fuel d (Z.of_nat (length pre)) = Ok (Z.of_nat (length pre + length f) + 1).
Proof.
  induction 1 as [| c f Hc _ IH]; intros [| fuel] pre post Hf; simpl in Hf; try lia; cbn [skipDelimLLVM]; simpl app; rewrite pm_load_at; cbn [rbind].
  - rewrite Z.eqb_refl. simpl. f_equal. lia.
  - rewrite (proj2 (Z.eqb_neq _ _) Hc). cbn [negb].
    specialize (IH fuel (pre ++ [c]) post). rewrite <- app_assoc, length_app in IH. simpl in IH.
    replace (Z.of_nat (length pre) + 1) with (Z.of_nat (length pre + 1)) by lia. rewrite IH by lia. f_equal. simpl. lia.
Qed.

(** Backwards over a field, to the delimiter before it. *)
Lemma skipBwd_ok d f : Forall (λ c, c ≠ d) f → ∀ fuel pre post, (length f < fuel)%nat →
  skipBwd (pre ++ d :: f ++ post) fuel d (Z.of_nat (length pre + length f)) = Ok (Z.of_nat (length pre) + 1).
Proof.
  induction f as [| c f IH] using rev_ind; intros Hf [| fuel] pre post Hl; [lia | | lia |]; cbn [skipBwd].
  - simpl. rewrite Nat.add_0_r, pm_load_at. cbn [rbind]. by rewrite Z.eqb_refl.
  - apply Forall_app in Hf as [Hf Hc%Forall_cons]. destruct Hc as [Hc _]. rewrite length_app in *. simpl in *.
    replace (pre ++ d :: (f ++ [c]) ++ post) with ((pre ++ d :: f) ++ c :: post) by (by rewrite <- !app_assoc).
    replace (Z.of_nat (length pre + (length f + 1))) with (Z.of_nat (length (pre ++ d :: f))) by (rewrite length_app; simpl; lia).
    rewrite pm_load_at. cbn [rbind]. rewrite (proj2 (Z.eqb_neq _ _) Hc). cbn [negb].
    specialize (IH Hf fuel pre (c :: post) ltac:(lia)). rewrite <- app_assoc. simpl app.
    replace (Z.of_nat (length (pre ++ d :: f)) - 1) with (Z.of_nat (length pre + length f)) by (rewrite length_app; simpl; lia). exact IH.
Qed.

Lemma pm_EndCond_in fsize d c pos : c ≠ d ∧ c ≠ NL → pos < fsize → EndCond fsize d c pos = true.
Proof. intros [H1 H2] H3. unfold EndCond. by rewrite (proj2 (Z.eqb_neq _ _) H1), (proj2 (Z.eqb_neq _ _) H2), (proj2 (Z.ltb_lt _ _) H3). Qed.

Lemma pm_EndCond_out fsize d c pos : c = d ∨ c = NL → EndCond fsize d c pos = false.
Proof. unfold EndCond. intros [-> | ->]; by rewrite Z.eqb_refl, ?andb_false_r. Qed.

Lemma pm_getFieldEnd_ok d f e fsize : plain d f → e = d ∨ e = NL → ∀ fuel pre post, (length f < fuel)%nat →
  Z.of_nat (length pre + length f) < fsize →
  getFieldEndLLVM (pre ++ f ++ e :: post) fsize d fuel (Z.of_nat (length pre)) = Ok (Z.of_nat (length pre + length f)).
Proof.
  intros Hp He. induction Hp as [| c f Hc _ IH]; intros [| fuel] pre post Hf Hs; simpl in Hf; try lia; cbn [getFieldEndLLVM]; simpl app; rewrite pm_load_at; cbn [rbind].
  - rewrite pm_EndCond_out by done. f_equal. simpl. lia.
  - simpl in Hs. rewrite pm_EndCond_in by (done || lia).
    specialize (IH fuel (pre ++ [c]) post). rewrite <- app_assoc, length_app in IH. simpl in IH.
    replace (Z.of_nat (length pre) + 1) with (Z.of_nat (length pre + 1)) by lia. rewrite IH by lia. f_equal. simpl. lia.
Qed.

(** [skipLLVM] ends behind the delimiter [getFieldEndLLVM] ends at. *)
Lemma skip_after buf fsize d fuel : ∀ pos, skipLLVM buf fsize d fuel pos = do p <- getFieldEndLLVM buf fsize d fuel pos; Ok (p + 1).
Proof.
  induction fuel as [| fuel IH]; intros pos; [done |]. cbn [skipLLVM getFieldEndLLVM]. destruct (load buf pos) as [c | e]; [| done].
  cbn [rbind]. by destruct (EndCond fsize d c pos).
Qed.

(** The position of a field of the line at [base]. *)
Definition here (base : Z) (fields : list str) (k : nat) : Z := base + Z.of_nat (col_start fields k).

(** A buffer has a line at a position. *)
Definition line_at (d : Z) (buf : str) (base : Z) (fields : list str) : Prop :=
  ∃ pre post, buf = pre ++ line_text d fields ++ post ∧ base = Z.of_nat (length pre).

Definition sep (d : Z) (fields : list str) (k : nat) : Z := if Nat.eqb (S k) (length fields) then NL else d.

Lemma line_split d buf base fields k f : line_at d buf base fields → fields !! k = Some f →
  ∃ p q, buf = p ++ f ++ sep d fields k :: q ∧ Z.of_nat (length p) = here base fields k ∧ (k ≠ 0%nat → ∃ p', p = p' ++ [d]).
Proof.
  intros (pre & post & -> & ->) Hk.
  assert (∃ p q, pre ++ line_text d fields ++ post = p ++ f ++ sep d fields k :: q ∧ Z.of_nat (length p) = here (Z.of_nat (length pre)) fields k ∧
    (k = 0%nat → p = pre) ∧ (k ≠ 0%nat → ∃ p', p = p' ++ [d])) as (p & q & E & Hl & _ & Hp); [| by exists p, q].
  revert pre k Hk. induction fields as [| g fields IH]; intros pre k Hk; [done |]. destruct k as [| k].
  - injection Hk as ->. exists pre, (line_text d fields ++ post). unfold here. simpl. split; [| split; [lia | done]].
    rewrite <- app_assoc. f_equal. f_equal. simpl. f_equal. unfold sep. destruct fields; done.
  - destruct (IH (pre ++ g ++ [d]) k Hk) as (p & q & E & Hl & H0 & Hp).
    assert (match fields with [] => NL | _ => d end = d) as Ed by (by destruct fields).
    exists p, q. split; [| split; [| split; [done |]]].
    + cbn [line_text]. rewrite Ed. rewrite <- !app_assoc in E. simpl in E. rewrite <- app_assoc. simpl. rewrite E.
      unfold sep. simpl. by destruct (length fields).
    + rewrite Hl. unfold here. rewrite !length_app. simpl. lia.
    + intros _. destruct k as [| k]; [| by apply Hp]. exists (pre ++ g). rewrite H0 by done. by rewrite app_assoc.
Qed.

Lemma line_drop d buf base fields k : line_at d buf base fields → (k <= length fields)%nat →
  ∃ p q, buf = p ++ line_text d (drop k fields) ++ q ∧ Z.of_nat (length p) = here base fields k.
Proof.
  intros (pre & post & -> & ->). revert pre k. induction fields as [| f fields IH]; intros pre [| k] Hk; simpl in Hk; try lia;
    [by exists pre, post; rewrite drop_0; unfold here; simpl; split; [| lia] .. |].
  destruct (IH (pre ++ f ++ [match fields with [] => NL | _ => d end]) k ltac:(lia)) as (p & q & E & Hp).
  exists p, q. split.
  - cbn [line_text drop]. rewrite <- E, <- !app_assoc. simpl. by rewrite <- ?app_assoc.
  - rewrite Hp. unfold here. rewrite !length_app. simpl. lia.
Qed.

Lemma col_start_drop fields k : (k <= length fields)%nat →
  (col_start fields k + col_start (drop k fields) (length fields - k) = col_start fields (length fields))%nat.
Proof.
  revert k. induction fields as [| f fields IH]; intros [| k] Hk; simpl in Hk; try lia; [done .. |].
  specialize (IH k ltac:(lia)). simpl. lia.
Qed.

Lemma line_text_end d l : d ≠ NL → l ≠ [] → Forall (plain d) l → ∃ body, line_text d l = body ++ [NL] ∧ Forall (λ c, c ≠ NL) body.
Proof.
  intros Hd Hne Hp. induction Hp as [| f l Hf Hl IH]; [done |].
  assert (Forall (λ c, c ≠ NL) f) as Hf' by (eapply Forall_impl; [exact Hf | by intros c [_ ?]]).
  destruct l as [| g l]; [by exists f |]. destruct IH as (body & E & Hb); [done |]. exists (f ++ d :: body). split.
  - change (line_text d (f :: g :: l)) with (f ++ d :: line_text d (g :: l)). rewrite E, <- app_assoc. done.
  - apply Forall_app. split; [done |]. by constructor.
Qed.

Lemma take_wanted_none i ws n : Csv.ascending i n ws → take_wanted i ws = None.
Proof.
  assert (Forall (λ a, i < attrNo a) ws → take_wanted i ws = None) as H1.
  { induction 1 as [| a ws Ha _ IH]; [done |]. simpl. by rewrite (proj2 (Z.eqb_neq _ _)), IH by lia. }
  intros Hasc. apply H1. clear H1. revert Hasc. generalize i. induction ws as [| a ws IH]; intros j Hasc; [constructor |]. destruct Hasc as [Ha Hasc].
  constructor; [lia |]. eapply Forall_impl; [apply (IH _ Hasc) |]. intros b Hb. cbv beta in *. lia.
Qed.

(** Past the next field, which is not wanted. *)
Lemma ascending_next i n (a : RecordAttribute) ws : Csv.ascending i n (a :: ws) → i + 1 ≠ attrNo a → Csv.ascending (i + 1) n (a :: ws).
Proof. simpl. intros [Ha Hasc] Hne. split; [lia | done]. Qed.

(** ** The instructions on a line *)

Section row.
Context {F V : Type} `{FloatOps F, IRBuilder F V}.
Context (atof : str → F) (parse_time : str → option Z) (bufPtr : V) (cacheElem : CachingService.CacheInfo → V → V).

(** The conversion of a field by its type. *)
Definition conversion (g : CSVPlugin) (t : ExpressionType) (buf : str) (start index : Z) : res (V * V) :=
  match ExprTypes.getTypeID t with
  | BOOL => convertBool buf start index
  | STRING => Ok (convertString bufPtr (stringBrackets g) start index)
  | FLOAT => Ok (convertFloat atof buf start)
  | INT => convertInt buf start index
  | DATE => convertDate parse_time buf start index
  | _ => Err Throw
  end.

Context (g : CSVPlugin) (buf : str) (base fsize : Z) (fields : list str) (fuel : nat).
Hypothesis (Hline : line_at (delimInner g) buf base fields) (Hplain : Forall (plain (delimInner g)) fields).
Hypothesis (Hfuel : (length (line_text (delimInner g) fields) < fuel)%nat).
Hypothesis (Hsize : base + Z.of_nat (length (line_text (delimInner g) fields)) <= fsize).

Abbreviation at_col := (here base fields).
Abbreviation reader_of := (CsvPm.readField (F := F) atof parse_time bufPtr g).

Lemma field_fits k f : fields !! k = Some f →
  (col_start fields k + length f < length (line_text (delimInner g) fields))%nat ∧ at_col (S k) = at_col k + Z.of_nat (length f) + 1.
Proof.
  intros Hk. unfold here. rewrite line_text_length, (col_start_S _ _ _ Hk). split; [| lia].
  pose proof (col_start_end fields (S k)) as Hm. rewrite (col_start_S _ _ _ Hk) in Hm. lia.
Qed.

Lemma sep_cases k : sep (delimInner g) fields k = delimInner g ∨ sep (delimInner g) fields k = NL.
Proof. unfold sep. destruct (Nat.eqb _ _); auto. Qed.

Lemma skip_inner_ok k : (S k < length fields)%nat → skipDelimLLVM buf fuel (delimInner g) (at_col k) = Ok (at_col (S k)).
Proof.
  intros Hk. destruct (lookup_lt_is_Some_2 fields k ltac:(lia)) as [f Hf]. destruct (field_fits k f Hf) as [Hl ->].
  destruct (line_split _ _ _ _ _ _ Hline Hf) as (p & q & E & Hp & _). subst buf. rewrite <- Hp.
  unfold sep. rewrite (proj2 (Nat.eqb_neq _ _)) by lia.
  rewrite pm_skipDelim_ok; [f_equal; lia | | lia].
  eapply Forall_impl; [exact (Forall_lookup_1 _ _ _ _ Hplain Hf) | by intros c [? _]].
Qed.

Lemma skip_back_ok k : k ≠ 0%nat → (S k < length fields)%nat →
  skipDelimBackwardsLLVM buf fuel (delimInner g) (at_col (S k)) = Ok (at_col k).
Proof.
  intros Hk0 Hk. destruct (lookup_lt_is_Some_2 fields k ltac:(lia)) as [f Hf]. destruct (field_fits k f Hf) as [Hl ->].
  destruct (line_split _ _ _ _ _ _ Hline Hf) as (p & q & E & Hp & Hd). destruct (Hd Hk0) as (p' & ->). rewrite length_app in Hp. simpl in Hp.
  subst buf. rewrite <- app_assoc. simpl app. unfold skipDelimBackwardsLLVM. rewrite <- Hp.
  replace (Z.of_nat (length p' + 1) + Z.of_nat (length f) + 1 - 2) with (Z.of_nat (length p' + length f)) by lia.
  rewrite skipBwd_ok; [f_equal; lia | | lia].
  eapply Forall_impl; [exact (Forall_lookup_1 _ _ _ _ Hplain Hf) | by intros c [? _]].
Qed.

(** Behind the last field, from any field. *)
Lemma skip_end_ok k : delimInner g ≠ NL → (k < length fields)%nat → skipDelimLLVM buf fuel NL (at_col k) = Ok (at_col (length fields)).
Proof.
  intros Hd Hk. destruct (line_drop _ _ _ _ k Hline ltac:(lia)) as (p & q & E & Hp).
  destruct (line_text_end (delimInner g) (drop k fields) Hd) as (body & Eb & Hb).
  { intros C. apply (f_equal length) in C. rewrite length_drop in C. simpl in C. lia. }
  { by apply Forall_drop. }
  pose proof (col_start_drop fields k ltac:(lia)) as Hc. pose proof (line_text_length (delimInner g) (drop k fields)) as Hl.
  rewrite Eb, length_app, length_drop in Hl. simpl in Hl. rewrite line_text_length in Hfuel.
  subst buf. rewrite Eb, <- app_assoc. simpl app. rewrite <- Hp. rewrite pm_skipDelim_ok by (done || lia).
  f_equal. unfold here in *. lia.
Qed.

(** A field is converted in its place, and the position is behind its delimiter. *)
Lemma pm_read_field_ok k f t read : fields !! k = Some f → reader_of t = Ok read →
  read fuel buf fsize (at_col k) = do v <- conversion g t buf (at_col k) (at_col k + Z.of_nat (length f)); Ok (v, at_col (S k)).
Proof.
  intros Hf Hr. destruct (field_fits k f Hf) as [Hl ->]. pose proof (Forall_lookup_1 _ _ _ _ Hplain Hf) as Hp.
  assert (getFieldEndLLVM buf fsize (delimInner g) fuel (at_col k) = Ok (at_col k + Z.of_nat (length f))) as He.
  { destruct (line_split _ _ _ _ _ _ Hline Hf) as (p & q & E & Hlen & _). subst buf. unfold here in *. rewrite <- Hlen.
    rewrite pm_getFieldEnd_ok; [f_equal; lia | done | apply sep_cases | lia | lia]. }
  unfold CsvPm.readField, conversion in *. destruct (ExprTypes.getTypeID t); try discriminate Hr; injection Hr as <-;
    unfold readAsIntLLVM, readAsStringLLVM, readAsDateLLVM, readAsBooleanLLVM, readAsFloatLLVM; rewrite ?skip_after, He; cbn [rbind]; done.
Qed.

(** ** Code on a line *)

Context (stride lineCtr : Z).

Abbreviation run_line := (CsvPm.run (F := F) atof parse_time bufPtr cacheElem g fuel buf fsize stride lineCtr base).

Lemma run_app c1 c2 s : run_line (c1 ++ c2) s = do s' <- run_line c1 s; run_line c2 s'.
Proof. apply rfoldM_app. Qed.

Lemma run_skips m k es vs : (k + m < length fields)%nat →
  run_line (replicate m (SkipDelim (delimInner g))) (mk_line (at_col k) es vs) = Ok (mk_line (at_col (k + m)) es vs).
Proof.
  revert k. induction m as [| m IH]; intros k Hk; [by rewrite Nat.add_0_r |]. unfold CsvPm.run in *. simpl.
  rewrite skip_inner_ok by lia. cbn [rbind]. rewrite IH by lia. do 3 f_equal. lia.
Qed.

Lemma run_backs m k es vs : (m < k)%nat → (k < length fields)%nat →
  run_line (replicate m (SkipBackwards (delimInner g))) (mk_line (at_col k) es vs) = Ok (mk_line (at_col (k - m)) es vs).
Proof.
  revert k. induction m as [| m IH]; intros k Hm Hk; [by rewrite Nat.sub_0_r |]. unfold CsvPm.run in *. simpl.
  destruct k as [| k]; [lia |]. rewrite skip_back_ok by lia. cbn [rbind]. rewrite IH by lia. done.
Qed.

Lemma run_read k f a es vs : fields !! k = Some f → is_ok (reader_of (type a)) = true →
  run_line [ReadField a] (mk_line (at_col k) es vs) =
    do v <- conversion g (type a) buf (at_col k) (at_col k + Z.of_nat (length f)); Ok (mk_line (at_col (S k)) es ((a, v) :: vs)).
Proof.
  intros Hf Hr. unfold CsvPm.run. simpl. destruct (reader_of (type a)) as [read | e] eqn:E; [| done]. cbn [rbind].
  rewrite (pm_read_field_ok k f _ _ Hf E). by destruct (conversion _ _ _ _ _).
Qed.

(** The entries of the line are filled in. *)
Definition row_mapped (P : nat) (es : list (option Z)) : Prop :=
  ∀ c, (S c * P < length fields)%nat →
    es !! Z.to_nat (entry_index stride lineCtr (Z.of_nat c)) = Some (Some (Z.of_nat (col_start fields (S c * P)))).

(** A field can be reached through the map: from the left, or from an entry to the right that exists. *)
Definition reachable (P n k : nat) : bool := Nat.leb (2 * (k mod P)) P || Nat.ltb (S (k / P) * P) n.

Context (P : nat).
Hypothesis (HP : policy g = Z.of_nat P) (Hpos : (0 < P)%nat) (Hindex : 0 <= stride ∧ 0 <= lineCtr).

Lemma run_load c es vs pos : (S c * P < length fields)%nat → row_mapped P es →
  run_line [LoadPM (Z.of_nat c)] (mk_line pos es vs) = Ok (mk_line (at_col (S c * P)) es vs).
Proof.
  intros Hc Hm. unfold CsvPm.run. simpl. specialize (Hm c Hc). unfold entry_index in *.
  rewrite (proj2 (Z.leb_le _ _)) by nia. rewrite Hm. done.
Qed.

Lemma run_move cur need es vs : (cur <= need)%nat → (need < length fields)%nat → reachable P (length fields) need = true → row_mapped P es →
  run_line (gen_move g (Z.of_nat cur) (Z.of_nat need)) (mk_line (at_col cur) es vs) = Ok (mk_line (at_col need) es vs).
Proof.
  intros Hle Hlt Hreach Hm. unfold gen_move. rewrite HP.
  rewrite Z.rem_mod_nonneg, Z.quot_div_nonneg by lia. rewrite <- Nat2Z.inj_mod, <- Nat2Z.inj_div.
  pose proof (Nat.div_mod need P ltac:(lia)) as Hdm. pose proof (Nat.mod_upper_bound need P ltac:(lia)) as Hub.
  unfold reachable in Hreach. set (q := (need / P)%nat) in *. set (m := (need mod P)%nat) in *.
  destruct (Z.leb_spec (Z.of_nat need - Z.of_nat cur) (Z.of_nat m)) as [H1 | H1];
    destruct (Z.leb_spec (Z.of_nat need - Z.of_nat cur) (Z.of_nat P - Z.of_nat m)) as [H2 | H2]; cbn [andb].
  1: { replace (Z.to_nat (Z.of_nat need - Z.of_nat cur)) with (need - cur)%nat by lia. rewrite run_skips by lia. do 3 f_equal. lia. }
  all: destruct (Z.leb_spec (Z.of_nat m) (Z.of_nat P - Z.of_nat m)) as [H3 | H3].
  1, 3, 5: destruct q as [| q]; [exfalso; nia |];
    replace (Z.of_nat (S q) - 1) with (Z.of_nat q) by lia; rewrite Nat2Z.id;
    change (LoadPM ?c :: ?l) with ([LoadPM c] ++ l); rewrite run_app, run_load by (done || nia); cbn [rbind];
    rewrite run_skips by nia; do 3 f_equal; nia.
  all: apply orb_true_iff in Hreach as [C%Nat.leb_le | Hr%Nat.ltb_lt]; [lia |];
    replace (Z.of_nat q + 1 - 1) with (Z.of_nat q) by lia; replace (Z.to_nat (Z.of_nat P - Z.of_nat m)) with (P - m)%nat by lia;
    change (LoadPM ?c :: ?l) with ([LoadPM c] ++ l); rewrite run_app, run_load by (done || nia); cbn [rbind];
    rewrite run_backs by nia; do 3 f_equal; nia.
Qed.

(** What a wanted field is bound to: what a cache has for the line, or the field of the line, converted. *)
Definition source (cch : RecordAttribute → option CachingService.CacheInfo) (a : RecordAttribute) : res (RecordAttribute * (V * V)) :=
  match cch a with
  | Some info => Ok (a, notNull (F := F) (cacheElem info (ConstInt 32 lineCtr)))
  | None =>
      do f <- of_option Undefined (Csv.field_of fields a);
      let start := at_col (Z.to_nat (attrNo a - 1)) in
      do v <- conversion g (type a) buf start (start + Z.of_nat (length f));
      Ok (a, v)
  end.

Lemma source_field cch a f : cch a = None → fields !! Z.to_nat (attrNo a - 1) = Some f →
  let start := at_col (Z.to_nat (attrNo a - 1)) in
  source cch a = do v <- conversion g (type a) buf start (start + Z.of_nat (length f)); Ok (a, v).
Proof. intros Hc Hf. unfold source. rewrite Hc. unfold Csv.field_of. by rewrite Hf. Qed.

(** The attributes are of the schema. *)
Lemma field_there (a : RecordAttribute) n : 0 < attrNo a <= Z.of_nat n → length fields = n →
  ∃ f, fields !! Z.to_nat (attrNo a - 1) = Some f.
Proof. intros Ha <-. apply lookup_lt_is_Some_2. lia. Qed.

(** A scan through the map reads the fields of the line. *)
Lemma run_pm E tid cch ws : Forall (λ a, cached E g tid a = Ok (cch a) ∧ is_ok (reader_of (type a)) = true ∧
    reachable P (length fields) (Z.to_nat (attrNo a - 1)) = true) ws →
  ∀ cur, Csv.ascending (Z.of_nat cur) (Z.of_nat (length fields)) ws →
  ∃ code, gen_pm (F := F) atof parse_time bufPtr E g tid ws (Z.of_nat cur) = Ok code ∧
    ∀ es, row_mapped P es → ∃ cur', ∀ vs, run_line code (mk_line (at_col cur) es vs) =
      do vs' <- rmapM (source cch) ws; Ok (mk_line (at_col cur') es (reverse vs' ++ vs)).
Proof.
  induction 1 as [| a ws (Hc & Hr & Hreach) _ IH]; intros cur Hasc.
  - exists []. split; [done |]. intros es _. exists cur. done.
  - destruct Hasc as [Ha Hasc]. cbn [gen_pm]. rewrite Hc. cbn [rbind]. destruct (cch a) as [info |] eqn:Ec.
    + destruct (IH cur) as (code & -> & Hrun). { clear - Ha Hasc. destruct ws as [| b ws]; [done |]. destruct Hasc as [Hb Hasc]. split; [lia | done]. }
      exists (ReadCache a info :: code). split; [done |]. intros es Hes. destruct (Hrun es Hes) as (cur' & Hc'). exists cur'. intros vs.
      change (ReadCache a info :: code) with ([ReadCache a info] ++ code). rewrite run_app. unfold CsvPm.run at 1. simpl rfoldM. cbn [rbind].
      rewrite Hc'. cbn [rmapM]. assert (source cch a = Ok (a, notNull (F := F) (cacheElem info (ConstInt 32 lineCtr)))) as -> by (unfold source; by rewrite Ec).
      cbn [rbind]. destruct (rmapM (source cch) ws) as [vs' | e]; [| done].
      cbn [rbind]. by rewrite reverse_cons, <- app_assoc.
    + rewrite HP, (proj2 (Z.eqb_neq _ _)) by lia. cbn [negb]. destruct (reader_of (type a)) as [read | e] eqn:Er; [| done]. cbn [rbind].
      destruct (field_there a (length fields) ltac:(lia) eq_refl) as [f Hf].
      set (need := Z.to_nat (attrNo a - 1)) in *. assert (attrNo a - 1 = Z.of_nat need) as En by lia. rewrite En.
      destruct (IH (S need)) as (code & E1 & Hrun). { by replace (Z.of_nat (S need)) with (attrNo a) by lia. }
      replace (Z.of_nat need + 1) with (Z.of_nat (S need)) by lia. rewrite E1. cbn [rbind].
      eexists. split; [reflexivity |]. intros es Hes. destruct (Hrun es Hes) as (cur' & Hc'). exists cur'. intros vs.
      rewrite run_app, run_move by (done || lia || (by eapply lookup_lt_Some)). cbn [rbind].
      change (ReadField a :: code) with ([ReadField a] ++ code). rewrite run_app, (run_read need f) by (done || by rewrite Er).
      cbn [rmapM]. rewrite (source_field cch a f Ec Hf). fold need.
      destruct (conversion g (type a) buf _ _) as [v | e]; [| done]. cbn [rbind]. rewrite Hc'.
      destruct (rmapM (source cch) ws) as [vs' | e]; [| done]. cbn [rbind]. by rewrite reverse_cons, <- app_assoc.
Qed.

(** *** The first scan *)

Hypothesis (Hdelim : delimInner g ≠ NL) (Hrec : length (rec g) = length fields).
Hypothesis (Hoff : Z.of_nat (length (line_text (delimInner g) fields)) <= 2 ^ 15).

Abbreviation idx c := (Z.to_nat (entry_index stride lineCtr (Z.of_nat c))).

(** The entries of the line from [ctr] on are written, and no others. *)
Definition written (ctr : nat) (es es' : list (option Z)) : Prop :=
  length es' = length es ∧
  (∀ c, (ctr <= c)%nat → (S c * P < length fields)%nat → es' !! idx c = Some (Some (Z.of_nat (col_start fields (S c * P))))) ∧
  (∀ j, (∀ c, (ctr <= c)%nat → (S c * P < length fields)%nat → j ≠ idx c) → es' !! j = es !! j).

(** The map has room for the entries of the line. *)
Definition room (es : list (option Z)) : Prop := ∀ c, (S c * P < length fields)%nat → (idx c < length es)%nat.

Lemma run_store ctr es vs : (S ctr * P < length fields)%nat → room es →
  run_line [StorePM (Z.of_nat ctr)] (mk_line (at_col (S ctr * P)) es vs) =
    Ok (mk_line (at_col (S ctr * P)) (<[idx ctr := Some (Z.of_nat (col_start fields (S ctr * P)))]> es) vs).
Proof.
  intros Hc Hroom. unfold CsvPm.run. simpl rfoldM. specialize (Hroom ctr Hc). unfold entry_index in *.
  rewrite (proj2 (Z.leb_le _ _)), (proj2 (Z.ltb_lt _ _)) by nia. cbn [andb rbind]. unfold here. rewrite Z.add_simpl_l.
  pose proof (lookup_lt_is_Some_2 fields _ Hc) as [f Hf]. destruct (field_fits _ _ Hf) as [Hl _].
  by rewrite swrap_id by (unfold in_signed; simpl in *; lia).
Qed.

Lemma written_refl ctr es : (length fields <= S ctr * P)%nat → written ctr es es.
Proof. intros Hc. split; [done |]. split; [intros c H1 H2; exfalso; nia | done]. Qed.

Lemma written_store ctr es es' : (S ctr * P < length fields)%nat → room es →
  written (S ctr) (<[idx ctr := Some (Z.of_nat (col_start fields (S ctr * P)))]> es) es' → written ctr es es'.
Proof.
  intros Hc Hroom (Hl & Hin & Hout). rewrite length_insert in Hl. split; [done |].
  assert (∀ c c', (idx c = idx c' → c = c')) as Hinj by (intros c c'; unfold entry_index; nia).
  split.
  - intros c Hcc Hcn. destruct (decide (c = ctr)) as [-> | Hne]; [| apply Hin; [lia | done]].
    rewrite Hout by (intros c' H1 H2 E%Hinj; lia). by rewrite list_lookup_insert_eq by (by apply Hroom).
  - intros j Hj. rewrite Hout by (intros c H1 H2; apply Hj; [lia | done]). apply list_lookup_insert_ne. intros E. by apply (Hj ctr).
Qed.

Lemma room_insert es j x : room es → room (<[j := x]> es).
Proof. intros Hr c Hc. rewrite length_insert. by apply Hr. Qed.

(** The multiples of [policy] that are still to come. *)
Definition pm_rest (ctr : nat) : list Z := (λ j, Z.of_nat j * policy g) <$> seq (S ctr) (length fields / P - ctr).

(** The numbers stored so far, at the field [k]. *)
Definition ctr_at (ctr k : nat) : Prop := (ctr = 0 ∨ ctr * P < k)%nat ∧ (k <= S ctr * P)%nat.

Lemma pm_rest_cons ctr : (S ctr * P < length fields)%nat → pm_rest ctr = Z.of_nat (S ctr * P) :: pm_rest (S ctr).
Proof.
  intros Hc. unfold pm_rest. pose proof (Nat.div_le_lower_bound (length fields) P (S ctr) ltac:(lia) ltac:(lia)).
  replace (length fields / P - ctr)%nat with (S (length fields / P - S ctr))%nat by lia. rewrite <- cons_seq, fmap_cons, HP. f_equal. lia.
Qed.

Lemma pm_rest_in ctr k : ctr_at ctr k → (k < length fields)%nat → Z.of_nat k ∈ pm_rest ctr ↔ k = (S ctr * P)%nat.
Proof.
  intros [_ Hk] Hlt. split.
  - unfold pm_rest. rewrite HP. intros (j & E & [Hj _]%elem_of_seq)%list_elem_of_fmap. nia.
  - intros ->. rewrite pm_rest_cons by done. by left.
Qed.

(** The code that stores the entry of a field, if it has one. *)
Lemma store_step ctr k : ctr_at ctr k → (k < length fields)%nat →
  ∃ store ctr', (if bool_decide (Z.of_nat k ∈ pm_rest ctr)
      then ([StorePM (Z.of_nat ctr)], erase_first (Z.of_nat k) (pm_rest ctr), Z.of_nat ctr + 1) else ([], pm_rest ctr, Z.of_nat ctr)) =
      (store, pm_rest ctr', Z.of_nat ctr') ∧ ctr_at ctr' (S k) ∧
    ∀ es, room es → ∃ es1, room es1 ∧ (∀ es', written ctr' es1 es' → written ctr es es') ∧
      ∀ vs, run_line store (mk_line (at_col k) es vs) = Ok (mk_line (at_col k) es1 vs).
Proof.
  intros Hctr Hk. pose proof (pm_rest_in ctr k Hctr Hk) as Hin. destruct (decide (k = S ctr * P)%nat) as [Ek | Ek].
  - rewrite bool_decide_eq_true_2 by tauto. exists [StorePM (Z.of_nat ctr)], (S ctr). rewrite pm_rest_cons by lia. rewrite Ek. cbn [erase_first].
    rewrite Z.eqb_refl. split; [do 2 f_equal; lia |]. split; [split; [right |]; lia |]. intros es Hes.
    eexists. split; [by apply room_insert, Hes |]. split; [intros es'; apply written_store; [lia | done] |].
    intros vs. apply run_store; [lia | done].
  - rewrite bool_decide_eq_false_2 by tauto. exists [], ctr. split; [done |]. split; [destruct Hctr as [[-> | ?] ?]; split; lia |].
    intros es Hes. exists es. done.
Qed.

Definition reads (k ctr : nat) (ws : list RecordAttribute) (code : list instr) : Prop :=
  ∀ es, room es → ∃ es', written ctr es es' ∧ ∀ vs, run_line code (mk_line (at_col k) es vs) =
    do vs' <- rmapM (source (λ _, None)) ws; Ok (mk_line (at_col (length fields)) es' (reverse vs' ++ vs)).

Lemma reads_cons k ctr ctr' got ws store i code :
  (∀ es, room es → ∃ es1, room es1 ∧ (∀ es', written ctr' es1 es' → written ctr es es') ∧
    ∀ vs, run_line store (mk_line (at_col k) es vs) = Ok (mk_line (at_col k) es1 vs)) →
  (∀ es vs, run_line [i] (mk_line (at_col k) es vs) =
    do vs' <- rmapM (source (λ _, None)) got; Ok (mk_line (at_col (S k)) es (reverse vs' ++ vs))) →
  reads (S k) ctr' ws code → reads k ctr (got ++ ws) (store ++ i :: code).
Proof.
  intros Hstore Hi Hcode es Hes. destruct (Hstore es Hes) as (es1 & Hr1 & Hw & Hs). destruct (Hcode es1 Hr1) as (es' & Hw' & Hr').
  exists es'. split; [by apply Hw |]. intros vs. change (i :: code) with ([i] ++ code). rewrite run_app, Hs. cbn [rbind]. rewrite run_app, Hi, rmapM_app.
  destruct (rmapM _ got) as [v | e]; [| done]. cbn [rbind]. rewrite Hr'. destruct (rmapM _ ws) as [vs' | e]; [| done]. cbn [rbind].
  by rewrite reverse_app, <- app_assoc.
Qed.

(** The code of the first scan reads the wanted fields of the line and writes its entries. *)
Lemma run_fields n : ∀ k ctr ws last, (n + k = length fields)%nat → ctr_at ctr k →
  Csv.ascending (Z.of_nat k) (Z.of_nat (length fields)) ws → Forall (λ a, is_ok (reader_of (type a)) = true) ws →
  ∃ code, gen_fields (F := F) atof parse_time bufPtr g n (Z.of_nat k + 1) (pm_rest ctr) ws last (Z.of_nat ctr) = Ok (code, []) ∧ reads k ctr ws code.
Proof.
  induction n as [| n IH]; intros k ctr ws last Hn Hctr Hasc Hread.
  - destruct ws as [| a ws]; [| destruct Hasc; lia]. exists []. split; [done |]. intros es _. exists es.
    split; [apply written_refl; destruct Hctr; lia |]. intros vs. by replace (length fields) with k by lia.
  - cbn [gen_fields]. destruct (bool_decide (pm_rest ctr = []) && bool_decide (ws = []) && (last <? getArgsNo g)) eqn:Eb.
    + apply andb_true_iff in Eb as [[Ep%bool_decide_eq_true ->%bool_decide_eq_true]%andb_true_iff _].
      eexists. split; [reflexivity |]. intros es _. exists es. split.
      { apply written_refl. destruct (decide (S ctr * P < length fields)%nat) as [C |]; [by rewrite pm_rest_cons in Ep | lia]. }
      intros vs. unfold CsvPm.run. simpl. unfold delimEnd. by rewrite skip_end_ok by (done || lia).
    + clear Eb. replace (Z.of_nat k + 1 - 1) with (Z.of_nat k) by lia.
      destruct (store_step ctr k Hctr ltac:(lia)) as (store & ctr' & -> & Hctr' & Hstore).
      replace (Z.of_nat k + 1) with (Z.of_nat (S k)) in * by lia.
      destruct (lookup_lt_is_Some_2 fields k ltac:(lia)) as [f Hf].
      assert ((∃ a ws', ws = a :: ws' ∧ attrNo a = Z.of_nat (S k)) ∨ Csv.ascending (Z.of_nat (S k)) (Z.of_nat (length fields)) ws) as [(a & ws' & -> & Ea) | Hasc'].
      { destruct ws as [| a ws']; [by right |]. destruct (decide (attrNo a = Z.of_nat (S k))); [left; eauto |]. right.
        replace (Z.of_nat (S k)) with (Z.of_nat k + 1) by lia. apply ascending_next; [done | lia]. }
      * cbn [take_wanted]. rewrite Ea, Z.eqb_refl. apply Forall_cons in Hread as [Ha Hread]. destruct Hasc as [_ Hasc]. rewrite Ea in Hasc.
        destruct (reader_of (type a)) as [read | e] eqn:Er; [| done]. cbn [rbind].
        destruct (IH (S k) ctr' ws' (match ws' with b :: _ => attrNo b | [] => Z.of_nat (S k) end)) as (code & -> & Hcode); [lia | done .. |].
        cbn [rbind]. eexists. split; [reflexivity |]. apply (reads_cons k ctr ctr' [a] ws'); [done | | done].
        intros es vs. rewrite (run_read k f) by (done || by rewrite Er). cbn [rmapM].
        assert (Z.to_nat (attrNo a - 1) = k) as En by lia. rewrite (source_field _ a f eq_refl) by (by rewrite En). rewrite En.
        by destruct (conversion g (type a) buf _ _).
      * rewrite (take_wanted_none _ _ _ Hasc').
        destruct (IH (S k) ctr' ws last) as (code & -> & Hcode); [lia | done .. |].
        cbn [rbind]. eexists. split; [reflexivity |]. apply (reads_cons k ctr ctr' [] ws); [done | | done].
        intros es vs. unfold getArgsNo. rewrite Hrec. unfold CsvPm.run. cbn [rfoldM exec rmapM rbind cur_pos entries fields_read]. destruct (Z.eqb_spec (Z.of_nat (S k)) (Z.of_nat (length fields))) as [E | E]; cbn [negb].
        -- unfold delimEnd. rewrite skip_end_ok by (done || lia). cbn [rbind]. by replace (length fields) with (S k) by lia.
        -- by rewrite skip_inner_ok by lia.
Qed.

End row.

(** ** Files *)

(** A file holds rows, and lines that are empty or start with a carriage return. *)
Inductive sheet_line : Type := Blank (s : str) | Row (fields : list str).

Definition sheet_text (d : Z) (l : sheet_line) : str := match l with Blank s => s ++ [NL] | Row fields => line_text d fields end.
Definition text (d : Z) (ls : list sheet_line) : str := concat (sheet_text d <$> ls).

(** The rows with their positions. *)
Fixpoint layout (d : Z) (base : Z) (ls : list sheet_line) : list (Z * list str) :=
  match ls with
  | [] => []
  | Blank s :: ls' => layout d (base + Z.of_nat (length (s ++ [NL]))) ls'
  | Row fields :: ls' => (base, fields) :: layout d (base + Z.of_nat (length (line_text d fields))) ls'
  end.

Definition line_fine (d : Z) (n : nat) (l : sheet_line) : Prop :=
  match l with
  | Blank s => Forall (λ c, c ≠ NL) s ∧ match s with [] => True | c :: _ => c = CR end
  | Row fields =>
      length fields = n ∧ Forall (plain d) fields ∧ match line_text d fields with c :: _ => c ≠ NL ∧ c ≠ CR | [] => False end ∧
      Z.of_nat (length (line_text d fields)) <= 2 ^ 15
  end.

#[export] Instance line_fine_dec d n l : Decision (line_fine d n l).
Proof.
  destruct l as [s | fields]; simpl.
  - destruct s; apply _.
  - destruct (line_text d fields); apply _.
Defined.

Section file.
Context {F V : Type} `{FloatOps F, IRBuilder F V}.
Context (atof : str → F) (parse_time : str → option Z) (bufPtr : V) (cacheElem : CachingService.CacheInfo → V → V).

Abbreviation tuples := (list (list (RecordAttribute * ProteusValueMemory (V := V)))).

(** The tuples of a table: in each row the wanted fields, converted where they are or taken
    from a cache. *)
Definition row_tuple (cch : RecordAttribute → option CachingService.CacheInfo) (g : CSVPlugin) (buf : str) (i : nat) (row : Z * list str)
    : res (list (RecordAttribute * ProteusValueMemory (V := V))) :=
  do vs <- rmapM (source (F := F) atof parse_time bufPtr cacheElem g buf row.1 row.2 (Z.of_nat i) cch) (wantedFields g);
  bind_fields (F := F) g (Z.of_nat i) vs.

Fixpoint table (cch : RecordAttribute → option CachingService.CacheInfo) (g : CSVPlugin) (buf : str) (i : nat) (rows : list (Z * list str)) : res tuples :=
  match rows with
  | [] => Ok []
  | row :: rows' =>
      do t <- row_tuple cch g buf i row;
      do ts <- table cch g buf (S i) rows';
      Ok (t :: ts)
  end.

Definition no_cache (a : RecordAttribute) : option CachingService.CacheInfo := None.

(** The map of the rows from line [i] on. *)
Definition mapped_rows (P : nat) (m : pmCSV) (i : nat) (rows : list (Z * list str)) : Prop :=
  ∀ j base fields, rows !! j = Some (base, fields) →
    newlines m !! (i + j)%nat = Some (Some base) ∧ row_mapped fields (pmFields m) (Z.of_nat (i + j)) P (offsets m).

(** What a scan from line [i] on does not touch. *)
Definition keeps (i n : nat) (m m' : pmCSV) : Prop :=
  pmFields m' = pmFields m ∧ length (newlines m') = length (newlines m) ∧ length (offsets m') = length (offsets m) ∧
  (∀ j, (j < i ∨ i + n <= j)%nat → newlines m' !! j = newlines m !! j) ∧
  (∀ k, Z.of_nat k < Z.of_nat i * pmFields m → offsets m' !! k = offsets m !! k).

Context (g : CSVPlugin) (P : nat) (fuel : nat).
Hypothesis (HP : policy g = Z.of_nat P) (Hpos : (0 < P)%nat) (Hdelim : delimInner g ≠ NL).
Hypothesis (Hasc : Csv.ascending 0 (getArgsNo g) (wantedFields g)).
Hypothesis (Hread : Forall (λ a, is_ok (readField (F := F) atof parse_time bufPtr g (type a)) = true) (wantedFields g)).

Abbreviation N := (length (rec g)).

(** A map with the rows of the schema. *)
Definition pm_fits (m : pmCSV) : Prop :=
  pmFields m = Z.of_nat (N / P) ∧ Z.of_nat (length (offsets m)) = Z.of_nat (length (newlines m)) * pmFields m ∧ Z.of_nat (length (newlines m)) < 2 ^ 31.

Lemma row_room m i fields : pm_fits m → length fields = N → (i < length (newlines m))%nat → room fields (pmFields m) (Z.of_nat i) P (offsets m).
Proof.
  intros (Hf & Ho & _) Hl Hi c Hc. rewrite Hl in Hc. unfold entry_index. rewrite Hf in *.
  pose proof (Nat.div_le_lower_bound N P (S c) ltac:(lia) ltac:(lia)). nia.
Qed.

(** One line of the first scan. *)
Lemma populate_row code buf base fsize fields m i : gen_populate (F := F) atof parse_time bufPtr g = Ok (code, []) →
  line_fine (delimInner g) N (Row fields) → line_at (delimInner g) buf base fields →
  (length (line_text (delimInner g) fields) < fuel)%nat → base + Z.of_nat (length (line_text (delimInner g) fields)) <= fsize →
  pm_fits m → (i < length (newlines m))%nat →
  ∃ es, run (F := F) atof parse_time bufPtr cacheElem g fuel buf fsize (pmFields m) (Z.of_nat i) base code (mk_line base (offsets m) []) =
      (do vs <- rmapM (source (F := F) atof parse_time bufPtr cacheElem g buf base fields (Z.of_nat i) no_cache) (wantedFields g);
       Ok (mk_line (base + Z.of_nat (length (line_text (delimInner g) fields))) es (reverse vs))) ∧
    written fields (pmFields m) (Z.of_nat i) P 0 (offsets m) es.
Proof.
  intros Hgen (Hl & Hp & _ & H15) Hat Hfu Hsz Hm Hi. pose proof Hm as (Hf & _).
  destruct (run_fields (F := F) atof parse_time bufPtr cacheElem g buf base fsize fields fuel Hat Hp Hfu Hsz (pmFields m) (Z.of_nat i) P HP Hpos
    ltac:(lia) Hdelim (eq_sym Hl) H15 N 0 0 (wantedFields g) 0) as (code' & E & Hrun); [lia | split; lia | | done |].
  { unfold getArgsNo in Hasc. by rewrite Hl. }
  assert (code' = code) as ->.
  { unfold gen_populate, pm_numbers in Hgen. unfold pm_rest in E. rewrite Hl, Nat.sub_0_r in E. change (Z.of_nat 0 + 1) with 1 in E. change (Z.of_nat 0) with 0 in E.
    unfold getArgsNo in Hgen. rewrite HP, Z.quot_div_nonneg, <- Nat2Z.inj_div, Nat2Z.id in Hgen by lia. rewrite HP in E. congruence. }
  destruct (Hrun (offsets m)) as (es & Hw & Hr); [by apply row_room |]. exists es. split; [| done].
  specialize (Hr []). unfold here in Hr. assert (col_start fields 0 = 0%nat) as E0 by (by destruct fields).
  rewrite E0, Z.add_0_r, <- (line_text_length (delimInner g)) in Hr. rewrite Hr.
  destruct (rmapM _ _); [| done]. cbn [rbind]. by rewrite app_nil_r.
Qed.

(** Writing a line of the map. *)
Lemma write_line m i base fields es : pm_fits m → length fields = N → (i < length (newlines m))%nat →
  written fields (pmFields m) (Z.of_nat i) P 0 (offsets m) es →
  let m1 := mk_pm (pmFields m) (<[i := Some base]> (newlines m)) es in
  pm_fits m1 ∧ keeps i 1 m m1 ∧ mapped_rows P m1 i [(base, fields)].
Proof.
  intros (Hf & Ho & H31) Hl Hi (Hes & Hin & Hout). unfold pm_fits, keeps, mapped_rows. simpl. rewrite length_insert, Hes. split; [done |]. split.
  - repeat split; try done.
    + intros j Hj. apply list_lookup_insert_ne. lia.
    + intros k Hk. apply Hout. intros c _ Hc. unfold entry_index. lia.
  - intros [| j] b f Hj; [| done]. injection Hj as <- <-. rewrite Nat.add_0_r. split; [by apply list_lookup_insert_eq |].
    intros c Hc. apply Hin; [lia | done].
Qed.

(** A line written before stays as it is. *)
Lemma mapped_cons m m1 m' i base fields rows : pm_fits m1 → length fields = N → mapped_rows P m1 i [(base, fields)] → keeps (S i) (length rows) m1 m' →
  mapped_rows P m' (S i) rows → keeps i 1 m m1 → keeps i (S (length rows)) m m' ∧ mapped_rows P m' i ((base, fields) :: rows).
Proof.
  intros (Hf & _) Hl H1 (K1 & K2 & K3 & K4 & K5) Hr (J1 & J2 & J3 & J4 & J5). split.
  - unfold keeps. repeat split; try congruence.
    + intros j Hj. rewrite K4, J4 by lia. done.
    + intros k Hk. rewrite K5, J5; [done | done | rewrite J1; lia].
  - intros [| j] b f Hj.
    + injection Hj as <- <-. destruct (H1 0%nat base fields eq_refl) as [Hn Hm]. rewrite Nat.add_0_r in *. split; [rewrite K4 by lia; done |].
      rewrite K1. intros c Hc. rewrite K5; [by apply Hm |]. unfold entry_index. rewrite Hl in Hc. rewrite Hf.
      pose proof (Nat.div_le_lower_bound N P (S c) ltac:(lia) ltac:(lia)). nia.
    + replace (i + S j)%nat with (S i + j)%nat by lia. by apply Hr.
Qed.

Lemma keeps_refl i m : keeps i 0 m m.
Proof. by repeat split. Qed.

(** An empty line. *)
Lemma blank_ok d n s pre rest : line_fine d n (Blank s) → (length s < fuel)%nat →
  ∃ c, load (pre ++ (s ++ [NL]) ++ rest) (Z.of_nat (length pre)) = Ok c ∧ (c =? delimEnd) || (c =? CR) = true ∧
    skipDelimLLVM (pre ++ (s ++ [NL]) ++ rest) fuel delimEnd (Z.of_nat (length pre)) = Ok (Z.of_nat (length pre) + Z.of_nat (length (s ++ [NL]))).
Proof.
  intros [Hs Hh] Hfu. assert (∃ c tl, s ++ [NL] = c :: tl ∧ (c =? delimEnd) || (c =? CR) = true) as (c & tl & Ec & Hc).
  { destruct s as [| c s]; [by exists NL, [] |]. exists c, (s ++ [NL]). split; [done |]. by rewrite Hh. }
  exists c. split; [rewrite Ec; simpl app; apply pm_load_at |]. split; [done |]. rewrite <- app_assoc. simpl app. unfold delimEnd.
  rewrite pm_skipDelim_ok by done. rewrite length_app. simpl. f_equal. lia.
Qed.

(** The first scan gives the tuples of the table, and the map of its rows. *)
Lemma populate_loop_ok code post : gen_populate (F := F) atof parse_time bufPtr g = Ok (code, []) →
  ∀ ls pre n i m, Forall (line_fine (delimInner g) N) ls → (length ls <= n)%nat → (length (text (delimInner g) ls) < fuel)%nat →
  pm_fits m → (i + length (layout (delimInner g) (Z.of_nat (length pre)) ls) <= length (newlines m))%nat →
  ∃ m', populate_loop (F := F) atof parse_time bufPtr cacheElem g fuel (pre ++ text (delimInner g) ls ++ post)
      (Z.of_nat (length (pre ++ text (delimInner g) ls))) code n (Z.of_nat (length pre)) (Z.of_nat i) m =
      (do ts <- table no_cache g (pre ++ text (delimInner g) ls ++ post) i (layout (delimInner g) (Z.of_nat (length pre)) ls); Ok (ts, m')) ∧
    pm_fits m' ∧ keeps i (length (layout (delimInner g) (Z.of_nat (length pre)) ls)) m m' ∧
    mapped_rows P m' i (layout (delimInner g) (Z.of_nat (length pre)) ls).
Proof.
  intros Hgen. induction ls as [| l ls IH]; intros pre n i m Hls Hn Hfu Hm Hi.
  { exists m. split; [| split; [done | split; [apply keeps_refl | by intros ? ? ? ?]]].
    cbn [text fmap list_fmap concat layout table]. rewrite app_nil_r. destruct n; cbn [populate_loop]; by rewrite Z.ltb_irrefl. }
  apply Forall_cons in Hls as [Hl Hls]. destruct n as [| n]; [simpl in Hn; lia |].
  change (text (delimInner g) (l :: ls)) with (sheet_text (delimInner g) l ++ text (delimInner g) ls) in *. rewrite length_app in Hfu.
  specialize (IH (pre ++ sheet_text (delimInner g) l) n).
  replace ((pre ++ sheet_text (delimInner g) l) ++ text (delimInner g) ls ++ post)
    with (pre ++ (sheet_text (delimInner g) l ++ text (delimInner g) ls) ++ post) in IH by (by rewrite <- !app_assoc).
  replace ((pre ++ sheet_text (delimInner g) l) ++ text (delimInner g) ls) with (pre ++ sheet_text (delimInner g) l ++ text (delimInner g) ls) in IH by (by rewrite app_assoc).
  rewrite (length_app pre (sheet_text _ l)), Nat2Z.inj_add in IH.
  cbn [populate_loop]. destruct l as [s | fields]; cbn [layout sheet_text] in *.
  - destruct Hl as [Hs Hh]. rewrite (proj2 (Z.ltb_lt _ _)) by (rewrite !length_app; simpl; lia).
    rewrite length_app in Hfu. simpl in Hfu. destruct (blank_ok (delimInner g) N s pre (text (delimInner g) ls ++ post) (conj Hs Hh) ltac:(lia)) as (c & El & Hc & Es).
    rewrite app_assoc in El, Es. rewrite <- (app_assoc (s ++ [NL])) in *. rewrite <- app_assoc in El, Es. rewrite El. cbn [rbind]. rewrite Hc, Es. cbn [rbind].
    apply IH; [done | simpl in Hn; lia | lia | done | done].
  - pose proof Hl as (Hlen & Hp & Hh & H15). set (d := delimInner g) in *.
    rewrite (proj2 (Z.ltb_lt _ _)) by (rewrite !length_app; destruct (line_text d fields); [done |]; simpl; lia).
    set (buf := pre ++ (line_text d fields ++ text d ls) ++ post) in *.
    assert (∃ c, load buf (Z.of_nat (length pre)) = Ok c ∧ (c =? delimEnd) || (c =? CR) = false) as (c & -> & Hc).
    { unfold buf. destruct (line_text d fields) as [| c rest]; [done |]. exists c. simpl app. rewrite pm_load_at. split; [done |]. destruct Hh as [H1 H2].
      unfold delimEnd. by rewrite (proj2 (Z.eqb_neq _ _) H1), (proj2 (Z.eqb_neq _ _) H2). }
    cbn [rbind]. rewrite Hc. simpl length in Hi.
    rewrite (proj2 (Z.leb_le _ _)), (proj2 (Z.ltb_lt _ _)) by lia. cbn [andb].
    destruct (populate_row code buf (Z.of_nat (length pre)) (Z.of_nat (length (pre ++ line_text d fields ++ text d ls))) fields m i Hgen Hl)
      as (es & -> & Hw); [| fold d; lia | fold d; rewrite !length_app; lia | done | lia |].
    { exists pre, (text d ls ++ post). unfold buf. by rewrite <- app_assoc. }
    rewrite Nat2Z.id. destruct (write_line m i (Z.of_nat (length pre)) fields es Hm Hlen ltac:(lia) Hw) as (Hm1 & Hk1 & Hr1).
    set (m1 := mk_pm (pmFields m) (<[i := Some (Z.of_nat (length pre))]> (newlines m)) es) in *.
    destruct (IH (S i) m1) as (m' & E & Hm' & Hk' & Hr'); [done | simpl in Hn; lia | lia | done | simpl; rewrite length_insert; lia |].
    exists m'. split.
    + cbn [table]. unfold row_tuple. cbn [fst snd]. destruct (rmapM _ (wantedFields g)) as [vs | e]; [| done]. cbn [rbind fields_read entries cur_pos].
      rewrite reverse_involutive. destruct (bind_fields g (Z.of_nat i) vs) as [t | e]; [| done]. cbn [rbind].
      destruct Hm as (_ & _ & H31). rewrite swrap_id by (unfold in_signed; simpl (2 ^ _) in *; lia).
      replace (Z.of_nat i + 1) with (Z.of_nat (S i)) by lia. fold d. fold m1. rewrite E. by destruct (table _ _ _ _ _).
    + split; [done |]. by apply (mapped_cons m m1).
Qed.

(** A row in its place. *)
Definition row_at (buf : str) (fsize : Z) (row : Z * list str) : Prop :=
  line_at (delimInner g) buf row.1 row.2 ∧ line_fine (delimInner g) N (Row row.2) ∧
  (length (line_text (delimInner g) row.2) < fuel)%nat ∧ row.1 + Z.of_nat (length (line_text (delimInner g) row.2)) <= fsize.

Lemma layout_at post ls : ∀ pre, Forall (line_fine (delimInner g) N) ls → (length (text (delimInner g) ls) < fuel)%nat →
  Forall (row_at (pre ++ text (delimInner g) ls ++ post) (Z.of_nat (length (pre ++ text (delimInner g) ls)))) (layout (delimInner g) (Z.of_nat (length pre)) ls).
Proof.
  induction ls as [| l ls IH]; intros pre Hls Hfu; [constructor |]. apply Forall_cons in Hls as [Hl Hls].
  change (text (delimInner g) (l :: ls)) with (sheet_text (delimInner g) l ++ text (delimInner g) ls) in *. rewrite length_app in Hfu.
  specialize (IH (pre ++ sheet_text (delimInner g) l) Hls ltac:(lia)).
  replace ((pre ++ sheet_text (delimInner g) l) ++ text (delimInner g) ls ++ post)
    with (pre ++ (sheet_text (delimInner g) l ++ text (delimInner g) ls) ++ post) in IH by (by rewrite <- !app_assoc).
  replace ((pre ++ sheet_text (delimInner g) l) ++ text (delimInner g) ls) with (pre ++ sheet_text (delimInner g) l ++ text (delimInner g) ls) in IH by (by rewrite app_assoc).
  rewrite (length_app pre (sheet_text _ l)), Nat2Z.inj_add in IH.
  destruct l as [s | fields]; cbn [layout sheet_text] in *; [done |]. constructor; [| done]. unfold row_at. cbn [fst snd]. split; [| split; [done |]].
  - exists pre, (text (delimInner g) ls ++ post). split; [by rewrite <- app_assoc | done].
  - split; [lia |]. rewrite !length_app. lia.
Qed.

(** The code of a scan through the map does not depend on the lines. *)
Lemma gen_pm_total E tid cch : Forall (λ a, cached E g tid a = Ok (cch a) ∧ is_ok (readField (F := F) atof parse_time bufPtr g (type a)) = true ∧
    reachable P N (Z.to_nat (attrNo a - 1)) = true) (wantedFields g) →
  ∃ code, gen_pm (F := F) atof parse_time bufPtr E g tid (wantedFields g) 0 = Ok code.
Proof.
  intros Hws. set (fields := replicate N ([] : str)). assert (length fields = N) as Hl by apply length_replicate.
  destruct (run_pm (F := F) atof parse_time bufPtr cacheElem g (line_text (delimInner g) fields) 0 (Z.of_nat (length (line_text (delimInner g) fields))) fields
    (S (length (line_text (delimInner g) fields)))) with (stride := 0) (lineCtr := 0) (P := P) (E := E) (tid := tid) (cch := cch) (ws := wantedFields g) (cur := 0%nat)
    as (code & E1 & _); [| | lia | lia | done | done | lia | by rewrite Hl | unfold getArgsNo in Hasc; by rewrite Hl | by exists code].
  - exists [], []. by rewrite app_nil_r.
  - apply Forall_replicate. constructor.
Qed.

(** A line of a scan through the map. *)
Lemma pm_row E tid cch code buf fsize m i base fields : Forall (λ a, cached E g tid a = Ok (cch a) ∧
    is_ok (readField (F := F) atof parse_time bufPtr g (type a)) = true ∧ reachable P N (Z.to_nat (attrNo a - 1)) = true) (wantedFields g) →
  gen_pm (F := F) atof parse_time bufPtr E g tid (wantedFields g) 0 = Ok code → row_at buf fsize (base, fields) →
  row_mapped fields (pmFields m) (Z.of_nat i) P (offsets m) → 0 <= pmFields m →
  ∃ cur, run (F := F) atof parse_time bufPtr cacheElem g fuel buf fsize (pmFields m) (Z.of_nat i) base code (mk_line base (offsets m) []) =
    do vs <- rmapM (source (F := F) atof parse_time bufPtr cacheElem g buf base fields (Z.of_nat i) cch) (wantedFields g); Ok (mk_line cur (offsets m) (reverse vs)).
Proof.
  intros Hws Hgen (Hat & (Hl & Hp & _) & Hfu & Hsz) Hm Hst. cbn [fst snd] in *.
  destruct (run_pm (F := F) atof parse_time bufPtr cacheElem g buf base fsize fields fuel Hat Hp Hfu Hsz (pmFields m) (Z.of_nat i) P HP Hpos ltac:(lia) E tid cch (wantedFields g))
    with (cur := 0%nat) as (code' & E' & Hrun); [by rewrite Hl | unfold getArgsNo in Hasc; by rewrite Hl |].
  assert (code' = code) as -> by (change (Z.of_nat 0) with 0 in E'; congruence). destruct (Hrun _ Hm) as (cur & Hr). eexists.
  specialize (Hr []). unfold here at 1 in Hr. assert (col_start fields 0 = 0%nat) as E0 by (by destruct fields). rewrite E0, Z.add_0_r in Hr. rewrite Hr.
  destruct (rmapM _ _); [| done]. cbn [rbind]. by rewrite app_nil_r.
Qed.

(** A scan through the map gives the tuples of the table; if it is to read more lines than
    there are rows, it reads an entry that was never written. *)
Lemma pm_loop_ok E tid cch code buf fsize m L : Forall (λ a, cached E g tid a = Ok (cch a) ∧
    is_ok (readField (F := F) atof parse_time bufPtr g (type a)) = true ∧ reachable P N (Z.to_nat (attrNo a - 1)) = true) (wantedFields g) →
  gen_pm (F := F) atof parse_time bufPtr E g tid (wantedFields g) 0 = Ok code → 0 <= pmFields m →
  lines g = Z.of_nat L → Z.of_nat L < 2 ^ 31 →
  ∀ rows n i, Forall (row_at buf fsize) rows → mapped_rows P m i rows → (n + i = L)%nat →
  (n <= length rows)%nat ∨ mjoin (newlines m !! (i + length rows)%nat) = None →
  pm_loop (F := F) atof parse_time bufPtr cacheElem g fuel buf fsize code n (Z.of_nat i) m =
    do ts <- table cch g buf i (take n rows); if Nat.leb n (length rows) then Ok ts else Err Undefined.
Proof.
  intros Hws Hgen Hst Hlines H31. assert (swrap 32 (lines g) = Z.of_nat L) as HL by (rewrite Hlines; apply swrap_id; unfold in_signed; simpl (2 ^ _) in *; lia).
  induction rows as [| [base fields] rows IH]; intros [| n] i Hrows Hmap Hn Hlast; cbn [pm_loop]; rewrite HL.
  1, 3: rewrite (proj2 (Z.ltb_ge _ _)) by lia; done.
  - rewrite (proj2 (Z.ltb_lt _ _)), (proj2 (Z.leb_le _ _)) by lia. destruct Hlast as [C | Hlast]; [simpl in C; lia |].
    rewrite Nat2Z.id. simpl in Hlast. rewrite Nat.add_0_r in Hlast. by rewrite Hlast.
  - apply Forall_cons in Hrows as [Hrow Hrows]. rewrite (proj2 (Z.ltb_lt _ _)), (proj2 (Z.leb_le _ _)) by lia. rewrite Nat2Z.id.
    destruct (Hmap 0%nat base fields eq_refl) as [Hnl Hm]. rewrite Nat.add_0_r in *. rewrite Hnl. cbn [mjoin option_join of_option rbind].
    destruct (pm_row E tid cch code buf fsize m i base fields Hws Hgen Hrow Hm Hst) as (cur & ->). cbn [take table]. unfold row_tuple. cbn [fst snd].
    destruct (rmapM _ (wantedFields g)) as [vs | e]; [| done]. cbn [rbind fields_read]. rewrite reverse_involutive.
    destruct (bind_fields g (Z.of_nat i) vs) as [t | e]; [| done]. cbn [rbind].
    rewrite (swrap_id 32 (Z.of_nat i + 1)) by (unfold in_signed; simpl (2 ^ _) in *; lia). replace (Z.of_nat i + 1) with (Z.of_nat (S i)) by lia.
    rewrite (IH n (S i)); [| done | | lia |].
    + destruct (table cch g buf (S i) (take n rows)) as [ts | e]; [| done]. cbn [rbind length]. change (Nat.leb (S n) (S (length rows))) with (Nat.leb n (length rows)). by destruct (Nat.leb n (length rows)).
    + intros j b f Hj. replace (S i + j)%nat with (i + S j)%nat by lia. by apply Hmap.
    + destruct Hlast as [C | C]; [left; simpl in C; lia | right]. simpl in C. by replace (S i + length rows)%nat with (i + S (length rows))%nat by lia.
Qed.

(** The code of the first scan, whatever the lines. *)
Lemma gen_fields_total n : ∀ k pmNo ws last ctr, (n + k = N)%nat → Csv.ascending (Z.of_nat k) (getArgsNo g) ws →
  Forall (λ a, is_ok (readField (F := F) atof parse_time bufPtr g (type a)) = true) ws →
  ∃ code, gen_fields (F := F) atof parse_time bufPtr g n (Z.of_nat k + 1) pmNo ws last ctr = Ok (code, []).
Proof.
  induction n as [| n IH]; intros k pmNo ws last ctr Hn Ha Hr; cbn [gen_fields].
  { destruct ws as [| a ws]; [by exists [] |]. destruct Ha. unfold getArgsNo in *. lia. }
  case_match eqn:Eb; [apply andb_true_iff in Eb as [[_ ->%bool_decide_eq_true]%andb_true_iff _]; by eexists |].
  destruct (if bool_decide _ then _ else _) as [[store pmNo'] ctr']. replace (Z.of_nat k + 1) with (Z.of_nat (S k)) in * by lia.
  destruct ws as [| a ws].
  { destruct (IH (S k) pmNo' [] last ctr') as (code & E); [lia | done .. |]. cbn [take_wanted]. rewrite E. by eexists. }
  destruct (decide (attrNo a = Z.of_nat (S k))) as [Ek | Ek].
  - cbn [take_wanted]. rewrite Ek, Z.eqb_refl. apply Forall_cons in Hr as [Hra Hr]. destruct (readField _ _ _ _ (type a)); [| done]. cbn [rbind].
    destruct Ha as [_ Ha]. rewrite Ek in Ha. edestruct (IH (S k) pmNo' ws) as (code & E); [lia | done .. |]. rewrite E. by eexists.
  - assert (Csv.ascending (Z.of_nat (S k)) (getArgsNo g) (a :: ws)) as Ha'.
    { replace (Z.of_nat (S k)) with (Z.of_nat k + 1) by lia. apply ascending_next; [done | lia]. }
    rewrite (take_wanted_none _ _ _ Ha'). edestruct (IH (S k) pmNo' (a :: ws)) as (code & E); [lia | done .. |]. rewrite E. by eexists.
Qed.

End file.

(** ** Sessions *)

Lemma sorted_ascending n ws : StronglySorted by_number ws → NoDup (attrNo <$> ws) → ∀ i, Forall (λ a, i < attrNo a <= n) ws → Csv.ascending i n ws.
Proof.
  induction 1 as [| a ws Hs IH Ha]; intros Hnd i Hw; [done |]. apply Forall_cons in Hw as [Hi Hw]. apply NoDup_cons in Hnd as [Hn Hnd].
  split; [done |]. apply IH; [done |]. apply Forall_forall. intros b Hb.
  pose proof (proj1 (Forall_forall _ _) Ha b Hb) as Hab. pose proof (proj1 (Forall_forall _ _) Hw b Hb). unfold by_number in Hab.
  assert (attrNo a ≠ attrNo b) by (intros E; apply Hn; rewrite E; by apply list_elem_of_fmap_2). cbv beta in *. lia.
Qed.

#[export] Instance by_number_total : Total by_number.
Proof. intros a b. unfold by_number. lia. Qed.

#[export] Instance by_number_trans : Transitive by_number.
Proof. intros a b c. unfold by_number. lia. Qed.

(** The wanted fields of a plug-in are those it was asked for, in the order of the file. *)
Lemma merge_sort_ascending n ws : NoDup (attrNo <$> ws) → Forall (λ a, 0 < attrNo a <= n) ws → Csv.ascending 0 n (merge_sort by_number ws).
Proof.
  intros Hnd Hw. apply sorted_ascending.
  - apply (StronglySorted_merge_sort by_number).
  - by rewrite merge_sort_Permutation.
  - by rewrite merge_sort_Permutation.
Qed.

Definition header_text (header : option str) : str := match header with Some h => h ++ [NL] | None => [] end.
Definition sheet_file (d : Z) (header : option str) (ls : list sheet_line) : str := header_text header ++ text d ls.
Definition file_rows (d : Z) (header : option str) (ls : list sheet_line) : list (Z * list str) :=
  layout d (Z.of_nat (length (header_text header))) ls.

Definition readable (t : ExpressionType) : bool :=
  match ExprTypes.getTypeID t with BOOL | STRING | FLOAT | INT | DATE => true | _ => false end.

Section session.
Context {F V : Type} `{FloatOps F, IRBuilder F V}.
Context (atof : str → F) (parse_time : str → option Z) (bufPtr : V) (cacheElem : CachingService.CacheInfo → V → V).
Context (fname : string) (header : option str) (ls : list sheet_line) (schema : list RecordAttribute) (d : Z) (P : nat) (brackets : bool) (fuel : nat).

Abbreviation file := (sheet_file d header ls).
Abbreviation rows := (file_rows d header ls).
Abbreviation buf := (Csv.mapped file).
Abbreviation world := (world (F := F) (V := V)).
Abbreviation table := (table (F := F) atof parse_time bufPtr cacheElem).
Abbreviation gen_scan := (CsvPm.generate (F := F) atof parse_time bufPtr cacheElem).

(** A file of the schema. *)
Record file_fine : Prop := mk_file_fine {
  ff_delim : d ≠ NL;
  ff_policy : (0 < P)%nat;
  ff_name : fname ≠ EmptyString;
  ff_file : file ≠ [];
  ff_header : match header with Some h => Forall (λ c, c ≠ NL) h | None => True end;
  ff_lines : Forall (line_fine d (length schema)) ls;
  ff_fuel : (length file < fuel)%nat
}.

(** Fields a query may want. *)
Record wanted_fine (ws : list RecordAttribute) : Prop := mk_wanted_fine {
  wf_nodup : NoDup (attrNo <$> ws);
  wf_range : Forall (λ a, 0 < attrNo a <= Z.of_nat (length schema)) ws;
  wf_type : Forall (λ a, readable (type a) = true) ws
}.

(** The map of the file is registered. *)
Definition registered (w : world) : Prop :=
  CachingService.pm_wf (cache w) ∧ ∃ p m, p ≠ 0 ∧ CachingService.getPM (cache w) fname = Ok p ∧ get_pm w p = Some m ∧
    mapped_rows P m 0 rows ∧ 0 <= pmFields m ∧ ∀ j, (length rows <= j)%nat → mjoin (newlines m !! j) = None.

(** A plug-in for the file. *)
Definition plugin_of (ws : list RecordAttribute) (L : nat) (has : bool) (p : Z) : CSVPlugin :=
  mk_csv fname (Some file) schema (merge_sort by_number ws) brackets d (Z.of_nat L) (Z.of_nat P) has p (bool_decide (is_Some header)).

Hypothesis (Hfile : file_fine).

Lemma readable_ok g t : readable t = true → is_ok (readField (F := F) atof parse_time bufPtr g t) = true.
Proof. unfold readable, readField. by destruct (ExprTypes.getTypeID t). Qed.

Lemma init_ok ws L has p : init (plugin_of ws L has p) fuel = Ok (buf, Z.of_nat (length file), Z.of_nat (length (header_text header))).
Proof.
  unfold init, plugin_of. cbn [CsvPm.file hasHeader]. unfold Csv.init. pose proof (ff_file Hfile) as Hne. pose proof (ff_fuel Hfile) as Hfu.
  destruct (Nat.eqb_spec (length file) 0) as [E%nil_length_inv | _]; [done |]. cbn [negb rbind default].
  pose proof (ff_header Hfile) as Hh. destruct header as [h |]; cbn [bool_decide]; [| done].
  rewrite bool_decide_eq_true_2 by done. unfold Csv.mapped, sheet_file, header_text in *. rewrite !length_app in Hfu.
  rewrite <- !app_assoc. simpl app. unfold delimEnd. pose proof (pm_skipDelim_ok NL h Hh fuel []) as Hs. simpl in Hs.
  rewrite Hs by lia. cbn [rbind].
  by replace (Z.of_nat (length (h ++ [NL]))) with (Z.of_nat (length h) + 1) by (rewrite length_app; simpl; lia).
Qed.

Lemma wanted_ascending ws : wanted_fine ws → Csv.ascending 0 (Z.of_nat (length schema)) (merge_sort by_number ws) ∧
  ∀ g, Forall (λ a, is_ok (readField (F := F) atof parse_time bufPtr g (type a)) = true) (merge_sort by_number ws).
Proof.
  intros [Hn Hr Ht]. split; [by apply merge_sort_ascending |]. intros g. rewrite merge_sort_Permutation.
  eapply Forall_impl; [exact Ht |]. intros a. apply readable_ok.
Qed.

(** The pieces of the buffer. *)
Lemma buf_split : ∃ pad, buf = header_text header ++ text d ls ++ pad ∧ file = header_text header ++ text d ls.
Proof. unfold Csv.mapped, sheet_file. eexists. by rewrite <- app_assoc. Qed.

Lemma lines_le n ls' : Forall (line_fine d n) ls' → (length ls' <= length (text d ls'))%nat.
Proof.
  clear. induction 1 as [| l ls' Hl _ IH]; [done |]. change (text d (l :: ls')) with (sheet_text d l ++ text d ls'). rewrite length_app.
  destruct l as [s | fields]; simpl.
  - rewrite length_app. simpl. lia.
  - destruct Hl as (_ & _ & Hh & _). destruct (line_text d fields); [done |]. simpl. lia.
Qed.

(** A fresh map. *)
Lemma new_pm_fits g L : policy g = Z.of_nat P → (0 < P)%nat → rec g = schema → Z.of_nat L < 2 ^ 31 →
  ∃ m, new_pm (Z.of_nat L) (Z.quot (Z.of_nat (length schema)) (Z.of_nat P)) = Ok m ∧ pm_fits g P m ∧ length (newlines m) = L ∧ 0 <= pmFields m ∧
    ∀ j, mjoin (newlines m !! j) = None.
Proof.
  intros HP Hpos Hrec HL. unfold new_pm. rewrite (proj2 (Z.leb_le _ _)) by lia. rewrite Z.quot_div_nonneg, <- Nat2Z.inj_div by lia.
  eexists. split; [reflexivity |]. unfold pm_fits. cbn [pmFields newlines offsets]. rewrite !length_replicate, !Nat2Z.id, Hrec. split; [split; [done | lia] |].
  split; [done |]. split; [lia |]. intros j. destruct (replicate L None !! j) as [x |] eqn:E; [| done]. by apply lookup_replicate in E as [-> _].
Qed.

(** The first scan of a file: its tuples, and its map registered. *)
Lemma first_scan w ws L : CachingService.pm_wf (cache w) → CachingService.getPM (cache w) fname = Ok 0 → wanted_fine ws →
  (length rows <= L)%nat → Z.of_nat L < 2 ^ 31 →
  ∃ p w1 w2, let g := plugin_of ws L false p in
    construct w fname (Some file) schema ws d (Z.of_nat L) (Z.of_nat P) brackets (bool_decide (is_Some header)) = Ok (g, w1) ∧
    (∀ E, gen_scan E g fuel w1 = do ts <- table no_cache g buf 0 rows; Ok (ts, set_wanted g [], w2)) ∧ registered w2.
Proof.
  intros Hwf Hget Hws HL H31. pose proof (ff_policy Hfile) as Hpos. set (p := Z.of_nat (length (pms w)) + 1). set (g := plugin_of ws L false p).
  destruct (new_pm_fits g L eq_refl Hpos eq_refl H31) as (m & Em & Hm & Hlen & Hst & Hnone).
  destruct (CachingService.registerPM_getPM (cache w) fname p Hwf) as (c & Ec & Hc & _ & _ & Hget').
  specialize (Hget' fname). rewrite String.eqb_refl in Hget'. set (w1 := mk_world c (pms w ++ [m])).
  assert (get_pm w1 p = Some m) as Hp.
  { unfold get_pm, p. rewrite (proj2 (Z.leb_le _ _)) by lia. replace (Z.to_nat _) with (length (pms w)) by lia. by apply list_lookup_middle. }
  destruct (wanted_ascending ws Hws) as [Hasc Hread]. destruct buf_split as (pad & Eb & Ef).
  destruct (gen_fields_total (F := F) atof parse_time bufPtr g P Hpos (length schema) 0 (pm_numbers g) (wantedFields g) 0 0) as (code & Ecode);
    [simpl; lia | exact Hasc | apply Hread |].
  pose proof (ff_fuel Hfile) as Hfu. rewrite Ef, length_app in Hfu.
  destruct (populate_loop_ok (F := F) atof parse_time bufPtr cacheElem g P fuel eq_refl Hpos (ff_delim Hfile) Hasc (Hread g) code pad Ecode ls
    (header_text header) fuel 0 m) as (m' & Epop & Hm' & Hk & Hr); [exact (ff_lines Hfile) | | simpl; lia | done | simpl; rewrite Hlen; exact HL |].
  { pose proof (lines_le _ _ (ff_lines Hfile)). lia. }
  exists p, w1, (set_pm w1 p m'). cbv zeta. fold g. split; [| split].
  - unfold construct. rewrite bool_decide_eq_true_2 by done. cbn [orb]. rewrite Hget. cbn [rbind]. rewrite Z.eqb_refl, (proj2 (Z.eqb_neq _ _)) by lia. cbn [negb].
    rewrite Em. cbn [rbind]. rewrite (proj2 (Z.leb_le _ _)) by (apply Z.quot_pos; lia). unfold register_pm. fold p. rewrite Ec. done.
  - intros E. unfold CsvPm.generate, scanAndPopulatePM. change (hasPM g) with false. cbv iota. unfold g at 1. rewrite init_ok. fold g. cbn [rbind].
    change (policy g) with (Z.of_nat P). rewrite (proj2 (Z.eqb_neq _ _)) by lia. cbn [negb].
    change (gen_populate _ _ _ g) with (gen_fields (F := F) atof parse_time bufPtr g (length schema) (Z.of_nat 0 + 1) (pm_numbers g) (wantedFields g) 0 0). rewrite Ecode. cbn [rbind].
    change (pm g) with p. rewrite Hp. cbn [of_option rbind]. rewrite Eb, Ef. change (Z.of_nat 0) with 0 in Epop. change (delimInner g) with d in Epop. rewrite Epop.
    change (layout d _ ls) with rows. by destruct (table no_cache g _ 0 rows).
  - split; [done |]. exists p, m'. destruct Hk as (K1 & K2 & _ & K4 & _). split; [lia |]. split; [done |]. split.
    { unfold get_pm, set_pm. rewrite (proj2 (Z.leb_le _ _)) by lia. cbn [pms w1]. apply list_lookup_insert_eq. rewrite length_app. simpl. lia. }
    split; [done |]. split; [by rewrite K1 |]. intros j Hj. rewrite K4 by (right; simpl; exact Hj). apply Hnone.
Qed.

(** What the caches have for the wanted fields. *)
Definition answers (E : env (F := F) (V := V)) (ws : list RecordAttribute) (cch : RecordAttribute → option CachingService.CacheInfo) : Prop :=
  ∃ tid, RecordAttribute_oid fname activeLoop IntType = Ok tid ∧ Forall (λ a, cached E (plugin_of ws 0 true 0) tid a = Ok (cch a)) ws.

(** A scan of a file whose map is registered. *)
Lemma later_scan E w ws L cch : registered w → wanted_fine ws → Z.of_nat L < 2 ^ 31 → answers E ws cch →
  Forall (λ a, reachable P (length schema) (Z.to_nat (attrNo a - 1)) = true) ws →
  ∃ p, let g := plugin_of ws L true p in
    construct w fname (Some file) schema ws d (Z.of_nat L) (Z.of_nat P) brackets (bool_decide (is_Some header)) = Ok (g, w) ∧
    gen_scan E g fuel w = do ts <- table cch g buf 0 (take L rows); if Nat.leb L (length rows) then Ok (ts, g, w) else Err Undefined.
Proof.
  intros (Hwf & p & m & Hp0 & Hget & Hp & Hmap & Hst & Hlast) Hws H31 (tid & Htid & Hc) Hreach. exists p. cbv zeta. set (g := plugin_of ws L true p).
  destruct (wanted_ascending ws Hws) as [Hasc Hread]. pose proof (ff_policy Hfile) as Hpos. destruct buf_split as (pad & Eb & Ef).
  pose proof (ff_fuel Hfile) as Hfu. rewrite Ef, length_app in Hfu.
  assert (Forall (λ a, cached E g tid a = Ok (cch a) ∧ is_ok (readField (F := F) atof parse_time bufPtr g (type a)) = true ∧
    reachable P (length (rec g)) (Z.to_nat (attrNo a - 1)) = true) (wantedFields g)) as Hall.
  { cbn [wantedFields g plugin_of]. rewrite merge_sort_Permutation. apply Forall_forall. intros a Ha. rewrite Forall_forall in Hc, Hreach.
    split; [exact (Hc a Ha) |]. split; [| exact (Hreach a Ha)]. apply readable_ok. pose proof (wf_type _ Hws) as Ht. rewrite Forall_forall in Ht. by apply Ht. }
  destruct (gen_pm_total (F := F) atof parse_time bufPtr cacheElem g P eq_refl Hpos Hasc E tid cch Hall) as (code & Ecode).
  split.
  - unfold construct. rewrite bool_decide_eq_true_2 by done. cbn [orb]. rewrite Hget. cbn [rbind]. by rewrite (proj2 (Z.eqb_neq _ _)).
  - unfold CsvPm.generate, scanPM. change (hasPM g) with true. cbv iota. unfold g at 1. rewrite init_ok. fold g. cbn [rbind].
    unfold oid_attr. change (CsvPm.fname g) with fname. rewrite Htid. cbn [rbind]. rewrite Ecode. cbn [rbind]. change (pm g) with p. rewrite Hp. cbn [of_option rbind].
    change (lines g) with (Z.of_nat L). rewrite swrap_id by (unfold in_signed; simpl (2 ^ _) in *; lia). rewrite Nat2Z.id.
    pose proof (layout_at g P fuel Hpos pad ls (header_text header) (ff_lines Hfile)) as Hrows. change (delimInner g) with d in Hrows. specialize (Hrows ltac:(lia)).
    rewrite <- Eb, <- Ef in Hrows.
    pose proof (pm_loop_ok (F := F) atof parse_time bufPtr cacheElem g P fuel eq_refl Hpos Hasc E tid cch code buf (Z.of_nat (length file)) m L Hall Ecode Hst eq_refl H31
      rows L 0 Hrows Hmap ltac:(lia)) as Hloop. change (Z.of_nat 0) with 0 in Hloop. rewrite Hloop.
    + destruct (table cch g buf 0 (take L rows)) as [ts | e]; [| done]. cbn [rbind]. by destruct (Nat.leb L (length rows)).
    + right. apply Hlast. simpl. lia.
Qed.


End session.

(** ** What the conversions mean *)

Import GenCorrect.

Section values.
Context {F V : Type} `{FloatOps F, IRBuilder F V, !LangRef F V}.
Context (atof : str → F) (parse_time : str → option Z) (bufPtr : V).

(** Converted where it is, a field has the value its text means. *)
Lemma convert_means g t f e pre post x k : Csv.field_value atof t f = Some x → kind_of t = Some k →
  (existsb (λ c, negb (isspace c)) f = true → atof (f ++ e :: post) = atof f) →
  ∃ v, conversion (F := F) atof parse_time bufPtr g t (pre ++ f ++ e :: post) (Z.of_nat (length pre)) (Z.of_nat (length pre) + Z.of_nat (length f)) = Ok (notNull v) ∧
    represents k v (Ok x).
Proof.
  intros Hx Hk Hat. unfold conversion, Csv.field_value in *. destruct t; try discriminate Hx; injection Hk as <-; cbn [ExprTypes.getTypeID] in *.
  - unfold convertBool. rewrite <- Nat2Z.inj_add, !Nat2Z.id, Csv.convertBoolean_field.
    destruct (convertBoolean f 0 (length f)) as [b | er]; [| done]. injection Hx as <-. cbn [rbind].
    eexists. split; [reflexivity |]. apply (represents_truth _ (Ok b)), decides_const.
  - unfold convertFloat. rewrite Nat2Z.id, drop_app_length. destruct (existsb _ f) eqn:Ef; [| done]. injection Hx as <-. rewrite Hat by done.
    eexists. split; [reflexivity |]. destruct (ConstFP_ok (V := V) (atof f)) as [Ht Hden].
    apply (represents_dbl _ (Ok (atof f))); [done |]. unfold den_float. by rewrite Hden.
  - unfold convertInt. destruct (all_digits f && Nat.leb 1 (length f) && Nat.leb (length f) 10) eqn:Ef; [| done]. injection Hx as <-.
    apply andb_true_iff in Ef as [[Hall Hge%Nat.leb_le]%andb_true_iff Hle%Nat.leb_le]. rewrite Z.add_simpl_l.
    rewrite swrap_id by (unfold in_signed; simpl; lia).
    destruct (Atoi.atois_value true (Csv.elem (F := F) (pre ++ f ++ e :: post) (Z.of_nat (length pre))) f Hall ltac:(lia)
      (Csv.elem_loads pre f (e :: post) Hall)) as (v & -> & Hv).
    eexists. split; [reflexivity |]. by apply (represents_num 32 _ (Ok _)).
Qed.

End values.

(** ** An example: two queries over a file with a header and an empty line *)

Import Interp.

Definition ex_field (i : Z) : RecordAttribute := mk_attr "t" "c" "t" IntType i false.
Definition ex_schema : list RecordAttribute := ex_field <$> [1; 2; 3; 4; 5; 6; 7; 8].
Definition ex_row (a b : Z) : list str := [[a]; []; [49; b]; [a; 120]; [b]; [50; 50]; []; [a; b]].
Definition ex_sheet : list sheet_line := [Row (ex_row 49 50); Blank [13]; Row (ex_row 51 52); Blank []; Row (ex_row 53 54)].
Definition ex_header : option str := Some [104; 100; 114].
Definition ex_world : world (F := Z) (V := IV) := mk_world (CachingService.mk [] [] []) [].
Definition ex_env : env (F := Z) (V := IV) := mk_env (λ _, Err Throw) [] (λ _, Ok CachingService.invalid) (λ _, Err Throw) (λ _, 0).


End CsvPm.
