(* ===== verification/PlanOps.v ===== *)
(** * PlanOps: the operators of a physical plan and their builder
    ([lib/operators/operators.hpp] and the headers of the operators, [relbuilder.cpp],
    [relbuilder.hpp], [catalog-parser.hpp], [catalog.hpp]).

    A plan is a tree of operators.  An operator has a row type and traits: the device it runs
    on, the number of its instances, whether its tuples are packed into blocks, and whether
    every instance sees every tuple.  Most operators pass on the traits of their input.
    [RelBuilder] puts an operator on top of a plan: it checks what the operator asks of its
    input, picks the implementation for the input's device, and has the catalog know the
    relations of the output.

    An operator is a value here, with its children inside it.  The pointer from a child to its
    parent mirrors the tree and is left out, so is what an operator keeps for the code it
    generates. *)

From Stdlib Require Import ZArith Lia Bool.
From stdpp Require Import base numbers list strings gmap.
From S2P Require Import Prelude ExprTypes LLVM Expressions ExprParser.

Local Open Scope Z_scope.
Local Open Scope res_scope.

Module Plan.
Import ExprTypes Expressions ExprParser.

Inductive DeviceType : Type := CPU | GPU.
Inductive gran_t : Type := GRID | BLOCK_ | THREAD.
Inductive RoutingPolicy : Type := RANDOM | LOCAL | FORCE_LOCAL | HASH_BASED.
Inductive direction : Type := ASC | NONE | DESC.
Inductive HomReplication : Type := UNIQUE | BRDCST.
Inductive HomParallelization : Type := SINGLE | PARALLEL.
Inductive Affinitizer : Type := GPUAffinitizer | CpuCoreAffinitizer | DefaultAffinitizer (d : DeviceType).
Inductive materialization_mode : Type := EAGER.

#[export] Instance DeviceType_eq_dec : EqDecision DeviceType.
Proof. solve_decision. Defined.
#[export] Instance RoutingPolicy_eq_dec : EqDecision RoutingPolicy.
Proof. solve_decision. Defined.
#[export] Instance HomReplication_eq_dec : EqDecision HomReplication.
Proof. solve_decision. Defined.
#[export] Instance HomParallelization_eq_dec : EqDecision HomParallelization.
Proof. solve_decision. Defined.

Definition activeLoop : string := "activeTuple".

Section plan.
Context {F V : Type}.

Abbreviation expr := (expr F V).

(** ** Expressions with their registration *)

(** An expression and the relation and attribute it is registered as; [parts] are the
    registrations of the components of a record construction. *)
Record expression_t : Type := mk_e { ex : expr; reg : option (string * string); parts : list (option (string * string)) }.

(** A projection registers itself as the attribute it projects. *)
Definition self_registered (e : expr) : option (string * string) :=
  match e with RecordProjection _ a => Some (relName a, attrName a) | _ => None end.

Definition self_parts (e : expr) : list (option (string * string)) :=
  match e with RecordConstruction l => (λ x, self_registered x.2) <$> l | _ => [] end.

Definition of_expr (e : expr) : expression_t := mk_e e (self_registered e) (self_parts e).

Definition isRegistered (e : expression_t) : bool := match reg e with Some _ => true | None => false end.
Definition as_ (e : expression_t) (rel attr : string) : expression_t := mk_e (ex e) (Some (rel, attr)) (parts e).
Definition getRegisteredRelName (e : expression_t) : res string := do r <- of_option Throw (reg e); Ok r.1.
Definition getRegisteredAttrName (e : expression_t) : res string := do r <- of_option Throw (reg e); Ok r.2.
Definition getRegisteredAs (e : expression_t) : res RecordAttribute :=
  do r <- of_option Throw (reg e); RecordAttribute_oid r.1 r.2 (getExpressionType (ex e)).

(** [arg[attr]] for the input argument of a row type. *)
Definition argument (args : list RecordAttribute) : expr := InputArgument args 0.
Definition arg_attr (args : list RecordAttribute) (a : RecordAttribute) : res expression_t :=
  do e <- project (argument args) a; Ok (of_expr e).

(** [arg[name]], for the name of an attribute of the row type: the last one of that name.  (The
    other names, for which the code goes on to search the nested records, are not asked for.) *)
Definition arg_name (args : list RecordAttribute) (name : string) : res expression_t :=
  do a <- of_option Throw (getArg args name); Ok (of_expr (RecordProjection (argument args) a)).

(** ** Plug-ins *)

(** A plug-in of the engine with its constructor's arguments, or one that a library exports. *)
Inductive plugin : Type :=
  | CSVPlugin (path : string) (rec projs : list RecordAttribute) (delim : Ascii.ascii) (linehint policy : Z)
      (stringBrackets hasHeader : bool)
  | JSONPlugin (path : string) (schema : ExpressionType) (linehint : Z)
  | BinaryRowPlugin (path : string) (rec projs : list RecordAttribute)
  | BinaryColPlugin (path : string) (rec projs : list RecordAttribute) (sizeInFile : bool)
  | BinaryBlockPlugin (path : string) (rec projs : list RecordAttribute)
  | VectorPlugin (data : list (RecordAttribute * list Z))
  | LoadedPlugin (create path : string) (rec projs : list RecordAttribute).

(** What is outside: the exported plug-ins, whether the constructor of a plug-in, which opens
    its files, returns, and the sizes of LLVM's data layout. *)
Record environment : Type := mk_env {
  dlsym : string → bool;
  loaded_row_type : plugin → list RecordAttribute;
  loaded_oid_type : plugin → ExpressionType;
  loaded_packed : plugin → bool;
  opens : plugin → res unit;
  getSizeOf : llvm_type → Z
}.
Context (env : environment).

Definition is_block_attr (a : RecordAttribute) : bool := is_block (type a).

Definition ensureRelName (fields : list RecordAttribute) (rel : string) : res (list RecordAttribute) :=
  rmapM (λ a : RecordAttribute, RecordAttribute_oid rel (attrName a) (type a)) fields.

(** The block plug-ins turn the attributes into blocks, and assert that they were not. *)
Definition block_row_type (fields : list RecordAttribute) (rel : string) : res (list RecordAttribute) :=
  do wanted <- ensureRelName fields rel;
  rmapM (λ a, check negb (is_block_attr a) else AssertFailed; Ok (RecordAttribute_copy a true)) wanted.

Definition plugin_row_type (pg : plugin) : res (list RecordAttribute) :=
  match pg with
  | CSVPlugin _ _ projs _ _ _ _ _ | BinaryRowPlugin _ _ projs | BinaryColPlugin _ _ projs _ => Ok projs
  | JSONPlugin _ schema _ =>
      match nested schema with Some (RecordType args) => Ok args | _ => Err Throw end
  | BinaryBlockPlugin path _ projs => block_row_type projs path
  | VectorPlugin data =>
      match data with
      | [] => Err Undefined
      | (a, _) :: _ => block_row_type data.*1 (relName a)
      end
  | LoadedPlugin _ _ _ _ => Ok (loaded_row_type env pg)
  end.

Definition json_oid_type (path : string) : res ExpressionType :=
  do atts <- rmapM (λ x : Z * string, RecordAttribute_no x.1 path x.2 Int64Type false) [(1, "offset"); (2, "rowId"); (3, "tokenNo")]%string;
  Ok (RecordType atts).

Definition plugin_oid_type (pg : plugin) : res ExpressionType :=
  match pg with
  | CSVPlugin _ _ _ _ _ _ _ _ | BinaryRowPlugin _ _ _ => Ok IntType
  | JSONPlugin path _ _ => json_oid_type path
  | BinaryColPlugin _ _ _ _ | BinaryBlockPlugin _ _ _ | VectorPlugin _ => Ok Int64Type
  | LoadedPlugin _ _ _ _ => Ok (loaded_oid_type env pg)
  end.

Definition plugin_packed (pg : plugin) : bool :=
  match pg with BinaryBlockPlugin _ _ _ | VectorPlugin _ => true | LoadedPlugin _ _ _ _ => loaded_packed env pg | _ => false end.

(** ** Operators *)

(** What a materialised tuple keeps: the packet and the bit it starts at. *)
Record GpuMatExpr : Type := mk_mat { m_expr : expression_t; packet : Z; bitoffset : Z }.
Record GpuAggrMatExpr : Type := mk_agg { a_expr : expression_t; a_packet : Z; a_bitoffset : Z; a_m : Monoid }.

Record Materializer : Type := mk_materializer {
  wantedFields : list RecordAttribute;
  wantedExpressions : list expression_t;
  wantedOIDs : list RecordAttribute;
  outputMode : list materialization_mode
}.

(** The three implementations of the chained hash join: on a GPU, with a table of its own per
    instance, and with one table for all instances. *)
Inductive join_kind : Type := GpuHashJoinChained | HashJoinChained | HashJoinChainedMorsel.

(** Which of [ZipCollect]'s two states a forwarder reads. *)
Inductive side : Type := Left | Right.

Inductive op : Type :=
  | Scan (pg : plugin)
  | DictScan (attr : RecordAttribute) (regex : string) (regAs : RecordAttribute)
  | Select (pred : expression_t) (child : op)
  | Project (outputExprs : list expression_t) (rel : string) (child : op)
  | Unnest (pred : expression_t) (nestedName : string) (path : expr) (pg : plugin) (child : op)
  | OuterUnnest (pred : expression_t) (nestedName : string) (path : expr) (pg : plugin) (child : op)
  | Reduce (gpu : bool) (aggs : list (expression_t * Monoid)) (child : op)
  | HashGroupByChained (gpu : bool) (agg_exprs : list GpuAggrMatExpr) (key_expr : list expression_t) (child : op)
      (hash_bits maxInputSize : Z)
  | HashJoin (k : join_kind) (build_e : list GpuMatExpr) (build_w : list Z) (build_k : expression_t) (build : op)
      (probe_e : list GpuMatExpr) (probe_w : list Z) (probe_k : expression_t) (probe : op)
      (hash_bits maxBuildInputSize : Z)
  | RadixJoin (left_k right_k : expression_t) (left right : op) (matLeft matRight : Materializer)
  | Nest (accs : list Monoid) (outputExprs : list expression_t) (aggrLabels : list string) (pred grouping nullToZero : expression_t)
      (child : op) (mat : Materializer)
  | Sort (gpu : bool) (orderByFields : list expression_t) (dirs : list direction) (child : op)
  | Flush (outputExprs : list expression_t) (outPath : string) (child : op)
  | Router (child : op) (fanout : Z) (fields : list RecordAttribute) (slack : Z) (hash : option expression_t)
      (policy_type : RoutingPolicy) (aff : Affinitizer)
  | Split (child : op) (fanout : Z) (fields : list RecordAttribute) (slack : Z) (hash : option expression_t)
      (policy_type : RoutingPolicy)
  | UnionAll (children : list op) (fields : list RecordAttribute)
  | MemMoveDevice (child : op) (fields : list RecordAttribute) (slack : Z) (to_cpu : bool)
  | MemBroadcastDevice (child : op) (fields : list RecordAttribute) (slack : Z) (targets : list Z) (to_cpu : bool)
  | MemMoveLocalTo (child : op) (fields : list RecordAttribute) (slack : Z)
  | CpuToGpu (child : op) (fields : list RecordAttribute)
  | GpuToCpu (child : op) (fields : list RecordAttribute) (size : Z) (granularity : gran_t)
  | BlockToTuples (child : op) (fields : list expression_t) (gpu : bool) (granularity : gran_t)
  | HashRearrange (gpu : bool) (child : op) (numOfBuckets : Z) (fields : list expression_t) (hashExpr : expression_t)
      (hashProject : option RecordAttribute)
  | HashPartitioner (mat_exprs : list GpuMatExpr) (widths : list Z) (keyexpr : expression_t) (child : op) (maxInputSize log_parts : Z)
      (opLabel : string)
  | GpuPartitionedHashJoinChained (build_e : list GpuMatExpr) (build_w : list Z) (build_k : expression_t)
      (build_minor : option expression_t) (build : op) (probe_e : list GpuMatExpr) (probe_w : list Z) (probe_k : expression_t)
      (probe_minor : option expression_t) (probe : op) (maxBuildInputSize maxProbeInputSize log_parts : Z) (opLabel : string)
  | ZipCollect (ptrAttr splitter targetAttr inputLeft inputRight : RecordAttribute) (left right : op) (numOfBuckets : Z)
      (hash_key_left : RecordAttribute) (fieldsLeft : list expression_t) (hash_key_right : RecordAttribute)
      (fieldsRight : list expression_t)
  | ZipInitiate (ptrAttr splitter targetAttr : RecordAttribute) (child : op) (numOfBuckets : Z)
  | ZipForward (targetAttr : RecordAttribute) (child : op) (fields : list expression_t) (state : side).

(** ** Traits *)

(** A path: its relation and the names of its projections, from the outermost. *)
Fixpoint path_names (e : expr) : list string :=
  match e with RecordProjection e a => path_names e ++ [attrName a] | _ => [] end.

Definition path_string (path : expr) : res string :=
  match path with
  | RecordProjection _ a => Ok (foldl (λ s n, s +:+ "." +:+ n) (relName a) (path_names path))
  | _ => Err AssertFailed
  end.

(** The output type of an aggregate; not every monoid is implemented. *)
Definition getOutputType (m : Monoid) (t : ExpressionType) : res ExpressionType :=
  match m with
  | MAX | MIN | SUM | OR | AND => Ok t
  | BAGUNION => Ok (BagType t)
  | MULTIPLY | UNION | APPEND => Err Throw
  end.

(** The attributes a key of a join adds: itself, and the components of a record. *)
Definition key_attributes (k : expression_t) : res (list RecordAttribute) :=
  do self <- (if isRegistered k then do a <- getRegisteredAs k; Ok [a] else Ok []);
  do inner <-
    match getExpressionType (ex k) with
    | RecordType _ =>
        match ex k with
        | RecordConstruction l =>
            do as_ <- rmapM (λ x : (string * expr) * option (string * string),
                        match x.2 with
                        | Some r => do a <- RecordAttribute_oid r.1 r.2 (getExpressionType x.1.2); Ok [a]
                        | None => Ok []
                        end) (zip l (parts k));
            Ok (concat as_)
        | _ => Err Undefined
        end
    | _ => Ok []
    end;
  Ok (self ++ inner).

(** What the operators that compute new rows make of their inputs. *)
Definition unnest_row_type (path : expr) (rec : list RecordAttribute) : res (list RecordAttribute) :=
  do p <- path_string path;
  do a <- RecordAttribute_no (Z.of_nat (length rec)) p activeLoop (getExpressionType path) false;
  Ok (appendAttribute rec a).

Definition groupby_row_type (aggs : list GpuAggrMatExpr) (keys : list expression_t) : res (list RecordAttribute) :=
  do ks <- rmapM getRegisteredAs keys;
  do es <- rmapM (λ x, do r <- getRegisteredAs (a_expr x);
                       do t <- getOutputType (a_m x) (type r);
                       RecordAttribute_oid (relName r) (attrName r) t) aggs;
  Ok (ks ++ es).

(** No expression has been placed in a packet's first slot yet. *)
Definition join_row_type (build_e probe_e : list GpuMatExpr) (build_k probe_k : expression_t) : res (list RecordAttribute) :=
  do b <- rmapM (λ m, getRegisteredAs (m_expr m)) build_e;
  do p <- rmapM (λ m, getRegisteredAs (m_expr m)) probe_e;
  do bk <- key_attributes build_k;
  do pk <- key_attributes probe_k;
  Ok (b ++ p ++ bk ++ pk).

Definition nest_row_type (es : list expression_t) (labels : list string) (grouping : expression_t) : res (list RecordAttribute) :=
  do k <- getRegisteredAs grouping;
  do as_ <- rmapM (λ x : nat * string, do e <- of_option Undefined (es !! x.1);
                                     RecordAttribute_oid "radixNest" x.2 (getExpressionType (ex e))) (imap pair labels);
  Ok (k :: as_).

Definition sorted_row_type (attrs : list RecordAttribute) : res (list RecordAttribute) :=
  match attrs with
  | [] => Err Undefined
  | a :: _ => do s <- RecordAttribute_oid (relName a) "__sorted" (BlockType (RecordType attrs)); Ok [s]
  end.

Definition flush_row_type (outPath : string) : res (list RecordAttribute) :=
  do a <- RecordAttribute_oid outPath "ROWCOUNT" Int64Type; Ok [a].

Definition broadcast_row_type (fields : list RecordAttribute) : res (list RecordAttribute) :=
  match fields with
  | [] => Err Undefined
  | f :: _ =>
      check forallb is_block_attr fields else AssertFailed;
      do t <- RecordAttribute_oid (relName f) "__broadcastTarget" IntType;
      Ok (fields ++ [t])
  end.

Definition tuple_row_type (fields : list expression_t) : res (list RecordAttribute) :=
  rmapM (λ e, do a <- getRegisteredAs e; RecordAttribute_oid (relName a) (attrName a) (unblock (type a))) fields.

Definition packed_row_type (fields : list expression_t) (hashProject : option RecordAttribute) : res (list RecordAttribute) :=
  do attr <- rmapM (λ e, do a <- getRegisteredAs e; Ok (RecordAttribute_copy a true)) fields;
  Ok (attr ++ match hashProject with Some a => [a] | None => [] end).

Fixpoint getRowType (o : op) : res (list RecordAttribute) :=
  match o with
  | Scan pg => plugin_row_type pg
  | DictScan _ _ regAs => Ok [regAs]
  | Select _ c => getRowType c
  | Project es _ _ => rmapM getRegisteredAs es
  | Unnest _ _ path _ c => do rec <- getRowType c; unnest_row_type path rec
  | Reduce _ aggs _ => rmapM (λ x : expression_t * Monoid, getRegisteredAs x.1) aggs
  | HashGroupByChained _ aggs keys _ _ _ => groupby_row_type aggs keys
  | HashJoin _ build_e _ build_k _ probe_e _ probe_k _ _ _ => join_row_type build_e probe_e build_k probe_k
  | RadixJoin _ _ _ _ ml mr => Ok (wantedFields ml ++ wantedFields mr)
  | Nest _ es labels _ grouping _ _ _ => nest_row_type es labels grouping
  | Sort gpu fields _ _ => do attrs <- rmapM getRegisteredAs fields; if gpu then Ok attrs else sorted_row_type attrs
  | Flush _ outPath _ => flush_row_type outPath
  | Router _ _ fields _ _ _ _ | Split _ _ fields _ _ _ | UnionAll _ fields | MemMoveDevice _ fields _ _
  | MemMoveLocalTo _ fields _ | CpuToGpu _ fields | GpuToCpu _ fields _ _ => Ok fields
  | MemBroadcastDevice _ fields _ _ _ => broadcast_row_type fields
  | BlockToTuples _ fields _ _ => tuple_row_type fields
  | HashRearrange _ _ _ fields _ hashProject => packed_row_type fields hashProject
  | OuterUnnest _ _ _ _ _ | HashPartitioner _ _ _ _ _ _ _ | GpuPartitionedHashJoinChained _ _ _ _ _ _ _ _ _ _ _ _ _ _
  | ZipCollect _ _ _ _ _ _ _ _ _ _ _ _ | ZipInitiate _ _ _ _ _ | ZipForward _ _ _ _ => Err Throw
  end.

(** A trait of a binary operator that its inputs have to share. *)
Definition both {A} `{EqDecision A} (l r : res A) : res A :=
  do x <- l; do y <- r; check bool_decide (x = y) else AssertFailed; Ok x.

Fixpoint getDeviceType (o : op) : res DeviceType :=
  match o with
  | Scan _ | DictScan _ _ _ => Ok CPU
  | CpuToGpu c _ => do d <- getDeviceType c; check bool_decide (d = CPU) else AssertFailed; Ok GPU
  | GpuToCpu c _ _ _ => do d <- getDeviceType c; check bool_decide (d = GPU) else AssertFailed; Ok CPU
  | HashJoin _ _ _ _ l _ _ _ r _ _ | RadixJoin _ _ l r _ _ | GpuPartitionedHashJoinChained _ _ _ _ l _ _ _ _ r _ _ _ _
  | ZipCollect _ _ _ _ _ l r _ _ _ _ _ => both (getDeviceType l) (getDeviceType r)
  | UnionAll cs _ => match cs with [] => Err AssertFailed | c :: _ => getDeviceType c end
  | Select _ c | Project _ _ c | Unnest _ _ _ _ c | OuterUnnest _ _ _ _ c | Reduce _ _ c | HashGroupByChained _ _ _ c _ _
  | Nest _ _ _ _ _ _ c _ | Sort _ _ _ c | Flush _ _ c | Router c _ _ _ _ _ _ | Split c _ _ _ _ _ | MemMoveDevice c _ _ _
  | MemBroadcastDevice c _ _ _ _ | MemMoveLocalTo c _ _ | BlockToTuples c _ _ _ | HashRearrange _ c _ _ _ _
  | HashPartitioner _ _ _ c _ _ _ | ZipInitiate _ _ _ c _ | ZipForward _ c _ _ => getDeviceType c
  end.

Fixpoint getDOP (o : op) : res Z :=
  match o with
  | Scan _ | DictScan _ _ _ => Ok 1
  | Router _ fanout _ _ _ _ _ => Ok fanout
  | HashJoin _ _ _ _ l _ _ _ r _ _ | RadixJoin _ _ l r _ _ | GpuPartitionedHashJoinChained _ _ _ _ l _ _ _ _ r _ _ _ _
  | ZipCollect _ _ _ _ _ l r _ _ _ _ _ => both (getDOP l) (getDOP r)
  | UnionAll cs _ => match cs with [] => Err Undefined | c :: _ => getDOP c end
  | Select _ c | Project _ _ c | Unnest _ _ _ _ c | OuterUnnest _ _ _ _ c | Reduce _ _ c | HashGroupByChained _ _ _ c _ _
  | Nest _ _ _ _ _ _ c _ | Sort _ _ _ c | Flush _ _ c | Split c _ _ _ _ _ | MemMoveDevice c _ _ _
  | MemBroadcastDevice c _ _ _ _ | MemMoveLocalTo c _ _ | CpuToGpu c _ | GpuToCpu c _ _ _ | BlockToTuples c _ _ _
  | HashRearrange _ c _ _ _ _ | HashPartitioner _ _ _ c _ _ _ | ZipInitiate _ _ _ c _ | ZipForward _ c _ _ => getDOP c
  end.

Definition getHomParallelization (o : op) : res HomParallelization :=
  do d <- getDOP o; Ok (if d =? 1 then SINGLE else PARALLEL).

Fixpoint isPacked (o : op) : res bool :=
  match o with
  | Scan pg => Ok (plugin_packed pg)
  | DictScan _ _ _ => Ok false
  | BlockToTuples c _ _ _ => do b <- isPacked c; check b else AssertFailed; Ok false
  | HashRearrange _ c _ _ _ _ => do b <- isPacked c; check negb b else AssertFailed; Ok true
  | HashJoin _ _ _ _ l _ _ _ r _ _ | RadixJoin _ _ l r _ _ | GpuPartitionedHashJoinChained _ _ _ _ l _ _ _ _ r _ _ _ _
  | ZipCollect _ _ _ _ _ l r _ _ _ _ _ => both (isPacked l) (isPacked r)
  | UnionAll cs _ =>
      do ps <- rmapM isPacked cs;
      match ps with
      | [] => Err AssertFailed
      | p :: _ => check forallb (Bool.eqb p) ps else AssertFailed; Ok p
      end
  | Select _ c | Project _ _ c | Unnest _ _ _ _ c | OuterUnnest _ _ _ _ c | Reduce _ _ c | HashGroupByChained _ _ _ c _ _
  | Nest _ _ _ _ _ _ c _ | Sort _ _ _ c | Flush _ _ c | Router c _ _ _ _ _ _ | Split c _ _ _ _ _ | MemMoveDevice c _ _ _
  | MemBroadcastDevice c _ _ _ _ | MemMoveLocalTo c _ _ | CpuToGpu c _ | GpuToCpu c _ _ _
  | HashPartitioner _ _ _ c _ _ _ | ZipInitiate _ _ _ c _ | ZipForward _ c _ _ => isPacked c
  end.

(** A union has given its child pointer up, and asks it all the same. *)
Fixpoint getHomReplication (o : op) : res HomReplication :=
  match o with
  | Scan _ | DictScan _ _ _ | Split _ _ _ _ _ _ => Ok UNIQUE
  | MemBroadcastDevice _ _ _ _ _ => Ok BRDCST
  | HashJoin _ _ _ _ _ _ _ _ r _ _ | RadixJoin _ _ _ r _ _ => getHomReplication r
  | GpuPartitionedHashJoinChained _ _ _ _ l _ _ _ _ r _ _ _ _ | ZipCollect _ _ _ _ _ l r _ _ _ _ _ =>
      both (getHomReplication r) (getHomReplication l)
  | UnionAll _ _ => Err Undefined
  | Select _ c | Project _ _ c | Unnest _ _ _ _ c | OuterUnnest _ _ _ _ c | Reduce _ _ c | HashGroupByChained _ _ _ c _ _
  | Nest _ _ _ _ _ _ c _ | Sort _ _ _ c | Flush _ _ c | Router c _ _ _ _ _ _ | MemMoveDevice c _ _ _
  | MemMoveLocalTo c _ _ | CpuToGpu c _ | GpuToCpu c _ _ _ | BlockToTuples c _ _ _
  | HashRearrange _ c _ _ _ _ | HashPartitioner _ _ _ c _ _ _ | ZipInitiate _ _ _ c _ | ZipForward _ c _ _ => getHomReplication c
  end.

(** ** The state of the parser *)

Record InputInfo : Type := mk_info { path : string; exprType : ExpressionType; oidType : option ExpressionType }.

(** The catalog of inputs, the plug-ins of the relations, the plug-ins the plan opened, and the
    splits that wait for another parent. *)
Record state : Type := mk_state {
  inputs : gmap string InputInfo;
  plugins : gmap string plugin;
  activePlugins : list plugin;
  splitOps : gmap Z op
}.

Definition S (A : Type) : Type := state → res (A * state).
Definition sret {A} (a : A) : S A := λ s, Ok (a, s).
Definition sbind {A B} (m : S A) (f : A → S B) : S B := λ s, do (a, s') <- m s; f a s'.
Definition slift {A} (r : res A) : S A := λ s, do a <- r; Ok (a, s).
Definition sassert (b : bool) : S unit := slift (check b else AssertFailed; Ok tt).

Notation "'let*' x := m 'in' k" := (sbind m (λ x, k))
  (at level 200, x pattern, m at level 100, k at level 200).

Fixpoint smapM {A B} (f : A → S B) (l : list A) : S (list B) :=
  match l with
  | [] => sret []
  | x :: l' => let* y := f x in let* ys := smapM f l' in sret (y :: ys)
  end.

Definition set_inputs (i : gmap string InputInfo) (s : state) : state := mk_state i (plugins s) (activePlugins s) (splitOps s).
Definition set_plugins (p : gmap string plugin) (s : state) : state := mk_state (inputs s) p (activePlugins s) (splitOps s).
Definition set_active (l : list plugin) (s : state) : state := mk_state (inputs s) (plugins s) l (splitOps s).
Definition set_splits (m : gmap Z op) (s : state) : state := mk_state (inputs s) (plugins s) (activePlugins s) m.

(** The types of the inputs, which is what the parser of expressions sees of the catalog. *)
Definition types (i : gmap string InputInfo) : catalog := exprType <$> i.

(** A relation that is not known is created as a binary one. *)
Definition created (r : string) (t : ExpressionType) : InputInfo := mk_info r t (Some Int64Type).

Definition merge_types (c : catalog) (i : gmap string InputInfo) : gmap string InputInfo :=
  map_imap (λ r t, Some (match i !! r with Some x => mk_info (path x) t (oidType x) | None => created r t end)) c.

Definition created_plugins (c : catalog) (i : gmap string InputInfo) : gmap string plugin :=
  map_imap (λ r _, Some (BinaryBlockPlugin r [] [])) (c ∖ types i).

(** Code of the parser of expressions: it changes types, and adds inputs only by creating them. *)
Definition with_catalog {A} (m : P A) : S A := λ s,
  do (a, c) <- m (types (inputs s));
  Ok (a, set_plugins (created_plugins c (inputs s) ∪ plugins s) (set_inputs (merge_types c (inputs s)) s)).

Definition registerPlugin (r : string) (pg : plugin) : S unit := λ s, Ok (tt, set_plugins (<[r := pg]> (plugins s)) s).
Definition getPlugin (r : string) : S plugin := λ s, do pg <- of_option Throw (plugins s !! r); Ok (pg, s).
Definition getInput (r : string) : S (option InputInfo) := λ s, Ok (inputs s !! r, s).
Definition setInput (r : string) (i : InputInfo) : S unit := λ s, Ok (tt, set_inputs (<[r := i]> (inputs s)) s).

(** ** The builder *)

Definition outputArg (o : op) : S (list RecordAttribute) := slift (getRowType o).

(** [apply]: the catalog gets to know the relations of the operator's output. *)
Definition apply (o : op) : S op :=
  let* args := outputArg o in
  let* _ := smapM (λ a : RecordAttribute, with_catalog (getOrCreateInputInfo true (relName a))) args in
  sret o.

Definition scan (pg : plugin) : S op := sret (Scan pg).

Definition filter_ (pred : expression_t) (root : op) : S op := apply (Select pred root).

Definition project_ (proj : list expression_t) (root : op) : S op :=
  match proj with
  | [] => slift (Err AssertFailed)
  | e :: _ => let* rel := slift (getRegisteredRelName e) in apply (Project proj rel root)
  end.

Definition block_fields (args : list RecordAttribute) : list RecordAttribute := filter (λ a, is_block_attr a = true) args.

Definition memmove (slack : Z) (to : DeviceType) (root : op) : S op :=
  let* packed := slift (isPacked root) in
  let* _ := sassert packed in
  let* args := outputArg root in
  let fields := block_fields args in
  let* _ := sassert (negb (Nat.eqb (length fields) 0)) in
  let* _ := sassert (forallb is_block_attr fields) in
  apply (MemMoveDevice root fields slack (bool_decide (to = CPU))).

(** The number of targets becomes an [int], and eight times it must be one. *)
Definition membrdcst (fanout : Z) (to_cpu always_share : bool) (root : op) : S op :=
  let* args := outputArg root in
  let fields := block_fields args in
  let* _ := sassert (negb (Nat.eqb (length fields) 0)) in
  let* _ := sassert (forallb is_block_attr fields) in
  let n := swrap 32 fanout in
  let* _ := slift (check (- 2 ^ 31 <=? 8 * n) && (8 * n <? 2 ^ 31) else Undefined; Ok tt) in
  apply (MemBroadcastDevice root fields (u64 (8 * n)) ((λ i, if always_share then 0 else Z.of_nat i) <$> seq 0 (Z.to_nat n)) to_cpu).

Definition to_gpu (root : op) : S op :=
  let* args := outputArg root in
  let fields := block_fields args in
  let* _ := sassert (negb (Nat.eqb (length fields) 0)) in
  apply (CpuToGpu root fields).

Definition to_cpu_ (granularity : gran_t) (size : Z) (root : op) : S op :=
  let* args := outputArg root in
  apply (GpuToCpu root args size granularity).

(** [new BlockToTuples], with what it asserts. *)
Definition make_BlockToTuples (child : op) (fields : list expression_t) (gpu : bool) (g : gran_t) : res op :=
  check (gpu || match g with THREAD => true | _ => false end) else AssertFailed;
  check (match g with BLOCK_ => false | _ => true end) else AssertFailed;
  Ok (BlockToTuples child fields gpu g).

Definition unpack_exprs (projections : list expression_t) (root : op) : S op :=
  let* d := slift (getDeviceType root) in
  let gpu := bool_decide (d = GPU) in
  let* o := slift (make_BlockToTuples root projections gpu (if gpu then GRID else THREAD)) in
  apply o.

Definition all_attributes (args : list RecordAttribute) : res (list expression_t) := rmapM (arg_attr args) args.

Definition unpack (root : op) : S op :=
  let* args := outputArg root in
  let* es := slift (all_attributes args) in
  unpack_exprs es root.

(** The attribute of the hash is the one its expression is registered as. *)
Definition hash_project (n : nat) (hashExpr : expression_t) : res (option RecordAttribute) :=
  match reg hashExpr with
  | Some r => do a <- RecordAttribute_no (Z.of_nat n) r.1 r.2 Int64Type false; Ok (Some a)
  | None => Ok None
  end.

Definition pack_exprs (projections : list expression_t) (hashExpr : expression_t) (numOfBuckets : Z) (root : op) : S op :=
  let* d := slift (getDeviceType root) in
  let* _ := slift (match d with GPU => do _ <- rmapM (λ e, getLLVMType (getExpressionType (ex e))) projections; Ok tt | CPU => Ok tt end) in
  let* hp := slift (hash_project (length projections) hashExpr) in
  apply (HashRearrange (bool_decide (d = GPU)) root numOfBuckets projections hashExpr hp).

(** [pack()]: a single bucket. *)
Definition pack (root : op) : S op :=
  let* args := outputArg root in
  let* es := slift (all_attributes args) in
  pack_exprs es (of_expr (IntConstant 0)) 1 root.

Definition reduce (e : list expression_t) (accs : list Monoid) (root : op) : S op :=
  let* _ := sassert (Nat.eqb (length e) (length accs)) in
  let* d := slift (getDeviceType root) in
  apply (Reduce (bool_decide (d = GPU)) (zip e accs) root).

(** On a GPU the table has at least 128 K entries. *)
Definition groupby (e : list expression_t) (agg_exprs : list GpuAggrMatExpr) (hash_bits maxInputSize : Z) (root : op) : S op :=
  let* d := slift (getDeviceType root) in
  match d with
  | GPU => apply (HashGroupByChained true agg_exprs e root (u32 hash_bits) (Z.max maxInputSize (128 * 1024)))
  | CPU => apply (HashGroupByChained false agg_exprs e root (u32 hash_bits) maxInputSize)
  end.

(** The constructors of the sorts: every field is registered; on a GPU a field has 4 or 8 bytes. *)
Definition make_Sort (gpu : bool) (fields : list expression_t) (dirs : list direction) (child : op) : res op :=
  check forallb isRegistered fields else AssertFailed;
  check negb (Nat.eqb (length fields) 0) else Undefined;
  do _ <- (if gpu then
             do _ <- rmapM (λ e, do t <- getLLVMType (getExpressionType (ex e));
                                 check (getSizeOf env t =? 4) || (getSizeOf env t =? 8) else AssertFailed; Ok tt) fields;
             Ok tt
           else Ok tt);
  Ok (Sort gpu fields dirs child).

(** The attributes of the sorted records. *)
Definition sorted_attributes (args : list RecordAttribute) : res (list expression_t) :=
  do s <- arg_name args "__sorted";
  match getExpressionType (ex s) with
  | RecordType attrs => rmapM (λ a, do e <- project (ex s) a; Ok (of_expr e)) attrs
  | _ => Err Undefined
  end.

Definition sort (orderByFields : list expression_t) (dirs : list direction) (root : op) : S op :=
  let* packed := slift (isPacked root) in
  let* _ := slift (check negb packed else Throw; Ok tt) in
  let* _ := slift (check Nat.eqb (length orderByFields) (length dirs) else Throw; Ok tt) in
  let* d := slift (getDeviceType root) in
  match d with
  | GPU => let* o := slift (make_Sort true orderByFields dirs root) in apply o
  | CPU =>
      let* o := slift (make_Sort false orderByFields dirs root) in
      let* o := apply o in
      let* args := outputArg o in
      let* e := slift (arg_name args "__sorted") in
      let* o := unpack_exprs [e] o in
      let* args := outputArg o in
      let* es := slift (sorted_attributes args) in
      project_ es o
  end.

(** ** Joins *)

(** What is materialised of an input next to the key: its attributes, one packet each. *)
Fixpoint join_mat (args : list RecordAttribute) (k : expression_t) (ind : Z) (l : list RecordAttribute) : res (list GpuMatExpr * list Z) :=
  match l with
  | [] => Ok ([], [])
  | p :: l' =>
      do _ <- getRegisteredRelName k;
      do e <- arg_attr args p;
      do ka <- getRegisteredAs k;
      do ea <- getRegisteredAs e;
      if attr_eq ka ea then join_mat args k ind l'
      else
        do t <- getLLVMType (getExpressionType (ex e));
        do (es, ws) <- join_mat args k (ind + 1) l';
        Ok (mk_mat e ind 0 :: es, getSizeOf env t * 8 :: ws)
  end.

Definition join_side (args : list RecordAttribute) (k : expression_t) : res (list GpuMatExpr * list Z) :=
  do t <- getLLVMType (getExpressionType (ex k));
  do (es, ws) <- join_mat args k 1 args;
  Ok (es, 32 + getSizeOf env t * 8 :: ws).

(** The build side is the same in every instance, or there is one instance only. *)
Definition own_table (build probe : op) : res bool :=
  do r <- getHomReplication build;
  if bool_decide (r = BRDCST) then Ok true else do p <- getHomParallelization probe; Ok (bool_decide (p = SINGLE)).

Definition join (build : op) (build_k probe_k : expression_t) (hash_bits maxBuildInputSize : Z) (root : op) : S op :=
  let* build_arg := outputArg build in
  let* (build_e, build_w) := slift (join_side build_arg build_k) in
  let* probe_arg := outputArg root in
  let* (probe_e, probe_w) := slift (join_side probe_arg probe_k) in
  let* d := slift (getDeviceType root) in
  let* own := slift (own_table build root) in
  let* k := slift (match d with
                   | GPU => check own else AssertFailed; Ok GpuHashJoinChained
                   | CPU => Ok (if own then HashJoinChained else HashJoinChainedMorsel)
                   end) in
  apply (HashJoin k build_e build_w build_k build probe_e probe_w probe_k root (swrap 32 hash_bits) maxBuildInputSize).

(** ** Output *)

(** [hyphenatedPluginToCamel]: the letters, upper case at the start and after a hyphen. *)
Fixpoint camel (active : bool) (l : list Ascii.ascii) : list Ascii.ascii :=
  match l with
  | [] => []
  | c :: l' =>
      let n := Ascii.nat_of_ascii c in
      let lower := (97 <=? n)%nat && (n <=? 122)%nat in
      let upper := (65 <=? n)%nat && (n <=? 90)%nat in
      if Nat.eqb n 0 then []
      else if lower || upper then
        (if active then (if lower then Ascii.ascii_of_nat (n - 32) else c) else (if upper then Ascii.ascii_of_nat (n + 32) else c))
          :: camel false l'
      else if Nat.eqb n 45 then camel true l' else camel active l'
  end.
Definition hyphenatedPluginToCamel (line : string) : string := String.string_of_list_ascii (camel true (String.list_ascii_of_string line)).

Definition creator (pgType : string) : string := ("create" +:+ hyphenatedPluginToCamel pgType +:+ "Plugin")%string.

Definition createPlugin (rec projs : list RecordAttribute) (pgType : string) : S plugin :=
  let* _ := slift (check dlsym env (creator pgType) else Throw; Ok tt) in
  match rec with
  | [] => slift (Err AssertFailed)
  | a :: _ =>
      let fileName := relName a in
      let pg := LoadedPlugin (creator pgType) fileName rec projs in
      let* _ := slift (opens env pg) in
      let* ii := getInput fileName in
      let ii := match ii with Some i => i | None => mk_info fileName (BagType (RecordType rec)) None end in
      let* _ := setInput fileName (mk_info (path ii) (exprType ii) (Some (RecordType rec))) in
      let* _ := registerPlugin fileName pg in
      sret pg
  end.

(** [print] of the expressions to a plug-in: the output relation is what they are registered
    with, and it is known from now on. *)
Definition print_exprs (e : list expression_t) (pg : plugin) (root : op) : S op :=
  match e with
  | [] => slift (Err AssertFailed)
  | e0 :: _ =>
      let* _ := sassert (isRegistered e0) in
      let* outrel := slift (getRegisteredRelName e0) in
      let* args := slift (rmapM getRegisteredAs e) in
      let* oid := slift (plugin_oid_type pg) in
      let* _ := setInput outrel (mk_info outrel (BagType (RecordType args)) (Some oid)) in
      apply (Flush e outrel root)
  end.

Definition print (exprs : list RecordAttribute → S (list expression_t)) (pgType outrel : string) (root : op) : S op :=
  let* arg := outputArg root in
  let* attrs := slift (rmapM (λ x : nat * RecordAttribute, RecordAttribute_no (Z.of_nat x.1 + 1) outrel (attrName x.2) (type x.2) false)
                         (imap pair arg)) in
  let* pg := createPlugin attrs [] pgType in
  let* v := exprs arg in
  let* v := slift (rmapM (λ e, do n <- getRegisteredAttrName e; Ok (as_ e outrel n)) v) in
  print_exprs v pg root.

(** [print(pg, outrel)]: everything. *)
Definition print_all (pgType outrel : string) (root : op) : S op :=
  print (λ arg, slift (rmapM (λ a : RecordAttribute, do e <- arg_name arg (attrName a); Ok (as_ e outrel (attrName a))) arg)) pgType outrel root.

(** ** Exchanges *)

(** [new Router]: the input's instances are counted; a hash goes with hash-based routing. *)
Definition check_router (child : op) (hash : option expression_t) (p : RoutingPolicy) : res unit :=
  do _ <- getDOP child;
  check Bool.eqb (bool_decide (p = HASH_BASED)) (match hash with Some _ => true | None => false end) else AssertFailed; Ok tt.

Definition without_target (args : list RecordAttribute) : list RecordAttribute :=
  filter (λ a, attrName a ≠ "__broadcastTarget"%string) args.

(** Hash-based. *)
Definition router_hash (hash : list RecordAttribute → S expression_t) (fanout slack : Z) (aff : Affinitizer) (root : op) : S op :=
  let* args := outputArg root in
  let* h := hash args in
  let* _ := slift (check_router root (Some h) HASH_BASED) in
  apply (Router root fanout (without_target args) slack (Some h) HASH_BASED aff).

Definition router (fanout slack : Z) (p : RoutingPolicy) (aff : Affinitizer) (root : op) : S op :=
  let* _ := sassert (negb (bool_decide (p = HASH_BASED))) in
  let* args := outputArg root in
  let* _ := slift (check_router root None p) in
  apply (Router root fanout args slack None p aff).

Definition unionAll (children : list op) (root : op) : S op :=
  let* args := outputArg root in
  let* _ := slift (check_router root None RANDOM) in
  let o := UnionAll (root :: children) args in
  let* _ := smapM (λ _, apply o) children in
  apply o.

(** ** Scans of values *)

(** [scan] of columns of values: they have the same length, and their relation is known. *)
Definition scan_values (data : list (RecordAttribute * list Z)) : S op :=
  match data with
  | [] => slift (Err Undefined)
  | (a, v) :: _ =>
      let pg := VectorPlugin data in
      let* _ := slift (do _ <- ensureRelName data.*1 (relName a); check forallb (λ x, Nat.eqb (length v) (length x.2)) data else AssertFailed; Ok tt) in
      let* row := slift (plugin_row_type pg) in
      let* ii := getInput (relName a) in
      let ii := match ii with Some i => i | None => mk_info (relName a) (BagType (RecordType row)) None end in
      let* _ := setInput (relName a) (mk_info (path ii) (exprType ii) (Some (RecordType row))) in
      let* _ := registerPlugin (relName a) pg in
      scan pg
  end.

End plan.
#[global] Arguments expression_t : clear implicits.
#[global] Arguments op : clear implicits.
End Plan.
