(* ===== verification/PlanParser.v ===== *)
(** * PlanParser: physical plans, read from JSON
    ([PlanExecutor] and [CatalogParser] in [olap/lib/plan/plan-parser.cpp]).

    [parseOperator] reads the operators of a plan bottom up: the input first, then the
    expressions of the operator against the row type of that input, then the builder puts the
    operator on top.  Every operator has its function here.  [plan_ok] is what a plan has to be
    for its operators to make sense: expressions read the rows of the operator's input, sorts
    read tuples and moves read blocks, the implementation fits the device of the input, and so
    on.  Every plan that is read is such a plan. *)

From Stdlib Require Import ZArith Lia Bool.
From stdpp Require Import base numbers list strings gmap.
From S2P Require Import Prelude ExprTypes LLVM Expressions Text Dictionary ExprParser PlanOps.

Local Open Scope Z_scope.
Local Open Scope res_scope.

Module PlanParser.
Import ExprTypes Expressions ExprParser Plan.

Notation "'let*' x := m 'in' k" := (sbind m (λ x, k))
  (at level 200, x pattern, m at level 100, k at level 200).

Section parser.
Context {F V : Type} `{FloatOps F, IRBuilder F V}.
Context (ctx : bool) (UndefValue : llvm_type → V) (dateToTimestamp : string → Z).
Context (read_file : string → Text.str) (parse_file : string → res (json F)).

Abbreviation json := (json F).
Abbreviation op := (op F V).
Abbreviation expr := (expr F V).
Abbreviation expression_t := (expression_t F V).
Abbreviation S := (S (F := F) (V := V)).

Context (env : environment) (moduleName : string) (efuel : nat).

(** ** Where operators run *)

(** [ParserAffinitizationFactory]: decides on instances, policies and places. *)
Record factory : Type := mk_factory {
  dop_of : DeviceType → json → op → res Z;
  policy_of : DeviceType → json → op → res RoutingPolicy;
  affinitizer_of : DeviceType → RoutingPolicy → json → op → Affinitizer;
  getDynamicPgName : string → string
}.

Definition gets (v : json) (k : string) : res string := do x <- at_key v k; GetString x.
Definition getb (v : json) (k : string) : res bool := do x <- at_key v k; GetBool x.
Definition geti (v : json) (k : string) : res Z := do x <- at_key v k; GetInt x.
Definition getu (v : json) (k : string) : res Z := do x <- at_key v k; GetUint64 x.
Definition geta (v : json) (k : string) : res (list json) := do x <- at_key v k; GetArray x.

(** A member that may be missing. *)
Definition optional {A} (v : json) (k : string) (get : json → string → res A) (d : A) : res A :=
  do has <- HasMember v k; if has : bool then get v k else Ok d.

Definition default_dop (_ : DeviceType) (val : json) (_ : op) : res Z :=
  do parents <- HasMember val "numOfParents";
  getu val (if parents : bool then "numOfParents" else "num_of_targets").

Definition default_policy (_ : DeviceType) (val : json) (_ : op) : res RoutingPolicy :=
  do target <- HasMember val "target";
  if target : bool then Ok HASH_BASED
  else
    do rand <- HasMember val "rand_local_cpu";
    do rand_local_cpu <- (if rand : bool then getb val "rand_local_cpu" else Ok false);
    do local <- HasMember val "numa_local";
    do numa_local <- (if local : bool then
                        check negb rand_local_cpu else AssertFailed;
                        check negb rand else AssertFailed;
                        getb val "numa_local"
                      else Ok (negb rand));
    Ok (if numa_local || rand_local_cpu then LOCAL else RANDOM).

Definition default_factory : factory :=
  mk_factory default_dop default_policy (λ trgt _ _ _, match trgt with GPU => GPUAffinitizer | CPU => CpuCoreAffinitizer end)
    (λ _, "binary"%string).

Context (par : factory).

(** ** Expressions and attributes *)

(** The registration of a component of a record. *)
Definition part_registration (args : list RecordAttribute) (v : json) (e : expr) : res (option (string * string)) :=
  do has <- HasMember v "register_as";
  if has : bool then
    do r <- at_key v "register_as";
    do rel <- (do h <- HasMember r "relName"; if h : bool then gets r "relName" else front_relation args);
    do attr <- gets r "attrName";
    Ok (Some (rel, attr))
  else Ok (self_registered e).

Definition read_parts (args : list RecordAttribute) (val : json) (e : expr) : res (list (option (string * string))) :=
  match e with
  | RecordConstruction l =>
      do js <- geta val "attributes";
      rmapM (λ x : (string * expr) * json, do v <- at_key x.2 "e"; part_registration args v x.1.2) (zip l js)
  | _ => Ok []
  end.

Definition parseExpr (args : list RecordAttribute) (val : json) : S expression_t :=
  let* (e, r) := with_catalog (parseExpression ctx args 0 UndefValue dateToTimestamp read_file parse_file efuel val) in
  let* ps := slift (read_parts args val e) in
  sret (mk_e e (match r with Some a => Some (relName a, attrName a) | None => self_registered e end) ps).

Definition parseExprs (args : list RecordAttribute) (val : json) (k : string) : S (list expression_t) :=
  let* l := slift (geta val k) in smapM (parseExpr args) l.

Definition parseAttr (args : list RecordAttribute) (val : json) : S RecordAttribute :=
  with_catalog (parseRecordAttr ctx args (parseExpressionType ctx args efuel) val None (-1)).

(** ** Plug-ins *)

Definition parseProjections (rec : list RecordAttribute) (val : json) : S (list RecordAttribute) :=
  let* l := slift (geta val "projections") in smapM (parseAttr rec) l.

(** The schema of a relation the catalog does not know, numbered from 1. *)
Fixpoint parseSchema (datasetName : string) (attrNo : Z) (l : list json) (rec : list RecordAttribute) : S (list RecordAttribute) :=
  match l with
  | [] => sret rec
  | attr :: l' =>
      let* a := with_catalog (parseRecordAttr_in ctx [] (parseExpressionType ctx [] efuel) attr datasetName None attrNo) in
      parseSchema datasetName (attrNo + 1) l' (appendAttribute rec a)
  end.

Definition delimiter_of (s : string) : Ascii.ascii := match s with String c _ => c | EmptyString => Ascii.zero end.

(** [new] *)
Definition construct (pg : plugin) : S plugin := let* _ := slift (opens env pg) in sret pg.

(** The plug-in of a type; a type that no library exports is that of the plug-in the relation
    already has. *)
Definition parsePgType (val : json) (pgType path : string) (exprType : ExpressionType) (rec : list RecordAttribute) : S plugin :=
  if String.eqb pgType "csv" then
    let* projs := parseProjections rec val in
    let* linehint := slift (geti val "lines") in
    let* policy := slift (geti val "policy") in
    let* delim := slift (optional val "delimiter" (λ v k, do s <- gets v k; Ok (delimiter_of s)) (Ascii.ascii_of_nat 44)) in
    let* brackets := slift (optional val "brackets" getb true) in
    let* hasHeader := slift (optional val "hasHeader" getb false) in
    construct (CSVPlugin path rec projs delim linehint policy brackets hasHeader)
  else if String.eqb pgType "json" then
    let* linehint := slift (geti val "lines") in construct (JSONPlugin path exprType linehint)
  else if String.eqb pgType "binrow" then
    let* projs := parseProjections rec val in construct (BinaryRowPlugin path rec projs)
  else if String.eqb pgType "bincol" then
    let* projs := parseProjections rec val in
    let* sizeInFile := slift (optional val "sizeInFile" getb true) in
    construct (BinaryColPlugin path rec projs sizeInFile)
  else if String.eqb pgType "block" then
    let* projs := parseProjections rec val in construct (BinaryBlockPlugin path rec projs)
  else if dlsym env (creator pgType) then
    let* projs := parseProjections rec val in construct (LoadedPlugin (creator pgType) path rec projs)
  else getPlugin path.

Definition parsePlugin (val : json) : S plugin :=
  let* name := slift (gets val "name") in
  let* ty := slift (gets val "type") in
  let dynamic := String.eqb ty "dynamic" in
  let pgType := if dynamic then getDynamicPgName par ty else ty in
  let datasetName := if dynamic then (name +:+ "<" +:+ pgType +:+ ">")%string else name in
  let* known := getInput datasetName in
  let* info :=
    match known with
    | Some i => sret i
    | None =>
        let* hasSchema := slift (HasMember val "schema") in
        if hasSchema : bool then
          let* l := slift (geta val "schema") in
          let* rec := parseSchema datasetName 1 l [] in
          let i := mk_info datasetName (BagType (RecordType rec)) None in
          let* _ := setInput datasetName i in sret i
        else sret (mk_info datasetName (BagType (RecordType [])) None)
    end in
  let* rec := slift (match nested (exprType info) with Some (RecordType args) => Ok args | _ => Err Throw end) in
  let* pg := parsePgType val pgType (path info) (exprType info) rec in
  let* _ := (λ s, Ok (tt, set_active (activePlugins s ++ [pg]) s)) in
  let* _ := registerPlugin (path info) pg in
  let* oid := slift (plugin_oid_type env pg) in
  let* _ := setInput datasetName (mk_info (path info) (exprType info) (Some oid)) in
  sret pg.

(** ** Operators *)

Section operators.
Context (parseOp : json → S op).

(** The operator under a key, which some operators assert to be an object first. *)
Definition input_at (k : string) (val : json) : S op := let* v := slift (at_key val k) in parseOp v.
Definition object_at (k : string) (val : json) : S op :=
  let* v := slift (at_key val k) in let* _ := sassert (IsObject v) in parseOp v.

Definition expr_at (args : list RecordAttribute) (k : string) (val : json) : S expression_t :=
  let* v := slift (at_key val k) in parseExpr args v.
Definition object_expr_at (args : list RecordAttribute) (k : string) (val : json) : S expression_t :=
  let* v := slift (at_key val k) in let* _ := sassert (IsObject v) in parseExpr args v.

Definition parse_accumulators (val : json) (child : op) : S (list Monoid) :=
  let* l := slift (geta val "accumulator") in
  smapM (λ a, let* n := slift (GetString a) in let* _ := outputArg env child in slift (parseAccumulator n)) l.

(** A reduction has no predicate but [true]. *)
Definition parse_reduce (val : json) : S op :=
  let* child := input_at "input" val in
  let* accs := parse_accumulators val child in
  let* hasP := slift (HasMember val "p") in
  let* _ := (if hasP : bool then
               let* args := outputArg env child in
               let* p := expr_at args "p" val in
               slift (match ex p with BoolConstant b => check b else AssertFailed; Ok tt | _ => Err Throw end)
             else sret tt) in
  let* args := outputArg env child in
  let* e := parseExprs args val "e" in
  reduce env e accs child.

Definition output_plugin (val : json) : res string :=
  do has <- HasMember val "plugin";
  if has : bool then do pg <- at_key val "plugin"; gets pg "type" else Ok "pm-csv"%string.

(** The expressions to print are registered. *)
Definition parse_outputs (val : json) (args : list RecordAttribute) : S (list expression_t) :=
  let* l := slift (geta val "e") in
  smapM (λ v, let* e := parseExpr args v in let* _ := sassert (isRegistered e) in sret e) l.

Definition parse_print (val : json) : S op :=
  let* child := input_at "input" val in
  let* pgType := slift (output_plugin val) in
  let* hasE := slift (HasMember val "e") in
  if hasE : bool then print env (parse_outputs val) pgType moduleName child
  else print_all env pgType moduleName child.

Definition parse_insert_into (val : json) : S op :=
  let* child := input_at "input" val in
  let* pgType := slift (output_plugin val) in
  let* name := slift (gets val "name") in
  print env (parse_outputs val) pgType name child.

Definition parse_direction (dir : string) : res direction :=
  if String.eqb dir "ASC" then Ok ASC
  else if String.eqb dir "NONE" then Ok NONE
  else if String.eqb dir "DESC" then Ok DESC
  else Err AssertFailed.

Definition parse_sort (val : json) : S op :=
  let* child := input_at "input" val in
  let* l := slift (geta val "e") in
  let* d := slift (rmapM (λ v, do dir <- gets v "direction"; parse_direction dir) l) in
  let* packed := slift (isPacked env child) in
  let* _ := slift (check negb packed else Throw; Ok tt) in
  let* args := outputArg env child in
  let* e := smapM (object_expr_at args "expression") l in
  sort env e d child.

Definition parse_project (val : json) : S op :=
  let* child := input_at "input" val in
  let* args := outputArg env child in
  let* e := parseExprs args val "e" in
  project_ env e child.

(** The path of an unnesting is a projection; it needs the plug-in of its relation. *)
Definition parse_path (val : json) (args : list RecordAttribute) : S expression_t :=
  let* p := slift (at_key val "path") in
  let* _ := sassert (IsObject p) in
  let* e := object_expr_at args "e" p in
  slift (match ex e with RecordProjection _ _ => Ok e | _ => Err Throw end).

Definition path_plugin (e : expr) : S plugin :=
  match e with RecordProjection _ a => getPlugin (originalRelName a) | _ => slift (Err AssertFailed) end.

Definition parse_unnest (val : json) : S op :=
  let* child := input_at "input" val in
  let* args := outputArg env child in
  let* p := object_expr_at args "p" val in
  let* e := parse_path val args in
  let* pathAlias := slift (match reg e with
                           | Some r => Ok r.2
                           | None => do p <- at_key val "path"; gets p "name"
                           end) in
  let* pg := path_plugin (ex e) in
  let* name := slift (path_string (ex e)) in
  let* _ := registerPlugin name pg in
  sret (Unnest p pathAlias (ex e) pg child).

Definition parse_outer_unnest (val : json) : S op :=
  let* child := input_at "input" val in
  let* args := outputArg env child in
  let* p := object_expr_at args "p" val in
  let* pathAlias := slift (do p <- at_key val "path"; check IsObject p else AssertFailed; gets p "name") in
  let* e := parse_path val args in
  let* pg := path_plugin (ex e) in
  sret (OuterUnnest p pathAlias (ex e) pg child).

Definition parse_aggregate (args : list RecordAttribute) (v : json) : S GpuAggrMatExpr :=
  let* m := slift (gets v "m") in
  let* packet := slift (geti v "packet") in
  let* offset := slift (geti v "offset") in
  let* e := expr_at args "e" v in
  let* acc := slift (parseAccumulator m) in
  sret (mk_agg e (u64 packet) (u64 offset) acc).

Definition parse_groupby (val : json) : S op :=
  let* child := object_at "input" val in
  let* hash_bits := slift (getu val "hash_bits") in
  let* maxInputSize := slift (getu val "maxInputSize") in
  let* args := outputArg env child in
  let* k := parseExprs args val "k" in
  let* l := slift (geta val "e") in
  let* e := smapM (parse_aggregate args) l in
  groupby env k e hash_bits maxInputSize child.

Definition parse_hashjoin (val : json) : S op :=
  let* probe := object_at "probe_input" val in
  let* build := object_at "build_input" val in
  let* hash_bits := slift (getu val "hash_bits") in
  let* maxBuildInputSize := slift (getu val "maxBuildInputSize") in
  let* build_arg := outputArg env build in
  let* build_k := expr_at build_arg "build_k" val in
  let* probe_arg := outputArg env probe in
  let* probe_k := expr_at probe_arg "probe_k" val in
  join env build build_k probe_k hash_bits maxBuildInputSize probe.

(** ** Partitioned joins *)

Definition parse_mat (args : list RecordAttribute) (v : json) : S GpuMatExpr :=
  let* packet := slift (geti v "packet") in
  let* offset := slift (geti v "offset") in
  let* e := expr_at args "e" v in
  sret (mk_mat e (u64 packet) (u64 offset)).

Definition parse_widths (val : json) (k : string) : res (list Z) :=
  do l <- geta val k; rmapM (λ w, do z <- GetInt w; Ok (u64 z)) l.

Definition optional_expr (args : list RecordAttribute) (k : string) (val : json) : S (option expression_t) :=
  let* has := slift (HasMember val k) in
  if has : bool then let* e := expr_at args k val in sret (Some e) else sret None.

Definition log_parts : Z := 13.

Definition parse_partitioned_hashjoin (val : json) : S op :=
  let* probe := object_at "probe_input" val in
  let* probe_arg := outputArg env probe in
  let* build := object_at "build_input" val in
  let* build_arg := outputArg env build in
  let* build_k := expr_at build_arg "build_k" val in
  let* probe_k := expr_at probe_arg "probe_k" val in
  let* build_minor := optional_expr build_arg "build_k_minor" val in
  let* probe_minor := optional_expr probe_arg "probe_k_minor" val in
  let* build_w := slift (parse_widths val "build_w") in
  let* l := slift (geta val "build_e") in
  let* build_e := smapM (parse_mat build_arg) l in
  let* probe_w := slift (parse_widths val "probe_w") in
  let* l := slift (geta val "probe_e") in
  let* probe_e := smapM (parse_mat probe_arg) l in
  let* maxBuild := slift (getu val "maxBuildInputSize") in
  let* maxProbe := slift (getu val "maxProbeInputSize") in
  let leftOp := HashPartitioner build_e build_w build_k build maxBuild log_parts "part1" in
  let rightOp := HashPartitioner probe_e probe_w probe_k probe maxProbe log_parts "part1" in
  sret (GpuPartitionedHashJoinChained build_e build_w build_k build_minor leftOp probe_e probe_w probe_k probe_minor rightOp
          maxBuild maxProbe log_parts "phjc").

(** ** Joins larger than a GPU's memory *)

(** A field of an input: as it is, as it is hashed, and as it is joined. *)
Record zip_field : Type := mk_zip {
  z_expr : expression_t; z_attr : RecordAttribute;
  z_hashed : expression_t; z_hashed_block : expression_t; z_hashed_attr : RecordAttribute;
  z_join : GpuMatExpr (F := F) (V := V); z_prejoin : expression_t
}.

Definition parse_zip_field (args : list RecordAttribute) (e : json) : S zip_field :=
  let* original := slift (at_key e "original") in
  let* _ := sassert (IsObject original) in
  let* x := parseExpr args original in
  let* attribute := slift (at_key original "attribute") in
  let* _ := sassert (IsObject attribute) in
  let* recAttr := parseAttr args attribute in
  let* hashed := slift (at_key e "hashed") in
  let* _ := sassert (IsObject hashed) in
  let* xh := parseExpr args hashed in
  let* xhb := object_expr_at args "hashed-block" e in
  let* _ := slift (do a <- at_key hashed "attribute"; check IsObject a else AssertFailed; Ok tt) in
  let* v := slift (at_key hashed "register_as") in
  let* recHashedAttr := parseAttr args v in
  let* j := slift (at_key e "join") in
  let* _ := sassert (IsObject j) in
  let* m := parse_mat args j in
  let* je := slift (at_key j "e") in
  let* v := slift (at_key je "attribute") in
  let* _ := sassert (IsObject v) in
  let* recJoinAttr := parseAttr args v in
  let* pre := parseExpr args je in
  sret (mk_zip x recAttr xh xhb recHashedAttr m (as_ pre (relName recJoinAttr) (attrName recJoinAttr))).

(** One input: its fields, the attribute of the hash, and the widths of the packets. *)
Definition parse_zip_side (args : list RecordAttribute) (val : json) (e hash : string) : S (list zip_field * RecordAttribute) :=
  let* l := slift (geta val e) in
  let* fields := smapM (λ v, let* _ := sassert (IsObject v) in parse_zip_field args v) l in
  let* h := slift (do h <- at_key val hash; at_key h "attribute") in
  let* hash_attr := parseAttr args h in
  sret (fields, hash_attr).

(** An input, partitioned on the CPUs: it is spread over the partitioners, unpacked, packed by
    its hash and gathered again. *)
Definition zip_prepare (input : op) (fields : list zip_field) (hash_attr : RecordAttribute) (buckets partitioners slack : Z) : res op :=
  let block := (λ f, RecordAttribute_copy (z_attr f) true) <$> fields in
  let xs := z_expr <$> fields in
  do _ <- check_router input None LOCAL;
  do x0 <- of_option Undefined (head xs);
  let part := HashRearrange false (BlockToTuples (Router input partitioners block slack None LOCAL (DefaultAffinitizer CPU)) xs false THREAD)
                buckets xs x0 (Some hash_attr) in
  do _ <- check_router part None LOCAL;
  Ok (Router part 1 (block ++ [hash_attr]) slack None LOCAL (DefaultAffinitizer GPU)).

(** A partition, moved to a GPU and partitioned there. *)
Definition zip_partition (targetAttr : RecordAttribute) (initiator : op) (fields : list zip_field) (widths : list Z) (maxInput : Z)
    (label : string) (s : side) : res op :=
  let block := (λ f, RecordAttribute_copy (z_hashed_attr f) true) <$> fields in
  do x0 <- of_option Undefined (head (z_prejoin <$> fields));
  Ok (HashPartitioner (z_join <$> fields) widths x0
        (BlockToTuples (CpuToGpu (MemMoveDevice (ZipForward targetAttr initiator (z_hashed <$> fields) s) block 4 false) block)
           (z_prejoin <$> fields) true GRID)
        maxInput log_parts label).

Definition coordinator : string := "coordinator".
Definition attr_ptr : RecordAttribute := mk_attr coordinator "ptr" coordinator (BlockType IntType) 1 false.
Definition attr_target : RecordAttribute := mk_attr coordinator "target" coordinator IntType 1 false.
Definition attr_splitter : RecordAttribute := mk_attr coordinator "splitter" coordinator IntType 2 false.
Definition coord_attrs : list RecordAttribute := [attr_ptr; attr_target; attr_splitter].

(** The two inputs meet in the coordinator, which hands out pairs of partitions. *)
Definition zip_join (build probe : op) (bf pf : list zip_field) (bh ph : RecordAttribute) (buckets partitioners concurrent slack : Z)
    (build_w probe_w : list Z) (maxBuild maxProbe : Z) : res op :=
  do xb <- zip_prepare build bf bh buckets partitioners slack;
  do xp <- zip_prepare probe pf ph buckets partitioners slack;
  do target <- project (InputArgument coord_attrs (-1)) attr_target;
  do b0 <- of_option Undefined (head bf);
  do p0 <- of_option Undefined (head pf);
  let coord := ZipCollect attr_ptr attr_splitter attr_target (RecordAttribute_copy (z_attr b0) true) (RecordAttribute_copy (z_attr p0) true)
                 xb xp buckets bh (z_hashed_block <$> bf) ph (z_hashed_block <$> pf) in
  do _ <- check_router coord (Some (of_expr target)) HASH_BASED;
  let initiator := ZipInitiate attr_ptr attr_splitter attr_target
                     (Router coord concurrent coord_attrs slack (Some (of_expr target)) HASH_BASED (DefaultAffinitizer GPU)) buckets in
  do hb <- zip_partition attr_target initiator bf build_w maxBuild "partition_hash_1" Left;
  do hp <- zip_partition attr_target initiator pf probe_w maxProbe "partition_hash_2" Right;
  Ok (GpuPartitionedHashJoinChained (z_join <$> bf) build_w (m_expr (z_join b0)) None hb (z_join <$> pf) probe_w (m_expr (z_join p0)) None hp
        maxBuild maxProbe log_parts "hj_part").

(** The widths of the probe side are asserted to be there and taken from the build side. *)
Definition parse_out_of_gpu_join (val : json) : S op :=
  let* probe := object_at "probe_input" val in
  let* probe_arg := outputArg env probe in
  let* build := object_at "build_input" val in
  let* build_arg := outputArg env build in
  let* buckets := slift (geti val "numOfBuckets") in
  let* partitioners := slift (geti val "numPartitioners") in
  let* concurrent := slift (geti val "numConcurrent") in
  let* maxBuild := slift (geti val "maxBuildInputSize") in
  let* maxProbe := slift (geti val "maxProbeInputSize") in
  let* slack := slift (geti val "slack") in
  let* (bf, bh) := parse_zip_side build_arg val "build_e" "build_hash" in
  let* build_w := slift (parse_widths val "build_w") in
  let* (pf, ph) := parse_zip_side probe_arg val "probe_e" "probe_hash" in
  let* _ := slift (geta val "probe_w") in
  let* probe_w := slift (parse_widths val "build_w") in
  let* _ := with_catalog (bind (getOrCreateInputInfo ctx coordinator) (λ info,
              bind (lift (match nested info with
                          | None => Err Undefined
                          | Some (RecordType args) => Ok args
                          | Some _ => Err Throw
                          end)) (λ args,
              setInputInfo coordinator (BagType (RecordType (foldl appendAttribute args coord_attrs)))))) in
  slift (zip_join build probe bf pf bh ph buckets (u64 partitioners) (u64 concurrent) (u64 slack) build_w probe_w (u64 maxBuild) (u64 maxProbe)).

(** ** Legacy joins and nests *)

(** The identifiers of the relations, by name. *)
Fixpoint insert_oid (r : string) (a : RecordAttribute) (l : list (string * RecordAttribute)) : list (string * RecordAttribute) :=
  match l with
  | [] => [(r, a)]
  | (r', a') :: l' => if String.ltb r r' then (r, a) :: l else (r', a') :: insert_oid r a l'
  end.

(** A field to materialise: the first of a relation brings the relation's identifier along, in
    front.  (A relation whose plug-in has not been opened has no type of identifiers.) *)
Definition mat_field (args : list RecordAttribute) (acc : Materializer * list (string * RecordAttribute)) (v : json) :
    S (Materializer * list (string * RecordAttribute)) :=
  let '(mk_materializer fields exprs _ modes, oids) := acc in
  let* e := parseExpr args v in
  match ex e with
  | RecordProjection inner a =>
      let fields := fields ++ [a] in let exprs := exprs ++ [e] in let modes := EAGER :: modes in
      if existsb (λ x, String.eqb x.1 (relName a)) oids then sret (mk_materializer fields exprs [] modes, oids)
      else
        let* info := getInput (relName a) in
        let* info := slift (of_option Throw info) in
        let* t := slift (of_option Undefined (oidType info)) in
        let* oid := slift (RecordAttribute_oid (relName a) activeLoop t) in
        let* oidProj := slift (project inner oid) in
        sret (mk_materializer fields (of_expr oidProj :: exprs) [] (EAGER :: modes), insert_oid (relName a) oid oids)
  | _ => slift (Err Throw)
  end.

Fixpoint mat_fields (args : list RecordAttribute) (acc : Materializer * list (string * RecordAttribute)) (l : list json) : S Materializer :=
  match l with
  | [] => let '(mk_materializer fields exprs _ modes, oids) := acc in sret (mk_materializer fields exprs oids.*2 modes)
  | v :: l' => let* acc := mat_field args acc v in mat_fields args acc l'
  end.

Definition parse_materializer (args : list RecordAttribute) (val : json) (k : string) : S Materializer :=
  let* l := slift (geta val k) in mat_fields args (mk_materializer [] [] [] [], []) l.

(** [new RadixJoin]: keys of 32 bits.  (What its output plug-ins make of the fields is not looked at.) *)
Definition parse_join (val : json) : S op :=
  let* gpu := slift (optional val "gpu" getb false) in
  let* _ := sassert (negb gpu) in
  let* leftOp := input_at "leftInput" val in
  let* rightOp := input_at "rightInput" val in
  let* pred := slift (at_key val "p") in
  let* _ := sassert (IsObject pred) in
  let* kind := slift (gets pred "expression") in
  let* _ := sassert (String.eqb kind "eq") in
  let* left_arg := outputArg env leftOp in
  let* el := expr_at left_arg "left" pred in
  let* right_arg := outputArg env rightOp in
  let* er := expr_at right_arg "right" pred in
  let* matLeft := parse_materializer left_arg val "leftFields" in
  let* matRight := parse_materializer right_arg val "rightFields" in
  let* t := slift (getLLVMType (getExpressionType (ex el))) in
  let* _ := slift (check getSizeOf env t =? 4 else Throw; Ok tt) in
  sret (RadixJoin el er leftOp rightOp matLeft matRight).

(** [new radix::Nest]: as many accumulators as expressions and labels; its table has a plug-in. *)
Definition make_Nest (accs : list Monoid) (es : list expression_t) (labels : list string) (pred grouping nulls : expression_t)
    (child : op) (mat : Materializer) : S op :=
  let* _ := slift (check Nat.eqb (length accs) (length es) && Nat.eqb (length accs) (length labels) else Throw; Ok tt) in
  let* pg := construct (CSVPlugin "radixNest" [] [] (Ascii.ascii_of_nat 59) 1 1 true false) in
  let* _ := registerPlugin "radixNest" pg in
  let* _ := sassert (getSizeOf env (TInt 64) =? 8) in
  sret (Nest accs es labels pred grouping nulls child mat).

Definition parse_nest (val : json) : S op :=
  let* child := object_at "input" val in
  let* args := outputArg env child in
  let* accs := parse_accumulators val child in
  let* l := slift (geta val "aggrLabels") in
  let* labels := slift (rmapM GetString l) in
  let* pred := object_expr_at args "p" val in
  let* grouping := object_expr_at args "f" val in
  let* nulls := object_expr_at args "g" val in
  let* es := parseExprs args val "e" in
  let* mat := parse_materializer args val "fields" in
  make_Nest accs es labels pred grouping nulls child mat.

(** ** Selections and scans *)

Definition parse_select (val : json) : S op :=
  let* child := object_at "input" val in
  let* args := outputArg env child in
  let* p := object_expr_at args "p" val in
  filter_ env p child.

Definition parse_scan (val : json) : S op :=
  let* v := slift (at_key val "plugin") in
  let* _ := sassert (IsObject v) in
  let* pg := parsePlugin v in
  scan pg.

(** A column of 32-bit or 64-bit integers. *)
Definition parse_column (relName : string) (v : json) : S (RecordAttribute * list Z) :=
  let* name := slift (gets v "attrName") in
  let* l := slift (geta v "v") in
  let* ty := slift (at_key v "type") in
  let* t := with_catalog (parseExpressionType ctx [] efuel ty) in
  let* zs := slift (match t with
                    | IntType => rmapM GetInt l
                    | Int64Type => rmapM GetInt64 l
                    | _ => Err Throw
                    end) in
  let* a := slift (RecordAttribute_oid relName name t) in
  sret (a, zs).

Definition parse_values (val : json) : S op :=
  let* l := slift (geta val "values") in
  let* rel := slift (gets val "relName") in
  let* data := smapM (parse_column rel) l in
  scan_values env data.

Definition string_of_bytes (s : Text.str) : string := String.string_of_list_ascii ((λ b, Ascii.ascii_of_N (Z.to_N b)) <$> s).

(** The strings of a dictionary that match: a relation of its own, of one attribute. *)
Definition parse_dict_scan (val : json) : S op :=
  let* rel := slift (gets val "relName") in
  let* attr := slift (gets val "attrName") in
  let* regex := slift (gets val "regex") in
  let dictRelName := (rel +:+ "$dict$" +:+ attr)%string in
  let* m := slift (Dictionary.getDictionaryOf (read_file (rel +:+ "." +:+ attr +:+ ".dict")%string)) in
  let t := DStringType (Some ((λ x : Z * Text.str, (x.1, string_of_bytes x.2)) <$> map_to_list m)) in
  let* reg_as := slift (RecordAttribute_oid dictRelName attr t) in
  let* _ := with_catalog (bind (getOrCreateInputInfo ctx dictRelName) (λ info,
              bind (lift (match nested info with
                          | None => Err Undefined
                          | Some (RecordType args) => Ok args
                          | Some _ => Err Throw
                          end)) (λ args,
              setInputInfo dictRelName (BagType (RecordType (appendAttribute args reg_as)))))) in
  let* a := slift (RecordAttribute_oid rel attr t) in
  sret (DictScan a regex reg_as).

(** ** Devices, blocks and exchanges *)

Definition parse_cpu_to_gpu (val : json) : S op := let* child := object_at "input" val in to_gpu env child.
Definition parse_unpack (val : json) : S op := let* child := object_at "input" val in unpack env child.
Definition parse_pack (val : json) : S op := let* child := object_at "input" val in pack env child.

Definition lowercase (s : string) : string :=
  String.string_of_list_ascii ((λ c, let n := Ascii.nat_of_ascii c in
    if (65 <=? n)%nat && (n <=? 90)%nat then Ascii.ascii_of_nat (n + 32) else c) <$> String.list_ascii_of_string s).

Definition parse_granularity (s : string) : res gran_t :=
  let g := lowercase s in
  if String.eqb g "grid" then Ok GRID
  else if String.eqb g "block" then Ok BLOCK_
  else if String.eqb g "thread" then Ok THREAD
  else Err AssertFailed.

Definition parse_gpu_to_cpu (val : json) : S op :=
  let* child := object_at "input" val in
  let* size := slift (geti val "queueSize") in
  let* g := slift (do s <- gets val "granularity"; parse_granularity s) in
  to_cpu_ env g (u64 size) child.

Definition parse_hash_rearrange (val : json) : S op :=
  let* child := object_at "input" val in
  let* numOfBuckets := slift (optional val "buckets" geti 2) in
  let* args := outputArg env child in
  let* projections := parseExprs args val "projections" in
  let* hashExpr := object_expr_at args "e" val in
  let* has := slift (HasMember val "hashProject") in
  let* hashExpr := (if has : bool then
                      let* v := slift (at_key val "hashProject") in
                      let* a := parseAttr args v in sret (as_ hashExpr (relName a) (attrName a))
                    else sret hashExpr) in
  pack_exprs env projections hashExpr numOfBuckets child.

Definition parse_mem_move_device (val : json) : S op :=
  let* child := object_at "input" val in
  let* to_cpu := slift (optional val "to_cpu" getb false) in
  let* slack := slift (optional val "slack" geti 8) in
  let* args := outputArg env child in
  let* has := slift (HasMember val "do_transfer") in
  let* _ := (if has : bool then
               let* l := slift (geta val "do_transfer") in
               let* _ := sassert (Nat.eqb (length l) (length args)) in
               smapM (λ a, let* b := slift (GetBool a) in sassert b) l
             else sret []) in
  memmove env (u64 slack) (if to_cpu : bool then CPU else GPU) child.

Definition parse_mem_broadcast_device (val : json) : S op :=
  let* child := object_at "input" val in
  let* to_cpu := slift (optional val "to_cpu" getb false) in
  let* always_share := slift (optional val "always_share" getb false) in
  let dev := if to_cpu : bool then CPU else GPU in
  let* dop := slift (dop_of par dev val child) in
  let* _ := sassert (negb (dop =? 1)) in
  membrdcst env dop to_cpu always_share child.

Definition parse_mem_move_local_to (val : json) : S op :=
  let* child := object_at "input" val in
  let* args := outputArg env child in
  let* l := slift (geta val "projections") in
  let* projections := smapM (λ v, let* _ := sassert (IsObject v) in parseAttr args v) l in
  let* slack := slift (optional val "slack" geti 8) in
  sret (MemMoveLocalTo child projections (u64 slack)).

Definition parse_router (val : json) : S op :=
  let* child := object_at "input" val in
  let* slack := slift (optional val "slack" getu 8) in
  let* cpu := slift (optional val "cpu_targets" getb false) in
  let targets := if cpu : bool then CPU else GPU in
  let* dop := slift (dop_of par targets val child) in
  let* policy := slift (policy_of par targets val child) in
  let aff := affinitizer_of par targets policy val child in
  let* has := slift (HasMember val "target") in
  if has : bool then
    let* _ := sassert (bool_decide (policy = HASH_BASED)) in
    router_hash env (λ args, object_expr_at args "target" val) dop slack aff child
  else router env dop slack policy aff child.

Definition parse_union_all (val : json) : S op :=
  let* l := slift (geta val "input") in
  let* children := smapM (λ v, let* _ := sassert (IsObject v) in parseOp v) l in
  match children with
  | c :: (_ :: _) as rest => unionAll env rest c
  | _ => slift (Err AssertFailed)
  end.

(** A split is read with its input for the first of its parents and taken from the table for the
    second; the flag [numa_local] starts as false and must be true where it is read. *)
Definition parse_new_split (split_id : Z) (val : json) : S op :=
  let* child := object_at "input" val in
  let* args := outputArg env child in
  let* numOfParents := slift (geti val "numOfParents") in
  let* slack := slift (optional val "slack" geti 8) in
  let* target := slift (HasMember val "target") in
  let* hash := (if target : bool then let* e := object_expr_at args "target" val in sret (Some e) else sret None) in
  let* rand := slift (HasMember val "rand_local_cpu") in
  let* _ := sassert (negb (rand && target)) in
  let* rand_local_cpu := slift (if rand : bool then getb val "rand_local_cpu" else Ok false) in
  let* local := slift (HasMember val "numa_local") in
  let* _ := sassert (negb local) in
  let policy := if rand_local_cpu then LOCAL else match hash with Some _ => HASH_BASED | None => RANDOM end in
  let* _ := slift (check_router child hash policy) in
  let o := Split child (u64 numOfParents) (without_target args) (u64 slack) hash policy in
  let* _ := (λ s, Ok (tt, set_splits (<[split_id := o]> (splitOps s)) s)) in
  sret o.

Definition parse_split (val : json) : S op :=
  let* id := slift (geti val "split_id") in
  let split_id := u64 id in
  let* known := (λ s, Ok (splitOps s !! split_id, s)) in
  match known with
  | None => parse_new_split split_id val
  | Some o => let* _ := (λ s, Ok (tt, set_splits (delete split_id (splitOps s)) s)) in sret o
  end.

(** ** The plan *)

(** The operators by name. *)
Definition dispatch (opName : string) (val : json) : S op :=
  if String.eqb opName "reduce" then parse_reduce val
  else if String.eqb opName "print" then parse_print val
  else if String.eqb opName "insert-into" then parse_insert_into val
  else if String.eqb opName "sort" then parse_sort val
  else if String.eqb opName "project" then parse_project val
  else if String.eqb opName "unnest" then parse_unnest val
  else if String.eqb opName "outer_unnest" then parse_outer_unnest val
  else if String.eqb opName "groupby" || String.eqb opName "hashgroupby-chained" then parse_groupby val
  else if String.eqb opName "out-of-gpu-join" then parse_out_of_gpu_join val
  else if String.eqb opName "partitioned-hashjoin-chained" then parse_partitioned_hashjoin val
  else if String.eqb opName "hashjoin-chained" then parse_hashjoin val
  else if String.eqb opName "join" then parse_join val
  else if String.eqb opName "nest" then parse_nest val
  else if String.eqb opName "select" then parse_select val
  else if String.eqb opName "scan" then parse_scan val
  else if String.eqb opName "values" then parse_values val
  else if String.eqb opName "dict-scan" then parse_dict_scan val
  else if String.eqb opName "cpu-to-gpu" then parse_cpu_to_gpu val
  else if String.eqb opName "block-to-tuples" || String.eqb opName "unpack" then parse_unpack val
  else if String.eqb opName "gpu-to-cpu" then parse_gpu_to_cpu val
  else if String.eqb opName "tuples-to-block" || String.eqb opName "pack" then parse_pack val
  else if String.eqb opName "hash-rearrange" || String.eqb opName "hash-pack" then parse_hash_rearrange val
  else if String.eqb opName "mem-move-device" then parse_mem_move_device val
  else if String.eqb opName "mem-broadcast-device" then parse_mem_broadcast_device val
  else if String.eqb opName "mem-move-local-to" then parse_mem_move_local_to val
  else if String.eqb opName "exchange" || String.eqb opName "router" then parse_router val
  else if String.eqb opName "union-all" then parse_union_all val
  else if String.eqb opName "split" then parse_split val
  else slift (Err Throw).

End operators.

Fixpoint parseOperator (fuel : nat) (val : json) : S op :=
  match fuel with
  | O => slift (Err Blocked)
  | Datatypes.S fuel => let* opName := slift (gets val "operator") in dispatch (parseOperator fuel) opName val
  end.

(** A plan starts without splits. *)
Definition parsePlan (fuel : nat) (doc : json) : S op := λ s, parseOperator fuel doc (set_splits ∅ s).

End parser.
End PlanParser.
