(* ===== verification/PlanTyping.v ===== *)
(** * PlanTyping: what the plans that are read look like

    [plan_ok] are the typing rules that the reader enforces: the expressions of an operator read the
    rows of its input, sorts read tuples and moves read blocks, the implementation of a
    reduction, grouping, sort, pack or unpack is the one for the device of its input and that of a
    join the one for its probe side, a join keeps a table per instance only if
    every instance sees the whole build side.  The devices below transfers and build sides and the
    parallelism of the inputs of a union are not checked.  The parser is followed with a small program
    logic: [yields m Q] says that whatever [m] returns satisfies [Q], from any state whose
    catalog and splits are sound, and that they stay so. *)

From Stdlib Require Import ZArith Lia Bool.
From stdpp Require Import base numbers list strings gmap.
From S2P Require Import Prelude ExprTypes LLVM Expressions Text Dictionary ExprParser PlanOps PlanParser.

Local Open Scope Z_scope.
Local Open Scope res_scope.

Module PlanTyping.
Import ExprTypes Expressions ExprParser Plan PlanParser.

(** ** Expressions over a row type *)

Section scoped.
Context {F V : Type}.

(** The arguments of an expression are the rows of one input. *)
Fixpoint scoped (args : list RecordAttribute) (e : expr F V) : Prop :=
  match e with
  | InputArgument a n => a = args ∧ n = 0
  | RecordProjection e _ | HintExpression e | HashExpression e | NegExpression e | TestNullExpression e _
  | ExtractExpression e _ | CastExpression _ e | RefExpression e => scoped args e
  | RecordConstruction l =>
      (fix go (l : list (string * expr F V)) : Prop := match l with [] => True | x :: l' => scoped args x.2 ∧ go l' end) l
  | IfThenElse c t e => scoped args c ∧ scoped args t ∧ scoped args e
  | Binary _ l r | AssignExpression l r => scoped args l ∧ scoped args r
  | _ => True
  end.

Lemma scoped_record args l : scoped args (RecordConstruction l) ↔ Forall (λ x, scoped args x.2) l.
Proof. cbn [scoped]. induction l as [| x l IH]; [by split; [constructor |] |]. by rewrite Forall_cons, <- IH. Qed.

(** A projection reads what it projects from. *)
Lemma project_in_scoped args (proj : RecordAttribute) n : ∀ t (e e' : expr F V), (tsize t <= n)%nat →
  scoped args e → project_in t e proj = Ok e' → scoped args e'.
Proof.
  induction n as [| n IH]; intros t e e' Hn He; [destruct t; simpl in Hn; lia |].
  destruct t as [| | | | | | | | | | | | l]; try done. cbn [project_in].
  destruct (getArg l (attrName proj)) as [p |].
  - destruct (String.eqb _ _); [by intros [= <-] |]. destruct (List.find _ l) as [p2 |]; [by intros [= <-] |].
    intros Hp. res_inv. done.
  - intros Hp. apply rbind_Ok_inv in Hp as (dollar & _ & Hp). destruct dollar as [p |]; [by injection Hp as <- |].
    simpl in Hn. assert (sum_list_with (λ a, tsize (type a)) l <= n)%nat as Hl by lia. clear Hn.
    induction l as [| a l IHl]; simpl in Hp, Hl.
    + destruct (String.eqb _ _); [by injection Hp as <- | done].
    + destruct (type a) eqn:Ht; try (apply IHl; [done | lia]).
      destruct (project_in (RecordType args0) (RecordProjection e a) proj) as [e1 | []] eqn:E;
        try (apply IHl; [done | lia]); try done.
      injection Hp as <-. eapply IH; [| | exact E]; [lia | done].
Qed.

Lemma project_scoped args e proj e' : scoped args e → project (F := F) (V := V) e proj = Ok e' → scoped args e'.
Proof. intros He Hp. by eapply (project_in_scoped args proj (tsize (getExpressionType e))). Qed.

End scoped.

(** ** The parser of expressions *)

(** [gives m Q]: what [m] returns satisfies [Q], and the catalog stays one of record collections. *)
Definition gives {A} (m : P A) (Q : A → Prop) : Prop := ∀ c a c', wf_catalog c → m c = Ok (a, c') → Q a ∧ wf_catalog c'.

Lemma gives_ret {A} (a : A) (Q : A → Prop) : Q a → gives (ret a) Q.
Proof. by intros HQ c a' c' Hc [= <- <-]. Qed.

Lemma gives_fail {A} e (Q : A → Prop) : gives (fail e) Q.
Proof. by intros c a c' Hc. Qed.

Lemma gives_lift {A} (r : res A) (Q : A → Prop) : (∀ a, r = Ok a → Q a) → gives (lift r) Q.
Proof. intros Hr c a c' Hc. unfold lift. destruct r; [| done]. intros [= <- <-]. by split; [apply Hr |]. Qed.

Lemma gives_bind {A B} (m : P A) (f : A → P B) (Q : A → Prop) (R : B → Prop) :
  gives m Q → (∀ a, Q a → gives (f a) R) → gives (bind m f) R.
Proof.
  intros Hm Hf c b c' Hc. unfold bind. destruct (m c) as [[a c1] |] eqn:E; [| done]. intros Hb.
  destruct (Hm _ _ _ Hc E) as [HQ Hc1]. by apply (Hf a HQ c1).
Qed.

Lemma gives_pmapM {A B} (f : A → P B) (Q : B → Prop) l : (∀ x, gives (f x) Q) → gives (pmapM f l) (Forall Q).
Proof.
  intros Hf. induction l as [| x l IH]; simpl; [apply gives_ret; constructor |].
  eapply gives_bind; [apply Hf |]. intros y Hy. eapply gives_bind; [apply IH |]. intros ys Hys.
  apply gives_ret. by constructor.
Qed.

Lemma gives_weaken {A} (m : P A) (Q R : A → Prop) : gives m Q → (∀ a, Q a → R a) → gives m R.
Proof. intros Hm HR c a c' Hc Ha. destruct (Hm c a c' Hc Ha). auto. Qed.

Definition top {A} (_ : A) : Prop := True.

Lemma gives_getOrCreate ctx r : gives (getOrCreateInputInfo ctx r) top.
Proof.
  intros c a c' Hc. unfold getOrCreateInputInfo, getInputInfoIfKnown, setInputInfo, bind, ret, assert, lift.
  simpl. destruct (c !! r) as [t |]; simpl; [by intros [= <- <-] |]. destruct ctx; [| done]. simpl. intros [= <- <-].
  split; [done |]. intros r' t'. destruct (decide (r = r')) as [-> |]; [rewrite lookup_insert_eq | rewrite lookup_insert_ne by done; apply Hc].
  intros [= <-]. by eexists.
Qed.

(** One step of a parser: a bind, a test, or the end. *)
Ltac gives_step :=
  match goal with
  | |- gives (bind _ _) _ => apply (gives_bind _ _ top); [| intros ? _]
  | |- gives (ret _) _ => apply gives_ret
  | |- gives (fail _) _ => apply gives_fail
  | |- gives (assert _) _ => apply (gives_lift _ top); done
  | |- gives (lift _) _ => first [apply (gives_lift _ top); done | apply gives_lift]
  | |- gives (let '(_, _) := ?x in _) _ => destruct x
  | |- gives (if ?b then _ else _) _ => destruct b
  | |- gives (match ?x with _ => _ end) _ => destruct x
  end.

Lemma gives_known r : gives (getInputInfoIfKnown r) top.
Proof. by intros c a c' Hc [= <- <-]. Qed.

Lemma gives_set r args : gives (setInputInfo r (BagType (RecordType args))) top.
Proof.
  intros c a c' Hc [= <- <-]. split; [done |]. intros r' t'.
  destruct (decide (r = r')) as [-> |]; [rewrite lookup_insert_eq | rewrite lookup_insert_ne by done; apply Hc].
  intros [= <-]. by eexists.
Qed.

Create HintDb gives.
#[local] Hint Resolve gives_getOrCreate gives_known gives_set : gives.

Ltac gives_steps := repeat (gives_step || solve [eauto with gives]); try done.

Lemma gives_getRecordType ctx r b : gives (getRecordType ctx r b) top.
Proof. unfold getRecordType. gives_steps. Qed.
#[local] Hint Resolve gives_getRecordType : gives.

Lemma gives_getAttribute ctx r n b : gives (getAttribute ctx r n b) top.
Proof. unfold getAttribute. gives_steps. Qed.
#[local] Hint Resolve gives_getAttribute : gives.

Section expressions.
Context {F V : Type} `{FloatOps F, IRBuilder F V}.
Context (ctx : bool) (args : list RecordAttribute) (UndefValue : llvm_type → V) (dateToTimestamp : string → Z).
Context (read_file : string → Text.str) (parse_file : string → res (json F)).

Lemma gives_attr_in pt (v : json F) r dt no : (∀ v, gives (pt v) top) → gives (parseRecordAttr_in ctx args pt v r dt no) top.
Proof. intros Hpt. unfold parseRecordAttr_in. gives_steps. Qed.

Lemma gives_attr pt (v : json F) dt no : (∀ v, gives (pt v) top) → gives (parseRecordAttr ctx args pt v dt no) top.
Proof. intros Hpt. unfold parseRecordAttr. gives_steps. by apply gives_attr_in. Qed.

Lemma gives_type fuel : ∀ v : json F, gives (parseExpressionType ctx args fuel v) top.
Proof.
  induction fuel as [| fuel IH]; intros v; cbn [parseExpressionType]; gives_steps.
  eapply gives_weaken; [apply (gives_pmapM _ top) |]; [| done]. intros x. by apply gives_attr.
Qed.

Abbreviation parsed := (λ x : expr F V * option RecordAttribute, scoped args x.1).

(** A constant reads nothing. *)
Lemma constant_scoped kind b (v : json F) r e :
  parse_constant UndefValue dateToTimestamp read_file parse_file kind b v = Some r → r = Ok e → scoped args (e : expr F V).
Proof.
  unfold parse_constant, constant, createNull, date_constant. intros Hk ->.
  repeat (destruct (String.eqb kind _);
    [injection Hk as Hk; destruct b; res_inv; try done;
     match goal with Hx : (if ?c then _ else _) = Ok _ |- _ => destruct c end; res_inv; done |]). done.
Qed.

Lemma gives_sub parse (v : json F) k : (∀ v, gives (parse v) parsed) →
  gives (bind (lift (at_key v k)) (λ w, bind (parse w) (λ '(e, _), ret e))) (scoped args).
Proof.
  intros Hp. apply (gives_bind _ _ top); [by apply gives_lift |]. intros w _.
  eapply gives_bind; [apply Hp |]. intros [e r] He. by apply gives_ret.
Qed.

Lemma gives_body parse pt (v : json F) : (∀ v, gives (parse v) parsed) → (∀ v, gives (pt v) top) →
  gives (parse_body ctx args 0 UndefValue dateToTimestamp read_file parse_file parse pt v) (scoped args).
Proof.
  intros Hp Hpt. unfold parse_body.
  apply (gives_bind _ _ top); [by apply gives_lift |]. intros kind _.
  apply (gives_bind _ _ top); [by apply gives_lift |]. intros hasNull _.
  apply (gives_bind _ _ top); [by apply gives_lift |]. intros isNull _.
  destruct (parse_constant _ _ _ _ _ _ _) as [r |] eqn:Hk; [apply gives_lift; intros e He; by eapply constant_scoped |].
  pose proof (λ v k, gives_sub parse v k Hp) as Hsub.
  repeat (match goal with
  | |- gives (bind (bind (lift (at_key ?v ?k)) _) _) _ => eapply gives_bind; [apply (Hsub v k) | intros ? ?]
  | |- gives (lift (project _ _)) _ => apply gives_lift; intros ? ?; eapply project_scoped; [| eassumption]; assumption
  | |- gives (bind (parseRecordAttr _ _ _ _ _ _) _) _ => apply (gives_bind _ _ top); [by apply gives_attr | intros ? _]
  | |- gives (bind (pt _) _) _ => apply (gives_bind _ _ top); [by apply Hpt | intros ? _]
  | |- gives (bind (pmapM _ _) _) _ =>
      eapply (gives_bind _ _ (Forall (λ x : string * expr F V, scoped args x.2))); [apply gives_pmapM; intros ? | intros ? ?]
  | |- gives (bind (parse _) _) _ => eapply gives_bind; [apply Hp | intros [? ?] ?]
  | |- gives (ret (RecordConstruction _)) _ => apply gives_ret; by apply scoped_record
  | |- gives (lift (make_ExtractExpression _ _)) _ => apply gives_lift; unfold make_ExtractExpression; intros ? ?; res_inv; done
  | |- gives (lift (make_IfThenElse _ _ _)) _ => apply gives_lift; unfold make_IfThenElse; intros ? ?; res_inv; done
  end || gives_step); try done.
Qed.

Lemma gives_register pt (v : json F) e : (∀ v, gives (pt v) top) → scoped args e → gives (register ctx args pt v e) parsed.
Proof.
  intros Hpt He. unfold register. gives_steps. by apply gives_attr.
Qed.

Lemma gives_expression fuel : ∀ v,
  gives (parseExpression ctx args 0 UndefValue dateToTimestamp read_file parse_file fuel v) parsed.
Proof.
  induction fuel as [| fuel IH]; intros v; cbn [parseExpression]; [gives_steps |].
  apply (gives_bind _ _ top); [by apply gives_lift |]. intros _ _.
  eapply gives_bind; [apply gives_body; [apply IH | apply gives_type] |]. intros e He.
  by apply gives_register; [apply gives_type |].
Qed.

End expressions.

(** ** The typing rules of plans *)

Section plans.
Context {F V : Type} (env : environment).

Abbreviation op := (op F V).
Abbreviation expression_t := (expression_t F V).

(** An expression over the rows of an operator. *)
Definition over (o : op) (e : expression_t) : Prop := ∃ args, getRowType env o = Ok args ∧ scoped args (ex e).

(** The operator has rows of a known type. *)
Definition has_rows (o : op) : Prop := ∃ args, getRowType env o = Ok args.

Definition on_gpu (o : op) (gpu : bool) : Prop := getDeviceType o = Ok (if gpu then GPU else CPU).

(** What is materialised of an input of a join: expressions over it, a packet each from 1 on, and a
    width for each of them after that of the key. *)
Definition side_ok (o : op) (es : list (GpuMatExpr (F := F) (V := V))) (ws : list Z) (k : expression_t) : Prop :=
  over o k ∧ Forall (λ m, over o (m_expr m)) es ∧ packet <$> es = seqZ 1 (Z.of_nat (length es)) ∧ length ws = Datatypes.S (length es).

(** Which implementation a join is. *)
Definition kind_ok (k : join_kind) (build probe : op) : Prop :=
  match k with
  | GpuHashJoinChained => on_gpu probe true ∧ own_table build probe = Ok true
  | HashJoinChained => on_gpu probe false ∧ own_table build probe = Ok true
  | HashJoinChainedMorsel => on_gpu probe false ∧ own_table build probe = Ok false
  end.

Definition routes (c : op) (hash : option expression_t) (p : RoutingPolicy) : Prop :=
  (p = HASH_BASED ↔ is_Some hash) ∧ (∀ h, hash = Some h → over c h) ∧ ∃ n, getDOP c = Ok n.

Definition mat_ok (c : op) (m : Materializer (F := F) (V := V)) : Prop :=
  Forall (over c) (wantedExpressions m) ∧ length (outputMode m) = length (wantedExpressions m).

Inductive plan_ok : op → Prop :=
  | ok_scan pg : plan_ok (Scan pg)
  | ok_dict_scan a r ra : plan_ok (DictScan a r ra)
  | ok_select p c : plan_ok c → over c p → plan_ok (Select p c)
  | ok_project e es rel c : plan_ok c → Forall (over c) (e :: es) → getRegisteredRelName e = Ok rel →
      has_rows (Project (e :: es) rel c) → plan_ok (Project (e :: es) rel c)
  | ok_unnest p n e a pg c : plan_ok c → over c p → over c (of_expr (RecordProjection e a)) →
      plan_ok (Unnest p n (RecordProjection e a) pg c)
  | ok_outer_unnest p n e a pg c : plan_ok c → over c p → over c (of_expr (RecordProjection e a)) →
      plan_ok (OuterUnnest p n (RecordProjection e a) pg c)
  | ok_reduce gpu aggs c : plan_ok c → Forall (λ x, over c x.1) aggs → on_gpu c gpu →
      has_rows (Reduce gpu aggs c) → plan_ok (Reduce gpu aggs c)
  | ok_groupby (gpu : bool) aggs keys c bits n : plan_ok c → Forall (over c) keys → Forall (λ x, over c (a_expr x)) aggs → on_gpu c gpu →
      (gpu = true → 128 * 1024 <= n) → has_rows (HashGroupByChained gpu aggs keys c bits n) →
      plan_ok (HashGroupByChained gpu aggs keys c bits n)
  | ok_join k build_e build_w build_k build probe_e probe_w probe_k probe bits n :
      plan_ok build → plan_ok probe → side_ok build build_e build_w build_k → side_ok probe probe_e probe_w probe_k →
      kind_ok k build probe → has_rows (HashJoin k build_e build_w build_k build probe_e probe_w probe_k probe bits n) →
      plan_ok (HashJoin k build_e build_w build_k build probe_e probe_w probe_k probe bits n)
  | ok_radix_join el er l r ml mr : plan_ok l → plan_ok r → over l el → over r er → mat_ok l ml → mat_ok r mr →
      plan_ok (RadixJoin el er l r ml mr)
  | ok_nest accs es labels p g z c m : plan_ok c → Forall (over c) (p :: g :: z :: es) → length accs = length es →
      length accs = length labels → mat_ok c m → plan_ok (Nest accs es labels p g z c m)
  | ok_gpu_sort e es dirs c : plan_ok c → isPacked env c = Ok false → on_gpu c true → Forall (over c) (e :: es) →
      length (e :: es) = length dirs → has_rows (Sort true (e :: es) dirs c) → plan_ok (Sort true (e :: es) dirs c)
  | ok_sort e es dirs c s out rel : plan_ok c → isPacked env c = Ok false → on_gpu c false → Forall (over c) (e :: es) →
      length (e :: es) = length dirs → over (Sort false (e :: es) dirs c) s →
      Forall (over (BlockToTuples (Sort false (e :: es) dirs c) [s] false THREAD)) out →
      has_rows (Project out rel (BlockToTuples (Sort false (e :: es) dirs c) [s] false THREAD)) →
      plan_ok (Project out rel (BlockToTuples (Sort false (e :: es) dirs c) [s] false THREAD))
  | ok_flush e es out c : plan_ok c → Forall (over c) (e :: es) → Forall (λ e, ∃ n, reg e = Some (out, n)) (e :: es) →
      plan_ok (Flush (e :: es) out c)
  | ok_router c n args slack hash p aff : plan_ok c → getRowType env c = Ok args → routes c hash p →
      plan_ok (Router c n (match hash with Some _ => without_target args | None => args end) slack hash p aff)
  | ok_split c n args slack hash p : plan_ok c → getRowType env c = Ok args → routes c hash p →
      plan_ok (Split c n (without_target args) slack hash p)
  | ok_union c c' cs args : plan_ok c → plan_ok c' → Forall plan_ok cs → getRowType env c = Ok args →
      plan_ok (UnionAll (c :: c' :: cs) args)
  | ok_mem_move c args slack to_cpu : plan_ok c → isPacked env c = Ok true → getRowType env c = Ok args → block_fields args ≠ [] →
      plan_ok (MemMoveDevice c (block_fields args) slack to_cpu)
  | ok_broadcast c args slack targets to_cpu : plan_ok c → getRowType env c = Ok args → block_fields args ≠ [] →
      plan_ok (MemBroadcastDevice c (block_fields args) slack targets to_cpu)
  | ok_local_to c fields slack : plan_ok c → has_rows c → plan_ok (MemMoveLocalTo c fields slack)
  | ok_cpu_to_gpu c args : plan_ok c → getRowType env c = Ok args → block_fields args ≠ [] → plan_ok (CpuToGpu c (block_fields args))
  | ok_gpu_to_cpu c args n g : plan_ok c → getRowType env c = Ok args → plan_ok (GpuToCpu c args n g)
  | ok_unpack c fields (gpu : bool) : plan_ok c → Forall (over c) fields → on_gpu c gpu →
      plan_ok (BlockToTuples c fields gpu (if gpu then GRID else THREAD))
  | ok_pack (gpu : bool) c n fields h hp : plan_ok c → Forall (over c) fields → over c h → on_gpu c gpu →
      hash_project (length fields) h = Ok hp → has_rows (HashRearrange gpu c n fields h hp) → plan_ok (HashRearrange gpu c n fields h hp)
  | ok_partitioned be bw bk bm b pe pw pk pm p nb np : plan_ok b → plan_ok p →
      Forall (over b) (bk :: (m_expr <$> be)) → Forall (over p) (pk :: (m_expr <$> pe)) →
      (∀ e, bm = Some e → over b e) → (∀ e, pm = Some e → over p e) →
      plan_ok (GpuPartitionedHashJoinChained be bw bk bm (HashPartitioner be bw bk b nb log_parts "part1")
                 pe pw pk pm (HashPartitioner pe pw pk p np log_parts "part1") nb np log_parts "phjc")
  | ok_zip b p bf pf bh ph buckets parts conc slack bw pw nb np o : plan_ok b → plan_ok p →
      Forall (λ f, Forall (over b) [z_expr f; z_hashed f; z_hashed_block f; m_expr (z_join f); z_prejoin f]) bf →
      Forall (λ f, Forall (over p) [z_expr f; z_hashed f; z_hashed_block f; m_expr (z_join f); z_prejoin f]) pf →
      zip_join b p bf pf bh ph buckets parts conc slack bw pw nb np = Ok o → plan_ok o.

(** ** A logic for the parser *)

(** A sound state: a catalog of record collections, and splits that are plans. *)
Definition sound (s : state (F := F) (V := V)) : Prop :=
  wf_catalog (types (inputs s)) ∧ map_Forall (λ _ o, plan_ok o) (splitOps s).

Definition yields {A} (m : S A) (Q : A → Prop) : Prop := ∀ s a s', sound s → m s = Ok (a, s') → Q a ∧ sound s'.

Lemma yields_ret {A} (a : A) (Q : A → Prop) : Q a → yields (sret a) Q.
Proof. by intros HQ s a' s' Hs [= <- <-]. Qed.

Lemma yields_lift {A} (r : res A) : yields (slift r) (λ a, r = Ok a).
Proof. intros s a s' Hs. unfold slift. destruct r; [| done]. by intros [= <- <-]. Qed.

Lemma yields_fail {A} e (Q : A → Prop) : yields (slift (Err e)) Q.
Proof. by intros s a s' Hs. Qed.

Lemma yields_weaken {A} (m : S A) (Q R : A → Prop) : yields m Q → (∀ a, Q a → R a) → yields m R.
Proof. intros Hm HR s a s' Hs Ha. destruct (Hm s a s' Hs Ha). auto. Qed.

Lemma yields_bind {A B} (m : S A) (f : A → S B) (Q : A → Prop) (R : B → Prop) :
  yields m Q → (∀ a, Q a → yields (f a) R) → yields (sbind m f) R.
Proof.
  intros Hm Hf s b s' Hs. unfold sbind. destruct (m s) as [[a s1] |] eqn:E; [| done]. intros Hb.
  destruct (Hm _ _ _ Hs E) as [HQ Hs1]. by apply (Hf a HQ s1).
Qed.

Lemma yields_smapM {A B} (f : A → S B) (Q : B → Prop) l : (∀ x, yields (f x) Q) → yields (smapM f l) (Forall Q).
Proof.
  intros Hf. induction l as [| x l IH]; simpl; [apply yields_ret; constructor |].
  eapply yields_bind; [apply Hf |]. intros y Hy. eapply yields_bind; [apply IH |]. intros ys Hys.
  apply yields_ret. by constructor.
Qed.

Lemma types_merge c (i : gmap string InputInfo) : types (merge_types c i) = c.
Proof.
  unfold types, merge_types. apply map_eq. intros r. rewrite lookup_fmap, map_lookup_imap.
  destruct (c !! r) as [t |]; simpl; [| done]. by destruct (i !! r).
Qed.

Lemma yields_with_catalog {A} (m : P A) Q : gives m Q → yields (with_catalog m) Q.
Proof.
  intros Hm s a s' [Hc Hs]. unfold with_catalog. destruct (m _) as [[b c] |] eqn:E; [| done]. intros [= <- <-].
  destruct (Hm _ _ _ Hc E) as [HQ Hc']. split; [done |]. split; [| done]. simpl. by rewrite types_merge.
Qed.

Lemma yields_get r : yields (getInput r) (λ o, ∀ i, o = Some i → ∃ args, nested (exprType i) = Some (RecordType args)).
Proof.
  intros s a s' Hs [= <- <-]. split; [| done]. intros i Hi. destruct Hs as [Hc _].
  apply (Hc r). unfold types. by rewrite lookup_fmap, Hi.
Qed.

Lemma yields_set r i args : nested (exprType i) = Some (RecordType args) → yields (setInput r i) top.
Proof.
  intros Hi s a s' [Hc Hs] [= <- <-]. split; [done |]. split; [| done]. intros r' t'. simpl. unfold types.
  rewrite fmap_insert. destruct (decide (r = r')) as [-> |]; [rewrite lookup_insert_eq | rewrite lookup_insert_ne by done; apply Hc].
  intros [= <-]. by exists args.
Qed.

Lemma yields_register r pg : yields (registerPlugin r pg) top.
Proof. by intros s a s' Hs [= <- <-]. Qed.

Lemma yields_getPlugin r : yields (getPlugin r) top.
Proof. intros s a s' Hs. unfold getPlugin. destruct (plugins s !! r); [| done]. by intros [= <- <-]. Qed.

Lemma yields_assert b : yields (sassert b) (λ _, b = true).
Proof. intros s a s' Hs. unfold sassert, slift. destruct b; [| done]. by intros [= <- <-]. Qed.

Lemma yields_apply o : yields (apply env o) (λ o', o' = o ∧ has_rows o).
Proof.
  unfold apply, outputArg. eapply yields_bind; [apply yields_lift |]. intros args Hargs. cbv beta in Hargs.
  apply (yields_bind _ _ top).
  - eapply yields_weaken; [apply (yields_smapM _ top) | done]. intros a. apply yields_with_catalog, gives_getOrCreate.
  - intros _ _. apply yields_ret. split; [done | by exists args].
Qed.

End plans.

Create HintDb yields.
#[global] Hint Resolve yields_lift yields_assert yields_get yields_register yields_getPlugin yields_with_catalog yields_apply : yields.

(** A bind whose first part is known. *)
Ltac ystep :=
  match goal with
  | |- yields _ (sbind (outputArg _ _) _) _ => eapply yields_bind; [apply yields_lift | cbv beta; intros ? ?]
  | |- yields _ (sbind (if ?b then _ else _) _) _ => destruct b eqn:?
  | |- yields _ (sbind (let '(_, _) := ?x in _) _) _ => destruct x
  | |- yields _ (sbind _ _) _ => eapply yields_bind; [solve [eauto with yields] | cbv beta; intros ? ?]
  | |- yields _ (let '(_, _) := ?x in _) _ => destruct x
  end.

(** An operator that is applied is the one that is returned. *)
Ltac yapply := eapply yields_weaken; [apply yields_apply |]; intros ? [-> ?].

Section builder.
Context {F V : Type} (env : environment).

Abbreviation op := (op F V).
Abbreviation expression_t := (expression_t F V).
Abbreviation plan_ok := (plan_ok env).
Abbreviation over := (over env).
Abbreviation yields := (yields env).

Lemma argument_scoped args : scoped args (argument args : expr F V).
Proof. done. Qed.

Lemma arg_attr_over (o : op) args a e : getRowType env o = Ok args → arg_attr args a = Ok e → over o e.
Proof.
  intros Ho He. exists args. split; [done |]. unfold arg_attr in He. res_inv. simpl.
  by eapply project_scoped; [apply argument_scoped |].
Qed.

Lemma arg_name_over (o : op) args n e : getRowType env o = Ok args → arg_name args n = Ok e → over o e.
Proof. intros Ho He. exists args. split; [done |]. unfold arg_name in He. res_inv. simpl. done. Qed.

Lemma all_attributes_over (o : op) args es : getRowType env o = Ok args → all_attributes args = Ok es → Forall (over o) es.
Proof.
  intros Ho Hes%rmapM_Ok. apply Forall_forall. intros e He. apply list_elem_of_lookup in He as (i & Hi).
  destruct (Forall2_lookup_r _ _ _ _ _ Hes Hi) as (a & _ & Ha). by eapply arg_attr_over.
Qed.

Lemma on_gpu_of (o : op) d : getDeviceType o = Ok d → on_gpu o (bool_decide (d = GPU)).
Proof. unfold on_gpu. intros ->. by destruct d. Qed.

Lemma filter_ok p (c : op) : plan_ok c → over c p → yields (filter_ env p c) plan_ok.
Proof. intros Hc Hp. unfold filter_. yapply. by constructor. Qed.

Lemma project_plan_ok es (c : op) : plan_ok c → Forall (over c) es → yields (project_ env es c) plan_ok.
Proof.
  intros Hc Hes. unfold project_. destruct es as [| e es]; [apply yields_fail |].
  ystep. yapply. by constructor.
Qed.

Lemma block_fields_blocks (args : list RecordAttribute) : Nat.eqb (length (block_fields args)) 0 = false → block_fields args ≠ [].
Proof. by destruct (block_fields args). Qed.

Lemma memmove_ok slack to (c : op) : plan_ok c → yields (memmove env slack to c) plan_ok.
Proof.
  intros Hc. unfold memmove. do 5 ystep. yapply. subst. apply ok_mem_move; [done | done | done |].
  by apply block_fields_blocks, negb_true_iff.
Qed.

Lemma membrdcst_ok n to_cpu share (c : op) : plan_ok c → yields (membrdcst env n to_cpu share c) plan_ok.
Proof.
  intros Hc. unfold membrdcst. do 4 ystep. yapply. apply ok_broadcast; [done | done |].
  by apply block_fields_blocks, negb_true_iff.
Qed.

Lemma to_gpu_ok (c : op) : plan_ok c → yields (to_gpu env c) plan_ok.
Proof.
  intros Hc. unfold to_gpu. do 2 ystep. yapply. apply ok_cpu_to_gpu; [done | done |].
  by apply block_fields_blocks, negb_true_iff.
Qed.

Lemma to_cpu_ok g n (c : op) : plan_ok c → yields (to_cpu_ env g n c) plan_ok.
Proof. intros Hc. unfold to_cpu_. ystep. yapply. by constructor. Qed.

Lemma unpack_exprs_ok es (c : op) : plan_ok c → Forall (over c) es → yields (unpack_exprs env es c) plan_ok.
Proof.
  intros Hc Hes. unfold unpack_exprs. do 2 ystep. yapply. unfold make_BlockToTuples in *. res_inv.
  by apply ok_unpack; [| | apply on_gpu_of].
Qed.

Lemma unpack_ok (c : op) : plan_ok c → yields (unpack env c) plan_ok.
Proof. intros Hc. unfold unpack. do 2 ystep. apply unpack_exprs_ok; [done |]. by eapply all_attributes_over. Qed.

Lemma pack_exprs_ok es h n (c : op) : plan_ok c → Forall (over c) es → over c h → yields (pack_exprs env es h n c) plan_ok.
Proof. intros Hc Hes Hh. unfold pack_exprs. do 3 ystep. yapply. by apply ok_pack; [| | | apply on_gpu_of | |]. Qed.

Lemma pack_ok (c : op) : plan_ok c → yields (pack env c) plan_ok.
Proof.
  intros Hc. unfold pack. do 2 ystep. apply pack_exprs_ok; [done | by eapply all_attributes_over | by eexists].
Qed.

Lemma reduce_ok es accs (c : op) : plan_ok c → Forall (over c) es → yields (reduce env es accs c) plan_ok.
Proof.
  intros Hc Hes. unfold reduce. do 2 ystep. yapply. apply ok_reduce; [done | | by apply on_gpu_of | done].
  apply Forall_forall. intros [e m] He. apply elem_of_zip_l in He. rewrite Forall_forall in Hes. by apply Hes.
Qed.

Lemma groupby_ok keys aggs bits n (c : op) : plan_ok c → Forall (over c) keys → Forall (λ x, over c (a_expr x)) aggs →
  yields (groupby env keys aggs bits n c) plan_ok.
Proof.
  intros Hc Hk Ha. unfold groupby. ystep. destruct a; yapply; (apply ok_groupby; [done | done | done | done | | done]).
  - done.
  - intros _. lia.
Qed.

(** ** Joins *)

Lemma join_mat_ok (o : op) args k : getRowType env o = Ok args → ∀ l ind es ws, join_mat env args k ind l = Ok (es, ws) →
  Forall (λ m, over o (m_expr m)) es ∧ packet <$> es = seqZ ind (Z.of_nat (length es)) ∧ length ws = length es.
Proof.
  intros Ho. induction l as [| p l IH]; intros ind es ws; cbn [join_mat]; [by intros [= <- <-] |].
  intros Hm. apply rbind_Ok_inv in Hm as (? & _ & Hm). apply rbind_Ok_inv in Hm as (e & He & Hm).
  apply rbind_Ok_inv in Hm as (ka & _ & Hm). apply rbind_Ok_inv in Hm as (ea & _ & Hm).
  destruct (attr_eq ka ea); [by apply IH in Hm |].
  apply rbind_Ok_inv in Hm as (t & _ & Hm). apply rbind_Ok_inv in Hm as ([es' ws'] & Hr & [= <- <-]).
  apply IH in Hr as (Hes & Hp & Hw). split; [constructor; [by eapply arg_attr_over | done] |].
  split; [| simpl; by rewrite Hw]. cbn [fmap list_fmap length packet]. rewrite Hp.
  rewrite (seqZ_cons ind) by lia. f_equal. f_equal; lia.
Qed.

Lemma join_side_ok (o : op) args k es ws : getRowType env o = Ok args → over o k → join_side env args k = Ok (es, ws) → side_ok env o es ws k.
Proof.
  intros Ho Hk Hs. unfold join_side in Hs. apply rbind_Ok_inv in Hs as (t & _ & Hs).
  apply rbind_Ok_inv in Hs as ([es' ws'] & Hm & [= <- <-]).
  apply (join_mat_ok o) in Hm as (? & ? & Hw); [| done]. repeat split; [done | done | done |]. simpl. by rewrite Hw.
Qed.

Lemma join_ok build bk pk bits n (c : op) : plan_ok build → plan_ok c → over build bk → over c pk →
  yields (join env build bk pk bits n c) plan_ok.
Proof.
  intros Hb Hc Hbk Hpk. unfold join. ystep. ystep. ystep. ystep. ystep. ystep. ystep. ystep. ystep. yapply.
  apply ok_join; [done | done | by eapply join_side_ok | by eapply join_side_ok | | done].
  match goal with Hk : match ?d with CPU => _ | GPU => _ end = Ok _ |- _ => destruct d end; res_inv; [| by split].
  match goal with |- kind_ok (if ?own then _ else _) _ _ => destruct own end; by split.
Qed.

(** ** Sorts *)

Lemma make_Sort_cons gpu fields dirs (c o : op) : make_Sort env gpu fields dirs c = Ok o →
  o = Sort gpu fields dirs c ∧ ∃ e es, fields = e :: es.
Proof. unfold make_Sort. intros Hs. res_inv. split; [done |]. destruct fields; [done | by do 2 eexists]. Qed.

Lemma sorted_attributes_over (o : op) args es : getRowType env o = Ok args → sorted_attributes args = Ok es → Forall (over o) es.
Proof.
  intros Ho Hes. unfold sorted_attributes in Hes. apply rbind_Ok_inv in Hes as (s & Hs & Hes).
  pose proof (arg_name_over o _ _ _ Ho Hs) as (args' & Ho' & Hsc). destruct (getExpressionType _); try done.
  apply rmapM_Ok in Hes. apply Forall_forall. intros e He. apply list_elem_of_lookup in He as (i & Hi).
  destruct (Forall2_lookup_r _ _ _ _ _ Hes Hi) as (a & _ & Ha). res_inv. exists args'. split; [done |].
  by eapply project_scoped.
Qed.

Lemma sort_ok fields dirs (c : op) : plan_ok c → Forall (over c) fields → yields (sort env fields dirs c) plan_ok.
Proof.
  intros Hc Hf. unfold sort. do 4 ystep. res_inv. apply negb_true_iff in Hchk0. subst. apply Nat.eqb_eq in Hchk.
  match goal with Hd : getDeviceType c = Ok ?d |- _ => destruct d end; ystep;
    match goal with Hs : make_Sort _ _ _ _ _ = Ok _ |- _ => destruct (make_Sort_cons _ _ _ _ _ Hs) as (-> & e & es & ->) end.
  - eapply yields_bind; [apply yields_apply |]. intros ? [-> ?]. do 2 ystep.
    match goal with Hn : arg_name _ _ = Ok ?s |- _ => rename s into se; assert (over (Sort false (e :: es) dirs c) se) as Hov by (by eapply arg_name_over) end.
    eapply (yields_bind _ _ _ (λ o, o = BlockToTuples (Sort false (e :: es) dirs c) [se] false THREAD)).
    + unfold unpack_exprs. do 2 ystep. yapply. unfold make_BlockToTuples in *. res_inv.
      match goal with Hd : getDeviceType c = Ok CPU, Hd' : getDeviceType c = Ok ?d |- _ => assert (d = CPU) as -> by congruence end. done.
    + intros ? ->. do 2 ystep. unfold project_.
      match goal with Hs : sorted_attributes _ = Ok ?out |- _ => destruct out as [| e' out']; [apply yields_fail |] end.
      ystep. yapply. eapply ok_sort; try done. by eapply sorted_attributes_over.
  - yapply. by apply ok_gpu_sort.
Qed.

(** ** Outputs *)

Lemma createPlugin_ok rec projs ty : yields (createPlugin (F := F) (V := V) env rec projs ty) top.
Proof.
  unfold createPlugin. ystep. destruct rec as [| ra rec]; [apply yields_fail |]. do 2 ystep.
  match goal with Hi : ∀ i, ?o = Some i → _ |- _ => destruct o as [i |]; [destruct (Hi i eq_refl) as (args & ?) |] end.
  all: eapply yields_bind; [by eapply yields_set |]; intros _ _; ystep; by apply yields_ret.
Qed.

Lemma print_exprs_ok es pg out (c : op) : plan_ok c → Forall (over c) es → Forall (λ e, ∃ n, reg e = Some (out, n)) es →
  yields (print_exprs env es pg c) plan_ok.
Proof.
  intros Hc Hes Hr. unfold print_exprs. destruct es as [| e es]; [apply yields_fail |]. do 4 ystep.
  eapply yields_bind; [by eapply yields_set |]. intros _ _. yapply.
  assert (a0 = out) as -> by (inversion Hr as [| ? ? (n & Hn) ?]; subst; unfold getRegisteredRelName in *; rewrite Hn in *; by simplify_eq/=).
  by constructor.
Qed.

Lemma print_ok exprs ty out (c : op) : plan_ok c → (∀ args, getRowType env c = Ok args → yields (exprs args) (Forall (over c))) →
  yields (print env exprs ty out c) plan_ok.
Proof.
  intros Hc He. unfold print. do 2 ystep. eapply yields_bind; [apply createPlugin_ok |]. intros pg _.
  eapply yields_bind; [by apply He |]. intros v Hv. ystep.
  match goal with Hm : rmapM _ v = Ok ?v' |- _ =>
    apply rmapM_Ok in Hm; assert (Forall (λ e, over c e ∧ ∃ n, reg e = Some (out, n)) v') as Hb;
      [clear -Hv Hm; induction Hm as [| e e' v v' He _ IH]; constructor; inversion Hv; subst; [res_inv; split; [done | by eexists] | by apply IH] |]
  end.
  apply Forall_and in Hb as [? ?]. by apply (print_exprs_ok _ _ out).
Qed.

Lemma print_all_ok ty out (c : op) : plan_ok c → yields (print_all env ty out c) plan_ok.
Proof.
  intros Hc. apply print_ok; [done |]. intros args Hargs. eapply yields_weaken; [apply yields_lift |].
  intros es Hes%rmapM_Ok. apply Forall_forall. intros e He. apply list_elem_of_lookup in He as (i & Hi).
  destruct (Forall2_lookup_r _ _ _ _ _ Hes Hi) as (a & _ & Ha). res_inv.
  match goal with Hn : arg_name _ _ = Ok _ |- _ => eapply arg_name_over in Hn; [| done] end. done.
Qed.

(** ** Exchanges *)

Lemma check_router_routes (c : op) h p u : check_router c h p = Ok u → (∀ e, h = Some e → over c e) → routes env c h p.
Proof.
  unfold check_router. intros Hr Hh. apply rbind_Ok_inv in Hr as (n & Hn & Hr). res_inv. apply eqb_prop in Hchk.
  split; [| by eauto]. rewrite <- (bool_decide_eq_true (p = HASH_BASED)), Hchk. destruct h; split; done.
Qed.

Lemma router_hash_ok hash n slack aff (c : op) : plan_ok c → (∀ args, getRowType env c = Ok args → yields (hash args) (over c)) →
  yields (router_hash env hash n slack aff c) plan_ok.
Proof.
  intros Hc Hh. unfold router_hash. ystep. eapply yields_bind; [by apply Hh |]. intros h Hov. ystep. yapply.
  apply (ok_router _ c n _ slack (Some h)); [done | done |]. eapply check_router_routes; [done |]. by intros e [= <-].
Qed.

Lemma router_ok n slack p aff (c : op) : plan_ok c → yields (router env n slack p aff c) plan_ok.
Proof.
  intros Hc. unfold router. do 3 ystep. yapply. apply (ok_router _ c n _ slack None); [done | done |].
  by eapply check_router_routes.
Qed.

Lemma unionAll_ok c' cs (c : op) : plan_ok c → Forall plan_ok (c' :: cs) → yields (unionAll env (c' :: cs) c) plan_ok.
Proof.
  intros Hc Hcs. unfold unionAll. do 2 ystep. apply (yields_bind _ _ _ top).
  - eapply yields_weaken; [apply (yields_smapM _ _ top) | done]. intros x. eapply yields_weaken; [apply yields_apply | done].
  - intros _ _. yapply. inversion Hcs; subst. by constructor.
Qed.

Lemma scan_values_ok data : yields (scan_values (F := F) (V := V) env data) plan_ok.
Proof.
  unfold scan_values. destruct data as [| [a v] data]; [apply yields_fail |]. do 3 ystep.
  match goal with Hi : ∀ i, ?o = Some i → _ |- _ => destruct o as [i |]; [destruct (Hi i eq_refl) as (args & ?) |] end.
  all: eapply yields_bind; [by eapply yields_set |]; intros _ _; ystep; apply yields_ret; constructor.
Qed.

End builder.

#[global] Hint Resolve filter_ok project_plan_ok memmove_ok membrdcst_ok to_gpu_ok to_cpu_ok unpack_ok pack_ok pack_exprs_ok
  reduce_ok groupby_ok join_ok sort_ok print_all_ok router_ok scan_values_ok yields_ret : yields.

(** ** The parser *)

Section parser.
Context {F V : Type} `{FloatOps F, IRBuilder F V}.
Context (ctx : bool) (UndefValue : llvm_type → V) (dateToTimestamp : string → Z).
Context (read_file : string → Text.str) (parse_file : string → res (json F)).
Context (env : environment) (moduleName : string) (efuel : nat) (par : factory (F := F) (V := V)).

Abbreviation json := (json F).
Abbreviation op := (op F V).
Abbreviation plan_ok := (plan_ok env).
Abbreviation over := (over env).
Abbreviation yields := (yields env).
Abbreviation parseExpr := (parseExpr ctx UndefValue dateToTimestamp read_file parse_file efuel).
Abbreviation parseExprs := (parseExprs ctx UndefValue dateToTimestamp read_file parse_file efuel).
Abbreviation object_expr_at := (object_expr_at ctx UndefValue dateToTimestamp read_file parse_file efuel).
Abbreviation expr_at := (expr_at ctx UndefValue dateToTimestamp read_file parse_file efuel).

Lemma parseExpr_over (o : op) args v : getRowType env o = Ok args → yields (parseExpr args v) (over o).
Proof.
  intros Ho. unfold PlanParser.parseExpr. eapply yields_bind; [apply yields_with_catalog, gives_expression |].
  intros [e r] He. ystep. apply yields_ret. by exists args.
Qed.
#[local] Hint Resolve parseExpr_over : yields.

Lemma parseExprs_over (o : op) args v k : getRowType env o = Ok args → yields (parseExprs args v k) (Forall (over o)).
Proof. intros Ho. unfold PlanParser.parseExprs. ystep. apply yields_smapM. intros x. by apply parseExpr_over. Qed.

Lemma expr_at_over (o : op) args v k : getRowType env o = Ok args → yields (expr_at args k v) (over o).
Proof. intros Ho. unfold PlanParser.expr_at. ystep. by apply parseExpr_over. Qed.

Lemma object_expr_at_over (o : op) args v k : getRowType env o = Ok args → yields (object_expr_at args k v) (over o).
Proof. intros Ho. unfold PlanParser.object_expr_at. do 2 ystep. by apply parseExpr_over. Qed.

Lemma parseAttr_top args v : yields (parseAttr (F := F) (V := V) ctx efuel args v) top.
Proof. apply yields_with_catalog, gives_attr, gives_type. Qed.
#[local] Hint Resolve parseExprs_over expr_at_over object_expr_at_over parseAttr_top : yields.

(** ** Plug-ins *)

Lemma projections_top rec v : yields (parseProjections (F := F) (V := V) ctx efuel rec v) top.
Proof.
  unfold parseProjections. ystep. eapply yields_weaken; [apply (yields_smapM _ _ top) | done]. intros x. apply parseAttr_top.
Qed.
#[local] Hint Resolve projections_top : yields.

Lemma schema_top name l : ∀ n rec, yields (parseSchema (F := F) (V := V) ctx efuel name n l rec) top.
Proof.
  induction l as [| v l IH]; intros n rec; cbn [parseSchema]; [by apply yields_ret |].
  eapply yields_bind; [apply yields_with_catalog, gives_attr_in, gives_type |]. intros a _. apply IH.
Qed.
#[local] Hint Resolve schema_top : yields.

Lemma construct_top pg : yields (construct (F := F) (V := V) env pg) top.
Proof. unfold construct. ystep. by apply yields_ret. Qed.
#[local] Hint Resolve construct_top : yields.

Lemma pgType_top v ty p t rec : yields (parsePgType (F := F) (V := V) ctx env efuel v ty p t rec) top.
Proof.
  unfold parsePgType. repeat (match goal with |- yields (if ?b then _ else _) _ => destruct b end || ystep); eauto with yields.
Qed.

Lemma parsePlugin_top v : yields (parsePlugin (F := F) (V := V) ctx env efuel par v) top.
Proof.
  unfold parsePlugin. do 3 ystep.
  eapply (yields_bind _ _ _ (λ i, ∃ args, nested (exprType i) = Some (RecordType args))).
  - match goal with Hi : ∀ i, ?o = Some i → _ |- _ => destruct o as [i |] end; [apply yields_ret; eauto |].
    ystep. match goal with |- yields (if ?b then _ else _) _ => destruct b end; [| apply yields_ret; by eexists].
    do 2 ystep. eapply yields_bind; [by eapply yields_set |]. intros _ _. apply yields_ret. by eexists.
  - intros i (args & Hi). ystep. eapply yields_bind; [apply pgType_top |]. intros pg _.
    apply (yields_bind _ _ _ top); [by intros s a' s' Hs [= <- <-] |]. intros _ _. do 2 ystep.
    eapply yields_bind; [by eapply yields_set |]. intros _ _. by apply yields_ret.
Qed.

(** ** Operators *)

Section operators.
Context (parseOp : json → S (F := F) (V := V) op) (IH : ∀ v, yields (parseOp v) plan_ok).

Lemma input_ok k v : yields (input_at parseOp k v) plan_ok.
Proof. unfold input_at. ystep. apply IH. Qed.
Lemma object_ok k v : yields (object_at parseOp k v) plan_ok.
Proof. unfold object_at. do 2 ystep. apply IH. Qed.
#[local] Hint Resolve input_ok object_ok : yields.

Lemma accumulators_top (v : json) (c : op) : yields (parse_accumulators env v c) top.
Proof.
  unfold parse_accumulators. ystep. eapply yields_weaken; [apply (yields_smapM _ _ top) | done].
  intros x. do 2 ystep. eapply yields_weaken; [apply yields_lift | done].
Qed.
#[local] Hint Resolve accumulators_top : yields.

Abbreviation par_expr f := (f ctx UndefValue dateToTimestamp read_file parse_file) (only parsing).

Lemma reduce_parsed v : yields (par_expr parse_reduce env efuel parseOp v) plan_ok.
Proof.
  unfold parse_reduce. do 3 ystep. apply (yields_bind _ _ _ top).
  - match goal with |- yields (if ?b then _ else _) _ => destruct b end; [| by apply yields_ret]. do 2 ystep.
    eapply yields_weaken; [apply yields_lift | done].
  - intros _ _. do 2 ystep. by apply reduce_ok.
Qed.

Lemma outputs_over (o : op) args v : getRowType env o = Ok args → yields (par_expr parse_outputs efuel v args) (Forall (over o)).
Proof.
  intros Ho. unfold parse_outputs. ystep. apply yields_smapM. intros x. do 2 ystep. by apply yields_ret.
Qed.

Lemma print_parsed v : yields (par_expr parse_print env moduleName efuel parseOp v) plan_ok.
Proof.
  unfold parse_print. do 3 ystep. match goal with |- yields (if ?b then _ else _) _ => destruct b end; [| by apply print_all_ok].
  apply print_ok; [done |]. intros args Hargs. by apply outputs_over.
Qed.

Lemma insert_into_parsed v : yields (par_expr parse_insert_into env efuel parseOp v) plan_ok.
Proof. unfold parse_insert_into. do 3 ystep. apply print_ok; [done |]. intros args Hargs. by apply outputs_over. Qed.

Lemma sort_parsed v : yields (par_expr parse_sort env efuel parseOp v) plan_ok.
Proof.
  unfold parse_sort. do 6 ystep. eapply yields_bind; [apply yields_smapM; intros x; by apply object_expr_at_over |].
  intros es Hes. by apply sort_ok.
Qed.

Lemma project_parsed v : yields (par_expr parse_project env efuel parseOp v) plan_ok.
Proof. unfold parse_project. do 3 ystep. by apply project_plan_ok. Qed.

Lemma path_over (o : op) args v : getRowType env o = Ok args →
  yields (par_expr parse_path efuel v args) (λ e, ∃ e' a, ex e = RecordProjection e' a ∧ over o (of_expr (RecordProjection e' a))).
Proof.
  intros Ho. unfold parse_path. do 3 ystep. eapply yields_weaken; [apply yields_lift |]. intros e He.
  match goal with He' : over o ?x |- _ => destruct He' as (args' & Ho' & Hx); destruct (ex x) eqn:E; try done end.
  injection He as <-. rewrite E. do 2 eexists. split; [done |]. by exists args'.
Qed.

Lemma path_plugin_top e : yields (path_plugin (F := F) (V := V) e) top.
Proof. unfold path_plugin. destruct e; first [apply yields_getPlugin | apply yields_fail]. Qed.
#[local] Hint Resolve path_over path_plugin_top : yields.

Lemma unnest_parsed v : yields (par_expr parse_unnest env efuel parseOp v) plan_ok.
Proof.
  unfold parse_unnest. do 8 ystep. apply yields_ret. destruct H4 as (e' & a' & -> & ?). by constructor.
Qed.

Lemma outer_unnest_parsed v : yields (par_expr parse_outer_unnest env efuel parseOp v) plan_ok.
Proof.
  unfold parse_outer_unnest. do 6 ystep. apply yields_ret. destruct H5 as (e' & a' & -> & ?). by constructor.
Qed.

Lemma groupby_parsed v : yields (par_expr parse_groupby env efuel parseOp v) plan_ok.
Proof.
  unfold parse_groupby. do 6 ystep.
  eapply (yields_bind _ _ _ (Forall (λ x, over a (a_expr x)))).
  - apply yields_smapM. intros x. unfold parse_aggregate. do 5 ystep. by apply yields_ret.
  - intros es Hes. by apply groupby_ok.
Qed.

Lemma hashjoin_parsed v : yields (par_expr parse_hashjoin env efuel parseOp v) plan_ok.
Proof. unfold parse_hashjoin. do 8 ystep. by apply join_ok. Qed.

Lemma mat_over (o : op) args v : getRowType env o = Ok args → yields (par_expr parse_mat efuel args v) (λ m, over o (m_expr m)).
Proof. intros Ho. unfold parse_mat. do 3 ystep. by apply yields_ret. Qed.

Lemma mats_over (o : op) args l : getRowType env o = Ok args →
  yields (smapM (par_expr parse_mat efuel args) l) (λ es, Forall (over o) (m_expr <$> es)).
Proof.
  intros Ho. eapply yields_weaken; [apply (yields_smapM _ _ (λ m, over o (m_expr m))) |].
  - intros x. by apply mat_over.
  - intros es Hes. by apply Forall_fmap.
Qed.

Lemma optional_expr_over (o : op) args k v : getRowType env o = Ok args →
  yields (par_expr optional_expr efuel args k v) (λ x, ∀ e, x = Some e → over o e).
Proof.
  intros Ho. unfold optional_expr. ystep. match goal with |- yields (if ?b then _ else _) _ => destruct b end; [| by apply yields_ret].
  ystep. apply yields_ret. by intros e [= <-].
Qed.
#[local] Hint Resolve mat_over mats_over optional_expr_over : yields.

Lemma partitioned_parsed v : yields (par_expr parse_partitioned_hashjoin env efuel parseOp v) plan_ok.
Proof.
  unfold parse_partitioned_hashjoin. do 16 ystep. apply yields_ret. by apply ok_partitioned; [| | constructor | constructor | |].
Qed.

(** The expressions of a field of a zipped join. *)
Abbreviation zip_over o := (λ f, Forall (over o) [z_expr f; z_hashed f; z_hashed_block f; m_expr (z_join f); z_prejoin f]) (only parsing).

Lemma zip_field_over (o : op) args v : getRowType env o = Ok args → yields (par_expr parse_zip_field efuel args v) (zip_over o).
Proof. intros Ho. unfold parse_zip_field. repeat ystep. apply yields_ret. by repeat constructor. Qed.

Lemma zip_side_over (o : op) args v e h : getRowType env o = Ok args →
  yields (par_expr parse_zip_side efuel args v e h) (λ x, Forall (zip_over o) x.1).
Proof.
  intros Ho. unfold parse_zip_side. ystep. eapply (yields_bind _ _ _ (Forall (zip_over o))).
  - apply yields_smapM. intros x. ystep. by apply zip_field_over.
  - intros fs Hfs. do 2 ystep. by apply yields_ret.
Qed.
#[local] Hint Resolve zip_side_over : yields.

(** An attribute that is added to a relation of the catalog. *)
Lemma add_attributes_top r (f : list RecordAttribute → list RecordAttribute) :
  gives (bind (getOrCreateInputInfo ctx r) (λ info,
           bind (lift (match nested info with
                       | None => Err Undefined
                       | Some (RecordType args) => Ok args
                       | Some _ => Err Throw
                       end)) (λ args, setInputInfo r (BagType (RecordType (f args)))))) top.
Proof.
  apply (gives_bind _ _ top); [apply gives_getOrCreate |]. intros t _. apply (gives_bind _ _ top); [by apply gives_lift |].
  intros args _. apply gives_set.
Qed.

Lemma out_of_gpu_parsed v : yields (par_expr parse_out_of_gpu_join env efuel parseOp v) plan_ok.
Proof.
  unfold parse_out_of_gpu_join. repeat ystep.
  eapply yields_bind; [apply yields_with_catalog, (add_attributes_top coordinator (λ args, foldl appendAttribute args coord_attrs)) |].
  intros _ _.
  eapply yields_weaken; [apply yields_lift |]. intros o Ho. eapply ok_zip; [| | | | exact Ho]; done.
Qed.

(** ** Legacy joins and nests *)

Definition acc_ok (o : op) (x : Materializer (F := F) (V := V) * list (string * RecordAttribute)) : Prop := mat_ok env o x.1.

Lemma mat_field_ok (o : op) args acc v : getRowType env o = Ok args → acc_ok o acc → yields (par_expr mat_field efuel args acc v) (acc_ok o).
Proof.
  intros Ho Hacc. destruct acc as [[fields exprs oids modes] l]. destruct Hacc as [He Hl]. simpl in He, Hl. unfold mat_field. ystep.
  match goal with Hx : over o ?x |- _ => rename Hx into Hov; destruct (ex x) as [| | | | | | | | e' a' | | | | | | | | | | | | | |] eqn:E; try apply yields_fail end.
  destruct (existsb _ _).
  - apply yields_ret. split; simpl; [by apply Forall_app; split; [| constructor] | rewrite length_app; simpl; lia].
  - do 5 ystep. apply yields_ret. destruct Hov as (args' & Ho' & Hsc). rewrite E in Hsc. split; simpl.
    + constructor; [exists args'; split; [done |]; eapply project_scoped; [| eassumption]; exact Hsc |]. apply Forall_app. split; [done |].
      constructor; [exists args'; by rewrite E | constructor].
    + rewrite length_app. simpl. lia.
Qed.

Lemma mat_fields_ok (o : op) args l : getRowType env o = Ok args → ∀ acc, acc_ok o acc →
  yields (par_expr mat_fields efuel args acc l) (mat_ok env o).
Proof.
  intros Ho. induction l as [| v l IHl]; intros acc Hacc; cbn [mat_fields].
  - destruct acc as [[fields exprs oids modes] k]. by apply yields_ret.
  - eapply yields_bind; [by apply (mat_field_ok o) |]. apply IHl.
Qed.

Lemma materializer_ok (o : op) args v k : getRowType env o = Ok args → yields (par_expr parse_materializer efuel args v k) (mat_ok env o).
Proof. intros Ho. unfold parse_materializer. ystep. apply mat_fields_ok; [done |]. split; [constructor | done]. Qed.
#[local] Hint Resolve materializer_ok : yields.

Lemma join_parsed v : yields (par_expr parse_join env efuel parseOp v) plan_ok.
Proof. unfold parse_join. do 16 ystep. apply yields_ret. by constructor. Qed.

Lemma nest_parsed v : yields (par_expr parse_nest env efuel parseOp v) plan_ok.
Proof.
  unfold parse_nest, make_Nest. do 14 ystep. apply yields_ret. res_inv. apply andb_true_iff in Hchk as [Hl1%Nat.eqb_eq Hl2%Nat.eqb_eq].
  by apply ok_nest; [| repeat constructor | | |].
Qed.

(** ** Scans and exchanges *)

Lemma select_parsed v : yields (par_expr parse_select env efuel parseOp v) plan_ok.
Proof. unfold parse_select. do 3 ystep. by apply filter_ok. Qed.

Lemma scan_parsed v : yields (parse_scan ctx env efuel par v) plan_ok.
Proof. unfold parse_scan. do 2 ystep. eapply yields_bind; [apply parsePlugin_top |]. intros pg _. apply yields_ret. constructor. Qed.

Lemma column_top rel v : yields (parse_column (F := F) (V := V) ctx efuel rel v) top.
Proof.
  unfold parse_column. do 3 ystep. eapply yields_bind; [apply yields_with_catalog, gives_type |]. intros t _.
  do 2 ystep. by apply yields_ret.
Qed.

Lemma values_parsed v : yields (parse_values (F := F) (V := V) ctx env efuel v) plan_ok.
Proof.
  unfold parse_values. do 2 ystep. apply (yields_bind _ _ _ top); [| intros data _; apply scan_values_ok].
  eapply yields_weaken; [apply (yields_smapM _ _ top); intros x; apply column_top | done].
Qed.

Lemma dict_scan_parsed v : yields (parse_dict_scan (F := F) (V := V) ctx read_file v) plan_ok.
Proof.
  unfold parse_dict_scan. do 5 ystep.
  eapply yields_bind; [apply yields_with_catalog, (add_attributes_top _ (λ args, appendAttribute args _)) |]. intros _ _.
  ystep. apply yields_ret. constructor.
Qed.

Lemma hash_rearrange_parsed v : yields (par_expr parse_hash_rearrange env efuel parseOp v) plan_ok.
Proof.
  unfold parse_hash_rearrange. do 6 ystep. apply (yields_bind _ _ _ (over a)).
  - match goal with |- yields (if ?b then _ else _) _ => destruct b end; [| by apply yields_ret].
    do 2 ystep. by apply yields_ret.
  - intros h Hh. by apply pack_exprs_ok.
Qed.

Lemma mem_move_parsed v : yields (parse_mem_move_device env parseOp v) plan_ok.
Proof.
  unfold parse_mem_move_device. do 5 ystep. apply (yields_bind _ _ _ top); [| intros _ _; by apply memmove_ok].
  match goal with |- yields (if ?b then _ else _) _ => destruct b end; [| by apply yields_ret]. do 2 ystep.
  eapply yields_weaken; [apply (yields_smapM _ _ top) | done]. intros x. ystep. eapply yields_weaken; [apply yields_assert | done].
Qed.

Lemma local_to_parsed v : yields (parse_mem_move_local_to ctx env efuel parseOp v) plan_ok.
Proof.
  unfold parse_mem_move_local_to. do 3 ystep. apply (yields_bind _ _ _ top).
  - eapply yields_weaken; [apply (yields_smapM _ _ top) | done]. intros x. ystep. apply parseAttr_top.
  - intros fields _. ystep. apply yields_ret. constructor; [done | by eexists].
Qed.

Lemma router_parsed v : yields (par_expr parse_router env efuel par parseOp v) plan_ok.
Proof.
  unfold parse_router. do 6 ystep. match goal with |- yields (if ?b then _ else _) _ => destruct b end; [| by apply router_ok].
  ystep. apply router_hash_ok; [done |]. intros args Hargs. by apply object_expr_at_over.
Qed.

Lemma union_parsed v : yields (parse_union_all env parseOp v) plan_ok.
Proof.
  unfold parse_union_all. ystep. apply (yields_bind _ _ _ (Forall plan_ok)).
  - apply yields_smapM. intros x. ystep. apply IH.
  - intros [| c [| c' cs]] Hcs; [apply yields_fail | apply yields_fail |]. inversion Hcs; subst. by apply unionAll_ok.
Qed.

Lemma set_split_top id (o : op) : plan_ok o → yields (λ s, Ok (tt, set_splits (<[id := o]> (splitOps s)) s)) top.
Proof. intros Ho s a s' [Hc Hs] [= <- <-]. split; [done |]. split; [done |]. by apply map_Forall_insert_2. Qed.

Lemma new_split_parsed id v : yields (par_expr parse_new_split env efuel parseOp id v) plan_ok.
Proof.
  unfold parse_new_split. do 5 ystep. apply (yields_bind _ _ _ (λ h, ∀ e, h = Some e → over a e)).
  - match goal with |- yields (if ?b then _ else _) _ => destruct b end; [| by apply yields_ret].
    ystep. apply yields_ret. by intros e [= <-].
  - intros h Hh. do 6 ystep.
    match goal with Hr : check_router _ _ ?p = Ok _ |- _ => pose proof (check_router_routes env _ _ _ _ Hr Hh) end.
    eapply yields_bind; [by apply set_split_top, ok_split |]. intros _ _. apply yields_ret. by apply ok_split.
Qed.

Lemma split_parsed v : yields (par_expr parse_split env efuel parseOp v) plan_ok.
Proof.
  unfold parse_split. ystep.
  apply (yields_bind _ _ _ (λ o, ∀ x, o = Some x → plan_ok x)).
  - intros s o s' Hs [= <- <-]. split; [| done]. intros x Hx. by eapply (proj2 Hs).
  - intros [o |] Ho; [| apply new_split_parsed]. apply (yields_bind _ _ _ top).
    + intros s u s' [Hc Hs] [= <- <-]. split; [done |]. split; [done |]. by apply map_Forall_delete.
    + intros _ _. apply yields_ret. by apply Ho.
Qed.

Lemma dispatch_ok name v : yields (par_expr dispatch env moduleName efuel par parseOp name v) plan_ok.
Proof.
  unfold dispatch. repeat (match goal with |- yields (if ?b then _ else _) _ => destruct b end;
    [first [apply reduce_parsed | apply print_parsed | apply insert_into_parsed | apply sort_parsed | apply project_parsed
      | apply unnest_parsed | apply outer_unnest_parsed | apply groupby_parsed | apply out_of_gpu_parsed | apply partitioned_parsed
      | apply hashjoin_parsed | apply join_parsed | apply nest_parsed | apply select_parsed | apply scan_parsed | apply values_parsed
      | apply dict_scan_parsed | apply hash_rearrange_parsed | apply mem_move_parsed | apply local_to_parsed | apply router_parsed
      | apply union_parsed | apply split_parsed
      | unfold parse_cpu_to_gpu; ystep; by apply to_gpu_ok
      | unfold parse_unpack; ystep; by apply unpack_ok
      | unfold parse_pack; ystep; by apply pack_ok
      | unfold parse_gpu_to_cpu; do 3 ystep; by apply to_cpu_ok
      | unfold parse_mem_broadcast_device; do 5 ystep; by apply membrdcst_ok] |]).
  apply yields_fail.
Qed.

End operators.

Lemma parseOperator_yields fuel : ∀ v,
  yields (parseOperator ctx UndefValue dateToTimestamp read_file parse_file env moduleName efuel par fuel v) plan_ok.
Proof.
  induction fuel as [| fuel IH]; intros v; cbn [parseOperator]; [apply yields_fail |]. ystep. by apply dispatch_ok.
Qed.


End parser.

(** ** An example: the sum of the small ones of three inline values *)

Import Interp.

Definition ex_env : environment :=
  mk_env (λ _, false) (λ _, []) (λ _, IntType) (λ _, false) (λ _, Err Throw) (λ t, match t with TInt b => b / 8 | _ => 8 end).

Definition ex_col (rel : string) : RecordAttribute := mk_attr rel "x" rel IntType (-1) false.
Definition ex_key (rel : string) : expr Z IV := RecordProjection (InputArgument [ex_col rel] 0) (ex_col rel).

Definition ex_values : json Z :=
  JObject [("operator", JString "values"); ("relName", JString "t");
           ("values", JArray [JObject [("attrName", JString "x"); ("v", JArray [JInt 3; JInt 14; JInt 5]); ("type", type_json IntType)]])]%string.

Definition ex_doc : json Z :=
  JObject [("operator", JString "reduce"); ("accumulator", JArray [JString "sum"]);
           ("e", JArray [plan_json (ex_key "t") (Some (mk_attr "out" "y" "out" IntType (-1) false))]);
           ("input", JObject [("operator", JString "select"); ("p", plan_json (Binary OpLT (ex_key "t") (IntConstant 10)) None);
                              ("input", JObject [("operator", JString "unpack"); ("input", ex_values)])])]%string.

Definition ex_state : state (F := Z) (V := IV) := mk_state ∅ ∅ [] ∅.

Definition ex_parsed : res (op Z IV * state (F := Z) (V := IV)) :=
  parsePlan true ex_undef (λ _, 0) (λ _, []) (λ _, Err Throw) ex_env "q" 20 default_factory 4 ex_doc ex_state.


End PlanTyping.
