(* ===== verification/PlanRoundtrip.v ===== *)
(** * PlanRoundtrip: the plans that can be written are read back

    [op_json] writes a plan over inline values the way the planner does, and [writable] says which
    plans can be written: their expressions can, they are what the builder would make of them, and
    their numbers fit the fields they are read from.  [returns m Q] says that [m] returns, with a
    value that satisfies [Q], from any catalog of record collections. *)

From Stdlib Require Import ZArith Lia Bool.
From stdpp Require Import base numbers list strings gmap.
From S2P Require Import Prelude ExprTypes LLVM Expressions Text Dictionary ExprParser PlanOps PlanParser PlanTyping.

Local Open Scope Z_scope.
Local Open Scope res_scope.

Module PlanRoundtrip.
Import ExprTypes Expressions ExprParser Plan PlanParser.

(** ** Total correctness *)

Section returns.
Context {F V : Type}.

Definition wf (s : state (F := F) (V := V)) : Prop := wf_catalog (types (inputs s)).

Definition returns {A} (m : S A) (Q : A → Prop) : Prop := ∀ s, wf s → ∃ a s', m s = Ok (a, s') ∧ Q a ∧ wf s'.

Lemma returns_ret {A} (a : A) (Q : A → Prop) : Q a → returns (sret a) Q.
Proof. intros HQ s Hs. by exists a, s. Qed.

Lemma returns_lift {A} (r : res A) a (Q : A → Prop) : r = Ok a → Q a → returns (slift r) Q.
Proof. intros -> HQ s Hs. by exists a, s. Qed.

Lemma returns_assert b (Q : () → Prop) : b = true → Q () → returns (sassert b) Q.
Proof. intros -> HQ s Hs. by exists (), s. Qed.

Lemma returns_bind {A B} (m : S A) (f : A → S B) (Q : A → Prop) (R : B → Prop) :
  returns m Q → (∀ a, Q a → returns (f a) R) → returns (sbind m f) R.
Proof.
  intros Hm Hf s Hs. destruct (Hm s Hs) as (a & s1 & E & HQ & Hs1). destruct (Hf a HQ s1 Hs1) as (b & s2 & E2 & HR & Hs2).
  exists b, s2. unfold sbind. by rewrite E.
Qed.

(** A step whose value is known. *)
Lemma returns_step {A B} (m : S A) (f : A → S B) a (R : B → Prop) : returns m (eq a) → returns (f a) R → returns (sbind m f) R.
Proof. intros Hm Hf. eapply returns_bind; [exact Hm |]. by intros ? <-. Qed.

Lemma lift_step {A B} (r : res A) (f : A → S B) a (R : B → Prop) : r = Ok a → returns (f a) R → returns (sbind (slift r) f) R.
Proof. intros Hr Hf. eapply returns_step; [by eapply returns_lift | done]. Qed.

Lemma assert_step {B} b (f : () → S B) (R : B → Prop) : b = true → returns (f ()) R → returns (sbind (sassert b) f) R.
Proof. intros Hb Hf. eapply returns_step; [by apply returns_assert | done]. Qed.

Lemma returns_smapM {A B C} (f : A → S B) (g : C → A) (h : C → B) l :
  Forall (λ x, returns (f (g x)) (eq (h x))) l → returns (smapM f (map g l)) (eq (map h l)).
Proof.
  induction 1 as [| x l Hx _ IH]; simpl; [by apply returns_ret |].
  eapply returns_step; [exact Hx |]. eapply returns_step; [exact IH |]. by apply returns_ret.
Qed.

Lemma returns_with_catalog {A} (m : P A) (Q : A → Prop) :
  (∀ c, wf_catalog c → ∃ a c', m c = Ok (a, c') ∧ Q a ∧ wf_catalog c') → returns (with_catalog m) Q.
Proof.
  intros Hm s Hs. destruct (Hm _ Hs) as (a & c' & E & HQ & Hc'). do 2 eexists. unfold with_catalog. rewrite E.
  split; [done |]. split; [done |]. unfold wf. simpl. by rewrite PlanTyping.types_merge.
Qed.

Lemma returns_apply env o : PlanTyping.has_rows env o → returns (apply env o) (eq o).
Proof.
  intros (args & Ho). unfold apply, outputArg. eapply lift_step; [exact Ho |].
  eapply (returns_bind _ _ (λ _, True)); [| intros _ _; by apply returns_ret].
  clear Ho. induction args as [| a args IH]; simpl; [by apply returns_ret |].
  eapply (returns_bind _ _ (λ _, True)).
  - apply returns_with_catalog. intros c Hc. destruct (info_ok true c a Hc) as (t & c' & E & _ & _); [by left |].
    exists t, c'. split; [done |]. split; [done |]. by destruct (PlanTyping.gives_getOrCreate true (relName a) c t c' Hc E).
  - intros t _. eapply returns_bind; [exact IH |]. intros ts _. by apply returns_ret.
Qed.

Lemma returns_get r : returns (getInput r) (λ o, ∀ i, o = Some i → ∃ args, nested (exprType i) = Some (RecordType args)).
Proof.
  intros s Hs. do 2 eexists. split; [done |]. split; [| done]. intros i Hi. apply (Hs r). unfold types. by rewrite lookup_fmap, Hi.
Qed.

Lemma returns_set r i args : nested (exprType i) = Some (RecordType args) → returns (setInput r i) (λ _, True).
Proof.
  intros Hi s Hs. do 2 eexists. split; [done |]. split; [done |]. intros r' t'. simpl. unfold types.
  rewrite fmap_insert. destruct (decide (r = r')) as [-> |]; [rewrite lookup_insert_eq | rewrite lookup_insert_ne by done; apply Hs].
  intros [= <-]. by exists args.
Qed.

Lemma returns_register r pg : returns (registerPlugin r pg) (λ _, True).
Proof. intros s Hs. by do 2 eexists. Qed.

End returns.

(** ** Plans, written *)

Section plans.
Context {F V : Type} `{FloatOps F, IRBuilder F V}.
Context (UndefValue : llvm_type → V) (dateToTimestamp : string → Z).
Context (read_file : string → Text.str) (parse_file : string → res (json F)).
Context (env : environment) (moduleName : string) (efuel : nat).

Abbreviation json := (json F).
Abbreviation op := (op F V).
Abbreviation expression_t := (expression_t F V).
Abbreviation has_rows := (PlanTyping.has_rows env).
Abbreviation parseExpr := (parseExpr true UndefValue dateToTimestamp read_file parse_file efuel).

(** An expression is registered on its own account, or the plan says so. *)
Definition written_reg (e : expression_t) : option RecordAttribute :=
  match reg e with
  | Some r =>
      if decide (self_registered (ex e) = Some r) then None
      else Some (mk_attr r.1 r.2 r.1 (getExpressionType (ex e)) (-1) false)
  | None => None
  end.

Definition expr_json (e : expression_t) : json := plan_json (ex e) (written_reg e).

Definition writable_expr (args : list RecordAttribute) (e : expression_t) : Prop :=
  encodable args 0 UndefValue (ex e) ∧ (esize (ex e) <= efuel)%nat ∧ parts e = self_parts (ex e) ∧
  match reg e with
  | None => self_registered (ex e) = None
  | Some r => r.1 ≠ "" ∧ typable (unblock (getExpressionType (ex e))) ∧ (tsize (getExpressionType (ex e)) < efuel)%nat
  end.

(** An expression over the rows of an operator. *)
Definition writable_over (o : op) (e : expression_t) : Prop := ∃ args, getRowType env o = Ok args ∧ writable_expr args e.

Lemma members_unregistered (e : expr F V) : member "register_as" (members e) = None.
Proof. pose proof (member_register e []) as E. by rewrite app_nil_r in E. Qed.

Lemma read_parts_ok args (e : expr F V) r : read_parts args (plan_json e r) e = Ok (self_parts e).
Proof.
  destruct e as [| | | | | | | | | l | | | | | | | | | | | | |]; try done. unfold read_parts, plan_json, geta, self_parts.
  cbn -[rmapM zip]. change (at_key _ "attributes") with
    (Ok (JArray (map (λ x : string * expr F V, JObject [("name", JString x.1); ("e", JObject (members x.2))]%string) l)) : res json).
  cbn -[rmapM zip]. apply rmapM_Ok. induction l as [| x l IH]; [constructor |]. simpl. constructor; [| exact IH].
  cbn. unfold part_registration, HasMember. rewrite members_unregistered. done.
Qed.

Lemma parseExpr_written args e : writable_expr args e → returns (parseExpr args (expr_json e)) (eq e).
Proof.
  intros (He & Hs & Hp & Hr). unfold PlanParser.parseExpr.
  eapply (returns_step _ _ (ex e, written_reg e)).
  - apply returns_with_catalog. intros c Hc. exists (ex e, written_reg e), (registered c (written_reg e)).
    split; [| split; [done | by apply registered_wf]].
    apply parse_plan; [done | done | | done]. unfold written_reg. destruct (reg e) as [[r n] |]; [| done].
    destruct (decide _); [done |]. destruct Hr as (Hr & Ht & Hn). split; [| split; [by left | done]].
    split; [done |]. split; [done |]. split; [done |]. split; [unfold in_signed; simpl; lia | done].
  - cbv beta iota. eapply lift_step; [apply read_parts_ok |]. apply returns_ret. unfold written_reg.
    destruct e as [e [[r n] |] ps]; simpl in *; subst ps; [| by rewrite Hr].
    destruct (decide _) as [-> |]; done.
Qed.

Lemma writable_at (o : op) args e : getRowType env o = Ok args → writable_over o e → returns (parseExpr args (expr_json e)) (eq e).
Proof. intros Ho (args' & Ho' & He). rewrite Ho in Ho'. injection Ho' as <-. by apply parseExpr_written. Qed.

Lemma parseExprs_written (o : op) args es : getRowType env o = Ok args → Forall (writable_over o) es →
  returns (smapM (parseExpr args) (map expr_json es)) (eq es).
Proof.
  intros Ho Hes. rewrite <- (map_id es) at 2. apply returns_smapM. eapply Forall_impl; [exact Hes |].
  intros e He. by eapply writable_at.
Qed.

(** ** Operators *)

Definition acc_name (m : Monoid) : string :=
  match m with
  | SUM => "sum" | MAX => "max" | MIN => "min" | MULTIPLY => "multiply" | OR => "or" | AND => "and" | UNION => "union"
  | BAGUNION => "bagunion" | APPEND => "append"
  end%string.

Definition dir_name (d : direction) : string := match d with ASC => "ASC" | NONE => "NONE" | DESC => "DESC" end%string.
Definition gran_name (g : gran_t) : string := match g with GRID => "grid" | BLOCK_ => "block" | THREAD => "thread" end%string.

Definition column_json (x : RecordAttribute * list Z) : json :=
  JObject [("attrName", JString (attrName x.1)); ("v", JArray (map JInt x.2)); ("type", type_json (type x.1))]%string.

Definition sort_json (x : expression_t * direction) : json :=
  JObject [("expression", expr_json x.1); ("direction", JString (dir_name x.2))]%string.

Definition agg_json (x : GpuAggrMatExpr (F := F) (V := V)) : json :=
  JObject [("e", expr_json (a_expr x)); ("m", JString (acc_name (a_m x))); ("packet", JInt (a_packet x)); ("offset", JInt (a_bitoffset x))]%string.

Definition jop (name : string) (l : list (string * json)) : json := JObject (("operator", JString name) :: l)%string.

Definition router_json (input : json) (n slack : Z) (hash : option expression_t) (p : RoutingPolicy) (aff : Affinitizer) : json :=
  jop "router"
    ([("input", input); ("slack", JInt slack); ("cpu_targets", JBool (match aff with CpuCoreAffinitizer => true | _ => false end));
      ("numOfParents", JInt n)]%string ++
     match hash, p with
     | Some h, _ => [("target", expr_json h)]%string
     | None, RANDOM => [("numa_local", JBool false)]%string
     | _, _ => []
     end).

Fixpoint op_json (o : op) : json :=
  match o with
  | Scan (VectorPlugin data) =>
      jop "values" [("relName", JString (match data with (a, _) :: _ => relName a | [] => "" end)); ("values", JArray (map column_json data))]
  | Select p c => jop "select" [("input", op_json c); ("p", expr_json p)]
  | Project _ _ (BlockToTuples (Sort false fields dirs c) _ _ _) | Sort true fields dirs c =>
      jop "sort" [("input", op_json c); ("e", JArray (map sort_json (zip fields dirs)))]
  | Project es _ c => jop "project" [("input", op_json c); ("e", JArray (map expr_json es))]
  | Reduce _ aggs c =>
      jop "reduce" [("input", op_json c); ("accumulator", JArray (map (λ m, JString (acc_name m)) aggs.*2)); ("e", JArray (map expr_json aggs.*1))]
  | HashGroupByChained _ aggs keys c bits n =>
      jop "groupby" [("input", op_json c); ("hash_bits", JInt bits); ("maxInputSize", JInt n); ("k", JArray (map expr_json keys));
                     ("e", JArray (map agg_json aggs))]
  | HashJoin _ _ _ build_k build _ _ probe_k probe bits n =>
      jop "hashjoin-chained" [("probe_input", op_json probe); ("build_input", op_json build); ("hash_bits", JInt bits);
                              ("maxBuildInputSize", JInt n); ("build_k", expr_json build_k); ("probe_k", expr_json probe_k)]
  | Flush es _ c => jop "print" [("input", op_json c); ("e", JArray (map expr_json es))]
  | Router c n _ slack hash p aff => router_json (op_json c) n slack hash p aff
  | UnionAll cs _ => jop "union-all" [("input", JArray (map op_json cs))]
  | MemMoveDevice c _ slack to_cpu => jop "mem-move-device" [("input", op_json c); ("to_cpu", JBool to_cpu); ("slack", JInt slack)]
  | MemBroadcastDevice c _ _ targets to_cpu =>
      jop "mem-broadcast-device" [("input", op_json c); ("to_cpu", JBool to_cpu); ("numOfParents", JInt (Z.of_nat (length targets)))]
  | CpuToGpu c _ => jop "cpu-to-gpu" [("input", op_json c)]
  | GpuToCpu c _ n g => jop "gpu-to-cpu" [("input", op_json c); ("queueSize", JInt n); ("granularity", JString (gran_name g))]
  | BlockToTuples c _ _ _ => jop "unpack" [("input", op_json c)]
  | HashRearrange _ c n fields h _ =>
      jop "hash-pack" [("input", op_json c); ("buckets", JInt n); ("projections", JArray (map expr_json fields)); ("e", expr_json h)]
  | _ => JNull
  end%string.

(** A number that a 32-bit field holds and that does not change when it becomes unsigned. *)
Definition small (z : Z) : Prop := 0 <= z < 2 ^ 31.

(** A column of inline values. *)
Definition column_ok (rel : string) (n : nat) (x : RecordAttribute * list Z) : Prop :=
  length x.2 = n ∧ x.1 = mk_attr rel (attrName x.1) rel (type x.1) (-1) false ∧
  match type x.1 with
  | IntType => Forall (in_signed 32) x.2
  | Int64Type => Forall (in_signed 64) x.2
  | _ => False
  end.

(** The plans of depth at most [n] that can be written. *)
Inductive writable : nat → op → Prop :=
  | w_values n rel k x data : rel ≠ "" → (1 <= efuel)%nat → Forall (column_ok rel k) (x :: data) → writable (Datatypes.S n) (Scan (VectorPlugin (x :: data)))
  | w_select n p c : writable n c → writable_over c p → writable (Datatypes.S n) (Select p c)
  | w_project n e es rel c : writable n c → Forall (writable_over c) (e :: es) → getRegisteredRelName e = Ok rel →
      (∀ fields dirs c' l gpu g, c ≠ BlockToTuples (Sort false fields dirs c') l gpu g) →
      has_rows (Project (e :: es) rel c) → writable (Datatypes.S n) (Project (e :: es) rel c)
  | w_reduce n gpu aggs c : writable n c → has_rows c → Forall (writable_over c) aggs.*1 → PlanTyping.on_gpu c gpu →
      has_rows (Reduce gpu aggs c) → writable (Datatypes.S n) (Reduce gpu aggs c)
  | w_groupby n gpu aggs keys c bits size : writable n c → has_rows c → Forall (writable_over c) keys →
      Forall (λ x, writable_over c (a_expr x) ∧ small (a_packet x) ∧ small (a_bitoffset x)) aggs → PlanTyping.on_gpu c gpu →
      0 <= bits < 2 ^ 32 → 0 <= size < 2 ^ 64 → (gpu = true → 128 * 1024 <= size) →
      has_rows (HashGroupByChained gpu aggs keys c bits size) → writable (Datatypes.S n) (HashGroupByChained gpu aggs keys c bits size)
  | w_join n k bargs be bw bk b pargs pe pw pk p bits size : writable n b → writable n p →
      getRowType env b = Ok bargs → writable_expr bargs bk → join_side env bargs bk = Ok (be, bw) →
      getRowType env p = Ok pargs → writable_expr pargs pk → join_side env pargs pk = Ok (pe, pw) →
      PlanTyping.kind_ok k b p → small bits → 0 <= size < 2 ^ 64 → has_rows (HashJoin k be bw bk b pe pw pk p bits size) →
      writable (Datatypes.S n) (HashJoin k be bw bk b pe pw pk p bits size)
  | w_gpu_sort n fields dirs c : writable n c → isPacked env c = Ok false → PlanTyping.on_gpu c true → Forall (writable_over c) fields →
      length fields = length dirs → make_Sort env true fields dirs c = Ok (Sort true fields dirs c) → has_rows (Sort true fields dirs c) →
      writable (Datatypes.S n) (Sort true fields dirs c)
  | w_sort n fields dirs c sargs s targs e es rel : writable n c → isPacked env c = Ok false → PlanTyping.on_gpu c false →
      Forall (writable_over c) fields → length fields = length dirs →
      make_Sort env false fields dirs c = Ok (Sort false fields dirs c) →
      getRowType env (Sort false fields dirs c) = Ok sargs → arg_name sargs "__sorted" = Ok s →
      getRowType env (BlockToTuples (Sort false fields dirs c) [s] false THREAD) = Ok targs → sorted_attributes targs = Ok (e :: es) →
      getRegisteredRelName e = Ok rel →
      has_rows (Project (e :: es) rel (BlockToTuples (Sort false fields dirs c) [s] false THREAD)) →
      writable (Datatypes.S n) (Project (e :: es) rel (BlockToTuples (Sort false fields dirs c) [s] false THREAD))
  | w_flush n e es a args c : writable n c → Forall (writable_over c) (e :: es) → getRowType env c = Ok (a :: args) →
      Forall (λ e, ∃ n, reg e = Some (moduleName, n)) (e :: es) → dlsym env (creator "pm-csv") = true →
      (∀ rec, opens env (LoadedPlugin (creator "pm-csv") moduleName rec []) = Ok tt) →
      writable (Datatypes.S n) (Flush (e :: es) moduleName c)
  | w_router n k args slack p aff c : writable n c → getRowType env c = Ok args → is_ok (getDOP c) = true →
      0 <= k < 2 ^ 64 → 0 <= slack < 2 ^ 64 → p = LOCAL ∨ p = RANDOM → aff = CpuCoreAffinitizer ∨ aff = GPUAffinitizer →
      writable (Datatypes.S n) (Router c k args slack None p aff)
  | w_router_hash n k args slack h aff c : writable n c → getRowType env c = Ok args → writable_expr args h → is_ok (getDOP c) = true →
      0 <= k < 2 ^ 64 → 0 <= slack < 2 ^ 64 → aff = CpuCoreAffinitizer ∨ aff = GPUAffinitizer →
      writable (Datatypes.S n) (Router c k (without_target args) slack (Some h) HASH_BASED aff)
  | w_union n c c' cs args : (∀ o, o ∈ c :: c' :: cs → writable n o) → getRowType env c = Ok args → is_ok (getDOP c) = true →
      writable (Datatypes.S n) (UnionAll (c :: c' :: cs) args)
  | w_mem_move n c args slack to_cpu : writable n c → isPacked env c = Ok true → getRowType env c = Ok args → block_fields args ≠ [] →
      small slack → writable (Datatypes.S n) (MemMoveDevice c (block_fields args) slack to_cpu)
  | w_broadcast n c args k to_cpu : writable n c → getRowType env c = Ok args → 2 <= Z.of_nat k < 2 ^ 28 →
      has_rows (MemBroadcastDevice c (block_fields args) (8 * Z.of_nat k) (Z.of_nat <$> seq 0 k) to_cpu) →
      writable (Datatypes.S n) (MemBroadcastDevice c (block_fields args) (8 * Z.of_nat k) (Z.of_nat <$> seq 0 k) to_cpu)
  | w_cpu_to_gpu n c args : writable n c → getRowType env c = Ok args → block_fields args ≠ [] → writable (Datatypes.S n) (CpuToGpu c (block_fields args))
  | w_gpu_to_cpu n c args size g : writable n c → getRowType env c = Ok args → small size → writable (Datatypes.S n) (GpuToCpu c args size g)
  | w_unpack n c args fields (gpu : bool) : writable n c → getRowType env c = Ok args → all_attributes args = Ok fields → PlanTyping.on_gpu c gpu →
      has_rows (BlockToTuples c fields gpu (if gpu then GRID else THREAD)) →
      writable (Datatypes.S n) (BlockToTuples c fields gpu (if gpu then GRID else THREAD))
  | w_pack n (gpu : bool) c k fields h hp : writable n c → Forall (writable_over c) (h :: fields) → PlanTyping.on_gpu c gpu → in_signed 32 k →
      (gpu = true → is_ok (rmapM (λ e, getLLVMType (getExpressionType (ex e))) fields) = true) →
      hash_project (length fields) h = Ok hp → has_rows (HashRearrange gpu c k fields h hp) →
      writable (Datatypes.S n) (HashRearrange gpu c k fields h hp).

(** ** Reading what was written *)

Lemma writable_object n o : writable n o → IsObject (op_json o) = true.
Proof. destruct 1; try done. simpl. destruct c; try done. destruct c; try done. by destruct gpu0. Qed.

(** A known value, a check that holds, or an expression that can be read. *)
Ltac rstep :=
  match goal with
  | |- returns (sbind (outputArg _ _) _) _ => eapply lift_step; [eassumption |]
  | |- returns (sbind (slift _) _) _ => eapply lift_step; [first [reflexivity | eassumption] |]
  | |- returns (sbind (sassert _) _) _ => apply assert_step; [first [reflexivity | eassumption] |]
  end.

Section operators.
Context (parseOp : json → S (F := F) (V := V) op).

Abbreviation reads c := (returns (parseOp (op_json c)) (eq c)) (only parsing).
Abbreviation wr f := (f true UndefValue dateToTimestamp read_file parse_file) (only parsing).

Lemma input_step {B} (v : json) k c (f : op → S B) (R : B → Prop) : at_key v k = Ok (op_json c) → reads c →
  returns (f c) R → returns (sbind (input_at parseOp k v) f) R.
Proof. intros Hv Hc Hf. eapply returns_step; [| exact Hf]. unfold input_at. by rstep. Qed.

Lemma object_step {B} (v : json) k n c (f : op → S B) (R : B → Prop) : at_key v k = Ok (op_json c) → writable n c → reads c →
  returns (f c) R → returns (sbind (object_at parseOp k v) f) R.
Proof.
  intros Hv Hw Hc Hf. eapply returns_step; [| exact Hf]. unfold object_at. rstep. apply assert_step; [by eapply writable_object | done].
Qed.

Lemma expr_step {B} (v : json) k args e (f : expression_t → S B) (R : B → Prop) : at_key v k = Ok (expr_json e) → writable_expr args e →
  returns (f e) R → returns (sbind (wr expr_at efuel args k v) f) R.
Proof. intros Hv He Hf. eapply returns_step; [| exact Hf]. unfold expr_at. rstep. by apply parseExpr_written. Qed.

Lemma object_expr_step {B} (v : json) k args e (f : expression_t → S B) (R : B → Prop) :
  at_key v k = Ok (expr_json e) → writable_expr args e → returns (f e) R → returns (sbind (wr object_expr_at efuel args k v) f) R.
Proof. intros Hv He Hf. eapply returns_step; [| exact Hf]. unfold object_expr_at. do 2 rstep. by apply parseExpr_written. Qed.

Lemma exprs_step {B} (v : json) k (o : op) args es (f : list expression_t → S B) (R : B → Prop) :
  geta v k = Ok (map expr_json es) → getRowType env o = Ok args → Forall (writable_over o) es →
  returns (f es) R → returns (sbind (wr parseExprs efuel args v k) f) R.
Proof. intros Hv Ho He Hf. eapply returns_step; [| exact Hf]. unfold parseExprs. rstep. by eapply parseExprs_written. Qed.

Lemma over_expr (o : op) args e : getRowType env o = Ok args → writable_over o e → writable_expr args e.
Proof. intros Ho (args' & Ho' & He). rewrite Ho in Ho'. by injection Ho' as <-. Qed.

Lemma over_rows (o : op) e es : Forall (writable_over o) (e :: es) → has_rows o.
Proof. inversion 1 as [| ? ? (args & Ho & _) ?]; subst. by exists args. Qed.

Lemma select_written n p c : writable n c → reads c → writable_over c p → returns (wr parse_select env efuel parseOp (op_json (Select p c))) (eq (Select p c)).
Proof.
  intros Hw Hc (args & Ho & Hp). unfold parse_select. eapply object_step; [reflexivity | done | done |]. rstep.
  eapply object_expr_step; [reflexivity | done |]. apply returns_apply. by exists args.
Qed.

Lemma project_written e es rel c (v := jop "project" [("input", op_json c); ("e", JArray (map expr_json (e :: es)))]%string) :
  reads c → Forall (writable_over c) (e :: es) → getRegisteredRelName e = Ok rel → has_rows (Project (e :: es) rel c) →
  returns (wr parse_project env efuel parseOp v) (eq (Project (e :: es) rel c)).
Proof.
  intros Hc He Hrel Hrows. destruct (over_rows _ _ _ He) as (args & Ho). unfold parse_project.
  eapply input_step; [reflexivity | done |]. rstep. eapply exprs_step; [reflexivity | done | done |].
  unfold project_. rstep. by apply returns_apply.
Qed.

Lemma parseAccumulator_name m : parseAccumulator (acc_name m) = Ok m.
Proof. by destruct m. Qed.

Lemma device_step {B} (c : op) gpu (f : DeviceType → S (F := F) (V := V) B) (R : B → Prop) : PlanTyping.on_gpu c gpu →
  returns (f (if gpu then GPU else CPU)) R → returns (sbind (slift (getDeviceType c)) f) R.
Proof. intros Hd Hf. by eapply lift_step. Qed.

Lemma decide_gpu (gpu : bool) : bool_decide ((if gpu then GPU else CPU) = GPU) = gpu.
Proof. by destruct gpu. Qed.

Lemma reduce_written gpu aggs c : reads c → has_rows c → Forall (writable_over c) aggs.*1 → PlanTyping.on_gpu c gpu →
  has_rows (Reduce gpu aggs c) → returns (wr parse_reduce env efuel parseOp (op_json (Reduce gpu aggs c))) (eq (Reduce gpu aggs c)).
Proof.
  intros Hc (args & Ho) He Hd Hrows. unfold parse_reduce. eapply input_step; [reflexivity | done |].
  eapply (returns_step _ _ aggs.*2).
  - unfold parse_accumulators. rstep. rewrite <- (map_id aggs.*2) at 2. apply (returns_smapM _ (λ m, JString (acc_name m))).
    apply Forall_forall. intros m _. do 2 rstep. eapply returns_lift; [apply parseAccumulator_name | done].
  - rstep. cbv beta iota. eapply returns_step; [by apply returns_ret |]. rstep. eapply exprs_step; [reflexivity | done | done |].
    unfold reduce. apply assert_step; [rewrite !length_fmap; apply Nat.eqb_refl |]. eapply device_step; [done |].
    rewrite decide_gpu. replace (zip aggs.*1 aggs.*2) with aggs by (symmetry; apply zip_fst_snd). by apply returns_apply.
Qed.

Lemma small_int z : small z → GetInt (F := F) (JInt z) = Ok z ∧ u64 z = z.
Proof.
  intros [H1 H2]. split; [apply GetInt_ok; unfold in_signed; simpl; lia |]. apply wrap_id. lia.
Qed.

Lemma geti_small (v : json) k z : at_key v k = Ok (JInt z) → small z → geti v k = Ok z.
Proof. intros Hv Hz. unfold geti. rewrite Hv. apply (small_int z Hz). Qed.

Lemma getu_ok (v : json) k z : at_key v k = Ok (JInt z) → 0 <= z < 2 ^ 64 → getu v k = Ok z.
Proof. intros Hv Hz. unfold getu. rewrite Hv. by apply GetUint64_ok. Qed.

Lemma groupby_written n gpu aggs keys c bits size (o := HashGroupByChained gpu aggs keys c bits size) :
  writable n c → reads c → has_rows c → Forall (writable_over c) keys →
  Forall (λ x, writable_over c (a_expr x) ∧ small (a_packet x) ∧ small (a_bitoffset x)) aggs → PlanTyping.on_gpu c gpu →
  0 <= bits < 2 ^ 32 → 0 <= size < 2 ^ 64 → (gpu = true → 128 * 1024 <= size) → has_rows o →
  returns (wr parse_groupby env efuel parseOp (op_json o)) (eq o).
Proof.
  intros Hw Hc (args & Ho) Hk Ha Hd Hb Hs Hg Hrows. unfold parse_groupby. eapply object_step; [reflexivity | done | done |].
  eapply lift_step; [eapply getu_ok; [reflexivity | lia] |]. eapply lift_step; [by eapply getu_ok |]. rstep.
  eapply exprs_step; [reflexivity | done | done |]. rstep. eapply (returns_step _ _ aggs).
  - rewrite <- (map_id aggs) at 2. apply (returns_smapM _ agg_json). eapply Forall_impl; [exact Ha |].
    intros x (Hx & Hp & Hoff). unfold parse_aggregate. rstep. eapply lift_step; [by eapply geti_small |].
    eapply lift_step; [by eapply geti_small |]. eapply expr_step; [reflexivity | by eapply over_expr |].
    eapply lift_step; [apply parseAccumulator_name |]. apply returns_ret.
    rewrite (proj2 (small_int _ Hp)), (proj2 (small_int _ Hoff)). by destruct x.
  - unfold groupby. eapply device_step; [done |]. rewrite (wrap_id 32 bits) by lia. subst o.
    destruct gpu; [rewrite Z.max_l by (by apply Hg) |]; by apply returns_apply.
Qed.

Lemma join_written n k bargs be bw bk b pargs pe pw pk p bits size (o := HashJoin k be bw bk b pe pw pk p bits size) :
  writable n b → writable n p → reads b → reads p →
  getRowType env b = Ok bargs → writable_expr bargs bk → join_side env bargs bk = Ok (be, bw) →
  getRowType env p = Ok pargs → writable_expr pargs pk → join_side env pargs pk = Ok (pe, pw) →
  PlanTyping.kind_ok k b p → small bits → 0 <= size < 2 ^ 64 → has_rows o →
  returns (wr parse_hashjoin env efuel parseOp (op_json o)) (eq o).
Proof.
  intros Hwb Hwp Hb Hp Hob Hbk Hbs Hop Hpk Hps Hk Hbits Hsize Hrows. unfold parse_hashjoin.
  eapply object_step; [reflexivity | exact Hwp | done |]. eapply object_step; [reflexivity | exact Hwb | done |].
  eapply lift_step; [eapply getu_ok; [reflexivity | destruct Hbits; lia] |]. eapply lift_step; [by eapply getu_ok |].
  rstep. eapply expr_step; [reflexivity | done |]. rstep. eapply expr_step; [reflexivity | done |].
  unfold join. rstep. eapply lift_step; [exact Hbs |]. cbv beta iota. rstep. eapply lift_step; [exact Hps |]. cbv beta iota.
  assert (swrap 32 bits = bits) as Hswrap.
  { unfold swrap, signed. destruct Hbits. rewrite wrap_id by lia. by rewrite (proj2 (Z.ltb_lt _ _)) by (simpl; lia). }
  destruct k; destruct Hk as [Hd Hown]; (eapply lift_step; [exact Hd |]; eapply lift_step; [exact Hown |]; eapply lift_step; [reflexivity |]);
    rewrite Hswrap; by apply returns_apply.
Qed.

(** ** Sorts *)

Lemma sort_read gpu fields dirs c o (v := jop "sort" [("input", op_json c); ("e", JArray (map sort_json (zip fields dirs)))]%string) :
  reads c → isPacked env c = Ok false → Forall (writable_over c) fields → length fields = length dirs →
  make_Sort env gpu fields dirs c = Ok (Sort gpu fields dirs c) →
  returns (sort env fields dirs c) (eq o) → returns (wr parse_sort env efuel parseOp v) (eq o).
Proof.
  intros Hc Hp Hf Hl Hm Hs. destruct (PlanTyping.make_Sort_cons env _ _ _ _ _ Hm) as (_ & e0 & es0 & ->).
  destruct (over_rows _ _ _ Hf) as (args & Ho). unfold parse_sort.
  eapply input_step; [reflexivity | done |]. rstep.
  assert (rmapM (λ v : json, do dir <- gets v "direction"; parse_direction dir) (map sort_json (zip (e0 :: es0) dirs)) = Ok dirs) as Hdirs.
  { revert Hl. generalize (e0 :: es0) as l. clear. induction dirs as [| d dirs IH]; intros [| e l] Hl; try done. injection Hl as Hl.
    simpl. rewrite (IH l Hl). by destruct d. }
  eapply lift_step; [exact Hdirs |]. rstep. rstep. rstep. eapply (returns_step _ _ (e0 :: es0)); [| done].
  replace (e0 :: es0) with (map fst (zip (e0 :: es0) dirs)) at 2 by (apply fst_zip; lia).
  apply (returns_smapM _ sort_json). apply Forall_forall. intros [e d] He. unfold object_expr_at. do 2 rstep.
  eapply writable_at; [done |]. apply elem_of_zip_l in He. rewrite Forall_forall in Hf. by apply Hf.
Qed.

Lemma sort_checks {B} fields dirs (c : op) gpu (f : DeviceType → S (F := F) (V := V) B) (R : B → Prop) :
  isPacked env c = Ok false → length fields = length dirs → PlanTyping.on_gpu c gpu → returns (f (if gpu then GPU else CPU)) R →
  returns (let* packed := slift (isPacked env c) in
           let* _ := slift (check negb packed else Throw; Ok tt) in
           let* _ := slift (check Nat.eqb (length (fields : list expression_t)) (length (dirs : list direction)) else Throw; Ok tt) in
           let* d := slift (getDeviceType c) in f d) R.
Proof.
  intros Hp Hl Hd Hf. do 2 rstep. eapply lift_step; [by rewrite Hl, Nat.eqb_refl |]. by eapply device_step.
Qed.

Lemma gpu_sort_written fields dirs (c : op) : isPacked env c = Ok false → PlanTyping.on_gpu c true → length fields = length dirs →
  make_Sort env true fields dirs c = Ok (Sort true fields dirs c) → has_rows (Sort true fields dirs c) →
  returns (sort env fields dirs c) (eq (Sort true fields dirs c)).
Proof.
  intros Hp Hd Hl Hm Hrows. unfold sort. apply (sort_checks _ _ _ true); [done | done | done |]. cbv beta iota.
  eapply lift_step; [exact Hm |]. by apply returns_apply.
Qed.

Lemma cpu_sort_written fields dirs (c : op) sargs s targs e es rel (t := BlockToTuples (Sort false fields dirs c) [s] false THREAD) :
  isPacked env c = Ok false → PlanTyping.on_gpu c false → length fields = length dirs →
  make_Sort env false fields dirs c = Ok (Sort false fields dirs c) →
  getRowType env (Sort false fields dirs c) = Ok sargs → arg_name sargs "__sorted" = Ok s →
  getRowType env t = Ok targs → sorted_attributes targs = Ok (e :: es) → getRegisteredRelName e = Ok rel → has_rows (Project (e :: es) rel t) →
  returns (sort env fields dirs c) (eq (Project (e :: es) rel t)).
Proof.
  intros Hp Hd Hl Hm Hs Hn Ht Hsa Hrel Hrows. unfold sort. apply (sort_checks _ _ _ false); [done | done | done |]. cbv beta iota.
  eapply lift_step; [exact Hm |]. eapply returns_step; [apply returns_apply; by eexists |]. rstep. rstep.
  eapply (returns_step _ _ t).
  - unfold unpack_exprs. eapply (device_step _ false); [done |]. eapply lift_step; [reflexivity |]. apply returns_apply. by eexists.
  - eapply lift_step; [exact Ht |]. rstep. unfold project_. rstep. by apply returns_apply.
Qed.

(** ** Outputs *)

Lemma print_written n e es a args c : writable n c → reads c → Forall (writable_over c) (e :: es) → getRowType env c = Ok (a :: args) →
  Forall (λ e, ∃ n, reg e = Some (moduleName, n)) (e :: es) → dlsym env (creator "pm-csv") = true →
  (∀ rec, opens env (LoadedPlugin (creator "pm-csv") moduleName rec []) = Ok tt) →
  returns (wr parse_print env moduleName efuel parseOp (op_json (Flush (e :: es) moduleName c))) (eq (Flush (e :: es) moduleName c)).
Proof.
  intros Hw Hc He Ho Hreg Hdl Hopen. assert (moduleName ≠ "") as Hmod.
  { inversion Hreg as [| ? ? (m & Hm) ?]; subst. inversion He as [| ? ? (args' & _ & _ & _ & _ & Hr) ?]; subst. rewrite Hm in Hr. by destruct Hr. }
  assert (∀ no r t b, RecordAttribute_no no moduleName r t b = Ok (mk_attr moduleName r moduleName (if b then BlockType t else t) no false)) as Hno.
  { intros. unfold RecordAttribute_no. by rewrite (proj2 (String.eqb_neq _ _) Hmod). }
  unfold parse_print. eapply input_step; [reflexivity | done |]. 
  eapply (lift_step _ _ "pm-csv"%string); [reflexivity |]. eapply (lift_step _ _ true); [reflexivity |]. unfold print. rstep.
  set (g := λ x : nat * RecordAttribute, mk_attr moduleName (attrName x.2) moduleName (type x.2) (Z.of_nat x.1 + 1) false).
  eapply (lift_step _ _ (map g (imap pair (a :: args)))).
  { apply rmapM_Ok. rewrite Forall2_fmap_r. apply Forall_Forall2_diag, Forall_forall. intros x _. apply Hno. }
  eapply (returns_step _ _ (LoadedPlugin (creator "pm-csv") moduleName (map g (imap pair (a :: args))) [])).
  { unfold createPlugin. eapply lift_step; [by rewrite Hdl |]. cbn [imap map]. eapply lift_step; [apply Hopen |].
    eapply returns_bind; [apply returns_get |]. intros [i |] Hi; [destruct (Hi i eq_refl) as (iargs & ?) |].
    all: eapply returns_bind; [by eapply returns_set |]; intros _ _; eapply returns_bind; [apply returns_register |]; intros _ _.
    all: by apply returns_ret. }
  eapply (returns_step _ _ (e :: es)).
  { unfold parse_outputs. rstep. rewrite <- (map_id (e :: es)) at 2. apply (returns_smapM _ expr_json).
    apply Forall_forall. intros x Hx. rewrite Forall_forall in He, Hreg.
    eapply returns_step; [by eapply writable_at; [| apply He] |]. destruct (Hreg x Hx) as (m & Hm).
    apply assert_step; [unfold isRegistered; by rewrite Hm | by apply returns_ret]. }
  eapply (lift_step _ _ (e :: es)).
  { apply rmapM_Ok, Forall_Forall2_diag. eapply Forall_impl; [exact Hreg |]. intros [x r ps] (m & Hm). simpl in Hm. by subst r. }
  unfold print_exprs. inversion Hreg as [| ? ? (m & Hm) Hrest]; subst.
  apply assert_step; [unfold isRegistered; by rewrite Hm |]. eapply lift_step; [unfold getRegisteredRelName; rewrite Hm; reflexivity |].
  set (h := λ x : expression_t, mk_attr moduleName (default "" (snd <$> reg x)) moduleName (getExpressionType (ex x)) (-1) false).
  eapply (lift_step _ _ (map h (e :: es))).
  { apply rmapM_Ok. rewrite Forall2_fmap_r. apply Forall_Forall2_diag. eapply Forall_impl; [exact Hreg |].
    intros [x r ps] (k & Hk). simpl in Hk. subst r. unfold getRegisteredAs, RecordAttribute_oid. cbn. by rewrite (proj2 (String.eqb_neq _ _) Hmod). }
  rstep. eapply returns_bind; [by eapply returns_set |]. intros _ _. apply returns_apply. eexists. simpl. unfold flush_row_type, RecordAttribute_oid.
  by rewrite (proj2 (String.eqb_neq _ _) Hmod).
Qed.

(** ** Exchanges *)

Lemma check_router_ok (c : op) h p : is_ok (getDOP c) = true → (p = HASH_BASED ↔ is_Some h) → check_router c h p = Ok tt.
Proof.
  unfold check_router. destruct (getDOP c); [| done]. intros _ Hp. simpl.
  replace (match h with Some _ => true | None => false end) with (bool_decide (p = HASH_BASED)); [by rewrite eqb_reflx |].
  destruct h; [apply bool_decide_eq_true | apply bool_decide_eq_false]; rewrite Hp; [done | by intros [? ?]].
Qed.

Abbreviation wpar := (default_factory (F := F) (V := V)) (only parsing).

Lemma router_read n k slack hash p aff c (v := router_json (op_json c) k slack hash p aff) o :
  writable n c → reads c → 0 <= k < 2 ^ 64 → 0 <= slack < 2 ^ 64 → aff = CpuCoreAffinitizer ∨ aff = GPUAffinitizer →
  match hash with Some _ => p = HASH_BASED | None => p = LOCAL ∨ p = RANDOM end →
  match hash with
  | Some _ => returns (router_hash env (λ args, wr object_expr_at efuel args "target" v) k slack aff c) (eq o)
  | None => returns (router env k slack p aff c) (eq o)
  end → returns (wr parse_router env efuel wpar parseOp v) (eq o).
Proof.
  intros Hw Hc Hk Hs Haff Hp Hr. unfold parse_router. eapply object_step; [reflexivity | done | done |].
  eapply (lift_step _ _ slack); [by apply GetUint64_ok |].
  eapply (lift_step _ _ (match aff with CpuCoreAffinitizer => true | _ => false end)); [reflexivity |].
  eapply (lift_step _ _ k); [by apply GetUint64_ok |].
  eapply (lift_step _ _ p); [by destruct hash; [subst p | destruct Hp as [-> | ->]] |].
  replace (affinitizer_of _ _ _ _ _) with aff by (by destruct Haff as [-> | ->]).
  destruct hash as [h |].
  - eapply (lift_step _ _ true); [reflexivity |]. subst p. by apply assert_step.
  - eapply (lift_step _ _ false); [by destruct Hp as [-> | ->] |]. done.
Qed.

Lemma router_written n k args slack p aff c (o := Router c k args slack None p aff) : writable n c → reads c →
  getRowType env c = Ok args → is_ok (getDOP c) = true → 0 <= k < 2 ^ 64 → 0 <= slack < 2 ^ 64 → p = LOCAL ∨ p = RANDOM →
  aff = CpuCoreAffinitizer ∨ aff = GPUAffinitizer → returns (wr parse_router env efuel wpar parseOp (op_json o)) (eq o).
Proof.
  intros Hw Hc Ho Hdop Hk Hs Hp Haff. apply (router_read n); try done. unfold router.
  apply assert_step; [by destruct Hp as [-> | ->] |]. rstep.
  eapply lift_step; [apply check_router_ok; [done |]; destruct Hp as [-> | ->]; by split; [| intros [? ?]] |]. apply returns_apply. by eexists.
Qed.

Lemma router_hash_written n k args slack h aff c (o := Router c k (without_target args) slack (Some h) HASH_BASED aff) : writable n c → reads c →
  getRowType env c = Ok args → writable_expr args h → is_ok (getDOP c) = true → 0 <= k < 2 ^ 64 → 0 <= slack < 2 ^ 64 →
  aff = CpuCoreAffinitizer ∨ aff = GPUAffinitizer → returns (wr parse_router env efuel wpar parseOp (op_json o)) (eq o).
Proof.
  intros Hw Hc Ho Hh Hdop Hk Hs Haff. apply (router_read n); try done. unfold router_hash. rstep.
  eapply object_expr_step; [reflexivity | done |]. eapply lift_step; [by apply check_router_ok |]. apply returns_apply. by eexists.
Qed.

Lemma union_written n c c' cs args (o := UnionAll (c :: c' :: cs) args) : (∀ x, x ∈ c :: c' :: cs → writable n x) →
  (∀ x, x ∈ c :: c' :: cs → reads x) → getRowType env c = Ok args → is_ok (getDOP c) = true →
  returns (parse_union_all env parseOp (op_json o)) (eq o).
Proof.
  intros Hw Hr Ho Hdop. unfold parse_union_all. rstep. eapply (returns_step _ _ (c :: c' :: cs)).
  - rewrite <- (map_id (c :: c' :: cs)) at 2. apply (returns_smapM _ op_json). apply Forall_forall. intros x Hx.
    apply assert_step; [by eapply writable_object, Hw | by apply Hr].
  - cbv beta iota. unfold unionAll. rstep. eapply lift_step; [by apply check_router_ok; [| split; [| intros [? ?]]] |].
    assert (returns (apply env o) (eq o)) as Happ by (apply returns_apply; by eexists).
    eapply (returns_bind _ _ (λ _, True)); [| by intros _ _].
    fold o. clearbody o. clear -Happ. induction (c' :: cs) as [| x l IH]; simpl; [by apply returns_ret |].
    eapply returns_step; [exact Happ |]. eapply returns_bind; [exact IH |]. intros ys _. by apply returns_ret.
Qed.

Lemma block_fields_ok (args : list RecordAttribute) : block_fields args ≠ [] →
  negb (Nat.eqb (length (block_fields args)) 0) = true ∧ forallb is_block_attr (block_fields args) = true.
Proof.
  intros Hne. split; [by destruct (block_fields args) |]. apply forallb_forall. intros x Hx. apply list_elem_of_In in Hx.
  unfold block_fields in Hx. by apply list_elem_of_filter in Hx as [? _].
Qed.

Lemma mem_move_written n c args slack to_cpu (o := MemMoveDevice c (block_fields args) slack to_cpu) : writable n c → reads c →
  isPacked env c = Ok true → getRowType env c = Ok args → block_fields args ≠ [] → small slack →
  returns (parse_mem_move_device env parseOp (op_json o)) (eq o).
Proof.
  intros Hw Hc Hp Ho Hne Hs. destruct (block_fields_ok args Hne) as [Hb1 Hb2]. unfold parse_mem_move_device.
  eapply object_step; [reflexivity | done | done |]. eapply (lift_step _ _ to_cpu); [reflexivity |].
  eapply (lift_step _ _ slack); [apply (small_int slack Hs) |]. rstep. eapply (lift_step _ _ false); [reflexivity |].
  eapply returns_step; [by apply returns_ret |]. unfold memmove. rstep. apply assert_step; [done |]. rstep.
  apply assert_step; [done |]. apply assert_step; [done |]. rewrite (proj2 (small_int slack Hs)).
  replace (bool_decide _) with to_cpu by (by destruct to_cpu). apply returns_apply. by eexists.
Qed.

Lemma broadcast_written n c args k to_cpu (o := MemBroadcastDevice c (block_fields args) (8 * Z.of_nat k) (Z.of_nat <$> seq 0 k) to_cpu) :
  writable n c → reads c → getRowType env c = Ok args → 2 <= Z.of_nat k < 2 ^ 28 → has_rows o →
  returns (parse_mem_broadcast_device env wpar parseOp (op_json o)) (eq o).
Proof.
  intros Hw Hc Ho Hk Hrows. assert (block_fields args ≠ []) as Hne by (destruct Hrows as (? & Hr); simpl in Hr; by destruct (block_fields args)).
  destruct (block_fields_ok args Hne) as [Hb1 Hb2]. unfold parse_mem_broadcast_device.
  eapply object_step; [reflexivity | done | done |]. eapply (lift_step _ _ to_cpu); [reflexivity |].
  eapply (lift_step _ _ false); [reflexivity |]. eapply (lift_step _ _ (Z.of_nat k)).
  { change (GetUint64 (F := F) (JInt (Z.of_nat (length (Z.of_nat <$> seq 0 k)))) = Ok (Z.of_nat k)).
    rewrite length_fmap, length_seq. apply GetUint64_ok. lia. }
  apply assert_step; [apply negb_true_iff, Z.eqb_neq; lia |]. unfold membrdcst. rstep. apply assert_step; [done |]. apply assert_step; [done |].
  assert (swrap 32 (Z.of_nat k) = Z.of_nat k) as ->.
  { unfold swrap, signed. rewrite wrap_id by lia. by rewrite (proj2 (Z.ltb_lt _ _)) by (simpl; lia). }
  eapply lift_step; [by rewrite (proj2 (Z.leb_le _ _)), (proj2 (Z.ltb_lt _ _)) by lia |].
  rewrite wrap_id by lia. rewrite Nat2Z.id. by apply returns_apply.
Qed.

Lemma cpu_to_gpu_written n c args (o := CpuToGpu c (block_fields args)) : writable n c → reads c → getRowType env c = Ok args →
  block_fields args ≠ [] → returns (parse_cpu_to_gpu env parseOp (op_json o)) (eq o).
Proof.
  intros Hw Hc Ho Hne. unfold parse_cpu_to_gpu. eapply object_step; [reflexivity | done | done |]. unfold to_gpu. rstep.
  apply assert_step; [by apply block_fields_ok |]. apply returns_apply. by eexists.
Qed.

Lemma gpu_to_cpu_written n c args size g (o := GpuToCpu c args size g) : writable n c → reads c → getRowType env c = Ok args → small size →
  returns (parse_gpu_to_cpu env parseOp (op_json o)) (eq o).
Proof.
  intros Hw Hc Ho Hs. unfold parse_gpu_to_cpu. eapply object_step; [reflexivity | done | done |].
  eapply lift_step; [by eapply geti_small |]. eapply (lift_step _ _ g); [by destruct g |]. unfold to_cpu_. rstep.
  rewrite (proj2 (small_int size Hs)). apply returns_apply. by eexists.
Qed.

Lemma unpack_written n c args fields (gpu : bool) (o := BlockToTuples c fields gpu (if gpu then GRID else THREAD)) : writable n c → reads c →
  getRowType env c = Ok args → all_attributes args = Ok fields → PlanTyping.on_gpu c gpu → has_rows o →
  returns (parse_unpack env parseOp (jop "unpack" [("input", op_json c)]%string)) (eq o).
Proof.
  intros Hw Hc Ho Hf Hd Hrows. unfold parse_unpack. eapply object_step; [reflexivity | done | done |]. unfold unpack. do 2 rstep.
  unfold unpack_exprs. eapply device_step; [done |]. rewrite decide_gpu. eapply (lift_step _ _ o); [by destruct gpu |]. by apply returns_apply.
Qed.

Lemma pack_written n (gpu : bool) c k fields h hp (o := HashRearrange gpu c k fields h hp) : writable n c → reads c →
  Forall (writable_over c) (h :: fields) → PlanTyping.on_gpu c gpu → in_signed 32 k →
  (gpu = true → is_ok (rmapM (λ e, getLLVMType (getExpressionType (ex e))) fields) = true) →
  hash_project (length fields) h = Ok hp → has_rows o → returns (wr parse_hash_rearrange env efuel parseOp (op_json o)) (eq o).
Proof.
  intros Hw Hc Hf Hd Hk Hty Hhp Hrows. destruct (over_rows _ _ _ Hf) as (args & Ho). inversion Hf as [| ? ? Hh Hfs]; subst.
  unfold parse_hash_rearrange. eapply object_step; [reflexivity | done | done |].
  eapply (lift_step _ _ k); [by apply GetInt_ok |]. rstep. eapply exprs_step; [reflexivity | done | done |].
  eapply object_expr_step; [reflexivity | by eapply over_expr |]. eapply (lift_step _ _ false); [reflexivity |].
  eapply returns_step; [by apply returns_ret |]. unfold pack_exprs. eapply device_step; [done |].
  eapply (lift_step _ _ tt); [destruct gpu; [| done]; specialize (Hty eq_refl); by destruct (rmapM _ _) |].
  eapply lift_step; [exact Hhp |]. rewrite decide_gpu. by apply returns_apply.
Qed.

(** *** Inline values *)

Lemma rmapM_map {A B} (f : B → res A) (g : A → B) l : Forall (λ x, f (g x) = Ok x) l → rmapM f (map g l) = Ok l.
Proof. intros Hl. apply rmapM_Ok. change (map g l) with (g <$> l). by apply Forall2_fmap_l, Forall_Forall2_diag. Qed.

Lemma column_written rel k x : rel ≠ "" → (1 <= efuel)%nat → column_ok rel k x →
  returns (parse_column (F := F) (V := V) true efuel rel (column_json x)) (eq x).
Proof.
  intros Hr Hf (_ & Ha & Hv). destruct x as [[r n o t no pr] zs]. simpl in *. injection Ha as -> -> -> ->. unfold parse_column. do 3 rstep.
  eapply (returns_step _ _ t).
  { apply returns_with_catalog. intros c Hc. exists t, c. split; [| done].
    apply parse_type_ok; [done | by destruct t | by destruct t]. }
  eapply (lift_step _ _ zs).
  { destruct t; try done.
    - apply (rmapM_map GetInt JInt), (Forall_impl _ _ _ Hv). apply GetInt_ok.
    - apply (rmapM_map GetInt64 JInt), (Forall_impl _ _ _ Hv). intros z Hz. by apply GetInt64_ok. }
  eapply lift_step; [| by apply returns_ret]. unfold RecordAttribute_oid. by rewrite (proj2 (String.eqb_neq _ _) Hr).
Qed.

Lemma columns_ok rel k data : rel ≠ "" → Forall (column_ok rel k) data → ensureRelName data.*1 rel = Ok data.*1.
Proof.
  intros Hr Hd. unfold ensureRelName. rewrite <- (map_id data.*1) at 1. apply (rmapM_map _ id), Forall_fmap, (Forall_impl _ _ _ Hd).
  intros x (_ & Ha & _). unfold RecordAttribute_oid, compose, id. rewrite (proj2 (String.eqb_neq _ _) Hr). simpl. by rewrite <- Ha.
Qed.

Lemma columns_rel rel k x data : Forall (column_ok rel k) (x :: data) → relName x.1 = rel.
Proof. intros (Hx & _)%Forall_cons_1. destruct Hx as (_ & -> & _). done. Qed.

Lemma columns_row_type rel k x data : rel ≠ "" → Forall (column_ok rel k) (x :: data) →
  plugin_row_type env (VectorPlugin (x :: data)) = Ok (map (λ a, RecordAttribute_copy a true) (x :: data).*1).
Proof.
  intros Hr Hd. assert (relName x.1 = rel) as Hx by (by eapply columns_rel).
  destruct x as [a v]. simpl in Hx. unfold plugin_row_type, block_row_type. rewrite Hx.
  rewrite (columns_ok rel k _ Hr Hd). cbn -[rmapM].
  apply rmapM_Ok. change (Forall2 (λ a b, (check negb (is_block_attr a) else AssertFailed; Ok (RecordAttribute_copy a true)) = Ok b)
    ((a, v) :: data).*1 (map (λ a, RecordAttribute_copy a true) ((a, v) :: data).*1)).
  induction Hd as [| [b w] l (_ & _ & Hb) _ IH]; [constructor |]. simpl. constructor; [| exact IH]. simpl in Hb.
  unfold is_block_attr. by destruct (type b).
Qed.

Lemma values_written rel k x data (o := Scan (VectorPlugin (x :: data)) : op) : rel ≠ "" → (1 <= efuel)%nat → Forall (column_ok rel k) (x :: data) →
  returns (parse_values (F := F) (V := V) true env efuel (op_json o)) (eq o).
Proof.
  intros Hr Hf Hd. assert (relName x.1 = rel) as Hx by (by eapply columns_rel).
  unfold parse_values. do 2 rstep. eapply (returns_step _ _ (x :: data)).
  { rewrite <- (map_id (x :: data)) at 2. apply (returns_smapM _ column_json). eapply Forall_impl; [exact Hd |].
    intros y Hy. destruct x as [a v]. simpl in *. rewrite Hx. by eapply column_written. }
  pose proof (columns_row_type rel k x data Hr Hd) as Hrow. pose proof (columns_ok rel k _ Hr Hd) as Hrel.
  destruct x as [a v]. simpl in Hx. unfold scan_values. rewrite Hx. eapply (lift_step _ _ tt).
  { rewrite Hrel. cbn -[forallb]. rewrite (proj2 (forallb_forall _ _)); [done |]. intros y Hy. apply list_elem_of_In in Hy.
    apply Nat.eqb_eq. rewrite Forall_forall in Hd. destruct (Hd y Hy) as (-> & _).
    exact (proj1 (Hd (a, v) (list_elem_of_here _ _))). }
  eapply lift_step; [exact Hrow |]. eapply returns_bind; [apply returns_get |]. intros i Hi.
  assert (∃ args, nested (exprType (match i with Some i => i | None =>
    mk_info rel (BagType (RecordType (map (λ a, RecordAttribute_copy a true) ((a, v) :: data).*1))) None end)) = Some (RecordType args)) as (args & Hargs).
  { destruct i as [i |]; [by apply Hi | by eexists]. }
  eapply returns_bind; [eapply returns_set; exact Hargs |]. intros _ _.
  eapply returns_bind; [apply returns_register |]. intros _ _. by apply returns_ret.
Qed.

End operators.

(** ** The round trip *)

Abbreviation readOp := (parseOperator true UndefValue dateToTimestamp read_file parse_file env moduleName efuel default_factory).

Lemma operator_step n name l (o : op) :
  returns (dispatch true UndefValue dateToTimestamp read_file parse_file env moduleName efuel default_factory (readOp n) name (jop name l)) (eq o) →
  returns (readOp (Datatypes.S n) (jop name l)) (eq o).
Proof. intros Hd. cbn [parseOperator]. eapply lift_step; [reflexivity | exact Hd]. Qed.

Lemma project_json e es rel (c : op) : (∀ fields dirs c' l gpu g, c ≠ BlockToTuples (Sort false fields dirs c') l gpu g) →
  op_json (Project (e :: es) rel c) = jop "project" [("input", op_json c); ("e", JArray (map expr_json (e :: es)))]%string.
Proof.
  intros Hc. destruct c as [| | | | | | | | | | | | | | | | | | | | | c l gpu g | | | | | |]; try done.
  destruct c as [| | | | | | | | | | | s fields dirs c' | | | | | | | | | | | | | | | |]; try done.
  destruct s; [done |]. by destruct (Hc fields dirs c' l gpu g).
Qed.

Lemma plan_written n o : writable n o → returns (readOp n (op_json o)) (eq o).
Proof.
  induction 1 as [n rel k x data | n p c Hw IH | n e es rel c Hw IH He Hrel Hno | n gpu aggs c Hw IH | n gpu aggs keys c bits size Hw IH
    | n k bargs be bw bk b pargs pe pw pk p bits size Hwb IHb Hwp IHp | n fields dirs c Hw IH Hp Hd Hf Hl Hm
    | n fields dirs c sargs s targs e es rel Hw IH Hp Hd Hf Hl Hm | n e es a args c Hw IH | n k args slack p aff c Hw IH
    | n k args slack h aff c Hw IH | n c c' cs args Hw IH | n c args slack to_cpu Hw IH | n c args k to_cpu Hw IH
    | n c args Hw IH | n c args size g Hw IH | n c args fields gpu Hw IH | n gpu c k fields h hp Hw IH].
  3: rewrite (project_json _ _ _ _ Hno).
  all: apply operator_step.
  - by eapply values_written.
  - by eapply select_written.
  - by eapply project_written.
  - by eapply reduce_written.
  - by eapply groupby_written.
  - by eapply join_written.
  - eapply sort_read; [done | done | done | done | exact Hm | by apply gpu_sort_written].
  - eapply sort_read; [done | done | done | done | exact Hm | by eapply cpu_sort_written].
  - by eapply print_written.
  - by eapply router_written.
  - by eapply router_hash_written.
  - by eapply union_written.
  - by eapply mem_move_written.
  - by eapply broadcast_written.
  - by eapply cpu_to_gpu_written.
  - by eapply gpu_to_cpu_written.
  - by eapply unpack_written.
  - by eapply pack_written.
Qed.

(** C12: a plan that can be written is read back as it was, by a reader with enough fuel for its depth and
    from any catalog of collections of records: inline values under selections, projections,
    reductions, groupings, joins, sorts, output, routers, unions, transfers, unpacking and packing. *)
Theorem plan_roundtrip n o s : writable n o → wf_catalog (types (inputs s)) →
  ∃ s', parsePlan true UndefValue dateToTimestamp read_file parse_file env moduleName efuel default_factory n (op_json o) s = Ok (o, s') ∧
    wf_catalog (types (inputs s')).
Proof.
  intros Ho Hs. destruct (plan_written n o Ho (set_splits ∅ s) Hs) as (a & s' & E & <- & Hs'). by exists s'.
Qed.

End plans.

(** ** An example: the join of two inline relations *)

Import Interp PlanTyping.

Definition ex_block (rel : string) : RecordAttribute := mk_attr rel "x" rel (BlockType IntType) (-1) false.
Definition ex_rows (rel : string) (l : list Z) : op Z IV :=
  BlockToTuples (Scan (VectorPlugin [(ex_col rel, l)])) [of_expr (RecordProjection (InputArgument [ex_block rel] 0) (ex_block rel))] false THREAD.
Definition ex_join : op Z IV :=
  HashJoin HashJoinChained [] [64] (of_expr (ex_key "s")) (ex_rows "s" [1; 2]) [] [64] (of_expr (ex_key "t")) (ex_rows "t" [2; 3; 2]) 4 16.

Lemma ex_rows_writable rel l : rel = "s"%string ∨ rel = "t"%string → Forall (in_signed 32) l → writable ex_undef ex_env "q" 20 2 (ex_rows rel l).
Proof.
  intros Hrel Hl. apply (w_unpack ex_undef ex_env "q" 20 1 _ [ex_block rel] _ false).
  - apply (w_values _ _ _ _ 0 rel (length l)); [by destruct Hrel as [-> | ->] | lia |]. by repeat constructor.
  - by destruct Hrel as [-> | ->].
  - by destruct Hrel as [-> | ->].
  - done.
  - destruct Hrel as [-> | ->]; by eexists.
Qed.

Lemma ex_key_writable rel : rel = "s"%string ∨ rel = "t"%string → writable_expr ex_undef 20 [ex_col rel] (of_expr (ex_key rel)).
Proof.
  intros [-> | ->].
  - repeat split; try done; try (by vm_compute); try (cbn; lia). exists [ex_col "s"]. by vm_compute.
  - repeat split; try done; try (by vm_compute); try (cbn; lia). exists [ex_col "t"]. by vm_compute.
Qed.

Lemma plan_roundtrip_witness :
  ∃ s', parsePlan true ex_undef (λ _, 0) (λ _, []) (λ _, Err Throw) ex_env "q" 20 default_factory 3 (op_json ex_join) ex_state = Ok (ex_join, s') ∧
    wf_catalog (types (inputs s')).
Proof.
  apply plan_roundtrip.
  - apply (w_join ex_undef ex_env "q" 20 2 HashJoinChained [ex_col "s"] [] [64] _ _ [ex_col "t"] [] [64]).
    all: try (apply ex_rows_writable; [auto | repeat constructor; unfold in_signed; simpl; lia]).
    all: try (apply ex_key_writable; auto).
    all: try done; try (by eexists); try lia.
  - intros r t. by vm_compute.
Defined.

End PlanRoundtrip.
